(* ===== verification/_CoqProject ===== *)
-Q . S2P
Prelude.v
EventIds.v
Value.v
Event.v
OpsBasic.v
Batch.v
RoundRobin.v
Backpressure.v
Wal.v
Graph.v
Grouper.v
GraphSpec.v
Optimize.v
Frames.v
Gelf.v
Url.v
Lifecycle.v
Repository.v
Registry.v
Qos.v
Network.v
Pipeline.v
PipelineSpec.v
Source.v
Offramp.v
SourceSpec.v
Wiring.v
World.v
WorldSpec.v
LinkSpec.v
Api.v
ValueOrd.v
Text.v
Influx.v
Window.v
TiltFrames.v
Select.v
SelectRefine.v
SimpleSelect.v
ScriptOps.v
BInflux.v
Statsd.v
StdLib.v
StdAggr.v
StdSpec.v
Bits.v
Ast.v
Extractors.v
Interp.v
ScriptTypes.v
ScriptPaths.v
ScriptMatch.v
ScriptMatchSpec.v
ScriptMatchRun.v
ScriptFold.v
ScriptGroup.v
Token.v
Lexer.v
LexerTotal.v
LexerSpec.v
LexerRun.v
Preprocess.v
PreprocessSpec.v
RawAst.v
ScriptUp.v
ScriptUpSpec.v
ScriptUpWf.v
AstInd.v
Walkers.v
WalkSpec.v
QueryAst.v
Operators.v
Query.v
QuerySpec.v
QueryRun.v
Lang.v
QueryUp.v
QueryUpSpec.v
QueryUpRun.v
