(* ===== verification/Prelude.v ===== *)
(** * Tremor runtime: a verification library

    Tremor is an event processing system.  Onramps read data from outside,
    split it into messages (preprocessors) and decode them into events; events
    flow through pipelines, graphs of operators; offramps encode the results
    (postprocessors) and write them out.  Signals (ticks, shutdown) flow
    through a pipeline like events, insights (acknowledgements, failures and
    circuit breaker actions) flow back through it, against the direction of
    the events, to the onramp.  Pipelines, onramps and offramps are artefacts
    in a repository, their running instances are servants in a registry.

    This library models the core of it, definition by definition, and proves
    what makes each part correct.

    ** Files

    - [Prelude]: machine integers, results and errors, hash maps of unknown
      order, vectors and the binary search of the standard library, work
      lists; the hint database [tremor] with the equations the automation
      rewrites with.  A file that follows adds its own equations to it.
    - [EventIds]: event ids, the ranges of ids they track and their generator
      (tremor-pipeline/src/lib.rs).
    - [Value]: values, their accessors and the payload of an event
      (tremor-value/src/value.rs).  [ValueOrd]: the order on values, same file.
    - [Event]: events, insights, operator metadata, and the interface
      [Operator] with the contract [data_operator] a graph expects of its
      operators (tremor-pipeline/src/event.rs, lib.rs, op.rs).
    - [OpsBasic], [Batch], [RoundRobin], [Backpressure], [Wal]: the operators
      passthrough, counter and history, batch, round robin, backpressure and
      percentile, and the write ahead log, with its instance of
      [data_operator] (tremor-pipeline/src/op/).
    - [Graph]: the executable graph: event, signal and insight flow over an
      explicit stack, with metrics (tremor-pipeline/src/executable_graph.rs).
      [GraphSpec]: its theorems.  [Optimize]: the removal of operators that
      pass events on unchanged, same source.
    - [Grouper]: the bucket grouper, a rate limit for each class of events
      (tremor-pipeline/src/op/grouper/bucket.rs).
    - [Frames]: pre- and postprocessors and their chains, lines and both
      length prefixed formats (src/preprocessor.rs, preprocessor/lines.rs,
      postprocessor.rs).  [Gelf]: chunked messages, encoder and reassembly
      (preprocessor/gelf.rs, postprocessor/gelf.rs).
    - [Url]: the names of artefacts, servants and ports (src/url.rs).
      [Lifecycle]: the states of a servant (src/lifecycle.rs).  [Repository],
      [Registry]: the two actors that hold artefacts and servants
      (src/repository.rs, repository/artefact.rs, src/registry.rs).
    - [Qos]: failure detection for sinks (src/connectors/qos.rs).
    - [Network]: the messages tasks send each other, what may happen to them
      on the way, and the counters of onramps and offramps (the message types
      of src/pipeline.rs, onramp.rs and offramp.rs, src/metrics.rs); the merge
      of a channel of high and one of low priority (src/permge.rs).  [Pipeline]: the task that runs a graph
      (src/pipeline.rs); [PipelineSpec]: its theorems.  [Source]: the task and
      manager of an onramp (src/source.rs); [SourceSpec]: its theorems.
      [Offramp]: the task of an offramp and the manager of its sink
      (src/offramp.rs, src/sink.rs).  [Wiring]: onramps, pipelines and
      offramps put together.
    - [World]: deployment: how artefacts are bound to instances and instances
      are linked, over the repositories and the registries (src/system.rs,
      repository/artefact.rs, the loading of files in src/lib.rs).
      [WorldSpec]: what every call keeps; [LinkSpec]: what linking a binding
      does, and a small system.  [Api]: the REST API over it
      (tremor-api/src/, the routes of tremor-cli/src/server.rs), and its
      answers.
    - [Window]: the script interpreter as an interface, windows, tilt frames
      and groups (tremor-pipeline/src/op/trickle/window.rs, and the two
      helpers of trickle/select.rs they call).  [TiltFrames]: the abstract
      chain of queues they refine.  [Select]: the select operator
      (trickle/select.rs).  Its limit on groups, and its instance
      of [data_operator].  [SelectRefine]: its refinement of keyed chains.
      [SimpleSelect]: selects without windows and groups
      (trickle/simple_select.rs), against the select operator.
    - [ScriptOps], [Bits]: the operators of the script language on values
      (tremor-script/src/interpreter.rs) and the writing of binary literals
      (interpreter/imut_expr.rs, ast/binary.rs).
    - [Ast]: the syntax trees of scripts (tremor-script/src/ast.rs), and what
      scripts call, as the class [script_lib].  [Interp]: their interpreter
      (interpreter.rs, interpreter/expr.rs, interpreter/imut_expr.rs,
      registry/custom_fn.rs).  [ScriptTypes]: the scripts it runs without an
      internal error.  [ScriptPaths]: reading, assigning and testing paths.
    - [Extractors]: the extractors of patterns (tremor-script/src/tilde.rs).
    - [ScriptMatch], [ScriptMatchSpec], [ScriptMatchRun]: how the clauses of a
      match are costed, sorted and grouped (ast.rs, ast/raw.rs,
      ast/analyzer.rs), and why what is built runs as what was written.
    - [ScriptFold]: constant folding and inlining of functions
      (ast.rs, ast/raw.rs, registry/custom_fn.rs).  [ScriptGroup]: the
      groups of a select (ast/query.rs).
    - [Token]: locations, tokens and how they are printed
      (tremor-script/src/pos.rs, lexer.rs).  [Lexer]: the lexer, same source;
      [LexerTotal]: that it ends on every source; [LexerSpec]:
      a grammar of tokens and strings without locations;
      [LexerRun]: that the lexer and the grammar are the same.
      [Preprocess]: the preprocessor, which includes other files (lexer.rs,
      path.rs); [PreprocessSpec]: its theorems.
    - [RawAst]: the raw syntax trees of the parser, [ScriptUp]: how they become
      what is run (ast/raw.rs, ast/upable.rs, the [Helper] of ast.rs,
      script.rs).  [ScriptUpSpec]: lemmas on its parts; [ScriptUpWf]: a Hoare
      logic for it, and that what is accepted is well formed; what
      that means at run time, with examples.
    - [AstInd]: induction over syntax trees and raw syntax trees.
      [Walkers]: the walker of immutable expressions and the visitors that
      rewrite arguments, fold, and look for references to the event
      (ast/walkers.rs, ast/visitors.rs, ast/visitors/).  [WalkSpec]:
      what every walk keeps, when the result runs like the original, and
      what arguments that are put in place do.
    - [Text]: bytes, UTF-8 and the numbers of text formats.
      [Influx], [BInflux], [Statsd]: the codecs of these formats
      (tremor-influx/src/, src/codec/binflux.rs, src/codec/statsd.rs).
    - [StdLib]: the registry of the functions scripts call, the macros that
      define them and the standard library (tremor-script/src/registry.rs,
      ctx.rs, std_lib/, utils.rs).  [StdAggr]: the aggregate functions
      (std_lib/stats.rs, std_lib/win.rs).  [StdSpec]: their theorems.
    - [QueryAst]: the statements of a query (tremor-script/src/ast/query.rs,
      ast/node_id.rs), and the nodes that run a script (trickle/script.rs,
      tremor-script/src/srs.rs).  [Operators]: the sum of all operators, as
      the code boxes them, and which one a node gets (lib.rs, query.rs,
      trickle/operator.rs).  [Query]: the graph that is built for a query
      (tremor-pipeline/src/query.rs).  [QuerySpec], [QueryRun]: its theorems.
    - [Lang]: the interpreter as the language of windows and selects
      ([Interp] behind the interface of [Window]).  [QueryUp]: raw
      queries, and how they become the statements a pipeline is built from,
      with modules, declarations and the inlining of subqueries
      (tremor-script/src/ast/query/raw.rs).  [QueryUpSpec]: the names inlined
      statements have, and that inlining ends; [QueryUpRun]: queries
      that are elaborated, built and run.

    ** How the code is represented

    A method that changes its receiver takes the state and returns the new one
    next to its result; the state is returned on errors too, as the code
    leaves it.  [Result] is [result], with an error kind for each kind the
    code raises.  A panic is the kind [EPanic]: no caller handles it, and the
    task it reaches ends ([log_error] in [Pipeline]); what a script gives is a
    [call_result], in which panics are apart from errors; the lexer has
    [LexPanic], which ends the collecting of tokens.  [u64] and [usize] are numbers below [2^64] with the wrapping
    arithmetic of the release profile; floats are IEEE binary64 ([SpecFloat]).
    The generic code of a trait is a class with its instances: [Operator],
    [CanaryProbe], [FailureDetector], [SinkQoS], [Codec], [Source], [Sink],
    [Offramp].  The clock, random numbers
    and port scans are arguments.

    Code that is not part of the repository is a class whose fields are its
    functions and whose laws are their documented behaviour, with an instance
    that shows the laws can hold: [value_trait] (value-trait and simd-json
    accessors), [hash_order] (the iteration order of hash maps), [sled] (the
    embedded database), [event_json] and [event_json_data] (events as JSON),
    [lru_cache], [time_window] and [json_writer] (the caches, windows and keys
    of the bucket grouper), [petgraph] (the test for cycles), [codecs] (compression
    and base64, of which nothing is assumed), [url_crate] (the URL parser).
    For the REST API: [api_libs] (JSON, YAML and the parsing of queries).
    For the lexer: [lexer_libs] (the characters of identifiers, JSON strings,
    reading floats); for the preprocessor [file_system].  For scripts: [script_lib] (the functions of the standard library, the
    aggregate functions and the extractors a script calls), [registries]
    (where these are found by name), [analysis] and
    [sound_analysis] (what the building of matches asks of expressions and
    patterns), [extractor_libs] (regular expressions, globs, grok and the other
    parsers behind extractors), [numbers] and [float_parser] (printing and
    reading numbers).  For the standard library: [std_libs] (the crates its
    functions wrap, dates included, and the printing of values) and [histograms] (the two
    sketches behind the percentiles).
    Windows and select are proved against what they call of scripts, the class
    [script_lang], of which nothing is assumed: they hold for any interpreter;
    so do the nodes that run a script ([script_runtime]) and the selects without
    windows ([event_target]).  [operator_configs] reads the configurations of
    operators, as serde does.

    The interpreter is a set of functions that are structural in the syntax
    tree, the body of a called function being part of the tree; only the loop
    of a tail recursive function is counted, by the recursion limit of the
    code itself.  Values borrowed from the event, the state and the locals are
    copies; the marker a tail call leaves in a function is the result
    [RecurRef]; source positions and node ids only matter for messages and are
    left out.

    Tasks run on their own and talk through channels.  What a task sends is
    appended to a log of packets, in order; whether a receiver is still there
    is the class [network], of which nothing is assumed, so every send may
    fail.  The monad [net] threads the log and lets errors pass as values; in
    [proc] an error ends the function, as [?] does.  What a task receives is a
    list of rounds of arrivals on each of its channels: the merge decides, as
    the code does, which message comes next, and the task is a recursion over
    what the merged channel yields.  The calls of [World] are procedures of the
    same kind, a message to a repository or registry and its reply being one
    step; calls of different callers are not interleaved.  What starting a
    task gives, and what a task answers, is the class [runtime], of which
    nothing is assumed.

    Loops that are not structural take fuel, with a theorem that it is enough:
    the event loop of a graph ends because each round replaces the head of the
    stack by finitely many entries further down an acyclic graph
    ([lower_wf], [run_terminates]); the binary search shrinks its interval at
    every probe ([bs_loop]); the frame readers take a byte or stop
    ([frame_loop_total]); the optimiser has the code's own bound of a thousand
    rounds and needs two ([optimize_two]); parsing a URL calls the parser at
    most twice ([parse_url_defined]); a transition of a servant goes round at
    most twice ([transition_defined]); reading an influx line takes a byte at
    every round ([parse_fields_enough], [parse_tags_enough]); the lexer and the
    interpolations it calls itself for take a character or a stored token
    ([next_good]); a file is never on the include stack twice, so files include
    each other no deeper than there are files ([preprocess_terminates]); what a
    subquery creates is looked up under its own name, so that subqueries are
    inlined into each other at most three deep ([build_query_terminates]).

    ** What is shown

    - Event flow: every event and signal is processed to completion in an
      acyclic graph, without out of bounds accesses, leaving no work behind;
      it is processed depth first, delivered once on every connection and
      counted; insights visit the nodes behind their origin
      ([GraphSpec]); optimising keeps the connections between the operators
      that remain ([Optimize]).
    - Queries: whatever the statements, the graph that is built for an accepted
      query has exactly the connections the statements name, each name standing
      for the last node that has it ([last_named]), before and after
      optimising, is acyclic and well formed, and all its operators keep the
      contract of the graph: the pipeline serves all its messages, unless a
      grouper or a script panics, which ends it
      ([QuerySpec], [QueryRun]).
    - Elaboration of queries: inlining subqueries ends, gives every
      port a stream and uses internal names only ([QueryUpSpec]); an expression
      whose arguments are put in place does what it did with them
      ([WalkSpec]).
    - Delivery guarantees: what an event id tracks is the least set of ranges
      that covers its ids, in any order of merging; batches track the ids of
      their events; the log keeps what is not acknowledged and reads it back
      in order ([EventIds], [Batch], [Wal]).
    - Operators: batching against an abstract batch, fairness and circuit
      breakers of the round robin, backoff and spacing of the backpressure
      operator, the bounds of the percentile operator; the grouper against a
      map of windows that forgets nothing it has room for ([Grouper]).
    - Windows and select: count based windows emit at the multiples of their
      size and time based ones when their interval is over ([Window]); tilt
      frames lose, double and reorder nothing, and what they emit is computed
      from aggregates that hold exactly the emitted events ([TiltFrames]);
      groups are kept apart and within their limit ([Select],
      [SelectRefine]); a select without windows and groups is the select
      operator with an empty list of windows, for guards that read the event
      only ([SimpleSelect]).  The refinement is about events handled without an
      error; ticks are part of the model and of the limit on groups.
    - Framing: lines, length prefixes and chunks are read back as they were
      written, however the stream is cut or the packets are ordered.
    - Codecs: what the influx, binary influx and statsd encoders write is
      decoded to the same measurement.
    - Sources: every source is cut into tokens to its end, or to the panic of
      an extractor that is indented with white space of several widths
      ([LexerTotal]), and into exactly those a grammar derives, with strings in interpolations in
      strings to any depth ([LexerRun]); preprocessing ends and reports cycles
      ([PreprocessSpec]).
    - Scripts: a script that is well formed never raises an internal error and
      keeps its locals in place ([ScriptTypes]); every script that is accepted
      is well formed, unless a function has two arguments of one name or an
      assigned pattern is an assignment ([ScriptUpWf]); what is assigned is read back
      and nothing else changes, a path is present exactly if it resolves
      ([ScriptPaths]); grouping and reordering of the clauses of a match keeps
      the clause that runs ([ScriptMatchRun]); folded and inlined expressions
      give the results of the originals ([ScriptFold]); a group by expression
      gives the product of its parts ([ScriptGroup]); bits of a binary literal
      are appended in order ([Bits]).
    - Deployment: URLs are parsed back from what they display; a servant lives
      once; a repository protects artefacts in use; a registry finds what was
      published in it; whatever is called, servants are instances of their
      artefacts ([WorldSpec]), and a binding that is linked has started and
      connected both ends of all its links ([LinkSpec]); the REST API refuses to
      delete what is in use ([Api]).
    - Tasks: a pipeline serves every message of every channel it has, however
      they arrive, and an error in one stops neither the task nor what was
      already produced, only a panic does ([PipelineSpec]); an onramp numbers
      its events one after the other, the next number being as far as the data
      that was read is wide ([run_width] in [SourceSpec]), and sends nothing while the breaker is triggered ([SourceSpec]); an
      offramp answers every transactional event, the answer arrives at the
      onramp through the pipelines between them, and what is linked and
      unlinked again is as before ([Wiring]).
    - Standard library: every registered function refuses exactly the numbers
      of arguments it does not declare, and constant ones look neither at the
      event nor at the clock; replacing text is splitting and joining it; records and arrays
      are turned into each other and back; count, max, first, last and
      collect_flattened may be merged along a chain of windows ([StdSpec]).
    - Values: the order is a total preorder as long as there are no floats.

    Where the code departs from its documentation or from what it means to
    do, the theorem states what it does, or a lemma next to it shows the
    difference: [optimize_adds_route], [length_prefix_holds_back],
    [textual_length_stuck], [float_order_not_transitive], [display_relative];
    [boundary_event_untracked], [refused_group_leaks],
    [second_group_tracks_first], [tick_drops_ids];
    [disconnected_onramp_remains], [emptied_port_counts]; [fan_stays],
    [last_mapping]; [trickle_client], [broken_json], [instances_in_line];
    [metadata_guard], [no_windows], [stream_named_select],
    [contraflow_by_creation], [subquery_port_links];
    [point_at_end], [wide_character_at_end], [record_pattern_in_string],
    [alias_without_semicolon], [module_included],
    [sign_in_exponent], [hexadecimal_sign], [hexadecimal_minimum];
    [double_argument_fails], [nested_assign_fails], [unbound_variable],
    [open_recur_more], [constant_wins];
    [expression_path_kept], [three_deep], [operator_not_found], [names_collide],
    [aggregate_arguments_kept], [undeclared_parameters], [constants_shared],
    [constant_field_lost];
    [min_of_windows], [var_of_windows], [full_cache_lost], [substr_beyond],
    [path_skips], [large_integer], [rename_order],
    [rounds_down], [years_wrap], [no_hours];
    [integer_tree_misses], [inline_more_arguments], [two_dimensions],
    [bad_segment_fails], [mixed_indentation], [no_fields],
    [tcp_loses_last_byte];
    the log reads one event more than configured, a registry replaces a
    servant it reports an error for, and a sink's probe may never scan.

    ** What is not modelled

    Input and output itself, parsing and printing done by libraries (JSON,
    YAML, msgpack, command line, HTTP), logging.  The grammar
    (generated by a parser generator) and the highlighter; the equality of
    syntax trees, of which the laws that are used are those of the class
    [sound_analysis]; walkers of expressions that only tests use; grok
    patterns.  The interpreter is proved for any [script_lib]; it is not
    instantiated with the functions of [StdLib].  Panics of the crates behind
    standard library functions (random numbers between infinite bounds,
    formats of dates chrono does not know) are not represented.
    The single
    kinds of sources and sinks, which speak network protocols through
    libraries: they are the classes [Source] and [Sink]; codecs that are
    libraries; the conversions of the telemetry protocol, from and to generated
    structures.  The refinement of the select operator leaves out ticks.  A
    select runs each of its expressions with local variables of its own, where
    the code has one set for an event: elaboration refuses selects with local
    variables other than the internal ones, which are set before they are
    read. *)

From stdpp Require Export base numbers list option gmap strings sorting.

(** ** Machine integers

    [u64] and [usize] (64 bit targets) are kept as [N] below [w64].  The
    arithmetic is that of the release profile of [Cargo.toml], which leaves
    [overflow-checks] off: results wrap modulo [2^64]. *)
Abbreviation u64 := N (only parsing).
Abbreviation usize := N (only parsing).

Definition w64 : N := 18446744073709551616.
Definition u64_max : N := 18446744073709551615.

Definition u64_ok (n : N) : Prop := (n < w64)%N.
Definition u64_add (a b : N) : N := ((a + b) mod w64)%N.
Definition u64_sub (a b : N) : N := ((a + w64 - b) mod w64)%N.
Definition u64_mul (a b : N) : N := ((a * b) mod w64)%N.

Lemma u64_add_ok a b : u64_ok (u64_add a b).
Proof. unfold u64_ok, u64_add. apply N.mod_lt. done. Qed.

Lemma u64_sub_ok a b : u64_ok (u64_sub a b).
Proof. unfold u64_ok, u64_sub. apply N.mod_lt. done. Qed.

Lemma u64_add_small a b : (a + b < w64)%N → u64_add a b = (a + b)%N.
Proof. intros. unfold u64_add. by apply N.mod_small. Qed.

Lemma u64_mul_small a b : (a * b < w64)%N → u64_mul a b = (a * b)%N.
Proof. intros. unfold u64_mul. by apply N.mod_small. Qed.

Lemma u64_sub_small a b : (b ≤ a)%N → (a < w64)%N → u64_sub a b = (a - b)%N.
Proof.
  intros Hle Hlt. unfold u64_sub.
  replace (a + w64 - b)%N with ((a - b) + 1 * w64)%N by lia.
  rewrite N.Div0.mod_add. apply N.mod_small. lia.
Qed.

(** ** Results

    A [Result<A>] of the code: a value, or an error.  The error type collects
    the error kinds the modelled code raises; [EMsg] is an error built from a
    string. *)
Inductive error :=
  | EMissingOpConfig (id : string)
  | EExtraOpConfig (id : string)
  | EBadOpConfig (msg : string)
  | EInvalidInputStreamName (stream_name pipeline : string)
  | EArtefactNotFound (id : string)
  | EPublishFailedAlreadyExists (key : string)
  | EUnpublishFailedDoesNotExist (key : string)
  | EUnpublishFailedNonZeroInstances (key : string)
  | EUnpublishFailedSystemArtefact (key : string)
  | EUnknownOp (namespace op : string)
  | EUnknownNamespace (op_type : string)
  | ECyclicGraph
  | EQueryStreamNotDefined (name : string)
  | EDoubleStream (name : string)
  | EDoubleSubqueryStmt (name : string)
  | ESubqueryUnknownPort (subquery port : string)
  | EQueryNodeReservedName (name : string)
  | EQueryNodeDuplicateName (name : string)
  | EInvalidGelfHeader (len : nat) (initial : option (N * N))
  (** not an error of the code: an access with [get_unchecked] out of bounds *)
  | EUndefined
  (** not an error of the code either: a panic *)
  | EPanic (msg : string)
  | EMsg (msg : string).

Inductive result (A : Type) :=
  | Ok (a : A)
  | Err (e : error).
Arguments Ok {A} a.
Arguments Err {A} e.

#[export] Instance result_ret : MRet result := λ A, Ok.
#[export] Instance result_bind : MBind result := λ A B f r,
  match r with Ok a => f a | Err e => Err e end.
#[export] Instance result_fmap : FMap result := λ A B f r,
  match r with Ok a => Ok (f a) | Err e => Err e end.

Lemma bind_Ok {A B} (f : A → result B) a : Ok a ≫= f = f a.
Proof. done. Qed.
Lemma bind_Err {A B} (f : A → result B) e : Err e ≫= f = Err e.
Proof. done. Qed.

(** What a call into a library returns: its errors are converted by [?] and
    keep their message. *)
Inductive io (A : Type) :=
  | IoOk (a : A)
  | IoErr (msg : string).
Arguments IoOk {A} a.
Arguments IoErr {A} msg.

#[export] Instance IoOk_inj {A} : Inj (=) (=) (@IoOk A).
Proof. by intros ? ? [= ->]. Qed.

Definition from_io {A} (r : io A) : result A :=
  match r with IoOk a => Ok a | IoErr msg => Err (EMsg msg) end.

(** What running a script gives: it may also panic.  No caller handles that,
    it passes through all of them like an error and ends the task. *)
Inductive call_result (A : Type) :=
  | CallOk (a : A)
  | CallErr (msg : string)
  | CallPanic (msg : string).
Arguments CallOk {A} a.
Arguments CallErr {A} msg.
Arguments CallPanic {A} msg.

Definition from_call {A} (r : call_result A) : result A :=
  match r with CallOk a => Ok a | CallErr msg => Err (EMsg msg) | CallPanic msg => Err (EPanic msg) end.

(** Equations the automation rewrites with: those of the result monad here,
    those of the accessors and iterators next to their definitions. *)
Create HintDb tremor.
#[export] Hint Rewrite @bind_Ok @bind_Err : tremor.

(** [Option::ok_or] *)
Definition ok_or {A} (o : option A) (e : error) : result A :=
  match o with Some a => Ok a | None => Err e end.

(** ** Hash maps

    The code's hash maps are halfbrown's; a [gmap] models the contents.  Where
    the code iterates over one, the order is that of [hash_iter], of which
    only the contents are known. *)
Class hash_order (K : Type) `{Countable K} := {
  hash_iter : ∀ {V : Type}, gmap K V → list (K * V);
  hash_iter_perm V (m : gmap K V) : hash_iter m ≡ₚ map_to_list m;
}.

(** One possible order, for evaluation. *)
Definition some_order (K : Type) `{Countable K} : hash_order K :=
  {| hash_iter := λ V m, map_to_list m; hash_iter_perm := λ V m, reflexivity _ |}.

(** Filtering twice. *)
Lemma filter_idemp {A} (P : A → Prop) `{!∀ x, Decision (P x)} (l : list A) :
  filter P (filter P l) = filter P l.
Proof.
  induction l as [|x l IH]; [done|]. rewrite filter_cons. case_decide; [|done].
  rewrite filter_cons. by rewrite decide_True, IH by done.
Qed.

(** The elements of a range in front of one of them. *)
Lemma seq_split len pre n post :
  seq 0 len = pre ++ n :: post → (∀ k, (k < n)%nat → k ∈ pre) ∧ (n < len)%nat.
Proof.
  intros Heq.
  assert (∀ i x, (pre ++ n :: post) !! i = Some x → x = i ∧ (i < len)%nat) as Hl.
  { intros i x. rewrite <-Heq. intros [-> ?]%lookup_seq. lia. }
  destruct (Hl (length pre) n) as [-> Hlt]; [by apply list_lookup_middle|]. split; [|done].
  intros k Hk. destruct (lookup_lt_is_Some_2 pre k Hk) as [x Hx].
  destruct (Hl k x) as [-> _]; [by apply lookup_app_l_Some|]. by eapply list_elem_of_lookup_2.
Qed.

(** ** Vectors and the binary search of the standard library *)

(** [Vec::insert]: shifts the elements after [i] to the right. *)
Definition vec_insert {A} (i : nat) (x : A) (l : list A) : list A :=
  take i l ++ x :: drop i l.

Lemma vec_insert_app {A} (x : A) (l1 l2 : list A) :
  vec_insert (length l1) x (l1 ++ l2) = l1 ++ x :: l2.
Proof. unfold vec_insert. by rewrite take_app_length, drop_app_length. Qed.

Lemma alter_middle {A} (f : A → A) (l1 l2 : list A) x :
  alter f (length l1) (l1 ++ x :: l2) = l1 ++ f x :: l2.
Proof. rewrite alter_app_r_alt by done. by rewrite Nat.sub_diag. Qed.

(** [slice::binary_search_by]: [inl i] is [Ok(i)], [inr i] is [Err(i)].  The
    fuel is the length of the slice plus one, the interval shrinks at every
    probe. *)
Fixpoint bs_loop {A} (fuel : nat) (cmp : A → comparison) (l : list A)
    (size left right : nat) : nat + nat :=
  match fuel with
  | O => inr left
  | S fuel =>
    if (left <? right)%nat then
      let mid := (left + size / 2)%nat in
      match l !! mid with
      | None => inr left
      | Some x =>
        match cmp x with
        | Lt => bs_loop fuel cmp l (right - (mid + 1)) (mid + 1) right
        | Gt => bs_loop fuel cmp l (mid - left) left mid
        | Eq => inl mid
        end
      end
    else inr left
  end.

Definition binary_search_by {A} (cmp : A → comparison) (l : list A) : nat + nat :=
  bs_loop (S (length l)) cmp l (length l) 0 (length l).

(** A probe function is monotone on a slice when what it answers [Lt] for
    comes before what it answers [Eq] for, and that before [Gt]. *)
Definition probe_mono {A} (cmp : A → comparison) (l : list A) : Prop :=
  ∀ i j x y, (i < j)%nat → l !! i = Some x → l !! j = Some y →
    (cmp y ≠ Gt → cmp x = Lt) ∧ (cmp x ≠ Lt → cmp y = Gt).

Section binary_search.
Context {A : Type} (cmp : A → comparison) (l : list A).

Lemma bs_loop_Ok fuel size left right i :
  bs_loop fuel cmp l size left right = inl i →
  ∃ x, l !! i = Some x ∧ cmp x = Eq.
Proof.
  revert size left right. induction fuel as [|fuel IH]; intros size left right; cbn [bs_loop]; [done|].
  destruct (left <? right)%nat; [|done].
  destruct (l !! (left + size / 2)%nat) as [x|] eqn:Hx; [|done].
  destruct (cmp x) eqn:Hc; eauto.
  intros [= <-]. eauto.
Qed.

Lemma bs_loop_Err fuel size left right i :
  probe_mono cmp l → size = (right - left)%nat → (left ≤ right ≤ length l)%nat →
  (right - left < fuel)%nat →
  (∀ j x, (j < left)%nat → l !! j = Some x → cmp x = Lt) →
  (∀ j x, (right ≤ j)%nat → l !! j = Some x → cmp x = Gt) →
  bs_loop fuel cmp l size left right = inr i →
  (i ≤ length l)%nat ∧ (∀ j x, (j < i)%nat → l !! j = Some x → cmp x = Lt) ∧
  (∀ j x, (i ≤ j)%nat → l !! j = Some x → cmp x = Gt).
Proof.
  intros Hmono. revert size left right.
  induction fuel as [|fuel IH]; intros size left right -> Hle Hf Hlt Hgt; cbn [bs_loop]; [lia|].
  destruct (Nat.ltb_spec left right) as [Hlr|Hlr].
  2: { intros [= <-]. split_and!; [lia|done|]. intros j x Hj. apply Hgt. lia. }
  assert (left ≤ left + (right - left) / 2 < right)%nat as Hmid.
  { split; [lia|]. pose proof (Nat.div_lt (right - left) 2). lia. }
  set (mid := (left + (right - left) / 2)%nat) in *.
  destruct (lookup_lt_is_Some_2 l mid) as [x Hx]; [lia|]. rewrite Hx.
  destruct (cmp x) eqn:Hc; [done| |].
  - apply IH; [lia|lia|lia| |done].
    intros j y Hj Hy. destruct (decide (j = mid)) as [->|]; [congruence|].
    apply (Hmono j mid y x); [lia|done|done|congruence].
  - apply IH; [lia|lia|lia|done|].
    intros j y Hj Hy. destruct (decide (j = mid)) as [->|]; [congruence|].
    apply (Hmono mid j x y); [lia|done|done|congruence].
Qed.

Lemma binary_search_by_Ok i :
  binary_search_by cmp l = inl i → ∃ x, l !! i = Some x ∧ cmp x = Eq.
Proof. apply bs_loop_Ok. Qed.

Lemma binary_search_by_Err i :
  probe_mono cmp l → binary_search_by cmp l = inr i →
  (i ≤ length l)%nat ∧ (∀ j x, (j < i)%nat → l !! j = Some x → cmp x = Lt) ∧
  (∀ j x, (i ≤ j)%nat → l !! j = Some x → cmp x = Gt).
Proof.
  intros Hm. apply bs_loop_Err; [done|lia|lia|lia|lia|].
  intros j x Hj Hx. apply lookup_lt_Some in Hx. lia.
Qed.
End binary_search.

(** ** Sorted vectors *)
Section sorted.
Context {A : Type} (R : relation A).

Lemma StronglySorted_lookup_lt l i j x y :
  StronglySorted R l → (i < j)%nat → l !! i = Some x → l !! j = Some y → R x y.
Proof.
  intros Hs. revert i j. induction Hs as [|z l Hs IH Hall]; intros i j Hij Hi Hj; [done|].
  destruct j as [|j]; [lia|]. simpl in Hj. destruct i as [|i]; simplify_eq/=.
  - rewrite Forall_forall in Hall. apply Hall. by eapply list_elem_of_lookup_2.
  - apply (IH i j); [lia|done|done].
Qed.

Lemma StronglySorted_NoDup l :
  Irreflexive R → StronglySorted R l → NoDup l.
Proof.
  intros Hirr. induction 1 as [|x l Hs IH Hall]; constructor; [|done].
  intros Hin. rewrite Forall_forall in Hall. by apply (Hirr x), Hall.
Qed.

(** Inserting between the smaller and the larger elements keeps the order. *)
Lemma StronglySorted_middle l1 l2 x :
  StronglySorted R (l1 ++ l2) → Forall (λ y, R y x) l1 → Forall (R x) l2 →
  StronglySorted R (l1 ++ x :: l2).
Proof.
  rewrite !StronglySorted_app, !Forall_forall. intros (H12 & H1 & H2) Hl Hr. split_and!.
  - intros y z Hy [->|Hz]%elem_of_cons; auto.
  - done.
  - constructor; [done|by apply Forall_forall].
Qed.
End sorted.

Lemma StronglySorted_fmap_inv {A B} (f : A → B) (R : relation B) (l : list A) :
  StronglySorted R (f <$> l) → StronglySorted (λ x y, R (f x) (f y)) l.
Proof.
  induction l as [|x l IH]; simpl; [constructor|].
  inversion 1 as [|? ? Hs Hall]; subst. constructor; [by apply IH|by rewrite Forall_fmap in Hall].
Qed.

(** ** Work lists

    A work list goes down when its head is replaced by finitely many smaller
    entries; there is no infinite descent, however many entries are added. *)
Definition lower (l' l : list nat) : Prop :=
  ∃ r s new, l = r :: s ∧ l' = new ++ s ∧ Forall (λ x, x < r)%nat new.

Lemma lower_cons r s : Acc lower s → Acc lower (r :: s).
Proof.
  revert s. induction r as [r IH] using lt_wf_ind. intros s Hs. constructor.
  intros l' (r' & s' & new & [= <- <-] & -> & Hnew).
  induction Hnew as [|x new Hx _ IHnew]; [done|]. simpl. by apply IH.
Qed.

Lemma lower_wf : well_founded lower.
Proof.
  intros l. induction l as [|r l IH]; [|by apply lower_cons].
  constructor. intros l' (? & ? & ? & ? & _). done.
Qed.
