(* ===== verification/EventIds.v ===== *)
(** Event identifiers: [TrackedEventIds], [EventId] and [EventIdGenerator] of
    tremor-pipeline/src/lib.rs.

    An [EventId] names an event by source, stream and number and tracks, per
    (source, stream), the minimum and maximum number of the events it was
    built from, in a vector sorted by (source, stream) that is searched by
    binary search.  The abstract view of the vector is a finite map from
    (source, stream) to an interval ([tracked_map]); tracking refines the
    pointwise hull of such maps. *)

From stdpp Require Import pretty.
From S2P Require Import Prelude.

(** The derived lexicographic [Ord] of pairs of numbers. *)
Definition pair_cmp (p q : N * N) : comparison :=
  match (p.1 ?= q.1)%N with
  | Eq => (p.2 ?= q.2)%N
  | c => c
  end.

Definition pair_lt (p q : N * N) : Prop := pair_cmp p q = Lt.

(** ** TrackedEventIds *)
Module TrackedEventIds.
Record t := mk {
  source_id : u64;
  stream_id : u64;
  min_event_id : u64;
  max_event_id : u64;
}.

#[global] Instance t_eq_dec : EqDecision t.
Proof. solve_decision. Defined.

Definition new (source_id stream_id min_event_id max_event_id : u64) : t :=
  mk source_id stream_id min_event_id max_event_id.

Definition from_id (source_id stream_id event_id : u64) : t :=
  mk source_id stream_id event_id event_id.

Definition tracks_id (self : t) (source stream : u64) : bool :=
  (source_id self =? source)%N && (stream_id self =? stream)%N.

Definition key (self : t) : N * N := (source_id self, stream_id self).

Definition compare_ids (self : t) (source stream : u64) : comparison :=
  pair_cmp (source_id self, stream_id self) (source, stream).

Definition compare (self other : t) : comparison :=
  pair_cmp (source_id self, stream_id self) (source_id other, stream_id other).

Definition track_ids (self : t) (mn mx : u64) : t :=
  mk (source_id self) (stream_id self)
     (N.min (min_event_id self) mn) (N.max (max_event_id self) mx).

Definition track_id (self : t) (event_id : u64) : t :=
  track_ids self event_id event_id.

Definition merge (self ids : t) : t :=
  track_ids self (min_event_id ids) (max_event_id ids).

Definition display (self : t) : string :=
  let id := pretty (source_id self) +:+ ":" +:+ pretty (stream_id self) in
  "[min=" +:+ id +:+ ":" +:+ pretty (min_event_id self) +:+
  ", max=" +:+ id +:+ ":" +:+ pretty (max_event_id self) +:+ "]".

(** The interval of event numbers an entry stands for. *)
Definition range (self : t) : N * N := (min_event_id self, max_event_id self).
End TrackedEventIds.

Definition DEFAULT_STREAM_ID : u64 := 0%N.

(** ** EventId *)
Module EventId.
Record t := mk {
  source_id : u64;
  stream_id : u64;
  event_id : u64;
  tracked_event_ids : list TrackedEventIds.t;
}.

#[global] Instance t_eq_dec : EqDecision t.
Proof. solve_decision. Defined.

Definition new (source_id stream_id event_id : u64) : t :=
  mk source_id stream_id event_id [].

Definition default : t := new 0 0 0.

Definition set_tracked (l : list TrackedEventIds.t) (self : t) : t :=
  mk (source_id self) (stream_id self) (event_id self) l.

(** [track_ids] first records the own id of an identifier that does not
    track anything yet. *)
Definition self_tracked (self : t) : list TrackedEventIds.t :=
  match tracked_event_ids self with
  | [] => [TrackedEventIds.new (source_id self) (stream_id self)
             (event_id self) (event_id self)]
  | l => l
  end.

Definition track_ids (self : t) (source stream mn mx : u64) : t :=
  let l := self_tracked self in
  set_tracked
    match binary_search_by (λ probe, TrackedEventIds.compare_ids probe source stream) l with
    | inl idx => alter (λ e, TrackedEventIds.track_ids e mn mx) idx l
    | inr idx => vec_insert idx (TrackedEventIds.new source stream mn mx) l
    end self.

(** One step of the loop of [track] over the ids the other event tracks. *)
Definition track_other (l : list TrackedEventIds.t) (other : TrackedEventIds.t) :
    list TrackedEventIds.t :=
  match binary_search_by (λ probe, TrackedEventIds.compare probe other) l with
  | inl idx =>
      alter (λ e, TrackedEventIds.track_ids e (TrackedEventIds.min_event_id other)
                    (TrackedEventIds.max_event_id other)) idx l
  | inr idx => vec_insert idx other l
  end.

Definition track (self other : t) : t :=
  let self := track_ids self (source_id other) (stream_id other)
                (event_id other) (event_id other) in
  set_tracked (foldl track_other (tracked_event_ids self) (tracked_event_ids other)) self.

Definition track_id (self : t) (source stream event : u64) : t :=
  track_ids self source stream event event.

Definition find_stream (source stream : u64) (f : TrackedEventIds.t → u64) :
    list TrackedEventIds.t → option u64 :=
  fix go l := match l with
    | [] => None
    | teid :: l => if TrackedEventIds.tracks_id teid source stream
                   then Some (f teid) else go l
    end.

Definition get_by_stream (f : TrackedEventIds.t → u64) (self : t) (source stream : u64) :
    option u64 :=
  if bool_decide (tracked_event_ids self = []) && (source_id self =? source)%N
     && (stream_id self =? stream)%N
  then Some (event_id self)
  else find_stream source stream f (tracked_event_ids self).

Definition get_min_by_stream : t → u64 → u64 → option u64 :=
  get_by_stream TrackedEventIds.min_event_id.
Definition get_max_by_stream : t → u64 → u64 → option u64 :=
  get_by_stream TrackedEventIds.max_event_id.

Definition is_tracking (self other : t) : bool :=
  ((source_id self =? source_id other)%N && (stream_id self =? stream_id other)%N
   && (event_id self =? event_id other)%N)
  || match binary_search_by
             (λ probe, TrackedEventIds.compare_ids probe (source_id other) (stream_id other))
             (tracked_event_ids self) with
     | inl idx =>
         match tracked_event_ids self !! idx with
         | Some entry =>
             (TrackedEventIds.min_event_id entry <=? event_id other)%N
             && (event_id other <=? TrackedEventIds.max_event_id entry)%N
         | None => false
         end
     | inr _ => false
     end.

Definition display (self : t) : string :=
  pretty (source_id self) +:+ ":" +:+ pretty (stream_id self) +:+ ":" +:+ pretty (event_id self) +:+
  match tracked_event_ids self with
  | [] => ""
  | ids :: rest =>
      foldl (λ s ids, s +:+ ", " +:+ TrackedEventIds.display ids)
        (" " +:+ TrackedEventIds.display ids) rest
  end.

(** [Iterator::min_by] keeps the first of equal minima, [Iterator::max_by]
    the last of equal maxima. *)
Definition min_by {A} (cmp : A → A → comparison) (l : list A) : option A :=
  match l with
  | [] => None
  | x :: l => Some (foldl (λ m y, match cmp m y with Gt => y | _ => m end) x l)
  end.
Definition max_by {A} (cmp : A → A → comparison) (l : list A) : option A :=
  match l with
  | [] => None
  | x :: l => Some (foldl (λ m y, match cmp m y with Gt => m | _ => y end) x l)
  end.

Definition cmp_stream (a b : TrackedEventIds.t) : comparison :=
  (TrackedEventIds.stream_id a ?= TrackedEventIds.stream_id b)%N.

Definition of_source (source : u64) (l : list TrackedEventIds.t) : list TrackedEventIds.t :=
  filter (λ teid, TrackedEventIds.source_id teid = source) l.

Definition get_min_by_source (self : t) (source : u64) : option (u64 * u64) :=
  if bool_decide (tracked_event_ids self = []) && (source_id self =? source)%N
  then Some (stream_id self, event_id self)
  else (λ teid, (TrackedEventIds.stream_id teid, TrackedEventIds.min_event_id teid)) <$>
         min_by cmp_stream (of_source source (tracked_event_ids self)).

Definition get_max_by_source (self : t) (source : u64) : option (u64 * u64) :=
  if bool_decide (tracked_event_ids self = []) && (source_id self =? source)%N
  then Some (stream_id self, event_id self)
  else (λ teid, (TrackedEventIds.stream_id teid, TrackedEventIds.max_event_id teid)) <$>
         max_by cmp_stream (of_source source (tracked_event_ids self)).
End EventId.

(** [From<&EventId> for TrackedEventIds] and [TrackedEventIds::track]. *)
Definition tracked_from (e : EventId.t) : TrackedEventIds.t :=
  TrackedEventIds.from_id (EventId.source_id e) (EventId.stream_id e) (EventId.event_id e).
Definition tracked_track (self : TrackedEventIds.t) (e : EventId.t) : TrackedEventIds.t :=
  TrackedEventIds.track_ids self (EventId.event_id e) (EventId.event_id e).

(** ** EventIdGenerator *)
Module EventIdGenerator.
Record t := mk { source : u64; stream : u64; next : u64 }.

Definition next_id (self : t) : EventId.t * t :=
  (EventId.new (source self) (stream self) (next self),
   mk (source self) (stream self) (u64_add (next self) 1)).

Definition new (source_id : u64) : t := mk source_id DEFAULT_STREAM_ID 0.
Definition with_stream (source_id stream_id : u64) : t := mk source_id stream_id 0.
Definition set_source (source_id : u64) (self : t) : t :=
  mk source_id (stream self) (next self).
Definition set_stream (stream_id : u64) (self : t) : t :=
  mk (source self) stream_id (next self).

(** The ids of [n] consecutive calls. *)
Fixpoint take_ids (n : nat) (self : t) : list EventId.t :=
  match n with
  | O => []
  | S n => let '(id, self) := next_id self in id :: take_ids n self
  end.
End EventIdGenerator.

(** ** The abstract view *)

Definition interval_join (r s : N * N) : N * N := (N.min r.1 s.1, N.max r.2 s.2).
Definition hull_union (m1 m2 : gmap (N * N) (N * N)) : gmap (N * N) (N * N) :=
  union_with (λ r s, Some (interval_join r s)) m1 m2.
Definition tracked_map (l : list TrackedEventIds.t) : gmap (N * N) (N * N) :=
  list_to_map ((λ e, (TrackedEventIds.key e, TrackedEventIds.range e)) <$> l).
Definition keys_sorted (l : list TrackedEventIds.t) : Prop :=
  StronglySorted pair_lt (TrackedEventIds.key <$> l).

(** The representation invariant of an identifier, what it stands for (its
    own id when it tracks nothing), and the id of an event alone. *)
Definition eid_wf (e : EventId.t) : Prop := keys_sorted (EventId.tracked_event_ids e).
Definition eid_abs (e : EventId.t) : gmap (N * N) (N * N) :=
  tracked_map (EventId.self_tracked e).
Definition eid_key (e : EventId.t) : N * N := (EventId.source_id e, EventId.stream_id e).
Definition eid_own (e : EventId.t) : gmap (N * N) (N * N) :=
  {[ eid_key e := (EventId.event_id e, EventId.event_id e) ]}.

(** What [track_ids] and the loop of [track] do to the vector. *)
Definition upsert (k : N * N) (mn mx : N) (l : list TrackedEventIds.t) : list TrackedEventIds.t :=
  match binary_search_by (λ probe, pair_cmp (TrackedEventIds.key probe) k) l with
  | inl idx => alter (λ e, TrackedEventIds.track_ids e mn mx) idx l
  | inr idx => vec_insert idx (TrackedEventIds.new k.1 k.2 mn mx) l
  end.

Lemma pair_cmp_Eq p q : pair_cmp p q = Eq ↔ p = q.
Proof.
  destruct p as [a b], q as [c d]; unfold pair_cmp; simpl.
  destruct (N.compare_spec a c); split; intros; simplify_eq; try done; try lia.
  - f_equal. by apply N.compare_eq.
  - by apply N.compare_refl.
Qed.

Lemma pair_lt_spec p q : pair_lt p q ↔ (p.1 < q.1 ∨ p.1 = q.1 ∧ p.2 < q.2)%N.
Proof.
  unfold pair_lt, pair_cmp.
  destruct (N.compare_spec p.1 q.1), (N.compare_spec p.2 q.2); split; try done; lia.
Qed.

Lemma pair_cmp_Gt p q : pair_cmp p q = Gt ↔ pair_lt q p.
Proof.
  rewrite pair_lt_spec. unfold pair_cmp.
  destruct (N.compare_spec p.1 q.1), (N.compare_spec p.2 q.2); split; try done; lia.
Qed.

#[export] Instance pair_lt_strict : StrictOrder pair_lt.
Proof.
  split.
  - intros p. unfold complement. rewrite pair_lt_spec. lia.
  - intros p q r. rewrite !pair_lt_spec. lia.
Qed.

Lemma pair_lt_irrefl p : ¬ pair_lt p p.
Proof. apply irreflexivity; apply _. Qed.


Section tracked_map.
Implicit Types (l : list TrackedEventIds.t) (k : N * N).

Lemma keys_sorted_NoDup l : keys_sorted l → NoDup (TrackedEventIds.key <$> l).
Proof. apply StronglySorted_NoDup, _. Qed.

Lemma tracked_map_Some l k r :
  keys_sorted l →
  tracked_map l !! k = Some r ↔
  ∃ e, e ∈ l ∧ TrackedEventIds.key e = k ∧ TrackedEventIds.range e = r.
Proof.
  intros Hs. unfold tracked_map. rewrite <-elem_of_list_to_map.
  - rewrite list_elem_of_fmap. split; [intros (e & ? & ?)|intros (e & ? & ? & ?)]; exists e; simplify_eq; auto.
  - rewrite <-list_fmap_compose. by apply keys_sorted_NoDup.
Qed.

Lemma tracked_map_None l k :
  tracked_map l !! k = None ↔ k ∉ (TrackedEventIds.key <$> l).
Proof.
  unfold tracked_map. rewrite <-not_elem_of_list_to_map.
  by rewrite <-list_fmap_compose.
Qed.

Lemma tracked_map_middle l1 l2 x :
  NoDup (TrackedEventIds.key <$> l1 ++ x :: l2) →
  tracked_map (l1 ++ x :: l2) =
  <[TrackedEventIds.key x := TrackedEventIds.range x]> (tracked_map (l1 ++ l2)).
Proof.
  intros Hnd. unfold tracked_map.
  trans (list_to_map ((λ e, (TrackedEventIds.key e, TrackedEventIds.range e))
                        <$> x :: l1 ++ l2) : gmap (N * N) (N * N)); [|done].
  apply list_to_map_proper.
  - by rewrite <-list_fmap_compose.
  - by rewrite <-Permutation_middle.
Qed.

Lemma keys_sorted_probe l k :
  keys_sorted l → probe_mono (λ p, pair_cmp (TrackedEventIds.key p) k) l.
Proof.
  intros Hs i j x y Hij Hx Hy.
  assert (pair_lt (TrackedEventIds.key x) (TrackedEventIds.key y)) as Hlt.
  { eapply (StronglySorted_lookup_lt _ (TrackedEventIds.key <$> l) i j); [done|done|..];
      by rewrite list_lookup_fmap, ?Hx, ?Hy. }
  generalize (TrackedEventIds.key x) (TrackedEventIds.key y) Hlt. clear.
  intros p q Hpq. split; intros Hc.
  - change (pair_lt p k). destruct (pair_cmp q k) eqn:Hq; [|by trans q|done].
    apply pair_cmp_Eq in Hq. by subst.
  - apply pair_cmp_Gt. destruct (pair_cmp p k) eqn:Hp; [|done|].
    + apply pair_cmp_Eq in Hp. by subst.
    + apply pair_cmp_Gt in Hp. by trans p.
Qed.

(** Where the binary search for [k] leads in a sorted vector. *)
Lemma search_key l k :
  keys_sorted l →
  (∃ l1 x l2, l = l1 ++ x :: l2 ∧ TrackedEventIds.key x = k ∧
     binary_search_by (λ p, pair_cmp (TrackedEventIds.key p) k) l = inl (length l1)) ∨
  (∃ l1 l2, l = l1 ++ l2 ∧
     Forall (λ y, pair_lt y k) (TrackedEventIds.key <$> l1) ∧
     Forall (pair_lt k) (TrackedEventIds.key <$> l2) ∧
     binary_search_by (λ p, pair_cmp (TrackedEventIds.key p) k) l = inr (length l1)).
Proof.
  intros Hs.
  destruct (binary_search_by _ l) as [i|i] eqn:Hb; [left|right].
  - apply binary_search_by_Ok in Hb as (x & Hx & Hk).
    exists (take i l), x, (drop (S i) l). split_and!.
    + by rewrite take_drop_middle.
    + by apply pair_cmp_Eq.
    + apply lookup_lt_Some in Hx. rewrite length_take. f_equal. lia.
  - apply binary_search_by_Err in Hb as (Hi & Hlt & Hgt); [|by apply keys_sorted_probe].
    exists (take i l), (drop i l). rewrite !Forall_fmap, !Forall_lookup. split_and!.
    + by rewrite take_drop.
    + intros j x [Hj Hx]%lookup_take_Some. by apply (Hlt j).
    + intros j x Hx. rewrite lookup_drop in Hx. apply pair_cmp_Gt, (Hgt (i + j)%nat); [lia|done].
    + rewrite length_take. f_equal. lia.
Qed.
End tracked_map.

Section upsert.
Implicit Types (l : list TrackedEventIds.t) (k : N * N).

Lemma upsert_spec k mn mx l :
  keys_sorted l →
  keys_sorted (upsert k mn mx l) ∧
  tracked_map (upsert k mn mx l) =
    <[k := from_option (interval_join (mn, mx)) (mn, mx) (tracked_map l !! k)]> (tracked_map l).
Proof.
  intros Hs. unfold upsert.
  destruct (search_key l k Hs) as [(l1 & x & l2 & -> & <- & ->)|(l1 & l2 & -> & H1 & H2 & ->)].
  - rewrite alter_middle.
    assert (TrackedEventIds.key <$> l1 ++ TrackedEventIds.track_ids x mn mx :: l2 =
            TrackedEventIds.key <$> l1 ++ x :: l2) as Heq by by rewrite !fmap_app.
    split; [by unfold keys_sorted; rewrite Heq|].
    pose proof (keys_sorted_NoDup _ Hs) as Hnd.
    rewrite !tracked_map_middle by by rewrite ?Heq.
    rewrite lookup_insert_eq, insert_insert_eq. simpl. f_equal.
    unfold interval_join, TrackedEventIds.range; simpl. f_equal; lia.
  - destruct k as [s st]. rewrite vec_insert_app.
    assert (keys_sorted (l1 ++ TrackedEventIds.new s st mn mx :: l2)) as Hs'.
    { unfold keys_sorted in *. rewrite fmap_app, fmap_cons.
      apply StronglySorted_middle; [by rewrite <-fmap_app|done|done]. }
    split; [done|].
    rewrite tracked_map_middle by by apply keys_sorted_NoDup.
    replace (tracked_map (l1 ++ l2) !! (s, st)) with (@None (N * N)); [done|].
    symmetry. apply tracked_map_None.
    pose proof (keys_sorted_NoDup _ Hs') as Hnd.
    rewrite fmap_app, fmap_cons, <-Permutation_middle in Hnd.
    rewrite fmap_app. by apply NoDup_cons in Hnd as [? _].
Qed.
End upsert.

(** ** Tracking refines the pointwise hull *)

#[global] Instance interval_join_comm : Comm (=) interval_join.
Proof. intros [a b] [c d]. unfold interval_join; simpl. f_equal; lia. Qed.
#[global] Instance interval_join_assoc : Assoc (=) interval_join.
Proof. intros [a b] [c d] [e f]. unfold interval_join; simpl. f_equal; lia. Qed.

Lemma lookup_hull_union m1 m2 k :
  hull_union m1 m2 !! k =
  match m1 !! k, m2 !! k with
  | Some r, Some s => Some (interval_join r s)
  | Some r, None => Some r
  | None, o => o
  end.
Proof. unfold hull_union. rewrite lookup_union_with. by destruct (m1 !! k), (m2 !! k). Qed.

Ltac hull_ext :=
  apply map_eq; intros ?k; rewrite ?lookup_hull_union;
  repeat case_match; simplify_eq; try done; f_equal; try (by rewrite assoc by apply _).

#[global] Instance hull_union_comm : Comm (=) hull_union.
Proof. intros m1 m2. hull_ext. by rewrite (comm interval_join). Qed.
#[global] Instance hull_union_assoc : Assoc (=) hull_union.
Proof. intros m1 m2 m3. hull_ext. Qed.
#[global] Instance hull_union_right_id : RightId (=) ∅ hull_union.
Proof. intros m. hull_ext; by rewrite lookup_empty in *. Qed.

Lemma hull_union_swap m a1 a2 b1 b2 :
  hull_union (hull_union (hull_union (hull_union m a1) a2) b1) b2 =
  hull_union (hull_union (hull_union (hull_union m b1) b2) a1) a2.
Proof.
  rewrite <-!(assoc hull_union). f_equal.
  rewrite (assoc hull_union a1), (assoc hull_union b1). apply (comm hull_union).
Qed.

Lemma hull_union_singleton m k r :
  hull_union m {[k := r]} = <[k := from_option (interval_join r) r (m !! k)]> m.
Proof.
  apply map_eq. intros j. rewrite lookup_hull_union.
  destruct (decide (j = k)) as [->|].
  - rewrite lookup_singleton_eq, lookup_insert_eq.
    destruct (m !! k); simpl; [by rewrite (comm interval_join)|done].
  - rewrite lookup_singleton_ne, lookup_insert_ne by done. by destruct (m !! j).
Qed.

Lemma upsert_ok k mn mx l :
  keys_sorted l →
  keys_sorted (upsert k mn mx l) ∧
  tracked_map (upsert k mn mx l) = hull_union (tracked_map l) {[k := (mn, mx)]}.
Proof. intros [? ->]%(upsert_spec k mn mx). by rewrite hull_union_singleton. Qed.

Lemma tracked_map_cons e l :
  TrackedEventIds.key e ∉ (TrackedEventIds.key <$> l) →
  tracked_map (e :: l) =
  hull_union {[TrackedEventIds.key e := TrackedEventIds.range e]} (tracked_map l).
Proof.
  intros Hni. rewrite (comm hull_union), hull_union_singleton.
  apply tracked_map_None in Hni. by rewrite Hni.
Qed.

Lemma track_other_upsert l e :
  EventId.track_other l e =
  upsert (TrackedEventIds.key e) (TrackedEventIds.min_event_id e)
    (TrackedEventIds.max_event_id e) l.
Proof. by destruct e. Qed.

Lemma track_others_ok l l' :
  keys_sorted l → NoDup (TrackedEventIds.key <$> l') →
  keys_sorted (foldl EventId.track_other l l') ∧
  tracked_map (foldl EventId.track_other l l') = hull_union (tracked_map l) (tracked_map l').
Proof.
  revert l. induction l' as [|e l' IH]; intros l Hs Hnd.
  { split; [done|]. exact (eq_sym (right_id ∅ hull_union (tracked_map l))). }
  apply NoDup_cons in Hnd as [Hni Hnd]. simpl. rewrite track_other_upsert.
  destruct (upsert_ok (TrackedEventIds.key e) (TrackedEventIds.min_event_id e)
    (TrackedEventIds.max_event_id e) l Hs) as [Hs' Hm].
  destruct (IH _ Hs' Hnd) as [? ->]. split; [done|].
  rewrite Hm, tracked_map_cons by done. by rewrite (assoc hull_union).
Qed.

Lemma self_tracked_sorted e : eid_wf e → keys_sorted (EventId.self_tracked e).
Proof.
  unfold eid_wf, EventId.self_tracked. destruct (EventId.tracked_event_ids e); [|done].
  intros _. repeat constructor.
Qed.

Lemma self_tracked_nonempty e : EventId.self_tracked e ≠ [].
Proof. unfold EventId.self_tracked. by destruct (EventId.tracked_event_ids e). Qed.

Lemma upsert_nonempty k mn mx l : l ≠ [] → upsert k mn mx l ≠ [].
Proof.
  intros Hl. unfold upsert. destruct (binary_search_by _ _) as [i|i].
  - intros Heq%(f_equal length). rewrite length_alter in Heq. by destruct l.
  - unfold vec_insert. by destruct (take i l).
Qed.

Lemma eid_abs_tracked e :
  EventId.tracked_event_ids e ≠ [] → eid_abs e = tracked_map (EventId.tracked_event_ids e).
Proof. unfold eid_abs, EventId.self_tracked. by destruct (EventId.tracked_event_ids e). Qed.

Lemma track_ids_ok e s st mn mx :
  eid_wf e →
  eid_wf (EventId.track_ids e s st mn mx) ∧
  EventId.tracked_event_ids (EventId.track_ids e s st mn mx) ≠ [] ∧
  eid_abs (EventId.track_ids e s st mn mx) = hull_union (eid_abs e) {[(s, st) := (mn, mx)]}.
Proof.
  intros Hwf%self_tracked_sorted.
  assert (EventId.tracked_event_ids (EventId.track_ids e s st mn mx) =
          upsert (s, st) mn mx (EventId.self_tracked e)) as Heq by done.
  assert (EventId.tracked_event_ids (EventId.track_ids e s st mn mx) ≠ []) as Hne.
  { rewrite Heq. apply upsert_nonempty, self_tracked_nonempty. }
  destruct (upsert_ok (s, st) mn mx _ Hwf) as [Hs Hm].
  split_and!; [by unfold eid_wf; rewrite Heq|done|].
  by rewrite eid_abs_tracked, Heq, Hm by done.
Qed.

Lemma track_unfold e o :
  EventId.tracked_event_ids (EventId.track e o) =
  foldl EventId.track_other
    (EventId.tracked_event_ids
       (EventId.track_ids e (EventId.source_id o) (EventId.stream_id o)
          (EventId.event_id o) (EventId.event_id o)))
    (EventId.tracked_event_ids o).
Proof. done. Qed.

Lemma tracked_map_nil_inv l : tracked_map l = ∅ → l = [].
Proof.
  destruct l as [|x l]; [done|]. intros Hm.
  apply (f_equal (λ m, m !! TrackedEventIds.key x)) in Hm.
  rewrite lookup_empty in Hm. apply tracked_map_None in Hm. set_solver.
Qed.

Lemma hull_union_empty_inv m1 m2 : hull_union m1 m2 = ∅ → m1 = ∅.
Proof.
  intros Hm. apply map_eq. intros k. apply (f_equal (λ m, m !! k)) in Hm.
  rewrite lookup_hull_union, lookup_empty in Hm. rewrite lookup_empty.
  by destruct (m1 !! k), (m2 !! k).
Qed.

Lemma track_ok e o :
  eid_wf e → eid_wf o →
  eid_wf (EventId.track e o) ∧
  EventId.tracked_event_ids (EventId.track e o) ≠ [] ∧
  eid_abs (EventId.track e o) =
    hull_union (hull_union (eid_abs e) (eid_own o)) (tracked_map (EventId.tracked_event_ids o)).
Proof.
  intros He Ho.
  destruct (track_ids_ok e (EventId.source_id o) (EventId.stream_id o)
    (EventId.event_id o) (EventId.event_id o) He) as (Hwf & Hne & Habs).
  pose proof (track_unfold e o) as Heq.
  set (e' := EventId.track_ids _ _ _ _ _) in *.
  destruct (track_others_ok (EventId.tracked_event_ids e') (EventId.tracked_event_ids o) Hwf)
    as [Hs Hm]; [by apply keys_sorted_NoDup|].
  rewrite <-Heq in Hs, Hm.
  assert (EventId.tracked_event_ids (EventId.track e o) ≠ []) as Hne'.
  { intros Hnil. rewrite Hnil in Hm. symmetry in Hm. by apply hull_union_empty_inv,
      tracked_map_nil_inv in Hm. }
  split_and!; [done|done|].
  by rewrite eid_abs_tracked, Hm, <-(eid_abs_tracked e'), Habs by done.
Qed.

Lemma tracked_map_inj l1 l2 :
  keys_sorted l1 → keys_sorted l2 → tracked_map l1 = tracked_map l2 → l1 = l2.
Proof.
  intros H1 H2 Hm.
  assert (l1 ≡ₚ l2) as Hp.
  { apply list_to_map_inj in Hm.
    - apply (fmap_Permutation (λ p : (N * N) * (N * N),
        TrackedEventIds.mk p.1.1 p.1.2 p.2.1 p.2.2)) in Hm.
      rewrite <-!list_fmap_compose in Hm.
      assert (∀ l : list TrackedEventIds.t, ((λ p : (N * N) * (N * N), TrackedEventIds.mk p.1.1 p.1.2 p.2.1 p.2.2)
        ∘ (λ e, (TrackedEventIds.key e, TrackedEventIds.range e))) <$> l = l) as Hid.
      { intros l. induction l as [|[] l IH]; [done|]. by rewrite fmap_cons, IH. }
      by rewrite !Hid in Hm.
    - rewrite <-list_fmap_compose. by apply keys_sorted_NoDup.
    - rewrite <-list_fmap_compose. by apply keys_sorted_NoDup. }
  eapply (StronglySorted_unique_strong
    (λ x y, pair_lt (TrackedEventIds.key x) (TrackedEventIds.key y))); [| | |done].
  - intros x y _ _ Hxy Hyx. exfalso. eapply pair_lt_irrefl. by trans (TrackedEventIds.key y).
  - by apply StronglySorted_fmap_inv.
  - by apply StronglySorted_fmap_inv.
Qed.

(** ** Lookups *)

Lemma tracked_map_cons_lookup e l k :
  tracked_map (e :: l) !! k =
  if decide (TrackedEventIds.key e = k) then Some (TrackedEventIds.range e)
  else tracked_map l !! k.
Proof. unfold tracked_map. simpl. rewrite lookup_insert. by repeat case_decide. Qed.

Lemma tracks_id_spec e s st :
  TrackedEventIds.tracks_id e s st = bool_decide (TrackedEventIds.key e = (s, st)).
Proof.
  unfold TrackedEventIds.tracks_id, TrackedEventIds.key.
  destruct (N.eqb_spec (TrackedEventIds.source_id e) s),
    (N.eqb_spec (TrackedEventIds.stream_id e) st); case_bool_decide; naive_solver.
Qed.

Lemma find_stream_spec s st f g l :
  (∀ e, f e = g (TrackedEventIds.range e)) →
  EventId.find_stream s st f l = g <$> tracked_map l !! (s, st).
Proof.
  intros Hfg. induction l as [|e l IH]; [done|]. simpl.
  rewrite tracks_id_spec, tracked_map_cons_lookup.
  case_bool_decide; case_decide; simplify_eq; simpl; by rewrite ?Hfg.
Qed.

Lemma get_by_stream_spec f g e s st :
  (∀ x, f x = g (TrackedEventIds.range x)) → (∀ n, g (n, n) = n) →
  EventId.get_by_stream f e s st = g <$> eid_abs e !! (s, st).
Proof.
  intros Hfg Hg. unfold EventId.get_by_stream, eid_abs, EventId.self_tracked.
  destruct (EventId.tracked_event_ids e) as [|x l] eqn:Hl; simpl.
  - rewrite tracked_map_cons_lookup. unfold TrackedEventIds.key, TrackedEventIds.range; simpl.
    destruct (N.eqb_spec (EventId.source_id e) s), (N.eqb_spec (EventId.stream_id e) st);
      case_decide; simplify_eq; simpl; by rewrite ?Hg.
  - by apply (find_stream_spec s st f g (x :: l)).
Qed.

Section min_max.
Implicit Types (x y m : TrackedEventIds.t) (l : list TrackedEventIds.t).

Lemma cmp_stream_spec x y :
  CompareSpec (TrackedEventIds.stream_id x = TrackedEventIds.stream_id y)
    (TrackedEventIds.stream_id x < TrackedEventIds.stream_id y)%N
    (TrackedEventIds.stream_id y < TrackedEventIds.stream_id x)%N (EventId.cmp_stream x y).
Proof. apply N.compare_spec. Qed.

Lemma foldl_select (f : TrackedEventIds.t → TrackedEventIds.t → TrackedEventIds.t)
    (R : relation TrackedEventIds.t) `{!PreOrder R} x l :
  (∀ x y, (f x y = x ∨ f x y = y) ∧ R (f x y) x ∧ R (f x y) y) →
  foldl f x l ∈ x :: l ∧ ∀ y, y ∈ x :: l → R (foldl f x l) y.
Proof.
  intros Hf. revert x. induction l as [|z l IH]; intros x; simpl.
  { split; [by left|]. by intros y ->%list_elem_of_singleton. }
  destruct (IH (f x z)) as [Hin Hle], (Hf x z) as (Hor & Hx & Hz). split.
  - apply elem_of_cons in Hin as [->|Hin]; [|by do 2 right].
    destruct Hor as [-> | ->]; [by left|by right; left].
  - intros y [->|[->|Hy]%elem_of_cons]%elem_of_cons;
      [trans (f x z); [apply Hle; by left|done]..|apply Hle; by right].
Qed.

Definition stream_le x y : Prop :=
  (TrackedEventIds.stream_id x ≤ TrackedEventIds.stream_id y)%N.
#[local] Instance stream_le_preorder : PreOrder stream_le.
Proof. split; [intros ?|intros ???]; unfold stream_le; lia. Qed.
#[local] Instance stream_ge_preorder : PreOrder (flip stream_le).
Proof. split; [intros ?|intros ???]; unfold stream_le, flip; lia. Qed.

Lemma min_by_spec l m :
  EventId.min_by EventId.cmp_stream l = Some m → m ∈ l ∧ ∀ y, y ∈ l → stream_le m y.
Proof.
  destruct l as [|x l]; [done|]. intros [= <-]. apply (foldl_select _ stream_le).
  intros y z. unfold stream_le. destruct (cmp_stream_spec y z); split_and!; auto; lia.
Qed.

Lemma max_by_spec l m :
  EventId.max_by EventId.cmp_stream l = Some m → m ∈ l ∧ ∀ y, y ∈ l → stream_le y m.
Proof.
  destruct l as [|x l]; [done|]. intros [= <-]. apply (foldl_select _ (flip stream_le)).
  intros y z. unfold stream_le, flip. destruct (cmp_stream_spec y z); split_and!; auto; lia.
Qed.

Lemma elem_of_of_source s l x :
  x ∈ EventId.of_source s l ↔ x ∈ l ∧ TrackedEventIds.source_id x = s.
Proof. unfold EventId.of_source. rewrite list_elem_of_filter. tauto. Qed.
End min_max.

Lemma get_min_by_source_self e s :
  EventId.get_min_by_source e s =
  (λ teid, (TrackedEventIds.stream_id teid, TrackedEventIds.min_event_id teid)) <$>
    EventId.min_by EventId.cmp_stream (EventId.of_source s (EventId.self_tracked e)).
Proof.
  unfold EventId.get_min_by_source, EventId.self_tracked.
  destruct (EventId.tracked_event_ids e) as [|x l]; [|done].
  unfold EventId.of_source. rewrite filter_cons, filter_nil. simpl.
  destruct (N.eqb_spec (EventId.source_id e) s); case_decide; done.
Qed.

Lemma get_max_by_source_self e s :
  EventId.get_max_by_source e s =
  (λ teid, (TrackedEventIds.stream_id teid, TrackedEventIds.max_event_id teid)) <$>
    EventId.max_by EventId.cmp_stream (EventId.of_source s (EventId.self_tracked e)).
Proof.
  unfold EventId.get_max_by_source, EventId.self_tracked.
  destruct (EventId.tracked_event_ids e) as [|x l]; [|done].
  unfold EventId.of_source. rewrite filter_cons, filter_nil. simpl.
  destruct (N.eqb_spec (EventId.source_id e) s); case_decide; done.
Qed.

(** A sorted vector holds an entry of source [s] at [st] exactly when its map does. *)
Lemma elem_of_of_source_map s l x :
  keys_sorted l → x ∈ EventId.of_source s l →
  tracked_map l !! (s, TrackedEventIds.stream_id x) = Some (TrackedEventIds.range x).
Proof.
  intros Hs [Hx <-]%elem_of_of_source. apply tracked_map_Some; [done|]. by exists x.
Qed.

Lemma of_source_map_elem s st l r :
  keys_sorted l → tracked_map l !! (s, st) = Some r →
  ∃ x, x ∈ EventId.of_source s l ∧ TrackedEventIds.stream_id x = st.
Proof.
  intros Hs (x & Hx & [= <- <-] & _)%tracked_map_Some; [|done].
  exists x. by rewrite elem_of_of_source.
Qed.

Lemma of_source_nil_map s l :
  keys_sorted l → EventId.of_source s l = [] → ∀ st, tracked_map l !! (s, st) = None.
Proof.
  intros Hs Hnil st. apply eq_None_not_Some. intros [r Hr].
  destruct (of_source_map_elem s st l r Hs Hr) as (x & Hx & _). rewrite Hnil in Hx. set_solver.
Qed.

Lemma is_tracking_spec e o :
  eid_wf e →
  EventId.is_tracking e o = true ↔
  (eid_key e = eid_key o ∧ EventId.event_id e = EventId.event_id o) ∨
  ∃ mn mx, tracked_map (EventId.tracked_event_ids e) !! eid_key o = Some (mn, mx) ∧
    (mn ≤ EventId.event_id o ≤ mx)%N.
Proof.
  intros Hs. unfold EventId.is_tracking.
  rewrite orb_true_iff, !andb_true_iff, !N.eqb_eq.
  assert (∀ P Q R S, (P ↔ Q) → (R ↔ S) → (P ∨ R ↔ Q ∨ S)) as Hor by tauto.
  apply Hor; [unfold eid_key; split; [intros [[??]?]|intros [[=]?]]; split_and!; congruence|]. clear Hor.
  change (binary_search_by _ ?l) with
    (binary_search_by (λ p, pair_cmp (TrackedEventIds.key p) (eid_key o)) l).
  destruct (search_key _ (eid_key o) Hs)
    as [(l1 & x & l2 & Heq & Hk & ->)|(l1 & l2 & Heq & H1 & H2 & ->)].
  - rewrite Heq, list_lookup_middle by done. rewrite andb_true_iff, !N.leb_le.
    rewrite <-Hk.
    assert (tracked_map (l1 ++ x :: l2) !! TrackedEventIds.key x = Some (TrackedEventIds.range x))
      as ->.
    { rewrite <-Heq. apply tracked_map_Some; [done|]. exists x. rewrite Heq. set_solver. }
    unfold TrackedEventIds.range. split; [intros []; eauto|].
    by intros (? & ? & [= <- <-] & ?).
  - split; [done|]. intros (mn & mx & (x & Hx & Hk & _)%tracked_map_Some & _); [|done].
    exfalso. rewrite Heq in Hx. rewrite Forall_fmap, Forall_forall in H1, H2.
    apply elem_of_app in Hx as [Hx|Hx];
      [specialize (H1 _ Hx)|specialize (H2 _ Hx)]; simpl in *; rewrite Hk in *;
      by apply pair_lt_irrefl in H1 || apply pair_lt_irrefl in H2.
Qed.

Lemma track_all_wf e os :
  eid_wf e → Forall eid_wf os → eid_wf (foldl EventId.track e os).
Proof.
  revert e. induction os as [|o os IH]; intros e He Hos; [done|].
  inversion Hos; subst. simpl. apply IH; [|done]. by apply track_ok.
Qed.

(** What is inside an interval of a map stays inside when the map grows. *)
Definition covers (m : gmap (N * N) (N * N)) (k : N * N) (n : N) : Prop :=
  ∃ mn mx, m !! k = Some (mn, mx) ∧ (mn ≤ n ≤ mx)%N.

Lemma covers_union_l m1 m2 k n : covers m1 k n → covers (hull_union m1 m2) k n.
Proof.
  intros (mn & mx & Hm & Hn). unfold covers. rewrite lookup_hull_union, Hm.
  destruct (m2 !! k) as [[a b]|]; [|by eauto].
  eexists _, _. split; [done|]. simpl. lia.
Qed.

Lemma covers_union_r m1 m2 k n : covers m2 k n → covers (hull_union m1 m2) k n.
Proof. rewrite (comm hull_union). apply covers_union_l. Qed.

Lemma covers_own o : covers (eid_own o) (eid_key o) (EventId.event_id o).
Proof. eexists _, _. unfold eid_own. rewrite lookup_singleton_eq. split; [done|lia]. Qed.

Lemma track_covers e o :
  eid_wf e → eid_wf o →
  covers (tracked_map (EventId.tracked_event_ids (EventId.track e o)))
    (eid_key o) (EventId.event_id o).
Proof.
  intros He Ho. destruct (track_ok e o He Ho) as (_ & Hne & Habs).
  rewrite <-eid_abs_tracked, Habs by done. apply covers_union_l, covers_union_r, covers_own.
Qed.

Lemma track_covers_mono e o k n :
  eid_wf e → eid_wf o →
  covers (tracked_map (EventId.tracked_event_ids e)) k n →
  covers (tracked_map (EventId.tracked_event_ids (EventId.track e o))) k n.
Proof.
  intros He Ho Hc. destruct (track_ok e o He Ho) as (_ & Hne & Habs).
  rewrite <-eid_abs_tracked, Habs by done. do 2 apply covers_union_l.
  rewrite eid_abs_tracked; [done|]. intros Hnil. rewrite Hnil in Hc.
  by destruct Hc as (? & ? & Hc & _).
Qed.

Lemma track_all_covers e os k n :
  eid_wf e → Forall eid_wf os →
  covers (tracked_map (EventId.tracked_event_ids e)) k n →
  covers (tracked_map (EventId.tracked_event_ids (foldl EventId.track e os))) k n.
Proof.
  revert e. induction os as [|o os IH]; intros e He Hos Hc; [done|].
  inversion Hos; subst. simpl. apply IH; [by apply track_ok|done|].
  by apply track_covers_mono.
Qed.

Lemma take_ids_lookup n g i :
  (i < n)%nat → u64_ok (EventIdGenerator.next g) →
  EventIdGenerator.take_ids n g !! i =
  Some (EventId.new (EventIdGenerator.source g) (EventIdGenerator.stream g)
          (u64_add (EventIdGenerator.next g) (N.of_nat i))).
Proof.
  revert g i. induction n as [|n IH]; intros g i Hi Hok; [lia|].
  destruct i as [|i]; simpl.
  - by rewrite u64_add_small, N.add_0_r by (simpl; unfold u64_ok in Hok; lia).
  - rewrite IH; [|lia|apply u64_add_ok]. simpl. do 2 f_equal.
    unfold u64_add. rewrite N.Div0.add_mod_idemp_l. f_equal. lia.
Qed.

Lemma u64_add_inj a i j :
  (i < w64)%N → (j < w64)%N → u64_add a i = u64_add a j → i = j.
Proof.
  unfold u64_add. intros Hi Hj Heq.
  pose proof (N.Div0.div_mod (a + i) w64). pose proof (N.Div0.div_mod (a + j) w64).
  assert ((a + i) / w64 = (a + j) / w64)%N; [|lia].
  rewrite Heq in *. assert (w64 ≠ 0)%N by done.
  destruct (N.lt_trichotomy ((a + i) / w64) ((a + j) / w64)) as [|[|]]; [exfalso|done|exfalso]; nia.
Qed.

Lemma track_key_id e o :
  eid_key (EventId.track e o) = eid_key e ∧ EventId.event_id (EventId.track e o) = EventId.event_id e.
Proof. done. Qed.

Lemma tracked_reported e os o :
  eid_wf e → Forall eid_wf os → o ∈ os → EventId.is_tracking (foldl EventId.track e os) o = true.
Proof.
  intros He Hos Ho. apply is_tracking_spec; [by apply track_all_wf|]. right.
  apply list_elem_of_split in Ho as (os1 & os2 & ->).
  apply Forall_app in Hos as [Hos1 Hos2]. inversion Hos2; subst.
  rewrite foldl_app. simpl. pose proof (track_all_wf e os1 He Hos1).
  apply track_all_covers; [by apply track_ok|done|by apply track_covers].
Qed.

(** Sample ids for the witnesses. *)
Definition sample_id : EventId.t := EventId.mk 1 0 7 [TrackedEventIds.new 1 0 3 7; TrackedEventIds.new 2 5 1 9].
Definition sample_other : EventId.t := EventId.mk 2 5 11 [TrackedEventIds.new 3 0 4 4].

Lemma sample_id_wf : eid_wf sample_id.
Proof. repeat constructor. Qed.
Lemma sample_other_wf : eid_wf sample_other.
Proof. repeat constructor. Qed.

(** ** Properties *)

(** C28: tracking another event keeps the vector sorted by (source, stream), keeps the own
    id, and stands for the pointwise hull of what both events stood for. *)
Theorem track_refines_hull (e o : EventId.t) (He : eid_wf e) (Ho : eid_wf o) :
  eid_wf (EventId.track e o) ∧
  eid_key (EventId.track e o) = eid_key e ∧
  EventId.event_id (EventId.track e o) = EventId.event_id e ∧
  eid_abs (EventId.track e o) =
    hull_union (hull_union (eid_abs e) (eid_own o)) (tracked_map (EventId.tracked_event_ids o)).
Proof. by destruct (track_ok e o He Ho) as (? & _ & ?). Qed.

Lemma track_refines_hull_witness :
  eid_wf sample_id ∧ eid_wf sample_other ∧ eid_wf (EventId.track sample_id sample_other) ∧
  eid_abs (EventId.track sample_id sample_other) =
    {[(1, 0) := (3, 7); (2, 5) := (1, 11); (3, 0) := (4, 4)]}%N.
Proof.
  destruct (track_refines_hull sample_id sample_other sample_id_wf sample_other_wf) as (Hw & _ & _ & Heq).
  split; [exact sample_id_wf|]. split; [exact sample_other_wf|]. split; [exact Hw|].
  rewrite Heq. vm_compute. reflexivity.
Defined.

(** The id of a batch does not depend on the order in which events were tracked. *)
Theorem track_order_irrelevant (e a b : EventId.t)
    (He : eid_wf e) (Ha : eid_wf a) (Hb : eid_wf b) :
  EventId.track (EventId.track e a) b = EventId.track (EventId.track e b) a.
Proof.
  destruct (track_ok e a He Ha) as (Hea & Hnea & Habsa), (track_ok e b He Hb) as (Heb & Hneb & Habsb).
  destruct (track_ok _ b Hea Hb) as (H1 & Hn1 & Habs1), (track_ok _ a Heb Ha) as (H2 & Hn2 & Habs2).
  assert (EventId.tracked_event_ids (EventId.track (EventId.track e a) b) =
          EventId.tracked_event_ids (EventId.track (EventId.track e b) a)) as Heq.
  { apply tracked_map_inj; [done..|].
    rewrite <-!eid_abs_tracked, Habs1, Habs2, Habsa, Habsb by done.
    apply hull_union_swap. }
  change (EventId.set_tracked (EventId.tracked_event_ids (EventId.track (EventId.track e a) b)) e =
          EventId.set_tracked (EventId.tracked_event_ids (EventId.track (EventId.track e b) a)) e).
  by rewrite Heq.
Qed.

Lemma track_order_irrelevant_witness :
  EventId.track (EventId.track sample_id sample_other) sample_id =
  EventId.track (EventId.track sample_id sample_id) sample_other.
Proof.
  exact (track_order_irrelevant sample_id sample_other sample_id sample_id_wf sample_other_wf sample_id_wf).
Defined.

(** [is_tracking] answers true exactly for an event with the same id and for the event
    numbers inside the tracked interval of their source and stream; every event tracked
    since is reported. *)
Theorem is_tracking_exact (e : EventId.t) (os : list EventId.t)
    (He : eid_wf e) (Hos : Forall eid_wf os) :
  let e' := foldl EventId.track e os in
  (∀ o, EventId.is_tracking e' o = true ↔
     (eid_key e' = eid_key o ∧ EventId.event_id e' = EventId.event_id o) ∨
     covers (tracked_map (EventId.tracked_event_ids e')) (eid_key o) (EventId.event_id o)) ∧
  (∀ o, o ∈ os → EventId.is_tracking e' o = true).
Proof.
  intros e'. assert (∀ o, EventId.is_tracking e' o = true ↔
     (eid_key e' = eid_key o ∧ EventId.event_id e' = EventId.event_id o) ∨
     covers (tracked_map (EventId.tracked_event_ids e')) (eid_key o) (EventId.event_id o)) as Hspec.
  { intros o. apply is_tracking_spec. by apply track_all_wf. }
  split; [done|]. intros o Ho. by apply tracked_reported.
Qed.

Lemma is_tracking_exact_witness :
  EventId.is_tracking (foldl EventId.track sample_id [sample_other]) sample_other = true.
Proof.
  apply (is_tracking_exact sample_id [sample_other] sample_id_wf).
  - constructor; [exact sample_other_wf|constructor].
  - left.
Defined.

(** [get_min_by_stream] and [get_max_by_stream] are the bounds of the interval an event
    stands for, its own number included. *)
Theorem stream_bounds (e : EventId.t) (s st : N) :
  EventId.get_min_by_stream e s st = fst <$> eid_abs e !! (s, st) ∧
  EventId.get_max_by_stream e s st = snd <$> eid_abs e !! (s, st).
Proof. split; by apply get_by_stream_spec. Qed.

(** [get_min_by_source] gives the lowest event number of the lowest stream of the source
    the event stands for and [get_max_by_source] the highest number of the highest
    stream; both give nothing exactly when the source does not occur. *)
Theorem source_bounds (e : EventId.t) (s : N) (He : eid_wf e) :
  match EventId.get_min_by_source e s with
  | Some (st, n) =>
      (∃ mx, eid_abs e !! (s, st) = Some (n, mx)) ∧
      ∀ st', is_Some (eid_abs e !! (s, st')) → (st ≤ st')%N
  | None => ∀ st, eid_abs e !! (s, st) = None
  end ∧
  match EventId.get_max_by_source e s with
  | Some (st, n) =>
      (∃ mn, eid_abs e !! (s, st) = Some (mn, n)) ∧
      ∀ st', is_Some (eid_abs e !! (s, st')) → (st' ≤ st)%N
  | None => ∀ st, eid_abs e !! (s, st) = None
  end.
Proof.
  apply self_tracked_sorted in He. unfold eid_abs.
  rewrite get_min_by_source_self, get_max_by_source_self.
  set (l := EventId.self_tracked e) in *. split.
  - destruct (EventId.min_by _ _) as [m|] eqn:Hm; simpl.
    + apply min_by_spec in Hm as [Hm Hle]. apply elem_of_of_source_map in Hm; [|done].
      split; [by eexists|]. intros st' [r (x & Hx & <-)%of_source_map_elem]; [by apply Hle|done].
    + apply of_source_nil_map; [done|]. by destruct (EventId.of_source s l).
  - destruct (EventId.max_by _ _) as [m|] eqn:Hm; simpl.
    + apply max_by_spec in Hm as [Hm Hle]. apply elem_of_of_source_map in Hm; [|done].
      split; [by eexists|]. intros st' [r (x & Hx & <-)%of_source_map_elem]; [by apply Hle|done].
    + apply of_source_nil_map; [done|]. by destruct (EventId.of_source s l).
Qed.

Lemma source_bounds_witness :
  EventId.get_min_by_source sample_id 2 = Some (5, 1)%N ∧
  ∀ st', is_Some (eid_abs sample_id !! (2, st')%N) → (5 ≤ st')%N.
Proof.
  split; [reflexivity|].
  exact (proj2 (proj1 (source_bounds sample_id 2 sample_id_wf))).
Defined.

(** consecutive ids of a generator count up from its counter modulo [2^64] on its source
    and stream, and no two of up to [2^64] consecutive ids are equal. *)
Theorem generated_ids_unique (n : nat) (g : EventIdGenerator.t)
    (Hn : (N.of_nat n ≤ w64)%N) (Hg : u64_ok (EventIdGenerator.next g)) :
  (∀ i, (i < n)%nat → EventIdGenerator.take_ids n g !! i =
     Some (EventId.new (EventIdGenerator.source g) (EventIdGenerator.stream g)
             ((EventIdGenerator.next g + N.of_nat i) mod w64)%N)) ∧
  NoDup (EventIdGenerator.take_ids n g).
Proof.
  assert (length (EventIdGenerator.take_ids n g) = n) as Hlen.
  { clear. revert g. induction n as [|n IH]; intros g; simpl; [done|]. by rewrite IH. }
  split; [intros; by apply take_ids_lookup|].
  apply NoDup_alt. intros i j x Hi Hj.
  apply lookup_lt_Some in Hi as Hi'. apply lookup_lt_Some in Hj as Hj'. rewrite Hlen in *.
  rewrite take_ids_lookup in Hi, Hj by done. simplify_eq.
  cut (N.of_nat j = N.of_nat i); [lia|].
  eapply u64_add_inj; [lia|lia|done].
Qed.

Lemma generated_ids_unique_witness :
  NoDup (EventIdGenerator.take_ids 3 (EventIdGenerator.mk 1 0 u64_max)).
Proof.
  apply (generated_ids_unique 3 (EventIdGenerator.mk 1 0 u64_max)); [discriminate|reflexivity].
Defined.
