(* ===== verification/Value.v ===== *)
(** The value model of tremor-value/src/value.rs and the payload of an event
    of tremor-script/src/srs.rs.

    [static_node] is the [StaticNode] of simd-json, [value] the [Value] enum.
    Borrowed and owned strings are not told apart, so [into_static] and
    [clone_static] are the identity.  Objects are finite maps: the code never
    depends on the order of their keys here. *)
From Stdlib Require Import Floats.SpecFloat.
From S2P Require Import Prelude.

(** IEEE binary64. *)
Abbreviation f64 := spec_float (only parsing).
Definition f64_prec : Z := 53.
Definition f64_emax : Z := 1024.

Inductive static_node :=
  | SNull
  | SBool (b : bool)
  | SI64 (z : Z)
  | SU64 (n : N)
  | SF64 (f : f64).

Inductive value :=
  | VStatic (s : static_node)
  | VString (s : string)
  | VArray (l : list value)
  | VObject (o : gmap string value)
  | VBytes (b : list N).

Definition const_null : value := VStatic SNull.
Definition value_array : value := VArray [].
Definition value_object : value := VObject ∅.

Definition is_null (v : value) : bool :=
  match v with VStatic SNull => true | _ => false end.
Definition as_bool (v : value) : option bool :=
  match v with VStatic (SBool b) => Some b | _ => None end.
Definition as_str (v : value) : option string :=
  match v with VString s => Some s | _ => None end.
Definition as_array (v : value) : option (list value) :=
  match v with VArray l => Some l | _ => None end.
Definition as_object (v : value) : option (gmap string value) :=
  match v with VObject o => Some o | _ => None end.

(** ** Types *)
Inductive value_type :=
  | TNull | TBool | TI64 | TU64 | TF64 | TString | TArray | TObject | TBytes.
#[export] Instance value_type_eq_dec : EqDecision value_type.
Proof. solve_decision. Defined.

Definition static_type (s : static_node) : value_type :=
  match s with SNull => TNull | SBool _ => TBool | SI64 _ => TI64 | SU64 _ => TU64 | SF64 _ => TF64 end.
Definition type_of (v : value) : value_type :=
  match v with
  | VStatic s => static_type s
  | VString _ => TString
  | VArray _ => TArray
  | VObject _ => TObject
  | VBytes _ => TBytes
  end.
Definition is_object (v : value) : bool := match v with VObject _ => true | _ => false end.
Definition is_array (v : value) : bool := match v with VArray _ => true | _ => false end.
Definition is_str (v : value) : bool := match v with VString _ => true | _ => false end.

Definition i64_bot : Z := -9223372036854775808.
Definition i64_top : Z := 9223372036854775807.

(** ** The value-trait crate

    The accessors [Value] inherits from the traits of the value-trait crate
    and the number conversions of [StaticNode], with their documented
    behaviour. *)
Class value_trait := {
  static_as_u64 : static_node → option N;
  static_as_i64 : static_node → option Z;
  static_as_f64 : static_node → option f64;
  static_cast_f64 : static_node → option f64;
  value_get : value → string → option value;
  value_get_idx : value → N → option value;
  value_try_insert : value → string → value → value;
  value_try_push : value → value → value;

  static_as_u64_u64 n : static_as_u64 (SU64 n) = Some n;
  static_as_u64_i64 z : static_as_u64 (SI64 z) = if (0 <=? z)%Z then Some (Z.to_N z) else None;
  static_as_u64_other s :
    (∀ n, s ≠ SU64 n) → (∀ z, s ≠ SI64 z) → static_as_u64 s = None;
  static_as_i64_i64 z : static_as_i64 (SI64 z) = Some z;
  static_as_i64_u64 n : static_as_i64 (SU64 n) = if (Z.of_N n <=? i64_top)%Z then Some (Z.of_N n) else None;
  static_as_i64_other s :
    (∀ n, s ≠ SU64 n) → (∀ z, s ≠ SI64 z) → static_as_i64 s = None;
  static_as_f64_spec s : static_as_f64 s = match s with SF64 f => Some f | _ => None end;
  static_cast_f64_f64 f : static_cast_f64 (SF64 f) = Some f;
  static_cast_f64_bool b : static_cast_f64 (SBool b) = None;
  static_cast_f64_null : static_cast_f64 SNull = None;
  value_get_spec v k : value_get v k = as_object v ≫= (.!! k);
  value_get_idx_spec v i : value_get_idx v i = as_array v ≫= (.!! N.to_nat i);
  value_try_insert_object o k x : value_try_insert (VObject o) k x = VObject (<[k := x]> o);
  value_try_insert_other v k x : as_object v = None → value_try_insert v k x = v;
  value_try_push_array l x : value_try_push (VArray l) x = VArray (l ++ [x]);
  value_try_push_other v x : as_array v = None → value_try_push v x = v;
}.

Section accessors.
Context `{!value_trait}.

Definition as_u64 (v : value) : option N :=
  match v with VStatic s => static_as_u64 s | _ => None end.
(** [usize] is 64 bits wide. *)
Definition as_usize (v : value) : option N := as_u64 v.
Definition as_i64 (v : value) : option Z :=
  match v with VStatic s => static_as_i64 s | _ => None end.
Definition as_f64 (v : value) : option f64 :=
  match v with VStatic s => static_as_f64 s | _ => None end.
Definition is_i64 (v : value) : bool := match as_i64 v with Some _ => true | None => false end.
Definition is_usize (v : value) : bool := match as_usize v with Some _ => true | None => false end.
Definition cast_f64 (v : value) : option f64 :=
  match v with VStatic s => static_cast_f64 s | _ => None end.

Definition get_u64 (v : value) (k : string) : option N := value_get v k ≫= as_u64.
Definition get_usize (v : value) (k : string) : option N := value_get v k ≫= as_usize.
Definition get_str (v : value) (k : string) : option string := value_get v k ≫= as_str.
End accessors.

(** ** [ValueAndMeta], the data of an [EventPayload]

    The payload also owns the raw bytes its values point into; they only keep
    memory alive and are not modelled. *)
Module ValueAndMeta.
Record t := mk { v : value; m : value }.
Definition from_parts (v m : value) : t := mk v m.
Definition default : t := mk value_object value_object.
Definition from_value (x : value) : t := mk x value_object.
Definition set_value (x : value) (d : t) : t := mk x (m d).
Definition set_meta (x : value) (d : t) : t := mk (v d) x.
End ValueAndMeta.

(** ** A concrete implementation of the traits, for evaluation *)
Definition simd_static_as_u64 (s : static_node) : option N :=
  match s with
  | SU64 n => Some n
  | SI64 z => if (0 <=? z)%Z then Some (Z.to_N z) else None
  | _ => None
  end.
Definition simd_static_as_i64 (s : static_node) : option Z :=
  match s with
  | SI64 z => Some z
  | SU64 n => if (Z.of_N n <=? i64_top)%Z then Some (Z.of_N n) else None
  | _ => None
  end.
Definition simd_static_cast_f64 (s : static_node) : option f64 :=
  match s with
  | SF64 f => Some f
  | SU64 n => Some (binary_normalize f64_prec f64_emax (Z.of_N n) 0 false)
  | SI64 z => Some (binary_normalize f64_prec f64_emax z 0 false)
  | _ => None
  end.

Definition simd_value_trait : value_trait.
Proof.
  refine {| static_as_u64 := simd_static_as_u64;
            static_as_i64 := simd_static_as_i64;
            static_as_f64 s := match s with SF64 f => Some f | _ => None end;
            static_cast_f64 := simd_static_cast_f64;
            value_get v k := as_object v ≫= (.!! k);
            value_get_idx v i := as_array v ≫= (.!! N.to_nat i);
            value_try_insert v k x :=
              match v with VObject o => VObject (<[k := x]> o) | _ => v end;
            value_try_push v x := match v with VArray l => VArray (l ++ [x]) | _ => v end |};
    try done.
  - intros [| | | |f]; simpl; naive_solver.
  - intros [| | | |f]; simpl; naive_solver.
  - by intros [].
  - by intros [].
Defined.

Section value_facts.
Context `{!value_trait}.

Lemma value_get_obj o k : value_get (VObject o) k = o !! k.
Proof. by rewrite value_get_spec. Qed.
Lemma value_get_idx_arr l i : value_get_idx (VArray l) i = l !! N.to_nat i.
Proof. by rewrite value_get_idx_spec. Qed.
Lemma as_u64_u64 n : as_u64 (VStatic (SU64 n)) = Some n.
Proof. apply static_as_u64_u64. Qed.
End value_facts.

#[export] Hint Rewrite @value_get_obj @value_get_idx_arr @as_u64_u64
  @value_try_insert_object : tremor.
