(* ===== verification/Event.v ===== *)
(** Events, insights and the operator interface: tremor-pipeline/src/event.rs,
    the circuit breaker and operator metadata types of
    tremor-pipeline/src/lib.rs, and [Operator] of tremor-pipeline/src/op.rs. *)
From S2P Require Import Prelude Value EventIds.

(** ** Types of lib.rs *)
Inductive CbAction := CbNone | CbClose | CbOpen | CbAck | CbFail.
#[export] Instance CbAction_eq_dec : EqDecision CbAction.
Proof. solve_decision. Defined.

Definition CbAction_from (success : bool) : CbAction :=
  if success then CbAck else CbFail.
Definition is_cb (a : CbAction) : bool :=
  bool_decide (a = CbClose) || bool_decide (a = CbOpen).
Definition is_gd (a : CbAction) : bool :=
  bool_decide (a = CbAck) || bool_decide (a = CbFail).

Inductive SignalKind := SigInit | SigShutdown | SigControl | SigTick.
#[export] Instance SignalKind_eq_dec : EqDecision SignalKind.
Proof. solve_decision. Defined.

(** [OpMeta] maps operator uids to values; [BTreeMap::append] moves all
    elements of the other map in, overwriting. *)
Module OpMeta.
Definition insert (key : u64) (v : value) (self : gmap N value) : gmap N value :=
  <[key := v]> self.
Definition get (key : u64) (self : gmap N value) : option value := self !! key.
Definition contains_key (key : u64) (self : gmap N value) : bool :=
  bool_decide (is_Some (self !! key)).
Definition merge (self other : gmap N value) : gmap N value := other ∪ self.
End OpMeta.

Module EventOriginUri.
Record t := mk {
  uid : u64;
  scheme : string;
  host : string;
  port : option N;
  path : list string;
}.
Definition maybe_set_uid (u : u64) (self : t) : t :=
  if (uid self =? 0)%N then mk u (scheme self) (host self) (port self) (path self) else self.
End EventOriginUri.

(** ** Event *)
Module Event.
Record t := mk {
  id : EventId.t;
  data : ValueAndMeta.t;
  ingest_ns : u64;
  origin_uri : option EventOriginUri.t;
  kind : option SignalKind;
  is_batch : bool;
  cb : CbAction;
  op_meta : gmap N value;
  transactional : bool;
}.

Definition default : t :=
  mk EventId.default ValueAndMeta.default 0 None None false CbNone ∅ false.

Definition set_id (x : EventId.t) (e : t) : t :=
  mk x (data e) (ingest_ns e) (origin_uri e) (kind e) (is_batch e) (cb e) (op_meta e) (transactional e).
Definition set_data (x : ValueAndMeta.t) (e : t) : t :=
  mk (id e) x (ingest_ns e) (origin_uri e) (kind e) (is_batch e) (cb e) (op_meta e) (transactional e).
Definition set_origin_uri (x : option EventOriginUri.t) (e : t) : t :=
  mk (id e) (data e) (ingest_ns e) x (kind e) (is_batch e) (cb e) (op_meta e) (transactional e).
Definition set_cb (x : CbAction) (e : t) : t :=
  mk (id e) (data e) (ingest_ns e) (origin_uri e) (kind e) (is_batch e) x (op_meta e) (transactional e).
Definition set_op_meta (x : gmap N value) (e : t) : t :=
  mk (id e) (data e) (ingest_ns e) (origin_uri e) (kind e) (is_batch e) (cb e) x (transactional e).
Definition set_transactional (x : bool) (e : t) : t :=
  mk (id e) (data e) (ingest_ns e) (origin_uri e) (kind e) (is_batch e) (cb e) (op_meta e) x.

(** [event.data.suffix().value()] and [.meta()]. *)
Definition payload_value (e : t) : value := ValueAndMeta.v (data e).
Definition payload_meta (e : t) : value := ValueAndMeta.m (data e).

Definition insight (self : t) (success : bool) : t :=
  mk (id self) ValueAndMeta.default (ingest_ns self) (origin_uri self) None false
     (CbAction_from success) (op_meta self) false.

Definition cb_restore (ingest_ns : u64) : t :=
  mk EventId.default ValueAndMeta.default ingest_ns None None false CbOpen ∅ false.
Definition cb_trigger (ingest_ns : u64) : t :=
  mk EventId.default ValueAndMeta.default ingest_ns None None false CbClose ∅ false.
Definition cb_ack (ingest_ns : u64) (id : EventId.t) : t :=
  mk id ValueAndMeta.default ingest_ns None None false CbAck ∅ false.
Definition cb_fail (ingest_ns : u64) (id : EventId.t) : t :=
  mk id ValueAndMeta.default ingest_ns None None false CbFail ∅ false.

Definition restore_or_break (restore : bool) (ingest_ns : u64) : t :=
  if restore then cb_restore ingest_ns else cb_trigger ingest_ns.
Definition ack_or_fail (ack : bool) (ingest_ns : u64) (ids : EventId.t) : t :=
  if ack then cb_ack ingest_ns ids else cb_fail ingest_ns ids.

(** [swap(&mut e.op_meta, &mut self.op_meta)] and the same for the origin:
    the pair is the insight and what is left of the event. *)
Definition swap_meta (e self : t) : t * t :=
  (set_origin_uri (origin_uri self) (set_op_meta (op_meta self) e),
   set_origin_uri (origin_uri e) (set_op_meta (op_meta e) self)).

Definition insight_ack (self : t) : t * t := swap_meta (cb_ack (ingest_ns self) (id self)) self.
Definition insight_fail (self : t) : t * t := swap_meta (cb_fail (ingest_ns self) (id self)) self.
Definition insight_restore (self : t) : t * t := swap_meta (cb_restore (ingest_ns self)) self.
Definition insight_trigger (self : t) : t * t := swap_meta (cb_trigger (ingest_ns self)) self.

Definition insight_ack_with_timing (self : t) (processing_time : u64) : t * t :=
  let '(e, self) := insight_ack self in
  (set_data (ValueAndMeta.mk const_null
               (VObject {["time"%string := VStatic (SU64 processing_time)]})) e, self).

Definition to_fail (self : t) : t :=
  mk (id self) ValueAndMeta.default (ingest_ns self) (origin_uri self) None false
     CbFail (op_meta self) false.
Definition to_ack (self : t) : t :=
  mk (id self) ValueAndMeta.default (ingest_ns self) (origin_uri self) None false
     CbAck (op_meta self) false.

Definition len (self : t) : nat :=
  if is_batch self
  then from_option length 0%nat (as_array (payload_value self))
  else 1%nat.

Definition is_empty (self : t) : bool :=
  is_batch self &&
  from_option (λ l, bool_decide (l = [])) true (as_array (payload_value self)).
End Event.

Section iterators.
Context `{!value_trait}.

(** [ValueMetaIter::next] and [ValueIter::next] on the index [idx]: the item
    and the new index. *)
Definition value_meta_next (e : Event.t) (idx : N) : option (value * value) * N :=
  if Event.is_batch e then
    (x ← value_get_idx (Event.payload_value e) idx;
     data ← value_get x "data";
     v ← value_get data "value";
     m ← value_get data "meta";
     Some (v, m), (idx + 1)%N)
  else if (idx =? 0)%N then
    (Some (Event.payload_value e, Event.payload_meta e), (idx + 1)%N)
  else (None, idx).

Definition value_next (e : Event.t) (idx : N) : option value * N :=
  if Event.is_batch e then
    (x ← value_get_idx (Event.payload_value e) idx;
     data ← value_get x "data";
     value_get data "value", (idx + 1)%N)
  else if (idx =? 0)%N then (Some (Event.payload_value e), (idx + 1)%N)
  else (None, idx).

(** A [for] loop over an iterator: the items up to the first [None].  The
    fuel of the two users is the number of elements plus one. *)
Fixpoint drain {A} (next : N → option A * N) (fuel : nat) (idx : N) : list A :=
  match fuel with
  | O => []
  | S fuel =>
    match next idx with
    | (Some x, idx) => x :: drain next fuel idx
    | (None, _) => []
    end
  end.

Definition value_meta_items (e : Event.t) : list (value * value) :=
  drain (value_meta_next e) (S (Event.len e)) 0.
Definition value_items (e : Event.t) : list value :=
  drain (value_next e) (S (Event.len e)) 0.

Definition correlation_metas (e : Event.t) : list (option value) :=
  (λ vm : value * value, value_get vm.2 "correlation") <$> value_meta_items e.

(** [From<Option<T>> for Value] turns a missing value into [null]. *)
Definition from_opt (o : option value) : value := default const_null o.

Definition correlation_meta (e : Event.t) : option value :=
  if Event.is_batch e then
    let cms := correlation_metas e in
    if bool_decide (cms = []) then None else Some (VArray (from_opt <$> cms))
  else value_get (Event.payload_meta e) "correlation".
End iterators.

(** ** The operator interface (op.rs) *)
Definition OUT : string := "out".
Definition IN : string := "in".
Definition ERR : string := "err".
Definition METRICS : string := "metrics".
Definition OVERFLOW : string := "overflow".

Module EventAndInsights.
Record t := mk {
  events : list (string * Event.t);
  insights : list Event.t;
}.
Definition default : t := mk [] [].
Definition from_events (l : list (string * Event.t)) : t := mk l [].
Definition from_event (e : Event.t) : t := from_events [(OUT, e)].
End EventAndInsights.

(** The trait: handlers take [&mut self], so they return the operator as they
    leave it, also next to an error. [on_event] and [on_signal] also change
    the node state, [on_signal] the signal, [on_contraflow] the insight. *)
Class Operator (O : Type) := {
  on_event : N → string → value → Event.t → O → O * value * result EventAndInsights.t;
  handles_signal : O → bool;
  on_signal : N → value → Event.t → O → O * value * Event.t * result EventAndInsights.t;
  handles_contraflow : O → bool;
  on_contraflow : N → Event.t → O → O * Event.t;
  op_metrics : gmap string value → N → O → result (list value);
  skippable : O → bool;
}.

(** The default methods of the trait. *)
Section defaults.
Context {O : Type}.
Definition default_handles_signal (_ : O) : bool := false.
Definition default_on_signal (_ : N) (state : value) (signal : Event.t) (o : O) :
    O * value * Event.t * result EventAndInsights.t :=
  (o, state, signal, Ok EventAndInsights.default).
Definition default_handles_contraflow (_ : O) : bool := false.
Definition default_on_contraflow (_ : N) (insight : Event.t) (o : O) : O * Event.t := (o, insight).
Definition default_metrics (_ : gmap string value) (_ : N) (_ : O) : result (list value) := Ok [].
Definition default_skippable (_ : O) : bool := false.
End defaults.

(** ** Circuit breakers *)

(** What the node upstream makes of the circuit breaker actions it gets. *)
Definition breaker_view (open : bool) (actions : list CbAction) : bool :=
  foldl (λ b a, match a with CbOpen => true | CbClose => false | _ => b end) open actions.

(** No action repeats what upstream already knows. *)
Fixpoint breaker_alternates (open : bool) (actions : list CbAction) : Prop :=
  match actions with
  | [] => True
  | CbOpen :: actions => open = false ∧ breaker_alternates true actions
  | CbClose :: actions => open = true ∧ breaker_alternates false actions
  | _ :: actions => breaker_alternates open actions
  end.

(** ** What a graph expects of its operators

    An invariant [I] of the operator states that the handlers preserve, under
    which they emit data events only and do not run into undefined
    behaviour. *)
Class data_operator {O} `{!Operator O} (I : O → Prop) := {
  on_event_data o uid port st e o' st' r :
    I o → Event.kind e = None → on_event uid port st e o = (o', st', r) →
    I o' ∧ r ≠ Err EUndefined ∧
    ∀ ei, r = Ok ei → Forall (λ pe, Event.kind pe.2 = None) (EventAndInsights.events ei);
  on_signal_data o uid st sg o' st' sg' r :
    I o → on_signal uid st sg o = (o', st', sg', r) →
    I o' ∧ r ≠ Err EUndefined ∧
    ∀ ei, r = Ok ei → Forall (λ pe, Event.kind pe.2 = None) (EventAndInsights.events ei);
  on_contraflow_data o uid ins o' ins' :
    I o → on_contraflow uid ins o = (o', ins') → I o';
}.
