(* ===== verification/OpsBasic.v ===== *)
(** The stateless and counting operators: passthrough
    (tremor-pipeline/src/op/identity/passthrough.rs), counter
    (op/generic/counter.rs) and the event history (op/debug/history.rs). *)
From S2P Require Import Prelude Value EventIds Event.

Module Passthrough.
Record t := mk {}.
Definition on_event (_ : N) (_ : string) (state : value) (event : Event.t) (self : t) :
    t * value * result EventAndInsights.t :=
  (self, state, Ok (EventAndInsights.from_event event)).

#[global] Instance operator : Operator t := {
  on_event := on_event;
  handles_signal := default_handles_signal;
  on_signal := default_on_signal;
  handles_contraflow := default_handles_contraflow;
  on_contraflow := default_on_contraflow;
  op_metrics := default_metrics;
  skippable _ := true;
}.
End Passthrough.

Module Counter.
Record t := mk {}.

Section ops.
Context `{!value_trait}.

(** [parts_mut], the swap with a fresh object and the two [try_insert]s. *)
Definition wrap (state : value) (d : ValueAndMeta.t) : ValueAndMeta.t :=
  let h := value_object in
  let v := value_try_insert h "count" state in
  let v := value_try_insert v "event" (ValueAndMeta.v d) in
  ValueAndMeta.set_value v d.

Definition on_event (_ : N) (_ : string) (state : value) (event : Event.t) (self : t) :
    t * value * result EventAndInsights.t :=
  let next :=
    if is_null state then Ok (VStatic (SU64 1))
    else n ← ok_or (as_u64 state) (EMsg "Expected number for state");
         Ok (VStatic (SU64 (u64_add n 1))) in
  match next with
  | Err e => (self, state, Err e)
  | Ok state =>
      (self, state, Ok (EventAndInsights.from_event
        (Event.set_data (wrap state (Event.data event)) event)))
  end.

#[global] Instance operator : Operator t := {
  on_event := on_event;
  handles_signal := default_handles_signal;
  on_signal := default_on_signal;
  handles_contraflow := default_handles_contraflow;
  on_contraflow := default_on_contraflow;
  op_metrics := default_metrics;
  skippable := default_skippable;
}.
End ops.
End Counter.

Module History.
Record t := mk { op : string; name : string; id : string }.

Section ops.
Context `{!value_trait}.

(** [get_mut] and [as_array_mut] reach the array inside the metadata; a
    value that is no array is overwritten, metadata that is no object is
    left alone. *)
Definition record (name line : string) (meta : value) : value :=
  match as_object meta with
  | Some obj =>
    match value_get meta name ≫= as_array with
    | Some history => VObject (<[name := VArray (history ++ [VString line])]> obj)
    | None => VObject (<[name := VArray [VString line]]> obj)
    end
  | None => meta
  end.

Definition line (kind op : string) (id : EventId.t) : string :=
  kind +:+ ": " +:+ op +:+ "(" +:+ EventId.display id +:+ ")".

Definition add (kind : string) (self : t) (e : Event.t) : Event.t :=
  Event.set_data
    (ValueAndMeta.set_meta (record (name self) (line kind (op self) (Event.id e)) (Event.payload_meta e))
       (Event.data e)) e.

Definition on_event (_ : N) (_ : string) (state : value) (event : Event.t) (self : t) :
    t * value * result EventAndInsights.t :=
  (self, state, Ok (EventAndInsights.from_event (add "evt" self event))).

Definition on_signal (_ : N) (state : value) (signal : Event.t) (self : t) :
    t * value * Event.t * result EventAndInsights.t :=
  (self, state, add "sig" self signal, Ok EventAndInsights.default).

#[global] Instance operator : Operator t := {
  on_event := on_event;
  handles_signal _ := true;
  on_signal := on_signal;
  handles_contraflow := default_handles_contraflow;
  on_contraflow := default_on_contraflow;
  op_metrics := default_metrics;
  skippable := default_skippable;
}.
End ops.
End History.

(** Feeding an operator a list of events on one port, in order; the run stops
    at the first error. *)
Section feed.
Context {Op : Type} `{!Operator Op}.

Fixpoint feed (uid : N) (port : string) (evs : list Event.t) (state : value) (o : Op) :
    Op * value * result (list EventAndInsights.t) :=
  match evs with
  | [] => (o, state, Ok [])
  | e :: evs =>
    let '(o, state, r) := on_event uid port state e o in
    match r with
    | Err e => (o, state, Err e)
    | Ok ei => let '(o, state, rs) := feed uid port evs state o in (o, state, cons ei <$> rs)
    end
  end.

Lemma feed_cons uid port e evs state o o' state' r :
  on_event uid port state e o = (o', state', r) →
  feed uid port (e :: evs) state o =
  match r with
  | Err e => (o', state', Err e)
  | Ok ei => let '(o, state, rs) := feed uid port evs state' o' in (o, state, cons ei <$> rs)
  end.
Proof. intros Hev. cbn [feed]. by rewrite Hev. Qed.
End feed.

(** What a pipeline hands to an operator. *)
Inductive op_input :=
  | InEvent (e : Event.t)
  | InSignal (s : Event.t)
  | InInsight (i : Event.t).

(** ** These operators keep the graph going *)
(** A handler that answers without an event. *)
Ltac no_events := split; [done|split; [done|intros ei [= <-]; constructor]].
(** A handler that answers with one data event. *)
Ltac one_event := split; [done|split; [done|intros ei [= <-]; by repeat constructor]].

#[export] Instance passthrough_data : data_operator (λ _ : Passthrough.t, True).
Proof.
  split.
  - intros; simpl in *; unfold Passthrough.on_event in *; simplify_eq. one_event.
  - intros; simpl in *; unfold default_on_signal in *; simplify_eq. no_events.
  - done.
Qed.

#[export] Instance counter_data `{!value_trait} : data_operator (λ _ : Counter.t, True).
Proof.
  split.
  - intros o uid port st e o' st' r _ Hk. simpl. unfold Counter.on_event.
    destruct (is_null st); [|destruct (as_u64 st)]; simpl; intros; simplify_eq; by try one_event.
  - intros; simpl in *; unfold default_on_signal in *; simplify_eq. no_events.
  - done.
Qed.

#[export] Instance history_data `{!value_trait} : data_operator (λ _ : History.t, True).
Proof.
  split.
  - intros; simpl in *; unfold History.on_event in *; simplify_eq. one_event.
  - intros; simpl in *; unfold History.on_signal in *; simplify_eq. no_events.
  - done.
Qed.

Section counter_facts.
Context `{!value_trait}.

(** The payload a counted event leaves with. *)
Definition counted (n : N) (e : Event.t) : value :=
  VObject {["event" := Event.payload_value e; "count" := VStatic (SU64 n)]}.

(** The number [i] counts after [n], wrapping. *)
Definition count_from (n : N) (i : nat) : N := Nat.iter i (λ k, u64_add k 1) n.

Lemma count_from_S n i : count_from n (S i) = count_from (u64_add n 1) i.
Proof. unfold count_from. by rewrite Nat.iter_succ_r. Qed.

Lemma wrap_value n d :
  ValueAndMeta.v (Counter.wrap (VStatic (SU64 n)) d) =
  VObject {["event" := ValueAndMeta.v d; "count" := VStatic (SU64 n)]}.
Proof. unfold Counter.wrap, value_object. simpl. by rewrite !value_try_insert_object. Qed.

Lemma counter_from uid port evs n :
  ∃ eis, feed uid port evs (VStatic (SU64 n)) (Counter.mk) =
    (Counter.mk, VStatic (SU64 (count_from n (length evs))), Ok eis) ∧
  (λ ei, (λ pe, (pe.1, Event.payload_value pe.2)) <$> EventAndInsights.events ei) <$> eis =
  imap (λ i e, [(OUT, counted (count_from n (S i)) e)]) evs.
Proof.
  revert n. induction evs as [|e evs IH]; intros n; [by exists []|].
  destruct (IH (u64_add n 1)) as (eis & Hfeed & Hout).
  cbn [feed]. simpl on_event. unfold Counter.on_event. simpl is_null. cbn [mbind].
  rewrite as_u64_u64. cbn [ok_or]. rewrite bind_Ok, Hfeed. eexists. split.
  - cbn [length]. by rewrite count_from_S.
  - rewrite fmap_cons, Hout. cbn [imap]. f_equal.
    + cbn -[Counter.wrap]. unfold Event.payload_value. cbn -[Counter.wrap]. by rewrite wrap_value.
    + apply imap_ext. intros i x _. cbn [compose]. by rewrite <-count_from_S.
Qed.
End counter_facts.

(** A counter node fed any list of events from its initial (null) state
    emits, for the i-th event, one event on [out] whose value is the object of
    the number [i] (wrapping at 2^64) and the original value, and it is left
    with the number of events as its state. *)
Theorem counter_numbers_events `{!value_trait} (uid : N) (port : string) (e : Event.t) (evs : list Event.t) :
  ∃ eis, feed uid port (e :: evs) const_null Counter.mk =
    (Counter.mk, VStatic (SU64 (count_from 1 (length evs))), Ok eis) ∧
  (λ ei, (λ pe, (pe.1, Event.payload_value pe.2)) <$> EventAndInsights.events ei) <$> eis =
  imap (λ i e, [(OUT, counted (count_from 1 i) e)]) (e :: evs).
Proof.
  destruct (counter_from uid port evs 1%N) as (eis & Hfeed & Hout).
  cbn [feed]. simpl on_event. unfold Counter.on_event. cbn [is_null const_null]. rewrite Hfeed.
  eexists. split; [done|]. rewrite fmap_cons, Hout. cbn [imap]. f_equal.
  cbn -[Counter.wrap]. unfold Event.payload_value. cbn -[Counter.wrap]. by rewrite wrap_value.
Qed.
