(* ===== verification/Batch.v ===== *)
(** The batch operator: tremor-pipeline/src/op/generic/batch.rs.

    Abstractly a batch operator keeps the list of events that came in since the
    last flush ([holds]); flushing turns the list into one event
    ([batch_of]). *)
From S2P Require Import Prelude Value EventIds Event OpsBasic.

Module Batch.
Record config := mk_config { count : usize; timeout : option u64 }.

Record t := mk {
  cfg : config;
  data : ValueAndMeta.t;
  len : usize;
  max_delay_ns : option u64;
  first_ns : u64;
  id : string;
  batch_event_id : EventId.t;
  is_transactional : bool;
  event_id_gen : EventIdGenerator.t;
}.

Definition empty : ValueAndMeta.t := ValueAndMeta.from_value value_array.

(** [BatchFactory]: [from_node] with a configuration. *)
Definition from_config (uid : u64) (id : string) (config : config) : t :=
  let '(eid, idgen) := EventIdGenerator.next_id (EventIdGenerator.new uid) in
  mk config empty 0 ((λ ms, u64_mul ms 1000000) <$> timeout config) 0 id eid false idgen.

(** The element an event becomes. *)
Definition element_data (e : Event.t) : value :=
  VObject {[
    "value" := Event.payload_value e;
    "meta" := Event.payload_meta e;
    "ingest_ns" := VStatic (SU64 (Event.ingest_ns e));
    "kind" := const_null;
    "is_batch" := VStatic (SBool (Event.is_batch e))]}.
Definition element (e : Event.t) : value := VObject {["data" := element_data e]}.

(** [self.data.consume]: pushes the element if the data is an array. *)
Definition consume (d : ValueAndMeta.t) (e : Event.t) : ValueAndMeta.t :=
  match as_array (ValueAndMeta.v d) with
  | Some a => ValueAndMeta.set_value (VArray (a ++ [element e])) d
  | None => d
  end.

(** The event a flush emits, and the operator after it: the id that was
    collected is swapped with the fresh one. *)
Definition flush (self : t) : Event.t * t :=
  let '(eid, gen) := EventIdGenerator.next_id (event_id_gen self) in
  (Event.mk (batch_event_id self) (data self) (first_ns self) None None true CbNone ∅
     (is_transactional self),
   mk (cfg self) empty 0 (max_delay_ns self) (first_ns self) (id self) eid false gen).

(** The first half of [on_event]: the event joins the batch. *)
Definition collect (event : Event.t) (self : t) : t :=
  let n := u64_add (len self) 1 in
  mk (cfg self) (consume (data self) event) n (max_delay_ns self)
    (if (n =? 1)%N then Event.ingest_ns event else first_ns self) (id self)
    (EventId.track (batch_event_id self) (Event.id event))
    (is_transactional self || Event.transactional event) (event_id_gen self).

Definition on_event (_ : N) (_ : string) (state : value) (event : Event.t) (self : t) :
    t * value * result EventAndInsights.t :=
  let self := collect event self in
  let by_count := (len self =? count (cfg self))%N in
  let flush_now :=
    match max_delay_ns self with
    | Some t => if (t <? u64_sub (Event.ingest_ns event) (first_ns self))%N then true else by_count
    | None => by_count
    end in
  if flush_now then
    let '(event, self) := flush self in (self, state, Ok (EventAndInsights.from_event event))
  else (self, state, Ok EventAndInsights.default).

Definition on_signal (_ : N) (state : value) (signal : Event.t) (self : t) :
    t * value * Event.t * result EventAndInsights.t :=
  match max_delay_ns self with
  | Some delay_ns =>
    if (delay_ns <? u64_sub (Event.ingest_ns signal) (first_ns self))%N && (0 <? len self)%N then
      let '(event, self) := flush self in
      (self, state, signal, Ok (EventAndInsights.from_event event))
    else (self, state, signal, Ok EventAndInsights.default)
  | None => (self, state, signal, Ok EventAndInsights.default)
  end.

#[global] Instance operator : Operator t := {
  on_event := on_event;
  handles_signal _ := true;
  on_signal := on_signal;
  handles_contraflow := default_handles_contraflow;
  on_contraflow := default_on_contraflow;
  op_metrics := default_metrics;
  skippable := default_skippable;
}.
End Batch.

(** ** The abstract batch *)

(** The operator holds the events [pend]; [id0] is the id the batch started
    from. *)
Record holds (self : Batch.t) (id0 : EventId.t) (pend : list Event.t) : Prop := {
  holds_data : Batch.data self = ValueAndMeta.from_value (VArray (Batch.element <$> pend));
  holds_len : Batch.len self = N.of_nat (length pend);
  holds_first : ∀ e rest, pend = e :: rest → Batch.first_ns self = Event.ingest_ns e;
  holds_id : Batch.batch_event_id self = foldl EventId.track id0 (Event.id <$> pend);
  holds_trans : Batch.is_transactional self = existsb Event.transactional pend;
}.

(** The batch of a non empty list of events. *)
Definition batch_of (id0 : EventId.t) (e : Event.t) (rest : list Event.t) : Event.t :=
  Event.mk (foldl EventId.track id0 (Event.id <$> e :: rest))
    (ValueAndMeta.from_value (VArray (Batch.element <$> e :: rest)))
    (Event.ingest_ns e) None None true CbNone ∅ (existsb Event.transactional (e :: rest)).

(** When a batch of these events is full, and when it is late at a time, which
    by the wrapping subtraction it also is at an earlier one. *)
Definition full (self : Batch.t) (pend : list Event.t) : bool :=
  (N.of_nat (length pend) =? Batch.count (Batch.cfg self))%N.
Definition late (self : Batch.t) (first now : N) : bool :=
  match Batch.max_delay_ns self with
  | Some t => (t <? u64_sub now first)%N
  | None => false
  end.

Definition same_settings (a b : Batch.t) : Prop :=
  Batch.cfg a = Batch.cfg b ∧ Batch.max_delay_ns a = Batch.max_delay_ns b ∧ Batch.id a = Batch.id b.

#[export] Instance batch_data : data_operator (λ _ : Batch.t, True).
Proof.
  split.
  - intros o uid port st e o' st' r _ Hk. simpl. unfold Batch.on_event.
    destruct (match Batch.max_delay_ns _ with Some _ => _ | None => _ end);
      unfold Batch.flush; simpl; intros [= <- <- <-]; [one_event|no_events].
  - intros o uid st sg o' st' sg' r _. simpl. unfold Batch.on_signal.
    destruct (Batch.max_delay_ns o) as [t|]; [destruct (_ && _)|];
      unfold Batch.flush; simpl; intros [= <- <- <- <-]; [one_event|no_events..].
  - done.
Qed.

Section facts.
Context `{!value_trait}.

Lemma element_next ev l idx e :
  Event.is_batch ev = true → Event.payload_value ev = VArray l →
  l !! N.to_nat idx = Some (Batch.element e) →
  value_meta_next ev idx = (Some (Event.payload_value e, Event.payload_meta e), (idx + 1)%N).
Proof.
  intros Hb Hv Hl. unfold value_meta_next. rewrite Hb, Hv, value_get_idx_arr, Hl.
  assert (value_get (Batch.element e) "data" = Some (Batch.element_data e)) as Hd
    by (by rewrite value_get_spec).
  assert (value_get (Batch.element_data e) "value" = Some (Event.payload_value e)) as Hval
    by (by rewrite value_get_spec).
  assert (value_get (Batch.element_data e) "meta" = Some (Event.payload_meta e)) as Hm
    by (by rewrite value_get_spec).
  cbn [mbind option_bind]. by rewrite Hd; cbn [mbind option_bind]; rewrite Hval; cbn; rewrite Hm.
Qed.

(** Iterating over an array of elements gives the events back. *)
Lemma element_drain ev pend done_ :
  Event.is_batch ev = true → Event.payload_value ev = VArray (Batch.element <$> done_ ++ pend) →
  drain (value_meta_next ev) (S (length pend)) (N.of_nat (length done_)) =
  (λ e, (Event.payload_value e, Event.payload_meta e)) <$> pend.
Proof.
  intros Hb. revert done_. induction pend as [|e pend IH]; intros done_ Hv; cbn [drain length].
  - unfold value_meta_next. rewrite Hb, Hv, value_get_idx_arr, Nat2N.id, app_nil_r.
    rewrite list_lookup_fmap, (lookup_ge_None_2 done_) by lia. done.
  - rewrite (element_next ev _ _ e Hb Hv).
    2: { rewrite Nat2N.id, list_lookup_fmap, lookup_app_r, Nat.sub_diag by lia. done. }
    rewrite fmap_cons. f_equal.
    specialize (IH (done_ ++ [e])). rewrite length_app, <-(assoc_L (++)) in IH. simpl in IH.
    replace (N.of_nat (length done_) + 1)%N with (N.of_nat (length done_ + 1)) by lia. by apply IH.
Qed.

Lemma batch_items id0 e rest :
  value_meta_items (batch_of id0 e rest) =
  (λ e, (Event.payload_value e, Event.payload_meta e)) <$> e :: rest.
Proof.
  unfold value_meta_items. change 0%N with (N.of_nat (length (@nil Event.t))).
  assert (Event.len (batch_of id0 e rest) = length (e :: rest)) as ->.
  { unfold Event.len. simpl. by rewrite length_fmap. }
  by apply element_drain.
Qed.
End facts.

Lemma holds_push self id0 pend e :
  holds self id0 pend → (N.of_nat (S (length pend)) < w64)%N →
  holds (Batch.collect e self) id0 (pend ++ [e]).
Proof.
  intros [] Hlt. assert (u64_add (Batch.len self) 1 = N.of_nat (length (pend ++ [e]))) as Hlen.
  { rewrite length_app, holds_len0. simpl. rewrite u64_add_small; lia. }
  assert ((N.of_nat (length (pend ++ [e])) =? 1)%N = bool_decide (pend = [])) as Hone.
  { rewrite length_app. destruct pend as [|p pend]; [done|]. apply N.eqb_neq. simpl. lia. }
  unfold Batch.collect. rewrite Hlen, Hone. constructor; simpl.
  - rewrite holds_data0. unfold Batch.consume. simpl. by rewrite fmap_app.
  - done.
  - intros e0 rest Heq. destruct pend as [|p pend]; simplify_eq/=; [done|]. by eapply holds_first0.
  - by rewrite fmap_app, foldl_app, <-holds_id0.
  - rewrite existsb_app, <-holds_trans0. simpl. by rewrite orb_false_r.
Qed.

Lemma holds_flush self id0 e rest :
  holds self id0 (e :: rest) →
  (Batch.flush self).1 = batch_of id0 e rest ∧
  holds (Batch.flush self).2 (Batch.batch_event_id (Batch.flush self).2) [] ∧
  same_settings (Batch.flush self).2 self.
Proof.
  intros []. unfold Batch.flush, batch_of. destruct (EventIdGenerator.next_id _) as [eid gen]. simpl.
  rewrite holds_data0, holds_id0, holds_trans0, (holds_first0 e rest) by done.
  split_and!; [done| |done..]. by constructor.
Qed.

(** The test of [on_event] on the operator that has collected the event. *)
Lemma flush_when (self1 self : Batch.t) (id0 : EventId.t) (first : Event.t) (rest : list Event.t) (e : Event.t) :
  holds self1 id0 (first :: rest) → Batch.cfg self1 = Batch.cfg self →
  Batch.max_delay_ns self1 = Batch.max_delay_ns self →
  match Batch.max_delay_ns self1 with
  | Some t => if (t <? u64_sub (Event.ingest_ns e) (Batch.first_ns self1))%N then true
              else (Batch.len self1 =? Batch.count (Batch.cfg self1))%N
  | None => (Batch.len self1 =? Batch.count (Batch.cfg self1))%N
  end = full self (first :: rest) || late self (Event.ingest_ns first) (Event.ingest_ns e).
Proof.
  intros [_ Hl Hf _ _] Hc Hd. unfold full, late. rewrite Hd, Hc, Hl, (Hf first rest) by done.
  destruct (Batch.max_delay_ns self); [|by rewrite orb_false_r]. rewrite orb_comm. by destruct (_ <? _)%N.
Qed.

(** C30: the batch operator implements "collect, then emit in one": after an
    event it either holds one event more and emits nothing, or it emits on
    [out] exactly the batch of the events it held and the new one and holds
    nothing; it does the latter when the batch has the configured size or the
    event is later than the first by more than the delay, in wrapping 64 bit
    arithmetic: an event that is earlier than the first is late, too. *)
Theorem batch_on_event (self : Batch.t) (id0 : EventId.t) (pend : list Event.t) (e : Event.t)
    (uid : N) (port : string) (state : value)
    (Hh : holds self id0 pend) (Hlen : (N.of_nat (S (length pend)) < w64)%N) :
  ∃ self' out, Batch.on_event uid port state e self = (self', state, Ok out) ∧ same_settings self' self ∧
    match pend ++ [e] with
    | [] => False
    | first :: rest =>
      if full self (first :: rest) || late self (Event.ingest_ns first) (Event.ingest_ns e)
      then EventAndInsights.events out = [(OUT, batch_of id0 first rest)] ∧
           holds self' (Batch.batch_event_id self') []
      else EventAndInsights.events out = [] ∧ holds self' id0 (first :: rest)
    end ∧ EventAndInsights.insights out = [].
Proof.
  pose proof (holds_push self id0 pend e Hh Hlen) as Hp. unfold Batch.on_event.
  assert (same_settings (Batch.collect e self) self) as (Hcfg & Hdelay & Hid) by done.
  set (self1 := Batch.collect e self) in *. clearbody self1.
  destruct (pend ++ [e]) as [|first rest] eqn:Hpend; [by destruct pend|].
  rewrite (flush_when self1 self id0 first rest e Hp Hcfg Hdelay).
  destruct (full self (first :: rest) || late self (Event.ingest_ns first) (Event.ingest_ns e)).
  - destruct (holds_flush self1 id0 first rest Hp) as (Hev & Hh' & Hs1 & Hs2 & Hs3).
    destruct (Batch.flush self1) as [ev self']. simpl in *. eexists _, _. split; [done|].
    split; [split_and!; congruence|]. by rewrite Hev.
  - eexists _, _. split; [done|]. by split_and!.
Qed.

(** on a signal a batch that waited longer than the delay is emitted as
    it is, and nothing is emitted or changed otherwise, in particular not
    when no event is held. *)
Theorem batch_on_signal (self : Batch.t) (id0 : EventId.t) (pend : list Event.t) (signal : Event.t)
    (uid : N) (state : value) (Hh : holds self id0 pend) :
  ∃ self' out, Batch.on_signal uid state signal self = (self', state, signal, Ok out) ∧
    match pend with
    | [] => self' = self ∧ EventAndInsights.events out = []
    | first :: rest =>
      if late self (Event.ingest_ns first) (Event.ingest_ns signal)
      then EventAndInsights.events out = [(OUT, batch_of id0 first rest)] ∧
           holds self' (Batch.batch_event_id self') [] ∧ same_settings self' self
      else self' = self ∧ EventAndInsights.events out = []
    end.
Proof.
  unfold Batch.on_signal, late. destruct Hh as [Hd Hl Hf Hi Ht]. rewrite Hl.
  destruct pend as [|first rest].
  { destruct (Batch.max_delay_ns self); [|by eexists _, _].
    simpl. rewrite andb_false_r. by eexists _, _. }
  rewrite (Hf first rest) by done.
  destruct (Batch.max_delay_ns self) as [t|] eqn:Hdelay; [|by eexists _, _].
  assert ((0 <? N.of_nat (length (first :: rest)))%N = true) as -> by (apply N.ltb_lt; simpl; lia).
  rewrite andb_true_r. destruct (t <? _)%N; [|by eexists _, _].
  destruct (holds_flush self id0 first rest) as (Hev & Hh' & Hs); [by constructor|].
  destruct (Batch.flush self) as [ev self']. simpl in *. eexists _, _. split; [done|]. by rewrite Hev.
Qed.

(** nothing is lost in a batch: iterating over it gives the values and
    metadata of the events that were collected, in order, and its id reports
    each of them as tracked. *)
Theorem batch_roundtrip `{!value_trait} (id0 : EventId.t) (e : Event.t) (rest : list Event.t)
    (Hid0 : eid_wf id0) (Hids : Forall (λ e, eid_wf (Event.id e)) (e :: rest)) :
  value_meta_items (batch_of id0 e rest) =
    (λ e, (Event.payload_value e, Event.payload_meta e)) <$> e :: rest ∧
  Event.len (batch_of id0 e rest) = length (e :: rest) ∧
  ∀ o, o ∈ e :: rest → EventId.is_tracking (Event.id (batch_of id0 e rest)) (Event.id o) = true.
Proof.
  split; [apply batch_items|]. split; [unfold Event.len; simpl; by rewrite length_fmap|].
  intros o Ho. apply tracked_reported; [done|by rewrite Forall_fmap|].
  apply list_elem_of_fmap. by exists o.
Qed.

(** ** Witnesses *)
Module BatchSample.
Definition op : Batch.t := Batch.from_config 1 "batch" (Batch.mk_config 2 None).
Definition id0 : EventId.t := EventId.new 1 0 0.
Definition ev (n : N) : Event.t :=
  Event.set_data (ValueAndMeta.mk (VStatic (SU64 n)) (VString "m")) (Event.set_id (EventId.new 7 0 n) Event.default).
Lemma op_holds : holds op id0 [].
Proof. by constructor. Qed.
Lemma one_holds : holds (Batch.collect (ev 1) op) id0 [ev 1].
Proof. by apply (holds_push op id0 [] (ev 1) op_holds). Qed.
End BatchSample.

Lemma batch_on_event_witness :
  ∃ self' out, Batch.on_event 0 IN const_null (BatchSample.ev 2) (Batch.collect (BatchSample.ev 1) BatchSample.op) =
    (self', const_null, Ok out) ∧
  EventAndInsights.events out = [(OUT, batch_of BatchSample.id0 (BatchSample.ev 1) [BatchSample.ev 2])].
Proof.
  destruct (batch_on_event _ _ [BatchSample.ev 1] (BatchSample.ev 2) 0 IN const_null BatchSample.one_holds
    ltac:(reflexivity)) as (self' & out & Heq & _ & [H _] & _).
  exists self', out. split; [exact Heq|exact H].
Defined.

Lemma batch_on_signal_witness :
  ∃ self' out, Batch.on_signal 0 const_null Event.default (Batch.collect (BatchSample.ev 1) BatchSample.op) =
    (self', const_null, Event.default, Ok out) ∧ EventAndInsights.events out = [].
Proof.
  destruct (batch_on_signal _ _ [BatchSample.ev 1] Event.default 0 const_null BatchSample.one_holds)
    as (self' & out & Heq & _ & H).
  exists self', out. split; [exact Heq|exact H].
Defined.

Lemma batch_roundtrip_witness :
  let _ := simd_value_trait in
  value_meta_items (batch_of BatchSample.id0 (BatchSample.ev 1) [BatchSample.ev 2]) =
    [(VStatic (SU64 1), VString "m"); (VStatic (SU64 2), VString "m")].
Proof.
  intros H. refine (proj1 (batch_roundtrip BatchSample.id0 (BatchSample.ev 1) [BatchSample.ev 2] _ _)).
  - repeat constructor.
  - repeat constructor.
Defined.
