(* ===== verification/RoundRobin.v ===== *)
(** The round robin operator: tremor-pipeline/src/op/qos/rr.rs. *)
From S2P Require Import Prelude Value EventIds Event OpsBasic.

Module RoundRobin.
Record output := mk_output { open : bool; name : string }.

Record t := mk {
  config : list string;
  outputs : list output;
  next : usize;
  first : bool;
}.

(** [From<Config>]. *)
Definition from_config (outs : list string) : t :=
  mk outs (mk_output true <$> outs) 0 true.

(** [RoundRobinFactory]. *)
Definition from_node (node_id : string) (config : option (list string)) : result t :=
  match config with
  | Some [] => Err (EMissingOpConfig node_id)
  | Some outs => Ok (from_config outs)
  | None => Err (EMissingOpConfig node_id)
  end.

(** The [for] loop of [on_event] over [n in ns]: the name and index of the
    open output it stops at.  The index is a modulus, so the unchecked
    access is in bounds. *)
Fixpoint pick (next : usize) (outs : list output) (ns : list nat) : option (string * nat) :=
  match ns with
  | [] => None
  | n :: ns =>
    let id := N.to_nat (u64_add next (N.of_nat n) mod N.of_nat (length outs))%N in
    match outs !! id with
    | Some o => if open o then Some (name o, id) else pick next outs ns
    | None => pick next outs ns
    end
  end.

Definition on_event (uid : N) (_ : string) (state : value) (event : Event.t) (self : t) :
    t * value * result EventAndInsights.t :=
  match pick (next self) (outputs self) (seq 0 (length (outputs self))) with
  | Some (out, oid) =>
    (mk (config self) (outputs self) (u64_add (N.of_nat oid) 1) (first self), state,
     Ok (EventAndInsights.from_events
       [(out, Event.set_op_meta
                (OpMeta.insert uid (VStatic (SU64 (N.of_nat oid))) (Event.op_meta event)) event)]))
  | None => (self, state, Ok (EventAndInsights.from_events [("overflow"%string, event)]))
  end.

Definition any_open (self : t) : bool := existsb open (outputs self).

Definition on_signal (_ : N) (state : value) (signal : Event.t) (self : t) :
    t * value * Event.t * result EventAndInsights.t :=
  if first self && any_open self then
    let e := Event.set_origin_uri None (Event.cb_restore (Event.ingest_ns signal)) in
    (mk (config self) (outputs self) (next self) false, state, signal,
     Ok (EventAndInsights.mk [] [e]))
  else (self, state, signal, Ok EventAndInsights.default).

Section contra.
Context `{!value_trait}.

(** The output an insight is about. *)
Definition insight_output (uid : N) (insight : Event.t) : option nat :=
  N.to_nat <$> (OpMeta.get uid (Event.op_meta insight) ≫= as_usize).

Definition set_open (cb : CbAction) (o : output) : output :=
  match cb with
  | CbClose => mk_output false (name o)
  | CbOpen => mk_output true (name o)
  | _ => o
  end.

Definition on_contraflow (uid : N) (insight : Event.t) (self : t) : t * Event.t :=
  let any_were_available := any_open self in
  let self :=
    match insight_output uid insight with
    | Some id =>
        mk (config self) (alter (set_open (Event.cb insight)) id (outputs self)) (next self) (first self)
    | None => self
    end in
  let any_available := any_open self in
  let insight :=
    if any_available && negb any_were_available then Event.set_cb CbOpen insight
    else if any_were_available && negb any_available then Event.set_cb CbClose insight
    else if is_cb (Event.cb insight) then Event.set_cb CbNone insight
    else insight in
  (self, insight).

#[global] Instance operator : Operator t := {
  on_event := on_event;
  handles_signal _ := true;
  on_signal := on_signal;
  handles_contraflow _ := true;
  on_contraflow := on_contraflow;
  op_metrics := default_metrics;
  skippable := default_skippable;
}.
End contra.
End RoundRobin.

#[export] Instance round_robin_data `{!value_trait} : data_operator (λ _ : RoundRobin.t, True).
Proof.
  split.
  - intros o uid port st e o' st' r _ Hk. simpl. unfold RoundRobin.on_event.
    destruct (RoundRobin.pick _ _ _) as [[out oid]|]; intros [= <- <- <-]; one_event.
  - intros o uid st sg o' st' sg' r _. simpl. unfold RoundRobin.on_signal.
    destruct (_ && _); intros [= <- <- <- <-]; no_events.
  - done.
Qed.

(** ** What the loop finds *)

(** The index [n] steps after [next], modulo the number of outputs. *)
Definition rr_index (next : N) (len n : nat) : nat :=
  N.to_nat (u64_add next (N.of_nat n) mod N.of_nat len)%N.

Definition rr_open (outs : list RoundRobin.output) (id : nat) : Prop :=
  ∃ o, outs !! id = Some o ∧ RoundRobin.open o = true.

Lemma pick_spec next outs ns :
  match RoundRobin.pick next outs ns with
  | Some (name, id) =>
    (∃ pre n post, ns = pre ++ n :: post ∧ id = rr_index next (length outs) n ∧
      Forall (λ k, ¬ rr_open outs (rr_index next (length outs) k)) pre) ∧
    ∃ o, outs !! id = Some o ∧ RoundRobin.open o = true ∧ RoundRobin.name o = name
  | None => Forall (λ k, ¬ rr_open outs (rr_index next (length outs) k)) ns
  end.
Proof.
  induction ns as [|n ns IH]; [by constructor|]. cbn [RoundRobin.pick]. fold (rr_index next (length outs) n).
  assert (¬ rr_open outs (rr_index next (length outs) n) →
    match RoundRobin.pick next outs ns with
    | Some (name, id) =>
      (∃ pre n' post, n :: ns = pre ++ n' :: post ∧ id = rr_index next (length outs) n' ∧
        Forall (λ k, ¬ rr_open outs (rr_index next (length outs) k)) pre) ∧
      ∃ o, outs !! id = Some o ∧ RoundRobin.open o = true ∧ RoundRobin.name o = name
    | None => Forall (λ k, ¬ rr_open outs (rr_index next (length outs) k)) (n :: ns)
    end) as Hskip.
  { intros Hno. destruct (RoundRobin.pick next outs ns) as [[name id]|]; [|by constructor].
    destruct IH as [(pre & n' & post & -> & -> & Hpre) Ho]. split; [|done].
    exists (n :: pre), n', post. split_and!; [done..|by constructor]. }
  destruct (outs !! rr_index next (length outs) n) as [o|] eqn:Ho.
  - destruct (RoundRobin.open o) eqn:Hopen.
    + split; [by exists [], n, ns|by exists o].
    + apply Hskip. intros (o' & ? & ?). congruence.
  - apply Hskip. intros (o' & ? & ?). congruence.
Qed.

(** Every index is reached by the loop when the counter did not wrap. *)
Lemma rr_index_surj next len id :
  (id < len)%nat → (next + N.of_nat len < w64)%N →
  ∃ n, (n < len)%nat ∧ rr_index next len n = id.
Proof.
  intros Hid Hw. set (m := N.of_nat len). set (r := (next mod m)%N).
  assert (r < m)%N by (apply N.mod_lt; lia).
  pose proof (N.Div0.div_mod next m) as Hdiv. fold r in Hdiv.
  exists (if (N.of_nat id <? r)%N then N.to_nat (m - r) + id else id - N.to_nat r)%nat.
  unfold rr_index. fold m. destruct (N.ltb_spec (N.of_nat id) r).
  - split; [lia|]. rewrite u64_add_small by lia.
    replace (next + _)%N with (N.of_nat id + (next / m + 1) * m)%N by lia.
    rewrite N.Div0.mod_add, N.mod_small by lia. lia.
  - split; [lia|]. rewrite u64_add_small by lia.
    replace (next + _)%N with (N.of_nat id + (next / m) * m)%N by lia.
    rewrite N.Div0.mod_add, N.mod_small by lia. lia.
Qed.

(** The state between events: the position is at most the number of
    outputs. *)
Definition rr_ok (self : RoundRobin.t) : Prop :=
  (RoundRobin.next self ≤ N.of_nat (length (RoundRobin.outputs self)))%N ∧
  (2 * N.of_nat (length (RoundRobin.outputs self)) < w64)%N.

Lemma rr_pick_all (self : RoundRobin.t) id :
  rr_ok self → rr_open (RoundRobin.outputs self) id →
  ∃ name i, RoundRobin.pick (RoundRobin.next self) (RoundRobin.outputs self)
    (seq 0 (length (RoundRobin.outputs self))) = Some (name, i).
Proof.
  intros [Hn Hl] Hopen. pose proof (pick_spec (RoundRobin.next self) (RoundRobin.outputs self)
    (seq 0 (length (RoundRobin.outputs self)))) as Hp.
  destruct (RoundRobin.pick _ _ _) as [[name i]|]; [by exists name, i|].
  destruct Hopen as (o & Ho & Hopen). pose proof (lookup_lt_Some _ _ _ Ho) as Hid.
  destruct (rr_index_surj (RoundRobin.next self) _ id Hid) as (n & Hlt & Hi); [lia|].
  rewrite Forall_forall in Hp. destruct (Hp n); [apply elem_of_seq; lia|]. rewrite Hi. by exists o.
Qed.

(** the round robin operator sends an event to the first open output it
    meets going round from its position, marks the event with the index of
    that output and continues behind it; the event goes to [overflow] exactly
    when no output is open. *)
Theorem rr_next_open (self : RoundRobin.t) (uid : N) (port : string) (state : value) (e : Event.t)
    (Hok : rr_ok self) :
  let outs := RoundRobin.outputs self in
  let idx := rr_index (RoundRobin.next self) (length outs) in
  ∃ self' out, RoundRobin.on_event uid port state e self = (self', state, Ok (EventAndInsights.mk [out] [])) ∧
    rr_ok self' ∧ RoundRobin.outputs self' = outs ∧
    ((∃ n o, (n < length outs)%nat ∧ outs !! idx n = Some o ∧ RoundRobin.open o = true ∧
       (∀ k, (k < n)%nat → ¬ rr_open outs (idx k)) ∧
       out.1 = RoundRobin.name o ∧
       Event.op_meta out.2 !! uid = Some (VStatic (SU64 (N.of_nat (idx n)))) ∧
       RoundRobin.next self' = (N.of_nat (idx n) + 1)%N) ∨
     (RoundRobin.any_open self = false ∧ out = ("overflow"%string, e) ∧ self' = self)).
Proof.
  intros outs idx. unfold RoundRobin.on_event. fold outs.
  pose proof (pick_spec (RoundRobin.next self) outs (seq 0 (length outs))) as Hp.
  destruct Hok as [Hn Hl]. fold outs in Hn, Hl.
  destruct (RoundRobin.pick _ _ _) as [[name id]|] eqn:Hpick.
  - destruct Hp as [(pre & n & post & Hns & Hid & Hpre) (o & Ho & Hopen & Hname)].
    pose proof (lookup_lt_Some _ _ _ Ho) as Hlt. change (id = idx n) in Hid.
    destruct (seq_split _ _ _ _ Hns) as [Hbefore Hnlt].
    assert (u64_add (N.of_nat id) 1 = N.of_nat id + 1)%N as Hadd by (apply u64_add_small; lia).
    eexists _, _. split; [done|]. split; [split; simpl; fold outs; lia|]. split; [done|]. left.
    exists n, o. split_and!; [done|by rewrite <-Hid|done| |done| |by rewrite <-Hid].
    + intros k Hk. rewrite Forall_forall in Hpre. by apply Hpre, Hbefore.
    + simpl. rewrite <-Hid. unfold OpMeta.insert. by rewrite lookup_insert, decide_True.
  - eexists _, _. split; [done|]. split; [by split|]. split; [done|]. right. split; [|done].
    unfold RoundRobin.any_open. fold outs. apply not_true_iff_false. intros Hex.
    apply existsb_exists in Hex as (o & Ho & Hopen).
    apply list_elem_of_In, list_elem_of_lookup in Ho as [id Ho].
    destruct (rr_pick_all self id) as (? & ? & Hsome); [by split|by exists o|].
    fold outs in Hsome. congruence.
Qed.

Lemma rr_index_0 self : rr_ok self → (0 < length (RoundRobin.outputs self))%nat →
  rr_index (RoundRobin.next self) (length (RoundRobin.outputs self)) 0 =
  (N.to_nat (RoundRobin.next self) mod length (RoundRobin.outputs self))%nat.
Proof.
  intros [Hn Hl] Hlen. unfold rr_index. rewrite u64_add_small by lia. rewrite N.add_0_r.
  by rewrite N2Nat.inj_mod, Nat2N.id.
Qed.

(** With all outputs open the one at the position is taken. *)
Lemma rr_all_open_step self uid port state e :
  rr_ok self → Forall (λ o, RoundRobin.open o = true) (RoundRobin.outputs self) →
  RoundRobin.outputs self ≠ [] →
  let id := (N.to_nat (RoundRobin.next self) mod length (RoundRobin.outputs self))%nat in
  ∃ o ev, RoundRobin.outputs self !! id = Some o ∧
    RoundRobin.on_event uid port state e self =
      (RoundRobin.mk (RoundRobin.config self) (RoundRobin.outputs self) (N.of_nat (S id)) (RoundRobin.first self),
       state, Ok (EventAndInsights.mk [(RoundRobin.name o, ev)] [])) ∧ (id < length (RoundRobin.outputs self))%nat.
Proof.
  intros Hok Hall Hne id.
  assert (0 < length (RoundRobin.outputs self))%nat as Hlen by (destruct (RoundRobin.outputs self); [done|simpl; lia]).
  assert (id < length (RoundRobin.outputs self))%nat as Hid by (apply Nat.mod_upper_bound; lia).
  destruct (lookup_lt_is_Some_2 _ _ Hid) as [o Ho].
  pose proof (Forall_lookup_1 _ _ _ _ Hall Ho) as Hopen. pose proof (rr_index_0 self Hok Hlen) as Hi.
  fold id in Hi. unfold RoundRobin.on_event.
  destruct (seq 0 (length (RoundRobin.outputs self))) as [|k ks] eqn:Hseq.
  { apply (f_equal length) in Hseq. rewrite length_seq in Hseq. simpl in Hseq. lia. }
  assert (k = 0)%nat as -> by (destruct (length (RoundRobin.outputs self)); [lia|by injection Hseq]).
  cbn [RoundRobin.pick]. fold (rr_index (RoundRobin.next self) (length (RoundRobin.outputs self)) 0).
  rewrite Hi, Ho, Hopen. eexists o, _. split_and!; [done| |done].
  destruct Hok. rewrite u64_add_small by lia. by replace (N.of_nat id + 1)%N with (N.of_nat (S id)) by lia.
Qed.

(** The names the outputs are taken in, from a position on. *)
Definition rr_turns (self : RoundRobin.t) (n : nat) : list (option string) :=
  (λ i, RoundRobin.name <$> RoundRobin.outputs self !!
     ((N.to_nat (RoundRobin.next self) + i) mod length (RoundRobin.outputs self))%nat) <$> seq 0 n.

Section facts.
Context `{!value_trait}.

(** The insights a node sees in order, and what becomes of them. *)
Fixpoint contra_all (uid : N) (insights : list Event.t) (self : RoundRobin.t) : RoundRobin.t * list Event.t :=
  match insights with
  | [] => (self, [])
  | i :: insights =>
    let '(self, i) := RoundRobin.on_contraflow uid i self in
    let '(self, seen) := contra_all uid insights self in (self, i :: seen)
  end.
End facts.

Lemma rr_turns_shift self id n :
  RoundRobin.outputs self ≠ [] → id = (N.to_nat (RoundRobin.next self) mod length (RoundRobin.outputs self))%nat →
  rr_turns self (S n) =
  (RoundRobin.name <$> RoundRobin.outputs self !! id) ::
  rr_turns (RoundRobin.mk (RoundRobin.config self) (RoundRobin.outputs self) (N.of_nat (S id)) (RoundRobin.first self)) n.
Proof.
  intros Hne ->. unfold rr_turns. cbn [seq]. rewrite fmap_cons, Nat.add_0_r. f_equal.
  rewrite <-fmap_S_seq, <-list_fmap_compose. apply list_fmap_ext. intros _ i _. cbn -[N.of_nat].
  rewrite Nat2N.id. do 2 f_equal.
  assert (length (RoundRobin.outputs self) ≠ 0)%nat by (by destruct (RoundRobin.outputs self)).
  replace (S _ + i)%nat with ((N.to_nat (RoundRobin.next self) mod length (RoundRobin.outputs self)) + S i)%nat by lia.
  by rewrite Nat.Div0.add_mod_idemp_l.
Qed.

(** One insight: a change of availability is announced, other circuit
    breaker actions are kept from upstream. *)
Lemma contra_step `{!value_trait} uid i self self' s :
  RoundRobin.on_contraflow uid i self = (self', s) →
  RoundRobin.name <$> RoundRobin.outputs self' = RoundRobin.name <$> RoundRobin.outputs self ∧
  (is_gd (Event.cb i) = true → s = i) ∧
  ((Event.cb s = CbOpen ∧ RoundRobin.any_open self' = true ∧ RoundRobin.any_open self = false) ∨
   (Event.cb s = CbClose ∧ RoundRobin.any_open self' = false ∧ RoundRobin.any_open self = true) ∨
   (is_cb (Event.cb s) = false ∧ RoundRobin.any_open self' = RoundRobin.any_open self)).
Proof.
  unfold RoundRobin.on_contraflow. intros [= <- <-].
  set (self1 := match RoundRobin.insight_output uid i with Some id => _ | None => self end).
  assert (RoundRobin.name <$> RoundRobin.outputs self1 = RoundRobin.name <$> RoundRobin.outputs self) as Hn.
  { unfold self1. destruct (RoundRobin.insight_output uid i) as [id|]; [|done]. simpl.
    apply list_eq. intros j. rewrite !list_lookup_fmap, list_lookup_alter. case_decide; [subst j|done].
    destruct (RoundRobin.outputs self !! id); [simpl|done]. by destruct (Event.cb i). }
  assert (is_gd (Event.cb i) = true → RoundRobin.any_open self1 = RoundRobin.any_open self) as Hg.
  { intros Hgd. unfold self1. destruct (RoundRobin.insight_output uid i) as [id|]; [|done].
    unfold RoundRobin.any_open. simpl. f_equal. apply list_eq. intros j. rewrite list_lookup_alter.
    case_decide; [subst j|done]. destruct (RoundRobin.outputs self !! id); [simpl|done]. by destruct (Event.cb i). }
  split; [done|]. split.
  - intros Hgd. rewrite (Hg Hgd). destruct (RoundRobin.any_open self); simpl; by destruct (Event.cb i).
  - clear Hn Hg. clearbody self1.
    destruct (RoundRobin.any_open self1), (RoundRobin.any_open self); simpl;
      [right; right|by left|by right; left|right; right]; (split; [|done]);
      by destruct (Event.cb i) eqn:Hc; simpl; rewrite ?Hc.
Qed.

(** with all outputs open the events are dealt out in turns: the i-th of
    any number of events goes to the output [i] places after the position,
    modulo the number of outputs. *)
Theorem rr_fair `{!value_trait} (self : RoundRobin.t) (uid : N) (port : string) (state : value) (evs : list Event.t)
    (Hok : rr_ok self) (Hopen : Forall (λ o, RoundRobin.open o = true) (RoundRobin.outputs self))
    (Hne : RoundRobin.outputs self ≠ []) :
  ∃ self' eis, feed uid port evs state self = (self', state, Ok eis) ∧
    (λ ei, fst <$> head (EventAndInsights.events ei)) <$> eis = rr_turns self (length evs).
Proof.
  revert self Hok Hopen Hne. induction evs as [|e evs IH]; intros self Hok Hopen Hne; [by exists self, []|].
  destruct (rr_all_open_step self uid port state e Hok Hopen Hne) as (o & ev & Ho & Hstep & Hid).
  cbn [feed]. simpl on_event. rewrite Hstep.
  match type of Hstep with _ = (?s, _, _) => destruct (IH s) as (self' & eis & Hfeed & Hnames) end;
    [destruct Hok; split; simpl; lia|done|done|].
  rewrite Hfeed. eexists _, _. split; [done|]. cbn [length].
  rewrite (rr_turns_shift self _ _ Hne eq_refl), Ho, <-Hnames. done.
Qed.

(** the circuit breaker the round robin operator shows upstream is the
    disjunction of its outputs': whatever insights arrive, what upstream was
    told last agrees with whether any output is open, it is never told the
    same thing twice, and acknowledgements pass unchanged. *)
Theorem rr_breaker `{!value_trait} (self : RoundRobin.t) (uid : N) (insights : list Event.t) :
  let '(self', seen) := contra_all uid insights self in
  breaker_view (RoundRobin.any_open self) (Event.cb <$> seen) = RoundRobin.any_open self' ∧
  breaker_alternates (RoundRobin.any_open self) (Event.cb <$> seen) ∧
  RoundRobin.name <$> RoundRobin.outputs self' = RoundRobin.name <$> RoundRobin.outputs self ∧
  Forall2 (λ i s, is_gd (Event.cb i) = true → s = i) insights seen.
Proof.
  revert self. induction insights as [|i insights IH]; intros self; cbn [contra_all]; [by repeat constructor|].
  destruct (RoundRobin.on_contraflow uid i self) as [self1 s] eqn:Hstep.
  destruct (contra_step _ _ _ _ _ Hstep) as (Hnames & Hgd & Hcb).
  specialize (IH self1). destruct (contra_all uid insights self1) as [self2 seen].
  destruct IH as (Hv & Ha & Hn & Hall). split_and!; [| |congruence|by constructor].
  - cbn. unfold breaker_view in *.
    destruct Hcb as [(-> & H1 & H2)|[(-> & H1 & H2)|(Hc & Heq)]]; [by rewrite <-Hv, H1..|].
    rewrite <-Hv, Heq. by destruct (Event.cb s).
  - cbn. destruct Hcb as [(-> & H1 & H2)|[(-> & H1 & H2)|(Hc & Heq)]]; simpl; [by rewrite H1 in Ha..|].
    rewrite <-Heq. by destruct (Event.cb s).
Qed.

(** ** Witnesses *)
Module RRSample.
Definition op : RoundRobin.t := RoundRobin.from_config ["a"; "b"]%string.
Lemma rr_sample_ok : rr_ok op.
Proof. by vm_compute. Qed.
End RRSample.

Lemma rr_next_open_witness :
  ∃ self' out, RoundRobin.on_event 3 IN const_null Event.default RRSample.op =
    (self', const_null, Ok (EventAndInsights.mk [out] [])) ∧ rr_ok self'.
Proof.
  destruct (rr_next_open RRSample.op 3 IN const_null Event.default RRSample.rr_sample_ok) as (self' & out & Heq & Hok & _).
  exists self', out. split; [exact Heq|exact Hok].
Defined.

Lemma rr_fair_witness :
  let _ := simd_value_trait in
  ∃ self' eis, feed 3 IN (replicate 4 Event.default) const_null RRSample.op = (self', const_null, Ok eis) ∧
    (λ ei, fst <$> head (EventAndInsights.events ei)) <$> eis = Some <$> ["a"; "b"; "a"; "b"]%string.
Proof.
  intros H. refine (rr_fair RRSample.op 3 IN const_null (replicate 4 Event.default) RRSample.rr_sample_ok _ _).
  - repeat constructor.
  - discriminate.
Defined.
