(* ===== verification/Backpressure.v ===== *)
(** The backpressure operators: tremor-pipeline/src/op/qos/backpressure.rs and
    op/qos/percentile.rs. *)
From Stdlib Require Import Floats.SpecFloat.
From S2P Require Import Prelude Value EventIds Event OpsBasic.

(** [a > b] on floats: false when one is not a number. *)
Definition f64_gt (a b : f64) : bool := SFltb b a.
Definition f64_lt (a b : f64) : bool := SFltb a b.
Definition f64_add (a b : f64) : f64 := SFadd f64_prec f64_emax a b.
Definition f64_sub (a b : f64) : f64 := SFsub f64_prec f64_emax a b.
Definition f64_div (a b : f64) : f64 := SFdiv f64_prec f64_emax a b.
(** [as f64], rounding to nearest. *)
Definition f64_of_N (n : N) : f64 := binary_normalize f64_prec f64_emax (Z.of_N n) 0 false.

(** The tests both operators share: is the feedback bad? *)
Definition bad_feedback `{!value_trait} (timeout : f64) (insight : Event.t) : bool :=
  let meta := Event.payload_meta insight in
  bool_decide (is_Some (value_get meta "error"))
  || bool_decide (Event.cb insight = CbFail)
  || bool_decide (Event.cb insight = CbClose)
  || from_option (λ v, f64_gt v timeout) false (value_get meta "time" ≫= cast_f64).

Module Backpressure.
Inductive method := Discard | Pause.
#[global] Instance method_eq_dec : EqDecision method.
Proof. solve_decision. Defined.

Record config := mk_config { timeout : f64; config_steps : list u64; meth : method }.
Record output := mk_output { backoff : u64; next : u64; name : string }.
Record t := mk { cfg : config; out : output; steps : list u64; next_ : usize }.

Definition from_config (c : config) : t :=
  mk c (mk_output 0 0 OUT) ((λ v, u64_mul v 1000000) <$> config_steps c) 0.

Definition d_steps : list u64 := [50; 100; 250; 500; 1000; 5000; 10000]%N.

(** The loop keeps the last step it looked at. *)
Fixpoint next_backoff_loop (steps : list u64) (current b : u64) : u64 :=
  match steps with
  | [] => b
  | backoff :: steps => if (current <? backoff)%N then backoff else next_backoff_loop steps current backoff
  end.
Definition next_backoff (steps : list u64) (current : u64) : u64 := next_backoff_loop steps current 0.

Definition set_out (o : output) (self : t) : t := mk (cfg self) o (steps self) (next_ self).

Definition on_event (uid : N) (_ : string) (state : value) (event : Event.t) (self : t) :
    t * value * result EventAndInsights.t :=
  let event := Event.set_op_meta (OpMeta.insert uid const_null (Event.op_meta event)) event in
  let event := Event.set_transactional true event in
  let '(self, port) :=
    if (next (out self) <=? Event.ingest_ns event)%N then
      (set_out (mk_output (backoff (out self)) (u64_add (Event.ingest_ns event) (backoff (out self)))
                  (name (out self))) self, name (out self))
    else if bool_decide (meth (cfg self) = Pause) then (self, name (out self))
    else (self, OVERFLOW) in
  (self, state, Ok (EventAndInsights.from_events [(port, event)])).

Definition on_signal (_ : N) (state : value) (signal : Event.t) (self : t) :
    t * value * Event.t * result EventAndInsights.t :=
  if (0 <? backoff (out self))%N && (next (out self) <=? Event.ingest_ns signal)%N then
    (set_out (mk_output 0 0 (name (out self))) self, state, signal,
     Ok (EventAndInsights.mk []
       (if bool_decide (meth (cfg self) = Pause) then [Event.cb_restore (Event.ingest_ns signal)] else [])))
  else (self, state, signal, Ok EventAndInsights.default).

Section contra.
Context `{!value_trait}.

Definition on_contraflow (uid : N) (insight : Event.t) (self : t) : t * Event.t :=
  if negb (OpMeta.contains_key uid (Event.op_meta insight)) then (self, insight) else
  let was_open := (backoff (out self) =? 0)%N in
  let self :=
    if bad_feedback (timeout (cfg self)) insight then
      let b := next_backoff (steps self) (backoff (out self)) in
      set_out (mk_output b (u64_add (Event.ingest_ns insight) b) (name (out self))) self
    else set_out (mk_output 0 0 (name (out self))) self in
  let pause := bool_decide (meth (cfg self) = Pause) in
  let insight :=
    if pause && was_open && (0 <? backoff (out self))%N then Event.set_cb CbClose insight
    else if pause && negb was_open && (backoff (out self) =? 0)%N then Event.set_cb CbOpen insight
    else if bool_decide (Event.cb insight = CbClose) then Event.set_cb CbNone insight
    else insight in
  (self, insight).

#[global] Instance operator : Operator t := {
  on_event := on_event;
  handles_signal _ := true;
  on_signal := on_signal;
  handles_contraflow _ := true;
  on_contraflow := on_contraflow;
  op_metrics := default_metrics;
  skippable := default_skippable;
}.
End contra.
End Backpressure.

Module Percentile.
Record config := mk_config { timeout : f64; step_down : f64; step_up : f64 }.
Record t := mk { cfg : config; perc : f64 }.

Definition zero : f64 := S754_zero false.
Definition one : f64 := f64_of_N 1.
Definition from_config (c : config) : t := mk c one.

(** The pseudo random number an event is compared with. *)
Definition sample (ingest_ns : u64) : f64 := f64_div (f64_of_N (ingest_ns mod 65535)) (f64_of_N 65535).

Definition on_event (uid : N) (_ : string) (state : value) (event : Event.t) (self : t) :
    t * value * result EventAndInsights.t :=
  let event := Event.set_op_meta (OpMeta.insert uid const_null (Event.op_meta event)) event in
  let event := Event.set_transactional true event in
  let r := sample (Event.ingest_ns event) in
  if f64_gt r (perc self) then (self, state, Ok (EventAndInsights.from_events [(OVERFLOW, event)]))
  else (self, state, Ok (EventAndInsights.from_event event)).

Section contra.
Context `{!value_trait}.

Definition on_contraflow (uid : N) (insight : Event.t) (self : t) : t * Event.t :=
  if negb (OpMeta.contains_key uid (Event.op_meta insight)) then (self, insight) else
  if bad_feedback (timeout (cfg self)) insight then
    let p := f64_sub (perc self) (step_down (cfg self)) in
    (mk (cfg self) (if f64_lt p zero then zero else p), insight)
  else
    let p := f64_add (perc self) (step_up (cfg self)) in
    (mk (cfg self) (if f64_gt p one then one else p), insight).

#[global] Instance operator : Operator t := {
  on_event := on_event;
  handles_signal := default_handles_signal;
  on_signal := default_on_signal;
  handles_contraflow _ := true;
  on_contraflow := on_contraflow;
  op_metrics := default_metrics;
  skippable := default_skippable;
}.
End contra.
End Percentile.

#[export] Instance backpressure_data `{!value_trait} : data_operator (λ _ : Backpressure.t, True).
Proof.
  split.
  - intros o uid port st e o' st' r _ Hk. simpl. unfold Backpressure.on_event.
    destruct (_ <=? _)%N; [|case_bool_decide]; intros [= <- <- <-]; one_event.
  - intros o uid st sg o' st' sg' r _. simpl. unfold Backpressure.on_signal.
    destruct (_ && _); intros [= <- <- <- <-]; no_events.
  - done.
Qed.

#[export] Instance percentile_data `{!value_trait} : data_operator (λ _ : Percentile.t, True).
Proof.
  split.
  - intros o uid port st e o' st' r _ Hk. simpl. unfold Percentile.on_event.
    destruct (f64_gt _ _); intros [= <- <- <-]; one_event.
  - intros; simpl in *; unfold default_on_signal in *; simplify_eq. no_events.
  - done.
Qed.

(** ** Backoff steps *)
Definition steps_ok (steps : list N) : Prop := steps ≠ [] ∧ StronglySorted N.lt (0%N :: steps).

Lemma next_backoff_split pre b post current :
  Forall (λ s, s ≤ current)%N pre → (current < b)%N →
  ∀ b0, Backpressure.next_backoff_loop (pre ++ b :: post) current b0 = b.
Proof.
  intros Hpre Hb. induction Hpre as [|s pre Hs _ IH]; intros b0; simpl.
  - by rewrite (proj2 (N.ltb_lt _ _) Hb).
  - rewrite (proj2 (N.ltb_ge _ _) Hs). apply IH.
Qed.

Lemma next_backoff_last pre b current :
  Forall (λ s, s ≤ current)%N pre → (b ≤ current)%N →
  ∀ b0, Backpressure.next_backoff_loop (pre ++ [b]) current b0 = b.
Proof.
  intros Hpre Hb. induction Hpre as [|s pre Hs _ IH]; intros b0; simpl.
  - by rewrite (proj2 (N.ltb_ge _ _) Hb).
  - rewrite (proj2 (N.ltb_ge _ _) Hs). apply IH.
Qed.

Lemma next_backoff_pos steps current : steps_ok steps → (0 < Backpressure.next_backoff steps current)%N.
Proof.
  intros [Hne Hs]. inversion Hs as [|? ? _ Hall]; subst. unfold Backpressure.next_backoff.
  assert (∀ b0, (0 < b0 ∨ steps ≠ [])%N → (0 < Backpressure.next_backoff_loop steps current b0)%N) as H.
  { clear Hne Hs. induction Hall as [|s steps Hlt Hall IH]; intros b0 Hor; simpl.
    - by destruct Hor.
    - destruct (current <? s)%N; [done|]. apply IH. by left. }
  apply H. by right.
Qed.

(** The backoff at one of the steps goes to the following one. *)
Lemma next_backoff_step steps k b :
  steps_ok steps → (0%N :: steps) !! k = Some b →
  Some (Backpressure.next_backoff steps b) = steps !! (k `min` (length steps - 1))%nat.
Proof.
  intros [Hne Hs] Hk. pose proof (lookup_lt_Some _ _ _ Hk) as Hlt. simpl in Hlt.
  assert (∀ i x, (i < k)%nat → steps !! i = Some x → (x ≤ b)%N) as Hbefore.
  { intros i x Hi Hx. destruct (decide (S i = k)) as [<-|]; [simpl in Hk; rewrite Hx in Hk; by injection Hk as ->|].
    apply N.lt_le_incl. by apply (StronglySorted_lookup_lt N.lt (0%N :: steps) (S i) k); [|lia|..]. }
  destruct (decide (k < length steps)%nat) as [Hin|Hout].
  - rewrite Nat.min_l by lia. destruct (lookup_lt_is_Some_2 steps k Hin) as [x Hx]. rewrite Hx. f_equal.
    rewrite <-(take_drop_middle steps k x Hx). apply next_backoff_split.
    + apply Forall_forall. intros y [i Hi]%list_elem_of_lookup.
      apply lookup_take_Some in Hi as [Hi ?]. by eapply Hbefore.
    + by apply (StronglySorted_lookup_lt N.lt (0%N :: steps) k (S k)); [|lia|..].
  - assert (k = length steps) as -> by lia. rewrite Nat.min_r by lia.
    destruct (lookup_lt_is_Some_2 steps (length steps - 1)) as [x Hx]; [destruct steps; [done|simpl; lia]|].
    rewrite Hx. f_equal. pose proof (take_drop_middle steps _ x Hx) as Heq.
    rewrite drop_ge in Heq by lia. rewrite <-Heq. apply next_backoff_last.
    + apply Forall_forall. intros y [i Hi]%list_elem_of_lookup.
      apply lookup_take_Some in Hi as [Hi ?]. eapply Hbefore; [|done]. lia.
    + eapply Hbefore; [|done]. apply lookup_lt_Some in Hx. lia.
Qed.

(** ** The circuit breaker as upstream sees it *)
Section breaker.
Context `{!value_trait}.

(** One input: the operator after it and the circuit breaker actions that
    reach the node upstream. *)
Definition bp_step (uid : N) (inp : op_input) (self : Backpressure.t) : Backpressure.t * list CbAction :=
  match inp with
  | InEvent e => ((Backpressure.on_event uid IN const_null e self).1.1, [])
  | InSignal s =>
    match Backpressure.on_signal uid const_null s self with
    | (self, _, _, Ok ei) => (self, Event.cb <$> EventAndInsights.insights ei)
    | (self, _, _, Err _) => (self, [])
    end
  | InInsight i => let '(self, i) := Backpressure.on_contraflow uid i self in (self, [Event.cb i])
  end.

Fixpoint bp_run (uid : N) (inps : list op_input) (self : Backpressure.t) : Backpressure.t * list CbAction :=
  match inps with
  | [] => (self, [])
  | inp :: inps =>
    let '(self, acts) := bp_step uid inp self in
    let '(self, acts') := bp_run uid inps self in (self, acts ++ acts')
  end.

Definition bp_open (self : Backpressure.t) : bool := (Backpressure.backoff (Backpressure.out self) =? 0)%N.

(** Insights about events that went through the operator; one that opens
    the breaker does not report a failure at the same time. *)
Definition bp_input_ok (uid : N) (timeout : f64) (inp : op_input) : Prop :=
  match inp with
  | InInsight i => OpMeta.contains_key uid (Event.op_meta i) = true ∧
                   (Event.cb i = CbOpen → bad_feedback timeout i = false)
  | _ => True
  end.

Definition bp_pause (steps : list N) (timeout : f64) (self : Backpressure.t) : Prop :=
  Backpressure.meth (Backpressure.cfg self) = Backpressure.Pause ∧ Backpressure.steps self = steps ∧
  Backpressure.timeout (Backpressure.cfg self) = timeout.

Lemma bp_contraflow_view uid steps timeout i self self' i' :
  steps_ok steps → bp_pause steps timeout self → bp_input_ok uid timeout (InInsight i) →
  Backpressure.on_contraflow uid i self = (self', i') →
  bp_pause steps timeout self' ∧ breaker_view (bp_open self) [Event.cb i'] = bp_open self'.
Proof.
  intros Hsteps (Hp & Hs & Ht) [Htouch Hcb]. unfold Backpressure.on_contraflow.
  rewrite Htouch, Ht, Hs. cbn [negb]. unfold bp_open.
  pose proof (next_backoff_pos steps (Backpressure.backoff (Backpressure.out self)) Hsteps) as Hpos.
  destruct (bad_feedback timeout i) eqn:Hbad; intros [= <- <-]; split; try (by split_and!);
    cbn -[Backpressure.next_backoff]; rewrite Hp, (bool_decide_eq_true_2 (_ = Backpressure.Pause)) by done.
  - rewrite (proj2 (N.ltb_lt _ _) Hpos), (proj2 (N.eqb_neq (Backpressure.next_backoff _ _) 0)) by lia.
    destruct (_ =? 0)%N; cbn; [done|].
    case_bool_decide; cbn; [done|]. destruct (Event.cb i) eqn:Hi; cbn; try done.
    by specialize (Hcb eq_refl).
  - destruct (_ =? 0)%N; cbn; [|done].
    case_bool_decide; cbn; [done|]. by destruct (Event.cb i).
Qed.

Lemma bp_step_view uid steps timeout inp self self' acts :
  steps_ok steps → bp_pause steps timeout self → bp_input_ok uid timeout inp →
  bp_step uid inp self = (self', acts) →
  bp_pause steps timeout self' ∧ breaker_view (bp_open self) acts = bp_open self'.
Proof.
  intros Hsteps Hpause Hin. destruct inp as [e|s|i]; unfold bp_step.
  - destruct Hpause as (Hp & Hs & Ht). unfold Backpressure.on_event.
    destruct (_ <=? _)%N; [|case_bool_decide]; intros [= <- <-]; by split.
  - destruct Hpause as (Hp & Hs & Ht). unfold Backpressure.on_signal. rewrite Hp.
    rewrite bool_decide_eq_true_2 by done. unfold bp_open.
    destruct ((0 <? _)%N && (_ <=? _)%N); intros [= <- <-]; by split.
  - destruct (Backpressure.on_contraflow uid i self) as [self1 i1] eqn:Hc. intros [= <- <-].
    by eapply bp_contraflow_view.
Qed.
End breaker.

(** ** Passed events *)

(** The times of the events an operator emitted on a port. *)
Definition port_times (port : string) (eis : list EventAndInsights.t) : list N :=
  (λ pe, Event.ingest_ns pe.2) <$> filter (λ pe : string * Event.t, pe.1 = port) (eis ≫= EventAndInsights.events).

(** Bad feedback walks through the configured steps: with increasing steps
    the (k+1)-th bad feedback in a row sets the backoff to the k-th step, and
    to the last step once they are used up. *)
Theorem backoff_steps (steps : list N) (k : nat) (Hok : steps_ok steps) :
  Some (Nat.iter (S k) (Backpressure.next_backoff steps) 0%N) = steps !! (k `min` (length steps - 1))%nat.
Proof.
  assert (∀ k, (0%N :: steps) !! (k `min` length steps)%nat = Some (Nat.iter k (Backpressure.next_backoff steps) 0%N)) as Hall.
  { clear k. induction k as [|k IH]; [done|]. pose proof (next_backoff_step _ _ _ Hok IH) as Hn.
    rewrite Nat.iter_succ, Hn. destruct Hok as [Hne _].
    assert (length steps ≠ 0)%nat by (by destruct steps).
    replace (S k `min` length steps)%nat with (S (k `min` length steps `min` (length steps - 1)))%nat by lia. done. }
  rewrite Nat.iter_succ, (next_backoff_step _ _ _ Hok (Hall k)). f_equal. lia.
Qed.

(** A pausing backpressure operator keeps upstream informed: after any
    sequence of events, signals and insights of events it handled, the last
    circuit breaker action that reached upstream says open exactly when no
    backoff is in force. *)
Theorem backpressure_breaker `{!value_trait} (uid : N) (steps : list N) (timeout : f64) (self : Backpressure.t)
    (inps : list op_input) (Hsteps : steps_ok steps) (Hp : bp_pause steps timeout self)
    (Hin : Forall (bp_input_ok uid timeout) inps) :
  breaker_view (bp_open self) (bp_run uid inps self).2 = bp_open (bp_run uid inps self).1.
Proof.
  revert self Hp. induction Hin as [|inp inps Hi Hin IH]; intros self Hp; [done|]. cbn [bp_run].
  destruct (bp_step uid inp self) as [self1 acts] eqn:Hstep.
  destruct (bp_step_view _ _ _ _ _ _ _ Hsteps Hp Hi Hstep) as [Hp1 Hv].
  specialize (IH self1 Hp1). destruct (bp_run uid inps self1) as [self2 acts2]. cbn in *.
  unfold breaker_view in *. by rewrite foldl_app, Hv.
Qed.

(** A discarding backpressure operator lets through at most one event per
    backoff: whatever events arrive, two that were sent on after another are
    at least the backoff apart. *)
Theorem backpressure_spacing `{!value_trait} (uid : N) (self : Backpressure.t) (evs : list Event.t)
    (Hm : Backpressure.meth (Backpressure.cfg self) = Backpressure.Discard)
    (Hname : Backpressure.name (Backpressure.out self) = OUT)
    (Ht : Forall (λ e, Event.ingest_ns e + Backpressure.backoff (Backpressure.out self) < w64)%N evs) :
  ∃ self' eis, feed uid IN evs const_null self = (self', const_null, Ok eis) ∧
    length eis = length evs ∧
    Forall (λ t, Backpressure.next (Backpressure.out self) ≤ t)%N (port_times OUT eis) ∧
    StronglySorted (λ t1 t2, t1 + Backpressure.backoff (Backpressure.out self) ≤ t2)%N (port_times OUT eis).
Proof.
  revert self Hm Hname Ht. induction evs as [|e evs IH]; intros self Hm Hname Ht.
  { exists self, []. split_and!; try done; constructor. }
  inversion Ht as [|? ? He Ht']; subst. cbn [feed]. simpl on_event. unfold Backpressure.on_event.
  rewrite Hname, Hm, (bool_decide_eq_false_2 (_ = Backpressure.Pause)) by done. cbn.
  destruct (N.leb_spec (Backpressure.next (Backpressure.out self)) (Event.ingest_ns e)).
  - rewrite u64_add_small by done.
    destruct (IH (Backpressure.set_out (Backpressure.mk_output (Backpressure.backoff (Backpressure.out self))
      (Event.ingest_ns e + Backpressure.backoff (Backpressure.out self)) OUT) self)) as (self' & eis & -> & Hl & Hall & Hs);
      [done..|]. eexists _, _. split_and!; [done|by rewrite <-Hl| |]; unfold port_times; cbn; constructor;
      try done.
    eapply Forall_impl; [exact Hall|]. simpl. intros t Hle. lia.
  - destruct (IH self Hm Hname Ht') as (self' & eis & -> & Hl & Hall & Hs).
    eexists _, _. split_and!; [done|by rewrite <-Hl|done|done].
Qed.

(** Feedback about an event that did not pass the percentile operator
    changes nothing; other feedback leaves the insight alone and moves the
    share of events let through by one step, clamped at zero when it goes
    down and at one when it goes up. *)
Theorem percentile_feedback `{!value_trait} (uid : N) (insight : Event.t) (self : Percentile.t) :
  let '(self', insight') := Percentile.on_contraflow uid insight self in
  insight' = insight ∧ Percentile.cfg self' = Percentile.cfg self ∧
  (OpMeta.contains_key uid (Event.op_meta insight) = false → self' = self) ∧
  (OpMeta.contains_key uid (Event.op_meta insight) = true →
   let down := f64_sub (Percentile.perc self) (Percentile.step_down (Percentile.cfg self)) in
   let up := f64_add (Percentile.perc self) (Percentile.step_up (Percentile.cfg self)) in
   if bad_feedback (Percentile.timeout (Percentile.cfg self)) insight
   then f64_lt (Percentile.perc self') Percentile.zero = false ∧
        (f64_lt down Percentile.zero = false → Percentile.perc self' = down)
   else f64_gt (Percentile.perc self') Percentile.one = false ∧
        (f64_gt up Percentile.one = false → Percentile.perc self' = up)).
Proof.
  unfold Percentile.on_contraflow.
  destruct (OpMeta.contains_key uid (Event.op_meta insight)); cbn [negb]; [|done].
  destruct (bad_feedback _ insight); cbn.
  - split_and!; [done..|]. intros _. destruct (f64_lt (f64_sub _ _) _) eqn:Hlt; by split.
  - split_and!; [done..|]. intros _. destruct (f64_gt (f64_add _ _) _) eqn:Hgt; by split.
Qed.

(** ** Witnesses *)
Module BPSample.
Definition timeout : f64 := f64_of_N 100.
Definition discard : Backpressure.t :=
  Backpressure.set_out (Backpressure.mk_output 10 0 OUT)
    (Backpressure.from_config (Backpressure.mk_config timeout Backpressure.d_steps Backpressure.Discard)).
Definition pause : Backpressure.t :=
  Backpressure.from_config (Backpressure.mk_config timeout [1; 10; 100]%N Backpressure.Pause).
Definition at_time (t : N) : Event.t :=
  Event.mk EventId.default ValueAndMeta.default t None None false CbNone ∅ false.
Definition fail : Event.t :=
  Event.mk EventId.default ValueAndMeta.default 5 None None false CbFail {[3%N := const_null]} false.
Lemma pause_steps_ok : steps_ok (Backpressure.steps pause).
Proof. split; [done|]. repeat constructor. Qed.
End BPSample.

Lemma backoff_steps_witness :
  Some (Nat.iter 3 (Backpressure.next_backoff (Backpressure.steps BPSample.pause)) 0%N) = Some 100000000%N.
Proof. exact (backoff_steps (Backpressure.steps BPSample.pause) 2 BPSample.pause_steps_ok). Defined.

Lemma backpressure_breaker_witness :
  let _ := simd_value_trait in
  let run := bp_run 3 [InEvent (BPSample.at_time 1); InInsight BPSample.fail] BPSample.pause in
  run.2 = [CbClose] ∧ breaker_view (bp_open BPSample.pause) run.2 = bp_open run.1.
Proof.
  intros H run. split; [vm_compute; reflexivity|].
  refine (backpressure_breaker 3 (Backpressure.steps BPSample.pause) BPSample.timeout BPSample.pause _ _ _ _).
  - exact BPSample.pause_steps_ok.
  - repeat split.
  - constructor; [exact I|]. constructor; [|constructor]. split; [reflexivity|discriminate].
Defined.

Lemma backpressure_spacing_witness :
  let _ := simd_value_trait in
  ∃ self' eis, feed 3 IN (BPSample.at_time <$> [1; 5; 12]%N) const_null BPSample.discard = (self', const_null, Ok eis) ∧
    length eis = 3%nat.
Proof.
  intros H.
  destruct (backpressure_spacing 3 BPSample.discard (BPSample.at_time <$> [1; 5; 12]%N) eq_refl eq_refl)
    as (self' & eis & Heq & Hl & _).
  - repeat constructor.
  - exists self', eis. split; [exact Heq|exact Hl].
Defined.
