(* ===== verification/Wal.v ===== *)
(** The write ahead log operator: tremor-pipeline/src/op/qos/wal.rs.

    The sled database and the derived JSON form of events are not part of the
    repository: [sled] and [event_json] are what the operator uses of them,
    with their documented behaviour as laws.  Every database operation may
    fail. *)
From S2P Require Import Prelude Value EventIds Event OpsBasic.

Abbreviation bytes := (list N) (only parsing).

(** ** Idx: a number as eight bytes, the most significant first *)

Fixpoint be_bytes (n : nat) (v : N) : bytes :=
  match n with
  | O => []
  | S n => be_bytes n (v / 256) ++ [(v mod 256)%N]
  end.
Definition be_value (b : bytes) : N := foldl (λ v x, (v * 256 + x)%N) 0%N b.

(** The order of keys in a tree. *)
Fixpoint bytes_cmp (a b : bytes) : comparison :=
  match a, b with
  | [], [] => Eq
  | [], _ => Lt
  | _, [] => Gt
  | x :: a, y :: b => match (x ?= y)%N with Eq => bytes_cmp a b | c => c end
  end.

Module Idx.
Record t := mk { raw : bytes }.
Definition default : t := mk [0; 0; 0; 0; 0; 0; 0; 0]%N.
(** [From<u64>]: the bytes of [to_be]. *)
Definition from_u64 (v : u64) : t := mk (be_bytes 8 v).
(** [read_u64] of the first eight bytes; zero when there are fewer. *)
Definition read_u64 (b : bytes) : N := if (length b <? 8)%nat then 0%N else be_value (take 8 b).
Definition to_u64 (i : t) : u64 := read_u64 (raw i).
Definition from_ivec (b : bytes) : t := from_u64 (read_u64 b).
Definition set (v : u64) (self : t) : t := mk (be_bytes 8 v).
Definition set_min (v : u64) (self : t) : t := if (v <? to_u64 self)%N then set v self else self.
Definition add_assign (other : u64) (self : t) : t := set (u64_add (to_u64 self) other) self.
End Idx.

(** ** The database *)
Inductive tree := EVENTS | STATE.
#[export] Instance tree_eq_dec : EqDecision tree.
Proof. solve_decision. Defined.

Class sled (Store : Type) := {
  generate_id : Store → Store * io N;
  size_on_disk : Store → io N;
  tree_len : tree → Store → N;
  tree_get : tree → bytes → Store → io (option bytes);
  tree_insert : tree → bytes → bytes → Store → Store * io unit;
  tree_remove : tree → bytes → Store → Store * io unit;
  tree_flush : tree → Store → Store * io unit;
  tree_range_from : tree → bytes → Store → list (io (bytes * bytes));
  tree_range_to : tree → bytes → Store → list (io (bytes * bytes));

(** what is in a tree, and a bound on the ids handed out *)
contents : tree → Store → gmap bytes bytes;
issued : Store → N;

generate_id_contents t s : contents t (generate_id s).1 = contents t s;
generate_id_fresh s s' i : generate_id s = (s', IoOk i) → (issued s ≤ i < issued s')%N ∧ u64_ok i;
generate_id_mono s : (issued s ≤ issued (generate_id s).1)%N;
tree_get_spec t k s o : tree_get t k s = IoOk o → o = contents t s !! k;
tree_insert_ok t k v s s' :
  tree_insert t k v s = (s', IoOk tt) → contents t s' = <[k := v]> (contents t s);
tree_insert_keeps t t' k v s k' :
  (t' ≠ t ∨ k' ≠ k) → contents t' (tree_insert t k v s).1 !! k' = contents t' s !! k';
tree_remove_keeps t t' k s k' :
  (t' ≠ t ∨ k' ≠ k) → contents t' (tree_remove t k s).1 !! k' = contents t' s !! k';
tree_insert_at t k v s :
  contents t (tree_insert t k v s).1 !! k = Some v ∨
  contents t (tree_insert t k v s).1 !! k = contents t s !! k;
tree_remove_at t k s :
  contents t (tree_remove t k s).1 !! k = None ∨
  contents t (tree_remove t k s).1 !! k = contents t s !! k;
tree_flush_contents t t' s : contents t' (tree_flush t s).1 = contents t' s;
issued_insert t k v s : issued (tree_insert t k v s).1 = issued s;
issued_remove t k s : issued (tree_remove t k s).1 = issued s;
issued_flush t s : issued (tree_flush t s).1 = issued s;
tree_range_from_spec t k s l :
  tree_range_from t k s = IoOk <$> l →
  StronglySorted (λ x y, bytes_cmp x.1 y.1 = Lt) l ∧
  ∀ e, e ∈ l ↔ contents t s !! e.1 = Some e.2 ∧ bytes_cmp e.1 k ≠ Lt;
tree_range_from_sound t k s e : IoOk e ∈ tree_range_from t k s → contents t s !! e.1 = Some e.2;
tree_range_to_spec t k s e :
  IoOk e ∈ tree_range_to t k s → contents t s !! e.1 = Some e.2 ∧ bytes_cmp e.1 k ≠ Gt;
}.

(** [json_vec] and [from_slice] of [Event]; what is [serializable] comes back
    as it was. *)
Class event_json := {
  json_vec : Event.t → io bytes;
  from_slice : bytes → io Event.t;
  serializable : Event.t → Prop;
  from_slice_json_vec e b : serializable e → json_vec e = IoOk b → from_slice b = IoOk e;
}.

Module Wal.
Record config := mk_config {
  read_count : usize;
  dir : option string;
  max_elements : option u64;
  max_bytes : option u64;
  flush_on_evnt : option bool;
}.

Section ops.
Context {Store : Type} `{!sled Store, !event_json}.

Record t := mk {
  cnt : u64;
  store : Store;
  read : Idx.t;
  confirmed : option Idx.t;
  cfg : config;
  broken : bool;
  full : bool;
  origin_uri : option EventOriginUri.t;
}.

Definition set_store (x : Store) (self : t) : t :=
  mk (cnt self) x (read self) (confirmed self) (cfg self) (broken self) (full self) (origin_uri self).
Definition set_cnt (x : u64) (self : t) : t :=
  mk x (store self) (read self) (confirmed self) (cfg self) (broken self) (full self) (origin_uri self).
Definition set_read (x : Idx.t) (self : t) : t :=
  mk (cnt self) (store self) x (confirmed self) (cfg self) (broken self) (full self) (origin_uri self).
Definition set_confirmed (x : option Idx.t) (self : t) : t :=
  mk (cnt self) (store self) (read self) x (cfg self) (broken self) (full self) (origin_uri self).
Definition set_broken (x : bool) (self : t) : t :=
  mk (cnt self) (store self) (read self) (confirmed self) (cfg self) x (full self) (origin_uri self).
Definition set_full (x : bool) (self : t) : t :=
  mk (cnt self) (store self) (read self) (confirmed self) (cfg self) (broken self) x (origin_uri self).

(** The key in the state tree: the bytes of "confirmed". *)
Definition CONFIRMED : bytes := [99; 111; 110; 102; 105; 114; 109; 101; 100]%N.

(** [Wal::new] on the opened database; the factory refuses a configuration
    without a limit. *)
Definition new (id : string) (config : config) (s : Store) : result t :=
  c ← from_io (tree_get STATE CONFIRMED s);
  let confirmed := Idx.from_ivec <$> c in
  Ok (mk (tree_len EVENTS s) s (default Idx.default confirmed) confirmed config true false
        (Some (EventOriginUri.mk 0 "tremor-wal" "pipeline" None [id]))).
Definition from_node (id : string) (config : config) (s : Store) : result t :=
  match max_elements config, max_bytes config with
  | None, None => Err (EBadOpConfig "WAL operator needs at least one of `max_elements` or `max_bytes` config entries.")
  | _, _ => new id config s
  end.

Definition limit_reached (self : t) : result bool :=
  let max := default u64_max (max_bytes (cfg self)) in
  size ← from_io (size_on_disk (store self));
  Ok (from_option (λ me, (me <=? cnt self)%N) false (max_elements (cfg self)) || (max <=? size)%N).

(** The loop of [gc] over the entries up to the confirmed one. *)
Fixpoint gc_loop (items : list (io (bytes * bytes))) (i : u64) (self : t) : t * result u64 :=
  match items with
  | [] => (self, Ok i)
  | e :: items =>
    let i := u64_add i 1 in
    let self := set_cnt (u64_sub (cnt self) 1) self in
    match e with
    | IoErr err => (self, Err (EMsg err))
    | IoOk (idx, _) =>
      match tree_remove EVENTS idx (store self) with
      | (s, IoOk _) => gc_loop items i (set_store s self)
      | (s, IoErr err) => (set_store s self, Err (EMsg err))
      end
    end
  end.
Definition gc (self : t) : t * result u64 :=
  match confirmed self with
  | Some c => gc_loop (tree_range_to EVENTS (Idx.raw c) (store self)) 0 self
  | None => (self, Ok 0%N)
  end.

Fixpoint read_loop (items : list (io (bytes * bytes))) (num_read : N)
    (events : list (string * Event.t)) (self : t) : t * result (list (string * Event.t)) :=
  match items with
  | [] => (self, Ok events)
  | e :: items =>
    if (read_count (cfg self) <? num_read)%N then (self, Ok events) else
    match e with
    | IoErr err => (self, Err (EMsg err))
    | IoOk (idx, e) =>
      let self := set_read (Idx.add_assign 1 (Idx.from_ivec idx)) self in
      match from_slice e with
      | IoErr err => (self, Err (EMsg err))
      | IoOk event =>
          read_loop items (num_read + 1) (events ++ [(OUT, Event.set_transactional true event)]) self
      end
    end
  end.
Definition read_events (self : t) : t * result (list (string * Event.t)) :=
  match read_loop (tree_range_from EVENTS (Idx.raw (read self)) (store self)) 0 [] self with
  | (self, Err err) => (self, Err err)
  | (self, Ok events) =>
    match gc self with
    | (self, Err err) => (self, Err err)
    | (self, Ok _) => (self, Ok events)
    end
  end.

Definition store_event (source_id : u64) (event : Event.t) (self : t) : t * result unit :=
  match generate_id (store self) with
  | (s, IoErr err) => (set_store s self, Err (EMsg err))
  | (s, IoOk wal_id) =>
    let self := set_store s self in
    let new_event_id := EventId.track (EventId.new source_id DEFAULT_STREAM_ID wal_id) (Event.id event) in
    match json_vec (Event.set_id new_event_id event) with
    | IoErr err => (self, Err (EMsg err))
    | IoOk event_buf =>
      match tree_insert EVENTS (be_bytes 8 wal_id) event_buf (store self) with
      | (s, IoErr err) => (set_store s self, Err (EMsg err))
      | (s, IoOk _) =>
        let self := set_store s self in
        let '(s, r) := if default false (flush_on_evnt (cfg self)) then tree_flush EVENTS (store self)
                       else (store self, IoOk tt) in
        let self := set_store s self in
        match r with
        | IoErr err => (self, Err (EMsg err))
        | IoOk _ => (set_cnt (u64_add (cnt self) 1) self, Ok tt)
        end
      end
    end
  end.

(** [.get(..).ok().and_then(maybe_parse_ivec)] *)
Definition stored_event (k : Idx.t) (s : Store) : option Event.t :=
  match tree_get EVENTS (Idx.raw k) s with
  | IoOk (Some b) => match from_slice b with IoOk e => Some e | IoErr _ => None end
  | _ => None
  end.
Definition track_stored (k : option Idx.t) (s : Store) (insight : Event.t) : Event.t :=
  match k ≫= λ k, stored_event k s with
  | Some e => Event.set_id (EventId.track (Event.id insight) (Event.id e)) insight
  | None => insight
  end.

Definition confirm (c : Idx.t) (self : t) : t :=
  set_store (tree_insert STATE CONFIRMED (Idx.raw c) (store self)).1 (set_confirmed (Some c) self).

Definition on_contraflow (u_id : N) (insight : Event.t) (self : t) : t * Event.t :=
  match Event.cb insight with
  | CbNone => (self, Event.set_cb CbNone insight)
  | CbOpen => (set_broken false self, Event.set_cb CbNone insight)
  | CbClose => (set_broken true self, Event.set_cb CbNone insight)
  | CbAck =>
    match EventId.get_max_by_source (Event.id insight) u_id with
    | None => (self, insight)
    | Some (_, event_id) =>
      let c := Idx.set event_id (default (Idx.from_u64 event_id) (confirmed self)) in
      let self := confirm c self in
      (self, Event.set_cb CbNone (track_stored (Some c) (store self) insight))
    end
  | CbFail =>
    match EventId.get_min_by_source (Event.id insight) u_id with
    | None => (self, insight)
    | Some (_, event_id) =>
      let self := set_read (Idx.set_min event_id (read self)) self in
      let insight := track_stored (confirmed self) (store self) insight in
      let current_confirmed := from_option Idx.to_u64 0%N (confirmed self) in
      let self :=
        if (event_id <? current_confirmed)%N then confirm (Idx.from_u64 event_id) self else self in
      (self, Event.set_cb CbNone insight)
    end
  end.

Definition on_signal (_ : N) (state : value) (signal : Event.t) (self : t) :
    t * value * Event.t * result EventAndInsights.t :=
  match limit_reached self with
  | Err err => (self, state, signal, Err err)
  | Ok now_full =>
    let insights :=
      if full self && negb now_full then
        [Event.set_origin_uri (origin_uri self) (Event.cb_restore (Event.ingest_ns signal))]
      else if negb (full self) && now_full then
        [Event.set_origin_uri (origin_uri self) (Event.cb_trigger (Event.ingest_ns signal))]
      else [] in
    let self := set_full now_full self in
    let '(self, r) := if broken self then (self, Ok []) else read_events self in
    match r with
    | Err err => (self, state, signal, Err err)
    | Ok events => (self, state, signal, Ok (EventAndInsights.mk events insights))
    end
  end.

Definition on_event (uid : N) (_ : string) (state : value) (event : Event.t) (self : t) :
    t * value * result EventAndInsights.t :=
  match store_event uid event self with
  | (self, Err err) => (self, state, Err err)
  | (self, Ok _) =>
    let insights :=
      if Event.transactional event then
        [Event.set_op_meta (Event.op_meta event) (Event.cb_ack (Event.ingest_ns event) (Event.id event))]
      else [] in
    let '(self, r) := if broken self then (self, Ok []) else read_events self in
    match r with
    | Err err => (self, state, Err err)
    | Ok events => (self, state, Ok (EventAndInsights.mk events insights))
    end
  end.

#[global] Instance operator : Operator t := {
  on_event := on_event;
  handles_signal _ := true;
  on_signal := on_signal;
  handles_contraflow _ := true;
  on_contraflow := on_contraflow;
  op_metrics := default_metrics;
  skippable := default_skippable;
}.
End ops.
Arguments t : clear implicits.
End Wal.

(** ** Big endian keys *)
Lemma length_be_bytes n v : length (be_bytes n v) = n.
Proof. revert v. induction n as [|n IH]; intros v; simpl; [done|]. rewrite length_app, IH. simpl. lia. Qed.

Lemma be_value_app b x : be_value (b ++ [x]) = (be_value b * 256 + x)%N.
Proof. unfold be_value. by rewrite foldl_app. Qed.

Lemma be_value_bytes n v : (v < 256 ^ N.of_nat n)%N → be_value (be_bytes n v) = v.
Proof.
  revert v. induction n as [|n IH]; intros v Hv; [change (256 ^ N.of_nat 0)%N with 1%N in Hv; unfold be_value; simpl; lia|].
  cbn [be_bytes]. rewrite Nat2N.inj_succ, N.pow_succ_r' in Hv.
  rewrite be_value_app, IH; [|by apply N.Div0.div_lt_upper_bound].
  rewrite N.mul_comm. symmetry. apply N.Div0.div_mod.
Qed.

Lemma bytes_cmp_snoc a b x y :
  length a = length b →
  bytes_cmp (a ++ [x]) (b ++ [y]) = match bytes_cmp a b with Eq => (x ?= y)%N | c => c end.
Proof.
  revert b. induction a as [|p a IH]; intros [|q b] Hl; simplify_eq/=; [by destruct (x ?= y)%N|].
  destruct (p ?= q)%N; [by apply IH|done..].
Qed.

Lemma be_bytes_cmp n a b :
  (a < 256 ^ N.of_nat n)%N → (b < 256 ^ N.of_nat n)%N → bytes_cmp (be_bytes n a) (be_bytes n b) = (a ?= b)%N.
Proof.
  revert a b. induction n as [|n IH]; intros a b Ha Hb.
  { change (256 ^ N.of_nat 0)%N with 1%N in *. assert (a = 0 ∧ b = 0)%N as [-> ->] by lia. done. }
  cbn [be_bytes]. rewrite Nat2N.inj_succ, N.pow_succ_r' in Ha, Hb.
  rewrite bytes_cmp_snoc by (by rewrite !length_be_bytes).
  rewrite IH by (by apply N.Div0.div_lt_upper_bound).
  pose proof (N.Div0.div_mod a 256). pose proof (N.Div0.div_mod b 256).
  pose proof (N.mod_lt a 256 ltac:(done)). pose proof (N.mod_lt b 256 ltac:(done)).
  set (qa := (a / 256)%N) in *. set (qb := (b / 256)%N) in *.
  set (ra := (a mod 256)%N) in *. set (rb := (b mod 256)%N) in *. clearbody qa qb ra rb.
  destruct (N.compare_spec qa qb), (N.compare_spec a b), (N.compare_spec ra rb); try done; exfalso; lia.
Qed.

Lemma u64_ok_pow v : u64_ok v → (v < 256 ^ N.of_nat 8)%N.
Proof. done. Qed.

Lemma read_u64_bytes v : u64_ok v → Idx.read_u64 (be_bytes 8 v) = v.
Proof.
  intros Hv. unfold Idx.read_u64. rewrite length_be_bytes. cbn -[be_bytes be_value].
  rewrite take_ge by (by rewrite length_be_bytes). by apply be_value_bytes.
Qed.

Lemma key_cmp a b : u64_ok a → u64_ok b → bytes_cmp (be_bytes 8 a) (be_bytes 8 b) = (a ?= b)%N.
Proof. intros. by apply be_bytes_cmp. Qed.

Lemma key_inj a b : u64_ok a → u64_ok b → be_bytes 8 a = be_bytes 8 b → a = b.
Proof.
  intros Ha Hb Heq. apply N.compare_eq. rewrite <-(key_cmp a b Ha Hb), Heq.
  rewrite key_cmp by done. apply N.compare_refl.
Qed.

(** The operator's positions are the database's keys: a number goes through
    the eight big endian bytes unchanged, and the order of the keys as bytes
    is the order of the numbers. *)
Theorem idx_big_endian (a b : N) (Ha : u64_ok a) (Hb : u64_ok b) :
  Idx.to_u64 (Idx.from_u64 a) = a ∧
  bytes_cmp (Idx.raw (Idx.from_u64 a)) (Idx.raw (Idx.from_u64 b)) = (a ?= b)%N ∧
  Idx.to_u64 (Idx.add_assign b (Idx.from_u64 a)) = u64_add a b ∧
  Idx.to_u64 (Idx.set_min b (Idx.from_u64 a)) = N.min a b.
Proof.
  assert (Idx.to_u64 (Idx.from_u64 a) = a) as Ha' by (by apply read_u64_bytes).
  split_and!; [done|by apply key_cmp| |].
  - unfold Idx.add_assign. rewrite Ha'. apply read_u64_bytes, u64_add_ok.
  - unfold Idx.set_min. rewrite Ha'. destruct (N.ltb_spec b a).
    + rewrite N.min_r by lia. by apply read_u64_bytes.
    + by rewrite N.min_l by lia.
Qed.

Lemma idx_big_endian_witness : Idx.to_u64 (Idx.from_u64 258) = 258%N.
Proof. exact (proj1 (idx_big_endian 258 0 eq_refl eq_refl)). Defined.

(** ** The log *)
Section log.
Context {Store : Type} `{!sled Store, !event_json}.
Implicit Types (self : Wal.t Store).

Definition events self : gmap bytes bytes := contents EVENTS (Wal.store self).

(** Keys are ids the database handed out. *)
Definition wal_ok self : Prop :=
  ∀ k, is_Some (events self !! k) → ∃ i, k = be_bytes 8 i ∧ (i < issued (Wal.store self))%N ∧ u64_ok i.

Definition confirmed_le (c : N) self : Prop :=
  ∀ x, Wal.confirmed self = Some x → ∃ u, x = Idx.from_u64 u ∧ (u ≤ c)%N ∧ u64_ok u.

(** What is stored behind [c] stays. *)
Definition keeps (c : N) self self' : Prop :=
  ∀ i v, u64_ok i → (c < i)%N → events self !! be_bytes 8 i = Some v → events self' !! be_bytes 8 i = Some v.

(** One step of the operator, with the log in order before and after. *)
Definition step_ok (c : N) self self' : Prop :=
  wal_ok self' ∧ confirmed_le c self' ∧ keeps c self self'.

Lemma step_ok_refl c self : wal_ok self → confirmed_le c self → step_ok c self self.
Proof. intros. split_and!; [done..|]. by intros i v. Qed.

Lemma step_ok_trans c self1 self2 self3 : step_ok c self1 self2 → step_ok c self2 self3 → step_ok c self1 self3.
Proof. intros (_ & _ & H1) (? & ? & H2). split_and!; [done..|]. intros i v Hi Hc Hv. by apply H2, H1. Qed.

(** Steps that leave the store and the confirmed position alone. *)
Lemma step_ok_same c self self' :
  wal_ok self → confirmed_le c self → Wal.store self' = Wal.store self →
  Wal.confirmed self' = Wal.confirmed self → step_ok c self self'.
Proof.
  intros Hok Hc Hs Hconf. unfold step_ok, wal_ok, keeps, confirmed_le, events in *.
  rewrite Hs, Hconf. split_and!; [done..|]. by intros i v.
Qed.

(** A change of the store that adds at most an issued key and removes at
    most keys that are not behind [c]. *)
Lemma store_step c self s cnt' :
  wal_ok self → confirmed_le c self → (issued (Wal.store self) ≤ issued s)%N →
  (∀ k, is_Some (contents EVENTS s !! k) → is_Some (events self !! k) ∨
     ∃ i, k = be_bytes 8 i ∧ (i < issued s)%N ∧ u64_ok i) →
  (∀ i v, u64_ok i → (c < i)%N → events self !! be_bytes 8 i = Some v →
     contents EVENTS s !! be_bytes 8 i = Some v) →
  step_ok c self (Wal.set_cnt cnt' (Wal.set_store s self)).
Proof.
  intros Hok Hc His Hadd Hkeep. split_and!; [|done|done].
  intros k [Hk|?]%Hadd; [|done]. destruct (Hok k Hk) as (i & -> & Hi & ?). exists i. split_and!; [done| |done].
  simpl. lia.
Qed.

Lemma store_step' c self s :
  wal_ok self → confirmed_le c self → (issued (Wal.store self) ≤ issued s)%N →
  (∀ k, is_Some (contents EVENTS s !! k) → is_Some (events self !! k) ∨
     ∃ i, k = be_bytes 8 i ∧ (i < issued s)%N ∧ u64_ok i) →
  (∀ i v, u64_ok i → (c < i)%N → events self !! be_bytes 8 i = Some v →
     contents EVENTS s !! be_bytes 8 i = Some v) →
  step_ok c self (Wal.set_store s self).
Proof. apply (store_step c self s (Wal.cnt self)). Qed.

Lemma remove_step c self k n :
  wal_ok self → confirmed_le c self →
  (∀ i, u64_ok i → (c < i)%N → be_bytes 8 i ≠ k) →
  step_ok c self (Wal.set_store (tree_remove EVENTS k (Wal.store self)).1 (Wal.set_cnt n self)).
Proof.
  intros Hok Hc Hk. apply (store_step c self (tree_remove EVENTS k (Wal.store self)).1 n Hok Hc).
  - by rewrite issued_remove.
  - intros k' Hk'. left. unfold events. destruct (decide (k' = k)) as [->|Hne].
    + destruct (tree_remove_at EVENTS k (Wal.store self)) as [Hr|Hr]; rewrite Hr in Hk'; [by destruct Hk'|done].
    + by rewrite (tree_remove_keeps EVENTS EVENTS k) in Hk' by (by right).
  - intros i v Hi Hci Hv. rewrite tree_remove_keeps; [done|]. right. by apply Hk.
Qed.

Lemma gc_loop_step c items n self :
  wal_ok self → confirmed_le c self →
  (∀ e, IoOk e ∈ items → ∀ i, u64_ok i → (c < i)%N → be_bytes 8 i ≠ e.1) →
  step_ok c self (Wal.gc_loop items n self).1.
Proof.
  revert n self. induction items as [|[[k v]|m] items IH]; intros n self Hok Hc Hin; cbn [Wal.gc_loop];
    [by apply step_ok_refl| |].
  - pose proof (remove_step c self k (u64_sub (Wal.cnt self) 1) Hok Hc (Hin (k, v) ltac:(by left))) as Hstep.
    change (Wal.store (Wal.set_cnt _ self)) with (Wal.store self).
    destruct (tree_remove EVENTS k (Wal.store self)) as [s [?|?]]; [|done].
    eapply step_ok_trans; [exact Hstep|]. destruct Hstep as (? & ? & _).
    apply IH; [done..|]. intros e He. apply Hin. by right.
  - by apply step_ok_same.
Qed.

Lemma gc_step c self : wal_ok self → confirmed_le c self → step_ok c self (Wal.gc self).1.
Proof.
  intros Hok Hc. unfold Wal.gc. destruct (Wal.confirmed self) as [x|] eqn:Hx; [|by apply step_ok_refl].
  destruct (Hc x Hx) as (u & -> & Hu & Hu64). apply gc_loop_step; [done..|].
  intros e He%tree_range_to_spec i Hi Hci Heq. destruct He as [_ Hcmp]. apply Hcmp.
  rewrite <-Heq. cbn [Idx.raw Idx.from_u64]. rewrite key_cmp by done. apply N.compare_gt_iff. lia.
Qed.

Lemma read_loop_same items n evs self :
  let self' := (Wal.read_loop items n evs self).1 in
  Wal.store self' = Wal.store self ∧ Wal.confirmed self' = Wal.confirmed self.
Proof.
  revert n evs self. induction items as [|[[k v]|m] items IH]; intros n evs self; cbn [Wal.read_loop]; [done| |].
  - destruct (_ <? n)%N; [done|]. destruct (from_slice v) as [ev|]; [|done].
    exact (IH (n + 1)%N (evs ++ [(OUT, Event.set_transactional true ev)])
      (Wal.set_read (Idx.add_assign 1 (Idx.from_ivec k)) self)).
  - by destruct (_ <? n)%N.
Qed.

Lemma read_events_step c self : wal_ok self → confirmed_le c self → step_ok c self (Wal.read_events self).1.
Proof.
  intros Hok Hc. unfold Wal.read_events.
  pose proof (read_loop_same (tree_range_from EVENTS (Idx.raw (Wal.read self)) (Wal.store self)) 0 [] self) as [Hs Hcf].
  destruct (Wal.read_loop _ 0 [] self) as [self1 r]. simpl in *.
  pose proof (step_ok_same c self self1 Hok Hc Hs Hcf) as Hstep.
  destruct r as [evs|]; [|done]. pose proof Hstep as (Hok1 & Hc1 & _).
  pose proof (gc_step c self1 Hok1 Hc1) as Hgc. destruct (Wal.gc self1) as [self2 [?|?]];
    by eapply step_ok_trans.
Qed.

Lemma id_step c self :
  wal_ok self → confirmed_le c self → step_ok c self (Wal.set_store (generate_id (Wal.store self)).1 self).
Proof.
  intros Hok Hc. apply store_step'; [done..|apply generate_id_mono| |];
    unfold events; rewrite generate_id_contents; [by left|done].
Qed.

Lemma insert_step c self i v n :
  wal_ok self → confirmed_le c self → u64_ok i → (i < issued (Wal.store self))%N →
  events self !! be_bytes 8 i = None →
  step_ok c self (Wal.set_cnt n (Wal.set_store (tree_insert EVENTS (be_bytes 8 i) v (Wal.store self)).1 self)).
Proof.
  intros Hok Hc Hi Hlt Hnone. apply store_step; [done..|by rewrite issued_insert| |].
  - intros k Hk. destruct (decide (k = be_bytes 8 i)) as [->|Hne].
    + right. exists i. by rewrite issued_insert.
    + left. unfold events. by rewrite (tree_insert_keeps EVENTS EVENTS (be_bytes 8 i) v) in Hk by (by right).
  - intros j w Hj Hcj Hw. rewrite tree_insert_keeps; [done|]. right. intros Heq.
    unfold events in *. congruence.
Qed.

Lemma flush_step c self n :
  wal_ok self → confirmed_le c self →
  step_ok c self (Wal.set_cnt n (Wal.set_store (tree_flush EVENTS (Wal.store self)).1 self)).
Proof.
  intros Hok Hc. apply store_step; [done..|by rewrite issued_flush| |]; unfold events.
  - intros k Hk. left. by rewrite tree_flush_contents in Hk.
  - intros i v _ _ Hv. by rewrite tree_flush_contents.
Qed.

(** An id handed out now is no key yet. *)
Lemma fresh_id self s i :
  wal_ok self → generate_id (Wal.store self) = (s, IoOk i) →
  u64_ok i ∧ (i < issued s)%N ∧ contents EVENTS s !! be_bytes 8 i = None.
Proof.
  intros Hok Hgen. pose proof (generate_id_fresh _ _ _ Hgen) as [[Hlo Hhi] Hi]. split_and!; [done..|].
  pose proof (generate_id_contents EVENTS (Wal.store self)) as Hcont. rewrite Hgen in Hcont. simpl in Hcont.
  rewrite Hcont. apply eq_None_not_Some. intros Hk. destruct (Hok _ Hk) as (j & Heq & Hj & Hj64).
  apply key_inj in Heq; [|done..]. subst j. lia.
Qed.

Lemma store_event_step c uid e self :
  wal_ok self → confirmed_le c self → step_ok c self (Wal.store_event uid e self).1.
Proof.
  intros Hok Hc. unfold Wal.store_event. pose proof (id_step c self Hok Hc) as Hstep.
  destruct (generate_id (Wal.store self)) as [s [i|m]] eqn:Hgen; [|done].
  destruct (fresh_id self s i Hok Hgen) as (Hi & Hlt & Hnone).
  cbn [fst] in Hstep. set (self1 := Wal.set_store s self) in *.
  destruct (json_vec _) as [b|m]; [|done]. pose proof Hstep as (Hok1 & Hc1 & _).
  pose proof (insert_step c self1 i b (Wal.cnt self) Hok1 Hc1 Hi Hlt Hnone) as Hins.
  destruct (tree_insert EVENTS (be_bytes 8 i) b (Wal.store self1)) as [s2 r2].
  change (Wal.set_cnt (Wal.cnt self) _) with (Wal.set_store s2 self1) in Hins.
  pose proof (step_ok_trans _ _ _ _ Hstep Hins) as Hstep2. destruct r2; [|done].
  destruct (default false _).
  - pose proof Hstep2 as (Hok2 & Hc2 & _).
    pose proof (flush_step c (Wal.set_store s2 self1) (Wal.cnt self) Hok2 Hc2) as Hf1.
    pose proof (flush_step c (Wal.set_store s2 self1) (u64_add (Wal.cnt self) 1) Hok2 Hc2) as Hf2.
    destruct (tree_flush EVENTS _) as [s3 [?|?]]; by eapply step_ok_trans.
  - eapply step_ok_trans; [exact Hstep2|]. by apply step_ok_same; [apply Hstep2|apply Hstep2|..].
Qed.

Lemma confirm_step c x u self :
  wal_ok self → confirmed_le c self → x = Idx.from_u64 u → (u ≤ c)%N → u64_ok u →
  step_ok c self (Wal.confirm x self).
Proof.
  intros Hok Hc -> Hu Hu64.
  assert (step_ok c self (Wal.set_store (tree_insert STATE Wal.CONFIRMED (Idx.raw (Idx.from_u64 u)) (Wal.store self)).1 self))
    as (Hok' & _ & Hk).
  { apply store_step'; [done..|by rewrite issued_insert| |]; unfold events.
    - intros k Hk. left. by rewrite tree_insert_keeps in Hk by (by left).
    - intros i v _ _ Hv. by rewrite tree_insert_keeps by (by left). }
  split_and!; [done| |done]. intros y [= <-]. by exists u.
Qed.

(** The ids of an insight are machine words; an acknowledged one is at most
    [c]. *)
Definition input_ok (uid c : N) (inp : op_input) : Prop :=
  match inp with
  | InInsight i =>
    match Event.cb i with
    | CbAck => ∀ st n, EventId.get_max_by_source (Event.id i) uid = Some (st, n) → (n ≤ c)%N ∧ u64_ok n
    | CbFail => ∀ st n, EventId.get_min_by_source (Event.id i) uid = Some (st, n) → u64_ok n
    | _ => True
    end
  | _ => True
  end.

Lemma contraflow_step c uid i self :
  wal_ok self → confirmed_le c self → input_ok uid c (InInsight i) →
  step_ok c self (Wal.on_contraflow uid i self).1.
Proof.
  intros Hok Hc Hin. unfold Wal.on_contraflow, input_ok in *.
  destruct (Event.cb i); try (by apply step_ok_same).
  - destruct (EventId.get_max_by_source _ _) as [[st n]|]; [|by apply step_ok_same].
    destruct (Hin st n eq_refl). by apply (confirm_step c _ n).
  - destruct (EventId.get_min_by_source _ _) as [[st n]|]; [|by apply step_ok_same].
    specialize (Hin st n eq_refl). set (self1 := Wal.set_read _ self).
    assert (step_ok c self self1) as Hstep by (by apply step_ok_same).
    destruct (N.ltb_spec n (from_option Idx.to_u64 0%N (Wal.confirmed self1))) as [Hlt|]; [|done].
    eapply step_ok_trans; [exact Hstep|]. destruct Hstep as (? & Hc1 & _).
    apply (confirm_step c _ n); [done..| |done].
    destruct (Wal.confirmed self1) as [x|] eqn:Hx; simpl in Hlt; [|lia].
    destruct (Hc1 x Hx) as (u & -> & Hu & Hu64). unfold Idx.to_u64, Idx.from_u64 in Hlt.
    cbn [Idx.raw] in Hlt. rewrite read_u64_bytes in Hlt by done. lia.
Qed.

Definition wal_step (uid : N) (inp : op_input) self : Wal.t Store :=
  match inp with
  | InEvent e => (Wal.on_event uid IN const_null e self).1.1
  | InSignal s => (Wal.on_signal uid const_null s self).1.1.1
  | InInsight i => (Wal.on_contraflow uid i self).1
  end.

Lemma wal_step_ok c uid inp self :
  wal_ok self → confirmed_le c self → input_ok uid c inp → step_ok c self (wal_step uid inp self).
Proof.
  intros Hok Hc Hin. destruct inp as [e|sg|i]; cbn [wal_step]; [| |by apply contraflow_step].
  - unfold Wal.on_event. pose proof (store_event_step c uid e self Hok Hc) as Hstep.
    destruct (Wal.store_event uid e self) as [self1 [?|?]]; [|done]. simpl in Hstep.
    destruct (Wal.broken self1); [done|]. pose proof Hstep as (? & ? & _).
    pose proof (read_events_step c self1) as Hr.
    destruct (Wal.read_events self1) as [self2 [?|?]]; (eapply step_ok_trans; [exact Hstep|by apply Hr]).
  - unfold Wal.on_signal. destruct (Wal.limit_reached self) as [b|]; [|by apply step_ok_refl].
    set (self1 := Wal.set_full b self). assert (step_ok c self self1) as Hstep by (by apply step_ok_same).
    destruct (Wal.broken self1); [done|]. pose proof Hstep as (? & ? & _).
    pose proof (read_events_step c self1) as Hr.
    destruct (Wal.read_events self1) as [self2 [?|?]]; (eapply step_ok_trans; [exact Hstep|by apply Hr]).
Qed.

(** *** Reading *)
Definition parsed (e : bytes * bytes) (pe : string * Event.t) : Prop :=
  ∃ ev, from_slice e.2 = IoOk ev ∧ pe = (OUT, Event.set_transactional true ev).

Lemma read_loop_spec l n evs self self' evs' :
  (n ≤ Wal.read_count (Wal.cfg self) + 1)%N →
  Wal.read_loop (IoOk <$> l) n evs self = (self', Ok evs') →
  let taken := take (N.to_nat (Wal.read_count (Wal.cfg self) + 1 - n)) l in
  ∃ new, evs' = evs ++ new ∧ Forall2 parsed taken new ∧
    Wal.read self' = from_option (λ e, Idx.add_assign 1 (Idx.from_ivec e.1)) (Wal.read self) (last taken).
Proof.
  revert n evs self. induction l as [|[k v] l IH]; intros n evs self Hn; cbn [Wal.read_loop fmap list_fmap].
  { intros [= <- <-]. exists []. rewrite app_nil_r, take_nil. by repeat constructor. }
  destruct (N.ltb_spec (Wal.read_count (Wal.cfg self)) n).
  { intros [= <- <-]. exists []. replace (_ + 1 - n)%N with 0%N by lia. rewrite app_nil_r. by repeat constructor. }
  destruct (from_slice v) as [ev|m] eqn:Hv; [|done]. intros Hl. apply IH in Hl as (new & -> & Hall & Hr).
  2: { simpl. lia. }
  simpl in Hall, Hr. replace (N.to_nat (_ + 1 - n)) with (S (N.to_nat (Wal.read_count (Wal.cfg self) + 1 - (n + 1)))) by lia.
  exists ((OUT, Event.set_transactional true ev) :: new). rewrite <-(assoc_L (++)). split; [done|]. cbn [take].
  split; [constructor; [by exists ev|done]|]. rewrite last_cons, Hr. by destruct (last _).
Qed.

Lemma gc_loop_read items n self : Wal.read (Wal.gc_loop items n self).1 = Wal.read self.
Proof.
  revert n self. induction items as [|[[k v]|m] items IH]; intros n self; cbn [Wal.gc_loop]; [done| |done].
  destruct (tree_remove _ _ _) as [s [?|?]]; [|done]. by rewrite IH.
Qed.
End log.

(** C33: the log never loses an event that was not acknowledged: whatever events,
    signals and insights the operator handles, also when the database fails
    on the way, an entry behind everything confirmed before and acknowledged
    meanwhile is still stored with the same content. *)
Theorem wal_keeps_unconfirmed {Store} `{!sled Store, !event_json} (uid c : N) (inps : list op_input)
    (self : Wal.t Store) (Hok : wal_ok self) (Hc : confirmed_le c self) (Hin : Forall (input_ok uid c) inps) :
  let self' := foldl (λ s inp, wal_step uid inp s) self inps in
  wal_ok self' ∧ confirmed_le c self' ∧
  ∀ i v, u64_ok i → (c < i)%N → events self !! be_bytes 8 i = Some v → events self' !! be_bytes 8 i = Some v.
Proof.
  assert (step_ok c self (foldl (λ s inp, wal_step uid inp s) self inps)); [|done].
  revert self Hok Hc. induction Hin as [|inp inps Hi Hin IH]; intros self Hok Hc; [by apply step_ok_refl|].
  pose proof (wal_step_ok c uid inp self Hok Hc Hi) as Hstep. cbn [foldl].
  eapply step_ok_trans; [exact Hstep|]. by apply IH; apply Hstep.
Qed.

(** reading hands on the stored events from the read position, in key
    order, all marked transactional, and moves the position behind the last
    one; it hands on the first [read_count + 1] of them, one more than the
    configuration's "maximum number of events to read". *)
Theorem wal_read_spec {Store} `{!sled Store, !event_json} (self self' : Wal.t Store)
    (l : list (bytes * bytes)) (evs : list (string * Event.t))
    (Hl : tree_range_from EVENTS (Idx.raw (Wal.read self)) (Wal.store self) = IoOk <$> l)
    (Hread : Wal.read_events self = (self', Ok evs)) :
  let taken := take (N.to_nat (Wal.read_count (Wal.cfg self) + 1)) l in
  StronglySorted (λ x y, bytes_cmp x.1 y.1 = Lt) l ∧
  (∀ e, e ∈ l ↔ events self !! e.1 = Some e.2 ∧ bytes_cmp e.1 (Idx.raw (Wal.read self)) ≠ Lt) ∧
  Forall2 parsed taken evs ∧
  Wal.read self' = from_option (λ e, Idx.add_assign 1 (Idx.from_ivec e.1)) (Wal.read self) (last taken).
Proof.
  intros taken. destruct (tree_range_from_spec _ _ _ _ Hl) as [Hs Hin]. split; [done|]. split; [done|].
  unfold Wal.read_events in Hread. rewrite Hl in Hread.
  destruct (Wal.read_loop (IoOk <$> l) 0 [] self) as [self1 [evs1|]] eqn:Hloop; [|done].
  apply read_loop_spec in Hloop as (new & -> & Hall & Hr); [|lia]. rewrite N.sub_0_r in Hall, Hr.
  unfold Wal.gc in Hread. destruct (Wal.confirmed self1) as [x|].
  - pose proof (gc_loop_read (tree_range_to EVENTS (Idx.raw x) (Wal.store self1)) 0 self1) as Hg.
    destruct (Wal.gc_loop _ 0 self1) as [self2 [?|]]; [|done]. injection Hread as <- <-.
    split; [done|]. simpl in Hg. by rewrite Hg.
  - by injection Hread as <- <-.
Qed.

(** A stored event comes back: what [store_event] writes is under a fresh
    id, parses to the event it was given with an id of the operator that
    tracks the id the event had, and nothing else of the log changes. *)
Theorem wal_store_roundtrip {Store} `{!sled Store, !event_json} (uid : N) (e : Event.t) (self self' : Wal.t Store)
    (Hok : wal_ok self) (Hid : eid_wf (Event.id e)) (Hser : ∀ x, serializable (Event.set_id x e))
    (Hst : Wal.store_event uid e self = (self', Ok tt)) :
  ∃ i b new_id, u64_ok i ∧ events self !! be_bytes 8 i = None ∧ events self' !! be_bytes 8 i = Some b ∧
    from_slice b = IoOk (Event.set_id new_id e) ∧
    eid_key new_id = (uid, DEFAULT_STREAM_ID) ∧ EventId.event_id new_id = i ∧
    EventId.is_tracking new_id (Event.id e) = true ∧
    Wal.cnt self' = u64_add (Wal.cnt self) 1.
Proof.
  unfold Wal.store_event in Hst. destruct (generate_id (Wal.store self)) as [s [i|]] eqn:Hgen; [|done].
  destruct (fresh_id self s i Hok Hgen) as (Hi & _ & Hnone).
  pose proof (generate_id_contents EVENTS (Wal.store self)) as Hcont. rewrite Hgen in Hcont. simpl in Hcont.
  set (new_id := EventId.track (EventId.new uid DEFAULT_STREAM_ID i) (Event.id e)) in *.
  destruct (json_vec _) as [b|] eqn:Hjson; [|done].
  destruct (tree_insert EVENTS (be_bytes 8 i) b _) as [s2 [[]|]] eqn:Hins; [|done].
  apply tree_insert_ok in Hins.
  assert (∃ s3, contents EVENTS s3 = contents EVENTS s2 ∧ Wal.store self' = s3 ∧
    Wal.cnt self' = u64_add (Wal.cnt self) 1) as (s3 & H3 & Hs3 & Hcnt).
  { destruct (default false _).
    - pose proof (tree_flush_contents EVENTS EVENTS s2) as Hf.
      change (Wal.store (Wal.set_store s2 _)) with s2 in Hst.
      destruct (tree_flush EVENTS s2) as [s3 [?|?]]; [|done]. injection Hst as <-.
      by exists s3.
    - injection Hst as <-. by exists s2. }
  exists i, b, new_id. unfold events. rewrite <-Hcont. rewrite Hs3, H3, Hins.
  split_and!; [done|done|by rewrite lookup_insert, decide_True| | | | |done].
  - by apply (from_slice_json_vec (Event.set_id new_id e)).
  - apply (track_key_id (EventId.new uid DEFAULT_STREAM_ID i) (Event.id e)).
  - apply (track_key_id (EventId.new uid DEFAULT_STREAM_ID i) (Event.id e)).
  - apply (tracked_reported _ [Event.id e]); [repeat constructor|by repeat constructor|by left].
Qed.

(** a failure of an event the operator sent rewinds it: the read position
    is the smaller of itself and the lowest failed id, so that the event is
    read again, a confirmed position behind it is taken back, nothing stored
    changes, and upstream sees no circuit breaker action. *)
Theorem wal_fail_rewinds {Store} `{!sled Store, !event_json} (uid r st n : N) (insight : Event.t) (self : Wal.t Store)
    (Hr : Wal.read self = Idx.from_u64 r) (Hru : u64_ok r) (Hnu : u64_ok n)
    (Hcb : Event.cb insight = CbFail)
    (Hid : EventId.get_min_by_source (Event.id insight) uid = Some (st, n)) :
  let '(self', insight') := Wal.on_contraflow uid insight self in
  Wal.read self' = Idx.from_u64 (N.min r n) ∧ events self' = events self ∧ Event.cb insight' = CbNone ∧
  ∀ c, Wal.confirmed self = Some (Idx.from_u64 c) → u64_ok c → Wal.confirmed self' = Some (Idx.from_u64 (N.min c n)).
Proof.
  unfold Wal.on_contraflow. rewrite Hcb, Hid.
  assert (∀ c, u64_ok c → Idx.to_u64 (Idx.from_u64 c) = c) as Hto by (intros c Hc; by apply read_u64_bytes).
  assert (Idx.set_min n (Wal.read self) = Idx.from_u64 (N.min r n)) as Hmin.
  { rewrite Hr. unfold Idx.set_min. rewrite Hto by done. destruct (N.ltb_spec n r).
    - by rewrite N.min_r by lia.
    - by rewrite N.min_l by lia. }
  rewrite Hmin. simpl Wal.confirmed.
  destruct (N.ltb_spec n (from_option Idx.to_u64 0%N (Wal.confirmed self))) as [Hlt|Hge].
  - split_and!; [done| |done|].
    + unfold events. simpl. apply map_eq. intros k. by apply tree_insert_keeps; left.
    + intros c Hc Hcu. rewrite Hc in Hlt. simpl in *. rewrite Hto in Hlt by done. by rewrite N.min_r by lia.
  - split_and!; [done..|]. intros c Hc Hcu. rewrite Hc in Hge. simpl in *. rewrite Hto in Hge by done.
    by rewrite N.min_l by lia.
Qed.

(** ** A database in memory, for the witnesses *)
Lemma bytes_cmp_Eq a b : bytes_cmp a b = Eq ↔ a = b.
Proof.
  revert b. induction a as [|x a IH]; intros [|y b]; simpl; try done.
  destruct (N.compare_spec x y) as [->| |]; [rewrite IH; by split; [intros ->|intros [=]]|..];
    (split; [done|intros [= -> ->]; lia]).
Qed.

Lemma bytes_cmp_antisym a b : bytes_cmp b a = CompOpp (bytes_cmp a b).
Proof.
  revert b. induction a as [|x a IH]; intros [|y b]; simpl; try done.
  rewrite (N.compare_antisym x y). destruct (x ?= y)%N; simpl; [apply IH|done..].
Qed.

Lemma bytes_cmp_trans a b c : bytes_cmp a b = Lt → bytes_cmp b c = Lt → bytes_cmp a c = Lt.
Proof.
  revert b c. induction a as [|x a IH]; intros [|y b] [|z c]; simpl; try done.
  destruct (N.compare_spec x y) as [->|Hxy|], (N.compare_spec y z) as [->|Hyz|]; try done.
  - apply IH.
  - by rewrite (proj2 (N.compare_lt_iff x z)) by lia.
  - intros _ _. by rewrite (proj2 (N.compare_lt_iff x z)) by lia.
Qed.

Definition entry_le (x y : bytes * bytes) : Prop := bytes_cmp x.1 y.1 ≠ Gt.
#[export] Instance entry_le_dec : RelDecision entry_le.
Proof. intros x y. unfold entry_le. apply _. Defined.
#[export] Instance entry_le_total : Total entry_le.
Proof.
  intros x y. unfold entry_le. rewrite (bytes_cmp_antisym x.1 y.1).
  destruct (bytes_cmp x.1 y.1); [left|left|right]; done.
Qed.
#[export] Instance entry_le_trans : Transitive entry_le.
Proof.
  intros x y z. unfold entry_le. destruct (bytes_cmp x.1 y.1) eqn:Hxy; [|intros _|done].
  - apply bytes_cmp_Eq in Hxy as ->. done.
  - destruct (bytes_cmp y.1 z.1) eqn:Hyz; [intros _|intros _|done].
    + apply bytes_cmp_Eq in Hyz as <-. by rewrite Hxy.
    + by rewrite (bytes_cmp_trans _ _ _ Hxy Hyz).
Qed.

Module MemDb.
Record t := mk { trees : tree → gmap bytes bytes; next_id : N }.

Definition entries (tr : tree) (s : t) : list (bytes * bytes) := merge_sort entry_le (map_to_list (trees s tr)).
Definition update (tr : tree) (m : gmap bytes bytes) (s : t) : t :=
  mk (λ tr', if decide (tr' = tr) then m else trees s tr') (next_id s).

Lemma elem_of_entries tr s e : e ∈ entries tr s ↔ trees s tr !! e.1 = Some e.2.
Proof. unfold entries. rewrite merge_sort_Permutation. destruct e. apply elem_of_map_to_list. Qed.

Lemma entries_sorted tr s : StronglySorted (λ x y, bytes_cmp x.1 y.1 = Lt) (entries tr s).
Proof.
  assert (NoDup (entries tr s).*1) as Hnd.
  { unfold entries. rewrite merge_sort_Permutation. apply NoDup_fst_map_to_list. }
  pose proof (StronglySorted_merge_sort entry_le (map_to_list (trees s tr))) as Hs.
  fold (entries tr s) in Hs. induction Hs as [|x l Hs IH Hall]; [constructor|].
  inversion Hnd as [|? ? Hx Hnd']; subst. constructor; [by apply IH|].
  rewrite Forall_forall in *. intros y Hy. specialize (Hall y Hy). unfold entry_le in Hall.
  destruct (bytes_cmp x.1 y.1) eqn:Hc; [|done|done]. apply bytes_cmp_Eq in Hc.
  destruct Hx. apply list_elem_of_fmap. by exists y.
Qed.

Definition generate (s : t) : t * io N :=
  if decide (u64_ok (next_id s)) then (mk (trees s) (next_id s + 1), IoOk (next_id s)) else (s, IoErr "no id left").

#[global] Instance u64_ok_dec n : Decision (u64_ok n).
Proof. unfold u64_ok. apply _. Defined.
End MemDb.

Lemma StronglySorted_filter {A} (R : relation A) (P : A → Prop) `{!∀ x, Decision (P x)} l :
  StronglySorted R l → StronglySorted R (filter P l).
Proof.
  induction 1 as [|x l Hs IH Hall]; [constructor|]. rewrite filter_cons. case_decide; [|done].
  constructor; [done|]. rewrite Forall_forall in *. intros y [_ Hy]%list_elem_of_filter. by apply Hall.
Qed.

Definition mem_sled : sled MemDb.t.
Proof.
  refine {| generate_id := MemDb.generate;
    size_on_disk _ := IoOk 0%N;
    tree_len tr s := N.of_nat (size (MemDb.trees s tr));
    tree_get tr k s := IoOk (MemDb.trees s tr !! k);
    tree_insert tr k v s := (MemDb.update tr (<[k := v]> (MemDb.trees s tr)) s, IoOk tt);
    tree_remove tr k s := (MemDb.update tr (delete k (MemDb.trees s tr)) s, IoOk tt);
    tree_flush tr s := (s, IoOk tt);
    tree_range_from tr k s := IoOk <$> filter (λ e, bytes_cmp e.1 k ≠ Lt) (MemDb.entries tr s);
    tree_range_to tr k s := IoOk <$> filter (λ e, bytes_cmp e.1 k ≠ Gt) (MemDb.entries tr s);
    contents tr s := MemDb.trees s tr;
    issued := MemDb.next_id |}; simpl.
  - intros t s. unfold MemDb.generate. by case_decide.
  - intros s s' i. unfold MemDb.generate. case_decide; [|done]. intros [= <- <-]. simpl. split; [lia|done].
  - intros s. unfold MemDb.generate. case_decide; simpl; lia.
  - by intros t k s o [= <-].
  - intros t k v s s' [= <-]. simpl. by rewrite decide_True.
  - intros t t' k v s k' Hor. case_decide as Ht; [subst|done]. destruct Hor; [done|]. by rewrite lookup_insert_ne.
  - intros t t' k s k' Hor. case_decide as Ht; [subst|done]. destruct Hor; [done|]. by rewrite lookup_delete_ne.
  - intros t k v s. rewrite decide_True by done. left. by rewrite lookup_insert, decide_True.
  - intros t k s. rewrite decide_True by done. left. by rewrite lookup_delete, decide_True.
  - done.
  - done.
  - done.
  - done.
  - intros t k s l Hl. apply (inj (fmap (M:=list) IoOk)) in Hl as <-. split.
    + by apply StronglySorted_filter, MemDb.entries_sorted.
    + intros e. rewrite list_elem_of_filter, MemDb.elem_of_entries. tauto.
  - intros t k s e (x & [= <-] & Hx)%list_elem_of_fmap.
    rewrite list_elem_of_filter, MemDb.elem_of_entries in Hx. tauto.
  - intros t k s e (x & [= <-] & Hx)%list_elem_of_fmap.
    rewrite list_elem_of_filter, MemDb.elem_of_entries in Hx. tauto.
Defined.

Definition id_tuple (e : EventId.t) : N * N * N * list (N * N * N * N) :=
  (EventId.source_id e, EventId.stream_id e, EventId.event_id e,
   (λ x, (TrackedEventIds.source_id x, TrackedEventIds.stream_id x, TrackedEventIds.min_event_id x,
          TrackedEventIds.max_event_id x)) <$> EventId.tracked_event_ids e).
Definition tuple_id (x : N * N * N * list (N * N * N * N)) : EventId.t :=
  EventId.mk x.1.1.1 x.1.1.2 x.1.2
    ((λ y : N * N * N * N, TrackedEventIds.mk y.1.1.1 y.1.1.2 y.1.2 y.2) <$> x.2).

Lemma tuple_id_tuple e : tuple_id (id_tuple e) = e.
Proof.
  destruct e as [s st n l]. unfold tuple_id, id_tuple. simpl. f_equal.
  induction l as [|[]]; simpl; by f_equal.
Qed.

(** A format for events that carry nothing but an id. *)
Definition id_json : event_json.
Proof.
  refine {| json_vec e := IoOk [Npos (encode (id_tuple (Event.id e)))];
    from_slice b :=
      match b with
      | [Npos p] => match decode p with
                    | Some x => IoOk (Event.set_id (tuple_id x) Event.default)
                    | None => IoErr "parse error"
                    end
      | _ => IoErr "parse error"
      end;
    serializable e := e = Event.set_id (Event.id e) Event.default |}.
  intros e b He [= <-]. rewrite decode_encode, tuple_id_tuple. by rewrite <-He.
Defined.

Module WalSample.
Definition cfg : Wal.config := Wal.mk_config 1 None (Some 100%N) None None.
Definition store : MemDb.t :=
  MemDb.mk (λ t, match t with EVENTS => {[be_bytes 8 5 := [1]%N]} | STATE => ∅ end) 6.
Definition op : @Wal.t MemDb.t :=
  Wal.mk 1 store (Idx.from_u64 7) (Some (Idx.from_u64 2)) cfg true false None.
Lemma wal_sample_ok : @wal_ok _ mem_sled op.
Proof.
  intros k [v Hv]. unfold events in Hv. simpl in Hv. apply lookup_singleton_Some in Hv as [<- _].
  exists 5%N. by split.
Qed.
Lemma op_confirmed : confirmed_le 2 op.
Proof. intros x [= <-]. by exists 2%N. Qed.
(** A log with one event, nothing confirmed and read from the start. *)
Definition stored : Event.t := Event.set_id (EventId.new 9 0 1) Event.default.
Definition stored_bytes : bytes := [16777554]%N.
Definition one_stored : @Wal.t MemDb.t :=
  Wal.mk 1 (MemDb.mk (λ _, {[be_bytes 8 1 := stored_bytes]}) 2) (Idx.from_u64 0) None cfg false false None.
(** An insight about the events 3 to 4 of the operator (uid 9). *)
Definition insight (cb : CbAction) : Event.t :=
  Event.set_cb cb (Event.set_id (EventId.mk 9 0 4 [TrackedEventIds.new 9 0 3 4]) Event.default).
End WalSample.

Lemma wal_keeps_unconfirmed_witness :
  let _ := mem_sled in let _ := id_json in
  let self' := foldl (λ s inp, wal_step 9 inp s) WalSample.op
    [InInsight (WalSample.insight CbAck); InSignal Event.default; InEvent Event.default] in
  events self' !! be_bytes 8 5 = Some [1]%N.
Proof.
  intros H1 H2 self'.
  refine (proj2 (proj2 (wal_keeps_unconfirmed 9 4
    [InInsight (WalSample.insight CbAck); InSignal Event.default; InEvent Event.default]
    WalSample.op WalSample.wal_sample_ok _ _)) 5%N [1]%N _ _ _).
  - intros x [= <-]. by exists 2%N.
  - apply Forall_cons; split; [intros ? ? [= <- <-]; by split|].
    apply Forall_cons; split; [exact I|]. apply Forall_cons; split; [exact I|]. apply Forall_nil; exact I.
  - reflexivity.
  - reflexivity.
  - reflexivity.
Defined.

Lemma wal_read_spec_witness :
  let _ := mem_sled in let _ := id_json in
  Wal.read (Wal.read_events WalSample.one_stored).1 = Idx.from_u64 2.
Proof.
  intros H1 H2.
  destruct (Wal.read_events WalSample.one_stored) as [self' r] eqn:Hread.
  assert (r = Ok [(OUT, Event.set_transactional true WalSample.stored)]) as ->.
  { change r with (self', r).2. rewrite <-Hread. vm_compute. reflexivity. }
  assert (tree_range_from EVENTS (Idx.raw (Wal.read WalSample.one_stored)) (Wal.store WalSample.one_stored) =
    IoOk <$> [(be_bytes 8 1, WalSample.stored_bytes)]) as Hl by (vm_compute; reflexivity).
  etransitivity; [exact (proj2 (proj2 (proj2 (wal_read_spec _ _ _ _ Hl Hread))))|].
  vm_compute. reflexivity.
Defined.

Lemma wal_store_roundtrip_witness :
  let _ := mem_sled in let _ := id_json in
  let r := Wal.store_event 9 Event.default WalSample.op in r.2 = Ok tt ∧ Wal.cnt r.1 = 2%N.
Proof.
  intros H1 H2 r. assert (r.2 = Ok tt) as Hr by (vm_compute; reflexivity). split; [exact Hr|].
  destruct r as [self' o] eqn:Hst. simpl in Hr. subst o.
  assert (eid_wf EventId.default) as Hid by repeat constructor.
  assert (∀ x, serializable (Event.set_id x Event.default)) as Hser by (intros x; reflexivity).
  destruct (wal_store_roundtrip 9 Event.default WalSample.op self' WalSample.wal_sample_ok Hid Hser Hst)
    as (i & b & new_id & _ & _ & _ & _ & _ & _ & _ & Hc).
  exact Hc.
Defined.

Lemma wal_fail_rewinds_witness :
  let _ := mem_sled in let _ := id_json in
  let '(self', insight') := Wal.on_contraflow 9 (WalSample.insight CbFail) WalSample.op in
  Wal.read self' = Idx.from_u64 3 ∧ Event.cb insight' = CbNone.
Proof.
  intros H1 H2.
  pose proof (wal_fail_rewinds 9 7 0 3 (WalSample.insight CbFail) WalSample.op eq_refl eq_refl eq_refl eq_refl eq_refl) as H.
  destruct (Wal.on_contraflow 9 (WalSample.insight CbFail) WalSample.op) as [self' insight'].
  split; apply H.
Defined.

(** The write ahead log as an operator of a graph: what it reads back are data
    events, as long as its store holds data events. *)

(** The derived JSON form of an event keeps that it is no signal. *)
Class event_json_data `{!event_json} : Prop :=
  json_data e b e' : Event.kind e = None → json_vec e = IoOk b → from_slice b = IoOk e' → Event.kind e' = None.

Section wal_data.
Context {Store : Type} `{!sled Store, !event_json, !event_json_data}.
Implicit Types (self : Wal.t Store) (s : Store).

Definition holds_data (s : Store) : Prop :=
  ∀ k b e, contents EVENTS s !! k = Some b → from_slice b = IoOk e → Event.kind e = None.
Definition wal_data self : Prop := holds_data (Wal.store self).

(** What a handler may do: keep the store of data, and fail with an error. *)
Definition tame {A} (P : A → Prop) (self : Wal.t Store) (out : Wal.t Store * result A) : Prop :=
  wal_data self → wal_data out.1 ∧ out.2 ≠ Err EUndefined ∧ ∀ a, out.2 = Ok a → P a.

Lemma tame_err {A} (P : A → Prop) self self' m :
  (wal_data self → wal_data self') → tame P self (self', Err (EMsg m)).
Proof. intros Hs Hd. by split_and!; [apply Hs| |]. Qed.
Lemma tame_ok {A} (P : A → Prop) self self' a :
  (wal_data self → wal_data self') → P a → tame P self (self', Ok a).
Proof. intros Hs Hp Hd. split_and!; [by apply Hs|done|by intros ? [= <-]]. Qed.

Lemma holds_data_same s s' : contents EVENTS s' = contents EVENTS s → holds_data s → holds_data s'.
Proof. intros Hs Hd k b e. rewrite Hs. apply Hd. Qed.

Lemma remove_data k s : holds_data s → holds_data (tree_remove EVENTS k s).1.
Proof.
  intros Hd k' b e Hk. destruct (decide (k' = k)) as [->|Hne].
  - destruct (tree_remove_at EVENTS k s) as [Hr|Hr]; rewrite Hr in Hk; [done|by eapply Hd].
  - rewrite tree_remove_keeps in Hk by auto. by eapply Hd.
Qed.

Lemma insert_data t k v s :
  (t = EVENTS → ∀ e, from_slice v = IoOk e → Event.kind e = None) →
  holds_data s → holds_data (tree_insert t k v s).1.
Proof.
  intros Hv Hd k' b e Hk.
  destruct (decide (t = EVENTS)) as [->|Ht]; [|rewrite tree_insert_keeps in Hk by auto; by eapply Hd].
  destruct (decide (k' = k)) as [->|Hne]; [|rewrite tree_insert_keeps in Hk by auto; by eapply Hd].
  destruct (tree_insert_at EVENTS k v s) as [Hr|Hr]; rewrite Hr in Hk; [|by eapply Hd].
  injection Hk as <-. by apply Hv.
Qed.

Lemma gc_loop_tame items i self : tame (λ _, True) self (Wal.gc_loop items i self).
Proof.
  revert i self. induction items as [|it items IH]; intros i self; cbn [Wal.gc_loop]; [by apply tame_ok|].
  destruct it as [[idx b]|m]; [|by apply tame_err].
  set (self1 := Wal.set_cnt _ self).
  pose proof (remove_data idx (Wal.store self1)) as Hr.
  destruct (tree_remove EVENTS idx (Wal.store self1)) as [s [[]|m]].
  - intros Hd. apply (IH _ (Wal.set_store s self1)). by apply Hr.
  - apply tame_err. intros Hd. by apply Hr.
Qed.

Lemma gc_tame self : tame (λ _, True) self (Wal.gc self).
Proof. unfold Wal.gc. destruct (Wal.confirmed self); [apply gc_loop_tame|by apply tame_ok]. Qed.

Definition data_events (l : list (string * Event.t)) : Prop := Forall (λ pe, Event.kind pe.2 = None) l.

Lemma read_loop_tame items n evs self :
  (∀ k b, IoOk (k, b) ∈ items → ∀ e, from_slice b = IoOk e → Event.kind e = None) →
  data_events evs → tame data_events self (Wal.read_loop items n evs self).
Proof.
  revert n evs self. induction items as [|it items IH]; intros n evs self Hit Hev; cbn [Wal.read_loop];
    [by apply tame_ok|].
  destruct (_ <? _)%N; [by apply tame_ok|].
  destruct it as [[idx b]|m]; [|by apply tame_err].
  destruct (from_slice b) as [e|m] eqn:Hb; [|by apply tame_err].
  intros Hd. apply (IH _ _ (Wal.set_read _ self)); [|apply Forall_app; split; [done|]|done].
  - intros k b' Hin. apply (Hit k). by right.
  - apply Forall_singleton. simpl. apply (Hit idx b); [by left|done].
Qed.

Lemma read_events_tame self : tame data_events self (Wal.read_events self).
Proof.
  intros Hd. unfold Wal.read_events.
  pose proof (read_loop_tame (tree_range_from EVENTS (Idx.raw (Wal.read self)) (Wal.store self)) 0 [] self) as Hl.
  destruct Hl as (Hd' & Hu & Hok); [|by constructor|done|].
  { intros k b Hin e. apply tree_range_from_sound in Hin. by eapply Hd. }
  destruct (Wal.read_loop _ _ _ _) as [self' [evs|x]]; simpl in *; [|by split_and!; [|intros [= ->]|]].
  destruct (gc_tame self' Hd') as (Hd2 & Hu2 & _).
  destruct (Wal.gc self') as [self2 [?|x]]; simpl in *; [|by split_and!; [|intros [= ->]|]].
  split_and!; [done..|]. intros ? [= <-]. by apply Hok.
Qed.

Lemma store_event_tame uid e self : Event.kind e = None → tame (λ _, True) self (Wal.store_event uid e self).
Proof.
  intros Hk. unfold Wal.store_event.
  pose proof (generate_id_contents EVENTS (Wal.store self)) as Hg.
  destruct (generate_id (Wal.store self)) as [s [i|m]]; simpl in Hg.
  2: { apply tame_err. by apply holds_data_same. }
  destruct (json_vec _) as [b|m] eqn:Hb; [|apply tame_err; by apply holds_data_same].
  generalize (be_bytes 8 i). intros key. simpl. pose proof (insert_data EVENTS key b s) as Hi.
  assert (wal_data self → holds_data (tree_insert EVENTS key b s).1) as Hd.
  { intros Hd. apply Hi; [|by apply (holds_data_same (Wal.store self))]. intros _ e' He'.
    by apply (json_data (Event.set_id (EventId.track (EventId.new uid DEFAULT_STREAM_ID i) (Event.id e)) e) b). }
  destruct (tree_insert EVENTS key b s) as [s' [[]|m]]; simpl in Hd; [|by apply tame_err].
  destruct (default false _).
  - simpl. pose proof (tree_flush_contents EVENTS EVENTS s') as Hf.
    destruct (tree_flush EVENTS s') as [s2 [[]|m]]; simpl in Hf; [apply tame_ok|apply tame_err]; try done;
      intros Hw; apply (holds_data_same s'); auto.
  - by apply tame_ok.
Qed.

#[export] Instance wal_data_operator : data_operator wal_data.
Proof.
  split.
  - intros self uid port st e self' st' r Hd Hk. simpl. unfold Wal.on_event.
    destruct (store_event_tame uid e self Hk Hd) as (Hd1 & Hu1 & _).
    destruct (Wal.store_event uid e self) as [self1 [[]|x]]; simpl in *.
    2: { intros [= <- <- <-]. by split_and!; [|intros [= ->]|]. }
    assert (tame data_events self1 (if Wal.broken self1 then (self1, Ok []) else Wal.read_events self1)) as Ht.
    { destruct (Wal.broken self1); [by apply tame_ok; [|constructor]|apply read_events_tame]. }
    destruct (Ht Hd1) as (Hd2 & Hu2 & Hok).
    destruct (if Wal.broken self1 then _ else _) as [self2 [evs|x]]; simpl in *; intros [= <- <- <-].
    + split_and!; [done..|]. intros ei [= <-]. by apply Hok.
    + by split_and!; [|intros [= ->]|].
  - intros self uid st sg self' st' sg' r Hd. simpl. unfold Wal.on_signal.
    assert (Wal.limit_reached self ≠ Err EUndefined) as Hl.
    { unfold Wal.limit_reached. by destruct (size_on_disk _). }
    destruct (Wal.limit_reached self) as [full|x].
    2: { intros [= <- <- <- <-]. by split_and!; [|intros [= ->]|]. }
    set (self1 := Wal.set_full full self).
    assert (tame data_events self1 (if Wal.broken self1 then (self1, Ok []) else Wal.read_events self1)) as Ht.
    { destruct (Wal.broken self1); [by apply tame_ok; [|constructor]|apply read_events_tame]. }
    destruct (Ht Hd) as (Hd2 & Hu2 & Hok).
    destruct (if Wal.broken self1 then _ else _) as [self2 [evs|x]]; simpl in *; intros [= <- <- <- <-].
    + split_and!; [done..|]. intros ei [= <-]. by apply Hok.
    + by split_and!; [|intros [= ->]|].
  - intros self uid ins self' ins' Hd. simpl. unfold Wal.on_contraflow.
    assert (∀ c self, wal_data self → wal_data (Wal.confirm c self)) as Hc.
    { intros c w Hw. unfold Wal.confirm, wal_data. simpl. by apply insert_data. }
    destruct (Event.cb ins); try (by intros [= <- <-]).
    + destruct (EventId.get_max_by_source _ _) as [[? i]|]; intros [= <- <-]; [by apply Hc|done].
    + destruct (EventId.get_min_by_source _ _) as [[? i]|]; intros [= <- <-]; [|done].
      destruct (_ <? _)%N; [by apply Hc|done].
Qed.
End wal_data.
