(* ===== verification/Graph.v ===== *)
(** The executable pipeline graph: tremor-pipeline/src/executable_graph.rs.

    Nodes run operators of any type [Op] with the [Operator] interface (the
    code's [Box<dyn Operator>]).  Handlers that run operators return the graph
    as they leave it next to their result.  The event stack is a list whose
    head is the top.  [get_unchecked] out of bounds is [EUndefined]. *)
From S2P Require Import Prelude Value EventIds Event.

Inductive NodeKind :=
  | KInput
  | KOutput (port : string)
  | KOperator
  | KSelect
  | KScript.

Definition kind_skippable (k : NodeKind) : bool :=
  match k with KOperator | KSelect | KScript => true | _ => false end.

(** ** NodeMetrics *)
Definition influx_value (metric_name : string) (tags : gmap string value) (count timestamp : N) : value :=
  VObject {["measurement" := VString metric_name;
            "tags" := VObject tags;
            "fields" := VObject {["count" := VStatic (SU64 count)]};
            "timestamp" := VStatic (SU64 timestamp)]}.

Module NodeMetrics.
Record t := mk { inputs : gmap string N; outputs : gmap string N }.
Definition default : t := mk ∅ ∅.

Definition inc_n (m : gmap string N) (port : string) (increment : N) : gmap string N :=
  <[port := u64_add (from_option id 0%N (m !! port)) increment]> m.
Definition inc_input_n (input : string) (increment : N) (self : t) : t :=
  mk (inc_n (inputs self) input increment) (outputs self).
Definition inc_output_n (output : string) (increment : N) (self : t) : t :=
  mk (inputs self) (inc_n (outputs self) output increment).
Definition inc_input (input : string) : t → t := inc_input_n input 1.
Definition inc_output (output : string) : t → t := inc_output_n output 1.

(** One loop of [to_value]: the tags are passed on. *)
Fixpoint port_values (metric_name : string) (tags : gmap string value) (timestamp : N)
    (ports : list (string * N)) : list value * gmap string value :=
  match ports with
  | [] => ([], tags)
  | (k, n) :: ports =>
      let tags := <["port" := VString k]> tags in
      let '(vs, tags') := port_values metric_name tags timestamp ports in
      (influx_value metric_name tags n timestamp :: vs, tags')
  end.

Definition to_value `{!hash_order string} (self : t) (metric_name : string)
    (tags : gmap string value) (timestamp : N) : list value * gmap string value :=
  let tags := <["direction" := VString "input"]> tags in
  let '(ins, tags) := port_values metric_name tags timestamp (hash_iter (inputs self)) in
  let tags := <["direction" := VString "output"]> tags in
  let '(outs, tags) := port_values metric_name tags timestamp (hash_iter (outputs self)) in
  (ins ++ outs, tags).
End NodeMetrics.

Section graph.
Context {Op : Type} `{!Operator Op}.

(** ** OperatorNode: an operator with its uid *)
Record OperatorNode := mk_node {
  node_id : string;
  node_kind : NodeKind;
  node_op_type : string;
  node_op : Op;
  node_uid : N;
}.
Definition set_op (o : Op) (n : OperatorNode) : OperatorNode :=
  mk_node (node_id n) (node_kind n) (node_op_type n) o (node_uid n).

(** The node ignores the uid it is called with and passes its own on. *)
Definition node_on_event (_uid : N) (port : string) (state : value) (event : Event.t)
    (n : OperatorNode) : OperatorNode * value * result EventAndInsights.t :=
  let '(o, state, r) := on_event (node_uid n) port state event (node_op n) in
  (set_op o n, state, r).
Definition node_on_signal (_uid : N) (state : value) (signal : Event.t) (n : OperatorNode) :
    OperatorNode * value * Event.t * result EventAndInsights.t :=
  let '(o, state, signal, r) := on_signal (node_uid n) state signal (node_op n) in
  (set_op o n, state, signal, r).
Definition node_on_contraflow (_uid : N) (insight : Event.t) (n : OperatorNode) :
    OperatorNode * Event.t :=
  let '(o, insight) := on_contraflow (node_uid n) insight (node_op n) in
  (set_op o n, insight).
Definition node_metrics (tags : gmap string value) (timestamp : N) (n : OperatorNode) :
    result (list value) := op_metrics tags timestamp (node_op n).
Definition node_skippable (n : OperatorNode) : bool := skippable (node_op n).

(** ** ExecutableGraph *)
Definition stack_entry : Type := nat * string * Event.t.

Record ExecutableGraph := mk_graph {
  g_id : string;
  g_graph : list OperatorNode;
  g_state : list value;
  g_inputs : gmap string nat;
  g_stack : list stack_entry;
  g_signalflow : list nat;
  g_contraflow : list nat;
  g_port_indexes : gmap (nat * string) (list (nat * string));
  g_metrics : list NodeMetrics.t;
  g_metrics_idx : nat;
  g_last_metrics : N;
  g_metric_interval : option N;
  g_insights : list (nat * Event.t);
}.

Definition set_g_id (x : string) (g : ExecutableGraph) : ExecutableGraph :=
  mk_graph x (g_graph g) (g_state g) (g_inputs g) (g_stack g) (g_signalflow g) (g_contraflow g)
    (g_port_indexes g) (g_metrics g) (g_metrics_idx g) (g_last_metrics g) (g_metric_interval g) (g_insights g).
Definition set_graph (x : list OperatorNode) (g : ExecutableGraph) : ExecutableGraph :=
  mk_graph (g_id g) x (g_state g) (g_inputs g) (g_stack g) (g_signalflow g) (g_contraflow g)
    (g_port_indexes g) (g_metrics g) (g_metrics_idx g) (g_last_metrics g) (g_metric_interval g) (g_insights g).
Definition set_state (x : list value) (g : ExecutableGraph) : ExecutableGraph :=
  mk_graph (g_id g) (g_graph g) x (g_inputs g) (g_stack g) (g_signalflow g) (g_contraflow g)
    (g_port_indexes g) (g_metrics g) (g_metrics_idx g) (g_last_metrics g) (g_metric_interval g) (g_insights g).
Definition set_inputs (x : gmap string nat) (g : ExecutableGraph) : ExecutableGraph :=
  mk_graph (g_id g) (g_graph g) (g_state g) x (g_stack g) (g_signalflow g) (g_contraflow g)
    (g_port_indexes g) (g_metrics g) (g_metrics_idx g) (g_last_metrics g) (g_metric_interval g) (g_insights g).
Definition set_stack (x : list stack_entry) (g : ExecutableGraph) : ExecutableGraph :=
  mk_graph (g_id g) (g_graph g) (g_state g) (g_inputs g) x (g_signalflow g) (g_contraflow g)
    (g_port_indexes g) (g_metrics g) (g_metrics_idx g) (g_last_metrics g) (g_metric_interval g) (g_insights g).
Definition set_flows (s c : list nat) (g : ExecutableGraph) : ExecutableGraph :=
  mk_graph (g_id g) (g_graph g) (g_state g) (g_inputs g) (g_stack g) s c
    (g_port_indexes g) (g_metrics g) (g_metrics_idx g) (g_last_metrics g) (g_metric_interval g) (g_insights g).
Definition set_port_indexes (x : gmap (nat * string) (list (nat * string))) (g : ExecutableGraph) :
    ExecutableGraph :=
  mk_graph (g_id g) (g_graph g) (g_state g) (g_inputs g) (g_stack g) (g_signalflow g) (g_contraflow g)
    x (g_metrics g) (g_metrics_idx g) (g_last_metrics g) (g_metric_interval g) (g_insights g).
Definition set_metrics (x : list NodeMetrics.t) (g : ExecutableGraph) : ExecutableGraph :=
  mk_graph (g_id g) (g_graph g) (g_state g) (g_inputs g) (g_stack g) (g_signalflow g) (g_contraflow g)
    (g_port_indexes g) x (g_metrics_idx g) (g_last_metrics g) (g_metric_interval g) (g_insights g).
Definition set_last_metrics (x : N) (g : ExecutableGraph) : ExecutableGraph :=
  mk_graph (g_id g) (g_graph g) (g_state g) (g_inputs g) (g_stack g) (g_signalflow g) (g_contraflow g)
    (g_port_indexes g) (g_metrics g) (g_metrics_idx g) x (g_metric_interval g) (g_insights g).
Definition set_insights (x : list (nat * Event.t)) (g : ExecutableGraph) : ExecutableGraph :=
  mk_graph (g_id g) (g_graph g) (g_state g) (g_inputs g) (g_stack g) (g_signalflow g) (g_contraflow g)
    (g_port_indexes g) (g_metrics g) (g_metrics_idx g) (g_last_metrics g) (g_metric_interval g) x.

(** [self.stack.push] *)
Definition push (entry : stack_entry) (g : ExecutableGraph) : ExecutableGraph :=
  set_stack (entry :: g_stack g) g.

(** *** Forward flow *)

(** One connection of [enqueue_events]: count the input, push the event. *)
Definition deliver (event : Event.t) (g : ExecutableGraph) (to : nat * string) : ExecutableGraph :=
  push (to.1, to.2, event)
    (set_metrics (alter (NodeMetrics.inc_input to.2) to.1 (g_metrics g)) g).

(** [split_last] only tells the last connection, which gets the event
    itself, from the others, which get a clone. *)
Definition enqueue_event (idx : nat) (g : ExecutableGraph) (pe : string * Event.t) : ExecutableGraph :=
  foldl (deliver pe.2) g (default [] (g_port_indexes g !! (idx, pe.1))).
Definition enqueue_events (idx : nat) (events : list (string * Event.t)) (g : ExecutableGraph) :
    ExecutableGraph := foldl (enqueue_event idx) g events.

Definition put_node (idx : nat) (n : OperatorNode) (st : value) (g : ExecutableGraph) : ExecutableGraph :=
  set_state (<[idx := st]> (g_state g)) (set_graph (<[idx := n]> (g_graph g)) g).

(** *** Signal flow *)
Fixpoint signalflow_loop (todo : list nat) (g : ExecutableGraph) (signal : Event.t) (has_events : bool) :
    ExecutableGraph * result bool :=
  match todo with
  | [] => (g, Ok has_events)
  | i :: todo =>
    match g_graph g !! i, g_state g !! i with
    | Some n, Some st =>
      let '(n, st, signal, r) := node_on_signal (node_uid n) st signal n in
      let g := put_node i n st g in
      match r with
      | Err e => (g, Err e)
      | Ok ei =>
        let g := set_insights (g_insights g ++ ((λ cf, (i, cf)) <$> EventAndInsights.insights ei)) g in
        let has_events := has_events || negb (bool_decide (EventAndInsights.events ei = [])) in
        signalflow_loop todo (enqueue_events i (EventAndInsights.events ei) g) signal has_events
      end
    | _, _ => (g, Err EUndefined)
    end
  end.
Definition signalflow (signal : Event.t) (g : ExecutableGraph) : ExecutableGraph * result bool :=
  signalflow_loop (g_signalflow g) g signal false.

(** [next]: handles the event on top of the stack. *)
Definition returns : Type := list (string * Event.t).

Definition more (g : ExecutableGraph) : result bool :=
  Ok (negb (bool_decide (g_stack g = []))).

(** The event reaches a node that is no output. *)
Definition node_step (idx : nat) (port : string) (event : Event.t) (node : OperatorNode) (st : value)
    (g : ExecutableGraph) : ExecutableGraph * result bool :=
  let '(node, st, r) := node_on_event 0 port st event node in
  let g := put_node idx node st g in
  match r with
  | Err e => (g, Err e)
  | Ok ei =>
    let g := set_metrics
      (foldl (λ ms pe, alter (NodeMetrics.inc_output pe.1) idx ms) (g_metrics g)
         (EventAndInsights.events ei)) g in
    let g := set_insights
      (g_insights g ++ ((λ i, (idx, i)) <$> EventAndInsights.insights ei)) g in
    let g := enqueue_events idx (EventAndInsights.events ei) g in
    (g, more g)
  end.

Definition next (g : ExecutableGraph) (rs : returns) : ExecutableGraph * returns * result bool :=
  match g_stack g with
  | [] => (g, rs, Ok false)
  | (idx, port, event) :: stack =>
    let g := set_stack stack g in
    if bool_decide (is_Some (Event.kind event)) then
      match signalflow event g with
      | (g, Ok _) => (g, rs, more g)
      | (g, Err e) => (g, rs, Err e)
      end
    else
      match g_graph g !! idx with
      | None => (g, rs, Err EUndefined)
      | Some node =>
        match node_kind node with
        | KOutput port => (g, rs ++ [(port, event)], more g)
        | _ =>
          match g_state g !! idx with
          | None => (g, rs, Err EUndefined)
          | Some st => let '(g, r) := node_step idx port event node st g in (g, rs, r)
          end
        end
      end
  end.

(** [run]: [None] is a loop that needs more than [fuel] rounds. *)
Fixpoint run (fuel : nat) (g : ExecutableGraph) (rs : returns) :
    option (ExecutableGraph * returns * result unit) :=
  match fuel with
  | O => None
  | S fuel =>
    match next g rs with
    | (g, rs, Ok true) => run fuel g rs
    | (g, rs, Ok false) => Some (g, reverse rs, Ok tt)
    | (g, rs, Err e) => Some (set_stack [] g, rs, Err e)
    end
  end.

(** *** Metrics *)
Definition metric_event (ingest_ns : N) (v : value) : Event.t :=
  Event.mk EventId.default (ValueAndMeta.from_value v) ingest_ns None None false CbNone ∅ false.

Section with_order.
Context `{!hash_order string}.

Fixpoint metrics_loop (metric_name : string) (tags : gmap string value) (ingest_ns : N)
    (i : nat) (ms : list NodeMetrics.t) (g : ExecutableGraph) : ExecutableGraph :=
  match ms with
  | [] => g
  | m :: ms =>
    match g_graph g !! i with
    | None => g
    | Some n =>
      let tags := <["node" := VString (node_id n)]> tags in
      let op_vals := match node_metrics tags ingest_ns n with Ok vs => vs | Err _ => [] end in
      let '(vals, tags) := NodeMetrics.to_value m metric_name tags ingest_ns in
      let g := foldl (λ g v, push (g_metrics_idx g, IN, metric_event ingest_ns v) g) g
                 (op_vals ++ vals) in
      metrics_loop metric_name tags ingest_ns (S i) ms g
    end
  end.
Definition enqueue_metrics (metric_name : string) (tags : gmap string value) (ingest_ns : N)
    (g : ExecutableGraph) : ExecutableGraph :=
  metrics_loop metric_name tags ingest_ns 0 (g_metrics g) g.

Definition metrics_due (event : Event.t) (g : ExecutableGraph) : bool :=
  match g_metric_interval g with
  | Some ival => (ival <? u64_sub (Event.ingest_ns event) (g_last_metrics g))%N
  | None => false
  end.

Definition enqueue (fuel : nat) (stream_name : string) (event : Event.t) (g : ExecutableGraph)
    (rs : returns) : option (ExecutableGraph * returns * result unit) :=
  let g :=
    if metrics_due event g then
      set_last_metrics (Event.ingest_ns event)
        (enqueue_metrics "events" {["pipeline" := VString (g_id g)]} (Event.ingest_ns event) g)
    else g in
  match g_inputs g !! stream_name with
  | None => Some (g, rs, Err (EInvalidInputStreamName stream_name (g_id g)))
  | Some input => run fuel (push (input, IN, event) g) rs
  end.
End with_order.

Definition enqueue_signal (fuel : nat) (signal : Event.t) (g : ExecutableGraph) (rs : returns) :
    option (ExecutableGraph * returns * result unit) :=
  match signalflow signal g with
  | (g, Ok true) => run fuel g rs
  | (g, Ok false) => Some (g, rs, Ok tt)
  | (g, Err e) => Some (g, rs, Err e)
  end.

(** *** Contraflow *)
Fixpoint contraflow_loop (todo : list nat) (skip_to : option nat) (insight : Event.t)
    (g : ExecutableGraph) : ExecutableGraph * Event.t :=
  match todo with
  | [] => (g, insight)
  | idx :: todo =>
    match skip_to with
    | None =>
      match g_graph g !! idx with
      | None => (g, insight)
      | Some n =>
        let '(n, insight) := node_on_contraflow (node_uid n) insight n in
        contraflow_loop todo None insight (set_graph (<[idx := n]> (g_graph g)) g)
      end
    | Some i =>
      contraflow_loop todo (if bool_decide (i = idx) then None else Some i) insight g
    end
  end.
Definition contraflow (skip_to : option nat) (insight : Event.t) (g : ExecutableGraph) :
    ExecutableGraph * Event.t :=
  contraflow_loop (g_contraflow g) skip_to insight g.
End graph.

Arguments OperatorNode : clear implicits.
Arguments ExecutableGraph : clear implicits.

Section graph_facts.
Context {Op : Type} `{!Operator Op}.
Implicit Types (g : ExecutableGraph Op) (rs : returns).

(** The connections [enqueue_events] follows, in order. *)
Definition routes g (idx : nat) (evs : list (string * Event.t)) : list stack_entry :=
  evs ≫= λ pe, (λ to : nat * string, (to.1, to.2, pe.2))
                 <$> default [] (g_port_indexes g !! (idx, pe.1)).
Definition count_input (ms : list NodeMetrics.t) (e : stack_entry) : list NodeMetrics.t :=
  alter (NodeMetrics.inc_input e.1.2) e.1.1 ms.

Lemma deliver_all ev tos g :
  foldl (deliver ev) g tos =
  let es := (λ to : nat * string, (to.1, to.2, ev)) <$> tos in
  set_stack (reverse es ++ g_stack g) (set_metrics (foldl count_input (g_metrics g) es) g).
Proof.
  revert g. induction tos as [|to tos IH]; intros g; simpl; [by destruct g|].
  rewrite IH. simpl. rewrite reverse_cons, <-(assoc_L (++)). done.
Qed.

Lemma enqueue_events_eq idx evs g :
  enqueue_events idx evs g =
  set_stack (reverse (routes g idx evs) ++ g_stack g)
    (set_metrics (foldl count_input (g_metrics g) (routes g idx evs)) g).
Proof.
  unfold enqueue_events. revert g. induction evs as [|pe evs IH]; intros g; simpl.
  { by destruct g. }
  rewrite IH. unfold enqueue_event. rewrite deliver_all. simpl.
  unfold routes at 2 4. simpl. rewrite reverse_app, foldl_app, <-(assoc_L (++)). done.
Qed.

Definition entry_node (e : stack_entry) : nat := e.1.1.
Definition entry_data (e : stack_entry) : Prop := Event.kind e.2 = None.

(** What no handler changes. *)
Definition static g := (g_id g, g_inputs g, g_signalflow g, g_contraflow g,
  g_port_indexes g, g_metrics_idx g, g_metric_interval g, node_kind <$> g_graph g).

Context (I : Op → Prop) `{!data_operator I}.

(** The unchecked accesses of a graph of [n] nodes are in bounds. *)
Record graph_ok (n : nat) g : Prop := {
  ok_graph : length (g_graph g) = n;
  ok_state : length (g_state g) = n;
  ok_metrics : length (g_metrics g) = n;
  ok_ports : ∀ k conns to, g_port_indexes g !! k = Some conns → to ∈ conns → (to.1 < n)%nat;
  ok_signal : Forall (λ i, i < n)%nat (g_signalflow g);
  ok_contra : Forall (λ i, i < n)%nat (g_contraflow g);
  ok_inputs : ∀ s i, g_inputs g !! s = Some i → (i < n)%nat;
  ok_metrics_idx : (g_metrics_idx g < n)%nat;
  ok_stack : Forall (λ e, entry_node e < n)%nat (g_stack g);
  ok_ops : Forall (λ nd, I (node_op nd)) (g_graph g);
}.

Definition acyclic (rank : nat → nat) g : Prop :=
  ∀ i p conns to, g_port_indexes g !! (i, p) = Some conns → to ∈ conns → (rank to.1 < rank i)%nat.

Lemma elem_of_routes g idx evs e :
  e ∈ routes g idx evs ↔
  ∃ port conns, (port, e.2) ∈ evs ∧ g_port_indexes g !! (idx, port) = Some conns ∧ e.1 ∈ conns.
Proof.
  unfold routes. rewrite list_elem_of_bind. split.
  - intros ([port ev] & (to & -> & Hto)%list_elem_of_fmap & Hpe). simpl in *.
    destruct (g_port_indexes g !! (idx, port)) as [conns|] eqn:Hc; [|set_solver].
    exists port, conns. by destruct to.
  - intros (port & conns & Hpe & Hc & Hto). exists (port, e.2). split; [|done].
    simpl. rewrite Hc. apply list_elem_of_fmap. exists e.1. by destruct e as [[] ].
Qed.

Lemma routes_data g idx evs :
  Forall (λ pe, Event.kind pe.2 = None) evs → Forall entry_data (routes g idx evs).
Proof.
  rewrite !Forall_forall. intros Hev e (port & conns & Hpe & _)%elem_of_routes.
  apply (Hev _ Hpe).
Qed.

Lemma routes_in n g idx evs :
  graph_ok n g → Forall (λ e, entry_node e < n)%nat (routes g idx evs).
Proof.
  intros Hok. apply Forall_forall. intros e (port & conns & _ & Hc & Hin)%elem_of_routes.
  by apply (ok_ports _ _ Hok _ _ _ Hc Hin).
Qed.

Lemma routes_rank rank g idx evs :
  acyclic rank g → Forall (λ e, rank (entry_node e) < rank idx)%nat (routes g idx evs).
Proof.
  intros Hac. apply Forall_forall. intros e (port & conns & _ & Hc & Hin)%elem_of_routes.
  by apply (Hac _ _ _ _ Hc Hin).
Qed.

Lemma count_inputs_length ms es : length (foldl count_input ms es) = length ms.
Proof.
  revert ms. induction es as [|e es IH]; intros ms; simpl; [done|].
  rewrite IH. apply length_alter.
Qed.

Lemma count_outputs_length idx ms (evs : list (string * Event.t)) :
  length (foldl (λ ms pe, alter (NodeMetrics.inc_output pe.1) idx ms) ms evs) = length ms.
Proof.
  revert ms. induction evs as [|e es IH]; intros ms; simpl; [done|].
  rewrite IH. apply length_alter.
Qed.
Lemma put_node_ok n g i nd o st :
  graph_ok n g → g_graph g !! i = Some nd → I o →
  graph_ok n (put_node i (set_op o nd) st g) ∧
  static (put_node i (set_op o nd) st g) = static g.
Proof.
  intros [] Hi Ho. split.
  - constructor; simpl; rewrite ?length_insert; try done. by apply Forall_insert.
  - unfold static. simpl. rewrite list_fmap_insert. simpl. f_equal.
    apply list_insert_id. by rewrite list_lookup_fmap, Hi.
Qed.

(** The bookkeeping after a handler returned: metrics, insights, stack. *)
Lemma update_ok n g ms ins idx evs :
  graph_ok n g → length ms = n →
  let g' := enqueue_events idx evs (set_insights ins (set_metrics ms g)) in
  graph_ok n g' ∧ static g' = static g ∧ g_stack g' = reverse (routes g idx evs) ++ g_stack g.
Proof.
  intros Hok Hms g'.
  assert (g' = set_stack (reverse (routes g idx evs) ++ g_stack g)
    (set_metrics (foldl count_input ms (routes g idx evs)) (set_insights ins g))) as ->.
  { unfold g'. by rewrite enqueue_events_eq. }
  split_and!; [|done..]. pose proof (routes_in n g idx evs Hok) as Hr. destruct Hok.
  constructor; simpl; rewrite ?count_inputs_length; try done.
  apply Forall_app. split; [|done]. by rewrite reverse_Permutation.
Qed.

Lemma pop_ok n g e s :
  graph_ok n g → g_stack g = e :: s → graph_ok n (set_stack s g) ∧ static (set_stack s g) = static g.
Proof.
  intros [] Hs. split; [|done]. constructor; simpl; try done.
  rewrite Hs in *. by inversion ok_stack0.
Qed.

Lemma signalflow_loop_ok n todo g sg has g' r :
  graph_ok n g → Forall (λ i, i < n)%nat todo → signalflow_loop todo g sg has = (g', r) →
  graph_ok n g' ∧ static g' = static g ∧ r ≠ Err EUndefined ∧
  ∃ new, g_stack g' = new ++ g_stack g ∧ Forall entry_data new.
Proof.
  revert g sg has. induction todo as [|i todo IH]; intros g sg has Hok Htodo; simpl.
  { intros [= <- <-]. split_and!; [done..|]. by exists []. }
  inversion Htodo as [|? ? Hi Htodo']; subst.
  destruct (lookup_lt_is_Some_2 (g_graph g) i) as [nd Hnd]; [by rewrite (ok_graph _ _ Hok)|].
  destruct (lookup_lt_is_Some_2 (g_state g) i) as [st Hst]; [by rewrite (ok_state _ _ Hok)|].
  rewrite Hnd, Hst. unfold node_on_signal.
  destruct (on_signal (node_uid nd) st sg (node_op nd)) as [[[o st'] sg'] r0] eqn:Ho.
  assert (I (node_op nd)) as HI.
  { eapply Forall_lookup_1 in Hnd; [exact Hnd|by apply Hok]. }
  destruct (on_signal_data _ _ _ _ _ _ _ _ HI Ho) as (HIo & Hne & Hdata).
  destruct (put_node_ok n g i nd o st' Hok Hnd HIo) as [Hok1 Hst1].
  destruct r0 as [ei|e].
  2: { intros [= <- <-]. split_and!; [done|done|congruence|]. by exists []. }
  set (g1 := put_node i (set_op o nd) st' g) in *.
  destruct (update_ok n g1 (g_metrics g1) 
    (g_insights g1 ++ ((λ cf, (i, cf)) <$> EventAndInsights.insights ei)) i
    (EventAndInsights.events ei) Hok1 (ok_metrics _ _ Hok1)) as (Hok2 & Hst2 & Hs2).
  intros Hloop. apply IH in Hloop as (? & Hst3 & ? & new & Hs3 & Hnew); [|exact Hok2|done].
  split_and!; [done|exact (eq_trans Hst3 (eq_trans Hst2 Hst1))|done|].
  exists (new ++ reverse (routes g1 i (EventAndInsights.events ei))).
  split; [etrans; [exact Hs3|]; rewrite <-(assoc_L (++)); f_equal; exact Hs2|].
  apply Forall_app. split; [done|]. rewrite reverse_Permutation. apply routes_data. by apply Hdata.
Qed.
(** One round: what is left of the stack, and what was put on it. *)
Definition round_ok n g (e : stack_entry) (s : list stack_entry) g' (r : result bool) : Prop :=
  graph_ok n g' ∧ static g' = static g ∧ r ≠ Err EUndefined ∧
  (∀ b, r = Ok b → b = negb (bool_decide (g_stack g' = []))) ∧
  ∃ new, g_stack g' = new ++ s ∧ Forall entry_data new ∧
    ∀ rank, acyclic rank g → entry_data e →
      Forall (λ x, rank (entry_node x) < rank (entry_node e))%nat new.

Lemma node_step_ok n g idx port event nd st g' r :
  graph_ok n g → g_graph g !! idx = Some nd → Event.kind event = None →
  node_step idx port event nd st g = (g', r) →
  round_ok n g (idx, port, event) (g_stack g) g' r.
Proof.
  intros Hok Hnd Hk. unfold node_step, node_on_event.
  destruct (on_event (node_uid nd) port st event (node_op nd)) as [[o st'] r0] eqn:Ho.
  assert (I (node_op nd)) as HI.
  { eapply Forall_lookup_1 in Hnd; [exact Hnd|by apply Hok]. }
  destruct (on_event_data _ _ _ _ _ _ _ _ HI Hk Ho) as (HIo & Hne & Hdata).
  destruct (put_node_ok n g idx nd o st' Hok Hnd HIo) as [Hok1 Hst1].
  destruct r0 as [ei|err].
  2: { intros [= <- <-]. split_and!; [done|done|congruence|done|]. exists [].
       split_and!; [done|done|]. intros. apply Forall_nil_2. }
  set (g1 := put_node idx (set_op o nd) st' g) in *.
  set (evs := EventAndInsights.events ei) in *.
  assert (length (foldl (λ ms pe, alter (NodeMetrics.inc_output pe.1) idx ms) (g_metrics g1) evs) = n)
    as Hlen by (rewrite count_outputs_length; apply Hok1).
  destruct (update_ok n g1 _ (g_insights g1 ++ ((λ i, (idx, i)) <$> EventAndInsights.insights ei))
              idx evs Hok1 Hlen) as (Hok2 & Hst2 & Hs2).
  intros [= <- <-]. split_and!.
  - exact Hok2.
  - exact (eq_trans Hst2 Hst1).
  - done.
  - by intros b [= <-].
  - exists (reverse (routes g1 idx evs)). split_and!; [exact Hs2|..].
    + rewrite reverse_Permutation. apply routes_data. by apply Hdata.
    + intros rank Hac _. rewrite reverse_Permutation. by apply (routes_rank rank g1).
Qed.

Lemma next_ok n g rs e s g' rs' r :
  graph_ok n g → g_stack g = e :: s → next g rs = (g', rs', r) → round_ok n g e s g' r.
Proof.
  intros Hok Hs. unfold next. rewrite Hs. destruct e as [[idx port] event].
  destruct (pop_ok n g _ s Hok Hs) as [Hokp Hstp].
  assert (idx < n)%nat as Hidx.
  { pose proof (ok_stack _ _ Hok) as Hst. rewrite Hs in Hst. by inversion Hst. }
  set (gp := set_stack s g) in *.
  case_bool_decide as Hkind.
  - destruct (signalflow event gp) as [g1 r1] eqn:Hsig.
    apply (signalflow_loop_ok n) in Hsig as (Hok1 & Hst1 & Hne & new & Hnew & Hdata);
      [|done|by apply Hokp].
    assert (∃ new, g_stack g1 = new ++ s ∧ Forall entry_data new ∧
      ∀ rank, acyclic rank g → entry_data (idx, port, event) →
      Forall (λ x, rank (entry_node x) < rank (entry_node (idx, port, event)))%nat new) as Hex.
    { exists new. split_and!; [done..|]. intros rank _ Hnone. exfalso.
      change (Event.kind event = None) in Hnone. rewrite Hnone in Hkind. by destruct Hkind. }
    destruct r1 as [b|err]; intros [= <- <- <-]; split_and!;
      try done; try congruence. by intros ? [= <-].
  - assert (Event.kind event = None) as Hk by (by apply eq_None_not_Some).
    destruct (lookup_lt_is_Some_2 (g_graph gp) idx) as [nd Hnd]; [by rewrite (ok_graph _ _ Hokp)|].
    destruct (lookup_lt_is_Some_2 (g_state gp) idx) as [st Hst]; [by rewrite (ok_state _ _ Hokp)|].
    rewrite Hnd, Hst. destruct (node_step idx port event nd st gp) as [g1 r1] eqn:Hstep.
    pose proof (node_step_ok n gp idx port event nd st g1 r1 Hokp Hnd Hk Hstep) as Hround.
    assert (round_ok n g (idx, port, event) s gp (more gp)) as Hout.
    { split_and!; [done|done|done|by intros ? [= <-]|]. exists [].
      split_and!; [done|done|]. intros. apply Forall_nil_2. }
    by destruct (node_kind nd); intros [= <- <- <-].
Qed.

(** *** Termination *)

Lemma static_ports g g' : static g' = static g → g_port_indexes g' = g_port_indexes g.
Proof. unfold static. by intros [=]. Qed.

Lemma static_acyclic rank g g' : static g' = static g → acyclic rank g → acyclic rank g'.
Proof. intros Hst. unfold acyclic. by rewrite (static_ports _ _ Hst). Qed.

(** Entries are ranked by their node; signals are above all nodes. *)
Definition entry_rank (rank : nat → nat) (n : nat) (e : stack_entry) : nat :=
  if bool_decide (entry_data e) then rank (entry_node e)
  else S (max_list (rank <$> seq 0 n)).

Lemma entry_rank_bound rank n e :
  (entry_node e < n)%nat → entry_data e →
  (entry_rank rank n e < S (max_list (rank <$> seq 0 n)))%nat.
Proof.
  intros He Hd. unfold entry_rank. rewrite bool_decide_eq_true_2 by done.
  apply Nat.lt_succ_r, max_list_elem_of_le, list_elem_of_fmap.
  eexists. split; [done|]. apply elem_of_seq. lia.
Qed.

Lemma round_lower n rank g e s g' r :
  acyclic rank g → round_ok n g e s g' r →
  lower (entry_rank rank n <$> g_stack g') (entry_rank rank n e :: (entry_rank rank n <$> s)).
Proof.
  intros Hac (Hok & _ & _ & _ & new & Hs & Hdata & Hrank).
  exists (entry_rank rank n e), (entry_rank rank n <$> s), (entry_rank rank n <$> new).
  split_and!; [done|by rewrite Hs, fmap_app|]. apply Forall_fmap, Forall_forall.
  intros x Hx. simpl.
  assert (entry_data x) as Hdx by by eapply Forall_forall in Hdata.
  unfold entry_rank at 2. case_bool_decide as He.
  - specialize (Hrank rank Hac He). rewrite Forall_forall in Hrank.
    unfold entry_rank. rewrite bool_decide_eq_true_2 by done. by apply Hrank.
  - apply entry_rank_bound; [|done].
    pose proof (ok_stack _ _ Hok) as Hin. rewrite Hs, Forall_forall in Hin.
    apply Hin, elem_of_app. by left.
Qed.

Definition run_done n g (res : option (ExecutableGraph Op * returns * result unit)) : Prop :=
  ∃ g' rs' r, res = Some (g', rs', r) ∧ graph_ok n g' ∧ static g' = static g ∧
    g_stack g' = [] ∧ r ≠ Err EUndefined.

Lemma clear_ok n g : graph_ok n g → graph_ok n (set_stack [] g).
Proof. intros []. constructor; simpl; try done. Qed.

Lemma run_terminates n rank g rs :
  graph_ok n g → acyclic rank g → ∃ fuel, ∀ fuel', (fuel ≤ fuel')%nat → run_done n g (run fuel' g rs).
Proof.
  remember (entry_rank rank n <$> g_stack g) as l eqn:Hl.
  revert g rs Hl. induction (lower_wf l) as [l _ IH]. intros g rs Hl Hok Hac.
  destruct (g_stack g) as [|e s] eqn:Hs.
  - exists 1%nat. intros [|fuel'] Hf; [lia|]. simpl. unfold next. rewrite Hs.
    eexists _, _, _. split_and!; [done..|congruence].
  - destruct (next g rs) as [[g1 rs1] r1] eqn:Hnext.
    pose proof (next_ok n g rs e s g1 rs1 r1 Hok Hs Hnext) as Hround.
    pose proof (round_lower n rank g e s g1 r1 Hac Hround) as Hlower.
    destruct Hround as (Hok1 & Hst1 & Hne & Hmore & _).
    destruct r1 as [[]|err].
    + destruct (IH _ ltac:(rewrite Hl; exact Hlower) g1 rs1 eq_refl Hok1)
        as [fuel Hfuel]; [by eapply static_acyclic|].
      exists (S fuel). intros [|fuel'] Hf; [lia|]. simpl. rewrite Hnext.
      destruct (Hfuel fuel') as (g' & rs' & r & ? & ? & ? & ? & ?); [lia|].
      exists g', rs', r. split_and!; try done. congruence.
    + exists 1%nat. intros [|fuel'] Hf; [lia|]. simpl. rewrite Hnext.
      specialize (Hmore _ eq_refl). symmetry in Hmore.
      apply negb_false_iff, bool_decide_eq_true in Hmore.
      by eexists _, _, _.
    + exists 1%nat. intros [|fuel'] Hf; [lia|]. simpl. rewrite Hnext.
      eexists _, _, _. split_and!; [done|by apply (clear_ok n g1)|done|done|congruence].
Qed.

Lemma push_ok n g e : graph_ok n g → (entry_node e < n)%nat → graph_ok n (push e g).
Proof. intros [] He. constructor; simpl; try done. by constructor. Qed.

Lemma push_all_ok n g ingest (vs : list value) :
  graph_ok n g →
  let g' := foldl (λ g v, push (g_metrics_idx g, IN, metric_event ingest v) g) g vs in
  graph_ok n g' ∧ static g' = static g.
Proof.
  revert g. induction vs as [|v vs IH]; intros g Hok; simpl; [done|].
  apply (IH (push _ g)). apply push_ok; [done|by apply Hok].
Qed.

Lemma metrics_loop_ok `{!hash_order string} n name tags ingest i ms g :
  graph_ok n g →
  graph_ok n (metrics_loop name tags ingest i ms g) ∧
  static (metrics_loop name tags ingest i ms g) = static g.
Proof.
  revert i tags g. induction ms as [|m ms IH]; intros i tags g Hok; simpl; [done|].
  destruct (g_graph g !! i) as [nd|]; [|done].
  destruct (NodeMetrics.to_value _ _ _ _) as [vals tags'].
  destruct (push_all_ok n g ingest
    (match node_metrics (<["node" := VString (node_id nd)]> tags) ingest nd with
     | Ok vs => vs | Err _ => [] end ++ vals) Hok) as [Hok' Hst].
  destruct (IH (S i) tags' _ Hok') as [? Hst']. split; [done|by rewrite Hst'].
Qed.

Lemma static_inputs g g' : static g' = static g → g_inputs g' = g_inputs g ∧ g_id g' = g_id g.
Proof. unfold static. by intros [=]. Qed.

(** The graph as [enqueue] leaves it before it looks for the input. *)
Definition after_metrics `{!hash_order string} (event : Event.t) g : ExecutableGraph Op :=
  if metrics_due event g then
    set_last_metrics (Event.ingest_ns event)
      (enqueue_metrics "events" {["pipeline" := VString (g_id g)]} (Event.ingest_ns event) g)
  else g.

Lemma after_metrics_ok `{!hash_order string} n event g :
  graph_ok n g → graph_ok n (after_metrics event g) ∧ static (after_metrics event g) = static g.
Proof.
  intros Hok. unfold after_metrics. destruct (metrics_due event g); [|done].
  destruct (metrics_loop_ok n "events" {["pipeline" := VString (g_id g)]} (Event.ingest_ns event)
    0 (g_metrics g) g Hok) as [[] Hst]. by split; [constructor|].
Qed.
End graph_facts.
