(* ===== verification/Grouper.v ===== *)
(** The bucket grouper: tremor-pipeline/src/op/grouper/bucket.rs.

    Events of a class are limited per dimension.  The cache of the windows
    (crate lru) and the sliding windows (crate window) are classes: of the
    cache its documented behaviour is assumed, of the windows nothing. *)
From S2P Require Import Prelude Value EventIds Event OpsBasic Graph.

(** [LruCache<String, V>]: [lru_get] is [get_mut], [lru_set] a change through
    the reference it returns. *)
Class lru_cache (V C : Type) := {
  lru_new : N → C;
  lru_get : string → C → option V * C;
  lru_set : string → V → C → C;
  lru_put : string → V → C → C;

  lru_cap : C → N;
  lru_contents : C → gmap string V;

  lru_new_spec n : lru_cap (lru_new n) = n ∧ lru_contents (lru_new n) = ∅;
  lru_get_spec k c :
    (lru_get k c).1 = lru_contents c !! k ∧
    lru_cap (lru_get k c).2 = lru_cap c ∧ lru_contents (lru_get k c).2 = lru_contents c;
  lru_set_spec k v c : is_Some (lru_contents c !! k) →
    lru_cap (lru_set k v c) = lru_cap c ∧ lru_contents (lru_set k v c) = <[k := v]> (lru_contents c);
  lru_put_spec k v c : (0 < lru_cap c)%N →
    lru_cap (lru_put k v c) = lru_cap c ∧
    ∃ gone, lru_contents (lru_put k v c) = <[k := v]> (gone (lru_contents c)) ∧
      ((N.of_nat (size (lru_contents c)) < lru_cap c)%N → gone (lru_contents c) = lru_contents c) ∧
      ∃ old, gone (lru_contents c) = lru_contents c ∨ gone (lru_contents c) = delete old (lru_contents c);
}.

(** [TimeWindow::new] and [inc_t], which is false when the window is full. *)
Class time_window (W : Type) := {
  tw_new : usize → u64 → u64 → W;
  tw_inc : u64 → W → W * bool;
}.

(** [Value::encode] *)
Class json_writer := { encode_json : value → string }.

Module Grouper.
Section grouper.
Context {W C : Type} `{!time_window W, !lru_cache W C, !json_writer, !value_trait, !hash_order string}.


Record Rate := mk_rate { rate : u64; time_range : u64; windows : usize }.

(** [Rate::from_meta] *)
Definition from_meta (meta : value) : option Rate :=
  rate ← value_get meta "rate" ≫= as_u64;
  let time_range := default 1000%N (get_u64 meta "time_range") in
  let windows := default 100%N (get_usize meta "windows") in
  Some (mk_rate rate time_range windows).

Record Bucket := mk_bucket { cache : C; pass : u64; overflow : u64 }.
Definition new_bucket (cardinality : usize) : Bucket := mk_bucket (lru_new cardinality) 0 0.

Record t := mk { buckets : gmap string Bucket; id_ : string }.
Definition set_bucket (class : string) (b : Bucket) (self : t) : t :=
  mk (<[class := b]> (buckets self)) (id_ self).

(** [BucketGrouperFactory]: it takes no configuration. *)
Definition from_node (node_id : string) (has_config : bool) : result t :=
  if has_config then Err (EExtraOpConfig node_id) else Ok (mk ∅ node_id).

(** [window.inc_t] and what follows. *)
Definition count (dimensions : string) (window : W) (event : Event.t) (b : Bucket) :
    Bucket * EventAndInsights.t :=
  let '(window, ok) := tw_inc (Event.ingest_ns event) window in
  let cache := lru_set dimensions window (cache b) in
  if ok then (mk_bucket cache (u64_add (pass b) 1) (overflow b), EventAndInsights.from_event event)
  else (mk_bucket cache (pass b) (u64_add (overflow b) 1), EventAndInsights.from_events [(OVERFLOW, event)]).

(** An event in its bucket. Without windows the code divides by zero. *)
Definition in_bucket (meta : value) (event : Event.t) (b : Bucket) : Bucket * result EventAndInsights.t :=
  let d := default const_null (value_get meta "dimensions") in
  let dimensions := encode_json d in
  match lru_get dimensions (cache b) with
  | (Some window, c) =>
    let '(b, r) := count dimensions window event (mk_bucket c (pass b) (overflow b)) in (b, Ok r)
  | (None, c) =>
    let b := mk_bucket c (pass b) (overflow b) in
    match from_meta meta with
    | None => (b, Ok (EventAndInsights.from_events [(ERR, event)]))
    | Some r =>
      if (windows r =? 0)%N then (b, Err (EPanic "attempt to divide by zero"))
      else
        let window := tw_new (windows r) (time_range r / windows r)%N (rate r) in
        match lru_get dimensions (lru_put dimensions window c) with
        | (Some g, c) =>
          let '(b, r) := count dimensions g event (mk_bucket c (pass b) (overflow b)) in (b, Ok r)
        | (None, c) => (mk_bucket c (pass b) (overflow b), Err (EPanic "unreachable"))
        end
    end
  end.

Definition on_event (_ : N) (_ : string) (state : value) (event : Event.t) (self : t) :
    t * value * result EventAndInsights.t :=
  let meta := Event.payload_meta event in
  match get_str meta "class" with
  | Some class =>
    let b := match buckets self !! class with
             | Some b => b
             | None => new_bucket (default 1000%N (get_usize meta "cardinality"))
             end in
    let '(b, r) := in_bucket meta event b in
    (set_bucket class b self, state, r)
  | None => (self, state, Ok (EventAndInsights.from_events [(ERR, event)]))
  end.

(** The two metrics of every class; the tags are passed on. *)
Fixpoint class_metrics (tags : gmap string value) (timestamp : N) (bs : list (string * Bucket)) : list value :=
  match bs with
  | [] => []
  | (class, b) :: bs =>
    let tags := <["action" := VString "pass"]> (<["class" := VString class]> tags) in
    let good := influx_value "bucketing" tags (pass b) timestamp in
    let tags := <["action" := VString "overflow"]> tags in
    good :: influx_value "bucketing" tags (overflow b) timestamp :: class_metrics tags timestamp bs
  end.
Definition metrics (tags : gmap string value) (timestamp : N) (self : t) : result (list value) :=
  Ok (class_metrics tags timestamp (hash_iter (buckets self))).

#[global] Instance operator : Operator t := {
  on_event := on_event;
  handles_signal := default_handles_signal;
  on_signal := default_on_signal;
  handles_contraflow := default_handles_contraflow;
  on_contraflow := default_on_contraflow;
  op_metrics := metrics;
  skippable := default_skippable;
}.
End grouper.
End Grouper.

#[export] Instance grouper_data {W C} `{!time_window W, !lru_cache W C, !json_writer, !value_trait, !hash_order string} :
  data_operator (λ _ : Grouper.t (C := C), True).
Proof.
  split.
  - intros o uid port st e o' st' r _ Hk. simpl. unfold Grouper.on_event.
    destruct (get_str (Event.payload_meta e) "class"); [|intros; simplify_eq; one_event].
    destruct (Grouper.in_bucket _ _ _) as [b' r'] eqn:Hb. intros [= <- <- <-]. revert Hb.
    unfold Grouper.in_bucket, Grouper.count.
    repeat (case_match; simplify_eq); intros; simplify_eq; solve [one_event|by split_and!].
  - intros; simpl in *; unfold default_on_signal in *; simplify_eq. no_events.
  - done.
Qed.

(** ** What a grouper does

    A window for every class and dimension, without a bound on their number. *)
Section spec.
Context {W C : Type} `{!time_window W, !lru_cache W C, !json_writer, !value_trait, !hash_order string}.

Definition class_of (e : Event.t) : option string := get_str (Event.payload_meta e) "class".
Definition dimensions_of (e : Event.t) : string :=
  encode_json (default const_null (value_get (Event.payload_meta e) "dimensions")).
Definition cardinality_of (e : Event.t) : N := default 1000%N (get_usize (Event.payload_meta e) "cardinality").
Definition window_of (e : Event.t) : option W :=
  (λ r, tw_new (Grouper.windows r) (Grouper.time_range r / Grouper.windows r)%N (Grouper.rate r)) <$>
    Grouper.from_meta (Event.payload_meta e).

Definition group_step (m : gmap (string * string) W) (e : Event.t) : gmap (string * string) W * string :=
  match class_of e with
  | None => (m, ERR)
  | Some class =>
    let k := (class, dimensions_of e) in
    match from_option Some (window_of e) (m !! k) with
    | None => (m, ERR)
    | Some w =>
      let '(w, ok) := tw_inc (Event.ingest_ns e) w in (<[k := w]> m, if ok : bool then OUT else OVERFLOW)
    end
  end.
Fixpoint group_ports (m : gmap (string * string) W) (evs : list Event.t) : list string :=
  match evs with
  | [] => []
  | e :: evs => let '(m, port) := group_step m e in port :: group_ports m evs
  end.

(** The dimensions [D] that events use fit into their classes. *)
Definition fits (D : string → gset string) (e : Event.t) : Prop :=
  match class_of e with
  | None => True
  | Some class =>
    dimensions_of e ∈ D class ∧ (N.of_nat (size (D class)) ≤ cardinality_of e)%N ∧
    ∀ r, Grouper.from_meta (Event.payload_meta e) = Some r → Grouper.windows r ≠ 0%N
  end.

(** A bucket holds the windows of its class. *)
Definition bucket_ok (D : gset string) (b : Grouper.Bucket (C := C)) (m : string → option W) : Prop :=
  (∀ d, lru_contents (Grouper.cache b) !! d = m d) ∧ dom (lru_contents (Grouper.cache b)) ⊆ D ∧
  (N.of_nat (size D) ≤ lru_cap (Grouper.cache b))%N.
Definition grouper_ok (D : string → gset string) (o : Grouper.t (C := C)) (m : gmap (string * string) W) : Prop :=
  ∀ c, match Grouper.buckets o !! c with
       | Some b => bucket_ok (D c) b (λ d, m !! (c, d))
       | None => ∀ d, m !! (c, d) = None
       end.

(** Counting an event in a window of the bucket. *)
Lemma count_ok D b m d w e :
  bucket_ok D b m → lru_contents (Grouper.cache b) !! d = Some w →
  ∃ b' w' ok, tw_inc (Event.ingest_ns e) w = (w', ok) ∧
    Grouper.count d w e b = (b', EventAndInsights.from_events [(if ok : bool then OUT else OVERFLOW, e)]) ∧
    bucket_ok D b' (λ d', if decide (d = d') then Some w' else m d').
Proof.
  intros (Hm & Hd & Hc) Hw. unfold Grouper.count. destruct (tw_inc _ _) as [w' ok].
  destruct (lru_set_spec d w' (Grouper.cache b)) as [Hcap Hset]; [by eexists|].
  assert (∀ p o, bucket_ok D (Grouper.mk_bucket (lru_set d w' (Grouper.cache b)) p o)
    (λ d', if decide (d = d') then Some w' else m d')) as Hok.
  2: { destruct ok; [eexists _, w', true|eexists _, w', false]; split_and!; try done; apply Hok. }
  intros p o. split_and!; simpl.
  - intros d'. rewrite Hset. case_decide; [subst; by rewrite lookup_insert_eq|by rewrite lookup_insert_ne].
  - rewrite Hset, dom_insert_lookup_L; [done|by eexists].
  - by rewrite Hcap.
Qed.

Lemma in_bucket_ok D b m e :
  bucket_ok D b m → dimensions_of e ∈ D →
  (∀ r, Grouper.from_meta (Event.payload_meta e) = Some r → Grouper.windows r ≠ 0%N) →
  let d := dimensions_of e in
  match from_option Some (window_of e) (m d) with
  | None => ∃ b', Grouper.in_bucket (Event.payload_meta e) e b = (b', Ok (EventAndInsights.from_events [(ERR, e)])) ∧
      bucket_ok D b' m
  | Some w => ∃ b' w' ok, tw_inc (Event.ingest_ns e) w = (w', ok) ∧
      Grouper.in_bucket (Event.payload_meta e) e b =
        (b', Ok (EventAndInsights.from_events [(if ok : bool then OUT else OVERFLOW, e)])) ∧
      bucket_ok D b' (λ d', if decide (d = d') then Some w' else m d')
  end.
Proof.
  intros (Hm & Hd & Hc) Hin Hwin d. unfold Grouper.in_bucket. fold (dimensions_of e). fold d.
  destruct (lru_get_spec (V := W) d (Grouper.cache b)) as (Hget & Hcap & Hcont).
  destruct (lru_get d (Grouper.cache b)) as [o c]. simpl in *. subst o. rewrite Hm.
  destruct (m d) as [w|] eqn:Hmd; simpl.
  - destruct (count_ok D (Grouper.mk_bucket c (Grouper.pass b) (Grouper.overflow b)) m d w e)
      as (b' & w' & ok & Hinc & Hcount & Hok).
    { split_and!; simpl; by rewrite ?Hcont, ?Hcap. }
    { simpl. by rewrite Hcont, Hm. }
    exists b', w', ok. by rewrite Hcount.
  - unfold window_of. destruct (Grouper.from_meta _) as [r|]; simpl.
    2: { eexists. split; [done|]. split_and!; simpl; by rewrite ?Hcont, ?Hcap. }
    specialize (Hwin r eq_refl). apply N.eqb_neq in Hwin as ->.
    set (w := tw_new _ _ _).
    assert (lru_contents (Grouper.cache b) !! d = None) as Hnone by by rewrite Hm.
    assert (N.of_nat (size (lru_contents (Grouper.cache b))) < lru_cap (Grouper.cache b))%N as Hroom.
    { assert (size (dom (lru_contents (Grouper.cache b))) < size D)%nat as Hlt; [|rewrite size_dom in Hlt; lia].
      apply subset_size. split; [done|]. intros Hsub. apply Hsub, elem_of_dom in Hin as [x Hx].
      fold d in Hx. by rewrite Hnone in Hx. }
    destruct (lru_put_spec d w c) as (Hcap' & gone & Hput & Hkeep & _); [lia|].
    rewrite Hkeep, Hcont in Hput by (rewrite Hcont; lia).
    destruct (lru_get_spec (V := W) d (lru_put d w c)) as (Hget & Hcap2 & Hcont2).
    destruct (lru_get d (lru_put d w c)) as [o c2]. simpl in *. subst o.
    rewrite Hput, lookup_insert_eq.
    destruct (count_ok D (Grouper.mk_bucket c2 (Grouper.pass b) (Grouper.overflow b))
      (λ d', if decide (d = d') then Some w else m d') d w e) as (b' & w' & ok & Hinc & Hcount & Hok).
    { split_and!; simpl.
      - intros d'. rewrite Hcont2, Hput.
        case_decide; [subst; by rewrite lookup_insert_eq|by rewrite lookup_insert_ne].
      - rewrite Hcont2, Hput, dom_insert_L. apply union_subseteq. split; [by apply singleton_subseteq_l|done].
      - by rewrite Hcap2, Hcap', Hcap. }
    { simpl. by rewrite Hcont2, Hput, lookup_insert_eq. }
    exists b', w', ok. rewrite Hcount. split_and!; [done..|].
    destruct Hok as (H1 & H2 & H3). split_and!; [|done..]. intros d'. rewrite H1. by case_decide.
Qed.
Lemma grouper_step D o m e uid port st :
  grouper_ok D o m → fits D e →
  let '(m', out) := group_step m e in
  ∃ o', Grouper.on_event uid port st e o = (o', st, Ok (EventAndInsights.from_events [(out, e)])) ∧
    grouper_ok D o' m'.
Proof.
  intros Hok Hfit. unfold group_step, Grouper.on_event. unfold fits in Hfit.
  destruct (class_of e) as [class|] eqn:Hclass; unfold class_of in Hclass; rewrite Hclass.
  2: { by exists o. }
  destruct Hfit as (Hin & Hcard & Hwin).
  set (b := match Grouper.buckets o !! class with Some b => b | None => _ end).
  assert (bucket_ok (D class) b (λ d, m !! (class, d))) as Hb.
  { specialize (Hok class). subst b. destruct (Grouper.buckets o !! class); [done|].
    destruct (lru_new_spec (V := W) (cardinality_of e)) as [Hcap Hcont].
    unfold Grouper.new_bucket. fold (cardinality_of e). split_and!; simpl.
    - intros d. by rewrite Hcont, Hok, lookup_empty.
    - rewrite Hcont, dom_empty_L. apply empty_subseteq.
    - by rewrite Hcap. }
  pose proof (in_bucket_ok (D class) b _ e Hb Hin Hwin) as Hib. simpl in Hib.
  assert (∀ b' (m' : gmap (string * string) W),
    bucket_ok (D class) b' (λ d, m' !! (class, d)) → (∀ c d, c ≠ class → m' !! (c, d) = m !! (c, d)) →
    grouper_ok D (Grouper.set_bucket class b' o) m') as Hset.
  { intros b' m' Hb' Hm' c. simpl. destruct (decide (c = class)) as [->|Hne]; [by rewrite lookup_insert_eq|].
    rewrite lookup_insert_ne by done. specialize (Hok c). destruct (Grouper.buckets o !! c) as [b0|].
    - destruct Hok as (H1 & H2 & H3). split_and!; [|done..]. intros d. by rewrite Hm', H1.
    - intros d. by rewrite Hm'. }
  destruct (from_option Some (window_of e) (m !! (class, dimensions_of e))) as [w|].
  - destruct Hib as (b' & w' & ok & -> & -> & Hb'). eexists. split; [done|]. apply Hset.
    + destruct Hb' as (H1 & H2 & H3). split_and!; [|done..]. intros d. rewrite H1.
      case_decide as Hd; [rewrite <-Hd; by rewrite lookup_insert_eq|].
      rewrite lookup_insert_ne; [done|]. by intros [= ?].
    + intros c d Hc. rewrite lookup_insert_ne; [done|]. by intros [= ?].
  - destruct Hib as (b' & -> & Hb'). eexists. split; [done|]. by apply Hset.
Qed.

Lemma grouper_run D o m evs uid port st :
  grouper_ok D o m → Forall (fits D) evs →
  ∃ o', feed uid port evs st o =
    (o', st, Ok (zip_with (λ out e, EventAndInsights.from_events [(out, e)]) (group_ports m evs) evs)).
Proof.
  intros Hok Hfits. revert o m Hok. induction Hfits as [|e evs He _ IH]; intros o m Hok; [by exists o|].
  cbn [feed group_ports]. change (on_event uid port st e o) with (Grouper.on_event uid port st e o).
  pose proof (grouper_step D o m e uid port st Hok He) as Hs.
  destruct (group_step m e) as [m' out]. destruct Hs as (o' & -> & Hok').
  destruct (IH o' m' Hok') as [o'' ->]. by exists o''.
Qed.
End spec.

(** ** A cache as a list

    The key used last is in front, the last one goes when there is no room. *)
Section list_cache.
Context {V : Type}.
Implicit Types (c : N * list (string * V)).

Definition list_contents c : gmap string V := list_to_map c.2.
Definition list_without (k : string) c : list (string * V) := filter (λ e, e.1 ≠ k) c.2.
Definition list_get (k : string) c : option V * (N * list (string * V)) :=
  match list_contents c !! k with
  | Some v => (Some v, (c.1, (k, v) :: list_without k c))
  | None => (None, c)
  end.
Definition list_set (k : string) (v : V) c : N * list (string * V) := (c.1, (k, v) :: list_without k c).
Definition list_put (k : string) (v : V) c : N * list (string * V) :=
  let rest := list_without k c in
  (c.1, (k, v) :: if (N.of_nat (size (list_to_map rest : gmap string V)) <? c.1)%N then rest else removelast rest).

Lemma list_without_map k c : list_to_map (list_without k c) = delete k (list_contents c).
Proof.
  destruct c as [n l]. unfold list_without, list_contents. simpl.
  induction l as [|[k' v] l IH]; [symmetry; apply delete_empty|].
  rewrite filter_cons. simpl. case_decide as Hk; simpl; rewrite IH.
  - by rewrite delete_insert_ne.
  - subst k'. by rewrite delete_insert_eq.
Qed.

Lemma removelast_map (l : list (string * V)) :
  ∃ old, list_to_map (removelast l) =@{gmap string V} list_to_map l ∨
         list_to_map (removelast l) =@{gmap string V} delete old (list_to_map l).
Proof.
  destruct l as [|[k v] l] using rev_ind; [exists ""%string; by left|].
  exists k. rewrite removelast_last, list_to_map_app. simpl. rewrite insert_empty.
  destruct ((list_to_map l : gmap string V) !! k) as [w|] eqn:Hk.
  - left. apply map_eq. intros i. destruct (decide (i = k)) as [->|Hne].
    + by rewrite (lookup_union_Some_l _ _ _ w), Hk.
    + rewrite lookup_union_l; [done|]. by rewrite lookup_singleton_ne.
  - right. rewrite delete_union, delete_singleton_eq, (right_id_L ∅ (∪)). by rewrite delete_id.
Qed.

Lemma list_put_ok k v c : (0 < c.1)%N →
  (list_put k v c).1 = c.1 ∧
  ∃ gone, list_contents (list_put k v c) = <[k := v]> (gone (list_contents c)) ∧
    ((N.of_nat (size (list_contents c)) < c.1)%N → gone (list_contents c) = list_contents c) ∧
    ∃ old, gone (list_contents c) = list_contents c ∨ gone (list_contents c) = delete old (list_contents c).
Proof.
  intros Hc. split; [done|]. unfold list_put, list_contents at 1. cbn [snd list_to_map foldr fst].
  rewrite list_without_map.
  destruct (N.ltb_spec (N.of_nat (size (delete k (list_contents c)))) c.1) as [Hlt|Hge].
  { exists id. simpl. rewrite list_without_map, insert_delete_eq. split_and!; [done..|]. exists k. by left. }
  assert (size (delete k (list_contents c)) ≤ size (list_contents c))%nat as Hsize.
  { apply map_subseteq_size, delete_subseteq. }
  destruct (removelast_map (list_without k c)) as [old Hold]. rewrite list_without_map in Hold.
  destruct Hold as [Hold|Hold]; [exists id|exists (delete old)]; simpl; rewrite Hold.
  - rewrite insert_delete_eq. split_and!; [done|lia|]. exists k. by left.
  - rewrite delete_delete, insert_delete_eq. split_and!; [done|lia|]. exists old. by right.
Qed.

Definition lru_list : lru_cache V (N * list (string * V)).
Proof.
  refine {|
    lru_new n := (n, []);
    lru_get := list_get;
    lru_set := list_set;
    lru_put := list_put;
    lru_cap c := c.1;
    lru_contents := list_contents;
  |}.
  - done.
  - intros k c. unfold list_get. destruct (list_contents c !! k) as [v|] eqn:Hk; [|done].
    split_and!; [done..|]. unfold list_contents at 1. cbn [snd list_to_map foldr fst]. simpl.
    rewrite list_without_map, insert_delete_eq. by apply insert_id.
  - intros k v c _. split; [done|]. unfold list_contents at 1. simpl. by rewrite list_without_map, insert_delete_eq.
  - apply list_put_ok.
Defined.
End list_cache.

(** C12: a grouper counts every event in a window of its own class and
    dimension, whatever else it gets: it sends the event on unchanged, once,
    to the port that the windows of an unbounded table give for it - as long as
    every class has at most as many dimensions as its cardinality, and no rate
    asks for zero windows, which would be a division by zero. *)
Theorem grouper_refines {W C} `{!time_window W, !lru_cache W C, !json_writer, !value_trait, !hash_order string}
    (D : string → gset string) (evs : list Event.t) (uid : N) (port id : string) (st : value)
    (o : Grouper.t (C := C)) (Hnew : Grouper.from_node id false = Ok o) (Hfits : Forall (fits D) evs) :
  ∃ o', feed uid port evs st o =
    (o', st, Ok (zip_with (λ out e, EventAndInsights.from_events [(out, e)]) (group_ports ∅ evs) evs)).
Proof.
  injection Hnew as <-. apply (grouper_run D); [|done]. intros c. simpl. rewrite lookup_empty. intros d. apply lookup_empty.
Qed.

(** A window that starts anew when its time is over: windows, size of a window
    in milliseconds, limit, start and count. *)
Definition restarting_window : time_window (N * N * N * N) := {|
  tw_new windows size max := (windows * size * 1000000, max, 0, 0)%N;
  tw_inc now '(range, max, start, n) :=
    let '(start, n) := if (start + range <=? now)%N then (now, 0%N) else (start, n) in
    if (n <? max)%N then ((range, max, start, n + 1)%N, true) else ((range, max, start, n), false);
|}.

Module GrouperExample.
#[global] Instance windows : time_window (N * N * N * N) := restarting_window.
#[global] Instance cache : lru_cache (N * N * N * N) (N * list (string * (N * N * N * N))) := lru_list.
#[global] Instance json : json_writer := {| encode_json v := default ""%string (as_str v) |}.
#[global] Instance values : value_trait := simd_value_trait.
#[global] Instance order : hash_order string := some_order string.

Definition meta (dimension : string) : value :=
  VObject {["class"%string := VString "test"; "rate"%string := VStatic (SU64 2);
            "dimensions"%string := VString dimension]}.
Definition event (ns : N) (dimension : string) : Event.t :=
  Event.mk EventId.default (ValueAndMeta.mk (VString "snot") (meta dimension)) ns None None false CbNone ∅ false.
Definition events : list Event.t :=
  [event 1 "a"; event 1 "a"; event 1 "a"; event 2 "b"; event 10000000002 "a"; Event.default].

(** The sequence of the code's own test, with a second dimension. *)
Example ports : group_ports ∅ events = [OUT; OUT; OVERFLOW; OUT; OUT; ERR].
Proof. vm_compute. reflexivity. Qed.

(** No windows: the task panics. *)
Example no_windows : ∃ o,
  Grouper.on_event 0 "in" const_null
    (Event.set_data (ValueAndMeta.mk const_null
      (VObject {["class"%string := VString "test"; "rate"%string := VStatic (SU64 2);
                 "windows"%string := VStatic (SU64 0)]})) Event.default)
    (Grouper.mk ∅ "") = (o, const_null, Err (EPanic "attempt to divide by zero")).
Proof. eexists. vm_compute. reflexivity. Qed.
End GrouperExample.

Lemma grouper_refines_witness :
  ∃ o', feed (Op := Grouper.t) 0 "in" GrouperExample.events const_null (Grouper.mk ∅ "g") =
    (o', const_null, Ok (zip_with (λ out e, EventAndInsights.from_events [(out, e)])
       (group_ports ∅ GrouperExample.events) GrouperExample.events)).
Proof.
  apply (grouper_refines (λ _, {["a"%string; "b"%string]}) GrouperExample.events 0 "in" "g" const_null); [reflexivity|].
  repeat apply Forall_cons_2; try apply Forall_nil_2; try exact I;
    (split; [vm_compute; reflexivity|split; [vm_compute; discriminate|intros r; vm_compute; intros [= <-]; discriminate]]).
Defined.
