(* ===== verification/GraphSpec.v ===== *)
(** What the executable graph promises (tremor-pipeline/src/executable_graph.rs):
    work that is enqueued is finished, every event emitted reaches all its
    connections, and the insights of the contraflow skip the nodes in front of
    their origin. *)
From S2P Require Import Prelude Value EventIds Event OpsBasic Graph.

Section spec.
Context {Op : Type} `{!Operator Op}.
Implicit Types (g : ExecutableGraph Op) (rs : returns).

(** How often an input port of a node was counted. *)
Definition in_count (ms : list NodeMetrics.t) (j : nat) (p : string) : N :=
  from_option (λ m, default 0%N (NodeMetrics.inputs m !! p)) 0%N (ms !! j).

Definition deliveries (es : list stack_entry) (j : nat) (p : string) : nat :=
  length (filter (λ e : stack_entry, e.1 = (j, p)) es).

(** The graph with more work below what is on its stack. *)
Definition frame (t : list stack_entry) g : ExecutableGraph Op := set_stack (g_stack g ++ t) g.

(** The nodes the contraflow visits. *)
Definition contra_visits (skip_to : option nat) (todo : list nat) : list nat :=
  match skip_to with
  | None => todo
  | Some i => from_option (λ k : nat * nat, drop (S k.1) todo) [] (list_find (i =.) todo)
  end.

(** *** Counters *)
Lemma in_count_step ms e j p :
  (entry_node e < length ms)%nat →
  (in_count (count_input ms e) j p mod w64 =
   (in_count ms j p + if bool_decide (e.1 = (j, p)) then 1 else 0) mod w64)%N.
Proof.
  destruct e as [[i q] ev]. unfold entry_node, in_count, count_input. simpl. intros Hi.
  destruct (lookup_lt_is_Some_2 ms i Hi) as [m Hm].
  destruct (decide (i = j)) as [->|Hne].
  - rewrite list_lookup_alter, decide_True by done. rewrite Hm. simpl.
    unfold NodeMetrics.inc_n. destruct (decide (q = p)) as [->|Hq].
    + rewrite lookup_insert, decide_True by done. simpl. rewrite bool_decide_eq_true_2 by done.
      unfold u64_add. rewrite N.Div0.mod_mod. by destruct (NodeMetrics.inputs m !! p).
    + rewrite lookup_insert_ne by done. rewrite bool_decide_eq_false_2 by congruence.
      by rewrite N.add_0_r.
  - rewrite list_lookup_alter, decide_False by done.
    rewrite bool_decide_eq_false_2 by congruence. by rewrite N.add_0_r.
Qed.

Lemma in_count_all ms es j p :
  Forall (λ e, entry_node e < length ms)%nat es →
  (in_count (foldl count_input ms es) j p mod w64 =
   (in_count ms j p + N.of_nat (deliveries es j p)) mod w64)%N.
Proof.
  unfold deliveries. revert ms. induction es as [|e es IH]; intros ms Hall; simpl.
  { by rewrite N.add_0_r. }
  inversion Hall as [|? ? He Hes]; subst. rewrite IH.
  2: { unfold count_input. by rewrite length_alter. }
  rewrite <-N.Div0.add_mod_idemp_l, in_count_step by done.
  rewrite N.Div0.add_mod_idemp_l. f_equal. rewrite filter_cons.
  case_bool_decide; case_decide; try done; simpl; lia.
Qed.

(** *** Framing: nothing looks below the top of the stack *)
Lemma frame_events t idx evs g : enqueue_events idx evs (frame t g) = frame t (enqueue_events idx evs g).
Proof. rewrite !enqueue_events_eq. unfold frame. simpl. by rewrite (assoc_L (++)). Qed.

Lemma frame_signalflow t todo g sg has g' r :
  signalflow_loop todo g sg has = (g', r) →
  signalflow_loop todo (frame t g) sg has = (frame t g', r).
Proof.
  revert g sg has. induction todo as [|i todo IH]; intros g sg has; simpl; [by intros [= <- <-]|].
  destruct (g_graph g !! i) as [nd|]; [|by intros [= <- <-]].
  destruct (g_state g !! i) as [st|]; [|by intros [= <- <-]].
  destruct (node_on_signal (node_uid nd) st sg nd) as [[[o st'] sg'] [ei|e]]; [|by intros [= <- <-]].
  intros Hloop. apply IH in Hloop. by rewrite <-frame_events in Hloop.
Qed.

Lemma frame_step t idx port ev nd st g g' r :
  node_step idx port ev nd st g = (g', r) →
  node_step idx port ev nd st (frame t g) =
  (frame t g', match r with Err e => Err e | Ok _ => more (frame t g') end).
Proof.
  unfold node_step. destruct (node_on_event 0 port st ev nd) as [[o st'] [ei|e]]; intros [= <- <-]; [|done].
  by rewrite <-(frame_events t).
Qed.

Lemma frame_next t g rs g' rs' r :
  g_stack g ≠ [] → next g rs = (g', rs', r) →
  next (frame t g) rs =
  (frame t g', rs', match r with Err e => Err e | Ok _ => more (frame t g') end).
Proof.
  intros Hne. unfold next. change (g_stack (frame t g)) with (g_stack g ++ t).
  destruct (g_stack g) as [|[[idx port] ev] s]; [done|]. simpl.
  set (g1 := set_stack s g).
  change (set_stack (s ++ t) (frame t g)) with (frame t g1).
  case_bool_decide.
  - destruct (signalflow ev g1) as [g2 [b|e]] eqn:Hs;
      apply (frame_signalflow t) in Hs;
      change (signalflow_loop _ (frame t g1) ev false) with (signalflow ev (frame t g1)) in Hs;
      rewrite Hs; by intros [= <- <- <-].
  - destruct (g_graph g !! idx) as [nd|]; [|by intros [= <- <- <-]].
    destruct (g_state g !! idx) as [st|]; destruct (node_kind nd);
      try (by intros [= <- <- <-]);
      destruct (node_step idx port ev nd st g1) as [g2 r2] eqn:Hstep;
      apply (frame_step t) in Hstep; rewrite Hstep; intros [= <- <- <-]; by destruct r2.
Qed.

Lemma next_more g rs g' rs' b :
  g_stack g ≠ [] → next g rs = (g', rs', Ok b) → b = negb (bool_decide (g_stack g' = [])).
Proof.
  intros Hne. unfold next. destruct (g_stack g) as [|[[idx port] ev] s]; [done|].
  set (g1 := set_stack s g). case_bool_decide.
  - destruct (signalflow ev g1) as [g2 [|]]; [by intros [= <- _ <-]|done].
  - destruct (g_graph g1 !! idx) as [nd|]; [|done].
    destruct (g_state g1 !! idx) as [st|]; destruct (node_kind nd);
      try (by intros [=]); try (by intros [= <- _ <-]);
      unfold node_step; destruct (node_on_event 0 port st ev nd) as [[o st'] [ei|e]];
      by intros [= <- _ <-].
Qed.

Lemma frame_run t fuel g rs g' rs' r :
  t ≠ [] → g_stack g ≠ [] → run fuel g rs = Some (g', rs', r) →
  match r with
  | Ok _ => ∃ k, ∀ fuel', run (k + fuel') (frame t g) rs = run fuel' (set_stack t g') (reverse rs')
  | Err _ => run fuel (frame t g) rs = Some (g', rs', r)
  end.
Proof.
  intros Ht. revert g rs. induction fuel as [|fuel IH]; intros g rs Hne; [done|]. simpl.
  destruct (next g rs) as [[g1 rs1] r1] eqn:Hnext.
  pose proof (frame_next t g rs g1 rs1 r1 Hne Hnext) as Hframe. rewrite Hframe.
  assert (more (frame t g1) = Ok true) as Hmore.
  { unfold more, frame. simpl. rewrite bool_decide_eq_false_2; [done|].
    destruct (g_stack g1), t; done. }
  destruct r1 as [b|e]; [rewrite Hmore in *|by intros [= <- <- <-]].
  apply next_more in Hnext; [|done]. case_bool_decide as Hempty; subst b; simpl.
  - intros [= <- <- <-]. exists 1%nat. intros fuel'. simpl. rewrite Hframe, reverse_involutive.
    unfold frame. by rewrite Hempty.
  - intros Hrun. apply IH in Hrun; [|done]. destruct r; [|done].
    destruct Hrun as [k Hk]. exists (S k). intros fuel'. simpl. by rewrite Hframe, Hk.
Qed.

(** A signal flow that reports no events left the stack alone. *)
Lemma signalflow_quiet signal g g' :
  signalflow signal g = (g', Ok false) → g_stack g = [] → g_stack g' = [].
Proof.
  unfold signalflow. generalize (g_signalflow g). intros todo. revert g signal.
  assert (∀ todo g sg has, has = true → (signalflow_loop todo g sg has).2 ≠ Ok false) as Htrue.
  { clear. induction todo as [|i todo IH]; intros g sg has ->; simpl; [done|].
    destruct (g_graph g !! i) as [nd|], (g_state g !! i) as [st|]; try done.
    destruct (node_on_signal (node_uid nd) st sg nd) as [[[o st'] sg'] [ei|e]]; [by apply IH|done]. }
  induction todo as [|i todo IH]; intros g sg; simpl; [by intros [= <-]|].
  destruct (g_graph g !! i) as [nd|], (g_state g !! i) as [st|]; try done.
  destruct (node_on_signal (node_uid nd) st sg nd) as [[[o st'] sg'] [ei|e]]; [|done].
  case_bool_decide as Hev; simpl.
  - rewrite Hev. intros Hloop Hs. by apply IH in Hloop.
  - intros Hloop. destruct (Htrue _ _ _ _ eq_refl (f_equal snd Hloop)).
Qed.

(** *** Contraflow *)
Lemma contraflow_drop i todo ins g :
  contraflow_loop todo (Some i) ins g = contraflow_loop (contra_visits (Some i) todo) None ins g.
Proof.
  induction todo as [|j todo IH]; simpl; [done|].
  case_bool_decide; case_decide; try done. rewrite IH. simpl.
  by destruct (list_find (i =.) todo) as [[k x]|].
Qed.

Lemma contraflow_loop_ok (I : Op → Prop) `{!data_operator I} n todo skip ins g :
  graph_ok I n g →
  let g' := (contraflow_loop todo skip ins g).1 in
  graph_ok I n g' ∧ static g' = static g ∧ g_stack g' = g_stack g ∧
  ∀ j, j ∉ contra_visits skip todo → g_graph g' !! j = g_graph g !! j.
Proof.
  intros Hok. assert (∃ l, contraflow_loop todo skip ins g = contraflow_loop l None ins g ∧
    contra_visits skip todo = l) as (l & -> & ->).
  { destruct skip as [i|]; eexists; split; [apply contraflow_drop|done..]. }
  revert g ins Hok. induction l as [|i l IH]; intros g ins Hok; simpl; [done|].
  destruct (g_graph g !! i) as [nd|] eqn:Hnd; [|done].
  destruct (g_state g !! i) as [st|] eqn:Hst.
  2: { apply lookup_ge_None_1 in Hst. apply lookup_lt_Some in Hnd.
       destruct Hok. lia. }
  unfold node_on_contraflow.
  destruct (on_contraflow (node_uid nd) ins (node_op nd)) as [o ins'] eqn:Hcf.
  apply on_contraflow_data in Hcf; [|exact (Forall_lookup_1 _ _ _ _ (ok_ops _ _ _ Hok) Hnd)].
  destruct (put_node_ok I n g i nd o st Hok Hnd Hcf) as [Hok1 Hst1].
  assert (put_node i (set_op o nd) st g = set_graph (<[i:=set_op o nd]> (g_graph g)) g) as Heq.
  { unfold put_node. rewrite list_insert_id by done. by destruct g. }
  rewrite Heq in *. destruct (IH _ ins' Hok1) as (? & Hs & Hk & Hj). split_and!; [done|by rewrite Hs|done|].
  intros j Hin. rewrite not_elem_of_cons in Hin. destruct Hin as [Hji Hin]. rewrite Hj by done. simpl.
  by rewrite list_lookup_insert_ne.
Qed.
End spec.

(** ** A sample pipeline: in, a passthrough and out *)
Module Sample.
Definition node (kind : NodeKind) (id : string) : OperatorNode Passthrough.t :=
  mk_node id kind "passthrough" Passthrough.mk 0.
Definition graph : ExecutableGraph Passthrough.t :=
  mk_graph "sample" [node KInput "in"; node KOperator "pass"; node (KOutput OUT) "out"]
    [const_null; const_null; const_null] {["in" := 0%nat]} [] [] []
    {[(0%nat, OUT) := [(1%nat, IN)]; (1%nat, OUT) := [(2%nat, IN)]]}
    [NodeMetrics.default; NodeMetrics.default; NodeMetrics.default] 2 0 None [].
Definition rank (i : nat) : nat := 3 - i.

Lemma ports_inv i p conns to :
  g_port_indexes graph !! (i, p) = Some conns → to ∈ conns → (i < to.1 < 3)%nat.
Proof.
  simpl. rewrite lookup_insert_Some, lookup_singleton_Some.
  intros [[[= <- <-] <-]|[_ [[= <- <-] <-]]] ->%list_elem_of_singleton; simpl; lia.
Qed.

Lemma graph_acyclic : acyclic rank graph.
Proof. intros i p conns to Hc Hto. pose proof (ports_inv _ _ _ _ Hc Hto). unfold rank. lia. Qed.

Lemma graph_is_ok : graph_ok (λ _, True) 3 graph.
Proof.
  constructor; try done; try (by repeat constructor); try (simpl; lia).
  - intros [i p] conns to Hc Hto. by apply (ports_inv _ _ _ _ Hc Hto).
  - intros s i. simpl. rewrite lookup_singleton_Some. intros [_ <-]. lia.
Qed.
End Sample.

Lemma enqueue_returns {Op} `{!Operator Op} (I : Op → Prop) `{!data_operator I, !hash_order string}
    (n : nat) (rank : nat → nat) (stream : string) (event : Event.t) (g : ExecutableGraph Op) (rs : returns)
    (Hok : graph_ok I n g) (Hac : acyclic rank g) :
  ∃ fuel, ∀ fuel', (fuel ≤ fuel')%nat → ∃ g' rs' r,
    enqueue fuel' stream event g rs = Some (g', rs', r) ∧ graph_ok I n g' ∧ static g' = static g ∧
    r ≠ Err EUndefined ∧
    match g_inputs g !! stream with
    | Some _ => g_stack g' = []
    | None => r = Err (EInvalidInputStreamName stream (g_id g)) ∧ rs' = rs
    end.
Proof.
  unfold enqueue. fold (after_metrics event g).
  destruct (after_metrics_ok I n event g Hok) as [Hok1 Hst1].
  destruct (static_inputs _ _ Hst1) as [-> ->].
  destruct (g_inputs g !! stream) as [i|] eqn:Hi.
  2: { exists 0%nat. intros fuel' _. by eexists _, _, _. }
  assert (graph_ok I n (push (i, IN, event) (after_metrics event g))) as Hok2.
  { apply push_ok; [done|]. by apply (ok_inputs _ _ _ Hok _ _ Hi). }
  destruct (run_terminates I n rank _ rs Hok2) as [fuel Hfuel].
  { by apply (static_acyclic rank g). }
  exists fuel. intros fuel' Hf.
  destruct (Hfuel fuel' Hf) as (g' & rs' & r & -> & Hok' & Hst' & ? & ?).
  exists g', rs', r. split_and!; try done. by rewrite Hst'.
Qed.

Lemma enqueue_signal_returns {Op} `{!Operator Op} (I : Op → Prop) `{!data_operator I}
    (n : nat) (rank : nat → nat) (signal : Event.t) (g : ExecutableGraph Op) (rs : returns)
    (Hok : graph_ok I n g) (Hac : acyclic rank g) :
  ∃ fuel, ∀ fuel', (fuel ≤ fuel')%nat → ∃ g' rs' r,
    enqueue_signal fuel' signal g rs = Some (g', rs', r) ∧ graph_ok I n g' ∧ static g' = static g ∧
    r ≠ Err EUndefined ∧ (g_stack g = [] → r = Ok tt → g_stack g' = []).
Proof.
  unfold enqueue_signal. destruct (signalflow signal g) as [g1 r1] eqn:Hsig.
  pose proof Hsig as Hflow.
  apply (signalflow_loop_ok I n) in Hsig as (Hok1 & Hst1 & Hne & new & Hnew & _); [|done|by apply Hok].
  destruct r1 as [[]|e].
  - destruct (run_terminates I n rank _ rs Hok1) as [fuel Hfuel]; [by apply (static_acyclic rank g)|].
    exists fuel. intros fuel' Hf.
    destruct (Hfuel fuel' Hf) as (g' & rs' & r & -> & Hok' & Hst' & ? & ?).
    exists g', rs', r. split_and!; try done. by rewrite Hst'.
  - exists 0%nat. intros fuel' _. eexists _, _, _. split_and!; [done..|congruence|].
    intros Hs _. by apply (signalflow_quiet signal g).
  - exists 0%nat. intros fuel' _. eexists _, _, _. split_and!; [done..|congruence|done].
Qed.

(** What is in the vector of outputs already does not matter: outputs are
    added behind it, and all are reversed at the end of a run that succeeds. *)
Definition with_outputs (rs new : returns) (r : result unit) : returns :=
  match r with Ok _ => reverse (rs ++ new) | Err _ => rs ++ new end.

Lemma next_returns {Op} `{!Operator Op} (g g' : ExecutableGraph Op) rs rs' r :
  next g rs = (g', rs', r) → ∃ new, ∀ rs0, next g rs0 = (g', rs0 ++ new, r).
Proof.
  intros Hn. assert (∃ new, next g [] = (g', new, r) ∧ ∀ rs0, next g rs0 = (g', rs0 ++ new, r)) as (new & _ & ?);
    [|by exists new].
  revert Hn. unfold next. destruct (g_stack g) as [|[[idx port] ev] st];
    [intros [= <- _ <-]; exists []; split; [done|]; intros; by rewrite app_nil_r|].
  case_bool_decide.
  { destruct (signalflow _ _) as [g1 [b|e]]; intros [= <- _ <-]; exists [];
      (split; [done|]); intros; by rewrite app_nil_r. }
  destruct (g_graph _ !! idx) as [nd|];
    [|intros [= <- _ <-]; exists []; split; [done|]; intros; by rewrite app_nil_r].
  destruct (g_state _ !! idx) as [x|]; destruct (node_kind nd);
    try destruct (node_step _ _ _ _ _ _) as [g1 r1]; intros [= <- _ <-];
    first [by eexists [_]|exists []; split; [done|]; intros; by rewrite app_nil_r].
Qed.

Lemma run_returns {Op} `{!Operator Op} fuel (g g' : ExecutableGraph Op) rs rs' r :
  run fuel g rs = Some (g', rs', r) → ∃ new, ∀ rs0, run fuel g rs0 = Some (g', with_outputs rs0 new r, r).
Proof.
  revert g rs. induction fuel as [|fuel IH]; intros g rs; simpl; [done|].
  destruct (next g rs) as [[g1 rs1] r1] eqn:Hn. apply next_returns in Hn as [new Hn].
  destruct r1 as [[]|e].
  - intros [new2 Hr]%IH. exists (new ++ new2). intros rs0. rewrite Hn, Hr.
    unfold with_outputs. by destruct r; rewrite app_assoc.
  - intros [= <- _ <-]. exists new. intros rs0. by rewrite Hn.
  - intros [= <- _ <-]. exists new. intros rs0. by rewrite Hn.
Qed.

Lemma enqueue_outputs {Op} `{!Operator Op, !hash_order string} fuel input ev (g g' : ExecutableGraph Op) rs rs' r :
  enqueue fuel input ev g rs = Some (g', rs', r) →
  ∃ new, ∀ rs0, enqueue fuel input ev g rs0 = Some (g', with_outputs rs0 new r, r).
Proof.
  unfold enqueue. destruct (g_inputs _ !! input) as [i|]; [apply run_returns|].
  intros [= <- _ <-]. exists []. intros rs0. simpl. by rewrite app_nil_r.
Qed.

(** An error of a known input is one an operator raises. *)
Definition raised_by {O} `{!Operator O} (o : O) (e : error) : Prop :=
  ∃ uid st ev, (∃ port, (on_event uid port st ev o).2 = Err e) ∨ (on_signal uid st ev o).2 = Err e.
Definition raises {O} `{!Operator O} (e : error) : Prop := ∃ o : O, raised_by o e.

Lemma signalflow_raises {Op} `{!Operator Op} signal (g g' : ExecutableGraph Op) e :
  signalflow signal g = (g', Err e) → raises (O := Op) e ∨ e = EUndefined.
Proof.
  unfold signalflow. generalize (g_signalflow g) false. intros todo. revert g signal.
  induction todo as [|i todo IH]; intros g sg has; simpl; [done|].
  destruct (g_graph g !! i) as [nd|]; [|intros [= _ <-]; by right].
  destruct (g_state g !! i) as [st|]; [|intros [= _ <-]; by right].
  unfold node_on_signal.
  destruct (on_signal (node_uid nd) st sg (node_op nd)) as [[[o st'] sg'] [ei|x]] eqn:Ho; [apply IH|].
  intros [= _ ->]. left. exists (node_op nd), (node_uid nd), st, sg. right. by rewrite Ho.
Qed.

Lemma next_raises {Op} `{!Operator Op} (g g' : ExecutableGraph Op) rs rs' e :
  next g rs = (g', rs', Err e) → raises (O := Op) e ∨ e = EUndefined.
Proof.
  unfold next. destruct (g_stack g) as [|[[idx port] ev] st]; [done|]. case_bool_decide.
  { destruct (signalflow _ _) as [g1 [b|x]] eqn:Hs; [done|]. intros [= _ _ <-]. by eapply signalflow_raises. }
  destruct (g_graph _ !! idx) as [nd|]; [|intros [= _ _ <-]; by right].
  destruct (g_state _ !! idx) as [x|]; destruct (node_kind nd); try done; try (intros [= _ _ <-]; by right).
  all: unfold node_step, node_on_event.
  all: destruct (on_event _ _ _ _ (node_op nd)) as [[o st'] [ei|y]] eqn:Ho; intros [= _ _ <-]; left.
  all: eexists (node_op nd), _, _, _; left; eexists; by rewrite Ho.
Qed.

Lemma run_raises {Op} `{!Operator Op} fuel (g g' : ExecutableGraph Op) rs rs' e :
  run fuel g rs = Some (g', rs', Err e) → raises (O := Op) e ∨ e = EUndefined.
Proof.
  revert g rs. induction fuel as [|fuel IH]; intros g rs; simpl; [done|].
  destruct (next g rs) as [[g1 rs1] [[]|x]] eqn:Hn; [apply IH|done|].
  intros [= _ _ <-]. by eapply next_raises.
Qed.

Lemma enqueue_raises {Op} `{!Operator Op, !hash_order string} fuel input ev (g g' : ExecutableGraph Op) rs rs' e :
  enqueue fuel input ev g rs = Some (g', rs', Err e) →
  raises (O := Op) e ∨ e = EUndefined ∨ ∃ s p, e = EInvalidInputStreamName s p.
Proof.
  unfold enqueue. destruct (g_inputs _ !! input) as [i|].
  - intros [?|?]%run_raises; auto.
  - intros [= _ _ <-]. eauto.
Qed.

Lemma enqueue_signal_raises {Op} `{!Operator Op} fuel signal (g g' : ExecutableGraph Op) rs rs' e :
  enqueue_signal fuel signal g rs = Some (g', rs', Err e) → raises (O := Op) e ∨ e = EUndefined.
Proof.
  unfold enqueue_signal. destruct (signalflow signal g) as [g1 [[]|x]] eqn:Hs; [apply run_raises|done|].
  intros [= _ _ <-]. by eapply signalflow_raises.
Qed.

(** More fuel changes nothing. *)
Lemma run_mono {Op} `{!Operator Op} fuel fuel' (g : ExecutableGraph Op) rs x :
  (fuel ≤ fuel')%nat → run fuel g rs = Some x → run fuel' g rs = Some x.
Proof.
  revert fuel' g rs. induction fuel as [|fuel IH]; intros [|fuel'] g rs Hf; simpl; try done; [lia|].
  destruct (next g rs) as [[g1 rs1] [[]|e]]; [|done..]. apply IH. lia.
Qed.

(** C5: a pipeline whose connections form an acyclic graph of operators that
    keep their contract never loops and never reads out of bounds: [enqueue]
    returns for every event (fuel exists, and any larger fuel gives a result
    too), the graph is well formed afterwards, none of its wiring changed, and
    for a known input nothing is left on the stack, also when an operator
    failed. *)
Theorem enqueue_total {Op} `{!Operator Op} (I : Op → Prop) `{!data_operator I, !hash_order string}
    (n : nat) (rank : nat → nat) (stream : string) (event : Event.t) (g : ExecutableGraph Op) (rs : returns)
    (Hok : graph_ok I n g) (Hac : acyclic rank g) :
  ∃ fuel, ∀ fuel', (fuel ≤ fuel')%nat → ∃ g' rs' r,
    enqueue fuel' stream event g rs = Some (g', rs', r) ∧ graph_ok I n g' ∧ static g' = static g ∧
    r ≠ Err EUndefined ∧
    match g_inputs g !! stream with
    | Some _ => g_stack g' = []
    | None => r = Err (EInvalidInputStreamName stream (g_id g)) ∧ rs' = rs
    end.
Proof. by apply (enqueue_returns I n rank). Qed.

Lemma enqueue_total_witness :
  let _ := some_order string in
  ∃ fuel, ∀ fuel', (fuel ≤ fuel')%nat → ∃ g' rs' r,
    enqueue fuel' "in" Event.default Sample.graph [] = Some (g', rs', r) ∧
    graph_ok (λ _, True) 3 g' ∧ static g' = static Sample.graph ∧ r ≠ Err EUndefined ∧ g_stack g' = [].
Proof.
  intros H. exact (enqueue_total (λ _, True) 3 Sample.rank "in" Event.default Sample.graph []
    Sample.graph_is_ok Sample.graph_acyclic).
Defined.

(** C6: signals do not make the graph loop either: [enqueue_signal] returns,
    the graph stays well formed and its wiring is kept, and when it succeeds
    on a graph without pending work nothing is left on the stack. *)
Theorem enqueue_signal_total {Op} `{!Operator Op} (I : Op → Prop) `{!data_operator I}
    (n : nat) (rank : nat → nat) (signal : Event.t) (g : ExecutableGraph Op) (rs : returns)
    (Hok : graph_ok I n g) (Hac : acyclic rank g) :
  ∃ fuel, ∀ fuel', (fuel ≤ fuel')%nat → ∃ g' rs' r,
    enqueue_signal fuel' signal g rs = Some (g', rs', r) ∧ graph_ok I n g' ∧ static g' = static g ∧
    r ≠ Err EUndefined ∧ (g_stack g = [] → r = Ok tt → g_stack g' = []).
Proof. by apply (enqueue_signal_returns I n rank). Qed.

Lemma enqueue_signal_total_witness :
  ∃ fuel, ∀ fuel', (fuel ≤ fuel')%nat → ∃ g' rs' r,
    enqueue_signal fuel' Event.default Sample.graph [] = Some (g', rs', r) ∧
    graph_ok (λ _, True) 3 g' ∧ static g' = static Sample.graph ∧ r ≠ Err EUndefined ∧
    ([] = [] :> list stack_entry → r = Ok tt → g_stack g' = []).
Proof.
  exact (enqueue_signal_total (λ _, True) 3 Sample.rank Event.default Sample.graph []
    Sample.graph_is_ok Sample.graph_acyclic).
Defined.

(** work pushed on top of the stack is finished before anything below it
    is looked at: whatever is below, a run of the work on top takes the same
    steps; when it succeeds the rest is continued with the graph and the
    outputs it left, when it fails the rest is dropped. *)
Theorem run_depth_first {Op} `{!Operator Op} (t : list stack_entry) (fuel : nat)
    (g g' : ExecutableGraph Op) (rs rs' : returns) (r : result unit)
    (Ht : t ≠ []) (Hg : g_stack g ≠ []) (Hrun : run fuel g rs = Some (g', rs', r)) :
  match r with
  | Ok _ => ∃ k, ∀ fuel', run (k + fuel') (frame t g) rs = run fuel' (set_stack t g') (reverse rs')
  | Err _ => run fuel (frame t g) rs = Some (g', rs', r)
  end.
Proof. by apply frame_run. Qed.

Lemma run_depth_first_witness :
  ∃ g' rs' k, run 9 (push (0%nat, IN, Event.default) Sample.graph) [] = Some (g', rs', Ok tt) ∧
    ∀ fuel', run (k + fuel') (frame [(2%nat, IN, Event.default)] (push (0%nat, IN, Event.default) Sample.graph)) [] =
      run fuel' (set_stack [(2%nat, IN, Event.default)] g') (reverse rs').
Proof.
  destruct (run 9 (push (0%nat, IN, Event.default) Sample.graph) []) as [[[g' rs'] [[]|e]]|] eqn:Hrun.
  - assert ([(2%nat, IN, Event.default)] ≠ []) as Ht by done.
    assert (g_stack (push (0%nat, IN, Event.default) Sample.graph) ≠ []) as Hg by (by vm_compute).
    destruct (run_depth_first _ 9 _ _ _ _ _ Ht Hg Hrun) as [k Hk].
    by exists g', rs', k.
  - by vm_compute in Hrun.
  - by vm_compute in Hrun.
Defined.

(** The events a node emits reach every connection of the port they are
    emitted on, once, in the order of the connections (the first on the bottom
    of the stack), with one count per delivery on the port they arrive at, and
    nothing else of the graph changes. *)
Theorem enqueue_events_delivers {Op} `{!Operator Op} (I : Op → Prop) `{!data_operator I} (n idx : nat)
    (evs : list (string * Event.t)) (g : ExecutableGraph Op) (Hok : graph_ok I n g) :
  let g' := enqueue_events idx evs g in
  graph_ok I n g' ∧ static g' = static g ∧ g_graph g' = g_graph g ∧ g_insights g' = g_insights g ∧
  g_stack g' = reverse (routes g idx evs) ++ g_stack g ∧
  ∀ j p, (in_count (g_metrics g') j p mod w64 =
          (in_count (g_metrics g) j p + N.of_nat (deliveries (routes g idx evs) j p)) mod w64)%N.
Proof.
  intros g'. destruct (update_ok I n g (g_metrics g) (g_insights g) idx evs Hok (ok_metrics _ _ _ Hok))
    as (Hok' & Hst' & Hs').
  assert (set_insights (g_insights g) (set_metrics (g_metrics g) g) = g) as Heq by by destruct g.
  rewrite Heq in *. pose proof (routes_in I n g idx evs Hok) as Hr.
  unfold g' in *. split_and!; [done|done| | |done|]; rewrite enqueue_events_eq; [done..|].
  intros j p. apply in_count_all. by rewrite (ok_metrics _ _ _ Hok).
Qed.

Lemma enqueue_events_delivers_witness :
  g_stack (enqueue_events 0 [(OUT, Event.default)] Sample.graph) = [(1%nat, IN, Event.default)] ∧
  in_count (g_metrics (enqueue_events 0 [(OUT, Event.default)] Sample.graph)) 1 IN = 1%N.
Proof.
  destruct (enqueue_events_delivers (λ _, True) 3 0 [(OUT, Event.default)] Sample.graph Sample.graph_is_ok)
    as (_ & _ & _ & _ & Hs & _).
  split; [exact Hs|reflexivity].
Defined.

(** An insight that comes from node [i] is shown to the nodes behind the
    first occurrence of [i] in the contraflow order, in that order, and to no
    others; without an origin it is shown to all, with an origin that is not
    in the order to none. The graph stays well formed and keeps its wiring
    and its pending work. *)
Theorem contraflow_visits {Op} `{!Operator Op} (I : Op → Prop) `{!data_operator I} (n : nat)
    (skip_to : option nat) (insight : Event.t) (g : ExecutableGraph Op) (Hok : graph_ok I n g) :
  let visits := contra_visits skip_to (g_contraflow g) in
  contraflow skip_to insight g = contraflow_loop visits None insight g ∧
  let g' := (contraflow skip_to insight g).1 in
  graph_ok I n g' ∧ static g' = static g ∧ g_stack g' = g_stack g ∧
  ∀ j, j ∉ visits → g_graph g' !! j = g_graph g !! j.
Proof.
  intros visits. split; [|by apply contraflow_loop_ok].
  destruct skip_to as [i|]; [apply contraflow_drop|done].
Qed.

Lemma contraflow_visits_witness :
  contra_visits (Some 2%nat) [2%nat; 1%nat; 0%nat] = [1%nat; 0%nat] ∧
  let g := set_flows [] [2%nat; 1%nat; 0%nat] Sample.graph in
  contraflow (Some 2%nat) Event.default g = contraflow_loop [1%nat; 0%nat] None Event.default g.
Proof.
  split; [reflexivity|]. intros g.
  assert (graph_ok (λ _, True) 3 g) as Hg.
  { destruct Sample.graph_is_ok. constructor; try done. repeat constructor. }
  exact (proj1 (contraflow_visits (λ _, True) 3 (Some 2%nat) Event.default g Hg)).
Defined.
