(* ===== verification/Optimize.v ===== *)
(** [ExecutableGraph::optimize] (tremor-pipeline/src/executable_graph.rs):
    skippable nodes are taken out of the flows, and the connections to them
    are replaced by the connections they have. *)
From S2P Require Import Prelude Value EventIds Event OpsBasic Graph GraphSpec.

Abbreviation port_map := (gmap (nat * string) (list (nat * string))) (only parsing).

Section optimize.
Context {Op : Type} `{!Operator Op, !hash_order string, !hash_order (nat * string)}.
Implicit Types (g : ExecutableGraph Op).

Definition id_skippable (graph : list (OperatorNode Op)) (id : nat) : bool :=
  from_option node_skippable false (graph !! id).

Definition trim_flows g : ExecutableGraph Op :=
  set_flows (filter (λ id, id_skippable (g_graph g) id = false) (g_signalflow g))
    (filter (λ id, id_skippable (g_graph g) id = false) (g_contraflow g)) g.

(** The loop over the inputs; [None] is the early return. *)
Fixpoint shortcut_inputs (ins : list (string * nat)) g : ExecutableGraph Op * option unit :=
  match ins with
  | [] => (g, Some tt)
  | (input_name, target) :: ins =>
    match g_graph g !! target with
    | None => (g, None)
    | Some target_node =>
      let g :=
        if node_skippable target_node then
          match filter (λ e, e.1.1 = target) (hash_iter (g_port_indexes g)) with
          | [(_, [(next_id, next_input)])] =>
              if bool_decide (next_input = input_name)
              then set_inputs (<[input_name := next_id]> (g_inputs g)) g else g
          | _ => g
          end
        else g in
      shortcut_inputs ins g
    end
  end.

Definition skip_node (n : OperatorNode Op) : bool := node_skippable n && kind_skippable (node_kind n).
Definition skippables g : list nat :=
  omap (λ e : nat * OperatorNode Op, if skip_node e.2 then Some e.1 else None)
    (imap pair (g_graph g)).

Definition skip_outputs (id : nat) (ports : port_map) : list (nat * string) :=
  mjoin ((filter (λ e, e.1.1 = id) (hash_iter ports)).*2).
Definition skip_inputs (id : nat) (ports : port_map) : list (nat * string) :=
  (filter (λ e, Exists (λ c : nat * string, c.1 = id) e.2) (hash_iter ports)).*1.

(** The destinations of one input node. *)
Definition redirect (id : nat) (outputs : list (nat * string)) (srcs : list (nat * string)) :
    list (nat * string) :=
  srcs ≫= λ src, if bool_decide (src.1 = id) then outputs else [src].

Fixpoint rewire (id : nat) (outputs : list (nat * string)) (inputs : list (nat * string))
    (ports : port_map) (changed : bool) : port_map * option bool :=
  match inputs with
  | [] => (ports, Some changed)
  | i :: inputs =>
    match ports !! i with
    | None => (ports, None)
    | Some srcs =>
      let changed := changed || existsb (λ src : nat * string, bool_decide (src.1 = id)) srcs in
      rewire id outputs inputs (<[i := redirect id outputs srcs]> (delete i ports)) changed
    end
  end.

Fixpoint skip_all (ids : list nat) (ports : port_map) (changed : bool) : port_map * option bool :=
  match ids with
  | [] => (ports, Some changed)
  | id :: ids =>
    match rewire id (skip_outputs id ports) (skip_inputs id ports) ports changed with
    | (ports, None) => (ports, None)
    | (ports, Some changed) => skip_all ids ports changed
    end
  end.

Definition optimize_ g : ExecutableGraph Op * option bool :=
  let g := trim_flows g in
  match shortcut_inputs (hash_iter (g_inputs g)) g with
  | (g, None) => (g, None)
  | (g, Some _) =>
    let '(ports, r) := skip_all (skippables g) (g_port_indexes g) false in
    (set_port_indexes ports g, r)
  end.

(** [budget] is how often the loop may still run after this round. *)
Fixpoint optimize_loop (budget : nat) g : ExecutableGraph Op * option unit :=
  match optimize_ g with
  | (g, None) => (g, None)
  | (g, Some false) => (g, Some tt)
  | (g, Some true) =>
    match budget with
    | O => (g, None)
    | S budget => optimize_loop budget g
    end
  end.
Definition optimize g : ExecutableGraph Op * option unit := optimize_loop 1000 g.

(** ** What skipping nodes means for the connections *)

(** From a port, through skipped nodes only, to a node that is kept. *)
Inductive leads (skip : nat → Prop) (ports : port_map) : nat * string → nat * string → Prop :=
  | leads_direct from conns to :
      ports !! from = Some conns → to ∈ conns → ¬ skip to.1 → leads skip ports from to
  | leads_via from conns s p q to :
      ports !! from = Some conns → (s, p) ∈ conns → skip s → leads skip ports (s, q) to →
      leads skip ports from to.

Definition ports_acyclic (rank : nat → nat) (ports : port_map) : Prop :=
  ∀ i p conns to, ports !! (i, p) = Some conns → to ∈ conns → (rank to.1 < rank i)%nat.

(** No connection leads to [id]. *)
Definition unconnected (id : nat) (ports : port_map) : Prop :=
  ∀ from conns to, ports !! from = Some conns → to ∈ conns → to.1 ≠ id.

(** *** Removing one node *)

(** The ports after the connections to [id] were replaced. *)
Definition bypassed (id : nat) (ports : port_map) : port_map :=
  redirect id (skip_outputs id ports) <$> ports.

Lemma elem_of_hash_iter {K} `{Countable K} `{!hash_order K} {V} (m : gmap K V) e :
  e ∈ hash_iter m ↔ m !! e.1 = Some e.2.
Proof. destruct e as [k v]. by rewrite hash_iter_perm, elem_of_map_to_list. Qed.

Lemma elem_of_skip_outputs id ports to :
  to ∈ skip_outputs id ports ↔ ∃ q conns, ports !! (id, q) = Some conns ∧ to ∈ conns.
Proof.
  unfold skip_outputs. rewrite list_elem_of_join. split.
  - intros (conns & Hto & ([[i q] l] & -> & Hf)%list_elem_of_fmap).
    apply list_elem_of_filter in Hf as [Hi He]. simpl in *. subst i.
    apply elem_of_hash_iter in He. by exists q, l.
  - intros (q & conns & Hc & Hto). exists conns. split; [done|].
    apply list_elem_of_fmap. exists (id, q, conns). split; [done|].
    apply list_elem_of_filter. split; [done|by apply elem_of_hash_iter].
Qed.

Lemma elem_of_skip_inputs id ports i :
  i ∈ skip_inputs id ports ↔ ∃ conns, ports !! i = Some conns ∧ Exists (λ c : nat * string, c.1 = id) conns.
Proof.
  unfold skip_inputs. rewrite list_elem_of_fmap. split.
  - intros ([j conns] & -> & [He Hj]%list_elem_of_filter). apply elem_of_hash_iter in Hj. by exists conns.
  - intros (conns & Hc & He). exists (i, conns). split; [done|].
    apply list_elem_of_filter. split; [done|by apply elem_of_hash_iter].
Qed.

Lemma skip_inputs_NoDup id ports : NoDup (skip_inputs id ports).
Proof.
  unfold skip_inputs. eapply sublist_NoDup; [|apply fmap_sublist, sublist_filter].
  rewrite (hash_iter_perm _ ports). apply NoDup_fst_map_to_list.
Qed.

Lemma redirect_none id outs srcs : ¬ Exists (λ c : nat * string, c.1 = id) srcs → redirect id outs srcs = srcs.
Proof.
  unfold redirect. induction srcs as [|s srcs IH]; intros Hex; [done|]. cbn.
  rewrite Exists_cons in Hex. rewrite bool_decide_eq_false_2 by tauto. simpl. f_equal. apply IH. tauto.
Qed.

Lemma elem_of_redirect id outs srcs to :
  to ∈ redirect id outs srcs ↔ (to ∈ srcs ∧ to.1 ≠ id) ∨ (to ∈ outs ∧ Exists (λ c : nat * string, c.1 = id) srcs).
Proof.
  unfold redirect. rewrite list_elem_of_bind, Exists_exists. split.
  - intros (src & Hto & Hsrc). case_bool_decide; [right; eauto|].
    apply list_elem_of_singleton in Hto as ->. by left.
  - intros [[Hto Hne]|[Hto (src & Hsrc & He)]].
    + exists to. by rewrite bool_decide_eq_false_2, list_elem_of_singleton.
    + exists src. by rewrite bool_decide_eq_true_2.
Qed.

(** The loop over the inputs rewires exactly them. *)
Lemma rewire_ok id outs ins ports changed :
  NoDup ins →
  (∀ i, i ∈ ins → ∃ conns, ports !! i = Some conns ∧ Exists (λ c : nat * string, c.1 = id) conns) →
  rewire id outs ins ports changed =
  (map_imap (λ i conns, Some (if bool_decide (i ∈ ins) then redirect id outs conns else conns)) ports,
   Some (changed || negb (bool_decide (ins = [])))).
Proof.
  intros Hnd. revert ports changed. induction Hnd as [|i ins Hi Hnd IH]; intros ports changed Hin; simpl.
  - rewrite orb_false_r. f_equal. apply map_eq. intros i. rewrite map_lookup_imap.
    by destruct (ports !! i).
  - destruct (Hin i) as (conns & Hc & Hex); [by left|]. rewrite Hc.
    assert (existsb (λ src : nat * string, bool_decide (src.1 = id)) conns = true) as ->.
    { apply existsb_exists. apply Exists_exists in Hex as (c & ? & ?).
      exists c. rewrite bool_decide_eq_true_2 by done. split; [by apply list_elem_of_In|done]. }
    rewrite insert_delete_eq, IH.
    + f_equal; [|by destruct changed]. apply map_eq. intros j. rewrite !map_lookup_imap.
      destruct (decide (i = j)) as [->|Hne].
      * rewrite lookup_insert, decide_True, Hc by done. simpl.
        rewrite bool_decide_eq_false_2 by done. rewrite bool_decide_eq_true_2; [done|by left].
      * rewrite lookup_insert_ne by done. destruct (ports !! j); [simpl|done].
        f_equal. erewrite bool_decide_ext; [done|]. rewrite elem_of_cons. naive_solver.
    + intros j Hj. rewrite lookup_insert_ne by congruence. apply Hin. by right.
Qed.

Lemma bypass_ok id ports changed :
  rewire id (skip_outputs id ports) (skip_inputs id ports) ports changed =
  (bypassed id ports, Some (changed || negb (bool_decide (skip_inputs id ports = [])))).
Proof.
  rewrite rewire_ok; [|apply skip_inputs_NoDup|by intros i ?%elem_of_skip_inputs].
  f_equal. apply map_eq. intros i. unfold bypassed. rewrite map_lookup_imap, lookup_fmap.
  destruct (ports !! i) as [conns|] eqn:Hc; simpl; [|done]. f_equal.
  case_bool_decide as Hi; [done|]. symmetry. apply redirect_none. intros Hex.
  apply Hi, elem_of_skip_inputs. by exists conns.
Qed.

Lemma elem_of_bypassed id ports from conns to :
  bypassed id ports !! from = Some conns → to ∈ conns →
  ∃ conns0, ports !! from = Some conns0 ∧
    ((to ∈ conns0 ∧ to.1 ≠ id) ∨ (to ∈ skip_outputs id ports ∧ ∃ p, (id, p) ∈ conns0)).
Proof.
  unfold bypassed. rewrite lookup_fmap. intros (conns0 & -> & Hc)%fmap_Some Hto.
  rewrite Hc in Hto. apply elem_of_redirect in Hto. exists conns0. split; [done|].
  destruct Hto as [|[? ([i p] & ? & ?)%Exists_exists]]; [by left|right].
  split; [done|]. exists p. simpl in *. by subst i.
Qed.

Lemma bypassed_keep id ports from conns to :
  ports !! from = Some conns → to ∈ conns → to.1 ≠ id →
  ∃ conns', bypassed id ports !! from = Some conns' ∧ to ∈ conns'.
Proof.
  intros Hc Hto Hne. eexists. unfold bypassed. rewrite lookup_fmap, Hc. split; [done|].
  apply elem_of_redirect. by left.
Qed.

Lemma bypassed_out id ports from conns p q outs to :
  ports !! from = Some conns → (id, p) ∈ conns → ports !! (id, q) = Some outs → to ∈ outs →
  ∃ conns', bypassed id ports !! from = Some conns' ∧ to ∈ conns'.
Proof.
  intros Hc Hid Hq Hto. eexists. unfold bypassed. rewrite lookup_fmap, Hc. split; [done|].
  apply elem_of_redirect. right. split; [apply elem_of_skip_outputs; eauto|].
  apply Exists_exists. by exists (id, p).
Qed.

Lemma bypass_acyclic rank id ports : ports_acyclic rank ports → ports_acyclic rank (bypassed id ports).
Proof.
  intros Hac i p conns to Hc Hto.
  destruct (elem_of_bypassed _ _ _ _ _ Hc Hto) as (conns0 & Hc0 & [[Hin _]|[Hout [q Hq]]]); [by eapply Hac|].
  apply elem_of_skip_outputs in Hout as (q' & outs & Hout & Hto').
  pose proof (Hac _ _ _ _ Hout Hto'). pose proof (Hac _ _ _ _ Hc0 Hq). simpl in *. lia.
Qed.

Lemma bypass_bound n id ports :
  (∀ k conns to, ports !! k = Some conns → to ∈ conns → (to.1 < n)%nat) →
  ∀ k conns to, bypassed id ports !! k = Some conns → to ∈ conns → (to.1 < n)%nat.
Proof.
  intros Hn k conns to Hc Hto.
  destruct (elem_of_bypassed _ _ _ _ _ Hc Hto) as (conns0 & Hc0 & [[Hin _]|[Hout _]]); [by eapply Hn|].
  apply elem_of_skip_outputs in Hout as (q' & outs & Hout & Hto'). by eapply Hn.
Qed.

Lemma bypass_unconnected rank id ports : ports_acyclic rank ports → unconnected id (bypassed id ports).
Proof.
  intros Hac from conns to Hc Hto.
  destruct (elem_of_bypassed _ _ _ _ _ Hc Hto) as (conns0 & Hc0 & [[_ ?]|[Hout _]]); [done|].
  apply elem_of_skip_outputs in Hout as (q' & outs & Hout & Hto').
  pose proof (Hac _ _ _ _ Hout Hto') as Hlt. intros Heq. rewrite Heq in Hlt. lia.
Qed.

Lemma bypass_unconnected_other k id ports : unconnected k ports → unconnected k (bypassed id ports).
Proof.
  intros Hk from conns to Hc Hto.
  destruct (elem_of_bypassed _ _ _ _ _ Hc Hto) as (conns0 & Hc0 & [[? _]|[Hout _]]); [by eapply Hk|].
  apply elem_of_skip_outputs in Hout as (q' & outs & Hout & Hto'). by eapply Hk.
Qed.

Lemma bypass_leads rank (skip : nat → Prop) id ports from to :
  ports_acyclic rank ports → skip id →
  leads skip (bypassed id ports) from to ↔ leads skip ports from to.
Proof.
  intros Hac Hid. split.
  - induction 1 as [from conns to Hc Hto Hs|from conns s p q to Hc Hto Hs _ IH];
      destruct (elem_of_bypassed _ _ _ _ _ Hc Hto) as (conns0 & Hc0 & [[Hin Hne]|[Hout [p' Hp]]]).
    + by eapply leads_direct.
    + apply elem_of_skip_outputs in Hout as (q' & outs & Hout & Hto').
      eapply (leads_via _ _ _ _ id); [done..|]. by eapply leads_direct.
    + by eapply (leads_via _ _ _ _ s).
    + apply elem_of_skip_outputs in Hout as (q' & outs & Hout & Hto').
      eapply (leads_via _ _ _ _ id); [done..|]. by eapply (leads_via _ _ _ _ s).
  - induction 1 as [from conns to Hc Hto Hs|from conns s p q to Hc Hto Hs _ IH].
    + destruct (bypassed_keep id _ _ _ _ Hc Hto) as (conns' & ? & ?); [congruence|].
      by eapply leads_direct.
    + destruct (decide (s = id)) as [->|Hne].
      * inversion IH as [? conns1 ? Hc1 Hto1 Hs1|? conns1 s1 p1 q1 ? Hc1 Hto1 Hs1 Hl]; subst;
          destruct (elem_of_bypassed _ _ _ _ _ Hc1 Hto1) as (outs & Ho & [[Hin _]|[_ [p' Hp']]]).
        -- destruct (bypassed_out _ _ _ _ _ _ _ _ Hc Hto Ho Hin) as (? & ? & ?). by eapply leads_direct.
        -- pose proof (Hac _ _ _ _ Ho Hp'). simpl in *. lia.
        -- destruct (bypassed_out _ _ _ _ _ _ _ _ Hc Hto Ho Hin) as (? & ? & ?).
           by eapply (leads_via _ _ _ _ s1).
        -- pose proof (Hac _ _ _ _ Ho Hp'). simpl in *. lia.
      * destruct (bypassed_keep id _ _ _ _ Hc Hto Hne) as (conns' & ? & ?).
        by eapply (leads_via _ _ _ _ s).
Qed.

(** *** All skippable nodes *)
Record skip_ok (skip : nat → Prop) (rank : nat → nat) (n : nat) (ports ports' : port_map) : Prop := {
  skip_acyclic : ports_acyclic rank ports';
  skip_bound : ∀ k conns to, ports' !! k = Some conns → to ∈ conns → (to.1 < n)%nat;
  skip_leads : ∀ from to, leads skip ports' from to ↔ leads skip ports from to;
  skip_keeps : ∀ k, unconnected k ports → unconnected k ports';
  skip_dom : dom ports' = dom ports;
}.

Lemma skip_all_ok skip rank n ids ports changed :
  ports_acyclic rank ports →
  (∀ k conns to, ports !! k = Some conns → to ∈ conns → (to.1 < n)%nat) → Forall skip ids →
  ∃ ports' b, skip_all ids ports changed = (ports', Some b) ∧ skip_ok skip rank n ports ports' ∧
    Forall (λ id, unconnected id ports') ids.
Proof.
  revert ports changed. induction ids as [|id ids IH]; intros ports changed Hac Hn Hids; simpl.
  { eexists _, _. split_and!; [done| |done]. by constructor. }
  inversion Hids as [|? ? Hid Hids']; subst. rewrite bypass_ok.
  destruct (IH (bypassed id ports) (changed || negb (bool_decide (skip_inputs id ports = []))))
    as (ports' & b & Heq & [] & Hun); [by apply bypass_acyclic|by apply bypass_bound|done|].
  exists ports', b. split_and!; [done| |].
  - constructor; [done..| | |].
    + intros from to. rewrite skip_leads0. by apply (bypass_leads rank).
    + intros k Hk. by apply skip_keeps0, bypass_unconnected_other.
    + rewrite skip_dom0. apply dom_fmap_L.
  - constructor; [|done]. by apply skip_keeps0, (bypass_unconnected rank).
Qed.

(** Nothing is left to do once no connection leads to a skippable node. *)
Lemma skip_all_done ids ports :
  Forall (λ id, unconnected id ports) ids → skip_all ids ports false = (ports, Some false).
Proof.
  intros Hids. induction Hids as [|id ids Hid Hids IH]; simpl; [done|]. rewrite bypass_ok.
  assert (skip_inputs id ports = []) as ->.
  { apply elem_of_nil_inv. intros i (conns & Hc & (to & Hto & ?)%Exists_exists)%elem_of_skip_inputs.
    by eapply Hid. }
  simpl. assert (bypassed id ports = ports) as ->; [|done].
  apply map_eq. intros i. unfold bypassed. rewrite lookup_fmap.
  destruct (ports !! i) as [conns|] eqn:Hc; simpl; [|done]. f_equal. apply redirect_none.
  intros (to & Hto & ?)%Exists_exists. by eapply Hid.
Qed.

(** ** The graph *)
Definition skipped g (i : nat) : Prop := ∃ nd, g_graph g !! i = Some nd ∧ skip_node nd = true.

(** What the loop over the inputs may do to one of them: a skippable node
    with one connection in all is replaced by the node it connects to. *)
Definition hop g (ports : port_map) (name : string) (a b : nat) : Prop :=
  a = b ∨ ∃ nd p, g_graph g !! a = Some nd ∧ node_skippable nd = true ∧
    ports !! (a, p) = Some [(b, name)] ∧ ∀ q conns, ports !! (a, q) = Some conns → q = p.

(** The graph with other wiring. *)
Definition rewired g (inputs : gmap string nat) (ports : port_map) : ExecutableGraph Op :=
  set_inputs inputs (set_port_indexes ports (trim_flows g)).

Lemma elem_of_skippables g i : i ∈ skippables g ↔ skipped g i.
Proof.
  unfold skippables, skipped. rewrite list_elem_of_omap. split.
  - intros ([j nd] & (k & x & [= <- <-] & Hx)%elem_of_lookup_imap & Hs). simpl in Hs.
    destruct (skip_node nd) eqn:Hn; [|done]. injection Hs as <-. by exists nd.
  - intros (nd & Hnd & Hn). exists (i, nd). simpl. rewrite Hn. split; [|done].
    apply elem_of_lookup_imap. eauto.
Qed.

Lemma hop_intro g name a nd k b q l :
  g_graph g !! a = Some nd → node_skippable nd = true →
  filter (λ e, e.1.1 = a) (hash_iter (g_port_indexes g)) = [(k, (b, q) :: l)] →
  l = [] → q = name → hop g (g_port_indexes g) name a b.
Proof.
  intros Hnd Hs Hf -> ->.
  assert (∀ e, g_port_indexes g !! e.1 = Some e.2 ∧ e.1.1 = a ↔ e = (k, [(b, name)])) as Hall.
  { intros e. rewrite <-elem_of_hash_iter, (and_comm (e ∈ _)).
    rewrite <-(list_elem_of_filter (λ e : nat * string * list (nat * string), e.1.1 = a)), Hf.
    apply list_elem_of_singleton. }
  destruct (proj2 (Hall _) eq_refl) as [Hk Ha]. destruct k as [i p]. simpl in *. subst i.
  right. exists nd, p. split_and!; [done..|]. intros q' conns Hq.
  assert ((a, q', conns) = (a, p, [(b, name)])) as [= -> _]; [|done]. by apply Hall.
Qed.

Lemma set_inputs_id g : set_inputs (g_inputs g) g = g.
Proof. by destruct g. Qed.

(** What the loop does to the inputs: all stay, those in the list hop. *)
Definition inputs_hop g (name : string) (t : nat) (t' : option nat) : Prop :=
  ∃ b, t' = Some b ∧ hop g (g_port_indexes g) name t b.

Lemma shortcut_step g k t nd :
  g_inputs g !! k = Some t → g_graph g !! t = Some nd →
  ∃ inputs1, (if node_skippable nd then
     match filter (λ e, e.1.1 = t) (hash_iter (g_port_indexes g)) with
     | [(_, [(next_id, next_input)])] =>
         if bool_decide (next_input = k)
         then set_inputs (<[k := next_id]> (g_inputs g)) g else g
     | _ => g
     end else g) = set_inputs inputs1 g ∧
    inputs_hop g k t (inputs1 !! k) ∧ (∀ k', k ≠ k' → inputs1 !! k' = g_inputs g !! k').
Proof.
  intros Hk Hnd.
  assert (∃ inputs1, g = set_inputs inputs1 g ∧ inputs_hop g k t (inputs1 !! k) ∧
    (∀ k', k ≠ k' → inputs1 !! k' = g_inputs g !! k')) as Hsame.
  { exists (g_inputs g). rewrite set_inputs_id. split_and!; [done| |done].
    exists t. split; [done|by left]. }
  destruct (node_skippable nd) eqn:Hs; [|done].
  destruct (filter _ _) as [|[k0 [|[b q] [|? ?]]] [|? ?]] eqn:Hf; try done.
  case_bool_decide as Hq; [|done]. eexists. split; [done|]. split.
  - rewrite lookup_insert, decide_True by done. exists b. split; [done|]. by eapply hop_intro.
  - intros k' ?. by rewrite lookup_insert_ne.
Qed.

Lemma shortcut_ok n ins g :
  length (g_graph g) = n → NoDup ins.*1 →
  (∀ k t, (k, t) ∈ ins → g_inputs g !! k = Some t ∧ t < n)%nat →
  ∃ inputs', shortcut_inputs ins g = (set_inputs inputs' g, Some tt) ∧
    (∀ k t, (k, t) ∈ ins → inputs_hop g k t (inputs' !! k)) ∧
    (∀ k, k ∉ ins.*1 → inputs' !! k = g_inputs g !! k).
Proof.
  intros Hn. revert g Hn. induction ins as [|[k t] ins IH]; intros g Hn Hnd Hin; simpl.
  { exists (g_inputs g). rewrite set_inputs_id. split_and!; [done| |done]. intros ? ? []%not_elem_of_nil. }
  inversion Hnd as [|? ? Hk Hnd']; subst. destruct (Hin k t) as [Hkt Ht]; [by left|].
  destruct (lookup_lt_is_Some_2 (g_graph g) t Ht) as [nd Hg]. rewrite Hg.
  destruct (shortcut_step g k t nd Hkt Hg) as (inputs1 & -> & Hhop & Hother).
  destruct (IH (set_inputs inputs1 g)) as (inputs' & -> & Hh & Ho); [done|done| |].
  { intros k' t' Hin'. simpl. rewrite Hother; [apply Hin; by right|].
    intros ->. apply Hk, list_elem_of_fmap. by exists (k', t'). }
  exists inputs'. split_and!; [done| |].
  - intros k' t' [[= -> ->]|Hin']%elem_of_cons; [|by apply Hh]. by rewrite Ho.
  - intros k'. cbn. rewrite not_elem_of_cons. intros [Hne Hni]. rewrite Ho by done. simpl. by apply Hother.
Qed.

Lemma rewired_rewired g i1 p1 i2 p2 : rewired (rewired g i1 p1) i2 p2 = rewired g i2 p2.
Proof.
  destruct g as [id nodes st ins stk sf cf]. unfold rewired, trim_flows.
  cbn [set_flows set_inputs set_port_indexes g_signalflow g_contraflow g_graph].
  by rewrite !(filter_idemp (λ id, id_skippable _ id = false)).
Qed.

Section contract.
Context (I : Op → Prop).

Lemma rewired_ok n g inputs ports :
  graph_ok I n g → (∀ s i, inputs !! s = Some i → (i < n)%nat) →
  (∀ k conns to, ports !! k = Some conns → to ∈ conns → (to.1 < n)%nat) →
  graph_ok I n (rewired g inputs ports).
Proof.
  intros [] Hi Hp. constructor; simpl; try done; apply Forall_forall;
    intros x [_ Hx]%list_elem_of_filter; by eapply Forall_forall in Hx; [|done].
Qed.

Lemma hop_bound n g name a b :
  graph_ok I n g → (a < n)%nat → hop g (g_port_indexes g) name a b → (b < n)%nat.
Proof.
  intros Hok Ha [->|(nd & p & _ & _ & Hp & _)]; [done|].
  apply (ok_ports _ _ _ Hok _ _ (b, name) Hp). by left.
Qed.

Record round_ok n rank g inputs' ports' : Prop := {
  round_graph : graph_ok I n (rewired g inputs' ports');
  round_skip : skip_ok (skipped g) rank n (g_port_indexes g) ports';
  round_done : ∀ i, skipped g i → unconnected i ports';
  round_inputs : ∀ k t, g_inputs g !! k = Some t → inputs_hop g k t (inputs' !! k);
  round_no_input : ∀ k, g_inputs g !! k = None → inputs' !! k = None;
}.

Lemma round_spec n rank g :
  graph_ok I n g → acyclic rank g →
  ∃ inputs' ports' b, optimize_ g = (rewired g inputs' ports', Some b) ∧
    round_ok n rank g inputs' ports' ∧
    ((∀ i, skipped g i → unconnected i (g_port_indexes g)) →
     ports' = g_port_indexes g ∧ b = false).
Proof.
  intros Hok Hac. unfold optimize_.
  destruct (shortcut_ok n (hash_iter (g_inputs g)) (trim_flows g)) as (inputs' & Hsc & Hh & Ho).
  { apply Hok. }
  { rewrite (hash_iter_perm _ (g_inputs g)). apply NoDup_fst_map_to_list. }
  { intros k t Hkt%elem_of_hash_iter. split; [done|by apply (ok_inputs _ _ _ Hok k)]. }
  change (g_inputs (trim_flows g)) with (g_inputs g). rewrite Hsc.
  assert (∀ i, i ∈ skippables (set_inputs inputs' (trim_flows g)) ↔ skipped g i) as Hsk
    by (intros i; exact (elem_of_skippables (set_inputs inputs' (trim_flows g)) i)).
  set (ids := skippables _) in *.
  destruct (skip_all_ok (skipped g) rank n ids (g_port_indexes g) false) as (ports' & b & Hall & Hskip & Hun);
    [done|apply Hok|by apply Forall_forall; intros; apply Hsk|].
  change (g_port_indexes (set_inputs inputs' (trim_flows g))) with (g_port_indexes g). rewrite Hall.
  exists inputs', ports', b. split; [done|].
  assert (∀ k t, g_inputs g !! k = Some t → inputs_hop g k t (inputs' !! k)) as Hin.
  { intros k t Hkt. by apply Hh, elem_of_hash_iter. }
  assert (∀ k, g_inputs g !! k = None → inputs' !! k = None) as Hno.
  { intros k Hk. rewrite Ho; [done|]. intros ([k' t] & -> & Ht%elem_of_hash_iter)%list_elem_of_fmap.
    simpl in *. congruence. }
  split.
  - constructor; [|done|intros i Hi|done|done].
    + apply rewired_ok; [done| |apply Hskip]. intros k i Hki.
      destruct (g_inputs g !! k) as [t|] eqn:Hkt; [|by rewrite (Hno k Hkt) in Hki].
      destruct (Hin k t Hkt) as (b' & Hb & Hhop). rewrite Hki in Hb. injection Hb as <-.
      by apply (hop_bound n g k t i Hok); [apply (ok_inputs _ _ _ Hok k)|].
    + rewrite Forall_forall in Hun. by apply Hun, Hsk.
  - intros Hdone. rewrite skip_all_done in Hall; [by injection Hall as <- <-|].
    apply Forall_forall. intros i Hi. by apply Hdone, Hsk.
Qed.

Lemma optimize_loop_eq budget g :
  optimize_loop budget g =
  match optimize_ g with
  | (g, None) => (g, None)
  | (g, Some false) => (g, Some tt)
  | (g, Some true) => match budget with O => (g, None) | S budget => optimize_loop budget g end
  end.
Proof. by destruct budget. Qed.

(** At most two rounds are needed. *)
Lemma optimize_two n rank g :
  graph_ok I n g → acyclic rank g →
  ∃ inputs' ports', optimize g = (rewired g inputs' ports', Some tt) ∧
    graph_ok I n (rewired g inputs' ports') ∧
    skip_ok (skipped g) rank n (g_port_indexes g) ports' ∧
    (∀ i, skipped g i → unconnected i ports') ∧
    (∀ k t, g_inputs g !! k = Some t → ∃ t1 t2, inputs' !! k = Some t2 ∧
      hop g (g_port_indexes g) k t t1 ∧ hop g ports' k t1 t2) ∧
    (∀ k, g_inputs g !! k = None → inputs' !! k = None).
Proof.
  intros Hok Hac. destruct (round_spec n rank g Hok Hac) as (in1 & p1 & b & Heq1 & [Hok1 Hs1 Hd1 Hi1 Hn1] & _).
  unfold optimize. rewrite optimize_loop_eq, Heq1. destruct b.
  - destruct (round_spec n rank (rewired g in1 p1) Hok1 (skip_acyclic _ _ _ _ _ Hs1))
      as (in2 & p2 & b & Heq2 & [Hok2 _ _ Hi2 Hn2] & Hdone).
    destruct (Hdone Hd1) as [-> ->]. rewrite optimize_loop_eq, Heq2, rewired_rewired.
    rewrite rewired_rewired in Hok2. exists in2, p1. split_and!; try done.
    + intros k t Hk. destruct (Hi1 k t Hk) as (t1 & Ht1 & ?).
      destruct (Hi2 k t1 Ht1) as (t2 & ? & ?). by exists t1, t2.
    + intros k Hk. by apply Hn2, Hn1.
  - exists in1, p1. split_and!; try done. intros k t Hk.
    destruct (Hi1 k t Hk) as (t1 & Ht1 & ?). exists t1, t1. split_and!; [done..|by left].
Qed.
End contract.
End optimize.

Lemma optimize_closes {Op} `{!Operator Op, !hash_order string, !hash_order (nat * string)}
    (I : Op → Prop) (n : nat) (rank : nat → nat) (g : ExecutableGraph Op)
    (Hok : graph_ok I n g) (Hac : acyclic rank g) :
  ∃ inputs' ports', optimize g = (rewired g inputs' ports', Some tt) ∧
    graph_ok I n (rewired g inputs' ports') ∧ acyclic rank (rewired g inputs' ports') ∧
    (∀ from to, (∃ conns, ports' !! from = Some conns ∧ to ∈ conns) ↔
                leads (skipped g) (g_port_indexes g) from to) ∧
    (∀ k t, g_inputs g !! k = Some t → ∃ t1 t2, inputs' !! k = Some t2 ∧
        hop g (g_port_indexes g) k t t1 ∧ hop g ports' k t1 t2).
Proof.
  destruct (optimize_two I n rank g Hok Hac) as (in' & p' & Heq & Hok' & [] & Hd & Hi & _).
  exists in', p'. split_and!; [done|done|done| |done]. intros from to. rewrite <-skip_leads0. split.
  - intros (conns & Hc & Hto). eapply leads_direct; [done..|]. intros Hs. by eapply Hd.
  - inversion 1 as [? conns ? Hc Hto|? conns s p q ? Hc Hto Hs]; subst; [by exists conns|].
    by destruct (Hd s Hs from conns (s, p) Hc Hto).
Qed.

(** C7: optimising an acyclic pipeline succeeds (two rounds are enough, the
    budget of 1000 is never used up) and is the reachability closure over
    skippable nodes: afterwards a port is connected to exactly the kept nodes
    that it led to before through skippable nodes only, in particular nothing
    connects to a skippable node any more; the skippable operators are gone
    from both flows, inputs moved only past skippable nodes with one single
    connection, and nodes, states, pending work and well-formedness are
    kept. *)
Theorem optimize_closure {Op} `{!Operator Op, !hash_order string, !hash_order (nat * string)}
    (I : Op → Prop) (n : nat) (rank : nat → nat) (g : ExecutableGraph Op)
    (Hok : graph_ok I n g) (Hac : acyclic rank g) :
  ∃ inputs' ports', optimize g = (rewired g inputs' ports', Some tt) ∧
    graph_ok I n (rewired g inputs' ports') ∧ acyclic rank (rewired g inputs' ports') ∧
    (∀ from to, (∃ conns, ports' !! from = Some conns ∧ to ∈ conns) ↔
                leads (skipped g) (g_port_indexes g) from to) ∧
    (∀ k t, g_inputs g !! k = Some t → ∃ t1 t2, inputs' !! k = Some t2 ∧
        hop g (g_port_indexes g) k t t1 ∧ hop g ports' k t1 t2).
Proof. by apply optimize_closes. Qed.

Lemma optimize_closure_witness :
  let _ := some_order string in let _ := some_order (nat * string) in
  (∃ inputs' ports', optimize Sample.graph = (rewired Sample.graph inputs' ports', Some tt) ∧
    ∃ conns, ports' !! (0%nat, OUT) = Some conns ∧ (2%nat, IN) ∈ conns).
Proof.
  intros H1 H2.
  destruct (optimize_closure (λ _, True) 3 Sample.rank Sample.graph Sample.graph_is_ok Sample.graph_acyclic)
    as (inputs' & ports' & Heq & _ & _ & Hl & _).
  exists inputs', ports'. split; [done|]. apply Hl.
  apply (leads_via _ _ _ [(1%nat, IN)] 1%nat IN OUT); [reflexivity|by left| |].
  { exists (Sample.node KOperator "pass"). by split. }
  apply (leads_direct _ _ _ [(2%nat, IN)]); [reflexivity|by left|].
  intros (nd & [= <-] & Hs). discriminate Hs.
Defined.

(** ** The operator does not send on all its ports

    [optimize] replaces a skippable node by the connections of all its ports,
    but a passthrough emits on [out] only: what was connected to another port
    of it gets events once the pipeline is optimised. *)
Definition stray_graph : ExecutableGraph Passthrough.t :=
  set_port_indexes {[(0%nat, OUT) := [(1%nat, IN)]; (1%nat, ERR) := [(2%nat, IN)]]} Sample.graph.

Definition run_outputs (res : option (ExecutableGraph Passthrough.t * returns * result unit)) :
    option returns := (λ r, r.1.2) <$> res.

(** The same event leaves the pipeline only when it is optimised. *)
Example optimize_adds_route :
  let _ := some_order string in let _ := some_order (nat * string) in
  run_outputs (enqueue 9 "in" Event.default stray_graph []) = Some [] ∧
  run_outputs (enqueue 9 "in" Event.default (optimize stray_graph).1 []) = Some [(OUT, Event.default)].
Proof. split; vm_compute; reflexivity. Qed.
