(* ===== verification/Frames.v ===== *)
(** Splitting byte streams into messages and back: src/preprocessor.rs,
    src/preprocessor/lines.rs and src/postprocessor.rs.

    Compression and base64 are libraries ([codecs]).  The two length prefixed
    formats share the shape of their loops; [frame_loop] is that loop, with
    the reading of a header as its parameter. *)
From stdpp Require Import pretty.
From S2P Require Import Prelude Wal.

(** ** Libraries *)
Inductive algorithm := ABase64 | AGzip | AGzipMulti | AZlib | AXz2 | ASnappy | ALz4 | AZstd.

Class codecs := {
  decode_all : algorithm → bytes → io bytes;
  encode_all : algorithm → bytes → io bytes;
}.

(** Nothing is assumed of them; the codec that stores, for evaluation. *)
Definition stored_codecs : codecs :=
  {| decode_all _ data := IoOk data; encode_all _ data := IoOk data |}.

(** ** Lines *)
(** [data.split(|c| *c == separator)]: never empty. *)
Fixpoint split_on (sep : N) (data : bytes) : list bytes :=
  match data with
  | [] => [[]]
  | c :: data =>
    if (c =? sep)%N then [] :: split_on sep data
    else match split_on sep data with
         | l :: ls => (c :: l) :: ls
         | [] => [[c]]
         end
  end.

Module Lines.
Record t := mk {
  separator : N;
  max_length : nat;
  buffer : bytes;
  is_buffered : bool;
}.
Definition new (separator : N) (max_length : nat) (is_buffered : bool) : t :=
  mk separator max_length [] is_buffered.
Definition set_buffer (b : bytes) (self : t) : t :=
  mk (separator self) (max_length self) b (is_buffered self).

Definition is_valid_line (self : t) (v : bytes) : bool :=
  (max_length self =? 0)%nat || (length v <=? max_length self)%nat.

Definition save_fragment (v : bytes) (self : t) : t * result unit :=
  if (length (buffer self) + length v <=? max_length self)%nat
  then (set_buffer (buffer self ++ v) self, Ok tt)
  else (set_buffer [] self, Err (EMsg "Discarded line fragment")).

Definition complete_fragment (v : bytes) (self : t) : t * result bytes :=
  if (length (buffer self) + length v <=? max_length self)%nat
  then (set_buffer [] self, Ok (buffer self ++ v))
  else (set_buffer [] self, Err (EMsg "Discarded line fragment")).

(** The [while let] loop over the lines behind the first. *)
Fixpoint rest_loop (lines : list bytes) (events : list bytes) (self : t) : t * result (list bytes) :=
  match lines with
  | [] => (self, Ok events)
  | [line] =>
    match save_fragment line self with
    | (self, Ok _) => (self, Ok events)
    | (self, Err e) => (self, Err e)
    end
  | line :: lines =>
      rest_loop lines (if is_valid_line self line then events ++ [line] else events) self
  end.

Definition process (data : bytes) (self : t) : t * result (list bytes) :=
  let lines := split_on (separator self) data in
  if negb (is_buffered self) then (self, Ok (filter (λ l, is_valid_line self l = true) lines)) else
  match lines with
  | [] => (self, Ok [])
  | [first_line] =>
    match save_fragment first_line self with
    | (self, Ok _) => (self, Ok [])
    | (self, Err e) => (self, Err e)
    end
  | first_line :: lines =>
    if negb (bool_decide (buffer self = [])) then
      match complete_fragment first_line self with
      | (self, Err e) => (self, Err e)
      | (self, Ok line) => rest_loop lines [line] self
      end
    else rest_loop lines (if is_valid_line self first_line then [first_line] else []) self
  end.
End Lines.

(** ** Length prefixed frames *)

(** What the front of the buffer says: not enough yet, no length (the state
    of the buffer is kept), or a length and the rest. *)
Inductive header :=
  | HNeed
  | HBad (rest : bytes)
  | HLen (l : nat) (rest : bytes).

Record frame_state := mk_frame { fr_len : option nat; fr_buffer : bytes }.

Section frames.
Context (read_header : bytes → header).

(** The second half of the loop body. *)
Inductive next_step := NStop (st : frame_state) | NFail (st : frame_state) | NGo (st : frame_state).
Definition after_frame (buffer : bytes) : next_step :=
  match read_header buffer with
  | HNeed => NStop (mk_frame None buffer)
  | HBad rest => NFail (mk_frame None rest)
  | HLen l rest => NGo (mk_frame (Some l) rest)
  end.

(** The [loop]; [None] is a loop that needs more fuel. *)
Fixpoint frame_loop (fuel : nat) (st : frame_state) (res : list bytes) :
    option (frame_state * result (list bytes)) :=
  match fuel with
  | O => None
  | S fuel =>
    let next buffer res :=
      match after_frame buffer with
      | NStop st => Some (st, Ok res)
      | NFail st => Some (st, Err (EMsg "invalid length"))
      | NGo st => frame_loop fuel st res
      end in
    match fr_len st with
    | Some l =>
      if (l <=? length (fr_buffer st))%nat
      then next (drop l (fr_buffer st)) (res ++ [take l (fr_buffer st)])
      else Some (st, Ok res)
    | None => next (fr_buffer st) res
    end
  end.

(** [process]: the loop runs at most once per byte and once more. *)
Definition frame_process (data : bytes) (st : frame_state) : option (frame_state * result (list bytes)) :=
  let st := mk_frame (fr_len st) (fr_buffer st ++ data) in
  frame_loop (S (S (length (fr_buffer st)))) st [].
End frames.

Module LengthPrefix.
(** More than eight bytes must be there; eight are the length. *)
Definition read_header (buffer : bytes) : header :=
  if (8 <? length buffer)%nat then HLen (N.to_nat (be_value (take 8 buffer))) (drop 8 buffer) else HNeed.
Definition process : bytes → frame_state → option (frame_state * result (list bytes)) := frame_process read_header.
End LengthPrefix.

Module TextualLength.
Definition is_ascii_whitespace (c : N) : bool :=
  (c =? 32)%N || (c =? 9)%N || (c =? 10)%N || (c =? 12)%N || (c =? 13)%N.

(** [str::parse::<u32>]: an optional sign and digits, without overflow. *)
Definition digit (c : N) : option N := if ((48 <=? c) && (c <=? 57))%N then Some (c - 48)%N else None.
Fixpoint parse_digits (b : bytes) (acc : N) : option N :=
  match b with
  | [] => Some acc
  | c :: b =>
    d ← digit c;
    let acc := (acc * 10 + d)%N in
    if (acc <? 4294967296)%N then parse_digits b acc else None
  end.
Definition parse_u32 (b : bytes) : option N :=
  match b with
  | [] => None
  | 43%N :: [] => None
  | 43%N :: b => parse_digits b 0
  | b => parse_digits b 0
  end.

(** The first whitespace ends the length; the buffer keeps what follows it,
    or starts with it when the length does not parse. *)
Definition read_header (buffer : bytes) : header :=
  match list_find (λ c, is_ascii_whitespace c = true) buffer with
  | None => HNeed
  | Some (i, _) =>
    match parse_u32 (take i buffer) with
    | Some l => HLen (N.to_nat l) (drop 1 (drop i buffer))
    | None => HBad (drop i buffer)
    end
  end.
Definition process : bytes → frame_state → option (frame_state * result (list bytes)) := frame_process read_header.
End TextualLength.

(** ** The preprocessors *)
Inductive preprocessor :=
  | PreLines (l : Lines.t)
  | PreDecode (a : algorithm)
  | PreDecompress
  | PreFilterEmpty
  | PreNulls
  | PreExtractIngresTs
  | PreLengthPrefix (st : frame_state)
  | PreTextualLength (st : frame_state).

Section preprocessors.
Context `{!codecs}.

Definition one_part (r : io bytes) : result (list bytes) := (λ d, [d]) <$> from_io r.

(** The format by its magic bytes. *)
Definition decompress_algorithm (data : bytes) : option algorithm :=
  match take 6 data with
  | [31; 139; _; _; _; _]%N => Some AGzip
  | [120; b; _; _; _; _]%N =>
      if ((b =? 1) || (b =? 94) || (b =? 156) || (b =? 218))%N then Some AZlib else None
  | [253; 55; 122; 88; 90; 0]%N => Some AXz2
  | [255; _; _; _; _; _]%N => Some ASnappy
  | [4; 34; 77; 24; _; _]%N => Some ALz4
  | [40; 181; 47; 253; _; _]%N => Some AZstd
  | _ => None
  end.

(** [process]; [None] only if a loop ran out of fuel. *)
Definition process (ingest_ns : N) (data : bytes) (pp : preprocessor) :
    option (preprocessor * N * result (list bytes)) :=
  match pp with
  | PreLines l => let '(l, r) := Lines.process data l in Some (PreLines l, ingest_ns, r)
  | PreDecode a => Some (pp, ingest_ns, one_part (decode_all a data))
  | PreDecompress =>
      Some (pp, ingest_ns, match decompress_algorithm data with
                           | Some a => one_part (decode_all a data)
                           | None => Ok [data]
                           end)
  | PreFilterEmpty => Some (pp, ingest_ns, Ok (if bool_decide (data = []) then [] else [data]))
  | PreNulls => Some (pp, ingest_ns, Ok (split_on 0 data))
  | PreExtractIngresTs =>
      Some (if (8 <=? length data)%nat then (pp, be_value (take 8 data), Ok [drop 8 data])
            else (pp, ingest_ns, Err (EMsg "Extract Ingest Ts Preprocessor: < 8 byte")))
  | PreLengthPrefix st =>
      '(st, r) ← LengthPrefix.process data st; Some (PreLengthPrefix st, ingest_ns, r)
  | PreTextualLength st =>
      '(st, r) ← TextualLength.process data st; Some (PreTextualLength st, ingest_ns, r)
  end.

Definition frame_default : frame_state := mk_frame None [].

(** [lookup]; the gelf preprocessors have a file of their own. *)
Definition lookup (name : string) : result preprocessor :=
  if bool_decide (name = "lines") then Ok (PreLines (Lines.new 10 (N.to_nat 1048576) true))
  else if bool_decide (name = "lines-null") then Ok (PreLines (Lines.new 0 (N.to_nat 1048576) true))
  else if bool_decide (name = "lines-pipe") then Ok (PreLines (Lines.new 124 (N.to_nat 1048576) true))
  else if bool_decide (name = "lines-no-buffer") then Ok (PreLines (Lines.new 10 0 false))
  else if bool_decide (name = "lines-cr-no-buffer") then Ok (PreLines (Lines.new 13 0 false))
  else if bool_decide (name = "base64") then Ok (PreDecode ABase64)
  else if bool_decide (name = "gzip") then Ok (PreDecode AGzipMulti)
  else if bool_decide (name = "zlib") then Ok (PreDecode AZlib)
  else if bool_decide (name = "xz2") then Ok (PreDecode AXz2)
  else if bool_decide (name = "snappy") then Ok (PreDecode ASnappy)
  else if bool_decide (name = "lz4") then Ok (PreDecode ALz4)
  else if bool_decide (name = "decompress") then Ok PreDecompress
  else if bool_decide (name = "remove-empty") then Ok PreFilterEmpty
  else if bool_decide (name = "ingest-ns") then Ok PreExtractIngresTs
  else if bool_decide (name = "length-prefixed") then Ok (PreLengthPrefix frame_default)
  else if bool_decide (name = "textual-length-prefix") then Ok (PreTextualLength frame_default)
  else if bool_decide (name = "zstd") then Ok (PreDecode AZstd)
  else Err (EMsg ("Preprocessor '" +:+ name +:+ "' not found.")).

(** The inner loop of [preprocess]: one preprocessor over the parts. *)
Fixpoint process_parts (ingest_ns : N) (parts : list bytes) (acc : list bytes) (pp : preprocessor) :
    option (preprocessor * N * result (list bytes)) :=
  match parts with
  | [] => Some (pp, ingest_ns, Ok acc)
  | d :: parts =>
    '(pp, ingest_ns, r) ← process ingest_ns d pp;
    match r with
    | Ok r => process_parts ingest_ns parts (acc ++ r) pp
    | Err e => Some (pp, ingest_ns, Err e)
    end
  end.

(** [preprocess]: each preprocessor works on what the one before made. *)
Fixpoint preprocess_parts (pps : list preprocessor) (ingest_ns : N) (data : list bytes) :
    option (list preprocessor * N * result (list bytes)) :=
  match pps with
  | [] => Some ([], ingest_ns, Ok data)
  | pp :: pps =>
    '(pp, ingest_ns, r) ← process_parts ingest_ns data [] pp;
    match r with
    | Ok data =>
      '(pps, ingest_ns, r) ← preprocess_parts pps ingest_ns data;
      Some (pp :: pps, ingest_ns, r)
    | Err e => Some (pp :: pps, ingest_ns, Err e)
    end
  end.
Definition preprocess (pps : list preprocessor) (ingest_ns : N) (data : bytes) :
    option (list preprocessor * N * result (list bytes)) := preprocess_parts pps ingest_ns [data].
End preprocessors.

(** ** The postprocessors, all stateless *)
Inductive postprocessor :=
  | PostLines
  | PostEncode (a : algorithm)
  | PostAttachIngresTs
  | PostLengthPrefix
  | PostTextualLength.

(** The bytes of a string of ASCII characters. *)
Definition string_bytes (s : string) : bytes := Ascii.N_of_ascii <$> String.list_ascii_of_string s.

Section postprocessors.
Context `{!codecs}.

Definition post_process (ingres_ns egress_ns : N) (data : bytes) (pp : postprocessor) : result (list bytes) :=
  match pp with
  | PostLines => Ok [data ++ [10%N]]
  | PostEncode a => one_part (encode_all a data)
  | PostAttachIngresTs => Ok [be_bytes 8 ingres_ns ++ data]
  | PostLengthPrefix => Ok [be_bytes 8 (N.of_nat (length data)) ++ data]
  | PostTextualLength => Ok [string_bytes (pretty (length data)) ++ [32%N] ++ data]
  end.

Fixpoint post_parts (ingres_ns egress_ns : N) (parts acc : list bytes) (pp : postprocessor) : result (list bytes) :=
  match parts with
  | [] => Ok acc
  | d :: parts =>
    match post_process ingres_ns egress_ns d pp with
    | Ok r => post_parts ingres_ns egress_ns parts (acc ++ r) pp
    | Err _ => Err (EMsg "Postprocessor error")
    end
  end.
Fixpoint postprocess_parts (pps : list postprocessor) (ingres_ns egress_ns : N) (data : list bytes) :
    result (list bytes) :=
  match pps with
  | [] => Ok data
  | pp :: pps => data ← post_parts ingres_ns egress_ns data [] pp; postprocess_parts pps ingres_ns egress_ns data
  end.
(** [egress_ns] is the clock. *)
Definition postprocess (pps : list postprocessor) (ingres_ns egress_ns : N) (data : bytes) : result (list bytes) :=
  postprocess_parts pps ingres_ns egress_ns [data].
End postprocessors.

(** ** The loop over frames *)
Definition add (st : frame_state) (d : bytes) : frame_state := mk_frame (fr_len st) (fr_buffer st ++ d).

(** A header reads the same when more data follows, and takes at least a
    byte. *)
Class header_law (rh : bytes → header) : Prop := {
  header_len b l r : rh b = HLen l r → (length r < length b)%nat ∧ ∀ d, rh (b ++ d) = HLen l (r ++ d);
  header_bad b r : rh b = HBad r → ∀ d, rh (b ++ d) = HBad (r ++ d);
}.

Section loop.
Context (rh : bytes → header) `{!header_law rh}.

(** A complete frame is passed on and the loop continues as without one. *)
Lemma frame_take fuel l buf res :
  (l ≤ length buf)%nat →
  frame_loop rh fuel (mk_frame (Some l) buf) res =
  frame_loop rh fuel (mk_frame None (drop l buf)) (res ++ [take l buf]).
Proof.
  intros Hl. destruct fuel as [|fuel]; [done|]. simpl. by rewrite (proj2 (Nat.leb_le _ _) Hl).
Qed.

Lemma frame_wait fuel l buf res :
  (length buf < l)%nat → frame_loop rh (S fuel) (mk_frame (Some l) buf) res = Some (mk_frame (Some l) buf, Ok res).
Proof. intros Hl. simpl. by rewrite (proj2 (Nat.leb_gt _ _) Hl). Qed.

Lemma frame_head fuel buf res :
  frame_loop rh (S fuel) (mk_frame None buf) res =
  match rh buf with
  | HNeed => Some (mk_frame None buf, Ok res)
  | HBad rest => Some (mk_frame None rest, Err (EMsg "invalid length"))
  | HLen l rest => frame_loop rh fuel (mk_frame (Some l) rest) res
  end.
Proof. simpl. unfold after_frame. by destruct (rh buf). Qed.

(** Every state is one of two kinds. *)
Lemma frame_cases (P : nat → frame_state → list bytes → Prop) :
  (∀ fuel l buf res, (length buf < l)%nat → P fuel (mk_frame (Some l) buf) res) →
  (∀ fuel buf res, (∀ l rest, rh buf = HLen l rest → ∀ res, P (pred fuel) (mk_frame (Some l) rest) res) →
     P fuel (mk_frame None buf) res) →
  (∀ fuel l buf res, (l ≤ length buf)%nat → P fuel (mk_frame None (drop l buf)) (res ++ [take l buf]) →
     P fuel (mk_frame (Some l) buf) res) →
  ∀ fuel st res, P fuel st res.
Proof.
  intros Hwait Hhead Htake fuel [len buf] res.
  remember (length buf) as n eqn:Hn. revert fuel len buf res Hn.
  induction n as [n IH] using lt_wf_ind. intros fuel len buf res ->.
  assert (∀ fuel buf', (length buf' ≤ length buf)%nat → ∀ res, P fuel (mk_frame None buf') res) as Hnone.
  { intros fuel' buf' Hle res'. apply Hhead. intros l rest Hr res''.
    destruct (header_len _ _ _ Hr) as [Hlt _]. eapply (IH (length rest)); [lia|done]. }
  destruct len as [l|]; [|by apply Hnone].
  destruct (decide (l ≤ length buf)%nat); [|apply Hwait; lia].
  apply Htake; [done|]. apply Hnone. rewrite length_drop. lia.
Qed.

Lemma frame_loop_total fuel st res :
  (length (fr_buffer st) < fuel)%nat → ∃ x, frame_loop rh fuel st res = Some x.
Proof.
  revert fuel st res. apply (frame_cases (λ fuel st res, (length (fr_buffer st) < fuel)%nat →
    ∃ x, frame_loop rh fuel st res = Some x)); simpl.
  - intros [|fuel] l buf res Hl Hf; [lia|]. rewrite frame_wait by done. by eexists.
  - intros [|fuel] buf res IH Hf; [lia|]. rewrite frame_head. destruct (rh buf) as [| |l rest] eqn:Hr; [by eexists..|].
    destruct (header_len _ _ _ Hr). apply (IH l rest eq_refl). simpl. lia.
  - intros fuel l buf res Hl IH Hf. rewrite frame_take by done. apply IH. rewrite length_drop. lia.
Qed.

Lemma frame_loop_fuel k fuel st res x :
  frame_loop rh fuel st res = Some x → frame_loop rh (fuel + k) st res = Some x.
Proof.
  revert fuel st res. apply (frame_cases (λ fuel st res, frame_loop rh fuel st res = Some x →
    frame_loop rh (fuel + k) st res = Some x)).
  - intros [|fuel] l buf res Hl; [done|]. by rewrite Nat.add_succ_l, !frame_wait by done.
  - intros [|fuel] buf res IH; [done|]. rewrite Nat.add_succ_l, !frame_head.
    destruct (rh buf) as [| |l rest] eqn:Hr; [done..|]. by apply (IH l rest eq_refl).
  - intros fuel l buf res Hl IH. by rewrite !frame_take by done.
Qed.

Lemma frame_loop_det f1 f2 st res x y :
  frame_loop rh f1 st res = Some x → frame_loop rh f2 st res = Some y → x = y.
Proof.
  intros H1%(frame_loop_fuel f2) H2%(frame_loop_fuel f1). rewrite Nat.add_comm in H2. congruence.
Qed.

(** More data is handled where the loop stopped; a failure stays one. *)
Lemma frame_loop_add d fuel st res st' o :
  frame_loop rh fuel st res = Some (st', o) →
  match o with
  | Ok r => ∀ fuel' x, frame_loop rh fuel' (add st' d) r = Some x → ∃ fuel'', frame_loop rh fuel'' (add st d) res = Some x
  | Err e => ∃ fuel'', frame_loop rh fuel'' (add st d) res = Some (add st' d, Err e)
  end.
Proof.
  revert fuel st res. apply (frame_cases (λ fuel st res, frame_loop rh fuel st res = Some (st', o) →
    match o with
    | Ok r => ∀ fuel' x, frame_loop rh fuel' (add st' d) r = Some x → ∃ fuel'', frame_loop rh fuel'' (add st d) res = Some x
    | Err e => ∃ fuel'', frame_loop rh fuel'' (add st d) res = Some (add st' d, Err e)
    end)); unfold add; cbn [fr_len fr_buffer].
  - intros [|fuel] l buf res Hl; [done|]. rewrite frame_wait by done. intros [= <- <-]. eauto.
  - intros [|fuel] buf res IH; [done|]. rewrite frame_head. destruct (rh buf) as [|rest|l rest] eqn:Hr.
    + intros [= <- <-]. eauto.
    + intros [= <- <-]. exists 1%nat. by rewrite frame_head, (header_bad _ _ Hr).
    + intros Hloop. pose proof (IH l rest eq_refl res Hloop) as Hnext. destruct (header_len _ _ _ Hr) as [_ Hd].
      destruct o as [r|e].
      * intros fuel' x Hx. destruct (Hnext fuel' x Hx) as [f Hf]. exists (S f). by rewrite frame_head, Hd.
      * destruct Hnext as [f Hf]. exists (S f). by rewrite frame_head, Hd.
  - intros fuel l buf res Hl IH. rewrite frame_take by done. intros Hloop. specialize (IH Hloop).
    assert (∀ f, frame_loop rh f (mk_frame (Some l) (buf ++ d)) res =
      frame_loop rh f (mk_frame None (drop l buf ++ d)) (res ++ [take l buf])) as Heq.
    { intros f. rewrite frame_take by (rewrite length_app; lia). by rewrite drop_app_le, take_app_le by done. }
    destruct o as [r|e]; [intros fuel' x Hx; destruct (IH fuel' x Hx) as [f Hf]|destruct IH as [f Hf]];
      exists f; by rewrite Heq.
Qed.

(** Feeding chunks one by one gives what the whole gives. *)
Fixpoint frame_feed (chunks : list bytes) (acc : list bytes) (st : frame_state) :
    option (frame_state * result (list bytes)) :=
  match chunks with
  | [] => Some (st, Ok acc)
  | c :: chunks =>
    match frame_process rh c st with
    | Some (st, Ok r) => frame_feed chunks (acc ++ r) st
    | x => x
    end
  end.

Lemma frame_loop_res fuel st res0 res :
  frame_loop rh fuel st (res0 ++ res) =
  match frame_loop rh fuel st res with
  | Some (st', Ok r) => Some (st', Ok (res0 ++ r))
  | x => x
  end.
Proof.
  revert fuel st res. apply (frame_cases (λ fuel st res, frame_loop rh fuel st (res0 ++ res) =
    match frame_loop rh fuel st res with Some (st', Ok r) => Some (st', Ok (res0 ++ r)) | x => x end)).
  - intros [|fuel] l buf res Hl; [done|]. by rewrite !frame_wait by done.
  - intros [|fuel] buf res IH; [done|]. rewrite !frame_head.
    destruct (rh buf) as [| |l rest] eqn:Hr; [done..|]. by apply (IH l rest eq_refl).
  - intros fuel l buf res Hl IH. rewrite !frame_take by done. by rewrite <-(assoc_L (++)).
Qed.

(** The loop stops where it cannot go on. *)
Lemma frame_stopped fuel st res st' r :
  frame_loop rh fuel st res = Some (st', Ok r) → ∀ f x, frame_loop rh f st' [] = Some x → x = (st', Ok []).
Proof.
  revert fuel st res. apply (frame_cases (λ fuel st res, frame_loop rh fuel st res = Some (st', Ok r) →
    ∀ f x, frame_loop rh f st' [] = Some x → x = (st', Ok []))).
  - intros [|fuel] l buf res Hl; [done|]. rewrite frame_wait by done. intros [= <- <-] [|f] x; [done|].
    rewrite frame_wait by done. congruence.
  - intros [|fuel] buf res IH; [done|]. rewrite frame_head. destruct (rh buf) as [| |l rest] eqn:Hr; [|done|].
    + intros [= <- <-] [|f] x; [done|]. rewrite frame_head, Hr. congruence.
    + by apply (IH l rest eq_refl).
  - intros fuel l buf res Hl IH. by rewrite frame_take by done.
Qed.

Lemma frame_feed_all chunks acc st st' r fuel :
  (∀ f x, frame_loop rh f st [] = Some x → x = (st, Ok [])) →
  frame_loop rh fuel (add st (mjoin chunks)) acc = Some (st', Ok r) →
  frame_feed chunks acc st = Some (st', Ok r).
Proof.
  revert acc st fuel. induction chunks as [|c chunks IH]; intros acc st fuel Hst Hloop; cbn [frame_feed].
  - unfold add in Hloop. simpl in Hloop. rewrite app_nil_r in Hloop.
    rewrite <-(app_nil_r acc) in Hloop. rewrite frame_loop_res in Hloop.
    destruct st as [len buf]. destruct (frame_loop rh fuel _ []) as [x|] eqn:Hx; [|done].
    rewrite (Hst _ _ Hx) in Hloop. rewrite app_nil_r in Hloop. by injection Hloop as <- <-.
  - unfold frame_process. fold (add st c). set (fuel1 := S (S (length (fr_buffer (add st c))))).
    destruct (frame_loop_total fuel1 (add st c) []) as [[st1 o] Hc]; [lia|].
    rewrite Hc. simpl in Hloop.
    assert (add st (c ++ mjoin chunks) = add (add st c) (mjoin chunks)) as Hadd.
    { unfold add. simpl. by rewrite (assoc_L (++)). }
    rewrite Hadd in Hloop.
    pose proof (frame_loop_res fuel1 (add st c) acc []) as Hacc.
    rewrite Hc, app_nil_r in Hacc.
    destruct o as [r1|e]; pose proof (frame_loop_add (mjoin chunks) _ _ _ _ _ Hacc) as Hmore; simpl in Hmore.
    + destruct (frame_loop_total (S (length (fr_buffer (add st1 (mjoin chunks))))) (add st1 (mjoin chunks)) (acc ++ r1))
        as [x Hx]; [lia|].
      destruct (Hmore _ _ Hx) as [f Hf]. rewrite (frame_loop_det _ _ _ _ _ _ Hf Hloop) in Hx.
      eapply IH; [|exact Hx]. intros f' y Hy. by apply (frame_stopped _ _ _ _ _ Hc f').
    + destruct Hmore as [f Hf]. pose proof (frame_loop_det _ _ _ _ _ _ Hf Hloop). done.
Qed.
End loop.

#[export] Instance length_prefix_law : header_law LengthPrefix.read_header.
Proof.
  unfold LengthPrefix.read_header. split.
  - intros b l r. destruct (Nat.ltb_spec 8 (length b)); [|done]. intros [= <- <-]. split; [rewrite length_drop; lia|].
    intros d. rewrite length_app, (proj2 (Nat.ltb_lt 8 _)) by lia. by rewrite take_app_le, drop_app_le by lia.
  - intros b r. by destruct (8 <? length b)%nat.
Qed.

#[export] Instance textual_length_law : header_law TextualLength.read_header.
Proof.
  assert (∀ b i c d, list_find (λ c, TextualLength.is_ascii_whitespace c = true) b = Some (i, c) →
    list_find (λ c, TextualLength.is_ascii_whitespace c = true) (b ++ d) = Some (i, c)) as Hfind.
  { intros b i c d Hf. by apply list_find_app_l. }
  unfold TextualLength.read_header. split.
  - intros b l r. destruct (list_find _ b) as [[i c]|] eqn:Hf; [|done].
    apply list_find_Some in Hf as Hf'. destruct Hf' as (Hi & _ & _). apply lookup_lt_Some in Hi.
    destruct (TextualLength.parse_u32 (take i b)) as [n|] eqn:Hp; [|done]. intros [= <- <-].
    split; [rewrite !length_drop; lia|]. intros d. rewrite (Hfind _ _ _ _ Hf).
    rewrite take_app_le, drop_app_le, Hp by lia. by rewrite drop_app_le by (rewrite length_drop; lia).
  - intros b r. destruct (list_find _ b) as [[i c]|] eqn:Hf; [|done].
    apply list_find_Some in Hf as Hf'. destruct Hf' as (Hi & _ & _). apply lookup_lt_Some in Hi.
    destruct (TextualLength.parse_u32 (take i b)) as [n|] eqn:Hp; [done|]. intros [= <-] d.
    rewrite (Hfind _ _ _ _ Hf). by rewrite take_app_le, drop_app_le, Hp by lia.
Qed.

(** A stream of framed messages: [enc] puts a header in front that reads back
    as long as data follows. *)
Lemma frames_read (rh : bytes → header) `{!header_law rh} (enc : bytes → bytes) (ok : bytes → bytes → Prop) :
  rh [] = HNeed →
  (∀ m rest, ok m rest → rh (enc m ++ rest) = HLen (length m) (m ++ rest)) →
  ∀ msgs res,
  (∀ pre m post, msgs = pre ++ m :: post → ok m (mjoin (enc <$> post))) →
  ∃ fuel, frame_loop rh fuel (mk_frame None (mjoin (enc <$> msgs))) res = Some (mk_frame None [], Ok (res ++ msgs)).
Proof.
  intros Hnil Henc. induction msgs as [|m msgs IH]; intros res Hok.
  - exists 1%nat. cbn [fmap list_fmap mjoin list_join]. by rewrite frame_head, Hnil, app_nil_r.
  - destruct (IH (res ++ [m])) as [fuel Hf].
    { intros pre m' post ->. apply (Hok (m :: pre) m' post). done. }
    exists (S fuel). change (mjoin (enc <$> m :: msgs)) with (enc m ++ mjoin (enc <$> msgs)).
    rewrite frame_head, (Henc m) by (by apply (Hok [] m msgs)).
    rewrite frame_take by (rewrite length_app; lia). rewrite drop_app_length, take_app_length, Hf.
    by rewrite <-(assoc_L (++)).
Qed.

(** ** Decimal lengths *)
Definition digit_char (c : N) : Prop := (48 ≤ c ≤ 57)%N.

Lemma digit_of_N x : (x < 10)%N → TextualLength.digit (Ascii.N_of_ascii (pretty_N_char x)) = Some x.
Proof.
  intros Hx. destruct (decide (x ∈ [0; 1; 2; 3; 4; 5; 6; 7; 8; 9]%N)) as [Hin|Hni].
  - repeat (apply elem_of_cons in Hin as [->|Hin]; [by vm_compute|]). by apply not_elem_of_nil in Hin.
  - exfalso. apply Hni. rewrite !elem_of_cons. lia.
Qed.

Lemma pretty_go_parse x s :
  (x < 4294967296)%N →
  TextualLength.parse_digits (string_bytes (pretty_N_go x s)) 0 = TextualLength.parse_digits (string_bytes s) x ∧
  (Forall digit_char (string_bytes s) → Forall digit_char (string_bytes (pretty_N_go x s))).
Proof.
  revert s. induction (N.lt_wf_0 x) as [x _ IH]. intros s Hx.
  destruct (decide (x = 0%N)) as [->|Hne]; [by rewrite pretty_N_go_0|].
  rewrite pretty_N_go_step by lia.
  assert (x mod 10 < 10)%N as Hm by (by apply N.mod_lt).
  pose proof (N.Div0.div_mod x 10) as Hdiv. pose proof (digit_of_N _ Hm) as Hd.
  assert (x / 10 < x)%N as Hlt by (apply N.div_lt; lia).
  destruct (IH (x / 10)%N Hlt (String (pretty_N_char (x mod 10)) s)) as [-> Hall]; [by etrans|].
  split.
  - unfold string_bytes. cbn [String.list_ascii_of_string fmap list_fmap TextualLength.parse_digits].
    rewrite Hd. cbn [mbind option_bind]. replace (x / 10 * 10 + x mod 10)%N with x by lia.
    by rewrite (proj2 (N.ltb_lt x 4294967296)).
  - intros Hs. apply Hall. unfold string_bytes. cbn [String.list_ascii_of_string fmap list_fmap]. constructor; [|done].
    unfold TextualLength.digit, digit_char in *. destruct (48 <=? _)%N eqn:H1; [|done]. destruct (_ <=? 57)%N eqn:H2; [|done].
    apply N.leb_le in H1, H2. done.
Qed.

Lemma pretty_nat_parse n :
  (N.of_nat n < 4294967296)%N →
  TextualLength.parse_u32 (string_bytes (pretty n)) = Some (N.of_nat n) ∧
  Forall digit_char (string_bytes (pretty n)).
Proof.
  intros Hn. change (pretty n) with (pretty (N.of_nat n)).
  assert (TextualLength.parse_digits (string_bytes (pretty (N.of_nat n))) 0 = Some (N.of_nat n) ∧
    Forall digit_char (string_bytes (pretty (N.of_nat n))) ∧ string_bytes (pretty (N.of_nat n)) ≠ []) as (Hp & Hall & Hne).
  { unfold pretty, pretty_N. case_decide as Hz.
    { rewrite Hz. split_and!; [done|by repeat constructor|done]. }
    destruct (pretty_go_parse (N.of_nat n) "" Hn) as [Hp Hall]. split_and!; [done|by apply Hall; constructor|].
    intros Heq. rewrite Heq in Hp. simpl in Hp. injection Hp. lia. }
  split; [|done]. destruct Hall as [|c b Hc _]; [done|]. rewrite <-Hp. unfold TextualLength.parse_u32.
  unfold digit_char in Hc. destruct c as [|c]; [lia|].
  destruct (decide (c = 43%positive)) as [->|Hc43]; [lia|].
  repeat (destruct c as [c|c|]; try done).
Qed.

(** ** Through [process_parts] *)
Section parts.
Context `{!codecs}.

Lemma parts_length_prefix ingest chunks acc st st' r :
  frame_feed LengthPrefix.read_header chunks acc st = Some (st', Ok r) →
  process_parts ingest chunks acc (PreLengthPrefix st) = Some (PreLengthPrefix st', ingest, Ok r).
Proof.
  revert acc st. induction chunks as [|c chunks IH]; intros acc st; cbn [frame_feed process_parts].
  - by intros [= <- <-].
  - cbn [process]. unfold LengthPrefix.process.
    destruct (frame_process _ c st) as [[st1 [r1|e]]|]; [|done..]. apply IH.
Qed.

Lemma parts_textual_length ingest chunks acc st st' r :
  frame_feed TextualLength.read_header chunks acc st = Some (st', Ok r) →
  process_parts ingest chunks acc (PreTextualLength st) = Some (PreTextualLength st', ingest, Ok r).
Proof.
  revert acc st. induction chunks as [|c chunks IH]; intros acc st; cbn [frame_feed process_parts].
  - by intros [= <- <-].
  - cbn [process]. unfold TextualLength.process.
    destruct (frame_process _ c st) as [[st1 [r1|e]]|]; [|done..]. apply IH.
Qed.

(** What a postprocessor makes of a list of messages, as one stream. *)
Definition stream_of (pp : postprocessor) (ingres egress : N) (msgs : list bytes) : result bytes :=
  match post_parts ingres egress msgs [] pp with Ok l => Ok (mjoin l) | Err e => Err e end.
End parts.

Lemma post_parts_fmap `{!codecs} pp enc ingres egress msgs acc :
  (∀ m, post_process ingres egress m pp = Ok [enc m]) →
  post_parts ingres egress msgs acc pp = Ok (acc ++ (enc <$> msgs)).
Proof.
  intros Henc. revert acc. induction msgs as [|m msgs IH]; intros acc; simpl; [by rewrite app_nil_r|].
  by rewrite Henc, IH, <-(assoc_L (++)).
Qed.

(** ** Lines *)
Lemma split_on_ne sep d : split_on sep d ≠ [].
Proof. induction d as [|c d IH]; simpl; [done|]. destruct (c =? sep)%N; [done|]. by destruct (split_on sep d). Qed.

(** Appending in front of the first, behind the last segment. *)
Lemma split_on_app sep a b :
  split_on sep (a ++ b) =
  match split_on sep b with
  | [] => split_on sep a
  | l :: ls => removelast (split_on sep a) ++ (default [] (last (split_on sep a)) ++ l) :: ls
  end.
Proof.
  destruct (split_on sep b) as [|l ls] eqn:Hb; [by apply split_on_ne in Hb|].
  induction a as [|c a IH]; simpl; [done|]. rewrite IH.
  destruct (split_on sep a) as [|x [|y xs]] eqn:Ha; [by apply split_on_ne in Ha|simpl..].
  - by destruct (c =? sep)%N.
  - by destruct (c =? sep)%N.
Qed.

Lemma split_on_clean sep d : sep ∉ d → split_on sep d = [d].
Proof.
  induction d as [|c d IH]; [done|]. rewrite not_elem_of_cons. intros [Hc Hd]. simpl.
  rewrite (proj2 (N.eqb_neq c sep)) by congruence. by rewrite IH.
Qed.

Lemma split_on_join sep msgs :
  Forall (λ m, sep ∉ m) msgs → split_on sep (mjoin ((λ m, m ++ [sep]) <$> msgs)) = msgs ++ [[]].
Proof.
  induction 1 as [|m msgs Hm _ IH]; [done|].
  change (mjoin ((λ m, m ++ [sep]) <$> m :: msgs)) with ((m ++ [sep]) ++ mjoin ((λ m, m ++ [sep]) <$> msgs)).
  rewrite <-(assoc_L (++)), split_on_app, (split_on_clean sep m Hm). cbn [app split_on].
  rewrite N.eqb_refl, IH. simpl. by rewrite app_nil_r.
Qed.

Lemma split_on_last_clean sep d : sep ∉ default [] (last (split_on sep d)).
Proof.
  induction d as [|c d IH]; [apply not_elem_of_nil|]. simpl.
  pose proof (split_on_ne sep d). destruct (N.eqb_spec c sep) as [->|Hne].
  - by destruct (split_on sep d).
  - destruct (split_on sep d) as [|x [|y xs]]; [done| |exact IH]. simpl in *. apply not_elem_of_cons. by split.
Qed.

(** The loop over complete lines, the last one being a fragment. *)
Lemma rest_loop_ok lines line events (self : Lines.t) :
  Forall (λ l, length l ≤ Lines.max_length self)%nat (lines ++ [line]) → Lines.buffer self = [] →
  Lines.rest_loop (lines ++ [line]) events self = (Lines.set_buffer line self, Ok (events ++ lines)).
Proof.
  intros Hall Hbuf. revert events. induction lines as [|l lines IH]; intros events.
  - simpl in *. unfold Lines.save_fragment. rewrite Hbuf. simpl.
    inversion Hall as [|? ? Hl _]; subst. rewrite (proj2 (Nat.leb_le _ _)) by done. by rewrite app_nil_r.
  - inversion Hall as [|? ? Hl Hall']; subst. cbn [app Lines.rest_loop].
    destruct (lines ++ [line]) as [|x xs] eqn:Hx; [by destruct lines|].
    rewrite IH by done. unfold Lines.is_valid_line. rewrite (proj2 (Nat.leb_le _ _) Hl), orb_true_r.
    by rewrite <-(assoc_L (++)).
Qed.

(** A buffered line splitter holds the last segment of what it was fed. *)
Lemma lines_process (self : Lines.t) data lines line :
  Lines.is_buffered self = true → Lines.separator self ∉ Lines.buffer self →
  split_on (Lines.separator self) (Lines.buffer self ++ data) = lines ++ [line] →
  Forall (λ l, length l ≤ Lines.max_length self)%nat (lines ++ [line]) →
  Lines.process data self = (Lines.set_buffer line self, Ok lines).
Proof.
  intros Hb Hclean Hsplit Hall. unfold Lines.process. rewrite Hb. simpl.
  rewrite split_on_app, (split_on_clean _ _ Hclean) in Hsplit.
  destruct (split_on (Lines.separator self) data) as [|l ls] eqn:Hd; [by apply split_on_ne in Hd|].
  simpl in Hsplit. destruct ls as [|l2 ls _] using rev_ind.
  - destruct lines as [|? [|? ?]]; simplify_eq/=. inversion Hall as [|? ? Hl _]; subst.
    unfold Lines.save_fragment. rewrite length_app in Hl. by rewrite (proj2 (Nat.leb_le _ _) Hl).
  - rewrite app_comm_cons in Hsplit. apply app_inj_tail in Hsplit as [<- <-].
    assert (∃ x xs, ls ++ [l2] = x :: xs) as (x & xs & Hx) by (destruct ls; eauto).
    rewrite Hx; cbv iota; rewrite <-Hx.
    inversion Hall as [|? ? Hl Hall']; subst. unfold Lines.complete_fragment.
    rewrite length_app in Hl. rewrite (proj2 (Nat.leb_le _ _) Hl).
    case_bool_decide as Hnil; simpl.
    + rewrite Hnil in *. simpl in *. unfold Lines.is_valid_line. rewrite (proj2 (Nat.leb_le _ _) Hl), orb_true_r.
      by rewrite rest_loop_ok.
    + by rewrite rest_loop_ok.
Qed.

Lemma lines_feed `{!codecs} ingest chunks acc (self : Lines.t) lines line :
  Lines.is_buffered self = true → Lines.separator self ∉ Lines.buffer self →
  split_on (Lines.separator self) (Lines.buffer self ++ mjoin chunks) = lines ++ [line] →
  Forall (λ l, length l ≤ Lines.max_length self)%nat (lines ++ [line]) →
  process_parts ingest chunks acc (PreLines self) = Some (PreLines (Lines.set_buffer line self), ingest, Ok (acc ++ lines)).
Proof.
  revert acc self lines. induction chunks as [|c chunks IH]; intros acc self lines Hb Hclean Hsplit Hall; cbn [process_parts].
  - change (mjoin (@nil bytes)) with (@nil N) in Hsplit. rewrite app_nil_r, split_on_clean in Hsplit by done.
    destruct lines as [|? [|? ?]]; simplify_eq/=. rewrite app_nil_r. by destruct self.
  - change (mjoin (c :: chunks)) with (c ++ mjoin chunks) in Hsplit. rewrite (assoc_L (++)), split_on_app in Hsplit.
    destruct (split_on (Lines.separator self) (mjoin chunks)) as [|l ls] eqn:Hrest; [by apply split_on_ne in Hrest|].
    pose proof (split_on_ne (Lines.separator self) (Lines.buffer self ++ c)) as Hne.
    pose proof (split_on_last_clean (Lines.separator self) (Lines.buffer self ++ c)) as Hlast.
    destruct (split_on (Lines.separator self) (Lines.buffer self ++ c)) as [|line1 lines1 _] eqn:Hc using rev_ind; [done|].
    rewrite last_snoc in *. rewrite removelast_last in Hsplit. simpl in Hlast, Hsplit.
    rewrite <-Hsplit in Hall. apply Forall_app in Hall as [Hall1 Hall2].
    assert (length line1 + length l ≤ Lines.max_length self)%nat as Hl.
    { inversion Hall2 as [|? ? Hx _]; subst. by rewrite length_app in Hx. }
    destruct (exists_last (l:=(line1 ++ l) :: ls)) as (lines2 & x & Heq); [done|].
    rewrite Heq, (assoc_L (++)) in Hsplit. apply app_inj_tail in Hsplit as [<- <-].
    cbn [process]. rewrite (lines_process self c lines1 line1); [|done..|].
    2: { apply Forall_app. split; [done|]. constructor; [lia|done]. }
    simpl. rewrite (IH _ (Lines.set_buffer line1 self) lines2); [by rewrite <-(assoc_L (++))|done|done| |].
    + simpl. by rewrite split_on_app, Hrest, (split_on_clean _ line1 Hlast).
    + simpl. by rewrite <-Heq.
Qed.

(** C34: lines survive the wire: the stream the line framing makes of messages
    without line breaks, cut into packets in any way, is split back into
    exactly these messages in order by a buffering line splitter (with no
    line longer than its limit), and nothing is left in its buffer. *)
Theorem lines_roundtrip `{!codecs} (ingres egress ingest : N) (msgs chunks : list bytes) (self : Lines.t)
    (Hb : Lines.is_buffered self = true) (Hsep : Lines.separator self = 10%N) (Hempty : Lines.buffer self = [])
    (Hmsgs : Forall (λ m, 10%N ∉ m ∧ length m ≤ Lines.max_length self)%nat msgs)
    (Hstream : stream_of PostLines ingres egress msgs = Ok (mjoin chunks)) :
  process_parts ingest chunks [] (PreLines self) = Some (PreLines self, ingest, Ok msgs).
Proof.
  unfold stream_of in Hstream. rewrite (post_parts_fmap _ (λ m, m ++ [10%N])) in Hstream by done.
  injection Hstream as Hstream.
  rewrite (lines_feed ingest chunks [] self msgs []); [|done| | |].
  - rewrite <-Hempty. by destruct self.
  - rewrite Hempty. apply not_elem_of_nil.
  - rewrite Hempty, Hsep. simpl. rewrite <-Hstream. apply split_on_join.
    eapply Forall_impl; [exact Hmsgs|]. by intros m [? _].
  - apply Forall_app. split; [|constructor; [simpl; lia|done]].
    eapply Forall_impl; [exact Hmsgs|]. by intros m [_ ?].
Qed.

Lemma lines_roundtrip_witness :
  let _ := stored_codecs in
  process_parts 0 [[104; 10; 105]; [33; 10]]%N [] (PreLines (Lines.new 10 80 true)) =
    Some (PreLines (Lines.new 10 80 true), 0%N, Ok [[104]; [105; 33]]%N).
Proof.
  intros c. apply (lines_roundtrip 0 0); try reflexivity. repeat constructor; set_solver.
Defined.

(** length prefixed messages survive the wire: the stream, cut into
    packets in any way, is split back into exactly the messages in order,
    and the decoder is in its initial state afterwards. The last message must
    not be empty: the decoder waits for a byte behind an empty one. *)
Theorem length_prefix_roundtrip `{!codecs} (ingres egress ingest : N) (msgs chunks : list bytes)
    (Hlen : Forall (λ m, u64_ok (N.of_nat (length m))) msgs) (Hlast : last msgs ≠ Some [])
    (Hstream : stream_of PostLengthPrefix ingres egress msgs = Ok (mjoin chunks)) :
  process_parts ingest chunks [] (PreLengthPrefix frame_default) = Some (PreLengthPrefix frame_default, ingest, Ok msgs).
Proof.
  unfold stream_of in Hstream. set (enc := λ m : bytes, be_bytes 8 (N.of_nat (length m)) ++ m).
  rewrite (post_parts_fmap _ enc) in Hstream by done. injection Hstream as Hstream.
  apply parts_length_prefix.
  destruct (frames_read LengthPrefix.read_header enc
    (λ m rest, u64_ok (N.of_nat (length m)) ∧ (m ++ rest ≠ [])) eq_refl) with msgs (@nil bytes) as [fuel Hf].
  - intros m rest [Hm Hne]. unfold LengthPrefix.read_header, enc. rewrite <-(assoc_L (++)).
    rewrite length_app, length_be_bytes, (proj2 (Nat.ltb_lt 8 _)).
    2: { destruct (m ++ rest); [done|simpl; lia]. }
    rewrite take_app_length' by (by rewrite length_be_bytes). rewrite drop_app_length' by (by rewrite length_be_bytes).
    rewrite be_value_bytes by done. by rewrite Nat2N.id.
  - intros pre m post ->. apply Forall_app in Hlen as [_ Hlen]. split; [by inversion Hlen|].
    destruct post as [|m' post].
    + rewrite last_snoc in Hlast. destruct m; [done|]. done.
    + destruct m; [|done]. change (mjoin (enc <$> m' :: post)) with (enc m' ++ mjoin (enc <$> post)).
      intros [_ [[Heq%(f_equal length) _]%app_eq_nil _]%app_eq_nil]%app_eq_nil.
      by rewrite length_be_bytes in Heq.
  - eapply frame_feed_all; [apply _| |].
    + intros [|f] x; [done|]. intros [= <-]. done.
    + unfold add. simpl. rewrite <-Hstream. exact Hf.
Qed.

Lemma length_prefix_roundtrip_witness :
  let _ := stored_codecs in
  process_parts 0 [be_bytes 8 2 ++ [7]; [8] ++ be_bytes 8 1 ++ [9]]%N [] (PreLengthPrefix frame_default) =
    Some (PreLengthPrefix frame_default, 0%N, Ok [[7; 8]; [9]]%N).
Proof.
  intros c. apply (length_prefix_roundtrip 0 0); [repeat constructor|discriminate|reflexivity].
Defined.

(** The last message is held back when it is empty. *)
Example length_prefix_holds_back `{!codecs} :
  stream_of PostLengthPrefix 0 0 [[]] = Ok (replicate 8 0%N) ∧
  process 0 (replicate 8 0%N) (PreLengthPrefix frame_default) =
    Some (PreLengthPrefix (mk_frame None (replicate 8 0%N)), 0%N, Ok []).
Proof. by split. Qed.

(** messages with a textual length survive the wire: the stream, cut into
    packets in any way, is split back into exactly the messages in order,
    empty ones included, as long as their lengths fit the 32 bits the
    decoder parses. *)
Theorem textual_length_roundtrip `{!codecs} (ingres egress ingest : N) (msgs chunks : list bytes)
    (Hlen : Forall (λ m, (N.of_nat (length m) < 4294967296)%N) msgs)
    (Hstream : stream_of PostTextualLength ingres egress msgs = Ok (mjoin chunks)) :
  process_parts ingest chunks [] (PreTextualLength frame_default) = Some (PreTextualLength frame_default, ingest, Ok msgs).
Proof.
  unfold stream_of in Hstream. set (enc := λ m : bytes, string_bytes (pretty (length m)) ++ [32%N] ++ m).
  rewrite (post_parts_fmap _ enc) in Hstream by done. injection Hstream as Hstream.
  apply parts_textual_length.
  destruct (frames_read TextualLength.read_header enc
    (λ m _, (N.of_nat (length m) < 4294967296)%N) eq_refl) with msgs (@nil bytes) as [fuel Hf].
  - intros m rest Hm. destruct (pretty_nat_parse (length m) Hm) as [Hp Hdigits].
    unfold TextualLength.read_header, enc. rewrite <-!(assoc_L (++)).
    set (ds := string_bytes (pretty (length m))) in *.
    assert (list_find (λ c, TextualLength.is_ascii_whitespace c = true) (ds ++ [32%N] ++ m ++ rest) =
      Some (length ds, 32%N)) as ->.
    { apply list_find_Some. split_and!; [by apply list_lookup_middle|done|].
      intros j c Hj Hlt. rewrite lookup_app_l in Hj by done. rewrite Forall_forall in Hdigits.
      specialize (Hdigits c ltac:(by eapply list_elem_of_lookup_2)). unfold digit_char in Hdigits.
      unfold TextualLength.is_ascii_whitespace.
      rewrite !(proj2 (N.eqb_neq c _)) by lia. done. }
    rewrite take_app_length, drop_app_length, Hp. simpl. by rewrite Nat2N.id.
  - intros pre m post ->. apply Forall_app in Hlen as [_ Hlen]. by inversion Hlen.
  - eapply frame_feed_all; [apply _| |].
    + intros [|f] x; [done|]. intros [= <-]. done.
    + unfold add. simpl. rewrite <-Hstream. exact Hf.
Qed.

Lemma textual_length_roundtrip_witness :
  let _ := stored_codecs in
  process_parts 0 [[50; 32; 7]; [8; 48; 32]]%N [] (PreTextualLength frame_default) =
    Some (PreTextualLength frame_default, 0%N, Ok [[7; 8]; []]%N).
Proof.
  intros c. apply (textual_length_roundtrip 0 0); [repeat constructor|vm_compute; reflexivity].
Defined.

(** A length that does not parse blocks the stream: the whitespace behind it
    stays in front of the buffer, and every later call fails on the empty
    length before it, whatever data comes. *)
Lemma textual_length_stuck c b data :
  TextualLength.is_ascii_whitespace c = true →
  TextualLength.process data (mk_frame None (c :: b)) =
    Some (mk_frame None (c :: b ++ data), Err (EMsg "invalid length")).
Proof.
  intros Hc. unfold TextualLength.process, frame_process. cbn [fr_len fr_buffer length frame_loop app].
  unfold after_frame, TextualLength.read_header.
  assert (list_find (λ c, TextualLength.is_ascii_whitespace c = true) (c :: b ++ data) = Some (0%nat, c)) as ->.
  { apply list_find_Some. by split_and!; [|done|intros j ? _ ?; lia]. }
  done.
Qed.
