(* ===== verification/Gelf.v ===== *)
(** GELF chunking: src/preprocessor/gelf.rs and src/postprocessor/gelf.rs.

    The random number the decoder draws for unchunked messages is an argument
    of [decode_gelf] and [process]. *)
From S2P Require Import Prelude Wal Frames.

(** ** The encoder *)

(** [slice::chunks]: pieces of [k] bytes, the last one may be shorter. *)
Definition chunks (k : nat) (data : bytes) : list bytes :=
  (λ i, take k (drop (i * k) data)) <$> seq 0 ((length data + k - 1) / k).

Module GelfEncoder.
Record t := mk { id : u64; chunk_size : nat }.
Definition default : t := mk 0 8192.

Definition encode_part (id : u64) (n i : nat) (chunk : bytes) : bytes :=
  [30; 15]%N ++ be_bytes 8 id ++ [(N.of_nat i mod 256)%N; (N.of_nat n mod 256)%N] ++ chunk.

Definition encode_gelf (data : bytes) (self : t) : t * result (list bytes) :=
  let cs := chunks (chunk_size self - 12) data in
  let n := length cs in
  if (128 <? n)%nat then (self, Err (EMsg "[GELF encoder] Maximum number of chunks is 128"))
  else (mk (u64_add (id self) 1) (chunk_size self), Ok (imap (encode_part (id self) n) cs)).
End GelfEncoder.

(** ** The decoder *)
Definition FIVE_SEC : N := 5000000000.

Module GelfMsgs.
Record t := mk { count : N; stored : N; bytes_ : nat; segments : list (option bytes) }.
End GelfMsgs.

Module GelfSegment.
Record t := mk { id : N; seq : N; count : N; data : bytes }.
End GelfSegment.

(** [rnd] is [OsRng.next_u64()]. *)
Definition decode_gelf (rnd : N) (bin : bytes) : result GelfSegment.t :=
  match bin with
  | 31%N :: 60%N :: rest => Ok (GelfSegment.mk rnd 0 1 rest)
  | 30%N :: 15%N :: b2 :: b3 :: b4 :: b5 :: b6 :: b7 :: b8 :: b9 :: seq :: count :: rest =>
      Ok (GelfSegment.mk (be_value [b2; b3; b4; b5; b6; b7; b8; b9]) seq count rest)
  | 123%N :: _ :: _ => Ok (GelfSegment.mk 0 0 1 bin)
  | a :: b :: _ => Err (EInvalidGelfHeader (length bin) (Some (a, b)))
  | [v] => Err (EInvalidGelfHeader 1 (Some (v, 0%N)))
  | [] => Err (EInvalidGelfHeader 0 None)
  end.

Definition assemble (m : GelfMsgs.t) : option bytes :=
  mjoin <$> mapM id (GelfMsgs.segments m).

Module Gelf.
Record t := mk {
  buffer : gmap N GelfMsgs.t;
  last_buffer : gmap N GelfMsgs.t;
  last_swap : u64;
  cnt : nat;
  is_tcp : bool;
}.
Definition default : t := mk ∅ ∅ 0 0 false.
Definition tcp : t := mk ∅ ∅ 0 0 true.
Definition set_buffer (b : gmap N GelfMsgs.t) (self : t) : t :=
  mk b (last_buffer self) (last_swap self) (cnt self) (is_tcp self).
Definition set_last_buffer (b : gmap N GelfMsgs.t) (self : t) : t :=
  mk (buffer self) b (last_swap self) (cnt self) (is_tcp self).

(** The part of [enqueue] for a message some chunks of which were seen:
    [None] in the first component takes the message out of its map. *)
Definition add_chunk (m : GelfMsgs.t) (msg : GelfSegment.t) : option GelfMsgs.t * option bytes :=
  let idx := N.to_nat (GelfSegment.seq msg) in
  match GelfMsgs.segments m !! idx with
  | Some None =>
    let m := GelfMsgs.mk (GelfMsgs.count m) ((GelfMsgs.stored m + 1) mod 256)
               (GelfMsgs.bytes_ m + length (GelfSegment.data msg))
               (<[idx := Some (GelfSegment.data msg)]> (GelfMsgs.segments m)) in
    if (GelfMsgs.stored m =? GelfMsgs.count m)%N then (None, assemble m) else (Some m, None)
  | _ => (None, None)
  end.
Definition put (k : N) (m : option GelfMsgs.t) (b : gmap N GelfMsgs.t) : gmap N GelfMsgs.t :=
  match m with Some m => <[k := m]> b | None => delete k b end.

Definition swap_buffers (ingest_ns : u64) (self : t) : t :=
  if (FIVE_SEC <? u64_sub ingest_ns (last_swap self))%N
  then mk ∅ (buffer self) ingest_ns (cnt self) (is_tcp self)
  else self.

Definition enqueue (ingest_ns : u64) (msg : GelfSegment.t) (self : t) : t * option bytes :=
  let self := swap_buffers ingest_ns self in
  if (GelfSegment.count msg =? 1)%N then (self, Some (GelfSegment.data msg)) else
  let idx := N.to_nat (GelfSegment.seq msg) in
  let key := GelfSegment.id msg in
  match buffer self !! key with
  | None =>
    match last_buffer self !! key with
    | Some m =>
      let '(m, r) := add_chunk m msg in (set_last_buffer (put key m (last_buffer self)) self, r)
    | None =>
      let segments := replicate (N.to_nat (GelfSegment.count msg)) None in
      match segments !! idx with
      | None => (self, None)
      | Some _ =>
        let m := GelfMsgs.mk (GelfSegment.count msg) 1 (length (GelfSegment.data msg))
                   (<[idx := Some (GelfSegment.data msg)]> segments) in
        if (GelfMsgs.stored m =? GelfMsgs.count m)%N then (self, assemble m)
        else (set_buffer (<[key := m]> (buffer self)) self, None)
      end
    end
  | Some m => let '(m, r) := add_chunk m msg in (set_buffer (put key m (buffer self)) self, r)
  end.

(** [data.len() - 1] wraps for empty data, the slice is then out of range. *)
Definition process (rnd : N) (ingest_ns : u64) (data : bytes) (self : t) : t * result (list bytes) :=
  match decode_gelf rnd data with
  | Err e => (self, Err e)
  | Ok msg =>
    match enqueue ingest_ns msg self with
    | (self, Some data) =>
      if is_tcp self
      then (self, Ok (if bool_decide (data = []) then [] else [take (length data - 1) data]))
      else (self, Ok [data])
    | (self, None) => (self, Ok [])
    end
  end.

(** Packets with their times, in the order they arrive. *)
Fixpoint feed (rnd : N) (packets : list (N * bytes)) (self : t) : t * result (list bytes) :=
  match packets with
  | [] => (self, Ok [])
  | (ns, p) :: packets =>
    match process rnd ns p self with
    | (self, Err e) => (self, Err e)
    | (self, Ok r) => let '(self, rs) := feed rnd packets self in (self, app r <$> rs)
    end
  end.
End Gelf.

(** ** Reassembly *)
Lemma mapM_id_fmap {A} (l : list A) : mapM id (Some <$> l) = Some l.
Proof. by apply mapM_Some, Forall2_fmap_l, Forall_Forall2_diag, Forall_forall. Qed.

Lemma be_bytes_8 v : ∃ b0 b1 b2 b3 b4 b5 b6 b7, be_bytes 8 v = [b0; b1; b2; b3; b4; b5; b6; b7].
Proof. simpl. repeat eexists. Qed.

Lemma decode_part rnd id n i chunk :
  u64_ok id → (n ≤ 128)%nat → (i < n)%nat →
  decode_gelf rnd (GelfEncoder.encode_part id n i chunk) = Ok (GelfSegment.mk id (N.of_nat i) (N.of_nat n) chunk).
Proof.
  intros Hid Hn Hi. unfold GelfEncoder.encode_part. rewrite !N.mod_small by lia.
  pose proof (be_value_bytes 8 id Hid) as Hv.
  destruct (be_bytes_8 id) as (b0 & b1 & b2 & b3 & b4 & b5 & b6 & b7 & Hb). rewrite Hb in *. simpl app.
  unfold decode_gelf. by rewrite Hv.
Qed.

Lemma chunks_join k data : (0 < k)%nat → mjoin (chunks k data) = data.
Proof.
  intros Hk. unfold chunks. set (n := ((length data + k - 1) / k)%nat).
  assert (length data ≤ n * k)%nat as Hn.
  { unfold n. pose proof (Nat.div_mod_eq (length data + k - 1) k).
    pose proof (Nat.mod_upper_bound (length data + k - 1) k). lia. }
  clearbody n. revert data Hn. induction n as [|n IH]; intros data Hn.
  - simpl in *. destruct data; [done|simpl in *; lia].
  - cbn [seq]. rewrite fmap_cons, <-fmap_S_seq, <-list_fmap_compose.
    change (mjoin (?x :: ?l)) with (x ++ mjoin l). simpl (0 * k)%nat. rewrite drop_0.
    rewrite (list_fmap_ext _ (λ i, take k (drop (i * k) (drop k data)))).
    2: { intros _ i _. simpl. by rewrite drop_drop. }
    rewrite IH; [apply take_drop|]. rewrite length_drop. lia.
Qed.

Section reassembly.
Context (id : N) (cs : list bytes) (self0 : Gelf.t).
Context (Hid : u64_ok id) (Hlo : (2 ≤ length cs)%nat) (Hhi : (length cs ≤ 128)%nat).
Context (Hnone : Gelf.buffer self0 !! id = None) (Hlast : Gelf.last_buffer self0 !! id = None).

Definition seen (got : list nat) (i : nat) (c : bytes) : option bytes := if bool_decide (i ∈ got) then Some c else None.

(** The entry of the message when the chunks [got] arrived. *)
Definition msgs_of (got : list nat) : GelfMsgs.t :=
  GelfMsgs.mk (N.of_nat (length cs)) (N.of_nat (length got)) (sum_list ((λ i, length (default [] (cs !! i))) <$> got))
    (imap (seen got) cs).
Definition hold (got : list nat) : Gelf.t :=
  match got with [] => self0 | _ => Gelf.set_buffer (<[id := msgs_of got]> (Gelf.buffer self0)) self0 end.

Definition segment (i : nat) (c : bytes) : GelfSegment.t := GelfSegment.mk id (N.of_nat i) (N.of_nat (length cs)) c.

Lemma seen_insert got i c :
  cs !! i = Some c → <[i := Some c]> (imap (seen got) cs) = imap (seen (i :: got)) cs.
Proof.
  intros Hc. apply list_eq. intros j. rewrite list_lookup_imap.
  destruct (decide (i = j)) as [<-|Hne].
  - rewrite list_lookup_insert_eq by (rewrite length_imap; by eapply lookup_lt_Some). rewrite Hc. simpl.
    unfold seen. rewrite bool_decide_eq_true_2; [done|by left].
  - rewrite list_lookup_insert_ne by done. rewrite list_lookup_imap. destruct (cs !! j); [simpl|done].
    unfold seen. rewrite (bool_decide_ext (j ∈ got) (j ∈ i :: got)); [done|].
    rewrite elem_of_cons. split; [by right|]. by intros [->|].
Qed.

Lemma seen_nil : imap (seen []) cs = replicate (length cs) None.
Proof.
  apply list_eq. intros j. rewrite list_lookup_imap. destruct (cs !! j) eqn:Hj; simpl.
  - symmetry. apply lookup_replicate_2. by eapply lookup_lt_Some.
  - symmetry. apply lookup_ge_None_2. rewrite length_replicate. by apply lookup_ge_None_1 in Hj.
Qed.

(** All chunks are there when as many as there are came without repetition. *)
Lemma seen_all got :
  NoDup got → Forall (λ i, i < length cs)%nat got → length got = length cs → imap (seen got) cs = Some <$> cs.
Proof.
  intros Hnd Hlt Hlen. apply list_eq. intros j. rewrite list_lookup_imap, list_lookup_fmap.
  destruct (cs !! j) as [c|] eqn:Hj; [simpl|done]. unfold seen. rewrite bool_decide_eq_true_2; [done|].
  assert (seq 0 (length cs) ≡ₚ got) as Hp.
  { symmetry. apply submseteq_length_Permutation; [|rewrite length_seq; lia].
    apply NoDup_submseteq; [done|]. intros x Hx. rewrite Forall_forall in Hlt. apply elem_of_seq. split; [lia|].
    by apply Hlt. }
  rewrite <-Hp. apply elem_of_seq. apply lookup_lt_Some in Hj. lia.
Qed.

Lemma no_swap ns got : (u64_sub ns (Gelf.last_swap self0) ≤ FIVE_SEC)%N → Gelf.swap_buffers ns (hold got) = hold got.
Proof.
  intros Hns. unfold Gelf.swap_buffers.
  assert (Gelf.last_swap (hold got) = Gelf.last_swap self0) as -> by (by destruct got).
  by rewrite (proj2 (N.ltb_ge _ _) Hns).
Qed.

Lemma enqueue_step ns got i c :
  (u64_sub ns (Gelf.last_swap self0) ≤ FIVE_SEC)%N →
  NoDup (i :: got) → Forall (λ i, i < length cs)%nat (i :: got) → cs !! i = Some c →
  Gelf.enqueue ns (segment i c) (hold got) =
  if decide (S (length got) = length cs) then (self0, Some (mjoin cs)) else (hold (i :: got), None).
Proof.
  intros Hns Hnd Hlt Hc. unfold Gelf.enqueue. rewrite no_swap by done. cbn [segment GelfSegment.count GelfSegment.id].
  assert (length (i :: got) ≤ length cs)%nat as Hle.
  { pose proof (submseteq_length (i :: got) (seq 0 (length cs))) as Hsub. rewrite length_seq in Hsub.
    apply Hsub, NoDup_submseteq; [done|]. intros x Hx. rewrite Forall_forall in Hlt. apply elem_of_seq. specialize (Hlt x Hx). lia. }
  rewrite (proj2 (N.eqb_neq _ 1)) by lia. pose proof (seen_insert got i c Hc) as Hins.
  assert (sum_list ((λ i, length (default [] (cs !! i))) <$> i :: got) =
    sum_list ((λ i, length (default [] (cs !! i))) <$> got) + length c)%nat as Hsum.
  { rewrite fmap_cons. simpl. rewrite Hc. simpl. lia. }
  assert (S (length got) = length cs → assemble (msgs_of (i :: got)) = Some (mjoin cs)) as Hall.
  { intros Heq. unfold assemble, msgs_of. cbn [GelfMsgs.segments]. rewrite seen_all by done. by rewrite mapM_id_fmap. }
  destruct got as [|g got'].
  - cbn [hold]. rewrite Hnone, Hlast. cbn [segment GelfSegment.seq GelfSegment.data]. rewrite !Nat2N.id.
    assert (i < length cs)%nat as Hi by (by eapply lookup_lt_Some).
    rewrite (lookup_replicate_2 _ _ _ Hi), <-seen_nil, Hins. cbn [GelfMsgs.stored GelfMsgs.count].
    rewrite (proj2 (N.eqb_neq 1 _)) by lia. rewrite decide_False by (simpl; lia).
    unfold msgs_of. rewrite Hsum. done.
  - set (got := g :: got') in *.
    change (hold got) with (Gelf.set_buffer (<[id := msgs_of got]> (Gelf.buffer self0)) self0).
    clearbody got. cbn [Gelf.set_buffer Gelf.buffer]. rewrite lookup_insert, decide_True by done.
    unfold Gelf.add_chunk. cbn [segment GelfSegment.seq GelfSegment.data msgs_of GelfMsgs.segments GelfMsgs.stored
      GelfMsgs.count GelfMsgs.bytes_]. rewrite Nat2N.id, list_lookup_imap, Hc. cbn [fmap option_fmap option_map seen].
    inversion Hnd as [|? ? Hni _]; subst.
    assert (seen got i c = None) as -> by (unfold seen; by rewrite bool_decide_eq_false_2).
    rewrite N.mod_small by (simpl in Hle; lia). rewrite Hins, <-Hsum.
    replace (N.of_nat (length got) + 1)%N with (N.of_nat (length (i :: got))) by (simpl; lia).
    fold (msgs_of (i :: got)). destruct (decide (S (length got) = length cs)) as [Heq|Hneq].
    + rewrite (proj2 (N.eqb_eq _ _)) by (by rewrite <-Heq). rewrite Hall by done. unfold Gelf.put.
      rewrite delete_insert_eq, delete_id by done. by destruct self0.
    + rewrite (proj2 (N.eqb_neq _ _)) by (simpl; lia). unfold Gelf.put. by rewrite insert_insert_eq.
Qed.
End reassembly.

(** The decoder for tcp takes the last byte of a message for its end mark. *)
Definition handed_on (self : Gelf.t) (data : bytes) : bytes :=
  if Gelf.is_tcp self then take (length data - 1) data else data.

(** The message is handed on with the last packet, not before. *)
Definition completes (rnd : N) (packets : list (N * bytes)) (self self' : Gelf.t) (data : bytes) : Prop :=
  ∃ before ns p self1, packets = before ++ [(ns, p)] ∧ Gelf.feed rnd before self = (self1, Ok []) ∧
    Gelf.process rnd ns p self1 = (self', Ok [data]).

Section feeding.
Context (id : N) (cs : list bytes) (self0 : Gelf.t).
Context (Hid : u64_ok id) (Hlo : (2 ≤ length cs)%nat) (Hhi : (length cs ≤ 128)%nat).
Context (Hnone : Gelf.buffer self0 !! id = None) (Hlast : Gelf.last_buffer self0 !! id = None).
Context (Hcs : mjoin cs ≠ []).

Definition part (i : nat) : bytes := GelfEncoder.encode_part id (length cs) i (default [] (cs !! i)).

Lemma process_step rnd ns got i :
  (u64_sub ns (Gelf.last_swap self0) ≤ FIVE_SEC)%N → NoDup (i :: got) → Forall (λ i, i < length cs)%nat (i :: got) →
  Gelf.process rnd ns (part i) (hold id cs self0 got) =
  if decide (S (length got) = length cs) then (self0, Ok [handed_on self0 (mjoin cs)])
  else (hold id cs self0 (i :: got), Ok []).
Proof.
  intros Hns Hnd Hlt. pose proof (Forall_inv Hlt) as Hi. destruct (lookup_lt_is_Some_2 cs i Hi) as [c Hc].
  unfold Gelf.process, part. rewrite decode_part, Hc by done. simpl default. fold (segment id cs i c).
  rewrite enqueue_step by done. destruct (decide _); [|done].
  unfold handed_on. destruct (Gelf.is_tcp self0); [|done]. by rewrite bool_decide_eq_false_2.
Qed.

(** What is left to arrive completes the message. *)
Lemma feed_rest rnd packets idxs got :
  Forall (λ p : N * bytes, u64_sub p.1 (Gelf.last_swap self0) ≤ FIVE_SEC)%N packets →
  packets.*2 = part <$> idxs → idxs ≠ [] → idxs ++ got ≡ₚ seq 0 (length cs) →
  completes rnd packets (hold id cs self0 got) self0 (handed_on self0 (mjoin cs)).
Proof.
  intros Hns. revert idxs got. induction Hns as [|[ns p] packets Hp Hns IH]; intros idxs got Hparts Hne Hperm;
    (destruct idxs as [|i idxs]; [done|]); simplify_eq/=.
  assert (NoDup (i :: got) ∧ Forall (λ i, i < length cs)%nat (i :: got)) as [Hnd Hlt].
  { assert (NoDup ((i :: idxs) ++ got)) as Hnd by (simpl; rewrite Hperm; apply NoDup_seq).
    split.
    - simpl in Hnd. rewrite NoDup_cons, NoDup_app, not_elem_of_app in Hnd. apply NoDup_cons. by destruct_and!.
    - apply Forall_forall. intros x Hx.
      assert (x ∈ seq 0 (length cs)) as Hs; [|apply elem_of_seq in Hs; lia].
      rewrite <-Hperm, elem_of_cons, elem_of_app. apply elem_of_cons in Hx as [->|]; [by left|by right; right]. }
  pose proof (Permutation_length Hperm) as Hlen. simpl in Hlen. rewrite length_app, length_seq in Hlen.
  pose proof (process_step rnd ns got i Hp Hnd Hlt) as Hstep. destruct (decide (S (length got) = length cs)).
  - destruct idxs; [|simpl in Hlen; lia]. destruct packets; [|by simplify_eq/=]. by exists [], ns, (part i), (hold id cs self0 got).
  - destruct (IH idxs (i :: got)) as (before & ns' & p & self1 & -> & Hf & Hl);
      [done|by destruct idxs; simpl in *; [lia|]|by rewrite <-Permutation_middle|].
    exists ((ns, part i) :: before), ns', p, self1. split_and!; [done| |done]. cbn [Gelf.feed]. by rewrite Hstep, Hf.
Qed.
End feeding.

(** A decoder between messages: nothing is known of this id. *)
Definition unseen (id : N) (self : Gelf.t) : Prop :=
  Gelf.buffer self !! id = None ∧ Gelf.last_buffer self !! id = None.

Lemma encode_parts id cs : imap (GelfEncoder.encode_part id (length cs)) cs = part id cs <$> seq 0 (length cs).
Proof.
  apply list_eq. intros i. rewrite list_lookup_imap, list_lookup_fmap.
  destruct (cs !! i) as [c|] eqn:Hc; simpl.
  - rewrite lookup_seq_lt by (by eapply lookup_lt_Some). simpl. unfold part. by rewrite Hc.
  - by rewrite lookup_seq_ge by (by apply lookup_ge_None_1).
Qed.

(** C38: a chunked GELF message is put together again whatever order its packets
    arrive in: the packets the encoder makes of a non empty message, in any
    order, yield the message exactly once, with the last of them and nothing
    before, and leave the decoder as it was.  The chunks are larger than their
    headers (12 bytes), the decoder holds nothing under the id of the message,
    no clean-up is due while the packets arrive (five seconds), and no other
    packet comes in between.  The decoder for udp hands the message on as it
    was, the one for tcp without its last byte, which it takes for an end mark
    although the encoder writes none. *)
Theorem gelf_reassembly (enc enc' : GelfEncoder.t) (dec : Gelf.t) (rnd : N) (data : bytes)
    (parts : list bytes) (packets : list (N * bytes))
    (Hsize : (12 < GelfEncoder.chunk_size enc)%nat) (Hid : u64_ok (GelfEncoder.id enc)) (Hdata : data ≠ [])
    (Henc : GelfEncoder.encode_gelf data enc = (enc', Ok parts))
    (Hperm : packets.*2 ≡ₚ parts) (Hunseen : unseen (GelfEncoder.id enc) dec)
    (Htime : Forall (λ p : N * bytes, u64_sub p.1 (Gelf.last_swap dec) ≤ FIVE_SEC)%N packets) :
  completes rnd packets dec dec (if Gelf.is_tcp dec then take (length data - 1) data else data).
Proof.
  change (if Gelf.is_tcp dec then take (length data - 1) data else data) with (handed_on dec data).
  unfold GelfEncoder.encode_gelf in Henc.
  set (cs := chunks (GelfEncoder.chunk_size enc - 12) data) in *.
  assert (mjoin cs = data) as Hjoin by (apply chunks_join; lia). clearbody cs. subst data.
  destruct (Nat.ltb_spec 128 (length cs)); [done|]. injection Henc as <- <-. rewrite encode_parts in Hperm.
  apply Permutation_map_inv in Hperm as (idxs & Hparts & Hidx).
  destruct Hunseen as [Hnone Hlast].
  destruct (decide (2 ≤ length cs)%nat) as [Hlo|Hlo].
  - apply (feed_rest (GelfEncoder.id enc) cs dec Hid Hlo H Hnone Hlast Hdata rnd packets idxs []); [done|done| |].
    + intros ->. apply Permutation_length in Hidx. rewrite length_seq in Hidx. simpl in Hidx. lia.
    + by rewrite app_nil_r.
  - destruct cs as [|c [|? ?]]; [done| |simpl in Hlo; lia].
    simpl in Hidx. apply Permutation_length_1_inv in Hidx. subst idxs. destruct packets as [|[ns p] [|? ?]]; simplify_eq/=.
    inversion Htime as [|? ? Hns _]; subst. eexists [], ns, _, dec. split_and!; [done|done|].
    unfold Gelf.process, part. rewrite decode_part by (simpl; lia || done).
    unfold Gelf.enqueue, Gelf.swap_buffers. simpl in Hns. rewrite (proj2 (N.ltb_ge _ _) Hns). cbn in *.
    change (N.of_nat 1 =? 1)%N with true. cbv iota. rewrite app_nil_r in *. unfold handed_on.
    destruct (Gelf.is_tcp dec); [|done]. by rewrite bool_decide_eq_false_2.
Qed.

(** What the tcp decoder makes of a message of one packet. *)
Example tcp_loses_last_byte :
  let dec := Gelf.mk ∅ ∅ 0 0 true in
  match GelfEncoder.encode_gelf [1; 2; 3]%N (GelfEncoder.mk 0 20) with
  | (_, Ok [p]) => (Gelf.feed 0 [(5, p)]%N dec).2 = Ok [[1; 2]%N]
  | _ => False
  end.
Proof. vm_compute. reflexivity. Qed.

(** The repository's test: 20 bytes in chunks of 8, here the last one first. *)
Lemma gelf_reassembly_witness :
  let enc := GelfEncoder.mk 0 20 in
  let data := N.of_nat <$> seq 0 20 in
  ∃ p0 p1 p2, GelfEncoder.encode_gelf data enc = (GelfEncoder.mk 1 20, Ok [p0; p1; p2]) ∧
    completes 0 [(5, p2); (6, p0); (7, p1)]%N Gelf.default Gelf.default data.
Proof.
  intros enc data. eexists _, _, _. split; [vm_compute; reflexivity|].
  eapply (gelf_reassembly enc _ Gelf.default 0 data); [simpl; lia|reflexivity|discriminate|vm_compute; reflexivity| |split; reflexivity|].
  - cbn. apply (Permutation_app_comm [_] [_; _]).
  - repeat constructor; discriminate.
Defined.
