(* ===== verification/Url.v ===== *)
(** Tremor URLs: src/src/url.rs, the names artefacts, their running instances
    and their ports are addressed by.

    [url::Url::parse] is the url crate's: the class [url_crate] gives what the
    code uses of it, with the documented behaviour the theorems need. *)
From Stdlib Require Import Ascii.
From S2P Require Import Prelude.

Local Open Scope string_scope.

Inductive ResourceType := Pipeline | Onramp | Offramp | Binding.
#[export] Instance ResourceType_eq_dec : EqDecision ResourceType.
Proof. solve_decision. Defined.

Inductive Scope := ScopePort | ScopeServant | ScopeArtefact | ScopeType.
#[export] Instance Scope_eq_dec : EqDecision Scope.
Proof. solve_decision. Defined.

(** The standard ports. *)
Definition IN : string := "in".
Definition OUT : string := "out".
Definition ERR : string := "err".
Definition METRICS : string := "metrics".

Definition decode_type (t : string) : result ResourceType :=
  if decide (t = "pipeline") then Ok Pipeline
  else if decide (t = "onramp") then Ok Onramp
  else if decide (t = "offramp") then Ok Offramp
  else if decide (t = "binding") then Ok Binding
  else Err (EMsg ("Bad Resource type: " +:+ t)).

Definition type_display (t : ResourceType) : string :=
  match t with
  | Pipeline => "pipeline"
  | Onramp => "onramp"
  | Offramp => "offramp"
  | Binding => "binding"
  end.

(** ** The url crate *)

(** What the code reads of a [url::Url]: [host_str()] and the collected
    [path_segments()]. *)
Record url_parts := mk_url { host_str : option string; path_segments : option (list string) }.

Inductive url_result :=
  | UrlOk (r : url_parts)
  | RelativeUrlWithoutBase
  | UrlErr (msg : string).

(** Characters a URL carries as they are, in any position of its host and
    path; and the names made of them. *)
Definition plain_char (c : Ascii.ascii) : bool :=
  let n := Ascii.N_of_ascii c in
  ((48 <=? n) && (n <=? 57) || (65 <=? n) && (n <=? 90) ||
   (97 <=? n) && (n <=? 122) || (n =? 45) || (n =? 95))%N.
Fixpoint all_chars (p : Ascii.ascii → bool) (s : string) : bool :=
  match s with EmptyString => true | String c s => p c && all_chars p s end.
Definition plain (s : string) : Prop := s ≠ "" ∧ all_chars plain_char s = true.
Definition no_colon (s : string) : Prop :=
  all_chars (λ c, negb (Ascii.eqb c ":"%char)) s = true.
(** [str::strip_prefix] *)
Fixpoint strip_prefix (p s : string) : option string :=
  match p, s with
  | EmptyString, _ => Some s
  | String a p, String b s => if Ascii.eqb a b then strip_prefix p s else None
  | String _ _, EmptyString => None
  end.
Definition has_prefix (p s : string) : bool := bool_decide (is_Some (strip_prefix p s)).

Definition slash (l : list string) : string := String.concat "/" l.

Class url_crate := {
  url_parse : string → url_result;
  (** a tremor URL of plain parts is split into its host, absent when it is
      empty, and its path *)
  url_parse_plain h l :
    h = "" ∨ plain h → l ≠ [] → Forall plain l →
    url_parse ("tremor://" +:+ h +:+ "/" +:+ slash l) =
      UrlOk (mk_url (if decide (h = "") then None else Some h) (Some l));
  (** without a colon there is no scheme *)
  url_parse_relative s : no_colon s → url_parse s = RelativeUrlWithoutBase;
  (** with one, the URL is not relative *)
  url_parse_tremor s : url_parse ("tremor://" +:+ s) ≠ RelativeUrlWithoutBase;
}.

(** ** [TremorUrl] *)
Module TremorUrl.
Record t := mk {
  scope : Scope;
  host : string;
  resource_type : option ResourceType;
  artefact : option string;
  instance : option string;
  instance_port : option string;
}.

Definition display (self : t) : string :=
  "tremor://" +:+ host self +:+
  match resource_type self with
  | None => ""
  | Some rt => "/" +:+ type_display rt +:+
    match artefact self with
    | None => ""
    | Some a => "/" +:+ a +:+
      match instance self with
      | None => ""
      | Some i => "/" +:+ i +:+
        match instance_port self with
        | None => ""
        | Some p => "/" +:+ p
        end
      end
    end
  end.

Definition short_id (self : t) (pfx : string) : string :=
  pfx +:+ "-" +:+ default "-" (artefact self) +:+ "." +:+ default "-" (instance self).

Section parse.
Context `{!url_crate}.

(** [parse_url]: the code recurses; its second call has a scheme, so two
    levels are enough ([EUndefined] marks a third one, see [parse_defined]). *)
Fixpoint parse_url (fuel : nat) (url : string) (relative : bool) : result (url_parts * bool) :=
  match fuel with
  | O => Err EUndefined
  | S fuel =>
    match url_parse url with
    | UrlOk r => Ok (r, relative)
    | RelativeUrlWithoutBase =>
      if has_prefix "/" url
      then parse_url fuel ("tremor://" +:+ url) false
      else parse_url fuel ("tremor:///" +:+ url) true
    | UrlErr e => Err (EMsg e)
    end
  end.

(** The scope and the parts of a path, the matches of [parse]. *)
Definition path_parts (relative : bool) (url : string) (parts : list string) :
    result (Scope * option ResourceType * option string * option string * option string) :=
  if relative then
    match parts with
    | [port] => Ok (ScopeServant, None, None, None, Some port)
    | [instance; port] => Ok (ScopeType, None, None, Some instance, Some port)
    | [artefact; instance; port] =>
        Ok (ScopeArtefact, None, Some artefact, Some instance, Some port)
    | [resource_type; artefact; instance; port] =>
        rt ← decode_type resource_type;
        Ok (ScopePort, Some rt, Some artefact, Some instance, Some port)
    | _ => Err (EMsg ("Bad URL: " +:+ url))
    end
  else
    match parts with
    | [resource_type; artefact; instance; port] =>
        rt ← decode_type resource_type;
        Ok (ScopePort, Some rt, Some artefact, Some instance, Some port)
    | [resource_type; artefact; instance] =>
        rt ← decode_type resource_type;
        Ok (ScopeServant, Some rt, Some artefact, Some instance, None)
    | [resource_type; artefact] =>
        rt ← decode_type resource_type;
        Ok (ScopeArtefact, Some rt, Some artefact, None, None)
    | [resource_type] =>
        rt ← decode_type resource_type;
        Ok (ScopeType, Some rt, None, None, None)
    | _ => Err (EMsg ("Bad URL: " +:+ url))
    end.

Definition parse (url : string) : result t :=
  '(r, relative) ← parse_url 2 url false;
  match path_segments r with
  | Some parts =>
    '(scope, resource_type, artefact, instance, instance_port) ← path_parts relative url parts;
    let host := from_option id "localhost" (host_str r) in
    Ok (mk scope host resource_type artefact instance instance_port)
  | None => Err (EMsg ("Bad URL: " +:+ url))
  end.

Definition from_onramp_id (id : string) : result t := parse ("/onramp/" +:+ id).
Definition from_offramp_id (id : string) : result t := parse ("/offramp/" +:+ id).
End parse.

Definition trim_to_instance (self : t) : t :=
  mk ScopeServant (host self) (resource_type self) (artefact self) (instance self) None.
Definition trim_to_artefact (self : t) : t :=
  mk ScopeArtefact (host self) (resource_type self) (artefact self) None None.
Definition set_instance (i : string) (self : t) : t :=
  mk (if decide (scope self = ScopeArtefact) then ScopeServant else scope self)
     (host self) (resource_type self) (artefact self) (Some i) (instance_port self).
Definition set_port (i : string) (self : t) : t :=
  mk (if decide (scope self = ScopeServant) then ScopePort else scope self)
     (host self) (resource_type self) (artefact self) (instance self) (Some i).
Definition instance_port_required (self : t) : result string :=
  ok_or (instance_port self) (EMsg (display self +:+ " is missing an instance port")).
Definition same_instance_as (self other : t) : bool :=
  bool_decide (host self = host other) &&
  bool_decide (resource_type self = resource_type other) &&
  bool_decide (artefact self = artefact other) &&
  bool_decide (instance self = instance other).
End TremorUrl.
#[export] Instance TremorUrl_eq_dec : EqDecision TremorUrl.t.
Proof. solve_decision. Defined.

(** ** An url crate, for evaluation *)

(** Splits at every slash. *)
Fixpoint split_slash (s : string) : string * list string :=
  match s with
  | EmptyString => ("", [])
  | String c s =>
    let '(x, l) := split_slash s in
    if Ascii.eqb c "/"%char then ("", x :: l) else (String c x, l)
  end.

Definition demo_parse (s : string) : url_result :=
  match strip_prefix "tremor://" s with
  | Some rest =>
    let '(h, l) := split_slash rest in
    UrlOk (mk_url (if decide (h = "") then None else Some h)
                  (if decide (l = []) then None else Some l))
  | None =>
    if all_chars (λ c, negb (Ascii.eqb c ":"%char)) s then RelativeUrlWithoutBase
    else UrlErr "unsupported scheme"
  end.

(** ** Strings *)
Lemma append_cons c p s : String c p +:+ s = String c (p +:+ s).
Proof. done. Qed.

Lemma append_nil s : s +:+ "" = s.
Proof. induction s as [|c s IH]; [done|]. by rewrite append_cons, IH. Qed.

Lemma strip_prefix_app p s : strip_prefix p (p +:+ s) = Some s.
Proof. induction p as [|c p IH]; [done|]. rewrite append_cons. cbn [strip_prefix]. by rewrite Ascii.eqb_refl. Qed.

Lemma strip_prefix_Some p s r : strip_prefix p s = Some r → s = p +:+ r.
Proof.
  revert s. induction p as [|a p IH]; intros s; [by intros [= ->]|].
  destruct s as [|b s]; [done|]. cbn [strip_prefix]. destruct (Ascii.eqb_spec a b) as [->|]; [|done].
  intros ->%IH. done.
Qed.

Lemma all_chars_app p a b : all_chars p (a +:+ b) = all_chars p a && all_chars p b.
Proof. induction a as [|c a IH]; [done|].
  rewrite append_cons. cbn [all_chars]. rewrite IH. apply andb_assoc. Qed.

Lemma all_chars_weaken (p q : Ascii.ascii → bool) s :
  (∀ c, p c = true → q c = true) → all_chars p s = true → all_chars q s = true.
Proof.
  intros Hpq. induction s as [|c s IH]; [done|]. cbn. rewrite !andb_true_iff.
  intros [??]. split; auto.
Qed.

(** A plain character is neither of the separators. *)
Lemma plain_char_sep c : plain_char c = true → negb (Ascii.eqb c "/"%char) && negb (Ascii.eqb c ":"%char) = true.
Proof.
  intros H. destruct (Ascii.eqb_spec c "/"%char) as [->|]; [done|].
  by destruct (Ascii.eqb_spec c ":"%char) as [->|].
Qed.

Lemma split_slash_plain x : all_chars plain_char x = true → split_slash x = (x, []).
Proof.
  induction x as [|c x IH]; [done|]. cbn [all_chars split_slash]. rewrite andb_true_iff. intros [Hc Hx].
  rewrite IH by done. apply plain_char_sep in Hc. by destruct (Ascii.eqb c "/"%char).
Qed.

Lemma split_slash_cons x s :
  all_chars plain_char x = true →
  split_slash (x +:+ "/" +:+ s) = (x, (split_slash s).1 :: (split_slash s).2).
Proof.
  induction x as [|c x IH].
  { intros _. change ("" +:+ "/" +:+ s) with (String "/" s). cbn [split_slash].
    by destruct (split_slash s). }
  cbn [all_chars]. rewrite andb_true_iff. intros [Hc Hx].
  rewrite append_cons. cbn [split_slash].
  rewrite IH by done. apply plain_char_sep in Hc. by destruct (Ascii.eqb c "/"%char).
Qed.

Lemma slash_cons x y l : slash (x :: y :: l) = x +:+ "/" +:+ slash (y :: l).
Proof. done. Qed.

Lemma split_slash_slash x l :
  Forall plain (x :: l) → split_slash (slash (x :: l)) = (x, l).
Proof.
  revert x. induction l as [|y l IH]; intros x [[_ Hx] Hl]%Forall_cons.
  - by apply split_slash_plain.
  - rewrite slash_cons, split_slash_cons, IH by done. done.
Qed.

Definition demo_url : url_crate.
Proof.
  refine {| url_parse := demo_parse |}.
  - intros h l Hh Hne Hl. unfold demo_parse. rewrite strip_prefix_app.
    assert (all_chars plain_char h = true) as Hh' by (by destruct Hh as [->|[_ ?]]).
    rewrite split_slash_cons by done. destruct l as [|x l]; [done|].
    rewrite split_slash_slash by done. cbn. by rewrite (decide_False (P := _ :: _ = [])).
  - intros s Hs. unfold demo_parse. destruct (strip_prefix "tremor://" s) as [rest|] eqn:He.
    + apply strip_prefix_Some in He as ->. unfold no_colon in Hs.
      by rewrite all_chars_app in Hs.
    + unfold no_colon in Hs. by rewrite Hs.
  - intros s. unfold demo_parse. rewrite strip_prefix_app. by destruct (split_slash s).
Defined.

(** ** Round trip *)

(** The URLs that name a type, an artefact, an instance or a port. *)
Definition url_wf (u : TremorUrl.t) : Prop :=
  match TremorUrl.scope u with
  | ScopeType => is_Some (TremorUrl.resource_type u) ∧ TremorUrl.artefact u = None ∧
      TremorUrl.instance u = None ∧ TremorUrl.instance_port u = None
  | ScopeArtefact => is_Some (TremorUrl.resource_type u) ∧ is_Some (TremorUrl.artefact u) ∧
      TremorUrl.instance u = None ∧ TremorUrl.instance_port u = None
  | ScopeServant => is_Some (TremorUrl.resource_type u) ∧ is_Some (TremorUrl.artefact u) ∧
      is_Some (TremorUrl.instance u) ∧ TremorUrl.instance_port u = None
  | ScopePort => is_Some (TremorUrl.resource_type u) ∧ is_Some (TremorUrl.artefact u) ∧
      is_Some (TremorUrl.instance u) ∧ is_Some (TremorUrl.instance_port u)
  end.

Definition opt_plain (o : option string) : Prop := from_option plain True o.
Definition url_plain (u : TremorUrl.t) : Prop :=
  plain (TremorUrl.host u) ∧ opt_plain (TremorUrl.artefact u) ∧
  opt_plain (TremorUrl.instance u) ∧ opt_plain (TremorUrl.instance_port u).

(** The path of a URL. *)
Definition url_path (u : TremorUrl.t) : list string :=
  match TremorUrl.resource_type u with
  | Some rt => type_display rt :: option_list (TremorUrl.artefact u) ++
      option_list (TremorUrl.instance u) ++ option_list (TremorUrl.instance_port u)
  | None => []
  end.

Lemma type_plain rt : plain (type_display rt).
Proof. by destruct rt. Qed.
Lemma decode_type_display rt : decode_type (type_display rt) = Ok rt.
Proof. by destruct rt. Qed.

(** Of a well formed URL all parts are displayed. *)
Lemma display_path u :
  url_wf u → TremorUrl.display u = "tremor://" +:+ TremorUrl.host u +:+ "/" +:+ slash (url_path u).
Proof.
  destruct u as [sc h rt a i p]. unfold url_wf, url_path, TremorUrl.display; cbn [TremorUrl.scope
    TremorUrl.host TremorUrl.resource_type TremorUrl.artefact TremorUrl.instance TremorUrl.instance_port].
  destruct sc; intros ([? ->] & Ha & Hi & Hp);
    repeat match goal with H : is_Some _ |- _ => destruct H as [? ->] end; subst;
    by rewrite ?append_nil.
Qed.

Lemma url_path_plain u : url_plain u → Forall plain (url_path u).
Proof.
  intros (_ & Ha & Hi & Hp). unfold url_path. destruct (TremorUrl.resource_type u) as [rt|]; [|done].
  constructor; [apply type_plain|].
  rewrite !Forall_app.
  destruct (TremorUrl.artefact u), (TremorUrl.instance u), (TremorUrl.instance_port u);
    split_and!; try apply Forall_nil_2; by apply Forall_singleton.
Qed.

(** A URL that names a type, an artefact, an instance or a port is parsed
    back from the string it is displayed (and serialized) as: all its parts
    and its scope are recovered. *)
Theorem url_roundtrip `{!url_crate} (u : TremorUrl.t)
    (Hwf : url_wf u) (Hp : url_plain u) :
  TremorUrl.parse (TremorUrl.display u) = Ok u.
Proof.
  pose proof (url_path_plain u Hp) as Hpath. destruct Hp as [Hh _].
  assert (url_path u ≠ []) as Hne.
  { revert Hwf. unfold url_wf, url_path. destruct (TremorUrl.resource_type u); [done|].
    destruct (TremorUrl.scope u); intros [[? ?] _]; done. }
  unfold TremorUrl.parse. cbn [TremorUrl.parse_url].
  rewrite display_path, url_parse_plain by auto. rewrite bind_Ok.
  rewrite decide_False by (by destruct Hh). cbn [path_segments host_str from_option].
  clear Hpath Hne. destruct u as [sc h rt a i p]. revert Hwf.
  unfold url_wf, url_path; cbn [TremorUrl.scope TremorUrl.host TremorUrl.resource_type
    TremorUrl.artefact TremorUrl.instance TremorUrl.instance_port].
  destruct sc; intros ([? ->] & Ha & Hi & Hp);
    repeat match goal with H : is_Some _ |- _ => destruct H as [? ->] end; subst;
    cbn [option_list app TremorUrl.path_parts]; rewrite decode_type_display; reflexivity.
Qed.

Lemma url_roundtrip_witness :
  let _ := demo_url in
  let u := TremorUrl.mk ScopePort "localhost" (Some Pipeline) (Some "main") (Some "01") (Some "in") in
  url_wf u ∧ url_plain u ∧
  TremorUrl.display u = "tremor://localhost/pipeline/main/01/in" ∧
  TremorUrl.parse (TremorUrl.display u) = Ok u.
Proof.
  intros c u. assert (url_wf u) as Hwf by (repeat split; eauto).
  assert (url_plain u) as Hp by (repeat split; done).
  split_and!; [done|done|reflexivity|]. by apply (url_roundtrip u).
Defined.

(** ** The forms [parse] accepts *)

(** All the parts a URL holds, in the order of a path. *)
Definition url_parts_of (u : TremorUrl.t) : list string :=
  option_list (type_display <$> TremorUrl.resource_type u) ++
  option_list (TremorUrl.artefact u) ++
  option_list (TremorUrl.instance u) ++ option_list (TremorUrl.instance_port u).

(** A resource type. *)
Definition is_type (t : string) : Prop := ∃ rt, t = type_display rt.

Lemma decode_type_Ok t rt : decode_type t = Ok rt → t = type_display rt.
Proof. unfold decode_type. repeat case_decide; by intros [= <-]. Qed.
Lemma decode_type_Err t e : decode_type t = Err e → ¬ is_type t ∧ e ≠ EUndefined.
Proof.
  intros He. split; [intros [rt ->]; by rewrite decode_type_display in He|].
  revert He. unfold decode_type. repeat case_decide; by intros [= <-].
Qed.

Lemma slash_no_colon l : Forall plain l → no_colon (slash l).
Proof.
  unfold no_colon. induction 1 as [|x l [_ Hx] Hl IH]; [done|].
  assert (all_chars (λ c, negb (Ascii.eqb c ":"%char)) x = true) as Hx'.
  { revert Hx. apply all_chars_weaken. intros c Hc. by apply plain_char_sep, andb_true_iff in Hc as [_ ?]. }
  destruct l as [|y l]; [done|]. rewrite slash_cons, !all_chars_app, Hx', IH. done.
Qed.

Lemma slash_not_absolute l : Forall plain l → has_prefix "/" (slash l) = false.
Proof.
  intros Hl. unfold has_prefix. apply bool_decide_false. intros [r Hr%strip_prefix_Some].
  destruct Hl as [|x l [Hne Hx] Hl]; [done|].
  destruct x as [|c x]; [done|]. cbn [all_chars] in Hx. apply andb_true_iff in Hx as [Hc _].
  destruct l as [|y l].
  - change (slash [String c x]) with (String c x) in Hr. by injection Hr as -> _.
  - rewrite slash_cons, append_cons in Hr. by injection Hr as -> _.
Qed.

Section forms.
Context `{!url_crate}.

(** Two calls of [parse_url] are enough for every string. *)
Lemma parse_url_defined s r : TremorUrl.parse_url 2 s r ≠ Err EUndefined.
Proof.
  cbn [TremorUrl.parse_url]. destruct (url_parse s); [done| |done].
  destruct (has_prefix "/" s).
  - pose proof (url_parse_tremor s). by destruct (url_parse ("tremor://" +:+ s)).
  - change ("tremor:///" +:+ s) with ("tremor://" +:+ "/" +:+ s).
    pose proof (url_parse_tremor ("/" +:+ s)). by destruct (url_parse ("tremor://" +:+ "/" +:+ s)).
Qed.

Lemma path_parts_defined rel url l : TremorUrl.path_parts rel url l ≠ Err EUndefined.
Proof.
  destruct rel, l as [|a [|b [|c [|d [|]]]]]; cbn [TremorUrl.path_parts]; try done;
    destruct (decode_type a) as [rt|e] eqn:He; try done;
    apply decode_type_Err in He as [_ ?]; by intros [= ->].
Qed.

Lemma parse_defined s : TremorUrl.parse s ≠ Err EUndefined.
Proof.
  unfold TremorUrl.parse. pose proof (parse_url_defined s false).
  destruct (TremorUrl.parse_url 2 s false) as [[r rel]|e]; [rewrite bind_Ok|rewrite bind_Err; congruence].
  destruct (path_segments r) as [l|]; [|done]. pose proof (path_parts_defined rel s l).
  destruct (TremorUrl.path_parts rel s l) as [[[[[sc rt] a] i] p]|e]; [done|rewrite bind_Err; congruence].
Qed.

Lemma parse_absolute l :
  l ≠ [] → Forall plain l →
  TremorUrl.parse ("/" +:+ slash l) =
    ('(sc, rt, a, i, p) ← TremorUrl.path_parts false ("/" +:+ slash l) l;
     Ok (TremorUrl.mk sc "localhost" rt a i p)).
Proof.
  intros Hne Hl. unfold TremorUrl.parse. cbn [TremorUrl.parse_url].
  rewrite url_parse_relative by (apply (slash_no_colon l Hl)).
  change (has_prefix "/" ("/" +:+ slash l)) with true. cbn match.
  rewrite (url_parse_plain "" l) by auto. by rewrite bind_Ok.
Qed.

Lemma parse_relative l :
  l ≠ [] → Forall plain l →
  TremorUrl.parse (slash l) =
    ('(sc, rt, a, i, p) ← TremorUrl.path_parts true (slash l) l;
     Ok (TremorUrl.mk sc "localhost" rt a i p)).
Proof.
  intros Hne Hl. unfold TremorUrl.parse. cbn [TremorUrl.parse_url].
  rewrite url_parse_relative by (by apply slash_no_colon).
  rewrite slash_not_absolute by done. cbn match.
  change ("tremor:///" +:+ slash l) with ("tremor://" +:+ "" +:+ "/" +:+ slash l).
  rewrite url_parse_plain by auto. by rewrite bind_Ok.
Qed.
End forms.

(** the short forms of a URL.  A path that starts with a slash is read
    from the left (type, artefact, instance, port): it gives a well formed URL
    on [localhost] that holds exactly these parts, and it is refused only when
    the first part is no resource type or there are more than four.  A path
    without one is read from the right, its last part is always the port, and
    only the full form names a resource type; it is refused only with more
    than four parts, or four of which the first is no resource type.  Parsing
    any string ends after at most two calls of the url crate. *)
Theorem url_parse_forms `{!url_crate} (l : list string)
    (Hne : l ≠ []) (Hl : Forall plain l) :
  match TremorUrl.parse ("/" +:+ slash l) with
  | Ok u => url_wf u ∧ TremorUrl.host u = "localhost" ∧ url_path u = l
  | Err _ => (4 < length l)%nat ∨ ∃ t, head l = Some t ∧ ¬ is_type t
  end ∧
  match TremorUrl.parse (slash l) with
  | Ok u => TremorUrl.host u = "localhost" ∧ url_parts_of u = l ∧
      TremorUrl.instance_port u = last l ∧
      (is_Some (TremorUrl.resource_type u) ↔ length l = 4%nat)
  | Err _ => (4 < length l)%nat ∨ (length l = 4%nat ∧ ∃ t, head l = Some t ∧ ¬ is_type t)
  end ∧
  ∀ s, TremorUrl.parse s ≠ Err EUndefined.
Proof.
  split_and!; [| |apply parse_defined].
  - rewrite parse_absolute by done.
    destruct l as [|a [|b [|c [|d [|e l]]]]]; cbn [TremorUrl.path_parts]; try done;
      try (destruct (decode_type a) as [rt|err] eqn:Ha;
           [apply decode_type_Ok in Ha as ->; cbn; by eauto 10|
            right; exists a; by apply decode_type_Err in Ha as [? _]]).
    left. cbn [length]. lia.
  - rewrite parse_relative by done.
    destruct l as [|a [|b [|c [|d [|e l]]]]]; cbn [TremorUrl.path_parts]; try done;
      try (cbn; split_and!; try done; by intros []).
    + destruct (decode_type a) as [rt|err] eqn:Ha.
      * apply decode_type_Ok in Ha as ->. cbn. by eauto 10.
      * right. split; [done|]. exists a. by apply decode_type_Err in Ha as [? _].
    + left. cbn [length]. lia.
Qed.

Lemma url_parse_forms_witness :
  let _ := demo_url in
  (["01"; "in"] ≠ [] ∧ Forall plain ["01"; "in"]) ∧
  TremorUrl.parse "01/in" = Ok (TremorUrl.mk ScopeType "localhost" None None (Some "01") (Some "in")) ∧
  (match TremorUrl.parse (slash ["01"; "in"]) with
   | Ok u => TremorUrl.instance_port u = Some "in"
   | Err _ => False
   end).
Proof.
  intros c. assert (Forall plain ["01"; "in"]) as Hl by (repeat constructor; done).
  split_and!; [done|done|reflexivity|].
  pose proof (url_parse_forms ["01"; "in"] ltac:(done) Hl) as (_ & H & _).
  vm_compute in H |- *. by destruct H as (_ & _ & ? & _).
Defined.

(** ** Instances

    The registry and the repository use trimmed URLs as keys: two URLs have
    the same key exactly when they name the same instance. *)
Lemma same_instance_key u v :
  TremorUrl.same_instance_as u v = true ↔
  TremorUrl.trim_to_instance u = TremorUrl.trim_to_instance v.
Proof.
  unfold TremorUrl.same_instance_as, TremorUrl.trim_to_instance.
  rewrite !andb_true_iff, !bool_decide_eq_true. split.
  - by intros (((-> & ->) & ->) & ->).
  - by intros [= -> -> -> ->].
Qed.

Lemma trim_to_artefact_wf u :
  url_wf u → TremorUrl.scope u ≠ ScopeType → url_wf (TremorUrl.trim_to_artefact u).
Proof. unfold url_wf. destruct (TremorUrl.scope u); cbn; intuition. Qed.
Lemma trim_to_instance_wf u :
  url_wf u → TremorUrl.scope u = ScopeServant ∨ TremorUrl.scope u = ScopePort →
  url_wf (TremorUrl.trim_to_instance u).
Proof. unfold url_wf. destruct (TremorUrl.scope u); cbn; intuition congruence. Qed.
Lemma set_instance_wf u i :
  url_wf u → TremorUrl.scope u ≠ ScopeType → url_wf (TremorUrl.set_instance i u).
Proof.
  unfold url_wf. destruct u as [[] h rt a i' p']; cbn; repeat case_decide; intuition eauto; congruence.
Qed.
Lemma set_port_wf u p :
  url_wf u → TremorUrl.scope u = ScopeServant ∨ TremorUrl.scope u = ScopePort →
  url_wf (TremorUrl.set_port p u).
Proof.
  unfold url_wf. destruct u as [[] h rt a i' p']; cbn; repeat case_decide; intuition eauto; congruence.
Qed.

(** A relative URL does not survive its display: the parts are dropped. *)
Lemma display_relative u :
  TremorUrl.resource_type u = None → TremorUrl.display u = "tremor://" +:+ TremorUrl.host u.
Proof. intros H. unfold TremorUrl.display. by rewrite H, append_nil. Qed.
