(* ===== verification/Lifecycle.v ===== *)
(** The life cycle of a servant: src/src/lifecycle.rs.

    A servant is an instance of an artefact; its state goes from deactivated
    over activated to zombie, a transition calls the hooks [on_activate],
    [on_passivate] and [on_destroy].  The hooks only log; they are kept as the
    trace of a transition. *)
From S2P Require Import Prelude Url.

Inductive ActivationState := Deactivated | Activated | Zombie.
#[export] Instance ActivationState_eq_dec : EqDecision ActivationState.
Proof. solve_decision. Defined.

Inductive hook := on_activate | on_passivate | on_destroy.
#[export] Instance hook_eq_dec : EqDecision hook.
Proof. solve_decision. Defined.

Module Fsm.
(** The artefact type [A] and what an artefact spawns, [R]; the world handle
    the code stores next to them is only passed to [spawn]. *)
Record t (A R : Type) := mk {
  artefact : A;
  state : ActivationState;
  resolution : option R;
  id : TremorUrl.t;
}.
Arguments mk {A R} artefact state resolution id.
Arguments artefact {A R} _.
Arguments state {A R} _.
Arguments resolution {A R} _.
Arguments id {A R} _.

Definition set_state {A R} (st : ActivationState) (self : t A R) : t A R :=
  mk (artefact self) st (resolution self) (id self).

(** [spawn] is the artefact's; it talks to the managers of the runtime. *)
Definition new {A R} (spawn : A → TremorUrl.t → result R) (artefact : A) (id : TremorUrl.t) :
    result (t A R) :=
  resolution ← spawn artefact id;
  Ok (mk artefact Deactivated (Some resolution) id).

(** The loop of [transition]: the state, the hooks called and the result.  An
    activated servant goes round twice, no other more than once ([EUndefined]
    marks a third round, see [transition_defined]). *)
Fixpoint transition_loop {A R} (fuel : nat) (to : ActivationState) (self : t A R)
    (hooks : list hook) : t A R * list hook * result unit :=
  match fuel with
  | O => (self, hooks, Err EUndefined)
  | S fuel =>
    match state self, to with
    | Deactivated, Activated =>
        (set_state Activated self, hooks ++ [on_activate], Ok tt)
    | Deactivated, Zombie =>
        (set_state Zombie self, hooks ++ [on_destroy], Ok tt)
    | Activated, Zombie =>
        transition_loop fuel to (set_state Deactivated self) (hooks ++ [on_passivate])
    | Zombie, _ => (self, hooks, Ok tt)
    | _, _ => (self, hooks, Err (EMsg "Illegel State Transition"))
    end
  end.

Definition transition {A R} (to : ActivationState) (self : t A R) :
    t A R * list hook * result unit :=
  transition_loop 2 to self [].
End Fsm.

(** ** Specification *)

(** The order of the states. *)
Definition rank (st : ActivationState) : nat :=
  match st with Deactivated => 0 | Activated => 1 | Zombie => 2 end.

(** The transitions that are legal, with their hooks. *)
Inductive legal : ActivationState → ActivationState → ActivationState → list hook → Prop :=
  | legal_activate : legal Deactivated Activated Activated [on_activate]
  | legal_destroy : legal Deactivated Zombie Zombie [on_destroy]
  | legal_undeploy : legal Activated Zombie Zombie [on_passivate; on_destroy]
  | legal_zombie to : legal Zombie to Zombie [].

Section transition.
Context {A R : Type}.
Implicit Types self : Fsm.t A R.

Lemma transition_legal self to :
  match Fsm.transition to self with
  | (self', hooks, Ok _) =>
      legal (Fsm.state self) to (Fsm.state self') hooks ∧
      self' = Fsm.set_state (Fsm.state self') self
  | (self', hooks, Err _) =>
      self' = self ∧ hooks = [] ∧ ∀ st h, ¬ legal (Fsm.state self) to st h
  end.
Proof.
  destruct self as [a [] r i], to; cbn; split_and?; try done;
    try constructor; intros st h Hl; inversion Hl.
Qed.

Lemma transition_defined self to : (Fsm.transition to self).2 ≠ Err EUndefined.
Proof. by destruct self as [a [] r i], to. Qed.

(** A transition keeps all but the state, which never goes back. *)
Lemma transition_keeps self to :
  let self' := (Fsm.transition to self).1.1 in
  Fsm.artefact self' = Fsm.artefact self ∧ Fsm.resolution self' = Fsm.resolution self ∧
  Fsm.id self' = Fsm.id self ∧ (rank (Fsm.state self) ≤ rank (Fsm.state self'))%nat.
Proof. destruct self as [a [] r i], to; cbn; split_and!; (done || lia). Qed.

(** The servant and the hooks after a sequence of requests. *)
Fixpoint transitions (l : list ActivationState) self : Fsm.t A R * list hook :=
  match l with
  | [] => (self, [])
  | to :: l =>
    let '(self, hooks, _) := Fsm.transition to self in
    let '(self, hooks') := transitions l self in (self, hooks ++ hooks')
  end.
End transition.

(** The hooks that bring a servant from one state to another. *)
Definition hooks_between (from to : ActivationState) : list hook :=
  match from, to with
  | Deactivated, Activated => [on_activate]
  | Deactivated, Zombie => [on_destroy]
  | Activated, Zombie => [on_passivate; on_destroy]
  | _, _ => []
  end.

(** The traces of hooks of a spawned servant. *)
Definition hooks_ok (st : ActivationState) (hooks : list hook) : Prop :=
  match st with
  | Deactivated => hooks = []
  | Activated => hooks = [on_activate]
  | Zombie => hooks = [on_destroy] ∨ hooks = [on_activate; on_passivate; on_destroy]
  end.

Lemma hooks_ok_legal st to st' h0 h :
  hooks_ok st h0 → legal st to st' h → hooks_ok st' (h0 ++ h).
Proof.
  intros H0 Hl. destruct Hl; cbn in *; subst; try done; try (by left); try (by right).
  by rewrite app_nil_r.
Qed.

Lemma transitions_hooks {A R} (l : list ActivationState) (self : Fsm.t A R) h0 :
  hooks_ok (Fsm.state self) h0 →
  let '(self', hooks) := transitions l self in hooks_ok (Fsm.state self') (h0 ++ hooks).
Proof.
  revert self h0. induction l as [|to l IH]; intros self h0 H0; cbn [transitions];
    [by rewrite app_nil_r|].
  pose proof (transition_legal self to) as Hl.
  destruct (Fsm.transition to self) as [[self1 h1] r].
  assert (hooks_ok (Fsm.state self1) (h0 ++ h1)) as H1.
  { destruct r; [destruct Hl as [Hl _]; by eapply hooks_ok_legal|].
    destruct Hl as (-> & -> & _). by rewrite app_nil_r. }
  specialize (IH self1 _ H1). destruct (transitions l self1) as [self2 h2].
  by rewrite <-app_assoc in IH.
Qed.

(** a servant's life.  A freshly spawned servant is deactivated and
    resolved.  Whatever sequence of transitions is then requested of it, legal
    or not, the hooks called are a prefix of a life: nothing while it is
    deactivated, [on_activate] once when it is activated, and once it is a
    zombie [on_destroy] exactly once, after [on_passivate] if and only if it
    was active.  Its artefact, its resolution and its id never change, and a
    zombie stays one. *)
Theorem lifecycle_hooks {A R} (spawn : A → TremorUrl.t → result R) (a : A) (id : TremorUrl.t)
    (self : Fsm.t A R) (l l' : list ActivationState)
    (Hnew : Fsm.new spawn a id = Ok self) :
  let '(self', hooks) := transitions l self in
  hooks_ok (Fsm.state self') hooks ∧
  Fsm.artefact self' = a ∧ Fsm.id self' = id ∧
  (∃ r, spawn a id = Ok r ∧ Fsm.resolution self' = Some r) ∧
  (Fsm.state self' = Zombie → transitions l' self' = (self', [])).
Proof.
  unfold Fsm.new in Hnew. destruct (spawn a id) as [r|e] eqn:Hs; [|done].
  injection Hnew as Hself.
  pose proof (transitions_hooks l self []) as Hh. rewrite <-Hself in Hh at 1. specialize (Hh eq_refl).
  assert (Fsm.artefact (transitions l self).1 = Fsm.artefact self ∧
          Fsm.id (transitions l self).1 = Fsm.id self ∧
          Fsm.resolution (transitions l self).1 = Fsm.resolution self) as (Ha & Hi & Hr).
  { clear Hh Hself. revert self. induction l as [|to l IH]; intros self; [done|]. cbn [transitions].
    pose proof (transition_keeps self to) as (Ha & Hr & Hi & _).
    destruct (Fsm.transition to self) as [[self1 h1] r1]. cbn in Ha, Hr, Hi.
    specialize (IH self1). destruct (transitions l self1) as [self2 h2]. cbn in *.
    by rewrite <-Ha, <-Hr, <-Hi. }
  destruct (transitions l self) as [self' hooks]. cbn in *. subst self. split_and!; [done..| |].
  - exists r. by rewrite Hr.
  - intros Hz. clear -Hz. induction l' as [|to l' IH]; [done|].
    destruct self' as [a' st r' i']. cbn in Hz. subst st. cbn in *. by rewrite IH.
Qed.

Lemma lifecycle_hooks_witness :
  let url := TremorUrl.mk ScopeServant "localhost" (Some Onramp) (Some "blaster") (Some "00") None in
  let spawn := λ (a : nat) (_ : TremorUrl.t), Ok (a + 1)%nat in
  let self := Fsm.mk 41%nat Deactivated (Some 42%nat) url in
  Fsm.new spawn 41%nat url = Ok self ∧
  (transitions [Deactivated; Activated; Activated; Zombie; Activated] self).2 =
    [on_activate; on_passivate; on_destroy] ∧
  hooks_ok (Fsm.state (transitions [Activated] self).1) (transitions [Activated] self).2.
Proof.
  intros url spawn self. split_and!; [reflexivity|reflexivity|].
  exact (proj1 (lifecycle_hooks spawn 41%nat url self [Activated] [] eq_refl)).
Defined.
