(* ===== verification/Repository.v ===== *)
(** The repository of artefacts: src/src/repository.rs, with the artefact and
    servant ids of src/src/repository/artefact.rs.

    A repository is an actor, it handles the messages of its channel one after
    the other; [handle] is one turn of its loop, a reply is what it sends back.
    There is one repository for each kind of artefact, [kind] says which. *)
From S2P Require Import Prelude Url.

Local Open Scope string_scope.

#[export] Instance ResourceType_countable : Countable ResourceType :=
  inj_countable'
    (λ t, match t with Pipeline => 0%nat | Onramp => 1%nat | Offramp => 2%nat | Binding => 3%nat end)
    (λ n, match n with 0%nat => Pipeline | 1%nat => Onramp | 2%nat => Offramp | _ => Binding end)
    ltac:(by intros []).
#[export] Instance Scope_countable : Countable Scope :=
  inj_countable'
    (λ s, match s with ScopePort => 0%nat | ScopeServant => 1%nat | ScopeArtefact => 2%nat | ScopeType => 3%nat end)
    (λ n, match n with 0%nat => ScopePort | 1%nat => ScopeServant | 2%nat => ScopeArtefact | _ => ScopeType end)
    ltac:(by intros []).
#[export] Instance TremorUrl_countable : Countable TremorUrl.t :=
  inj_countable'
    (λ u, (TremorUrl.scope u, TremorUrl.host u, TremorUrl.resource_type u,
           TremorUrl.artefact u, TremorUrl.instance u, TremorUrl.instance_port u))
    (λ '(s, h, t, a, i, p), TremorUrl.mk s h t a i p)
    ltac:(by intros []).

(** ** Ids of artefacts and servants

    The four implementations of the [Artefact] trait differ in the resource
    type they accept and in their messages; the [id] in a message is trimmed. *)
Definition artefact_id_error (kind : ResourceType) (id : TremorUrl.t) : error :=
  EMsg match kind with
  | Pipeline => "URL does not contain a pipeline artifact id"
  | Offramp => "URL does not contain an offramp artifact id: " +:+ TremorUrl.display id
  | Onramp => "URL " +:+ TremorUrl.display id +:+ " does not contain a onramp artifact id"
  | Binding => "URL " +:+ TremorUrl.display id +:+ " does not contain a binding artifact id"
  end.

Definition artefact_id (kind : ResourceType) (id : TremorUrl.t) : result TremorUrl.t :=
  let id := TremorUrl.trim_to_artefact id in
  match TremorUrl.resource_type id, TremorUrl.artefact id with
  | Some t, Some _ => if decide (t = kind) then Ok id else Err (artefact_id_error kind id)
  | _, _ => Err (artefact_id_error kind id)
  end.

Definition servant_id_error (kind : ResourceType) (id : TremorUrl.t) : error :=
  EMsg ("URL does not contain a " +:+ type_display kind +:+ " servant id: " +:+ TremorUrl.display id).

Definition servant_id (kind : ResourceType) (id : TremorUrl.t) : result TremorUrl.t :=
  let id := TremorUrl.trim_to_instance id in
  match TremorUrl.resource_type id, TremorUrl.instance id with
  | Some t, Some _ => if decide (t = kind) then Ok id else Err (servant_id_error kind id)
  | _, _ => Err (servant_id_error kind id)
  end.

(** ** The repository *)
Module Repository.
Record wrapper (A : Type) := mk_wrapper {
  artefact : A;
  instances : list TremorUrl.t;
  system : bool;
}.
Arguments mk_wrapper {A} artefact instances system.
Arguments artefact {A} _.
Arguments instances {A} _.
Arguments system {A} _.

Abbreviation t A := (gmap TremorUrl.t (wrapper A)) (only parsing).

Inductive msg (A : Type) :=
  | ListArtefacts
  | SerializeArtefacts
  | FindArtefact (id : TremorUrl.t)
  | PublishArtefact (id : TremorUrl.t) (system : bool) (a : A)
  | UnpublishArtefact (id : TremorUrl.t)
  | RegisterInstance (a_id s_id : TremorUrl.t)
  | UnregisterInstance (a_id s_id : TremorUrl.t).
Arguments ListArtefacts {A}.
Arguments SerializeArtefacts {A}.
Arguments FindArtefact {A} id.
Arguments PublishArtefact {A} id system a.
Arguments UnpublishArtefact {A} id.
Arguments RegisterInstance {A} a_id s_id.
Arguments UnregisterInstance {A} a_id s_id.

Inductive reply (A : Type) :=
  | RIds (l : list TremorUrl.t)
  | RArtefacts (l : list A)
  | RFound (r : result (option (wrapper A)))
  | RArtefact (r : result A).
Arguments RIds {A} l.
Arguments RArtefacts {A} l.
Arguments RFound {A} r.
Arguments RArtefact {A} r.

Section repository.
Context {A : Type} `{!hash_order TremorUrl.t}.
Implicit Types self : t A.

Definition values self : list A :=
  omap (λ w, if system w then None else Some (artefact w)) (hash_iter self).*2.
Definition new : t A := ∅.
Definition keys self : list TremorUrl.t := (hash_iter self).*1.
Definition find (id : TremorUrl.t) self : option (wrapper A) :=
  self !! TremorUrl.trim_to_artefact id.

Definition publish (id : TremorUrl.t) (system : bool) (a : A) self : t A * result A :=
  let id := TremorUrl.trim_to_artefact id in
  match self !! id with
  | Some _ => (self, Err (EPublishFailedAlreadyExists (TremorUrl.display id)))
  | None => (<[id := mk_wrapper a [] system]> self, Ok a)
  end.

Definition unpublish (id : TremorUrl.t) self : t A * result A :=
  let id := TremorUrl.trim_to_artefact id in
  match self !! id with
  | None => (self, Err (EArtefactNotFound (TremorUrl.display id)))
  | Some w =>
    if system w then (self, Err (EUnpublishFailedSystemArtefact (TremorUrl.display id)))
    else if bool_decide (instances w = []) then (delete id self, Ok (artefact w))
    else (self, Err (EUnpublishFailedNonZeroInstances (TremorUrl.display id)))
  end.

Definition bind (id sid : TremorUrl.t) self : t A * result A :=
  let id := TremorUrl.trim_to_artefact id in
  let sid := TremorUrl.trim_to_instance sid in
  match self !! id with
  | Some w =>
    (<[id := mk_wrapper (artefact w) (instances w ++ [sid]) (system w)]> self, Ok (artefact w))
  | None => (self, Err (EArtefactNotFound (TremorUrl.display id)))
  end.

Definition unbind (id sid : TremorUrl.t) self : t A * result A :=
  let id := TremorUrl.trim_to_artefact id in
  let sid := TremorUrl.trim_to_instance sid in
  match self !! id with
  | Some w =>
    (<[id := mk_wrapper (artefact w) (filter (λ x, x ≠ sid) (instances w)) (system w)]> self,
     Ok (artefact w))
  | None => (self, Err (EArtefactNotFound (TremorUrl.display id)))
  end.

(** One turn of the loop of [start]. *)
Definition handle (kind : ResourceType) (m : msg A) self : t A * reply A :=
  match m with
  | ListArtefacts => (self, RIds (keys self))
  | SerializeArtefacts => (self, RArtefacts (values self))
  | FindArtefact id => (self, RFound (id ← artefact_id kind id; Ok (find id self)))
  | PublishArtefact id sys a =>
    match artefact_id kind id with
    | Ok id => let '(self, r) := publish id sys a self in (self, RArtefact r)
    | Err e => (self, RArtefact (Err e))
    end
  | UnpublishArtefact id =>
    match artefact_id kind id with
    | Ok id => let '(self, r) := unpublish id self in (self, RArtefact r)
    | Err e => (self, RArtefact (Err e))
    end
  | RegisterInstance a_id s_id =>
    match aid ← artefact_id kind a_id; sid ← servant_id kind s_id; Ok (aid, sid) with
    | Ok (aid, sid) => let '(self, r) := bind aid sid self in (self, RArtefact r)
    | Err e => (self, RArtefact (Err e))
    end
  | UnregisterInstance a_id s_id =>
    match aid ← artefact_id kind a_id; sid ← servant_id kind s_id; Ok (aid, sid) with
    | Ok (aid, sid) => let '(self, r) := unbind aid sid self in (self, RArtefact r)
    | Err e => (self, RArtefact (Err e))
    end
  end.

(** The methods of [Repositories]: one message, and its reply. *)
Definition list_artefacts kind self := handle kind ListArtefacts self.
Definition serialize_artefacts kind self := handle kind SerializeArtefacts self.
Definition find_artefact kind (id : TremorUrl.t) self := handle kind (FindArtefact id) self.
Definition publish_artefact kind (id : TremorUrl.t) (system : bool) (a : A) self :=
  handle kind (PublishArtefact id system a) self.
Definition unpublish_artefact kind (id : TremorUrl.t) self := handle kind (UnpublishArtefact id) self.
Definition bind_artefact kind (id : TremorUrl.t) self := handle kind (RegisterInstance id id) self.
Definition unbind_artefact kind (id : TremorUrl.t) self := handle kind (UnregisterInstance id id) self.
End repository.
End Repository.

Import Repository.

(** The repository after a sequence of messages. *)
Definition repo_run `{!hash_order TremorUrl.t} {A} (kind : ResourceType) (ms : list (msg A))
    (self : Repository.t A) : Repository.t A :=
  foldl (λ self m, (handle kind m self).1) self ms.

(** ** Ids *)
Lemma artefact_id_Ok kind u v :
  artefact_id kind u = Ok v →
  v = TremorUrl.trim_to_artefact u ∧ TremorUrl.resource_type u = Some kind ∧ is_Some (TremorUrl.artefact u).
Proof.
  unfold artefact_id. cbn. destruct (TremorUrl.resource_type u); [|done].
  destruct (TremorUrl.artefact u); [|done]. case_decide; [|done]. intros [= <-]. subst. eauto.
Qed.

Lemma servant_id_Ok kind u v :
  servant_id kind u = Ok v →
  v = TremorUrl.trim_to_instance u ∧ TremorUrl.resource_type u = Some kind ∧ is_Some (TremorUrl.instance u).
Proof.
  unfold servant_id. cbn. destruct (TremorUrl.resource_type u); [|done].
  destruct (TremorUrl.instance u); [|done]. case_decide; [|done]. intros [= <-]. subst. eauto.
Qed.

(** An id is its own id: the handlers trim once more without effect. *)
Lemma artefact_id_idemp kind u v :
  artefact_id kind u = Ok v → artefact_id kind v = Ok v ∧ TremorUrl.trim_to_artefact v = v.
Proof.
  intros (-> & Hk & [a Ha])%artefact_id_Ok. split; [|done].
  unfold artefact_id. cbn. by rewrite Hk, Ha, decide_True.
Qed.

Lemma servant_id_idemp kind u v :
  servant_id kind u = Ok v → servant_id kind v = Ok v ∧ TremorUrl.trim_to_instance v = v.
Proof.
  intros (-> & Hk & [a Ha])%servant_id_Ok. split; [|done].
  unfold servant_id. cbn. by rewrite Hk, Ha, decide_True.
Qed.

Section facts.
Context `{!hash_order TremorUrl.t} {A : Type} (kind : ResourceType).
Implicit Types self : Repository.t A.

(** The message [m] unregisters [sid] from [aid]. *)
Definition unregisters (m : msg A) (aid sid : TremorUrl.t) : Prop :=
  match m with
  | UnregisterInstance a s => artefact_id kind a = Ok aid ∧ servant_id kind s = Ok sid
  | _ => False
  end.

(** What a message does to the entry of an artefact. *)
Lemma handle_entry m self aid w :
  self !! aid = Some w →
  (∃ w', (handle kind m self).1 !! aid = Some w' ∧ artefact w' = artefact w ∧ system w' = system w ∧
     ∀ sid, sid ∈ instances w → sid ∈ instances w' ∨ unregisters m aid sid) ∨
  ((handle kind m self).1 !! aid = None ∧ system w = false ∧ instances w = []).
Proof.
  intros Hw. destruct m as [| |id|id sys a|id|a s|a s]; cbn [handle]; try (left; by eauto 10).
  - destruct (artefact_id kind id) as [v|] eqn:Hid; [|left; by eauto 10].
    apply artefact_id_idemp in Hid as [_ Hv]. unfold publish. rewrite Hv.
    destruct (self !! v) eqn:Hl; cbn; [left; by eauto 10|].
    left. exists w. rewrite lookup_insert_ne by congruence. by eauto 10.
  - destruct (artefact_id kind id) as [v|] eqn:Hid; [|left; by eauto 10].
    apply artefact_id_idemp in Hid as [_ Hv]. unfold unpublish. rewrite Hv.
    destruct (self !! v) as [w0|] eqn:Hl; cbn; [|left; by eauto 10].
    destruct (system w0) eqn:Hsys; cbn; [left; by eauto 10|].
    case_bool_decide as Hi; cbn; [|left; by eauto 10].
    destruct (decide (v = aid)) as [->|]; [right|left; exists w].
    + rewrite Hw in Hl. injection Hl as <-. by rewrite lookup_delete, decide_True.
    + rewrite lookup_delete_ne by done. by eauto 10.
  - destruct (artefact_id kind a) as [v|] eqn:Hid; cbn; [|left; by eauto 10].
    destruct (servant_id kind s) as [sv|] eqn:Hsid; cbn; [|left; by eauto 10].
    apply artefact_id_idemp in Hid as [_ Hv]. unfold bind. rewrite Hv.
    destruct (self !! v) as [w0|] eqn:Hl; cbn; left; [|by eauto 10].
    destruct (decide (v = aid)) as [->|].
    + rewrite Hw in Hl. injection Hl as <-. rewrite lookup_insert, decide_True by done.
      eexists. split_and!; [done..|]. cbn. intros sid. rewrite elem_of_app. auto.
    + rewrite lookup_insert_ne by done. by eauto 10.
  - destruct (artefact_id kind a) as [v|] eqn:Hid; cbn; [|left; by eauto 10].
    destruct (servant_id kind s) as [sv|] eqn:Hsid; cbn; [|left; by eauto 10].
    pose proof (servant_id_idemp _ _ _ Hsid) as [_ Hsv].
    pose proof (artefact_id_idemp _ _ _ Hid) as [_ Hv]. unfold unbind. rewrite Hv, Hsv.
    destruct (self !! v) as [w0|] eqn:Hl; cbn; left; [|by eauto 10].
    destruct (decide (v = aid)) as [->|].
    + rewrite Hw in Hl. injection Hl as <-. rewrite lookup_insert, decide_True by done.
      eexists. split_and!; [done..|]. cbn. intros sid Hs.
      destruct (decide (sid = sv)) as [->|]; [by right|]. left. by apply list_elem_of_filter.
    + rewrite lookup_insert_ne by done. by eauto 10.
Qed.

(** Registered instances survive all messages but those that unregister them,
    and so does the artefact; system artefacts survive all messages. *)
Lemma run_entry ms self aid sid w :
  self !! aid = Some w → sid ∈ instances w ∨ system w = true →
  Forall (λ m, ¬ unregisters m aid sid) ms ∨ system w = true →
  ∃ w', repo_run kind ms self !! aid = Some w' ∧ artefact w' = artefact w ∧ system w' = system w ∧
    (sid ∈ instances w → Forall (λ m, ¬ unregisters m aid sid) ms → sid ∈ instances w').
Proof.
  revert self w. induction ms as [|m ms IH]; intros self w Hw Hin Hms; [by eauto|].
  destruct (handle_entry m self aid w Hw) as [(w1 & Hw1 & Ha1 & Hs1 & Hi1)|(_ & Hsys & Hnil)].
  2: { rewrite Hsys, Hnil in Hin. by destruct Hin as [?%not_elem_of_nil|]. }
  destruct (IH _ w1 Hw1) as (w' & Hw' & Ha' & Hs' & Hi').
  - rewrite Hs1. destruct Hin as [Hin|]; [|by right]. destruct Hms as [Hms|]; [|by right].
    apply Forall_cons in Hms as [Hm _]. left. by destruct (Hi1 _ Hin).
  - rewrite Hs1. destruct Hms as [Hms|]; [left|by right]. by apply Forall_cons in Hms as [_ ?].
  - exists w'. split_and!; [done|congruence|congruence|].
    intros Hsid Hall. apply Forall_cons in Hall as [Hm Hall]. apply Hi'; [|done].
    by destruct (Hi1 _ Hsid).
Qed.

Lemma find_entry a_id aid self :
  artefact_id kind a_id = Ok aid →
  find_artefact kind a_id self = (self, RFound (Ok (self !! aid))).
Proof.
  intros Ha. unfold find_artefact. cbn [handle]. rewrite Ha, bind_Ok. unfold find.
  by destruct (artefact_id_idemp _ _ _ Ha) as [_ ->].
Qed.

Lemma unpublish_entry a_id aid self w :
  artefact_id kind a_id = Ok aid → self !! aid = Some w →
  unpublish_artefact kind a_id self =
    if system w then (self, RArtefact (Err (EUnpublishFailedSystemArtefact (TremorUrl.display aid))))
    else if bool_decide (instances w = []) then (delete aid self, RArtefact (Ok (artefact w)))
    else (self, RArtefact (Err (EUnpublishFailedNonZeroInstances (TremorUrl.display aid)))).
Proof.
  intros Ha Hw. unfold unpublish_artefact. cbn [handle]. rewrite Ha. unfold unpublish.
  destruct (artefact_id_idemp _ _ _ Ha) as [_ ->]. rewrite Hw.
  destruct (system w); [done|]. by case_bool_decide.
Qed.

Lemma register_entry a_id s_id aid sid self :
  artefact_id kind a_id = Ok aid → servant_id kind s_id = Ok sid →
  handle kind (RegisterInstance a_id s_id) self =
    match self !! aid with
    | Some w => (<[aid := mk_wrapper (artefact w) (instances w ++ [sid]) (system w)]> self,
                 RArtefact (Ok (artefact w)))
    | None => (self, RArtefact (Err (EArtefactNotFound (TremorUrl.display aid))))
    end.
Proof.
  intros Ha Hs. cbn [handle]. rewrite Ha, Hs, !bind_Ok. unfold bind.
  destruct (artefact_id_idemp _ _ _ Ha) as [_ ->], (servant_id_idemp _ _ _ Hs) as [_ ->].
  by destruct (self !! aid).
Qed.

Lemma unregister_entry a_id s_id aid sid self :
  artefact_id kind a_id = Ok aid → servant_id kind s_id = Ok sid →
  handle kind (UnregisterInstance a_id s_id) self =
    match self !! aid with
    | Some w => (<[aid := mk_wrapper (artefact w) (filter (λ x, x ≠ sid) (instances w)) (system w)]> self,
                 RArtefact (Ok (artefact w)))
    | None => (self, RArtefact (Err (EArtefactNotFound (TremorUrl.display aid))))
    end.
Proof.
  intros Ha Hs. cbn [handle]. rewrite Ha, Hs, !bind_Ok. unfold unbind.
  destruct (artefact_id_idemp _ _ _ Ha) as [_ ->], (servant_id_idemp _ _ _ Hs) as [_ ->].
  by destruct (self !! aid).
Qed.
End facts.

(** The ids a repository of [kind] holds. *)
Definition repo_wf {A} (kind : ResourceType) (self : Repository.t A) : Prop :=
  map_Forall (λ id w, artefact_id kind id = Ok id ∧
                      Forall (λ s, servant_id kind s = Ok s) (instances w)) self.

Lemma handle_wf `{!hash_order TremorUrl.t} {A} kind (m : msg A) self :
  repo_wf kind self → repo_wf kind (handle kind m self).1.
Proof.
  intros Hwf. destruct m as [| |id|id sys a|id|a s|a s]; cbn [handle]; try done.
  - destruct (artefact_id kind id) as [v|] eqn:Hid; [|done].
    destruct (artefact_id_idemp _ _ _ Hid) as [Hv Ht]. unfold publish. rewrite Ht.
    destruct (self !! v); [done|]. by apply map_Forall_insert_2.
  - destruct (artefact_id kind id) as [v|] eqn:Hid; [|done].
    destruct (artefact_id_idemp _ _ _ Hid) as [Hv Ht]. unfold unpublish. rewrite Ht.
    destruct (self !! v) as [w|]; [|done]. destruct (system w); [done|].
    case_bool_decide; [|done]. by apply map_Forall_delete.
  - destruct (artefact_id kind a) as [v|] eqn:Hid, (servant_id kind s) as [sv|] eqn:Hsid; try done.
    destruct (artefact_id_idemp _ _ _ Hid) as [Hv Ht], (servant_id_idemp _ _ _ Hsid) as [Hsv Hst].
    rewrite !bind_Ok. unfold bind. rewrite Ht, Hst.
    destruct (self !! v) as [w|] eqn:Hw; [|done]. apply map_Forall_insert_2; [|done].
    split; [done|]. apply Forall_app. split; [by apply (Hwf v w)|by apply Forall_singleton].
  - destruct (artefact_id kind a) as [v|] eqn:Hid, (servant_id kind s) as [sv|] eqn:Hsid; try done.
    destruct (artefact_id_idemp _ _ _ Hid) as [Hv Ht], (servant_id_idemp _ _ _ Hsid) as [Hsv Hst].
    rewrite !bind_Ok. unfold unbind. rewrite Ht, Hst.
    destruct (self !! v) as [w|] eqn:Hw; [|done]. apply map_Forall_insert_2; [|done].
    split; [done|]. apply Forall_forall. intros x [_ Hx]%list_elem_of_filter.
    destruct (Hwf v w Hw) as [_ Hall]. rewrite Forall_forall in Hall. by apply Hall.
Qed.

(** C39: a repository protects what is in use.  Once an instance is registered
    with an artefact, then after any further messages of which none
    unregisters this instance, the artefact is still found, unchanged and with
    the instance listed, and unpublishing it is refused without any effect.  A
    system artefact is found unchanged after any messages at all, and is never
    unpublished.  Unregistering drops the instance, however often it was
    registered, and when no other instance is left the artefact, unless it is
    a system one, can be unpublished and is gone.  All along, the keys are
    artefact ids of the repository's kind and the instances servant ids. *)
Theorem repository_protects `{!hash_order TremorUrl.t} {A} (kind : ResourceType)
    (self : Repository.t A) (a_id s_id aid sid : TremorUrl.t) (a : A) (ms : list (msg A))
    (Ha : artefact_id kind a_id = Ok aid) (Hs : servant_id kind s_id = Ok sid)
    (Hreg : (handle kind (RegisterInstance a_id s_id) self).2 = RArtefact (Ok a))
    (Hwf : repo_wf kind self) :
  let self1 := (handle kind (RegisterInstance a_id s_id) self).1 in
  let self2 := repo_run kind ms self1 in
  let self3 := (handle kind (UnregisterInstance a_id s_id) self2).1 in
  (Forall (λ m, ¬ unregisters kind m aid sid) ms →
   ∃ w, find_artefact kind a_id self2 = (self2, RFound (Ok (Some w))) ∧
     artefact w = a ∧ sid ∈ instances w ∧
     ∃ e, unpublish_artefact kind a_id self2 = (self2, RArtefact (Err e))) ∧
  (∀ w, self !! aid = Some w → system w = true →
   ∃ w', find_artefact kind a_id self2 = (self2, RFound (Ok (Some w'))) ∧ artefact w' = a ∧
     ∃ e, unpublish_artefact kind a_id self2 = (self2, RArtefact (Err e))) ∧
  (∀ w, self2 !! aid = Some w →
   ∃ w', self3 !! aid = Some w' ∧ artefact w' = artefact w ∧ (sid ∉ instances w') ∧
     (system w = false → Forall (.= sid) (instances w) →
      unpublish_artefact kind a_id self3 = (delete aid self3, RArtefact (Ok (artefact w))))) ∧
  repo_wf kind self3.
Proof.
  assert (∃ w, self !! aid = Some w ∧ artefact w = a) as (w & Hw & Hwa).
  { rewrite (register_entry kind a_id s_id aid sid) in Hreg by done.
    destruct (self !! aid) as [w|]; [|done]. injection Hreg as <-. by eauto. }
  intros self1 self2 self3.
  assert (self1 !! aid = Some (mk_wrapper a (instances w ++ [sid]) (system w))) as Hw1.
  { unfold self1. rewrite (register_entry kind a_id s_id aid sid), Hw by done. cbn.
    by rewrite lookup_insert, decide_True, Hwa by done. }
  assert (sid ∈ (instances w ++ [sid])%list) as Hin by (apply elem_of_app; right; by apply list_elem_of_singleton).
  assert (∀ w', self2 !! aid = Some w' → system w' = true ∨ sid ∈ instances w' →
    ∃ e, unpublish_artefact kind a_id self2 = (self2, RArtefact (Err e))) as Hunp.
  { intros w' Hw' Hor. rewrite (unpublish_entry kind a_id aid _ w') by done.
    destruct (system w'); [by eauto|]. rewrite bool_decide_false; [by eauto|].
    intros Hnil. rewrite Hnil in Hor. by destruct Hor as [|?%not_elem_of_nil]. }
  split_and!.
  - intros Hms. destruct (run_entry kind ms self1 aid sid _ Hw1) as (w' & Hw' & Ha' & Hs' & Hi');
      [by left|by left|]. cbn [artefact system instances] in *. exists w'. rewrite (find_entry kind a_id aid) by done.
    fold self2 in Hw' |- *. rewrite Hw'. split_and!; [done|done|by apply Hi'|].
    apply (Hunp w' Hw'). right. by apply Hi'.
  - intros w0 Hw0 Hsys. rewrite Hw0 in Hw. injection Hw as ->.
    destruct (run_entry kind ms self1 aid sid _ Hw1) as (w' & Hw' & Ha' & Hs' & _);
      [by left|by right|]. cbn [artefact system instances] in *. exists w'. rewrite (find_entry kind a_id aid) by done.
    fold self2 in Hw' |- *. rewrite Hw'. split_and!; [done|done|].
    apply (Hunp w' Hw'). left. congruence.
  - intros w2 Hw2. unfold self3. rewrite (unregister_entry kind a_id s_id aid sid), Hw2 by done. cbn [fst].
    rewrite lookup_insert, decide_True by done. eexists. split_and!; [done|done| |].
    + cbn. rewrite list_elem_of_filter. tauto.
    + intros Hsys Hall. rewrite (unpublish_entry kind a_id aid _
        (mk_wrapper (artefact w2) (filter (λ x, x ≠ sid) (instances w2)) (system w2)))
        by (done || by rewrite lookup_insert, decide_True). cbn [artefact system instances].
      rewrite Hsys, bool_decide_true; [done|].
      induction Hall as [|x l -> Hl IH]; [done|]. rewrite filter_cons, decide_False by (by intros []).
      exact IH.
  - unfold self3. apply handle_wf. unfold self2, repo_run.
    assert (repo_wf kind self1) as Hwf1 by (by apply handle_wf). clear -Hwf1.
    revert Hwf1. generalize self1. induction ms as [|m ms IH]; intros s Hs; [done|].
    cbn. by apply IH, handle_wf.
Qed.

Lemma repository_protects_witness :
  let _ := some_order TremorUrl.t in
  let aid := TremorUrl.mk ScopeArtefact "localhost" (Some Pipeline) (Some "main") None None in
  let sid := TremorUrl.mk ScopeServant "localhost" (Some Pipeline) (Some "main") (Some "01") None in
  let url := TremorUrl.mk ScopePort "localhost" (Some Pipeline) (Some "main") (Some "01") (Some "in") in
  let self : Repository.t nat := {[aid := mk_wrapper 7%nat [] false]} in
  artefact_id Pipeline url = Ok aid ∧ servant_id Pipeline url = Ok sid ∧
  (handle Pipeline (RegisterInstance url url) self).2 = RArtefact (Ok 7%nat) ∧
  repo_wf Pipeline self ∧
  ∃ e, unpublish_artefact Pipeline url
         (repo_run Pipeline [UnpublishArtefact url] (handle Pipeline (RegisterInstance url url) self).1) =
       (repo_run Pipeline [UnpublishArtefact url] (handle Pipeline (RegisterInstance url url) self).1,
        RArtefact (Err e)).
Proof.
  intros ho aid sid url self.
  assert (artefact_id Pipeline url = Ok aid) as Ha by reflexivity.
  assert (servant_id Pipeline url = Ok sid) as Hs by reflexivity.
  assert ((handle Pipeline (RegisterInstance url url) self).2 = RArtefact (Ok 7%nat)) as Hreg
    by (rewrite (register_entry Pipeline url url aid sid) by done; by vm_compute).
  assert (repo_wf Pipeline self) as Hwf by (by apply map_Forall_singleton).
  split_and!; [done..|].
  pose proof (repository_protects Pipeline self url url aid sid 7%nat [UnpublishArtefact url]
    Ha Hs Hreg Hwf) as [H _].
  destruct H as (w & _ & _ & _ & He); [|exact He].
  constructor; [|done]. by intros [].
Defined.
