(* ===== verification/Registry.v ===== *)
(** The registry of running servants: src/src/registry.rs.

    Like a repository a registry is an actor, one for each kind of artefact;
    [handle] is one turn of its loop. *)
From S2P Require Import Prelude Url Lifecycle Repository.

Local Open Scope string_scope.

Module Registry.
Abbreviation t A R := (gmap TremorUrl.t (Fsm.t A R)) (only parsing).

Inductive msg (A R : Type) :=
  | SerializeServants
  | FindServant (id : TremorUrl.t)
  | PublishServant (id : TremorUrl.t) (servant : Fsm.t A R)
  | UnpublishServant (id : TremorUrl.t)
  | Transition (id : TremorUrl.t) (to : ActivationState).
Arguments SerializeServants {A R}.
Arguments FindServant {A R} id.
Arguments PublishServant {A R} id servant.
Arguments UnpublishServant {A R} id.
Arguments Transition {A R} id to.

Inductive reply (A R : Type) :=
  | RServants (l : list A)
  | RFound (r : result (option R))
  | RState (r : result ActivationState).
Arguments RServants {A R} l.
Arguments RFound {A R} r.
Arguments RState {A R} r.

Section registry.
Context {A R : Type} `{!hash_order TremorUrl.t}.
Implicit Types self : t A R.

Definition new : t A R := ∅.
(** [find] and [find_mut]. *)
Definition find (id : TremorUrl.t) self : option (Fsm.t A R) :=
  self !! TremorUrl.trim_to_instance id.

(** [HashMap::insert] replaces the servant that is there. *)
Definition publish (id : TremorUrl.t) (servant : Fsm.t A R) self : t A R * result (Fsm.t A R) :=
  let id := TremorUrl.trim_to_instance id in
  let self' := <[id := servant]> self in
  match self !! id with
  | Some _old => (self', Err (EUnpublishFailedDoesNotExist (TremorUrl.display id)))
  | None => (self', ok_or (self' !! id) (EUnpublishFailedDoesNotExist (TremorUrl.display id)))
  end.

Definition unpublish (id : TremorUrl.t) self : t A R * result (Fsm.t A R) :=
  let id := TremorUrl.trim_to_instance id in
  match self !! id with
  | Some removed => (delete id self, Ok removed)
  | None => (self, Err (EPublishFailedAlreadyExists (TremorUrl.display id)))
  end.

Definition values self : list A := Fsm.artefact <$> (hash_iter self).*2.

(** One turn of the loop of [start]. *)
Definition handle (kind : ResourceType) (m : msg A R) self : t A R * reply A R :=
  match m with
  | SerializeServants => (self, RServants (values self))
  | FindServant id =>
    (self, RFound (id ← servant_id kind id; Ok (v ← find id self; Fsm.resolution v)))
  | PublishServant id s =>
    match servant_id kind id with
    | Ok id =>
      let '(self, r) := publish id s self in (self, RState (p ← r; Ok (Fsm.state p)))
    | Err e => (self, RState (Err e))
    end
  | UnpublishServant id =>
    match servant_id kind id with
    | Ok id =>
      let '(self, r) := unpublish id self in (self, RState (p ← r; Ok (Fsm.state p)))
    | Err e => (self, RState (Err e))
    end
  | Transition id new_state =>
    let id := TremorUrl.trim_to_instance id in
    match find id self with
    | Some s =>
      let '(s, _, r) := Fsm.transition new_state s in
      (<[TremorUrl.trim_to_instance id := s]> self, RState (_ ← r; Ok (Fsm.state s)))
    | None => (self, RState (Err (EMsg "Servant not found")))
    end
  end.

(** The methods of [Registries]: one message, and its reply. *)
Definition find_servant kind (id : TremorUrl.t) self := handle kind (FindServant id) self.
Definition publish_servant kind (id : TremorUrl.t) (s : Fsm.t A R) self :=
  handle kind (PublishServant id s) self.
Definition unpublish_servant kind (id : TremorUrl.t) self := handle kind (UnpublishServant id) self.
Definition transition_servant kind (id : TremorUrl.t) (to : ActivationState) self :=
  handle kind (Transition id to) self.
End registry.
End Registry.

Import Registry.

(** The registry after a sequence of messages. *)
Definition reg_run `{!hash_order TremorUrl.t} {A R} (kind : ResourceType) (ms : list (msg A R))
    (self : Registry.t A R) : Registry.t A R :=
  foldl (λ self m, (handle kind m self).1) self ms.

(** The message [m] publishes or unpublishes the servant [sid]. *)
Definition replaces {A R} (kind : ResourceType) (m : msg A R) (sid : TremorUrl.t) : Prop :=
  match m with
  | PublishServant id _ | UnpublishServant id => servant_id kind id = Ok sid
  | _ => False
  end.

Section facts.
Context `{!hash_order TremorUrl.t} {A R : Type} (kind : ResourceType).
Implicit Types self : Registry.t A R.

(** What a message that does not replace it does to a servant. *)
Lemma handle_servant m self sid v :
  self !! sid = Some v → ¬ replaces kind m sid →
  ∃ v', (handle kind m self).1 !! sid = Some v' ∧ Fsm.artefact v' = Fsm.artefact v ∧
    Fsm.resolution v' = Fsm.resolution v ∧ Fsm.id v' = Fsm.id v ∧
    (rank (Fsm.state v) ≤ rank (Fsm.state v'))%nat.
Proof.
  intros Hv Hm. destruct m as [|id|id s|id|id to]; cbn [handle]; try (by eauto 10).
  - cbn in Hm. destruct (servant_id kind id) as [i|] eqn:Hid; [|by eauto 10].
    apply servant_id_idemp in Hid as [_ Ht]. unfold publish. rewrite Ht.
    exists v. destruct (self !! i); cbn; rewrite lookup_insert_ne by congruence; by eauto.
  - cbn in Hm. destruct (servant_id kind id) as [i|] eqn:Hid; [|by eauto 10].
    apply servant_id_idemp in Hid as [_ Ht]. unfold unpublish. rewrite Ht.
    exists v. destruct (self !! i); cbn; [|by eauto]. rewrite lookup_delete_ne by congruence. by eauto.
  - unfold find. change (TremorUrl.trim_to_instance (TremorUrl.trim_to_instance id))
      with (TremorUrl.trim_to_instance id).
    destruct (self !! TremorUrl.trim_to_instance id) as [s|] eqn:Hs; [|by eauto 10].
    pose proof (transition_keeps s to) as Hk.
    destruct (Fsm.transition to s) as [[s' h] r]. cbn in Hk |- *.
    destruct (decide (TremorUrl.trim_to_instance id = sid)) as [<-|].
    + rewrite Hv in Hs. injection Hs as <-. rewrite lookup_insert, decide_True by done. by eauto.
    + rewrite lookup_insert_ne by done. by eauto 10.
Qed.

Lemma run_servant ms self sid v :
  self !! sid = Some v → Forall (λ m, ¬ replaces kind m sid) ms →
  ∃ v', reg_run kind ms self !! sid = Some v' ∧ Fsm.artefact v' = Fsm.artefact v ∧
    Fsm.resolution v' = Fsm.resolution v ∧ Fsm.id v' = Fsm.id v ∧
    (rank (Fsm.state v) ≤ rank (Fsm.state v'))%nat.
Proof.
  intros Hv Hms. revert self v Hv. induction Hms as [|m ms Hm Hms IH]; intros self v Hv; [by eauto 10|].
  destruct (handle_servant m self sid v Hv Hm) as (v1 & Hv1 & H1 & H2 & H3 & H4).
  destruct (IH _ _ Hv1) as (v2 & Hv2 & H5 & H6 & H7 & H8).
  exists v2. split_and!; [done|congruence..|lia].
Qed.
End facts.

(** Servants in the registry.  Publishing a servant under a free id, with
    any of the URLs of its instance, and any messages for other servants and
    transitions of this one after it: the servant is still found, with the
    resolution it was published with, and its state has not gone back; a
    transition of it then has exactly the legal effect, or is refused without
    any; unpublishing returns its state and frees the id.  Publishing under an
    id that is taken replies an error, but it does replace the servant. *)
Theorem registry_servants `{!hash_order TremorUrl.t} {A R} (kind : ResourceType)
    (self : Registry.t A R) (id id' sid : TremorUrl.t) (v : Fsm.t A R) (r : R) (ms : list (msg A R))
    (Hid : servant_id kind id = Ok sid) (Hid' : TremorUrl.same_instance_as id id' = true)
    (Hr : Fsm.resolution v = Some r) (Hms : Forall (λ m, ¬ replaces kind m sid) ms) :
  let self1 := (publish_servant kind id v self).1 in
  let self2 := reg_run kind ms self1 in
  (publish_servant kind id v self).2 =
    RState (if self !! sid then Err (EUnpublishFailedDoesNotExist (TremorUrl.display sid))
            else Ok (Fsm.state v)) ∧
  find_servant kind id' self2 = (self2, RFound (Ok (Some r))) ∧
  ∃ v2, self2 !! sid = Some v2 ∧ Fsm.artefact v2 = Fsm.artefact v ∧
    (rank (Fsm.state v) ≤ rank (Fsm.state v2))%nat ∧
    unpublish_servant kind id' self2 = (delete sid self2, RState (Ok (Fsm.state v2))) ∧
    ∀ to, match transition_servant kind id' to self2 with
          | (self3, RState (Ok st)) =>
              (∃ h, legal (Fsm.state v2) to st h) ∧ self3 = <[sid := Fsm.set_state st v2]> self2
          | (self3, RState (Err _)) => self3 = self2 ∧ ∀ st h, ¬ legal (Fsm.state v2) to st h
          | _ => False
          end.
Proof.
  intros self1 self2.
  destruct (servant_id_idemp _ _ _ Hid) as [_ Ht].
  assert (servant_id kind id' = Ok sid ∧ TremorUrl.trim_to_instance id' = sid) as [Hs' Ht'].
  { apply same_instance_key in Hid'. destruct (servant_id_Ok _ _ _ Hid) as (-> & _).
    split; [|done]. rewrite <-Hid. unfold servant_id. by rewrite Hid'. }
  assert (self1 !! sid = Some v) as H1.
  { unfold self1, publish_servant. cbn [handle]. rewrite Hid. unfold publish. rewrite Ht.
    destruct (self !! sid); cbn; by rewrite lookup_insert, decide_True. }
  destruct (run_servant kind ms self1 sid v H1 Hms) as (v2 & H2 & Ha & Hr2 & _ & Hrk).
  fold self2 in H2. split_and!.
  - unfold publish_servant. cbn [handle]. rewrite Hid. unfold publish. rewrite Ht.
    destruct (self !! sid); cbn; [done|]. by rewrite lookup_insert, decide_True.
  - unfold find_servant. cbn [handle]. rewrite Hs'. unfold find. rewrite bind_Ok, Ht, H2. cbn.
    by rewrite Hr2, Hr.
  - exists v2. split_and!; [done..| |].
    + unfold unpublish_servant. cbn [handle]. rewrite Hs'. unfold unpublish. by rewrite Ht, H2.
    + intros to. unfold transition_servant. cbn [handle]. unfold find. rewrite Ht', Ht, H2.
      pose proof (transition_legal v2 to) as Hl.
      destruct (Fsm.transition to v2) as [[v3 h] [u|e]]; cbn.
      * destruct Hl as [Hl ->]. cbn in *. by eauto.
      * destruct Hl as (-> & _ & Hl). split; [|done]. by apply insert_id.
Qed.

Lemma registry_servants_witness :
  let _ := some_order TremorUrl.t in
  let sid := TremorUrl.mk ScopeServant "localhost" (Some Onramp) (Some "blaster") (Some "00") None in
  let url := TremorUrl.mk ScopePort "localhost" (Some Onramp) (Some "blaster") (Some "00") (Some "out") in
  let v := Fsm.mk 1%nat Deactivated (Some 2%nat) sid in
  (servant_id Onramp sid = Ok sid ∧ TremorUrl.same_instance_as sid url = true ∧
   Fsm.resolution v = Some 2%nat) ∧
  let self1 := (publish_servant Onramp sid v ∅).1 in
  let self2 := reg_run Onramp [Transition sid Activated] self1 in
  find_servant Onramp url self2 = (self2, RFound (Ok (Some 2%nat))).
Proof.
  intros ho sid url v.
  assert (servant_id Onramp sid = Ok sid) as Hid by reflexivity.
  assert (TremorUrl.same_instance_as sid url = true) as Hsame by reflexivity.
  split_and!; [done..|].
  apply (registry_servants Onramp ∅ sid url sid v 2%nat [Transition sid Activated] Hid Hsame eq_refl).
  constructor; [|done]. by intros [].
Defined.
