(* ===== verification/Qos.v ===== *)
(** The quality of service of sinks: src/src/connectors/qos.rs.

    A canary probe scans the port of an endpoint, a failure detector keeps
    whether the endpoint is down, a sink's quality of service asks it.  What a
    port scan answers at the time of a call is an argument, [reachable]; so is
    the clock, [now]. *)
From S2P Require Import Prelude EventIds Value Event.

Local Open Scope string_scope.

(** ** Replies to the pipeline *)

(** [sink::Reply::Insight] of the insight, and what is left of the event. *)
Definition ack (event : Event.t) : Event.t * Event.t := Event.insight_ack event.
Definition fail (event : Event.t) : Event.t * Event.t := Event.insight_fail event.
Definition close (event : Event.t) : Event.t * Event.t := Event.insight_trigger event.
Definition open (event : Event.t) : Event.t * Event.t := Event.insight_restore event.

(** ** The traits *)
Class CanaryProbe (C : Type) := {
  canary_chirp : C → bool → bool;
  about : C → string;
}.

Class FailureDetector (D : Type) := {
  chirp : D → bool → bool;
  trigger : D → D;
  detector_probe : D → bool → D;
  restore : D → D;
  detector_down : D → bool;
}.

Class SinkQoS (Q : Type) := {
  is_auto_acknowledging : Q → bool;
  is_down : Q → bool;
  is_up : Q → bool;
  (** [now] and what a port scan would answer, then [ingest_ns] *)
  probe : u64 → bool → u64 → Q → Q * bool;
}.

(** ** The implementations *)
Record HostPortScanCanaryProbe := mk_scan { endpoint : string }.
#[export] Instance HostPortScan_canary : CanaryProbe HostPortScanCanaryProbe := {|
  canary_chirp self reachable := reachable;
  about self := endpoint self +:+ " [port scan]";
|}.

Module Grpc.
Record t (C : Type) := mk { canary : C; down : bool }.
Arguments mk {C} canary down.
Arguments canary {C} _.
Arguments down {C} _.
End Grpc.

Definition for_grpc_endpoint (hostport : string) : Grpc.t HostPortScanCanaryProbe :=
  Grpc.mk (mk_scan hostport) false.

#[export] Instance Grpc_detector {C} `{!CanaryProbe C} : FailureDetector (Grpc.t C) := {|
  chirp self reachable := canary_chirp (Grpc.canary self) reachable;
  trigger self := Grpc.mk (Grpc.canary self) true;
  detector_probe self reachable :=
    if canary_chirp (Grpc.canary self) reachable then Grpc.mk (Grpc.canary self) false else self;
  restore self := Grpc.mk (Grpc.canary self) false;
  detector_down self := Grpc.down self;
|}.

Record LossySinkQoS := mk_lossy {}.
Definition best_effort : LossySinkQoS := mk_lossy.
#[export] Instance Lossy_qos : SinkQoS LossySinkQoS := {|
  is_auto_acknowledging _ := true;
  is_down _ := false;
  is_up _ := negb false;
  probe _ _ _ self := (self, true);
|}.

Module Recoverable.
Record t (D : Type) := mk { interval : u64; epoch : u64; supervisor : D }.
Arguments mk {D} interval epoch supervisor.
Arguments interval {D} _.
Arguments epoch {D} _.
Arguments supervisor {D} _.

Section recoverable.
Context {D} `{!FailureDetector D}.

Definition probe (now : u64) (reachable : bool) (ingest_ns : u64) (self : t D) : t D * bool :=
  let check_now := (epoch self <? u64_sub now (interval self))%N in
  let self := mk (interval self) (u64_add ingest_ns (interval self)) (supervisor self) in
  (self,
   if detector_down (supervisor self) && check_now
   then chirp (supervisor self) reachable
   else negb (detector_down (supervisor self))).
End recoverable.
End Recoverable.

#[export] Instance Recoverable_qos {D} `{!FailureDetector D} : SinkQoS (Recoverable.t D) := {|
  is_auto_acknowledging _ := false;
  is_down self := detector_down (Recoverable.supervisor self);
  is_up self := negb (detector_down (Recoverable.supervisor self));
  probe := Recoverable.probe;
|}.

(** [QoSFacilities::recoverable]: the clock is read once. *)
Definition recoverable (now : u64) (endpoint : string) :
    Recoverable.t (Grpc.t HostPortScanCanaryProbe) :=
  Recoverable.mk 1000000000 now (Grpc.mk (mk_scan endpoint) false).

(** ** Probing a sink *)

(** One call: the clock, what a scan would answer, and the time of the event. *)
Record call := mk_call { now : u64; reachable : bool; ingest : u64 }.

Section probing.
Context {Q} `{!SinkQoS Q}.

Fixpoint probes (cs : list call) (self : Q) : Q * list bool :=
  match cs with
  | [] => (self, [])
  | c :: cs =>
    let '(self, b) := probe (now c) (reachable c) (ingest c) self in
    let '(self, bs) := probes cs self in (self, b :: bs)
  end.
End probing.

(** The time a call has to wait for, given the epoch before it: the epoch is
    one interval after the last event, and the clock must be another one past
    it. *)
Fixpoint scheduled (interval epoch : N) (cs : list call) : list bool :=
  match cs with
  | [] => []
  | c :: cs =>
    bool_decide (epoch + interval < now c)%N :: scheduled interval (ingest c + interval) cs
  end.

(** Times of a real clock: past the first interval, and no overflow. *)
Definition call_ok (interval : N) (c : call) : Prop :=
  (interval ≤ now c < w64)%N ∧ (ingest c + interval < w64)%N.

Section recoverable_facts.
Context {D} `{!FailureDetector D}.
Implicit Types self : Recoverable.t D.

Lemma probe_eq self c :
  call_ok (Recoverable.interval self) c →
  probe (now c) (reachable c) (ingest c) self =
    (Recoverable.mk (Recoverable.interval self) (ingest c + Recoverable.interval self)%N
       (Recoverable.supervisor self),
     if is_down self
     then if bool_decide (Recoverable.epoch self + Recoverable.interval self < now c)%N
          then chirp (Recoverable.supervisor self) (reachable c) else false
     else true).
Proof.
  intros [Hn Hi]. unfold probe, is_down; cbn. unfold Recoverable.probe.
  rewrite u64_add_small, u64_sub_small by lia. cbn. f_equal.
  destruct (detector_down _); cbn; [|done].
  case_bool_decide; [rewrite (proj2 (N.ltb_lt _ _)) by lia|rewrite (proj2 (N.ltb_ge _ _)) by lia]; done.
Qed.
End recoverable_facts.

(** Probing a recoverable sink.  Probes never change what the failure
    detector thinks; while it has the endpoint up every probe succeeds without
    a scan, so a facility fresh from [recoverable], that nothing else
    triggers, never scans at all.  While it has it down, a probe answers what
    a scan of the port answers, but only when the clock is two intervals past
    the event of the probe before; probes that come more often all fail,
    whether the endpoint is back or not. *)
Theorem qos_probe_schedule {D} `{!FailureDetector D} (self : Recoverable.t D) (cs : list call)
    (Hok : Forall (call_ok (Recoverable.interval self)) cs) :
  let '(self', bs) := probes cs self in
  Recoverable.supervisor self' = Recoverable.supervisor self ∧
  bs = (if is_down self
        then zip_with (λ (due : bool) c,
               if due then chirp (Recoverable.supervisor self) (reachable c) else false)
               (scheduled (Recoverable.interval self) (Recoverable.epoch self) cs) cs
        else replicate (length cs) true).
Proof.
  revert self Hok. induction cs as [|c cs IH]; intros self Hok.
  { cbn. by destruct (detector_down _). }
  apply Forall_cons in Hok as [Hc Hcs]. cbn [probes]. rewrite probe_eq by done.
  specialize (IH (Recoverable.mk (Recoverable.interval self) (ingest c + Recoverable.interval self)%N
    (Recoverable.supervisor self)) Hcs).
  destruct (probes cs _) as [self' bs]. destruct IH as [Hs ->]. split; [done|].
  cbn [scheduled length replicate zip_with]. unfold is_down; cbn.
  by destruct (detector_down (Recoverable.supervisor self)).
Qed.

Lemma qos_probe_schedule_witness :
  let self := Recoverable.mk 1000000000 0 (trigger (for_grpc_endpoint "localhost:443")) in
  let cs := [mk_call 2000000001 true 2000000001; mk_call 3000000000 true 3000000000;
             mk_call 5500000000 true 5500000000] in
  Forall (call_ok (Recoverable.interval self)) cs ∧ (probes cs self).2 = [true; false; true].
Proof.
  intros self cs.
  assert (Forall (call_ok (Recoverable.interval self)) cs) as Hok.
  { repeat constructor; cbn; done. }
  split; [exact Hok|].
  pose proof (qos_probe_schedule self cs Hok) as H.
  destruct (probes cs self) as [self' bs]. destruct H as [_ ->]. by vm_compute.
Defined.
