(* ===== verification/Network.v ===== *)
(** The messages between onramps, pipelines and offramps
    (src/pipeline.rs, src/onramp.rs, src/offramp.rs), their sending, and the
    metrics onramps and offramps send (src/metrics.rs).

    A channel is a number, an address the channels of a task.  What a task
    sends is a log of packets.  Whether a send succeeds is up to the receiver:
    the class [network] tells, from what was sent before, if the receiver of a
    packet is still there ([send] fails exactly if it is not).  A send into a
    bounded channel that is full waits, which changes when but not what is
    sent. *)
From S2P Require Import Prelude Value EventIds Event Graph Url.

(** ** Messages *)
Abbreviation chan := N (only parsing).

(** [pipeline::Addr] *)
Module Addr.
Record t := mk { addr : chan; cf_addr : chan; mgmt_addr : chan; id : TremorUrl.t }.
End Addr.

Inductive ConnectTarget :=
  | TOnramp (c : chan)
  | TOfframp (c : chan)
  | TPipeline (a : Addr.t).

(** [pipeline::MgmtMsg], less the [Echo] of the tests *)
Inductive MgmtMsg :=
  | ConnectInput (input_url : TremorUrl.t) (target : ConnectTarget) (transactional : bool)
  | ConnectOutput (port : string) (output_url : TremorUrl.t) (target : ConnectTarget)
  | DisconnectOutput (port : string) (to_delete : TremorUrl.t)
  | DisconnectInput (input_url : TremorUrl.t).

Inductive CfMsg := Insight (e : Event.t).

(** [pipeline::Msg] *)
Inductive PipelineMsg :=
  | MsgEvent (event : Event.t) (input : string)
  | MsgSignal (signal : Event.t).

(** [offramp::Msg] *)
Inductive OfframpMsg :=
  | OffEvent (event : Event.t) (input : string)
  | OffSignal (signal : Event.t)
  | OffConnect (port : string) (id : TremorUrl.t) (addr : Addr.t)
  | OffDisconnect (port : string) (id : TremorUrl.t) (tx : chan)
  | OffTerminate.

(** [onramp::Msg] *)
Inductive OnrampMsg :=
  | OnConnect (port : string) (ps : list (TremorUrl.t * Addr.t))
  | OnDisconnect (id : TremorUrl.t) (tx : chan)
  | OnCb (cb : CbAction) (ids : EventId.t)
  | OnResponse (event : Event.t).

(** ** Sending *)
Inductive packet :=
  | PkMsg (c : chan) (m : PipelineMsg)
  | PkCf (c : chan) (m : CfMsg)
  | PkMgmt (c : chan) (m : MgmtMsg)
  | PkOfframp (c : chan) (m : OfframpMsg)
  | PkOnramp (c : chan) (m : OnrampMsg)
  | PkAnswer (c : chan) (b : bool).

Class network := { accepts : list packet → packet → bool }.

(** All receivers are there. *)
Definition open_network : network := {| accepts := λ _ _, true |}.

(** What sends: the log of what was sent, kept on errors. *)
Definition net (A : Type) : Type := list packet → list packet * result A.
#[export] Instance net_ret : MRet net := λ A a tr, (tr, Ok a).
#[export] Instance net_bind : MBind net := λ A B f m tr,
  match m tr with (tr, Ok a) => f a tr | (tr, Err e) => (tr, Err e) end.

(** [?] on a result *)
Definition lift {A} (r : result A) : net A := λ tr, (tr, r).

(** [if let Err(e) = m { error!(..) }] *)
Definition logged (m : net unit) : net unit := λ tr, ((m tr).1, Ok tt).

(** The first of an iterator is served last, with the original value. *)
Definition first_last {A} (l : list A) : list A :=
  match l with
  | [] => []
  | first :: rest => rest ++ [first]
  end.
Lemma first_last_perm {A} (l : list A) : first_last l ≡ₚ l.
Proof. destruct l as [|x l]; [done|]. simpl. symmetry. apply Permutation_cons_append. Qed.

Section send.
Context `{!network}.

Definition closed_channel : error := EMsg "sending into a closed channel"%string.
Definition send (p : packet) : net unit := λ tr,
  if accepts tr p then (tr ++ [p], Ok tt) else (tr, Err closed_channel).

(** [Addr::send], [try_send], [send_insight], [send_mgmt] *)
Definition send_msg (a : Addr.t) (m : PipelineMsg) : net unit := send (PkMsg (Addr.addr a) m).
Definition send_insight (a : Addr.t) (e : Event.t) : net unit := send (PkCf (Addr.cf_addr a) (Insight e)).
Definition send_mgmt (a : Addr.t) (m : MgmtMsg) : net unit := send (PkMgmt (Addr.mgmt_addr a) m).

Fixpoint each {A} (f : A → net unit) (l : list A) : net unit :=
  match l with
  | [] => mret tt
  | x :: l => f x ≫= λ _, each f l
  end.

(** What arrives of packets that are all sent, failures being logged. *)
Definition attempt : list packet → list packet → list packet :=
  foldl (λ tr p, if accepts tr p then tr ++ [p] else tr).

Lemma each_logged {A} (f : A → packet) (l : list A) tr :
  each (λ x, logged (send (f x))) l tr = (attempt tr (f <$> l), Ok tt).
Proof.
  revert tr. induction l as [|x l IH]; intros tr; [done|]. cbn.
  unfold mbind, net_bind, logged at 1. rewrite IH. unfold send. by destruct (accepts tr (f x)).
Qed.

Lemma attempt_app tr ps qs : attempt tr (ps ++ qs) = attempt (attempt tr ps) qs.
Proof. apply foldl_app. Qed.

Lemma attempt_sublist ps tr : ∃ qs, attempt tr ps = tr ++ qs ∧ qs `sublist_of` ps.
Proof.
  revert tr. induction ps as [|p ps IH]; intros tr; cbn; [exists []; by rewrite app_nil_r|].
  destruct (accepts tr p).
  - destruct (IH (tr ++ [p])) as (qs & -> & ?). exists (p :: qs). rewrite <-app_assoc. split; [done|].
    by apply sublist_skip.
  - destruct (IH tr) as (qs & -> & ?). exists qs. split; [done|]. by apply sublist_cons.
Qed.

Lemma logged_send p tr : logged (send p) tr = (attempt tr [p], Ok tt).
Proof. cbn. unfold logged, send. by destruct (accepts tr p). Qed.

End send.

Lemma attempt_open tr ps : @attempt open_network tr ps = tr ++ ps.
Proof.
  revert tr. induction ps as [|p ps IH]; intros tr; cbn; [by rewrite app_nil_r|].
  by rewrite IH, <-app_assoc.
Qed.

(** ** Procedures

    A method of a task that changes its receiver and sends: both are kept on
    errors. *)
Definition proc (St A : Type) : Type := St → list packet → St * list packet * result A.
#[export] Instance proc_ret {St} : MRet (proc St) := λ A a s tr, (s, tr, Ok a).
#[export] Instance proc_bind {St} : MBind (proc St) := λ A B f m s tr,
  match m s tr with
  | (s, tr, Ok a) => f a s tr
  | (s, tr, Err e) => (s, tr, Err e)
  end.

Section proc.
Context {St : Type}.
Definition gets {A} (f : St → A) : proc St A := λ s tr, (s, tr, Ok (f s)).
Definition modify (f : St → St) : proc St unit := λ s tr, (f s, tr, Ok tt).
Definition throw {A} (e : error) : proc St A := λ s tr, (s, tr, Err e).
(** A computation that sends, and one that changes the state. *)
Definition sending {A} (m : net A) : proc St A := λ s tr, let '(tr, r) := m tr in (s, tr, r).
Definition changing {A} (f : St → St * result A) : proc St A := λ s tr,
  let '(s, r) := f s in (s, tr, r).
(** The result as a value, to match on. *)
Definition catch {A} (m : proc St A) : proc St (result A) := λ s tr,
  let '(s, tr, r) := m s tr in (s, tr, Ok r).

Fixpoint for_each {A} (f : A → proc St unit) (l : list A) : proc St unit :=
  match l with
  | [] => mret tt
  | x :: l => f x ≫= λ _, for_each f l
  end.
(** [error |= f(x)] over a list. *)
Fixpoint for_any {A} (f : A → proc St bool) (l : list A) : proc St bool :=
  match l with
  | [] => mret false
  | x :: l => e ← f x; rest ← for_any f l; mret (e || rest)
  end.
End proc.

(** ** [str::eq_ignore_ascii_case] *)
Definition ascii_lower (c : Ascii.ascii) : Ascii.ascii :=
  let n := Ascii.N_of_ascii c in
  if ((65 <=? n) && (n <=? 90))%N then Ascii.ascii_of_N (n + 32) else c.
Fixpoint string_lower (s : string) : string :=
  match s with
  | EmptyString => EmptyString
  | String.String c s => String.String (ascii_lower c) (string_lower s)
  end.
Definition eq_ignore_ascii_case (a b : string) : bool := bool_decide (string_lower a = string_lower b).

(** ** The metrics of an onramp or offramp (src/metrics.rs) *)
Module RampReporter.
Record t := mk {
  artefact_url : TremorUrl.t;
  in_ : N;
  out : N;
  err : N;
  metrics_pipeline : option (TremorUrl.t * Addr.t);
  flush_interval : option N;
  last_flush_ns : N;
}.
Definition new (artefact_url : TremorUrl.t) (flush_interval_s : option N) : t :=
  mk artefact_url 0 0 0 None ((λ n, u64_mul n 1000000000) <$> flush_interval_s) 0.
Definition set_metrics_pipeline (p : TremorUrl.t * Addr.t) (self : t) : t :=
  mk (artefact_url self) (in_ self) (out self) (err self) (Some p) (flush_interval self) (last_flush_ns self).
Definition increment_in (self : t) : t :=
  mk (artefact_url self) (u64_add (in_ self) 1) (out self) (err self) (metrics_pipeline self)
    (flush_interval self) (last_flush_ns self).
Definition increment_out (self : t) : t :=
  mk (artefact_url self) (in_ self) (u64_add (out self) 1) (err self) (metrics_pipeline self)
    (flush_interval self) (last_flush_ns self).
Definition increment_err (self : t) : t :=
  mk (artefact_url self) (in_ self) (out self) (u64_add (err self) 1) (metrics_pipeline self)
    (flush_interval self) (last_flush_ns self).
Definition set_last_flush (ns : N) (self : t) : t :=
  mk (artefact_url self) (in_ self) (out self) (err self) (metrics_pipeline self) (flush_interval self) ns.

Definition make_event (timestamp : N) (port : string) (count : N) (self : t) : Event.t :=
  metric_event timestamp (influx_value "ramp_events"
    {["ramp" := VString (TremorUrl.display (artefact_url self)); "port" := VString port]} count timestamp).

(** [send]; the sends do not wait. *)
Definition send_metrics `{!network} (events : list Event.t) (self : t) : net unit :=
  match metrics_pipeline self with
  | Some (metrics_input, metrics_addr) =>
    match TremorUrl.instance_port metrics_input with
    | Some input => each (λ event, logged (send_msg metrics_addr (MsgEvent event input))) events
    | None => mret tt
    end
  | None => mret tt
  end.

Definition flush_due (timestamp : N) (self : t) : bool :=
  match flush_interval self with
  | Some interval => (u64_add (last_flush_ns self) interval <=? timestamp)%N
  | None => false
  end.
Definition periodic_flush `{!network} (timestamp : N) (self : t) : t * net unit * option N :=
  if flush_due timestamp self then
    (set_last_flush timestamp self,
     send_metrics [make_event timestamp "in" (in_ self) self; make_event timestamp "out" (out self) self;
                   make_event timestamp "error" (err self) self] self,
     Some timestamp)
  else (self, mret tt, None).
End RampReporter.

(** ** Reasoning about what sends *)

(** The action extends the log with packets of some kind. *)
Definition logs_only (ok : packet → Prop) {A} (m : net A) : Prop :=
  ∀ tr, ∃ ps, (m tr).1 = tr ++ ps ∧ Forall ok ps.

Section logs_only.
Context (ok : packet → Prop).
Lemma logs_only_ret {A} (a : A) : logs_only ok (mret a).
Proof. intros tr. exists []. by rewrite app_nil_r. Qed.
Lemma logs_only_lift {A} (r : result A) : logs_only ok (lift r).
Proof. intros tr. exists []. by rewrite app_nil_r. Qed.
Lemma logs_only_send `{!network} p : ok p → logs_only ok (send p).
Proof.
  intros Hp tr. unfold send. destruct (accepts tr p); [by exists [p]; repeat constructor|].
  exists []. by rewrite app_nil_r.
Qed.
Lemma logs_only_logged m : logs_only ok m → logs_only ok (logged m).
Proof. intros Hm tr. destruct (Hm tr) as (ps & Hps & ?). by exists ps. Qed.
Lemma logs_only_bind {A B} (m : net A) (f : A → net B) :
  logs_only ok m → (∀ a, logs_only ok (f a)) → logs_only ok (m ≫= f).
Proof.
  intros Hm Hf tr. destruct (Hm tr) as (ps & Hps & Hok). unfold mbind, net_bind.
  destruct (m tr) as [tr1 [a|e]]; simpl in Hps; subst tr1; [|by exists ps].
  destruct (Hf a (tr ++ ps)) as (qs & Hqs & Hok'). exists (ps ++ qs).
  rewrite Hqs, app_assoc. split; [done|]. by apply Forall_app.
Qed.
Lemma logs_only_each {A} (f : A → net unit) l : (∀ x, logs_only ok (f x)) → logs_only ok (each f l).
Proof.
  intros Hf. induction l as [|x l IH]; [apply logs_only_ret|]. by apply logs_only_bind.
Qed.
End logs_only.

Lemma logs_only_weaken (ok ok' : packet → Prop) {A} (m : net A) :
  (∀ p, ok p → ok' p) → logs_only ok m → logs_only ok' m.
Proof. intros Hw Hm tr. destruct (Hm tr) as (ps & ? & ?). exists ps. split; [done|]. by eapply Forall_impl. Qed.

(** The procedure keeps an invariant of state and log, also when it fails. *)
Definition preserves {St A} (J : St → list packet → Prop) (m : proc St A) : Prop :=
  ∀ s tr, J s tr → let '(s', tr', _) := m s tr in J s' tr'.

Section preserves.
Context {St : Type} (J : St → list packet → Prop).
Lemma preserves_ret {A} (a : A) : preserves J (mret a).
Proof. by intros s tr. Qed.
Lemma preserves_gets {A} (f : St → A) : preserves J (gets f).
Proof. by intros s tr. Qed.
Lemma preserves_throw {A} e : preserves J (throw e : proc St A).
Proof. by intros s tr. Qed.
Lemma preserves_modify f : (∀ s tr, J s tr → J (f s) tr) → preserves J (modify f).
Proof. intros Hf s tr. apply Hf. Qed.
Lemma preserves_changing {A} (f : St → St * result A) :
  (∀ s tr, J s tr → J (f s).1 tr) → preserves J (changing f).
Proof. intros Hf s tr HJ. unfold changing. specialize (Hf s tr HJ). by destruct (f s). Qed.
Lemma preserves_sending ok {A} (m : net A) :
  (∀ s tr ps, J s tr → Forall ok ps → J s (tr ++ ps)) → logs_only ok m → preserves J (sending m).
Proof.
  intros HJ Hm s tr H. unfold sending. destruct (Hm tr) as (ps & Hps & Hok).
  destruct (m tr) as [tr' r]. simpl in Hps. subst. by apply HJ.
Qed.
Lemma preserves_catch {A} (m : proc St A) : preserves J m → preserves J (catch m).
Proof. intros Hm s tr H. unfold catch. specialize (Hm s tr H). by destruct (m s tr) as [[??]?]. Qed.
Lemma preserves_bind {A B} (m : proc St A) (f : A → proc St B) :
  preserves J m → (∀ a, preserves J (f a)) → preserves J (m ≫= f).
Proof.
  intros Hm Hf s tr H. unfold mbind, proc_bind. specialize (Hm s tr H).
  destruct (m s tr) as [[s1 tr1] [a|e]]; [|done]. by apply Hf.
Qed.
Lemma preserves_for_each {A} (f : A → proc St unit) l : (∀ x, preserves J (f x)) → preserves J (for_each f l).
Proof. intros Hf. induction l as [|x l IH]; [apply preserves_ret|]. by apply preserves_bind. Qed.
Lemma preserves_for_any {A} (f : A → proc St bool) l : (∀ x, preserves J (f x)) → preserves J (for_any f l).
Proof.
  intros Hf. induction l as [|x l IH]; [apply preserves_ret|]. simpl.
  apply preserves_bind; [done|]. intros e. apply preserves_bind; [done|]. intros r. apply preserves_ret.
Qed.
(** Two changes that only together keep the invariant. *)
Lemma preserves_modify2 {A} f g (k : proc St A) :
  (∀ s tr, J s tr → J (g (f s)) tr) → preserves J k → preserves J (modify f ≫= λ _, modify g ≫= λ _, k).
Proof. intros Hfg Hk s tr HJ. apply (Hk (g (f s)) tr), Hfg, HJ. Qed.
Lemma preserves_modify_changing {A} f (g : St → St * result A) :
  (∀ s tr, J s tr → J (g (f s)).1 tr) → preserves J (modify f ≫= λ _, changing g).
Proof.
  intros Hfg s tr HJ. specialize (Hfg s tr HJ). unfold mbind, proc_bind, modify, changing.
  by destruct (g (f s)).
Qed.
End preserves.

Create HintDb net.
#[export] Hint Resolve logs_only_ret logs_only_lift logs_only_send logs_only_logged logs_only_bind
  logs_only_each preserves_ret preserves_gets preserves_throw preserves_catch preserves_bind
  preserves_for_each preserves_for_any : net.

(** The priority merge of two streams (src/permge.rs).

    The streams of the runtime are channels and what is built of them.  A
    [mailbox] is a stream with its items in the order they come: it gives the
    first if there is one, is pending while more may come, and ends when none
    can.  A receiver of the channel library that was fused is one; the merge of
    two mailboxes is shown to be one again, the items of [high] in front. *)

(** ** Streams *)
Inductive poll (A : Type) :=
  | Ready (a : A)
  | Pending.
Arguments Ready {A} a.
Arguments Pending {A}.

Class stream (St T : Type) := poll_next : St → St * poll (option T).

(** How a fused stream over a channel behaves, and sending into the channel:
    documented behaviour of the channel and stream libraries. *)
Class mailbox (St T : Type) `{!stream St T} := {
  waiting : St → list T;
  finished : St → bool;
  poll_spec (s : St) :
    match waiting s with
    | x :: xs => ∃ s', poll_next s = (s', Ready (Some x)) ∧ waiting s' = xs ∧ finished s' = finished s
    | [] => ∃ s', poll_next s = (s', if finished s then Ready None else Pending) ∧
        waiting s' = [] ∧ finished s' = finished s
    end;
}.
Class channel (St T : Type) `{!stream St T, !mailbox St T} := {
  post : list T → St → St;
  waiting_post xs s : waiting (post xs s) = waiting s ++ xs;
  finished_post xs s : finished (post xs s) = finished s;
}.

(** *** A channel of lists, for evaluation *)
Record queue (T : Type) := Queue { queued : list T; closed : bool }.
Arguments Queue {T} queued closed.
Arguments queued {T} _.
Arguments closed {T} _.
#[export] Instance queue_stream {T} : stream (queue T) T := λ s,
  match queued s with
  | x :: xs => (Queue xs (closed s), Ready (Some x))
  | [] => (s, if closed s then Ready None else Pending)
  end.
#[export] Program Instance queue_mailbox {T} : mailbox (queue T) T :=
  {| waiting := queued; finished := closed |}.
Next Obligation.
  intros T [[|x xs] c]; cbn; unfold poll_next, queue_stream; cbn; by eexists.
Qed.
#[export] Program Instance queue_channel {T} : channel (queue T) T :=
  {| post := λ xs s, Queue (queued s ++ xs) (closed s) |}.
Solve All Obligations with done.

(** ** [StreamExt::map] *)
Record mapped {A B : Type} (f : A → B) (St : Type) := Mapped { unmapped : St }.
Arguments Mapped {A B f St} _.
Arguments unmapped {A B f St} _.

Section mapped.
Context {A B : Type} (f : A → B) {St : Type} `{!stream St A, !mailbox St A}.

#[export] Instance mapped_stream : stream (mapped f St) B := λ s,
  let '(s, r) := poll_next (unmapped s) in
  (Mapped s, match r with
             | Ready o => Ready (f <$> o)
             | Pending => Pending
             end).

#[export] Program Instance mapped_mailbox : mailbox (mapped f St) B :=
  {| waiting s := f <$> waiting (unmapped s); finished s := finished (unmapped s) |}.
Next Obligation.
  intros [s]. cbn. pose proof (poll_spec s) as Hp. unfold poll_next, mapped_stream. cbn.
  destruct (waiting s) as [|x xs]; destruct Hp as (s' & -> & Hw & Hf); exists (Mapped s'); cbn;
    rewrite Hw, Hf; [|done]. by destruct (finished s).
Qed.
End mapped.

(** ** [PriorityMerge] *)
Record PriorityMerge (High Low : Type) := Merge { high : High; low : Low }.
Arguments Merge {High Low} _ _.
Arguments high {High Low} _.
Arguments low {High Low} _.

Section merge.
Context {High Low T : Type} `{!stream High T, !stream Low T}.

#[export] Instance merge_stream : stream (PriorityMerge High Low) T := λ this,
  let '(h, r) := poll_next (high this) in
  match r with
  | Ready None => let '(l, r) := poll_next (low this) in (Merge h l, r)
  | Ready item => (Merge h (low this), Ready item)
  | Pending =>
    let '(l, r) := poll_next (low this) in
    (Merge h l, match r with Ready None | Pending => Pending | Ready item => Ready item end)
  end.

Context `{!mailbox High T, !mailbox Low T}.

(** The merge of two mailboxes is a mailbox: a priority queue. *)
#[export] Program Instance merge_mailbox : mailbox (PriorityMerge High Low) T :=
  {| waiting s := waiting (high s) ++ waiting (low s);
     finished s := finished (high s) && finished (low s) |}.
Next Obligation.
  intros [h l]. cbn. pose proof (poll_spec h) as Hh. pose proof (poll_spec l) as Hl.
  unfold poll_next, merge_stream. cbn.
  destruct (waiting h) as [|x xs]; destruct Hh as (h' & -> & Hw & Hf); cbn.
  2: { exists (Merge h' l). cbn. by rewrite Hw, Hf. }
  destruct (waiting l) as [|y ys]; destruct Hl as (l' & Hp & Hw' & Hf'); exists (Merge h' l');
    destruct (finished h); rewrite Hp; cbn; rewrite Hw, Hw', Hf, Hf'; try done; by destruct (finished l).
Qed.
End merge.
