(* ===== verification/Pipeline.v ===== *)
(** The pipeline task (src/pipeline.rs): the actor around an executable graph.

    The task takes its messages from three channels, management before
    contraflow before events and signals, and handles each to completion.  A
    handler gives the task as it leaves it and what it sends, as a [net]
    action; the state of the task does not depend on which sends succeed.  The
    fuel is that of the graph. *)
From S2P Require Import Prelude Value EventIds Event Graph GraphSpec Url Repository Network.

(** ** Where events go and come from *)
Inductive Dest :=
  | DOfframp (c : chan)
  | DPipeline (a : Addr.t)
  | DLinkedOnramp (c : chan).

Inductive Input :=
  | ILinkedOfframp (c : chan)
  | IPipeline (a : Addr.t)
  | IOnramp (c : chan).

Definition Dest_from (ct : ConnectTarget) : Dest :=
  match ct with
  | TOfframp off => DOfframp off
  | TOnramp on => DLinkedOnramp on
  | TPipeline pipe => DPipeline pipe
  end.
Definition Input_from (ct : ConnectTarget) : Input :=
  match ct with
  | TOfframp off => ILinkedOfframp off
  | TOnramp on => IOnramp on
  | TPipeline pipe => IPipeline pipe
  end.

(** [permge::M] *)
Inductive M :=
  | MF (m : PipelineMsg)
  | MC (m : CfMsg)
  | MM (m : MgmtMsg).

(** [system::METRICS_PIPELINE] *)
Definition METRICS_PIPELINE : TremorUrl.t :=
  TremorUrl.mk ScopePort "localhost" (Some Pipeline) (Some "system::metrics"%string)
    (Some "system"%string) (Some "in"%string).

(** [Vec::swap_remove]: the last element takes the place of the removed one. *)
Definition swap_remove {A} (i : nat) (l : list A) : list A :=
  match last l with
  | Some z => take (length l - 1) (<[i := z]> l)
  | None => l
  end.

Section pipeline.
Context {Op : Type} `{!Operator Op, !network, !hash_order string, !hash_order TremorUrl.t}.

(** The variables of the task; [id] and [addr] do not change. *)
Record Task := mk_task {
  pipeline : ExecutableGraph Op;
  dests : gmap string (list (TremorUrl.t * Dest));
  inputs : gmap TremorUrl.t (bool * Input);
  eventset : returns;
}.
Definition set_pipeline (g : ExecutableGraph Op) (t : Task) : Task :=
  mk_task g (dests t) (inputs t) (eventset t).
Definition set_dests (d : gmap string (list (TremorUrl.t * Dest))) (t : Task) : Task :=
  mk_task (pipeline t) d (inputs t) (eventset t).
Definition set_inputs (i : gmap TremorUrl.t (bool * Input)) (t : Task) : Task :=
  mk_task (pipeline t) (dests t) i (eventset t).
Definition set_eventset (e : returns) (t : Task) : Task :=
  mk_task (pipeline t) (dests t) (inputs t) e.

(** *** Sending *)
Definition send_event (d : Dest) (input : string) (event : Event.t) : net unit :=
  match d with
  | DOfframp c => send (PkOfframp c (OffEvent event input))
  | DPipeline a => send_msg a (MsgEvent event input)
  | DLinkedOnramp c => send (PkOnramp c (OnResponse event))
  end.
Definition send_signal_to (d : Dest) (signal : Event.t) : net unit :=
  match d with
  | DOfframp c => send (PkOfframp c (OffSignal signal))
  | DPipeline a =>
    if decide (Event.kind signal ≠ Some SigTick) then send_msg a (MsgSignal signal) else mret tt
  | DLinkedOnramp _ => mret tt
  end.

(** [send_events]: the last destination gets the event itself, the others a
    clone; the [eventset] is empty afterwards, also on errors. *)
Definition send_to (event : Event.t) (d : TremorUrl.t * Dest) : net unit :=
  port ← lift (TremorUrl.instance_port_required d.1); send_event d.2 port event.
Definition send_events (es : returns) (ds : gmap string (list (TremorUrl.t * Dest))) : net unit :=
  each (λ oe, match ds !! oe.1 with
              | Some dest => each (send_to oe.2) dest
              | None => mret tt
              end) es.

Definition send_signal (own_id : TremorUrl.t) (signal : Event.t)
    (ds : gmap string (list (TremorUrl.t * Dest))) : net unit :=
  each (λ d, if decide (d.1 ≠ own_id) then send_signal_to d.2 signal else mret tt)
    (first_last (concat (hash_iter ds).*2)).

(** *** Insights *)
Definition forward_insight (insight : Event.t) (i : TremorUrl.t * (bool * Input)) : net unit :=
  let '(_, (transactional, input)) := i in
  if transactional || is_cb (Event.cb insight) then
    logged match input with
           | IOnramp c => send (PkOnramp c (OnCb (Event.cb insight) (Event.id insight)))
           | IPipeline a => send_insight a insight
           | ILinkedOfframp _ => mret tt
           end
  else mret tt.

Definition handle_insight (skip_to : option nat) (insight : Event.t) (g : ExecutableGraph Op)
    (ins : gmap TremorUrl.t (bool * Input)) : ExecutableGraph Op * net unit :=
  let '(g, insight) := contraflow skip_to insight g in
  (g, if decide (Event.cb insight ≠ CbNone) then each (forward_insight insight) (first_last (hash_iter ins))
      else mret tt).

Fixpoint insights_loop (l : list (nat * Event.t)) (g : ExecutableGraph Op)
    (ins : gmap TremorUrl.t (bool * Input)) : ExecutableGraph Op * net unit :=
  match l with
  | [] => (g, mret tt)
  | (skip_to, insight) :: l =>
    let '(g, a) := handle_insight (Some skip_to) insight g ins in
    let '(g, b) := insights_loop l g ins in
    (g, a ≫= λ _, b)
  end.
Definition handle_insights (g : ExecutableGraph Op) (ins : gmap TremorUrl.t (bool * Input)) :
    ExecutableGraph Op * net unit :=
  insights_loop (g_insights g) (set_insights [] g) ins.

(** *** Management *)
Definition connect_output (pid : TremorUrl.t) (addr : Addr.t) (port : string) (output_url : TremorUrl.t)
    (target : ConnectTarget) (t : Task) : Task * net unit :=
  (set_dests (<[port := default [] (dests t !! port) ++ [(output_url, Dest_from target)]]> (dests t)) t,
   match target with
   | TPipeline pipe =>
     if negb (TremorUrl.same_instance_as pid output_url)
        && negb (TremorUrl.same_instance_as METRICS_PIPELINE output_url)
     then logged (send_mgmt pipe (ConnectInput pid (TPipeline addr) true))
     else mret tt
   | _ => mret tt
   end).

(** The loop of [DisconnectOutput] removes a destination at every round. *)
Fixpoint disconnect_loop (fuel : nat) (id to_delete : TremorUrl.t) (v : list (TremorUrl.t * Dest)) :
    list (TremorUrl.t * Dest) * net unit :=
  match fuel with
  | O => (v, mret tt)
  | S fuel =>
    match list_find (λ d, d.1 = to_delete) v with
    | None => (v, mret tt)
    | Some (index, d) =>
      let '(v, rest) := disconnect_loop fuel id to_delete (swap_remove index v) in
      (v, match d.2 with
          | DPipeline pipe => logged (send_mgmt pipe (DisconnectInput id)) ≫= λ _, rest
          | _ => rest
          end)
    end
  end.

Definition disconnect_output (id : TremorUrl.t) (port : string) (to_delete : TremorUrl.t) (t : Task) :
    Task * net unit :=
  match dests t !! port with
  | None => (t, mret tt)
  | Some v =>
    let '(v, a) := disconnect_loop (length v) id to_delete v in
    (set_dests (if decide (v = []) then delete port (dests t) else <[port := v]> (dests t)) t, a)
  end.

Definition handle_mgmt (id : TremorUrl.t) (addr : Addr.t) (m : MgmtMsg) (t : Task) : Task * net unit :=
  match m with
  | ConnectInput input_url target transactional =>
    (set_inputs (<[input_url := (transactional, Input_from target)]> (inputs t)) t, mret tt)
  | ConnectOutput port output_url target =>
    connect_output (TremorUrl.trim_to_instance id) addr port output_url target t
  | DisconnectOutput port to_delete => disconnect_output id port to_delete t
  | DisconnectInput input_url => (set_inputs (delete input_url (inputs t)) t, mret tt)
  end.

(** *** Events and signals *)
Definition flush (t : Task) : Task * net unit :=
  (set_eventset [] t, logged (send_events (eventset t) (dests t))).

(** An error is logged; a panic ends the task. *)
Definition log_error (e : error) : net unit :=
  match e with EPanic _ => lift (Err e) | _ => mret tt end.

Definition handle_event (fuel : nat) (input : string) (event : Event.t) (t : Task) :
    option (Task * net unit) :=
  match enqueue fuel input event (pipeline t) (eventset t) with
  | None => None
  | Some (g, es, Err e) => Some (set_eventset es (set_pipeline g t), log_error e)
  | Some (g, es, Ok _) =>
    let '(g, a) := handle_insights g (inputs t) in
    let '(t, b) := flush (set_eventset es (set_pipeline g t)) in
    Some (t, a ≫= λ _, b)
  end.

Definition handle_signal (fuel : nat) (id : TremorUrl.t) (signal : Event.t) (t : Task) :
    option (Task * net unit) :=
  match enqueue_signal fuel signal (pipeline t) (eventset t) with
  | None => None
  | Some (g, es, Err e) => Some (set_eventset es (set_pipeline g t), log_error e)
  | Some (g, es, Ok _) =>
    let '(g, a) := handle_insights g (inputs t) in
    let '(t, b) := flush (set_eventset es (set_pipeline g t)) in
    Some (t, logged (send_signal id signal (dests t)) ≫= λ _, a ≫= λ _, b)
  end.

Definition handle_cf_msg (m : CfMsg) (t : Task) : Task * net unit :=
  let '(Insight insight) := m in
  let '(g, a) := handle_insight None insight (pipeline t) (inputs t) in
  (set_pipeline g t, a).

(** One round of the loop of [pipeline_task]. *)
Definition handle (fuel : nat) (id : TremorUrl.t) (addr : Addr.t) (m : M) (t : Task) :
    option (Task * net unit) :=
  match m with
  | MC m => Some (handle_cf_msg m t)
  | MF (MsgEvent event input) => handle_event fuel input event t
  | MF (MsgSignal signal) => handle_signal fuel id signal t
  | MM m => Some (handle_mgmt id addr m t)
  end.

(** What the task starts with. *)
Definition init_task (id : TremorUrl.t) (g : ExecutableGraph Op) : Task :=
  mk_task (set_g_id (TremorUrl.display (TremorUrl.trim_to_instance id)) g) ∅ ∅ [].

(** *** The loop

    Between two polls the environment puts messages into the channels, a list
    for each. *)
Context {SM SC SF : Type} `{channel SM MgmtMsg, channel SC CfMsg, channel SF PipelineMsg}.

Definition rx : Type := PriorityMerge (mapped MM SM) (PriorityMerge (mapped MC SC) (mapped MF SF)).
Definition arrivals : Type := list MgmtMsg * list CfMsg * list PipelineMsg.
Definition arrive (a : arrivals) (s : rx) : rx :=
  let '(m, c, f) := a in
  Merge (Mapped (post m (unmapped (high s))))
    (Merge (Mapped (post c (unmapped (high (low s))))) (Mapped (post f (unmapped (low (low s)))))).

(** The task after some rounds: its state and channels, its log, the messages
    it handled, and its result if it ended, a panic for one. *)
Record run_state := Run {
  run_task : Task;
  run_rx : rx;
  run_log : list packet;
  run_handled : list M;
  run_result : option (result unit);
}.

Fixpoint pipeline_task (fuel : nat) (id : TremorUrl.t) (addr : Addr.t) (rounds : list arrivals)
    (t : Task) (s : rx) (tr : list packet) (handled : list M) : option run_state :=
  match rounds with
  | [] => Some (Run t s tr handled None)
  | a :: rounds =>
    match poll_next (arrive a s) with
    | (s, Pending) => pipeline_task fuel id addr rounds t s tr handled
    | (s, Ready None) => Some (Run t s tr handled (Some (Ok tt)))
    | (s, Ready (Some m)) =>
      match handle fuel id addr m t with
      | None => None
      | Some (t, act) =>
        match act tr with
        | (tr, Ok _) => pipeline_task fuel id addr rounds t s tr (handled ++ [m])
        | (tr, Err e) => Some (Run t s tr (handled ++ [m]) (Some (Err e)))
        end
      end
    end
  end.

End pipeline.
