(* ===== verification/PipelineSpec.v ===== *)
(** What the pipeline task promises: it serves every message it is sent,
    management and contraflow first, whatever fails. *)
From S2P Require Import Prelude Value EventIds Event OpsBasic Graph GraphSpec Url Repository Network Pipeline.

(** ** Handlers never fail

    An action that extends the log and returns [Ok]: all errors of sending are
    logged by the handlers. *)
Definition calm (m : net unit) : Prop := ∀ tr, ∃ ps, m tr = (tr ++ ps, Ok tt).
(** An action that extends the log, whatever it returns. *)
Definition logs {A} (m : net A) : Prop := logs_only (λ _, True) m.

Lemma calm_ret : calm (mret tt).
Proof. intros tr. exists []. by rewrite app_nil_r. Qed.
Lemma calm_logs m : calm m → logs m.
Proof. intros Hm tr. destruct (Hm tr) as [ps ->]. exists ps. split; [done|]. by apply Forall_true. Qed.
Lemma calm_logged m : logs m → calm (logged m).
Proof. intros Hm tr. destruct (Hm tr) as (ps & Hps & _). exists ps. unfold logged. by rewrite Hps. Qed.
Lemma calm_bind m k : calm m → calm k → calm (m ≫= λ _, k).
Proof.
  intros Hm Hk tr. destruct (Hm tr) as [ps Hps]. destruct (Hk (tr ++ ps)) as [qs Hqs].
  exists (ps ++ qs). unfold mbind, net_bind. by rewrite Hps, Hqs, app_assoc.
Qed.
Lemma calm_each {A} (f : A → net unit) l : (∀ x, calm (f x)) → calm (each f l).
Proof. intros Hf. induction l as [|x l IH]; [apply calm_ret|]. by apply calm_bind. Qed.

#[export] Hint Resolve calm_ret calm_logs calm_logged calm_bind calm_each : net.

(** An action that tries to send some packets, whatever happens to each. *)
Definition attempts `{!network} (m : net unit) (ps : list packet) : Prop :=
  ∀ tr, m tr = (attempt tr ps, Ok tt).

Section attempts.
Context `{!network}.
Lemma attempts_ret : attempts (mret tt) [].
Proof. done. Qed.
Lemma attempts_send p : attempts (logged (send p)) [p].
Proof. intros tr. apply logged_send. Qed.
Lemma attempts_bind m k ps qs : attempts m ps → attempts k qs → attempts (m ≫= λ _, k) (ps ++ qs).
Proof. intros Hm Hk tr. unfold mbind, net_bind. by rewrite Hm, Hk, attempt_app. Qed.
Lemma attempts_each {A} (f : A → net unit) (ps : A → list packet) l :
  (∀ x, attempts (f x) (ps x)) → attempts (each f l) (l ≫= ps).
Proof. intros Hf. induction l as [|x l IH]; [apply attempts_ret|]. by apply attempts_bind. Qed.
End attempts.

Section spec.
Context {Op : Type} `{!Operator Op, !network, !hash_order string, !hash_order TremorUrl.t}.
Implicit Types (g : ExecutableGraph Op) (t : @Task Op).

Lemma send_event_logs d port ev : logs (send_event d port ev).
Proof. destruct d; by apply logs_only_send. Qed.
Lemma send_events_logs es ds : logs (send_events es ds).
Proof.
  apply logs_only_each. intros [o ev]. simpl. destruct (ds !! o) as [dest|]; [|auto with net].
  apply logs_only_each. intros [u d]. apply logs_only_bind; [apply logs_only_lift|]. intros port.
  apply send_event_logs.
Qed.
Lemma send_signal_logs id sg ds : logs (send_signal id sg ds).
Proof.
  apply logs_only_each. intros [u d]. simpl. case_decide; [|auto with net].
  destruct d; simpl; try case_decide; auto with net; by apply logs_only_send.
Qed.
Lemma forward_insight_calm ins i : calm (forward_insight ins i).
Proof.
  destruct i as [u [tx i]]. simpl. destruct (_ || _); [|auto with net].
  apply calm_logged. destruct i; try by apply logs_only_send. auto with net.
Qed.
Lemma handle_insight_calm skip ins g ii : calm (handle_insight skip ins g ii).2.
Proof.
  unfold handle_insight. destruct (contraflow skip ins g) as [g' ins']. simpl.
  case_decide; [|auto with net]. apply calm_each, forward_insight_calm.
Qed.
Lemma insights_loop_calm l g ii : calm (insights_loop l g ii).2.
Proof.
  revert g. induction l as [|[k ins] l IH]; intros g; simpl; [auto with net|].
  pose proof (handle_insight_calm (Some k) ins g ii) as Ha.
  destruct (handle_insight (Some k) ins g ii) as [g1 a]. specialize (IH g1).
  destruct (insights_loop l g1 ii) as [g2 b]. by apply calm_bind.
Qed.
Lemma disconnect_loop_calm fuel id del v : calm (disconnect_loop fuel id del v).2.
Proof.
  revert v. induction fuel as [|fuel IH]; intros v; simpl; [auto with net|].
  destruct (list_find _ v) as [[i [u d]]|]; [|auto with net].
  specialize (IH (swap_remove i v)). destruct (disconnect_loop _ _ _ _) as [v' rest]. simpl in *.
  destruct d; try done. apply calm_bind; [by apply calm_logged, logs_only_send|done].
Qed.
Lemma handle_mgmt_calm id addr m t : calm (handle_mgmt id addr m t).2.
Proof.
  destruct m as [? [] ?|port url target|port url|?]; simpl; auto with net.
  - destruct target; simpl; auto with net. destruct (_ && _); [|auto with net].
    by apply calm_logged, logs_only_send.
  - unfold disconnect_output. destruct (dests t !! port) as [v|]; [|auto with net].
    pose proof (disconnect_loop_calm (length v) id url v) as Hc.
    by destruct (disconnect_loop _ _ _ _).
Qed.

(** Handling a message panics: an operator does, in an event or a signal. *)
Definition panicked (fuel : nat) (m : M) t t' (msg : string) : Prop :=
  ∃ g es, t' = set_eventset es (set_pipeline g t) ∧
    match m with
    | MF (MsgEvent event input) => enqueue fuel input event (pipeline t) (eventset t) = Some (g, es, Err (EPanic msg))
    | MF (MsgSignal signal) => enqueue_signal fuel signal (pipeline t) (eventset t) = Some (g, es, Err (EPanic msg))
    | _ => False
    end.
Lemma panicked_raises fuel m t t' msg : panicked fuel m t t' msg → raises (O := Op) (EPanic msg).
Proof.
  intros (g & es & _ & Hp). destruct m as [[ev input|sg]| |]; [| |done..].
  - by destruct (enqueue_raises _ _ _ _ _ _ _ _ Hp) as [?|[?|(? & ? & ?)]].
  - by destruct (enqueue_signal_raises _ _ _ _ _ _ _ Hp).
Qed.

Lemma log_error_acts e :
  calm (log_error e) ∨ ∃ msg, e = EPanic msg ∧ log_error e = lift (Err (EPanic msg)).
Proof. destruct e; try (left; apply calm_ret). right. by eexists. Qed.

(** Whatever a task handles, it sends something and goes on, or panics. *)
Lemma handle_acts fuel id addr m t t' act :
  handle fuel id addr m t = Some (t', act) →
  calm act ∨ ∃ msg, act = lift (Err (EPanic msg)) ∧ panicked fuel m t t' msg.
Proof.
  assert (∀ es ds, calm (logged (send_events es ds))) as Hflush.
  { intros es ds. apply calm_logged, send_events_logs. }
  destruct m as [[ev input|sg]|[ins]|m]; simpl.
  - unfold handle_event. destruct (enqueue _ _ _ _ _) as [[[g es] [u|e]]|] eqn:He; [| |done].
    2: { intros [= <- <-]. destruct (log_error_acts e) as [?|(msg & -> & ->)]; [by left|right].
         exists msg. split; [done|]. by exists g, es. }
    pose proof (insights_loop_calm (g_insights g) (set_insights [] g) (inputs t)) as Ha.
    unfold handle_insights. destruct (insights_loop _ _ _) as [g' a]. intros [= <- <-].
    left. by apply calm_bind.
  - unfold handle_signal. destruct (enqueue_signal _ _ _ _) as [[[g es] [u|e]]|] eqn:He; [| |done].
    2: { intros [= <- <-]. destruct (log_error_acts e) as [?|(msg & -> & ->)]; [by left|right].
         exists msg. split; [done|]. by exists g, es. }
    pose proof (insights_loop_calm (g_insights g) (set_insights [] g) (inputs t)) as Ha.
    unfold handle_insights. destruct (insights_loop _ _ _) as [g' a]. intros [= <- <-].
    left. apply calm_bind; [apply calm_logged, send_signal_logs|]. by apply calm_bind.
  - pose proof (handle_insight_calm None ins (pipeline t) (inputs t)) as Ha.
    destruct (handle_insight _ _ _ _) as [g a]. intros [= <- <-]. by left.
  - pose proof (handle_mgmt_calm id addr m t) as Ha. destruct (handle_mgmt _ _ _ _). intros [= <- <-]. by left.
Qed.

(** ** The graph of a task stays well formed *)
Context (I : Op → Prop) `{!data_operator I} (n : nat) (rank : nat → nat).

Definition kept g g' : Prop := graph_ok I n g' ∧ static g' = static g.

Lemma kept_insights l g : graph_ok I n g → kept g (set_insights l g).
Proof. intros []. by split; [constructor|]. Qed.
Lemma handle_insight_kept skip ins g ii : graph_ok I n g → kept g (handle_insight skip ins g ii).1.
Proof.
  intros Hok. unfold handle_insight, contraflow.
  pose proof (contraflow_loop_ok I n (g_contraflow g) skip ins g Hok) as (Hok' & Hst & _).
  by destruct (contraflow_loop _ _ _ _).
Qed.
Lemma insights_loop_kept l g ii : graph_ok I n g → kept g (insights_loop l g ii).1.
Proof.
  revert g. induction l as [|[k ins] l IH]; intros g Hok; simpl; [done|].
  pose proof (handle_insight_kept (Some k) ins g ii Hok) as [Hok1 Hst1].
  destruct (handle_insight _ _ _ _) as [g1 a]. destruct (IH g1 Hok1) as [Hok2 Hst2].
  destruct (insights_loop l g1 ii) as [g2 b]. split; [done|]. simpl in *. congruence.
Qed.
Lemma handle_insights_kept g ii : graph_ok I n g → kept g (handle_insights g ii).1.
Proof.
  intros Hok. destruct (kept_insights [] g Hok) as [Hok1 Hst1].
  destruct (insights_loop_kept (g_insights g) (set_insights [] g) ii Hok1) as [Hok2 Hst2].
  split; [done|]. unfold handle_insights. congruence.
Qed.

Lemma enqueue_mono fuel fuel' input ev g rs x :
  (fuel ≤ fuel')%nat → enqueue fuel input ev g rs = Some x → enqueue fuel' input ev g rs = Some x.
Proof. intros Hf. unfold enqueue. destruct (g_inputs _ !! _); [|done]. by apply run_mono. Qed.
Lemma enqueue_signal_mono fuel fuel' sg g rs x :
  (fuel ≤ fuel')%nat → enqueue_signal fuel sg g rs = Some x → enqueue_signal fuel' sg g rs = Some x.
Proof. intros Hf. unfold enqueue_signal. destruct (signalflow sg g) as [g' [[]|]]; try done. by apply run_mono. Qed.

Lemma handle_mono fuel fuel' id addr m t x :
  (fuel ≤ fuel')%nat → handle fuel id addr m t = Some x → handle fuel' id addr m t = Some x.
Proof.
  intros Hf. destruct m as [[ev input|sg]|m|m]; simpl; try done.
  - unfold handle_event. destruct (enqueue fuel input ev (pipeline t) (eventset t)) as [y|] eqn:Hy; [|done].
    by rewrite (enqueue_mono _ _ _ _ _ _ _ Hf Hy).
  - unfold handle_signal. destruct (enqueue_signal fuel sg (pipeline t) (eventset t)) as [y|] eqn:Hy; [|done].
    by rewrite (enqueue_signal_mono _ _ _ _ _ _ Hf Hy).
Qed.

(** Every message is handled to completion. *)
Lemma handle_returns id addr m t :
  graph_ok I n (pipeline t) → acyclic rank (pipeline t) →
  ∃ fuel t' act, handle fuel id addr m t = Some (t', act) ∧ kept (pipeline t) (pipeline t').
Proof.
  intros Hok Hac. destruct m as [[ev input|sg]|[ins]|m]; simpl.
  - destruct (enqueue_returns I n rank input ev (pipeline t) (eventset t) Hok Hac) as [fuel Hfuel].
    destruct (Hfuel fuel) as (g & es & r & He & Hokg & Hst & _); [done|].
    exists fuel. unfold handle_event. rewrite He. destruct r as [u|e]; [|by eexists _, _].
    destruct (handle_insights_kept g (inputs t) Hokg) as [Hok2 Hst2].
    destruct (handle_insights g (inputs t)) as [g2 a]. eexists _, _. split; [done|].
    split; [done|]. simpl in *. congruence.
  - destruct (enqueue_signal_returns I n rank sg (pipeline t) (eventset t) Hok Hac) as [fuel Hfuel].
    destruct (Hfuel fuel) as (g & es & r & He & Hokg & Hst & _); [done|].
    exists fuel. unfold handle_signal. rewrite He. destruct r as [u|e]; [|by eexists _, _].
    destruct (handle_insights_kept g (inputs t) Hokg) as [Hok2 Hst2].
    destruct (handle_insights g (inputs t)) as [g2 a]. eexists _, _. split; [done|].
    split; [done|]. simpl in *. congruence.
  - destruct (handle_insight_kept None ins (pipeline t) (inputs t) Hok) as [Hok2 Hst2].
    exists 0%nat. destruct (handle_insight _ _ _ _) as [g a]. by eexists _, _.
  - exists 0%nat. destruct (handle_mgmt id addr m t) as [t' a] eqn:Hm. eexists _, _. split; [done|].
    assert (pipeline t' = pipeline t) as ->; [|done].
    destruct m as [? ? ?|? ? ?|port url|?]; simpl in Hm; try by injection Hm as <- <-.
    unfold disconnect_output in Hm. destruct (dests t !! port); [|by injection Hm as <- <-].
    destruct (disconnect_loop _ _ _ _). by injection Hm as <- <-.
Qed.
End spec.

(** ** The loop serves every channel *)
Definition mgmt_of (m : M) : option MgmtMsg := match m with MM m => Some m | _ => None end.
Definition cf_of (m : M) : option CfMsg := match m with MC m => Some m | _ => None end.
Definition forward_of (m : M) : option PipelineMsg := match m with MF m => Some m | _ => None end.

Section loop.
Context {SM SC SF : Type} `{channel SM MgmtMsg, channel SC CfMsg, channel SF PipelineMsg}.
Implicit Types s : rx (SM := SM) (SC := SC) (SF := SF).

(** The messages waiting in the three channels, and whether all senders are gone. *)
Definition mgmt_queue s : list MgmtMsg := waiting (unmapped (high s)).
Definition cf_queue s : list CfMsg := waiting (unmapped (high (low s))).
Definition forward_queue s : list PipelineMsg := waiting (unmapped (low (low s))).
Definition queues s : list MgmtMsg * list CfMsg * list PipelineMsg :=
  (mgmt_queue s, cf_queue s, forward_queue s).
Definition all_closed s : bool :=
  finished (unmapped (high s)) && (finished (unmapped (high (low s))) && finished (unmapped (low (low s)))).

(** The next message in an abstract view: the first of the first channel that
    has one. *)
Definition next_message (q : arrivals) : option (M * arrivals) :=
  match q with
  | (x :: m, c, f) => Some (MM x, (m, c, f))
  | ([], x :: c, f) => Some (MC x, ([], c, f))
  | ([], [], x :: f) => Some (MF x, ([], [], f))
  | ([], [], []) => None
  end.
Definition queue_up (q a : arrivals) : arrivals := (q.1.1 ++ a.1.1, q.1.2 ++ a.1.2, q.2 ++ a.2).

Lemma poll_arrive a s : ∃ s',
  all_closed s' = all_closed s ∧
  match next_message (queue_up (queues s) a) with
  | Some (m, q) => poll_next (arrive a s) = (s', Ready (Some m)) ∧ queues s' = q
  | None => poll_next (arrive a s) = (s', if all_closed s then Ready None else Pending) ∧
      queues s' = ([], [], [])
  end.
Proof.
  destruct a as [[m c] f], s as [[sm] [[sc] [sf]]]. unfold arrive, queue_up, queues. simpl.
  unfold mgmt_queue, cf_queue, forward_queue, all_closed. simpl.
  rewrite <-!waiting_post, <-(finished_post m sm), <-(finished_post c sc), <-(finished_post f sf).
  generalize (post m sm), (post c sc), (post f sf). clear sm sc sf m c f. intros sm sc sf.
  pose proof (poll_spec sm) as Hm. pose proof (poll_spec sc) as Hc. pose proof (poll_spec sf) as Hf.
  repeat unfold poll_next, merge_stream, mapped_stream in *. simpl in *.
  destruct (waiting sm) as [|x xs]; destruct Hm as (sm' & -> & Hwm & Hfm); simpl.
  2: { exists (Merge (Mapped sm') (Merge (Mapped sc) (Mapped sf))). simpl. by rewrite Hwm, Hfm. }
  destruct (waiting sc) as [|x xs]; destruct Hc as (sc' & Hpc & Hwc & Hfc).
  - destruct (waiting sf) as [|x xs]; destruct Hf as (sf' & Hpf & Hwf & Hff);
      exists (Merge (Mapped sm') (Merge (Mapped sc') (Mapped sf'))); simpl;
      rewrite Hfm, Hfc, Hff, Hwm, Hwc, Hwf; (split; [done|]);
      destruct (finished sm); simpl; rewrite Hpc; destruct (finished sc); simpl; rewrite Hpf;
      try done; by destruct (finished sf).
  - exists (Merge (Mapped sm') (Merge (Mapped sc') (Mapped sf))). simpl.
    rewrite Hfm, Hfc, Hwm, Hwc. split; [done|].
    destruct (finished sm); simpl; by rewrite Hpc.
Qed.

(** All that arrives in some rounds. *)
Definition arrived (rounds : list arrivals) : arrivals := foldr queue_up ([], [], []) rounds.

Context {Op : Type} `{!Operator Op, !network, !hash_order string, !hash_order TremorUrl.t}.
Context (I : Op → Prop) `{!data_operator I} (n : nat) (rank : nat → nat).

(** What a channel gave of [waiting ++ arriving] when [out] was handled. *)
Definition in_order {A} (out sent : list A) : Prop := out `prefix_of` sent.

Lemma in_order_cons {A} (x : A) out sent : in_order out sent → in_order (x :: out) (x :: sent).
Proof. apply prefix_cons. Qed.

(** What [k] rounds gave of the messages [q] that waited, when [sent] is all
    that waited or arrived: every channel in its order, and, of a task that
    did not panic, the rounds that management and contraflow left went to the
    events. *)
Definition served (alive : Prop) (k : nat) (q sent : arrivals) (new : list M) : Prop :=
  in_order (omap mgmt_of new) sent.1.1 ∧
  in_order (omap cf_of new) sent.1.2 ∧
  in_order (omap forward_of new) sent.2 ∧
  (alive →
   length q.2 `min` (k - (length sent.1.1 + length sent.1.2)) ≤ length (omap forward_of new))%nat.

Lemma queue_up_assoc q a b : queue_up q (queue_up a b) = queue_up (queue_up q a) b.
Proof. unfold queue_up. simpl. by rewrite !app_assoc. Qed.

Lemma served_longer alive k q a sent new :
  served alive k (queue_up q a) sent new → served alive k q sent new.
Proof.
  intros (? & ? & ? & Hk). split_and!; [done..|]. intros Ha. specialize (Hk Ha). unfold queue_up in Hk.
  simpl in Hk. rewrite length_app in Hk. lia.
Qed.

Lemma served_next alive k q x q' later new :
  next_message q = Some (x, q') → served alive k q' (queue_up q' later) new →
  served alive (S k) q (queue_up q later) (x :: new).
Proof.
  destruct q as [[[|y m] [|z c]] [|w f]], later as [[lm lc] lf]; simpl; try done;
    intros [= <- <-] (Hm & Hc & Hf & Hk); unfold served, queue_up in *; simpl in *;
    rewrite ?length_app in *; simpl in *;
    (split_and!; [by try apply in_order_cons..|intros Ha; specialize (Hk Ha); unfold omap in *; repeat case_match; lia]).
Qed.

(** A message that is the last one the task handles. *)
Lemma served_last (alive : Prop) k q x q' later :
  ¬ alive → next_message q = Some (x, q') → served alive k q (queue_up q later) [x].
Proof.
  intros Ha Hn. destruct q as [[[|y m] [|z c]] [|w f]], later as [[lm lc] lf]; simpl in Hn; try done;
    injection Hn as <- <-; unfold served, in_order, queue_up; simpl;
    (split_and!; [first [apply prefix_nil|by apply prefix_cons, prefix_nil]..|done]).
Qed.

Lemma served_idle alive k q later new :
  next_message q = None → served alive k ([], [], []) later new → served alive (S k) q (queue_up q later) new.
Proof.
  destruct q as [[[|y m] [|z c]] [|w f]], later as [[lm lc] lf]; simpl; done.
Qed.

Implicit Types t : @Task Op.

(** How the task [t] is after its run: it goes on with a well formed graph, or
    it panicked at the last message it handled. *)
Definition runs_on t (new : list M) (r : run_state (SM := SM) (SC := SC) (SF := SF)) : Prop :=
  match run_result r with
  | None => kept I n (pipeline t) (pipeline (run_task r))
  | Some x => ∃ msg m t1 fuel, x = Err (EPanic msg) ∧ last new = Some m ∧
      kept I n (pipeline t) (pipeline t1) ∧ panicked fuel m t1 (run_task r) msg
  end.

Lemma runs_on_cons t t' m new r :
  kept I n (pipeline t) (pipeline t') → runs_on t' new r → runs_on t (m :: new) r.
Proof.
  unfold runs_on, kept. intros [_ Hst]. destruct (run_result r) as [x|].
  - intros (msg & m' & t1 & fuel & -> & Hl & [Hok Hst1] & Hp).
    exists msg, m', t1, fuel. split_and!; [done| |done|congruence|done].
    destruct new as [|y new]; [done|]. by rewrite last_cons, Hl.
  - intros [Hok Hst1]. split; [done|congruence].
Qed.

(** A run with enough fuel: the graph stays well formed, the log grows. *)
Lemma pipeline_task_runs id addr rounds t s tr hs :
  graph_ok I n (pipeline t) → acyclic rank (pipeline t) → all_closed s = false →
  ∃ fuel0 r new, (∀ fuel, (fuel0 ≤ fuel)%nat → pipeline_task fuel id addr rounds t s tr hs = Some r) ∧
    runs_on t new r ∧ run_handled r = hs ++ new ∧ (∃ ps, run_log r = tr ++ ps) ∧
    served (run_result r = None) (length rounds) (queues s) (queue_up (queues s) (arrived rounds)) new.
Proof.
  revert t s tr hs. induction rounds as [|a rounds IH]; intros t s tr hs Hok Hac Hopen.
  - exists 0%nat, (Run t s tr hs None), []. split_and!; simpl; try done; [by rewrite app_nil_r|
      exists []; by rewrite app_nil_r|split_and!; [apply prefix_nil..|lia]].
  - destruct (poll_arrive a s) as (s' & Hcl & Hp). rewrite Hopen in Hcl, Hp.
    change (arrived (a :: rounds)) with (queue_up a (arrived rounds)). rewrite queue_up_assoc.
    destruct (next_message (queue_up (queues s) a)) as [[m q]|] eqn:Hn; destruct Hp as [Hp Hq].
    + destruct (handle_returns I n rank id addr m t Hok Hac) as (fuel1 & t' & act & Hh & Hok' & Hst).
      destruct (handle_acts fuel1 id addr m t t' act Hh) as [Hcalm|(msg & -> & Hpanic)].
      * destruct (Hcalm tr) as [ps Hact].
        destruct (IH t' s' (tr ++ ps) (hs ++ [m]) Hok') as (fuel0 & r & new & Hr & Hon & Hnew & [qs Hlog] & Hserved);
          [by apply (static_acyclic rank (pipeline t))|done|].
        exists (fuel0 `max` fuel1)%nat, r, (m :: new). split_and!.
        -- intros fuel Hf. simpl. rewrite Hp.
           rewrite (handle_mono fuel1 fuel id addr m t _ ltac:(lia) Hh), Hact. apply Hr. lia.
        -- by apply (runs_on_cons t t').
        -- by rewrite Hnew, <-app_assoc.
        -- exists (ps ++ qs). by rewrite Hlog, app_assoc.
        -- rewrite Hq in Hserved. apply (served_longer _ _ _ a). by apply (served_next _ _ _ _ q).
      * exists fuel1, (Run t' s' tr (hs ++ [m]) (Some (Err (EPanic msg)))), [m]. split_and!.
        -- intros fuel Hf. simpl. rewrite Hp. by rewrite (handle_mono fuel1 fuel id addr m t _ Hf Hh).
        -- exists msg, m, t, fuel1. by split_and!.
        -- done.
        -- exists []. by rewrite app_nil_r.
        -- apply (served_longer _ _ _ a). by eapply served_last.
    + destruct (IH t s' tr hs Hok Hac Hcl) as (fuel0 & r & new & Hr & Hon & Hnew & Hlog & Hserved).
      exists fuel0, r, new. split_and!; try done.
      * intros fuel Hf. simpl. rewrite Hp. by apply Hr.
      * rewrite Hq in Hserved. apply (served_longer _ _ _ a). apply served_idle; [done|].
        by destruct (arrived rounds) as [[??]?].
Qed.
End loop.

(** ** What is sent for an event *)
Definition dest_packet (d : Dest) (input : string) (event : Event.t) : packet :=
  match d with
  | DOfframp c => PkOfframp c (OffEvent event input)
  | DPipeline a => PkMsg (Addr.addr a) (MsgEvent event input)
  | DLinkedOnramp c => PkOnramp c (OnResponse event)
  end.
Definition event_packets (es : returns) (ds : gmap string (list (TremorUrl.t * Dest))) : list packet :=
  es ≫= λ oe, default [] (ds !! oe.1) ≫= λ d,
    match TremorUrl.instance_port d.1 with Some port => [dest_packet d.2 port oe.2] | None => [] end.

(** All destinations name the port they are connected with. *)
Definition ported (ds : gmap string (list (TremorUrl.t * Dest))) : Prop :=
  map_Forall (λ _ v, Forall (λ d, is_Some (TremorUrl.instance_port d.1)) v) ds.

Definition insight_packet (insight : Event.t) (i : TremorUrl.t * (bool * Input)) : list packet :=
  if i.2.1 || is_cb (Event.cb insight) then
    match i.2.2 with
    | IOnramp c => [PkOnramp c (OnCb (Event.cb insight) (Event.id insight))]
    | IPipeline a => [PkCf (Addr.cf_addr a) (Insight insight)]
    | ILinkedOfframp _ => []
    end
  else [].

Lemma forward_insight_attempts `{!network} ins i : attempts (forward_insight ins i) (insight_packet ins i).
Proof.
  destruct i as [u [tx i]]. unfold insight_packet. simpl. destruct (_ || _); [|apply attempts_ret].
  destruct i; [by intros tr|apply attempts_send..].
Qed.

Lemma each_send_open {A} (f : A → net unit) (ps : A → list packet) l :
  (∀ x, x ∈ l → ∀ tr, f x tr = (tr ++ ps x, Ok tt)) → ∀ tr, each f l tr = (tr ++ (l ≫= ps), Ok tt).
Proof.
  induction l as [|x l IH]; intros Hf tr; simpl; [by rewrite app_nil_r|].
  unfold mbind at 1, net_bind. rewrite Hf by constructor. rewrite IH; [by rewrite app_assoc|].
  intros y Hy. apply Hf. by right.
Qed.

Lemma send_event_open d port ev tr : @send_event open_network d port ev tr = (tr ++ [dest_packet d port ev], Ok tt).
Proof. by destruct d. Qed.

Lemma send_events_open es ds tr :
  ported ds → @send_events open_network es ds tr = (tr ++ event_packets es ds, Ok tt).
Proof.
  intros Hp. apply each_send_open. clear tr. intros [o ev] _ tr. simpl.
  destruct (ds !! o) as [v|] eqn:Hv; simpl; [|by rewrite app_nil_r].
  apply each_send_open. clear tr. intros [u d] Hd tr.
  destruct (proj1 (Forall_forall _ _) (Hp _ _ Hv) _ Hd) as [port Hport]. simpl in *.
  unfold send_to, TremorUrl.instance_port_required. simpl. rewrite Hport. simpl.
  unfold mbind, net_bind, lift. apply send_event_open.
Qed.

(** An insight reaches every connected input once, in some order: circuit
    breaker actions all of them, others those that are transactional, but
    offramps never. *)
Lemma handle_insight_inputs {Op} `{!Operator Op, !network, !hash_order TremorUrl.t} skip ins
    (g : ExecutableGraph Op) ii :
  let ins' := (contraflow skip ins g).2 in
  ∃ ps, attempts (handle_insight skip ins g ii).2 ps ∧
    ps ≡ₚ if decide (Event.cb ins' = CbNone) then [] else map_to_list ii ≫= insight_packet ins'.
Proof.
  unfold handle_insight. destruct (contraflow skip ins g) as [g' ins']. simpl.
  destruct (decide (Event.cb ins' = CbNone)) as [Hcb|Hcb].
  - exists []. split; [|done]. rewrite decide_False by (intros ?; done). apply attempts_ret.
  - rewrite decide_True by done. eexists. split.
    + apply attempts_each. intros i. apply forward_insight_attempts.
    + apply bind_Permutation. rewrite first_last_perm. apply hash_iter_perm.
Qed.

(** ** Destinations *)
Definition dests_ok (ds : gmap string (list (TremorUrl.t * Dest))) : Prop := map_Forall (λ _ v, v ≠ []) ds.

Lemma swap_remove_perm {A} (l : list A) i x : l !! i = Some x → l ≡ₚ x :: swap_remove i l.
Proof.
  intros Hi. unfold swap_remove. destruct (last l) as [z|] eqn:Hl.
  2: { apply last_None in Hl as ->. done. }
  apply last_Some in Hl as [l' ->]. rewrite length_app. simpl.
  replace (length l' + 1 - 1)%nat with (length l') by lia.
  destruct (decide (i < length l')%nat) as [Hlt|Hge].
  - rewrite lookup_app_l in Hi by done. rewrite insert_app_l by done.
    rewrite take_app_length' by (by rewrite length_insert).
    rewrite <-Permutation_cons_append.
    rewrite <-(take_drop_middle l' i x Hi) at 1. rewrite insert_take_drop by done.
    rewrite <-!Permutation_middle. apply perm_swap.
  - apply lookup_lt_Some in Hi as Hlen. rewrite length_app in Hlen. simpl in Hlen.
    assert (i = length l') as -> by lia. rewrite list_lookup_middle in Hi by done. injection Hi as ->.
    rewrite insert_app_r_alt, Nat.sub_diag by done. rewrite take_app_length. simpl.
    symmetry. apply Permutation_cons_append.
Qed.

Lemma disconnect_loop_rest `{!network} fuel id del v :
  (length v ≤ fuel)%nat → (disconnect_loop fuel id del v).1 ≡ₚ filter (λ d, d.1 ≠ del) v.
Proof.
  revert v. induction fuel as [|fuel IH]; intros v Hv; simpl.
  { destruct v; [done|simpl in Hv; lia]. }
  destruct (list_find (λ d, d.1 = del) v) as [[i d]|] eqn:Hf.
  - apply list_find_Some in Hf as (Hi & Hd & _). apply swap_remove_perm in Hi as Hp.
    specialize (IH (swap_remove i v)). destruct (disconnect_loop _ _ _ _) as [v' a].
    simpl. rewrite (filter_Permutation _ _ _ Hp), filter_cons_False by (intros ?; done).
    apply IH. apply Permutation_length in Hp. simpl in Hp. lia.
  - simpl. apply list_find_None in Hf. induction Hf as [|d v Hd Hf IHf]; [done|].
    rewrite filter_cons_True by done. constructor. apply IHf. simpl in Hv. lia.
Qed.

(** Removing the destination that was added last. *)
Lemma swap_remove_last {A} (l : list A) x : swap_remove (length l) (l ++ [x]) = l.
Proof.
  unfold swap_remove. rewrite last_snoc, insert_app_r_alt, Nat.sub_diag by done.
  apply take_app_length'. rewrite length_app. simpl. lia.
Qed.

Lemma disconnect_loop_last `{!network} id url (v : list (TremorUrl.t * Dest)) d :
  Forall (λ d, d.1 ≠ url) v →
  disconnect_loop (length (v ++ [(url, d)])) id url (v ++ [(url, d)]) =
    (v, match d with
        | DPipeline pipe => logged (send_mgmt pipe (DisconnectInput id)) ≫= λ _, mret tt
        | _ => mret tt
        end).
Proof.
  intros Hv.
  assert (∀ fuel, disconnect_loop fuel id url v = (v, mret tt)) as Hnone.
  { intros [|fuel]; [done|]. simpl. by rewrite (proj2 (list_find_None _ v)). }
  rewrite length_app, Nat.add_comm. simpl.
  assert (list_find (λ d, d.1 = url) (v ++ [(url, d)]) = Some (length v, (url, d))) as ->.
  { apply list_find_Some. split_and!; [by apply list_lookup_middle|done|].
    intros j y Hj Hlt. rewrite lookup_app_l in Hj by done. by apply (Forall_lookup_1 _ _ _ _ Hv Hj). }
  rewrite swap_remove_last, Hnone. by destruct d.
Qed.

(** ** Samples *)
Module Fragile.
(** An operator that fails, or passes events on. *)
#[global] Instance operator : Operator bool := {
  on_event _ _ st ev o :=
    (o, st, if o then Err (EMsg "broken") else Ok (EventAndInsights.from_event ev));
  handles_signal := default_handles_signal;
  on_signal := default_on_signal;
  handles_contraflow := default_handles_contraflow;
  on_contraflow := default_on_contraflow;
  op_metrics := default_metrics;
  skippable := default_skippable;
}.
Definition node (kind : NodeKind) (broken : bool) : OperatorNode bool := mk_node "node" kind "fragile" broken 0.
(** The input is connected to the broken operator and to the output, a second
    input to the output only. *)
Definition graph : ExecutableGraph bool :=
  mk_graph "fragile" [node KInput false; node KOperator true; node (KOutput OUT) false]
    [const_null; const_null; const_null] {["in" := 0%nat; "direct" := 2%nat]} [] [] []
    {[(0%nat, OUT) := [(1%nat, IN); (2%nat, IN)]]}
    [NodeMetrics.default; NodeMetrics.default; NodeMetrics.default] 2 0 None [].
Definition event (id : N) : Event.t := Event.set_id (EventId.new 1 1 id) Event.default.
End Fragile.

Definition sample_url (instance : string) (port : option string) : TremorUrl.t :=
  TremorUrl.mk (if port then ScopePort else ScopeServant) "localhost" (Some Url.Pipeline) (Some "main"%string)
    (Some instance) port.
Definition sample_addr : Addr.t := Addr.mk 1 2 3 (sample_url "01" None).

(** C3: every event sent to a pipeline is handled unless an operator panics.
    Let the graph be acyclic with operators that keep their contract, and let
    messages arrive in the three channels at any time, in any order, while
    someone can still send.  Each channel is served in its order.  The task
    goes on, with no error of an operator or of a connection ending it, and
    then the event at place [j] of the queue has been handled as soon as there
    were more rounds than [j] and the management and contraflow messages
    together, which come first; or it ended with the panic of an operator in
    the last message it handled, an event or a signal. *)
Theorem pipeline_serves_events {Op} `{!Operator Op, !network, !hash_order string, !hash_order TremorUrl.t}
    (I : Op → Prop) `{!data_operator I} (n : nat) (rank : nat → nat)
    {SM SC SF} `{channel SM MgmtMsg, channel SC CfMsg, channel SF PipelineMsg}
    (id : TremorUrl.t) (addr : Addr.t) (rounds : list arrivals) (t : @Task Op)
    (s : rx (SM := SM) (SC := SC) (SF := SF)) (tr : list packet)
    (Hok : graph_ok I n (pipeline t)) (Hac : acyclic rank (pipeline t)) (Hopen : all_closed s = false) :
  let sent := queue_up (queues s) (arrived rounds) in
  ∃ r, (∃ fuel0, ∀ fuel, (fuel0 ≤ fuel)%nat → pipeline_task fuel id addr rounds t s tr [] = Some r) ∧
    omap mgmt_of (run_handled r) `prefix_of` sent.1.1 ∧
    omap cf_of (run_handled r) `prefix_of` sent.1.2 ∧
    omap forward_of (run_handled r) `prefix_of` sent.2 ∧
    match run_result r with
    | None =>
      graph_ok I n (pipeline (run_task r)) ∧
      ∀ j m, forward_queue s !! j = Some m →
        (length sent.1.1 + length sent.1.2 + j < length rounds)%nat →
        omap forward_of (run_handled r) !! j = Some m
    | Some x => ∃ msg m t1 fuel,
        x = Err (EPanic msg) ∧ raises (O := Op) (EPanic msg) ∧ last (run_handled r) = Some m ∧
        graph_ok I n (pipeline t1) ∧ panicked fuel m t1 (run_task r) msg
    end.
Proof.
  intros sent.
  destruct (pipeline_task_runs I n rank id addr rounds t s tr [] Hok Hac Hopen)
    as (fuel0 & r & new & Hr & Hon & Hnew & _ & Hm & Hc & Hf & Hk).
  exists r. simpl in Hnew. rewrite Hnew. split_and!; [by exists fuel0|done..|].
  unfold runs_on in Hon. destruct (run_result r) as [x|] eqn:Hres.
  { destruct Hon as (msg & m & t1 & fuel & -> & Hl & [Hok1 _] & Hp). exists msg, m, t1, fuel.
    split_and!; [done|by eapply panicked_raises|done..]. }
  destruct Hon as [Hok' _]. specialize (Hk eq_refl). split; [done|].
  intros j m Hj Hlt. apply lookup_lt_Some in Hj as Hl. destruct Hf as [rest Hf].
  assert (j < length (omap forward_of new))%nat as Hin.
  { change ((queues s).2) with (forward_queue s) in Hk. unfold sent in Hlt. lia. }
  rewrite <-(lookup_app_l _ rest) by done. unfold in_order in Hf. rewrite <-Hf. simpl.
  by apply lookup_app_l_Some.
Qed.

(** The sample graph cannot panic. *)
Lemma passthrough_calm msg : ¬ raises (O := Passthrough.t) (EPanic msg).
Proof. by intros (o & uid & st & ev & [(port & [=])|[=]]). Qed.

Lemma pipeline_serves_events_witness :
  let _ := open_network in let _ := some_order string in let _ := some_order TremorUrl.t in
  let s := Merge (Mapped (Queue [] false))
    (Merge (Mapped (Queue [Insight Event.default] false)) (Mapped (Queue [MsgEvent Event.default "in"] false))) in
  let rounds := [([DisconnectInput (sample_url "02" None)], [], []); ([], [], []); ([], [], [])] in
  ∃ r, (∃ fuel0, ∀ fuel, (fuel0 ≤ fuel)%nat →
      pipeline_task fuel (sample_url "01" None) sample_addr rounds (init_task (sample_url "01" None) Sample.graph)
        s [] [] = Some r) ∧
    run_result r = None ∧ omap forward_of (run_handled r) !! 0%nat = Some (MsgEvent Event.default "in").
Proof.
  intros Hn Hs Hu s rounds.
  destruct (pipeline_serves_events (λ _, True) 3 Sample.rank (sample_url "01" None) sample_addr rounds
    (init_task (sample_url "01" None) Sample.graph) s []) as (r & Hr & _ & _ & _ & Hres).
  - destruct Sample.graph_is_ok. by constructor.
  - exact Sample.graph_acyclic.
  - reflexivity.
  - exists r. split; [exact Hr|]. destruct (run_result r) as [x|].
    + destruct Hres as (msg & m & t1 & fuel & _ & Hraise & _). by apply passthrough_calm in Hraise.
    + split; [reflexivity|]. apply Hres; [reflexivity|]. simpl. lia.
Defined.

(** ** Outputs of what failed *)
Section unsent.
Context {Op : Type} `{!Operator Op, !network, !hash_order string, !hash_order TremorUrl.t}.
Implicit Types (g : ExecutableGraph Op) (t : @Task Op).

(** What the graph makes of an event or a signal, with its own outputs. *)
Definition graph_run (fuel : nat) (m : M) t g (es : returns) (r : result unit) : Prop :=
  match m with
  | MF (MsgEvent event input) => enqueue fuel input event (pipeline t) [] = Some (g, es, r)
  | MF (MsgSignal signal) => enqueue_signal fuel signal (pipeline t) [] = Some (g, es, r)
  | _ => False
  end.
Definition panics (e : error) : bool := match e with EPanic _ => true | _ => false end.

(** Messages of which none is an event or a signal that succeeds, and the
    outputs of those that failed. *)
Inductive waits (fuel : nat) (id : TremorUrl.t) (addr : Addr.t) : @Task Op → list M → returns → @Task Op → Prop :=
  | waits_nil t : waits fuel id addr t [] [] t
  | waits_failed t m g es e t1 act ms out t2 :
      graph_run fuel m t g es (Err e) → panics e = false → handle fuel id addr m t = Some (t1, act) →
      waits fuel id addr t1 ms out t2 → waits fuel id addr t (m :: ms) (es ++ out) t2
  | waits_insight t m t1 act ms out t2 :
      handle fuel id addr (MC m) t = Some (t1, act) →
      waits fuel id addr t1 ms out t2 → waits fuel id addr t (MC m :: ms) out t2
  | waits_mgmt t m t1 act ms out t2 :
      handle fuel id addr (MM m) t = Some (t1, act) →
      waits fuel id addr t1 ms out t2 → waits fuel id addr t (MM m :: ms) out t2.

(** How the outputs that were kept are sent with [es]: reversed, as every run of
    the graph leaves them, unless a signal made no event and nothing was run. *)
Definition flushed (kept : returns) (m : M) t (es : returns) : returns :=
  match m with
  | MF (MsgSignal signal) =>
    match (signalflow signal (pipeline t)).2 with Ok false => kept | _ => es ++ reverse kept end
  | _ => es ++ reverse kept
  end.
(** What is sent before the outputs: a signal goes on to the destinations. *)
Definition send_first (id : TremorUrl.t) (m : M) t : net unit :=
  match m with MF (MsgSignal signal) => logged (send_signal id signal (dests t)) | _ => mret tt end.

Lemma handle_failed fuel id addr m t g es e :
  graph_run fuel m t g es (Err e) → panics e = false →
  handle fuel id addr m t = Some (set_eventset (eventset t ++ es) (set_pipeline g t), mret tt).
Proof.
  intros Hg Hp. assert (log_error e = mret tt) as Hl by by destruct e.
  destruct m as [[ev input|sg]| |]; [| |done..]; simpl in *.
  - destruct (enqueue_outputs _ _ _ _ _ _ _ _ Hg) as [new Hnew]. pose proof (Hnew []) as Hnil.
    rewrite Hg in Hnil. injection Hnil as ->. unfold handle_event. by rewrite Hnew, Hl.
  - unfold handle_signal, enqueue_signal in *. destruct (signalflow sg (pipeline t)) as [g1 [[]|x]]; [| |].
    + destruct (run_returns _ _ _ _ _ _ Hg) as [new Hnew]. pose proof (Hnew []) as Hnil.
      rewrite Hg in Hnil. injection Hnil as ->. by rewrite Hnew, Hl.
    + done.
    + injection Hg as <- <- <-. by rewrite app_nil_r, Hl.
Qed.

Lemma handle_insights_calm g ii : calm (handle_insights g ii).2.
Proof. apply insights_loop_calm. Qed.

(** Every event and signal that succeeds sends all outputs there are. *)
Lemma handle_succeeds fuel id addr m t g es :
  graph_run fuel m t g es (Ok tt) →
  ∃ act, handle fuel id addr m t = Some (set_eventset [] (set_pipeline (handle_insights g (inputs t)).1 t), act) ∧
    ∀ tr, act tr = (send_first id m t ≫= λ _, (handle_insights g (inputs t)).2 ≫= λ _,
                     logged (send_events (flushed (eventset t) m t es) (dests t))) tr.
Proof.
  intros Hg. destruct m as [[ev input|sg]| |]; [| |done..]; simpl in *.
  - destruct (enqueue_outputs _ _ _ _ _ _ _ _ Hg) as [new Hnew]. pose proof (Hnew []) as Hnil.
    rewrite Hg in Hnil. injection Hnil as ->. unfold handle_event. rewrite Hnew. simpl.
    destruct (handle_insights g (inputs t)) as [g' a]. eexists. split; [done|]. intros tr. simpl.
    by rewrite reverse_app.
  - unfold handle_signal, enqueue_signal in *. destruct (signalflow sg (pipeline t)) as [g1 [[]|x]]; simpl in *; [| |done].
    + destruct (run_returns _ _ _ _ _ _ Hg) as [new Hnew]. pose proof (Hnew []) as Hnil.
      rewrite Hg in Hnil. injection Hnil as ->. rewrite Hnew. simpl.
      destruct (handle_insights g (inputs t)) as [g' a]. eexists. split; [done|]. intros tr. by rewrite reverse_app.
    + injection Hg as <- <-. destruct (handle_insights g1 (inputs t)) as [g' a]. eexists. by split.
Qed.

Lemma waits_keeps fuel id addr t ms out t1 :
  waits fuel id addr t ms out t1 → eventset t1 = eventset t ++ out.
Proof.
  induction 1 as [t|t m g es e t1 act ms out t2 Hg Hp Hh _ IH|t m t1 act ms out t2 Hh _ IH|t m t1 act ms out t2 Hh _ IH].
  - by rewrite app_nil_r.
  - rewrite (handle_failed fuel id addr m t g es e Hg Hp) in Hh. injection Hh as <- _. rewrite IH. simpl.
    by rewrite app_assoc.
  - simpl in Hh. destruct m as [ins]. simpl in Hh. destruct (handle_insight _ _ _ _). by injection Hh as <- _.
  - rewrite IH. f_equal. simpl in Hh. injection Hh as Hh. destruct m as [? ? ?|? ? ?|port url|?]; simpl in Hh;
      try by injection Hh as <- _.
    unfold disconnect_output in Hh. destruct (dests t !! port); [|by injection Hh as <- _].
    destruct (disconnect_loop _ _ _ _). by injection Hh as <- _.
Qed.
End unsent.

(** C13: an event or signal that fails in the graph without a panic sends
    nothing and changes no connection, but the outputs it had before it failed
    are kept.  Whatever messages follow, other failures, insights and
    management among them, all outputs kept so far are sent, after the
    insights, by the next event or signal that succeeds: behind its own
    outputs and in reverse, or alone and in order if it is a signal that no
    operator answers with an event. *)
Theorem failed_event_outputs {Op} `{!Operator Op, !network, !hash_order string, !hash_order TremorUrl.t}
    (id : TremorUrl.t) (addr : Addr.t) (fuel : nat) (m m2 : M) (ms : list M) (t t1 t2 : @Task Op)
    (g g2 : ExecutableGraph Op) (es es2 out : returns) (e : error) (act : net unit)
    (Hfail : graph_run fuel m t g es (Err e)) (Hpanic : panics e = false)
    (Hhandle : handle fuel id addr m t = Some (t1, act))
    (Hwaits : waits fuel id addr t1 ms out t2)
    (Hnext : graph_run fuel m2 t2 g2 es2 (Ok tt)) :
  act = mret tt ∧ t1 = mk_task g (dests t) (inputs t) (eventset t ++ es) ∧
  eventset t2 = eventset t ++ es ++ out ∧
  ∃ act2, handle fuel id addr m2 t2 =
      Some (mk_task (handle_insights g2 (inputs t2)).1 (dests t2) (inputs t2) [], act2) ∧
    ∀ tr, act2 tr = (send_first id m2 t2 ≫= λ _, (handle_insights g2 (inputs t2)).2 ≫= λ _,
                      logged (send_events (flushed (eventset t ++ es ++ out) m2 t2 es2) (dests t2))) tr.
Proof.
  rewrite (handle_failed fuel id addr m t g es e Hfail Hpanic) in Hhandle. injection Hhandle as <- <-.
  apply waits_keeps in Hwaits as Hk. simpl in Hk. rewrite <-app_assoc in Hk. rewrite <-Hk.
  destruct (handle_succeeds fuel id addr m2 t2 g2 es2 Hnext) as (act2 & Hh & Hact).
  split_and!; [done..|]. by exists act2.
Qed.

Module FragileRun.
#[local] Existing Instance open_network.
#[local] Instance strings : hash_order string := some_order string.
#[local] Instance urls : hash_order TremorUrl.t := some_order TremorUrl.t.
Definition url : TremorUrl.t := sample_url "01" None.
Definition fail (id : N) : M := MF (MsgEvent (Fragile.event id) "in").
Definition connect : M := MM (ConnectOutput OUT (sample_url "02" (Some "in"%string)) (TOfframp 7)).
Definition next : M := MF (MsgEvent (Fragile.event 3) "direct").
Definition after (m : M) (t : @Task bool) : @Task bool :=
  match handle 10 url sample_addr m t with Some (t, _) => t | None => t end.
Definition graph_after (input : string) (id : N) (t : @Task bool) : ExecutableGraph bool :=
  match enqueue 10 input (Fragile.event id) (pipeline t) [] with Some (g, _, _) => g | None => pipeline t end.
Definition t0 : Task := init_task url Fragile.graph.
Definition t1 : Task := after (fail 1) t0.
Definition t2 : Task := after (fail 2) t1.
Definition t3 : Task := after connect t2.

(** An event fails, a second one does, an offramp is connected: the third
    event takes the outputs of both with it. *)
Lemma failed_event_outputs_witness :
  graph_run 10 (fail 1) t0 (graph_after "in" 1 t0) [(OUT, Fragile.event 1)] (Err (EMsg "broken")) ∧
  waits 10 url sample_addr t1 [fail 2; connect] [(OUT, Fragile.event 2)] t3 ∧
  ∃ act, (∃ t4, handle 10 url sample_addr next t3 = Some (t4, act)) ∧
    (act []).1 = (λ id, PkOfframp 7 (OffEvent (Fragile.event id) "in")) <$> [3; 2; 1]%N.
Proof.
  assert (graph_run 10 (fail 1) t0 (graph_after "in" 1 t0) [(OUT, Fragile.event 1)] (Err (EMsg "broken"))) as Hfail
    by (vm_compute; reflexivity).
  assert (waits 10 url sample_addr t1 [fail 2; connect] [(OUT, Fragile.event 2)] t3) as Hwaits.
  { apply (waits_failed 10 url sample_addr t1 (fail 2) (graph_after "in" 2 t1) [(OUT, Fragile.event 2)]
      (EMsg "broken") t2 (mret tt) [connect] [] t3); [vm_compute; reflexivity|reflexivity|vm_compute; reflexivity|].
    destruct (handle 10 url sample_addr connect t2) as [[t' act]|] eqn:Hc; [|vm_compute in Hc; discriminate Hc].
    apply (waits_mgmt 10 url sample_addr t2 _ t' act [] [] t3); [exact Hc|].
    unfold t3, after. rewrite Hc. apply waits_nil. }
  split; [exact Hfail|]. split; [exact Hwaits|].
  assert (handle 10 url sample_addr (fail 1) t0 = Some (t1, mret tt)) as Hh1 by (vm_compute; reflexivity).
  assert (graph_run 10 next t3 (graph_after "direct" 3 t3) [(OUT, Fragile.event 3)] (Ok tt)) as Hnext
    by (vm_compute; reflexivity).
  destruct (failed_event_outputs url sample_addr 10 (fail 1) next [fail 2; connect] t0 t1 t3 _ _ _ _ _ _ _
    Hfail eq_refl Hh1 Hwaits Hnext) as (_ & _ & _ & act2 & Hh & Hact).
  exists act2. split; [by eexists|]. rewrite Hact. vm_compute. reflexivity.
Defined.
End FragileRun.
