(* ===== verification/Source.v ===== *)
(** Onramps: the manager around a source (src/source.rs).

    A source is polled for data; the manager runs the data through the
    preprocessors and a codec and sends the events to the pipelines of its
    ports [out] and [err].  Between two polls it handles the messages of its
    channel: connections, and what flows back, acknowledgements and circuit
    breaker actions.  Source and codec are classes with the methods of the
    traits; how errors are printed is an argument. *)
From stdpp Require Import pretty.
From S2P Require Import Prelude Value EventIds Event Graph Url Wal Frames Network.

(** ** What a source and a codec do *)
Inductive SourceState := Connected | Disconnected.

Inductive SourceReply :=
  | BatchData (origin_uri : EventOriginUri.t) (batch_data : list (bytes * option value))
      (codec_override : option string) (stream : N)
  | Data (origin_uri : EventOriginUri.t) (data : bytes) (meta : option value)
      (codec_override : option string) (stream : N)
  | Structured (origin_uri : EventOriginUri.t) (data : ValueAndMeta.t)
  | StartStream (id : N)
  | EndStream (id : N)
  | StateChange (st : SourceState)
  | Empty (sleep_ms : N).

(** [codec::Codec] *)
Class Codec (C : Type) := {
  decode : bytes → N → C → C * result (option value);
  encode : value → C → result bytes;
}.

(** [Source], less [init], which runs before there is a manager *)
Class Source (S C : Type) := {
  pull_event : N → S → S * result SourceReply;
  on_empty_event : N → N → S → S * result unit;
  reply_event : Event.t → C → gmap string C → S → S * result unit;
  source_metrics : N → S → S * list Event.t;
  source_terminate : S → S;
  trigger_breaker : S → S;
  restore_breaker : S → S;
  source_ack : N → S → S;
  source_fail : N → S → S;
}.

Section source.
Context {S C : Type} `{!Codec C, !Source S C, !codecs, !network} (show_error : error → string).

(** [make_error] *)
Definition make_error (source_id : string) (e : error) (original_id : N) : ValueAndMeta.t :=
  ValueAndMeta.from_parts
    (VObject {["error" := VString (show_error e); "event_id" := VStatic (SU64 original_id);
               "source_id" := VString source_id]})
    (VObject {["error" := VString (show_error e)]}).

(** ** [SourceManager]

    [rx] holds the messages that wait; [tx] is the manager's own channel. *)
Record SourceManager := mk_manager {
  source_id : TremorUrl.t;
  source : S;
  rx : list OnrampMsg;
  tx : chan;
  pp_template : list string;
  preprocessors : gmap N (list preprocessor);
  codec : C;
  codec_map : gmap string C;
  metrics_reporter : RampReporter.t;
  triggered : bool;
  pipelines_out : list (TremorUrl.t * Addr.t);
  pipelines_err : list (TremorUrl.t * Addr.t);
  err_required : bool;
  next_id : N;
  is_transactional : bool;
  uid : N;
}.
Implicit Types self : SourceManager.

Definition set_source (x : S) self : SourceManager :=
  mk_manager (source_id self) x (rx self) (tx self) (pp_template self) (preprocessors self) (codec self)
    (codec_map self) (metrics_reporter self) (triggered self) (pipelines_out self) (pipelines_err self)
    (err_required self) (next_id self) (is_transactional self) (uid self).
Definition set_rx (x : list OnrampMsg) self : SourceManager :=
  mk_manager (source_id self) (source self) x (tx self) (pp_template self) (preprocessors self) (codec self)
    (codec_map self) (metrics_reporter self) (triggered self) (pipelines_out self) (pipelines_err self)
    (err_required self) (next_id self) (is_transactional self) (uid self).
Definition set_preprocessors (x : gmap N (list preprocessor)) self : SourceManager :=
  mk_manager (source_id self) (source self) (rx self) (tx self) (pp_template self) x (codec self)
    (codec_map self) (metrics_reporter self) (triggered self) (pipelines_out self) (pipelines_err self)
    (err_required self) (next_id self) (is_transactional self) (uid self).
Definition set_codecs (x : C) (y : gmap string C) self : SourceManager :=
  mk_manager (source_id self) (source self) (rx self) (tx self) (pp_template self) (preprocessors self) x y
    (metrics_reporter self) (triggered self) (pipelines_out self) (pipelines_err self)
    (err_required self) (next_id self) (is_transactional self) (uid self).
Definition set_metrics_reporter (x : RampReporter.t) self : SourceManager :=
  mk_manager (source_id self) (source self) (rx self) (tx self) (pp_template self) (preprocessors self)
    (codec self) (codec_map self) x (triggered self) (pipelines_out self) (pipelines_err self)
    (err_required self) (next_id self) (is_transactional self) (uid self).
Definition set_triggered (x : bool) self : SourceManager :=
  mk_manager (source_id self) (source self) (rx self) (tx self) (pp_template self) (preprocessors self)
    (codec self) (codec_map self) (metrics_reporter self) x (pipelines_out self) (pipelines_err self)
    (err_required self) (next_id self) (is_transactional self) (uid self).
Definition set_pipelines (out err : list (TremorUrl.t * Addr.t)) self : SourceManager :=
  mk_manager (source_id self) (source self) (rx self) (tx self) (pp_template self) (preprocessors self)
    (codec self) (codec_map self) (metrics_reporter self) (triggered self) out err
    (err_required self) (next_id self) (is_transactional self) (uid self).
Definition set_next_id (x : N) self : SourceManager :=
  mk_manager (source_id self) (source self) (rx self) (tx self) (pp_template self) (preprocessors self)
    (codec self) (codec_map self) (metrics_reporter self) (triggered self) (pipelines_out self)
    (pipelines_err self) (err_required self) x (is_transactional self) (uid self).

Abbreviation manager := (proc SourceManager) (only parsing).

Definition on_source (f : S → S) : manager unit := modify (λ self, set_source (f (source self)) self).

(** *** Preprocessing and decoding *)
Definition handle_pp (stream ingest_ns : N) (data : bytes) self :
    SourceManager * N * result (list bytes) :=
  match preprocessors self !! stream with
  | Some pps =>
    match preprocess pps ingest_ns data with
    | Some (pps, ingest_ns, r) => (set_preprocessors (<[stream := pps]> (preprocessors self)) self, ingest_ns, r)
    | None => (self, ingest_ns, Err EUndefined)
    end
  | None =>
    (self, ingest_ns,
     Err (EMsg ("[Source:" +:+ TremorUrl.display (source_id self) +:+
                "] Failed to fetch preprocessors for stream " +:+ pretty stream)))
  end.

(** [codec_override.and_then(|name| codec_map.get_mut(name)).unwrap_or(&mut codec)],
    with the codec put back after it decoded. *)
Definition decode_with (codec_override : option string) (d : bytes) (ingest_ns : N) self :
    SourceManager * result (option value) :=
  match codec_override ≫= λ name, (λ c, (name, c)) <$> codec_map self !! name with
  | Some (name, c) =>
    let '(c, r) := decode d ingest_ns c in (set_codecs (codec self) (<[name := c]> (codec_map self)) self, r)
  | None => let '(c, r) := decode d ingest_ns (codec self) in (set_codecs c (codec_map self) self, r)
  end.

Fixpoint decode_parts (codec_override : option string) (ingest_ns : N) (meta_value : value)
    (data : list bytes) self : SourceManager * list (result ValueAndMeta.t) :=
  match data with
  | [] => (self, [])
  | d :: data =>
    let '(self, r) := decode_with codec_override d ingest_ns self in
    let '(self, results) := decode_parts codec_override ingest_ns meta_value data self in
    (self, match r with
           | Ok None => results
           | Ok (Some decoded) => Ok (ValueAndMeta.from_parts decoded meta_value) :: results
           | Err e => Err e :: results
           end)
  end.

(** [make_event_data]; the ingest time may be set by a preprocessor. *)
Definition make_event_data (stream ingest_ns : N) (codec_override : option string) (data : bytes)
    (meta : option value) self : SourceManager * N * list (result ValueAndMeta.t) :=
  let '(self, ingest_ns, r) := handle_pp stream ingest_ns data self in
  match r with
  | Ok data =>
    let '(self, results) := decode_parts codec_override ingest_ns (default value_object meta) data self in
    (self, ingest_ns, results)
  | Err e => (self, ingest_ns, [Err e])
  end.

(** *** Sending events *)
Definition send_to_pipeline (event : Event.t) (p : TremorUrl.t * Addr.t) : net bool := λ tr,
  match TremorUrl.instance_port p.1 with
  | Some input =>
    match send_msg p.2 (MsgEvent event input) tr with
    | (tr, Ok _) => (tr, Ok false)
    | (tr, Err _) => (tr, Ok true)
    end
  | None => (tr, Ok false)
  end.

Definition port_pipelines (port : string) self : option (list (TremorUrl.t * Addr.t)) :=
  if bool_decide (port = OUT) then Some (pipelines_out self)
  else if bool_decide (port = ERR) then Some (pipelines_err self)
  else None.

Definition report (ingest_ns : N) (port : string) : manager unit := λ self tr,
  let '(m, flush, t) := RampReporter.periodic_flush ingest_ns (metrics_reporter self) in
  let tr := (flush tr).1 in
  let '(s, tr) :=
    match t with
    | Some t => let '(s, events) := source_metrics t (source self) in
                (s, (RampReporter.send_metrics events m tr).1)
    | None => (source self, tr)
    end in
  let m := if bool_decide (port = ERR) then RampReporter.increment_err m else RampReporter.increment_out m in
  (set_metrics_reporter m (set_source s self), tr, Ok tt).

Definition make_event (data : ValueAndMeta.t) (ingest_ns : N) (origin_uri : EventOriginUri.t) self : Event.t :=
  Event.mk (EventId.new (uid self) DEFAULT_STREAM_ID (next_id self)) data ingest_ns (Some origin_uri) None
    false CbNone ∅ (is_transactional self).

(** [transmit_event]: whether a send failed. *)
Definition transmit_event (data : ValueAndMeta.t) (ingest_ns : N) (origin_uri : EventOriginUri.t)
    (port : string) : manager bool :=
  event ← gets (make_event data ingest_ns origin_uri);
  _ ← modify (λ self, set_next_id (u64_add (next_id self) 1) self);
  pipelines ← gets (port_pipelines port);
  match pipelines with
  | None | Some [] => mret false
  | Some (p :: pipelines) =>
    _ ← report ingest_ns port;
    for_any (λ p, sending (send_to_pipeline event p)) (p :: pipelines)
  end.

(** [route_result] *)
Definition route_result (results : list (result ValueAndMeta.t)) (original_id ingest_ns : N)
    (origin_uri : EventOriginUri.t) : manager bool :=
  source_id ← gets source_id;
  for_any (λ r,
    match r with
    | Ok data => transmit_event data ingest_ns origin_uri OUT
    | Err e => transmit_event (make_error (TremorUrl.display source_id) e original_id) ingest_ns origin_uri ERR
    end) results.

(** One datum of a [Data] or [BatchData] reply. *)
Definition handle_data (origin_uri : EventOriginUri.t) (codec_override : option string) (stream now : N)
    (d : bytes * option value) : manager unit :=
  original_id ← gets next_id;
  '(ingest_ns, results) ← changing (λ self,
    let '(self, ingest_ns, results) := make_event_data stream now codec_override d.1 d.2 self in
    (self, Ok (ingest_ns, results)));
  _ ← match results with
      | [] => changing (λ self,
          let '(s, r) := on_empty_event original_id stream (source self) in (set_source s self, r))
      | _ => mret tt
      end;
  error ← route_result results original_id ingest_ns origin_uri;
  if (error : bool) then on_source (source_fail original_id) else mret tt.

(** [make_preprocessors] *)
Fixpoint make_preprocessors (names : list string) : result (list preprocessor) :=
  match names with
  | [] => Ok []
  | name :: names => pp ← Frames.lookup name; (pp ::.) <$> make_preprocessors names
  end.

(** *** Messages *)
Definition needs_pipeline_msg self : bool :=
  bool_decide (pipelines_out self = []) || triggered self || negb (bool_decide (rx self = [])) ||
  (err_required self && bool_decide (pipelines_err self = [])).

(** One pipeline of a [Connect]. *)
Definition connect_pipeline (port : string) (p : TremorUrl.t * Addr.t) : manager unit :=
  self ← gets id;
  if bool_decide (port = OUT) || bool_decide (port = ERR) then
    _ ← sending (send_mgmt p.2 (ConnectInput (source_id self) (TOnramp (tx self)) (is_transactional self)));
    modify (λ self,
      if bool_decide (port = OUT) then set_pipelines (pipelines_out self ++ [p]) (pipelines_err self) self
      else set_pipelines (pipelines_out self) (pipelines_err self ++ [p]) self)
  else throw (EMsg ("Invalid Onramp Port: " +:+ port +:+ ". Cannot connect.")).

(** [Disconnect]: whether no pipeline is left. *)
Definition disconnect_pipeline (id : TremorUrl.t) (reply : chan) : manager bool :=
  self ← gets (λ self, self);
  _ ← sending (each (λ p, send_mgmt p.2 (DisconnectInput id))
        (filter (λ p, p.1 = id) (pipelines_out self ++ pipelines_err self)));
  _ ← modify (set_pipelines (filter (λ p, p.1 ≠ id) (pipelines_out self))
                (filter (λ p, p.1 ≠ id) (pipelines_err self)));
  empty_pipelines ← gets (λ self,
    bool_decide (pipelines_out self = []) && bool_decide (pipelines_err self = []));
  _ ← sending (send (PkAnswer reply empty_pipelines));
  _ ← (if (empty_pipelines : bool) then on_source source_terminate else mret tt);
  mret empty_pipelines.

(** The [match] of [handle_pipelines]: whether the manager is to stop. *)
Definition handle_msg (m : OnrampMsg) : manager bool :=
  match m with
  | OnConnect port ps =>
    if eq_ignore_ascii_case port METRICS then
      _ ← for_each (λ p, modify (λ self,
            set_metrics_reporter (RampReporter.set_metrics_pipeline p (metrics_reporter self)) self)) ps;
      mret false
    else _ ← for_each (connect_pipeline port) ps; mret false
  | OnDisconnect id reply => disconnect_pipeline id reply
  | OnCb CbFail ids =>
    uid ← gets uid;
    match EventId.get_min_by_source ids uid with
    | Some (_, id) => _ ← on_source (source_fail id); mret false
    | None => mret false
    end
  | OnCb CbAck ids =>
    uid ← gets uid;
    match EventId.get_max_by_source ids uid with
    | Some (_, id) => _ ← on_source (source_ack id); mret false
    | None => mret false
    end
  | OnCb CbClose _ =>
    _ ← on_source trigger_breaker; _ ← modify (set_triggered true); mret false
  | OnCb CbOpen _ =>
    _ ← on_source restore_breaker; _ ← modify (set_triggered false); mret false
  | OnCb CbNone _ => mret false
  | OnResponse event =>
    _ ← catch (changing (λ self,
          let '(s, r) := reply_event event (codec self) (codec_map self) (source self) in (set_source s self, r)));
    mret false
  end.

(** [handle_pipelines], with the messages that wait as an argument: the manager
    goes on when it needs no message, waits when it needs one and there is
    none, or stops. *)
Inductive control := Go | Wait | Stop.
Fixpoint handle_pipelines (waiting : list OnrampMsg) : manager control :=
  match waiting with
  | [] => needs ← gets needs_pipeline_msg; mret (if (needs : bool) then Wait else Go)
  | m :: waiting =>
    _ ← modify (set_rx waiting);
    stop ← handle_msg m;
    if (stop : bool) then mret Stop else handle_pipelines waiting
  end.

(** *** One poll of the source

    [clock] gives the readings of the clock during the poll.  Waiting ([Empty])
    is not modelled. *)
Fixpoint handle_batch (origin_uri : EventOriginUri.t) (codec_override : option string) (stream : N)
    (clock : nat → N) (i : nat) (batch : list (bytes * option value)) : manager unit :=
  match batch with
  | [] => mret tt
  | d :: batch =>
    _ ← handle_data origin_uri codec_override stream (clock i) d;
    handle_batch origin_uri codec_override stream clock (1 + i) batch
  end.

Definition handle_reply (clock : nat → N) (reply : SourceReply) : manager control :=
  match reply with
  | StartStream id =>
    pp_template ← gets pp_template;
    match make_preprocessors pp_template with
    | Ok pps => _ ← modify (λ self, set_preprocessors (<[id := pps]> (preprocessors self)) self); mret Go
    | Err e => throw e
    end
  | EndStream id => _ ← modify (λ self, set_preprocessors (delete id (preprocessors self)) self); mret Go
  | Structured origin_uri data => _ ← transmit_event data (clock 0%nat) origin_uri OUT; mret Go
  | BatchData origin_uri batch_data codec_override stream =>
    uid ← gets uid;
    _ ← handle_batch (EventOriginUri.maybe_set_uid uid origin_uri) codec_override stream clock 0 batch_data;
    mret Go
  | Data origin_uri data meta codec_override stream =>
    uid ← gets uid;
    _ ← handle_data (EventOriginUri.maybe_set_uid uid origin_uri) codec_override stream (clock 0%nat) (data, meta);
    mret Go
  | StateChange Disconnected => mret Stop
  | StateChange Connected => mret Go
  | Empty _ => mret Go
  end.

Definition pull (clock : nat → N) : manager control := λ self tr,
  let '(s, r) := pull_event (next_id self) (source self) in
  let self := set_source s self in
  match r with
  | Ok reply => handle_reply clock reply self tr
  | Err _ => (set_metrics_reporter (RampReporter.increment_err (metrics_reporter self)) self, tr, Ok Go)
  end.

(** One round of [run]. *)
Definition run_round (clock : nat → N) : manager control :=
  waiting ← gets rx;
  c ← handle_pipelines waiting;
  match c with
  | Go =>
    self ← gets (λ self, self);
    if negb (triggered self) && negb (bool_decide (pipelines_out self = [])) then pull clock else mret Go
  | c => mret c
  end.

(** [run]: before every round the environment may put messages into the
    channel. *)
Fixpoint run (rounds : list (list OnrampMsg * (nat → N))) : manager control :=
  match rounds with
  | [] => mret Go
  | (ms, clock) :: rounds =>
    _ ← modify (λ self, set_rx (rx self ++ ms) self);
    c ← run_round clock;
    match c with
    | Stop => mret Stop
    | Go | Wait => run rounds
    end
  end.

End source.
