(* ===== verification/Offramp.v ===== *)
(** Offramps: the task around an offramp (src/offramp.rs) and the manager of a
    sink, which is what most offramps are (src/sink.rs).

    The task hands events and signals to the offramp, keeps the pipelines that
    are connected to it, and sends insights back to them: what the sink
    replies, an acknowledgement or failure for a transactional event, and the
    state of the circuit breaker when a pipeline connects. *)
From S2P Require Import Prelude Value EventIds Event Graph Url Repository Wal Frames Network Source.

(** [sink::Reply] *)
Inductive Reply :=
  | ReplyInsight (e : Event.t)
  | ReplyResponse (port : string) (e : Event.t).

(** [offramp::OfframpMsg] *)
Inductive OfframpInput :=
  | InMsg (m : OfframpMsg)
  | InReply (r : Reply).

(** ** The traits *)

(** [Offramp], less [start], which runs before the task; an offramp sends to
    pipelines, and may change the codec it is given. *)
Class Offramp (O C : Type) := {
  offramp_on_event : gmap string C → string → Event.t → proc (O * C) unit;
  offramp_on_signal : Event.t → proc O (option Event.t);
  offramp_terminate : O → O;
  add_pipeline : TremorUrl.t → Addr.t → O → O;
  remove_pipeline : TremorUrl.t → O → O * bool;
  add_dest_pipeline : string → TremorUrl.t → Addr.t → O → O;
  remove_dest_pipeline : string → TremorUrl.t → O → O * bool;
  is_active : O → bool;
  auto_ack : O → bool;
}.

(** [Sink], less [init]; what a sink sends through its reply channel reaches
    the task as [InReply]. *)
Class Sink (T C : Type) := {
  sink_on_event : string → gmap string C → Event.t → T → C → T * C * result (option (list Reply));
  sink_on_signal : Event.t → T → T * result (option (list Reply));
  sink_terminate : T → T;
  sink_is_active : T → bool;
  sink_auto_ack : T → bool;
}.

(** ** Ports of linked offramps *)
Abbreviation dest_map := (gmap string (list (TremorUrl.t * Addr.t))) (only parsing).
Definition add_dest (port : string) (p : TremorUrl.t * Addr.t) (m : dest_map) : dest_map :=
  match m !! port with
  | Some port_ps => <[port := port_ps ++ [p]]> m
  | None => <[port := [p]]> m
  end.
Definition remove_dest (port : string) (id : TremorUrl.t) (m : dest_map) : dest_map :=
  match m !! port with
  | Some port_ps => <[port := filter (λ p, p.1 ≠ id) port_ps]> m
  | None => m
  end.

Section replies.
Context `{!network}.

(** [handle_insight] and [send_to_pipelines], over the pipelines in their
    order: the first is served last.  [handle_response] needs a port in every
    url. *)
Definition insight_to (pipelines : list Addr.t) (insight : Event.t) : net unit :=
  each (λ p, logged (send_insight p insight)) (first_last pipelines).
Definition handle_response (response : Event.t) (pipelines : list (TremorUrl.t * Addr.t)) : net unit :=
  each (λ p,
    port ← lift (TremorUrl.instance_port_required p.1);
    logged (send_msg p.2 (MsgEvent response port))) (first_last pipelines).
End replies.

(** ** [SinkManager] *)
Module SinkManager.
Section sink_manager.
Context {T C : Type} `{!Sink T C, !network, !hash_order TremorUrl.t, !hash_order string}.

Record t := mk {
  sink : T;
  pipelines : gmap TremorUrl.t Addr.t;
  dest_pipelines : dest_map;
}.
Definition new (x : T) : t := mk x ∅ ∅.
Definition set_sink (x : T) (self : t) : t := mk x (pipelines self) (dest_pipelines self).

Definition has_dest_pipelines (self : t) : bool :=
  existsb (λ p, negb (bool_decide (p.2 = []))) (hash_iter (dest_pipelines self)).

Definition handle_reply (reply : Reply) (self : t) : net unit :=
  match reply with
  | ReplyInsight e => insight_to (hash_iter (pipelines self)).*2 e
  | ReplyResponse port event =>
    match dest_pipelines self !! port with
    | Some ps => handle_response event ps
    | None => mret tt
    end
  end.

Definition on_event (codec_map : gmap string C) (input : string) (event : Event.t) : proc (t * C) unit :=
  λ s tr,
  let '(self, codec) := s in
  let '(x, codec, r) := sink_on_event input codec_map event (sink self) codec in
  let self := set_sink x self in
  match r with
  | Err e => ((self, codec), tr, Err e)
  | Ok None => ((self, codec), tr, Ok tt)
  | Ok (Some replies) =>
    let '(tr, r) := each (λ reply, handle_reply reply self) replies tr in ((self, codec), tr, r)
  end.

Definition on_signal (signal : Event.t) : proc t (option Event.t) := λ self tr,
  let '(x, r) := sink_on_signal signal (sink self) in
  let self := set_sink x self in
  match r with
  | Ok (Some replies) =>
    let '(tr, _) := each (λ reply, logged (handle_reply reply self)) replies tr in (self, tr, Ok None)
  | Ok None | Err _ => (self, tr, Ok None)
  end.

Definition no_pipelines (self : t) : bool :=
  bool_decide (pipelines self = ∅) && negb (has_dest_pipelines self).

#[global] Instance offramp : Offramp t C := {
  offramp_on_event := on_event;
  offramp_on_signal := on_signal;
  offramp_terminate self := set_sink (sink_terminate (sink self)) self;
  add_pipeline id addr self := mk (sink self) (<[id := addr]> (pipelines self)) (dest_pipelines self);
  remove_pipeline id self :=
    let self := mk (sink self) (delete id (pipelines self)) (dest_pipelines self) in
    (self, no_pipelines self);
  add_dest_pipeline port id addr self :=
    mk (sink self) (pipelines self) (add_dest port (id, addr) (dest_pipelines self));
  remove_dest_pipeline port id self :=
    let self := mk (sink self) (pipelines self) (remove_dest port id (dest_pipelines self)) in
    (self, no_pipelines self);
  is_active self := sink_is_active (sink self);
  auto_ack self := sink_auto_ack (sink self);
}.
End sink_manager.
Arguments t : clear implicits.
End SinkManager.

(** ** The offramp task *)
Section offramp.
Context {O C : Type} `{!Offramp O C, !network, !hash_order TremorUrl.t, !hash_order string}.

(** The variables of the task; [offramp_url], [offramp_addr] and [is_linked]
    do not change. *)
Record OfframpTask := mk_offramp {
  offramp_url : TremorUrl.t;
  offramp_addr : chan;
  is_linked : bool;
  offramp : O;
  codec : C;
  codec_map : gmap string C;
  metrics_reporter : RampReporter.t;
  pipelines : gmap TremorUrl.t Addr.t;
  dest_pipelines : dest_map;
}.
Implicit Types t : OfframpTask.

Definition set_offramp (o : O) (c : C) t : OfframpTask :=
  mk_offramp (offramp_url t) (offramp_addr t) (is_linked t) o c (codec_map t) (metrics_reporter t)
    (pipelines t) (dest_pipelines t).
Definition set_reporter (r : RampReporter.t) t : OfframpTask :=
  mk_offramp (offramp_url t) (offramp_addr t) (is_linked t) (offramp t) (codec t) (codec_map t) r
    (pipelines t) (dest_pipelines t).
Definition set_pipelines (ps : gmap TremorUrl.t Addr.t) t : OfframpTask :=
  mk_offramp (offramp_url t) (offramp_addr t) (is_linked t) (offramp t) (codec t) (codec_map t)
    (metrics_reporter t) ps (dest_pipelines t).
Definition set_dests (ds : dest_map) t : OfframpTask :=
  mk_offramp (offramp_url t) (offramp_addr t) (is_linked t) (offramp t) (codec t) (codec_map t)
    (metrics_reporter t) (pipelines t) ds.

Abbreviation task := (proc OfframpTask) (only parsing).
Definition on_offramp (f : O → O) : task unit := modify (λ t, set_offramp (f (offramp t)) (codec t) t).
Definition on_reporter (f : RampReporter.t → RampReporter.t) : task unit :=
  modify (λ t, set_reporter (f (metrics_reporter t)) t).

(** [send_to_pipelines] *)
Definition send_to_pipelines (e : Event.t) : task unit :=
  ps ← gets pipelines; sending (insight_to (hash_iter ps).*2 e).

(** An action of the offramp with the codec of the task. *)
Definition run_on_event (input : string) (event : Event.t) : task unit := λ t tr,
  let '(o, c, tr, r) := offramp_on_event (codec_map t) input event (offramp t, codec t) tr in
  (set_offramp o c t, tr, r).
Definition run_on_signal (signal : Event.t) : task (option Event.t) := λ t tr,
  let '(o, tr, r) := offramp_on_signal signal (offramp t) tr in (set_offramp o (codec t) t, tr, r).

Definition handle_event (event : Event.t) (input : string) : task unit :=
  let ingest_ns := Event.ingest_ns event in
  _ ← (λ t tr, let '(m, flush, _) := RampReporter.periodic_flush ingest_ns (metrics_reporter t) in
               (set_reporter m t, (flush tr).1, Ok tt));
  _ ← on_reporter RampReporter.increment_in;
  r ← catch (run_on_event input event);
  let fail := match r with Ok _ => false | Err _ => true end in
  _ ← on_reporter (if fail then RampReporter.increment_err else RampReporter.increment_out);
  o ← gets offramp;
  if (fail || auto_ack o) && Event.transactional event then
    send_to_pipelines (Event.ack_or_fail (negb fail) ingest_ns (Event.id event))
  else mret tt.

Definition handle_signal (signal : Event.t) : task unit :=
  insight ← run_on_signal signal;
  match insight with
  | Some insight => send_to_pipelines insight
  | None => mret tt
  end.

Definition breaker_insight (now : N) t : Event.t := Event.restore_or_break (is_active (offramp t)) now.

Definition handle_connect (now : N) (port : string) (id : TremorUrl.t) (addr : Addr.t) : task unit :=
  if eq_ignore_ascii_case port IN then
    t ← gets (λ t, t);
    _ ← (if negb (is_linked t) || negb (bool_decide (dest_pipelines t = ∅)) then
           sending (logged (send_insight addr (breaker_insight now t)))
         else mret tt);
    _ ← modify (λ t, set_pipelines (<[id := addr]> (pipelines t)) t);
    on_offramp (add_pipeline id addr)
  else if eq_ignore_ascii_case port METRICS then
    on_reporter (RampReporter.set_metrics_pipeline (id, addr))
  else
    _ ← modify (λ t, set_dests (add_dest port (id, addr) (dest_pipelines t)) t);
    _ ← on_offramp (add_dest_pipeline port id addr);
    t ← gets (λ t, t);
    _ ← sending (logged (send_mgmt addr (ConnectInput (offramp_url t) (TOfframp (offramp_addr t)) false)));
    if is_linked t && negb (bool_decide (pipelines t = ∅)) then send_to_pipelines (breaker_insight now t)
    else mret tt.

(** [Disconnect]: whether the offramp is done. *)
Definition handle_disconnect (port : string) (id : TremorUrl.t) (tx : chan) : task bool :=
  marked_done ←
    (if eq_ignore_ascii_case port IN then
       _ ← modify (λ t, set_pipelines (delete id (pipelines t)) t);
       changing (λ t, let '(o, b) := remove_pipeline id (offramp t) in (set_offramp o (codec t) t, Ok b))
     else if eq_ignore_ascii_case port METRICS then mret false
     else
       _ ← modify (λ t, set_dests (remove_dest port id (dest_pipelines t)) t);
       changing (λ t, let '(o, b) := remove_dest_pipeline port id (offramp t) in
                      (set_offramp o (codec t) t, Ok b)));
  _ ← sending (send (PkAnswer tx marked_done));
  _ ← (if (marked_done : bool) then on_offramp offramp_terminate else mret tt);
  mret marked_done.

(** One round of the loop: whether it ends. *)
Definition handle (now : N) (m : OfframpInput) : task bool :=
  match m with
  | InMsg (OffSignal signal) => _ ← handle_signal signal; mret false
  | InMsg (OffEvent event input) => _ ← handle_event event input; mret false
  | InMsg (OffConnect port id addr) => _ ← handle_connect now port id addr; mret false
  | InMsg (OffDisconnect port id tx) => handle_disconnect port id tx
  | InMsg OffTerminate => _ ← on_offramp offramp_terminate; mret true
  | InReply (ReplyInsight event) => _ ← send_to_pipelines event; mret false
  | InReply (ReplyResponse port event) =>
    ds ← gets dest_pipelines;
    _ ← match ds !! port with
        | Some ps => sending (logged (handle_response event ps))
        | None => mret tt
        end;
    mret false
  end.
End offramp.
