(* ===== verification/SourceSpec.v ===== *)
(** What the manager of a source promises: an id names one event, and nothing
    is sent while the circuit breaker is triggered. *)
From S2P Require Import Prelude Value EventIds Event Graph Url Wal Frames Network Source.

(** ** The events of a source in a log *)
Definition source_event (u : N) (p : packet) : option Event.t :=
  match p with
  | PkMsg _ (MsgEvent ev _) => if (EventId.source_id (Event.id ev) =? u)%N then Some ev else None
  | _ => None
  end.
Definition events_of (u : N) (tr : list packet) : list Event.t := omap (source_event u) tr.

Lemma events_of_app u tr ps : events_of u (tr ++ ps) = events_of u tr ++ events_of u ps.
Proof. apply omap_app. Qed.
Lemma events_of_none u ps : Forall (λ p, source_event u p = None) ps → events_of u ps = [].
Proof. induction 1 as [|p ps Hp _ IH]; [done|]. unfold events_of. simpl. by rewrite Hp. Qed.

(** Events with the number they have when ids do not wrap around: the numbers
    grow, and the same number is the same event. *)
Definition later (p q : N * Event.t) : Prop := (p.1 < q.1)%N ∨ p = q.
Definition numbered (u : N) (tx : bool) (p : N * Event.t) : Prop :=
  Event.id p.2 = EventId.new u DEFAULT_STREAM_ID (p.1 mod w64) ∧ Event.transactional p.2 = tx.
Definition numbering (u : N) (tx : bool) (tr : list packet) (l : list (N * Event.t)) : Prop :=
  l.*2 = events_of u tr ∧ StronglySorted later l ∧ Forall (numbered u tx) l.

Lemma StronglySorted_snoc {A} (R : A → A → Prop) l x :
  StronglySorted R l → Forall (λ y, R y x) l → StronglySorted R (l ++ [x]).
Proof.
  induction 1 as [|y l Hs IH Hy]; intros Hx; simpl; [by repeat constructor|].
  inversion Hx; subst. constructor; [by apply IH|]. apply Forall_app. split; [done|]. by constructor.
Qed.

Lemma numbering_app u tx tr ps l : numbering u tx tr l → events_of u ps = [] → numbering u tx (tr ++ ps) l.
Proof. intros (Hl & ? & ?) Hps. split_and!; try done. by rewrite events_of_app, Hps, app_nil_r. Qed.

Section spec.
Context {S C : Type} `{!Codec C, !Source S C, !codecs, !network} (show_error : error → string).
Abbreviation manager := (SourceManager (S := S) (C := C)) (only parsing).
Implicit Types self : manager.

(** What no method changes; the metrics a source sends of itself are not events
    of that source. *)
Context (u : N) (tx : bool).
Hypothesis uid_not_0 : u ≠ 0%N.
Hypothesis metrics_foreign : ∀ t (s : S),
  Forall (λ ev, EventId.source_id (Event.id ev) ≠ u) (source_metrics (C := C) t s).2.

Definition fixed self : Prop := uid self = u ∧ is_transactional self = tx.

(** [n] events were made so far, and those that were sent have numbers below. *)
Definition ids_upto (n : N) self (tr : list packet) : Prop :=
  fixed self ∧ next_id self = (n mod w64)%N ∧ ∃ l, numbering u tx tr l ∧ Forall (λ p, p.1 < n)%N l.

(** While event [ev] with number [n] is sent. *)
Definition sending_event (n : N) (ev : Event.t) self (tr : list packet) : Prop :=
  fixed self ∧ next_id self = ((n + 1) mod w64)%N ∧ numbered u tx (n, ev) ∧
  ∃ l, numbering u tx tr l ∧ Forall (λ p, later p (n, ev)) l.

Definition foreign (p : packet) : Prop := source_event u p = None.

Lemma ids_upto_app n self tr ps : ids_upto n self tr → Forall foreign ps → ids_upto n self (tr ++ ps).
Proof.
  intros (? & ? & l & ? & ?) Hps%events_of_none. split_and!; [done..|]. exists l.
  split; [by apply numbering_app|done].
Qed.
Lemma sending_event_app n ev self tr ps :
  sending_event n ev self tr → Forall foreign ps → sending_event n ev self (tr ++ ps).
Proof.
  intros (? & ? & ? & l & ? & ?) Hps%events_of_none. split_and!; try done. exists l.
  split; [by apply numbering_app|done].
Qed.

Lemma sending_event_done n ev self tr : sending_event n ev self tr → ids_upto (n + 1) self tr.
Proof.
  intros (? & ? & ? & l & ? & Hl). split_and!; [done..|]. exists l. split; [done|].
  eapply Forall_impl; [done|]. intros p [Hp| ->]; simpl in *; lia.
Qed.

Lemma send_to_pipeline_sends n ev p : preserves (sending_event n ev) (sending (send_to_pipeline ev p)).
Proof.
  intros self tr HJ. unfold sending, send_to_pipeline, send_msg, send.
  destruct (TremorUrl.instance_port p.1) as [input|]; [|done].
  destruct (accepts _ _); [|done].
  destruct HJ as (Hfix & Hn & Hnum & l & (Hl & Hsort & Hall) & Hlater). split_and!; try done.
  exists (l ++ [(n, ev)]). split; [split_and!|].
  - rewrite fmap_app, events_of_app, Hl. unfold events_of at 2. simpl.
    destruct Hnum as [Hid _]. simpl in Hid. rewrite Hid. simpl. by rewrite N.eqb_refl.
  - by apply StronglySorted_snoc.
  - apply Forall_app. split; [done|]. by constructor.
  - apply Forall_app. split; [done|]. constructor; [by right|done].
Qed.

(** *** Metrics *)
Lemma metrics_foreign_packets events m :
  Forall (λ ev, EventId.source_id (Event.id ev) ≠ u) events → logs_only foreign (RampReporter.send_metrics events m).
Proof.
  intros Hev. unfold RampReporter.send_metrics.
  destruct (RampReporter.metrics_pipeline m) as [[mi ma]|]; [|auto with net].
  destruct (TremorUrl.instance_port mi) as [input|]; [|auto with net].
  induction Hev as [|ev events Hne _ IH]; [apply logs_only_ret|]. simpl.
  apply logs_only_bind; [|done]. apply logs_only_logged, logs_only_send.
  unfold foreign. simpl. apply N.eqb_neq in Hne. by rewrite Hne.
Qed.

Lemma report_keeps n ev ingest_ns port : preserves (sending_event n ev) (report (S := S) (C := C) ingest_ns port).
Proof.
  intros self tr HJ. unfold report, RampReporter.periodic_flush.
  set (m' := RampReporter.set_last_flush _ _).
  destruct (RampReporter.flush_due _ _).
  - assert (logs_only foreign (RampReporter.send_metrics
      [RampReporter.make_event ingest_ns "in" (RampReporter.in_ (metrics_reporter self)) (metrics_reporter self);
       RampReporter.make_event ingest_ns "out" (RampReporter.out (metrics_reporter self)) (metrics_reporter self);
       RampReporter.make_event ingest_ns "error" (RampReporter.err (metrics_reporter self)) (metrics_reporter self)]
      (metrics_reporter self))) as Hflush.
    { apply metrics_foreign_packets. repeat constructor; simpl; congruence. }
    destruct (Hflush tr) as (ps & -> & Hps).
    pose proof (metrics_foreign ingest_ns (source self)) as Hsm.
    destruct (source_metrics ingest_ns (source self)) as [s events].
    destruct (metrics_foreign_packets events m' Hsm (tr ++ ps)) as (qs & -> & Hqs).
    apply (sending_event_app _ _ _ _ ps) in HJ; [|done].
    apply (sending_event_app _ _ _ _ qs) in HJ; [|done]. exact HJ.
  - exact HJ.
Qed.

Lemma transmit_counts n data ingest_ns origin_uri port self tr :
  ids_upto n self tr →
  let '(self', tr', _) := transmit_event (S := S) (C := C) data ingest_ns origin_uri port self tr in
  ids_upto (n + 1) self' tr'.
Proof.
  intros ([Hu Htx] & Hn & l & Hnum & Hlt).
  set (ev := make_event data ingest_ns origin_uri self).
  set (self1 := set_next_id (u64_add (next_id self) 1) self).
  assert (sending_event n ev self1 tr) as HJ.
  { split_and!; [done|simpl|..].
    - unfold u64_add. by rewrite Hn, N.Div0.add_mod_idemp_l.
    - split; [|done]. simpl. by rewrite Hu, Hn.
    - exists l. split; [done|]. eapply Forall_impl; [done|]. intros p Hp. by left. }
  unfold transmit_event. unfold mbind, proc_bind, gets, modify. fold ev. fold self1.
  destruct (port_pipelines port self1) as [[|p ps]|];
    [by apply (sending_event_done n ev)| |by apply (sending_event_done n ev)].
  assert (preserves (sending_event n ev) (_ ← report (S := S) (C := C) ingest_ns port;
    for_any (λ p, sending (send_to_pipeline ev p)) (p :: ps))) as Hsend.
  { apply preserves_bind; [apply report_keeps|]. intros _. apply preserves_for_any. intros q.
    apply send_to_pipeline_sends. }
  specialize (Hsend self1 tr HJ). unfold mbind, proc_bind in Hsend.
  destruct (report ingest_ns port self1 tr) as [[self2 tr2] [[]|e]]; [|by apply (sending_event_done n ev)].
  destruct (for_any _ (p :: ps) self2 tr2) as [[self3 tr3] r]. by apply (sending_event_done n ev).
Qed.
(** *** What reading data leaves alone *)
Definition core self := (uid self, is_transactional self, next_id self, triggered self,
  pipelines_out self, pipelines_err self, source_id self).

Lemma ids_upto_core n self self' tr : core self' = core self → ids_upto n self tr → ids_upto n self' tr.
Proof. unfold core, ids_upto, fixed. intros [= -> -> -> _ _ _ _]. done. Qed.

Lemma decode_parts_core codec_override ingest_ns m data self :
  core (decode_parts codec_override ingest_ns m data self).1 = core self.
Proof.
  revert self. induction data as [|d data IH]; intros self; simpl; [done|].
  assert (core (decode_with codec_override d ingest_ns self).1 = core self) as Hd.
  { unfold decode_with. destruct (_ ≫= _) as [[name c]|]; by destruct (decode d ingest_ns _). }
  destruct (decode_with codec_override d ingest_ns self) as [self1 r]. simpl in Hd.
  specialize (IH self1). destruct (decode_parts _ _ _ data self1) as [self2 rs]. simpl in *. congruence.
Qed.

Lemma make_event_data_core stream ingest_ns codec_override data m self :
  core (make_event_data stream ingest_ns codec_override data m self).1.1 = core self.
Proof.
  unfold make_event_data, handle_pp. destruct (preprocessors self !! stream) as [pps|]; [|done].
  destruct (preprocess pps ingest_ns data) as [[[pps' ns] [parts|e]]|]; try done.
  match goal with |- context [decode_parts _ _ ?m _ ?x] =>
    pose proof (decode_parts_core codec_override ns m parts x) as Hc end.
  by destruct (decode_parts _ _ _ _ _).
Qed.

(** *** What makes events

    [takes m w] : from a state where [w] events are to be made, [m] makes as
    many, or fewer if it fails. *)
Definition takes {A} (m : proc manager A) (w : manager → list packet → N) : Prop :=
  ∀ n self tr, ids_upto n self tr →
  let '(self', tr', r) := m self tr in
  ∃ k, (k ≤ w self tr)%N ∧ ids_upto (n + k) self' tr' ∧ ∀ a, r = Ok a → k = w self tr.

Lemma takes_none {A} (m : proc manager A) : (∀ n, preserves (ids_upto n) m) → takes m (λ _ _, 0%N).
Proof.
  intros Hm n self tr HJ. specialize (Hm n self tr HJ). destruct (m self tr) as [[self' tr'] r].
  exists 0%N. by rewrite N.add_0_r.
Qed.
Lemma takes_bind {A B} (m : proc manager A) (f : A → proc manager B) v w :
  takes m v → (∀ a, takes (f a) (w a)) →
  takes (m ≫= f) (λ self tr, v self tr +
    match m self tr with (self', tr', Ok a) => w a self' tr' | (_, _, Err _) => 0 end)%N.
Proof.
  intros Hm Hf n self tr HJ. unfold mbind, proc_bind. specialize (Hm n self tr HJ).
  destruct (m self tr) as [[self1 tr1] [a|e]]; destruct Hm as (k & Hk & HJ1 & Heq).
  - specialize (Hf a (n + k)%N self1 tr1 HJ1). destruct (f a self1 tr1) as [[self2 tr2] r].
    destruct Hf as (k2 & Hk2 & HJ2 & Heq2). specialize (Heq a eq_refl). exists (k + k2)%N.
    rewrite N.add_assoc. split_and!; [lia|done|]. intros b Hb. rewrite (Heq2 b Hb). lia.
  - exists k. split_and!; [lia|done|]. by intros b.
Qed.
Lemma takes_proper {A} (m : proc manager A) v w : (∀ self tr, v self tr = w self tr) → takes m v → takes m w.
Proof.
  intros Hvw Hm n self tr HJ. specialize (Hm n self tr HJ). destruct (m self tr) as [[self' tr'] r].
  by rewrite Hvw in Hm.
Qed.

Lemma modify_keeps n (f : manager → manager) :
  (∀ self, core (f self) = core self) → preserves (ids_upto n) (modify f).
Proof. intros Hf. apply preserves_modify. intros self tr. by apply ids_upto_core. Qed.
Lemma changing_keeps n {A} (f : manager → manager * result A) :
  (∀ self, core (f self).1 = core self) → preserves (ids_upto n) (changing f).
Proof. intros Hf. apply preserves_changing. intros self tr. by apply ids_upto_core. Qed.

Lemma transmit_takes data ingest_ns origin_uri port :
  takes (transmit_event (S := S) (C := C) data ingest_ns origin_uri port) (λ _ _, 1%N).
Proof.
  intros n self tr HJ. pose proof (transmit_counts n data ingest_ns origin_uri port self tr HJ) as Ht.
  destruct (transmit_event _ _ _ _ self tr) as [[self' tr'] r]. by exists 1%N.
Qed.

Lemma route_result_takes results original_id ingest_ns origin_uri :
  takes (route_result show_error (S := S) (C := C) results original_id ingest_ns origin_uri)
    (λ _ _, N.of_nat (length results)).
Proof.
  intros n self tr HJ. unfold route_result, mbind, proc_bind, gets. generalize (source_id self). intros id.
  revert n self tr HJ. induction results as [|d results IH]; intros n self tr HJ.
  { exists 0%N. by rewrite N.add_0_r. }
  cbn [for_any length]. unfold mbind, proc_bind, mret, proc_ret.
  set (m := match d with Ok _ => _ | Err _ => _ end).
  assert (takes m (λ _ _, 1%N)) as Hm by (unfold m; destruct d; apply transmit_takes).
  specialize (Hm n self tr HJ).
  destruct (m self tr) as [[self1 tr1] [e|e]]; destruct Hm as (k & Hk & HJ1 & Heq).
  - specialize (IH _ _ _ HJ1). specialize (Heq e eq_refl). destruct (for_any _ results self1 tr1) as [[self2 tr2] [e2|e2]];
      destruct IH as (k2 & Hk2 & HJ2 & Heq2); exists (k + k2)%N; rewrite N.add_assoc;
      (split_and!; [lia|done|]); [|done]. intros a _. rewrite (Heq2 e2 eq_refl). lia.
  - exists k. split_and!; [lia|done|done].
Qed.

(** The events made of one datum, of a batch, of a reply, in a poll, in a round
    and in a run: one per part the preprocessors and the codec make of the
    data, good or bad. *)
Definition data_width (codec_override : option string) (stream now : N) (d : bytes * option value) self : N :=
  N.of_nat (length (make_event_data stream now codec_override d.1 d.2 self).2).

Fixpoint batch_width (origin_uri : EventOriginUri.t) (codec_override : option string) (stream : N)
    (clock : nat → N) (i : nat) (batch : list (bytes * option value)) self (tr : list packet) : N :=
  match batch with
  | [] => 0
  | d :: batch =>
    data_width codec_override stream (clock i) d self +
    match handle_data show_error origin_uri codec_override stream (clock i) d self tr with
    | (self', tr', Ok _) => batch_width origin_uri codec_override stream clock (1 + i) batch self' tr'
    | (_, _, Err _) => 0
    end
  end%N.

Definition reply_width (clock : nat → N) (reply : SourceReply) self (tr : list packet) : N :=
  match reply with
  | Structured _ _ => 1
  | Data _ data meta codec_override stream => data_width codec_override stream (clock 0%nat) (data, meta) self
  | BatchData origin_uri batch codec_override stream =>
    batch_width (EventOriginUri.maybe_set_uid (uid self) origin_uri) codec_override stream clock 0 batch self tr
  | _ => 0
  end%N.

Definition pull_width (clock : nat → N) self (tr : list packet) : N :=
  let '(s, r) := pull_event (next_id self) (source self) in
  match r with Ok reply => reply_width clock reply (set_source s self) tr | Err _ => 0%N end.

Definition round_width (clock : nat → N) self (tr : list packet) : N :=
  match handle_pipelines (rx self) self tr with
  | (self', tr', Ok Go) =>
    if negb (triggered self') && negb (bool_decide (pipelines_out self' = [])) then pull_width clock self' tr' else 0
  | _ => 0
  end%N.

Fixpoint run_width (rounds : list (list OnrampMsg * (nat → N))) self (tr : list packet) : N :=
  match rounds with
  | [] => 0
  | (ms, clock) :: rounds =>
    let self := set_rx (rx self ++ ms) self in
    round_width clock self tr +
    match run_round show_error clock self tr with
    | (self', tr', Ok (Go | Wait)) => run_width rounds self' tr'
    | _ => 0
    end
  end%N.

Lemma handle_data_takes origin_uri codec_override stream now d :
  takes (handle_data show_error (S := S) (C := C) origin_uri codec_override stream now d)
    (λ self _, data_width codec_override stream now d self).
Proof.
  eapply takes_proper; [|apply takes_bind; [apply takes_none; auto with net|intros original_id]].
  2: { apply (takes_bind _ _ (λ _ _, 0%N) (λ x _ _, N.of_nat (length x.2))).
    - apply takes_none. intros n. apply changing_keeps. intros self.
      pose proof (make_event_data_core stream now codec_override d.1 d.2 self) as Hc.
      by destruct (make_event_data _ _ _ _ _ _) as [[self' ns] rs].
    - intros [ns results]. eapply takes_proper; [|apply takes_bind with (w := λ _ _ _, N.of_nat (length results));
        [apply takes_none; intros n|intros _]].
      + intros self tr. destruct results as [|x results]; [|done].
        by destruct (changing _ self tr) as [[self' tr'] [x|e]].
      + destruct results; [|auto with net]. apply changing_keeps. intros self. by destruct (on_empty_event _ _ _).
      + eapply takes_proper; [|apply takes_bind; [apply route_result_takes|intros error; apply takes_none; intros n]].
        * intros self tr. cbn beta. destruct (route_result _ _ _ _ _ self tr) as [[self' tr'] [x|e]]; apply N.add_0_r.
        * destruct error; [|auto with net]. by apply modify_keeps. }
  intros self tr. unfold gets, changing, data_width.
  by destruct (make_event_data _ _ _ _ _ self) as [[self' ns] rs].
Qed.

Lemma batch_takes origin_uri codec_override stream clock i batch :
  takes (handle_batch show_error (S := S) (C := C) origin_uri codec_override stream clock i batch)
    (batch_width origin_uri codec_override stream clock i batch).
Proof.
  revert i. induction batch as [|d batch IH]; intros i; cbn [handle_batch].
  { apply takes_none. auto with net. }
  eapply takes_proper; [|apply takes_bind; [apply handle_data_takes|intros a; apply IH]].
  intros self tr. cbn [batch_width]. by destruct (handle_data _ _ _ _ _ _ self tr) as [[? ?] [[]|]].
Qed.

Lemma handle_reply_takes clock reply :
  takes (handle_reply show_error (S := S) (C := C) clock reply) (reply_width clock reply).
Proof.
  assert (∀ {A} (m : proc manager A) v (c : control), takes m v → takes (_ ← m; mret c) v) as Hgo.
  { intros A m v c Hm. eapply takes_proper; [|apply takes_bind; [exact Hm|intros a; apply takes_none; intros n; apply preserves_ret]].
    intros self tr. cbn beta. destruct (m self tr) as [[? ?] [?|?]]; apply N.add_0_r. }
  destruct reply as [o batch c stream|o d m c stream|o d|id|id|[]|ms]; simpl; try (by apply takes_none; auto with net).
  - eapply takes_proper; [|apply takes_bind; [apply takes_none; auto with net|intros u'; apply Hgo, batch_takes]]. done.
  - eapply takes_proper; [|apply takes_bind; [apply takes_none; auto with net|intros u'; apply Hgo, handle_data_takes]]. done.
  - apply Hgo, transmit_takes.
  - apply takes_none. intros n. apply preserves_bind; [auto with net|]. intros names.
    destruct (make_preprocessors names); [|auto with net]. apply preserves_bind; [|auto with net].
    by apply modify_keeps.
  - apply takes_none. intros n. apply preserves_bind; [by apply modify_keeps|]. auto with net.
Qed.

Lemma pull_takes clock : takes (pull show_error (S := S) (C := C) clock) (pull_width clock).
Proof.
  intros n self tr HJ. unfold pull, pull_width. destruct (pull_event (next_id self) (source self)) as [s r].
  destruct r as [reply|e]; [by apply handle_reply_takes|]. exists 0%N. by rewrite N.add_0_r.
Qed.
(** *** Messages *)

(** Messages only make a manager send to the management channels of pipelines
    and answer; they neither number nor send events. *)
Definition not_data (p : packet) : Prop := match p with PkMsg _ _ => False | _ => True end.
Definition counters self := (uid self, is_transactional self, next_id self).

Section messages.
Context (J : manager → list packet → Prop).
Hypothesis J_app : ∀ self tr ps, J self tr → Forall not_data ps → J self (tr ++ ps).
Hypothesis J_counters : ∀ self self' tr,
  counters self' = counters self → triggered self' = triggered self ∨ triggered self' = true →
  J self tr → J self' tr.

Lemma sending_not_data {A} (m : net A) : logs_only not_data m → preserves J (sending m).
Proof. apply preserves_sending. intros self tr ps. apply J_app. Qed.
Lemma modify_counters (f : manager → manager) :
  (∀ self, counters (f self) = counters self) →
  (∀ self, triggered (f self) = triggered self ∨ triggered (f self) = true) → preserves J (modify f).
Proof. intros Hf Ht. apply preserves_modify. intros self tr. by apply J_counters. Qed.

Lemma on_source_counters (f : S → S) : preserves J (on_source (C := C) f).
Proof. apply modify_counters; [done|]. by left. Qed.

Lemma set_rx_keeps ms : preserves J (modify (set_rx (S := S) (C := C) ms)).
Proof. apply modify_counters; [done|]. by left. Qed.

Lemma handle_msg_keeps m :
  (∀ ids, m ≠ OnCb CbOpen ids) → preserves J (handle_msg (S := S) (C := C) m).
Proof.
  intros Hm. destruct m as [port ps|id reply|[] ids|ev]; simpl.
  - destruct (eq_ignore_ascii_case port METRICS).
    + apply preserves_bind; [|auto with net]. apply preserves_for_each. intros p.
      apply modify_counters; [done|]. by left.
    + apply preserves_bind; [|auto with net]. apply preserves_for_each. intros p.
      apply preserves_bind; [auto with net|]. intros self0. destruct (_ || _); [|auto with net].
      apply preserves_bind; [by apply sending_not_data, logs_only_send|]. intros _.
      apply modify_counters; intros self; destruct (bool_decide _); try done; by left.
  - apply preserves_bind; [auto with net|]. intros self0.
    apply preserves_bind.
    { apply sending_not_data, logs_only_each. intros p. by apply logs_only_send. }
    intros _. apply preserves_bind; [apply modify_counters; [done|]; by left|]. intros _.
    apply preserves_bind; [auto with net|]. intros b.
    apply preserves_bind; [by apply sending_not_data, logs_only_send|]. intros _.
    apply preserves_bind; [|auto with net]. destruct b; [apply on_source_counters|auto with net].
  - auto with net.
  - apply preserves_bind; [apply on_source_counters|]. intros _.
    apply preserves_bind; [|auto with net]. apply modify_counters; [done|]. by right.
  - by destruct (Hm ids).
  - apply preserves_bind; [auto with net|]. intros u'.
    destruct (EventId.get_max_by_source ids u') as [[? k]|]; [|auto with net].
    apply preserves_bind; [apply on_source_counters|auto with net].
  - apply preserves_bind; [auto with net|]. intros u'.
    destruct (EventId.get_min_by_source ids u') as [[? k]|]; [|auto with net].
    apply preserves_bind; [apply on_source_counters|auto with net].
  - apply preserves_bind; [|auto with net]. apply preserves_catch, preserves_changing.
    intros self tr HJ. destruct (reply_event _ _ _ _) as [s r]. simpl.
    apply (J_counters self); [done| |done]. by left.
Qed.
End messages.

Lemma not_data_foreign p : not_data p → foreign p.
Proof. by destruct p. Qed.

Lemma handle_msg_ids n m : preserves (ids_upto n) (handle_msg (S := S) (C := C) m).
Proof.
  assert (∀ self tr ps, ids_upto n self tr → Forall not_data ps → ids_upto n self (tr ++ ps)) as Happ.
  { intros self tr ps HJ Hps. apply ids_upto_app; [done|]. eapply Forall_impl; [done|].
    apply not_data_foreign. }
  assert (∀ self self' tr, counters self' = counters self → ids_upto n self tr → ids_upto n self' tr) as Hcount.
  { unfold counters, ids_upto, fixed. by intros self self' tr [= -> -> ->]. }
  assert ((∃ ids, m = OnCb CbOpen ids) ∨ ∀ ids, m ≠ OnCb CbOpen ids) as [[ids ->]|Hne].
  { destruct m as [| |[]|]; try (by right). left. by eexists. }
  - apply preserves_bind; [by apply modify_keeps|]. intros _. apply preserves_bind; [|auto with net].
    apply preserves_modify. intros self tr. by apply Hcount.
  - apply handle_msg_keeps; [done| |done]. intros self self' tr Hc _. by apply Hcount.
Qed.

Lemma handle_pipelines_ids n ms : preserves (ids_upto n) (handle_pipelines (S := S) (C := C) ms).
Proof.
  induction ms as [|m ms IH]; simpl.
  - apply preserves_bind; [auto with net|]. auto with net.
  - apply preserves_bind; [by apply modify_keeps|]. intros _.
    apply preserves_bind; [apply handle_msg_ids|]. intros []; [auto with net|done].
Qed.

Lemma run_round_takes clock : takes (run_round show_error (S := S) (C := C) clock) (round_width clock).
Proof.
  intros n self tr HJ. unfold run_round, round_width, mbind, proc_bind, gets.
  pose proof (handle_pipelines_ids n (rx self) self tr HJ) as HJ1.
  assert (∀ (c : control) self1 tr1, ids_upto n self1 tr1 →
    ∃ k, (k ≤ 0)%N ∧ ids_upto (n + k) self1 tr1 ∧ ∀ a, Ok c = Ok a → k = 0%N) as Hnone.
  { intros c self1 tr1 H1. exists 0%N. by rewrite N.add_0_r. }
  destruct (handle_pipelines (rx self) self tr) as [[self1 tr1] [[]|e]]; [|by apply Hnone..|].
  - destruct (negb (triggered self1) && _); [by apply pull_takes|by apply Hnone].
  - exists 0%N. by rewrite N.add_0_r.
Qed.
Lemma run_takes rounds : takes (run show_error (S := S) (C := C) rounds) (run_width rounds).
Proof.
  induction rounds as [|[ms clock] rounds IH]; [apply takes_none; simpl; auto with net|]. cbn [run].
  eapply takes_proper; [|apply takes_bind; [apply takes_none; intros n; by apply modify_keeps|intros a]].
  2: { apply (takes_bind _ _ (round_width clock) (λ c self tr, if c is Stop then 0%N else run_width rounds self tr));
       [apply run_round_takes|]. intros []; [done..|apply takes_none; auto with net]. }
  intros self tr. unfold modify. cbn [run_width].
  by destruct (run_round _ _ _ tr) as [[? ?] [[]|]].
Qed.

(** *** The circuit breaker *)
Definition silent_since (tr0 : list packet) self (tr : list packet) : Prop :=
  triggered self = true ∧ ∃ ps, tr = tr0 ++ ps ∧ Forall not_data ps.

Definition not_open (m : OnrampMsg) : Prop := match m with OnCb CbOpen _ => False | _ => True end.

Lemma handle_msg_silent tr0 m :
  not_open m → preserves (silent_since tr0) (handle_msg (S := S) (C := C) m).
Proof.
  intros Hm. apply handle_msg_keeps.
  - intros self tr ps (Ht & qs & -> & Hqs) Hps. split; [done|]. exists (qs ++ ps).
    rewrite app_assoc. split; [done|]. by apply Forall_app.
  - intros self self' tr _ Ht (Ht0 & Htr). split; [|done]. destruct Ht; congruence.
  - by intros ids ->.
Qed.

Lemma handle_pipelines_silent tr0 ms self tr :
  Forall not_open ms → silent_since tr0 self tr →
  let '(self', tr', r) := handle_pipelines ms self tr in silent_since tr0 self' tr' ∧ r ≠ Ok Go.
Proof.
  intros Hms. revert self tr. induction Hms as [|m ms Hm _ IH]; intros self tr HJ.
  - simpl. unfold mbind, proc_bind, gets, mret, proc_ret, needs_pipeline_msg.
    destruct HJ as [Ht Htr]. rewrite Ht, orb_true_r. simpl. by split.
  - simpl. unfold mbind, proc_bind, modify.
    assert (silent_since tr0 (set_rx ms self) tr) as HJ' by apply HJ.
    pose proof (handle_msg_silent tr0 m Hm _ _ HJ') as HJ1.
    destruct (handle_msg m (set_rx ms self) tr) as [[self1 tr1] [[]|e]]; [by split|by apply IH|by split].
Qed.
End spec.

(** ** Samples *)
Module Sample.
Definition url (rt : ResourceType) (instance port : string) : TremorUrl.t :=
  TremorUrl.mk ScopePort "localhost" (Some rt) (Some "sample"%string) (Some instance) (Some port).
Definition addr : Addr.t := Addr.mk 1 2 3 (url Url.Pipeline "01" "in").

(** A source that always has the same two bytes, and a codec that takes them
    as they are; its state is the list of the ids it was told. *)
#[global] Instance codec : Codec unit := {
  decode data _ c := (c, Ok (Some (VStatic (SU64 (N.of_nat (length data))))));
  encode _ _ := Ok [];
}.
#[global] Instance source : Source (list (N * bool)) unit := {
  pull_event _ s := (s, Ok (Data (EventOriginUri.mk 0 "sample" "localhost" None []) [1; 2]%N None None 0));
  on_empty_event _ _ s := (s, Ok tt);
  reply_event _ _ _ s := (s, Ok tt);
  source_metrics _ s := (s, []);
  source_terminate s := s;
  trigger_breaker s := s;
  restore_breaker s := s;
  source_ack id s := s ++ [(id, true)];
  source_fail id s := s ++ [(id, false)];
}.
Definition manager : SourceManager (S := list (N * bool)) (C := unit) :=
  mk_manager (url Onramp "01" "out") [] [] 9 [] {[0%N := []]} tt ∅
    (RampReporter.new (url Onramp "01" "out") None) false [] [] false 0 true 7.
Definition show_error (_ : error) : string := "error".
Definition connect : OnrampMsg := OnConnect OUT [(url Url.Pipeline "01" "in", addr)].
Definition rounds : list (list OnrampMsg * (nat → N)) :=
  [([connect], λ _, 1%N); ([], λ _, 2%N); ([], λ _, 3%N)].
End Sample.

(** Numbered events with the same id are the same, while ids do not wrap. *)
Lemma numbering_unique u tx tr l e1 e2 :
  numbering u tx tr l → Forall (λ p, p.1 < w64)%N l →
  e1 ∈ events_of u tr → e2 ∈ events_of u tr → Event.id e1 = Event.id e2 → e1 = e2.
Proof.
  intros (<- & Hs & Hn) Hlt ([n1 ?] & -> & H1)%list_elem_of_fmap ([n2 ?] & -> & H2)%list_elem_of_fmap.
  cbn [snd]. rewrite Forall_forall in Hn, Hlt.
  destruct (Hn _ H1) as [Hi1 _], (Hn _ H2) as [Hi2 _]. cbn [fst snd] in Hi1, Hi2. rewrite Hi1, Hi2. intros [= Hid].
  pose proof (Hlt _ H1) as Hl1. pose proof (Hlt _ H2) as Hl2. cbn [fst] in *.
  rewrite !N.mod_small in Hid by done. subst n2. clear Hn Hlt Hl1 Hl2 Hi1 Hi2.
  induction Hs as [|p l Hs IH Hp]; [by apply elem_of_nil in H1|]. rewrite Forall_forall in Hp.
  apply elem_of_cons in H1 as [<-|H1], H2 as [Heq|H2]; [by simplify_eq| | |by apply IH].
  - destruct (Hp _ H2) as [Hx|Hx]; simpl in Hx; [lia|by simplify_eq].
  - subst p. destruct (Hp _ H1) as [Hx|Hx]; simpl in Hx; [lia|by simplify_eq].
Qed.

(** C14: an id names one event.  A manager with a uid other than 0, which the
    metrics it sends do not carry, that has sent no events yet and whose next
    id is 0 numbers the
    events it makes, one per part the preprocessors and the codec make of what
    its source gives, in order and from 0 on: after a run in which it made [w]
    events its next id is [w] modulo 2^64, and those it sent have numbers below
    [w] that never go down, the id of an event being that of the source with
    its number modulo 2^64 and equal numbers meaning the same event (sent to
    another pipeline). So two events it sent with the same id are the same
    event if it made at most 2^64, whatever the pipelines do and whatever
    messages arrive. *)
Theorem source_ids_unique {S C} `{!Codec C, !Source S C, !codecs, !network} (show_error : error → string)
    (rounds : list (list OnrampMsg * (nat → N))) (self self' : SourceManager (S := S) (C := C))
    (tr tr' : list packet) (r : result control)
    (Huid : uid self ≠ 0%N)
    (Hmetrics : ∀ t s, Forall (λ ev, EventId.source_id (Event.id ev) ≠ uid self)
      (source_metrics (S := S) (C := C) t s).2)
    (Hid : next_id self = 0%N) (Hnew : events_of (uid self) tr = [])
    (Hrun : run show_error rounds self tr = (self', tr', r)) :
  let w := run_width show_error rounds self tr in
  (∃ l, numbering (uid self) (is_transactional self) tr' l ∧ Forall (λ p, p.1 < w)%N l) ∧
  (∀ c, r = Ok c → next_id self' = (w mod w64)%N) ∧
  ((w ≤ w64)%N → ∀ e1 e2, e1 ∈ events_of (uid self) tr' → e2 ∈ events_of (uid self) tr' →
    Event.id e1 = Event.id e2 → e1 = e2).
Proof.
  pose proof (run_takes show_error (uid self) (is_transactional self) Huid Hmetrics rounds 0%N self tr) as Hids.
  rewrite Hrun in Hids. cbv zeta. set (w := run_width _ _ _ _) in *.
  destruct Hids as (k & Hk & (_ & Hn & l & Hl & Hlt) & Heq).
  { split; [done|]. split; [by rewrite Hid|]. exists []. split; [split_and!; [by rewrite Hnew|constructor..]|constructor]. }
  rewrite N.add_0_l in Hn, Hlt. split_and!.
  - exists l. split; [done|]. eapply Forall_impl; [exact Hlt|]. simpl. lia.
  - intros c Hc. by rewrite Hn, (Heq c Hc).
  - intros Hw e1 e2. apply (numbering_unique _ _ _ l _ _ Hl). eapply Forall_impl; [exact Hlt|]. simpl. lia.
Qed.

Lemma source_ids_unique_witness :
  let _ := stored_codecs in let _ := open_network in
  ∃ self' tr' r, run Sample.show_error Sample.rounds Sample.manager [] = (self', tr', r) ∧
    run_width Sample.show_error Sample.rounds Sample.manager [] = 3%N ∧
    (∀ c, r = Ok c → next_id self' = 3%N) ∧
    (∀ e1 e2, e1 ∈ events_of 7 tr' → e2 ∈ events_of 7 tr' → Event.id e1 = Event.id e2 → e1 = e2) ∧
    (EventId.event_id ∘ Event.id) <$> events_of 7 tr' = [0; 1; 2]%N.
Proof.
  intros Hc Hn.
  destruct (run Sample.show_error Sample.rounds Sample.manager []) as [[self' tr'] r] eqn:Hrun.
  destruct (source_ids_unique Sample.show_error Sample.rounds Sample.manager self' [] tr' r
    ltac:(discriminate) (λ t s, Forall_nil_2 _) eq_refl eq_refl Hrun) as (_ & Hnext & Huniq).
  exists self', tr', r. split; [reflexivity|]. split; [vm_compute; reflexivity|].
  split; [|split].
  - intros c Hc'. rewrite (Hnext c Hc'). vm_compute. reflexivity.
  - apply Huniq. vm_compute. discriminate.
  - assert (tr' = (run Sample.show_error Sample.rounds Sample.manager []).1.2) as -> by (rewrite Hrun; reflexivity).
    vm_compute. reflexivity.
Defined.

(** While its circuit breaker is triggered a source is not asked for data
    and sends nothing: a round only handles messages, and unless one of them
    opens the breaker again it ends waiting for the next, stopped, or with an
    error; the breaker stays triggered and nothing but connection messages
    and answers were sent. *)
Theorem triggered_source_waits {S C} `{!Codec C, !Source S C, !codecs, !network} (show_error : error → string)
    (clock : nat → N) (self self' : SourceManager (S := S) (C := C)) (tr tr' : list packet) (r : result control)
    (Htriggered : triggered self = true) (Hopen : Forall not_open (rx self))
    (Hrun : run_round show_error clock self tr = (self', tr', r)) :
  triggered self' = true ∧ r ≠ Ok Go ∧ ∃ ps, tr' = tr ++ ps ∧ Forall not_data ps.
Proof.
  assert (silent_since tr self tr) as HJ by (split; [done|]; exists []; by rewrite app_nil_r).
  pose proof (handle_pipelines_silent tr (rx self) self tr Hopen HJ) as Hh.
  unfold run_round, mbind, proc_bind, gets in Hrun.
  destruct (handle_pipelines (rx self) self tr) as [[self1 tr1] [[]|e]]; destruct Hh as [[Ht Htr] Hgo];
    try done; injection Hrun as <- <- <-; split_and!; done.
Qed.

Lemma triggered_source_waits_witness :
  let _ := stored_codecs in let _ := open_network in
  let self := set_rx [OnCb CbAck (EventId.new 7 0 3)] (set_triggered true Sample.manager) in
  let '(self', tr', r) := run_round Sample.show_error (λ _, 1%N) self [] in
  (triggered self' = true ∧ r ≠ Ok Go ∧ ∃ ps, tr' = [] ++ ps ∧ Forall not_data ps) ∧
  source self' = [(3%N, true)] ∧ r = Ok Wait.
Proof.
  intros Hc Hn self.
  destruct (run_round Sample.show_error (λ _, 1%N) self []) as [[self' tr'] r] eqn:Hrun.
  split.
  - apply (triggered_source_waits Sample.show_error (λ _, 1%N) self self' [] tr' r);
      [reflexivity|repeat constructor|exact Hrun].
  - vm_compute in Hrun. injection Hrun as <- <- <-. vm_compute. by split.
Defined.
