(* ===== verification/Wiring.v ===== *)
(** How onramps, pipelines and offramps work together: connections
    and acknowledgements, across src/source.rs, src/pipeline.rs,
    src/offramp.rs and src/sink.rs. *)
From S2P Require Import Prelude Value EventIds Event OpsBasic Graph GraphSpec Url Repository Wal Frames.
From S2P Require Import Network Pipeline PipelineSpec Source Offramp SourceSpec.

(** ** Offramps *)
Section offramp.
Context {O C : Type} `{!Offramp O C, !network, !hash_order TremorUrl.t, !hash_order string}.

Lemma insight_to_attempts (ps : list Addr.t) ins :
  attempts (insight_to ps ins) ((λ a, PkCf (Addr.cf_addr a) (Insight ins)) <$> first_last ps).
Proof. intros tr. apply each_logged. Qed.

(** What the pipelines of an offramp are told. *)
Definition answers (ps : gmap TremorUrl.t Addr.t) (ins : Event.t) : list packet :=
  (λ p, PkCf (Addr.cf_addr p.2) (Insight ins)) <$> map_to_list ps.

Lemma send_to_pipelines_answers ins (t : OfframpTask (O := O) (C := C)) tr : ∃ ps,
  send_to_pipelines ins t tr = (t, attempt tr ps, Ok tt) ∧ ps ≡ₚ answers (Offramp.pipelines t) ins.
Proof.
  unfold send_to_pipelines, mbind, proc_bind, gets, sending. rewrite insight_to_attempts.
  eexists. split; [done|]. rewrite first_last_perm. unfold answers.
  rewrite <-(hash_iter_perm _ (Offramp.pipelines t)), <-list_fmap_compose. done.
Qed.

Definition failed {A} (r : result A) : bool := match r with Ok _ => false | Err _ => true end.

(** The pipelines are told of the event if it is transactional and the offramp
    acknowledges for its sink, or failed. *)
Definition told (event : Event.t) (o : O) (r : result unit) (ps : gmap TremorUrl.t Addr.t) : list packet :=
  if (failed r || auto_ack o) && Event.transactional event then
    answers ps (Event.ack_or_fail (negb (failed r)) (Event.ingest_ns event) (Event.id event))
  else [].

(** The log when the offramp gets the event: metrics may be sent before. *)
Definition flushed (event : Event.t) (t : OfframpTask (O := O) (C := C)) (tr : list packet) : list packet :=
  ((RampReporter.periodic_flush (Event.ingest_ns event) (Offramp.metrics_reporter t)).1.2 tr).1.

Lemma handle_event_spec event input (t t' : OfframpTask (O := O) (C := C)) tr tr' r :
  Offramp.handle_event event input t tr = (t', tr', r) →
  ∃ tr1 r1 ps,
    offramp_on_event (Offramp.codec_map t) input event (offramp t, Offramp.codec t) (flushed event t tr) =
      (offramp t', Offramp.codec t', tr1, r1) ∧
    r = Ok tt ∧ Offramp.pipelines t' = Offramp.pipelines t ∧ Offramp.dest_pipelines t' = Offramp.dest_pipelines t ∧
    tr' = attempt tr1 ps ∧ ps ≡ₚ told event (offramp t') r1 (Offramp.pipelines t).
Proof.
  unfold Offramp.handle_event, flushed.
  destruct (RampReporter.periodic_flush (Event.ingest_ns event) (Offramp.metrics_reporter t)) as [[m flush] x] eqn:Hf.
  unfold mbind, proc_bind, on_reporter, modify, catch, run_on_event, gets. rewrite Hf. simpl.
  destruct (offramp_on_event _ input event _ (flush tr).1) as [[[o c] tr1] r1] eqn:Hev. simpl.
  set (t1 := set_reporter _ (set_offramp o c _)).
  change (match r1 with Ok _ => false | Err _ => true end) with (failed r1). unfold told.
  destruct ((failed r1 || auto_ack o) && Event.transactional event) eqn:Hb.
  - destruct (send_to_pipelines_answers (Event.ack_or_fail (negb (failed r1)) (Event.ingest_ns event)
      (Event.id event)) t1 tr1) as (ps & Hs & Hps).
    rewrite Hs. intros [= <- <- <-]. exists tr1, r1, ps. simpl. by rewrite Hb.
  - intros [= <- <- <-]. exists tr1, r1, []. simpl. by rewrite Hb.
Qed.
End offramp.

(** ** The task of an offramp and the manager of its sink *)
Section sink_manager.
Context {T C : Type} `{!Sink T C, !network, !hash_order TremorUrl.t, !hash_order string}.
Abbreviation task := (OfframpTask (O := SinkManager.t T) (C := C)) (only parsing).
Implicit Types t : task.

(** Both know the same pipelines. *)
Definition in_sync t (_ : list packet) : Prop :=
  Offramp.pipelines t = SinkManager.pipelines (offramp t) ∧
  Offramp.dest_pipelines t = SinkManager.dest_pipelines (offramp t).

Lemma sync_modify (f : task → task) : (∀ t tr, in_sync t tr → in_sync (f t) tr) → preserves in_sync (modify f).
Proof. apply preserves_modify. Qed.
Lemma sync_sending {A} (m : net A) : preserves in_sync (sending m).
Proof. intros t tr Hs. unfold sending. by destruct (m tr). Qed.
Lemma sync_send_to_pipelines ins : preserves in_sync (send_to_pipelines (O := SinkManager.t T) (C := C) ins).
Proof. apply preserves_bind; [auto with net|]. intros ps. apply sync_sending. Qed.
Lemma sync_on_reporter f : preserves in_sync (on_reporter (O := SinkManager.t T) (C := C) f).
Proof. by apply sync_modify. Qed.

Lemma sync_run_on_event input event : preserves in_sync (run_on_event (O := SinkManager.t T) (C := C) input event).
Proof.
  intros t tr Hs. unfold run_on_event. simpl. unfold SinkManager.on_event.
  destruct (sink_on_event _ _ _ _ _) as [[x c] [[rs|]|e]]; [|done..].
  by destruct (each _ rs tr).
Qed.
Lemma sync_run_on_signal signal : preserves in_sync (run_on_signal (O := SinkManager.t T) (C := C) signal).
Proof.
  intros t tr Hs. unfold run_on_signal. simpl. unfold SinkManager.on_signal.
  destruct (sink_on_signal _ _) as [x [[rs|]|e]]; [|done..]. by destruct (each _ rs tr).
Qed.

Hint Resolve sync_sending sync_send_to_pipelines sync_on_reporter sync_run_on_event sync_run_on_signal : net.

Lemma sync_handle_event event input :
  preserves in_sync (Offramp.handle_event (O := SinkManager.t T) (C := C) event input).
Proof.
  apply preserves_bind.
  { intros t tr Hs. by destruct (RampReporter.periodic_flush _ _) as [[m f] x]. }
  intros _. apply preserves_bind; [auto with net|]. intros _.
  apply preserves_bind; [auto with net|]. intros r. apply preserves_bind; [auto with net|]. intros _.
  apply preserves_bind; [auto with net|]. intros o. destruct (_ && _); auto with net.
Qed.

Lemma sync_handle_signal signal : preserves in_sync (Offramp.handle_signal (O := SinkManager.t T) (C := C) signal).
Proof. apply preserves_bind; [auto with net|]. intros [ins|]; auto with net. Qed.

Lemma sync_handle_connect now port id addr :
  preserves in_sync (handle_connect (O := SinkManager.t T) (C := C) now port id addr).
Proof.
  unfold handle_connect. destruct (eq_ignore_ascii_case port IN).
  - apply preserves_bind; [auto with net|]. intros t0.
    apply preserves_bind; [destruct (_ || _); auto with net|]. intros _ t tr [Hp Hd].
    unfold mbind, proc_bind, modify. simpl. split; simpl; [by rewrite Hp|done].
  - destruct (eq_ignore_ascii_case port METRICS); [auto with net|].
    apply preserves_modify2.
    + intros t tr [Hp Hd]. split; simpl; [done|by rewrite Hd].
    + apply preserves_bind; [auto with net|]. intros t0.
      apply preserves_bind; [auto with net|]. intros _. destruct (_ && _); auto with net.
Qed.

Lemma sync_handle_disconnect port id tx :
  preserves in_sync (handle_disconnect (O := SinkManager.t T) (C := C) port id tx).
Proof.
  apply preserves_bind.
  - destruct (eq_ignore_ascii_case port IN);
      [|destruct (eq_ignore_ascii_case port METRICS); [auto with net|]];
      apply preserves_modify_changing; intros t tr [Hp Hd]; split; simpl; congruence.
  - intros b. apply preserves_bind; [auto with net|]. intros _.
    apply preserves_bind; [|auto with net]. destruct b; [|auto with net].
    by apply sync_modify.
Qed.

Lemma sync_handle now m : preserves in_sync (Offramp.handle (O := SinkManager.t T) (C := C) now m).
Proof.
  destruct m as [[ev input|sg|port id addr|port id tx|]|[ins|port ev]]; simpl.
  - apply preserves_bind; [apply sync_handle_event|auto with net].
  - apply preserves_bind; [apply sync_handle_signal|auto with net].
  - apply preserves_bind; [apply sync_handle_connect|auto with net].
  - apply sync_handle_disconnect.
  - apply preserves_bind; [by apply sync_modify|auto with net].
  - apply preserves_bind; auto with net.
  - apply preserves_bind; [auto with net|]. intros ds. apply preserves_bind; [|auto with net].
    destruct (ds !! port); auto with net.
Qed.

(** Nothing is connected: no pipeline, and none on a port of a linked offramp. *)
Definition unconnected t : Prop :=
  Offramp.pipelines t = ∅ ∧ map_Forall (λ _ ps, ps = []) (Offramp.dest_pipelines t).

Lemma has_dest_pipelines_spec (self : SinkManager.t T) :
  SinkManager.has_dest_pipelines self = false ↔ map_Forall (λ _ ps, ps = []) (SinkManager.dest_pipelines self).
Proof.
  unfold SinkManager.has_dest_pipelines. rewrite <-not_true_iff_false, existsb_exists, map_Forall_to_list.
  rewrite <-(hash_iter_perm _ (SinkManager.dest_pipelines self)), Forall_forall. split.
  - intros Hne [k ps] Hin. simpl. destruct (decide (ps = [])) as [|Hps]; [done|].
    destruct Hne. exists (k, ps). split; [by apply list_elem_of_In|]. simpl.
    by rewrite bool_decide_eq_false_2.
  - intros Hall ([k ps] & Hin%list_elem_of_In & Hps). specialize (Hall _ Hin). simpl in *. subst.
    done.
Qed.

Lemma no_pipelines_spec t tr :
  in_sync t tr → SinkManager.no_pipelines (offramp t) = true ↔ unconnected t.
Proof.
  intros [Hp Hd]. unfold SinkManager.no_pipelines, unconnected. rewrite Hp, Hd.
  rewrite andb_true_iff, bool_decide_eq_true, negb_true_iff. by rewrite has_dest_pipelines_spec.
Qed.
End sink_manager.

(** ** Samples *)
Module Demo.
(** A sink that fails events with a given number. *)
#[global] Instance sink : Sink N unit := {
  sink_on_event _ _ ev bad c :=
    (bad, c, if (EventId.event_id (Event.id ev) =? bad)%N then Err (EMsg "refused") else Ok None);
  sink_on_signal _ s := (s, Ok None);
  sink_terminate s := s;
  sink_is_active _ := true;
  sink_auto_ack _ := true;
}.
Definition pipeline_url : TremorUrl.t := SourceSpec.Sample.url Url.Pipeline "01" "out".
Definition offramp_task : OfframpTask (O := SinkManager.t N) (C := unit) :=
  mk_offramp (SourceSpec.Sample.url Url.Offramp "01" "in") 11 false
    (SinkManager.mk 4%N {[pipeline_url := SourceSpec.Sample.addr]} ∅) tt ∅
    (RampReporter.new (SourceSpec.Sample.url Url.Offramp "01" "in") None)
    {[pipeline_url := SourceSpec.Sample.addr]} ∅.
End Demo.

(** An offramp answers every transactional event: when it handles one, the
    sink having sent what it sends, each connected pipeline gets one insight
    with the id of the event, an acknowledgement if the sink took it and it
    acknowledges events automatically, a failure whenever the sink failed;
    nothing is sent for other events.  The task goes on and no connection
    changes. *)
Theorem offramp_answers {O C} `{!Offramp O C, !network, !hash_order TremorUrl.t} (event : Event.t)
    (input : string) (t t' : OfframpTask (O := O) (C := C)) (tr tr' : list packet) (r : result unit)
    (Hrun : Offramp.handle_event event input t tr = (t', tr', r)) :
  ∃ tr1 r1 ps,
    offramp_on_event (Offramp.codec_map t) input event (offramp t, Offramp.codec t) (flushed event t tr) =
      (offramp t', Offramp.codec t', tr1, r1) ∧
    r = Ok tt ∧ Offramp.pipelines t' = Offramp.pipelines t ∧
    Offramp.dest_pipelines t' = Offramp.dest_pipelines t ∧
    tr' = attempt tr1 ps ∧
    ps ≡ₚ if (failed r1 || auto_ack (offramp t')) && Event.transactional event then
            (λ p, PkCf (Addr.cf_addr p.2) (Insight (Event.ack_or_fail (negb (failed r1))
              (Event.ingest_ns event) (Event.id event)))) <$> map_to_list (Offramp.pipelines t)
          else [].
Proof. by apply (handle_event_spec event input). Qed.

Lemma offramp_answers_witness :
  let _ := open_network in let _ := some_order TremorUrl.t in let _ := some_order string in
  let ev := Event.set_transactional true (Event.set_id (EventId.new 7 0 4) Event.default) in
  let '(t', tr', r) := Offramp.handle_event ev "in" Demo.offramp_task [] in
  r = Ok tt ∧ tr' = [PkCf 2 (Insight (Event.cb_fail 0 (EventId.new 7 0 4)))].
Proof.
  intros Hn Hu Hs ev.
  destruct (Offramp.handle_event ev "in" Demo.offramp_task []) as [[t' tr'] r] eqn:Hrun.
  destruct (offramp_answers ev "in" Demo.offramp_task t' [] tr' r Hrun)
    as (tr1 & r1 & ps & Hev & Hr & _ & _ & Htr & Hps).
  split; [exact Hr|]. change tr' with ((t', tr', r).1.2). rewrite <-Hrun. vm_compute. reflexivity.
Defined.

(** C15: a pipeline that is disconnected from an offramp (on any port but that
    of metrics) ends the task of the offramp exactly if nothing is connected to
    it any more, in or out, once the answer to the request is sent. The task
    and the manager of its sink know the same pipelines before and after, and a
    pipeline on port [in] is taken out of the table of the task. (The task ends
    as well when it is told to terminate and when that answer cannot be
    sent: these are other arms of its loop and no subject here.) *)
Theorem offramp_ends_unconnected {T C} `{!Sink T C, !network, !hash_order TremorUrl.t, !hash_order string}
    (port : string) (id : TremorUrl.t) (tx : chan) (t t' : OfframpTask (O := SinkManager.t T) (C := C))
    (tr tr' : list packet) (r : result bool)
    (Hsync : in_sync t tr) (Hport : eq_ignore_ascii_case port METRICS = false)
    (Hrun : handle_disconnect port id tx t tr = (t', tr', r)) :
  in_sync t' tr' ∧ Offramp.pipelines t' =
    (if eq_ignore_ascii_case port IN then delete id (Offramp.pipelines t) else Offramp.pipelines t) ∧
  ∀ ended, r = Ok ended → (ended = true ↔ unconnected t').
Proof.
  pose proof (sync_handle_disconnect port id tx t tr Hsync) as Hs. rewrite Hrun in Hs.
  split; [done|]. destruct Hsync as [Hp Hd]. revert Hrun. unfold handle_disconnect. rewrite Hport.
  unfold mbind, proc_bind, modify, changing, sending, mret, proc_ret, on_offramp.
  destruct (eq_ignore_ascii_case port IN); simpl;
    match goal with |- context [SinkManager.no_pipelines ?o] => set (o1 := o) in *;
      set (t1 := set_offramp o1 _ _); assert (in_sync t1 tr) as Hs1 by
        (unfold t1, o1, in_sync; simpl; split; congruence) end;
    pose proof (no_pipelines_spec t1 tr Hs1) as Hspec; change (offramp t1) with o1 in Hspec;
    destruct (send (PkAnswer tx (SinkManager.no_pipelines o1)) tr) as [tr1 [u|e]];
    destruct (SinkManager.no_pipelines o1); simpl; intros [= <- <- <-]; (split; [done|]);
    intros ended [= <-]; exact Hspec.
Qed.

Lemma offramp_ends_unconnected_witness :
  let _ := open_network in let _ := some_order TremorUrl.t in let _ := some_order string in
  let '(t', tr', r) := handle_disconnect "in" Demo.pipeline_url 12 Demo.offramp_task [] in
  r = Ok true ∧ in_sync t' tr' ∧ tr' = [PkAnswer 12 true].
Proof.
  intros Hn Hu Hs.
  destruct (handle_disconnect "in" Demo.pipeline_url 12 Demo.offramp_task []) as [[t' tr'] r] eqn:Hrun.
  destruct (offramp_ends_unconnected "in" Demo.pipeline_url 12 Demo.offramp_task t' [] tr' r) as (H1 & _ & H3);
    [by split|reflexivity|exact Hrun|].
  split; [change r with ((t', tr', r).2); rewrite <-Hrun; vm_compute; reflexivity|]. split; [exact H1|].
  change tr' with ((t', tr', r).1.2). rewrite <-Hrun. vm_compute. reflexivity.
Defined.

(** ** Acknowledgements across tasks *)

(** C4: guaranteed delivery, from one end to the other.  Let a source have sent
    an event (or a batch with some of its events), and an offramp that
    acknowledges automatically handle it.  Then the pipeline in front of the
    offramp gets an insight; handling it, if its operators let it pass, the
    pipeline tells the transactional onramp; and the manager there reports to
    its source: the highest of its events in there is acknowledged if the sink
    took the event, the lowest failed if the sink failed. *)
Theorem delivery_reported {Op O S C C'} `{!Operator Op, !Offramp O C, !Codec C', !Source S C', !codecs,
    !hash_order string, !hash_order TremorUrl.t}
    (ev : Event.t) (input : string) (off : OfframpTask (O := O) (C := C)) (o : O) (c : C) (tr0 tr1 : list packet)
    (r1 : result unit) (pid sid : TremorUrl.t) (addr : Addr.t)
    (pipe : @Task Op) (g : ExecutableGraph Op) (onramp : chan)
    (src : SourceManager (S := S) (C := C')) (stream k : N)
    (Htx : Event.transactional ev = true) (Hauto : auto_ack o = true)
    (Hsink : offramp_on_event (Offramp.codec_map off) input ev (offramp off, Offramp.codec off)
      (@flushed O C open_network ev off tr0) = (o, c, tr1, r1))
    (Hpipe : Offramp.pipelines off !! pid = Some addr)
    (Hpass : ∀ ins, contraflow None ins (pipeline pipe) = (g, ins))
    (Hinput : inputs pipe !! sid = Some (true, IOnramp onramp))
    (Hids : (if failed r1 then EventId.get_min_by_source (Event.id ev) (uid src)
             else EventId.get_max_by_source (Event.id ev) (uid src)) = Some (stream, k)) :
  let _ := open_network in
  ∃ insight,
    PkCf (Addr.cf_addr addr) (Insight insight) ∈ (Offramp.handle_event ev input off tr0).1.2 ∧
    (∀ tr, PkOnramp onramp (OnCb (Event.cb insight) (Event.id insight)) ∈
       ((handle_cf_msg (Insight insight) pipe).2 tr).1) ∧
    ∀ tr, handle_msg (OnCb (Event.cb insight) (Event.id insight)) src tr =
      (set_source (if failed r1 then source_fail k (source src) else source_ack k (source src)) src, tr, Ok false).
Proof.
  intros Hopen.
  set (insight := Event.ack_or_fail (negb (failed r1)) (Event.ingest_ns ev) (Event.id ev)). exists insight.
  assert (Event.cb insight = (if failed r1 then CbFail else CbAck) ∧ Event.id insight = Event.id ev)
    as [Hcb Hid] by (unfold insight; by destruct (failed r1)).
  split_and!.
  - destruct (Offramp.handle_event ev input off tr0) as [[off' tr'] r] eqn:Hrun.
    apply handle_event_spec in Hrun as (tr2 & r2 & ps & Hev & _ & _ & _ & Htr & Hps).
    change (flushed ev off tr0) with (@flushed O C open_network ev off tr0) in Hev.
    rewrite Hsink in Hev. injection Hev as -> -> <- <-. simpl. rewrite Htr, attempt_open.
    apply elem_of_app. right. rewrite Hps. unfold told. rewrite Hauto, orb_true_r, Htx. simpl.
    apply list_elem_of_fmap. exists (pid, addr). split; [done|]. by apply elem_of_map_to_list.
  - intros tr. unfold handle_cf_msg.
    pose proof (handle_insight_inputs None insight (pipeline pipe) (inputs pipe)) as (ps & Ha & Hps).
    rewrite Hpass in Hps. destruct (handle_insight None insight (pipeline pipe) (inputs pipe)) as [g' a].
    simpl in *. rewrite Ha. simpl. rewrite attempt_open. apply elem_of_app. right. rewrite Hps.
    rewrite decide_False by (rewrite Hcb; by destruct (failed r1)).
    apply list_elem_of_bind. exists (sid, (true, IOnramp onramp)). split.
    + unfold insight_packet. simpl. constructor.
    + by apply elem_of_map_to_list.
  - intros tr. rewrite Hcb, Hid. destruct (failed r1); simpl; unfold mbind, proc_bind, gets; by rewrite Hids.
Qed.

Lemma delivery_reported_witness :
  let _ := stored_codecs in let _ := open_network in let _ := some_order string in
  let _ := some_order TremorUrl.t in
  let ev := Event.set_transactional true (Event.set_id (EventId.new 7 0 4) Event.default) in
  let pipe := set_inputs {[SourceSpec.Sample.url Onramp "01" "out" := (true, IOnramp 9)]}
    (init_task (sample_url "01" None) GraphSpec.Sample.graph) in
  ∃ insight,
    PkCf 2 (Insight insight) ∈ (Offramp.handle_event ev "in" Demo.offramp_task []).1.2 ∧
    (∀ tr, PkOnramp 9 (OnCb (Event.cb insight) (Event.id insight)) ∈
       ((handle_cf_msg (Insight insight) pipe).2 tr).1) ∧
    ∀ tr, handle_msg (OnCb (Event.cb insight) (Event.id insight)) SourceSpec.Sample.manager tr =
      (set_source [(4%N, false)] SourceSpec.Sample.manager, tr, Ok false).
Proof.
  intros Hc Hn Hs Hu ev pipe.
  exact (delivery_reported ev "in" Demo.offramp_task (SinkManager.mk 4%N {[Demo.pipeline_url := SourceSpec.Sample.addr]} ∅)
    tt [] [] (Err (EMsg "refused")) Demo.pipeline_url (SourceSpec.Sample.url Onramp "01" "out")
    SourceSpec.Sample.addr pipe (pipeline pipe) 9 SourceSpec.Sample.manager 0 4
    eq_refl eq_refl eq_refl eq_refl (λ _, eq_refl) eq_refl eq_refl).
Defined.

(** ** Connections across tasks *)

(** The management messages in a log for one channel. *)
Definition mgmt_to (c : chan) (tr : list packet) : list MgmtMsg :=
  omap (λ p, match p with PkMgmt c' m => if (c' =? c)%N then Some m else None | _ => None end) tr.

(** A pipeline that gets management messages, one after the other. *)
Definition handle_all {Op} `{!Operator Op, !network, !hash_order TremorUrl.t} (id : TremorUrl.t)
    (addr : Addr.t) (ms : list MgmtMsg) (t : @Task Op) : @Task Op :=
  foldl (λ t m, (handle_mgmt id addr m t).1) t ms.

(** linking a pipeline to another and unlinking it again.  The first tells
    the second that it is an input under its own id without port, and, when
    it disconnects, under its id as it was started with.  So what it was
    connected with is undone on both sides if its id has no port; started
    with a port in its id, it remains an input of the second pipeline for
    ever, and keeps getting its insights. *)
Theorem link_unlink_pipelines {Op} `{!Operator Op, !hash_order string, !hash_order TremorUrl.t}
    (ida idb url : TremorUrl.t) (a b : Addr.t) (port : string) (ta tb : @Task Op)
    (Hother : TremorUrl.same_instance_as (TremorUrl.trim_to_instance ida) url = false)
    (Hmetrics : TremorUrl.same_instance_as METRICS_PIPELINE url = false)
    (Hnew : Forall (λ d, d.1 ≠ url) (default [] (dests ta !! port)))
    (Hinput : inputs tb !! TremorUrl.trim_to_instance ida = None) :
  let _ := open_network in
  let '(ta1, link) := handle_mgmt ida a (ConnectOutput port url (TPipeline b)) ta in
  let '(ta2, unlink) := handle_mgmt ida a (DisconnectOutput port url) ta1 in
  let sent := ((_ ← link; unlink) []).1 in
  let tb' := handle_all idb b (mgmt_to (Addr.mgmt_addr b) sent) tb in
  (∀ p, default [] (dests ta2 !! p) ≡ₚ default [] (dests ta !! p)) ∧
  (ida = TremorUrl.trim_to_instance ida → tb' = tb) ∧
  (ida ≠ TremorUrl.trim_to_instance ida →
   inputs tb' !! TremorUrl.trim_to_instance ida = Some (true, IPipeline a)).
Proof.
  intros Hopen. cbn [handle_mgmt]. unfold connect_output.
  revert Hother Hinput. generalize (TremorUrl.trim_to_instance ida) as pid. intros pid Hother Hinput.
  rewrite Hother, Hmetrics. cbn [negb andb].
  unfold disconnect_output. cbn [Pipeline.set_dests dests]. rewrite lookup_insert_eq.
  rewrite disconnect_loop_last by done. cbn [Dest_from].
  unfold mbind, net_bind, logged, send_mgmt, send, mret, net_ret. cbn.
  rewrite N.eqb_refl. cbn. split_and!.
  - intros p. case_decide as Hv.
    + destruct (decide (p = port)) as [->|Hne]; [by rewrite lookup_delete_eq, Hv|].
      by rewrite lookup_delete_ne, lookup_insert_ne.
    + destruct (decide (p = port)) as [->|Hne]; [by rewrite lookup_insert_eq|].
      by rewrite !lookup_insert_ne.
  - intros Hid. unfold set_inputs. cbn. rewrite Hid at 1. rewrite delete_insert_id by done. by destruct tb.
  - intros Hne. by rewrite lookup_delete_ne, lookup_insert_eq by done.
Qed.

Lemma link_unlink_pipelines_witness :
  let _ := open_network in let _ := some_order string in let _ := some_order TremorUrl.t in
  let ida := sample_url "01" (Some "in"%string) in
  let url := sample_url "02" (Some "in"%string) in
  let t := init_task (sample_url "01" None) GraphSpec.Sample.graph in
  let b := Addr.mk 4 5 6 (sample_url "02" None) in
  let '(ta1, link) := handle_mgmt ida sample_addr (ConnectOutput OUT url (TPipeline b)) t in
  let '(ta2, unlink) := handle_mgmt ida sample_addr (DisconnectOutput OUT url) ta1 in
  let sent := ((_ ← link; unlink) []).1 in
  inputs (handle_all url b (mgmt_to 6 sent) t) !! sample_url "01" None = Some (true, IPipeline sample_addr).
Proof.
  intros Hn Hs Hu ida url t b.
  apply (link_unlink_pipelines ida url url sample_addr b OUT t t);
    [reflexivity|reflexivity|constructor|reflexivity|discriminate].
Defined.

Lemma handle_all_disconnects {Op} `{!Operator Op, !network, !hash_order TremorUrl.t} id addr pid ms
    (t : @Task Op) x :
  Forall (λ m, m = DisconnectInput pid) ms → x ≠ pid → inputs (handle_all id addr ms t) !! x = inputs t !! x.
Proof.
  intros Hms Hx. revert t. induction Hms as [|m ms -> _ IH]; intros t; [done|].
  unfold handle_all in *. cbn [foldl]. rewrite IH. cbn. by rewrite lookup_delete_ne.
Qed.

Lemma mgmt_to_app c tr1 tr2 : mgmt_to c (tr1 ++ tr2) = mgmt_to c tr1 ++ mgmt_to c tr2.
Proof. apply omap_app. Qed.

Lemma mgmt_to_disconnects c pid (l : list (TremorUrl.t * Addr.t)) :
  Forall (λ m, m = DisconnectInput pid)
    (mgmt_to c (l ≫= λ q, [PkMgmt (Addr.mgmt_addr q.2) (DisconnectInput pid)])).
Proof.
  induction l as [|q l IH]; [constructor|]. rewrite bind_cons, mgmt_to_app. apply Forall_app.
  split; [|done]. unfold mgmt_to. simpl. destruct (_ =? _)%N; by repeat constructor.
Qed.

(** What a manager sends and keeps when a pipeline is disconnected. *)
Lemma disconnect_pipeline_open {S C} `{!Codec C, !Source S C, !codecs} (pid : TremorUrl.t) (reply : chan)
    (src src' : SourceManager (S := S) (C := C)) tr tr' r :
  let _ := open_network in
  disconnect_pipeline pid reply src tr = (src', tr', r) →
  pipelines_out src' = filter (λ p, p.1 ≠ pid) (pipelines_out src) ∧
  ∃ b, tr' = (tr ++ ((filter (λ p, p.1 = pid) (pipelines_out src ++ pipelines_err src)) ≫= λ q,
    [PkMgmt (Addr.mgmt_addr q.2) (DisconnectInput pid)])) ++ [PkAnswer reply b].
Proof.
  intros Hopen. unfold disconnect_pipeline, mbind, proc_bind, gets, modify, sending.
  erewrite (each_send_open _ (λ q, [PkMgmt (Addr.mgmt_addr q.2) (DisconnectInput pid)])) by done.
  unfold send. cbn. case_bool_decide; cbn; try (case_bool_decide; cbn); intros [= <- <- <-]; cbn;
    (split; [done|]); by eexists.
Qed.

(** Linking an onramp to a pipeline and unlinking it: the manager of the source
    connects under its own id, but disconnects under the id of the pipeline.
    So the pipeline keeps it as an input, and sends it its insights. *)
Lemma disconnected_onramp_remains {Op S C} `{!Operator Op, !Codec C, !Source S C, !codecs,
    !hash_order string, !hash_order TremorUrl.t}
    (pid idp : TremorUrl.t) (p : Addr.t) (reply : chan) (src : SourceManager (S := S) (C := C))
    (tp : @Task Op) (Hid : pid ≠ source_id src) :
  let _ := open_network in
  let '(src1, tr1, _) := handle_msg (OnConnect OUT [(pid, p)]) src [] in
  let '(src2, tr2, _) := handle_msg (OnDisconnect pid reply) src1 tr1 in
  Forall (λ q, q.1 ≠ pid) (pipelines_out src2) ∧
  inputs (handle_all idp p (mgmt_to (Addr.mgmt_addr p) tr2) tp) !! source_id src =
    Some (is_transactional src, IOnramp (tx src)).
Proof.
  intros Hopen.
  assert (∃ src1, handle_msg (OnConnect OUT [(pid, p)]) src [] =
    (src1, [PkMgmt (Addr.mgmt_addr p) (ConnectInput (source_id src) (TOnramp (tx src)) (is_transactional src))],
     Ok false) ∧ source_id src1 = source_id src) as (src1 & -> & Hsid) by by eexists.
  cbn [handle_msg]. destruct (disconnect_pipeline pid reply src1 _) as [[src2 tr2] r] eqn:Hd.
  apply disconnect_pipeline_open in Hd as [Hout [b ->]]. split.
  - rewrite Hout. apply Forall_forall. intros q Hq. by apply list_elem_of_filter in Hq as [? _].
  - rewrite !mgmt_to_app. unfold mgmt_to at 1 3. simpl. rewrite N.eqb_refl, app_nil_r. simpl.
    pose proof (mgmt_to_disconnects (Addr.mgmt_addr p) pid
      (filter (λ q, q.1 = pid) (pipelines_out src1 ++ pipelines_err src1))) as Hms.
    assert (source_id src ≠ pid) as Hne by done.
    etrans; [exact (handle_all_disconnects idp p pid _ (handle_mgmt idp p (ConnectInput (source_id src)
      (TOnramp (tx src)) (is_transactional src)) tp).1 _ Hms Hne)|]. cbn. apply lookup_insert_eq.
Qed.

(** A linked offramp tells a new input that it is open as soon as it has an
    output.  A port whose pipelines have all left still counts as one. *)
Example emptied_port_counts :
  let _ := open_network in let _ := some_order TremorUrl.t in let _ := some_order string in
  let t := mk_offramp (SourceSpec.Sample.url Url.Offramp "01" "in") 11 true
    (SinkManager.mk 4%N {[Demo.pipeline_url := SourceSpec.Sample.addr]} ∅) tt ∅
    (RampReporter.new (SourceSpec.Sample.url Url.Offramp "01" "in") None)
    {[Demo.pipeline_url := SourceSpec.Sample.addr]} ∅ in
  let other := SourceSpec.Sample.url Url.Pipeline "02" "in" in
  let third := SourceSpec.Sample.url Url.Pipeline "03" "in" in
  let a := Addr.mk 20 21 22 other in
  let run := (_ ← Offramp.handle 5 (InMsg (OffConnect "out" other a));
              _ ← Offramp.handle 6 (InMsg (OffDisconnect "out" other 12));
              Offramp.handle 7 (InMsg (OffConnect "in" third a))) in
  omap (λ p, match p with PkCf c (Insight e) => Some (c, Event.cb e) | _ => None end) (run t []).1.2 =
    [(2%N, CbOpen); (21%N, CbOpen)].
Proof. vm_compute. reflexivity. Qed.
