(* ===== verification/World.v ===== *)
(** Deployment: artefacts are bound to instances, and instances are linked
    (src/system.rs, the [Artefact] implementations of
    src/repository/artefact.rs).

    A repository and a registry answer one message after the other; here a
    call is the message and its reply.  Texts of messages leave out the debug
    form of URLs. *)
From S2P Require Import Prelude Event Url Lifecycle Repository Registry Network.

Local Open Scope string_scope.

(** [METRICS_PIPELINE] *)
Definition METRICS_PIPELINE : TremorUrl.t :=
  TremorUrl.mk ScopePort "localhost" (Some Pipeline) (Some "system::metrics") (Some "system") (Some IN).

(** [PASSTHROUGH_PIPELINE], [STDOUT_OFFRAMP] and [STDERR_OFFRAMP] *)
Definition PASSTHROUGH_PIPELINE : TremorUrl.t :=
  TremorUrl.mk ScopePort "localhost" (Some Pipeline) (Some "system::passthrough") (Some "system") (Some IN).
Definition STDOUT_OFFRAMP : TremorUrl.t :=
  TremorUrl.mk ScopePort "localhost" (Some Offramp) (Some "system::stdout") (Some "system") (Some IN).
Definition STDERR_OFFRAMP : TremorUrl.t :=
  TremorUrl.mk ScopePort "localhost" (Some Offramp) (Some "system::stderr") (Some "system") (Some IN).

(** [str::replace] of a text that is not empty; [n] is fuel for the characters. *)
Fixpoint replace_loop (n : nat) (pat by_ s : string) : string :=
  match n with
  | O => s
  | S n =>
    match s with
    | EmptyString => ""
    | String c s' =>
      match strip_prefix pat s with
      | Some r => by_ +:+ replace_loop n pat by_ r
      | None => String c (replace_loop n pat by_ s')
      end
    end
  end.
Definition replace (pat by_ s : string) : string := replace_loop (S (String.length s)) pat by_ s.

(** ** Artefacts

    Of onramps and offramps only the id is looked at here; the type [C] is
    their configuration, [P] the pipelines. *)
Record ramp (C : Type) := Ramp { ramp_id : string; ramp_config : C }.
Arguments Ramp {C} ramp_id ramp_config.
Arguments ramp_id {C} _.
Arguments ramp_config {C} _.

(** The links as the hash map of the code is iterated over; so are the
    mappings of a binding. *)
Record binding := Binding_ {
  b_id : string;
  links : list (TremorUrl.t * list TremorUrl.t);
  mapping : option (TremorUrl.t * list (string * string));
}.

(** How tasks are started, what they answer to a disconnect, and the channel
    for the answer. *)
Class runtime (P C : Type) := {
  spawn_pipeline : list packet → P → TremorUrl.t → result Addr.t;
  spawn_onramp : list packet → ramp C → TremorUrl.t → result chan;
  spawn_offramp : list packet → ramp C → TremorUrl.t → result chan;
  answer : list packet → packet → result bool;
  fresh_chan : list packet → chan;
}.

(** ** The world *)
Record world (P C : Type) := World {
  repo_pipeline : Repository.t P;
  repo_onramp : Repository.t (ramp C);
  repo_offramp : Repository.t (ramp C);
  repo_binding : Repository.t binding;
  reg_pipeline : Registry.t P Addr.t;
  reg_onramp : Registry.t (ramp C) chan;
  reg_offramp : Registry.t (ramp C) chan;
  reg_binding : Registry.t binding binding;
}.
Arguments World {P C}.
Arguments repo_pipeline {P C}.
Arguments repo_onramp {P C}.
Arguments repo_offramp {P C}.
Arguments repo_binding {P C}.
Arguments reg_pipeline {P C}.
Arguments reg_onramp {P C}.
Arguments reg_offramp {P C}.
Arguments reg_binding {P C}.

Definition new_world {P C} : world P C := World ∅ ∅ ∅ ∅ ∅ ∅ ∅ ∅.

(** The two actors of one kind of artefact. *)
Record part (P C A R : Type) := Part {
  kind : ResourceType;
  repo : world P C → Repository.t A;
  set_repo : Repository.t A → world P C → world P C;
  reg : world P C → Registry.t A R;
  set_reg : Registry.t A R → world P C → world P C;
}.
Arguments Part {P C A R}.
Arguments kind {P C A R}.
Arguments repo {P C A R}.
Arguments set_repo {P C A R}.
Arguments reg {P C A R}.
Arguments set_reg {P C A R}.

Definition pipelines_ {P C} : part P C P Addr.t :=
  Part Pipeline repo_pipeline
    (λ r w, World r (repo_onramp w) (repo_offramp w) (repo_binding w) (reg_pipeline w) (reg_onramp w) (reg_offramp w) (reg_binding w))
    reg_pipeline
    (λ r w, World (repo_pipeline w) (repo_onramp w) (repo_offramp w) (repo_binding w) r (reg_onramp w) (reg_offramp w) (reg_binding w)).
Definition onramps_ {P C} : part P C (ramp C) chan :=
  Part Onramp repo_onramp
    (λ r w, World (repo_pipeline w) r (repo_offramp w) (repo_binding w) (reg_pipeline w) (reg_onramp w) (reg_offramp w) (reg_binding w))
    reg_onramp
    (λ r w, World (repo_pipeline w) (repo_onramp w) (repo_offramp w) (repo_binding w) (reg_pipeline w) r (reg_offramp w) (reg_binding w)).
Definition offramps_ {P C} : part P C (ramp C) chan :=
  Part Offramp repo_offramp
    (λ r w, World (repo_pipeline w) (repo_onramp w) r (repo_binding w) (reg_pipeline w) (reg_onramp w) (reg_offramp w) (reg_binding w))
    reg_offramp
    (λ r w, World (repo_pipeline w) (repo_onramp w) (repo_offramp w) (repo_binding w) (reg_pipeline w) (reg_onramp w) r (reg_binding w)).
Definition bindings_ {P C} : part P C binding binding :=
  Part Binding repo_binding
    (λ r w, World (repo_pipeline w) (repo_onramp w) (repo_offramp w) r (reg_pipeline w) (reg_onramp w) (reg_offramp w) (reg_binding w))
    reg_binding
    (λ r w, World (repo_pipeline w) (repo_onramp w) (repo_offramp w) (repo_binding w) (reg_pipeline w) (reg_onramp w) (reg_offramp w) r).

Section world.
Context {P C : Type} `{!hash_order TremorUrl.t, !network, !runtime P C}.
Implicit Types id : TremorUrl.t.

Definition returning {A} (r : result A) : proc (world P C) A := λ w tr, (w, tr, r).

(** ** Messages to the actors *)
Section actors.
Context {A R : Type} (p : part P C A R).

Definition repo_call {B} (m : Repository.msg A) (f : Repository.reply A → result B) : proc (world P C) B :=
  changing (λ w, let '(r, x) := Repository.handle (kind p) m (repo p w) in (set_repo p r w, f x)).
Definition reg_call {B} (m : Registry.msg A R) (f : Registry.reply A R → result B) : proc (world P C) B :=
  changing (λ w, let '(r, x) := Registry.handle (kind p) m (reg p w) in (set_reg p r w, f x)).

Definition no_reply {B} : result B := Err EUndefined.

Definition find_artefact id : proc (world P C) (option (Repository.wrapper A)) :=
  repo_call (Repository.FindArtefact id) (λ x, match x with Repository.RFound r => r | _ => no_reply end).
Definition publish_artefact id (system : bool) (a : A) : proc (world P C) A :=
  repo_call (Repository.PublishArtefact id system a) (λ x, match x with Repository.RArtefact r => r | _ => no_reply end).
Definition unpublish_artefact id : proc (world P C) A :=
  repo_call (Repository.UnpublishArtefact id) (λ x, match x with Repository.RArtefact r => r | _ => no_reply end).
(** [Repositories::bind_pipeline] and [unbind_pipeline], and so on *)
Definition register id : proc (world P C) A :=
  repo_call (Repository.RegisterInstance id id) (λ x, match x with Repository.RArtefact r => r | _ => no_reply end).
Definition unregister id : proc (world P C) A :=
  repo_call (Repository.UnregisterInstance id id) (λ x, match x with Repository.RArtefact r => r | _ => no_reply end).

Definition find_servant id : proc (world P C) (option R) :=
  reg_call (Registry.FindServant id) (λ x, match x with Registry.RFound r => r | _ => no_reply end).
Definition publish_servant id (s : Fsm.t A R) : proc (world P C) ActivationState :=
  reg_call (Registry.PublishServant id s) (λ x, match x with Registry.RState r => r | _ => no_reply end).
Definition unpublish_servant id : proc (world P C) ActivationState :=
  reg_call (Registry.UnpublishServant id) (λ x, match x with Registry.RState r => r | _ => no_reply end).
Definition transition_servant id (to : ActivationState) : proc (world P C) ActivationState :=
  reg_call (Registry.Transition id to) (λ x, match x with Registry.RState r => r | _ => no_reply end).

Definition not_found {B} id : proc (world P C) B := throw (EArtefactNotFound (TremorUrl.display id)).
Definition invalid {B} id (space : string) : proc (world P C) B :=
  throw (EMsg ("Invalid URI for instance " +:+ TremorUrl.display id +:+ space)).

(** [bind_pipeline], [bind_onramp] and [bind_offramp]: the artefact is
    spawned, registered as an instance, published as a servant, and linked to
    the metrics pipeline. *)
Definition bind_with (spawn : list packet → A → TremorUrl.t → result R)
    (link_metrics : TremorUrl.t → proc (world P C) bool) id : proc (world P C) ActivationState :=
  artefact ← find_artefact id;
  match artefact, TremorUrl.instance id with
  | Some artefact, Some _ =>
    servant ← (λ w tr, (w, tr, Fsm.new (spawn tr) (Repository.artefact artefact) id));
    register id ≫= λ _,
    res ← publish_servant id servant;
    link_metrics id ≫= λ _,
    mret res
  | None, _ => not_found id
  | _, None => invalid id " "
  end.
End actors.

(** A send whose error gets another text. *)
Definition or_message {A} (e : string) (m : proc (world P C) A) : proc (world P C) A :=
  r ← catch m;
  match r with Ok a => mret a | Err _ => throw (EMsg e) end.

(** ** Links of pipelines

    [mappings] is the hash map of the code in the order in which it is
    iterated over. *)
Definition connect_target (to : TremorUrl.t) : proc (world P C) ConnectTarget :=
  match TremorUrl.resource_type to with
  | Some Offramp =>
    o ← find_servant offramps_ to;
    match o with
    | Some o => mret (TOfframp o)
    | None => throw (EMsg ("Offramp " +:+ TremorUrl.display to +:+ " not found"))
    end
  | Some Pipeline =>
    o ← find_servant pipelines_ to;
    match o with Some o => mret (TPipeline o) | None => throw (EMsg "Pipeline not found") end
  | Some Onramp =>
    o ← find_servant onramps_ to;
    match o with
    | Some o => mret (TOnramp o)
    | None => throw (EMsg ("Onramp " +:+ TremorUrl.display to +:+ " not found"))
    end
  | _ => throw (EMsg ("Cannot link Pipeline to: " +:+ TremorUrl.display to +:+ "."))
  end.

Fixpoint connect_outputs (mappings : list (string * TremorUrl.t)) : proc (world P C) (list MgmtMsg) :=
  match mappings with
  | [] => mret []
  | (from, to) :: mappings =>
    target ← connect_target to;
    msgs ← connect_outputs mappings;
    mret (ConnectOutput from to target :: msgs)
  end.

Definition pipeline_link id (mappings : list (string * TremorUrl.t)) : proc (world P C) bool :=
  pipeline ← find_servant pipelines_ id;
  match pipeline with
  | Some pipeline =>
    msgs ← connect_outputs mappings;
    for_each (λ msg, or_message "Could not send to pipeline" (sending (send_mgmt pipeline msg))) msgs ≫= λ _,
    mret true
  | None => throw (EMsg "Pipeline not found")
  end.

Definition pipeline_unlink id (mappings : list (string * TremorUrl.t)) : proc (world P C) bool :=
  pipeline ← find_servant pipelines_ id;
  match pipeline with
  | Some pipeline =>
    for_each (λ '(from, to),
      match TremorUrl.resource_type to with
      | Some (Offramp | Pipeline | Onramp) =>
        or_message "Failed to unlink pipeline" (sending (send_mgmt pipeline (DisconnectOutput from to)))
      | _ => throw (EMsg "Source isn't an Offramp or Pipeline")
      end) mappings ≫= λ _,
    mret true
  | None => throw (EMsg "Pipeline not found")
  end.

(** ** Links of offramps and onramps *)

(** The answers to what was sent, when all of it has been. *)
Fixpoint answers (ps : list packet) : proc (world P C) bool :=
  match ps with
  | [] => mret false
  | p :: ps =>
    a ← (λ w tr, (w, tr, answer tr p));
    rest ← answers ps;
    mret (a || rest)
  end.
Fixpoint send_all (ps : list packet) : proc (world P C) unit :=
  match ps with
  | [] => mret tt
  | p :: ps => sending (send p) ≫= λ _, send_all ps
  end.
(** [bounded(mappings.len())] panics for a capacity of zero. *)
Definition reply_channel (n : nat) : proc (world P C) chan := λ w tr,
  (w, tr, match n with O => Err (EPanic "capacity must be positive") | S _ => Ok (fresh_chan tr) end).

Definition offramp_link id (mappings : list (TremorUrl.t * TremorUrl.t)) : proc (world P C) bool :=
  offramp ← find_servant offramps_ id;
  match offramp with
  | Some offramp =>
    for_each (λ '(pipeline_id, this),
      port ← (returning (TremorUrl.instance_port_required this));
      pipeline ← find_servant pipelines_ pipeline_id;
      match pipeline with
      | Some pipeline => sending (send (PkOfframp offramp (OffConnect port pipeline_id pipeline)))
      | None => mret tt
      end) mappings ≫= λ _,
    mret true
  | None => throw (EMsg ("Offramp " +:+ TremorUrl.display id +:+ " not found for linking,"))
  end.

Definition offramp_unlink id (mappings : list (TremorUrl.t * TremorUrl.t)) : proc (world P C) bool :=
  offramp ← find_servant offramps_ id;
  match offramp with
  | Some offramp =>
    tx ← reply_channel (length mappings);
    port ← (returning (TremorUrl.instance_port_required id));
    let ps := (λ m, PkOfframp offramp (OffDisconnect port m.2 tx)) <$> mappings in
    send_all ps ≫= λ _,
    answers ps
  | None => throw (EMsg ("Offramp " +:+ TremorUrl.display id +:+ " not found for unlinking,"))
  end.

Fixpoint onramp_connects (mappings : list (string * TremorUrl.t)) : proc (world P C) (list OnrampMsg) :=
  match mappings with
  | [] => mret []
  | (from, to) :: mappings =>
    match TremorUrl.resource_type to with
    | Some Pipeline =>
      pipeline ← find_servant pipelines_ to;
      match pipeline with
      | Some pipeline =>
        msgs ← onramp_connects mappings;
        mret (OnConnect from [(to, pipeline)] :: msgs)
      | None => throw (EMsg "Pipeline not found")
      end
    | _ => throw (EMsg "Destination isn't a Pipeline")
    end
  end.

Definition onramp_link (self : ramp C) id (mappings : list (string * TremorUrl.t)) : proc (world P C) bool :=
  if match TremorUrl.artefact id with Some a => negb (bool_decide (ramp_id self = a)) | None => false end then
    throw (EMsg ("Onramp for linking (" +:+ TremorUrl.display id +:+ ") is not from this artifact: " +:+ ramp_id self +:+ "."))
  else
    onramp ← find_servant onramps_ id;
    match onramp with
    | Some onramp =>
      msgs ← onramp_connects mappings;
      for_each (λ msg, sending (send (PkOnramp onramp msg))) msgs ≫= λ _,
      mret true
    | None => throw (EMsg "Pipeline not found")
    end.

Definition onramp_unlink id (mappings : list (string * TremorUrl.t)) : proc (world P C) bool :=
  onramp ← find_servant onramps_ id;
  match onramp with
  | Some onramp =>
    tx ← reply_channel (length mappings);
    let ps := (λ m, PkOnramp onramp (OnDisconnect m.2 tx)) <$> mappings in
    send_all ps ≫= λ _,
    answers ps
  | None => throw (EMsg ("Unlinking failed Onramp " +:+ TremorUrl.display id +:+ " not found "))
  end.

(** ** Pipelines of the world *)
Definition link_existing_pipeline id (mappings : list (string * TremorUrl.t)) : proc (world P C) bool :=
  a ← find_artefact pipelines_ id;
  match a with Some _ => pipeline_link id mappings | None => not_found id end.

Definition bind_pipeline : TremorUrl.t → proc (world P C) ActivationState :=
  bind_with pipelines_ spawn_pipeline
    (λ id, link_existing_pipeline (TremorUrl.set_port METRICS id) [(METRICS, METRICS_PIPELINE)]).

Definition unbind_pipeline id : proc (world P C) ActivationState :=
  a ← find_artefact pipelines_ id;
  match a, TremorUrl.instance id with
  | Some _, Some _ => r ← unpublish_servant pipelines_ id; unregister pipelines_ id ≫= λ _, mret r
  | None, _ => not_found id
  | _, None => invalid id ""
  end.

Definition link_pipeline id (mappings : list (string * TremorUrl.t)) : proc (world P C) bool :=
  a ← find_artefact pipelines_ id;
  match a with
  | Some _ =>
    s ← find_servant pipelines_ id;
    (match s with None => bind_pipeline id ≫= λ _, mret tt | Some _ => mret tt end) ≫= λ _,
    pipeline_link id mappings
  | None => not_found id
  end.

Definition unlink_pipeline id (mappings : list (string * TremorUrl.t)) : proc (world P C) bool :=
  a ← find_artefact pipelines_ id;
  match a with
  | Some _ =>
    r ← catch (pipeline_unlink id mappings);
    s ← find_servant pipelines_ id;
    (match s with Some _ => unbind_pipeline id ≫= λ _, mret tt | None => mret tt end) ≫= λ _,
    (returning (r))
  | None => not_found id
  end.

Definition ensure_pipeline id : proc (world P C) unit :=
  s ← find_servant pipelines_ id;
  match s with None => bind_pipeline id ≫= λ _, mret tt | Some _ => mret tt end.

(** ** Onramps of the world *)
Definition link_existing_onramp id (mappings : list (string * TremorUrl.t)) : proc (world P C) bool :=
  a ← find_artefact onramps_ id;
  match a with Some a => onramp_link (Repository.artefact a) id mappings | None => not_found id end.

Definition bind_onramp : TremorUrl.t → proc (world P C) ActivationState :=
  bind_with onramps_ spawn_onramp
    (λ id, link_existing_onramp (TremorUrl.set_port METRICS id) [(METRICS, METRICS_PIPELINE)]).

(** The instance is unregistered even if there is no servant. *)
Definition unbind_ramp {A R} (p : part P C A R) id : proc (world P C) ActivationState :=
  a ← find_artefact p id;
  match a, TremorUrl.instance id with
  | Some _, Some _ =>
    r ← catch (unpublish_servant p id);
    unregister p id ≫= λ _,
    (returning (r))
  | None, _ => not_found id
  | _, None => invalid id " "
  end.
Definition unbind_onramp : TremorUrl.t → proc (world P C) ActivationState := unbind_ramp onramps_.

Definition link_onramp id (mappings : list (string * TremorUrl.t)) : proc (world P C) bool :=
  a ← find_artefact onramps_ id;
  match a with
  | Some a =>
    s ← find_servant onramps_ id;
    (match s with None => bind_onramp id ≫= λ _, mret tt | Some _ => mret tt end) ≫= λ _,
    onramp_link (Repository.artefact a) id mappings
  | None => not_found id
  end.

Definition unlink_onramp id (mappings : list (string * TremorUrl.t)) : proc (world P C) bool :=
  a ← find_artefact onramps_ id;
  match a with
  | Some _ =>
    r ← onramp_unlink id mappings;
    (if r : bool then unbind_onramp id ≫= λ _, mret tt else mret tt) ≫= λ _,
    mret r
  | None => not_found id
  end.

Definition ensure_onramp id : proc (world P C) unit :=
  s ← find_servant onramps_ id;
  match s with None => bind_onramp id ≫= λ _, mret tt | Some _ => mret tt end.

(** ** Offramps of the world *)
Definition link_existing_offramp id (mappings : list (TremorUrl.t * TremorUrl.t)) : proc (world P C) bool :=
  a ← find_artefact offramps_ id;
  match a with Some _ => offramp_link id mappings | None => not_found id end.

Definition bind_offramp : TremorUrl.t → proc (world P C) ActivationState :=
  bind_with offramps_ spawn_offramp
    (λ id, link_existing_offramp id [(METRICS_PIPELINE, TremorUrl.set_port METRICS id)]).
Definition unbind_offramp : TremorUrl.t → proc (world P C) ActivationState := unbind_ramp offramps_.

Definition link_offramp id (mappings : list (TremorUrl.t * TremorUrl.t)) : proc (world P C) bool :=
  a ← find_artefact offramps_ id;
  match a with
  | Some _ =>
    s ← find_servant offramps_ id;
    (match s with None => bind_offramp id ≫= λ _, mret tt | Some _ => mret tt end) ≫= λ _,
    offramp_link id mappings
  | None => not_found id
  end.

Definition unlink_offramp id (mappings : list (TremorUrl.t * TremorUrl.t)) : proc (world P C) bool :=
  a ← find_artefact offramps_ id;
  match a with
  | Some _ =>
    r ← offramp_unlink id mappings;
    (if r : bool then unbind_offramp id ≫= λ _, mret tt else mret tt) ≫= λ _,
    mret r
  | None => not_found id
  end.

Definition ensure_offramp id : proc (world P C) unit :=
  s ← find_servant offramps_ id;
  match s with None => bind_offramp id ≫= λ _, mret tt | Some _ => mret tt end.

(** ** Bindings *)
Definition LINKING_ERROR : string :=
  "links require the form of onramp -> pipeline or pipeline -> offramp or pipeline -> pipeline or pipeline -> onramp or offramp -> pipeline".

(** The instance of a link with the mappings put in: every mapping starts from
    the instance again, so that the last one decides. *)
Definition map_instance (mappings : list (string * string)) (inst : string) : string :=
  foldl (λ _ m, replace ("%7B" +:+ m.1 +:+ "%7D") m.2 inst) "" mappings.

(** The links of a binding, sorted by the artefacts they connect. *)
Record sorted_links := SortedLinks {
  sl_pipelines : list (TremorUrl.t * TremorUrl.t);
  sl_onramps : list (TremorUrl.t * TremorUrl.t);
  sl_offramps : list (TremorUrl.t * TremorUrl.t);
}.

Definition sort_link (from to : TremorUrl.t) (l : sorted_links) : result sorted_links :=
  match TremorUrl.resource_type from, TremorUrl.resource_type to with
  | Some Onramp, Some Pipeline => Ok (SortedLinks (sl_pipelines l) (sl_onramps l ++ [(from, to)]) (sl_offramps l))
  | Some Pipeline, Some (Offramp | Pipeline | Onramp) =>
    Ok (SortedLinks (sl_pipelines l ++ [(from, to)]) (sl_onramps l) (sl_offramps l))
  | Some Offramp, Some Pipeline => Ok (SortedLinks (sl_pipelines l) (sl_onramps l) (sl_offramps l ++ [(from, to)]))
  | _, _ => Err (EMsg LINKING_ERROR)
  end.

Fixpoint resolve_dsts (mappings : list (string * string)) (from : TremorUrl.t) (dsts : list TremorUrl.t)
    (tos : list TremorUrl.t) (l : sorted_links) : result (list TremorUrl.t * sorted_links) :=
  match dsts with
  | [] => Ok (tos, l)
  | dst :: dsts =>
    match TremorUrl.instance dst with
    | Some inst =>
      let to := TremorUrl.set_instance (map_instance mappings inst) dst in
      l ← sort_link from to l;
      resolve_dsts mappings from dsts (tos ++ [to]) l
    | None => resolve_dsts mappings from dsts tos l
    end
  end.

(** [HashMap::insert] in a map that is kept as a list *)
Fixpoint put {V} (k : TremorUrl.t) (v : V) (m : list (TremorUrl.t * V)) : list (TremorUrl.t * V) :=
  match m with
  | [] => [(k, v)]
  | (k', v') :: m => if decide (k' = k) then (k, v) :: m else (k', v') :: put k v m
  end.

Fixpoint resolve_links (mappings : list (string * string)) (ls : list (TremorUrl.t * list TremorUrl.t))
    (res : list (TremorUrl.t * list TremorUrl.t)) (l : sorted_links) :
    result (list (TremorUrl.t * list TremorUrl.t) * sorted_links) :=
  match ls with
  | [] => Ok (res, l)
  | (src, dsts) :: ls =>
    match TremorUrl.instance src with
    | Some inst =>
      let from := TremorUrl.set_instance (map_instance mappings inst) src in
      x ← resolve_dsts mappings from dsts [] l;
      resolve_links mappings ls (put from x.1 res) x.2
    | None => resolve_links mappings ls res l
    end
  end.

Definition port_of id : proc (world P C) string := returning (TremorUrl.instance_port_required id).

Definition link_offramp_step (l : TremorUrl.t * TremorUrl.t) : proc (world P C) unit :=
  let '(from, to) := l in
  ensure_pipeline to ≫= λ _,
  ensure_offramp from ≫= λ _,
  link_offramp from [(to, from)] ≫= λ _,
  mret tt.
Definition link_pipeline_step (l : TremorUrl.t * TremorUrl.t) : proc (world P C) unit :=
  let '(from, to) := l in
  match TremorUrl.resource_type to with
  | Some Offramp => ensure_offramp to
  | Some Pipeline => ensure_pipeline to
  | Some Onramp => ensure_onramp to
  | _ => mret tt
  end ≫= λ _,
  ensure_pipeline from ≫= λ _,
  port ← port_of from;
  link_pipeline from [(port, to)] ≫= λ _,
  match TremorUrl.resource_type to with
  | Some Offramp => link_offramp to [(from, to)] ≫= λ _, mret tt
  | _ => mret tt
  end.
Definition link_onramp_step (l : TremorUrl.t * TremorUrl.t) : proc (world P C) unit :=
  let '(from, to) := l in
  ensure_pipeline to ≫= λ _,
  ensure_onramp from ≫= λ _,
  port ← port_of from;
  link_onramp from [(port, to)] ≫= λ _,
  mret tt.

(** [Binding::link] *)
Definition binding_link (self : binding) id (mappings : list (string * string)) : proc (world P C) binding :=
  x ← (returning (resolve_links mappings (links self) [] (SortedLinks [] [] [])));
  let '(res, l) := x in
  for_each link_offramp_step (sl_offramps l) ≫= λ _,
  for_each link_pipeline_step (sl_pipelines l) ≫= λ _,
  for_each link_onramp_step (sl_onramps l) ≫= λ _,
  mret (Binding_ (b_id self) res (Some (id, mappings))).

(** A map with one key that every destination is inserted under. *)
Definition one_mapping {K} (key : result K) (tos : list TremorUrl.t) : result (list (K * TremorUrl.t)) :=
  match last tos with
  | None => Ok []
  | Some to => k ← key; Ok [(k, to)]
  end.

Definition unlink_onramp_step (l : TremorUrl.t * list TremorUrl.t) : proc (world P C) unit :=
  let '(from, tos) := l in
  match TremorUrl.resource_type from with
  | Some Onramp =>
    mappings ← (returning (one_mapping (TremorUrl.instance_port_required from) tos));
    unlink_onramp from mappings ≫= λ _, mret tt
  | _ => mret tt
  end.
Definition unlink_to (from to : TremorUrl.t) : proc (world P C) unit :=
  port ← port_of from;
  unlink_pipeline from [(port, to)] ≫= λ _,
  match TremorUrl.resource_type to with
  | Some Offramp => unlink_offramp to [(to, from)] ≫= λ _, mret tt
  | _ => mret tt
  end.
(** The pipelines that are already unlinked are not unlinked again. *)
Fixpoint unlink_pipelines (ls : list (TremorUrl.t * list TremorUrl.t)) (unlinked : list TremorUrl.t) :
    proc (world P C) unit :=
  match ls with
  | [] => mret tt
  | (from, tos) :: ls =>
    let from_instance := TremorUrl.trim_to_instance from in
    match TremorUrl.resource_type from with
    | Some Pipeline =>
      if decide (from_instance ∈ unlinked) then unlink_pipelines ls unlinked
      else for_each (unlink_to from) tos ≫= λ _, unlink_pipelines ls (from_instance :: unlinked)
    | _ => unlink_pipelines ls unlinked
    end
  end.
Definition unlink_offramp_step (l : TremorUrl.t * list TremorUrl.t) : proc (world P C) unit :=
  let '(from, tos) := l in
  match TremorUrl.resource_type from with
  | Some Offramp =>
    mappings ← (returning (one_mapping (Ok from) tos));
    unlink_offramp from mappings ≫= λ _, mret tt
  | _ => mret tt
  end.

(** [Binding::unlink] *)
Definition binding_unlink (self : binding) : proc (world P C) bool :=
  for_each unlink_onramp_step (links self) ≫= λ _,
  unlink_pipelines (links self) [] ≫= λ _,
  for_each unlink_offramp_step (links self) ≫= λ _,
  mret true.

(** ** Bindings of the world *)
Definition bind_binding_a id (artefact : binding) : proc (world P C) ActivationState :=
  match TremorUrl.instance id with
  | Some _ =>
    servant ← (returning (Fsm.new (λ b _, Ok b) artefact id));
    register bindings_ id ≫= λ _,
    publish_servant bindings_ id servant
  | None => invalid id ""
  end.
Definition unbind_binding_a id : proc (world P C) ActivationState :=
  match TremorUrl.instance id with
  | Some _ =>
    servant ← unpublish_servant bindings_ id;
    unregister bindings_ id ≫= λ _,
    mret servant
  | None => invalid id ""
  end.

Definition link_binding id (mappings : list (string * string)) : proc (world P C) binding :=
  a ← find_artefact bindings_ id;
  match a with
  | Some a =>
    r ← binding_link (Repository.artefact a) id mappings;
    s ← find_servant bindings_ id;
    (match s with None => bind_binding_a id r ≫= λ _, mret tt | Some _ => mret tt end) ≫= λ _,
    mret r
  | None => not_found id
  end.

Definition unlink_binding id : proc (world P C) binding :=
  s ← find_servant bindings_ id;
  match s with
  | Some b =>
    x ← binding_unlink b;
    (if x : bool then unbind_binding_a id ≫= λ _, mret tt else mret tt) ≫= λ _,
    mret b
  | None => not_found id
  end.

(** [to_config]: the configuration of what is there. *)
Definition serialize {A R} (p : part P C A R) : proc (world P C) (list A) :=
  repo_call p Repository.SerializeArtefacts (λ x, match x with Repository.RArtefacts l => Ok l | _ => no_reply end).
Definition serialize_mappings : proc (world P C) (list (TremorUrl.t * list (string * string))) :=
  reg_call bindings_ Registry.SerializeServants
    (λ x, match x with Registry.RServants l => Ok (foldl (λ acc kv, put kv.1 kv.2 acc) [] (omap mapping l)) | _ => no_reply end).
Definition to_config : 
    proc (world P C) (list (ramp C) * list (ramp C) * list (string * list (TremorUrl.t * list TremorUrl.t)) *
                      list (TremorUrl.t * list (string * string))) :=
  onramp ← serialize onramps_;
  offramp ← serialize offramps_;
  binding ← serialize bindings_;
  mapping ← serialize_mappings;
  mret (onramp, offramp, (λ b, (b_id b, links b)) <$> binding, mapping).

(** ** Starting

    [register_system]; what the texts of the system pipelines and offramps in
    the source are parsed to is given. *)
Definition required {A} (e : string) (m : proc (world P C) (option A)) : proc (world P C) unit :=
  o ← m;
  match o with Some _ => mret tt | None => throw (EMsg e) end.

Definition register_system (artefact_metrics artefact_passthrough : P) (stdout stderr : ramp C) :
    proc (world P C) unit :=
  publish_artefact pipelines_ METRICS_PIPELINE true artefact_metrics ≫= λ _,
  bind_pipeline METRICS_PIPELINE ≫= λ _,
  required "Failed to initialize metrics pipeline." (find_servant pipelines_ METRICS_PIPELINE) ≫= λ _,
  publish_artefact pipelines_ PASSTHROUGH_PIPELINE true artefact_passthrough ≫= λ _,
  publish_artefact offramps_ STDOUT_OFFRAMP true stdout ≫= λ _,
  bind_offramp STDOUT_OFFRAMP ≫= λ _,
  required "Failed to initialize stdout offramp." (find_servant offramps_ STDOUT_OFFRAMP) ≫= λ _,
  publish_artefact offramps_ STDERR_OFFRAMP true stderr ≫= λ _,
  bind_offramp STDERR_OFFRAMP ≫= λ _,
  required "Failed to initialize stderr offramp." (find_servant offramps_ STDERR_OFFRAMP).

(** [load_cfg_file], of a configuration that is read ([IncarnatedConfig]): the
    number of things that were loaded. *)
Record config := Config {
  onramps : list (ramp C);
  offramps : list (ramp C);
  cfg_bindings : list (string * list (TremorUrl.t * list TremorUrl.t));
  mappings : list (TremorUrl.t * list (string * string));
}.
Context `{!url_crate}.

Definition load_offramp (o : ramp C) : proc (world P C) unit :=
  id ← returning (TremorUrl.parse ("/offramp/" +:+ ramp_id o));
  publish_artefact offramps_ id false o ≫= λ _, mret tt.
Definition load_onramp (o : ramp C) : proc (world P C) unit :=
  id ← returning (TremorUrl.parse ("/onramp/" +:+ ramp_id o));
  publish_artefact onramps_ id false o ≫= λ _, mret tt.
Definition load_binding (b : string * list (TremorUrl.t * list TremorUrl.t)) : proc (world P C) unit :=
  id ← returning (TremorUrl.parse ("/binding/" +:+ b.1));
  publish_artefact bindings_ id false (Binding_ b.1 b.2 None) ≫= λ _, mret tt.
Definition load_config (c : config) : proc (world P C) nat :=
  for_each load_offramp (offramps c) ≫= λ _,
  for_each load_onramp (onramps c) ≫= λ _,
  for_each load_binding (cfg_bindings c) ≫= λ _,
  for_each (λ m, link_binding m.1 m.2 ≫= λ _, mret tt) (mappings c) ≫= λ _,
  mret (length (offramps c) + length (onramps c) + length (cfg_bindings c) + length (mappings c))%nat.

(** [load_query_file] of a query that is parsed: its id is that of its
    directive or the stem of the file. *)
Definition load_query (query_id : option string) (file_id : string) (query : P) : proc (world P C) nat :=
  id ← returning (TremorUrl.parse ("/pipeline/" +:+ default file_id query_id));
  publish_artefact pipelines_ id false query ≫= λ _, mret 1%nat.
End world.
