(* ===== verification/WorldSpec.v ===== *)
(** Deployment: what binding, linking and their opposites keep and do. *)
From S2P Require Import Prelude Event Url Lifecycle Repository Registry Network World.

Local Open Scope string_scope.

(** The parts of a world, each with its repository and its registry. *)
Inductive is_part {P C} : ∀ {A R : Type}, part P C A R → Prop :=
  | part_pipeline : is_part pipelines_
  | part_onramp : is_part onramps_
  | part_offramp : is_part offramps_
  | part_binding : is_part bindings_.
#[local] Hint Constructors is_part : core.

(** Every servant is an instance of its artefact. *)
Definition consistent {A R} (kind : ResourceType) (rp : Repository.t A) (rg : Registry.t A R) : Prop :=
  repo_wf kind rp ∧
  ∀ sid v, rg !! sid = Some v → servant_id kind sid = Ok sid ∧
    ∃ w, rp !! TremorUrl.trim_to_artefact sid = Some w ∧ sid ∈ Repository.instances w.

(** ** One repository with its registry *)
Section consistent.
Context `{!hash_order TremorUrl.t} {A R : Type} (kind : ResourceType).
Implicit Types (rp : Repository.t A) (rg : Registry.t A R).

Lemma servant_artefact u sid :
  servant_id kind u = Ok sid → ∀ aid, artefact_id kind u = Ok aid → aid = TremorUrl.trim_to_artefact sid.
Proof. by intros (-> & _)%servant_id_Ok aid (-> & _)%artefact_id_Ok. Qed.

(** No message but that to unregister takes an instance from an artefact. *)
Lemma consistent_repo m rp rg :
  consistent kind rp rg → (∀ aid s, ¬ unregisters kind m aid s) →
  consistent kind (Repository.handle kind m rp).1 rg.
Proof.
  intros [Hwf Hc] Hm. split; [by apply handle_wf|]. intros sid v Hv.
  destruct (Hc sid v Hv) as (Hs & w & Hw & Hin). split; [done|].
  destruct (handle_entry kind m rp _ w Hw) as [(w' & Hw' & _ & _ & Hi)|(_ & _ & Hnil)].
  - exists w'. split; [done|]. destruct (Hi sid Hin) as [|[]%Hm]. done.
  - rewrite Hnil in Hin. by apply not_elem_of_nil in Hin.
Qed.

(** No message but that to publish makes a servant. *)
Lemma consistent_reg m rp rg :
  consistent kind rp rg → (∀ id v, m ≠ Registry.PublishServant id v) →
  consistent kind rp (Registry.handle kind m rg).1.
Proof.
  intros [Hwf Hc] Hm. split; [done|]. intros sid v Hv.
  assert (∃ v', rg !! sid = Some v') as [v' Hv']; [|by apply (Hc sid v')].
  destruct m as [|id|id s|id|id to]; cbn [Registry.handle] in Hv; [by eauto|by eauto|by destruct (Hm id s)| |].
  - destruct (servant_id kind id); [|by eauto]. unfold Registry.unpublish in Hv.
    destruct (rg !! _) eqn:?; cbn in Hv; [|by eauto]. apply lookup_delete_Some in Hv as [_ ?]. by eauto.
  - unfold Registry.find in Hv. change (TremorUrl.trim_to_instance (TremorUrl.trim_to_instance id))
      with (TremorUrl.trim_to_instance id) in Hv.
    destruct (rg !! _) as [s|] eqn:Hs; [|by eauto].
    destruct (Fsm.transition to s) as [[s' h] r]. cbn in Hv.
    apply lookup_insert_Some in Hv as [[<- _]|[_ ?]]; by eauto.
Qed.

(** Registering an instance and then publishing its servant. *)
Lemma consistent_bind id v rp rg a :
  consistent kind rp rg → (Repository.handle kind (Repository.RegisterInstance id id) rp).2 = Repository.RArtefact (Ok a) →
  consistent kind (Repository.handle kind (Repository.RegisterInstance id id) rp).1
    (Registry.handle kind (Registry.PublishServant id v) rg).1.
Proof.
  intros Hc Ha.
  assert (consistent kind (Repository.handle kind (Repository.RegisterInstance id id) rp).1 rg) as [Hwf Hc']
    by (apply consistent_repo; [done|by intros ?? []]).
  split; [done|]. intros sid w Hw. cbn [Registry.handle] in Hw.
  destruct (servant_id kind id) as [sid'|] eqn:Hs; [|by apply (Hc' sid w)].
  destruct (servant_id_idemp _ _ _ Hs) as [Hs' Ht].
  assert (rg !! sid = Some w ∨ sid = sid') as [?| ->]; [|by apply (Hc' sid w)|].
  { unfold Registry.publish in Hw. rewrite Ht in Hw.
    destruct (rg !! sid'); cbn in Hw; apply lookup_insert_Some in Hw as [[? _]|[_ ?]]; by eauto. }
  split; [done|]. destruct (artefact_id kind id) as [aid|e] eqn:Haid.
  2: { cbn [Repository.handle] in Ha. by rewrite Haid in Ha. }
  rewrite <-(servant_artefact _ _ Hs _ Haid). rewrite (register_entry kind id id aid sid') in Ha |- * by done.
  destruct (rp !! aid) as [w0|]; [|done]. cbn. rewrite lookup_insert, decide_True by done.
  eexists. split; [done|]. cbn. apply elem_of_app. right. by apply list_elem_of_singleton.
Qed.

(** Unpublishing a servant, whether it is there or not, and then unregistering
    its instance. *)
Lemma consistent_unbind id rp rg :
  consistent kind rp rg →
  consistent kind (Repository.handle kind (Repository.UnregisterInstance id id) rp).1
    (Registry.handle kind (Registry.UnpublishServant id) rg).1.
Proof.
  intros [Hwf Hc]. split; [by apply handle_wf|]. intros sid v Hv.
  assert (rg !! sid = Some v ∧ servant_id kind id ≠ Ok sid) as [Hv' Hne].
  { cbn [Registry.handle] in Hv. destruct (servant_id kind id) as [sid'|] eqn:Hs; [|done].
    destruct (servant_id_idemp _ _ _ Hs) as [_ Ht]. unfold Registry.unpublish in Hv. rewrite Ht in Hv.
    destruct (rg !! sid') eqn:Hl; cbn in Hv.
    - apply lookup_delete_Some in Hv as [? ?]. split; [done|]. congruence.
    - split; [done|]. congruence. }
  destruct (Hc sid v Hv') as (Hs & w & Hw & Hin). split; [done|].
  destruct (handle_entry kind (Repository.UnregisterInstance id id) rp _ w Hw) as [(w' & Hw' & _ & _ & Hi)|(_ & _ & Hnil)].
  - exists w'. split; [done|]. by destruct (Hi sid Hin) as [|[_ ?]].
  - rewrite Hnil in Hin. by apply not_elem_of_nil in Hin.
Qed.
End consistent.

Section world.
Context {P C : Type} `{!hash_order TremorUrl.t, !network, !runtime P C, !url_crate}.
Implicit Types id : TremorUrl.t.

Definition world_ok (w : world P C) (_ : list packet) : Prop :=
  consistent Pipeline (repo_pipeline w) (reg_pipeline w) ∧ consistent Onramp (repo_onramp w) (reg_onramp w) ∧
  consistent Offramp (repo_offramp w) (reg_offramp w) ∧ consistent Binding (repo_binding w) (reg_binding w).

(** The two actors of a part are all that its calls see. *)
Lemma part_ok {A R} (p : part P C A R) w tr : is_part p → world_ok w tr → consistent (kind p) (repo p w) (reg p w).
Proof. intros Hp (? & ? & ? & ?). by destruct Hp. Qed.
Lemma part_set {A R} (p : part P C A R) w tr rp rg :
  is_part p → world_ok w tr → consistent (kind p) rp rg → world_ok (set_reg p rg (set_repo p rp w)) tr.
Proof. intros Hp (? & ? & ? & ?). revert rp rg. destruct Hp; intros rp rg ?; unfold world_ok; by split_and!. Qed.
Lemma part_get {A R} (p : part P C A R) w rp rg :
  is_part p → repo p (set_repo p rp w) = rp ∧ reg p (set_repo p rp w) = reg p w ∧
  repo p (set_reg p rg w) = repo p w ∧ reg p (set_reg p rg w) = rg.
Proof. intros Hp. revert w rp rg. by destruct Hp. Qed.
Lemma part_same {A R} (p : part P C A R) w :
  is_part p → set_repo p (repo p w) w = w ∧ set_reg p (reg p w) w = w.
Proof. intros Hp. revert w. destruct Hp; by intros []. Qed.
Lemma part_comm {A R} (p : part P C A R) w rp rg :
  is_part p → set_repo p rp (set_reg p rg w) = set_reg p rg (set_repo p rp w) ∧
  ∀ rp', set_repo p rp' (set_repo p rp w) = set_repo p rp' w.
Proof. intros Hp. revert w rp rg. by destruct Hp. Qed.

(** Calls of the two actors. *)
#[local] Arguments Registry.handle : simpl never.
#[local] Arguments Repository.handle : simpl never.

Lemma preserves_repo_call {A R B} (p : part P C A R) m (f : Repository.reply A → result B) :
  is_part p → (∀ aid s, ¬ unregisters (kind p) m aid s) → preserves world_ok (repo_call p m f).
Proof.
  intros Hp Hm. apply preserves_changing. intros w tr Hw.
  pose proof (consistent_repo (kind p) m _ _ (part_ok p w tr Hp Hw) Hm) as Hc.
  destruct (Repository.handle (kind p) m (repo p w)) as [rp x]. cbn in Hc |- *.
  rewrite <-(proj2 (part_same p (set_repo p rp w) Hp)).
  destruct (part_get p w rp (reg p w) Hp) as (_ & -> & _). by apply part_set.
Qed.
Lemma preserves_reg_call {A R B} (p : part P C A R) m (f : Registry.reply A R → result B) :
  is_part p → (∀ id v, m ≠ Registry.PublishServant id v) → preserves world_ok (reg_call p m f).
Proof.
  intros Hp Hm. apply preserves_changing. intros w tr Hw.
  pose proof (consistent_reg (kind p) m _ _ (part_ok p w tr Hp Hw) Hm) as Hc.
  destruct (Registry.handle (kind p) m (reg p w)) as [rg x]. cbn in Hc |- *.
  rewrite <-(proj1 (part_same p w Hp)). by apply part_set.
Qed.

Lemma preserves_bind_servant {A R B} (p : part P C A R) id v (k : ActivationState → proc (world P C) B) :
  is_part p → (∀ st, preserves world_ok (k st)) →
  preserves world_ok (register p id ≫= λ _, publish_servant p id v ≫= k).
Proof.
  intros Hp Hk w tr Hw. pose proof (part_ok p w tr Hp Hw) as Hc.
  unfold mbind, proc_bind, register, repo_call, changing.
  pose proof (consistent_repo (kind p) (Repository.RegisterInstance id id) _ _ Hc) as Hreg.
  pose proof (λ a, consistent_bind (kind p) id v _ _ a Hc) as Hb.
  destruct (Repository.handle (kind p) _ (repo p w)) as [rp x] eqn:Hx. cbn in Hreg, Hb |- *.
  assert (world_ok (set_repo p rp w) tr) as Hw1.
  { rewrite <-(proj2 (part_same p (set_repo p rp w) Hp)).
    destruct (part_get p w rp (reg p w) Hp) as (_ & -> & _). apply part_set; [done..|].
    apply Hreg. by intros ?? []. }
  destruct x as [l|l|r|[a|e]]; [exact Hw1..| |exact Hw1].
  cbn [mbind proc_bind]. unfold publish_servant, reg_call, changing.
  destruct (part_get p w rp (reg p w) Hp) as (_ & -> & _). specialize (Hb a eq_refl).
  destruct (Registry.handle (kind p) _ (reg p w)) as [rg y]. cbn in Hb |- *.
  pose proof (part_set p w tr rp rg Hp Hw Hb) as Hw2.
  destruct y as [?|?|[st|e]]; [done..| |done]. by apply Hk.
Qed.

Lemma preserves_unbind_servant {A R B} (p : part P C A R) id (k : result ActivationState → proc (world P C) B) :
  is_part p → (∀ r, preserves world_ok (k r)) →
  preserves world_ok (r ← catch (unpublish_servant p id); unregister p id ≫= λ _, k r).
Proof.
  intros Hp Hk w tr Hw. pose proof (part_ok p w tr Hp Hw) as Hc.
  unfold mbind, proc_bind, catch, unpublish_servant, reg_call, changing.
  pose proof (consistent_unbind (kind p) id _ _ Hc) as Hu.
  destruct (Registry.handle (kind p) _ (reg p w)) as [rg y]. cbn in Hu |- *.
  unfold unregister, repo_call, changing.
  destruct (part_get p w (repo p w) rg Hp) as (_ & _ & -> & _).
  destruct (Repository.handle (kind p) _ (repo p w)) as [rp x]. cbn in Hu |- *.
  rewrite (proj1 (part_comm p w rp rg Hp)). pose proof (part_set p w tr rp rg Hp Hw Hu) as Hw1.
  by destruct x as [l|l|r|[a|e]]; [done..| |done]; apply Hk.
Qed.

Lemma preserves_bind_servant' {A R} (p : part P C A R) id v :
  is_part p → preserves world_ok (register p id ≫= λ _, publish_servant p id v).
Proof.
  intros Hp w tr Hw.
  pose proof (preserves_bind_servant p id v (λ st, mret st) Hp (λ st, preserves_ret _ st) w tr Hw) as H1.
  unfold mbind, proc_bind in H1 |- *. destruct (register p id w tr) as [[w1 tr1] [x|e]]; [|done].
  by destruct (publish_servant p id v w1 tr1) as [[w2 tr2] [y|e]].
Qed.

(** The same, when a servant that is not there is an error. *)
Lemma preserves_unbind_found {A R B} (p : part P C A R) id (k : ActivationState → proc (world P C) B) :
  is_part p → (∀ r, preserves world_ok (k r)) →
  preserves world_ok (r ← unpublish_servant p id; unregister p id ≫= λ _, k r).
Proof.
  intros Hp Hk w tr Hw.
  pose proof (preserves_unbind_servant p id (λ r, match r with Ok a => k a | Err e => throw e end) Hp
    ltac:(intros [?|?]; [apply Hk|apply preserves_throw]) w tr Hw) as Hok.
  pose proof (preserves_reg_call p (Registry.UnpublishServant id)
    (λ x, match x with Registry.RState r => r | _ => no_reply end) Hp ltac:(done) w tr Hw) as Herr.
  unfold mbind, proc_bind, catch in *. unfold unpublish_servant in *.
  by destruct (reg_call p _ _ w tr) as [[w1 tr1] [st|e]].
Qed.

Lemma preserves_state {A} (m : proc (world P C) A) : (∀ w tr, (m w tr).1.1 = w) → preserves world_ok m.
Proof. intros Hm w tr Hw. specialize (Hm w tr). destruct (m w tr) as [[w' tr'] r]. cbn in Hm. by subst. Qed.
Lemma preserves_returning {A} (r : result A) : preserves world_ok (returning r).
Proof. by apply preserves_state. Qed.
Lemma preserves_send {A} (m : net A) : preserves world_ok (sending m).
Proof. apply preserves_state. intros w tr. unfold sending. by destruct (m tr). Qed.
Lemma preserves_or_message {A} e (m : proc (world P C) A) : preserves world_ok m → preserves world_ok (or_message e m).
Proof.
  intros Hm. apply preserves_bind; [by apply preserves_catch|]. intros [a|e']; [apply preserves_ret|apply preserves_throw].
Qed.

Section calls.
Context {A R : Type} (p : part P C A R) (Hp : is_part p).
Lemma preserves_find_artefact id : preserves world_ok (find_artefact p id).
Proof. apply preserves_repo_call; [done|]. by intros ?? []. Qed.
Lemma preserves_publish_artefact id sys a : preserves world_ok (publish_artefact p id sys a).
Proof. apply preserves_repo_call; [done|]. by intros ?? []. Qed.
Lemma preserves_unpublish_artefact id : preserves world_ok (unpublish_artefact p id).
Proof. apply preserves_repo_call; [done|]. by intros ?? []. Qed.
Lemma preserves_serialize : preserves world_ok (serialize p).
Proof. apply preserves_repo_call; [done|]. by intros ?? []. Qed.
Lemma preserves_find_servant id : preserves world_ok (find_servant p id).
Proof. by apply preserves_reg_call. Qed.
Lemma preserves_transition id to : preserves world_ok (transition_servant p id to).
Proof. by apply preserves_reg_call. Qed.
End calls.

Ltac keep_one :=
  lazymatch goal with
  | |- preserves _ (catch _) => apply preserves_catch
  | |- preserves _ (mret _) => apply preserves_ret
  | |- preserves _ (throw _) => apply preserves_throw
  | |- preserves _ (not_found _) => apply preserves_throw
  | |- preserves _ (invalid _ _) => apply preserves_throw
  | |- preserves _ (returning _) => apply preserves_returning
  | |- preserves _ (port_of _) => apply preserves_returning
  | |- preserves _ (sending _) => apply preserves_send
  | |- preserves _ (or_message _ _) => apply preserves_or_message
  | |- preserves _ (find_artefact _ _) => apply preserves_find_artefact; by constructor
  | |- preserves _ (find_servant _ _) => apply preserves_find_servant; by constructor
  | |- preserves _ (for_each _ _) => apply preserves_for_each; intros ?
  | |- preserves _ (λ w tr, (w, tr, _)) => by apply preserves_state
  | |- preserves _ (match ?x with _ => _ end) => destruct x
  | |- preserves _ (register _ _ ≫= λ _, publish_servant _ _ _ ≫= _) =>
      apply preserves_bind_servant; [by constructor|intros ?]
  | |- preserves _ (register _ _ ≫= λ _, publish_servant _ _ _) =>
      apply preserves_bind_servant'; by constructor
  | |- preserves _ (catch (unpublish_servant _ _) ≫= λ r, unregister _ _ ≫= λ _, _) =>
      apply preserves_unbind_servant; [by constructor|intros ?]
  | |- preserves _ (unpublish_servant _ _ ≫= λ r, unregister _ _ ≫= λ _, _) =>
      apply preserves_unbind_found; [by constructor|intros ?]
  | |- preserves _ (_ ≫= _) => apply preserves_bind; [|intros ?]
  end.
Ltac keep := repeat (keep_one || (by auto with world)).
#[local] Create HintDb world.

Lemma preserves_connect_target to : preserves world_ok (connect_target to).
Proof. unfold connect_target. keep. Qed.
#[local] Hint Resolve preserves_connect_target : world.
Lemma preserves_connect_outputs ms : preserves world_ok (connect_outputs ms).
Proof. induction ms as [|[from to] ms IH]; cbn [connect_outputs]; keep. Qed.
#[local] Hint Resolve preserves_connect_outputs : world.
Lemma preserves_pipeline_link id ms : preserves world_ok (pipeline_link id ms).
Proof. unfold pipeline_link. keep. Qed.
Lemma preserves_pipeline_unlink id ms : preserves world_ok (pipeline_unlink id ms).
Proof. unfold pipeline_unlink. keep. Qed.
Lemma preserves_answers ps : preserves world_ok (answers ps).
Proof. induction ps as [|p ps IH]; cbn [answers]; keep. Qed.
Lemma preserves_send_all ps : preserves world_ok (send_all ps).
Proof. induction ps as [|p ps IH]; cbn [send_all]; keep. Qed.
Lemma preserves_reply_channel n : preserves world_ok (reply_channel n).
Proof. by apply preserves_state. Qed.
#[local] Hint Resolve preserves_pipeline_link preserves_pipeline_unlink preserves_answers preserves_send_all
  preserves_reply_channel : world.
Lemma preserves_offramp_link id ms : preserves world_ok (offramp_link id ms).
Proof. unfold offramp_link. keep. Qed.
Lemma preserves_offramp_unlink id ms : preserves world_ok (offramp_unlink id ms).
Proof. unfold offramp_unlink. keep. Qed.
Lemma preserves_onramp_connects ms : preserves world_ok (onramp_connects ms).
Proof. induction ms as [|[from to] ms IH]; cbn [onramp_connects]; keep. Qed.
#[local] Hint Resolve preserves_offramp_link preserves_offramp_unlink preserves_onramp_connects : world.
Lemma preserves_onramp_link self id ms : preserves world_ok (onramp_link self id ms).
Proof. unfold onramp_link. keep. Qed.
Lemma preserves_onramp_unlink id ms : preserves world_ok (onramp_unlink id ms).
Proof. unfold onramp_unlink. keep. Qed.
#[local] Hint Resolve preserves_onramp_link preserves_onramp_unlink : world.

(** ** Methods of the world *)
Lemma preserves_bind_pipeline id : preserves world_ok (bind_pipeline id).
Proof. unfold bind_pipeline, bind_with, link_existing_pipeline. keep. Qed.
Lemma preserves_bind_onramp id : preserves world_ok (bind_onramp id).
Proof. unfold bind_onramp, bind_with, link_existing_onramp. keep. Qed.
Lemma preserves_bind_offramp id : preserves world_ok (bind_offramp id).
Proof. unfold bind_offramp, bind_with, link_existing_offramp. keep. Qed.
Lemma preserves_unbind_ramp {A R} (p : part P C A R) id : is_part p → preserves world_ok (unbind_ramp p id).
Proof. intros Hp. unfold unbind_ramp. destruct Hp; keep. Qed.
Lemma preserves_unbind_onramp id : preserves world_ok (unbind_onramp id).
Proof. by apply preserves_unbind_ramp. Qed.
Lemma preserves_unbind_offramp id : preserves world_ok (unbind_offramp id).
Proof. by apply preserves_unbind_ramp. Qed.
Lemma preserves_unbind_pipeline id : preserves world_ok (unbind_pipeline id).
Proof. unfold unbind_pipeline. keep. Qed.
#[local] Hint Resolve preserves_bind_pipeline preserves_bind_onramp preserves_bind_offramp preserves_unbind_pipeline
  preserves_unbind_onramp preserves_unbind_offramp : world.

Lemma preserves_link_pipeline id ms : preserves world_ok (link_pipeline id ms).
Proof. unfold link_pipeline. keep. Qed.
Lemma preserves_link_onramp id ms : preserves world_ok (link_onramp id ms).
Proof. unfold link_onramp. keep. Qed.
Lemma preserves_link_offramp id ms : preserves world_ok (link_offramp id ms).
Proof. unfold link_offramp. keep. Qed.
Lemma preserves_unlink_pipeline id ms : preserves world_ok (unlink_pipeline id ms).
Proof. unfold unlink_pipeline. keep. Qed.
Lemma preserves_unlink_onramp id ms : preserves world_ok (unlink_onramp id ms).
Proof. unfold unlink_onramp. keep. Qed.
Lemma preserves_unlink_offramp id ms : preserves world_ok (unlink_offramp id ms).
Proof. unfold unlink_offramp. keep. Qed.
Lemma preserves_ensure_pipeline id : preserves world_ok (ensure_pipeline id).
Proof. unfold ensure_pipeline. keep. Qed.
Lemma preserves_ensure_onramp id : preserves world_ok (ensure_onramp id).
Proof. unfold ensure_onramp. keep. Qed.
Lemma preserves_ensure_offramp id : preserves world_ok (ensure_offramp id).
Proof. unfold ensure_offramp. keep. Qed.
#[local] Hint Resolve preserves_link_pipeline preserves_link_onramp preserves_link_offramp preserves_unlink_pipeline
  preserves_unlink_onramp preserves_unlink_offramp preserves_ensure_pipeline preserves_ensure_onramp
  preserves_ensure_offramp : world.

Lemma preserves_binding_link self id ms : preserves world_ok (binding_link self id ms).
Proof. unfold binding_link, link_offramp_step, link_pipeline_step, link_onramp_step. keep. Qed.
Lemma preserves_unlink_pipelines ls done_ : preserves world_ok (unlink_pipelines ls done_).
Proof.
  revert done_. induction ls as [|[from tos] ls IH]; intros done_; cbn [unlink_pipelines]; unfold unlink_to; keep.
Qed.
#[local] Hint Resolve preserves_binding_link preserves_unlink_pipelines : world.
Lemma preserves_binding_unlink self : preserves world_ok (binding_unlink self).
Proof. unfold binding_unlink, unlink_onramp_step, unlink_offramp_step. keep. Qed.
#[local] Hint Resolve preserves_binding_unlink : world.
Lemma preserves_bind_binding_a id b : preserves world_ok (bind_binding_a id b).
Proof. unfold bind_binding_a. keep. Qed.
Lemma preserves_unbind_binding_a id : preserves world_ok (unbind_binding_a id).
Proof. unfold unbind_binding_a. keep. Qed.
#[local] Hint Resolve preserves_bind_binding_a preserves_unbind_binding_a : world.
Lemma preserves_link_binding id ms : preserves world_ok (link_binding id ms).
Proof. unfold link_binding. keep. Qed.
Lemma preserves_unlink_binding id : preserves world_ok (unlink_binding id).
Proof. unfold unlink_binding. keep. Qed.
#[local] Hint Resolve preserves_link_binding preserves_unlink_binding preserves_publish_artefact : world.
Lemma preserves_register_system a b c d : preserves world_ok (register_system a b c d).
Proof. unfold register_system, required. keep. Qed.
Lemma preserves_load_config c : preserves world_ok (load_config c).
Proof. unfold load_config, load_offramp, load_onramp, load_binding. keep. Qed.
Lemma preserves_load_query q f a : preserves world_ok (load_query q f a).
Proof. unfold load_query. keep. Qed.
Lemma preserves_to_config : preserves world_ok to_config.
Proof.
  unfold to_config.
  repeat first [apply preserves_bind; [|intros ?] | apply preserves_serialize; by constructor | apply preserves_ret].
  by apply preserves_reg_call.
Qed.
#[local] Hint Resolve preserves_repo_call preserves_find_artefact preserves_unpublish_artefact preserves_find_servant
  preserves_transition preserves_register_system preserves_load_config preserves_load_query
  preserves_to_config : world.

(** ** Runs of the world

    The public methods of the world and of its repositories and registries;
    those that register instances and publish servants are called by the
    former only. *)
Inductive method : ∀ {A : Type}, proc (world P C) A → Prop :=
  | m_find_artefact {A R} (p : part P C A R) id : is_part p → method (find_artefact p id)
  | m_publish_artefact {A R} (p : part P C A R) id sys a : is_part p → method (publish_artefact p id sys a)
  | m_unpublish_artefact {A R} (p : part P C A R) id : is_part p → method (unpublish_artefact p id)
  | m_find_servant {A R} (p : part P C A R) id : is_part p → method (find_servant p id)
  | m_transition {A R} (p : part P C A R) id to : is_part p → method (transition_servant p id to)
  | m_bind_pipeline id : method (bind_pipeline id)
  | m_bind_onramp id : method (bind_onramp id)
  | m_bind_offramp id : method (bind_offramp id)
  | m_bind_binding id b : method (bind_binding_a id b)
  | m_unbind_pipeline id : method (unbind_pipeline id)
  | m_unbind_onramp id : method (unbind_onramp id)
  | m_unbind_offramp id : method (unbind_offramp id)
  | m_unbind_binding id : method (unbind_binding_a id)
  | m_ensure_pipeline id : method (ensure_pipeline id)
  | m_ensure_onramp id : method (ensure_onramp id)
  | m_ensure_offramp id : method (ensure_offramp id)
  | m_link_pipeline id ms : method (link_pipeline id ms)
  | m_link_onramp id ms : method (link_onramp id ms)
  | m_link_offramp id ms : method (link_offramp id ms)
  | m_link_binding id ms : method (link_binding id ms)
  | m_unlink_pipeline id ms : method (unlink_pipeline id ms)
  | m_unlink_onramp id ms : method (unlink_onramp id ms)
  | m_unlink_offramp id ms : method (unlink_offramp id ms)
  | m_unlink_binding id : method (unlink_binding id)
  | m_to_config : method to_config
  | m_register_system a b c d : method (register_system a b c d)
  | m_load_config c : method (load_config c)
  | m_load_query q f a : method (load_query q f a).

(** The states of a world: a call may fail, the state it leaves counts. *)
Inductive reachable : world P C → list packet → Prop :=
  | reachable_new : reachable new_world []
  | reachable_call {A} (m : proc (world P C) A) w tr :
      reachable w tr → method m → reachable (m w tr).1.1 (m w tr).1.2.

Lemma method_preserves {A} (m : proc (world P C) A) : method m → preserves world_ok m.
Proof. intros []; auto with world. Qed.

Lemma reachable_ok w tr : reachable w tr → world_ok w tr.
Proof.
  induction 1 as [|A m w tr _ IH Hm]; [by repeat split|].
  pose proof (method_preserves m Hm w tr IH) as Hw. by destruct (m w tr) as [[w' tr'] r].
Qed.
End world.

(** C32: instances and servants stay together.  Whatever sequence of public
    methods of the world is called, with any URLs, failed calls included, and
    whoever is there to receive what they send: each servant in each registry
    has a servant id of its kind, its artefact is in the repository, and the
    servant is among the artefact's instances; so to unpublish the artefact,
    with any of its URLs, is refused, without an effect. *)
Theorem servants_are_instances {P C A R} `{!hash_order TremorUrl.t, !network, !runtime P C, !url_crate}
    (p : part P C A R) (w : world P C) (tr : list packet) (sid id : TremorUrl.t) (v : Fsm.t A R)
    (Hp : is_part p) (Hw : reachable w tr) (Hv : reg p w !! sid = Some v)
    (Hid : artefact_id (kind p) id = Ok (TremorUrl.trim_to_artefact sid)) :
  servant_id (kind p) sid = Ok sid ∧
  (∃ x, find_artefact p id w tr = (w, tr, Ok (Some x)) ∧ sid ∈ Repository.instances x) ∧
  ∃ e, unpublish_artefact p id w tr = (w, tr, Err e).
Proof.
  destruct (part_ok p w tr Hp (reachable_ok w tr Hw)) as [_ Hc].
  destruct (Hc sid v Hv) as (Hs & x & Hx & Hin).
  pose proof (find_entry (kind p) id _ (repo p w) Hid) as Hf.
  pose proof (unpublish_entry (kind p) id _ (repo p w) x Hid Hx) as Hu.
  unfold Repository.find_artefact in Hf. unfold Repository.unpublish_artefact in Hu.
  split_and!; [done| |].
  - exists x. split; [|done]. unfold find_artefact, repo_call, changing. rewrite Hf.
    by rewrite (proj1 (part_same p w Hp)), Hx.
  - unfold unpublish_artefact, repo_call, changing. rewrite Hu.
    destruct (Repository.system x); [|rewrite bool_decide_false];
      [rewrite (proj1 (part_same p w Hp)); by eauto..|].
    intros Hnil. rewrite Hnil in Hin. by apply not_elem_of_nil in Hin.
Qed.
