(* ===== verification/LinkSpec.v ===== *)
(** Deployment: what a binding that was linked has connected. *)
From S2P Require Import Prelude Event Url Lifecycle Repository Registry Network World WorldSpec.

Section link.
Context {P C : Type} `{ho : !hash_order TremorUrl.t, nw : !network, rt : !runtime P C, uc : !url_crate}.
Implicit Types (id from to : TremorUrl.t) (w : world P C).

(** What [find_servant] finds. *)
Definition found {A R} (kind : ResourceType) (rg : Registry.t A R) id : option R :=
  match servant_id kind id with
  | Ok sid => v ← Registry.find sid rg; Fsm.resolution v
  | Err _ => None
  end.
Definition finds {A R} (p : part P C A R) w id : option R := found (kind p) (reg p w) id.

(** Servants stay, and what was sent was. *)
Definition grows w (tr : list packet) w' (tr' : list packet) : Prop :=
  tr `prefix_of` tr' ∧
  ∀ A R (p : part P C A R) id r, is_part p → finds p w id = Some r → finds p w' id = Some r.
Definition grow {A} (m : proc (world P C) A) : Prop :=
  ∀ w tr, let '(w', tr', _) := m w tr in grows w tr w' tr'.
(** What holds, of the log before and the state and log after, when it succeeds. *)
Definition gives {A} (m : proc (world P C) A) (E : A → list packet → world P C → list packet → Prop) : Prop :=
  ∀ w tr w' tr' a, m w tr = (w', tr', Ok a) → E a tr w' tr'.

Lemma grows_refl w tr : grows w tr w tr.
Proof. by split. Qed.
Lemma grows_trans w1 tr1 w2 tr2 w3 tr3 : grows w1 tr1 w2 tr2 → grows w2 tr2 w3 tr3 → grows w1 tr1 w3 tr3.
Proof. intros [H1 H2] [H3 H4]. split; [by etrans|]. intros A R p id r Hp Hf. by apply H4, H2. Qed.

Lemma grow_bind {A B} (m : proc (world P C) A) (f : A → proc (world P C) B) :
  grow m → (∀ a, grow (f a)) → grow (m ≫= f).
Proof.
  intros Hm Hf w tr. unfold mbind, proc_bind. specialize (Hm w tr).
  destruct (m w tr) as [[w1 tr1] [a|e]]; [|done]. specialize (Hf a w1 tr1).
  destruct (f a w1 tr1) as [[w2 tr2] r]. by eapply grows_trans.
Qed.
Lemma grow_same {A} (m : proc (world P C) A) : (∀ w tr, ∃ r, m w tr = (w, tr, r)) → grow m.
Proof. intros Hm w tr. destruct (Hm w tr) as [r ->]. apply grows_refl. Qed.
Lemma grow_catch {A} (m : proc (world P C) A) : grow m → grow (catch m).
Proof. intros Hm w tr. specialize (Hm w tr). unfold catch. by destruct (m w tr) as [[??]?]. Qed.
Lemma grow_send p : grow (sending (send p)).
Proof.
  intros w tr. unfold sending, send. destruct (accepts tr p); [|apply grows_refl].
  split; [by apply prefix_app_r|done].
Qed.
Lemma grow_for_each {A} (f : A → proc (world P C) unit) l : (∀ x, grow (f x)) → grow (for_each f l).
Proof.
  intros Hf. induction l as [|x l IH]; [by apply grow_same; eauto|]. by apply grow_bind.
Qed.

(** ** Finding *)
Section part.
Context {A R : Type} (p : part P C A R) (Hp : is_part p).

Lemma find_servant_eq id w tr :
  ∃ r, find_servant p id w tr = (w, tr, r) ∧ (∀ o, r = Ok o → o = finds p w id) ∧
       (finds p w id ≠ None → r = Ok (finds p w id)).
Proof.
  unfold find_servant, reg_call, changing, finds, found. cbn [Registry.handle].
  rewrite (proj2 (part_same p w Hp)). destruct (servant_id (kind p) id); cbn; eexists; split_and!; try done.
  by intros ? [= <-].
Qed.
Lemma grow_find_servant id : grow (find_servant p id).
Proof. apply grow_same. intros w tr. destruct (find_servant_eq id w tr) as (r & -> & _). by eauto. Qed.
Lemma grow_find_artefact id : grow (find_artefact p id).
Proof.
  apply grow_same. intros w tr. unfold find_artefact, repo_call, changing. cbn [Repository.handle].
  rewrite (proj1 (part_same p w Hp)). by eauto.
Qed.
End part.

(** Linking finds the servants it needs, and sends. *)
Ltac grow_one :=
  lazymatch goal with
  | |- grow (catch _) => apply grow_catch
  | |- grow (or_message _ _) => unfold or_message
  | |- grow (sending (send_mgmt _ _)) => apply grow_send
  | |- grow (sending (send _)) => apply grow_send
  | |- grow (find_servant _ _) => apply grow_find_servant; by constructor
  | |- grow (find_artefact _ _) => apply grow_find_artefact; by constructor
  | |- grow (for_each _ _) => apply grow_for_each; intros ?
  | |- grow (match ?x with _ => _ end) => destruct x
  | |- grow (_ ≫= _) => apply grow_bind; [|intros ?]
  | |- grow _ => by apply grow_same; intros ??; eexists
  end.
Create HintDb links.
Ltac growing := repeat ((by auto with links) || grow_one).

Lemma grow_connect_target to : grow (connect_target to).
Proof. unfold connect_target. growing. Qed.
#[local] Hint Resolve grow_connect_target : links.
Lemma grow_connect_outputs ms : grow (connect_outputs ms).
Proof. induction ms as [|[from to] ms IH]; cbn [connect_outputs]; growing. Qed.
#[local] Hint Resolve grow_connect_outputs : links.
Lemma grow_pipeline_link id ms : grow (pipeline_link id ms).
Proof. unfold pipeline_link. growing. Qed.
Lemma grow_offramp_link id ms : grow (offramp_link id ms).
Proof. unfold offramp_link. growing. Qed.
Lemma grow_onramp_connects ms : grow (onramp_connects ms).
Proof. induction ms as [|[from to] ms IH]; cbn [onramp_connects]; growing. Qed.
#[local] Hint Resolve grow_pipeline_link grow_offramp_link grow_onramp_connects : links.
Lemma grow_onramp_link self id ms : grow (onramp_link self id ms).
Proof. unfold onramp_link. growing. Qed.
#[local] Hint Resolve grow_onramp_link : links.

(** ** Binding what is not there *)
Lemma grows_set_repo {A R} (p : part P C A R) rp w tr : is_part p → grows w tr (set_repo p rp w) tr.
Proof.
  intros Hp. split; [done|]. intros A' R' q id r Hq. revert w rp id r. by destruct Hp, Hq.
Qed.
Lemma grows_set_reg {A R} (p : part P C A R) rg w tr :
  is_part p → (∀ id r, finds p w id = Some r → found (kind p) rg id = Some r) → grows w tr (set_reg p rg w) tr.
Proof.
  intros Hp Hrg. split; [done|]. intros A' R' q id r Hq. revert w rg Hrg id r.
  destruct Hp, Hq; intros w rg Hrg id r Hr; (exact Hr || exact (Hrg id r Hr)).
Qed.

(** Publishing under an id that nothing is found under. *)
Lemma found_publish {A R} kind id (v : Fsm.t A R) (rg : Registry.t A R) o :
  found kind rg id = None → Fsm.resolution v = Some o →
  let '(rg', x) := Registry.handle kind (Registry.PublishServant id v) rg in
  (∀ id' r, found kind rg id' = Some r → found kind rg' id' = Some r) ∧
  (∀ st, x = Registry.RState (Ok st) → found kind rg' id = Some o).
Proof.
  intros Hn Ho. cbn [Registry.handle].
  destruct (servant_id kind id) as [sid|] eqn:Hs; [|by split].
  destruct (servant_id_idemp _ _ _ Hs) as [_ Ht].
  assert (∀ id' r, found kind rg id' = Some r → found kind (<[sid:=v]> rg) id' = Some r) as Hk.
  { intros id' r. unfold found. destruct (servant_id kind id') as [sid'|] eqn:Hs'; [|done]. intros Hr.
    destruct (decide (sid' = sid)) as [->|Hne]; [unfold found in Hn; rewrite Hs in Hn; congruence|].
    destruct (servant_id_idemp _ _ _ Hs') as [_ Ht']. unfold Registry.find in *. rewrite Ht' in *.
    by rewrite lookup_insert_ne. }
  assert (found kind (<[sid:=v]> rg) id = Some o) as Hid.
  { unfold found. rewrite Hs. unfold Registry.find. by rewrite Ht, lookup_insert, decide_True. }
  unfold Registry.publish. rewrite Ht. destruct (rg !! sid); cbn; by split.
Qed.

Lemma bind_with_grows {A R} (p : part P C A R) (spawn : list packet → A → TremorUrl.t → result R) lm id w tr :
  is_part p → (∀ i, grow (lm i)) → finds p w id = None →
  let '(w', tr', r) := bind_with p spawn lm id w tr in
  grows w tr w' tr' ∧ ∀ st, r = Ok st → is_Some (finds p w' id).
Proof.
  intros Hp Hlm Hn. unfold bind_with, mbind at 1, proc_bind at 1. pose proof (grow_find_artefact p Hp id w tr) as H1.
  destruct (find_artefact p id w tr) as [[w1 tr1] [a|e]] eqn:H2; [|by split].
  assert (w1 = w ∧ tr1 = tr) as [-> ->].
  { unfold find_artefact, repo_call, changing in H2. cbn [Repository.handle] in H2.
    rewrite (proj1 (part_same p w Hp)) in H2. by injection H2. }
  destruct a as [a|]; [|by split]. destruct (TremorUrl.instance id); [|by split].
  unfold mbind at 1, proc_bind at 1. unfold Fsm.new.
  destruct (spawn tr (Repository.artefact a) id) as [o|e]; [|by split]. cbn [mbind result_bind].
  unfold mbind at 1, proc_bind at 1, register, repo_call, changing.
  destruct (Repository.handle (kind p) _ (repo p w)) as [rp x].
  destruct (part_get p w rp (reg p w) Hp) as (_ & Hreg & _).
  pose proof (grows_set_repo p rp w tr Hp) as H3.
  destruct (match x with Repository.RArtefact r => r | _ => no_reply end) as [b|e]; [|by split].
  unfold mbind at 1, proc_bind at 1, publish_servant, reg_call, changing. rewrite Hreg.
  pose proof (found_publish (kind p) id (Fsm.mk (Repository.artefact a) Deactivated (Some o) id) (reg p w) o Hn eq_refl)
    as H4.
  destruct (Registry.handle (kind p) _ (reg p w)) as [rg y]. destruct H4 as [H4 H5].
  assert (grows w tr (set_reg p rg (set_repo p rp w)) tr) as H6.
  { eapply grows_trans; [exact H3|]. apply grows_set_reg; [done|]. intros i r.
    unfold finds at 1. rewrite Hreg. apply H4. }
  destruct (match y with Registry.RState r => r | _ => no_reply end) as [st|e] eqn:Hy; [|by split].
  assert (finds p (set_reg p rg (set_repo p rp w)) id = Some o) as H7.
  { unfold finds. destruct (part_get p (set_repo p rp w) rp rg Hp) as (_ & _ & _ & ->).
    apply (H5 st). destruct y; try done. by f_equal. }
  unfold mbind at 1, proc_bind at 1. pose proof (Hlm id (set_reg p rg (set_repo p rp w)) tr) as H8.
  destruct (lm id _ tr) as [[w2 tr2] [u|e]]; (split; [by eapply grows_trans|]); [|done].
  intros _ _. exists o. by apply H8.
Qed.

(** ** Successful calls, taken apart *)
Lemma bind_inv {A B} (m : proc (world P C) A) (f : A → proc (world P C) B) w tr w' tr' b :
  (m ≫= f) w tr = (w', tr', Ok b) →
  ∃ a w1 tr1, m w tr = (w1, tr1, Ok a) ∧ f a w1 tr1 = (w', tr', Ok b).
Proof.
  unfold mbind, proc_bind. destruct (m w tr) as [[w1 tr1] [a|e]]; [|done]. intros Hf. by exists a, w1, tr1.
Qed.
Lemma find_servant_inv {A R} (p : part P C A R) id w tr w' tr' o :
  is_part p → find_servant p id w tr = (w', tr', Ok o) → w' = w ∧ tr' = tr ∧ o = finds p w id.
Proof.
  intros Hp. destruct (find_servant_eq p Hp id w tr) as (r & -> & Hr & _). intros [= <- <- ->].
  split_and!; [done..|]. by apply Hr.
Qed.
Lemma find_artefact_inv {A R} (p : part P C A R) id w tr w' tr' o :
  is_part p → find_artefact p id w tr = (w', tr', Ok o) → w' = w ∧ tr' = tr.
Proof.
  intros Hp. unfold find_artefact, repo_call, changing. cbn [Repository.handle].
  rewrite (proj1 (part_same p w Hp)). by intros [= <- <- _].
Qed.
Lemma send_inv pk w tr w' tr' u : 
  sending (send pk) w tr = (w', tr', Ok u) → w' = w ∧ tr' = tr ++ [pk].
Proof. unfold sending, send. destruct (accepts tr pk); [|done]. by intros [= <- <- _]. Qed.
Lemma or_message_inv {A} e (m : proc (world P C) A) w tr w' tr' a :
  or_message e m w tr = (w', tr', Ok a) → m w tr = (w', tr', Ok a).
Proof.
  unfold or_message, mbind, proc_bind, catch. destruct (m w tr) as [[w1 tr1] [x|x]]; [|done].
  by intros [= <- <- <-].
Qed.

(** What a pipeline is connected to. *)
Definition target w to : option ConnectTarget :=
  match TremorUrl.resource_type to with
  | Some Offramp => TOfframp <$> finds offramps_ w to
  | Some Pipeline => TPipeline <$> finds pipelines_ w to
  | Some Onramp => TOnramp <$> finds onramps_ w to
  | _ => None
  end.

Lemma pipeline_link_inv from port to w tr w' tr' b :
  pipeline_link from [(port, to)] w tr = (w', tr', Ok b) →
  ∃ pa t, finds pipelines_ w from = Some pa ∧ target w to = Some t ∧ w' = w ∧
    tr' = tr ++ [PkMgmt (Addr.mgmt_addr pa) (ConnectOutput port to t)].
Proof.
  unfold pipeline_link. intros (o & w1 & tr1 & (-> & -> & ->)%find_servant_inv & H)%bind_inv; [|by constructor].
  destruct (finds pipelines_ w from) as [pa|]; [|done].
  apply bind_inv in H as (msgs & w1 & tr1 & H1 & H2). cbn [connect_outputs] in H1.
  apply bind_inv in H1 as (t & w2 & tr2 & H1 & H3). 
  assert (w2 = w ∧ tr2 = tr ∧ target w to = Some t) as (-> & -> & Ht).
  { unfold connect_target in H1. unfold target. destruct (TremorUrl.resource_type to) as [[]|]; [..|done]; try done;
      apply bind_inv in H1 as (o & w3 & tr3 & (-> & -> & ->)%find_servant_inv & H1); try (by constructor);
      destruct (finds _ w to); try done; by injection H1 as <- <- <-. }
  injection H3 as <- <- <-. exists pa, t. split_and!; [done..| |];
    apply bind_inv in H2 as (u & w2 & tr2 & H2 & [= <- <- _]); cbn [for_each] in H2;
    apply bind_inv in H2 as (u' & w3 & tr3 & H2%or_message_inv%send_inv & [= <- <- _]); by destruct H2.
Qed.

Lemma offramp_link_inv from to this pa w tr w' tr' b :
  finds pipelines_ w to = Some pa → offramp_link from [(to, this)] w tr = (w', tr', Ok b) →
  ∃ port o, TremorUrl.instance_port this = Some port ∧ finds offramps_ w from = Some o ∧ w' = w ∧
    tr' = tr ++ [PkOfframp o (OffConnect port to pa)].
Proof.
  intros Hpa. unfold offramp_link.
  intros (o & w1 & tr1 & (-> & -> & ->)%find_servant_inv & H)%bind_inv; [|by constructor].
  destruct (finds offramps_ w from) as [o|]; [|done].
  apply bind_inv in H as (u & w1 & tr1 & H & [= <- <- _]). cbn [for_each] in H.
  apply bind_inv in H as (u' & w2 & tr2 & H & [= <- <- _]).
  apply bind_inv in H as (port & w3 & tr3 & H1 & H). unfold returning in H1. injection H1 as <- <- Hport.
  apply bind_inv in H as (po & w4 & tr4 & (-> & -> & ->)%find_servant_inv & H); [|by constructor].
  rewrite Hpa in H. apply send_inv in H as [-> ->]. exists port, o.
  unfold TremorUrl.instance_port_required in Hport. destruct (TremorUrl.instance_port this); [|done].
  by injection Hport as ->.
Qed.

Lemma onramp_link_inv self from port to w tr w' tr' b :
  onramp_link self from [(port, to)] w tr = (w', tr', Ok b) →
  ∃ o pa, finds onramps_ w from = Some o ∧ finds pipelines_ w to = Some pa ∧ w' = w ∧
    tr' = tr ++ [PkOnramp o (OnConnect port [(to, pa)])].
Proof.
  unfold onramp_link. case_match; [done|].
  intros (o & w1 & tr1 & (-> & -> & ->)%find_servant_inv & H1)%bind_inv; [|by constructor].
  destruct (finds onramps_ w from) as [o|]; [|done].
  apply bind_inv in H1 as (msgs & w1 & tr1 & H1 & H2). cbn [onramp_connects] in H1.
  destruct (TremorUrl.resource_type to) as [[]|]; try done.
  apply bind_inv in H1 as (po & w2 & tr2 & (-> & -> & ->)%find_servant_inv & H1); [|by constructor].
  destruct (finds pipelines_ w to) as [pa|]; [|done]. injection H1 as <- <- <-.
  apply bind_inv in H2 as (u & w2 & tr2 & H2 & [= <- <- _]); cbn [for_each] in H2.
  apply bind_inv in H2 as (u' & w3 & tr3 & [-> ->]%send_inv & [= <- <- _]). by exists o, pa.
Qed.

(** ** Ensuring *)
Definition ensure {A R} (p : part P C A R) (bind : TremorUrl.t → proc (world P C) ActivationState) id :
    proc (world P C) unit :=
  s ← find_servant p id;
  match s with None => bind id ≫= λ _, mret tt | Some _ => mret tt end.

Lemma ensure_grows {A R} (p : part P C A R) spawn lm id w tr :
  is_part p → (∀ i, grow (lm i)) →
  let '(w', tr', r) := ensure p (bind_with p spawn lm) id w tr in
  grows w tr w' tr' ∧ (r = Ok tt → is_Some (finds p w' id)).
Proof.
  intros Hp Hlm. unfold ensure, mbind at 1, proc_bind at 1.
  destruct (find_servant_eq p Hp id w tr) as (r & -> & Hr & Hr').
  destruct r as [o|e]; [|by split; [apply grows_refl|]].
  rewrite (Hr o eq_refl). destruct (finds p w id) as [o'|] eqn:Hf; [by split; [apply grows_refl|eauto]|].
  unfold mbind at 1, proc_bind at 1. pose proof (bind_with_grows p spawn lm id w tr Hp Hlm Hf) as Hb.
  destruct (bind_with p spawn lm id w tr) as [[w' tr'] [st|e]]; destruct Hb as [Hg Hs]; (split; [done|]); [|done].
  intros _. by apply (Hs st).
Qed.

Lemma grow_link_existing_pipeline id ms : grow (link_existing_pipeline id ms).
Proof. unfold link_existing_pipeline. growing. Qed.
Lemma grow_link_existing_onramp id ms : grow (link_existing_onramp id ms).
Proof. unfold link_existing_onramp. growing. Qed.
Lemma grow_link_existing_offramp id ms : grow (link_existing_offramp id ms).
Proof. unfold link_existing_offramp. growing. Qed.
#[local] Hint Resolve grow_link_existing_pipeline grow_link_existing_onramp grow_link_existing_offramp : links.

(** The calls of [ensure] in [ensure_pipeline] and in [link_pipeline], and so
    on. *)
Lemma ensure_inv {A R} (p : part P C A R) spawn lm id w tr w' tr' u :
  is_part p → (∀ i, grow (lm i)) → ensure p (bind_with p spawn lm) id w tr = (w', tr', Ok u) →
  grows w tr w' tr' ∧ is_Some (finds p w' id).
Proof.
  intros Hp Hlm He. pose proof (ensure_grows p spawn lm id w tr Hp Hlm) as Hg. rewrite He in Hg.
  destruct u, Hg as [? Hs]. split; [done|]. by apply Hs.
Qed.
Lemma linking_inv {A R B} (p : part P C A R) spawn lm id w tr w' tr' b
    (k : Repository.wrapper A → proc (world P C) B) :
  is_part p → (∀ i, grow (lm i)) →
  (a ← find_artefact p id;
   match a with
   | Some a =>
     s ← find_servant p id;
     (match s with None => bind_with p spawn lm id ≫= λ _, mret tt | Some _ => mret tt end) ≫= λ _, k a
   | None => not_found id
   end) w tr = (w', tr', Ok b) →
  ∃ a w1 tr1, grows w tr w1 tr1 ∧ k a w1 tr1 = (w', tr', Ok b).
Proof.
  intros Hp Hlm (a & w1 & tr1 & [-> ->]%find_artefact_inv & H)%bind_inv; [|done].
  destruct a as [a|]; [|done]. apply bind_inv in H as (s & w1 & tr1 & H1 & H).
  apply bind_inv in H as (u & w2 & tr2 & H2 & H). exists a, w2, tr2. split; [|done].
  eapply (ensure_inv p spawn lm id w tr w2 tr2 u Hp Hlm).
  unfold ensure, mbind at 1, proc_bind at 1. by rewrite H1.
Qed.

Lemma link_pipeline_inv id ms w tr w' tr' b :
  link_pipeline id ms w tr = (w', tr', Ok b) →
  ∃ w1 tr1, grows w tr w1 tr1 ∧ pipeline_link id ms w1 tr1 = (w', tr', Ok b).
Proof.
  intros (a & w1 & tr1 & ? & ?)%(linking_inv pipelines_ _ _ _ _ _ _ _ _ (λ _, pipeline_link id ms));
    [by eauto|constructor|auto with links].
Qed.
Lemma link_onramp_inv id ms w tr w' tr' b :
  link_onramp id ms w tr = (w', tr', Ok b) →
  ∃ self w1 tr1, grows w tr w1 tr1 ∧ onramp_link self id ms w1 tr1 = (w', tr', Ok b).
Proof.
  intros (a & w1 & tr1 & ? & ?)%(linking_inv onramps_ _ _ _ _ _ _ _ _ (λ a, onramp_link (Repository.artefact a) id ms));
    [by eauto|constructor|auto with links].
Qed.
Lemma link_offramp_inv id ms w tr w' tr' b :
  link_offramp id ms w tr = (w', tr', Ok b) →
  ∃ w1 tr1, grows w tr w1 tr1 ∧ offramp_link id ms w1 tr1 = (w', tr', Ok b).
Proof.
  intros (a & w1 & tr1 & ? & ?)%(linking_inv offramps_ _ _ _ _ _ _ _ _ (λ _, offramp_link id ms));
    [by eauto|constructor|auto with links].
Qed.
Lemma ensure_pipeline_inv id w tr w' tr' u :
  ensure_pipeline id w tr = (w', tr', Ok u) → grows w tr w' tr' ∧ is_Some (finds pipelines_ w' id).
Proof. apply (ensure_inv pipelines_); [constructor|auto with links]. Qed.
Lemma ensure_onramp_inv id w tr w' tr' u :
  ensure_onramp id w tr = (w', tr', Ok u) → grows w tr w' tr' ∧ is_Some (finds onramps_ w' id).
Proof. apply (ensure_inv onramps_); [constructor|auto with links]. Qed.
Lemma ensure_offramp_inv id w tr w' tr' u :
  ensure_offramp id w tr = (w', tr', Ok u) → grows w tr w' tr' ∧ is_Some (finds offramps_ w' id).
Proof. apply (ensure_inv offramps_); [constructor|auto with links]. Qed.

(** ** What is connected

    The packet was sent after the log [tr0]; who takes part in the link is
    found under its URL. *)
Definition sent (tr0 : list packet) (pk : packet) (tr : list packet) : Prop :=
  ∃ ps, tr = tr0 ++ ps ∧ pk ∈ ps.
Definition offramp_linked (l : TremorUrl.t * TremorUrl.t) tr0 w tr : Prop :=
  ∃ port o pa, TremorUrl.instance_port l.1 = Some port ∧
    finds offramps_ w l.1 = Some o ∧ finds pipelines_ w l.2 = Some pa ∧
    sent tr0 (PkOfframp o (OffConnect port l.2 pa)) tr.
Definition pipeline_linked (l : TremorUrl.t * TremorUrl.t) tr0 w tr : Prop :=
  (∃ port pa t, TremorUrl.instance_port l.1 = Some port ∧
    finds pipelines_ w l.1 = Some pa ∧ target w l.2 = Some t ∧
    sent tr0 (PkMgmt (Addr.mgmt_addr pa) (ConnectOutput port l.2 t)) tr) ∧
  (TremorUrl.resource_type l.2 = Some Offramp → offramp_linked (l.2, l.1) tr0 w tr).
Definition onramp_linked (l : TremorUrl.t * TremorUrl.t) tr0 w tr : Prop :=
  ∃ port o pa, TremorUrl.instance_port l.1 = Some port ∧
    finds onramps_ w l.1 = Some o ∧ finds pipelines_ w l.2 = Some pa ∧
    sent tr0 (PkOnramp o (OnConnect port [(l.2, pa)])) tr.

Lemma sent_mono tr0 pk tr tr' : tr `prefix_of` tr' → sent tr0 pk tr → sent tr0 pk tr'.
Proof. intros [qs ->] (ps & -> & Hin). exists (ps ++ qs). rewrite app_assoc. split; [done|]. apply elem_of_app. by left. Qed.
Lemma sent_before tr0 tr1 pk tr : tr0 `prefix_of` tr1 → sent tr1 pk tr → sent tr0 pk tr.
Proof. intros [qs ->] (ps & -> & Hin). exists (qs ++ ps). rewrite app_assoc. split; [done|]. apply elem_of_app. by right. Qed.
Lemma sent_now tr pk : sent tr pk (tr ++ [pk]).
Proof. exists [pk]. split; [done|]. by apply list_elem_of_singleton. Qed.

Lemma target_mono w tr w' tr' to t : grows w tr w' tr' → target w to = Some t → target w' to = Some t.
Proof.
  intros [_ Hg]. unfold target. destruct (TremorUrl.resource_type to) as [[]|]; try done;
    intros (x & Hx & ->)%fmap_Some; eapply Hg in Hx as ->; by eauto using is_part.
Qed.

(** Such a fact stays, and it may be told from an earlier log. *)
Definition lasting (E : TremorUrl.t * TremorUrl.t → list packet → world P C → list packet → Prop) : Prop :=
  ∀ l tr0 tr1 w tr w' tr', tr0 `prefix_of` tr1 → grows w tr w' tr' → E l tr1 w tr → E l tr0 w' tr'.
Lemma offramp_lasting : lasting offramp_linked.
Proof.
  intros l tr0 tr1 w tr w' tr' H0 [H1 H2] (port & o & pa & ? & ? & ? & Hs). exists port, o, pa.
  split_and!; [done|by apply H2; eauto using is_part|by apply H2; eauto using is_part|].
  eapply sent_mono, sent_before; done.
Qed.
Lemma pipeline_lasting : lasting pipeline_linked.
Proof.
  intros l tr0 tr1 w tr w' tr' H0 H1 [(port & pa & t & ? & ? & ? & Hs) Hoff]. split.
  - exists port, pa, t. split_and!; [done|by apply H1; eauto using is_part|by eapply target_mono|].
    eapply sent_mono, sent_before; [apply H1|done..].
  - intros Ht. by eapply offramp_lasting; [..|apply Hoff].
Qed.
Lemma onramp_lasting : lasting onramp_linked.
Proof.
  intros l tr0 tr1 w tr w' tr' H0 [H1 H2] (port & o & pa & ? & ? & ? & Hs). exists port, o, pa.
  split_and!; [done|by apply H2; eauto using is_part|by apply H2; eauto using is_part|].
  eapply sent_mono, sent_before; done.
Qed.

Lemma grows_send w tr pk : grows w tr w (tr ++ [pk]).
Proof. split; [by apply prefix_app_r|done]. Qed.

(** ** The steps of a link *)
Lemma link_offramp_linked from to this w tr w' tr' b :
  is_Some (finds pipelines_ w to) → TremorUrl.instance_port this = TremorUrl.instance_port from →
  link_offramp from [(to, this)] w tr = (w', tr', Ok b) →
  grows w tr w' tr' ∧ offramp_linked (from, to) tr w' tr'.
Proof.
  intros [pa Hpa] Hthis (w1 & tr1 & Hg & H)%link_offramp_inv.
  eapply Hg in Hpa as Hpa1; [|constructor].
  apply (offramp_link_inv _ _ _ pa) in H as (port & o & Hport & Ho & -> & ->); [|done].
  split; [by eapply grows_trans, grows_send|].
  exists port, o, pa. split_and!; [cbn; congruence|done..|]. eapply sent_before; [apply Hg|apply sent_now].
Qed.

Lemma link_offramp_step_linked l w tr w' tr' u :
  link_offramp_step l w tr = (w', tr', Ok u) → grows w tr w' tr' ∧ offramp_linked l tr w' tr'.
Proof.
  destruct l as [from to]. unfold link_offramp_step.
  intros (u1 & w1 & tr1 & [Hg1 Hto]%ensure_pipeline_inv & H)%bind_inv.
  apply bind_inv in H as (u2 & w2 & tr2 & [Hg2 _]%ensure_offramp_inv & H).
  apply bind_inv in H as (b & w3 & tr3 & H & [= <- <- _]).
  apply link_offramp_linked in H as [Hg3 Hl]; [|destruct Hto as [pa Hto]; exists pa; apply Hg2; [constructor|done]|done].
  assert (grows w tr w2 tr2) as Hg by (by eapply grows_trans).
  split; [by eapply grows_trans|]. eapply offramp_lasting; [apply Hg|apply grows_refl|done].
Qed.

Lemma link_onramp_step_linked l w tr w' tr' u :
  link_onramp_step l w tr = (w', tr', Ok u) → grows w tr w' tr' ∧ onramp_linked l tr w' tr'.
Proof.
  destruct l as [from to]. unfold link_onramp_step.
  intros (u1 & w1 & tr1 & [Hg1 _]%ensure_pipeline_inv & H)%bind_inv.
  apply bind_inv in H as (u2 & w2 & tr2 & [Hg2 _]%ensure_onramp_inv & H).
  apply bind_inv in H as (port & w3 & tr3 & H1 & H). unfold port_of, returning in H1. injection H1 as <- <- Hport.
  apply bind_inv in H as (b & w3 & tr3 & H & [= <- <- _]).
  apply link_onramp_inv in H as (self & w4 & tr4 & Hg3 & H).
  apply onramp_link_inv in H as (o & pa & Ho & Hpa & -> & ->).
  assert (grows w tr w4 tr4) as Hg by (eapply grows_trans; [by eapply grows_trans|done]).
  split; [by eapply grows_trans, grows_send|]. exists port, o, pa. split_and!; [|done..|].
  - unfold TremorUrl.instance_port_required in Hport. cbn. destruct (TremorUrl.instance_port from); [|done].
    by injection Hport as ->.
  - eapply sent_before; [apply Hg|apply sent_now].
Qed.

(** The destination of a link of a pipeline is ensured first. *)
Definition ensure_to to : proc (world P C) unit :=
  match TremorUrl.resource_type to with
  | Some Offramp => ensure_offramp to
  | Some Pipeline => ensure_pipeline to
  | Some Onramp => ensure_onramp to
  | _ => mret tt
  end.
Lemma ensure_to_inv to w tr w' tr' u : ensure_to to w tr = (w', tr', Ok u) → grows w tr w' tr'.
Proof.
  unfold ensure_to. destruct (TremorUrl.resource_type to) as [[]|];
    [by intros [? _]%ensure_pipeline_inv|by intros [? _]%ensure_onramp_inv|by intros [? _]%ensure_offramp_inv|..];
    intros [= <- <- _]; apply grows_refl.
Qed.

Lemma link_pipeline_step_linked l w tr w' tr' u :
  link_pipeline_step l w tr = (w', tr', Ok u) → grows w tr w' tr' ∧ pipeline_linked l tr w' tr'.
Proof.
  destruct l as [from to]. unfold link_pipeline_step. change (match TremorUrl.resource_type to with
    | Some Offramp => ensure_offramp to | Some Pipeline => ensure_pipeline to
    | Some Onramp => ensure_onramp to | _ => mret tt end) with (ensure_to to).
  intros (u1 & w1 & tr1 & Hg1%ensure_to_inv & H)%bind_inv.
  apply bind_inv in H as (u2 & w2 & tr2 & [Hg2 _]%ensure_pipeline_inv & H).
  apply bind_inv in H as (port & w3 & tr3 & H1 & H). unfold port_of, returning in H1. injection H1 as <- <- Hport.
  apply bind_inv in H as (b & w3 & tr3 & H1 & H).
  apply link_pipeline_inv in H1 as (w4 & tr4 & Hg3 & H1).
  apply pipeline_link_inv in H1 as (pa & t & Hpa & Ht & -> & ->).
  assert (grows w tr w4 tr4) as Hg by (eapply grows_trans; [by eapply grows_trans|done]).
  pose proof (grows_trans _ _ _ _ _ _ Hg (grows_send w4 tr4
    (PkMgmt (Addr.mgmt_addr pa) (ConnectOutput port to t)))) as Hg'.
  assert (∃ w5 tr5, grows w4 (tr4 ++ [PkMgmt (Addr.mgmt_addr pa) (ConnectOutput port to t)]) w5 tr5 ∧
    w5 = w' ∧ tr5 = tr' ∧ (TremorUrl.resource_type to = Some Offramp → offramp_linked (to, from) tr w' tr'))
    as (w5 & tr5 & Hg5 & -> & -> & Hoff).
  { destruct (TremorUrl.resource_type to) as [[]|]; try (injection H as <- <- _; do 2 eexists;
      split_and!; [apply grows_refl|done..]).
    apply bind_inv in H as (b' & w6 & tr6 & H & [= <- <- _]).
    apply link_offramp_linked in H as [Hg6 Hl]; [|by eexists|].
    - do 2 eexists. split_and!; [exact Hg6|done..|]. intros _.
      eapply offramp_lasting; [apply Hg'|apply grows_refl|done].
    - done. }
  split; [by eapply grows_trans|]. split; [|done]. exists port, pa, t. split_and!.
  - unfold TremorUrl.instance_port_required in Hport. cbn. destruct (TremorUrl.instance_port from); [|done].
    by injection Hport as ->.
  - apply Hg5; [constructor|done].
  - by eapply target_mono.
  - eapply sent_mono; [apply Hg5|]. eapply sent_before; [apply Hg|apply sent_now].
Qed.

Lemma each_linked E (f : TremorUrl.t * TremorUrl.t → proc (world P C) unit) ls w tr w' tr' u :
  lasting E → (∀ l w tr w' tr' u, f l w tr = (w', tr', Ok u) → grows w tr w' tr' ∧ E l tr w' tr') →
  for_each f ls w tr = (w', tr', Ok u) → grows w tr w' tr' ∧ ∀ l, l ∈ ls → E l tr w' tr'.
Proof.
  intros HE Hf. revert w tr. induction ls as [|l ls IH]; intros w tr H.
  { injection H as <- <- _. split; [apply grows_refl|]. by intros l ?%not_elem_of_nil. }
  cbn [for_each] in H. apply bind_inv in H as (u1 & w1 & tr1 & [Hg1 Hl]%Hf & H).
  destruct (IH _ _ H) as [Hg2 Hls]. split; [by eapply grows_trans|].
  intros l' [-> |Hl']%elem_of_cons.
  - by eapply HE.
  - eapply HE; [apply Hg1|apply grows_refl|by apply Hls].
Qed.

(** ** The links of a binding *)

(** The URL a link has once the last of the mappings is put in: the percent
    encoded name of the mapping in braces is replaced in the instance. A URL
    without an instance has none. *)
Definition put_in (ms : list (string * string)) (inst : string) : string :=
  match last ms with Some (name, v) => replace ("%7B" +:+ name +:+ "%7D") v inst | None => "" end.
Definition mapped (ms : list (string * string)) id : option TremorUrl.t :=
  i ← TremorUrl.instance id; Some (TremorUrl.set_instance (put_in ms i) id).
Lemma map_instance_last ms inst : map_instance ms inst = put_in ms inst.
Proof.
  unfold map_instance, put_in. induction ms as [|[k v] ms _] using rev_ind; [done|]. by rewrite foldl_app, last_snoc.
Qed.

(** A sorted link is where the types of its ends belong. *)
Definition sorted (l : TremorUrl.t * TremorUrl.t) (s : sorted_links) : Prop :=
  match TremorUrl.resource_type l.1 with
  | Some Onramp => l ∈ sl_onramps s
  | Some Pipeline => l ∈ sl_pipelines s
  | Some Offramp => l ∈ sl_offramps s
  | _ => False
  end.

Lemma bind_Ok_inv {A B} (r : result A) (f : A → result B) b :
  r ≫= f = Ok b → ∃ a, r = Ok a ∧ f a = Ok b.
Proof. destruct r as [a|e]; [|done]. by exists a. Qed.
Lemma sort_link_sorted from to s s' :
  sort_link from to s = Ok s' → sorted (from, to) s' ∧ ∀ l, sorted l s → sorted l s'.
Proof.
  unfold sort_link, sorted. cbn.
  destruct (TremorUrl.resource_type from) as [[]|], (TremorUrl.resource_type to) as [[]|]; try done;
    intros [= <-]; cbn; (split; [apply elem_of_app; right; by apply list_elem_of_singleton|]);
    intros l; destruct (TremorUrl.resource_type l.1) as [[]|]; rewrite ?elem_of_app; by auto.
Qed.

Lemma resolve_dsts_sorted ms from dsts tos s tos' s' :
  resolve_dsts ms from dsts tos s = Ok (tos', s') →
  (∀ l, sorted l s → sorted l s') ∧
  ∀ dst to, dst ∈ dsts → mapped ms dst = Some to → sorted (from, to) s'.
Proof.
  revert tos s. induction dsts as [|d dsts IH]; intros tos s H; cbn [resolve_dsts] in H.
  { injection H as <- <-. split; [done|]. by intros ?? ?%not_elem_of_nil. }
  unfold mapped in *. destruct (TremorUrl.instance d) as [i|] eqn:Hd.
  - rewrite map_instance_last in H. apply bind_Ok_inv in H as (s1 & [H1 H2]%sort_link_sorted & H).
    destruct (IH _ _ H) as [H3 H4]. split; [by auto|].
    intros dst to [-> |Hin]%elem_of_cons; [|by apply H4]. rewrite Hd. intros [= <-]. by apply H3.
  - destruct (IH _ _ H) as [H3 H4]. split; [by auto|].
    intros dst to [-> |Hin]%elem_of_cons; [|by apply H4]. by rewrite Hd.
Qed.

Lemma resolve_links_sorted ms ls res s res' s' :
  resolve_links ms ls res s = Ok (res', s') →
  (∀ l, sorted l s → sorted l s') ∧
  ∀ src dsts dst from to, (src, dsts) ∈ ls → dst ∈ dsts →
    mapped ms src = Some from → mapped ms dst = Some to → sorted (from, to) s'.
Proof.
  revert res s. induction ls as [|[src0 dsts0] ls IH]; intros res s H; cbn [resolve_links] in H.
  { injection H as <- <-. split; [done|]. by intros ????? ?%not_elem_of_nil. }
  unfold mapped at 1. destruct (TremorUrl.instance src0) as [i|] eqn:Hs.
  - rewrite map_instance_last in H. apply bind_Ok_inv in H as ([tos s1] & [H1 H2]%resolve_dsts_sorted & H).
    destruct (IH _ _ H) as [H3 H4]. split; [by auto|].
    intros src dsts dst from to [[= -> ->]|Hin]%elem_of_cons Hdst Hfrom Hto; [|by eapply H4].
    apply H3. rewrite Hs in Hfrom. injection Hfrom as <-. by eapply H2.
  - destruct (IH _ _ H) as [H3 H4]. split; [by auto|].
    intros src dsts dst from to [[= -> ->]|Hin]%elem_of_cons Hdst Hfrom Hto; [|by eapply H4].
    by rewrite Hs in Hfrom.
Qed.

(** The link is made: by the part its source belongs to. *)
Definition linked (l : TremorUrl.t * TremorUrl.t) tr0 w tr : Prop :=
  match TremorUrl.resource_type l.1 with
  | Some Onramp => onramp_linked l tr0 w tr
  | Some Pipeline => pipeline_linked l tr0 w tr
  | Some Offramp => offramp_linked l tr0 w tr
  | _ => False
  end.
End link.

(** C40: a binding that is linked is connected.  When linking a binding
    succeeds, then for each link of it and each destination of the link that
    have an instance, with the last of the mappings put into the instances of
    both (of several mappings the others have no effect, [last_mapping], and a
    link or destination without an instance is skipped without an error; it is
    not linked and nothing is said of it here): both ends are found, having
    been started if they were not there, and the source was told to send to
    the destination, from the port its URL has: an onramp to connect to the
    pipeline, a pipeline to add the output, and, when that is an offramp, the
    offramp to connect to the pipeline in turn; an offramp, whose responses
    are linked, to connect to the pipeline.  No servant that was there before
    is lost or replaced, and the new artefact remembers the mappings. *)
Theorem binding_is_linked {P C} `{ho : !hash_order TremorUrl.t, nw : !network, rt : !runtime P C}
    (self : binding) (id : TremorUrl.t) (ms : list (string * string))
    (w w' : world P C) (tr tr' : list packet) (b : binding)
    (Hlink : binding_link self id ms w tr = (w', tr', Ok b)) :
  grows w tr w' tr' ∧ mapping b = Some (id, ms) ∧
  ∀ src dsts dst from to, (src, dsts) ∈ links self → dst ∈ dsts →
    mapped ms src = Some from → mapped ms dst = Some to → linked (from, to) tr w' tr'.
Proof.
  apply bind_inv in Hlink as ([res s] & w0 & tr0 & Hres & H).
  unfold returning in Hres. injection Hres as <- <- Hres.
  apply bind_inv in H as (u1 & w1 & tr1 & H1 & H). apply bind_inv in H as (u2 & w2 & tr2 & H2 & H).
  apply bind_inv in H as (u3 & w3 & tr3 & H3 & [= <- <- <-]).
  apply (each_linked offramp_linked) in H1 as [Hg1 H1]; [|apply offramp_lasting|apply link_offramp_step_linked].
  apply (each_linked pipeline_linked) in H2 as [Hg2 H2]; [|apply pipeline_lasting|apply link_pipeline_step_linked].
  apply (each_linked onramp_linked) in H3 as [Hg3 H3]; [|apply onramp_lasting|apply link_onramp_step_linked].
  assert (grows w1 tr1 w3 tr3) as Hg13 by (by eapply grows_trans).
  assert (grows w tr w2 tr2) as Hg02 by (by eapply grows_trans).
  split_and!; [by eapply grows_trans|done|].
  intros src dsts dst from to Hsrc Hdst Hfrom Hto.
  destruct (resolve_links_sorted _ _ _ _ _ _ Hres) as [_ Hs].
  specialize (Hs _ _ _ _ _ Hsrc Hdst Hfrom Hto). unfold sorted, linked in *.
  destruct (TremorUrl.resource_type (from, to).1) as [[]|]; [..|done]; try done.
  - eapply pipeline_lasting; [apply Hg1|apply Hg3|by apply H2].
  - eapply onramp_lasting; [apply Hg02|apply grows_refl|by apply H3].
  - eapply offramp_lasting; [done|apply Hg13|by apply H1].
Qed.

(** Deployment: a run of a small system, and what unlinking it does. *)

Local Open Scope string_scope.
Local Open Scope list_scope.

Module LinkExample.
(** Pipelines are numbers, tasks answer a disconnect with "no more
    connections", and a task gets the channels that follow the last packet. *)
Definition tasks : runtime nat unit := {|
  spawn_pipeline tr _ id := let n := N.of_nat (length tr) in Ok (Addr.mk (10 * n) (10 * n + 1) (10 * n + 2) id);
  spawn_onramp tr _ _ := Ok (10 * N.of_nat (length tr) + 3)%N;
  spawn_offramp tr _ _ := Ok (10 * N.of_nat (length tr) + 4)%N;
  answer _ _ := Ok true;
  fresh_chan tr := (10 * N.of_nat (length tr) + 5)%N;
|}.
#[local] Existing Instance tasks.
#[local] Existing Instance open_network.
#[local] Instance ho : hash_order TremorUrl.t := some_order TremorUrl.t.

Definition url (t : ResourceType) (a i p : string) : TremorUrl.t :=
  TremorUrl.mk ScopePort "localhost" (Some t) (Some a) (Some i) (Some p).
Definition artefact (t : ResourceType) (a : string) : TremorUrl.t :=
  TremorUrl.mk ScopeArtefact "localhost" (Some t) (Some a) None None.
Definition inst : string := "%7Binstance%7D".
(** an onramp into a pipeline into an offramp *)
Definition flow : binding := Binding_ "flow"
  [(url Onramp "source" inst "out", [url Pipeline "main" inst "in"]);
   (url Pipeline "main" inst "out", [url Offramp "sink" inst "in"])] None.
(** a pipeline with two destinations *)
Definition fan : binding := Binding_ "fan"
  [(url Pipeline "main" inst "out", [url Offramp "sink" inst "in"; url Offramp "other" inst "in"])] None.

Definition setup : proc (world nat unit) unit :=
  register_system 0%nat 1%nat (Ramp "system::stdout" tt) (Ramp "system::stderr" tt) ≫= λ _,
  publish_artefact pipelines_ (artefact Pipeline "main") false 2%nat ≫= λ _,
  publish_artefact onramps_ (artefact Onramp "source") false (Ramp "source" tt) ≫= λ _,
  publish_artefact offramps_ (artefact Offramp "sink") false (Ramp "sink" tt) ≫= λ _,
  publish_artefact offramps_ (artefact Offramp "other") false (Ramp "other" tt) ≫= λ _,
  publish_artefact bindings_ (artefact Binding "flow") false flow ≫= λ _,
  publish_artefact bindings_ (artefact Binding "fan") false fan ≫= λ _,
  mret tt.
Definition start : world nat unit * list packet := (setup new_world []).1.

Definition one (b : string) : TremorUrl.t :=
  TremorUrl.mk ScopeServant "localhost" (Some Binding) (Some b) (Some "01") None.
Definition ms : list (string * string) := [("instance", "01")].
End LinkExample.
Import LinkExample.
#[local] Existing Instance tasks.
#[local] Existing Instance open_network.
#[local] Existing Instance ho.

Lemma start_ok : (setup new_world []).2 = Ok tt.
Proof. vm_compute. reflexivity. Qed.


(** The servants of a start: the metrics pipeline and the two system offramps. *)
Lemma servants_are_instances_witness :
  let r := register_system 0%nat 1%nat (Ramp "system::stdout" tt) (Ramp "system::stderr" tt) new_world [] in
  let sid := TremorUrl.trim_to_instance METRICS_PIPELINE in
  let v := Fsm.mk 0%nat Deactivated (Some (Addr.mk 0 1 2 METRICS_PIPELINE)) METRICS_PIPELINE in
  r.2 = Ok tt ∧ reg pipelines_ r.1.1 !! sid = Some v ∧
  ∃ e, unpublish_artefact pipelines_ METRICS_PIPELINE r.1.1 r.1.2 = (r.1.1, r.1.2, Err e).
Proof.
  pose (uc := demo_url). intros r sid v.
  assert (reg pipelines_ r.1.1 !! sid = Some v) as Hv by (vm_compute; reflexivity).
  split_and!; [vm_compute; reflexivity|exact Hv|].
  apply (servants_are_instances pipelines_ r.1.1 r.1.2 sid METRICS_PIPELINE v part_pipeline); [|exact Hv|reflexivity].
  apply (reachable_call _ new_world []); [constructor|apply m_register_system].
Defined.

(** Linking [flow] starts its three servants and connects them. *)
Lemma binding_is_linked_witness :
  let r := binding_link flow (one "flow") ms start.1 start.2 in
  r.2 = Ok (Binding_ "flow"
    [(url Onramp "source" "01" "out", [url Pipeline "main" "01" "in"]);
     (url Pipeline "main" "01" "out", [url Offramp "sink" "01" "in"])] (Some (one "flow", ms))) ∧
  pipeline_linked (url Pipeline "main" "01" "out", url Offramp "sink" "01" "in") start.2 r.1.1 r.1.2 ∧
  onramp_linked (url Onramp "source" "01" "out", url Pipeline "main" "01" "in") start.2 r.1.1 r.1.2.
Proof.
  intros r.
  assert (r.2 = Ok (Binding_ "flow"
    [(url Onramp "source" "01" "out", [url Pipeline "main" "01" "in"]);
     (url Pipeline "main" "01" "out", [url Offramp "sink" "01" "in"])] (Some (one "flow", ms)))) as Hr
    by (vm_compute; reflexivity).
  destruct (binding_link flow (one "flow") ms start.1 start.2) as [[w tr] x] eqn:Heq. cbn in Hr |- *. subst r x.
  pose proof (binding_is_linked flow (one "flow") ms start.1 w start.2 tr _ Heq) as (_ & _ & Hl).
  split_and!; [done| |].
  - refine (Hl (url Pipeline "main" inst "out") [url Offramp "sink" inst "in"] (url Offramp "sink" inst "in")
      (url Pipeline "main" "01" "out") (url Offramp "sink" "01" "in") _ _ _ _);
      [right; left|left|reflexivity|reflexivity].
  - refine (Hl (url Onramp "source" inst "out") [url Pipeline "main" inst "in"] (url Pipeline "main" inst "in")
      (url Onramp "source" "01" "out") (url Pipeline "main" "01" "in") _ _ _ _);
      [left|left|reflexivity|reflexivity].
Defined.

(** The servants, and the artefacts with their instances. *)
Definition servants (w : world nat unit) : list TremorUrl.t :=
  (map_to_list (reg_pipeline w)).*1 ++ (map_to_list (reg_onramp w)).*1 ++
  (map_to_list (reg_offramp w)).*1 ++ (map_to_list (reg_binding w)).*1.
Definition used {A} (r : Repository.t A) : list (TremorUrl.t * list TremorUrl.t) :=
  (λ kv, (kv.1, Repository.instances kv.2)) <$> map_to_list r.
Definition artefacts (w : world nat unit) : list (TremorUrl.t * list TremorUrl.t) :=
  used (repo_pipeline w) ++ used (repo_onramp w) ++ used (repo_offramp w) ++ used (repo_binding w).

(** Unlinking it stops them: what is there is what was there before. *)
Example flow_unlinked :
  let r := link_binding (one "flow") ms start.1 start.2 in
  let r' := unlink_binding (one "flow") r.1.1 r.1.2 in
  r'.2 = r.2 ∧ servants r'.1.1 = servants start.1 ∧ artefacts r'.1.1 = artefacts start.1 ∧
  length (servants r.1.1) = (length (servants start.1) + 4)%nat.
Proof. vm_compute. split_and!; reflexivity. Qed.

(** A binding with two destinations of a pipeline is linked, but cannot be
    unlinked: the pipeline is gone when the second link is taken up, and so it
    is when the attempt is repeated; the binding and the other offramp stay. *)
Example fan_stays :
  let r := link_binding (one "fan") ms start.1 start.2 in
  let r1 := unlink_binding (one "fan") r.1.1 r.1.2 in
  let r2 := unlink_binding (one "fan") r1.1.1 r1.1.2 in
  r.2 = Ok (Binding_ "fan" [(url Pipeline "main" "01" "out",
    [url Offramp "sink" "01" "in"; url Offramp "other" "01" "in"])] (Some (one "fan", ms))) ∧
  r1.2 = Err (EMsg "Pipeline not found") ∧ 
  r2.2 = Err (EMsg "Pipeline not found") ∧
  finds pipelines_ r1.1.1 (url Pipeline "main" "01" "out") = None ∧
  is_Some (finds bindings_ r1.1.1 (one "fan")) ∧ is_Some (finds offramps_ r1.1.1 (url Offramp "other" "01" "in")).
Proof. vm_compute. split_and!; try reflexivity; by eexists. Qed.

(** Of several mappings only the last one is put in. *)
Example last_mapping :
  map_instance [("a", "1"); ("b", "2")] "%7Bb%7D" = "2" ∧
  map_instance [("a", "1"); ("b", "2")] "%7Ba%7D" = "%7Ba%7D" ∧
  map_instance [] "01" = "".
Proof. vm_compute. split_and!; reflexivity. Qed.
