(* ===== verification/Api.v ===== *)
(** The REST API: the handlers of tremor-api/src/api/, how results and errors
    become responses (tremor-api/src/api.rs, errors.rs), and the routes of the
    server (tremor-cli/src/server.rs).

    A request carries what the handlers look at: the last value of two
    headers, the body, and the parameters of the path.  Reading and writing
    JSON and YAML is serde's, parsing a query the language's: the class
    [api_libs]. *)
From stdpp Require Import pretty.
From S2P Require Import Prelude Event Url Lifecycle Repository Registry Network World WorldSpec LinkSpec.

Local Open Scope string_scope.

(** [tremor_api::errors::Error]; codes are those of HTTP *)
Record api_error := ApiError { code : N; message : string }.

(** [From<tremor_runtime::errors::Error>] *)
Definition from_tremor (e : error) : api_error :=
  match e with
  | EUnpublishFailedNonZeroInstances _ => ApiError 409 "Resource still has active instances"
  | EArtefactNotFound _ => ApiError 404 "Artefact not found"
  | EPublishFailedAlreadyExists _ => ApiError 409 "A resource with the requested ID already exists"
  | EUnpublishFailedSystemArtefact _ => ApiError 403 "System artefacts cannot be unpublished"
  | _ => ApiError 500 "Internal server error"
  end.
Definition from_http (e : string) : api_error := ApiError 500 ("HTTP type error: " +:+ e).
Definition from_json (e : string) : api_error := ApiError 400 ("JSON error: " +:+ e).
Definition from_yaml (e : string) : api_error := ApiError 400 ("YAML error: " +:+ e).
Definition from_compiler (e : string) : api_error := ApiError 500 ("Compiler error: " +:+ e).
(** [Error::not_found] *)
Definition not_found_ : api_error := ApiError 404 "Artefact not found".

(** A handler ends in a value or an error, or it panics. *)
Inductive outcome (A : Type) :=
  | Done (a : A)
  | Failed (e : api_error)
  | Panicked (msg : string).
Arguments Done {A} a.
Arguments Failed {A} e.
Arguments Panicked {A} msg.
#[export] Instance outcome_bind : MBind outcome := λ A B f m,
  match m with Done a => f a | Failed e => Failed e | Panicked s => Panicked s end.

Definition lib_call {A} (conv : string → api_error) (r : io A) : outcome A :=
  match r with IoOk a => Done a | IoErr e => Failed (conv e) end.

(** ** Requests and responses *)
Record request := Request {
  accept_header : option string;
  content_type_header : option string;
  body : io string;
  aid : option string;
  sid : option string;
}.
Record response := Response { status : N; content_type_of : option string; body_of : string }.

(** [api::ResourceType] *)
Inductive media := Json | Yaml | Trickle.
Definition as_str (t : media) : string :=
  match t with
  | Yaml => "application/yaml"
  | Json => "application/json"
  | Trickle => "application/vnd.trickle"
  end.
Definition content_type (req : request) : option media :=
  match content_type_header req with
  | Some h =>
    if decide (h = "application/yaml") then Some Yaml
    else if decide (h = "application/json") then Some Json
    else if decide (h = "application/vnd.trickle") then Some Trickle
    else None
  | None => None
  end.
Definition accept (req : request) : media :=
  match accept_header req with
  | Some h =>
    if decide (h = "application/yaml") then Yaml
    else if decide (h = "application/vnd.trickle") then Trickle
    else Json
  | None => Json
  end.

(** What is serialized: the wraps of an artefact and its instances are the
    structs of each module; of a binding it is the configuration. *)
Abbreviation binding_config := (string * list (TremorUrl.t * list TremorUrl.t))%type (only parsing).
Inductive content (C : Type) :=
  | CIds (l : list string)
  | CRamp (r : ramp C)
  | CRampWrap (r : ramp C) (instances : list string)
  | CBinding (b : binding_config)
  | CBindingWrap (b : binding_config) (instances : list string)
  | CText (s : string)
  | CVersion (version : string) (debug : bool)
  | CError (e : api_error).
Arguments CIds {C} l.
Arguments CRamp {C} r.
Arguments CRampWrap {C} r instances.
Arguments CBinding {C} b.
Arguments CBindingWrap {C} b instances.
Arguments CText {C} s.
Arguments CVersion {C} version debug.
Arguments CError {C} e.

Class api_libs (P C : Type) := {
  yaml_to_string : content C → io string;
  json_to_string : content C → io string;
  yaml_ramp : string → io (ramp C);
  json_ramp : string → io (ramp C);
  yaml_binding : string → io binding_config;
  json_binding : string → io binding_config;
  yaml_mappings : string → io (list (string * string));
  json_mappings : string → io (list (string * string));
  query_parse : string → io P;
  query_id : P → option string;
  query_source : P → string;
}.

Section responses.
Context {P C : Type} `{!api_libs P C}.

Definition serialize (t : media) (d : content C) (code : N) : outcome response :=
  match t with
  | Yaml => s ← lib_call from_yaml (yaml_to_string d); Done (Response code (Some (as_str t)) s)
  | Json => s ← lib_call from_json (json_to_string d); Done (Response code (Some (as_str t)) s)
  | Trickle => Failed (ApiError 500 "Unsuported formatting as trickle")
  end.

Definition quote : string := String (Ascii.ascii_of_nat 34) EmptyString.
(** [From<Error> for Response] *)
Definition error_response (e : api_error) : response :=
  Response (code e) (Some (as_str Json))
    ("{" +:+ quote +:+ "code" +:+ quote +:+ ":" +:+ pretty (code e) +:+ "," +:+
     quote +:+ "error" +:+ quote +:+ ":" +:+ quote +:+ message e +:+ quote +:+ "}").
Definition serialize_error (t : media) (d : api_error) : outcome response :=
  match t with
  | Json | Yaml => serialize t (CError d) (code d)
  | Trickle => Done (error_response d)
  end.
Definition reply (req : request) (result_in : content C) (ok_code : N) : outcome response :=
  serialize (accept req) result_in ok_code.

Definition nl : string := String (Ascii.ascii_of_nat 10) EmptyString.
Definition reply_trickle_flat (req : request) (result_in : string) (ok_code : N) : outcome response :=
  match accept req with
  | (Json | Yaml) as t => serialize t (CText result_in) ok_code
  | Trickle => Done (Response ok_code (Some (as_str Trickle)) result_in)
  end.
Definition reply_trickle_instanced (req : request) (result_in : string) (instances : list string) (ok_code : N) :
    outcome response :=
  match accept req with
  | (Json | Yaml) as t => serialize t (CText result_in) ok_code
  | Trickle =>
    Done (Response ok_code (Some (as_str Trickle))
      (result_in +:+ nl +:+ "# Instances:" +:+ nl +:+ "#  * " +:+ String.concat "#  * " instances))
  end.

(** [decode], of the two readers of a type *)
Definition decode {A} (yaml_from_slice json_from_slice : string → io A) (req : request) : outcome A :=
  body ← lib_call from_http (body req);
  match content_type req with
  | Some Yaml => lib_call (λ e, ApiError 400 ("Could not decode YAML: " +:+ e)) (yaml_from_slice body)
  | Some Json => lib_call (λ e, ApiError 400 ("Could not decode JSON: " +:+ e)) (json_from_slice body)
  | Some Trickle | None => Failed (ApiError 415 "No content type provided")
  end.
End responses.

(** ** Handlers *)
Definition api (P C A : Type) : Type := world P C → list packet → world P C * list packet * outcome A.
#[export] Instance api_ret {P C} : MRet (api P C) := λ A a w tr, (w, tr, Done a).
#[export] Instance api_bind {P C} : MBind (api P C) := λ A B f m w tr,
  match m w tr with
  | (w, tr, Done a) => f a w tr
  | (w, tr, Failed e) => (w, tr, Failed e)
  | (w, tr, Panicked s) => (w, tr, Panicked s)
  end.

Section handlers.
Context {P C : Type} `{!hash_order TremorUrl.t, !network, !runtime P C, !url_crate, !api_libs P C}.

(** [?] on a call of the runtime, and on a computation *)
Definition runtime_call {A} (m : proc (world P C) A) : api P C A := λ w tr,
  match m w tr with
  | (w, tr, Ok a) => (w, tr, Done a)
  | (w, tr, Err (EPanic s)) => (w, tr, Panicked s)
  | (w, tr, Err e) => (w, tr, Failed (from_tremor e))
  end.
Definition pure {A} (o : outcome A) : api P C A := λ w tr, (w, tr, o).

Definition build_url (path : list string) : outcome TremorUrl.t :=
  let url := "/" +:+ slash path in
  match TremorUrl.parse url with
  | Ok u => Done u
  | Err _ => Failed (ApiError 500 ("Could not decode Tremor URL: " +:+ url))
  end.
Definition param (o : option string) : string := default "" o.

Definition list_artefacts {A R} (p : part P C A R) : proc (world P C) (list TremorUrl.t) :=
  repo_call p Repository.ListArtefacts (λ x, match x with Repository.RIds l => Ok l | _ => no_reply end).
Definition instance_names {A} (w : Repository.wrapper A) : list string :=
  omap TremorUrl.instance (Repository.instances w).

(** The handlers that are the same for each kind of artefact but for its name
    in URLs and what is sent back. *)
Definition list_artefact {A R} (p : part P C A R) (req : request) : api P C response :=
  l ← runtime_call (list_artefacts p);
  pure (reply req (CIds (omap TremorUrl.artefact l)) 200).
Definition unpublish_artefact_ {A R} (p : part P C A R) (show : A → outcome response) (req : request) :
    api P C response :=
  url ← pure (build_url [type_display (kind p); param (aid req)]);
  result ← runtime_call (unpublish_artefact p url);
  pure (show result).
Definition get_artefact_ {A R} (p : part P C A R) (show : A → list string → outcome response) (req : request) :
    api P C response :=
  url ← pure (build_url [type_display (kind p); param (aid req)]);
  result ← runtime_call (find_artefact p url);
  match result with
  | Some w => pure (show (Repository.artefact w) (instance_names w))
  | None => pure (Failed not_found_)
  end.

(** *** Onramps and offramps *)
Definition publish_ramp (p : part P C (ramp C) chan) (req : request) : api P C response :=
  data ← pure (decode yaml_ramp json_ramp req);
  url ← pure (build_url [type_display (kind p); ramp_id data]);
  result ← runtime_call (publish_artefact p url false data);
  pure (reply req (CRamp result) 201).
Definition unpublish_ramp (p : part P C (ramp C) chan) (req : request) : api P C response :=
  unpublish_artefact_ p (λ r, reply req (CRamp r) 200) req.
Definition get_ramp (p : part P C (ramp C) chan) (req : request) : api P C response :=
  get_artefact_ p (λ r l, reply req (CRampWrap r l) 200) req.

(** *** Pipelines *)
Definition pipeline_publish_artefact (req : request) : api P C response :=
  match content_type req with
  | Some Trickle =>
    body ← pure (lib_call from_http (body req));
    query ← pure (lib_call from_compiler (query_parse body));
    match query_id query with
    | Some id =>
      url ← pure (build_url ["pipeline"; id]);
      result ← runtime_call (publish_artefact pipelines_ url false query);
      pure (reply_trickle_flat req (query_source result) 201)
    | None => pure (Failed (ApiError 422
        ("no `#!config id = " +:+ quote +:+ "trickle-id" +:+ quote +:+ "` directive provided")))
    end
  | _ => pure (Failed (ApiError 415 "No content type provided"))
  end.
Definition pipeline_unpublish_artefact (req : request) : api P C response :=
  unpublish_artefact_ pipelines_ (λ q, reply_trickle_flat req (query_source q) 200) req.
Definition pipeline_get_artefact (req : request) : api P C response :=
  get_artefact_ pipelines_ (λ q l, reply_trickle_instanced req (query_source q) l 200) req.

(** *** Bindings *)
Definition binding_of (b : binding) : binding_config := (b_id b, links b).
Definition binding_publish_artefact (req : request) : api P C response :=
  b ← pure (decode yaml_binding json_binding req);
  url ← pure (build_url ["binding"; b.1]);
  result ← runtime_call (publish_artefact bindings_ url false (Binding_ b.1 b.2 None));
  pure (reply req (CBinding (binding_of result)) 201).
Definition binding_unpublish_artefact (req : request) : api P C response :=
  unpublish_artefact_ bindings_ (λ b, reply req (CBinding (binding_of b)) 200) req.
Definition binding_get_artefact (req : request) : api P C response :=
  get_artefact_ bindings_ (λ b l, reply req (CBindingWrap (binding_of b) l) 200) req.
Definition get_servant (req : request) : api P C response :=
  url ← pure (build_url ["binding"; param (aid req); param (sid req)]);
  result ← runtime_call (find_servant bindings_ url);
  match result with
  | Some b => pure (reply req (CBinding (binding_of b)) 200)
  | None => pure (Failed not_found_)
  end.
Definition link_servant (req : request) : api P C response :=
  mappings ← pure (decode yaml_mappings json_mappings req);
  url ← pure (build_url ["binding"; param (aid req); param (sid req)]);
  result ← runtime_call (link_binding url mappings);
  pure (reply req (CBinding (binding_of result)) 201).
Definition unlink_servant (req : request) : api P C response :=
  url ← pure (build_url ["binding"; param (aid req); param (sid req)]);
  result ← runtime_call (unlink_binding url);
  pure (reply req (CBinding (binding_of result)) 204).

(** ** The server *)
Definition version_get (version : string) (debug : bool) (req : request) : api P C response :=
  pure (reply req (CVersion version debug) 200).

(** Errors become responses too; what is left is a response or a panic. *)
Definition handle_api_request (req : request) (handler_func : request → api P C response) : api P C response :=
  λ w tr,
  let resource_type := accept req in
  match handler_func req w tr with
  | (w, tr, Failed api_error) =>
    (w, tr, match serialize_error resource_type api_error with
            | Failed e => Done (error_response e)
            | r => r
            end)
  | r => r
  end.

Inductive http_method := Get | Post | Delete.
(** The routes of [api_server], with the parameters they bind. *)
Definition route (version : string) (debug : bool) (m : http_method) (path : list string) :
    option (request → api P C response) :=
  match path, m with
  | ["version"], Get => Some (version_get version debug)
  | ["binding"], Get => Some (list_artefact bindings_)
  | ["binding"], Post => Some binding_publish_artefact
  | ["binding"; _], Get => Some binding_get_artefact
  | ["binding"; _], Delete => Some binding_unpublish_artefact
  | ["binding"; _; _], Get => Some get_servant
  | ["binding"; _; _], Post => Some link_servant
  | ["binding"; _; _], Delete => Some unlink_servant
  | ["pipeline"], Get => Some (list_artefact pipelines_)
  | ["pipeline"], Post => Some pipeline_publish_artefact
  | ["pipeline"; _], Get => Some pipeline_get_artefact
  | ["pipeline"; _], Delete => Some pipeline_unpublish_artefact
  | ["onramp"], Get => Some (list_artefact onramps_)
  | ["onramp"], Post => Some (publish_ramp onramps_)
  | ["onramp"; _], Get => Some (get_ramp onramps_)
  | ["onramp"; _], Delete => Some (unpublish_ramp onramps_)
  | ["offramp"], Get => Some (list_artefact offramps_)
  | ["offramp"], Post => Some (publish_ramp offramps_)
  | ["offramp"; _], Get => Some (get_ramp offramps_)
  | ["offramp"; _], Delete => Some (unpublish_ramp offramps_)
  | _, _ => None
  end.
Definition with_params (req : request) (path : list string) : request :=
  match path with
  | [_; a] => Request (accept_header req) (content_type_header req) (body req) (Some a) None
  | [_; a; s] => Request (accept_header req) (content_type_header req) (body req) (Some a) (Some s)
  | _ => Request (accept_header req) (content_type_header req) (body req) None None
  end.
(** One request; no route is [None]. *)
Definition serve (version : string) (debug : bool) (m : http_method) (path : list string) (req : request) :
    option (api P C response) :=
  h ← route version debug m path; Some (handle_api_request (with_params req path) h).
End handlers.

(** The REST API: what deleting an artefact answers, and examples. *)

Local Open Scope string_scope.

(** The request is answered with a status. *)
Definition status_is (r : outcome response) (c : N) : Prop := ∃ resp, r = Done resp ∧ status resp = c.

(** Errors, a number and a text, can always be written. *)
Definition errors_written {P C} (l : api_libs P C) : Prop :=
  ∀ e, (∃ s, json_to_string (CError e) = IoOk s) ∧ ∃ s, yaml_to_string (CError e) = IoOk s.

Section spec.
Context {P C : Type} `{ho : !hash_order TremorUrl.t, nw : !network, rt : !runtime P C, uc : !url_crate,
  al : !api_libs P C}.

(** A handler that fails is answered with the code of its error; whatever a
    handler does, there is a response, or it panicked. *)
Lemma handled_failed (req : request) (h : request → api P C response) w tr w' tr' e :
  errors_written al → h req w tr = (w', tr', Failed e) →
  ∃ r, handle_api_request req h w tr = (w', tr', r) ∧ status_is r (code e).
Proof.
  intros Hs Hh. unfold handle_api_request. rewrite Hh. eexists. split; [done|].
  destruct (Hs e) as [[j Hj] [y Hy]].
  destruct (accept req); cbn; rewrite ?Hj, ?Hy; by eexists.
Qed.
Lemma handled_done (req : request) (h : request → api P C response) w tr w' tr' r :
  h req w tr = (w', tr', Done r) → handle_api_request req h w tr = (w', tr', Done r).
Proof. intros Hh. unfold handle_api_request. by rewrite Hh. Qed.
Lemma always_answered (req : request) (h : request → api P C response) w tr :
  ∀ e, (handle_api_request req h w tr).2 ≠ Failed e.
Proof.
  intros e. unfold handle_api_request. destruct (h req w tr) as [[w' tr'] [r|e'|s]]; cbn; try done.
  by destruct (serialize_error (accept req) e').
Qed.

(** Unpublishing, as the handler sees it. *)
Lemma unpublish_call {A R} (p : part P C A R) url id w tr :
  is_part p → artefact_id (kind p) url = Ok id →
  runtime_call (unpublish_artefact p url) w tr =
    match repo p w !! id with
    | None => (w, tr, Failed (ApiError 404 "Artefact not found"))
    | Some x =>
      if Repository.system x then (w, tr, Failed (ApiError 403 "System artefacts cannot be unpublished"))
      else if decide (Repository.instances x = []) then
        (set_repo p (delete id (repo p w)) w, tr, Done (Repository.artefact x))
      else (w, tr, Failed (ApiError 409 "Resource still has active instances"))
    end.
Proof.
  intros Hp Hid. unfold runtime_call, unpublish_artefact, repo_call, changing.
  destruct (repo p w !! id) as [x|] eqn:Hx.
  - pose proof (unpublish_entry (kind p) url id (repo p w) x Hid Hx) as Hu.
    unfold Repository.unpublish_artefact in Hu. rewrite Hu. pose proof (part_same p w Hp) as [Hs _].
    destruct (Repository.system x); [by rewrite Hs|].
    case_bool_decide; [by rewrite decide_True|by rewrite Hs, decide_False].
  - cbn [Repository.handle]. rewrite Hid. unfold Repository.unpublish.
    destruct (artefact_id_idemp _ _ _ Hid) as [_ ->]. rewrite Hx.
    by rewrite (proj1 (part_same p w Hp)).
Qed.
End spec.

(** C27: deleting an artefact through the REST API.  Whatever was called
    before, a request to delete an artefact of any kind is answered 404 if there
    is no such artefact, 403 if it is a system artefact, and 409 if it has
    instances, without any effect; otherwise exactly this artefact is removed,
    and the answer is what the handler shows of it.  As long as one of its
    servants is in the registry, an artefact is not removed. *)
Theorem delete_answers {P C A R} `{ho : !hash_order TremorUrl.t, nw : !network, rt : !runtime P C, uc : !url_crate,
    al : !api_libs P C} (p : part P C A R) (show : A → outcome response) (req : request)
    (w : world P C) (tr : list packet) (url id : TremorUrl.t)
    (Hp : is_part p) (Hw : reachable w tr) (Hs : errors_written al)
    (Hurl : build_url [type_display (kind p); param (aid req)] = Done url)
    (Hid : artefact_id (kind p) url = Ok id) :
  let '(w', tr', r) := handle_api_request req (unpublish_artefact_ p show) w tr in
  tr' = tr ∧
  match repo p w !! id with
  | None => w' = w ∧ status_is r 404
  | Some x =>
    if Repository.system x then w' = w ∧ status_is r 403
    else if decide (Repository.instances x = []) then
      w' = set_repo p (delete id (repo p w)) w ∧
      ∀ resp, show (Repository.artefact x) = Done resp → r = Done resp
    else w' = w ∧ status_is r 409
  end ∧
  ∀ sid v, reg p w !! sid = Some v → TremorUrl.trim_to_artefact sid = id →
    w' = w ∧ (status_is r 403 ∨ status_is r 409).
Proof.
  assert (∀ sid v, reg p w !! sid = Some v → TremorUrl.trim_to_artefact sid = id →
    ∃ x, repo p w !! id = Some x ∧ Repository.instances x ≠ []) as Hreg.
  { intros sid v Hv <-. destruct (part_ok p w tr Hp (reachable_ok w tr Hw)) as [_ Hc].
    destruct (Hc sid v Hv) as (_ & x & Hx & Hin). exists x. split; [done|].
    intros Hn. rewrite Hn in Hin. by apply not_elem_of_nil in Hin. }
  assert (unpublish_artefact_ p show req w tr =
    (result ← runtime_call (unpublish_artefact p url); pure (show result)) w tr) as Hu.
  { unfold unpublish_artefact_, mbind at 1, api_bind at 1, pure at 1. by rewrite Hurl. }
  unfold mbind, api_bind in Hu. rewrite (unpublish_call p url id w tr Hp Hid) in Hu.
  destruct (repo p w !! id) as [x|] eqn:Hx.
  2: { destruct (handled_failed req (unpublish_artefact_ p show) _ _ _ _ _ Hs Hu) as (r & -> & Hr).
       split_and!; [done..|]. intros sid v Hv He. destruct (Hreg sid v Hv He) as (x & ? & _). congruence. }
  destruct (Repository.system x) eqn:Hsys.
  { destruct (handled_failed req (unpublish_artefact_ p show) _ _ _ _ _ Hs Hu) as (r & -> & Hr). split_and!; by auto. }
  destruct (decide (Repository.instances x = [])) as [Hi|Hi].
  - assert (∀ sid v (Q : Prop), reg p w !! sid = Some v → TremorUrl.trim_to_artefact sid = id → Q) as Hno.
    { intros sid v Q Hv He. destruct (Hreg sid v Hv He) as (x' & Hx' & Hne). congruence. }
    unfold pure in Hu. unfold handle_api_request. rewrite Hu.
    destruct (show (Repository.artefact x)) as [resp|e|s]; split_and!; try done;
      (by intros sid v Hv He; apply (Hno sid v)) || by intros ? [= <-].
  - destruct (handled_failed req (unpublish_artefact_ p show) _ _ _ _ _ Hs Hu) as (r & -> & Hr). split_and!; by auto.
Qed.

Module ApiExample.
#[local] Existing Instance LinkExample.tasks.
#[local] Existing Instance open_network.
#[local] Existing Instance LinkExample.ho.
#[local] Existing Instance demo_url.
(** JSON and YAML are not looked into here. *)
Definition libs : api_libs nat unit := {|
  yaml_to_string _ := IoOk "yaml"; json_to_string _ := IoOk "json";
  yaml_ramp s := IoErr "no YAML"; json_ramp s := IoOk (Ramp s tt);
  yaml_binding s := IoErr "no YAML"; json_binding s := IoOk (s, []);
  yaml_mappings s := IoErr "no YAML"; json_mappings s := IoOk [("instance", s)];
  query_parse s := IoOk (String.length s);
  query_id n := if decide (n = 0%nat) then None else Some "query";
  query_source n := "query";
|}.
#[local] Existing Instance libs.

(** A request with JSON, and its answer; the sequence of answers of several
    requests. *)
Definition send_request (m : http_method) (path : list string) (accept : option string) (media body : string) :
    api nat unit response :=
  default (λ w tr, (w, tr, Panicked "no route"))
    (serve "0.11" false m path (Request accept (Some media) (IoOk body) None None)).
Definition json_request (m : http_method) (path : list string) (body : string) : api nat unit response :=
  send_request m path None "application/json" body.
Definition status_of (r : outcome response) : option N :=
  match r with Done r => Some (status r) | _ => None end.
Fixpoint statuses (l : list (api nat unit response)) (w : world nat unit) (tr : list packet) : list (option N) :=
  match l with
  | [] => []
  | m :: l => let '(w, tr, r) := m w tr in status_of r :: statuses l w tr
  end.
Definition start : world nat unit * list packet := LinkExample.start.

(** An onramp is published, found, taken, deleted and gone; a running binding
    and the artefacts it uses cannot be deleted before it is unlinked. *)
Example session :
  statuses [json_request Post ["onramp"] "new"; json_request Get ["onramp"; "new"] "";
    json_request Post ["onramp"] "new"; json_request Delete ["onramp"; "new"] "";
    json_request Get ["onramp"; "new"] ""; json_request Post ["binding"; "flow"; "01"] "01"; json_request Delete ["binding"; "flow"] "";
    json_request Delete ["pipeline"; "main"] ""; json_request Delete ["binding"; "flow"; "01"] "";
    json_request Delete ["binding"; "flow"] ""; json_request Delete ["pipeline"; "main"] "";
    json_request Post ["pipeline"] "query"]
    start.1 start.2 =
  [Some 201; Some 200; Some 409; Some 200; Some 404; Some 201; Some 409; Some 409; Some 204;
   Some 200; Some 200; Some 415]%N.
Proof. vm_compute. reflexivity. Qed.

(** A client that accepts trickle is answered 500, but the onramp it publishes
    is there, and what it deletes is gone. *)
Example trickle_client :
  statuses [send_request Post ["onramp"] (Some "application/vnd.trickle") "application/json" "new";
    json_request Get ["onramp"; "new"] "";
    send_request Delete ["onramp"; "new"] (Some "application/vnd.trickle") "application/json" "";
    json_request Get ["onramp"; "new"] ""] start.1 start.2 =
  [Some 500; Some 200; Some 500; Some 404]%N.
Proof. vm_compute. reflexivity. Qed.

(** The error for a query without an id is sent to such a client as JSON whose
    quotes are not escaped. *)
Example broken_json :
  (send_request Post ["pipeline"] (Some "application/vnd.trickle") "application/vnd.trickle" "" start.1 start.2).2 =
  Done (Response 422 (Some "application/json")
    ("{" +:+ quote +:+ "code" +:+ quote +:+ ":422," +:+ quote +:+ "error" +:+ quote +:+ ":" +:+ quote +:+
     "no `#!config id = " +:+ quote +:+ "trickle-id" +:+ quote +:+ "` directive provided" +:+ quote +:+ "}")).
Proof. vm_compute. reflexivity. Qed.

(** The instances of a pipeline end up in one line. *)
Example instances_in_line (req : request) :
  accept_header req = Some "application/vnd.trickle" →
  reply_trickle_instanced req "query" ["01"; "02"] 200 =
  Done (Response 200 (Some "application/vnd.trickle")
    ("query" +:+ nl +:+ "# Instances:" +:+ nl +:+ "#  * 01#  * 02")).
Proof. intros Ha. unfold reply_trickle_instanced, accept. by rewrite Ha. Qed.

(** Deleting an onramp that was just published. *)
Lemma delete_answers_witness :
  let url := TremorUrl.mk ScopeArtefact "localhost" (Some Onramp) (Some "new") None None in
  let r := publish_artefact onramps_ url false (Ramp "new" tt) new_world [] in
  let req := Request None None (IoOk "") (Some "new") None in
  repo onramps_ r.1.1 !! url = Some (Repository.mk_wrapper (Ramp "new" tt) [] false) ∧
  let '(w, _, x) := handle_api_request req (unpublish_artefact_ onramps_ (λ a, reply req (CRamp a) 200)) r.1.1 r.1.2 in
  w = set_repo onramps_ (delete url (repo onramps_ r.1.1)) r.1.1 ∧
  x = Done (Response 200 (Some "application/json") "json").
Proof.
  intros url r req.
  assert (repo onramps_ r.1.1 !! url = Some (Repository.mk_wrapper (Ramp "new" tt) [] false)) as Hx
    by (vm_compute; reflexivity).
  split; [exact Hx|].
  pose proof (delete_answers onramps_ (λ a, reply req (CRamp a) 200) req r.1.1 r.1.2 url url part_onramp) as H.
  rewrite Hx in H. cbn [Repository.system Repository.instances] in H.
  destruct (decide ([] = [])) as [_|Hne]; [|by destruct Hne].
  destruct (handle_api_request req _ r.1.1 r.1.2) as [[w' tr'] x].
  destruct H as (_ & [Hw Hr] & _).
  - apply (reachable_call _ new_world []); [constructor|]. apply m_publish_artefact; constructor.
  - intros e. split; eexists; reflexivity.
  - vm_compute. reflexivity.
  - reflexivity.
  - split; [exact Hw|]. apply Hr. reflexivity.
Defined.
End ApiExample.
