(* ===== verification/ValueOrd.v ===== *)
(** The order on values: [Ord] for [Static] and [Value] of
    tremor-value/src/value.rs, with [cmp_map] on objects. *)
From Stdlib Require Import Floats.SpecFloat.
From S2P Require Import Prelude Value.

(** ** Floats *)
Definition float_gt (a b : f64) : bool := SFltb b a.
Definition float_lt (a b : f64) : bool := SFltb a b.
(** [as f64] of an integer. *)
Definition float_of_Z (z : Z) : f64 := binary_normalize f64_prec f64_emax z 0 false.
(** [as u64] and [as i64] of a float: towards zero, saturating, [NaN] is 0. *)
Definition float_to_int (lo hi : Z) (f : f64) : Z :=
  match f with
  | S754_zero _ | S754_nan => 0
  | S754_infinity s => if s then lo else hi
  | S754_finite s m e =>
    let z := Z.shiftl (Zpos m) e in Z.max lo (Z.min hi (if s then - z else z))
  end%Z.

Definition u64_top : Z := 18446744073709551615.

(** ** [Static] *)
Definition bool_cmp (a b : bool) : comparison :=
  match a, b with false, true => Lt | true, false => Gt | _, _ => Eq end.

Definition static_cmp (a b : static_node) : comparison :=
  match a, b with
  | SNull, SNull => Eq
  | SNull, _ => Gt
  | _, SNull => Lt
  | SBool v1, SBool v2 => bool_cmp v1 v2
  | SBool _, _ => Gt
  | _, SBool _ => Lt
  | SU64 v1, SU64 v2 => (v1 ?= v2)%N
  | SU64 v1, SI64 v2 => if (0 <=? v2)%Z then (v1 ?= Z.to_N v2)%N else Gt
  | SU64 v1, SF64 v2 =>
    if float_lt v2 (float_of_Z 0) then Gt
    else if float_gt v2 (float_of_Z u64_top) then Lt
    else (Z.of_N v1 ?= float_to_int 0 u64_top v2)%Z
  | SI64 v1, SI64 v2 => (v1 ?= v2)%Z
  | SI64 v1, SU64 v2 => if (0 <=? v1)%Z then (Z.to_N v1 ?= v2)%N else Lt
  | SI64 v1, SF64 v2 =>
    if float_lt v2 (float_of_Z i64_bot) then Gt
    else if float_gt v2 (float_of_Z i64_top) then Lt
    else (v1 ?= float_to_int i64_bot i64_top v2)%Z
  | SF64 v1, SF64 v2 => if float_gt v1 v2 then Gt else if float_lt v1 v2 then Lt else Eq
  | SF64 v1, SU64 v2 =>
    if float_lt v1 (float_of_Z 0) then Lt
    else if float_gt v1 (float_of_Z u64_top) then Gt
    else (float_to_int 0 u64_top v1 ?= Z.of_N v2)%Z
  | SF64 v1, SI64 v2 =>
    if float_lt v1 (float_of_Z i64_bot) then Lt
    else if float_gt v1 (float_of_Z i64_top) then Gt
    else (float_to_int i64_bot i64_top v1 ?= v2)%Z
  end.

(** ** Sequences and objects *)

(** The lexicographic order of slices and vectors. *)
Section list_cmp.
Context {A B : Type} (cmp : A → B → comparison).
Fixpoint list_cmp (l : list A) (k : list B) : comparison :=
  match l, k with
  | [], [] => Eq
  | [], _ :: _ => Lt
  | _ :: _, [] => Gt
  | x :: l, y :: k => match cmp x y with Eq => list_cmp l k | c => c end
  end.
End list_cmp.

(** [str::as_bytes] *)
Fixpoint as_bytes (s : string) : list N :=
  match s with EmptyString => [] | String c s => Ascii.N_of_ascii c :: as_bytes s end.

(** The keys of an object, sorted. *)
Definition sorted_keys {V} (o : gmap string V) : list string :=
  merge_sort String.le (map_to_list o).*1.

(** The loop over the sorted keys; the left object holds the comparisons with
    its values. *)
Fixpoint cmp_values (keys : list string) (left : gmap string (value → comparison))
    (right : gmap string value) : comparison :=
  match keys with
  | [] => Eq
  | k :: keys =>
    match left !! k, right !! k with
    | Some cmp, Some right_val =>
      match cmp right_val with Eq => cmp_values keys left right | c => c end
    | _, _ => cmp_values keys left right
    end
  end.

Definition cmp_map (left : gmap string (value → comparison)) (right : gmap string value) : comparison :=
  match (size left ?= size right)%nat with
  | Eq =>
    let keys_left := sorted_keys left in
    match list_cmp String.compare keys_left (sorted_keys right) with
    | Eq => cmp_values keys_left left right
    | o => o
    end
  | o => o
  end.

(** ** [Value] *)
Fixpoint value_cmp (self other : value) {struct self} : comparison :=
  match self, other with
  | VStatic v1, VStatic v2 => static_cmp v1 v2
  | VStatic _, _ => Gt
  | _, VStatic _ => Lt
  | VBytes v1, VBytes v2 => list_cmp N.compare v1 v2
  | VBytes v1, VString v2 => list_cmp N.compare v1 (as_bytes v2)
  | VString v1, VBytes v2 => list_cmp N.compare (as_bytes v1) v2
  | VBytes _, _ => Gt
  | _, VBytes _ => Lt
  | VString v1, VString v2 => String.compare v1 v2
  | VString _, _ => Gt
  | _, VString _ => Lt
  | VArray v1, VArray v2 => list_cmp value_cmp v1 v2
  | VArray _, _ => Gt
  | _, VArray _ => Lt
  | VObject v1, VObject v2 => cmp_map (value_cmp <$> v1) v2
  end.

Example value_cmp_test :
  value_cmp (VObject {["a"%string := VStatic (SU64 1); "b"%string := VArray [VString "x"]]})
            (VObject {["a"%string := VStatic (SI64 1); "b"%string := VArray [VString "y"]]}) = Lt.
Proof. by vm_compute. Qed.

(** ** Comparisons *)

(** How the comparisons of three things fit together in a total preorder. *)
Definition cmp3 (ab bc ac : comparison) : Prop :=
  (ab = Eq → ac = bc) ∧ (bc = Eq → ac = ab) ∧ (ab = bc → ac = ab).

(** The first difference decides. *)
Definition lex (c1 c2 : comparison) : comparison :=
  match c1 with Eq => c2 | c => c end.

Lemma cmp3_lex ab1 bc1 ac1 ab2 bc2 ac2 :
  cmp3 ab1 bc1 ac1 → (ab1 = Eq → bc1 = Eq → cmp3 ab2 bc2 ac2) →
  cmp3 (lex ab1 ab2) (lex bc1 bc2) (lex ac1 ac2).
Proof.
  unfold cmp3, lex. intros (H1 & H2 & H3) H.
  destruct ab1, bc1; cbn in *; rewrite ?H1, ?H2, ?H3 by done; try (by apply H); by split_and!.
Qed.

Lemma CompOpp_lex c1 c2 : CompOpp (lex c1 c2) = lex (CompOpp c1) (CompOpp c2).
Proof. by destruct c1. Qed.

(** [a], [b] and [c] are ordered consistently. *)
Definition ordered {A} (cmp : A → A → comparison) (a b c : A) : Prop :=
  cmp b a = CompOpp (cmp a b) ∧ cmp3 (cmp a b) (cmp b c) (cmp a c).

Lemma Z_ordered a b c : ordered Z.compare a b c.
Proof.
  split; [apply Z.compare_antisym|]. unfold cmp3.
  destruct (Z.compare_spec a b), (Z.compare_spec b c), (Z.compare_spec a c);
    split_and!; intros; (done || lia).
Qed.

Lemma N_ordered a b c : ordered N.compare a b c.
Proof. unfold ordered. rewrite <-!N2Z.inj_compare. apply Z_ordered. Qed.

Lemma nat_ordered a b c : ordered Nat.compare a b c.
Proof. unfold ordered. rewrite <-!Nat2Z.inj_compare. apply Z_ordered. Qed.

Lemma list_cmp_cons {A B} (cmp : A → B → comparison) x l y k :
  list_cmp cmp (x :: l) (y :: k) = lex (cmp x y) (list_cmp cmp l k).
Proof. cbn. by destruct (cmp x y). Qed.

Section lists.
Context {A : Type} (cmp : A → A → comparison) (Q : A → Prop).

Lemma list_ordered l k m :
  Forall (λ x, ∀ y z, Q y → Q z → ordered cmp x y z) l → Forall Q k → Forall Q m →
  ordered (list_cmp cmp) l k m.
Proof.
  intros Hl. revert k m. induction Hl as [|x l Hx Hl IH]; intros k m Hk Hm.
  { destruct k, m; by split. }
  destruct Hk as [|y k Hy Hk].
  { split; [done|]. destruct m; by split_and!. }
  destruct Hm as [|z m Hz Hm].
  { destruct (Hx y y Hy Hy) as [Hs _], (IH k k Hk Hk) as [Hs' _]. split.
    - by rewrite !list_cmp_cons, CompOpp_lex, Hs, Hs'.
    - rewrite list_cmp_cons. unfold cmp3. destruct (lex _ _); by split_and!. }
  destruct (Hx y z Hy Hz) as [Hs Ht], (IH k m Hk Hm) as [Hs' Ht']. split.
  - by rewrite !list_cmp_cons, CompOpp_lex, Hs, Hs'.
  - rewrite !list_cmp_cons. by apply cmp3_lex.
Qed.
End lists.

Lemma list_ordered_all {A} (cmp : A → A → comparison) l k m :
  (∀ x y z, ordered cmp x y z) → ordered (list_cmp cmp) l k m.
Proof.
  intros H. apply (list_ordered cmp (λ _, True)); apply Forall_true; auto.
Qed.

Lemma list_cmp_Eq {A} (cmp : A → A → comparison) l k :
  (∀ x y, cmp x y = Eq → x = y) → list_cmp cmp l k = Eq → l = k.
Proof.
  intros H. revert k. induction l as [|x l IH]; intros [|y k]; cbn; try done.
  destruct (cmp x y) eqn:Hc; try done. apply H in Hc as ->. by intros ->%IH.
Qed.

(** Strings are compared by their bytes. *)
Lemma string_cmp_bytes s t : String.compare s t = list_cmp N.compare (as_bytes s) (as_bytes t).
Proof.
  revert t. induction s as [|a s IH]; intros [|b t]; cbn [String.compare as_bytes list_cmp]; try done.
  unfold Ascii.compare. destruct (_ ?= _)%N; [apply IH|done|done].
Qed.

Lemma bytes_ordered l k m : ordered (list_cmp N.compare) l k m.
Proof. apply list_ordered_all, N_ordered. Qed.

Lemma string_ordered s t u : ordered String.compare s t u.
Proof. unfold ordered. rewrite !string_cmp_bytes. apply bytes_ordered. Qed.

(** ** Values without floats *)
Inductive float_free : value → Prop :=
  | ff_static s : (∀ f, s ≠ SF64 f) → float_free (VStatic s)
  | ff_string s : float_free (VString s)
  | ff_bytes b : float_free (VBytes b)
  | ff_array l : (∀ v, v ∈ l → float_free v) → float_free (VArray l)
  | ff_object o : (∀ k v, o !! k = Some v → float_free v) → float_free (VObject o).

(** What orders the numbers and the other static nodes. *)
Definition static_class (s : static_node) : nat :=
  match s with SNull => 2 | SBool _ => 1 | _ => 0 end.
Definition static_num (s : static_node) : Z :=
  match s with
  | SBool true => 1
  | SI64 z => z
  | SU64 n => Z.of_N n
  | _ => 0
  end.

Lemma static_cmp_num a b :
  (∀ f, a ≠ SF64 f) → (∀ f, b ≠ SF64 f) →
  static_cmp a b =
    lex (Nat.compare (static_class a) (static_class b)) (Z.compare (static_num a) (static_num b)).
Proof.
  intros Ha Hb. destruct a as [|x|x|x|x], b as [|y|y|y|y]; try (by destruct (Ha x)); try (by destruct (Hb y));
    try done.
  - by destruct x, y.
  - cbn. destruct (Z.leb_spec 0 x); [by rewrite <-N2Z.inj_compare, Z2N.id|].
    symmetry. apply Z.compare_lt_iff. lia.
  - cbn. destruct (Z.leb_spec 0 y); [by rewrite <-N2Z.inj_compare, Z2N.id|].
    symmetry. apply Z.compare_gt_iff. lia.
  - cbn. by rewrite <-N2Z.inj_compare.
Qed.

Lemma static_ordered a b c :
  (∀ f, a ≠ SF64 f) → (∀ f, b ≠ SF64 f) → (∀ f, c ≠ SF64 f) → ordered static_cmp a b c.
Proof.
  intros Ha Hb Hc. unfold ordered. rewrite !static_cmp_num by done.
  destruct (nat_ordered (static_class a) (static_class b) (static_class c)) as [Hs Ht],
    (Z_ordered (static_num a) (static_num b) (static_num c)) as [Hs' Ht'].
  split; [by rewrite CompOpp_lex, Hs, Hs'|by apply cmp3_lex].
Qed.

(** ** Objects *)
Lemma sorted_keys_fmap {V W} (f : V → W) (o : gmap string V) :
  sorted_keys (f <$> o) = sorted_keys o.
Proof.
  unfold sorted_keys.
  apply (Sorted_unique String.le); [apply Sorted_merge_sort; apply _..|].
  rewrite !merge_sort_Permutation, map_to_list_fmap, <-list_fmap_compose.
  apply reflexive_eq, list_fmap_ext. by intros ? [].
Qed.

Lemma elem_of_sorted_keys {V} (o : gmap string V) k : k ∈ sorted_keys o ↔ is_Some (o !! k).
Proof.
  unfold sorted_keys. rewrite merge_sort_Permutation, list_elem_of_fmap. split.
  - intros ([k' v] & -> & H%elem_of_map_to_list). by eauto.
  - intros [v H%elem_of_map_to_list]. by exists (k, v).
Qed.

Lemma cmp_values_cons k ks l r x y :
  l !! k = Some x → r !! k = Some y →
  cmp_values (k :: ks) (value_cmp <$> l) r =
    lex (value_cmp x y) (cmp_values ks (value_cmp <$> l) r).
Proof.
  intros Hl Hr. cbn [cmp_values]. rewrite lookup_fmap, Hl, Hr. cbn. by destruct (value_cmp x y).
Qed.

Lemma object_cmp l r :
  value_cmp (VObject l) (VObject r) =
    lex (Nat.compare (size l) (size r))
        (lex (list_cmp String.compare (sorted_keys l) (sorted_keys r))
             (cmp_values (sorted_keys l) (value_cmp <$> l) r)).
Proof.
  change (value_cmp (VObject l) (VObject r)) with (cmp_map (value_cmp <$> l) r).
  unfold cmp_map. rewrite map_size_fmap, sorted_keys_fmap.
  destruct (_ ?= _)%nat; [|done..]. by destruct (list_cmp _ _ _).
Qed.

(** Objects with the same keys are ordered by their values. *)
Lemma values_ordered ks l r m :
  (∀ k, k ∈ ks → is_Some (l !! k)) → (∀ k, k ∈ ks → is_Some (r !! k)) →
  (∀ k, k ∈ ks → is_Some (m !! k)) →
  (∀ k x y z, l !! k = Some x → r !! k = Some y → m !! k = Some z → ordered value_cmp x y z) →
  cmp_values ks (value_cmp <$> r) l = CompOpp (cmp_values ks (value_cmp <$> l) r) ∧
  cmp3 (cmp_values ks (value_cmp <$> l) r) (cmp_values ks (value_cmp <$> r) m)
       (cmp_values ks (value_cmp <$> l) m).
Proof.
  intros Hl Hr Hm Hord. induction ks as [|k ks IH]; [by split|].
  destruct IH as [Hs Ht]; [intros ? Hk; first [apply Hl|apply Hr|apply Hm]; by right..|].
  destruct (Hl k) as [x Hx], (Hr k) as [y Hy], (Hm k) as [z Hz]; [by apply list_elem_of_here..|].
  destruct (Hord k x y z) as [Hs1 Ht1]; [done..|].
  rewrite (cmp_values_cons k ks l r x y), (cmp_values_cons k ks r l y x),
    (cmp_values_cons k ks r m y z), (cmp_values_cons k ks l m x z) by done.
  split; [by rewrite CompOpp_lex, Hs, Hs1|by apply cmp3_lex].
Qed.

Lemma keys_cmp_Eq (l r : list string) : list_cmp String.compare l r = Eq → l = r.
Proof. apply list_cmp_Eq. intros x y. by apply String.compare_eq_iff. Qed.

Lemma object_ordered l r m :
  (∀ k x, l !! k = Some x → ∀ y z, float_free y → float_free z → ordered value_cmp x y z) →
  (∀ k y, r !! k = Some y → float_free y) → (∀ k z, m !! k = Some z → float_free z) →
  ordered (λ l r, value_cmp (VObject l) (VObject r)) l r m.
Proof.
  intros Hord Hr Hm. unfold ordered. rewrite !object_cmp.
  destruct (nat_ordered (size l) (size r) (size m)) as [Hs1 Ht1],
    (list_ordered_all String.compare (sorted_keys l) (sorted_keys r) (sorted_keys m) string_ordered)
    as [Hs2 Ht2].
  assert (∀ m' : gmap string value, (∀ k z, m' !! k = Some z → float_free z) →
    sorted_keys l = sorted_keys r → sorted_keys r = sorted_keys m' →
    cmp_values (sorted_keys r) (value_cmp <$> r) l = CompOpp (cmp_values (sorted_keys l) (value_cmp <$> l) r) ∧
    cmp3 (cmp_values (sorted_keys l) (value_cmp <$> l) r) (cmp_values (sorted_keys r) (value_cmp <$> r) m')
         (cmp_values (sorted_keys l) (value_cmp <$> l) m')) as Hv.
  { intros m' Hm' Hlr Hrm. rewrite <-Hlr.
    apply values_ordered; [intros k Hk; apply elem_of_sorted_keys; congruence..|].
    intros k x y z Hx Hy Hz. by eapply Hord; eauto. }
  split.
  - rewrite !CompOpp_lex, Hs1, Hs2. f_equal.
    destruct (list_cmp String.compare (sorted_keys l) (sorted_keys r)) eqn:Hk; [|done..].
    apply keys_cmp_Eq in Hk. by apply (Hv r).
  - apply cmp3_lex; [done|intros _ _]. apply cmp3_lex; [done|].
    intros Hlr%keys_cmp_Eq Hrm%keys_cmp_Eq. by apply (Hv m).
Qed.

(** ** Induction on values *)
Fixpoint value_size (v : value) : nat :=
  match v with
  | VArray l => S (sum_list (value_size <$> l))
  | VObject o => S (map_fold (λ _ v n, (value_size v + n)%nat) 0%nat o)
  | _ => 1%nat
  end.

Lemma value_size_elem v l : v ∈ l → (value_size v < value_size (VArray l))%nat.
Proof.
  induction l as [|x l IH]; [by intros ?%not_elem_of_nil|].
  intros [->|Hv]%elem_of_cons; cbn; [lia|]. specialize (IH Hv). cbn in IH. lia.
Qed.

Lemma value_size_lookup v k o : o !! k = Some v → (value_size v < value_size (VObject o))%nat.
Proof.
  intros Hv. cbn. rewrite <-(insert_delete_id o k v) by done.
  rewrite map_fold_insert_L; [lia|intros; lia|]. by rewrite lookup_delete, decide_True.
Qed.

(** The kinds of values, the greatest first: static values, strings and bytes,
    arrays, objects. *)
Definition value_class (v : value) : nat :=
  match v with VStatic _ => 3 | VString _ | VBytes _ => 2 | VArray _ => 1 | VObject _ => 0 end.

Lemma value_cmp_class a b :
  value_cmp a b = lex (Nat.compare (value_class a) (value_class b)) (value_cmp a b).
Proof. by destruct a, b. Qed.

(** Strings and bytes, as bytes. *)
Definition value_bytes (v : value) : list N :=
  match v with VString s => as_bytes s | VBytes b => b | _ => [] end.

Lemma value_cmp_bytes a b :
  value_class a = 2%nat → value_class b = 2%nat →
  value_cmp a b = list_cmp N.compare (value_bytes a) (value_bytes b).
Proof. destruct a, b; try done. intros _ _. apply string_cmp_bytes. Qed.

Lemma value_ordered a b c :
  float_free a → float_free b → float_free c → ordered value_cmp a b c.
Proof.
  remember (value_size a) as n eqn:Hn. revert a Hn b c.
  induction (lt_wf n) as [n _ IH]. intros a -> b c Ha Hb Hc.
  assert (∀ c, float_free c → value_class a = value_class b → value_class b = value_class c →
    ordered value_cmp a b c) as Hin.
  { clear c Hc. intros c Hc. destruct Ha as [s Hs|s|bs|l Hl|o Ho].
    - destruct Hb as [s' Hs'| | | |]; try done. destruct Hc as [s'' Hs''| | | |]; try done.
      intros _ _. by apply (static_ordered s s' s'').
    - intros H1 H2. unfold ordered. rewrite !value_cmp_bytes by (cbn in *; congruence).
      apply bytes_ordered.
    - intros H1 H2. unfold ordered. rewrite !value_cmp_bytes by (cbn in *; congruence).
      apply bytes_ordered.
    - destruct Hb as [| | |k Hk|]; try done. destruct Hc as [| | |m Hm|]; try done. intros _ _.
      apply (list_ordered value_cmp float_free l k m); apply Forall_forall; [|done|done].
      intros x Hx y z Hy Hz.
      apply (IH (value_size x)); [by apply value_size_elem|done|by apply Hl|done|done].
    - destruct Hb as [| | | |r Hr]; try done. destruct Hc as [| | | |m Hm]; try done. intros _ _.
      apply (object_ordered o r m); [|done|done]. intros k x Hx y z Hy Hz.
      apply (IH (value_size x)); [by eapply value_size_lookup|done|by eapply Ho|done|done]. }
  destruct (nat_ordered (value_class a) (value_class b) (value_class c)) as [Hs Ht].
  unfold ordered. rewrite (value_cmp_class a b), (value_cmp_class b c), (value_cmp_class a c),
    (value_cmp_class b a). split.
  - rewrite CompOpp_lex, Hs. destruct (value_class a ?= value_class b)%nat eqn:Hab; [|reflexivity..].
    apply Nat.compare_eq_iff in Hab. by apply (Hin b).
  - apply cmp3_lex; [done|]. rewrite !Nat.compare_eq_iff. intros H1 H2. by apply Hin.
Qed.

(** The order on values is a total preorder as long as no floats are
    involved: any two values, however nested, compare opposite in the two
    directions, a value equals itself, the order is transitive, and values
    that compare as equal are interchangeable in comparisons.  Signed and
    unsigned numbers are compared as integers, whatever their type. *)
Theorem value_total_order (a b c : value)
    (Ha : float_free a) (Hb : float_free b) (Hc : float_free c) :
  value_cmp a a = Eq ∧
  value_cmp b a = CompOpp (value_cmp a b) ∧
  (value_cmp a b ≠ Gt → value_cmp b c ≠ Gt → value_cmp a c ≠ Gt) ∧
  (value_cmp a b = Eq → value_cmp a c = value_cmp b c) ∧
  (∀ m n, a = VStatic (SI64 m) → b = VStatic (SU64 n) → value_cmp a b = (m ?= Z.of_N n)%Z).
Proof.
  destruct (value_ordered a b c) as (Hs & H1 & H2 & H3); [done..|].
  destruct (value_ordered a a a) as [Hr _]; [done..|]. split_and!.
  - by destruct (value_cmp a a).
  - done.
  - destruct (value_cmp a b) eqn:Hab; [|intros _|done].
    + intros _. by rewrite H1.
    + destruct (value_cmp b c) eqn:Hbc; [..|done]; intros _; [by rewrite H2|by rewrite H3].
  - done.
  - intros m n -> ->. cbn. destruct (Z.leb_spec 0 m); [by rewrite <-N2Z.inj_compare, Z2N.id|].
    symmetry. apply Z.compare_lt_iff. lia.
Qed.

(** Goes through the elements of a literal list. *)
Ltac elem_cases H :=
  repeat (apply elem_of_cons in H as [->|H]; [done|]); by apply not_elem_of_nil in H.

Lemma value_total_order_witness :
  let a := VArray [VStatic (SI64 (-1))] in
  let b := VArray [VStatic (SU64 1); VStatic SNull] in
  let c := VArray [VStatic (SU64 1); VStatic SNull; VString "x"] in
  (float_free a ∧ float_free b ∧ float_free c) ∧
  value_cmp a b = Lt ∧ value_cmp b c = Lt ∧ value_cmp a c ≠ Gt.
Proof.
  intros a b c.
  assert (∀ l, (∀ v, v ∈ l → float_free v) → float_free (VArray l)) as Harr by apply ff_array.
  assert (float_free (VStatic (SI64 (-1)))) as H1 by (by constructor).
  assert (float_free (VStatic (SU64 1))) as H2 by (by constructor).
  assert (float_free (VStatic SNull)) as H3 by (by constructor).
  assert (float_free (VString "x")) as H4 by constructor.
  assert (float_free a) as Ha by (apply Harr; intros v Hv; elem_cases Hv).
  assert (float_free b) as Hb by (apply Harr; intros v Hv; elem_cases Hv).
  assert (float_free c) as Hc by (apply Harr; intros v Hv; elem_cases Hv).
  split_and!; [done..|reflexivity|reflexivity|].
  apply (value_total_order a b c Ha Hb Hc); done.
Defined.

(** With floats it is not: they are truncated when compared with integers, so
    two different floats equal the same integer. *)
Definition one_and_half : f64 := S754_finite false 6755399441055744 (-52).
Definition one_and_quarter : f64 := S754_finite false 5629499534213120 (-52).
Lemma float_order_not_transitive :
  value_cmp (VStatic (SF64 one_and_half)) (VStatic (SU64 1)) = Eq ∧
  value_cmp (VStatic (SU64 1)) (VStatic (SF64 one_and_quarter)) = Eq ∧
  value_cmp (VStatic (SF64 one_and_half)) (VStatic (SF64 one_and_quarter)) = Gt.
Proof. by vm_compute. Qed.
