(* ===== verification/Text.v ===== *)
(** Strings as the bytes of their UTF-8 encoding: slicing and trimming, as
    the standard library has them. *)
From Stdlib Require Import Ascii.
From Stdlib Require Import Floats.SpecFloat.
From S2P Require Import Prelude Value ValueOrd.

Definition to_str (s : list N) : string := String.string_of_list_ascii (Ascii.ascii_of_N <$> s).
Definition string_rev (s : string) : string := String.string_of_list_ascii (reverse (String.list_ascii_of_string s)).

Lemma to_str_as_bytes s : to_str (as_bytes s) = s.
Proof. induction s as [|c s IH]; [done|]. unfold to_str in *. cbn. by rewrite ascii_N_embedding, IH. Qed.

Lemma as_bytes_app s t : as_bytes (s +:+ t) = as_bytes s ++ as_bytes t.
Proof. induction s as [|c s IH]; [done|]. cbn. by rewrite <-IH. Qed.

(** ** Slices

    A string is only cut in front of a byte that does not continue a
    character. *)
Definition continues (c : N) : bool := (128 <=? c)%N && (c <? 192)%N.
Definition boundary (rest : list N) : bool :=
  match rest with c :: _ => negb (continues c) | [] => true end.

(** [s.get(start..)] *)
Definition get_from (start : N) (s : list N) : option (list N) :=
  if (start <=? N.of_nat (length s))%N then
    let rest := drop (N.to_nat start) s in if boundary rest then Some rest else None
  else None.

(** No byte that continues a character is in front or follows an ASCII
    character; every string is like this ([utf8_cut]). *)
Fixpoint cut_ok (ascii : bool) (s : list N) : bool :=
  match s with [] => true | c :: s => negb (ascii && continues c) && cut_ok (c <? 128)%N s end.
Definition str_ok (s : string) : Prop := cut_ok true (as_bytes s) = true.

(** [str::from_utf8] succeeds. *)
Fixpoint utf8_ok (s : list N) : bool :=
  match s with
  | [] => true
  | c :: s =>
    if (c <? 128)%N then utf8_ok s
    else
      match s with
      | [] => false
      | d :: s =>
        if (194 <=? c)%N && (c <=? 223)%N then continues d && utf8_ok s
        else
          match s with
          | [] => false
          | e :: s =>
            if (c =? 224)%N then (160 <=? d)%N && (d <? 192)%N && continues e && utf8_ok s
            else if (c =? 237)%N then (128 <=? d)%N && (d <? 160)%N && continues e && utf8_ok s
            else if (225 <=? c)%N && (c <=? 239)%N then continues d && continues e && utf8_ok s
            else
              match s with
              | [] => false
              | f :: s =>
                (if (c =? 240)%N then (144 <=? d)%N && (d <? 192)%N
                 else if (c =? 244)%N then (128 <=? d)%N && (d <? 144)%N
                 else (241 <=? c)%N && (c <=? 243)%N && continues d)
                && continues e && continues f && utf8_ok s
              end
          end
      end
  end.

Lemma cut_ok_weaken s : cut_ok true s = true → cut_ok false s = true.
Proof. destruct s as [|c s]; [done|]. cbn. by intros [_ ?]%andb_true_iff. Qed.

Lemma cut_ok_high d s : (128 ≤ d)%N → cut_ok true s = true → cut_ok false (d :: s) = true.
Proof. intros Hd Hs. cbn. rewrite (proj2 (N.ltb_ge _ _)) by done. by apply cut_ok_weaken. Qed.
Lemma cut_ok_higher d s : (128 ≤ d)%N → cut_ok false s = true → cut_ok false (d :: s) = true.
Proof. intros Hd Hs. cbn. by rewrite (proj2 (N.ltb_ge _ _)). Qed.
Lemma cut_ok_start c s : (192 ≤ c)%N → cut_ok false s = true → cut_ok true (c :: s) = true.
Proof.
  intros Hd Hs. cbn. unfold continues. rewrite (proj2 (N.ltb_ge _ 192)), (proj2 (N.ltb_ge _ 128)) by lia.
  by rewrite andb_false_r.
Qed.

Lemma continues_high d : continues d = true → (128 ≤ d)%N.
Proof. unfold continues. by intros [?%N.leb_le _]%andb_true_iff. Qed.

Lemma utf8_cut s : utf8_ok s = true → cut_ok true s = true.
Proof.
  remember (length s) as n eqn:Hn. revert s Hn. induction (lt_wf n) as [n _ IH]. intros s ->.
  assert (∀ s', (length s' < length s)%nat → utf8_ok s' = true → cut_ok true s' = true) as IH' by (intros; by eapply IH).
  clear IH. destruct s as [|c s]; [done|]. cbn [utf8_ok].
  destruct (N.ltb_spec c 128) as [Hc|Hc].
  { intros Hs. cbn. unfold continues. rewrite (proj2 (N.leb_gt 128 c)), (proj2 (N.ltb_lt c 128)) by done. apply IH'; [cbn; lia|done]. }
  destruct s as [|d s]; [done|].
  destruct ((194 <=? c)%N && (c <=? 223)%N) eqn:H2.
  { intros [Hd Hs]%andb_true_iff. apply andb_true_iff in H2 as [H2%N.leb_le _].
    apply cut_ok_start; [lia|]. apply cut_ok_high; [by apply continues_high|]. apply IH'; [cbn; lia|done]. }
  destruct s as [|e s]; [done|].
  assert ((192 ≤ c ∧ 128 ≤ d ∧ 128 ≤ e)%N → utf8_ok s = true → cut_ok true (c :: d :: e :: s) = true) as H3.
  { intros (? & ? & ?) Hs. apply cut_ok_start, cut_ok_higher, cut_ok_high; [done..|]. apply IH'; [cbn; lia|done]. }
  destruct (N.eqb_spec c 224) as [->|_].
  { rewrite !andb_true_iff, N.leb_le. intros [[[Hd _] He%continues_high] Hs]. apply H3; [lia|done]. }
  destruct (N.eqb_spec c 237) as [->|_].
  { rewrite !andb_true_iff, N.leb_le. intros [[[Hd _] He%continues_high] Hs]. apply H3; [lia|done]. }
  destruct ((225 <=? c)%N && (c <=? 239)%N) eqn:H4.
  { rewrite !andb_true_iff. intros [[Hd%continues_high He%continues_high] Hs].
    apply andb_true_iff in H4 as [H4%N.leb_le _]. apply H3; [lia|done]. }
  destruct s as [|f s]; [done|]. rewrite !andb_true_iff. intros [[[Hcd He%continues_high] Hf%continues_high] Hs].
  assert (192 ≤ c ∧ 128 ≤ d)%N as [? ?].
  { destruct (N.eqb_spec c 240) as [->|_]; [|destruct (N.eqb_spec c 244) as [->|_]].
    - apply andb_true_iff in Hcd as [?%N.leb_le _]. lia.
    - apply andb_true_iff in Hcd as [?%N.leb_le _]. lia.
    - rewrite !andb_true_iff, N.leb_le in Hcd. destruct Hcd as [[? _] ?%continues_high]. lia. }
  apply cut_ok_start, cut_ok_higher, cut_ok_higher, cut_ok_high; [done..|]. apply IH'; [cbn; lia|done].
Qed.

(** The UTF-8 encodings of white space, and [trim]. *)
Definition white_space : list (list N) :=
  ([[9]; [10]; [11]; [12]; [13]; [32]; [194; 133]; [194; 160]; [225; 154; 128];
    [226; 128; 168]; [226; 128; 169]; [226; 128; 175]; [226; 129; 159]; [227; 128; 128]] ++
   ((λ i, [226; 128; 128 + N.of_nat i]) <$> seq 0 11))%N.

Fixpoint strip (p s : list N) : option (list N) :=
  match p, s with
  | [], s => Some s
  | c :: p, d :: s => if (c =? d)%N then strip p s else None
  | _, [] => None
  end.
Fixpoint trim_start (fuel : nat) (chars : list (list N)) (s : list N) : list N :=
  match fuel, list_find (λ p, is_Some (strip p s)) chars with
  | Datatypes.S fuel, Some (_, p) => trim_start fuel chars (drop (length p) s)
  | _, _ => s
  end.
Definition trim (s : list N) : list N :=
  let s := trim_start (length s) white_space s in
  reverse (trim_start (length s) (reverse <$> white_space) (reverse s)).

(** Numbers as text and as bytes: what the crates for reading and writing
    numbers do, and the bits of floats. *)

(** ** Decimal digits

    The digits of a number, the first one is not zero unless it is the only
    one. *)
Fixpoint digits (fuel : nat) (n : N) (acc : list N) : list N :=
  match fuel with
  | O => acc
  | S fuel =>
    let acc := (48 + n mod 10)%N :: acc in
    if (n / 10 =? 0)%N then acc else digits fuel (n / 10) acc
  end.
Definition decimal (n : N) : list N := digits (S (N.size_nat n)) n [].

Fixpoint undigits (n : N) (s : list N) : option N :=
  match s with
  | [] => Some n
  | c :: s => if ((48 <=? c) && (c <=? 57))%N then undigits (n * 10 + (c - 48)) s else None
  end.

Lemma size_nat_log2 n : (n ≠ 0)%N → N.size_nat n = S (N.to_nat (N.log2 n)).
Proof.
  intros Hn. destruct n as [|p]; [done|]. cbn [N.size_nat]. clear Hn.
  induction p as [p IH|p IH|]; cbn [Pos.size_nat N.log2]; [..|done]; rewrite IH; destruct p; cbn; lia.
Qed.

Lemma size_nat_div10 n : (n / 10 ≠ 0)%N → (N.size_nat (n / 10) < N.size_nat n)%nat.
Proof.
  intros Hz. assert (n ≠ 0)%N as Hn by (intros ->; by rewrite N.Div0.div_0_l in Hz).
  rewrite !size_nat_log2 by done.
  enough (N.log2 (n / 10) < N.log2 n)%N by lia.
  assert (2 * (n / 10) ≤ n)%N as Hle by (pose proof (N.Div0.mul_div_le n 10); generalize dependent (n / 10)%N; lia).
  generalize dependent (n / 10)%N. intros q Hz Hle. apply N.log2_le_mono in Hle.
  rewrite N.log2_double in Hle by lia. lia.
Qed.

Lemma undigits_digits fuel n acc : (N.size_nat n < fuel)%nat → undigits 0 (digits fuel n acc) = undigits n acc.
Proof.
  revert n acc. induction fuel as [|fuel IH]; intros n acc Hf; [lia|]. cbn [digits].
  pose proof (N.mod_lt n 10 ltac:(done)) as Hm. pose proof (N.div_mod n 10 ltac:(done)) as Hd.
  pose proof (size_nat_div10 n) as Hs.
  generalize dependent (n mod 10)%N. generalize dependent (n / 10)%N. intros q Hs r Hr Hd.
  assert (undigits q ((48 + r)%N :: acc) = undigits n acc) as Hc.
  { cbn [undigits]. rewrite (proj2 (N.leb_le 48 (48 + r))), (proj2 (N.leb_le (48 + r) 57)) by lia. cbn [andb].
    f_equal. lia. }
  destruct (N.eqb_spec q 0) as [->|Hz]; [done|]. rewrite IH, Hc; [done|]. specialize (Hs Hz). lia.
Qed.

Lemma digits_chars fuel n acc : Forall (λ c, 48 ≤ c ≤ 57)%N acc → Forall (λ c, 48 ≤ c ≤ 57)%N (digits fuel n acc).
Proof.
  revert n acc. induction fuel as [|fuel IH]; intros n acc Hacc; [done|]. cbn [digits].
  pose proof (N.mod_lt n 10 ltac:(done)) as Hm.
  assert (Forall (λ c, 48 ≤ c ≤ 57)%N ((48 + n mod 10)%N :: acc)) by (constructor; [generalize dependent (n mod 10)%N; lia|done]).
  destruct (_ =? _)%N; auto.
Qed.

Lemma decimal_chars n : Forall (λ c, 48 ≤ c ≤ 57)%N (decimal n).
Proof. apply digits_chars. constructor. Qed.

Lemma digits_length fuel n acc : (length acc ≤ length (digits fuel n acc))%nat.
Proof.
  revert n acc. induction fuel as [|fuel IH]; intros n acc; [done|]. cbn [digits].
  destruct (_ =? _)%N; cbn; [lia|]. pose proof (IH (n / 10)%N ((48 + n mod 10)%N :: acc)). cbn in *. lia.
Qed.

Lemma decimal_nonempty n : decimal n ≠ [].
Proof.
  unfold decimal. cbn [digits]. destruct (_ =? _)%N; [done|].
  pose proof (digits_length (N.size_nat n) (n / 10) [(48 + n mod 10)%N]) as Hl.
  intros He. rewrite He in Hl. cbn in Hl. lia.
Qed.

Lemma undigits_decimal n : undigits 0 (decimal n) = Some n.
Proof. unfold decimal. rewrite undigits_digits by lia. done. Qed.

(** ** Floats as 64 bits *)
Definition finite (f : f64) : bool :=
  match f with S754_zero _ => true | S754_finite _ m e => bounded f64_prec f64_emax m e | _ => false end.

Definition sign_bit (s : bool) : N := if s then 9223372036854775808 else 0.

(** [f64::to_bits] and [f64::from_bits] *)
Definition f64_to_bits (f : f64) : N :=
  match f with
  | S754_zero s => sign_bit s
  | S754_infinity s => sign_bit s + 2047 * 4503599627370496
  | S754_nan => 2047 * 4503599627370496 + 2251799813685248
  | S754_finite s m e =>
    if (N.pos m <? 4503599627370496)%N then sign_bit s + N.pos m
    else sign_bit s + Z.to_N (e + 1075) * 4503599627370496 + (N.pos m - 4503599627370496)
  end%N.

Definition f64_from_bits (n : N) : f64 :=
  let s := (9223372036854775808 <=? n)%N in
  let ex := ((n / 4503599627370496) mod 2048)%N in
  let frac := (n mod 4503599627370496)%N in
  if (ex =? 2047)%N then if (frac =? 0)%N then S754_infinity s else S754_nan
  else
    match (if (ex =? 0)%N then frac else frac + 4503599627370496)%N with
    | 0%N => S754_zero s
    | N.pos m => S754_finite s m (if (ex =? 0)%N then -1074 else Z.of_N ex - 1075)
    end.

Lemma digits2_bounds m : (2 ^ (Zpos (digits2_pos m) - 1) ≤ Zpos m < 2 ^ Zpos (digits2_pos m))%Z.
Proof.
  induction m as [m IH|m IH|]; cbn [digits2_pos]; [..|done]; rewrite Pos2Z.inj_succ.
  all: replace (Z.succ (Zpos (digits2_pos m)) - 1)%Z with (Z.succ (Zpos (digits2_pos m) - 1)) by lia.
  all: rewrite !Z.pow_succ_r by lia; lia.
Qed.

(** A bounded mantissa has 53 bits, or fewer and the least exponent. *)
Lemma bounded_spec m e :
  bounded f64_prec f64_emax m e = true →
  (Zpos m < 4503599627370496 ∧ e = -1074 ∨
   4503599627370496 ≤ Zpos m < 9007199254740992 ∧ -1074 ≤ e ≤ 971)%Z.
Proof.
  unfold bounded, canonical_mantissa, fexp, emin, f64_prec, f64_emax.
  intros [Hc%Z.eqb_eq He%Z.leb_le]%andb_true_iff.
  pose proof (digits2_bounds m) as [Hl Hu]. set (d := Zpos (digits2_pos m)) in *.
  change 4503599627370496%Z with (2 ^ 52)%Z. change 9007199254740992%Z with (2 ^ 53)%Z.
  assert (d ≤ 52 ∨ d = 53)%Z as [Hd|Hd] by lia.
  - left. split; [|lia]. pose proof (Z.pow_le_mono_r 2 d 52). lia.
  - right. rewrite Hd in Hl, Hu. replace (53 - 1)%Z with 52%Z in Hl by lia. lia.
Qed.

Lemma f64_from_parts s ex frac :
  (ex < 2048)%N → (frac < 4503599627370496)%N →
  f64_from_bits (sign_bit s + ex * 4503599627370496 + frac) =
  if (ex =? 2047)%N then if (frac =? 0)%N then S754_infinity s else S754_nan
  else
    match (if (ex =? 0)%N then frac else frac + 4503599627370496)%N with
    | 0%N => S754_zero s
    | N.pos m => S754_finite s m (if (ex =? 0)%N then -1074 else Z.of_N ex - 1075)
    end.
Proof.
  intros Hex Hfrac. unfold f64_from_bits.
  set (k := if s then 2048%N else 0%N).
  replace (sign_bit s + ex * 4503599627370496 + frac)%N with ((k + ex) * 4503599627370496 + frac)%N
    by (subst k; destruct s; cbn [sign_bit]; lia).
  rewrite (N.div_add_l (k + ex)), (N.div_small frac), N.add_0_r by done.
  replace ((k + ex) mod 2048)%N with ex.
  2: { subst k. destruct s; [|by rewrite N.mod_small]. rewrite N.add_comm.
       replace (ex + 2048)%N with (ex + 1 * 2048)%N by lia. by rewrite N.Div0.mod_add, N.mod_small. }
  rewrite (N.add_comm _ frac), N.Div0.mod_add, (N.mod_small frac) by done.
  replace (9223372036854775808 <=? _)%N with s; [done|].
  subst k. symmetry. destruct s; [apply N.leb_le|apply N.leb_gt]; lia.
Qed.

Lemma f64_bits_roundtrip f : finite f = true → f64_from_bits (f64_to_bits f) = f.
Proof.
  destruct f as [s| | |s m e]; try done; cbn [finite f64_to_bits].
  - intros _. pose proof (f64_from_parts s 0 0) as Hp. rewrite N.mul_0_l, !N.add_0_r in Hp. by apply Hp.
  - intros [[Hm ->]|[Hm He]]%bounded_spec.
    + rewrite (proj2 (N.ltb_lt _ _)) by lia.
      pose proof (f64_from_parts s 0 (N.pos m)) as Hp. rewrite N.mul_0_l, N.add_0_r in Hp. apply Hp; lia.
    + rewrite (proj2 (N.ltb_ge _ _)) by lia. rewrite f64_from_parts by lia.
      rewrite (proj2 (N.eqb_neq _ 2047)), (proj2 (N.eqb_neq _ 0)) by lia.
      replace (N.pos m - _ + _)%N with (N.pos m) by lia. f_equal. lia.
Qed.

Lemma f64_to_bits_ok f : finite f = true → u64_ok (f64_to_bits f).
Proof.
  unfold u64_ok, w64. destruct f as [s| | |s m e]; try done; cbn [finite f64_to_bits].
  - by destruct s.
  - intros [[Hm ->]|[Hm He]]%bounded_spec.
    + rewrite (proj2 (N.ltb_lt _ _)) by lia. destruct s; cbn [sign_bit]; lia.
    + rewrite (proj2 (N.ltb_ge _ _)) by lia. destruct s; cbn [sign_bit]; lia.
Qed.

(** ** Reading and writing numbers

    Numbers are read by the lexical crate and written by those simd-json
    uses, itoa and ryu: a float is written with digits, a point, an exponent
    and signs, and is read back. *)
Definition float_char (c : N) : Prop := (48 ≤ c ≤ 57 ∨ c = 43 ∨ c = 45 ∨ c = 46 ∨ c = 101)%N.

Class numbers := {
  parse_u64 : list N → option N;
  parse_i64 : list N → option Z;
  parse_f64 : list N → option f64;
  write_f64 : f64 → list N;

  parse_u64_decimal n : u64_ok n → parse_u64 (decimal n) = Some n;
  parse_i64_negative n : (0 < n ≤ 9223372036854775808)%N → parse_i64 (45%N :: decimal n) = Some (- Z.of_N n)%Z;
  parse_f64_written f : finite f = true → parse_f64 (write_f64 f) = Some f;
  write_f64_nonempty f : finite f = true → write_f64 f ≠ [];
  write_f64_chars f : finite f = true → Forall float_char (write_f64 f);
}.

(** The numbers of an integer: [write_int], which is itoa's. *)
Definition write_i64 (z : Z) : list N :=
  if (z <? 0)%Z then 45%N :: decimal (Z.to_N (- z)) else decimal (Z.to_N z).

(** Floats as the number of their bits, for evaluation. *)
Definition undigits_signed (s : list N) : option Z :=
  match s with
  | c :: s' => if (c =? 45)%N then (λ n, - Z.of_N n)%Z <$> undigits 0 s' else Z.of_N <$> undigits 0 s
  | [] => None
  end.
#[export] Program Instance bit_numbers : numbers :=
  {| parse_u64 s := if bool_decide (s = []) then None else undigits 0 s;
     parse_i64 := undigits_signed;
     parse_f64 s := if bool_decide (s = []) then None else f64_from_bits <$> undigits 0 s;
     write_f64 f := decimal (f64_to_bits f) |}.
Next Obligation. intros n _. cbv beta. rewrite bool_decide_false by apply decimal_nonempty. apply undigits_decimal. Qed.
Next Obligation. intros n _. change (((λ n, - Z.of_N n)%Z <$> undigits 0 (decimal n)) = Some (- Z.of_N n)%Z). by rewrite undigits_decimal. Qed.
Next Obligation.
  intros f Hf. cbv beta. rewrite bool_decide_false by apply decimal_nonempty. rewrite undigits_decimal. cbn.
  by rewrite f64_bits_roundtrip.
Qed.
Next Obligation. intros f _. apply decimal_nonempty. Qed.
Next Obligation.
  intros f _. eapply Forall_impl; [apply decimal_chars|]. intros c Hc. by left.
Qed.
