(* ===== verification/Influx.v ===== *)
(** The influx line protocol: tremor-influx/src/decoder.rs and encoder.rs.

    Lines are the bytes of strings.  The positions in errors, and the running
    totals that are only kept for them, are left out. *)
From Stdlib Require Import Floats.SpecFloat.
From S2P Require Import Prelude Value ValueOrd Text.

Module Influx.

(** ** Errors *)
Inductive decoder_error :=
  | Unexpected | UnexpectedEnd | InvalidFields | MissingTagValue | TrailingCharacter
  | ParseIntError | ParseFloatError.

Inductive encoder_error :=
  | MissingField (name : string)
  | InvalidField (name : string)
  | InvalidValue (key : string) (ty : value_type)
  | InvalidTimestamp (ty : value_type).

(** [inl] is an error. *)
Section errors.
Context {E A B : Type}.
Definition try_ (r : E + A) (f : A → E + B) : E + B := match r with inl e => inl e | inr a => f a end.
Definition ok_or_else (e : E) (o : option A) : E + A := match o with Some a => inr a | None => inl e end.
End errors.
Declare Scope influx_scope.
Notation "x <- r ; k" := (try_ r (λ x, k)) (at level 20, r at level 100, k at level 200) : influx_scope.
Notation "' x <- r ; k" := (try_ r (λ x, k))
  (at level 20, x pattern, r at level 100, k at level 200, only parsing) : influx_scope.
#[local] Open Scope influx_scope.

Section influx.
Context `{!numbers}.

(** ** Decoding *)
Definition get_rest (start : N) (data : list N) : decoder_error + list N :=
  ok_or_else UnexpectedEnd (get_from start data).

(** *** Keys and quoted strings

    The text up to a character of [p] that is not escaped and where it is, in
    bytes: [parse_to] is [parse_to_complex] at the start, and the search for
    the next character and the copying of what is in front of it go on byte
    by byte.  A byte behind a backslash is only taken if it is a character. *)
Section parse_to.
Variable p : N → bool.
Definition search (c : N) : bool := p c || (c =? 92)%N.

Fixpoint parse_to_complex (res : list N) (offset : N) (input : list N) : decoder_error + list N * N :=
  match input with
  | [] => inl Unexpected
  | c :: input =>
    if (c =? 92)%N then
      match input with
      | [] => inl Unexpected
      | d :: rest =>
        let res := if search d then res else res ++ [92%N] in
        if boundary rest then parse_to_complex (res ++ [d]) (offset + 2) rest
        else parse_to_complex res (offset + 2) input
      end
    else if p c then inr (res, offset)
    else parse_to_complex (res ++ [c]) (offset + 1) input
  end.

Definition parse_to (input : list N) : decoder_error + list N * N := parse_to_complex [] 0 input.
End parse_to.

Definition is_char (c d : N) : bool := (d =? c)%N.
Definition comma : N := 44.
Definition space : N := 32.
Definition equals : N := 61.
Definition quote : N := 34.
Definition backslash : N := 92.

Definition starts (c : N) (s : list N) : bool := match s with d :: _ => (d =? c)%N | [] => false end.
Definition strip_char (c : N) (s : list N) : option (list N) :=
  match s with d :: s => if (d =? c)%N then Some s else None | [] => None end.

(** *** Values *)
Definition true_names : list string := ["t"; "T"; "true"; "True"; "TRUE"]%string.
Definition false_names : list string := ["f"; "F"; "false"; "False"; "FALSE"]%string.

Definition strip_suffix_i (s : list N) : option (list N) :=
  match reverse s with d :: r => if (d =? 105)%N then Some (reverse r) else None | [] => None end.

Definition to_value (s : list N) : decoder_error + value :=
  if bool_decide (s ∈ as_bytes <$> true_names) then inr (VStatic (SBool true))
  else if bool_decide (s ∈ as_bytes <$> false_names) then inr (VStatic (SBool false))
  else
    match strip_suffix_i s with
    | Some s =>
      if starts 45 s then n <- ok_or_else ParseIntError (parse_i64 s); inr (VStatic (SI64 n))
      else n <- ok_or_else ParseIntError (parse_u64 s); inr (VStatic (SU64 n))
    | None => f <- ok_or_else ParseFloatError (parse_f64 s); inr (VStatic (SF64 f))
    end.

(** The value, the character behind it and where that is. *)
Definition parsed : Type := value * option N * N.

Definition parse_string (input : list N) : decoder_error + parsed :=
  ' (val, idx) <- parse_to (is_char quote) input;
  input <- get_rest (idx + 1) input;
  if starts space input then inr (VString (to_str val), Some space, idx + 2)%N
  else if starts comma input then inr (VString (to_str val), Some comma, idx + 2)%N
  else match input with
       | [] => inr (VString (to_str val), None, idx + 1)%N
       | _ => inl TrailingCharacter
       end.

(** After a backslash: [offset] is that of the code, [chunk] the number of
    bytes since the last backslash. *)
Fixpoint parse_value_complex (res : list N) (offset chunk : N) (input : list N) : decoder_error + parsed :=
  match input with
  | [] => v <- to_value res; inr (v, None, u64_sub chunk 1)
  | c :: input =>
    if (c =? backslash)%N then
      match input with
      | [] => inl UnexpectedEnd
      | d :: rest =>
        if boundary rest then parse_value_complex (res ++ [d]) (offset + chunk + 1) 0 rest
        else inl UnexpectedEnd
      end
    else if (c =? comma)%N || (c =? space)%N then v <- to_value res; inr (v, Some c, (offset + chunk)%N)
    else parse_value_complex (res ++ [c]) offset (chunk + 1) input
  end.

(** [split_once]: what is in front of the first character of [p], and the
    rest with it. *)
Fixpoint split_once (p : N → bool) (input : list N) : option (list N * list N) :=
  match input with
  | [] => None
  | c :: input' => if p c then Some ([], input) else prod_map (cons c) id <$> split_once p input'
  end.

Definition parse_value (input : list N) : decoder_error + parsed :=
  match strip_char quote input with
  | Some rest => parse_string rest
  | None =>
    if starts space input || bool_decide (input = []) then inl UnexpectedEnd
    else
      match split_once (λ c, is_char comma c || is_char space c || is_char backslash c) input with
      | Some (data, rest) =>
        match strip_char backslash rest with
        | Some rest => parse_value_complex data 0 0 rest
        | None => v <- to_value data; inr (v, head rest, N.of_nat (length data))
        end
      | None => v <- to_value input; inr (v, None, N.of_nat (length input) - 1)%N
      end
  end.

(** *** Fields and tags

    Both loops consume the [=] in every round, the fuel is one more than the
    length of the input. *)
Fixpoint parse_fields_loop (fuel : nat) (res : gmap string value) (offset : N) (input : list N) :
    option (decoder_error + gmap string value * N) :=
  match fuel with
  | O => None
  | S fuel =>
    match
      ' (key, idx1) <- parse_to (is_char equals) input;
      input <- get_rest (idx1 + 1) input;
      ' (val, c, idx2) <- parse_value input;
      input <- get_rest (u64_add idx2 1) input;
      inr (key, val, c, (offset + (idx1 + 1) + u64_add idx2 1)%N, input)
    with
    | inl e => Some (inl e)
    | inr (key, val, c, offset, input) =>
      let res := <[to_str key := val]> res in
      match c with
      | Some c => if (c =? comma)%N then parse_fields_loop fuel res offset input
                  else if (c =? space)%N then Some (inr (res, offset)) else Some (inl InvalidFields)
      | None => Some (inr (res, offset))
      end
    end
  end.

Fixpoint parse_tags_loop (fuel : nat) (res : gmap string value) (offset : N) (input : list N) :
    option (decoder_error + gmap string value * N) :=
  match fuel with
  | O => None
  | S fuel =>
    match
      ' (key, idx) <- parse_to (λ c, is_char equals c || is_char space c || is_char comma c) input;
      input <- get_rest idx input;
      input <- ok_or_else MissingTagValue (strip_char equals input);
      ' (val, idx2) <- parse_to (λ c, is_char space c || is_char comma c) input;
      input <- get_rest idx2 input;
      inr (key, val, (offset + (idx + 1) + idx2)%N, input)
    with
    | inl e => Some (inl e)
    | inr (key, val, offset, input) =>
      let res := <[to_str key := VString (to_str val)]> res in
      if starts space input then Some (inr (res, offset))
      else
        match strip_char comma input with
        | Some input => parse_tags_loop fuel res (offset + 1) input
        | None => if starts equals input then Some (inl MissingTagValue) else parse_tags_loop fuel res offset input
        end
    end
  end.

Definition parse_fields (input : list N) : decoder_error + gmap string value * N :=
  default (inl Unexpected) (parse_fields_loop (S (length input)) ∅ 0 input).
Definition parse_tags (input : list N) : decoder_error + gmap string value * N :=
  default (inl Unexpected) (parse_tags_loop (S (length input)) ∅ 0 input).

(** *** Lines *)

Definition line_value (m : string) (tags fields : gmap string value) (timestamp : N) : value :=
  VObject (<["measurement" := VString m]> (<["tags" := VObject tags]>
    (<["fields" := VObject fields]> {["timestamp" := VStatic (SU64 timestamp)]}))).

(** The measurement, the tags and the rest. *)
Definition parse_series (data : list N) : decoder_error + list N * gmap string value * list N :=
  ' (measurement, idx1) <- parse_to (λ c, is_char comma c || is_char space c) data;
  data <- get_rest idx1 data;
  ' (tags, idx2, data) <-
    match strip_char comma data with
    | Some rest => ' (tags, idx2) <- parse_tags rest; inr (tags, idx2, rest)
    | None => inr (∅, 0%N, data)
    end;
  data <- get_rest idx2 data;
  inr (measurement, tags, data).

Definition decode (data : list N) (ingest_ns : N) : decoder_error + option value :=
  let data := trim data in
  if bool_decide (data = []) || starts 35 data then inr None
  else
    ' (measurement, tags, data) <- parse_series data;
    data <- (if bool_decide (data = []) then inr data else get_rest 1 data);
    ' (fields, idx) <- parse_fields data;
    data <- get_rest idx data;
    timestamp <- (if bool_decide (data = []) then inr ingest_ns else ok_or_else ParseIntError (parse_u64 data));
    inr (Some (line_value (to_str measurement) tags fields timestamp)).

(** ** Encoding *)
Context `{!value_trait, !hash_order string}.

(** The pieces between the characters that are escaped are written as they
    are. *)
Definition write_escaped (special : N → bool) (s : list N) : list N :=
  s ≫= λ c, if special c then [backslash; c] else [c].
Definition key_special (c : N) : bool :=
  is_char quote c || is_char backslash c || is_char comma c || is_char space c || is_char equals c.
Definition value_special (c : N) : bool := is_char quote c || is_char backslash c.

Definition write_escaped_key (s : string) : list N := write_escaped key_special (as_bytes s).
Definition write_escaped_value (s : string) : list N := quote :: write_escaped value_special (as_bytes s) ++ [quote].

(** [sort_by_key] *)
Definition by_key {V} (x y : string * V) : Prop := String.le x.1 y.1.
Definition sorted_entries {V} (l : list (string * V)) : list (string * V) := merge_sort by_key l.

Definition write_tag (kv : string * string) : list N :=
  comma :: write_escaped_key kv.1 ++ equals :: write_escaped_key kv.2.

(** [Writable::write] for booleans and numbers *)
Definition write_static (s : static_node) : list N :=
  match s with
  | SNull => as_bytes "null"
  | SBool b => as_bytes (if b then "true" else "false")
  | SI64 z => write_i64 z
  | SU64 n => decimal n
  | SF64 f => write_f64 f
  end.

Definition write_value (key : string) (v : value) : encoder_error + list N :=
  match v with
  | VString s => inr (write_escaped_value s)
  | VStatic (SF64 _ as s) | VStatic (SBool _ as s) => inr (write_static s)
  | VStatic (SU64 _ as s) | VStatic (SI64 _ as s) => inr (write_static s ++ [105%N])
  | v => inl (InvalidValue key (type_of v))
  end.
Definition write_field (key : string) (v : value) : encoder_error + list N :=
  value <- write_value key v;
  inr (write_escaped_key key ++ equals :: value).

Fixpoint write_fields (first : bool) (l : list (string * value)) : encoder_error + list N :=
  match l with
  | [] => inr []
  | (key, v) :: l =>
    field <- write_field key v;
    rest <- write_fields false l;
    inr ((if first then [] else [comma]) ++ field ++ rest)
  end.

Definition encode (v : value) : encoder_error + list N :=
  measurement <- ok_or_else (MissingField "measurement") (value_get v "measurement" ≫= as_str);
  tags <- ok_or_else (MissingField "tags") (value_get v "tags");
  tags <- ok_or_else (InvalidField "tags") (as_object tags);
  let tag_collection :=
    sorted_entries (omap (λ kv : string * value, (λ s, (kv.1, s)) <$> as_str kv.2) (hash_iter tags)) in
  fields <- ok_or_else (InvalidField "fields") (value_get v "fields" ≫= as_object);
  fields <- write_fields true (sorted_entries (hash_iter fields));
  t <- ok_or_else (MissingField "timestamp") (value_get v "timestamp");
  match as_u64 t, t with
  | Some _, VStatic s =>
    inr (write_escaped_key measurement ++ (tag_collection ≫= write_tag) ++ [space] ++ fields ++ [space] ++ write_static s)
  | _, _ => inl (InvalidTimestamp (type_of t))
  end.
End influx.

(** ** Lines are read back *)
Section escape.
Variables special p : N → bool.

Definition escapes (s : list N) : Prop :=
  Forall (λ c, special c = search p c) s ∧ cut_ok true s = true.

Hypothesis special_ascii : ∀ c, special c = true → (c <? 128)%N = true.

Lemma write_escaped_boundary s x : cut_ok true s = true → boundary x = true → boundary (write_escaped special s ++ x) = true.
Proof.
  destruct s as [|c s]; [done|]. cbn [cut_ok]. intros [Hc _]%andb_true_iff _. unfold write_escaped. cbn.
  by destruct (special c).
Qed.

Lemma parse_to_complex_escaped s ascii res offset sep rest :
  Forall (λ c, special c = search p c) s → cut_ok ascii s = true →
  p sep = true → sep ≠ 92%N → continues sep = false →
  parse_to_complex p res offset (write_escaped special s ++ sep :: rest) =
  inr (res ++ s, offset + N.of_nat (length (write_escaped special s)))%N.
Proof.
  intros Hs. revert ascii res offset. induction Hs as [|c s Hc Hs IH]; intros ascii res offset Hcut Hsep Hne Hcont.
  - cbn. rewrite (proj2 (N.eqb_neq _ _) Hne), Hsep, app_nil_r. do 2 f_equal. lia.
  - cbn [cut_ok] in Hcut. apply andb_true_iff in Hcut as [_ Hcut].
    unfold write_escaped. cbn [mbind list_bind]. fold (write_escaped special s).
    destruct (special c) eqn:Hsp.
    + cbn [app parse_to_complex]. rewrite N.eqb_refl, <-Hc. rewrite special_ascii in Hcut by done.
      rewrite write_escaped_boundary by (cbn; rewrite ?Hcont; done). rewrite (IH true) by done.
      rewrite <-app_assoc. cbn [app length]. do 2 f_equal. lia.
    + unfold search in Hc. symmetry in Hc. apply orb_false_iff in Hc as [Hp Hb].
      cbn [app parse_to_complex]. rewrite Hb, Hp, (IH (c <? 128)%N) by done.
      rewrite <-app_assoc. cbn [app length]. do 2 f_equal. lia.
Qed.
End escape.

Lemma get_from_app (l x : list N) : boundary x = true → get_from (N.of_nat (length l)) (l ++ x) = Some x.
Proof.
  intros Hx. unfold get_from. rewrite length_app, (proj2 (N.leb_le _ _)) by lia.
  rewrite Nat2N.id, drop_app_length. by rewrite Hx.
Qed.

Lemma get_from_next (l x : list N) c n :
  n = N.of_nat (length l) → boundary x = true → get_from (n + 1) (l ++ c :: x) = Some x.
Proof.
  intros -> Hx. replace (N.of_nat (length l) + 1)%N with (N.of_nat (length (l ++ [c]))) by (rewrite length_app; cbn; lia).
  replace (l ++ c :: x) with ((l ++ [c]) ++ x) by (by rewrite <-app_assoc). by apply get_from_app.
Qed.

Lemma key_special_ascii c : key_special c = true → (c <? 128)%N = true.
Proof.
  unfold key_special, is_char, quote, backslash, comma, space, equals. rewrite !orb_true_iff, !N.eqb_eq.
  intros Hc. apply N.ltb_lt. lia.
Qed.
Lemma value_special_ascii c : value_special c = true → (c <? 128)%N = true.
Proof. unfold value_special, is_char, quote, backslash. rewrite !orb_true_iff, !N.eqb_eq. intros Hc. apply N.ltb_lt. lia. Qed.

(** *** Values *)
Section values.
Context `{!numbers}.

Definition value_ok (v : value) : Prop :=
  match v with
  | VString s => str_ok s
  | VStatic (SBool _) => True
  | VStatic (SU64 n) => u64_ok n
  | VStatic (SI64 z) => (i64_bot ≤ z ≤ i64_top)%Z
  | VStatic (SF64 f) => finite f = true
  | _ => False
  end.

(** An integer that is not negative is read as an unsigned one. *)
Definition as_read (v : value) : value :=
  match v with VStatic (SI64 z) => if (z <? 0)%Z then v else VStatic (SU64 (Z.to_N z)) | v => v end.

Definition plain_char (c : N) : Prop := c ≠ comma ∧ c ≠ space ∧ c ≠ backslash ∧ c ≠ quote.

Lemma split_once_plain data sep rest :
  Forall plain_char data → sep = comma ∨ sep = space →
  split_once (λ c, is_char comma c || is_char space c || is_char backslash c) (data ++ sep :: rest) =
  Some (data, sep :: rest).
Proof.
  intros Hd Hs. unfold is_char. induction Hd as [|c data (H1 & H2 & H3 & H4) Hd IH]; cbn [app split_once].
  - by destruct Hs as [-> | ->].
  - apply N.eqb_neq in H1, H2, H3. rewrite H1, H2, H3. cbn [orb]. by rewrite IH.
Qed.

Lemma parse_value_plain data sep rest :
  Forall plain_char data → data ≠ [] → sep = comma ∨ sep = space →
  parse_value (data ++ sep :: rest) = (v <- to_value data; inr (v, Some sep, N.of_nat (length data))).
Proof.
  intros Hd Hne Hs. unfold parse_value.
  destruct data as [|c data]; [done|]. cbn [app strip_char starts]. pose proof Hd as [(H1 & H2 & H3 & H4) _]%Forall_cons.
  rewrite (proj2 (N.eqb_neq _ _) H4), (proj2 (N.eqb_neq _ _) H2), bool_decide_false by done. cbn [orb].
  change (c :: data ++ sep :: rest) with ((c :: data) ++ sep :: rest). rewrite split_once_plain by done.
  cbn [strip_char head]. by destruct Hs as [-> | ->].
Qed.

Lemma parse_value_string s sep rest :
  str_ok s → sep = comma ∨ sep = space →
  parse_value (write_escaped_value s ++ sep :: rest) =
  inr (VString s, Some sep, N.of_nat (length (write_escaped_value s))).
Proof.
  intros Hs Hsep. unfold parse_value, write_escaped_value. cbn [app strip_char]. rewrite N.eqb_refl.
  unfold parse_string, parse_to. rewrite <-app_assoc. cbn [app].
  rewrite (parse_to_complex_escaped value_special (is_char quote) value_special_ascii (as_bytes s) true); try done.
  2: { apply Forall_forall. intros c _. unfold search, value_special, is_char, backslash. done. }
  cbn [try_ app]. unfold get_rest. rewrite N.add_0_l, (get_from_next _ _ _ _ eq_refl) by (by destruct Hsep as [-> | ->]).
  cbn [ok_or_else try_ starts]. rewrite to_str_as_bytes. cbn [length]. rewrite length_app. cbn [length].
  destruct Hsep as [-> | ->]; cbn [N.eqb Pos.eqb space comma]; do 3 f_equal; lia.
Qed.

Lemma to_value_other s c s' :
  s = c :: s' → c ∉ [116; 84; 102; 70]%N →
  to_value s =
  match strip_suffix_i s with
  | Some s =>
    if starts 45 s then n <- ok_or_else ParseIntError (parse_i64 s); inr (VStatic (SI64 n))
    else n <- ok_or_else ParseIntError (parse_u64 s); inr (VStatic (SU64 n))
  | None => f <- ok_or_else ParseFloatError (parse_f64 s); inr (VStatic (SF64 f))
  end.
Proof.
  intros -> Hc. unfold to_value. rewrite !bool_decide_false; [done|..]; intros Hin; apply Hc;
    rewrite !list_elem_of_fmap in Hin; destruct Hin as (n & Heq & Hn); cbn in Hn; set_unfold;
    repeat destruct Hn as [-> |Hn]; try done; injection Heq as -> _; auto 10.
Qed.

Lemma strip_suffix_snoc s : strip_suffix_i (s ++ [105%N]) = Some s.
Proof. unfold strip_suffix_i. rewrite reverse_snoc. cbn. by rewrite reverse_involutive. Qed.

Lemma float_plain l : Forall float_char l → Forall plain_char l.
Proof.
  intros Hl. eapply Forall_impl; [exact Hl|]. unfold float_char, plain_char, comma, space, backslash, quote. intros c Hc.
  repeat split; intros ->; lia.
Qed.
Lemma decimal_float n : Forall float_char (decimal n).
Proof. eapply Forall_impl; [apply decimal_chars|]. intros c Hc. by left. Qed.

Lemma float_head l c s : Forall float_char l → l = c :: s → c ∉ [116; 84; 102; 70]%N.
Proof.
  intros Hl ->. apply Forall_cons in Hl as [Hc _]. unfold float_char in Hc. intros Hin. set_unfold.
  destruct Hin as [-> |[-> |[-> |[-> |[]]]]]; lia.
Qed.

Lemma strip_suffix_float l : Forall float_char l → strip_suffix_i l = None.
Proof.
  intros Hl. unfold strip_suffix_i. destruct (reverse l) as [|c r] eqn:Hr; [done|].
  assert (c ∈ l) as Hc by (rewrite <-elem_of_reverse, Hr; left). rewrite Forall_forall in Hl. specialize (Hl c Hc).
  unfold float_char in Hl. by rewrite (proj2 (N.eqb_neq _ _)) by lia.
Qed.

Lemma starts_minus_decimal n : starts 45 (decimal n) = false.
Proof.
  pose proof (decimal_chars n) as Hd. destruct (decimal n) as [|c s]; [done|].
  apply Forall_cons in Hd as [Hc _]. cbn. apply N.eqb_neq. lia.
Qed.

Lemma to_value_integer l : l ≠ [] → Forall float_char l →
  to_value (l ++ [105%N]) =
  if starts 45 l then n <- ok_or_else ParseIntError (parse_i64 l); inr (VStatic (SI64 n))
  else n <- ok_or_else ParseIntError (parse_u64 l); inr (VStatic (SU64 n)).
Proof.
  intros Hne Hl. destruct l as [|c l]; [done|].
  rewrite (to_value_other _ c (l ++ [105%N])), strip_suffix_snoc; [done..|]. by eapply float_head.
Qed.

Lemma to_value_decimal n : u64_ok n → to_value (decimal n ++ [105%N]) = inr (VStatic (SU64 n)).
Proof.
  intros Hn. rewrite to_value_integer by (apply decimal_nonempty || apply decimal_float).
  by rewrite starts_minus_decimal, parse_u64_decimal.
Qed.

Lemma to_value_static s : value_ok (VStatic s) →
  match s with
  | SU64 _ | SI64 _ => to_value (write_static s ++ [105%N]) = inr (as_read (VStatic s))
  | SBool _ | SF64 _ => to_value (write_static s) = inr (as_read (VStatic s))
  | SNull => True
  end.
Proof.
  destruct s as [|b|z|n|f]; cbn [value_ok write_static as_read]; intros Hok; [done|by destruct b| | |].
  - unfold write_i64. destruct (Z.ltb_spec z 0) as [Hz|Hz].
    + rewrite to_value_integer; [|done|constructor; [unfold float_char; lia|apply decimal_float]].
      cbn [starts]. rewrite N.eqb_refl, parse_i64_negative by (unfold i64_bot in Hok; lia).
      cbn. do 3 f_equal. lia.
    + apply to_value_decimal. unfold u64_ok, w64. unfold i64_top in Hok. lia.
  - by apply to_value_decimal.
  - pose proof (write_f64_chars f Hok) as Hc. pose proof (write_f64_nonempty f Hok) as Hne.
    destruct (write_f64 f) as [|c l] eqn:Hw; [done|]. rewrite (to_value_other _ c l); [|done|by eapply float_head].
    by rewrite strip_suffix_float, <-Hw, parse_f64_written.
Qed.

(** Every value of a field is read back. *)
Lemma parse_value_written key v text sep rest :
  value_ok v → sep = comma ∨ sep = space → write_value key v = inr text →
  parse_value (text ++ sep :: rest) = inr (as_read v, Some sep, N.of_nat (length text)).
Proof.
  intros Hv Hsep Hw. destruct v as [s|s| | |]; try done.
  2: { injection Hw as <-. by apply parse_value_string. }
  pose proof (to_value_static s Hv) as Ht.
  assert (∀ z, Forall float_char (write_i64 z)) as Hi.
  { intros z. unfold write_i64. destruct (z <? 0)%Z; [constructor; [unfold float_char; lia|]|]; apply decimal_float. }
  assert (∀ l, Forall float_char l → Forall plain_char (l ++ [105%N])) as Hl.
  { intros l H1. apply Forall_app. split; [by apply float_plain|]. by apply Forall_singleton. }
  destruct s as [|b|z|n|f]; try done; cbn [write_value write_static] in *; injection Hw as <-; rewrite parse_value_plain, Ht; try done.
  - destruct b; repeat (apply Forall_cons; split; [by repeat split|]); by apply Forall_nil.
  - by destruct b.
  - apply Hl, Hi.
  - by destruct (write_i64 z).
  - apply Hl, decimal_float.
  - by destruct (decimal n).
  - by apply float_plain, write_f64_chars.
  - by apply write_f64_nonempty.
Qed.
End values.

(** *** Fields *)
Section loops.
Context `{!numbers, !value_trait, !hash_order string}.

Definition field_key_ok (k : string) : Prop :=
  Forall (λ c, c ≠ comma ∧ c ≠ space ∧ c ≠ quote) (as_bytes k) ∧ str_ok k.

Lemma field_key_escapes k : field_key_ok k → Forall (λ c, key_special c = search (is_char equals) c) (as_bytes k).
Proof.
  intros [Hk _]. eapply Forall_impl; [exact Hk|]. intros c (H1 & H2 & H3).
  apply N.eqb_neq in H1, H2, H3. unfold key_special, search, is_char. rewrite H1, H2, H3.
  unfold backslash. by destruct (c =? 92)%N, (c =? equals)%N.
Qed.

Definition insert_entry {V W} (f : V → W) (res : gmap string W) (kv : string * V) : gmap string W :=
  <[kv.1 := f kv.2]> res.

Lemma write_field_cons k v l b :
  write_fields true ((k, v) :: l) = inr b →
  ∃ text rest, write_value k v = inr text ∧ write_fields false l = inr rest ∧
    b = write_escaped_key k ++ equals :: text ++ rest.
Proof.
  cbn [write_fields]. unfold write_field. destruct (write_value k v) as [|text]; [done|]. cbn [try_].
  destruct (write_fields false l) as [|rest]; [done|]. cbn [try_]. intros [= <-].
  exists text, rest. split_and!; [done..|]. cbn [app]. by rewrite <-app_assoc.
Qed.

Lemma write_fields_more l rest :
  write_fields false l = inr rest → l ≠ [] → ∃ b, write_fields true l = inr b ∧ rest = comma :: b.
Proof.
  destruct l as [|[k v] l]; [done|]. cbn [write_fields]. destruct (write_field k v) as [|f]; [done|]. cbn [try_].
  destruct (write_fields false l) as [|r]; [done|]. cbn [try_]. intros [= <-] _. by eexists.
Qed.

Lemma write_key_boundary k x : str_ok k → boundary x = true → boundary (write_escaped_key k ++ x) = true.
Proof. apply write_escaped_boundary. Qed.

Lemma write_fields_boundary l b x :
  Forall (λ kv, field_key_ok kv.1) l → l ≠ [] → write_fields true l = inr b → boundary (b ++ x) = true.
Proof.
  destruct l as [|[k v] l]; [done|]. intros [[_ Hk] _]%Forall_cons _ (text & rest & _ & _ & ->)%write_field_cons.
  rewrite <-app_assoc. by apply write_key_boundary.
Qed.

Lemma write_value_boundary key v text x : value_ok v → write_value key v = inr text → boundary (text ++ x) = true.
Proof.
  assert (∀ l y, l ≠ [] → Forall float_char l → boundary (l ++ y) = true) as Hf.
  { intros [|c l] y Hne Hl; [done|]. apply Forall_cons in Hl as [Hc _]. unfold float_char in Hc. cbn. unfold continues.
    by rewrite (proj2 (N.leb_gt _ _)) by lia. }
  destruct v as [[|b|z|n|f]|s| | |]; try done; cbn [write_value write_static]; intros Hv [= <-]; rewrite <-?app_assoc.
  - by destruct b.
  - unfold write_i64. destruct (z <? 0)%Z; [done|]. apply Hf; [apply decimal_nonempty|apply decimal_float].
  - apply Hf; [apply decimal_nonempty|apply decimal_float].
  - apply Hf; [by apply write_f64_nonempty|by apply write_f64_chars].
  - done.
Qed.

Lemma u64_next n : (n + 1 < w64)%N → u64_add n 1 = (n + 1)%N.
Proof. intros Hn. unfold u64_add. by apply N.mod_small. Qed.

Lemma parse_fields_written fuel res offset l b x :
  Forall (λ kv, field_key_ok kv.1 ∧ value_ok kv.2) l → l ≠ [] →
  write_fields true l = inr b → boundary x = true →
  (N.of_nat (length b) + 1 < w64)%N → (length b < fuel)%nat →
  parse_fields_loop fuel res offset (b ++ space :: x) =
  Some (inr (foldl (insert_entry as_read) res l, offset + N.of_nat (length b) + 1)%N).
Proof.
  intros Hl. revert fuel res offset b. induction Hl as [|[k v] l [Hk Hv] Hl IH]; [done|].
  intros fuel res offset b _ (text & rest & Ht & Hr & ->)%write_field_cons Hx Hlen Hfuel.
  destruct fuel as [|fuel]; [lia|]. cbn [fst snd] in *.
  rewrite length_app in Hlen, Hfuel. cbn [length] in Hlen, Hfuel. rewrite length_app in Hlen, Hfuel.
  cbn [parse_fields_loop]. unfold parse_to. rewrite <-app_assoc. cbn [app].
  rewrite (parse_to_complex_escaped key_special (is_char equals) key_special_ascii (as_bytes k) true)
    by first [by apply field_key_escapes|exact (proj2 Hk)|done].
  cbn [try_ app]. unfold get_rest.
  assert (∃ sep y, rest ++ space :: x = sep :: y ∧ (sep = comma ∨ sep = space) ∧ boundary y = true ∧
    (l = [] → sep = space ∧ y = x ∧ rest = []) ∧
    (l ≠ [] → sep = comma ∧ ∃ b, write_fields true l = inr b ∧ y = b ++ space :: x ∧ rest = comma :: b)) as
    (sep & y & Hy & Hsep & Hby & Hnil & Hcons).
  { destruct l as [|kv l].
    - injection Hr as <-. exists space, x. split_and!; try done; auto.
    - destruct (write_fields_more _ _ Hr ltac:(done)) as (b & Hb & ->).
      exists comma, (b ++ space :: x). split_and!; auto; [|intros; done|intros _; split; [done|by exists b]].
      apply (write_fields_boundary (kv :: l)); [|done|exact Hb]. eapply Forall_impl; [exact Hl|]. by intros ? [? _]. }
  rewrite <-app_assoc, Hy, N.add_0_l, (get_from_next _ _ _ _ eq_refl).
  2: { by eapply write_value_boundary. }
  cbn [ok_or_else try_]. rewrite (parse_value_written k v text) by done. cbn [try_].
  rewrite u64_next by lia. rewrite (get_from_next _ _ _ _ eq_refl) by done. cbn [ok_or_else try_].
  rewrite to_str_as_bytes. cbn [foldl]. unfold insert_entry at 2. cbn [fst snd].
  rewrite length_app. cbn [length]. rewrite length_app. fold (write_escaped_key k).
  destruct l as [|kv l].
  - destruct (Hnil eq_refl) as (-> & _ & ->). cbn. do 3 f_equal. lia.
  - destruct (Hcons ltac:(done)) as (-> & b & Hb & -> & ->). cbn [length] in Hlen, Hfuel |- *. rewrite N.eqb_refl.
    rewrite IH by (done || lia). do 3 f_equal. lia.
Qed.

(** *** Tags *)
Definition tag_ok (kv : string * string) : Prop :=
  (Forall (λ c, c ≠ quote) (as_bytes kv.1) ∧ str_ok kv.1) ∧
  Forall (λ c, c ≠ equals ∧ c ≠ quote) (as_bytes kv.2) ∧ str_ok kv.2.

Lemma tag_key_escapes k : Forall (λ c, c ≠ quote) (as_bytes k) →
  Forall (λ c, key_special c = search (λ c, is_char equals c || is_char space c || is_char comma c) c) (as_bytes k).
Proof.
  intros Hk. eapply Forall_impl; [exact Hk|]. intros c Hc%N.eqb_neq. unfold key_special, search, is_char. rewrite Hc.
  unfold backslash. by destruct (c =? 92)%N, (c =? equals)%N, (c =? comma)%N, (c =? space)%N.
Qed.
Lemma tag_value_escapes v : Forall (λ c, c ≠ equals ∧ c ≠ quote) (as_bytes v) →
  Forall (λ c, key_special c = search (λ c, is_char space c || is_char comma c) c) (as_bytes v).
Proof.
  intros Hk. eapply Forall_impl; [exact Hk|]. intros c [He Hc]. apply N.eqb_neq in He, Hc.
  unfold key_special, search, is_char. rewrite He, Hc.
  unfold backslash. by destruct (c =? 92)%N, (c =? comma)%N, (c =? space)%N.
Qed.

Lemma parse_tags_written fuel res offset kv l b x :
  Forall tag_ok (kv :: l) → (kv :: l) ≫= write_tag = comma :: b → boundary x = true → (length b < fuel)%nat →
  parse_tags_loop fuel res offset (b ++ space :: x) =
  Some (inr (foldl (insert_entry VString) res (kv :: l), offset + N.of_nat (length b))%N).
Proof.
  revert res offset kv l b. induction fuel as [|fuel IH]; [lia|].
  intros res offset [k v] l b [[[Hkc Hk] [Hvc Hv]] Hl]%Forall_cons Hb Hx Hfuel. cbn [fst snd] in *.
  assert (b = write_escaped_key k ++ equals :: write_escaped_key v ++ (l ≫= write_tag)) as ->.
  { injection Hb as <-. by rewrite <-app_assoc. }
  rewrite <-!app_assoc. cbn [app]. rewrite <-!app_assoc.
  assert (∃ sep y, (l ≫= write_tag) ++ space :: x = sep :: y ∧ (sep = comma ∨ sep = space)) as (sep & y & Hy & Hsep).
  { destruct l as [|kv l]; [by exists space, x; auto|]. by eexists comma, _; auto. }
  cbn [parse_tags_loop]. unfold parse_to.
  rewrite (parse_to_complex_escaped key_special _ key_special_ascii (as_bytes k) true)
    by first [by apply tag_key_escapes|done].
  cbn [try_ app]. unfold get_rest. rewrite N.add_0_l, get_from_app by done. cbn [ok_or_else try_ strip_char].
  rewrite N.eqb_refl. cbn [ok_or_else try_]. rewrite Hy.
  rewrite (parse_to_complex_escaped key_special _ key_special_ascii (as_bytes v) true)
    by first [by apply tag_value_escapes|done|by destruct Hsep as [-> | ->]].
  cbn [try_ app]. rewrite N.add_0_l, get_from_app by (by destruct Hsep as [-> | ->]). cbn [ok_or_else try_].
  rewrite !to_str_as_bytes. cbn [foldl]. unfold insert_entry at 2. cbn [fst snd].
  rewrite !length_app. cbn [length]. rewrite !length_app in *. fold (write_escaped_key k) (write_escaped_key v).
  destruct l as [|kv l].
  - injection Hy as <- <-. cbn. do 3 f_equal. lia.
  - assert (∃ b, (kv :: l) ≫= write_tag = comma :: b) as [b Hmore] by (by eexists).
    rewrite Hmore in *. injection Hy as <- <-. cbn [starts strip_char length] in *.
    rewrite length_app in Hfuel. cbn [length] in Hfuel.
    rewrite N.eqb_refl, (proj2 (N.eqb_neq _ _)) by done.
    rewrite (IH _ _ kv l b) by (done || lia). do 3 f_equal. lia.
Qed.

(** *** Entries *)
Lemma sorted_entries_perm {V} (l : list (string * V)) : sorted_entries l ≡ₚ l.
Proof. apply merge_sort_Permutation. Qed.

Lemma foldl_insert_entry {V W} (f : V → W) res (l : list (string * V)) :
  NoDup l.*1 → foldl (insert_entry f) res l = list_to_map (prod_map id f <$> l) ∪ res.
Proof.
  revert res. induction l as [|[k v] l IH]; intros res; [symmetry; apply (left_id_L ∅ (∪))|].
  cbn [fmap list_fmap fst foldl]. intros [Hk Hl]%NoDup_cons. rewrite IH by done. unfold insert_entry. cbn.
  rewrite <-insert_union_l, insert_union_r; [done|].
  apply not_elem_of_list_to_map. rewrite <-list_fmap_compose. by rewrite (list_fmap_ext _ fst).
Qed.

Lemma foldl_entries {V W} (f : V → W) (m : gmap string V) l :
  l ≡ₚ map_to_list m → foldl (insert_entry f) ∅ l = f <$> m.
Proof.
  intros Hl. assert (NoDup l.*1) as Hnd by (rewrite Hl; apply NoDup_fst_map_to_list).
  rewrite foldl_insert_entry, (right_id_L ∅ (∪)) by done.
  rewrite (list_to_map_proper _ (prod_map id f <$> map_to_list m)).
  - by rewrite list_to_map_fmap, list_to_map_to_list.
  - rewrite <-list_fmap_compose. by rewrite (list_fmap_ext _ fst).
  - by rewrite Hl.
Qed.
End loops.

(** ** The round trip *)
Section roundtrip.
Context `{!numbers, !value_trait, !hash_order string}.

Lemma trim_start_none fuel chars s : Forall (λ p, strip p s = None) chars → trim_start fuel chars s = s.
Proof.
  intros Hc. destruct fuel as [|fuel]; [done|]. cbn [trim_start].
  rewrite (proj2 (list_find_None _ _)); [done|]. eapply Forall_impl; [exact Hc|]. by intros p -> [].
Qed.

(** What ends with a digit and has no white space in front is not trimmed. *)
Lemma trim_line s c :
  Forall (λ p, strip p (s ++ [c]) = None) white_space → (48 ≤ c ≤ 57)%N → trim (s ++ [c]) = s ++ [c].
Proof.
  intros Hf Hc. unfold trim. rewrite (trim_start_none _ white_space) by done.
  rewrite trim_start_none; [by rewrite reverse_involutive|]. rewrite reverse_snoc.
  assert (∀ p d q, p = d :: q → c ≠ d → strip p (c :: reverse s) = None) as Hs.
  { intros p d q -> Hd. cbn. by rewrite (proj2 (N.eqb_neq _ _)) by done. }
  vm_compute (reverse <$> white_space). repeat (constructor; [by eapply Hs; [done|lia]|]). constructor.
Qed.

(** White space is not escaped, but for the space. *)
Lemma strip_escaped p s sep x :
  p ≠ [] → Forall (λ c, key_special c = false) p → key_special sep = true →
  strip p s = None → strip p (write_escaped key_special s ++ sep :: x) = None.
Proof.
  intros Hne Hp Hsep. revert s. induction Hp as [|c p Hc Hp IH]; intros s Hs; [done|].
  destruct s as [|d s].
  - cbn. destruct (N.eqb_spec c sep); [congruence|done].
  - cbn in Hs. unfold write_escaped. cbn [mbind list_bind]. fold (write_escaped key_special s).
    destruct (key_special d) eqn:Hd; cbn [app strip].
    + destruct (N.eqb_spec c backslash) as [->|]; done.
    + destruct (c =? d)%N; [|done]. destruct p; [done|]. by apply IH.
Qed.

Definition measurement_ok (m : string) : Prop :=
  Forall (λ c, c ≠ equals ∧ c ≠ quote) (as_bytes m) ∧ str_ok m ∧
  starts 35 (as_bytes m) = false ∧
  Forall (λ p, p = [space] ∨ strip p (as_bytes m) = None) white_space.

Lemma measurement_escapes m : Forall (λ c, c ≠ equals ∧ c ≠ quote) (as_bytes m) →
  Forall (λ c, key_special c = search (λ c, is_char comma c || is_char space c) c) (as_bytes m).
Proof.
  intros Hk. eapply Forall_impl; [exact Hk|]. intros c [He Hc]. apply N.eqb_neq in He, Hc.
  unfold key_special, search, is_char. rewrite He, Hc.
  unfold backslash. by destruct (c =? 92)%N, (c =? comma)%N, (c =? space)%N.
Qed.

Lemma white_space_plain : Forall (λ p, p = [space] ∨ Forall (λ c, key_special c = false) p) white_space.
Proof. by apply (bool_decide_unpack _); vm_compute. Qed.

Lemma measurement_front m sep x :
  measurement_ok m → (m ≠ "" ∧ sep = space ∨ sep = comma)%string →
  Forall (λ p, strip p (write_escaped_key m ++ sep :: x) = None) white_space ∧
  starts 35 (write_escaped_key m ++ sep :: x) = false.
Proof.
  intros (_ & _ & Hh & Hw) Hm. split.
  - rewrite Forall_forall in Hw |- *. intros p Hp. pose proof white_space_plain as Hp'. rewrite Forall_forall in Hp'.
    destruct (Hw p Hp) as [->|Hs]; [|destruct (Hp' p Hp) as [->|Hps]].
    1-2: clear Hw; destruct m as [|c m]; [by destruct Hm as [[] | ->]|].
    1-2: unfold write_escaped_key; cbn; destruct (key_special _) eqn:Hk; [done|].
    1-2: assert (space ≠ Ascii.N_of_ascii c) as He%N.eqb_neq by (intros He; by rewrite <-He in Hk).
    1-2: cbn in He |- *; by rewrite He.
    apply strip_escaped; [by intros ->; destruct (as_bytes m)|done|by destruct Hm as [[_ ->] | ->]|done].
  - destruct m as [|c m]; [by destruct Hm as [[] | ->]|]. unfold write_escaped_key. cbn in Hh |- *.
    by destruct (key_special _).
Qed.

Lemma get_rest_1 c x : boundary x = true → get_rest 1 (c :: x) = inr x.
Proof. intros Hx. pose proof (get_from_next [] x c 0 eq_refl Hx) as Hg. unfold get_rest. change (get_from 1 (c :: x)) with (get_from (0 + 1) ([] ++ c :: x)). by rewrite Hg. Qed.

Lemma line_value_get m tags fields timestamp :
  value_get (line_value m tags fields timestamp) "measurement" = Some (VString m) ∧
  value_get (line_value m tags fields timestamp) "tags" = Some (VObject tags) ∧
  value_get (line_value m tags fields timestamp) "fields" = Some (VObject fields) ∧
  value_get (line_value m tags fields timestamp) "timestamp" = Some (VStatic (SU64 timestamp)).
Proof. rewrite !value_get_spec. by cbn; simplify_map_eq. Qed.

Lemma write_fields_total l first : Forall (λ kv, value_ok kv.2) l → ∃ b, write_fields first l = inr b.
Proof.
  intros Hl. revert first. induction Hl as [|[k v] l Hv Hl IH]; intros first; [by eexists|].
  assert (∃ text, write_value k v = inr text) as [text Ht].
  { destruct v as [[]|s| | |]; try done; by eexists. }
  destruct (IH false) as [b Hb]. cbn [write_fields]. unfold write_field. rewrite Ht. cbn [try_]. rewrite Hb. by eexists.
Qed.

Lemma tag_entries (tags : gmap string string) l :
  l ≡ₚ map_to_list (VString <$> tags) →
  omap (λ kv : string * value, (λ s, (kv.1, s)) <$> as_str kv.2) l ≡ₚ map_to_list tags.
Proof.
  intros ->. rewrite map_to_list_fmap. induction (map_to_list tags) as [|[k v] l' IH]; [done|].
  cbn. by f_equiv.
Qed.

Lemma line_trimmed m (tags : list (string * string)) x timestamp :
  measurement_ok m → (m ≠ "")%string ∨ tags ≠ [] →
  let line := write_escaped_key m ++ (tags ≫= write_tag) ++ space :: x ++ decimal timestamp in
  trim line = line ∧ bool_decide (line = []) || starts 35 line = false.
Proof.
  intros Hm Hne line.
  assert (∃ sep y, (tags ≫= write_tag) ++ space :: x ++ decimal timestamp = sep :: y ∧
    (m ≠ "" ∧ sep = space ∨ sep = comma)%string) as (sep & y & Hy & Hsep).
  { destruct tags as [|kv tags]; [|by eexists comma, _; auto]. destruct Hne as [Hne|[]]; [|done].
    exists space, (x ++ decimal timestamp). auto. }
  destruct (measurement_front m sep y Hm Hsep) as [Hw Hh]. rewrite <-Hy in Hw, Hh. fold line in Hw, Hh. split.
  - pose proof (decimal_chars timestamp) as Hd.
    destruct (decimal timestamp) as [|c l _] eqn:Ht using rev_ind; [by destruct (decimal_nonempty timestamp)|].
    assert (line = (write_escaped_key m ++ (tags ≫= write_tag) ++ space :: x ++ l) ++ [c]) as Hl.
    { unfold line. by rewrite !app_assoc, !app_comm_cons, !app_assoc. }
    rewrite Hl in *. apply trim_line; [done|]. apply Forall_app in Hd as [_ Hc]. by apply Forall_cons in Hc as [Hc _].
  - rewrite Hh, orb_false_r. apply bool_decide_false. unfold line. intros He%(f_equal length).
    rewrite !length_app in He. cbn [length] in He. lia.
Qed.

(** What follows the measurement: the tags, if any, and a space. *)
Lemma parse_series_written m (tags : list (string * string)) x :
  measurement_ok m → Forall tag_ok tags → boundary x = true →
  parse_series (write_escaped_key m ++ (tags ≫= write_tag) ++ space :: x) =
  inr (as_bytes m, foldl (insert_entry VString) ∅ tags, space :: x).
Proof.
  intros Hm Ht Hx. unfold parse_series, parse_to, get_rest.
  assert (∃ sep y, (tags ≫= write_tag) ++ space :: x = sep :: y ∧ (sep = comma ∨ sep = space)) as (sep & y & Hy & Hsep).
  { destruct tags as [|kv tags]; [by exists space, x; auto|]. by eexists comma, _; auto. }
  rewrite Hy. unfold write_escaped_key at 1.
  rewrite (parse_to_complex_escaped key_special _ key_special_ascii (as_bytes m) true);
    try by destruct Hsep as [-> | ->].
  2: { by apply measurement_escapes, Hm. }
  2: { apply Hm. }
  cbn [try_ app]. rewrite N.add_0_l, get_from_app by (by destruct Hsep as [-> | ->]). cbn [ok_or_else try_].
  destruct tags as [|kv tags].
  - injection Hy as <- <-. cbn [strip_char]. rewrite (proj2 (N.eqb_neq _ _)) by done. cbn [try_].
    done.
  - assert (∃ b, (kv :: tags) ≫= write_tag = comma :: b) as [b Hb] by (by eexists).
    rewrite Hb in Hy. injection Hy as <- <-. cbn [strip_char]. rewrite N.eqb_refl. unfold parse_tags.
    rewrite (parse_tags_written _ _ _ kv tags b) by (done || rewrite length_app; lia).
    cbn [default try_ id]. by rewrite N.add_0_l, get_from_app.
Qed.


(** The time only matters for lines without a timestamp. *)
Lemma decode_error data t t' e : decode data t = inl e → decode data t' = inl e.
Proof.
  unfold decode. destruct (_ || _); [done|]. destruct (parse_series _) as [|[[m tags] rest]]; [done|]. cbn [try_].
  destruct (if bool_decide (rest = []) then _ else _) as [|rest']; [done|]. cbn [try_].
  destruct (parse_fields _) as [|[fields idx]]; [done|]. cbn [try_].
  destruct (get_rest _ _) as [|data']; [done|]. cbn [try_]. case_bool_decide; [done|].
  by destruct (ok_or_else _ _).
Qed.

(** The loops have enough fuel. *)
Lemma parse_to_rest p input s idx rest :
  parse_to p input = inr (s, idx) → get_rest (idx + 1) input = inr rest → (length rest < length input)%nat.
Proof.
  intros _. unfold get_rest, get_from. destruct (N.leb_spec (idx + 1) (N.of_nat (length input))); [|done].
  destruct (boundary _); [|done]. intros [= <-]. rewrite length_drop. lia.
Qed.

Lemma get_rest_length n input rest : get_rest n input = inr rest → (length rest ≤ length input)%nat.
Proof.
  unfold get_rest, get_from. destruct (_ <=? _)%N; [|done]. destruct (boundary _); [|done].
  intros [= <-]. rewrite length_drop. lia.
Qed.

Lemma parse_fields_enough fuel res offset input :
  (length input < fuel)%nat → is_Some (parse_fields_loop fuel res offset input).
Proof.
  revert res offset input. induction fuel as [|fuel IH]; [lia|]. intros res offset input Hf. cbn [parse_fields_loop].
  destruct (parse_to _ input) as [e|[key idx]] eqn:Hk; cbn [try_]; [by eexists|].
  destruct (get_rest (idx + 1) input) as [e|rest] eqn:Hr; cbn [try_]; [by eexists|].
  destruct (parse_value rest) as [e|[[val c] idx2]]; cbn [try_]; [by eexists|].
  destruct (get_rest (u64_add idx2 1) rest) as [e|rest'] eqn:Hr'; cbn [try_]; [by eexists|].
  destruct c as [c|]; [|by eexists]. destruct (c =? comma)%N; [|destruct (c =? space)%N; by eexists].
  apply IH. pose proof (parse_to_rest _ _ _ _ _ Hk Hr). pose proof (get_rest_length _ _ _ Hr'). lia.
Qed.

Lemma parse_tags_enough fuel res offset input :
  (length input < fuel)%nat → is_Some (parse_tags_loop fuel res offset input).
Proof.
  revert res offset input. induction fuel as [|fuel IH]; [lia|]. intros res offset input Hf. cbn [parse_tags_loop].
  destruct (parse_to _ input) as [e|[key idx]] eqn:Hk; cbn [try_]; [by eexists|].
  destruct (get_rest idx input) as [e|rest] eqn:Hr; cbn [try_]; [by eexists|].
  destruct (strip_char equals rest) as [rest1|] eqn:Hs; cbn [ok_or_else try_]; [|by eexists].
  assert (length rest1 < length input)%nat as Hl.
  { apply get_rest_length in Hr. destruct rest as [|d rest]; [done|]. cbn in Hs. destruct (d =? _)%N; [|done].
    injection Hs as <-. cbn in Hr. lia. }
  destruct (parse_to _ rest1) as [e|[val idx2]] eqn:Hv; cbn [try_]; [by eexists|].
  destruct (get_rest idx2 rest1) as [e|rest2] eqn:Hr2; cbn [try_]; [by eexists|].
  apply get_rest_length in Hr2. destruct (starts space rest2); [by eexists|].
  destruct (strip_char comma rest2) as [rest3|] eqn:Hs3.
  - apply IH. destruct rest2 as [|d rest2]; [done|]. cbn in Hs3. destruct (d =? _)%N; [|done].
    injection Hs3 as <-. cbn in Hr2. lia.
  - destruct (starts equals rest2); [by eexists|]. apply IH. lia.
Qed.
End roundtrip.

Module InfluxExample.
#[local] Existing Instance simd_value_trait.
#[local] Instance order : hash_order string := some_order string.

Definition text (r : encoder_error + list N) : string := match r with inr l => to_str l | inl _ => "error" end.
Definition lines (s : string) : decoder_error + option value := decode (as_bytes s) 7.

Definition tags : gmap string string := {["location" := "us,mid west"; "b=c" := "1"]}.
Definition fields : gmap string value :=
  {["too=hot" := VStatic (SBool true); "t" := VStatic (SI64 (-82)); "u" := VStatic (SI64 82);
    "s" := VString (to_str [97; 34; 32; 92]%N); "f" := VStatic (SF64 (S754_zero false))]}.

Example written :
  text (encode (line_value "weather, here" (VString <$> tags) (delete "s" fields) 1465839830100400200))
  = "weather\,\ here,b\=c=1,location=us\,mid\ west f=0,t=-82i,too\=hot=true,u=82i 1465839830100400200"%string.
Proof. by vm_compute. Qed.


(** A message without fields is encoded as a line that cannot be decoded. *)
Example no_fields :
  let v := line_value "m" ∅ ∅ 5 in
  text (encode v) = "m  5"%string ∧
  match encode v with inr line => match decode line 7 with inl _ => True | inr _ => False end | inl _ => False end.
Proof. split; [by vm_compute|]. vm_compute. exact I. Qed.

(** A comma in the key of a field is escaped, but the decoder keeps the
    backslash. *)
Example comma_in_key :
  let v := line_value "m" ∅ {["a,b" := VStatic (SU64 1)]} 5 in
  (l <- encode v; r <- inr (decode l 7); inr (r, text (inr l))) =
  (inr (inr (Some (line_value "m" ∅ {["a\,b" := VStatic (SU64 1)]} 5)), "m a\,b=1i 5"%string)
   : encoder_error + (decoder_error + option value) * string).
Proof. by vm_compute. Qed.

(** A backslash in front of a character that is not ASCII is counted twice:
    the comma behind it is skipped, and the tags are taken for fields. *)
Example backslash_before_multibyte :
  decode ([109; 92; 195; 169; 44]%N ++ as_bytes "t=1i f=2i 3") 7 =
  inl ParseIntError.
Proof. by vm_compute. Qed.

(** The place behind an escaped value is counted from the backslash, so that
    the rest of the value is taken for the timestamp. *)
Example escape_in_value : (lines "m f=tr\ue 3", lines "m f=true 3") =
  (inl ParseIntError, inr (Some (line_value "m" ∅ {["f" := VStatic (SBool true)]} 3))).
Proof. by vm_compute. Qed.
End InfluxExample.
End Influx.
