(* ===== verification/Window.v ===== *)
(** Windows, tilt frames and groups: tremor-pipeline/src/op/trickle/window.rs,
    with [execute_select_and_having] and [run_guard] of trickle/select.rs.

    The script interpreter is the class [script_lang]: what the windows and
    the select operator call of it, of which nothing is assumed.  The [next]
    links of the tilt frames of a group are the tail of a list. *)
From S2P Require Import Prelude EventIds Value Event.

Local Open Scope string_scope.

(** ** The script interpreter *)

(** The environment an expression runs in: the event context, the special
    constants and the aggregates. *)
Record event_context := mk_context {
  at_ : u64;
  ctx_origin_uri : option EventOriginUri.t;
  cardinality : usize;
}.
Record run_consts := mk_consts { args : value; group : value; window_ : value }.

(** [Return] of a script. *)
Inductive script_return := REmit (v : value) | REmitEvent | RDrop.

Class script_lang := {
  script : Type;
  expr : Type;
  aggr : Type;
  group_by : Type;
  (** [Script::run_imut] on an event and its metadata *)
  run_imut : script → event_context → value → value → call_result script_return;
  (** [ImutExpr::run] with constants, aggregates, event, state and metadata *)
  run_expr : expr → event_context → run_consts → list aggr → value → value → value → call_result value;
  (** the arguments of an aggregate function, and its [init], [accumulate] and [merge] *)
  aggr_args : aggr → list expr;
  aggr_init : aggr → aggr;
  aggr_accumulate : list value → aggr → aggr * io unit;
  aggr_merge : aggr → aggr → aggr * io unit;
  (** [GroupBy::generate_groups] *)
  generate_groups : group_by → event_context → value → value → call_result (list (list value));
  (** [utils::sorted_serialize] *)
  sorted_serialize : value → io string;
  (** [query_guard_not_bool_err] *)
  guard_not_bool : expr → value → string;
}.

(** ** Window implementations *)
Record Actions := mk_actions { include : bool; emit : bool }.
Definition all_true : Actions := mk_actions true true.
Definition all_false : Actions := mk_actions false false.

Section windows.
Context `{!script_lang, !value_trait}.

Record WindowDecl := mk_decl { decl_script : option script }.

(** The value a window's script gives for an event, if the window has one. *)
Definition window_value (decl : option WindowDecl) (data : ValueAndMeta.t) (ingest_ns : u64)
    (origin_uri : option EventOriginUri.t) : option (result u64) :=
  script ← (decl ≫= decl_script);
  Some (
    ret ← from_call (run_imut script (mk_context ingest_ns origin_uri 0) (ValueAndMeta.v data) (ValueAndMeta.m data));
    ok_or match ret with
          | REmit value => as_u64 value
          | REmitEvent => as_u64 (ValueAndMeta.v data)
          | RDrop => None
          end (EMsg "Data based window didn't provide a valid value")).

Record TumblingOnTime := mk_time {
  next_window : option u64;
  t_max_groups : usize;
  interval : u64;
  t_script : option WindowDecl;
}.

Definition get_window_event (time : u64) (self : TumblingOnTime) : TumblingOnTime * Actions :=
  let opened := mk_time (Some (u64_add time (interval self))) (t_max_groups self) (interval self) (t_script self) in
  match next_window self with
  | None => (opened, all_false)
  | Some next_window =>
    if (next_window <=? time)%N then (opened, mk_actions false true) else (self, all_false)
  end.

Definition time_on_event (data : ValueAndMeta.t) (ingest_ns : u64) (origin_uri : option EventOriginUri.t)
    (self : TumblingOnTime) : TumblingOnTime * result Actions :=
  match default (Ok ingest_ns) (window_value (t_script self) data ingest_ns origin_uri) with
  | Ok time => let '(self, a) := get_window_event time self in (self, Ok a)
  | Err e => (self, Err e)
  end.

Definition time_on_tick (ns : u64) (self : TumblingOnTime) : TumblingOnTime * Actions :=
  match t_script self with
  | None => get_window_event ns self
  | Some _ => (self, all_false)
  end.

Definition time_reset (self : TumblingOnTime) : TumblingOnTime :=
  mk_time None (t_max_groups self) (interval self) (t_script self).
Definition time_from_stmt (interval : u64) (max_groups : usize) (script : option WindowDecl) : TumblingOnTime :=
  mk_time None max_groups interval script.

Record TumblingOnNumber := mk_number {
  count : u64;
  n_max_groups : usize;
  size_ : u64;
  next_eviction : u64;
  n_script : option WindowDecl;
}.

Definition set_count (c : u64) (self : TumblingOnNumber) : TumblingOnNumber :=
  mk_number c (n_max_groups self) (size_ self) (next_eviction self) (n_script self).

Definition number_on_event (data : ValueAndMeta.t) (ingest_ns : u64) (origin_uri : option EventOriginUri.t)
    (self : TumblingOnNumber) : TumblingOnNumber * result Actions :=
  match default (Ok 1%N) (window_value (n_script self) data ingest_ns origin_uri) with
  | Ok c =>
    let new_count := u64_add (count self) c in
    if (size_ self <=? new_count)%N
    then (set_count (u64_sub new_count (size_ self)) self, Ok all_true)
    else (set_count new_count self, Ok all_false)
  | Err e => (self, Err e)
  end.

Definition number_reset (self : TumblingOnNumber) : TumblingOnNumber :=
  mk_number 0 (n_max_groups self) (size_ self) 0 (n_script self).
Definition number_from_stmt (size : u64) (max_groups : usize) (script : option WindowDecl) : TumblingOnNumber :=
  mk_number 0 max_groups size 0 script.

Inductive Impl :=
  | TumblingCountBased (w : TumblingOnNumber)
  | TumblingTimeBased (w : TumblingOnTime).

Definition DEFAULT_MAX_GROUPS : usize := u64_max.

Definition window_on_event (data : ValueAndMeta.t) (ingest_ns : u64) (origin_uri : option EventOriginUri.t)
    (self : Impl) : Impl * result Actions :=
  match self with
  | TumblingTimeBased w =>
    let '(w, r) := time_on_event data ingest_ns origin_uri w in (TumblingTimeBased w, r)
  | TumblingCountBased w =>
    let '(w, r) := number_on_event data ingest_ns origin_uri w in (TumblingCountBased w, r)
  end.
(** A count based window has the default [on_tick]. *)
Definition window_on_tick (ns : u64) (self : Impl) : Impl * Actions :=
  match self with
  | TumblingTimeBased w => let '(w, a) := time_on_tick ns w in (TumblingTimeBased w, a)
  | TumblingCountBased w => (self, all_false)
  end.
Definition max_groups (self : Impl) : usize :=
  match self with TumblingTimeBased w => t_max_groups w | TumblingCountBased w => n_max_groups w end.
Definition window_reset (self : Impl) : Impl :=
  match self with
  | TumblingTimeBased w => TumblingTimeBased (time_reset w)
  | TumblingCountBased w => TumblingCountBased (number_reset w)
  end.

(** ** Select statements *)
Record select_stmt := mk_stmt {
  target : expr;
  maybe_where : option expr;
  maybe_group_by : option group_by;
  maybe_having : option expr;
  aggregates : list aggr;
}.

(** What a select passes down its windows; [event_id], [event_id_gen] and
    [transactional] change on the way. *)
Record SelectCtx := mk_ctx {
  select : select_stmt;
  ctx : event_context;
  event_id : EventId.t;
  event_id_gen : EventIdGenerator.t;
  ctx_ingest_ns : u64;
  ctx_op_meta : gmap N value;
  ctx_origin : option EventOriginUri.t;
  ctx_transactional : bool;
}.
Definition set_ids (id : EventId.t) (gen : EventIdGenerator.t) (tr : bool) (c : SelectCtx) : SelectCtx :=
  mk_ctx (select c) (ctx c) id gen (ctx_ingest_ns c) (ctx_op_meta c) (ctx_origin c) tr.

Definition run_guard (guard : option expr) (ec : event_context) (consts : run_consts)
    (aggrs : list aggr) (result : value) : Prelude.result bool :=
  match guard with
  | Some guard =>
    test ← from_call (run_expr guard ec consts aggrs result const_null const_null);
    ok_or (as_bool test) (EMsg (guard_not_bool guard test))
  | None => Ok true
  end.

Definition execute_select_and_having (c : SelectCtx) (consts : run_consts) (aggrs : list aggr)
    (data : ValueAndMeta.t) : result (option (string * Event.t)) :=
  result ← from_call (run_expr (target (select c)) (ctx c) consts aggrs (ValueAndMeta.v data) const_null (ValueAndMeta.m data));
  having ← run_guard (maybe_having (select c)) (ctx c) consts aggrs result;
  if having : bool then
    Ok (Some (OUT,
      Event.mk (event_id c) (ValueAndMeta.mk result (ValueAndMeta.m data)) (ctx_ingest_ns c)
        (ctx_origin c) None false CbNone (ctx_op_meta c) (ctx_transactional c)))
  else Ok None.

(** ** Tilt frames *)
Record GroupWindow := mk_window {
  name : value;
  window : Impl;
  aggrs : list aggr;
  id : EventId.t;
  transactional : bool;
  holds_data : bool;
}.

Definition set_window (w : Impl) (self : GroupWindow) : GroupWindow :=
  mk_window (name self) w (aggrs self) (id self) (transactional self) (holds_data self).
Definition set_aggrs (l : list aggr) (self : GroupWindow) : GroupWindow :=
  mk_window (name self) (window self) l (id self) (transactional self) (holds_data self).
Definition set_window_id (i : EventId.t) (self : GroupWindow) : GroupWindow :=
  mk_window (name self) (window self) (aggrs self) i (transactional self) (holds_data self).

(** The windows a select is declared with: their names and implementations. *)
Definition from_windows (aggrs : list aggr) (id : EventId.t) (ws : list (string * Impl)) :
    list GroupWindow :=
  (λ w : string * Impl, mk_window (VString w.1) w.2 aggrs id false false) <$> ws.

Definition reset (self : GroupWindow) : GroupWindow :=
  mk_window (name self) (window self) (aggr_init <$> aggrs self) (id self) false false.

(** What [accumulate] and [merge] record besides the data. *)
Definition track_event (c : SelectCtx) (self : GroupWindow) : GroupWindow :=
  mk_window (name self) (window self) (aggrs self) (EventId.track (id self) (event_id c))
    (transactional self || ctx_transactional c) true.

(** The loop over the aggregates: the arguments of one are evaluated before it
    accumulates them. *)
Fixpoint accumulate_aggrs (ec : event_context) (consts : run_consts) (data : ValueAndMeta.t)
    (l : list aggr) : list aggr * result unit :=
  match l with
  | [] => ([], Ok tt)
  | a :: l =>
    match (fix go (es : list expr) : result (list value) :=
             match es with
             | [] => Ok []
             | e :: es =>
               v ← from_call (run_expr e ec consts [] (ValueAndMeta.v data) const_null (ValueAndMeta.m data));
               vs ← go es; Ok (v :: vs)
             end) (aggr_args a) with
    | Err e => (a :: l, Err e)
    | Ok argv =>
      match aggr_accumulate argv a with
      | (a, IoErr e) => (a :: l, Err (EMsg e))
      | (a, IoOk _) => let '(l, r) := accumulate_aggrs ec consts data l in (a :: l, r)
      end
    end
  end.
Definition accumulate (c : SelectCtx) (consts : run_consts) (data : ValueAndMeta.t) (self : GroupWindow) :
    GroupWindow * result unit :=
  let self := track_event c self in
  let '(l, r) := accumulate_aggrs (ctx c) (mk_consts (args consts) (group consts) (name self)) data (aggrs self) in
  (set_aggrs l self, r).

Fixpoint merge_aggrs (l prev : list aggr) : list aggr * result unit :=
  match l, prev with
  | a :: l, p :: prev =>
    match aggr_merge a p with
    | (a, IoErr e) => (a :: l, Err (EMsg e))
    | (a, IoOk _) => let '(l, r) := merge_aggrs l prev in (a :: l, r)
    end
  | l, _ => (l, Ok tt)
  end.
Definition merge (c : SelectCtx) (prev : list aggr) (self : GroupWindow) : GroupWindow * result unit :=
  let self := track_event c self in
  let '(l, r) := merge_aggrs (aggrs self) prev in (set_aggrs l self, r).

(** Takes in the event, or what the previous tilt frame recorded if it had
    anything. *)
Definition record_data (c : SelectCtx) (consts : run_consts) (data : ValueAndMeta.t)
    (prev : option (bool * list aggr)) (self : GroupWindow) : GroupWindow * result unit :=
  match prev with
  | Some (had_data, prev) => if had_data : bool then merge c prev self else (self, Ok tt)
  | None => accumulate c consts data self
  end.

(** [GroupWindow::on_event] of the first window of [ws]; [events] are the
    events emitted so far. *)
Definition select_events : Type := list (string * Event.t).

Fixpoint on_event (c : SelectCtx) (consts : run_consts) (data : ValueAndMeta.t) (events : select_events)
    (prev : option (bool * list aggr)) (can_remove : bool) (ws : list GroupWindow) {struct ws} :
    SelectCtx * select_events * list GroupWindow * result bool :=
  match ws with
  | [] => (c, events, [], Ok can_remove)
  | self :: next =>
    match window_on_event data (ctx_ingest_ns c) (ctx_origin c) (window self) with
    | (w, Err e) => (c, events, set_window w self :: next, Err e)
    | (w, Ok window_event) =>
      let self := set_window w self in
      match (if include window_event then record_data c consts data prev self else (self, Ok tt)) with
      | (self, Err e) => (c, events, self :: next, Err e)
      | (self, Ok _) =>
        let '(c, events, self, next, r) :=
          (if emit window_event then
            let '(fresh, gen) := EventIdGenerator.next_id (event_id_gen c) in
            let c := set_ids (id self) gen (transactional self) c in
            let self := set_window_id fresh self in
            match (if holds_data self
                   then execute_select_and_having c (mk_consts (args consts) (group consts) (name self))
                          (aggrs self) data
                   else Ok None) with
            | Err e => (c, events, self, next, Err e)
            | Ok emitted =>
              let events := (events ++ option_list emitted)%list in
              match next with
              | [] => (c, events, reset self, next, Ok can_remove)
              | _ :: _ =>
                if can_remove then
                  let '(c, events, next, r) :=
                    on_event c consts data events (Some (holds_data self, aggrs self)) can_remove next in
                  match r with
                  | Ok b => (c, events, reset self, next, Ok b)
                  | Err e => (c, events, self, next, Err e)
                  end
                else (c, events, reset self, next, Ok false)
              end
            end
          else (c, events, self, next, Ok can_remove)) in
        match r with
        | Err e => (c, events, self :: next, Err e)
        | Ok can_remove =>
          if include window_event then (c, events, self :: next, Ok can_remove)
          else let '(self, r) := record_data c consts data prev self in
               (c, events, self :: next, _ ← r; Ok false)
        end
      end
    end
  end.

(** ** Groups *)
Record Group := mk_group { group_value : value; windows : list GroupWindow }.

Definition reset_group (self : Group) : Group :=
  mk_group (group_value self)
    ((λ g, set_window (window_reset (window g)) (reset g)) <$> windows self).

(** [Group::on_event]: also returns the generator, which is shared. *)
Definition group_on_event (c : SelectCtx) (consts : run_consts) (data : ValueAndMeta.t)
    (events : select_events) (self : Group) :
    EventIdGenerator.t * select_events * Group * result bool :=
  let run := mk_consts (args consts) (group_value self) (window_ consts) in
  match windows self with
  | _ :: _ =>
    let '(c, events, ws, r) := on_event c run data events None true (windows self) in
    (event_id_gen c, events, mk_group (group_value self) ws, r)
  | [] =>
    match execute_select_and_having c run [] data with
    | Ok emitted => (event_id_gen c, (events ++ option_list emitted)%list, self, Ok true)
    | Err e => (event_id_gen c, events, self, Err e)
    end
  end.
End windows.

(** ** Window facts *)
Section window_facts.
Context `{!script_lang, !value_trait}.

Lemma number_on_event_eq data ns o w :
  number_on_event data ns o w =
    match default (Ok 1%N) (window_value (n_script w) data ns o) with
    | Ok c => let n := u64_add (count w) c in
      if (size_ w <=? n)%N then (set_count (u64_sub n (size_ w)) w, Ok all_true)
      else (set_count n w, Ok all_false)
    | Err e => (w, Err e)
    end.
Proof. done. Qed.

(** A window that takes an event in before it emits, emits. *)
Lemma include_emits data ns o w w' a :
  window_on_event data ns o w = (w', Ok a) → include a = true → emit a = true.
Proof.
  destruct w as [w|w]; cbn [window_on_event].
  - rewrite number_on_event_eq. destruct (default _ _) as [c|]; [|done]. cbn zeta.
    destruct (_ <=? _)%N; by intros [= _ <-].
  - unfold time_on_event. destruct (default _ _) as [t|]; [|done]. unfold get_window_event.
    destruct (next_window w) as [nw|]; [destruct (nw <=? t)%N|]; by intros [= _ <-].
Qed.

(** A count based window emits only what it takes in. *)
Definition count_based (w : Impl) : Prop := match w with TumblingCountBased _ => True | _ => False end.

Lemma count_emits data ns o w w' a :
  window_on_event data ns o w = (w', Ok a) → count_based w →
  count_based w' ∧ (emit a = true → include a = true).
Proof.
  destruct w as [w|w]; [|done]. cbn [window_on_event].
  rewrite number_on_event_eq. destruct (default _ _) as [c|]; [|done]. cbn zeta.
  destruct (_ <=? _)%N; by intros [= <- <-].
Qed.

(** *** Runs of a window *)
Definition window_input : Type := ValueAndMeta.t * u64 * option EventOriginUri.t.

Fixpoint number_run (evs : list window_input) (w : TumblingOnNumber) :
    TumblingOnNumber * list (result Actions) :=
  match evs with
  | [] => (w, [])
  | (d, ns, o) :: evs =>
    let '(w, a) := number_on_event d ns o w in
    let '(w, l) := number_run evs w in (w, a :: l)
  end.

Fixpoint time_run (ts : list N) (w : TumblingOnTime) : TumblingOnTime * list Actions :=
  match ts with
  | [] => (w, [])
  | t :: ts =>
    let '(w, a) := get_window_event t w in
    let '(w, l) := time_run ts w in (w, a :: l)
  end.

(** The actions at the running sums of the counts [cs], from [s] on. *)
Fixpoint crossings (size s : N) (cs : list N) : list (result Actions) :=
  match cs with
  | [] => []
  | c :: cs =>
    Ok (if bool_decide (s / size < (s + c) / size)%N then all_true else all_false) :: crossings size (s + c) cs
  end.

Definition window_count (w : TumblingOnNumber) (ev : window_input) : result u64 :=
  default (Ok 1%N) (window_value (n_script w) ev.1.1 ev.1.2 ev.2).

Lemma div_step size s c :
  (0 < size)%N → (c ≤ size)%N →
  ((s mod size + c < size)%N → (s / size = (s + c) / size)%N ∧ ((s + c) mod size = s mod size + c)%N) ∧
  ((size ≤ s mod size + c)%N → ((s + c) / size = s / size + 1)%N ∧ ((s + c) mod size = s mod size + c - size)%N).
Proof.
  intros Hs Hc. pose proof (N.div_mod s size ltac:(lia)) as Hdm.
  pose proof (N.mod_lt s size ltac:(lia)) as Hlt.
  split; intros Hb.
  - split; symmetry.
    + symmetry. apply (N.div_unique (s + c) size _ (s mod size + c)); lia.
    + apply (N.mod_unique (s + c) size (s / size)); lia.
  - split; symmetry.
    + apply (N.div_unique (s + c) size _ (s mod size + c - size)); lia.
    + apply (N.mod_unique (s + c) size (s / size + 1)); lia.
Qed.

Lemma number_run_spec evs w cs s :
  (0 < size_ w)%N → (2 * size_ w < w64)%N → count w = (s mod size_ w)%N →
  window_count w <$> evs = Ok <$> cs → Forall (λ c, (c ≤ size_ w)%N) cs →
  let '(w', l) := number_run evs w in
  l = crossings (size_ w) s cs ∧ count w' = ((s + foldr N.add 0 cs) mod size_ w)%N.
Proof.
  revert w cs s. induction evs as [|[[d ns] o] evs IH]; intros w cs s Hs Hw Hcount Hcs Hle.
  { destruct cs; [|done]. cbn. by rewrite N.add_0_r. }
  destruct cs as [|c cs]; [done|]. rewrite !fmap_cons in Hcs. injection Hcs as Hc Hcs.
  apply Forall_cons in Hle as [Hc' Hle]. cbn [number_run crossings foldr].
  pose proof (N.mod_lt s (size_ w) ltac:(lia)) as Hlt.
  destruct (div_step (size_ w) s c Hs Hc') as [Hstay Hcross].
  rewrite number_on_event_eq. unfold window_count in Hc. cbn [fst snd] in Hc. rewrite Hc. cbn zeta.
  rewrite Hcount, u64_add_small by lia.
  assert (∀ n a, n = ((s + c) mod size_ w)%N →
    (if bool_decide (s / size_ w < (s + c) / size_ w)%N then all_true else all_false) = a →
    let '(w', l) := (let '(w0, l) := number_run evs (set_count n w) in (w0, Ok a :: l)) in
    l = Ok (if bool_decide (s / size_ w < (s + c) / size_ w)%N then all_true else all_false)
          :: crossings (size_ w) (s + c) cs ∧
    count w' = ((s + (c + foldr N.add 0 cs)) mod size_ w)%N) as Hgo.
  { intros n a -> ->. specialize (IH (set_count ((s + c) mod size_ w) w) cs (s + c)%N).
    destruct (number_run evs (set_count ((s + c) mod size_ w) w)) as [w' l].
    destruct IH as [-> ->]; [done..|]. cbn [size_ set_count]. by rewrite N.add_assoc. }
  destruct (N.leb_spec (size_ w) (s mod size_ w + c)) as [Hn|Hn].
  - destruct (Hcross Hn) as [Hd Hm]. apply Hgo; [rewrite u64_sub_small by lia; lia|].
    by rewrite bool_decide_true by lia.
  - destruct (Hstay Hn) as [Hd Hm]. apply Hgo; [lia|]. by rewrite bool_decide_false by lia.
Qed.

Lemma time_run_cons t ts w :
  time_run (t :: ts) w =
    ((time_run ts (get_window_event t w).1).1,
     (get_window_event t w).2 :: (time_run ts (get_window_event t w).1).2).
Proof.
  cbn [time_run]. destruct (get_window_event t w) as [w1 a]. cbn [fst snd].
  by destruct (time_run ts w1).
Qed.

Lemma length_time_run ts w : length (time_run ts w).2 = length ts.
Proof.
  revert w. induction ts as [|t ts IH]; intros w; [done|]. rewrite time_run_cons. cbn.
  by rewrite IH.
Qed.

Lemma window_event_interval t w : interval (get_window_event t w).1 = interval w.
Proof. unfold get_window_event. destruct (next_window w) as [n|]; [by destruct (n <=? t)%N|done]. Qed.

(** What a window that was opened at [t0] does as long as it did not emit. *)
Lemma time_run_since t0 ts w j tj :
  next_window w = Some (t0 + interval w)%N → ts !! j = Some tj →
  (∀ k, (k < j)%nat → ∃ a, (time_run ts w).2 !! k = Some a ∧ emit a = false) →
  (time_run ts w).2 !! j =
    Some (if (t0 + interval w <=? tj)%N then mk_actions false true else all_false).
Proof.
  revert w j. induction ts as [|t ts IH]; intros w j Hw Hj Hk; [done|].
  rewrite time_run_cons in Hk |- *. cbn [fst snd] in Hk |- *.
  destruct j as [|j]; cbn in Hj |- *.
  - injection Hj as ->. unfold get_window_event. rewrite Hw. by destruct (_ <=? _)%N.
  - destruct (Hk 0%nat) as (a & Ha & He); [lia|]. cbn in Ha. injection Ha as <-.
    assert ((get_window_event t w).1 = w) as Heq.
    { revert He. unfold get_window_event. rewrite Hw. by destruct (_ <=? _)%N. }
    rewrite Heq in Hk |- *. apply IH; [done|done|]. intros k Hlt. apply (Hk (S k)). lia.
Qed.

(** An event that opens a window starts its interval. *)
Lemma window_opens t w :
  (t + interval w < w64)%N → next_window w = None ∨ emit (get_window_event t w).2 = true →
  next_window (get_window_event t w).1 = Some (t + interval w)%N.
Proof.
  intros Ht Hem. unfold get_window_event in *. rewrite u64_add_small in * by done.
  destruct (next_window w) as [n|]; [destruct (n <=? t)%N; [done|by destruct Hem]|done].
Qed.

Lemma time_run_from ts w i ti :
  Forall (λ t, (t + interval w < w64)%N) ts → ts !! i = Some ti →
  (i = 0%nat ∧ next_window w = None) ∨ (∃ a, (time_run ts w).2 !! i = Some a ∧ emit a = true) →
  ∃ w', next_window w' = Some (ti + interval w)%N ∧ interval w' = interval w ∧
    ∀ k, (time_run ts w).2 !! (S i + k)%nat = (time_run (drop (S i) ts) w').2 !! k.
Proof.
  revert w i. induction ts as [|t ts IH]; intros w i Hts Hi Hem; [done|].
  apply Forall_cons in Hts as [Ht Hts]. rewrite time_run_cons in Hem |- *. cbn [fst snd] in Hem |- *.
  pose proof (window_event_interval t w) as Hiv.
  destruct i as [|i]; cbn in Hi.
  - injection Hi as ->. exists (get_window_event ti w).1. split_and!; [|done|done].
    apply window_opens; [done|]. destruct Hem as [[_ ?]|(a & [= <-] & ?)]; auto.
  - destruct Hem as [[? _]|(a & Ha & He)]; [done|].
    destruct (IH (get_window_event t w).1 i) as (w' & Hw' & Hiv' & Hk);
      [by rewrite Hiv|done|by eauto|].
    exists w'. rewrite <-Hiv. split_and!; [done|done|exact Hk].
Qed.

(** count based windows.  A fresh window of [size] that gets events with
    counts of at most [size] (one each, or what its script says) emits at
    exactly the events where the running sum of the counts reaches the next
    multiple of [size], and keeps the rest of the sum. *)
Theorem window_count_exact (evs : list window_input) (size : u64) (mg : usize) (decl : option WindowDecl)
    (cs : list N) (Hs : (0 < size)%N) (Hw : (2 * size < w64)%N)
    (Hcs : window_count (number_from_stmt size mg decl) <$> evs = Ok <$> cs)
    (Hle : Forall (λ c, (c ≤ size)%N) cs) :
  let '(w', l) := number_run evs (number_from_stmt size mg decl) in
  l = crossings size 0 cs ∧ count w' = (foldr N.add 0 cs mod size)%N.
Proof.
  apply (number_run_spec evs (number_from_stmt size mg decl) cs 0 Hs Hw); [|done|done].
  symmetry. apply N.Div0.mod_0_l.
Qed.

(** time based windows.  A fresh window emits nothing at its first event;
    from then on, counting from the first event or from an event at which it
    emitted, it emits at the first event whose time is at least [interval]
    later, without taking it in, and at none before: windows do not overlap
    and none holds events further apart. *)
Theorem window_time_exact (ts : list N) (interval_ : u64) (mg : usize) (decl : option WindowDecl)
    (Hts : Forall (λ t, (t + interval_ < w64)%N) ts) :
  let l := (time_run ts (time_from_stmt interval_ mg decl)).2 in
  length l = length ts ∧ (∀ a, l !! 0%nat = Some a → a = all_false) ∧
  ∀ i j ti tj, (i < j)%nat → ts !! i = Some ti → ts !! j = Some tj →
    i = 0%nat ∨ (∃ a, l !! i = Some a ∧ emit a = true) →
    (∀ k, (i < k < j)%nat → ∃ a, l !! k = Some a ∧ emit a = false) →
    l !! j = Some (if (ti + interval_ <=? tj)%N then mk_actions false true else all_false).
Proof.
  intros l. split_and!; [apply length_time_run| |].
  - intros a Ha. unfold l in Ha. destruct ts as [|t ts]; [done|]. rewrite time_run_cons in Ha.
    by injection Ha as <-.
  - intros i j ti tj Hij Hi Hj Hem Hk.
    destruct (time_run_from ts (time_from_stmt interval_ mg decl) i ti) as (w' & Hw' & Hiv & Hl);
      [done|done| |].
    { destruct Hem as [->|?]; [by left|by right]. }
    assert (∀ k, (i < k)%nat → l !! k = (time_run (drop (S i) ts) w').2 !! (k - S i)%nat) as Hl'.
    { intros k Hlt. rewrite <-Hl. f_equal. lia. }
    rewrite Hl' by done. cbn [interval time_from_stmt] in Hw', Hiv. rewrite <-Hiv in Hw' |- *.
    apply time_run_since; [done|rewrite lookup_drop; rewrite <-Hj; f_equal; lia|].
    intros k Hlt. destruct (Hk (S i + k)%nat) as (a & Ha & He); [lia|].
    exists a. split; [|done]. rewrite <-Ha, Hl' by lia. f_equal. lia.
Qed.
End window_facts.
