(* ===== verification/TiltFrames.v ===== *)
(** What the tilt frames of a group hold and emit: the chain of windows of
    [Window] against an abstract chain of queues.

    A queue holds the events that went into a window and were not emitted yet.
    What a window aggregated is related to its queue by [holding], whatever
    the aggregate functions are. *)
From S2P Require Import Prelude EventIds Value Event Window.

Section tilt.
Context `{!script_lang, !value_trait}.

(** An event as a window takes it in. *)
Record contribution := mk_contribution {
  k_ctx : event_context;
  k_consts : run_consts;
  k_data : ValueAndMeta.t;
  k_id : EventId.t;
}.

(** Aggregates that took in exactly these events, in this order: from a
    declaration or after a reset, by accumulating events, and by merging what
    others took in behind it. *)
Inductive holding (decl : list aggr) : list aggr → list contribution → Prop :=
  | holding_decl : holding decl decl []
  | holding_init l : holding decl (aggr_init <$> l) []
  | holding_accumulate l l' q k :
      holding decl l q →
      accumulate_aggrs (k_ctx k) (k_consts k) (k_data k) l = (l', Ok tt) →
      holding decl l' (q ++ [k])
  | holding_merge l p l' q q' :
      holding decl l q → holding decl p q' → merge_aggrs l p = (l', Ok tt) →
      holding decl l' (q ++ q').

(** The id [big] covers everything [e] covers. *)
Definition tracks (big e : EventId.t) : Prop :=
  eid_wf big ∧ ∀ k n, covers (eid_abs e) k n → covers (eid_abs big) k n.

Lemma track_self e o : eid_wf e → eid_wf o → tracks (EventId.track e o) e.
Proof.
  intros He Ho. destruct (track_ok e o He Ho) as (Hw & _ & Habs). split; [done|].
  intros k n Hc. rewrite Habs. by do 2 apply covers_union_l.
Qed.

Lemma track_other_id e o : eid_wf e → eid_wf o → tracks (EventId.track e o) o.
Proof.
  intros He Ho. destruct (track_ok e o He Ho) as (Hw & _ & Habs). split; [done|].
  intros k n Hc. rewrite Habs. destruct (decide (EventId.tracked_event_ids o = [])) as [Hnil|Hne].
  - apply covers_union_l, covers_union_r. revert Hc.
    unfold eid_abs, EventId.self_tracked. rewrite Hnil. done.
  - rewrite eid_abs_tracked in Hc by done. by apply covers_union_r.
Qed.

Lemma tracks_trans a b c : tracks a b → tracks b c → tracks a c.
Proof. intros [Ha Hab] [_ Hbc]. split; [done|]. auto. Qed.

(** ** The abstract chain *)

(** A level: a window and its queue.  [input] is what arrives: the event, or
    the queue the level before emitted.  The result also lists what was
    emitted, the first level first, and whether nothing is held any more;
    there is none when a window's script fails. *)
Fixpoint chain_event (data : ValueAndMeta.t) (ns : u64) (o : option EventOriginUri.t)
    (input : list contribution) (levels : list (Impl * list contribution)) :
    option (list (Impl * list contribution) * list (list contribution) * bool) :=
  match levels with
  | [] => Some ([], [], true)
  | (w, q) :: next =>
    match window_on_event data ns o w with
    | (w, Ok a) =>
      let full := if include a then q ++ input else q in
      let left := if include a then [] else input in
      if emit a then
        '(next, out, empty) ← chain_event data ns o full next;
        Some ((w, left) :: next, full :: out, include a && empty)
      else Some ((w, full ++ left) :: next, [], include a)
    | (w, Err _) => None
    end
  end.

(** All that is held, the oldest events first. *)
Definition held (levels : list (Impl * list contribution)) : list contribution :=
  mjoin (reverse levels.*2).

(** What left the chain: the queue the last level emitted, if all emitted. *)
Definition drained (levels : list (Impl * list contribution)) (out : list (list contribution)) :
    list contribution :=
  if bool_decide (length out = length levels) then default [] (last out) else [].

Lemma held_cons w q next : held ((w, q) :: next) = held next ++ q.
Proof. unfold held. rewrite fmap_cons, reverse_cons, join_app. cbn. by rewrite app_nil_r. Qed.

Lemma drained_cons x levels full out :
  levels ≠ [] → drained (x :: levels) (full :: out) = drained levels out.
Proof.
  intros Hne. unfold drained. cbn [length].
  rewrite (bool_decide_ext _ (length out = length levels)) by lia.
  case_bool_decide as Hl; [|done]. destruct out; [by destruct levels|done].
Qed.

Lemma drained_nil levels : levels ≠ [] → drained levels [] = [].
Proof. intros Hne. unfold drained. by case_bool_decide. Qed.

(** Nothing is lost, doubled or reordered. *)
Lemma chain_event_conserves data ns o input levels levels' out empty :
  levels ≠ [] → chain_event data ns o input levels = Some (levels', out, empty) →
  drained levels out ++ held levels' = held levels ++ input ∧ levels' ≠ [].
Proof.
  revert input levels' out empty.
  induction levels as [|[w q] next IH]; intros input levels' out empty Hne Hc; [done|].
  cbn [chain_event] in Hc. destruct (window_on_event data ns o w) as [w' [a|]]; [|done].
  set (full := if include a then q ++ input else q) in *.
  set (left := if include a then [] else input) in *.
  assert (full ++ left = q ++ input) as Hq
    by (unfold full, left; destruct (include a); [by rewrite app_nil_r|done]).
  destruct (emit a).
  - destruct (chain_event data ns o _ next) as [[[next' out'] empty']|] eqn:Hn; [|done].
    injection Hc as <- <- <-. split; [|done].
    rewrite !held_cons, <-(app_assoc (held next)), <-Hq.
    destruct next as [|l next].
    + injection Hn as <- <- <-. done.
    + rewrite drained_cons by done. destruct (IH _ _ _ _ ltac:(done) Hn) as [Heq _].
      by rewrite app_assoc, Heq, app_assoc.
  - injection Hc as <- <- <-. split; [|done].
    rewrite drained_nil, !held_cons, Hq by done. by rewrite app_nil_l, app_assoc.
Qed.

(** The chain says it is empty only when it is. *)
Lemma chain_event_empty data ns o input levels levels' out :
  chain_event data ns o input levels = Some (levels', out, true) → Forall (λ l, l.2 = []) levels'.
Proof.
  revert input levels' out.
  induction levels as [|[w q] next IH]; intros input levels' out Hc; [by injection Hc as <- _|].
  cbn [chain_event] in Hc. destruct (window_on_event data ns o w) as [w' [a|]] eqn:Hw; [|done].
  pose proof (include_emits _ _ _ _ _ _ Hw) as Hie.
  destruct (emit a).
  - destruct (chain_event data ns o _ next) as [[[next' out'] empty']|] eqn:Hn; [|done].
    injection Hc as <- <- Hempty. apply andb_true_iff in Hempty as [Hi ->].
    constructor; [by rewrite Hi|]. by eapply IH.
  - injection Hc as _ _ Hi. by specialize (Hie Hi).
Qed.

(** ** The windows of a group refine the chain *)
Section refinement.
Context (decl : list aggr) (tr : Prop).

(** A window and its level.  [tr] says whether event ids are followed, which
    needs count based windows. *)
Definition refines (self : GroupWindow) (l : Impl * list contribution) : Prop :=
  window self = l.1 ∧ holding decl (aggrs self) l.2 ∧ (holds_data self = true ↔ l.2 ≠ []) ∧
  eid_wf (id self) ∧
  (tr → count_based l.1 ∧ Forall (λ k, tracks (id self) (k_id k)) l.2).

(** What a window gets. *)
Definition arrives (c : SelectCtx) (consts : run_consts) (data : ValueAndMeta.t) (nm : value)
    (prev : option (bool * list aggr)) (input : list contribution) : Prop :=
  eid_wf (event_id c) ∧ (tr → Forall (λ k, tracks (event_id c) (k_id k)) input) ∧
  match prev with
  | None => ∃ e, input = [mk_contribution (ctx c) (mk_consts (args consts) (group consts) nm) data e]
  | Some (had, p) => holding decl p input ∧ (had = true ↔ input ≠ [])
  end.

Lemma track_refines self w q input c :
  refines self (w, q) → eid_wf (event_id c) →
  (tr → Forall (λ k, tracks (event_id c) (k_id k)) input) →
  eid_wf (id (track_event c self)) ∧
  (tr → count_based w ∧ Forall (λ k, tracks (id (track_event c self)) (k_id k)) (q ++ input)).
Proof.
  intros (_ & _ & _ & Hwf & Htr) He Hin. split; [by apply track_ok|]. intros Ht.
  destruct (Htr Ht) as [Hc Hq]. split; [done|]. apply Forall_app. split.
  - eapply Forall_impl; [exact Hq|]. intros k. apply tracks_trans. by apply track_self.
  - eapply Forall_impl; [exact (Hin Ht)|]. intros k. apply tracks_trans. by apply track_other_id.
Qed.

Lemma record_refines c consts data prev self self' w q input :
  refines self (w, q) → arrives c consts data (name self) prev input →
  record_data c consts data prev self = (self', Ok tt) →
  refines self' (w, q ++ input) ∧ name self' = name self.
Proof.
  intros Hr (He & Hin & Hprev) Hrec.
  destruct (track_refines self w q input c Hr He Hin) as [Hwf Htr].
  pose proof Hr as (Hw & Hh & Hd & _ & _).
  destruct prev as [[had p]|]; cbn [record_data] in Hrec.
  - destruct Hprev as [Hp Hhad]. destruct had.
    + unfold merge in Hrec. change (aggrs (track_event c self)) with (aggrs self) in Hrec.
      destruct (merge_aggrs (aggrs self) p) as [l [[]|]] eqn:Hm; [|done].
      injection Hrec as <-. split; [|done]. split_and!; cbn; [done| | |done|done].
      * by eapply holding_merge.
      * split; [|done]. intros _ [_ ?]%app_nil. by destruct Hhad as [Hhad _]; apply Hhad.
    + injection Hrec as <-. assert (input = []) as ->.
      { destruct input; [done|]. by destruct Hhad as [_ Hhad]; discriminate Hhad. }
      by rewrite app_nil_r.
  - destruct Hprev as [e ->]. unfold accumulate in Hrec.
    change (aggrs (track_event c self)) with (aggrs self) in Hrec.
    change (name (track_event c self)) with (name self) in Hrec.
    destruct (accumulate_aggrs _ _ data (aggrs self)) as [l [[]|]] eqn:Ha; [|done].
    injection Hrec as <-. split; [|done]. split_and!; cbn; [done| | |done|done].
    + by eapply holding_accumulate.
    + split; [|done]. intros _ [_ ?]%app_nil. done.
Qed.

(** A window after it emitted. *)
Lemma reset_refines self w q e :
  refines self (w, q) → eid_wf e → refines (reset (set_window_id e self)) (w, []).
Proof.
  intros (Hw & Hh & Hd & _ & Htr) He. split_and!; cbn; [done|apply holding_init|done|done|].
  intros Ht. split; [by apply Htr|done].
Qed.

(** What is emitted for a queue: the select of aggregates that hold it. *)
Definition emits (data : ValueAndMeta.t) (q : list contribution) (em : option (string * Event.t)) : Prop :=
  ∃ c consts l, holding decl l q ∧ execute_select_and_having c consts l data = Ok em ∧
    (tr → ∀ pe, em = Some pe → Forall (λ k, tracks (Event.id pe.2) (k_id k)) q).

Lemma execute_id c consts l data pe :
  execute_select_and_having c consts l data = Ok (Some pe) → Event.id pe.2 = event_id c.
Proof.
  unfold execute_select_and_having.
  destruct (from_call (run_expr _ _ _ _ _ _ _)) as [v|]; [rewrite bind_Ok|done].
  destruct (run_guard _ _ _ _ _) as [[]|]; rewrite ?bind_Ok; [|done..]. by intros [= <-].
Qed.

(** What stays the same of the context on the way down. *)
Definition same_event (c c' : SelectCtx) : Prop :=
  ctx c' = ctx c ∧ select c' = select c ∧ ctx_ingest_ns c' = ctx_ingest_ns c ∧ ctx_origin c' = ctx_origin c.

Lemma on_event_cons c consts data events prev self next :
  on_event c consts data events prev true (self :: next) =
    match window_on_event data (ctx_ingest_ns c) (ctx_origin c) (window self) with
    | (w, Err e) => (c, events, set_window w self :: next, Err e)
    | (w, Ok a) =>
      match (if include a then record_data c consts data prev (set_window w self)
             else (set_window w self, Ok tt)) with
      | (self, Err e) => (c, events, self :: next, Err e)
      | (self, Ok _) =>
        if emit a then
          let '(fresh, gen) := EventIdGenerator.next_id (event_id_gen c) in
          let c1 := set_ids (id self) gen (transactional self) c in
          let self1 := set_window_id fresh self in
          match (if holds_data self
                 then execute_select_and_having c1 (mk_consts (args consts) (group consts) (name self)) (aggrs self) data
                 else Ok None) with
          | Err e => (c1, events, self1 :: next, Err e)
          | Ok emitted =>
            let '(c2, events, next, r) :=
              match next with
              | [] => (c1, events ++ option_list emitted, [], Ok true)
              | _ => on_event c1 consts data (events ++ option_list emitted)
                       (Some (holds_data self, aggrs self)) true next
              end in
            match r with
            | Err e => (c2, events, self1 :: next, Err e)
            | Ok b =>
              if include a then (c2, events, reset self1 :: next, Ok b)
              else let '(self2, r) := record_data c2 consts data prev (reset self1) in
                   (c2, events, self2 :: next, _ ← r; Ok false)
            end
          end
        else if include a then (c, events, self :: next, Ok true)
        else let '(self2, r) := record_data c consts data prev self in
             (c, events, self2 :: next, _ ← r; Ok false)
      end
    end.
Proof.
  cbn [on_event]. destruct (window_on_event _ _ _ _) as [w [a|]]; [|done].
  destruct (if include a then _ else _) as [self1 [u|]]; [|done].
  destruct (emit a); [|done].
  destruct (EventIdGenerator.next_id (event_id_gen c)) as [fresh gen]. cbn [holds_data set_window_id name aggrs].
  destruct (if holds_data self1 then _ else _) as [em|]; [|done].
  destruct next as [|n next]; [done|].
  destruct (on_event _ consts data _ _ true (n :: next)) as [[[c2 evs2] next2] [b|]]; done.
Qed.

Lemma fresh_wf g : eid_wf (EventIdGenerator.next_id g).1.
Proof. unfold eid_wf. cbn. constructor. Qed.

Lemma refines_window self w w' q : refines self (w, q) → (count_based w → count_based w') →
  refines (set_window w' self) (w', q).
Proof.
  intros (_ & Hh & Hd & Hwf & Htr) Hc. split_and!; cbn; try done. intros Ht.
  destruct (Htr Ht). split; [by apply Hc|done].
Qed.

Lemma emits_list data q em qs ems :
  (if bool_decide (q ≠ []) then emits data q em else em = None) →
  Forall2 (emits data) (filter (λ q, q ≠ []) qs) ems →
  Forall2 (emits data) (filter (λ q, q ≠ []) (q :: qs)) (if bool_decide (q ≠ []) then em :: ems else ems).
Proof.
  intros Hq Hqs. rewrite filter_cons. case_bool_decide as Hne.
  - rewrite decide_True by done. by constructor.
  - subst q. by rewrite decide_False by (intros Hn; by apply Hn).
Qed.

Lemma on_event_refines ws levels c consts data events prev input c' events' ws' b :
  ws ≠ [] → Forall2 refines ws levels →
  (∀ self, head ws = Some self → arrives c consts data (name self) prev input) →
  on_event c consts data events prev true ws = (c', events', ws', Ok b) →
  ∃ levels' out ems,
    chain_event data (ctx_ingest_ns c) (ctx_origin c) input levels = Some (levels', out, b) ∧
    Forall2 refines ws' levels' ∧ name <$> ws' = name <$> ws ∧
    events' = events ++ omap (λ x, x) ems ∧ Forall2 (emits data) (filter (λ q, q ≠ []) out) ems ∧
    same_event c c' ∧ eid_wf (event_id c').
Proof.
  revert levels c events prev input c' events' ws' b.
  induction ws as [|self next IH]; intros levels c events prev input c' events' ws' b Hne Hall Harr Hev; [done|].
  apply Forall2_cons_inv_l in Hall as ([w q] & nlevels & Hself & Hnext & ->).
  specialize (Harr self eq_refl). rewrite on_event_cons in Hev. cbn [chain_event].
  destruct Hself as (Hw & Hself'). cbn [fst] in Hw.
  pose proof (conj Hw Hself' : refines self (w, q)) as Hself. clear Hself'.
  rewrite Hw in Hev.
  destruct (window_on_event data (ctx_ingest_ns c) (ctx_origin c) w) as [w' [a|]] eqn:Hwin; [|done].
  assert (refines (set_window w' self) (w', q)) as Hself1.
  { eapply refines_window; [done|]. intros Hc. by apply (count_emits _ _ _ _ _ _ Hwin). }
  set (full := if include a then q ++ input else q).
  destruct (if include a then record_data c consts data prev (set_window w' self) else (set_window w' self, Ok tt))
    as [self2 [[]|]] eqn:Hrec; [|done].
  assert (refines self2 (w', full) ∧ name self2 = name self) as [Hself2 Hname].
  { unfold full. destruct (include a); [by eapply record_refines in Hrec|]. by injection Hrec as <-. }
  assert (tr → emit a = true → include a = true) as Hcount.
  { intros Ht. destruct Hself as (_ & _ & _ & _ & Htr). by apply (count_emits _ _ _ _ _ _ Hwin), Htr. }
  clear Hrec Hself Hself1.
  destruct (emit a) eqn:Hemit.
  2: { destruct (include a) eqn:Hinc; [by rewrite (include_emits _ _ _ _ _ _ Hwin Hinc) in Hemit|].
    destruct (record_data c consts data prev self2) as [self3 [[]|]] eqn:Hrec; [|done].
    injection Hev as <- <- <- <-.
    destruct (record_refines c consts data prev self2 self3 w' q input) as [Hself3 Hname3];
      [done|by rewrite Hname|done|].
    eexists _, _, []. split_and!; [done|by constructor| |by rewrite app_nil_r|constructor|done|by apply Harr].
    cbn. by rewrite Hname3, Hname. }
  destruct (EventIdGenerator.next_id (event_id_gen c)) as [fresh gen] eqn:Hfresh.
  assert (eid_wf fresh) as Hfwf by (pose proof (fresh_wf (event_id_gen c)) as Hf; by rewrite Hfresh in Hf).
  cbv zeta in Hev. set (c1 := set_ids (id self2) gen (transactional self2) c) in *.
  destruct (if holds_data self2 then _ else _) as [em|] eqn:Hex; [|done].
  pose proof (reset_refines self2 w' full fresh Hself2 Hfwf) as Hreset.
  destruct Hself2 as (Hw2 & Hh2 & Hd2 & Hwf2 & Htr2).
  assert (if bool_decide (full ≠ []) then emits data full em else em = None) as Hem.
  { case_bool_decide as Hfull.
    - apply Hd2 in Hfull. rewrite Hfull in Hex. exists c1, (mk_consts (args consts) (group consts) (name self2)), (aggrs self2). split_and!; [done|done|].
      intros Ht pe ->. rewrite (execute_id _ _ _ _ _ Hex). by destruct (Htr2 Ht).
    - destruct (holds_data self2); [|by injection Hex as <-]. exfalso. by apply (proj1 Hd2 eq_refl). }
  assert (∃ next' nlevels' out b2 c2 ems2,
    chain_event data (ctx_ingest_ns c) (ctx_origin c) full nlevels = Some (nlevels', out, b2) ∧
    Forall2 refines next' nlevels' ∧ name <$> next' = name <$> next ∧
    Forall2 (emits data) (filter (λ q, q ≠ []) out) ems2 ∧ same_event c c2 ∧ eid_wf (event_id c2) ∧
    (if include a then (c2, events ++ option_list em ++ omap (λ x, x) ems2, reset (set_window_id fresh self2) :: next', Ok b2)
     else let '(self3, r) := record_data c2 consts data prev (reset (set_window_id fresh self2)) in
       (c2, events ++ option_list em ++ omap (λ x, x) ems2, self3 :: next', _ ← r; Ok false)) =
    (c', events', ws', Ok b)) as (next' & nlevels' & out & b2 & c2 & ems2 & Hchain & Hn' & Hnn & Hems & Hsame & Hwf & Hend).
  { destruct next as [|n next].
    - apply Forall2_nil_inv_l in Hnext as ->. exists [], [], [], true, c1, [].
      split_and!; try done. by rewrite app_nil_r.
    - destruct (on_event c1 consts data _ _ true (n :: next)) as [[[c2 evs2] next'] [b2|]] eqn:Hon; [|done].
      destruct (IH nlevels c1 (events ++ option_list em) (Some (holds_data self2, aggrs self2)) full
        c2 evs2 next' b2) as (nlevels' & out & ems2 & Hchain & Hn' & Hnn & -> & Hems & Hsame & Hwf);
        [done|done| |done|].
      { intros n' _. split_and!; [done| |done|done]. intros Ht. by destruct (Htr2 Ht). }
      exists next', nlevels', out, b2, c2, ems2. rewrite <-(app_assoc events) in Hev.
      by split_and!. }
  rewrite Hchain. cbn [mbind option_bind].
  assert (events' = events ++ omap (λ x, x) (if bool_decide (full ≠ []) then em :: ems2 else ems2)) as Hevents.
  { assert (events' = events ++ option_list em ++ omap (λ x, x) ems2) as ->.
    { destruct (include a); [by injection Hend|].
      destruct (record_data c2 consts data prev _) as [? [[]|]]; [by injection Hend|done]. }
    case_bool_decide; [by destruct em|by subst em]. }
  destruct (include a) eqn:Hinc.
  - injection Hend as <- _ <- <-. eexists _, _, _. split_and!; [done|by constructor| |exact Hevents| |done|done].
    + cbn. by rewrite Hnn, Hname.
    + by apply emits_list.
  - destruct (record_data c2 consts data prev _) as [self3 [[]|]] eqn:Hrec; [|done].
    injection Hend as <- _ <- <-.
    destruct (record_refines c2 consts data prev (reset (set_window_id fresh self2)) self3 w' [] input)
      as [Hself3 Hname3]; [done| |done|].
    { destruct Harr as (_ & _ & Hprev), Hsame as (Hctx & _). split_and!; [done| |].
      - intros Ht. by specialize (Hcount Ht eq_refl).
      - cbn. by rewrite Hctx, Hname. }
    eexists _, _, _. split_and!; [done|by constructor| |exact Hevents| |done|done].
    + cbn. by rewrite Hnn, Hname3, <-Hname.
    + by apply emits_list.
Qed.

(** A group without data. *)
Lemma from_windows_refines i ws :
  eid_wf i → (tr → Forall (λ w : string * Impl, count_based w.2) ws) →
  Forall2 refines (from_windows decl i ws) ((λ w : string * Impl, (w.2, [])) <$> ws).
Proof.
  intros Hi Htr. induction ws as [|w ws IH]; [constructor|]. constructor.
  - split_and!; cbn; [done|constructor|done|done|]. intros Ht. split; [|done].
    specialize (Htr Ht). by apply Forall_cons in Htr as [? _].
  - apply IH. intros Ht. specialize (Htr Ht). by apply Forall_cons in Htr as [_ ?].
Qed.
End refinement.

(** What a group takes in when it is called. *)
Definition taken (c : SelectCtx) (consts : run_consts) (data : ValueAndMeta.t) (g : Group) : contribution :=
  mk_contribution (ctx c)
    (mk_consts (args consts) (group_value g) (from_option name const_null (head (windows g)))) data (event_id c).

Lemma group_step decl tr c consts data events g levels gen events' g' b :
  windows g ≠ [] → Forall2 (refines decl tr) (windows g) levels → eid_wf (event_id c) →
  group_on_event c consts data events g = (gen, events', g', Ok b) →
  ∃ levels' out ems,
    chain_event data (ctx_ingest_ns c) (ctx_origin c) [taken c consts data g] levels = Some (levels', out, b) ∧
    Forall2 (refines decl tr) (windows g') levels' ∧
    events' = events ++ omap (λ x, x) ems ∧
    Forall2 (emits decl tr data) (filter (λ q, q ≠ []) out) ems ∧
    drained levels out ++ held levels' = held levels ++ [taken c consts data g] ∧
    windows g' ≠ [] ∧ group_value g' = group_value g ∧ name <$> windows g' = name <$> windows g.
Proof.
  intros Hne Hall He Hev. unfold group_on_event in Hev.
  destruct g as [gv ws]. cbn [windows group_value] in *. destruct ws as [|w ws]; [done|].
  destruct (on_event c _ data events None true (w :: ws)) as [[[c2 ev2] ws2] r] eqn:Hon.
  injection Hev as <- <- <- ->.
  apply (on_event_refines decl tr (w :: ws) levels c _ data events None
    [taken c consts data (mk_group gv (w :: ws))]) in Hon
    as (levels' & out & ems & Hchain & Href & Hn & Hevs & Hems & _ & _); [|done|done|].
  2: { intros n [= <-]. split_and!; [done| |by eexists].
    intros _. constructor; [|done]. by split. }
  assert (levels ≠ []) as Hlne by (intros ->; by apply Forall2_nil_inv_r in Hall).
  destruct (chain_event_conserves _ _ _ _ _ _ _ _ Hlne Hchain) as [Hcons Hne'].
  exists levels', out, ems. cbn. split_and!; try done.
  intros ->. by apply Forall2_nil_inv_l in Href.
Qed.

(** A sequence of events for a group, each with its context; it stops at an
    error.  The events emitted are those of all calls. *)
Fixpoint group_run (calls : list (SelectCtx * run_consts * ValueAndMeta.t)) (g : Group) :
    option (Group * select_events) :=
  match calls with
  | [] => Some (g, [])
  | (c, consts, data) :: calls =>
    match group_on_event c consts data [] g with
    | (_, evs, g, Ok _) => '(g, evs') ← group_run calls g; Some (g, evs ++ evs')
    | (_, _, _, Err _) => None
    end
  end.

(** an event in a group with windows.  The aggregates of every window hold
    exactly the events of its queue; an event goes into the first queue, a
    window that emits passes its whole queue on to the next tilt frame and
    starts again empty, and what leaves the last one plus what the queues
    still hold is what they held before plus the event, in order: nothing is
    lost, counted twice or reordered.  One event is offered for each non-empty
    queue emitted, the smallest window first, from aggregates that hold this
    queue and filtered by the having clause only.  When the group reports that
    it can be removed, no queue holds anything.  With count based windows the
    id of an emitted event covers the ids of all events it is based on. *)
Theorem group_event_refines (decl : list aggr) (tr : Prop) (c : SelectCtx) (consts : run_consts)
    (data : ValueAndMeta.t) (g g' : Group) (levels : list (Impl * list contribution))
    (gen : EventIdGenerator.t) (events : select_events) (b : bool)
    (Hne : windows g ≠ []) (Href : Forall2 (refines decl tr) (windows g) levels)
    (Hid : eid_wf (event_id c))
    (Hev : group_on_event c consts data [] g = (gen, events, g', Ok b)) :
  let k := taken c consts data g in
  ∃ levels' out ems,
    chain_event data (ctx_ingest_ns c) (ctx_origin c) [k] levels = Some (levels', out, b) ∧
    Forall2 (refines decl tr) (windows g') levels' ∧
    drained levels out ++ held levels' = held levels ++ [k] ∧
    events = omap (λ x, x) ems ∧ Forall2 (emits decl tr data) (filter (λ q, q ≠ []) out) ems ∧
    (b = true → Forall (λ w, holds_data w = false) (windows g')).
Proof.
  intros k. destruct (group_step decl tr c consts data [] g levels gen events g' b)
    as (levels' & out & ems & Hc & Hr & He & Hem & Hcons & _); [done..|].
  exists levels', out, ems. split_and!; [done..|].
  intros ->. apply chain_event_empty in Hc. clear -Hr Hc.
  induction Hr as [|w l ws ls Hw Hr IH]; [done|]. apply Forall_cons in Hc as [Hl Hc].
  constructor; [|by apply IH]. destruct Hw as (_ & _ & Hd & _). rewrite Hl in Hd.
  destruct (holds_data w); [|done]. by destruct Hd as [Hd _]; destruct Hd.
Qed.

(** All events of a group.  For any windows, however many, and any
    sequence of events that are handled without an error from the time the
    group is created, what left the last tilt frame followed by what the
    windows hold is exactly that sequence. *)
Theorem group_conserves (decl : list aggr) (i : EventId.t) (gv : value) (ws : list (string * Impl))
    (calls : list (SelectCtx * run_consts * ValueAndMeta.t)) (g' : Group) (events : select_events)
    (Hne : ws ≠ []) (Hi : eid_wf i) (Hids : Forall (λ x, eid_wf (event_id x.1.1)) calls)
    (Hrun : group_run calls (mk_group gv (from_windows decl i ws)) = Some (g', events)) :
  ∃ levels gone, Forall2 (refines decl False) (windows g') levels ∧
    gone ++ held levels =
      (λ x : SelectCtx * run_consts * ValueAndMeta.t,
         taken x.1.1 x.1.2 x.2 (mk_group gv (from_windows decl i ws))) <$> calls.
Proof.
  set (g0 := mk_group gv (from_windows decl i ws)) in *.
  assert (∀ calls g levels g' events, windows g ≠ [] → group_value g = gv →
    name <$> windows g = name <$> windows g0 → Forall2 (refines decl False) (windows g) levels →
    Forall (λ x : SelectCtx * run_consts * ValueAndMeta.t, eid_wf (event_id x.1.1)) calls →
    group_run calls g = Some (g', events) →
    ∃ levels' gone, Forall2 (refines decl False) (windows g') levels' ∧
      gone ++ held levels' = held levels ++
        ((λ x : SelectCtx * run_consts * ValueAndMeta.t, taken x.1.1 x.1.2 x.2 g0) <$> calls)) as Hall.
  { clear. induction calls as [|[[c consts] data] calls IH]; intros g levels g' events Hne Hgv Hn Href Hids Hrun.
    { injection Hrun as <- _. exists levels, []. split; [done|]. by rewrite app_nil_r. }
    apply Forall_cons in Hids as [Hid Hids]. cbn [group_run] in Hrun.
    destruct (group_on_event c consts data [] g) as [[[gen evs] g1] [b|]] eqn:Hev; [|done].
    destruct (group_run calls g1) as [[g2 evs2]|] eqn:Hrest; [|done]. injection Hrun as <- _.
    destruct (group_step decl False c consts data [] g levels gen evs g1 b)
      as (levels1 & out & ems & _ & Hr & _ & _ & Hcons & Hne1 & Hgv1 & Hn1); [done..|].
    destruct (IH g1 levels1 g2 evs2) as (levels' & gone & Hr' & Hgone);
      [done|congruence|congruence|done|done|done|].
    exists levels', (drained levels out ++ gone). split; [done|].
    assert (taken c consts data g = taken c consts data g0) as Ht.
    { unfold taken. rewrite Hgv. change (group_value g0) with gv. do 2 f_equal.
      destruct (windows g) as [|w1 l1], (windows g0) as [|w2 l2]; try done. by injection Hn. }
    by rewrite <-app_assoc, Hgone, app_assoc, Hcons, <-app_assoc, Ht. }
  destruct (Hall calls g0 ((λ w : string * Impl, (w.2, [])) <$> ws) g' events) as (levels & gone & Hr & Hg);
    [|done|done|by apply from_windows_refines|done|done|].
  { unfold g0. by destruct ws. }
  exists levels, gone. split; [done|]. rewrite Hg.
  assert (∀ l : list (string * Impl), held ((λ w : string * Impl, (w.2, [])) <$> l) = []) as Hnil.
  { clear. induction l as [|w l IH]; [done|]. rewrite fmap_cons, held_cons, IH. done. }
  by rewrite Hnil.
Qed.
End tilt.

(** ** A script language, for evaluation

    Its only aggregate function collects the events it is applied to; an
    expression is the event, what the aggregates collected, or a constant. *)
Inductive demo_expr := DEvent | DCollected | DConst (v : value).

Definition demo_script : script_lang := {|
  script := unit;
  expr := demo_expr;
  aggr := list value;
  group_by := demo_expr;
  run_imut _ _ _ _ := CallOk REmitEvent;
  run_expr e _ _ aggrs event _ _ :=
    CallOk match e with DEvent => event | DCollected => VArray (mjoin aggrs) | DConst v => v end;
  aggr_args _ := [DEvent];
  aggr_init _ := [];
  aggr_accumulate argv a := (a ++ argv, IoOk tt);
  aggr_merge a p := (a ++ p, IoOk tt);
  generate_groups _ _ event _ := CallOk [[event]];
  sorted_serialize v := IoOk match v with VArray [VString s] => s | _ => EmptyString end;
  guard_not_bool _ _ := "guard"%string;
|}.

Module TiltSample.
Existing Instance demo_script.
Existing Instance simd_value_trait.

Definition stmt : select_stmt := mk_stmt DCollected None None None [[] : list value].
Definition call (n : N) (tr : bool) : SelectCtx :=
  mk_ctx stmt (mk_context n None 0) (EventId.new 1 0 n) (EventIdGenerator.new 9) n ∅ None tr.
Definition consts : run_consts := mk_consts const_null const_null const_null.
Definition data (n : N) : ValueAndMeta.t := ValueAndMeta.from_value (VStatic (SU64 n)).

Definition decl : list aggr := [[] : list value].

(** Two tilt frames of two events each. *)
Definition counted : list (string * Impl) :=
  [("w1"%string, TumblingCountBased (number_from_stmt 2 10 None));
   ("w2"%string, TumblingCountBased (number_from_stmt 2 10 None))].
Definition group : Group := mk_group const_null (from_windows decl EventId.default counted).
Definition timed : Group :=
  mk_group const_null (from_windows decl EventId.default
    [("w"%string, TumblingTimeBased (time_from_stmt 10 10 None))]).

Definition four : list (SelectCtx * run_consts * ValueAndMeta.t) :=
  (λ n, (call n false, consts, data n)) <$> [1; 2; 3; 4]%N.

Definition emitted (r : option (Group * select_events)) : list value :=
  match r with
  | Some (_, evs) => (λ pe : string * Event.t, Event.payload_value pe.2) <$> evs
  | None => []
  end.

(** Both frames emit at the fourth event, the second one all four events. *)
Example group_run_test :
  let n := λ k, VStatic (SU64 k) in
  emitted (group_run four group) =
    [VArray [n 1%N; n 2%N]; VArray [n 3%N; n 4%N]; VArray [n 1%N; n 2%N; n 3%N; n 4%N]].
Proof. by vm_compute. Qed.

(** The windows after the events 1, at time 1, and 2, at time 20. *)
Definition after_boundary : option (list GroupWindow) :=
  (λ r, windows r.1) <$> group_run [(call 1 true, consts, data 1); (call 20 false, consts, data 20)] timed.

(** An event that arrives after the end of a time based window is recorded in
    the next one, but that window tracks the event id of the window before
    instead of the event's, and takes over its transactionality. *)
Lemma boundary_event_untracked :
  match after_boundary with
  | Some [w] =>
      aggrs w = [[VStatic (SU64 20)]] ∧ EventId.is_tracking (id w) (EventId.new 1 0 20) = false ∧
      EventId.is_tracking (id w) (EventId.new 1 0 1) = true ∧ transactional w = true
  | _ => False
  end.
Proof. by vm_compute. Qed.

Lemma default_wf : eid_wf EventId.default.
Proof. unfold eid_wf. cbn. constructor. Qed.
Lemma call_wf n tr : eid_wf (event_id (call n tr)).
Proof. unfold eid_wf. cbn. constructor. Qed.
End TiltSample.

Lemma window_count_exact_witness :
  let _ := demo_script in let _ := simd_value_trait in
  let evs : list window_input := (λ n, (TiltSample.data n, n, None)) <$> [1; 2; 3]%N in
  (number_run evs (number_from_stmt 2 10 None)).2 = [Ok all_false; Ok all_true; Ok all_false].
Proof.
  intros sl vt evs.
  pose proof (window_count_exact evs 2 10 None [1; 1; 1]%N eq_refl eq_refl eq_refl) as H.
  destruct (number_run evs (number_from_stmt 2 10 None)) as [w l].
  destruct H as [-> _]; [|reflexivity]. repeat constructor; discriminate.
Defined.

Lemma window_time_exact_witness :
  let _ := demo_script in
  (time_run [5; 9; 16; 17]%N (time_from_stmt 10 10 None)).2 !! 2%nat = Some (mk_actions false true).
Proof.
  intros sl.
  assert (Forall (λ t, (t + 10 < w64)%N) [5; 9; 16; 17]%N) as Hts by (repeat constructor).
  destruct (window_time_exact [5; 9; 16; 17]%N 10 10 None Hts) as (_ & _ & H).
  apply (H 0%nat 2%nat 5%N 16%N); [lia|reflexivity|reflexivity|by left|].
  intros k Hk. assert (k = 1%nat) as -> by lia. exists all_false. by split.
Defined.

Lemma group_event_refines_witness :
  let _ := demo_script in let _ := simd_value_trait in
  let levels := (λ w : string * Impl, (w.2, [])) <$> TiltSample.counted in
  let c := TiltSample.call 1 false in
  ∃ gen events g' b,
    group_on_event c TiltSample.consts (TiltSample.data 1) [] TiltSample.group = (gen, events, g', Ok b) ∧
    ∃ levels' out, drained levels out ++ held levels' =
      held levels ++ [taken c TiltSample.consts (TiltSample.data 1) TiltSample.group].
Proof.
  intros sl vt levels c.
  destruct (group_on_event c TiltSample.consts (TiltSample.data 1) [] TiltSample.group)
    as [[[gen events] g'] [b|e]] eqn:Hev; [|by vm_compute in Hev].
  exists gen, events, g', b. split; [reflexivity|].
  destruct (group_event_refines TiltSample.decl True c TiltSample.consts (TiltSample.data 1) TiltSample.group g'
    levels gen events b) as (levels' & out & ems & _ & _ & H & _).
  - done.
  - apply from_windows_refines; [apply TiltSample.default_wf|]. intros _. by repeat constructor.
  - apply TiltSample.call_wf.
  - exact Hev.
  - by exists levels', out.
Defined.

Lemma group_conserves_witness :
  let _ := demo_script in let _ := simd_value_trait in
  ∃ g' events levels gone, group_run TiltSample.four TiltSample.group = Some (g', events) ∧
    Forall2 (refines TiltSample.decl False) (windows g') levels ∧
    gone ++ held levels =
      (λ x : SelectCtx * run_consts * ValueAndMeta.t, taken x.1.1 x.1.2 x.2 TiltSample.group) <$> TiltSample.four.
Proof.
  intros sl vt.
  destruct (group_run TiltSample.four TiltSample.group) as [[g' events]|] eqn:Hrun; [|by vm_compute in Hrun].
  destruct (group_conserves TiltSample.decl EventId.default const_null TiltSample.counted TiltSample.four g' events)
    as (levels & gone & H1 & H2).
  - done.
  - apply TiltSample.default_wf.
  - repeat (constructor; [apply TiltSample.call_wf|]). constructor.
  - exact Hrun.
  - by exists g', events, levels, gone.
Defined.
