(* ===== verification/Select.v ===== *)
(** The select operator: tremor-pipeline/src/op/trickle/select.rs. *)
From Stdlib Require Import Ascii.
From stdpp Require Import pretty.
From S2P Require Import Prelude EventIds Value Event Window TiltFrames.

Local Open Scope string_scope.

Module Select.
Section select.
Context `{!script_lang, !value_trait, !hash_order string}.

(** [Window]: a declared window under its fully qualified name. *)
Record Window := mk_win { window_impl : Impl; module : list string; win_name : string }.

(** [fqwn.split("::")] *)
Fixpoint split_path (s : string) : list string :=
  match s with
  | EmptyString => [EmptyString]
  | String ":"%char (String ":"%char s) => EmptyString :: split_path s
  | String c s =>
    match split_path s with
    | x :: l => String c x :: l
    | [] => [String c EmptyString]
    end
  end.
Definition module_path (fqwn : string) : list string := removelast (split_path fqwn).
Definition ident_name (fqwn : string) : string := default fqwn (last (split_path fqwn)).
Definition window_of (w : string * Impl) : Window := mk_win w.2 (module_path w.1) (ident_name w.1).

Record t := mk {
  stmt : select_stmt;
  consts : run_consts;
  decls : list Window;
  groups : gmap string Group;
  gen : EventIdGenerator.t;
  dflt_group : Group;
  max_groups_ : usize;
}.

Definition set_groups (gs : gmap string Group) (g : EventIdGenerator.t) (self : t) : t :=
  mk (stmt self) (consts self) (decls self) gs g (dflt_group self) (max_groups_ self).
Definition set_dflt (d : Group) (g : EventIdGenerator.t) (self : t) : t :=
  mk (stmt self) (consts self) (decls self) (groups self) g d (max_groups_ self).
Definition set_consts (c : run_consts) (self : t) : t :=
  mk (stmt self) c (decls self) (groups self) (gen self) (dflt_group self) (max_groups_ self).

Definition null_consts : run_consts := mk_consts const_null const_null const_null.

(** [with_stmt]: the smallest [max_groups] of the windows, none without. *)
Definition min_groups (l : list usize) : usize :=
  match l with [] => 0%N | x :: l => foldl N.min x l end.
Definition with_stmt (operator_uid : u64) (windows : list (string * Impl)) (stmt : select_stmt) : t :=
  let windows := window_of <$> windows in
  mk stmt null_consts windows ∅ (EventIdGenerator.new operator_uid)
    (mk_group const_null (from_windows (aggregates stmt) EventId.default
      ((λ w, (win_name w, window_impl w)) <$> windows)))
    (min_groups ((λ w, max_groups (window_impl w)) <$> windows)).

(** The group key of an event without a group by clause. *)
Definition null_group : value := VArray [const_null].

(** One group of an event: the body of the loop of [on_event]. *)
Definition group_event (event : Event.t) (group_value_ : value) (events : select_events) (self : t) :
    t * result select_events :=
  match from_io (sorted_serialize group_value_) with
  | Err e => (self, Err e)
  | Ok group_str =>
    let cardinality := N.of_nat (size (groups self)) in
    let c := mk_ctx (stmt self) (mk_context (Event.ingest_ns event) (Event.origin_uri event) cardinality)
      (Event.id event) (gen self) (Event.ingest_ns event) (Event.op_meta event) (Event.origin_uri event)
      (Event.transactional event) in
    match groups self !! group_str with
    | Some g =>
      match group_on_event c (consts self) (Event.data event) events g with
      | (gen, _, g, Err e) => (set_groups (<[group_str := g]> (groups self)) gen self, Err e)
      | (gen, events, g, Ok true) => (set_groups (delete group_str (groups self)) gen self, Ok events)
      | (gen, events, g, Ok false) => (set_groups (<[group_str := g]> (groups self)) gen self, Ok events)
      end
    | None =>
      let dflt := mk_group (value_try_push group_value_ (VString group_str)) (windows (dflt_group self)) in
      match group_on_event c (consts self) (Event.data event) events dflt with
      | (gen, _, dflt, Err e) => (set_dflt dflt gen self, Err e)
      | (gen, events, dflt, Ok true) => (set_dflt dflt gen self, Ok events)
      | (gen, events, dflt, Ok false) =>
        if (max_groups_ self <=? cardinality)%N then
          (set_dflt dflt gen self,
           Err (EMsg ("Maxmimum amount of groups reached (" +:+ pretty (max_groups_ self) +:+
                      "). Ignoring group [" +:+ pretty (u64_add (max_groups_ self) 1) +:+ "]")))
        else
          (set_dflt (reset_group dflt) gen (set_groups (<[group_str := dflt]> (groups self)) gen self), Ok events)
      end
    end
  end.

Fixpoint groups_event (event : Event.t) (values : list value) (events : select_events) (self : t) :
    t * result select_events :=
  match values with
  | [] => (self, Ok events)
  | v :: values =>
    match group_event event v events self with
    | (self, Ok events) => groups_event event values events self
    | (self, Err e) => (self, Err e)
    end
  end.

(** The groups of an event, with a group by clause or windows. *)
Definition group_values (gb : option group_by) (ec : event_context) (data meta : value) : result (list value) :=
  match gb with
  | Some group_by =>
    match generate_groups group_by ec data meta with
    | CallOk groups => Ok ((λ l, VArray l) <$> groups)
    | CallErr e => Err (EMsg e)
    | CallPanic e => Err (EPanic e)
    end
  | None => Ok [null_group]
  end.

(** The value of a select without grouping or windows, and whether it is kept. *)
Definition select_simple (stmt : select_stmt) (ec : event_context) (consts : run_consts) (data meta : value) :
    result (value * bool) :=
  value ← from_call (run_expr (target stmt) ec consts [] data const_null meta);
  having ← run_guard (maybe_having stmt) ec consts [] value;
  Ok (value, having : bool).

Definition on_event (_ : N) (_ : string) (state : value) (event : Event.t) (self : t) :
    t * value * result EventAndInsights.t :=
  let ec := mk_context (Event.ingest_ns event) (Event.origin_uri event) (N.of_nat (size (groups self))) in
  let data := Event.payload_value event in
  let meta := Event.payload_meta event in
  match run_guard (maybe_where (stmt self)) ec (consts self) [] data with
  | Err e => (self, state, Err e)
  | Ok false => (self, state, Ok EventAndInsights.default)
  | Ok true =>
    match maybe_group_by (stmt self), decls self with
    | None, [] =>
      let consts := mk_consts (args (consts self)) (VArray [const_null; VString "[null]"]) (window_ (consts self)) in
      let self := set_consts consts self in
      match select_simple (stmt self) ec consts data meta with
      | Err e => (self, state, Err e)
      | Ok (value, true) =>
        (self, state, Ok (EventAndInsights.from_event
          (Event.set_data (ValueAndMeta.set_value value (Event.data event)) event)))
      | Ok (_, false) => (self, state, Ok EventAndInsights.default)
      end
    | gb, _ =>
      match group_values gb ec data meta with
      | Err e => (self, state, Err e)
      | Ok values =>
        let '(self, r) := groups_event event values [] self in
        (self, state, EventAndInsights.from_events <$> r)
      end
    end
  end.

(** A tick in one group: the group, the generator, the events, and whether the
    group can be removed.  The id of its first window is exchanged for a new
    one before the window is asked. *)
Definition group_tick (signal : Event.t) (ec : event_context) (consts : run_consts) (stmt : select_stmt)
    (gen : EventIdGenerator.t) (events : select_events) (g : Group) :
    Group * EventIdGenerator.t * select_events * result bool :=
  match windows g with
  | [] => (g, gen, events, Ok false)
  | w :: next =>
    let '(fresh, gen) := EventIdGenerator.next_id gen in
    let w := set_window_id fresh w in
    let run := mk_consts (args consts) (group_value g) (name w) in
    let '(impl, window_event) := window_on_tick (Event.ingest_ns signal) (window w) in
    let w := set_window impl w in
    if emit window_event then
      let '(fresh, gen) := EventIdGenerator.next_id gen in
      let c := mk_ctx stmt ec (id w) gen (Event.ingest_ns signal) ∅ None (transactional w) in
      let w := set_window_id fresh w in
      let data := ValueAndMeta.mk const_null value_object in
      match (if holds_data w then execute_select_and_having c run (aggrs w) data else Ok None) with
      | Err e => (mk_group (group_value g) (w :: next), gen, events, Err e)
      | Ok emitted =>
        let events := (events ++ option_list emitted)%list in
        match next with
        | [] => (mk_group (group_value g) [reset w], gen, events, Ok true)
        | _ :: _ =>
          match Window.on_event c run data events (Some (holds_data w, aggrs w)) true next with
          | (c, events, next, Ok b) =>
            (mk_group (group_value g) (reset w :: next), event_id_gen c, events, Ok b)
          | (c, events, next, Err e) =>
            (mk_group (group_value g) (w :: next), event_id_gen c, events, Err e)
          end
        end
      end
    else (mk_group (group_value g) (w :: next), gen, events, Ok false)
  end.

(** The loop over the groups, and the names of those to remove. *)
Fixpoint groups_tick (signal : Event.t) (ec : event_context) (todo : list (string * Group))
    (events : select_events) (to_remove : list string) (self : t) :
    t * result (select_events * list string) :=
  match todo with
  | [] => (self, Ok (events, to_remove))
  | (group_str, g) :: todo =>
    let '(g, gen, events, r) := group_tick signal ec (consts self) (stmt self) (gen self) events g in
    let self := set_groups (<[group_str := g]> (groups self)) gen self in
    match r with
    | Err e => (self, Err e)
    | Ok can_remove =>
      groups_tick signal ec todo events
        (if can_remove : bool then (to_remove ++ [group_str])%list else to_remove) self
    end
  end.

Definition on_signal (_ : N) (state : value) (signal : Event.t) (self : t) :
    t * value * Event.t * result EventAndInsights.t :=
  if bool_decide (Event.kind signal ≠ Some SigTick) || bool_decide (decls self = []) ||
     bool_decide (groups self = ∅)
  then (self, state, signal, Ok EventAndInsights.default)
  else
    let self := set_consts null_consts self in
    let ec := mk_context (Event.ingest_ns signal) None (N.of_nat (size (groups self))) in
    match groups_tick signal ec (hash_iter (groups self)) [] [] self with
    | (self, Err e) => (self, state, signal, Err e)
    | (self, Ok (events, to_remove)) =>
      (set_groups (foldl (λ gs k, delete k gs) (groups self) to_remove) (gen self) self,
       state, signal, Ok (EventAndInsights.from_events events))
    end.

#[global] Instance operator : Operator t := {
  on_event := on_event;
  handles_signal _ := true;
  on_signal := on_signal;
  handles_contraflow := default_handles_contraflow;
  on_contraflow := default_on_contraflow;
  op_metrics := default_metrics;
  skippable := default_skippable;
}.
End select.
End Select.

Local Close Scope string_scope.

(** What the select operator of [Select] promises: a bound on its groups, the
    interface a graph expects of an operator, and a refinement of keyed tilt
    frames, an abstract chain of queues ([TiltFrames]) per group key. *)

(** ** The number of groups *)
Section bound.
Context `{!script_lang, !value_trait, !hash_order string}.

(** Calls of the operator, whatever their outcome. *)
Inductive select_step (self self' : Select.t) : Prop :=
  | select_event uid port st e st' r :
      Select.on_event uid port st e self = (self', st', r) → select_step self self'
  | select_signal uid st sg st' sg' r :
      Select.on_signal uid st sg self = (self', st', sg', r) → select_step self self'.

(** The number of groups, which no call takes above the limit, and the limit. *)
Definition bounded (self : Select.t) : Prop :=
  (N.of_nat (size (Select.groups self)) ≤ Select.max_groups_ self)%N.
Definition keeps (self self' : Select.t) : Prop :=
  (bounded self → bounded self') ∧ Select.max_groups_ self' = Select.max_groups_ self ∧
  Select.decls self' = Select.decls self ∧ Select.stmt self' = Select.stmt self.

#[local] Instance keeps_preorder : PreOrder keeps.
Proof.
  split; [by intros self; split_and!|]. intros a b c (H1 & H2 & H3 & H4) (G1 & G2 & G3 & G4).
  split_and!; [auto|by rewrite G2|by rewrite G3|by rewrite G4].
Qed.

Lemma size_insert_known {A} (m : gmap string A) k x y : m !! k = Some x → size (<[k := y]> m) = size m.
Proof. intros Hk. apply map_size_insert_Some. by exists x. Qed.

Lemma size_delete_le {A} (m : gmap string A) k : (size (delete k m) ≤ size m)%nat.
Proof. apply map_subseteq_size, delete_subseteq. Qed.

Lemma keeps_insert self k g g' gen :
  Select.groups self !! k = Some g → keeps self (Select.set_groups (<[k := g']> (Select.groups self)) gen self).
Proof.
  intros Hk. split_and!; [|done..]. unfold bounded. cbn. by erewrite size_insert_known by done.
Qed.

Lemma keeps_delete self k gen : keeps self (Select.set_groups (delete k (Select.groups self)) gen self).
Proof.
  split_and!; [|done..]. unfold bounded. cbn. pose proof (size_delete_le (Select.groups self) k). lia.
Qed.

Lemma group_event_keeps event v events self self' r :
  Select.group_event event v events self = (self', r) → keeps self self'.
Proof.
  unfold Select.group_event. destruct (from_io (sorted_serialize v)) as [k|]; [|by intros [= <- _]].
  destruct (Select.groups self !! k) as [g|] eqn:Hk.
  - destruct (group_on_event _ _ _ _ g) as [[[gen evs] g'] [[]|]]; intros [= <- _];
      by first [eapply keeps_insert|apply keeps_delete].
  - destruct (group_on_event _ _ _ _ _) as [[[gen evs] d] [[]|]]; [by intros [= <- _]| |by intros [= <- _]].
    destruct (N.leb_spec (Select.max_groups_ self) (N.of_nat (size (Select.groups self)))) as [Hm|Hm];
      intros [= <- _]; [done|].
    split_and!; [|done..]. unfold bounded. cbn. rewrite map_size_insert_None by done. lia.
Qed.

Lemma groups_event_keeps event values events self self' r :
  Select.groups_event event values events self = (self', r) → keeps self self'.
Proof.
  revert events self. induction values as [|v values IH]; intros events self; cbn [Select.groups_event];
    [by intros [= <- _]|].
  destruct (Select.group_event event v events self) as [self1 [evs|]] eqn:Hg; apply group_event_keeps in Hg.
  - intros Hrest. etrans; [exact Hg|by eapply IH].
  - by intros [= <- _].
Qed.

Lemma on_event_keeps uid port st e self self' st' r :
  Select.on_event uid port st e self = (self', st', r) → keeps self self'.
Proof.
  unfold Select.on_event. destruct (run_guard _ _ _ _ _) as [[]|]; [|by intros [= <- _ _]..].
  assert (∀ gb ec, match Select.group_values gb ec (Event.payload_value e) (Event.payload_meta e) with
    | Err e => (self, st, Err e)
    | Ok values => let '(self, r) := Select.groups_event e values [] self in
                   (self, st, EventAndInsights.from_events <$> r)
    end = (self', st', r) → keeps self self') as Hloop.
  { intros gb ec. destruct (Select.group_values gb ec _ _) as [values|]; [|by intros [= <- _ _]].
    destruct (Select.groups_event e values [] self) as [self1 r1] eqn:Hg. intros [= <- _ _].
    by eapply groups_event_keeps. }
  destruct (maybe_group_by (Select.stmt self)); [apply Hloop|].
  destruct (Select.decls self); [|apply Hloop]. clear Hloop.
  destruct (Select.select_simple _ _ _ _ _) as [[v []]|]; by intros [= <- _ _].
Qed.

Lemma groups_tick_keeps signal ec todo events rm self self' r :
  (∀ k, k ∈ todo.*1 → is_Some (Select.groups self !! k)) →
  Select.groups_tick signal ec todo events rm self = (self', r) → keeps self self'.
Proof.
  revert events rm self. induction todo as [|[k g] todo IH]; intros events rm self Hin;
    cbn [Select.groups_tick]; [by intros [= <- _]|].
  destruct (Hin k) as [g0 Hg0]; [cbn; left|].
  destruct (Select.group_tick _ _ _ _ _ _ _) as [[[g' gen] evs] [b|]].
  - intros Hrest. etrans; [exact (keeps_insert self k g0 g' gen Hg0)|]. eapply IH; [|exact Hrest].
    intros k' Hk'. cbn. rewrite lookup_insert_is_Some. destruct (decide (k = k')); [by left|].
    right. split; [done|]. apply Hin. cbn. by right.
  - intros [= <- _]. by eapply keeps_insert.
Qed.

Lemma size_foldl_delete {A} (l : list string) (m : gmap string A) :
  (size (foldl (λ gs k, delete k gs) m l) ≤ size m)%nat.
Proof.
  revert m. induction l as [|k l IH]; intros m; cbn; [done|].
  etrans; [apply IH|apply size_delete_le].
Qed.

Lemma on_signal_keeps uid st sg self self' st' sg' r :
  Select.on_signal uid st sg self = (self', st', sg', r) → keeps self self'.
Proof.
  unfold Select.on_signal. destruct (_ || _); [by intros [= <- _ _ _]|].
  set (self0 := Select.set_consts _ _).
  destruct (Select.groups_tick _ _ _ _ _ self0) as [self1 r1] eqn:Ht.
  apply groups_tick_keeps in Ht.
  2: { intros k (x & -> & Hx)%list_elem_of_fmap. rewrite (hash_iter_perm _ _) in Hx.
       destruct x as [k g]. apply elem_of_map_to_list in Hx. by exists g. }
  assert (keeps self self1) as Hk by (destruct Ht as (H1 & H2 & H3 & H4); by split_and!).
  destruct r1 as [[evs rm]|]; intros [= <- _ _ _]; [|exact Hk].
  etrans; [exact Hk|]. split_and!; [|done..]. unfold bounded. cbn.
  pose proof (size_foldl_delete rm (Select.groups self1)). lia.
Qed.

Lemma min_groups_le l x : x ∈ l → (Select.min_groups l ≤ x)%N.
Proof.
  assert (∀ l m, (foldl N.min m l ≤ m)%N ∧ ∀ x, x ∈ l → (foldl N.min m l ≤ x)%N) as Hfold.
  { clear. induction l as [|y l IH]; intros m; cbn; [split; [done|by intros x Hx%not_elem_of_nil]|].
    destruct (IH (N.min m y)) as [H1 H2]. split; [lia|]. intros x [->|Hx]%elem_of_cons; [lia|auto]. }
  destruct l as [|m l]; [by intros Hx%not_elem_of_nil|]. cbn.
  destruct (Hfold l m) as [H1 H2]. intros [->|Hx]%elem_of_cons; auto.
Qed.

Lemma steps_keep self self' : rtc select_step self self' → keeps self self'.
Proof.
  induction 1 as [|a b c [uid port st e st' r Hc|uid st sg st' sg' r Hc] _ IH]; [done| |].
  - etrans; [by eapply on_event_keeps|done].
  - etrans; [by eapply on_signal_keeps|done].
Qed.

(** C29: the limit on groups.  Whatever events and signals a select gets, and
    also when handlers fail, it never keeps more groups than the smallest
    [max_groups] of its windows allows; without windows it keeps none. *)
Theorem select_groups_bounded (operator_uid : u64) (ws : list (string * Impl)) (stmt : select_stmt)
    (self : Select.t) (Hrun : rtc select_step (Select.with_stmt operator_uid ws stmt) self) :
  (∀ w, w ∈ ws → (N.of_nat (size (Select.groups self)) ≤ max_groups w.2)%N) ∧
  (ws = [] → Select.groups self = ∅).
Proof.
  apply steps_keep in Hrun as (Hb & Hmax & _). unfold bounded in Hb. rewrite Hmax in Hb.
  specialize (Hb ltac:(unfold Select.with_stmt; cbn; rewrite map_size_empty; lia)). split.
  - intros w Hw. etrans; [exact Hb|]. cbn. apply min_groups_le.
    rewrite <-list_fmap_compose. apply list_elem_of_fmap. by exists w.
  - intros ->. cbn in Hb. apply map_size_empty_inv. lia.
Qed.
End bound.

(** ** The interface of operators *)
Section data.
Context `{!script_lang, !value_trait, !hash_order string}.

Definition defined {A} (r : result A) : Prop := r ≠ Err EUndefined.

Lemma defined_Ok {A} (a : A) : defined (Ok a).
Proof. done. Qed.
Lemma defined_Err {A B} e : defined (Err e : result A) → defined (Err e : result B).
Proof. intros Hd [= ->]. by apply Hd. Qed.
Lemma defined_io {A} (r : io A) : defined (from_io r).
Proof. by destruct r. Qed.
Lemma defined_call {A} (r : call_result A) : defined (from_call r).
Proof. by destruct r. Qed.
Lemma defined_ok_or {A} (o : option A) m : defined (ok_or o (EMsg m)).
Proof. by destruct o. Qed.
Lemma defined_bind {A B} (r : result A) (f : A → result B) :
  defined r → (∀ a, defined (f a)) → defined (r ≫= f).
Proof. intros Hr Hf. destruct r as [a|e]; [apply Hf|]. intros [= ->]. by apply Hr. Qed.
#[local] Hint Resolve defined_Ok defined_io defined_call defined_ok_or defined_bind : core.

Lemma run_guard_defined guard ec consts l v : defined (run_guard guard ec consts l v).
Proof. destruct guard; cbn [run_guard]; auto. Qed.
#[local] Hint Resolve run_guard_defined : core.

Lemma execute_defined c consts l data : defined (execute_select_and_having c consts l data).
Proof.
  apply defined_bind; [auto|intros v]. apply defined_bind; [auto|]. by intros [].
Qed.

Lemma window_value_defined decl data ns o r : window_value decl data ns o = Some r → defined r.
Proof.
  unfold window_value. destruct (decl ≫= decl_script) as [s|]; [|done]. cbn [mbind option_bind].
  intros [= <-]. auto.
Qed.

Lemma default_window_defined x decl data ns o : defined (default (Ok x) (window_value decl data ns o)).
Proof. destruct (window_value decl data ns o) eqn:Hw; [by eapply window_value_defined|done]. Qed.

Lemma window_on_event_defined data ns o w : defined (window_on_event data ns o w).2.
Proof.
  destruct w as [w|w]; cbn [window_on_event].
  - rewrite number_on_event_eq. pose proof (default_window_defined 1%N (n_script w) data ns o) as Hd.
    destruct (default _ _); [cbn zeta; by destruct (_ <=? _)%N|by apply (defined_Err (A := u64))].
  - unfold time_on_event. pose proof (default_window_defined ns (t_script w) data ns o) as Hd.
    destruct (default _ _) as [t|]; [by destruct (get_window_event t w)|by apply (defined_Err (A := u64))].
Qed.

Lemma accumulate_aggrs_defined ec consts data l : defined (accumulate_aggrs ec consts data l).2.
Proof.
  induction l as [|a l IH]; [done|]. cbn [accumulate_aggrs].
  match goal with |- context [match ?x with Ok _ => _ | Err _ => _ end] => assert (defined x) as Ha end.
  { induction (aggr_args a); [done|]. apply defined_bind; [auto|]. intros v. by apply defined_bind. }
  match goal with |- context [match ?x with Ok _ => _ | Err _ => _ end] => destruct x as [argv|] end;
    [|by apply (defined_Err (A := list value))].
  destruct (aggr_accumulate argv a) as [a' [u|]]; [|done].
  by destruct (accumulate_aggrs ec consts data l) as [l' r].
Qed.

Lemma merge_aggrs_defined l prev : defined (merge_aggrs l prev).2.
Proof.
  revert prev. induction l as [|a l IH]; intros [|p prev]; [done..|]. cbn [merge_aggrs].
  destruct (aggr_merge a p) as [a' [u|]]; [|done]. specialize (IH prev).
  by destruct (merge_aggrs l prev) as [l' r].
Qed.

Lemma record_data_defined c consts data prev self : defined (record_data c consts data prev self).2.
Proof.
  destruct prev as [[[] p]|]; cbn [record_data]; [|done|].
  - unfold merge. pose proof (merge_aggrs_defined (aggrs (track_event c self)) p) as Hm.
    by destruct (merge_aggrs _ _).
  - unfold accumulate.
    match goal with |- context [accumulate_aggrs ?a ?b ?c ?d] =>
      pose proof (accumulate_aggrs_defined a b c d) as Hm; by destruct (accumulate_aggrs a b c d) end.
Qed.

(** Data events only. *)
Definition all_data (events : select_events) : Prop := Forall (λ pe, Event.kind pe.2 = None) events.

Lemma execute_data c consts l data em :
  execute_select_and_having c consts l data = Ok em → all_data (option_list em).
Proof.
  unfold execute_select_and_having.
  destruct (from_call (run_expr _ _ _ _ _ _ _)) as [v|]; [rewrite bind_Ok|done].
  destruct (run_guard _ _ _ _ _) as [[]|]; rewrite ?bind_Ok; intros [= <-]; by repeat constructor.
Qed.

(** What a call adds: data events, and an error that can be reported. *)
Definition safe {A} (before after : select_events) (r : result A) : Prop :=
  (all_data before → all_data after) ∧ defined r.

Lemma emit_safe (b : bool) c consts l data before :
  match (if b then execute_select_and_having c consts l data else Ok None) with
  | Ok em => all_data before → all_data (before ++ option_list em)
  | Err e => e ≠ EUndefined
  end.
Proof.
  destruct b; [|by rewrite app_nil_r].
  pose proof (execute_defined c consts l data) as Hd.
  destruct (execute_select_and_having c consts l data) as [em|e] eqn:He.
  - intros Hb. apply Forall_app. split; [done|by eapply execute_data].
  - intros ->. by apply Hd.
Qed.

Lemma on_event_safe c consts data events prev ws c' events' ws' r :
  on_event c consts data events prev true ws = (c', events', ws', r) → safe events events' r.
Proof.
  revert c events prev c' events' ws' r.
  induction ws as [|self next IH]; intros c events prev c' events' ws' r Hev.
  { by injection Hev as _ <- _ <-. }
  rewrite on_event_cons in Hev.
  pose proof (window_on_event_defined data (ctx_ingest_ns c) (ctx_origin c) (window self)) as Hw.
  destruct (window_on_event _ _ _ _) as [w [a|e]];
    [|injection Hev as _ <- _ <-; split; [done|by apply (defined_Err (A := Actions))]].
  assert (∀ s, defined (if include a then record_data c consts data prev s else (s, Ok tt)).2) as Hrec.
  { intros s. destruct (include a); [apply record_data_defined|done]. }
  specialize (Hrec (set_window w self)).
  destruct (if include a then _ else _) as [self1 [[]|e]];
    [|injection Hev as _ <- _ <-; split; [done|by apply (defined_Err (A := unit))]].
  assert (∀ c self, defined (let '(_, r) := record_data c consts data prev self in _ ← r; Ok false)) as Hlast.
  { intros c0 self0. pose proof (record_data_defined c0 consts data prev self0) as Hd.
    destruct (record_data c0 consts data prev self0) as [? r0]. by apply defined_bind. }
  destruct (emit a).
  2: { destruct (include a); [by injection Hev as _ <- _ <-|].
    specialize (Hlast c self1). destruct (record_data c consts data prev self1) as [self2 r2].
    by injection Hev as _ <- _ <-. }
  destruct (EventIdGenerator.next_id (event_id_gen c)) as [fresh gen]. cbv zeta in Hev.
  match type of Hev with context [execute_select_and_having ?c1 ?k ?l ?d] =>
    pose proof (emit_safe (holds_data self1) c1 k l d events) as Hem end.
  destruct (if holds_data self1 then _ else _) as [em|e]; [|injection Hev as _ <- _ <-; split; [done|by intros [= ->]]].
  destruct (match next with [] => _ | _ :: _ => _ end) as [[[c2 evs2] next2] r2] eqn:Hnext.
  assert (safe events evs2 r2) as [Hs1 Hs2].
  { destruct next as [|n next]; [by injection Hnext as _ <- _ <-|].
    apply IH in Hnext as [? ?]. split; [auto|done]. }
  destruct r2 as [b|]; [|by injection Hev as _ <- _ <-].
  destruct (include a); [by injection Hev as _ <- _ <-|].
  match type of Hev with context [record_data c2 consts data prev ?s] =>
    specialize (Hlast c2 s); destruct (record_data c2 consts data prev s) as [self3 r3] end.
  by injection Hev as _ <- _ <-.
Qed.

Lemma group_on_event_safe c consts data events g gen events' g' r :
  group_on_event c consts data events g = (gen, events', g', r) → safe events events' r.
Proof.
  unfold group_on_event. destruct (windows g) as [|w ws].
  - match goal with |- context [execute_select_and_having c ?k [] data] =>
      pose proof (emit_safe true c k [] data events) as Hem; cbn [Is_true] in Hem;
      destruct (execute_select_and_having c k [] data) as [em|e] end; intros [= _ <- _ <-]; split; [done..|].
    by intros [= ->].
  - destruct (on_event _ _ _ _ _ _ _) as [[[c2 evs] ws'] r'] eqn:Hon. intros [= _ <- _ <-].
    by eapply on_event_safe.
Qed.

Lemma group_event_safe event v events self self' r :
  all_data events → Select.group_event event v events self = (self', r) →
  defined r ∧ ∀ evs, r = Ok evs → all_data evs.
Proof.
  intros Hd. unfold Select.group_event.
  destruct (sorted_serialize v) as [k|m]; cbn [from_io]; [|intros [= _ <-]; by split; [intros [=]|]].
  destruct (Select.groups self !! k) as [g|].
  - destruct (group_on_event _ _ _ _ g) as [[[gen evs] g'] r'] eqn:Hg.
    apply group_on_event_safe in Hg as [Hevs Hr].
    destruct r' as [[]|]; intros [= _ <-]; (split; [by first [done|eapply defined_Err]|]); intros ? [= <-]; auto.
  - destruct (group_on_event _ _ _ _ _) as [[[gen evs] g'] r'] eqn:Hg.
    apply group_on_event_safe in Hg as [Hevs Hr].
    destruct r' as [[]|]; [|destruct (_ <=? _)%N|]; intros [= _ <-];
      (split; [by first [done|eapply defined_Err]|]); intros ? [= <-]; auto.
Qed.

Lemma groups_event_safe event values events self self' r :
  all_data events → Select.groups_event event values events self = (self', r) →
  defined r ∧ ∀ evs, r = Ok evs → all_data evs.
Proof.
  revert events self. induction values as [|v values IH]; intros events self Hd; cbn [Select.groups_event].
  { intros [= _ <-]. split; [done|]. by intros ? [= <-]. }
  destruct (Select.group_event event v events self) as [self1 [evs|e]] eqn:Hg;
    apply group_event_safe in Hg as [Hr Hevs]; [|done| |done].
  - by apply IH, Hevs.
  - intros [= _ <-]. by split.
Qed.

Lemma group_values_defined gb ec data meta : defined (Select.group_values gb ec data meta).
Proof. destruct gb as [gb|]; cbn [Select.group_values]; [|done]. by destruct (generate_groups gb ec data meta). Qed.

Lemma select_simple_defined stmt ec consts data meta : defined (Select.select_simple stmt ec consts data meta).
Proof. apply defined_bind; [auto|intros v]. apply defined_bind; auto. Qed.

Lemma select_on_event_safe uid port st e self self' st' r :
  Event.kind e = None → Select.on_event uid port st e self = (self', st', r) →
  defined r ∧ ∀ ei, r = Ok ei → all_data (EventAndInsights.events ei).
Proof.
  intros Hkind. unfold Select.on_event.
  match goal with |- context [run_guard ?a ?b ?c ?d ?v] =>
    pose proof (run_guard_defined a b c d v) as Hg; destruct (run_guard a b c d v) as [[]|x] end.
  2: { intros [= _ _ <-]. split; [done|]. intros ? [= <-]. constructor. }
  2: { intros [= _ _ <-]. by split; [eapply defined_Err|]. }
  clear Hg.
  assert (∀ gb ec, match Select.group_values gb ec (Event.payload_value e) (Event.payload_meta e) with
    | Err e => (self, st, Err e)
    | Ok values => let '(self, r) := Select.groups_event e values [] self in
                   (self, st, EventAndInsights.from_events <$> r)
    end = (self', st', r) → defined r ∧ ∀ ei, r = Ok ei → all_data (EventAndInsights.events ei)) as Hloop.
  { intros gb ec.
    match goal with |- context [Select.group_values ?a ?b ?c ?d] =>
      pose proof (group_values_defined a b c d) as Hv; destruct (Select.group_values a b c d) as [values|x] end;
      [|intros [= _ _ <-]; by split; [eapply defined_Err|]].
    destruct (Select.groups_event e values [] self) as [self1 r1] eqn:Hg. intros [= _ _ <-].
    apply groups_event_safe in Hg as [Hr Hevs]; [|constructor].
    destruct r1 as [evs|x]; (split; [by first [done|eapply defined_Err]|]).
    - intros ? [= <-]. by apply Hevs.
    - done. }
  destruct (maybe_group_by (Select.stmt self)); [apply Hloop|].
  destruct (Select.decls self); [|apply Hloop]. clear Hloop.
  match goal with |- context [Select.select_simple ?a ?b ?c ?d ?v] =>
    pose proof (select_simple_defined a b c d v) as Hs; destruct (Select.select_simple a b c d v) as [[v' []]|x] end;
    intros [= _ _ <-].
  - split; [done|]. intros ? [= <-]. by repeat constructor.
  - split; [done|]. intros ? [= <-]. constructor.
  - by split; [eapply defined_Err|].
Qed.

Lemma group_tick_safe signal ec consts stmt gen events g g' gen' events' r :
  Select.group_tick signal ec consts stmt gen events g = (g', gen', events', r) → safe events events' r.
Proof.
  unfold Select.group_tick. destruct (windows g) as [|w next]; [by intros [= _ _ <- <-]|].
  destruct (EventIdGenerator.next_id gen) as [fresh gen1]. cbv zeta.
  destruct (window_on_tick _ _) as [impl a]. destruct (emit a); [|by intros [= _ _ <- <-]].
  destruct (EventIdGenerator.next_id gen1) as [fresh2 gen2].
  match goal with |- context [execute_select_and_having ?c ?k ?l ?d] =>
    pose proof (emit_safe (holds_data w) c k l d events) as Hem end.
  cbn [holds_data set_window_id set_window] in *.
  destruct (if holds_data w then _ else _) as [em|e]; [|intros [= _ _ <- <-]; split; [done|by intros [= ->]]].
  destruct next as [|n next]; [by intros [= _ _ <- <-]|].
  destruct (on_event _ _ _ _ _ _ _) as [[[c2 evs] next'] r'] eqn:Hon.
  apply on_event_safe in Hon as [Hevs Hr].
  destruct r'; intros [= _ _ <- <-]; split; auto.
Qed.

Lemma groups_tick_safe signal ec todo events rm self self' r :
  all_data events → Select.groups_tick signal ec todo events rm self = (self', r) →
  defined r ∧ ∀ x, r = Ok x → all_data x.1.
Proof.
  revert events rm self. induction todo as [|[k g] todo IH]; intros events rm self Hd;
    cbn [Select.groups_tick].
  { intros [= _ <-]. split; [done|]. by intros ? [= <-]. }
  destruct (Select.group_tick _ _ _ _ _ _ _) as [[[g' gen] evs] r'] eqn:Hg.
  apply group_tick_safe in Hg as [Hevs Hr]. destruct r' as [b|x].
  - by apply IH, Hevs.
  - intros [= _ <-]. by split; [eapply defined_Err|].
Qed.

Lemma select_on_signal_safe uid st sg self self' st' sg' r :
  Select.on_signal uid st sg self = (self', st', sg', r) →
  defined r ∧ ∀ ei, r = Ok ei → all_data (EventAndInsights.events ei).
Proof.
  unfold Select.on_signal. destruct (_ || _).
  { intros [= _ _ _ <-]. split; [done|]. intros ? [= <-]. constructor. }
  destruct (Select.groups_tick _ _ _ _ _ _) as [self1 r1] eqn:Ht.
  apply groups_tick_safe in Ht as [Hr Hevs]; [|constructor].
  destruct r1 as [[evs rm]|x]; intros [= _ _ _ <-].
  - split; [done|]. intros ? [= <-]. by apply (Hevs (evs, rm)).
  - by split; [eapply defined_Err|].
Qed.

(** A select can be a node of a graph of data operators; its groups stay
    within the limit there. *)
#[export] Instance select_data_operator : data_operator (O := Select.t) bounded.
Proof.
  split.
  - intros self uid port st e self' st' r Hb Hk Hev.
    destruct (on_event_keeps _ _ _ _ _ _ _ _ Hev) as [Hkeep _].
    destruct (select_on_event_safe _ _ _ _ _ _ _ _ Hk Hev) as [Hr Hd]. by split_and!; [apply Hkeep| |].
  - intros self uid st sg self' st' sg' r Hb Hev.
    destruct (on_signal_keeps _ _ _ _ _ _ _ _ Hev) as [Hkeep _].
    destruct (select_on_signal_safe _ _ _ _ _ _ _ _ Hev) as [Hr Hd]. by split_and!; [apply Hkeep| |].
  - intros self uid ins self' ins' Hb [= <- _]. done.
Qed.
End data.
