(* ===== verification/SelectRefine.v ===== *)
(** The select operator with windows against keyed tilt frames: one abstract
    chain of queues ([TiltFrames]) per group key. *)
From S2P Require Import Prelude EventIds Value Event Window TiltFrames Select.

Section keyed.
Context `{!script_lang, !value_trait, !hash_order string}.

Definition chain : Type := list (Impl * list contribution).

(** ** Keyed tilt frames

    The chains of the open groups, and the one the next group starts with.  A
    group whose chain is empty after an event is closed.  The windows of a
    chain that was closed right away are not reset. *)
Record keyed := mk_keyed { open : gmap string chain; fresh : chain }.

Definition reset_chain (c : chain) : chain := (λ l, (window_reset l.1, [])) <$> c.

Definition keyed_event (data : ValueAndMeta.t) (ns : u64) (o : option EventOriginUri.t)
    (key : string) (k : contribution) (self : keyed) : option (keyed * list (list contribution)) :=
  '(levels, out, empty) ← chain_event data ns o [k] (default (fresh self) (open self !! key));
  Some (match open self !! key, (empty : bool) with
        | Some _, true => mk_keyed (delete key (open self)) (fresh self)
        | Some _, false => mk_keyed (<[key := levels]> (open self)) (fresh self)
        | None, true => mk_keyed (open self) levels
        | None, false => mk_keyed (<[key := levels]> (open self)) (reset_chain levels)
        end, out).

(** ** The relation *)
Definition group_refines (decl : list aggr) (g : Group) (c : chain) : Prop :=
  windows g ≠ [] ∧ Forall2 (refines decl False) (windows g) c.

Record keyed_refines (self : Select.t) (a : keyed) : Prop := {
  refines_open key :
    option_Forall2 (group_refines (aggregates (Select.stmt self))) (Select.groups self !! key) (open a !! key);
  refines_fresh : group_refines (aggregates (Select.stmt self)) (Select.dflt_group self) (fresh a);
  fresh_empty : Forall (λ l, l.2 = []) (fresh a);
}.

Lemma reset_group_refines decl g c : group_refines decl g c → group_refines decl (reset_group g) (reset_chain c).
Proof.
  intros [Hne Hall]. split; [by destruct g as [v []]|]. cbn [windows reset_group]. unfold reset_chain.
  apply Forall2_fmap_2. eapply Forall2_impl; [exact Hall|]. intros w [i q] (Hw & Hh & Hd & Hwf & _).
  split_and!; cbn in *; [by rewrite <-Hw|apply holding_init|done|done|done].
Qed.

Lemma reset_chain_empty c : Forall (λ l, l.2 = []) (reset_chain c).
Proof. unfold reset_chain. apply Forall_fmap, Forall_true. done. Qed.

(** [events] are those offered for the non-empty queues of [out]. *)
Definition offered (decl : list aggr) (out : list (list contribution)) (events : select_events) : Prop :=
  ∃ ems, events = omap (λ x, x) ems ∧
    Forall2 (λ q em, ∃ data, emits decl False data q em) (filter (λ q, q ≠ []) out) ems.

Lemma offered_app decl out1 out2 evs1 evs2 :
  offered decl out1 evs1 → offered decl out2 evs2 → offered decl (out1 ++ out2) (evs1 ++ evs2).
Proof.
  intros (ems1 & -> & H1) (ems2 & -> & H2). exists (ems1 ++ ems2). split; [by rewrite omap_app|].
  rewrite filter_app. by apply Forall2_app.
Qed.

(** What the chain of a group holds, and what leaves it. *)
Definition chain_of (a : keyed) (key : string) : chain := default (fresh a) (open a !! key).

(** One group of an event. *)
Lemma group_event_refines_keyed event v events self self' events' a :
  keyed_refines self a → eid_wf (Event.id event) →
  Select.group_event event v events self = (self', Ok events') →
  ∃ key k a' out new,
    sorted_serialize v = IoOk key ∧ k_data k = Event.data event ∧ k_id k = Event.id event ∧
    keyed_event (Event.data event) (Event.ingest_ns event) (Event.origin_uri event) key k a = Some (a', out) ∧
    keyed_refines self' a' ∧ Select.stmt self' = Select.stmt self ∧ events' = events ++ new ∧
    offered (aggregates (Select.stmt self)) out new.
Proof.
  intros [Hopen Hfresh Hempty] Hid. unfold Select.group_event.
  destruct (sorted_serialize v) as [key|]; [|done]. cbn [from_io].
  match goal with |- context [mk_ctx ?a ?b ?c ?d ?e ?f ?g ?h] => set (cx := mk_ctx a b c d e f g h) end.
  set (decl := aggregates (Select.stmt self)) in *.
  assert (∀ g c gen g' b, group_refines decl g c →
    group_on_event cx (Select.consts self) (Event.data event) events g = (gen, events', g', Ok b) →
    ∃ k levels out new, k_data k = Event.data event ∧ k_id k = Event.id event ∧
      chain_event (Event.data event) (Event.ingest_ns event) (Event.origin_uri event) [k] c = Some (levels, out, b) ∧
      group_refines decl g' levels ∧ events' = events ++ new ∧ offered decl out new) as Hstep.
  { intros g c gen g' b [Hne Hall] Hon.
    destruct (group_step decl False cx (Select.consts self) (Event.data event) events g c
      gen events' g' b) as (levels & out & ems & Hc & Hr & Hev & Hem & _ & Hne' & _); [done..|].
    exists (taken cx (Select.consts self) (Event.data event) g), levels, out, (omap (λ x, x) ems). split_and!; [done|done|exact Hc|by split|done|].
    exists ems. split; [done|]. eapply Forall2_impl; [exact Hem|]. intros q em ?. by exists (Event.data event). }
  pose proof (Hopen key) as Hkey. unfold keyed_event.
  destruct (Select.groups self !! key) as [g|] eqn:Hg, (open a !! key) as [c|] eqn:Ha;
    inversion Hkey as [? ? Hgc|]; subst.
  - destruct (group_on_event _ _ _ _ g) as [[[gen evs] g'] [b|]] eqn:Hon; [|done].
    intros Hend. assert (evs = events') as -> by (by destruct b; injection Hend).
    destruct (Hstep _ _ _ _ _ Hgc Hon) as (k & levels & out & new & Hkd & Hki & Hc & Hr & Hev & Hoff).
    exists key, k. rewrite Ha.
    change (default (fresh a) (Some c)) with c. rewrite Hc. eexists _, out, new. split_and!; try done.
    + destruct b; injection Hend as <-; split; cbn; try done; intros key'.
      * destruct (decide (key = key')) as [<-|]; [rewrite !lookup_delete_eq; constructor|].
        by rewrite !lookup_delete_ne.
      * destruct (decide (key = key')) as [<-|]; [rewrite !lookup_insert_eq; by constructor|].
        by rewrite !lookup_insert_ne.
    + by destruct b; injection Hend as <-.
  - destruct (group_on_event _ _ _ _ _) as [[[gen evs] g'] [b|]] eqn:Hon; [|done].
    assert (group_refines decl (mk_group (value_try_push v (VString key)) (windows (Select.dflt_group self)))
      (fresh a)) as Hdflt by (destruct Hfresh; by split).
    intros Hend.
    assert (evs = events') as ->
      by (destruct b; [by injection Hend|destruct (_ <=? _)%N; [done|by injection Hend]]).
    destruct (Hstep _ _ _ _ _ Hdflt Hon) as (k & levels & out & new & Hkd & Hki & Hc & Hr & Hev & Hoff).
    exists key, k. rewrite Ha.
    change (default (fresh a) None) with (fresh a). rewrite Hc. eexists _, out, new. split_and!; try done.
    + destruct b; [|destruct (_ <=? _)%N; [done|]]; injection Hend as <-; split; cbn; try done.
      * by eapply chain_event_empty.
      * intros key'. destruct (decide (key = key')) as [<-|]; [rewrite !lookup_insert_eq; by constructor|].
        by rewrite !lookup_insert_ne.
      * by apply reset_group_refines.
      * apply reset_chain_empty.
    + by destruct b; [|destruct (_ <=? _)%N; [done|]]; injection Hend as <-.
Qed.

(** ** Events *)

(** The keys of the groups an event belongs to. *)
Definition event_keys (self : Select.t) (e : Event.t) : list string :=
  let ec := mk_context (Event.ingest_ns e) (Event.origin_uri e) (N.of_nat (size (Select.groups self))) in
  match run_guard (maybe_where (Select.stmt self)) ec (Select.consts self) [] (Event.payload_value e) with
  | Ok true =>
    match Select.group_values (maybe_group_by (Select.stmt self)) ec (Event.payload_value e) (Event.payload_meta e) with
    | Ok values => omap (λ v, match sorted_serialize v with IoOk key => Some key | IoErr _ => None end) values
    | Err _ => []
    end
  | _ => []
  end.

(** An event in one of its groups, and what the group takes in for it. *)
Definition delivery : Type := Event.t * string * contribution.

(** Deliveries to keyed tilt frames.  The result lists what left the chain of
    a key at each, and all queues that were emitted. *)
Fixpoint keyed_run (l : list delivery) (a : keyed) :
    option (keyed * list (string * list contribution) * list (list contribution)) :=
  match l with
  | [] => Some (a, [], [])
  | (e, key, k) :: l =>
    '(a', out) ← keyed_event (Event.data e) (Event.ingest_ns e) (Event.origin_uri e) key k a;
    '(a'', gone, outs) ← keyed_run l a';
    Some (a'', (key, drained (chain_of a key) out) :: gone, out ++ outs)
  end.

Definition delivers (e : Event.t) (x : delivery) : Prop :=
  k_data x.2 = Event.data e ∧ k_id x.2 = Event.id e.

Lemma groups_event_refines_keyed event values events self self' events' a :
  keyed_refines self a → eid_wf (Event.id event) →
  Select.groups_event event values events self = (self', Ok events') →
  ∃ l a' gone outs new,
    l.*1 = (event,.) <$> omap (λ v, match sorted_serialize v with IoOk key => Some key | IoErr _ => None end) values ∧
    Forall (delivers event) l ∧ keyed_run l a = Some (a', gone, outs) ∧ keyed_refines self' a' ∧
    events' = events ++ new ∧ offered (aggregates (Select.stmt self)) outs new.
Proof.
  revert events self a. induction values as [|v values IH]; intros events self a Hr Hid; cbn [Select.groups_event].
  { intros [= <- <-]. exists [], a, [], [], []. rewrite app_nil_r. split_and!; try done. by exists []. }
  destruct (Select.group_event event v events self) as [self1 [evs|]] eqn:Hg; [|done].
  destruct (group_event_refines_keyed _ _ _ _ _ _ _ Hr Hid Hg)
    as (key & k & a1 & out & new & Hkey & Hkd & Hki & Hstep & Hr1 & Hstmt & -> & Hoff).
  intros Hrest. destruct (IH _ _ _ Hr1 Hid Hrest) as (l & a' & gone & outs & new' & Hl & Hdel & Hrun & Hr' & -> & Hoff').
  exists ((event, key, k) :: l), a', ((key, drained (chain_of a key) out) :: gone), (out ++ outs), (new ++ new').
  split_and!.
  - cbn. rewrite Hkey. cbn. by rewrite Hl.
  - by constructor.
  - cbn [keyed_run]. rewrite Hstep. cbn [mbind option_bind]. by rewrite Hrun.
  - done.
  - by rewrite app_assoc.
  - rewrite Hstmt in Hoff'. by apply offered_app.
Qed.

(** An event does to the groups what its deliveries do to the chains. *)
Lemma select_on_event_refines (uid : N) (port : string) (st st' : value) (e : Event.t) (self self' : Select.t)
    (ei : EventAndInsights.t) (a : keyed)
    (Hw : Select.decls self ≠ []) (Hr : keyed_refines self a) (Hid : eid_wf (Event.id e))
    (Hev : Select.on_event uid port st e self = (self', st', Ok ei)) :
  ∃ l a' gone outs,
    l.*1 = (e,.) <$> event_keys self e ∧ Forall (delivers e) l ∧
    keyed_run l a = Some (a', gone, outs) ∧ keyed_refines self' a' ∧
    offered (aggregates (Select.stmt self)) outs (EventAndInsights.events ei).
Proof.
  revert Hev. unfold Select.on_event, event_keys. cbv zeta.
  destruct (run_guard _ _ _ _ _) as [[]|]; [| |done].
  2: { intros [= <- _ <-]. exists [], a, [], []. split_and!; try done. by exists []. }
  assert (∀ gb ec, match Select.group_values gb ec (Event.payload_value e) (Event.payload_meta e) with
    | Err e => (self, st, Err e)
    | Ok values => let '(self, r) := Select.groups_event e values [] self in
                   (self, st, EventAndInsights.from_events <$> r)
    end = (self', st', Ok ei) → ∃ l a' gone outs,
    l.*1 = (e,.) <$> match Select.group_values gb ec (Event.payload_value e) (Event.payload_meta e) with
      | Ok values => omap (λ v, match sorted_serialize v with IoOk key => Some key | IoErr _ => None end) values
      | Err _ => []
      end ∧ Forall (delivers e) l ∧
    keyed_run l a = Some (a', gone, outs) ∧ keyed_refines self' a' ∧
    offered (aggregates (Select.stmt self)) outs (EventAndInsights.events ei)) as Hloop.
  { intros gb ec. destruct (Select.group_values gb ec _ _) as [values|]; [|done].
    destruct (Select.groups_event e values [] self) as [self1 [evs|]] eqn:Hg; [|done]. intros [= <- _ <-].
    destruct (groups_event_refines_keyed _ _ _ _ _ _ _ Hr Hid Hg)
      as (l & a' & gone & outs & new & Hl & Hdel & Hrun & Hr' & -> & Hoff).
    by exists l, a', gone, outs. }
  destruct (maybe_group_by (Select.stmt self)); [apply Hloop|].
  destruct (Select.decls self); [done|apply Hloop].
Qed.
(** ** What the keyed tilt frames promise *)
Record keyed_ok (a : keyed) : Prop := {
  ok_fresh : fresh a ≠ [];
  ok_empty : Forall (λ l, l.2 = []) (fresh a);
  ok_open key c : open a !! key = Some c → c ≠ [];
}.

Lemma held_empty (c : chain) : Forall (λ l, l.2 = []) c → held c = [].
Proof.
  induction 1 as [|[w q] c Hq _ IH]; [done|]. cbn in Hq. by rewrite held_cons, IH, Hq.
Qed.

Lemma chain_of_ne a key : keyed_ok a → chain_of a key ≠ [].
Proof.
  intros [Hf _ Ho]. unfold chain_of. destruct (open a !! key) eqn:Hk; [by eapply Ho|done].
Qed.

Lemma keyed_event_conserves data ns o key k a a' out :
  keyed_ok a → keyed_event data ns o key k a = Some (a', out) →
  keyed_ok a' ∧
  drained (chain_of a key) out ++ held (chain_of a' key) = held (chain_of a key) ++ [k] ∧
  ∀ key', key' ≠ key → held (chain_of a' key') = held (chain_of a key').
Proof.
  intros Hok. pose proof (chain_of_ne a key Hok) as Hne. destruct Hok as [Hf He Ho].
  unfold keyed_event. fold (chain_of a key).
  destruct (chain_event data ns o [k] (chain_of a key)) as [[[levels out'] b]|] eqn:Hc; [|done].
  destruct (chain_event_conserves _ _ _ _ _ _ _ _ Hne Hc) as [Hcons Hne'].
  assert (b = true → Forall (λ l, l.2 = []) levels) as Hempty.
  { intros ->. by eapply chain_event_empty. }
  cbn [mbind option_bind]. intros [= <- <-].
  unfold chain_of in *. destruct (open a !! key) as [c|] eqn:Hk, b.
  - rewrite (held_empty levels) in Hcons by auto. split_and!.
    + split; cbn; [done..|]. intros key' c' [_ Hc']%lookup_delete_Some. by eapply Ho.
    + cbn [open fresh]. rewrite lookup_delete_eq.
      change (default (fresh a) None) with (fresh a). by rewrite (held_empty (fresh a)).
    + intros key' Hn. cbn [open fresh]. by rewrite lookup_delete_ne.
  - split_and!.
    + split; cbn; [done..|]. intros key' c' [[_ <-]|[_ Hc']]%lookup_insert_Some; [done|by eapply Ho].
    + cbn [open fresh]. by rewrite lookup_insert_eq.
    + intros key' Hn. cbn [open fresh]. by rewrite lookup_insert_ne.
  - split_and!; [by split; auto| |].
    + cbn [open fresh]. by rewrite Hk.
    + intros key' Hn. cbn [open fresh]. destruct (open a !! key'); [done|].
      change (held levels = held (fresh a)). by rewrite !held_empty by auto.
  - split_and!.
    + split; cbn; [by destruct levels|apply reset_chain_empty|].
      intros key' c' [[_ <-]|[_ Hc']]%lookup_insert_Some; [done|by eapply Ho].
    + cbn [open fresh]. by rewrite lookup_insert_eq.
    + intros key' Hn. cbn [open fresh]. rewrite lookup_insert_ne by done. destruct (open a !! key'); [done|].
      change (held (reset_chain levels) = held (fresh a)).
      by rewrite !held_empty by auto using reset_chain_empty.
Qed.

(** The contributions that left the chain of a key, and those sent to it. *)
Definition gone_from (key : string) (gone : list (string * list contribution)) : list contribution :=
  gone ≫= λ x, if decide (x.1 = key) then x.2 else [].
Definition sent_to (key : string) (l : list delivery) : list contribution :=
  l ≫= λ x, if decide (x.1.2 = key) then [x.2] else [].

Lemma gone_from_cons key x gone :
  gone_from key (x :: gone) = (if decide (x.1 = key) then x.2 else []) ++ gone_from key gone.
Proof. done. Qed.
Lemma sent_to_cons key x l : sent_to key (x :: l) = (if decide (x.1.2 = key) then [x.2] else []) ++ sent_to key l.
Proof. done. Qed.
Lemma sent_to_app key l1 l2 : sent_to key (l1 ++ l2) = sent_to key l1 ++ sent_to key l2.
Proof. apply bind_app. Qed.

Lemma keyed_run_conserves l a a' gone outs key :
  keyed_ok a → keyed_run l a = Some (a', gone, outs) →
  gone_from key gone ++ held (chain_of a' key) = held (chain_of a key) ++ sent_to key l.
Proof.
  revert a gone outs. induction l as [|[[e key1] k] l IH]; intros a gone outs Hok; cbn [keyed_run].
  { intros [= <- <- _]. by rewrite app_nil_r. }
  destruct (keyed_event _ _ _ key1 k a) as [[a1 out]|] eqn:Hev; [|done]. cbn [mbind option_bind].
  destruct (keyed_run l a1) as [[[a2 gone'] outs']|] eqn:Hrun; [|done]. cbn [mbind option_bind].
  intros [= <- <- _]. destruct (keyed_event_conserves _ _ _ _ _ _ _ _ Hok Hev) as (Hok1 & Hsame & Hother).
  specialize (IH a1 gone' outs' Hok1 Hrun). rewrite gone_from_cons, sent_to_cons. cbn [fst snd].
  destruct (decide (key1 = key)) as [->|Hn].
  - by rewrite <-app_assoc, IH, app_assoc, Hsame, <-app_assoc.
  - by rewrite !app_nil_l, IH, Hother by done.
Qed.

(** What leaves a chain was emitted. *)
Lemma keyed_run_emitted l a a' gone outs key q :
  keyed_run l a = Some (a', gone, outs) → (key, q) ∈ gone → q = [] ∨ q ∈ outs.
Proof.
  revert a gone outs. induction l as [|[[e key1] k] l IH]; intros a gone outs; cbn [keyed_run].
  { intros [= _ <- _]. by intros Hin%not_elem_of_nil. }
  destruct (keyed_event _ _ _ key1 k a) as [[a1 out]|] eqn:Hev; [|done]. cbn [mbind option_bind].
  destruct (keyed_run l a1) as [[[a2 gone'] outs']|] eqn:Hrun; [|done]. cbn [mbind option_bind].
  intros [= -> <- <-]. rewrite elem_of_cons, elem_of_app. intros [[= -> ->]|Hin].
  - unfold drained. case_bool_decide; [|by left].
    destruct (last out) as [q|] eqn:Hl; [|by left]. right; left.
    apply last_Some in Hl as [out0 ->]. apply elem_of_app. right. by left.
  - destruct (IH _ _ _ Hrun Hin); auto.
Qed.
(** ** Runs *)

(** Events that are handled without an error, each with the keys of its
    groups at that time, and what the select emits for them. *)
Fixpoint select_run (evs : list Event.t) (self : Select.t) :
    option (Select.t * list (Event.t * string) * select_events) :=
  match evs with
  | [] => Some (self, [], [])
  | e :: evs =>
    match Select.on_event 0 IN const_null e self with
    | (self', _, Ok ei) =>
      '(self'', log, events) ← select_run evs self';
      Some (self'', ((e,.) <$> event_keys self e) ++ log, EventAndInsights.events ei ++ events)
    | (_, _, Err _) => None
    end
  end.

Lemma keyed_run_app l1 l2 a a1 a2 gone1 outs1 gone2 outs2 :
  keyed_run l1 a = Some (a1, gone1, outs1) → keyed_run l2 a1 = Some (a2, gone2, outs2) →
  keyed_run (l1 ++ l2) a = Some (a2, gone1 ++ gone2, outs1 ++ outs2).
Proof.
  revert a gone1 outs1. induction l1 as [|[[e key] k] l1 IH]; intros a gone1 outs1; cbn [keyed_run app].
  { by intros [= -> <- <-]. }
  destruct (keyed_event _ _ _ key k a) as [[a0 out]|]; [|done]. cbn [mbind option_bind].
  destruct (keyed_run l1 a0) as [[[a3 gone'] outs']|] eqn:Hrun; [|done]. cbn [mbind option_bind].
  intros [= -> <- <-] H2. rewrite (IH a0 gone' outs' Hrun H2). cbn [mbind option_bind].
  by rewrite app_assoc.
Qed.

Lemma select_run_refines evs self self' log events a :
  Select.decls self ≠ [] → keyed_refines self a → Forall (λ e, eid_wf (Event.id e)) evs →
  select_run evs self = Some (self', log, events) →
  ∃ l a' gone outs, l.*1 = log ∧ Forall (λ x, delivers x.1.1 x) l ∧
    keyed_run l a = Some (a', gone, outs) ∧ keyed_refines self' a' ∧
    offered (aggregates (Select.stmt self)) outs events ∧ Select.stmt self' = Select.stmt self.
Proof.
  revert self a log events. induction evs as [|e evs IH]; intros self a log events Hw Hr Hids; cbn [select_run].
  { intros [= <- <- <-]. exists [], a, [], []. split_and!; try done. by exists []. }
  apply Forall_cons in Hids as [Hid Hids].
  destruct (Select.on_event 0 IN const_null e self) as [[self1 st1] [ei|]] eqn:Hev; [|done].
  destruct (on_event_keeps _ _ _ _ _ _ _ _ Hev) as (_ & _ & Hdecls & Hstmt).
  destruct (select_on_event_refines _ _ _ _ _ _ _ _ _ Hw Hr Hid Hev)
    as (l1 & a1 & gone1 & outs1 & Hl1 & Hd1 & Hrun1 & Hr1 & Hoff1).
  destruct (select_run evs self1) as [[[self2 log2] events2]|] eqn:Hrest; [|done]. cbn [mbind option_bind].
  intros [= <- <- <-].
  destruct (IH self1 a1 log2 events2) as (l2 & a2 & gone2 & outs2 & Hl2 & Hd2 & Hrun2 & Hr2 & Hoff2 & Hstmt2);
    [by rewrite Hdecls|done..|].
  exists (l1 ++ l2), a2, (gone1 ++ gone2), (outs1 ++ outs2). split_and!.
  - by rewrite fmap_app, Hl1, Hl2.
  - apply Forall_app. split; [|done]. apply Forall_forall. intros x Hx.
    assert (x.1.1 = e) as ->.
    { apply (list_elem_of_fmap_2 fst) in Hx. rewrite Hl1 in Hx.
      by apply list_elem_of_fmap in Hx as (key & -> & _). }
    by eapply Forall_forall in Hd1.
  - by eapply keyed_run_app.
  - done.
  - rewrite Hstmt in Hoff2. by apply offered_app.
  - by rewrite Hstmt2.
Qed.

Lemma with_stmt_refines uid ws stmt :
  ws ≠ [] → ∃ a, keyed_refines (Select.with_stmt uid ws stmt) a ∧ keyed_ok a ∧ open a = ∅.
Proof.
  intros Hne. set (ws' := (λ w, (Select.win_name w, Select.window_impl w)) <$> (Select.window_of <$> ws)).
  exists (mk_keyed ∅ ((λ w : string * Impl, (w.2, [])) <$> ws')).
  assert (Forall (λ l : Impl * list contribution, l.2 = []) ((λ w : string * Impl, (w.2, [])) <$> ws')) as Hempty.
  { apply Forall_fmap, Forall_true. done. }
  split_and!; [split| |done].
  - intros key. cbn. rewrite !lookup_empty. constructor.
  - split; [by destruct ws|]. apply from_windows_refines; [unfold eid_wf; cbn; constructor|done].
  - exact Hempty.
  - split; [by destruct ws|exact Hempty|]. cbn. intros key c. by rewrite lookup_empty.
Qed.

(** What an event contributes. *)
Definition contributed (k : contribution) : ValueAndMeta.t * EventId.t := (k_data k, k_id k).

Lemma sent_contributed key (l : list delivery) :
  Forall (λ x, delivers x.1.1 x) l →
  contributed <$> sent_to key l =
    (λ x : Event.t * string, (Event.data x.1, Event.id x.1)) <$> filter (λ x, x.2 = key) l.*1.
Proof.
  induction 1 as [|[[e key1] k] l [Hd Hi] _ IH]; [done|].
  rewrite sent_to_cons, fmap_cons, filter_cons. cbn [fst snd] in *.
  destruct (decide (key1 = key)); [|done]. rewrite fmap_app, IH. cbn. unfold contributed at 1. by rewrite Hd, Hi.
Qed.
(** C9: the select operator with windows is a keyed tilt frame.  Events that
    are handled without an error, from the time the select is created, do to
    its groups what their deliveries, one for each group key of an event and
    each with the event's data and id, do to the abstract chains, which start
    with none open: groups are opened and closed alike, the aggregates of every
    window of every group hold exactly what its queue holds, and what the
    select emits are the events offered for the emitted queues, in order. *)
Theorem select_refines (operator_uid : u64) (ws : list (string * Impl)) (stmt : select_stmt)
    (evs : list Event.t) (self' : Select.t) (log : list (Event.t * string)) (events : select_events)
    (Hws : ws ≠ []) (Hids : Forall (λ e, eid_wf (Event.id e)) evs)
    (Hrun : select_run evs (Select.with_stmt operator_uid ws stmt) = Some (self', log, events)) :
  ∃ a l a' gone outs,
    keyed_refines (Select.with_stmt operator_uid ws stmt) a ∧ open a = ∅ ∧
    l.*1 = log ∧ Forall (λ x, delivers x.1.1 x) l ∧
    keyed_run l a = Some (a', gone, outs) ∧ keyed_refines self' a' ∧
    offered (aggregates stmt) outs events.
Proof.
  destruct (with_stmt_refines operator_uid ws stmt Hws) as (a & Hr & _ & Hopen).
  destruct (select_run_refines evs (Select.with_stmt operator_uid ws stmt) self' log events a) as (l & a' & gone & outs & Hl & Hd & Hk & Hr' & Hoff & _);
    [by destruct ws|done..|].
  by exists a, l, a', gone, outs.
Qed.

End keyed.

(** ** Evaluation *)
Module SelectSample.
Existing Instance demo_script.
Existing Instance simd_value_trait.
#[export] Instance order : hash_order string := some_order string.

(** Collects the events of a group, two at a time. *)
Definition stmt : select_stmt := mk_stmt DCollected None (Some DEvent) None [[] : list value].
Definition windows_ (mg : usize) : list (string * Impl) :=
  [("ns::pairs"%string, TumblingCountBased (number_from_stmt 2 mg None))].
Definition event (n : N) (key : string) : Event.t :=
  Event.set_data (ValueAndMeta.from_value (VString key)) (Event.set_id (EventId.new 1 0 n) Event.default).
Definition tick : Event.t :=
  Event.mk EventId.default ValueAndMeta.default 0 None (Some SigTick) false CbNone ∅ false.

Definition send (e : Event.t) (self : Select.t) : Select.t * result EventAndInsights.t :=
  let '(self, _, r) := Select.on_event 0 IN const_null e self in (self, r).
(** Sends events, also after errors, and returns the results. *)
Fixpoint sends (evs : list Event.t) (self : Select.t) : Select.t * list (result EventAndInsights.t) :=
  match evs with
  | [] => (self, [])
  | e :: evs => let '(self, r) := send e self in let '(self, l) := sends evs self in (self, r :: l)
  end.
Definition payloads (r : result EventAndInsights.t) : option (list value) :=
  match r with
  | Ok ei => Some ((λ pe : string * Event.t, Event.payload_value pe.2) <$> EventAndInsights.events ei)
  | Err _ => None
  end.

Definition interleaved : list Event.t :=
  [event 1 "a"; event 2 "b"; event 3 "a"; event 4 "c"; event 5 "b"]%string.

Example sends_test :
  payloads <$> (sends interleaved (Select.with_stmt 7 (windows_ 10) stmt)).2 =
    [Some []; Some []; Some [VArray [VString "a"; VString "a"]]; Some []; Some [VArray [VString "b"; VString "b"]]]%string.
Proof. by vm_compute. Qed.

(** With one group allowed, the event of the group that was refused stays in
    the default group: the next new group starts with it. *)
Lemma refused_group_leaks :
  payloads <$> (sends [event 1 "a"; event 2 "b"; event 3 "a"; event 4 "c"]%string
                  (Select.with_stmt 7 (windows_ 1) stmt)).2 =
    [Some []; None; Some [VArray [VString "a"; VString "a"]]; Some [VArray [VString "b"; VString "c"]]]%string.
Proof. by vm_compute. Qed.

(** The id of the default group is not reset: what is emitted for the second
    group also tracks the event that opened the first one, which is still
    held. *)
Definition second_group : list (string * Event.t) :=
  mjoin ((λ r, match r with Ok ei => EventAndInsights.events ei | Err _ => [] end) <$>
    (sends [event 1 "a"; event 2 "b"; event 3 "b"]%string (Select.with_stmt 7 (windows_ 10) stmt)).2).
Lemma second_group_tracks_first :
  (λ pe : string * Event.t,
     (Event.payload_value pe.2, EventId.is_tracking (Event.id pe.2) (EventId.new 1 0 1))) <$> second_group =
    [(VArray [VString "b"; VString "b"], true)]%string.
Proof. by vm_compute. Qed.

(** A tick that emits nothing drops the ids a window tracked. *)
Definition tracks_first (self : Select.t) : option bool :=
  g ← Select.groups self !! "a"%string;
  w ← head (windows g);
  Some (EventId.is_tracking (id w) (EventId.new 1 0 1)).
Lemma tick_drops_ids :
  let before := (sends [event 1 "a"]%string (Select.with_stmt 7 (windows_ 10) stmt)).1 in
  let '(after, _, _, r) := Select.on_signal 0 const_null tick before in
  payloads r = Some [] ∧ tracks_first before = Some true ∧ tracks_first after = Some false.
Proof. by vm_compute. Qed.

Lemma interleaved_wf : Forall (λ e, eid_wf (Event.id e)) interleaved.
Proof. repeat (constructor; [unfold eid_wf; cbn; constructor|]). constructor. Qed.
End SelectSample.

Lemma select_groups_bounded_witness :
  let _ := demo_script in let _ := simd_value_trait in let _ := some_order string in
  let self := (Select.on_event 0 IN const_null (SelectSample.event 1 "a")
                 (Select.with_stmt 7 (SelectSample.windows_ 1) SelectSample.stmt)).1.1 in
  size (Select.groups self) = 1%nat ∧ (N.of_nat (size (Select.groups self)) ≤ 1)%N.
Proof.
  intros sl vt ho self. split; [by vm_compute|].
  assert (rtc select_step (Select.with_stmt 7 (SelectSample.windows_ 1) SelectSample.stmt) self) as Hrun.
  { apply rtc_once. unfold self.
    destruct (Select.on_event 0 IN const_null (SelectSample.event 1 "a") _) as [[s st] r] eqn:Hev.
    exact (select_event _ _ _ _ _ _ _ _ Hev). }
  destruct (select_groups_bounded 7 (SelectSample.windows_ 1) SelectSample.stmt self Hrun) as [Hb _].
  apply (Hb ("ns::pairs"%string, TumblingCountBased (number_from_stmt 2 1 None))). by left.
Defined.

Lemma select_refines_witness :
  let _ := demo_script in let _ := simd_value_trait in
  ∃ self' log events gone outs,
    select_run SelectSample.interleaved (Select.with_stmt 7 (SelectSample.windows_ 10) SelectSample.stmt) =
      Some (self', log, events) ∧ length log = 5%nat ∧ length events = 2%nat ∧
    ∃ a l a', keyed_run l a = Some (a', gone, outs) ∧ keyed_refines self' a'.
Proof.
  intros sl vt.
  destruct (select_run SelectSample.interleaved (Select.with_stmt 7 (SelectSample.windows_ 10) SelectSample.stmt))
    as [[[self' log] events]|] eqn:Hrun; [|by vm_compute in Hrun].
  destruct (select_refines 7 (SelectSample.windows_ 10) SelectSample.stmt SelectSample.interleaved self' log events)
    as (a & l & a' & gone & outs & _ & _ & _ & _ & Hk & Hr & _); [done|apply SelectSample.interleaved_wf|exact Hrun|].
  exists self', log, events, gone, outs. split_and!; [reflexivity| | |exact (ex_intro _ a (ex_intro _ l (ex_intro _ a' (conj Hk Hr))))].
  - vm_compute in Hrun. injection Hrun as _ <- _. reflexivity.
  - vm_compute in Hrun. injection Hrun as _ _ <-. reflexivity.
Defined.

