(* ===== verification/SimpleSelect.v ===== *)
(** Selects that only filter: [SelectStmt::complexity] of
    tremor-script/src/ast/query.rs and the operator of
    tremor-pipeline/src/op/trickle/simple_select.rs, which stands in for the
    select operator when a select passes the event itself on. *)
From S2P Require Import Prelude EventIds Value Event OpsBasic Window Select TiltFrames.

(** The test of [complexity] on the target, [ast_eq] with the path [event]:
    what it accepts gives the event. *)
Class event_target `{!script_lang} := {
  is_event : expr → bool;
  is_event_run e ec consts aggrs event state meta :
    is_event e = true → run_expr e ec consts aggrs event state meta = CallOk event;
}.

Inductive SelectType := SelPassthrough | SelSimple | SelNormal.

Definition complexity `{!script_lang, !event_target} {W} (stmt : select_stmt) (windows : list W) : SelectType :=
  if is_event (target stmt) && bool_decide (maybe_group_by stmt = None) && bool_decide (windows = []) then
    if bool_decide (maybe_having stmt = None) && bool_decide (maybe_where stmt = None) then SelPassthrough
    else SelSimple
  else SelNormal.

Module SimpleSelect.
Section simple_select.
Context `{!script_lang}.

Record t := mk { id : string; select : select_stmt }.

(** One guard: [None] when the event goes on. *)
Definition check (guard : option expr) (ec : event_context) (state : value) (event : Event.t) :
    result bool :=
  match guard with
  | None => Ok true
  | Some guard =>
    test ← from_call (run_expr guard ec Select.null_consts [] (Event.payload_value event) state (Event.payload_meta event));
    ok_or (as_bool test) (EMsg (guard_not_bool guard test))
  end.

Definition on_event (_ : N) (_ : string) (state : value) (event : Event.t) (self : t) :
    t * value * result EventAndInsights.t :=
  let ec := mk_context (Event.ingest_ns event) (Event.origin_uri event) 0 in
  (self, state,
    test ← check (maybe_where (select self)) ec state event;
    if negb test then Ok EventAndInsights.default
    else
      test ← check (maybe_having (select self)) ec state event;
      if negb test then Ok EventAndInsights.default else Ok (EventAndInsights.from_event event)).

#[global] Instance operator : Operator t := {
  on_event := on_event;
  handles_signal := default_handles_signal;
  on_signal := default_on_signal;
  handles_contraflow := default_handles_contraflow;
  on_contraflow := default_on_contraflow;
  op_metrics := default_metrics;
  skippable := default_skippable;
}.
End simple_select.
End SimpleSelect.

Lemma check_defined `{!script_lang} guard ec st e : SimpleSelect.check guard ec st e ≠ Err EUndefined.
Proof.
  unfold SimpleSelect.check. destruct guard as [g|]; [|done]. destruct (run_expr _ _ _ _ _ _ _) as [v| |]; [|done..].
  simpl. by destruct (as_bool v).
Qed.

#[export] Instance simple_select_data `{!script_lang} : data_operator (λ _ : SimpleSelect.t, True).
Proof.
  split.
  - intros o uid port st e o' st' r _ Hk. simpl. unfold SimpleSelect.on_event.
    pose proof (check_defined (maybe_where (SimpleSelect.select o))
      (mk_context (Event.ingest_ns e) (Event.origin_uri e) 0) st e) as Hw.
    destruct (SimpleSelect.check _ _ _ _) as [[]|x]; simpl; intros; simplify_eq; [|no_events|].
    + pose proof (check_defined (maybe_having (SimpleSelect.select o'))
        (mk_context (Event.ingest_ns e) (Event.origin_uri e) 0) st' e) as Hh.
      destruct (SimpleSelect.check _ _ _ _) as [[]|x]; simpl; [one_event|no_events|].
      split; [done|split; [intros [= ->]; by apply Hh|by intros ei [=]]].
    + split; [done|split; [intros [= ->]; by apply Hw|by intros ei [=]]].
  - intros; simpl in *; unfold default_on_signal in *; simplify_eq. no_events.
  - done.
Qed.

(** ** The select operator on such a statement *)
Section equivalence.
Context `{!script_lang, !event_target, !value_trait, !hash_order string}.

(** A guard that looks at the event only: not at metadata or state, and not at
    the constant [group]. *)
Definition event_only (guard : option expr) : Prop :=
  match guard with
  | None => True
  | Some g => ∀ ec consts consts' event state state' meta meta',
      run_expr g ec consts [] event state meta = run_expr g ec consts' [] event state' meta'
  end.

Lemma check_guard guard ec consts state event :
  event_only guard →
  SimpleSelect.check guard ec state event = run_guard guard ec consts [] (Event.payload_value event).
Proof.
  destruct guard as [g|]; [|done]. intros Hg. unfold SimpleSelect.check, run_guard.
  by rewrite (Hg _ Select.null_consts consts _ state const_null (Event.payload_meta event) const_null).
Qed.

(** The select operator while it has no groups and no windows. *)
Definition plain (stmt : select_stmt) (self : Select.t) : Prop :=
  Select.stmt self = stmt ∧ Select.decls self = [] ∧ Select.groups self = ∅.

Lemma simple_step stmt self o uid port state event :
  plain stmt self → is_event (target stmt) = true → maybe_group_by stmt = None →
  event_only (maybe_where stmt) → event_only (maybe_having stmt) → SimpleSelect.select o = stmt →
  ∃ self', Select.on_event uid port state event self =
    (self', state, (SimpleSelect.on_event uid port state event o).2) ∧ plain stmt self'.
Proof.
  intros (Hs & Hd & Hg) Hev Hgb Hw Hh Ho. unfold Select.on_event, SimpleSelect.on_event. simpl.
  rewrite Ho, Hs, Hd, Hg, Hgb. change (N.of_nat (size (∅ : gmap string Group))) with 0%N.
  set (ec := mk_context _ _ _).
  rewrite (check_guard (maybe_where stmt) ec (Select.consts self) state event Hw).
  destruct (run_guard (maybe_where stmt) ec (Select.consts self) [] (Event.payload_value event)) as [[]|x]; simpl.
  2: { by exists self. }
  2: { by exists self. }
  unfold Select.select_simple. rewrite is_event_run by done. simpl.
  set (consts := mk_consts _ _ _).
  rewrite (check_guard (maybe_having stmt) ec consts state event Hh).
  destruct (run_guard (maybe_having stmt) ec consts [] (Event.payload_value event)) as [[]|x]; simpl.
  - exists (Select.set_consts consts self). split; [|by split_and!]. by destruct event as [? [] ].
  - exists (Select.set_consts consts self). split; [reflexivity|by split_and!].
  - exists (Select.set_consts consts self). split; [reflexivity|by split_and!].
Qed.

Lemma simple_feed stmt self o uid port state evs :
  plain stmt self → is_event (target stmt) = true → maybe_group_by stmt = None →
  event_only (maybe_where stmt) → event_only (maybe_having stmt) → SimpleSelect.select o = stmt →
  (feed uid port evs state self).2 = (feed uid port evs state o).2.
Proof.
  intros Hp Hev Hgb Hw Hh Ho. revert self Hp. induction evs as [|e evs IH]; intros self Hp; [done|].
  destruct (simple_step stmt self o uid port state e Hp Hev Hgb Hw Hh Ho) as (self' & Hs & Hp').
  specialize (IH self' Hp').
  assert (SimpleSelect.on_event uid port state e o = (o, state, (SimpleSelect.on_event uid port state e o).2)) as Ho'
    by done.
  rewrite (feed_cons (Op := Select.t) (Operator0 := Select.operator) uid port e evs state self _ _ _ Hs),
    (feed_cons (Op := SimpleSelect.t) (Operator0 := SimpleSelect.operator) uid port e evs state o _ _ _ Ho').
  destruct ((SimpleSelect.on_event uid port state e o).2) as [ei|x]; [|done].
  destruct (feed uid port evs state self') as [[? ?] ?].
  destruct (feed uid port evs state o) as [[? ?] ?]. simpl in *. by subst.
Qed.
End equivalence.

(** C11: a select that is built as a simple one behaves as the select operator
    would: on any events, both give the same events and the same error, as
    long as the guards look at the event only. *)
Theorem simple_select_equivalent `{!script_lang, !event_target, !value_trait, !hash_order string}
    (stmt : select_stmt) (name : string) (uid uid' : N) (port : string) (state : value) (evs : list Event.t)
    (Hsimple : complexity stmt ([] : list (string * Impl)) ≠ SelNormal)
    (Hwhere : event_only (maybe_where stmt)) (Hhaving : event_only (maybe_having stmt)) :
  (feed uid port evs state (SimpleSelect.mk name stmt)).2 =
  (feed uid port evs state (Select.with_stmt uid' [] stmt)).2.
Proof.
  unfold complexity in Hsimple. destruct (is_event (target stmt)) eqn:Hev; [|done].
  case_bool_decide as Hgb; [|done]. symmetry. by apply (simple_feed stmt).
Qed.

(** A passthrough has no guards: events come out as they went in. *)
Lemma passthrough_equivalent `{!script_lang, !event_target, !value_trait, !hash_order string}
    (stmt : select_stmt) (uid uid' : N) (port : string) (state : value) (evs : list Event.t) :
  complexity stmt ([] : list (string * Impl)) = SelPassthrough →
  (feed uid port evs state Passthrough.mk).2 = (feed uid port evs state (Select.with_stmt uid' [] stmt)).2.
Proof.
  unfold complexity. destruct (is_event (target stmt)) eqn:Hev; [|done].
  case_bool_decide as Hgb; [|done]. simpl.
  case_bool_decide as Hh; [|done]. case_bool_decide as Hw; [|done]. intros _.
  trans (feed uid port evs state (SimpleSelect.mk "" stmt)).2.
  - induction evs as [|e evs IH]; [done|].
    rewrite (feed_cons (Op := Passthrough.t) (Operator0 := Passthrough.operator) uid port e evs state _ _ _ _ eq_refl).
    rewrite (feed_cons (Op := SimpleSelect.t) (Operator0 := SimpleSelect.operator) uid port e evs state _ _ _ _ eq_refl).
    unfold SimpleSelect.check. simpl. rewrite Hw, Hh. simpl.
    destruct (feed uid port evs state Passthrough.mk) as [[? ?] ?].
    destruct (feed uid port evs state (SimpleSelect.mk "" stmt)) as [[? ?] ?]. simpl in *. by subst.
  - symmetry. apply (simple_feed stmt); [done..|by rewrite Hw|by rewrite Hh|done].
Qed.

(** ** Guards that look at more

    Expressions are functions of the constant [group], the event and its
    metadata. *)
Definition reading_script : script_lang := {|
  script := unit;
  expr := option (value → value → value → value);
  aggr := unit;
  group_by := unit;
  run_imut _ _ _ _ := CallOk REmitEvent;
  run_expr e _ consts _ event _ meta := CallOk match e with None => event | Some f => f (group consts) event meta end;
  aggr_args _ := [];
  aggr_init a := a;
  aggr_accumulate _ a := (a, IoOk tt);
  aggr_merge a _ := (a, IoOk tt);
  generate_groups _ _ _ _ := CallOk [];
  sorted_serialize _ := IoOk EmptyString;
  guard_not_bool _ _ := "guard"%string;
|}.

Definition reading_target : @event_target reading_script.
Proof.
  refine (@Build_event_target reading_script (λ e : option _, match e with None => true | _ => false end) _).
  by intros [f|] ? ? ? ? ? ?.
Defined.

Module SimpleExample.
#[local] Existing Instance reading_script.
#[local] Existing Instance reading_target.
#[local] Existing Instance simd_value_trait.
#[local] Instance order : hash_order string := some_order string.

Definition guarded (f : value → value → value → value) : select_stmt :=
  mk_stmt (None : @expr reading_script) (Some (Some f)) None None [].
Definition outputs {Op} `{!Operator Op} (o : Op) (e : Event.t) : result (list EventAndInsights.t) :=
  (feed 0 "in" [e] const_null o).2.

(** [where $.keep]: the simple select sees the metadata, the select operator
    runs its guards with [null] in their place and fails on the event. *)
Example metadata_guard :
  let stmt := guarded (λ _ _ meta, default const_null (value_get meta "keep")) in
  let e := Event.set_data (ValueAndMeta.mk const_null (VObject {["keep"%string := VStatic (SBool true)]})) Event.default in
  complexity stmt ([] : list (string * Impl)) = SelSimple ∧
  outputs (SimpleSelect.mk "" stmt) e = Ok [EventAndInsights.from_event e] ∧
  outputs (Select.with_stmt 1 [] stmt) e = Err (EMsg "guard").
Proof. vm_compute. done. Qed.
End SimpleExample.

Lemma simple_select_equivalent_witness :
  let _ := reading_script in let _ := reading_target in let _ := simd_value_trait in
  let _ := some_order string in
  let stmt := SimpleExample.guarded (λ _ event _, event) in
  let evs := [Event.set_data (ValueAndMeta.from_value (VStatic (SBool true))) Event.default; Event.default] in
  (feed 1 "in" evs const_null (SimpleSelect.mk "s" stmt)).2 =
  (feed 1 "in" evs const_null (Select.with_stmt 7 [] stmt)).2.
Proof.
  intros Hl Ht Hv Ho stmt evs.
  apply (simple_select_equivalent stmt "s" 1 7 "in" const_null evs); [discriminate|by intros|exact I].
Defined.
