(* ===== verification/ScriptOps.v ===== *)
(** The operators of the script language: equality, binary and unary
    operations, merging and defaults of records
    (tremor-script/src/interpreter.rs), with the errors of the interpreter and
    the monad its functions run in. *)
From Stdlib Require Import Floats.SpecFloat.
From S2P Require Import Prelude Value ValueOrd.

(** ** Errors

    The kinds of errors the interpreter raises, with what of the run they
    depend on; source positions and suggestions are left out.  [Panic] is
    where the code panics, [Unreachable] where it relies on never coming (a
    slice read without a check of its bounds, [unreachable!()]), [Dangling]
    where it would write through a dangling pointer, and [Diverges] where a
    loop of it does not end. *)
Inductive binop :=
  | Or | Xor | And | BitOr | BitXor | BitAnd | OpEq | NotEq | Gte | OpGt | Lte | OpLt
  | RBitShiftSigned | RBitShiftUnsigned | LBitShift | Add | Sub | Mul | Div | Mod.
#[export] Instance binop_eq_dec : EqDecision binop.
Proof. solve_decision. Defined.

Inductive unop := Plus | Minus | Not | BitNot.
#[export] Instance unop_eq_dec : EqDecision unop.
Proof. solve_decision. Defined.

Inductive serror :=
  | NeedObj (t : value_type)
  | NeedArr (t : value_type)
  | NeedStr (t : value_type)
  | NeedInt (t : value_type)
  | BadKey (key : string)
  | UnsetLocal (idx : N)
  | ArrayOutOfBound (first last len : N)
  | BadArrayIndex (v : value) (len : N)
  | DecreasingRange (first last : N)
  | InvalidBinary (op : binop) (l r : value_type)
  | InvalidUnary (op : unop) (t : value_type)
  | InvalidBitshift
  | GuardNotBool (v : value)
  | NoClauseHit
  | Oops (code : N)
  | PatchKeyExists (key : string)
  | PatchUpdateKeyMissing (key : string)
  | PatchMergeTypeConflict (key : string)
  | AssignToConst
  | AssignArray
  | InvalidAssign
  | NotConstant
  | ScriptMsg (msg : string)
  | FnError (msg : string)
  | RecursionLimit
  | NestedCombined
  | Panic
  | Unreachable
  | Dangling
  | Diverges.

Inductive sres (A : Type) := SOk (a : A) | SErr (e : serror).
Arguments SOk {A} a.
Arguments SErr {A} e.

#[export] Instance sres_ret : MRet sres := λ A, SOk.
#[export] Instance sres_bind : MBind sres := λ A B f r,
  match r with SOk a => f a | SErr e => SErr e end.
#[export] Instance sres_fmap : FMap sres := λ A B f r,
  match r with SOk a => SOk (f a) | SErr e => SErr e end.

Definition some_or {A} (o : option A) (e : serror) : sres A :=
  match o with Some a => SOk a | None => SErr e end.

(** ** Values *)

(** [as i64] of a number below [2^64], and [i64] arithmetic, which wraps. *)
Definition i64_wrap (z : Z) : Z := (z - i64_bot) mod 18446744073709551616 + i64_bot.
Definition i64_to_u64 (z : Z) : N := Z.to_N (z mod 18446744073709551616).
(** [as u32] *)
Definition to_u32 (z : Z) : Z := z mod 4294967296.

Definition from_u64 (n : N) : value := VStatic (SU64 n).
Definition from_i64 (z : Z) : value := VStatic (SI64 z).
Definition from_f64 (f : f64) : value := VStatic (SF64 f).
Definition static_bool (b : bool) : value := VStatic (SBool b).

Definition TRUE : value := static_bool true.
Definition FALSE : value := static_bool false.

(** [f64::EPSILON] *)
Definition EPSILON : f64 := S754_finite false 4503599627370496 (-104).

Definition f64_add := SFadd f64_prec f64_emax.
Definition f64_sub := SFsub f64_prec f64_emax.
Definition f64_mul := SFmul f64_prec f64_emax.
Definition f64_div := SFdiv f64_prec f64_emax.

Section ops.
Context `{!value_trait}.

(** ** Equality *)
Section list_eqb.
Context {A B : Type} (eqb : A → B → bool).
Fixpoint list_eqb (l : list A) (k : list B) : bool :=
  match l, k with
  | [], [] => true
  | x :: l, y :: k => eqb x y && list_eqb l k
  | _, _ => false
  end.
End list_eqb.

(** The left object holds the comparisons with its values. *)
Definition object_eqb (l : gmap string (value → bool)) (r : gmap string value) : bool :=
  (size l =? size r)%nat &&
  forallb (λ kv : string * (value → bool),
    match r !! kv.1 with Some rv => kv.2 rv | None => false end) (map_to_list l).

Definition number_eqb (l r : value) : bool :=
  match as_u64 l, as_u64 r with
  | Some l, Some r => (l =? r)%N
  | _, _ =>
    match as_i64 l, as_i64 r with
    | Some l, Some r => (l =? r)%Z
    | _, _ =>
      match cast_f64 l, cast_f64 r with
      | Some l, Some r => SFltb (SFabs (f64_sub l r)) EPSILON
      | _, _ => false
      end
    end
  end.

Fixpoint val_eq (lhs rhs : value) {struct lhs} : bool :=
  match lhs, rhs with
  | VObject l, VObject r => object_eqb (val_eq <$> l) r
  | VArray l, VArray r => list_eqb val_eq l r
  | VStatic (SBool l), VStatic (SBool r) => Bool.eqb l r
  | VStatic SNull, VStatic SNull => true
  | VString l, VString r => String.eqb l r
  | VBytes l, VBytes r => bool_decide (l = r)
  | VString l, VBytes r => bool_decide (as_bytes l = r)
  | VBytes l, VString r => bool_decide (l = as_bytes r)
  | l, r => number_eqb l r
  end.

(** ** Binary operations *)
Definition invalid_binary {A} (op : binop) (l r : value) : sres A :=
  SErr (InvalidBinary op (type_of l) (type_of r)).

(** [checked_shr] and [checked_shl] with the distance [as u32]. *)
Definition checked_shift (distance : Z) (shift : Z → value) : sres value :=
  let d := to_u32 distance in
  if (d <? 64)%Z then SOk (shift d) else SErr InvalidBitshift.

Definition exec_u64 (op : binop) (lhs rhs : value) (l r : N) : sres value :=
  match op with
  | BitAnd => SOk (from_u64 (N.land l r))
  | BitOr => SOk (from_u64 (N.lor l r))
  | BitXor => SOk (from_u64 (N.lxor l r))
  | OpGt => SOk (static_bool (r <? l)%N)
  | Gte => SOk (static_bool (r <=? l)%N)
  | OpLt => SOk (static_bool (l <? r)%N)
  | Lte => SOk (static_bool (l <=? r)%N)
  | Add => SOk (from_u64 (u64_add l r))
  | Sub =>
    if (r <=? l)%N then SOk (from_u64 (u64_sub l r))
    else
      let d := Z.of_N (r - l) in
      if (d <=? i64_top)%Z then SOk (from_i64 (- d)) else invalid_binary op lhs rhs
  | Mul => SOk (from_u64 (u64_mul l r))
  | Div => SOk (from_f64 (f64_div (float_of_Z (Z.of_N l)) (float_of_Z (Z.of_N r))))
  | Mod => if (r =? 0)%N then SErr Panic else SOk (from_u64 (l mod r)%N)
  | RBitShiftSigned => checked_shift (Z.of_N r) (λ d, from_u64 (N.shiftr l (Z.to_N d)))
  | RBitShiftUnsigned => checked_shift (Z.of_N r) (λ d, from_i64 (i64_wrap (Z.shiftr (Z.of_N l) d)))
  | LBitShift => checked_shift (Z.of_N r) (λ d, from_u64 (N.shiftl l (Z.to_N d) mod w64)%N)
  | _ => invalid_binary op lhs rhs
  end.

Definition exec_i64 (op : binop) (lhs rhs : value) (l r : Z) : sres value :=
  match op with
  | BitAnd => SOk (from_i64 (Z.land l r))
  | BitOr => SOk (from_i64 (Z.lor l r))
  | BitXor => SOk (from_i64 (Z.lxor l r))
  | OpGt => SOk (static_bool (r <? l)%Z)
  | Gte => SOk (static_bool (r <=? l)%Z)
  | OpLt => SOk (static_bool (l <? r)%Z)
  | Lte => SOk (static_bool (l <=? r)%Z)
  | Add => SOk (from_i64 (i64_wrap (l + r)))
  | Sub => SOk (from_i64 (i64_wrap (l - r)))
  | Mul => SOk (from_i64 (i64_wrap (l * r)))
  | Div => SOk (from_f64 (f64_div (float_of_Z l) (float_of_Z r)))
  | Mod =>
    if (r =? 0)%Z || ((l =? i64_bot)%Z && (r =? -1)%Z) then SErr Panic else SOk (from_i64 (Z.rem l r))
  | RBitShiftSigned => checked_shift r (λ d, from_i64 (Z.shiftr l d))
  | RBitShiftUnsigned => checked_shift r (λ d, from_i64 (i64_wrap (Z.shiftr (Z.of_N (i64_to_u64 l)) d)))
  | LBitShift => checked_shift r (λ d, from_i64 (i64_wrap (Z.shiftl l d)))
  | _ => invalid_binary op lhs rhs
  end.

Definition exec_f64 (op : binop) (lhs rhs : value) (l r : f64) : sres value :=
  match op with
  | Gte => SOk (static_bool (SFleb r l))
  | OpGt => SOk (static_bool (SFltb r l))
  | OpLt => SOk (static_bool (SFltb l r))
  | Lte => SOk (static_bool (SFleb l r))
  | Add => SOk (from_f64 (f64_add l r))
  | Sub => SOk (from_f64 (f64_sub l r))
  | Mul => SOk (from_f64 (f64_mul l r))
  | Div => SOk (from_f64 (f64_div l r))
  | _ => invalid_binary op lhs rhs
  end.

Definition exec_binary_numeric (op : binop) (lhs rhs : value) : sres value :=
  match as_u64 lhs, as_u64 rhs with
  | Some l, Some r => exec_u64 op lhs rhs l r
  | _, _ =>
    match as_i64 lhs, as_i64 rhs with
    | Some l, Some r => exec_i64 op lhs rhs l r
    | _, _ =>
      match cast_f64 lhs, cast_f64 rhs with
      | Some l, Some r => exec_f64 op lhs rhs l r
      | _, _ => invalid_binary op lhs rhs
      end
    end
  end.

(** The four comparisons of strings and bytes. *)
Definition exec_compare (op : binop) (lhs rhs : value) (c : comparison) : sres value :=
  match op with
  | OpGt => SOk (static_bool (match c with Gt => true | _ => false end))
  | Gte => SOk (static_bool (match c with Lt => false | _ => true end))
  | OpLt => SOk (static_bool (match c with Lt => true | _ => false end))
  | Lte => SOk (static_bool (match c with Gt => false | _ => true end))
  | _ => invalid_binary op lhs rhs
  end.

Definition exec_binary (op : binop) (lhs rhs : value) : sres value :=
  match op, lhs, rhs with
  | OpEq, VStatic SNull, VStatic SNull => SOk (static_bool true)
  | NotEq, VStatic SNull, VStatic SNull => SOk (static_bool false)
  | OpEq, l, r => SOk (static_bool (val_eq l r))
  | NotEq, l, r => SOk (static_bool (negb (val_eq l r)))
  | (And | BitAnd), VStatic (SBool l), VStatic (SBool r) => SOk (static_bool (l && r))
  | (Or | BitOr), VStatic (SBool l), VStatic (SBool r) => SOk (static_bool (l || r))
  | (Xor | BitXor), VStatic (SBool l), VStatic (SBool r) => SOk (static_bool (negb (Bool.eqb l r)))
  | op, VBytes l, VBytes r => exec_compare op lhs rhs (list_cmp N.compare l r)
  | op, VBytes l, VString r => exec_compare op lhs rhs (list_cmp N.compare l (as_bytes r))
  | op, VString l, VBytes r => exec_compare op lhs rhs (list_cmp N.compare (as_bytes l) r)
  | Add, VString l, VString r => SOk (VString (String.append l r))
  | op, VString l, VString r => exec_compare op lhs rhs (String.compare l r)
  | op, VStatic (SBool _), VStatic (SBool _) => invalid_binary op lhs rhs
  | op, l, r => exec_binary_numeric op l r
  end.

(** ** Unary operations *)
Definition exec_unary (op : unop) (val : value) : option value :=
  match as_f64 val with
  | Some x =>
    match op with
    | Minus => Some (from_f64 (SFopp x))
    | Plus => Some (from_f64 x)
    | _ => None
    end
  | None =>
    match as_u64 val with
    | Some x =>
      match op with
      | Minus => if (Z.of_N x <=? i64_top)%Z then Some (from_i64 (- Z.of_N x)) else None
      | Plus => Some (from_u64 x)
      | BitNot => Some (from_u64 (u64_max - x))
      | Not => None
      end
    | None =>
      match as_i64 val with
      | Some x =>
        match op with
        | Minus => if (x =? i64_bot)%Z then None else Some (from_i64 (- x))
        | Plus => Some (from_i64 x)
        | BitNot => Some (from_i64 (- x - 1))
        | Not => None
        end
      | None =>
        match as_bool val with
        | Some x => match op with BitNot | Not => Some (static_bool (negb x)) | _ => None end
        | None => None
        end
      end
    end
  end.
End ops.

(** ** Merging *)

(** The loop over the entries of a replacement; [fs] holds with each of them
    the function that merges it into a value. *)
Definition merge_objects (fs : gmap string (value * (value → value))) (map : gmap string value) :
    gmap string value :=
  merge (λ old new,
    match new with
    | None => old
    | Some (v, f) =>
      if is_null v then None
      else Some (match old with Some old => f old | None => v end)
    end) map fs.

(** Merges [replacement] into [value]; this does not fail. *)
Fixpoint merge_values (replacement : value) : value → value :=
  match replacement with
  | VObject rep => λ value,
    match value with
    | VObject map => VObject (merge_objects ((λ v, (v, merge_values v)) <$> rep) map)
    | _ => VObject rep
    end
  | _ => λ _, replacement
  end.

(** The loop over the entries of the defaults; what is there already is kept,
    or defaulted itself if it is an object. *)
Definition default_objects (fs : gmap string (value * (value → value))) (target : gmap string value) :
    gmap string value :=
  merge (λ old new,
    match old, new with
    | old, None => old
    | None, Some (v, _) => Some v
    | Some old, Some (_, f) => Some (f old)
    end) target fs.

Fixpoint apply_default_value (dflt : value) : value → value :=
  match dflt with
  | VObject d => λ target,
    match target with
    | VObject t => VObject (default_objects ((λ v, (v, apply_default_value v)) <$> d) t)
    | _ => target
    end
  | _ => λ target, target
  end.
Definition apply_default (dflt target : gmap string value) : gmap string value :=
  default_objects ((λ v, (v, apply_default_value v)) <$> dflt) target.
