(* ===== verification/BInflux.v ===== *)
(** The binary form of influx lines: src/codec/binflux.rs.

    The cursor of the decoder is the bytes behind its position, which never
    leaves the data: a string that is longer than what is left panics. *)
From Stdlib Require Import Floats.SpecFloat.
From S2P Require Import Prelude Value Wal ValueOrd Text Influx ScriptOps.

Module BInflux.

(** A result, an error or a panic. *)
Inductive outcome (A : Type) := Done (a : A) | Failed (msg : string) | Panic.
Arguments Done {A} a.
Arguments Failed {A} msg.
Arguments Panic {A}.

#[export] Instance outcome_ret : MRet outcome := λ A, Done.
#[export] Instance outcome_bind : MBind outcome := λ A B f r,
  match r with Done a => f a | Failed e => Failed e | Panic => Panic end.

Lemma Done_inj {A} (a b : A) : Done a = Done b → a = b.
Proof. by intros [= ->]. Qed.

Definition TYPE_I64 : N := 0.
Definition TYPE_F64 : N := 1.
Definition TYPE_STRING : N := 2.
Definition TYPE_TRUE : N := 3.
Definition TYPE_FALSE : N := 4.

(** ** Encoding *)
Section encode.
Context `{!value_trait, !hash_order string}.

(** [u16::try_from] of a length, written. *)
Definition write_len (n : nat) (msg : string) : outcome (list N) :=
  if (N.of_nat n <? 65536)%N then Done (be_bytes 2 (N.of_nat n)) else Failed msg.
Definition write_str (s : string) : outcome (list N) :=
  l ← write_len (length (as_bytes s)) "string too long"; Done (l ++ as_bytes s).

Section concat.
Context {A : Type} (f : A → outcome (list N)).
Fixpoint write_all (l : list A) : outcome (list N) :=
  match l with [] => Done [] | x :: l => b ← f x; c ← write_all l; Done (b ++ c) end.
End concat.

(** A tag that is no string is left out. *)
Definition write_tag (kv : string * value) : outcome (list N) :=
  match as_str kv.2 with
  | Some v => k ← write_str kv.1; v ← write_str v; Done (k ++ v)
  | None => Done []
  end.

Definition write_value (v : value) : outcome (list N) :=
  match as_i64 v with
  | Some i => Done (TYPE_I64 :: be_bytes 8 (i64_to_u64 i))
  | None =>
    match as_f64 v with
    | Some f => Done (TYPE_F64 :: be_bytes 8 (f64_to_bits f))
    | None =>
      match as_bool v with
      | Some b => Done [if b then TYPE_TRUE else TYPE_FALSE]
      | None =>
        match as_str v with
        | Some s => s ← write_str s; Done (TYPE_STRING :: s)
        | None => Failed "Unknown type as influx line value"
        end
      end
    end
  end.
Definition write_field (kv : string * value) : outcome (list N) :=
  k ← write_str kv.1; v ← write_value kv.2; Done (k ++ v).

(** The number of the entries of an object and the entries, zero if there is
    none. *)
Definition write_entries (msg : string) (f : string * value → outcome (list N)) (o : option value) : outcome (list N) :=
  match o ≫= as_object with
  | Some o => n ← write_len (size o) msg; b ← write_all f (hash_iter o); Done (n ++ b)
  | None => Done (be_bytes 2 0)
  end.

Definition encode (v : value) : outcome (list N) :=
  match get_str v "measurement" with
  | None => Failed "measurement missing"
  | Some measurement =>
    m ← write_str measurement;
    match get_u64 v "timestamp" with
    | None => Failed "timestamp missing"
    | Some timestamp =>
      tags ← write_entries "too many tags" write_tag (value_get v "tags");
      fields ← write_entries "too many fields" write_field (value_get v "fields");
      Done (be_bytes 2 0 ++ m ++ be_bytes 8 timestamp ++ tags ++ fields)
    end
  end.
End encode.

(** ** Decoding *)
Definition read (n : nat) (c : list N) : outcome (N * list N) :=
  if (n <=? length c)%nat then Done (be_value (take n c), drop n c) else Failed "failed to fill whole buffer".

Definition read_string (c : list N) : outcome (string * list N) :=
  ' (l, c) ← read 2 c;
  if (N.to_nat l <=? length c)%nat then Done (to_str (take (N.to_nat l) c), drop (N.to_nat l) c) else Panic.

Section loop.
Context (f : gmap string value → list N → outcome (gmap string value * list N)).
Fixpoint read_entries (n : nat) (o : gmap string value) (c : list N) : outcome (gmap string value * list N) :=
  match n with O => Done (o, c) | S n => ' (o, c) ← f o c; read_entries n o c end.
End loop.

Definition read_tag (tags : gmap string value) (c : list N) : outcome (gmap string value * list N) :=
  ' (key, c) ← read_string c;
  ' (v, c) ← read_string c;
  Done (<[key := VString v]> tags, c).

Definition u64_to_i64 (n : N) : Z := if (n <? 9223372036854775808)%N then Z.of_N n else Z.of_N n - 18446744073709551616.

(** A field of an unknown kind is logged and left out. *)
Definition read_field (fields : gmap string value) (c : list N) : outcome (gmap string value * list N) :=
  ' (key, c) ← read_string c;
  ' (kind, c) ← read 1 c;
  if (kind =? TYPE_I64)%N then ' (n, c) ← read 8 c; Done (<[key := from_i64 (u64_to_i64 n)]> fields, c)
  else if (kind =? TYPE_F64)%N then ' (n, c) ← read 8 c; Done (<[key := VStatic (SF64 (f64_from_bits n))]> fields, c)
  else if (kind =? TYPE_STRING)%N then ' (s, c) ← read_string c; Done (<[key := VString s]> fields, c)
  else if (kind =? TYPE_TRUE)%N then Done (<[key := static_bool true]> fields, c)
  else if (kind =? TYPE_FALSE)%N then Done (<[key := static_bool false]> fields, c)
  else Done (fields, c).

Definition decode (data : list N) : outcome value :=
  ' (vsn, c) ← read 2 data;
  if negb (vsn =? 0)%N then Failed "invalid version"
  else
    ' (measurement, c) ← read_string c;
    ' (timestamp, c) ← read 8 c;
    ' (tag_count, c) ← read 2 c;
    ' (tags, c) ← read_entries read_tag (N.to_nat tag_count) ∅ c;
    ' (field_count, c) ← read 2 c;
    ' (fields, c) ← read_entries read_field (N.to_nat field_count) ∅ c;
    Done (Influx.line_value measurement tags fields timestamp).

(** ** Lines are read back *)
Section roundtrip.
Context `{!value_trait, !hash_order string}.

Lemma read_bytes n v rest : (v < 256 ^ N.of_nat n)%N → read n (be_bytes n v ++ rest) = Done (v, rest).
Proof.
  intros Hv. unfold read. rewrite length_app, length_be_bytes, (proj2 (Nat.leb_le _ _)) by lia.
  rewrite take_app_length', drop_app_length' by (symmetry; apply length_be_bytes). by rewrite be_value_bytes.
Qed.

Lemma write_len_Done n msg b : write_len n msg = Done b → (N.of_nat n < 65536)%N ∧ b = be_bytes 2 (N.of_nat n).
Proof. unfold write_len. destruct (N.ltb_spec (N.of_nat n) 65536); [|done]. by intros [= <-]. Qed.

Lemma read_kind k c : read 1 (k :: c) = Done (k, c).
Proof. done. Qed.

Lemma read_len n msg b rest : write_len n msg = Done b → read 2 (b ++ rest) = Done (N.of_nat n, rest).
Proof. intros [Hn ->]%write_len_Done. by apply read_bytes. Qed.

Lemma read_written_string s b rest : write_str s = Done b → read_string (b ++ rest) = Done (s, rest).
Proof.
  unfold write_str. destruct (write_len _ _) as [l| |] eqn:Hl; [|done..]. cbn. intros [= <-]. unfold read_string.
  rewrite <-app_assoc, (read_len _ _ _ _ Hl). cbn. rewrite Nat2N.id, length_app, (proj2 (Nat.leb_le _ _)) by lia.
  by rewrite take_app_length, drop_app_length, to_str_as_bytes.
Qed.

Lemma read_entries_written (write : string * value → outcome (list N))
    (f : gmap string value → list N → outcome (gmap string value * list N)) (g : value → value) l b o rest :
  (∀ o kv b rest, kv ∈ l → write kv = Done b → f o (b ++ rest) = Done (Influx.insert_entry g o kv, rest)) →
  write_all write l = Done b →
  read_entries f (length l) o (b ++ rest) = Done (foldl (Influx.insert_entry g) o l, rest).
Proof.
  revert b o. induction l as [|kv l IH]; intros b o Hf; cbn [write_all].
  - by intros [= <-].
  - destruct (write kv) as [b1| |] eqn:Hkv; [|done..]. cbn. destruct (write_all write l) as [b2| |] eqn:Hl; [|done..].
    cbn. intros [= <-]. rewrite <-app_assoc, (Hf _ kv) by (done || constructor). cbn. apply IH; [|done].
    intros o' kv' b' rest' Hin. apply Hf. by constructor.
Qed.

Lemma read_written_tag o k s b rest :
  write_tag (k, VString s) = Done b → read_tag o (b ++ rest) = Done (<[k := VString s]> o, rest).
Proof.
  unfold write_tag. cbn. destruct (write_str k) as [bk| |] eqn:Hk; [|done..]. cbn.
  destruct (write_str s) as [bs| |] eqn:Hs; [|done..]. cbn. intros [= <-]. unfold read_tag.
  rewrite <-app_assoc, (read_written_string _ _ _ Hk). cbn. by rewrite (read_written_string _ _ _ Hs).
Qed.

(** The values of fields that can be written; integers are read as signed
    ones. *)
Definition value_ok (v : value) : Prop :=
  match v with
  | VString _ | VStatic (SBool _) => True
  | VStatic (SU64 n) => (Z.of_N n ≤ i64_top)%Z
  | VStatic (SI64 z) => (i64_bot ≤ z ≤ i64_top)%Z
  | VStatic (SF64 f) => finite f = true
  | _ => False
  end.
Definition as_read (v : value) : value :=
  match v with VStatic (SU64 n) => VStatic (SI64 (Z.of_N n)) | v => v end.

Lemma i64_roundtrip z : (i64_bot ≤ z ≤ i64_top)%Z → u64_to_i64 (i64_to_u64 z) = z ∧ (i64_to_u64 z < 256 ^ 8)%N.
Proof.
  unfold i64_bot, i64_top, u64_to_i64, i64_to_u64. intros Hz.
  assert (z mod 18446744073709551616 = if z <? 0 then z + 18446744073709551616 else z)%Z as ->.
  { destruct (Z.ltb_spec z 0); [|by rewrite Z.mod_small by lia].
    symmetry. apply Z.mod_unique_pos with (-1)%Z; lia. }
  destruct (Z.ltb_spec z 0); match goal with |- context [(?a <? 9223372036854775808)%N] =>
    destruct (N.ltb_spec a 9223372036854775808) end; lia.
Qed.

Lemma read_written_field o k v b rest :
  value_ok v → write_field (k, v) = Done b → read_field o (b ++ rest) = Done (<[k := as_read v]> o, rest).
Proof.
  intros Hv. unfold write_field. cbn [fst snd]. destruct (write_str k) as [bk| |] eqn:Hk; [|done..]. cbn.
  destruct (write_value v) as [bv| |] eqn:Hw; [|done..]. cbn. intros <-%Done_inj. unfold read_field.
  rewrite <-app_assoc, (read_written_string _ _ _ Hk). cbn.
  revert Hw. unfold write_value, as_i64, as_f64. destruct v as [[|t|z|n|f]|s| | |]; cbn [value_ok] in Hv; try done.
  - rewrite static_as_i64_other, static_as_f64_spec by done. cbn [as_bool]. by destruct t; intros <-%Done_inj.
  - rewrite static_as_i64_i64. intros <-%Done_inj. destruct (i64_roundtrip z Hv) as [Hr Hlt].
    cbn [app]. rewrite read_kind. cbn [mbind outcome_bind]. rewrite N.eqb_refl, (read_bytes 8) by done.
    cbn [mbind outcome_bind]. by rewrite Hr.
  - rewrite static_as_i64_u64, (proj2 (Z.leb_le _ _)) by done. intros <-%Done_inj.
    destruct (i64_roundtrip (Z.of_N n)) as [Hr Hlt]; [unfold i64_bot; lia|].
    cbn [app]. rewrite read_kind. cbn [mbind outcome_bind]. rewrite N.eqb_refl, (read_bytes 8) by done.
    cbn [mbind outcome_bind]. by rewrite Hr.
  - rewrite static_as_i64_other, static_as_f64_spec by done. intros <-%Done_inj.
    cbn [app]. rewrite read_kind. cbn [mbind outcome_bind].
    rewrite (proj2 (N.eqb_neq TYPE_F64 TYPE_I64)), N.eqb_refl, (read_bytes 8) by (done || by apply f64_to_bits_ok).
    cbn [mbind outcome_bind]. by rewrite f64_bits_roundtrip.
  - cbn [as_bool as_str]. destruct (write_str s) as [bs| |] eqn:Hs; [|done..]. intros <-%Done_inj.
    cbn [app]. rewrite read_kind. cbn [mbind outcome_bind].
    rewrite (proj2 (N.eqb_neq TYPE_STRING TYPE_I64)), (proj2 (N.eqb_neq TYPE_STRING TYPE_F64)), N.eqb_refl by done.
    by rewrite (read_written_string _ _ _ Hs).
Qed.

Lemma read_written_entries msg (write : string * value → outcome (list N))
    (f : gmap string value → list N → outcome (gmap string value * list N)) (g : value → value)
    (m : gmap string value) b rest :
  (∀ o k v b rest, m !! k = Some v → write (k, v) = Done b → f o (b ++ rest) = Done (<[k := g v]> o, rest)) →
  write_entries msg write (Some (VObject m)) = Done b →
  ∃ n c, read 2 (b ++ rest) = Done (n, c) ∧ read_entries f (N.to_nat n) ∅ c = Done (g <$> m, rest).
Proof.
  intros Hf. unfold write_entries. cbn [mbind option_bind as_object].
  destruct (write_len _ _) as [bn| |] eqn:Hn; [|done..]. cbn [mbind outcome_bind].
  destruct (write_all _ _) as [bl| |] eqn:Hl; [|done..]. intros <-%Done_inj.
  exists (N.of_nat (size m)), (bl ++ rest). rewrite <-app_assoc, (read_len _ _ _ _ Hn). split; [done|].
  assert (length (hash_iter m) = size m) as <- by by rewrite hash_iter_perm, length_map_to_list.
  rewrite Nat2N.id, (read_entries_written write f g _ bl); [| |done].
  - by rewrite (Influx.foldl_entries _ m) by apply hash_iter_perm.
  - intros o [k v] b r Hkv. apply Hf, elem_of_map_to_list. by rewrite <-hash_iter_perm.
Qed.

(** What is encoded is decoded as the same line, whatever order the tags
    and fields are stored in: all tags are strings, integers come back as
    signed ones. *)
Theorem binflux_roundtrip m (tags : gmap string string) (fields : gmap string value) timestamp data :
  map_Forall (λ _ v, value_ok v) fields → u64_ok timestamp →
  encode (Influx.line_value m (VString <$> tags) fields timestamp) = Done data →
  decode data = Done (Influx.line_value m (VString <$> tags) (as_read <$> fields) timestamp).
Proof.
  intros Hf Ht. unfold encode, get_str, get_u64.
  destruct (Influx.line_value_get m (VString <$> tags) fields timestamp) as (-> & -> & -> & ->).
  cbn [mbind option_bind as_str]. destruct (write_str m) as [bm| |] eqn:Hm; [|done..]. cbn [mbind outcome_bind].
  unfold as_u64. rewrite static_as_u64_u64.
  destruct (write_entries _ write_tag _) as [bt| |] eqn:Hbt; [|done..]. cbn [mbind outcome_bind].
  destruct (write_entries _ write_field _) as [bf| |] eqn:Hbf; [|done..]. cbn [mbind outcome_bind].
  intros <-%Done_inj. unfold decode. rewrite (read_bytes 2) by done. cbn [mbind outcome_bind N.eqb negb].
  rewrite (read_written_string _ _ _ Hm). cbn [mbind outcome_bind]. rewrite (read_bytes 8) by done.
  cbn [mbind outcome_bind].
  destruct (read_written_entries "too many tags" write_tag read_tag id (VString <$> tags) bt bf)
    as (n & c & Hn & Hr); [|exact Hbt|].
  { intros o k v b r Hk. rewrite lookup_fmap_Some in Hk. destruct Hk as (s & <- & _). apply read_written_tag. }
  rewrite Hn. cbn [mbind outcome_bind]. rewrite Hr. cbn [mbind outcome_bind].
  destruct (read_written_entries "too many fields" write_field read_field as_read fields bf [])
    as (n' & c' & Hn' & Hr'); [|exact Hbf|].
  { intros o k v b r Hk. apply read_written_field. by eapply Hf. }
  rewrite app_nil_r in Hn'. rewrite Hn'. cbn [mbind outcome_bind]. rewrite Hr'. cbn [mbind outcome_bind].
  by rewrite map_fmap_id.
Qed.
End roundtrip.

Module BInfluxExample.
#[local] Existing Instance simd_value_trait.
#[local] Instance order : hash_order string := some_order string.

Definition tags : gmap string string := {["location" := "here"]}.
Definition fields : gmap string value :=
  {["b" := VStatic (SBool true); "i" := VStatic (SI64 (-82)); "u" := VStatic (SU64 82);
    "s" := VString "text"; "f" := VStatic (SF64 (S754_finite true 4503599627370497 (-52)))]}.
Definition data : list N :=
  match encode (Influx.line_value "weather" (VString <$> tags) fields 5) with Done d => d | _ => [] end.

Lemma binflux_roundtrip_witness :
  length data = 89%nat ∧
  decode data = Done (Influx.line_value "weather" (VString <$> tags) (as_read <$> fields) 5).
Proof.
  split; [by vm_compute|]. apply binflux_roundtrip.
  - intros k v Hk. unfold fields in Hk.
    repeat (apply lookup_insert_Some in Hk as [[<- <-]|[_ Hk]]; [by vm_compute|]).
    apply lookup_singleton_Some in Hk as [<- <-]. by vm_compute.
  - done.
  - by vm_compute.
Defined.

(** A tag that is no string is counted but not written: what is encoded
    cannot be decoded. *)
Example counted_tag :
  encode (Influx.line_value "m" {["a" := VStatic SNull]} ∅ 5) ≫= decode = Failed "failed to fill whole buffer".
Proof. by vm_compute. Qed.

(** Data that ends inside a string panics. *)
Example cut_string : decode [0; 0; 0; 5; 97]%N = Panic.
Proof. by vm_compute. Qed.
End BInfluxExample.
End BInflux.
