(* ===== verification/Statsd.v ===== *)
(** The statsd format: src/codec/statsd.rs. *)
From Stdlib Require Import Floats.SpecFloat.
From S2P Require Import Prelude Value ValueOrd Text ScriptOps.

Module Statsd.

Definition negative (f : f64) : bool :=
  match f with S754_zero s | S754_infinity s | S754_finite s _ _ => s | S754_nan => false end.

(** The standard library reads what is written, also with a sign in front;
    only negative floats are written with one. *)
Class float_parser `{!numbers} := {
  parse_float : list N → option f64;
  parse_float_written f : finite f = true → parse_float (write_f64 f) = Some f;
  parse_float_plus f : finite f = true → negative f = false → parse_float (43%N :: write_f64 f) = Some f;
  parse_float_minus f : finite f = true → negative f = false → parse_float (45%N :: write_f64 f) = Some (SFopp f);
  write_f64_sign f c l : finite f = true → negative f = false → write_f64 f = c :: l → c ≠ 43%N ∧ c ≠ 45%N;
}.

(** [str::parse::<i64>] *)
Definition parse_int (s : list N) : option Z :=
  let '(negative, s) :=
    match s with
    | c :: s' => if (c =? 45)%N then (true, s') else if (c =? 43)%N then (false, s') else (false, s)
    | [] => (false, [])
    end in
  if bool_decide (s = []) then None
  else
    n ← undigits 0 s;
    let z := if negative : bool then (- Z.of_N n)%Z else Z.of_N n in
    if (i64_bot <=? z)%Z && (z <=? i64_top)%Z then Some z else None.

Section statsd.
Context `{!numbers, !float_parser, !value_trait}.

Definition invalid : error := EMsg "Invalid statsd metric".

(** ** Encoding *)
Definition is_number (v : value) : bool :=
  match v with VStatic (SI64 _ | SU64 _ | SF64 _) => true | _ => false end.

(** [Writable::encode] of a number *)
Definition write_number (v : value) : list N :=
  match v with
  | VStatic (SI64 z) => write_i64 z
  | VStatic (SU64 n) => decimal n
  | VStatic (SF64 f) => write_f64 f
  | _ => []
  end.

Definition encode (v : value) : result (list N) :=
  metric ← ok_or (get_str v "metric") invalid;
  t ← ok_or (get_str v "type") invalid;
  val ← ok_or (value_get v "value") invalid;
  if negb (is_number val) then Err invalid
  else
    let action :=
      if String.eqb t "g" then
        match get_str v "action" with
        | Some a => if String.eqb a "add" then [43%N] else if String.eqb a "sub" then [45%N] else []
        | None => []
        end
      else [] in
    rate ← match value_get v "sample_rate" with
           | Some r => if is_number r then Ok ([124; 64]%N ++ write_number r) else Err invalid
           | None => Ok []
           end;
    Ok (as_bytes metric ++ [58] ++ action ++ write_number val ++ [124] ++ as_bytes t ++ rate)%N.

(** ** Decoding *)
Fixpoint split_at (c : N) (s : list N) : option (list N * list N) :=
  match s with
  | [] => None
  | d :: s => if (d =? c)%N then Some ([], s) else prod_map (cons d) id <$> split_at c s
  end.

(** [substr] *)
Definition substr (raw : list N) : result (list N) :=
  if utf8_ok raw then Ok raw else Err (EMsg "invalid utf-8").

Inductive sign := Plus | Minus | NoSign.
Definition peek_sign (s : list N) : sign :=
  match s with
  | c :: _ => if (c =? 43)%N then Plus else if (c =? 45)%N then Minus else NoSign
  | [] => NoSign
  end.

Definition read_value (raw : list N) : result value :=
  s ← substr raw;
  if bool_decide (46%N ∈ s) then f ← ok_or (parse_float s) (EMsg "invalid float literal"); Ok (VStatic (SF64 f))
  else z ← ok_or (parse_int s) (EMsg "invalid digit found in string"); Ok (from_i64 z).

(** The negation of [i64] wraps. *)
Definition negate (v : value) : result value :=
  match as_i64 v with
  | Some z => Ok (from_i64 (i64_wrap (- z)))
  | None => match as_f64 v with Some f => Ok (VStatic (SF64 (SFopp f))) | None => Err invalid end
  end.

(** The type, the action, the value and the rest. *)
Definition read_type (s : sign) (v : value) (d : list N) : result (string * option string * value * list N) :=
  match d with
  | [] => Err invalid
  | i :: d =>
    if bool_decide (i ∈ [99; 104; 115]%N) then Ok (to_str [i], None, v, d)
    else if (i =? 109)%N then
      match d with
      | j :: d => if (j =? 115)%N then Ok ("ms"%string, None, v, d) else Err invalid
      | [] => Err invalid
      end
    else if (i =? 103)%N then
      match s with
      | Plus => Ok ("g"%string, Some "add"%string, v, d)
      | Minus => v ← negate v; Ok ("g"%string, Some "sub"%string, v, d)
      | NoSign => Ok ("g"%string, None, v, d)
      end
    else Err invalid
  end.

Definition read_rate (d : list N) : result (option f64) :=
  match d with
  | [] => Ok None
  | c :: d =>
    if (c =? 124)%N then
      match d with
      | c :: s =>
        if (c =? 64)%N then s ← substr s; f ← ok_or (parse_float s) (EMsg "invalid float literal"); Ok (Some f)
        else Err invalid
      | [] => Err invalid
      end
    else Err invalid
  end.

Definition metric_value (metric t : string) (action : option string) (rate : option f64) (v : value) : value :=
  let m := {["metric" := VString metric]} in
  let m := match action with Some a => <["action" := VString a]> m | None => m end in
  let m := <["type" := VString t]> m in
  let m := match rate with Some f => <["sample_rate" := VStatic (SF64 f)]> m | None => m end in
  VObject (<["value" := v]> m).

Definition decode (data : list N) : result value :=
  ' (raw, d) ← ok_or (split_at 58 data) invalid;
  metric ← substr raw;
  let s := peek_sign d in
  ' (raw, d) ← ok_or (split_at 124 d) invalid;
  v ← read_value raw;
  ' (t, action, v, d) ← read_type s v d;
  rate ← read_rate d;
  Ok (metric_value (to_str metric) t action rate v).

(** ** Metrics are read back *)
Lemma split_at_app c l r : c ∉ l → split_at c (l ++ c :: r) = Some (l, r).
Proof.
  induction l as [|d l IH]; cbn; [by rewrite N.eqb_refl|]. intros [Hd Hl]%not_elem_of_cons.
  rewrite (proj2 (N.eqb_neq _ _)) by done. by rewrite IH.
Qed.

Lemma utf8_float l : Forall float_char l → utf8_ok l = true.
Proof.
  induction 1 as [|c l Hc Hl IH]; [done|]. unfold float_char in Hc. cbn [utf8_ok].
  by rewrite (proj2 (N.ltb_lt _ _)) by lia.
Qed.

Definition int_char (c : N) : Prop := (48 ≤ c ≤ 57 ∨ c = 43 ∨ c = 45)%N.
Lemma int_float l : Forall int_char l → Forall float_char l.
Proof. intros Hl. eapply Forall_impl; [exact Hl|]. unfold int_char, float_char. lia. Qed.

Lemma read_value_int s z : Forall int_char s → parse_int s = Some z → read_value s = Ok (from_i64 z).
Proof.
  intros Hs Hz. unfold read_value, substr. rewrite utf8_float by (by apply int_float). cbn [mbind result_bind].
  rewrite bool_decide_false; [by rewrite Hz|]. rewrite Forall_forall in Hs. intros Hin. specialize (Hs _ Hin).
  unfold int_char in Hs. lia.
Qed.

Lemma read_value_float s f : Forall float_char s → 46%N ∈ s → parse_float s = Some f → read_value s = Ok (VStatic (SF64 f)).
Proof.
  intros Hs Hin Hf. unfold read_value, substr. rewrite utf8_float by done. cbn [mbind result_bind].
  by rewrite bool_decide_true, Hf.
Qed.

Lemma decimal_head n : ∃ c l, decimal n = c :: l ∧ (48 ≤ c ≤ 57)%N.
Proof.
  pose proof (decimal_chars n) as Hd. pose proof (decimal_nonempty n). destruct (decimal n) as [|c l]; [done|].
  exists c, l. split; [done|]. by apply Forall_cons in Hd as [Hc _].
Qed.

Definition int_ok (z : Z) : Prop := (i64_bot ≤ z ≤ i64_top)%Z.
Lemma parse_int_signed (c : N) n z :
  c = 43%N ∧ z = Z.of_N n ∨ c = 45%N ∧ z = (- Z.of_N n)%Z → int_ok z → parse_int (c :: decimal n) = Some z.
Proof.
  intros Hc Hz. unfold parse_int.
  destruct Hc as [[-> ->]|[-> ->]]; cbn [N.eqb Pos.eqb]; rewrite bool_decide_false, undigits_decimal by apply decimal_nonempty.
  all: cbn [mbind option_bind]; rewrite (proj2 (Z.leb_le _ _)), (proj2 (Z.leb_le _ _)) by (unfold int_ok in Hz; lia); done.
Qed.
Lemma parse_int_decimal n : int_ok (Z.of_N n) → parse_int (decimal n) = Some (Z.of_N n).
Proof.
  intros Hz. unfold parse_int. destruct (decimal_head n) as (c & l & Hn & Hc). rewrite Hn at 1.
  rewrite (proj2 (N.eqb_neq c 45)), (proj2 (N.eqb_neq c 43)) by lia.
  rewrite bool_decide_false, undigits_decimal by apply decimal_nonempty.
  cbn [mbind option_bind]. by rewrite (proj2 (Z.leb_le _ _)), (proj2 (Z.leb_le _ _)) by (unfold int_ok in Hz; lia).
Qed.
Lemma parse_int_written z : int_ok z → parse_int (write_i64 z) = Some z.
Proof.
  intros Hz. unfold write_i64. destruct (Z.ltb_spec z 0).
  - apply parse_int_signed; [right; split; [done|lia]|done].
  - rewrite parse_int_decimal by (unfold int_ok in *; lia). f_equal. lia.
Qed.

Lemma decimal_int n : Forall int_char (decimal n).
Proof. eapply Forall_impl; [apply decimal_chars|]. intros c Hc. by left. Qed.
Lemma write_i64_int z : Forall int_char (write_i64 z).
Proof. unfold write_i64. destruct (z <? 0)%Z; [constructor; [unfold int_char; lia|]|]; apply decimal_int. Qed.

(** The numbers that are read back: a float needs a point. *)
Definition number_ok (v : value) : Prop :=
  match v with
  | VStatic (SI64 z) => int_ok z
  | VStatic (SU64 n) => int_ok (Z.of_N n)
  | VStatic (SF64 f) => finite f = true ∧ 46%N ∈ write_f64 f
  | _ => False
  end.
Definition negative_number (v : value) : bool :=
  match v with VStatic (SI64 z) => (z <? 0)%Z | VStatic (SF64 f) => negative f | _ => false end.
(** Integers are read as signed ones. *)
Definition as_read (v : value) : value :=
  match v with VStatic (SU64 n) => VStatic (SI64 (Z.of_N n)) | v => v end.

Lemma write_u64 n : decimal n = write_i64 (Z.of_N n).
Proof. unfold write_i64. rewrite (proj2 (Z.ltb_ge _ _)) by lia. by rewrite N2Z.id. Qed.

Lemma read_written_number v : number_ok v → read_value (write_number v) = Ok (as_read v).
Proof.
  destruct v as [[| |z|n|f]| | | |]; try done; cbn [number_ok write_number as_read].
  - intros Hz. apply read_value_int; [apply write_i64_int|by apply parse_int_written].
  - intros Hn. rewrite write_u64. apply read_value_int; [apply write_i64_int|by apply parse_int_written].
  - intros [Hf Hp]. apply read_value_float; [by apply write_f64_chars|done|by apply parse_float_written].
Qed.

(** *** Signs *)
Definition action_bytes (action : option string) : list N :=
  match action with Some a => if String.eqb a "add" then [43%N] else if String.eqb a "sub" then [45%N] else [] | None => [] end.

Lemma number_chars v : number_ok v → Forall float_char (write_number v).
Proof.
  destruct v as [[| |z|n|f]| | | |]; try done; cbn [number_ok write_number].
  - intros _. apply int_float, write_i64_int.
  - intros _. apply int_float, decimal_int.
  - intros [Hf _]. by apply write_f64_chars.
Qed.

Lemma read_plus v : number_ok v → negative_number v = false → read_value (43%N :: write_number v) = Ok (as_read v).
Proof.
  destruct v as [[| |z|n|f]| | | |]; try done; cbn [number_ok write_number as_read negative_number].
  - intros Hz Hs%Z.ltb_ge. apply read_value_int; [constructor; [unfold int_char; lia|apply write_i64_int]|].
    unfold write_i64. rewrite (proj2 (Z.ltb_ge _ _)) by done. apply parse_int_signed; [left; split; [done|lia]|done].
  - intros Hn _. apply read_value_int; [constructor; [unfold int_char; lia|apply decimal_int]|].
    by apply parse_int_signed; [left|].
  - intros [Hf Hp] Hs. apply read_value_float; [constructor; [unfold float_char; lia|by apply write_f64_chars]|by right|].
    by apply parse_float_plus.
Qed.

Lemma i64_wrap_id z : int_ok z → i64_wrap z = z.
Proof. unfold int_ok, i64_wrap, i64_bot, i64_top. intros Hz. rewrite Z.mod_small by lia. lia. Qed.

Lemma negate_int z : int_ok z → negate (from_i64 (- z)) = Ok (from_i64 z).
Proof. intros Hz. unfold negate, from_i64, as_i64. rewrite static_as_i64_i64, Z.opp_involutive. by rewrite i64_wrap_id. Qed.
Lemma negate_float f : negate (VStatic (SF64 (SFopp f))) = Ok (VStatic (SF64 f)).
Proof.
  unfold negate, as_i64, as_f64. rewrite static_as_i64_other, static_as_f64_spec by done.
  destruct f; cbn; by rewrite ?negb_involutive.
Qed.

Lemma read_minus v : number_ok v → negative_number v = false →
  ∃ v', read_value (45%N :: write_number v) = Ok v' ∧ negate v' = Ok (as_read v).
Proof.
  destruct v as [[| |z|n|f]| | | |]; try done; cbn [number_ok write_number as_read negative_number].
  - intros Hz Hs%Z.ltb_ge. exists (from_i64 (- z)). split; [|by apply negate_int].
    apply read_value_int; [constructor; [unfold int_char; lia|apply write_i64_int]|].
    unfold write_i64. rewrite (proj2 (Z.ltb_ge _ _)) by done.
    apply parse_int_signed; [right; split; [done|lia]|unfold int_ok, i64_bot, i64_top in *; lia].
  - intros Hn _. exists (from_i64 (- Z.of_N n)). split; [|by apply negate_int].
    apply read_value_int; [constructor; [unfold int_char; lia|apply decimal_int]|].
    apply parse_int_signed; [by right|unfold int_ok, i64_bot, i64_top in *; lia].
  - intros [Hf Hp] Hs. exists (VStatic (SF64 (SFopp f))). split; [|apply negate_float].
    apply read_value_float; [constructor; [unfold float_char; lia|by apply write_f64_chars]|by right|].
    by apply parse_float_minus.
Qed.

Lemma number_sign v x : number_ok v → negative_number v = false → peek_sign (write_number v ++ x) = NoSign.
Proof.
  assert (∀ n, peek_sign (decimal n ++ x) = NoSign) as Hd.
  { intros n. destruct (decimal_head n) as (c & l & -> & Hc). cbn.
    by rewrite (proj2 (N.eqb_neq c 43)), (proj2 (N.eqb_neq c 45)) by lia. }
  destruct v as [[| |z|n|f]| | | |]; try done; cbn [number_ok write_number negative_number].
  - intros _ Hs%Z.ltb_ge. unfold write_i64. by rewrite (proj2 (Z.ltb_ge _ _)).
  - done.
  - intros [Hf Hp] Hs. pose proof (write_f64_nonempty f Hf). destruct (write_f64 f) as [|c l] eqn:Hw; [done|].
    destruct (write_f64_sign f c l) as [Hp1 Hp2]; [done..|]. cbn.
    by rewrite (proj2 (N.eqb_neq c 43)), (proj2 (N.eqb_neq c 45)).
Qed.

(** *** Metrics *)
Definition type_ok (t : string) (action : option string) (v : value) : Prop :=
  t ∈ ["c"; "h"; "s"; "ms"]%string ∧ action = None ∨
  t = "g"%string ∧ negative_number v = false ∧ action ∈ [None; Some "add"; Some "sub"]%string.

Definition rate_bytes (rate : option f64) : list N :=
  match rate with Some f => [124; 64]%N ++ write_f64 f | None => [] end.

Lemma read_rate_written rate :
  (∀ f, rate = Some f → finite f = true) → read_rate (rate_bytes rate) = Ok rate.
Proof.
  intros Hr. destruct rate as [f|]; [|done]. specialize (Hr f eq_refl). cbn. unfold substr.
  rewrite utf8_float by (by apply write_f64_chars). cbn. by rewrite parse_float_written.
Qed.

(** The sign, the number and the type. *)
Lemma read_action t action v x :
  number_ok v → type_ok t action v →
  ∃ v', read_value ((if String.eqb t "g" then action_bytes action else []) ++ write_number v) = Ok v' ∧
    read_type (peek_sign ((if String.eqb t "g" then action_bytes action else []) ++ write_number v ++ [124%N] ++ as_bytes t ++ x))
      v' (as_bytes t ++ x) = Ok (t, action, as_read v, x).
Proof.
  intros Hv [[Ht ->]|(-> & Hs & Ha)].
  - exists (as_read v). set_unfold.
    destruct Ht as [-> |[-> |[-> |[-> |[]]]]]; cbn; (split; [by apply read_written_number|done]).
  - set_unfold. destruct Ha as [-> |[-> |[-> |[]]]]; cbn [String.eqb Ascii.eqb Bool.eqb action_bytes app].
    + exists (as_read v). split; [by apply read_written_number|]. by rewrite number_sign.
    + exists (as_read v). split; [by apply read_plus|]. done.
    + destruct (read_minus v Hv Hs) as (v' & Hv' & Hn). exists v'. split; [done|]. cbn. by rewrite Hn.
Qed.

Lemma metric_value_get metric t action rate v :
  get_str (metric_value metric t action rate v) "metric" = Some metric ∧
  get_str (metric_value metric t action rate v) "type" = Some t ∧
  value_get (metric_value metric t action rate v) "value" = Some v ∧
  get_str (metric_value metric t action rate v) "action" = action ∧
  value_get (metric_value metric t action rate v) "sample_rate" = (λ f, VStatic (SF64 f)) <$> rate.
Proof. unfold get_str. rewrite !value_get_spec. destruct action, rate; by cbn; simplify_map_eq. Qed.

(** A metric that is encoded is decoded as the same metric, with its
    type, value, action and sample rate; integers come back as signed ones.
    Floats are written with a point, the value of a gauge is not negative. *)
Theorem statsd_roundtrip metric t action rate v :
  utf8_ok (as_bytes metric) = true → 58%N ∉ as_bytes metric → number_ok v → type_ok t action v →
  (∀ f, rate = Some f → finite f = true) →
  ∃ data, encode (metric_value metric t action rate v) = Ok data ∧
    decode data = Ok (metric_value metric t action rate (as_read v)).
Proof.
  intros Hm Hc Hv Ht Hr. pose proof (metric_value_get metric t action rate v) as (G1 & G2 & G3 & G4 & G5).
  set (sgn := if String.eqb t "g" then action_bytes action else []).
  exists (as_bytes metric ++ [58%N] ++ sgn ++ write_number v ++ [124%N] ++ as_bytes t ++ rate_bytes rate). split.
  - unfold encode. rewrite G1, G2, G3, G4, G5. cbn [ok_or mbind result_bind].
    replace (is_number v) with true by (by destruct v as [[]| | | |]). cbn [negb]. by destruct rate.
  - destruct (read_action t action v (rate_bytes rate) Hv Ht) as (v' & Hv' & Ht').
    fold sgn in Hv', Ht'.
    unfold decode. cbn [app]. rewrite (split_at_app 58) by done. cbn [ok_or mbind result_bind].
    unfold substr at 1. rewrite Hm. cbn [mbind result_bind]. rewrite (app_assoc sgn), (split_at_app 124).
    2: { intros [Hin|Hin]%elem_of_app.
         - subst sgn. unfold action_bytes in Hin. repeat case_match; set_unfold; naive_solver.
         - pose proof (number_chars v Hv) as Hf. rewrite Forall_forall in Hf. specialize (Hf _ Hin).
           unfold float_char in Hf. lia. }
    cbn [ok_or mbind result_bind]. rewrite Hv'. cbn [mbind result_bind]. rewrite <-app_assoc.
    change (124%N :: as_bytes t ++ rate_bytes rate) with ([124%N] ++ as_bytes t ++ rate_bytes rate).
    rewrite Ht'. cbn [mbind result_bind]. rewrite read_rate_written by done. cbn [mbind result_bind].
    by rewrite to_str_as_bytes.
Qed.
End statsd.

Module StatsdExample.
#[local] Existing Instance simd_value_trait.

Definition bits_signed (s : list N) : option f64 :=
  match s with
  | c :: s' =>
    if (c =? 45)%N then SFopp <$> parse_f64 s' else if (c =? 43)%N then parse_f64 s' else parse_f64 s
  | [] => None
  end.
#[local] Program Instance bits_float : float_parser := {| parse_float := bits_signed |}.
Next Obligation.
  intros f Hf. pose proof (decimal_head (f64_to_bits f)) as (c & l & He & Hc).
  change (bits_signed (decimal (f64_to_bits f)) = Some f). unfold bits_signed. rewrite He.
  rewrite (proj2 (N.eqb_neq c 45)), (proj2 (N.eqb_neq c 43)) by lia. rewrite <-He. exact (@parse_f64_written bit_numbers f Hf).
Qed.
Next Obligation. intros f Hf _. exact (@parse_f64_written bit_numbers f Hf). Qed.
Next Obligation.
  intros f Hf _. change (SFopp <$> @parse_f64 bit_numbers (@write_f64 bit_numbers f) = Some (SFopp f)).
  by rewrite (@parse_f64_written bit_numbers f).
Qed.
Next Obligation.
  intros f c l _ _ He. pose proof (decimal_head (f64_to_bits f)) as (c' & l' & He' & Hc).
  change (decimal (f64_to_bits f) = c :: l) in He. rewrite He in He'. injection He' as -> _. lia.
Qed.

Definition text (r : result (list N)) : string := match r with Ok l => to_str l | Err _ => "error" end.

Lemma statsd_roundtrip_witness :
  text (encode (metric_value "gaugor" "g" (Some "sub") None (VStatic (SU64 333)))) = "gaugor:-333|g"%string ∧
  ∃ data, encode (metric_value "gaugor" "g" (Some "sub") None (VStatic (SU64 333))) = Ok data ∧
    decode data = Ok (metric_value "gaugor" "g" (Some "sub") None (VStatic (SI64 333))).
Proof.
  split; [by vm_compute|]. apply (statsd_roundtrip "gaugor" "g" (Some "sub"%string) None (VStatic (SU64 333))); try done.
  - by apply (bool_decide_unpack _); vm_compute.
  - right. split_and!; [done..|]. by apply (bool_decide_unpack _); vm_compute.
Defined.

(** A negative gauge comes back as a subtraction of a positive value, and
    nothing that is written for an unsigned number above the signed ones is
    read back. *)
Example negative_gauge :
  encode (metric_value "m" "g" None None (VStatic (SI64 (-5)))) ≫= decode =
    Ok (metric_value "m" "g" (Some "sub") None (VStatic (SI64 5))) ∧
  encode (metric_value "m" "c" None None (VStatic (SU64 9223372036854775808))) ≫= decode =
    Err (EMsg "invalid digit found in string").
Proof. by vm_compute. Qed.
End StatsdExample.
End Statsd.
