(* ===== verification/StdLib.v ===== *)
(** Functions of scripts: the registry of tremor-script/src/registry.rs, with
    its macros, and the standard library of std_lib/ (functions on values;
    the aggregates are in [StdAggr]).

    A function is known by its module and its name, says with how many
    arguments it may be called and whether it is constant, and looks at the
    event only through the context.  What other crates do, the random
    numbers, the clock and the tables of upper and lower case are the class
    [std_libs]. *)
From Stdlib Require Import Ascii.
From Stdlib Require Import Floats.SpecFloat.
From S2P Require Import Prelude Value ValueOrd EventIds Event Text ScriptOps.
Local Open Scope string_scope.
Local Open Scope list_scope.

(** ** What functions return *)
Record Mfa := mfa { mfa_m : string; mfa_f : string; mfa_a : N }.

Inductive function_error :=
  | BadArity (m : Mfa) (calling_a : N)
  | RuntimeError (m : Mfa) (error : string)
  | MissingModule (m : string)
  | MissingFunction (m f : string)
  | BadType (m : Mfa)
  | RecursionLimit
  | Error (e : string).

Inductive f_result (A : Type) := FOk (a : A) | FErr (e : function_error).
Arguments FOk {A} a.
Arguments FErr {A} e.

#[export] Instance f_ret : MRet f_result := λ A a, FOk a.
#[export] Instance f_bind : MBind f_result := λ A B f r, match r with FOk a => f a | FErr e => FErr e end.
#[export] Instance f_fmap : FMap f_result := λ A B f r, match r with FOk a => FOk (f a) | FErr e => FErr e end.

(** [to_runtime_error] on what a library returns *)
Definition or_runtime {A} (m : Mfa) (r : io A) : f_result A :=
  match r with IoOk a => FOk a | IoErr e => FErr (RuntimeError m e) end.
Definition or_bad_type {A} (m : Mfa) (o : option A) : f_result A :=
  match o with Some a => FOk a | None => FErr (BadType m) end.

(** [iter().map(..).collect()] of results *)
Fixpoint f_each {A B} (f : A → f_result B) (l : list A) : f_result (list B) :=
  match l with [] => FOk [] | x :: l => y ← f x; ys ← f_each f l; FOk (y :: ys) end.

(** ** The context of an event (ctx.rs)

    What the code reads from the clock of the machine during a call is the
    field [clock] here, nanoseconds since the epoch; the code's context has no
    such field. *)
Record std_context := StdContext {
  at_ : u64;
  origin_uri : option EventOriginUri.t;
  panic_on_assert : bool;
  cardinality : N;
  clock : u64;
}.
Definition new_std_context (ingest_ns : u64) (origin_uri : option EventOriginUri.t) (now : u64) : std_context :=
  StdContext ingest_ns origin_uri false 0 now.

(** ** Functions

    What the macro [tremor_fn_] makes of the argument list: the number of the
    arguments is that of its parameters, or, with types, each argument is of
    the type of its parameter. *)
Record tremor_fn := TremorFn {
  tf_module : string;
  tf_name : string;
  tf_const : bool;
  tf_arity : N * N;
  tf_invoke : std_context → list value → f_result value;
}.
Definition valid_arity (f : tremor_fn) (n : N) : bool := ((tf_arity f).1 <=? n)%N && (n <=? (tf_arity f).2)%N.

Section macros.
Variables (const : bool) (m n : string).
Definition bad_arity (argc : N) (args : list value) : f_result value :=
  FErr (BadArity (mfa m n argc) (N.of_nat (length args))).

Definition fn0 (code : std_context → f_result value) : tremor_fn :=
  TremorFn m n const (0%N, 0%N) (λ ctx args, match args with [] => code ctx | _ => bad_arity 0%N args end).
Definition fn1 (code : std_context → value → f_result value) : tremor_fn :=
  TremorFn m n const (1%N, 1%N) (λ ctx args, match args with [a] => code ctx a | _ => bad_arity 1%N args end).
Definition fn2 (code : std_context → value → value → f_result value) : tremor_fn :=
  TremorFn m n const (2%N, 2%N) (λ ctx args, match args with [a; b] => code ctx a b | _ => bad_arity 2%N args end).
Definition fn3 (code : std_context → value → value → value → f_result value) : tremor_fn :=
  TremorFn m n const (3%N, 3%N) (λ ctx args, match args with [a; b; c] => code ctx a b c | _ => bad_arity 3%N args end).
Definition fn4 (code : std_context → value → value → value → value → f_result value) : tremor_fn :=
  TremorFn m n const (4%N, 4%N) (λ ctx args, match args with [a; b; c; d] => code ctx a b c d | _ => bad_arity 4%N args end).

Context {A B C : Type}.
Definition typed1 (p : value → option A) (code : std_context → A → f_result value) : tremor_fn :=
  fn1 (λ ctx a, match p a with Some a => code ctx a | None => FErr (BadType (mfa m n 1)) end).
Definition typed2 (p : value → option A) (q : value → option B) (code : std_context → A → B → f_result value) : tremor_fn :=
  fn2 (λ ctx a b, match p a, q b with Some a, Some b => code ctx a b | _, _ => FErr (BadType (mfa m n 2)) end).
Definition typed3 (p : value → option A) (q : value → option B) (r : value → option C)
    (code : std_context → A → B → C → f_result value) : tremor_fn :=
  fn3 (λ ctx a b c, match p a, q b, r c with
                    | Some a, Some b, Some c => code ctx a b c
                    | _, _, _ => FErr (BadType (mfa m n 3))
                    end).
End macros.

Definition p_bytes (v : value) : option (list N) := match v with VBytes b => Some b | _ => None end.

(** ** The registry *)
Abbreviation registry := (gmap string (gmap string tremor_fn)) (only parsing).
Definition insert_fn (f : tremor_fn) (r : registry) : registry :=
  match r !! tf_module f with
  | Some module => <[tf_module f := <[tf_name f := f]> module]> r
  | None => <[tf_module f := {[tf_name f := f]}]> r
  end.
Definition find (r : registry) (module function : string) : f_result tremor_fn :=
  match r !! module with
  | None => FErr (MissingModule module)
  | Some functions =>
    match functions !! function with
    | None => FErr (MissingFunction module function)
    | Some f => FOk f
    end
  end.
Definition find_module (r : registry) (module : string) : option (gmap string tremor_fn) := r !! module.
Definition load (fs : list tremor_fn) (r : registry) : registry := foldl (λ r f, insert_fn f r) r fs.

(** ** Characters

    A string is the bytes of its UTF-8 encoding; a character is a byte that
    does not continue one, and those that continue it. *)
Fixpoint chars (s : list N) : list (list N) :=
  match s with
  | [] => []
  | c :: s =>
    match chars s with
    | ((d :: _) as g) :: gs => if continues d then (c :: g) :: gs else [c] :: g :: gs
    | gs => [c] :: gs
    end
  end.

(** [str::replace]; without a pattern in front of every character and at the
    end. *)
Fixpoint replace_from (from to : list N) (skip : nat) (s : list N) : list N :=
  match s with
  | [] => []
  | c :: s' =>
    match skip with
    | S skip => replace_from from to skip s'
    | O =>
      match strip from s with
      | Some _ => to ++ replace_from from to (pred (length from)) s'
      | None => c :: replace_from from to 0 s'
      end
    end
  end.
Definition str_replace (from to s : list N) : list N :=
  match from with
  | [] => to ++ mjoin ((λ c, c ++ to) <$> chars s)
  | _ => replace_from from to 0 s
  end.

(** [str::split] *)
Fixpoint split_from (sep : list N) (skip : nat) (s : list N) : list (list N) :=
  match s with
  | [] => [[]]
  | c :: s' =>
    match skip with
    | S skip => split_from sep skip s'
    | O =>
      match strip sep s with
      | Some _ => [] :: split_from sep (pred (length sep)) s'
      | None =>
        match split_from sep 0 s' with w :: ws => (c :: w) :: ws | [] => [[c]] end
      end
    end
  end.
Definition str_split (sep s : list N) : list (list N) :=
  match sep with
  | [] => [] :: chars s ++ [[]]
  | _ => split_from sep 0 s
  end.

(** [str::contains] *)
Fixpoint str_contains (s p : list N) : bool :=
  bool_decide (is_Some (strip p s)) || match s with [] => false | _ :: s => str_contains s p end.

(** [String::from_utf8_lossy]: what does not belong to a character is replaced,
    a cut character as a whole. *)
Definition replacement : list N := [239; 191; 189]%N.
Definition second_ok (c d : N) : bool :=
  (if c =? 224 then (160 <=? d) && (d <? 192)
   else if c =? 237 then (128 <=? d) && (d <? 160)
   else if c =? 240 then (144 <=? d) && (d <? 192)
   else if c =? 244 then (128 <=? d) && (d <? 144)
   else continues d)%N.
Definition utf8_width (c : N) : nat :=
  if (c <? 128)%N then 1 else if ((194 <=? c) && (c <=? 223))%N then 2
  else if ((224 <=? c) && (c <=? 239))%N then 3 else if ((240 <=? c) && (c <=? 244))%N then 4 else 0.
(** The bytes of the character in front, and whether it is complete. *)
Definition next_char (c : N) (s : list N) : nat * bool :=
  match utf8_width c, s with
  | 1, _ => (1, true)
  | 2, d :: _ => if second_ok c d then (2, true) else (1, false)
  | 3, d :: s =>
    if second_ok c d then
      match s with e :: _ => if continues e then (3, true) else (2, false) | [] => (2, false) end
    else (1, false)
  | 4, d :: s =>
    if second_ok c d then
      match s with
      | e :: s =>
        if continues e then
          match s with f :: _ => if continues f then (4, true) else (3, false) | [] => (3, false) end
        else (2, false)
      | [] => (2, false)
      end
    else (1, false)
  | _, _ => (1, false)
  end.
Fixpoint utf8_lossy (skip : nat) (s : list N) : list N :=
  match s with
  | [] => []
  | c :: s' =>
    match skip with
    | S skip => utf8_lossy skip s'
    | O =>
      let '(n, ok) := next_char c s' in
      (if ok : bool then take n s else replacement) ++ utf8_lossy (pred n) s'
    end
  end.

(** ** Numbers *)

(** [f64::floor] and the like, followed by a conversion to an integer, which
    is exact or saturates. *)
Inductive rounding := Floor | Ceil | Round | Trunc.
Definition round_magnitude (r : rounding) (neg : bool) (m : Z) (e : Z) : Z :=
  if (0 <=? e)%Z then (m * 2 ^ e)%Z
  else
    let d := (2 ^ (- e))%Z in
    match r with
    | Trunc => m / d
    | Floor => if neg then (m + d - 1) / d else m / d
    | Ceil => if neg then m / d else (m + d - 1) / d
    | Round => (2 * m + d) / (2 * d)
    end%Z.
Definition f64_rounded (r : rounding) (f : f64) : Z :=
  match f with
  | S754_zero _ | S754_nan | S754_infinity _ => 0
  | S754_finite s m e => let z := round_magnitude r s (Zpos m) e in if s then (- z)%Z else z
  end.
Definition math_f64 (r : rounding) (f : f64) : value :=
  match f with
  | S754_infinity true => from_i64 i64_bot
  | S754_infinity false => from_u64 (Z.to_N u64_top)
  | f =>
    let z := f64_rounded r f in
    if (z <? 0)%Z then from_i64 (Z.max i64_bot z) else from_u64 (Z.to_N (Z.min u64_top z))
  end.

(** [str::parse] of an [i64]: digits behind an optional sign, read one after
    the other. *)
Fixpoint parse_digits (neg : bool) (acc : Z) (s : list N) : io Z :=
  match s with
  | [] => IoOk acc
  | c :: s =>
    if ((48 <=? c) && (c <=? 57))%N then
      let acc := if neg then (10 * acc - Z.of_N (c - 48))%Z else (10 * acc + Z.of_N (c - 48))%Z in
      if (i64_top <? acc)%Z then IoErr "number too large to fit in target type"
      else if (acc <? i64_bot)%Z then IoErr "number too small to fit in target type"
      else parse_digits neg acc s
    else IoErr "invalid digit found in string"
  end.
Definition parse_i64 (s : list N) : io Z :=
  match s with
  | [] => IoErr "cannot parse integer from empty string"
  | [c] => if ((c =? 43) || (c =? 45))%N then IoErr "invalid digit found in string" else parse_digits false 0 s
  | c :: s' =>
    if (c =? 43)%N then parse_digits false 0 s'
    else if (c =? 45)%N then parse_digits true 0 s'
    else parse_digits false 0 s
  end.
Definition show_N (n : N) : string := to_str (decimal n).
Definition show_nat (n : nat) : string := show_N (N.of_nat n).

(** ** Equality and printing of values

    [PartialEq] of [Value]; objects are equal when they have equal values
    under the same keys. *)
Section value_eq.
Variable static_eqb : static_node → static_node → bool.
Fixpoint value_eq (l r : value) {struct l} : bool :=
  match l, r with
  | VStatic a, VStatic b => static_eqb a b
  | VString a, VString b => String.eqb a b
  | VArray a, VArray b => list_eqb value_eq a b
  | VObject a, VObject b => object_eqb (value_eq <$> a) b
  | VBytes a, VBytes b => bool_decide (a = b)
  | _, _ => false
  end.
End value_eq.

(** ** What other crates and the platform do *)
Class std_libs := {
  static_eqb : static_node → static_node → bool;
  show_static : static_node → string;
  show_debug : value → string;
  show_debug_object : gmap string value → string;
  encode_value : value → string;
  json_decode : string → io value;
  json_encode : value → io string;
  json_encode_pretty : value → io string;
  base64_encode : list N → string;
  base64_decode : string → io (list N);
  percent_decode : string → option string;
  percent_encode : string → string;
  regex : Type;
  regex_new : string → io regex;
  regex_replace : regex → string → string → string;
  regex_replace_all : regex → string → string → string;
  regex_is_match : regex → string → bool;
  regex_split : regex → string → list string;
  jump_slot : u64 → u64 → string → N → N;
  parse_f64 : string → io f64;
  to_lowercase : string → string;
  to_uppercase : string → string;
  char_to_uppercase : list N → list N;
  rng : Type;
  seed_from_u64 : u64 → rng;
  gen_bool : rng → bool;
  gen_i64 : rng → Z;
  gen_f64 : rng → f64;
  gen_range_u64 : rng → N → N → N;
  gen_range_i64 : rng → Z → Z → Z;
  gen_range_f64 : rng → f64 → f64 → f64;
  gen_alphanumeric : rng → N → string;
  naive_datetime : Type;
  from_timestamp : Z → N → naive_datetime;
  dt_year : naive_datetime → Z;
  dt_month : naive_datetime → N;
  dt_day : naive_datetime → N;
  dt_hour : naive_datetime → N;
  dt_minute : naive_datetime → N;
  dt_second : naive_datetime → N;
  dt_nanosecond : naive_datetime → N;
  round_subsecs : naive_datetime → N → naive_datetime;
  format_naive : naive_datetime → string → string;
  format_utc : naive_datetime → string → string;
  parse_naive : string → string → io Z;
  parse_zoned : string → string → io Z;
  utc_midnight : u64 → Z;
  get_hostname : string;
  version : string;
}.

Section std.
Context `{vt : !value_trait, ho : !hash_order string, lb : !std_libs}.

Definition eqv : value → value → bool := value_eq static_eqb.
(** [Display] of [Value] *)
Definition show_value (v : value) : string :=
  match v with
  | VStatic s => show_static s
  | VString s => s
  | VArray a => "[" +:+ String.concat ", " (show_debug <$> a) +:+ "]"
  | VObject o => show_debug_object o
  | VBytes b => "<<[" +:+ String.concat ", " (show_N <$> b) +:+ "]>>"
  end.
Definition of_bytes (b : list N) : value := VString (to_str b).
Definition as_u32 (v : value) : option N := n ← as_u64 v; if (n <? 4294967296)%N then Some n else None.
Definition as_u8 (v : value) : option N := n ← as_u64 v; if (n <? 256)%N then Some n else None.
(** A map of the pairs, a later one replaces an earlier one. *)
Definition collect (l : list (string * value)) : gmap string value := foldl (λ o kv, <[kv.1 := kv.2]> o) ∅ l.

(** ** std_lib/array.rs *)
Definition array_len (_ : std_context) (input : list value) : f_result value := FOk (from_i64 (Z.of_nat (length input))).
Definition array_is_empty (_ : std_context) (input : list value) : f_result value :=
  FOk (static_bool match input with [] => true | _ => false end).
Definition array_contains (_ : std_context) (input contains : value) : f_result value :=
  input ← or_bad_type (mfa "array" "contains" 2) (as_array input);
  FOk (static_bool (existsb (λ x, eqv x contains) input)).
Definition array_push (_ : std_context) (input v : value) : f_result value :=
  input ← or_bad_type (mfa "array" "push" 2) (as_array input); FOk (VArray (input ++ [v])).
Definition unzip_pair (a : value) : f_result (value * value) :=
  match as_array a with
  | Some [first; second] => FOk (first, second)
  | Some l => FErr (RuntimeError (mfa "array" "unzip" 1)
      ("Only arrays that consist of tuples (arrays of two elements) can be unzipped but this array contained "
       +:+ show_nat (length l) +:+ " elements"))
  | None => FErr (RuntimeError (mfa "array" "unzip" 1)
      ("Only arrays that consist of tuples (arrays of two elements) can be unzipped but this array contained: "
       +:+ show_debug a))
  end.
Definition array_unzip (_ : std_context) (input : list value) : f_result value :=
  r ← f_each unzip_pair input; FOk (VArray [VArray r.*1; VArray r.*2]).
Definition array_zip (_ : std_context) (left right : list value) : f_result value :=
  if bool_decide (length left ≠ length right) then
    FErr (RuntimeError (mfa "array" "zip" 2)
      ("Zipping two arrays requires them to have the same length, but the first array provided has "
       +:+ show_nat (length left) +:+ " elements while the second one has " +:+ show_nat (length right) +:+ " elements"))
  else FOk (VArray (zip_with (λ l r, VArray [l; r]) left right)).
Fixpoint flatten_value (v : value) : list value :=
  match v with VArray a => flat_map flatten_value a | v => [v] end.
Definition array_flatten (_ : std_context) (input : value) : f_result value := FOk (VArray (flatten_value input)).
Definition array_join (_ : std_context) (input : list value) (sep : string) : f_result value :=
  FOk (VString (String.concat sep (show_value <$> input))).
Definition array_coalesce (_ : std_context) (input : list value) : f_result value :=
  FOk (VArray (List.filter (λ v, negb (is_null v)) input)).
Definition array_concatenate (_ : std_context) (left right : list value) : f_result value := FOk (VArray (left ++ right)).
Definition array_load : list tremor_fn :=
  [typed1 true "array" "len" as_array array_len;
   typed1 true "array" "is_empty" as_array array_is_empty;
   fn2 true "array" "contains" array_contains;
   fn2 true "array" "push" array_push;
   typed1 true "array" "unzip" as_array array_unzip;
   typed2 true "array" "zip" as_array as_array array_zip;
   fn1 true "array" "flatten" array_flatten;
   typed2 true "array" "join" as_array as_str array_join;
   typed1 true "array" "coalesce" as_array array_coalesce;
   typed2 true "array" "concatenate" as_array as_array array_concatenate].

(** ** std_lib/record.rs *)
Definition record_len (_ : std_context) (input : gmap string value) : f_result value :=
  FOk (from_i64 (Z.of_nat (size input))).
Definition record_is_empty (_ : std_context) (input : gmap string value) : f_result value :=
  FOk (static_bool (size input =? 0)%nat).
Definition record_contains (_ : std_context) (input : gmap string value) (contains : string) : f_result value :=
  FOk (static_bool match input !! contains with Some _ => true | None => false end).
Definition record_keys (_ : std_context) (input : gmap string value) : f_result value :=
  FOk (VArray ((λ kv : string * value, VString kv.1) <$> hash_iter input)).
Definition record_values (_ : std_context) (input : gmap string value) : f_result value :=
  FOk (VArray (hash_iter input).*2).
Definition record_to_array (_ : std_context) (input : gmap string value) : f_result value :=
  FOk (VArray ((λ kv : string * value, VArray [VString kv.1; kv.2]) <$> hash_iter input)).
Definition record_pair (a : value) : f_result (string * value) :=
  let err e := FErr (RuntimeError (mfa "record" "from_array" 1) e) in
  match a with
  | VArray [VString first; second] => FOk (first, second)
  | VArray [_; _] => err "The first element of the tuple needs to be a string: []"
  | VArray l =>
    err ("Onlay arrays that consist of tuples (arrays of two elements) can be trurned into an record this array contained "
         +:+ show_nat (length l) +:+ " elements")
  | other =>
    err ("Onlay arrays that consist of tuples (arrays of two elements) can be turned into records but this array contained: "
         +:+ show_debug other)
  end.
Definition record_from_array (_ : std_context) (input : list value) : f_result value :=
  r ← f_each record_pair input; FOk (VObject (collect r)).
Definition record_extract (_ : std_context) (input : gmap string value) (keys : list value) : f_result value :=
  let keys := omap as_str keys in
  FOk (VObject (collect (List.filter (λ kv, bool_decide (kv.1 ∈ keys)) (hash_iter input)))).
Definition record_combine (_ : std_context) (left right : gmap string value) : f_result value :=
  FOk (VObject (collect (hash_iter left ++ hash_iter right))).
Definition record_rename (_ : std_context) (target renamings : gmap string value) : f_result value :=
  FOk (VObject (collect ((λ kv : string * value,
    match renamings !! kv.1 with Some (VString k1) => (k1, kv.2) | _ => kv end) <$> hash_iter target))).
Definition record_load : list tremor_fn :=
  [typed1 true "record" "len" as_object record_len;
   typed1 true "record" "is_empty" as_object record_is_empty;
   typed2 true "record" "contains" as_object as_str record_contains;
   typed1 true "record" "keys" as_object record_keys;
   typed1 true "record" "values" as_object record_values;
   typed1 true "record" "to_array" as_object record_to_array;
   typed1 true "record" "from_array" as_array record_from_array;
   typed2 true "record" "extract" as_object as_array record_extract;
   typed2 true "record" "combine" as_object as_object record_combine;
   typed2 true "record" "rename" as_object as_object record_rename].

(** ** std_lib/binary.rs *)
Definition binary_len (_ : std_context) (input : list N) : f_result value := FOk (from_u64 (N.of_nat (length input))).
Definition binary_from_bytes (_ : std_context) (input : list value) : f_result value :=
  VBytes <$> f_each (λ v, match as_u8 v with
                          | Some b => FOk b
                          | None => FErr (RuntimeError (mfa "binary" "from_bytes" 1) "array contains non bytes")
                          end) input.
Definition binary_into_bytes (_ : std_context) (input : value) : f_result value :=
  match input with
  | VBytes b => FOk (VArray (from_u64 <$> b))
  | _ => FErr (RuntimeError (mfa "binary" "into_bytes" 1) "cannot convert a non-binary into an array of bytes")
  end.
Definition binary_load : list tremor_fn :=
  [typed1 true "binary" "len" p_bytes binary_len;
   typed1 true "binary" "from_bytes" as_array binary_from_bytes;
   fn1 true "binary" "into_bytes" binary_into_bytes].

(** ** std_lib/string.rs *)
Definition quote : string := to_str [34%N].
Definition lbrace : list N := [123%N].
Definition rbrace : list N := [125%N].
Definition backslash : list N := [92%N].

(** [StringFormat::invoke]: the characters from a position on, the arguments
    that are left and what was written. *)
Fixpoint format_loop (m : Mfa) (pos : N) (cs : list (list N)) (args : list value) (out : list N) :
    f_result (list value * list N) :=
  let err e := FErr (RuntimeError m e) in
  match cs with
  | [] => FOk (args, out)
  | c :: cs =>
    if bool_decide (c = backslash) then
      match cs with
      | d :: cs =>
        let out := if bool_decide (d ≠ lbrace ∧ d ≠ rbrace) then out ++ backslash else out in
        format_loop m (pos + 2) cs args (out ++ d)
      | [] => err ("bad escape sequence at " +:+ show_N pos)
      end
    else if bool_decide (c = lbrace) then
      match cs with
      | d :: cs =>
        if bool_decide (d = rbrace) then
          match args with
          | arg :: args =>
            let s := match as_str arg with Some s => s | None => encode_value arg end in
            format_loop m (pos + 2) cs args (out ++ as_bytes s)
          | [] =>
            err ("the arguments passed to the format function are less than the `{}` specifiers in the format string. The placeholder at "
                 +:+ show_N pos +:+ " can not be filled")
          end
        else if bool_decide (d = lbrace) then format_loop m (pos + 2) cs args (out ++ lbrace)
        else
          err ("the format specifier at " +:+ show_N pos
               +:+ " is invalid. If you want to use `{` as a literal in the string, you need to escape it with `{{`")
      | [] =>
        err ("the format specifier at " +:+ show_N pos
             +:+ " is invalid. If you want to use `{` as a literal in the string, you need to escape it with `{{`")
      end
    else if bool_decide (c = rbrace) then
      match cs with
      | d :: cs =>
        if bool_decide (d = rbrace) then format_loop m (pos + 2) cs args (out ++ rbrace)
        else
          err ("the format specifier at " +:+ show_N pos
               +:+ " is invalid. You have to terminate `}` with another `}` to escape it")
      | [] =>
        err ("the format specifier at " +:+ show_N pos
             +:+ " is invalid. You have to terminate `}` with another `}` to escape it")
      end
    else format_loop m (pos + 1) cs args (out ++ c)
  end.
Definition string_format (_ : std_context) (args : list value) : f_result value :=
  let m := mfa "string" "format" (N.of_nat (length args)) in
  match args with
  | [] => FErr (BadArity m 0)
  | VString format :: arg_stack =>
    r ← format_loop m 0 (chars (as_bytes format)) arg_stack [];
    match r.1 with
    | [] => FOk (of_bytes r.2)
    | _ =>
      FErr (RuntimeError m
        "too many parameters passed. Ensure that you have the same number of {} in your format string")
    end
  | _ =>
    FErr (RuntimeError m
      ("expected 1st parameter to format to be a format specifier e.g. to print a number use `string::format("
       +:+ quote +:+ "{}" +:+ quote +:+ ", 1)`"))
  end.

Definition string_replace (_ : std_context) (input from to : string) : f_result value :=
  FOk (of_bytes (str_replace (as_bytes from) (as_bytes to) (as_bytes input))).
Definition string_is_empty (_ : std_context) (input : string) : f_result value :=
  FOk (static_bool (String.eqb input "")).
Definition string_len (_ : std_context) (input : string) : f_result value :=
  FOk (from_i64 (Z.of_nat (length (chars (as_bytes input))))).
Definition string_bytes (_ : std_context) (input : string) : f_result value :=
  FOk (from_i64 (Z.of_nat (length (as_bytes input)))).
Definition trim_end (s : list N) : list N :=
  reverse (trim_start (length s) (reverse <$> white_space) (reverse s)).
Definition string_trim (_ : std_context) (input : string) : f_result value := FOk (of_bytes (trim (as_bytes input))).
Definition string_trim_start (_ : std_context) (input : string) : f_result value :=
  FOk (of_bytes (trim_start (length (as_bytes input)) white_space (as_bytes input))).
Definition string_trim_end (_ : std_context) (input : string) : f_result value :=
  FOk (of_bytes (trim_end (as_bytes input))).
Definition string_lowercase (_ : std_context) (input : string) : f_result value := FOk (VString (to_lowercase input)).
Definition string_uppercase (_ : std_context) (input : string) : f_result value := FOk (VString (to_uppercase input)).
Definition string_capitalize (_ : std_context) (input : string) : f_result value :=
  FOk (match chars (as_bytes input) with
       | [] => VString ""
       | c :: cs => of_bytes (char_to_uppercase c ++ mjoin cs)
       end).
(** The place of the character with a number, if there is one. *)
Definition char_index (n : N) (cs : list (list N)) : option N :=
  if (n <? N.of_nat (length cs))%N then Some (N.of_nat (length (mjoin (take (N.to_nat n) cs)))) else None.
Definition string_substr (_ : std_context) (input start end_ : value) : f_result value :=
  match as_str input, as_usize start, as_usize end_ with
  | Some input, Some start, Some end_ =>
    let b := as_bytes input in
    let cs := chars b in
    let start := default 0%N (char_index start cs) in
    let end_ := default (N.of_nat (length b)) (char_index end_ cs) in
    FOk (if (start <=? end_)%N
         then of_bytes (take (N.to_nat (end_ - start)) (drop (N.to_nat start) b))
         else VString input)
  | _, _, _ => FErr (BadType (mfa "string" "substr" 3))
  end.
Definition string_split (_ : std_context) (input sep : string) : f_result value :=
  FOk (VArray (of_bytes <$> str_split (as_bytes sep) (as_bytes input))).
Definition string_from_utf8_lossy (_ : std_context) (bytes : list N) : f_result value :=
  FOk (of_bytes (utf8_lossy 0 bytes)).
Definition string_contains (_ : std_context) (input contains : string) : f_result value :=
  FOk (static_bool (str_contains (as_bytes input) (as_bytes contains))).
Definition string_into_binary (_ : std_context) (input : string) : f_result value := FOk (VBytes (as_bytes input)).
Definition string_load : list tremor_fn :=
  [typed3 true "string" "replace" as_str as_str as_str string_replace;
   typed1 true "string" "is_empty" as_str string_is_empty;
   typed1 true "string" "len" as_str string_len;
   typed1 true "string" "bytes" as_str string_bytes;
   typed1 true "string" "trim" as_str string_trim;
   typed1 true "string" "trim_start" as_str string_trim_start;
   typed1 true "string" "trim_end" as_str string_trim_end;
   typed1 true "string" "lowercase" as_str string_lowercase;
   typed1 true "string" "uppercase" as_str string_uppercase;
   typed1 true "string" "capitalize" as_str string_capitalize;
   fn3 true "string" "substr" string_substr;
   typed2 true "string" "split" as_str as_str string_split;
   typed1 true "string" "from_utf8_lossy" p_bytes string_from_utf8_lossy;
   typed2 true "string" "contains" as_str as_str string_contains;
   typed1 true "string" "into_binary" as_str string_into_binary;
   TremorFn "string" "format" true (1, 18446744073709551615)%N string_format].

(** ** std_lib/integer.rs, float.rs, math.rs and range.rs *)
Definition integer_parse (_ : std_context) (input : string) : f_result value :=
  from_i64 <$> or_runtime (mfa "integer" "parse" 1) (parse_i64 (as_bytes input)).
Definition float_parse (_ : std_context) (input : string) : f_result value :=
  from_f64 <$> or_runtime (mfa "float" "parse" 1) (parse_f64 input).

(** The macro [math_fn] *)
Definition math_fn (n : string) (r : rounding) (_ : std_context) (input : value) : f_result value :=
  match as_u64 input with
  | Some v => FOk (from_u64 v)
  | None =>
    match as_i64 input with
    | Some v => FOk (from_i64 v)
    | None =>
      match cast_f64 input with
      | Some v => FOk (math_f64 r v)
      | None => FErr (BadType (mfa "math" n 1))
      end
    end
  end.
Definition math_max (_ : std_context) (a b : value) : f_result value :=
  match as_u64 a, as_u64 b with
  | Some a, Some b => FOk (from_u64 (N.max a b))
  | _, _ =>
    match as_i64 a, as_i64 b with
    | Some a, Some b => FOk (from_i64 (Z.max a b))
    | _, _ =>
      match cast_f64 a, cast_f64 b with
      | Some a, Some b => FOk (from_f64 (if SFleb b a then a else b))
      | _, _ => FErr (BadType (mfa "math" "max" 2))
      end
    end
  end.
Definition math_min (_ : std_context) (a b : value) : f_result value :=
  match as_u64 a, as_u64 b with
  | Some a, Some b => FOk (from_u64 (N.min a b))
  | _, _ =>
    match as_i64 a, as_i64 b with
    | Some a, Some b => FOk (from_i64 (Z.min a b))
    | _, _ =>
      match cast_f64 a, cast_f64 b with
      | Some a, Some b => FOk (from_f64 (if SFleb a b then a else b))
      | _, _ => FErr (BadType (mfa "math" "min" 2))
      end
    end
  end.
Definition range_range (_ : std_context) (a b : value) : f_result value :=
  match as_u64 a, as_u64 b with
  | Some a, Some b => FOk (VArray ((λ i, from_u64 (a + N.of_nat i)) <$> seq 0 (N.to_nat (b - a))))
  | _, _ =>
    match as_i64 a, as_i64 b with
    | Some a, Some b => FOk (VArray ((λ i, from_i64 (a + Z.of_nat i)) <$> seq 0 (Z.to_nat (b - a))))
    | _, _ => FErr (BadType (mfa "range" "range" 2))
    end
  end.
Definition numbers_load : list tremor_fn :=
  [typed1 true "float" "parse" as_str float_parse;
   typed1 true "integer" "parse" as_str integer_parse].
Definition math_load : list tremor_fn :=
  [fn1 true "math" "floor" (math_fn "floor" Floor);
   fn1 true "math" "ceil" (math_fn "ceil" Ceil);
   fn1 true "math" "round" (math_fn "round" Round);
   fn1 true "math" "trunc" (math_fn "trunc" Trunc);
   fn2 true "math" "max" math_max;
   fn2 true "math" "min" math_min].
Definition range_load : list tremor_fn := [fn2 true "range" "range" range_range].

(** ** std_lib/path.rs

    The value reached, and how many segments were followed; [None] is the
    default.  A segment that neither an array nor a record can be asked for
    is skipped. *)
Definition try_segment (pivot : value) (i : N) (segment : value) : option (value * N) :=
  match as_str segment, pivot with
  | Some field, VObject test => (λ next, (next, i + 1)%N) <$> test !! field
  | _, VArray test => index ← as_usize segment; (λ next, (next, i + 1)%N) <$> test !! N.to_nat index
  | _, _ => Some (pivot, i)
  end.
Fixpoint try_segments (pivot : value) (i : N) (segments : list value) : option (value * N) :=
  match segments with
  | [] => Some (pivot, i)
  | s :: segments => pi ← try_segment pivot i s; try_segments pi.1 pi.2 segments
  end.
Definition path_try_default (_ : std_context) (base segments otherwise : value) : f_result value :=
  let err e := FErr (RuntimeError (mfa "path" "try_default" 3) e) in
  match base with
  | VObject _ | VArray _ =>
    match segments with
    | VArray segments =>
      match try_segments base 0 segments with
      | Some (pivot, i) =>
        FOk (if ((0 <? i) && (i <? N.of_nat (length segments)))%N then otherwise else pivot)
      | None => FOk otherwise
      end
    | _ => err "Expected path segment array as second argument"
    end
  | VStatic SNull => FOk otherwise
  | _ => err "Expected record or array or literal `null` as first argument"
  end.
Definition path_load : list tremor_fn := [fn3 true "path" "try_default" path_try_default].

(** ** std_lib/type.rs *)
Definition type_name (v : value) : string :=
  match type_of v with
  | TNull => "null"
  | TBool => "bool"
  | TU64 | TI64 => "integer"
  | TF64 => "float"
  | TString => "string"
  | TArray => "array"
  | TObject => "record"
  | TBytes => "bytes"
  end.
Definition is_number (v : value) : bool :=
  match type_of v with TI64 | TF64 | TU64 => true | _ => false end.
Definition is_binary (v : value) : bool := match type_of v with TBytes => true | _ => false end.
(** The macro [map_function] *)
Definition type_test (p : value → bool) (_ : std_context) (input : value) : f_result value := FOk (static_bool (p input)).
Definition type_as_string (_ : std_context) (input : value) : f_result value := FOk (VString (type_name input)).
Definition some {A} (o : option A) : bool := match o with Some _ => true | None => false end.
Definition type_load : list tremor_fn :=
  [fn1 true "type" "is_null" (type_test is_null);
   fn1 true "type" "is_bool" (type_test (λ v, some (as_bool v)));
   fn1 true "type" "is_integer" (type_test is_i64);
   fn1 true "type" "is_float" (type_test (λ v, some (as_f64 v)));
   fn1 true "type" "is_string" (type_test is_str);
   fn1 true "type" "is_array" (type_test is_array);
   fn1 true "type" "is_record" (type_test is_object);
   fn1 true "type" "as_string" type_as_string;
   fn1 true "type" "is_number" (type_test is_number);
   fn1 true "type" "is_binary" (type_test is_binary)].

(** ** std_lib/chash.rs, and [sorted_serialize] of utils.rs *)
Definition sorted_pairs {V} (o : gmap string V) : list (string * V) :=
  omap (λ k, (λ v, (k, v)) <$> o !! k) (sorted_keys o).
Fixpoint sorted_serialize (j : value) : string :=
  match j with
  | VStatic _ | VString _ | VBytes _ => encode_value j
  | VArray a => "[" +:+ String.concat "," (map sorted_serialize a) +:+ "]"
  | VObject o =>
    "{" +:+ String.concat "," (map (λ ks : string * string, encode_value (VString ks.1) +:+ ":" +:+ ks.2)
                                 (sorted_pairs (sorted_serialize <$> o))) +:+ "}"
  end.
Definition chash_jump_with_keys (_ : std_context) (k1 k2 key slot_count : value) : f_result value :=
  match as_u64 k1, as_u64 k2, as_str key, as_u32 slot_count with
  | Some k1, Some k2, Some key, Some slot_count => FOk (from_u64 (jump_slot k1 k2 key slot_count))
  | _, _, _, _ => FErr (BadType (mfa "chash" "jump_with_keys" 4))
  end.
Definition chash_jump (_ : std_context) (key slot_count : value) : f_result value :=
  match as_str key, as_u32 slot_count with
  | Some key, Some slot_count =>
    FOk (from_u64 (jump_slot 8390880576440238080 128034676764530 key slot_count))
  | _, _ => FErr (BadType (mfa "chash" "jump" 2))
  end.
Definition chash_sorted_serialize (_ : std_context) (data : value) : f_result value :=
  FOk (VString (sorted_serialize data)).
Definition chash_load : list tremor_fn :=
  [fn2 true "chash" "jump" chash_jump;
   fn4 true "chash" "jump_with_keys" chash_jump_with_keys;
   fn1 true "chash" "sorted_serialize" chash_sorted_serialize].

(** ** std_lib/datetime.rs, and [_parse] and [has_tz] (datetime.rs)

    Dates are those of the crate chrono: of [from_timestamp], [round_subsecs],
    the fields of a date, printing and reading by a format, and the last
    midnight.  Reading gives the nanoseconds of the date as an [i64].  That
    printing panics for a format chrono does not know is not represented. *)
Fixpoint has_tz_chars (cs : list (list N)) : bool :=
  match cs with
  | [] => false
  | c :: cs =>
    if decide (c = [37%N]) then
      match cs with
      | [] => false
      | d :: cs =>
        if decide (d ∈ [[43]; [122]; [90]]%N) then true
        else if decide (d ∈ [[58]; [35]]%N) then
          match cs with
          | [] => false
          | e :: cs => if decide (e = [122%N]) then true else has_tz_chars cs
          end
        else has_tz_chars cs
      end
    else has_tz_chars cs
  end.
Definition has_tz (fmt : string) : bool := has_tz_chars (chars (as_bytes fmt)).
Definition as_u64_of (z : Z) : u64 := Z.to_N (z mod 18446744073709551616).
Definition parse_datetime (datetime input_fmt : string) (has_timezone : bool) : io u64 :=
  match (if has_timezone then parse_zoned else parse_naive) datetime input_fmt with
  | IoOk ns => IoOk (as_u64_of ns)
  | IoErr e => IoErr ("Datetime Parse Error: " +:+ e)
  end.

Definition giga : N := 1000000000.
Definition to_naive_datetime (n : u64) : naive_datetime := from_timestamp (Z.of_N (n / giga)) (n mod giga).
Definition dt_format (n : u64) (fmt : string) (has_timezone : bool) : string :=
  (if has_timezone then format_utc else format_naive) (to_naive_datetime n) fmt.
Definition dt_iso8601 (n : u64) : string := dt_format n "%Y-%m-%dT%H:%M:%S%.9f+00:00" false.
Definition subsecond (n : u64) : N := dt_nanosecond (to_naive_datetime n).
Definition year_of (n : u64) : N := Z.to_N (dt_year (to_naive_datetime n) mod 4294967296).
(** A field of the date, a number of eight bits. *)
Definition byte_of (field : naive_datetime → N) (n : u64) : N := (field (to_naive_datetime n) mod 256)%N.
Definition to_nearest (digits : N) (n : u64) : u64 :=
  u64_add (n / giga * giga) (dt_nanosecond (round_subsecs (to_naive_datetime n) digits)).
Definition to_nearest_second (n : u64) : u64 :=
  let ms := subsecond n in
  if (ms <? 500000000)%N then u64_sub n ms else u64_add (u64_sub n ms) giga.
Definition today (now : u64) : u64 := as_u64_of (utc_midnight now).

(** Lengths of time: the seconds of an hour or more are a number of 32 bits. *)
Definition u32_mul (a b : N) : N := ((a * b) mod 4294967296)%N.
Definition with_seconds (n : N) : u64 := u64_mul n giga.
Definition with_minutes (n : N) : u64 := with_seconds (u32_mul n 60).
Definition with_hours (n : N) : u64 := with_minutes (u32_mul n 60).
Definition with_days (n : N) : u64 := with_hours (u32_mul n 24).
Definition with_weeks (n : N) : u64 := with_days (u32_mul n 7).
Definition with_years (n : N) : u64 := u64_add (with_days (u32_mul n 365)) (with_days (n / 4)).
Definition with_milliseconds (n : N) : u64 := u64_mul n 1000000.
Definition with_microseconds (n : N) : u64 := u64_mul n 1000.

(** [str::parse] of a [u32]; what is wrong with it is not looked at. *)
Definition parse_u32 (s : list N) : option N :=
  let digits := match s with [] | [_] => s | c :: s' => if (c =? 43)%N then s' else s end in
  match digits, parse_digits false 0 digits with
  | _ :: _, IoOk n => if (n <? 4294967296)%Z then Some (Z.to_N n) else None
  | _, _ => None
  end.
Definition unit_of (unit : string) : option (N → u64) :=
  if decide (unit = "years") then Some with_years
  else if decide (unit = "weeks") then Some with_weeks
  else if decide (unit = "days") then Some with_days
  else if decide (unit = "minutes") then Some with_minutes
  else if decide (unit = "seconds") then Some with_seconds
  else if decide (unit = "milliseconds") then Some with_milliseconds
  else if decide (unit = "microseconds") then Some with_microseconds
  else if decide (unit = "nanoseconds") then Some id
  else None.
Definition human_token (acc : u64) (n : option N) (unit : string) : u64 :=
  match n with
  | None => acc
  | Some n =>
    match unit_of unit with
    | Some len => u64_add acc (len n)
    | None =>
      if (n =? 1)%N then match unit_of (unit +:+ "s") with Some len => u64_add acc (len 1%N) | None => acc end
      else acc
    end
  end.
Fixpoint human_tokens (acc : u64) (tokens : list (list N)) : u64 :=
  match tokens with
  | n :: unit :: tokens => human_tokens (human_token acc (parse_u32 n) (to_str unit)) tokens
  | _ => acc
  end.
Definition from_human_format (human : string) : option u64 :=
  let res := human_tokens 0 (str_split [32%N] (as_bytes human)) in
  if (0 <? res)%N then Some res else None.

Definition time_fn (name : string) (code : u64 → value) : tremor_fn :=
  fn1 true "datetime" name (λ _ v, code <$> or_bad_type (mfa "datetime" name 1) (as_u64 v)).
Definition time_fn_32 (name : string) (code : N → u64) : tremor_fn :=
  fn1 true "datetime" name (λ _ v, (λ n, from_u64 (code n)) <$> or_bad_type (mfa "datetime" name 1) (as_u32 v)).
Definition datetime_parse (_ : std_context) (input fmt : string) : f_result value :=
  match parse_datetime input fmt (has_tz fmt) with
  | IoOk x => FOk (from_u64 x)
  | IoErr e => FErr (RuntimeError (mfa "datetime" "parse" 1) ("Cannot Parse " +:+ e +:+ " to valid timestamp"))
  end.
Definition datetime_format (_ : std_context) (datetime fmt : value) : f_result value :=
  match as_u64 datetime, as_str fmt with
  | Some datetime, Some fmt => FOk (VString (dt_format datetime fmt (has_tz fmt)))
  | _, _ => FErr (BadType (mfa "datetime" "format" 2))
  end.
Definition datetime_human (_ : std_context) (human : string) : f_result value :=
  match from_human_format human with
  | Some x => FOk (from_u64 x)
  | None => FErr (RuntimeError (mfa "datetime" "from_human_format" 1) ("The human format " +:+ human +:+ " is invalid"))
  end.
Definition datetime_load : list tremor_fn :=
  [typed2 true "datetime" "parse" as_str as_str datetime_parse;
   time_fn "iso8601" (λ n, VString (dt_iso8601 n));
   fn2 true "datetime" "format" datetime_format;
   time_fn "year" (λ n, from_u64 (year_of n));
   time_fn "month" (λ n, from_u64 (byte_of dt_month n));
   time_fn "day" (λ n, from_u64 (byte_of dt_day n));
   time_fn "hour" (λ n, from_u64 (byte_of dt_hour n));
   time_fn "minute" (λ n, from_u64 (byte_of dt_minute n));
   time_fn "second" (λ n, from_u64 (byte_of dt_second n));
   time_fn "millisecond" (λ n, from_u64 (subsecond n / 1000000));
   time_fn "microsecond" (λ n, from_u64 (subsecond n / 1000 mod 1000));
   time_fn "nanosecond" (λ n, from_u64 (subsecond n mod 1000));
   fn0 false "datetime" "today" (λ ctx, FOk (from_u64 (today (clock ctx))));
   time_fn "subsecond" (λ n, from_u64 (subsecond n));
   time_fn "to_nearest_millisecond" (λ n, from_u64 (to_nearest 3 n));
   time_fn "to_nearest_microsecond" (λ n, from_u64 (to_nearest 6 n));
   time_fn "to_nearest_second" (λ n, from_u64 (to_nearest_second n));
   typed1 true "datetime" "from_human_format" as_str datetime_human;
   time_fn_32 "with_nanoseconds" id;
   time_fn_32 "with_microseconds" with_microseconds;
   time_fn_32 "with_milliseconds" with_milliseconds;
   time_fn_32 "with_seconds" with_seconds;
   time_fn_32 "with_minutes" with_minutes;
   time_fn_32 "with_hours" with_hours;
   time_fn_32 "with_days" with_days;
   time_fn_32 "with_weeks" with_weeks;
   time_fn_32 "with_years" with_years;
   time_fn "without_subseconds" (λ n, from_u64 (n / giga))].

(** ** std_lib/json.rs, base64.rs, url.rs and re.rs *)
Definition json_load : list tremor_fn :=
  [typed1 true "json" "decode" as_str (λ _ s, or_runtime (mfa "json" "decode" 1) (json_decode s));
   fn1 true "json" "encode" (λ _ v, VString <$> or_runtime (mfa "json" "encode" 1) (json_encode v));
   fn1 true "json" "encode_pretty"
     (λ _ v, VString <$> or_runtime (mfa "json" "encode_pretty" 1) (json_encode_pretty v))].
Definition base64_load : list tremor_fn :=
  [typed1 true "base64" "encode" p_bytes (λ _ b, FOk (VString (base64_encode b)));
   typed1 true "base64" "decode" as_str (λ _ s, VBytes <$> or_runtime (mfa "base64" "decode" 1) (base64_decode s))].
Definition url_decode (_ : std_context) (s : string) : f_result value :=
  match percent_decode s with
  | Some decoded => FOk (VString decoded)
  | None => FErr (RuntimeError (mfa "url" "decode" 1) ("Could not urldecode value: " +:+ s))
  end.
Definition url_load : list tremor_fn :=
  [typed1 false "url" "decode" as_str url_decode;
   typed1 false "url" "encode" as_str (λ _ s, FOk (VString (percent_encode s)))].
Definition re_load : list tremor_fn :=
  [typed3 true "re" "replace" as_str as_str as_str (λ _ re input to,
     (λ re, VString (regex_replace re input to)) <$> or_runtime (mfa "re" "replace" 3) (regex_new re));
   typed3 true "re" "replace_all" as_str as_str as_str (λ _ re input to,
     (λ re, VString (regex_replace_all re input to)) <$> or_runtime (mfa "re" "replace_all" 3) (regex_new re));
   typed2 true "re" "is_match" as_str as_str (λ _ re input,
     (λ re, static_bool (regex_is_match re input)) <$> or_runtime (mfa "re" "is_match" 2) (regex_new re));
   typed2 true "re" "split" as_str as_str (λ _ re input,
     (λ re, VArray (VString <$> regex_split re input)) <$> or_runtime (mfa "re" "split" 2) (regex_new re))].

(** ** std_lib/random.rs

    Each call seeds the generator with the time of the event.  That
    [gen_range] panics when a bound is not finite is not represented. *)
Definition invalid_bounds : string := "Invalid arguments. First argument must be lower than second argument".
Definition random_integer (ctx : std_context) (args : list value) : f_result value :=
  let m := mfa "random" "integer" (N.of_nat (length args)) in
  let rng := seed_from_u64 (at_ ctx) in
  match args with
  | [low; high] =>
    match as_i64 low, as_i64 high with
    | Some low, Some high =>
      if (low <? high)%Z then FOk (from_i64 (gen_range_i64 rng low high))
      else FErr (RuntimeError m invalid_bounds)
    | _, _ => FErr (BadType m)
    end
  | [input] =>
    input ← or_bad_type m (as_u64 input);
    if (input =? 0)%N then FErr (RuntimeError m "Invalid arguments. Single argument value must be > 0.")
    else FOk (from_u64 (gen_range_u64 rng 0 input))
  | [] => FOk (from_i64 (gen_i64 rng))
  | _ => FErr (BadArity m (N.of_nat (length args)))
  end.
Definition f64_zero : f64 := S754_zero false.
Definition random_float (ctx : std_context) (args : list value) : f_result value :=
  let m := mfa "random" "float" (N.of_nat (length args)) in
  let rng := seed_from_u64 (at_ ctx) in
  match args with
  | [low; high] =>
    match cast_f64 low, cast_f64 high with
    | Some low, Some high =>
      if SFltb low high then FOk (from_f64 (gen_range_f64 rng low high))
      else FErr (RuntimeError m invalid_bounds)
    | _, _ => FErr (BadType m)
    end
  | [input] =>
    input ← or_bad_type m (cast_f64 input);
    if SFleb input f64_zero then FErr (RuntimeError m "Invalid arguments. Single argument value must be > 0.0.")
    else FOk (from_f64 (gen_range_f64 rng f64_zero input))
  | [] => FOk (from_f64 (gen_f64 rng))
  | _ => FErr (BadArity m (N.of_nat (length args)))
  end.
Definition random_bool (ctx : std_context) : f_result value := FOk (static_bool (gen_bool (seed_from_u64 (at_ ctx)))).
Definition random_string (ctx : std_context) (length : value) : f_result value :=
  n ← or_bad_type (mfa "random" "string" 1) (as_usize length);
  FOk (VString (gen_alphanumeric (seed_from_u64 (at_ ctx)) n)).
Definition random_load : list tremor_fn :=
  [fn0 false "random" "bool" random_bool;
   fn1 false "random" "string" random_string;
   TremorFn "random" "integer" false (0, 2)%N random_integer;
   TremorFn "random" "float" false (0, 2)%N random_float].

(** ** std_lib/origin.rs, and [Display] of [EventOriginUri] (ctx.rs) *)
Definition host_port (u : EventOriginUri.t) : string :=
  match EventOriginUri.port u with
  | Some p => EventOriginUri.host u +:+ ":" +:+ show_N p
  | None => EventOriginUri.host u
  end.
Definition show_uri (u : EventOriginUri.t) : string :=
  EventOriginUri.scheme u +:+ "://" +:+ EventOriginUri.host u
  +:+ (match EventOriginUri.port u with Some p => ":" +:+ show_N p | None => "" end)
  +:+ (match EventOriginUri.path u with [] => "" | _ => "/" end)
  +:+ String.concat "/" (EventOriginUri.path u).
Definition uri_port (u : EventOriginUri.t) : value :=
  match EventOriginUri.port u with Some p => from_u64 p | None => const_null end.
Definition uri_path (u : EventOriginUri.t) : value := VArray (VString <$> EventOriginUri.path u).
Definition uri_record (u : EventOriginUri.t) : value :=
  VObject (collect [("scheme", VString (EventOriginUri.scheme u)); ("host", VString (EventOriginUri.host u));
                    ("port", uri_port u); ("path", uri_path u)]).
Definition of_origin (f : EventOriginUri.t → value) (ctx : std_context) : f_result value :=
  FOk (match origin_uri ctx with Some u => f u | None => const_null end).
Definition origin_load : list tremor_fn :=
  [fn0 false "origin" "as_uri_string" (of_origin (λ u, VString (show_uri u)));
   fn0 false "origin" "as_uri_record" (of_origin uri_record);
   fn0 false "origin" "scheme" (of_origin (λ u, VString (EventOriginUri.scheme u)));
   fn0 false "origin" "host" (of_origin (λ u, VString (EventOriginUri.host u)));
   fn0 false "origin" "port" (of_origin uri_port);
   fn0 false "origin" "path" (of_origin uri_path)].

(** ** std_lib/test.rs and win.rs *)
Definition newline : string := to_str [10%N].
Definition test_assert (ctx : std_context) (desc expected got : value) : f_result value :=
  if eqv expected got then FOk TRUE
  else if panic_on_assert ctx then
    FErr (RuntimeError (mfa "test" "assert" 3)
      (newline +:+ "Assertion for " +:+ show_value desc +:+ " failed:" +:+ newline
       +:+ "    expected: " +:+ encode_value expected +:+ newline
       +:+ "    got: " +:+ encode_value got +:+ newline))
  else FOk (VArray [expected; got]).
Definition test_load : list tremor_fn := [fn3 false "test" "assert" test_assert].
Definition win_cardinality (ctx : std_context) : f_result value := FOk (from_u64 (cardinality ctx)).
Definition win_load : list tremor_fn := [fn0 false "win" "cardinality" win_cardinality].

(** ** std_lib/system.rs and the standard library *)
Definition system_load : list tremor_fn :=
  [fn0 false "system" "nanotime" (λ ctx, FOk (from_u64 (clock ctx)));
   fn0 false "system" "hostname" (λ _, FOk (VString get_hostname));
   fn0 false "system" "ingest_ns" (λ ctx, FOk (from_u64 (at_ ctx)));
   fn0 false "system" "instance" (λ _, FOk (VString "tremor-script"));
   fn0 false "system" "version" (λ _, FOk (VString version))].
Definition std_load : list tremor_fn :=
  array_load ++ base64_load ++ binary_load ++ chash_load ++ datetime_load ++ numbers_load ++ json_load ++ math_load ++ origin_load
  ++ random_load ++ range_load ++ re_load ++ record_load ++ string_load ++ test_load ++ type_load ++ url_load
  ++ win_load ++ path_load.
Definition std_registry : registry := load (system_load ++ std_load) ∅.
End std.
