(* ===== verification/StdAggr.v ===== *)
(** Aggregate functions: the trait and the registry of
    tremor-script/src/registry.rs and the aggregates of std_lib/stats.rs and
    std_lib/win.rs.

    An aggregate accumulates the arguments of one event after the other; in a
    chain of windows the state of a window that emits is merged into the next
    one.  The two sketches of distributions are crates, the class
    [histograms]. *)
From Stdlib Require Import Floats.SpecFloat.
From S2P Require Import Prelude Value ValueOrd EventIds Event Text ScriptOps StdLib.
Local Open Scope string_scope.
Local Open Scope list_scope.

(** ** The trait *)
Class TremorAggrFn (A : Type) := {
  accumulate : list value → A → A * f_result ();
  emit : A → A * f_result value;
  init : A → A;
  merge : A → A → A * f_result ();
  arity : A → N * N;
  warning : A → option string;
}.

(** [emit_and_init] *)
Definition emit_and_init `{!TremorAggrFn A} (a : A) : A * f_result value :=
  let '(a, r) := emit a in match r with FOk v => (init a, FOk v) | FErr e => (a, FErr e) end.

Definition ok {A} (a : A) : A * f_result () := (a, FOk ()).
Definition collect_warning : option string :=
  Some "Collect functions are very expensive memory wise, try avoiding them.".

(** [PartialOrd] of [Option<f64>] *)
Definition opt_lt (a b : option f64) : bool :=
  match a, b with
  | None, Some _ => true
  | Some a, Some b => SFltb a b
  | _, None => false
  end.
Definition opt_gt (a b : option f64) : bool := opt_lt b a.
Definition zero : f64 := S754_zero false.

(** ** std_lib/win.rs *)
Module First.
Record t := mk { val : option value }.
Definition default : t := mk None.
#[global] Instance aggr : TremorAggrFn t := {|
  accumulate args self := ok match val self with None => mk (head args) | Some _ => self end;
  emit self := (self, FOk (match val self with Some v => v | None => const_null end));
  init _ := mk None;
  merge self other := ok match val self with None => mk (val other) | Some _ => self end;
  arity _ := (1, 1)%N;
  warning _ := None |}.
End First.

Module Last.
Record t := mk { val : option value }.
Definition default : t := mk None.
#[global] Instance aggr : TremorAggrFn t := {|
  accumulate args _ := ok (mk (head args));
  emit self := (self, FOk (match val self with Some v => v | None => const_null end));
  init _ := mk None;
  merge self other := ok match val other with Some _ => mk (val other) | None => self end;
  arity _ := (1, 1)%N;
  warning _ := None |}.
End Last.

Module CollectFlattened.
Record t := mk { vals : list value }.
Definition default : t := mk [].
#[global] Instance aggr : TremorAggrFn t := {|
  accumulate args self := ok (mk (vals self ++ option_list (head args)));
  emit self := (self, FOk (VArray (vals self)));
  init _ := mk [];
  merge self other := ok (mk (vals self ++ vals other));
  arity _ := (1, 1)%N;
  warning _ := collect_warning |}.
End CollectFlattened.

Module CollectNested.
Record t := mk { vals : list value }.
Definition default : t := mk [].
#[global] Instance aggr : TremorAggrFn t := {|
  accumulate args self := ok (mk (vals self ++ option_list (head args)));
  emit self := (self, FOk (VArray (vals self)));
  init _ := mk [];
  merge self other := ok (mk (vals self ++ [VArray (vals other)]));
  arity _ := (1, 1)%N;
  warning _ := collect_warning |}.
End CollectNested.

(** ** std_lib/stats.rs *)
Module Count.
Record t := mk { n : Z }.
Definition default : t := mk 0.
#[global] Instance aggr : TremorAggrFn t := {|
  accumulate _ self := ok (mk (i64_wrap (n self + 1)));
  emit self := (self, FOk (from_i64 (n self)));
  init _ := mk 0;
  merge self other := ok (mk (i64_wrap (n self + n other)));
  arity _ := (0, 0)%N;
  warning _ := None |}.
End Count.

Section stats.
Context `{vt : !value_trait}.

(** [args.first().cast_f64()] *)
Definition first_f64 (args : list value) : option f64 := head args ≫= cast_f64.
Definition with_f64 {A} (name : string) (args : list value) (self : A) (f : f64 → A) : A * f_result () :=
  match first_f64 args with
  | None => (self, FErr (BadType (mfa "stats" name 1)))
  | Some v => ok (f v)
  end.
End stats.

Module Sum.
Record t := mk { sum : f64 }.
Definition default : t := mk zero.
#[global] Instance aggr `{!value_trait} : TremorAggrFn t := {|
  accumulate args self := with_f64 "sum" args self (λ v, mk (f64_add (sum self) v));
  emit self := (self, FOk (from_f64 (sum self)));
  init _ := mk zero;
  merge self other := ok (mk (f64_add (sum self) (sum other)));
  arity _ := (1, 1)%N;
  warning _ := None |}.
End Sum.

Module Mean.
Record t := mk { n : Z; sum : f64 }.
Definition default : t := mk 0 zero.
#[global] Instance aggr `{!value_trait} : TremorAggrFn t := {|
  accumulate args self := with_f64 "mean" args self (λ v, mk (i64_wrap (n self + 1)) (f64_add (sum self) v));
  emit self :=
    (self, FOk (if (n self =? 0)%Z then const_null else from_f64 (f64_div (sum self) (float_of_Z (n self)))));
  init _ := mk 0 zero;
  merge self other := ok (mk (i64_wrap (n self + n other)) (f64_add (sum self) (sum other)));
  arity _ := (1, 1)%N;
  warning _ := None |}.
End Mean.

Module Min.
Record t := mk { val : option f64 }.
Definition default : t := mk None.
#[global] Instance aggr `{!value_trait} : TremorAggrFn t := {|
  accumulate args self := with_f64 "min" args self (λ v,
    match val self with
    | None => mk (Some v)
    | Some _ => if opt_lt (Some v) (val self) then mk (Some v) else self
    end);
  emit self := (self, FOk (from_f64 (match val self with Some v => v | None => zero end)));
  init _ := mk None;
  merge self other := ok (if opt_lt (val other) (val self) then mk (val other) else self);
  arity _ := (1, 1)%N;
  warning _ := None |}.
End Min.

Module Max.
Record t := mk { val : option f64 }.
Definition default : t := mk None.
#[global] Instance aggr `{!value_trait} : TremorAggrFn t := {|
  accumulate args self := with_f64 "max" args self (λ v,
    match val self with
    | None => mk (Some v)
    | Some _ => if opt_gt (Some v) (val self) then mk (Some v) else self
    end);
  emit self := (self, FOk (from_f64 (match val self with Some v => v | None => zero end)));
  init _ := mk None;
  merge self other := ok (if opt_gt (val other) (val self) then mk (val other) else self);
  arity _ := (1, 1)%N;
  warning _ := None |}.
End Max.

Module Var.
Record t := mk { n : u64; k : f64; ex : f64; ex2 : f64 }.
Definition default : t := mk 0 zero zero zero.
Section var.
Context `{vt : !value_trait}.
Definition accumulate_ (args : list value) (self : t) : t * f_result () :=
  with_f64 "var" args self (λ v,
    let k := if (n self =? 0)%N then v else k self in
    let d := f64_sub v k in
    mk (u64_add (n self) 1) k (f64_add (ex self) d) (f64_add (ex2 self) (f64_mul d d))).
Definition emit_ (self : t) : f_result value :=
  FOk (from_f64
    (if (n self =? 0)%N then zero
     else
       let n := float_of_Z (Z.of_N (n self)) in
       f64_div (f64_sub (ex2 self) (f64_div (f64_mul (ex self) (ex self)) n)) (f64_sub n (float_of_Z 1)))).
Definition merge_ (self other : t) : t :=
  mk (u64_add (n self) (n other)) (f64_add (k self) (k other)) (f64_add (ex self) (ex other))
     (f64_add (ex2 self) (ex2 other)).
#[global] Instance aggr : TremorAggrFn t := {|
  accumulate := accumulate_;
  emit self := (self, emit_ self);
  init _ := default;
  merge self other := ok (merge_ self other);
  arity _ := (1, 1)%N;
  warning _ := None |}.
End var.
End Var.

Module Stdev.
Record t := mk { var : Var.t }.
Definition default : t := mk Var.default.
#[global] Instance aggr `{!value_trait} : TremorAggrFn t := {|
  accumulate args self := let '(v, r) := Var.accumulate_ args (var self) in (mk v, r);
  emit self :=
    (self, (λ v, match as_f64 v with Some f => from_f64 (SFsqrt f64_prec f64_emax f) | None => v end)
             <$> Var.emit_ (var self));
  init _ := mk Var.default;
  merge self other := ok (mk (Var.merge_ (var self) (var other)));
  arity _ := (1, 1)%N;
  warning _ := None |}.
End Stdev.

(** *** Sketches of distributions *)
Class histograms := {
  dds : Type;
  dds_new : dds;
  dds_add : f64 → dds → dds;
  dds_merge : dds → dds → dds;
  dds_count : dds → N;
  dds_quantile : f64 → dds → option f64;
  dds_min : dds → option f64;
  dds_max : dds → option f64;
  dds_sum : dds → option f64;
  hdr : Type;
  hdr_new_with_bounds : N → io hdr;
  hdr_record : N → hdr → io hdr;
  hdr_add : hdr → hdr → io hdr;
  hdr_value_at_percentile : f64 → hdr → N;
  hdr_len : hdr → N;
  hdr_min : hdr → N;
  hdr_max : hdr → N;
  hdr_mean : hdr → f64;
  hdr_stdev : hdr → f64;
  powf : f64 → f64 → f64;
}.

Definition HIST_MAX_CACHE_SIZE : N := 8192.
Definition dflt_percentiles : list (string * f64) :=
  [("0.5", S754_finite false 4503599627370496 (-53)); ("0.9", S754_finite false 8106479329266893 (-53));
   ("0.95", S754_finite false 8556839292003942 (-53)); ("0.99", S754_finite false 8917127262193582 (-53));
   ("0.999", S754_finite false 8998192055486251 (-53)); ("0.9999", S754_finite false 9006298534815518 (-53));
   ("0.99999", S754_finite false 9007109182748445 (-53))].

Section hist.
Context `{vt : !value_trait, lb : !std_libs, hl : !histograms}.

(** The percentiles asked for: the strings among the second argument. *)
Definition parse_percentiles (name : string) (vals : list value) : f_result (list (string * f64)) :=
  let m := mfa "stats" name 2 in
  f_each (λ s,
    match parse_f64 s with
    | IoOk p => FOk (s, p)
    | IoErr e => FErr (RuntimeError m ("Provided percentile '" +:+ s +:+ "' isn't a float: " +:+ e))
    end) (omap as_str vals).
Definition second_array (args : list value) : option (list value) := args !! 1%nat ≫= as_array.

Definition ten : f64 := float_of_Z 10.
Definition f64_ceil (f : f64) : f64 :=
  match f with
  | S754_finite s _ _ =>
    let z := f64_rounded Ceil f in if (z =? 0)%Z then S754_zero s else float_of_Z z
  | f => f
  end.
(** The function [ceil] of stats.rs at scale 1, which is all it is used at. *)
Definition ceil_1 (v : f64) : f64 := f64_div (f64_ceil (f64_mul v ten)) ten.
End hist.

Module Dds.
Section dds.
Context `{vt : !value_trait, lb : !std_libs, hl : !histograms}.

Record t := mk {
  histo : option dds;
  cache : list f64;
  percentiles : list (string * f64);
  percentiles_set : bool;
}.
Definition default : t := mk None [] dflt_percentiles false.
Definition add_all (l : list f64) (h : dds) : dds := foldl (λ h v, dds_add v h) h l.

Definition set_percentiles (args : list value) (self : t) : f_result t :=
  if percentiles_set self then FOk self
  else match second_array args with
       | None => FOk self
       | Some vals =>
         (λ ps, mk (histo self) (cache self) ps true) <$> parse_percentiles "dds" vals
       end.
(** A full cache is emptied into a histogram, which is not kept. *)
Definition accumulate_ (args : list value) (self : t) : t * f_result () :=
  match set_percentiles args self with
  | FErr e => (self, FErr e)
  | FOk self =>
    match first_f64 args with
    | None => ok self
    | Some v =>
      if SFltb v zero then ok self
      else
        match histo self with
        | Some h => ok (mk (Some (dds_add v h)) (cache self) (percentiles self) (percentiles_set self))
        | None =>
          let cache := cache self ++ [v] in
          ok (mk None (if (N.of_nat (length cache) =? HIST_MAX_CACHE_SIZE)%N then [] else cache)
                (percentiles self) (percentiles_set self))
        end
    end
  end.

Definition err (e : string) : function_error := RuntimeError (mfa "stats" "dds" 2) e.
Definition quantiles (h : dds) (ps : list (string * f64)) : f_result (list (string * value)) :=
  f_each (λ p : string * f64,
    match dds_quantile p.2 h with
    | Some q => FOk (p.1, from_f64 (ceil_1 q))
    | None => FErr (err ("Unable to calculate percentile '" +:+ show_static (SF64 p.2) +:+ "'"))
    end) ps.
Definition or_err (o : option f64) (e : string) : f_result f64 :=
  match o with Some v => FOk v | None => FErr (err e) end.
Definition report (h : dds) (ps : list (string * f64)) : f_result value :=
  let count := dds_count h in
  r ← (if (count =? 0)%N then FOk ((λ p, (p.1, from_f64 zero)) <$> ps, (zero, zero, zero))
       else
         ps ← quantiles h ps;
         mn ← or_err (dds_min h) "Unable to calculate min";
         mx ← or_err (dds_max h) "Unable to calculate max";
         sm ← or_err (dds_sum h) "Unable to calculate sum";
         FOk (ps, (mn, mx, sm)));
  let '(ps, (mn, mx, sm)) := r in
  FOk (VObject (collect
    [("count", from_u64 count); ("min", from_f64 mn); ("max", from_f64 mx);
     ("mean", from_f64 (f64_div sm (float_of_Z (Z.of_N count)))); ("percentiles", VObject (collect ps))])).
Definition emit_ (self : t) : t * f_result value :=
  let '(h, self) :=
    match histo self with
    | Some h => (h, self)
    | None =>
      let h := add_all (cache self) dds_new in (h, mk (Some h) [] (percentiles self) (percentiles_set self))
    end in
  (self, report h (percentiles self)).

Definition merge_ (self other : t) : t :=
  let ps := if percentiles_set self then percentiles self else percentiles other in
  match histo self with
  | Some h =>
    let h := match histo other with Some o => dds_merge h o | None => add_all (cache other) h end in
    mk (Some h) (cache self) ps true
  | None =>
    match histo other with
    | Some o => mk (Some (add_all (cache self) (dds_merge dds_new o))) [] ps true
    | None =>
      if (HIST_MAX_CACHE_SIZE <? N.of_nat (length (cache self) + length (cache other)))%N
      then mk (Some (add_all (cache other) (add_all (cache self) dds_new))) [] ps true
      else mk None (cache self ++ cache other) ps true
    end
  end.
#[global] Instance aggr : TremorAggrFn t := {|
  accumulate := accumulate_;
  emit := emit_;
  init self := mk None [] (percentiles self) (percentiles_set self);
  merge self other := ok (merge_ self other);
  arity _ := (1, 2)%N;
  warning _ := None |}.
End dds.
End Dds.

Module Hdr.
Section hdr.
Context `{vt : !value_trait, lb : !std_libs, hl : !histograms}.

Record t := mk {
  histo : option hdr;
  cache : list N;
  percentiles : list (string * f64);
  percentiles_set : bool;
  high_bound_ : N;
}.
Definition default : t := mk None [] dflt_percentiles false 0.
Definition set_histo (h : option hdr) (self : t) : t :=
  mk h (cache self) (percentiles self) (percentiles_set self) (high_bound_ self).
Definition set_cache (c : list N) (self : t) : t :=
  mk (histo self) c (percentiles self) (percentiles_set self) (high_bound_ self).
Definition high_bound (self : t) : N := N.max (high_bound_ self) 4.

Definition or_err {A} (what : string) (r : io A) : f_result A :=
  match r with
  | IoOk a => FOk a
  | IoErr e => FErr (RuntimeError (mfa "stats" "hdr" 2) (what +:+ e))
  end.
(** The histogram, also when a value cannot be recorded. *)
Fixpoint record_all (l : list N) (h : hdr) : hdr * f_result () :=
  match l with
  | [] => (h, FOk ())
  | v :: l =>
    match or_err "failed to record value: " (hdr_record v h) with
    | FOk h => record_all l h
    | FErr e => (h, FErr e)
    end
  end.

Definition set_percentiles (args : list value) (self : t) : f_result t :=
  match second_array args with
  | None => FOk self
  | Some vals =>
    if percentiles_set self then FOk self
    else (λ ps, mk (histo self) (cache self) ps true (high_bound_ self)) <$> parse_percentiles "hdr" vals
  end.
(** As above; the histogram that is not kept may fail. *)
Definition drain_full (self : t) : t * f_result () :=
  match or_err "failed to allocate hdr storage: " (hdr_new_with_bounds (high_bound self)) with
  | FErr e => (self, FErr e)
  | FOk h => (set_cache [] self, (record_all (cache self) h).2)
  end.
Definition accumulate_ (args : list value) (self : t) : t * f_result () :=
  match set_percentiles args self with
  | FErr e => (self, FErr e)
  | FOk self =>
    match first_f64 args with
    | None => ok self
    | Some v =>
      if SFltb v zero then ok self
      else
        let v := Z.to_N (float_to_int 0 u64_top v) in
        match histo self with
        | Some h =>
          match or_err "failed to record value: " (hdr_record v h) with
          | FOk h => ok (set_histo (Some h) self)
          | FErr e => (self, FErr e)
          end
        | None =>
          let self := mk (histo self) (cache self ++ [v]) (percentiles self) (percentiles_set self)
                        (N.max (high_bound_ self) v) in
          if (N.of_nat (length (cache self)) =? HIST_MAX_CACHE_SIZE)%N then drain_full self else ok self
        end
    end
  end.

(** A new histogram is only kept without an error. *)
Definition keep (self : t) (hr : hdr * f_result ()) : t * f_result () :=
  match hr.2 with FOk _ => ok (set_histo (Some hr.1) self) | FErr e => (self, FErr e) end.
Definition merge_ (self other : t) : t * f_result () :=
  let self := mk (histo self) (cache self)
                (if percentiles_set self then percentiles self else percentiles other) true
                (N.max (high_bound_ self) (high_bound_ other)) in
  match histo self with
  | Some h =>
    match histo other with
    | Some o =>
      match or_err "failed to merge histograms: " (hdr_add h o) with
      | FOk h => ok (set_histo (Some h) self)
      | FErr e => (self, FErr e)
      end
    | None => let '(h, r) := record_all (cache other) h in (set_histo (Some h) self, r)
    end
  | None =>
    match histo other with
    | Some o => keep (set_cache [] self) (record_all (cache self) o)
    | None =>
      if (HIST_MAX_CACHE_SIZE <? N.of_nat (length (cache self) + length (cache other)))%N then
        match or_err "failed to init historgrams: " (hdr_new_with_bounds (high_bound self)) with
        | FErr e => (self, FErr e)
        | FOk h => keep (set_cache [] self) (record_all (cache self ++ cache other) h)
        end
      else ok (set_cache (cache self ++ cache other) self)
    end
  end.

Definition hundred : f64 := float_of_Z 100.
Definition report (h : hdr) (ps : list (string * f64)) : value :=
  VObject (collect
    [("count", from_u64 (hdr_len h)); ("min", from_u64 (hdr_min h)); ("max", from_u64 (hdr_max h));
     ("mean", from_f64 (hdr_mean h)); ("stdev", from_f64 (hdr_stdev h));
     ("var", from_f64 (powf (hdr_stdev h) (float_of_Z 2)));
     ("percentiles",
       VObject (collect ((λ p, (p.1, from_u64 (hdr_value_at_percentile (f64_mul p.2 hundred) h))) <$> ps)))]).
(** A record that fails leaves the cache empty. *)
Definition emit_ (self : t) : t * f_result value :=
  match histo self with
  | Some h => (self, FOk (report h (percentiles self)))
  | None =>
    match or_err "failed to init historgrams: " (hdr_new_with_bounds (high_bound self)) with
    | FErr e => (self, FErr e)
    | FOk h =>
      let '(self, r) := keep (set_cache [] self) (record_all (cache self) h) in
      (self, (λ _, report (match histo self with Some h => h | None => h end) (percentiles self)) <$> r)
    end
  end.
#[global] Instance aggr : TremorAggrFn t := {|
  accumulate := accumulate_;
  emit := emit_;
  init self := mk None [] (percentiles self) (percentiles_set self) 0;
  merge := merge_;
  arity _ := (1, 2)%N;
  warning _ := None |}.
End hdr.
End Hdr.

(** ** The registry *)
Section boxed.
Context `{vt : !value_trait, lb : !std_libs, hl : !histograms}.

Inductive aggr_fun :=
  | ACount (a : Count.t)
  | AMin (a : Min.t)
  | AMax (a : Max.t)
  | ASum (a : Sum.t)
  | AVar (a : Var.t)
  | AStdev (a : Stdev.t)
  | AMean (a : Mean.t)
  | AHdr (a : Hdr.t)
  | ADds (a : Dds.t)
  | AFirst (a : First.t)
  | ALast (a : Last.t)
  | ACollectFlattened (a : CollectFlattened.t)
  | ACollectNested (a : CollectNested.t).

Definition boxed {A B} (box : A → aggr_fun) (r : A * B) : aggr_fun * B := (box r.1, r.2).
Definition fun_accumulate (args : list value) (f : aggr_fun) : aggr_fun * f_result () :=
  match f with
  | ACount a => boxed ACount (accumulate args a)
  | AMin a => boxed AMin (accumulate args a)
  | AMax a => boxed AMax (accumulate args a)
  | ASum a => boxed ASum (accumulate args a)
  | AVar a => boxed AVar (accumulate args a)
  | AStdev a => boxed AStdev (accumulate args a)
  | AMean a => boxed AMean (accumulate args a)
  | AHdr a => boxed AHdr (accumulate args a)
  | ADds a => boxed ADds (accumulate args a)
  | AFirst a => boxed AFirst (accumulate args a)
  | ALast a => boxed ALast (accumulate args a)
  | ACollectFlattened a => boxed ACollectFlattened (accumulate args a)
  | ACollectNested a => boxed ACollectNested (accumulate args a)
  end.
Definition fun_emit (f : aggr_fun) : aggr_fun * f_result value :=
  match f with
  | ACount a => boxed ACount (emit a)
  | AMin a => boxed AMin (emit a)
  | AMax a => boxed AMax (emit a)
  | ASum a => boxed ASum (emit a)
  | AVar a => boxed AVar (emit a)
  | AStdev a => boxed AStdev (emit a)
  | AMean a => boxed AMean (emit a)
  | AHdr a => boxed AHdr (emit a)
  | ADds a => boxed ADds (emit a)
  | AFirst a => boxed AFirst (emit a)
  | ALast a => boxed ALast (emit a)
  | ACollectFlattened a => boxed ACollectFlattened (emit a)
  | ACollectNested a => boxed ACollectNested (emit a)
  end.
Definition fun_init (f : aggr_fun) : aggr_fun :=
  match f with
  | ACount a => ACount (init a)
  | AMin a => AMin (init a)
  | AMax a => AMax (init a)
  | ASum a => ASum (init a)
  | AVar a => AVar (init a)
  | AStdev a => AStdev (init a)
  | AMean a => AMean (init a)
  | AHdr a => AHdr (init a)
  | ADds a => ADds (init a)
  | AFirst a => AFirst (init a)
  | ALast a => ALast (init a)
  | ACollectFlattened a => ACollectFlattened (init a)
  | ACollectNested a => ACollectNested (init a)
  end.
(** A state of another function is ignored. *)
Definition fun_merge (self src : aggr_fun) : aggr_fun * f_result () :=
  match self, src with
  | ACount a, ACount b => boxed ACount (merge a b)
  | AMin a, AMin b => boxed AMin (merge a b)
  | AMax a, AMax b => boxed AMax (merge a b)
  | ASum a, ASum b => boxed ASum (merge a b)
  | AVar a, AVar b => boxed AVar (merge a b)
  | AStdev a, AStdev b => boxed AStdev (merge a b)
  | AMean a, AMean b => boxed AMean (merge a b)
  | AHdr a, AHdr b => boxed AHdr (merge a b)
  | ADds a, ADds b => boxed ADds (merge a b)
  | AFirst a, AFirst b => boxed AFirst (merge a b)
  | ALast a, ALast b => boxed ALast (merge a b)
  | ACollectFlattened a, ACollectFlattened b => boxed ACollectFlattened (merge a b)
  | ACollectNested a, ACollectNested b => boxed ACollectNested (merge a b)
  | self, _ => ok self
  end.
Definition fun_arity (f : aggr_fun) : N * N :=
  match f with
  | ACount a => arity a | AMin a => arity a | AMax a => arity a | ASum a => arity a | AVar a => arity a
  | AStdev a => arity a | AMean a => arity a | AHdr a => arity a | ADds a => arity a | AFirst a => arity a
  | ALast a => arity a | ACollectFlattened a => arity a | ACollectNested a => arity a
  end.
Definition fun_valid_arity (f : aggr_fun) (n : N) : bool := ((fun_arity f).1 <=? n)%N && (n <=? (fun_arity f).2)%N.

(** [TremorAggrFnWrapper] *)
Record aggr_wrapper := AggrWrapper { aw_module : string; aw_name : string; aw_fun : aggr_fun }.
Definition stats_load_aggr : list aggr_wrapper :=
  [AggrWrapper "stats" "count" (ACount Count.default); AggrWrapper "stats" "min" (AMin Min.default);
   AggrWrapper "stats" "max" (AMax Max.default); AggrWrapper "stats" "sum" (ASum Sum.default);
   AggrWrapper "stats" "var" (AVar Var.default); AggrWrapper "stats" "stdev" (AStdev Stdev.default);
   AggrWrapper "stats" "mean" (AMean Mean.default); AggrWrapper "stats" "hdr" (AHdr Hdr.default);
   AggrWrapper "stats" "dds" (ADds Dds.default)].
Definition win_load_aggr : list aggr_wrapper :=
  [AggrWrapper "win" "first" (AFirst First.default);
   AggrWrapper "win" "collect_flattened" (ACollectFlattened CollectFlattened.default);
   AggrWrapper "win" "collect_nested" (ACollectNested CollectNested.default);
   AggrWrapper "win" "last" (ALast Last.default)].

Abbreviation aggr_registry := (gmap string (gmap string aggr_wrapper)) (only parsing).
Definition insert_aggr (f : aggr_wrapper) (r : aggr_registry) : aggr_registry :=
  match r !! aw_module f with
  | Some module => <[aw_module f := <[aw_name f := f]> module]> r
  | None => <[aw_module f := {[aw_name f := f]}]> r
  end.
Definition find_aggr_fn (r : aggr_registry) (module function : string) : f_result aggr_wrapper :=
  match r !! module with
  | None => FErr (MissingModule module)
  | Some functions =>
    match functions !! function with
    | None => FErr (MissingFunction module function)
    | Some f => FOk f
    end
  end.
Definition std_aggrs : aggr_registry :=
  foldl (λ r f, insert_aggr f r) ∅ (stats_load_aggr ++ win_load_aggr).
End boxed.
