(* ===== verification/StdSpec.v ===== *)
(** Theorems on the standard library of scripts: calls are checked and constant
    functions do not look at the event; what the functions on text, records
    and arrays promise of each other; which aggregates may be merged. *)
From Stdlib Require Import Ascii.
From Stdlib Require Import Floats.SpecFloat.
From S2P Require Import Prelude Value ValueOrd EventIds Event Text ScriptOps StdLib StdAggr.

(** ** The registry *)
Lemma find_insert r f m n :
  find (insert_fn f r) m n =
  if decide (tf_module f = m ∧ tf_name f = n) then FOk f
  else if decide (tf_module f = m) then
    match r !! m with
    | Some fs => match fs !! n with Some g => FOk g | None => FErr (MissingFunction m n) end
    | None => FErr (MissingFunction m n)
    end
  else find r m n.
Proof.
  unfold find, insert_fn. destruct (decide (tf_module f = m)) as [<-|Hm].
  - destruct (r !! tf_module f) as [fs|] eqn:E; rewrite lookup_insert_eq.
    + destruct (decide (tf_name f = n)) as [<-|Hn].
      * by rewrite lookup_insert_eq, decide_True by done.
      * rewrite lookup_insert_ne by done. by rewrite decide_False by naive_solver.
    + destruct (decide (tf_name f = n)) as [<-|Hn].
      * by rewrite lookup_singleton_eq, decide_True by done.
      * rewrite lookup_singleton_ne by done. by rewrite decide_False by naive_solver.
  - rewrite decide_False by naive_solver.
    destruct (r !! tf_module f) as [fs|]; by rewrite lookup_insert_ne.
Qed.

Lemma find_load fs r m n f :
  find (load fs r) m n = FOk f →
  (f ∈ fs ∧ tf_module f = m ∧ tf_name f = n) ∨ find r m n = FOk f.
Proof.
  revert r. induction fs as [|g fs IH]; intros r H; [by right|].
  destruct (IH (insert_fn g r) H) as [(Hf & <- & <-)|Hr]; [left; split; [by right|done]|].
  rewrite find_insert in Hr. destruct (decide (tf_module g = m ∧ tf_name g = n)) as [[<- <-]|Hne].
  - simplify_eq. left. split; [by left|done].
  - right. destruct (decide (tf_module g = m)) as [<-|]; [|done].
    unfold find. destruct (r !! tf_module g) as [gs|]; [|done]. by destruct (gs !! n).
Qed.

Lemma find_empty m n f : find ∅ m n = FOk f ↔ False.
Proof. unfold find. by rewrite lookup_empty. Qed.

(** What is expected of a function: it refuses exactly the numbers of arguments
    it does not declare, and if it is constant the context does not matter. *)
Definition well_declared (f : tremor_fn) : Prop :=
  (∀ ctx args, (N.of_nat (length args) < w64)%N →
     (valid_arity f (N.of_nat (length args)) = false ↔
      ∃ m, tf_invoke f ctx args = FErr (BadArity m (N.of_nat (length args))))) ∧
  (tf_const f = true → ∀ ctx ctx' args, tf_invoke f ctx args = tf_invoke f ctx' args).

(** A body that does not find fault with the number of arguments. *)
Definition no_arity {A} (r : f_result A) : Prop := ∀ m n, r ≠ FErr (BadArity m n).

Lemma no_arity_ok {A} (a : A) : no_arity (FOk a).
Proof. done. Qed.
Lemma no_arity_bind {A B} (r : f_result A) (f : A → f_result B) :
  no_arity r → (∀ a, no_arity (f a)) → no_arity (r ≫= f).
Proof. destruct r as [a|e]; [intros _ Hf; apply Hf|]. intros Hr _ m n [= ->]. by apply (Hr m n). Qed.
Lemma no_arity_fmap {A B} (r : f_result A) (f : A → B) : no_arity r → no_arity (f <$> r).
Proof. destruct r as [a|e]; [done|]. intros Hr m n [= ->]. by apply (Hr m n). Qed.
Lemma no_arity_runtime {A} m (r : io A) : no_arity (or_runtime m r).
Proof. by destruct r. Qed.
Lemma no_arity_type {A} m (o : option A) : no_arity (or_bad_type m o).
Proof. by destruct o. Qed.
Lemma no_arity_each {A B} (f : A → f_result B) l : (∀ x, no_arity (f x)) → no_arity (f_each f l).
Proof.
  intros Hf. induction l as [|x l IH]; [done|]. cbn [f_each].
  apply no_arity_bind; [apply Hf|]. intros y. by apply no_arity_bind.
Qed.

(** The functions the macros make. *)
Lemma declared_fn c m n k (invoke : std_context → list value → f_result value) (code : std_context → list value → f_result value) :
  (∀ ctx args, invoke ctx args = if decide (length args = k) then code ctx args else bad_arity m n (N.of_nat k) args) →
  (∀ ctx args, no_arity (code ctx args)) →
  (c = true → ∀ ctx ctx' args, code ctx args = code ctx' args) →
  well_declared (TremorFn m n c (N.of_nat k, N.of_nat k) invoke).
Proof.
  intros Hi Hn Hc. split.
  - intros ctx args _. unfold valid_arity. cbn [tf_arity tf_invoke fst snd]. rewrite Hi.
    destruct (decide (length args = k)) as [<-|Hk].
    + rewrite !N.leb_refl. split; [done|]. intros [e He]. by destruct (Hn ctx args e (N.of_nat (length args))).
    + split; [intros _; by eexists|]. intros _. apply andb_false_iff. rewrite !N.leb_gt. lia.
  - cbn. intros -> ctx ctx' args. rewrite !Hi. destruct (decide _); [by apply Hc|done].
Qed.

Lemma declared0 c m n code :
  (∀ ctx, no_arity (code ctx)) → (c = true → ∀ ctx ctx', code ctx = code ctx') → well_declared (fn0 c m n code).
Proof.
  intros Hn Hc. apply (declared_fn c m n 0 _ (λ ctx _, code ctx)); [|done|auto].
  by intros ctx [|].
Qed.
Lemma declared1 c m n code :
  (∀ ctx a, no_arity (code ctx a)) → (c = true → ∀ ctx ctx' a, code ctx a = code ctx' a) →
  well_declared (fn1 c m n code).
Proof.
  intros Hn Hc. apply (declared_fn c m n 1 _ (λ ctx args, match args with [a] => code ctx a | _ => FOk const_null end)).
  - by intros ctx [|? [|]].
  - by intros ctx [|? [|]].
  - intros -> ctx ctx' [|? [|]]; auto.
Qed.
Lemma declared2 c m n code :
  (∀ ctx a b, no_arity (code ctx a b)) → (c = true → ∀ ctx ctx' a b, code ctx a b = code ctx' a b) →
  well_declared (fn2 c m n code).
Proof.
  intros Hn Hc.
  apply (declared_fn c m n 2 _ (λ ctx args, match args with [a; b] => code ctx a b | _ => FOk const_null end)).
  - by intros ctx [|? [|? [|]]].
  - by intros ctx [|? [|? [|]]].
  - intros -> ctx ctx' [|? [|? [|]]]; auto.
Qed.
Lemma declared3 c m n code :
  (∀ ctx x y z, no_arity (code ctx x y z)) → (c = true → ∀ ctx ctx' x y z, code ctx x y z = code ctx' x y z) →
  well_declared (fn3 c m n code).
Proof.
  intros Hn Hc.
  apply (declared_fn c m n 3 _ (λ ctx args, match args with [x; y; z] => code ctx x y z | _ => FOk const_null end)).
  - by intros ctx [|? [|? [|? [|]]]].
  - by intros ctx [|? [|? [|? [|]]]].
  - intros -> ctx ctx' [|? [|? [|? [|]]]]; auto.
Qed.
Lemma declared4 c m n code :
  (∀ ctx x y z w, no_arity (code ctx x y z w)) →
  (c = true → ∀ ctx ctx' x y z w, code ctx x y z w = code ctx' x y z w) →
  well_declared (fn4 c m n code).
Proof.
  intros Hn Hc.
  apply (declared_fn c m n 4 _ (λ ctx args, match args with [x; y; z; w] => code ctx x y z w | _ => FOk const_null end)).
  - by intros ctx [|? [|? [|? [|? [|]]]]].
  - by intros ctx [|? [|? [|? [|? [|]]]]].
  - intros -> ctx ctx' [|? [|? [|? [|? [|]]]]]; auto.
Qed.
Lemma declared_typed1 {A} c m n (p : value → option A) code :
  (∀ ctx a, no_arity (code ctx a)) → (c = true → ∀ ctx ctx' a, code ctx a = code ctx' a) →
  well_declared (typed1 c m n p code).
Proof. intros Hn Hc. apply declared1; [intros ctx a|intros Hb ctx ctx' a]; destruct (p a); auto; done. Qed.
Lemma declared_typed2 {A B} c m n (p : value → option A) (q : value → option B) code :
  (∀ ctx a b, no_arity (code ctx a b)) → (c = true → ∀ ctx ctx' a b, code ctx a b = code ctx' a b) →
  well_declared (typed2 c m n p q code).
Proof. intros Hn Hc. apply declared2; [intros ctx a b|intros Hb ctx ctx' a b]; destruct (p a), (q b); auto; done. Qed.
Lemma declared_typed3 {A B C} c m n (p : value → option A) (q : value → option B) (r : value → option C) code :
  (∀ ctx x y z, no_arity (code ctx x y z)) → (c = true → ∀ ctx ctx' x y z, code ctx x y z = code ctx' x y z) →
  well_declared (typed3 c m n p q r code).
Proof.
  intros Hn Hc. apply declared3; [intros ctx x y z|intros Hb ctx ctx' x y z]; destruct (p x), (q y), (r z); auto; done.
Qed.

(** A body without a branch that refuses the number of its arguments. *)
Ltac no_arity :=
  intros; repeat first
    [ done
    | apply no_arity_ok | apply no_arity_runtime | apply no_arity_type
    | apply no_arity_fmap | apply no_arity_bind; [|intros ?]
    | apply no_arity_each; intros ?
    | progress case_match
    | progress (match goal with |- no_arity ?r => let r' := eval hnf in r in change (no_arity r') end) ].
Ltac declared :=
  first [ apply declared0 | apply declared_typed1 | apply declared_typed2 | apply declared_typed3
        | apply declared1 | apply declared2 | apply declared3 | apply declared4 ];
  [no_arity | try done].
Ltac all_declared := repeat (apply Forall_cons_2; [declared|]); apply Forall_nil_2.

Section registry.
Context `{vt : !value_trait, ho : !hash_order string, lb : !std_libs}.

Lemma format_no_arity m pos cs args out : no_arity (format_loop m pos cs args out).
Proof.
  remember (length cs) as k eqn:Hk. revert pos cs args out Hk. induction (lt_wf k) as [k _ IH].
  intros pos [|c [|d cs]] args out ->; [done|..]; cbn [format_loop].
  - by repeat case_bool_decide.
  - repeat (case_bool_decide || case_match); try done; (eapply IH; [|reflexivity]; cbn; lia).
Qed.

Lemma array_declared : Forall well_declared array_load.
Proof. all_declared. Qed.
Lemma base64_declared : Forall well_declared base64_load.
Proof. all_declared. Qed.
Lemma binary_declared : Forall well_declared binary_load.
Proof. all_declared. Qed.
Lemma chash_declared : Forall well_declared chash_load.
Proof. all_declared. Qed.
Lemma datetime_declared : Forall well_declared datetime_load.
Proof. all_declared. Qed.
Lemma numbers_declared : Forall well_declared numbers_load.
Proof. all_declared. Qed.
Lemma json_declared : Forall well_declared json_load.
Proof. all_declared. Qed.
Lemma math_declared : Forall well_declared math_load.
Proof. all_declared. Qed.
Lemma origin_declared : Forall well_declared origin_load.
Proof. all_declared. Qed.
Lemma range_declared : Forall well_declared range_load.
Proof. all_declared. Qed.
Lemma re_declared : Forall well_declared re_load.
Proof. all_declared. Qed.
Lemma record_declared : Forall well_declared record_load.
Proof. all_declared. Qed.
Lemma test_declared : Forall well_declared test_load.
Proof. all_declared. Qed.
Lemma type_declared : Forall well_declared type_load.
Proof. all_declared. Qed.
Lemma url_declared : Forall well_declared url_load.
Proof. all_declared. Qed.
Lemma win_declared : Forall well_declared win_load.
Proof. all_declared. Qed.
Lemma path_declared : Forall well_declared path_load.
Proof. all_declared. Qed.
Lemma system_declared : Forall well_declared system_load.
Proof. all_declared. Qed.

(** A function that is called with any number of arguments between two. *)
Lemma declared_range c m n lo hi invoke :
  (∀ ctx args, (N.of_nat (length args) < w64)%N →
     ((lo <=? N.of_nat (length args)) && (N.of_nat (length args) <=? hi))%N = false →
     ∃ e, invoke ctx args = FErr (BadArity e (N.of_nat (length args)))) →
  (∀ ctx args, ((lo <=? N.of_nat (length args)) && (N.of_nat (length args) <=? hi))%N = true → no_arity (invoke ctx args)) →
  (c = true → ∀ ctx ctx' args, invoke ctx args = invoke ctx' args) →
  well_declared (TremorFn m n c (lo, hi) invoke).
Proof.
  intros Hbad Hn Hc. split; [|exact Hc]. intros ctx args Hl. unfold valid_arity. cbn [tf_arity tf_invoke fst snd].
  split; [by apply Hbad|]. intros [e He].
  destruct ((lo <=? N.of_nat (length args)) && (N.of_nat (length args) <=? hi))%N eqn:H; [|done].
  by destruct (Hn ctx args H e (N.of_nat (length args))).
Qed.

Lemma random_declared : Forall well_declared random_load.
Proof.
  apply Forall_cons_2; [declared|]. apply Forall_cons_2; [declared|].
  apply Forall_cons_2; [|apply Forall_cons_2; [|apply Forall_nil_2]].
  all: apply declared_range; [|intros ctx [|a [|b [|c args]]] H; cbn [random_integer random_float]; no_arity|done].
  1, 3: intros ctx [|a [|b [|c args]]] _ H; try (by cbn in H); by eexists.
  all: exfalso; cbn [length] in H; apply andb_true_iff in H as [_ H%N.leb_le]; lia.
Qed.

Lemma string_declared : Forall well_declared string_load.
Proof.
  do 15 (apply Forall_cons_2; [declared|]). apply Forall_cons_2; [|apply Forall_nil_2].
  apply declared_range.
  - intros ctx [|a args] Hl H; [by eexists|]. exfalso. apply andb_false_iff in H as [H%N.leb_gt|H%N.leb_gt].
    + cbn [length] in H. lia.
    + unfold w64 in Hl. lia.
  - intros ctx [|a args] H; [done|]. destruct a as [|s| | |]; cbn [string_format]; try done.
    apply no_arity_bind; [apply format_no_arity|]. no_arity.
  - done.
Qed.

Lemma std_declared : Forall well_declared (system_load ++ std_load).
Proof.
  repeat (apply Forall_app_2); auto using array_declared, base64_declared, binary_declared, chash_declared, datetime_declared,
    numbers_declared, json_declared, math_declared, origin_declared, random_declared, range_declared, re_declared,
    record_declared, string_declared, test_declared, type_declared, url_declared, win_declared, path_declared,
    system_declared.
Qed.

(** C24: Every function scripts find in the standard library is the one of that
    module and name, refuses a call exactly if the number of arguments is
    one it does not declare, and, if it is declared constant, gives the same
    result whatever the context of the event and the clock, so that calls may be checked
    and folded when a script is compiled.  The context is that of the event
    together with the reading of the clock during the call.  Panics of the
    crates, for ranges that are not finite and for formats of dates that are
    not known, are aside. *)
Theorem std_calls_checked m n f :
  find std_registry m n = FOk f →
  tf_module f = m ∧ tf_name f = n ∧
  (∀ ctx args, (N.of_nat (length args) < w64)%N →
     (valid_arity f (N.of_nat (length args)) = false ↔
      ∃ e, tf_invoke f ctx args = FErr (BadArity e (N.of_nat (length args))))) ∧
  (tf_const f = true → ∀ ctx ctx' args, tf_invoke f ctx args = tf_invoke f ctx' args).
Proof.
  unfold std_registry. intros [(Hf & <- & <-)|He]%find_load; [|by rewrite find_empty in He].
  pose proof std_declared as Hd. rewrite Forall_forall in Hd. destruct (Hd f Hf). auto.
Qed.
End registry.

(** ** Text *)
Fixpoint intercalate (sep : list N) (ps : list (list N)) : list N :=
  match ps with
  | [] => []
  | [p] => p
  | p :: ps => p ++ sep ++ intercalate sep ps
  end.

Lemma intercalate_cons sep p ps : ps ≠ [] → intercalate sep (p :: ps) = p ++ sep ++ intercalate sep ps.
Proof. by destruct ps. Qed.

Lemma to_str_app a b : to_str (a ++ b) = to_str a +:+ to_str b.
Proof. unfold to_str. induction a as [|c a IH]; [done|]. cbn. by rewrite IH. Qed.

Lemma concat_to_str sep ps :
  String.concat sep (to_str <$> ps) = to_str (intercalate (as_bytes sep) ps).
Proof.
  induction ps as [|p ps IH]; [done|]. destruct ps as [|q ps]; [done|].
  rewrite intercalate_cons by done. rewrite !to_str_app, to_str_as_bytes, <-IH. done.
Qed.

Lemma chars_join s : mjoin (chars s) = s.
Proof.
  induction s as [|c s IH]; [done|]. cbn [chars]. destruct (chars s) as [|[|d g] gs]; cbn in IH |- *.
  - by rewrite <-IH.
  - by rewrite <-IH.
  - destruct (continues d); cbn; by rewrite <-IH.
Qed.

Lemma split_from_nonempty sep skip s : split_from sep skip s ≠ [].
Proof.
  revert skip. induction s as [|c s IH]; intros [|skip]; cbn; try done.
  destruct (strip sep (c :: s)); [done|]. by destruct (split_from sep 0 s).
Qed.

Lemma replace_split_from from to skip s :
  replace_from from to skip s = intercalate to (split_from from skip s).
Proof.
  revert skip. induction s as [|c s IH]; intros [|skip]; cbn [replace_from split_from]; try done.
  destruct (strip from (c :: s)).
  - rewrite intercalate_cons by apply split_from_nonempty. by rewrite IH.
  - rewrite IH. pose proof (split_from_nonempty from 0 s) as Hn. destruct (split_from from 0 s) as [|w ws]; [done|].
    by destruct ws.
Qed.

Lemma replace_split from to s : str_replace from to s = intercalate to (str_split from s).
Proof.
  destruct from as [|c from]; [|apply replace_split_from]. cbn [str_replace str_split].
  rewrite intercalate_cons by (by destruct (chars s)). cbn. f_equal.
  induction (chars s) as [|c cs IH]; [done|]. cbn [app]. rewrite intercalate_cons by (by destruct cs).
  rewrite <-IH. cbn. by rewrite <-(assoc_L (++)).
Qed.

Lemma strip_Some p s r : strip p s = Some r → s = p ++ r.
Proof.
  revert s. induction p as [|c p IH]; intros s; cbn; [by intros [= <-]|].
  destruct s as [|d s]; [done|]. destruct (N.eqb_spec c d) as [<-|]; [|done]. intros H. cbn. f_equal. by apply IH.
Qed.

Lemma replace_same from skip s : from ≠ [] → replace_from from from skip s = drop skip s.
Proof.
  intros Hf. revert skip. induction s as [|c s IH]; intros [|skip]; cbn [replace_from]; try done.
  - destruct (strip from (c :: s)) as [r|] eqn:Hs; [|by rewrite IH].
    apply strip_Some in Hs. rewrite IH. destruct from as [|d from]; [done|]. cbn in Hs. injection Hs as <- ->.
    cbn. by rewrite drop_app_length.
Qed.

Lemma split_join sep s : intercalate sep (str_split sep s) = s.
Proof.
  rewrite <-replace_split. destruct sep as [|c sep]; [|by apply (replace_same (c :: sep) 0)].
  cbn [str_replace]. rewrite <-(chars_join s) at 2. cbn. f_equal.
  induction (chars s) as [|c cs IH]; [done|]. cbn. by rewrite app_nil_r, IH.
Qed.

Section text.
Context `{vt : !value_trait, ho : !hash_order string, lb : !std_libs}.

Lemma join_pieces ctx ps sep :
  array_join ctx (of_bytes <$> ps) sep = FOk (of_bytes (intercalate (as_bytes sep) ps)).
Proof.
  unfold array_join, of_bytes. do 2 f_equal. rewrite <-concat_to_str, <-list_fmap_compose. done.
Qed.

(** C25: Replacing in a string is splitting it and joining the pieces with the
    replacement, and splitting loses nothing: the pieces joined with the
    separator are the string again; with an empty separator, too. *)
Theorem replace_joins_split ctx s from to :
  ∃ ps, string_split ctx s from = FOk (VArray ps) ∧
    array_join ctx ps to = string_replace ctx s from to ∧
    array_join ctx ps from = FOk (VString s).
Proof.
  eexists. split; [done|]. rewrite !join_pieces. split.
  - unfold string_replace. by rewrite replace_split.
  - rewrite split_join. unfold of_bytes. by rewrite to_str_as_bytes.
Qed.
End text.

(** ** Conversions that can be taken back *)
Section conversions.
Context `{vt : !value_trait, ho : !hash_order string, lb : !std_libs}.

Lemma collect_app l k : collect (l ++ k) = foldl (λ o kv, <[kv.1 := kv.2]> o) (collect l) k.
Proof. unfold collect. by rewrite foldl_app. Qed.

Lemma collect_inserts (o : gmap string value) l :
  NoDup l.*1 → foldl (λ o kv, <[kv.1 := kv.2]> o) o l = list_to_map l ∪ o.
Proof.
  revert o. induction l as [|[k v] l IH]; intros o; cbn; [by rewrite (left_id_L _ _)|].
  intros [Hk Hl]%NoDup_cons. rewrite IH by done. apply map_eq. intros i. rewrite !lookup_union.
  destruct (decide (k = i)) as [<-|Hi].
  - rewrite !lookup_insert_eq, (not_elem_of_list_to_map_1 l k) by done. cbn. by destruct (o !! k).
  - by rewrite !lookup_insert_ne by done.
Qed.
Lemma hash_iter_nodup (o : gmap string value) : NoDup (hash_iter o).*1.
Proof. rewrite hash_iter_perm. apply NoDup_fst_map_to_list. Qed.
Lemma list_to_map_iter (o : gmap string value) : list_to_map (hash_iter o) = o.
Proof.
  rewrite (list_to_map_proper (hash_iter o) (map_to_list o)); [apply list_to_map_to_list| |apply hash_iter_perm].
  apply hash_iter_nodup.
Qed.
Lemma collect_iter (o : gmap string value) : collect (hash_iter o) = o.
Proof.
  unfold collect. rewrite collect_inserts by apply hash_iter_nodup. by rewrite list_to_map_iter, (right_id_L _ _).
Qed.

(** A record is the record of its pairs. *)
Lemma record_from_to_array ctx o l :
  record_to_array ctx o = FOk (VArray l) → record_from_array ctx l = FOk (VObject o).
Proof.
  intros [= <-]. unfold record_from_array.
  assert (f_each record_pair ((λ kv : string * value, VArray [VString kv.1; kv.2]) <$> hash_iter o) = FOk (hash_iter o)) as ->.
  { induction (hash_iter o) as [|[k v] kvs IH]; [done|]. cbn in *. by rewrite IH. }
  cbn. by rewrite collect_iter.
Qed.
(** The right record wins. *)
Lemma record_combine_union ctx l r : record_combine ctx l r = FOk (VObject (r ∪ l)).
Proof.
  unfold record_combine. rewrite collect_app, collect_iter, collect_inserts by apply hash_iter_nodup.
  by rewrite list_to_map_iter.
Qed.
Lemma array_unzip_zip ctx l r :
  length l = length r →
  array_zip ctx l r = FOk (VArray (zip_with (λ x y, VArray [x; y]) l r)) ∧
  array_unzip ctx (zip_with (λ x y, VArray [x; y]) l r) = FOk (VArray [VArray l; VArray r]).
Proof.
  intros Hl. unfold array_zip. rewrite bool_decide_eq_false_2 by (intros H; done). split; [done|].
  unfold array_unzip.
  assert (f_each unzip_pair (zip_with (λ x y, VArray [x; y]) l r) = FOk (zip l r)) as ->.
  { revert r Hl. induction l as [|x l IH]; intros [|y r] Hl; try done. injection Hl as Hl. cbn in *. by rewrite IH. }
  cbn. rewrite fst_zip, snd_zip by lia. done.
Qed.
Lemma binary_into_from ctx b l :
  Forall (λ c, c < 256)%N b → binary_into_bytes ctx (VBytes b) = FOk (VArray l) → binary_from_bytes ctx l = FOk (VBytes b).
Proof.
  intros Hb [= <-]. unfold binary_from_bytes.
  assert (∀ f, (∀ c, (c < 256)%N → f (from_u64 c) = FOk c) → f_each f (from_u64 <$> b) = FOk b) as Hf.
  { intros f Hf. induction Hb as [|c b Hc Hb IH]; [done|]. cbn. rewrite Hf by done. cbn. by rewrite IH. }
  rewrite Hf; [done|]. intros c Hc. unfold as_u8. cbn. rewrite static_as_u64_u64. cbn.
  by rewrite (proj2 (N.ltb_lt c 256) Hc).
Qed.
End conversions.

(** ** Lossy decoding *)
Lemma utf8_lossy_skip n s : utf8_lossy n s = utf8_lossy 0 (drop n s).
Proof. revert n. induction s as [|c s IH]; intros [|n]; try done. cbn [utf8_lossy]. by rewrite IH. Qed.

Lemma utf8_lossy_cons c s :
  utf8_lossy 0 (c :: s) =
  (if (next_char c s).2 then take (next_char c s).1 (c :: s) else replacement) ++
  utf8_lossy 0 (drop (next_char c s).1 (c :: s)).
Proof.
  cbn [utf8_lossy]. assert (1 ≤ (next_char c s).1)%nat as Hn.
  { unfold next_char. repeat case_match; cbn; lia. }
  destruct (next_char c s) as [[|n] b]; cbn in Hn; [lia|]. cbn [pred fst snd]. by rewrite utf8_lossy_skip.
Qed.

(** A complete character in front does not change whether the rest is valid, and
    a valid text begins with a complete character. *)
Lemma utf8_width_cases c :
  (utf8_width c = 1%nat ∧ c < 128 ∨ utf8_width c = 2%nat ∧ 194 ≤ c ≤ 223 ∨ utf8_width c = 3%nat ∧ 224 ≤ c ≤ 239 ∨
   utf8_width c = 4%nat ∧ 240 ≤ c ≤ 244 ∨ utf8_width c = 0%nat ∧ (128 ≤ c < 194 ∨ 244 < c))%N.
Proof.
  unfold utf8_width.
  destruct (N.ltb_spec c 128); [lia|]. destruct (N.leb_spec 194 c), (N.leb_spec c 223); cbn [andb]; [lia|..].
  all: destruct (N.leb_spec 224 c), (N.leb_spec c 239); cbn [andb]; try lia.
  all: destruct (N.leb_spec 240 c), (N.leb_spec c 244); cbn [andb]; lia.
Qed.

Ltac decide_bytes :=
  repeat match goal with
  | |- context [(?a <? ?b)%N] => destruct (N.ltb_spec a b); try lia
  | |- context [(?a <=? ?b)%N] => destruct (N.leb_spec a b); try lia
  | |- context [(?a =? ?b)%N] => destruct (N.eqb_spec a b); try lia
  end; cbn [andb].

Lemma utf8_ok_next c s :
  utf8_ok (c :: s) = (next_char c s).2 && utf8_ok (drop (next_char c s).1 (c :: s)).
Proof.
  unfold next_char, second_ok.
  destruct (utf8_width_cases c) as [[-> ?]|[[-> ?]|[[-> ?]|[[-> ?]|[-> ?]]]]].
  - cbn [utf8_ok]. by rewrite (proj2 (N.ltb_lt c 128)).
  - cbn [utf8_ok]. rewrite (proj2 (N.ltb_ge c 128)) by lia. destruct s as [|d s]; [done|].
    destruct (N.leb_spec 194 c), (N.leb_spec c 223); try lia. cbn [andb].
    destruct (N.eqb_spec c 224), (N.eqb_spec c 237), (N.eqb_spec c 240), (N.eqb_spec c 244); try lia.
    by destruct (continues d).
  - cbn [utf8_ok]. rewrite (proj2 (N.ltb_ge c 128)) by lia. destruct s as [|d [|e s]]; [done|..].
    all: destruct (N.leb_spec 194 c), (N.leb_spec c 223); try lia; cbn [andb].
    { by destruct (if (c =? 224)%N then _ else _). }
    destruct (N.eqb_spec c 224) as [->|]; [by destruct ((160 <=? d)%N && (d <? 192)%N); [destruct (continues e)|]|].
    destruct (N.eqb_spec c 237) as [->|]; [by destruct ((128 <=? d)%N && (d <? 160)%N); [destruct (continues e)|]|].
    destruct (N.leb_spec 225 c), (N.leb_spec c 239); try lia. cbn [andb].
    destruct (N.eqb_spec c 240), (N.eqb_spec c 244); try lia. by destruct (continues d), (continues e).
  - cbn [utf8_ok]. rewrite (proj2 (N.ltb_ge c 128)) by lia. destruct s as [|d [|e [|f s]]]; [done|..].
    all: destruct (N.leb_spec 194 c), (N.leb_spec c 223); try lia; cbn [andb].
    all: destruct (N.eqb_spec c 224), (N.eqb_spec c 237); try lia.
    all: try (by repeat case_match).
    all: destruct (N.leb_spec 225 c), (N.leb_spec c 239); try lia; cbn [andb].
    all: try (by repeat case_match).
    destruct (N.eqb_spec c 240) as [->|].
    { by destruct ((144 <=? d)%N && (d <? 192)%N); [destruct (continues e); [destruct (continues f)|]|]. }
    destruct (N.eqb_spec c 244) as [->|].
    { by destruct ((128 <=? d)%N && (d <? 144)%N); [destruct (continues e); [destruct (continues f)|]|]. }
    destruct (N.leb_spec 241 c), (N.leb_spec c 243); try lia. cbn [andb].
    by destruct (continues d), (continues e), (continues f).
  - cbn [utf8_ok]. rewrite (proj2 (N.ltb_ge c 128)) by lia. destruct s as [|d [|e [|f s]]]; [done|..].
    all: decide_bytes; done.
Qed.

Lemma next_char_take c s t :
  (next_char c s).2 = true → next_char c (take (pred (next_char c s).1) s ++ t) = next_char c s ∧
  drop (next_char c s).1 (c :: take (pred (next_char c s).1) s ++ t) = t ∧
  (1 ≤ (next_char c s).1)%nat.
Proof.
  unfold next_char. destruct (utf8_width c) as [|[|[|[|[|]]]]]; try done; destruct s as [|d s]; try done.
  - destruct (second_ok c d) eqn:Hd; [|done]. cbn. rewrite Hd. repeat split. lia.
  - destruct (second_ok c d) eqn:Hd; [|done]. destruct s as [|e s]; [done|]. destruct (continues e) eqn:He; [|done].
    cbn. rewrite Hd, He. repeat split. lia.
  - destruct (second_ok c d) eqn:Hd; [|done]. destruct s as [|e s]; [done|]. destruct (continues e) eqn:He; [|done].
    destruct s as [|f s]; [done|]. destruct (continues f) eqn:Hf; [|done]. cbn. rewrite Hd, He, Hf. repeat split. lia.
Qed.

(** What is decoded is valid text, and valid text is decoded to itself. *)
Lemma utf8_lossy_valid s : utf8_ok (utf8_lossy 0 s) = true ∧ (utf8_ok s = true → utf8_lossy 0 s = s).
Proof.
  remember (length s) as k eqn:Hk. revert s Hk. induction (lt_wf k) as [k _ IH]. intros [|c s] ->; [done|].
  rewrite utf8_lossy_cons, utf8_ok_next.
  assert (1 ≤ (next_char c s).1)%nat as Hn by (unfold next_char; repeat case_match; cbn; lia).
  destruct (IH (length (drop (next_char c s).1 (c :: s)))) with (s := drop (next_char c s).1 (c :: s)) as [H1 H2];
    [rewrite length_drop; cbn [length]; lia|done|].
  destruct (next_char c s).2 eqn:Hok; cbn [andb]; [|done]. split.
  - destruct (next_char_take c s (utf8_lossy 0 (drop (next_char c s).1 (c :: s))) Hok) as (Hc & Hd & _).
    destruct (next_char c s) as [[|n] b]; cbn in Hn; [lia|]. cbn [fst pred] in *. cbn [take app].
    rewrite utf8_ok_next, Hc. cbn [fst snd]. cbn [snd] in Hok. subst b. cbn [andb]. by rewrite Hd.
  - intros Hs. by rewrite H2, take_drop.
Qed.

(** ** Aggregates *)

(** [SFltb] compares the positions of floats in their order. *)
Definition float_class (f : f64) : Z :=
  match f with
  | S754_infinity true => -2
  | S754_finite true _ _ => -1
  | S754_zero _ => 0
  | S754_finite false _ _ => 1
  | S754_infinity false => 2
  | S754_nan => 3
  end.
Definition float_exp (f : f64) : Z :=
  match f with S754_finite s _ e => if s then (- e)%Z else e | _ => 0 end.
Definition float_mant (f : f64) : Z :=
  match f with S754_finite true m _ => Z.neg m | S754_finite false m _ => Z.pos m | _ => 0 end.
Definition not_nan (f : f64) : Prop := f ≠ S754_nan.

Lemma SFltb_key a b :
  not_nan a → not_nan b →
  SFltb a b = true ↔
  (float_class a < float_class b ∨
   float_class a = float_class b ∧ (float_exp a < float_exp b ∨
   float_exp a = float_exp b ∧ float_mant a < float_mant b))%Z.
Proof.
  unfold not_nan, SFltb, SFcompare. intros Ha Hb.
  destruct a as [?|[]| |[] ma ea], b as [?|[]| |[] mb eb]; try done; cbn.
  all: try (split; [done|lia]); try (split; [lia|done]).
  all: destruct (Z.compare_spec ea eb); cbn; try (split; [done|lia]); try (split; [lia|done]).
  all: fold (Pos.compare ma mb); destruct (Pos.compare_spec ma mb); cbn; split; (done || lia).
Qed.

(** The larger of two floats, the first one of equal ones. *)
Definition fmax (a b : f64) : f64 := if SFltb a b then b else a.
Lemma fmax_nan a b : not_nan a → not_nan b → not_nan (fmax a b).
Proof. unfold fmax. by destruct (SFltb a b). Qed.
Lemma fmax_assoc a b c : not_nan a → not_nan b → not_nan c → fmax (fmax a b) c = fmax a (fmax b c).
Proof.
  intros Ha Hb Hc. pose proof (SFltb_key a b Ha Hb) as Kab. pose proof (SFltb_key b c Hb Hc) as Kbc.
  pose proof (SFltb_key a c Ha Hc) as Kac. unfold fmax.
  destruct (SFltb a b) eqn:Eab, (SFltb b c) eqn:Ebc; rewrite ?Eab, ?Ebc; try done.
  - assert (SFltb a c = true) as -> by (apply Kac; destruct Kab as [Kab _], Kbc as [Kbc _]; specialize (Kab eq_refl);
      specialize (Kbc eq_refl); lia). done.
  - assert (SFltb a c = false) as ->; [|done]. apply not_true_is_false. intros H%Kac.
    destruct Kab as [_ Kab], Kbc as [_ Kbc].
    assert (¬ (false = true)) as Hf by done. apply Hf.
    destruct (decide (float_class a < float_class b ∨ float_class a = float_class b ∧
      (float_exp a < float_exp b ∨ float_exp a = float_exp b ∧ float_mant a < float_mant b))%Z) as [K|K];
      [exact (Kab K)|]. apply Kbc. lia.
Qed.

(** The states of an aggregate, and the arguments it takes. *)
Section run.
Context {A : Type} `{!TremorAggrFn A}.
Fixpoint run (l : list (list value)) (a : A) : A * f_result () :=
  match l with
  | [] => ok a
  | args :: l =>
    let '(a, r) := accumulate args a in match r with FOk _ => run l a | FErr e => (a, FErr e) end
  end.
End run.

(** Merging a state is accumulating what it was accumulated from. *)
Class MergeLaws (A : Type) `{!TremorAggrFn A} (good : list value → Prop) (inv : A → Prop) : Prop := {
  init_inv a : inv (init a);
  accumulate_good args a : good args → inv a → ∃ a', accumulate args a = ok a' ∧ inv a';
  merge_init a b : inv a → merge a (init b) = ok a;
  merge_accumulate a b args : good args → inv a → inv b →
    ∃ a', merge a b = ok a' ∧ merge a (accumulate args b).1 = accumulate args a';
}.

Section laws.
Context {A : Type} `{!TremorAggrFn A} {good : list value → Prop} {inv : A → Prop} `{!MergeLaws A good inv}.

Lemma run_inv l a : Forall good l → inv a → ∃ a', run l a = ok a' ∧ inv a'.
Proof.
  intros Hl. revert a. induction Hl as [|args l Hg _ IH]; intros a Ha; [by eexists|].
  destruct (accumulate_good args a Hg Ha) as (b & Hb & Hi). cbn [run]. rewrite Hb. by apply IH.
Qed.
Lemma run_snoc l args a : run (l ++ [args]) a = match run l a with (a, FOk _) => accumulate args a | e => e end.
Proof.
  revert a. induction l as [|x l IH]; intros a; cbn [run app].
  - unfold ok. by destruct (accumulate args a) as [b [[]|e]].
  - destruct (accumulate x a) as [b [[]|e]]; [apply IH|done].
Qed.
Lemma run_app l k a : run (l ++ k) a = match run l a with (a, FOk _) => run k a | e => e end.
Proof.
  revert a. induction l as [|x l IH]; intros a; [done|]. cbn [run app].
  destruct (accumulate x a) as [b [[]|e]]; [apply IH|done].
Qed.
Lemma merge_run l a b : Forall good l → inv a → merge a (run l (init b)).1 = run l a.
Proof.
  intros Hl Ha. induction l as [|args l IH] using rev_ind; [by apply merge_init|].
  apply Forall_app in Hl as [Hl [Hg _]%Forall_cons].
  destruct (run_inv l (init b) Hl (init_inv b)) as (c & Hc & Hci). rewrite !run_snoc, Hc.
  specialize (IH Hl). rewrite Hc in IH. cbn in IH |- *.
  destruct (merge_accumulate a c args Hg Ha Hci) as (d & Hd & ->). rewrite Hd in IH. by rewrite <-IH.
Qed.
End laws.

Definition any {A} (_ : A) : Prop := True.
Section instances.
Context `{vt : !value_trait}.

Lemma i64_wrap_add a b : i64_wrap (a + i64_wrap b) = i64_wrap (a + b).
Proof.
  unfold i64_wrap. set (M := 18446744073709551616%Z).
  replace (a + ((b - i64_bot) mod M + i64_bot) - i64_bot)%Z with (a + (b - i64_bot) mod M)%Z by lia.
  rewrite Z.add_mod_idemp_r by done. by replace (a + (b - i64_bot))%Z with (a + b - i64_bot)%Z by lia.
Qed.
Definition in_i64 (a : Count.t) : Prop := i64_wrap (Count.n a) = Count.n a.
Lemma i64_wrap_idemp z : i64_wrap (i64_wrap z) = i64_wrap z.
Proof. pose proof (i64_wrap_add 0 z) as H. exact H. Qed.
#[global] Instance count_laws : MergeLaws Count.t any in_i64.
Proof.
  split; unfold in_i64, any; cbn.
  - done.
  - intros args [n] _ H. eexists. split; [done|]. apply i64_wrap_idemp.
  - intros [n] _ H. cbn in *. rewrite Z.add_0_r, H. done.
  - intros [n] [k] args _ _ _. eexists. split; [done|]. cbn. unfold ok.
    rewrite i64_wrap_add, (Z.add_comm (i64_wrap (n + k)) 1), i64_wrap_add.
    by replace (n + (k + 1))%Z with (1 + (n + k))%Z by lia.
Qed.
#[global] Instance first_laws : MergeLaws First.t any any.
Proof.
  split; unfold any; cbn; [done|by intros; eexists|by intros [[v|]] b _|].
  intros [[v|]] [[w|]] args _ _ _; by eexists.
Qed.
#[global] Instance last_laws : MergeLaws Last.t (λ args, args ≠ []) any.
Proof.
  split; unfold any; cbn; [done|by intros; eexists|by intros [[v|]] b _|].
  intros [v] [w] [|x args] H _ _; [done|]. by eexists.
Qed.
#[global] Instance collect_laws : MergeLaws CollectFlattened.t any any.
Proof.
  split; unfold any; cbn; [done|by intros; eexists|by intros [l]; cbn; rewrite app_nil_r|].
  intros [l] [k] args _ _ _. eexists. split; [done|]. cbn. by rewrite (assoc_L (++)).
Qed.

(** Numbers are needed for the largest one, and no state is one that is no
    number. *)
Definition numeric (args : list value) : Prop := ∃ v, first_f64 args = Some v ∧ not_nan v.
Definition opt_number (a : Max.t) : Prop := match Max.val a with Some v => not_nan v | None => True end.
Definition omax (a b : option f64) : option f64 :=
  match a, b with Some a, Some b => Some (fmax a b) | Some a, None => Some a | None, b => b end.
Lemma max_merge a b : merge a b = ok (Max.mk (omax (Max.val a) (Max.val b))).
Proof.
  destruct a as [[m|]], b as [[m'|]]; try done. unfold omax, fmax. cbn. unfold opt_gt, opt_lt.
  by destruct (SFltb m m').
Qed.
Lemma max_accumulate args v a :
  first_f64 args = Some v → accumulate args a = ok (Max.mk (omax (Max.val a) (Some v))).
Proof.
  intros Hv. cbn. unfold with_f64. rewrite Hv. destruct a as [[m|]]; [|done]. cbn. unfold fmax.
  by destruct (SFltb m v).
Qed.
#[global] Instance max_laws : MergeLaws Max.t numeric opt_number.
Proof.
  split.
  - done.
  - intros args a (v & Hv & Hn) Ha. rewrite (max_accumulate args v a Hv). eexists. split; [done|].
    unfold opt_number in *. cbn. destruct (Max.val a); [by apply fmax_nan|done].
  - by intros [[v|]] b _.
  - intros [o] [o'] args (v & Hv & Hn) Ha Hb. rewrite (max_accumulate args v _ Hv), !max_merge.
    eexists. split; [done|]. rewrite (max_accumulate args v _ Hv). cbn [Max.val fst ok]. do 2 f_equal.
    unfold opt_number in Ha, Hb. destruct o as [m|], o' as [m'|]; [|done..]. cbn in *. by rewrite fmax_assoc.
Qed.
End instances.

Section windows.
Context `{vt : !value_trait, lb : !std_libs, hl : !histograms}.

(** All the events of a window, and the windows merged one after the other, as
    a chain of windows does. *)
Fixpoint accumulate_all (l : list (list value)) (f : aggr_fun) : aggr_fun * f_result () :=
  match l with
  | [] => ok f
  | args :: l =>
    let '(f, r) := fun_accumulate args f in match r with FOk _ => accumulate_all l f | FErr e => (f, FErr e) end
  end.
Definition merge_windows (f : aggr_fun) (ws : list (list (list value))) : aggr_fun :=
  foldl (λ acc w, (fun_merge acc (accumulate_all w (fun_init f)).1).1) (fun_init f) ws.

(** The functions that keep the laws, and the arguments they are given. *)
Definition mergeable (f : aggr_fun) : bool :=
  match f with ACount _ | AMax _ | AFirst _ | ALast _ | ACollectFlattened _ => true | _ => false end.
Definition fits (f : aggr_fun) (args : list value) : Prop :=
  fun_valid_arity f (N.of_nat (length args)) = true ∧
  match f with AMax _ => ∃ v, first_f64 args = Some v ∧ v ≠ S754_nan | _ => True end.

Section box.
Context {A : Type} `{!TremorAggrFn A} {good : list value → Prop} {inv : A → Prop} `{!MergeLaws A good inv}.
Variable box : A → aggr_fun.
Hypothesis box_accumulate : ∀ args a, fun_accumulate args (box a) = boxed box (accumulate args a).
Hypothesis box_merge : ∀ a b, fun_merge (box a) (box b) = boxed box (merge a b).
Hypothesis box_init : ∀ a, fun_init (box a) = box (init a).

Lemma accumulate_box l a : accumulate_all l (box a) = boxed box (run l a).
Proof.
  revert a. induction l as [|args l IH]; intros a; [done|]. cbn. rewrite box_accumulate. unfold boxed. cbn.
  destruct (accumulate args a) as [b [[]|e]]; [apply IH|done].
Qed.
Lemma merge_box a ws :
  Forall (Forall good) ws →
  ∃ s, run (mjoin ws) (init a) = ok s ∧ inv s ∧ merge_windows (box a) ws = box s.
Proof.
  induction ws as [|w ws IH] using rev_ind; intros Hws.
  { exists (init a). split; [done|]. split; [apply init_inv|]. unfold merge_windows. by rewrite box_init. }
  apply Forall_app in Hws as [Hws [Hw _]%Forall_cons]. destruct (IH Hws) as (s & Hs & Hi & Hm).
  destruct (run_inv w s Hw Hi) as (t & Ht & Hti). exists t. split; [|split; [done|]].
  - rewrite join_app. cbn. by rewrite app_nil_r, run_app, Hs.
  - unfold merge_windows in *. rewrite foldl_app, Hm. cbn. rewrite box_init, accumulate_box. unfold boxed. cbn.
    rewrite box_merge, merge_run by done. by rewrite Ht.
Qed.
Lemma accumulate_merge_box a ws :
  Forall (Forall good) ws → accumulate_all (mjoin ws) (fun_init (box a)) = ok (merge_windows (box a) ws).
Proof. intros (s & Hs & _ & ->)%(merge_box a). by rewrite box_init, accumulate_box, Hs. Qed.
End box.

Lemma fits_last a args : fits (ALast a) args → args ≠ [].
Proof. intros [H _]. by destruct args. Qed.

(** C10: A chain of windows aggregates exactly what its windows aggregate: for the
    functions count, max, first, last and collect_flattened, merging the
    states of any windows one after the other gives the state one window has
    after all their events.  The largest of several numbers needs numbers. *)
Theorem aggregates_merge f ws :
  mergeable f = true → Forall (Forall (fits f)) ws →
  accumulate_all (mjoin ws) (fun_init f) = (merge_windows f ws, FOk ()).
Proof.
  intros Hf Hws. destruct f; try done.
  - apply (accumulate_merge_box (good:=any) ACount); try done. by eapply Forall_impl; [exact Hws|intros; by apply Forall_true].
  - apply (accumulate_merge_box (good:=numeric) AMax); try done.
    eapply Forall_impl; [exact Hws|]. intros w Hw. eapply Forall_impl; [exact Hw|]. by intros args [_ H].
  - apply (accumulate_merge_box (good:=any) AFirst); try done. by eapply Forall_impl; [exact Hws|intros; by apply Forall_true].
  - apply (accumulate_merge_box (good:=λ args, args ≠ []) ALast); try done.
    eapply Forall_impl; [exact Hws|]. intros w Hw. eapply Forall_impl; [exact Hw|]. intros args. apply fits_last.
  - apply (accumulate_merge_box (good:=any) ACollectFlattened); try done. by eapply Forall_impl; [exact Hws|intros; by apply Forall_true].
Qed.

(** The smallest value of the windows before is never taken over by a window
    that has none, and is forgotten when a window without any is merged. *)
Lemma min_not_merged (a b : Min.t) : Min.val a = None → merge a b = ok a.
Proof. destruct a as [o], b as [[v|]]; cbn; by intros ->. Qed.
Lemma min_forgotten (a b : Min.t) : Min.val b = None → ∃ c, merge a b = ok c ∧ Min.val c = None.
Proof. destruct a as [[v|]], b as [o]; cbn; intros ->; by eexists. Qed.
End windows.

(** ** Examples *)
Module StdExample.
#[local] Existing Instance simd_value_trait.
#[local] Instance order : hash_order string := some_order string.

(** The year, the month and the day of a number of nanoseconds. *)
Definition civil (n : N) : Z * N * N :=
  (let z := Z.of_N (n / (86400 * giga)) + 719468 in
   let era := z / 146097 in
   let doe := z mod 146097 in
   let yoe := (doe - doe / 1460 + doe / 36524 - doe / 146096) / 365 in
   let doy := doe - (365 * yoe + yoe / 4 - yoe / 100) in
   let mp := (5 * doy + 2) / 153 in
   let m := if mp <? 10 then mp + 3 else mp - 9 in
   (yoe + era * 400 + (if m <=? 2 then 1 else 0), Z.to_N m, Z.to_N (doy - (153 * mp + 2) / 5 + 1)))%Z.
Definition round_to (span n : N) : N :=
  let down := (n mod span)%N in
  if (down =? 0)%N then n
  else if (span - down <=? down)%N then (n + (span - down))%N else (n - down)%N.

(** Libraries in which a regular expression is a literal, and a sketch the
    numbers it was given. *)
#[global] Instance libs : std_libs := {|
  static_eqb a b := match a, b with
                    | SNull, SNull => true
                    | SBool a, SBool b => Bool.eqb a b
                    | SI64 a, SI64 b => (a =? b)%Z
                    | SU64 a, SU64 b => (a =? b)%N
                    | _, _ => false
                    end;
  show_static s := match s with SU64 n => show_N n | _ => "?"%string end;
  show_debug _ := "?"%string;
  show_debug_object _ := "?"%string;
  encode_value v := match v with VStatic (SU64 n) => show_N n | VString s => (quote +:+ s +:+ quote) | _ => "?"%string end;
  json_decode _ := IoErr "?"%string;
  json_encode _ := IoErr "?"%string;
  json_encode_pretty _ := IoErr "?"%string;
  base64_encode b := to_str b;
  base64_decode s := IoOk (as_bytes s);
  percent_decode s := Some s;
  percent_encode s := s;
  regex := string;
  regex_new := IoOk;
  regex_replace re s to := to_str (str_replace (as_bytes re) (as_bytes to) (as_bytes s));
  regex_replace_all re s to := to_str (str_replace (as_bytes re) (as_bytes to) (as_bytes s));
  regex_is_match re s := str_contains (as_bytes s) (as_bytes re);
  regex_split re s := to_str <$> str_split (as_bytes re) (as_bytes s);
  jump_slot _ _ _ n := (n - 1)%N;
  parse_f64 _ := IoErr "invalid float literal"%string;
  to_lowercase s := s;
  to_uppercase s := s;
  char_to_uppercase c := c;
  rng := N;
  seed_from_u64 n := n;
  gen_bool _ := true;
  gen_i64 n := Z.of_N n;
  gen_f64 _ := zero;
  gen_range_u64 n lo hi := (lo + n mod (hi - lo))%N;
  gen_range_i64 n lo hi := (lo + Z.of_N n mod (hi - lo))%Z;
  gen_range_f64 _ lo _ := lo;
  gen_alphanumeric _ n := to_str (repeat 97%N (N.to_nat n));
  naive_datetime := N;
  from_timestamp s n := (Z.to_N s * giga + n)%N;
  dt_year n := (civil n).1.1;
  dt_month n := (civil n).1.2;
  dt_day n := (civil n).2;
  dt_hour n := (n / (3600 * giga) mod 24)%N;
  dt_minute n := (n / (60 * giga) mod 60)%N;
  dt_second n := (n / giga mod 60)%N;
  dt_nanosecond n := (n mod giga)%N;
  round_subsecs n digits := round_to (10 ^ (9 - digits))%N n;
  format_naive _ fmt := fmt;
  format_utc _ fmt := fmt;
  parse_naive _ _ := IoErr "ParseError(Invalid)"%string;
  parse_zoned _ _ := IoErr "ParseError(Invalid)"%string;
  utc_midnight n := Z.of_N (n - n mod (86400 * giga));
  get_hostname := "localhost"%string;
  version := "0.11"%string;
|}.
#[global] Instance sketches : histograms := {|
  dds := list f64;
  dds_new := [];
  dds_add v l := l ++ [v];
  dds_merge a b := a ++ b;
  dds_count l := N.of_nat (length l);
  dds_quantile _ l := head l;
  dds_min := head;
  dds_max := last;
  dds_sum l := Some (foldl f64_add zero l);
  hdr := list N;
  hdr_new_with_bounds _ := IoOk [];
  hdr_record v l := IoOk (v :: l);
  hdr_add a b := IoOk (a ++ b);
  hdr_value_at_percentile _ l := default 0%N (head l);
  hdr_len l := N.of_nat (length l);
  hdr_min l := foldl N.min 0%N l;
  hdr_max l := foldl N.max 0%N l;
  hdr_mean _ := zero;
  hdr_stdev _ := zero;
  powf a _ := f64_mul a a;
|}.

Definition ctx : std_context := new_std_context 0 None 0.
Definition num (n : N) : value := from_u64 n.
Definition str (s : string) : value := VString s.
Definition call (m n : string) (args : list value) : f_result value :=
  f ← find std_registry m n; tf_invoke f ctx args.

Example zip_call : call "array" "zip" [VArray [num 1; num 2]; VArray [str "a"; str "b"]] =
  FOk (VArray [VArray [num 1; str "a"]; VArray [num 2; str "b"]]).
Proof. vm_compute. reflexivity. Qed.
Example format_call : call "string" "format" [str "{} of {{{}}}"; num 1; str "x"] = FOk (str "1 of {x}").
Proof. vm_compute. reflexivity. Qed.
Example round_calls :
  call "math" "round" [from_f64 (f64_div (float_of_Z (-5)) (float_of_Z 2))] = FOk (from_i64 (-3)) ∧
  call "math" "ceil" [from_f64 (f64_div (float_of_Z (-5)) (float_of_Z 2))] = FOk (from_i64 (-2)) ∧
  call "math" "floor" [from_f64 (f64_div (float_of_Z 5) (float_of_Z 2))] = FOk (from_u64 2).
Proof. split_and!; vm_compute; reflexivity. Qed.

(** *** The theorems at these libraries *)
Lemma std_calls_checked_witness :
  let f := typed1 true "array" "len" as_array array_len in
  find std_registry "array" "len" = FOk f ∧
  tf_module f = "array"%string ∧ tf_name f = "len"%string ∧
  (∀ ctx args, (N.of_nat (length args) < w64)%N →
     (valid_arity f (N.of_nat (length args)) = false ↔
      ∃ e, tf_invoke f ctx args = FErr (BadArity e (N.of_nat (length args))))) ∧
  (tf_const f = true → ∀ ctx ctx' args, tf_invoke f ctx args = tf_invoke f ctx' args).
Proof.
  intros f. assert (find std_registry "array" "len" = FOk f) as Hf by (vm_compute; reflexivity).
  split; [exact Hf|]. exact (std_calls_checked "array" "len" f Hf).
Defined.

Definition events (l : list N) : list (list value) := (λ n, [num n]) <$> l.
Lemma aggregates_merge_witness :
  let ws := [events [3; 7]; []; events [5]]%N in
  accumulate_all (mjoin ws) (AMax (Max.mk None)) = (merge_windows (AMax (Max.mk None)) ws, FOk ()) ∧
  merge_windows (AMax (Max.mk None)) ws = AMax (Max.mk (Some (float_of_Z 7))).
Proof.
  intros ws. split; [|vm_compute; reflexivity].
  apply (aggregates_merge (AMax (Max.mk None)) ws); [reflexivity|].
  repeat constructor; try reflexivity; (eexists; split; [vm_compute; reflexivity|discriminate]).
Defined.

(** The tests of std_lib/datetime.rs. *)
Example datetime_calls :
  call "datetime" "hour" [num 1559655782123456789] = FOk (num 13) ∧
  call "datetime" "minute" [num 1559655782123456789] = FOk (num 43) ∧
  call "datetime" "microsecond" [num 1559655782123456789] = FOk (num 456) ∧
  call "datetime" "year" [num 1559655782123456789] = FOk (num 2019) ∧
  call "datetime" "day" [num 1559655782123456789] = FOk (num 4) ∧
  call "datetime" "to_nearest_millisecond" [num 123789654] = FOk (num 124000000) ∧
  call "datetime" "from_human_format" [str "1 second 3 days"] = FOk (num 259201000000000).
Proof. split_and!; vm_compute; reflexivity. Qed.

(** *** What is not as it should be *)

(** The second a rounded time is carried into is lost, lengths of time from a
    hundred and thirty-seven years on wrap, and hours are no human format. *)
Example rounds_down :
  call "datetime" "to_nearest_millisecond" [num 1999999999] = FOk (num 1000000000) ∧
  call "datetime" "to_nearest_microsecond" [num 1999999999] = FOk (num 1000000000).
Proof. split; vm_compute; reflexivity. Qed.
Example years_wrap :
  call "datetime" "with_years" [num 136] = FOk (num 4291833600000000000) ∧
  call "datetime" "with_years" [num 137] = FOk (num 28402304000000000).
Proof. split; vm_compute; reflexivity. Qed.
Example no_hours :
  (∃ e, call "datetime" "from_human_format" [str "2 hours"] = FErr e) ∧
  call "datetime" "from_human_format" [str "2 hours 1 minute"] = FOk (num 60000000000).
Proof. split; [eexists|]; vm_compute; reflexivity. Qed.

(** The smallest value of two windows. *)
Example min_of_windows :
  (fun_emit (merge_windows (AMin Min.default) [events [5]; events [3]]%N)).2 = FOk (from_f64 zero) ∧
  (fun_emit (accumulate_all (events [5; 3]%N) (AMin Min.default)).1).2 = FOk (from_f64 (float_of_Z 3)).
Proof. split; vm_compute; reflexivity. Qed.

(** The variance of two windows. *)
Example var_of_windows :
  (fun_emit (merge_windows (AVar Var.default) [events [1; 2]; events [11; 12]]%N)).2 ≠
  (fun_emit (accumulate_all (events [1; 2; 11; 12]%N) (AVar Var.default)).1).2 ∧
  (fun_emit (merge_windows (AVar Var.default) [events [1; 2]; events [11; 12]]%N)).2 =
  FOk (from_f64 (f64_div (float_of_Z 1) (float_of_Z 3))).
Proof. split; vm_compute; [discriminate|reflexivity]. Qed.

(** A sketch of 8192 values is one of none. *)
Definition count_of (r : f_result value) : option value :=
  match r with FOk (VObject o) => o !! "count"%string | _ => None end.
Definition many (n : nat) : list (list value) := repeat [num 1] n.
Example full_cache_lost :
  count_of (fun_emit (accumulate_all (many 8191) (AHdr Hdr.default)).1).2 = Some (from_u64 8191) ∧
  count_of (fun_emit (accumulate_all (many 8192) (AHdr Hdr.default)).1).2 = Some (from_u64 0) ∧
  count_of (fun_emit (accumulate_all (many 8192) (ADds Dds.default)).1).2 = Some (from_u64 0).
Proof. split_and!; vm_compute; reflexivity. Qed.

(** The start of a substring beyond the end is the beginning, and a start behind
    the end gives the whole string. *)
Example substr_beyond :
  call "string" "substr" [str "abc"; num 1; num 2] = FOk (str "b") ∧
  call "string" "substr" [str "abc"; num 5; num 9] = FOk (str "abc") ∧
  call "string" "substr" [str "abc"; num 2; num 1] = FOk (str "abc").
Proof. split_and!; vm_compute; reflexivity. Qed.

(** A segment that does not fit is skipped, not answered with the default. *)
Example path_skips :
  call "path" "try_default" [VObject {["a"%string := num 1]}; VArray [num 0]; str "default"] =
    FOk (VObject {["a"%string := num 1]}) ∧
  call "path" "try_default" [VObject {["a"%string := num 1]}; VArray [str "b"]; str "default"] = FOk (str "default").
Proof. split; vm_compute; reflexivity. Qed.

(** An unsigned number above the signed ones is an integer, and is none. *)
Example large_integer :
  call "type" "as_string" [num 18446744073709551615] = FOk (str "integer") ∧
  call "type" "is_integer" [num 18446744073709551615] = FOk FALSE.
Proof. split; vm_compute; reflexivity. Qed.
End StdExample.

(** What [rename] gives depends on the order of the record. *)
Module RenameExample.
#[local] Existing Instance simd_value_trait.
Definition backwards : hash_order string.
Proof.
  refine {| hash_iter := λ V m, reverse (map_to_list m) |}. intros V m. by rewrite reverse_Permutation.
Defined.
Definition record : gmap string value := {["a"%string := from_u64 1; "b"%string := from_u64 2]}.
Example rename_order :
  @record_rename (some_order string) StdExample.ctx record {["a"%string := VString "b"]} ≠
  @record_rename backwards StdExample.ctx record {["a"%string := VString "b"]}.
Proof. vm_compute. discriminate. Qed.
End RenameExample.
