(* ===== verification/Bits.v ===== *)
(** Binary literals: writing values bit by bit
    (tremor-script/src/ast/binary.rs).

    The bits are written most significant first.  [u8] and [u64] are numbers,
    cut where the code casts or shifts bits out. *)
From S2P Require Import Wal Prelude Value ValueOrd ScriptOps.

Inductive bytes_data_type := SignedInteger | UnsignedInteger | Binary.
Inductive endian := Little | Big.

(** [bytes], [buf] and [pending] of the functions. *)
Record bit_writer := BitWriter { written : list N; buf : N; pending : N }.

Definition push_bytes (b : list N) (w : bit_writer) : bit_writer :=
  BitWriter (written w ++ b) (buf w) (pending w).

Definition as_u8 (v : N) : N := (v mod 256)%N.

(** The last branch of [write_bits_be], where the bits are whole bytes. *)
Definition write_whole (bits v : N) : list N :=
  match bits with
  | 8 => [as_u8 v]
  | 16 => be_bytes 2 v
  | 24 => as_u8 (N.shiftr v 16) :: be_bytes 2 v
  | 32 => be_bytes 4 v
  | 40 => as_u8 (N.shiftr v 32) :: be_bytes 4 v
  | 48 => be_bytes 2 (N.shiftr v 32) ++ be_bytes 4 v
  | 56 => as_u8 (N.shiftr v 48) :: be_bytes 2 (N.shiftr v 32) ++ be_bytes 4 v
  | _ => be_bytes 8 v
  end%N.

Definition bit_mask (bits : N) : N := ((N.shiftl 1 (bits + 1) - 1) mod w64)%N.

Section step.
Variable write_bits_be : N → N → bit_writer → bit_writer.

Definition write_bits_be_step (bits v : N) (w : bit_writer) : bit_writer :=
  (let v := N.land v (bit_mask bits) in
   if bits =? 0 then w
   else if 0 <? pending w then
     if 8 <=? bits + pending w then
       let missing := 8 - pending w in
       let shift := bits - missing in
       let b := N.lor (buf w) (as_u8 (N.shiftr v shift)) in
       write_bits_be shift v (BitWriter (written w ++ [b]) 0 0)
     else
       let shift := 8 - (bits + pending w) in
       BitWriter (written w) (N.lor (buf w) (as_u8 (N.shiftl (as_u8 v) shift))) (pending w + bits)
   else if 0 <? bits mod 8 then
     let extra := bits mod 8 in
     let w := write_bits_be (bits - extra) (N.shiftr v extra) w in
     let b := N.land (as_u8 v) (N.shiftl 1 extra - 1) in
     BitWriter (written w) (as_u8 (N.shiftl b (8 - extra))) extra
   else push_bytes (write_whole bits v) w)%N.
End step.

(** The recursion goes from pending bits to none, and from there to whole
    bytes: three levels. *)
Fixpoint write_bits_loop (n : nat) : N → N → bit_writer → bit_writer :=
  match n with
  | O => λ _ _ w, w
  | S n => write_bits_be_step (write_bits_loop n)
  end.
Definition write_bits_be : N → N → bit_writer → bit_writer := write_bits_loop 3.

(** [to_be] on a little endian machine, of a number of [n] bytes. *)
Definition swap_bytes (n : nat) (v : N) : N := be_value (rev (be_bytes n v)).

Definition write_bits_le (bits v : N) (w : bit_writer) : bit_writer :=
  (let v := N.land v (bit_mask bits) in
   if bits <=? 8 then write_bits_be bits v w
   else if bits <=? 16 then write_bits_be bits (swap_bytes 2 v) w
   else if bits <=? 24 then write_bits_be bits (N.shiftr (swap_bytes 4 v) 8) w
   else if bits <=? 32 then write_bits_be bits (swap_bytes 4 v) w
   else if bits <=? 40 then write_bits_be bits (N.shiftr (swap_bytes 8 v) 24) w
   else if bits <=? 48 then write_bits_be bits (N.shiftr (swap_bytes 8 v) 16) w
   else if bits <=? 56 then write_bits_be bits (N.shiftr (swap_bytes 8 v) 8) w
   else write_bits_be bits (swap_bytes 8 v) w)%N.

Definition write_bits (bits : N) (e : endian) (v : N) (w : bit_writer) : bit_writer :=
  match e with Big => write_bits_be bits v w | Little => write_bits_le bits v w end.

(** [Value::as_bytes] *)
Definition value_bytes (v : value) : option (list N) :=
  match v with VBytes b => Some b | VString s => Some (as_bytes s) | _ => None end.

(** [b.get(..bits)], all of the bytes for no bits. *)
Definition binary_slice (bits : N) (b : list N) : option (list N) :=
  if (bits =? 0)%N then Some b
  else if (bits <=? N.of_nat (length b))%N then Some (take (N.to_nat bits) b) else None.

Definition extend_bytes_from_value `{!value_trait} (data_type : bytes_data_type) (e : endian)
    (bits : N) (v : value) (w : bit_writer) : sres bit_writer :=
  match data_type with
  | UnsignedInteger =>
    match as_u64 v with
    | Some v => SOk (write_bits (as_u8 bits) e v w)
    | None => SErr (ScriptMsg "Not an unsigned integer")
    end
  | SignedInteger =>
    match as_i64 v with
    | Some v => SOk (write_bits (as_u8 bits) e (i64_to_u64 v) w)
    | None => SErr (ScriptMsg "Not an signed integer")
    end
  | Binary =>
    match value_bytes v ≫= binary_slice bits with
    | Some b =>
      SOk (if (pending w =? 0)%N then push_bytes b w else foldl (λ w v, write_bits 8 e v w) w b)
    | None => SErr (ScriptMsg "Not a long enough binary")
    end
  end.

(** The last byte of a literal. *)
Definition finish_bytes (w : bit_writer) : list N :=
  if (0 <? pending w)%N then written w ++ [N.shiftr (buf w) (8 - pending w)] else written w.

(** ** Bits

    The [n] low bits of a number, most significant first, and what a writer
    has written. *)
Fixpoint msb (n : nat) (v : N) : list bool :=
  match n with O => [] | S n => N.testbit v (N.of_nat n) :: msb n v end.

Definition byte_bits (b : list N) : list bool := b ≫= msb 8.
Definition stream (w : bit_writer) : list bool :=
  byte_bits (written w) ++ msb (N.to_nat (pending w)) (N.shiftr (buf w) (8 - pending w)).

(** Pending bits are at the top of a byte that is empty below. *)
Definition writer_ok (w : bit_writer) : Prop :=
  (pending w < 8)%N ∧ (buf w < 256)%N ∧
  ∀ i, (i < 8 - pending w)%N → N.testbit (buf w) i = false.

Lemma msb_ext n v w :
  (∀ i, (i < N.of_nat n)%N → N.testbit v i = N.testbit w i) → msb n v = msb n w.
Proof.
  induction n as [|n IH]; intros Heq; [done|]. cbn [msb]. f_equal; [apply Heq; lia|].
  apply IH. intros i Hi. apply Heq. lia.
Qed.

Lemma msb_app n m v :
  msb (n + m) v = msb n (N.shiftr v (N.of_nat m)) ++ msb m v.
Proof.
  induction n as [|n IH]; [done|]. cbn [msb Nat.add app]. rewrite IH. f_equal.
  rewrite N.shiftr_spec'. f_equal. lia.
Qed.

Lemma testbit_small v n i : (v < 2 ^ n)%N → (n ≤ i)%N → N.testbit v i = false.
Proof.
  intros Hv Hi. destruct (decide (v = 0)%N) as [->|Hne]; [apply N.bits_0|].
  apply N.bits_above_log2. enough (N.log2 v < n)%N by lia. apply N.log2_lt_pow2; lia.
Qed.

Lemma as_u8_bit v i : N.testbit (as_u8 v) i = if (i <? 8)%N then N.testbit v i else false.
Proof.
  unfold as_u8. change 256%N with (2 ^ 8)%N. destruct (N.ltb_spec i 8).
  - by apply N.mod_pow2_bits_low.
  - by apply N.mod_pow2_bits_high.
Qed.

Lemma byte_bits_app a b : byte_bits (a ++ b) = byte_bits a ++ byte_bits b.
Proof. apply bind_app. Qed.

Lemma be_bytes_bits n v : byte_bits (be_bytes n v) = msb (8 * n) v.
Proof.
  revert v. induction n as [|n IH]; intros v; [done|].
  cbn [be_bytes]. rewrite byte_bits_app, IH.
  replace (8 * S n)%nat with (8 * n + 8)%nat by lia. rewrite msb_app.
  f_equal; [by rewrite N.shiftr_div_pow2|].
  unfold byte_bits. cbn [mbind list_bind]. rewrite app_nil_r. apply msb_ext. intros i Hi.
  change (v mod 256)%N with (as_u8 v). rewrite as_u8_bit. by destruct (N.ltb_spec i 8); [|lia].
Qed.

Lemma be_bytes_cons n v : be_bytes (S n) v = as_u8 (N.shiftr v (8 * N.of_nat n)) :: be_bytes n v.
Proof.
  revert v. induction n as [|n IH]; intros v; [by rewrite N.shiftr_0_r|].
  change (be_bytes (S (S n)) v) with (be_bytes (S n) (v / 256) ++ [(v mod 256)%N]).
  rewrite IH. cbn [be_bytes app]. f_equal. f_equal.
  change 256%N with (2 ^ 8)%N. rewrite <-N.shiftr_div_pow2, N.shiftr_shiftr. f_equal. lia.
Qed.

Lemma write_whole_bytes bits v :
  (bits mod 8 = 0)%N → (0 < bits ≤ 64)%N → write_whole bits v = be_bytes (N.to_nat (bits / 8)) v.
Proof.
  intros Hmod Hle. assert (bits = 8 * (bits / 8))%N as Heq by (rewrite (N.Div0.div_mod bits 8) at 1; lia).
  assert (bits / 8 ≤ 8)%N as Hk by lia. revert Heq Hk. generalize (bits / 8)%N. intros k -> Hk.
  assert (k = 1 ∨ k = 2 ∨ k = 3 ∨ k = 4 ∨ k = 5 ∨ k = 6 ∨ k = 7 ∨ k = 8)%N as Hcases by lia.
  clear Hmod Hk. destruct_or! Hcases; subst k; try reflexivity.
  - by rewrite (be_bytes_cons 2).
  - by rewrite (be_bytes_cons 4).
  - change (be_bytes 2 (N.shiftr v 32) ++ be_bytes 4 v = be_bytes 6 v). by rewrite !be_bytes_cons, !N.shiftr_shiftr.
  - change (as_u8 (N.shiftr v 48) :: be_bytes 2 (N.shiftr v 32) ++ be_bytes 4 v = be_bytes 7 v). by rewrite !be_bytes_cons, !N.shiftr_shiftr.
Qed.

Lemma mask_bit bits v i : (bits ≤ 64)%N → (i < bits)%N → N.testbit (N.land v (bit_mask bits)) i = N.testbit v i.
Proof.
  intros Hb Hi. rewrite N.land_spec. enough (N.testbit (bit_mask bits) i = true) as -> by apply andb_true_r.
  unfold bit_mask. change w64 with (2 ^ 64)%N. rewrite N.mod_pow2_bits_low by lia.
  rewrite N.shiftl_1_l, <-N.pred_sub, <-N.ones_equiv. apply N.ones_spec_low. lia.
Qed.

Lemma mask_msb bits v : (bits ≤ 64)%N → msb (N.to_nat bits) (N.land v (bit_mask bits)) = msb (N.to_nat bits) v.
Proof. intros Hb. apply msb_ext. intros i Hi. apply mask_bit; lia. Qed.

Lemma mask_id bits v : (bits ≤ 64)%N → (v < 2 ^ bits)%N → N.land v (bit_mask bits) = v.
Proof.
  intros Hb Hv. apply N.bits_inj. intros i.
  destruct (N.ltb_spec i bits) as [Hi|Hi]; [by apply mask_bit|].
  by rewrite N.land_spec, (testbit_small v bits i).
Qed.

Lemma write_whole_stream bits v :
  (bits mod 8 = 0)%N → (0 < bits ≤ 64)%N → byte_bits (write_whole bits v) = msb (N.to_nat bits) v.
Proof.
  intros Hmod Hb. rewrite write_whole_bytes, be_bytes_bits by done. f_equal.
  rewrite (N.Div0.div_mod bits 8) at 2. lia.
Qed.

Lemma stream_full b : stream (BitWriter b 0 0) = byte_bits b.
Proof. unfold stream. cbn. apply app_nil_r. Qed.

(** What the levels of the recursion have in common: the bits of the value
    follow those already written. *)
Definition appends (f : N → N → bit_writer → bit_writer) (P : N → N → bit_writer → Prop) : Prop :=
  ∀ bits v w, (bits ≤ 64)%N → writer_ok w → P bits v w →
    writer_ok (f bits v w) ∧ pending (f bits v w) = ((pending w + bits) mod 8)%N ∧
    stream (f bits v w) = stream w ++ msb (N.to_nat bits) v.

Lemma writer_ok_empty b : writer_ok (BitWriter b 0 0).
Proof. split_and!; [done..|]. intros i _. apply N.bits_0. Qed.

Lemma no_pending w : writer_ok w → pending w = 0%N → ∃ b, w = BitWriter b 0 0.
Proof.
  destruct w as [b u p]; unfold writer_ok; simpl. intros (_ & Hu & Hlow) ->. exists b. f_equal.
  apply N.bits_inj_0. intros i. destruct (N.ltb_spec i 8); [apply Hlow; lia|by apply (testbit_small _ 8)].
Qed.

Lemma step_whole f : appends (write_bits_be_step f) (λ bits _ w, pending w = 0 ∧ bits mod 8 = 0)%N.
Proof.
  intros bits v w Hb Hok [Hp Hmod]. destruct (no_pending w Hok Hp) as [b ->].
  unfold write_bits_be_step. rewrite <-(mask_msb bits v) by done. set (v' := N.land v _).
  destruct (N.eqb_spec bits 0) as [->|Hne]; [by rewrite app_nil_r|].
  rewrite Hmod. unfold push_bytes. cbn [written buf pending]. change (0 <? 0)%N with false. cbn iota.
  rewrite !stream_full, byte_bits_app, write_whole_stream by (done || lia).
  split_and!; [apply writer_ok_empty|done|done].
Qed.

Lemma low_byte extra v :
  (0 < extra < 8)%N →
  let b := as_u8 (N.shiftl (N.land (as_u8 v) (N.shiftl 1 extra - 1)) (8 - extra)) in
  (b < 256)%N ∧ (∀ i, (i < 8 - extra)%N → N.testbit b i = false) ∧
  (∀ i, (i < extra)%N → N.testbit (N.shiftr b (8 - extra)) i = N.testbit v i).
Proof.
  intros Hx b. split_and!; [by apply N.mod_lt|..]; intros i Hi.
  - unfold b. rewrite as_u8_bit. destruct (i <? 8)%N; [|done]. by apply N.shiftl_spec_low.
  - unfold b. rewrite N.shiftr_spec', as_u8_bit. destruct (N.ltb_spec (i + (8 - extra)) 8); [|lia].
    rewrite N.shiftl_spec_high' by lia. replace (i + (8 - extra) - (8 - extra))%N with i by lia.
    rewrite N.land_spec, as_u8_bit. destruct (N.ltb_spec i 8); [|lia].
    rewrite N.shiftl_1_l, <-N.pred_sub, <-N.ones_equiv, N.ones_spec_low by lia. apply andb_true_r.
Qed.

Lemma shiftr_bound v n m : (v < 2 ^ (n + m))%N → (N.shiftr v m < 2 ^ n)%N.
Proof.
  intros Hv. rewrite N.shiftr_div_pow2. apply N.Div0.div_lt_upper_bound. by rewrite <-N.pow_add_r, N.add_comm.
Qed.

Lemma step_aligned f :
  appends f (λ bits _ w, pending w = 0 ∧ bits mod 8 = 0)%N →
  appends (write_bits_be_step f) (λ _ _ w, pending w = 0)%N.
Proof.
  intros Hf bits v w Hb Hok Hp.
  destruct (decide (bits mod 8 = 0)%N) as [Hmod|Hmod]; [by apply step_whole|].
  unfold write_bits_be_step. rewrite <-(mask_msb bits v) by done.
  generalize (N.land v (bit_mask bits)). clear v. intros v.
  destruct (N.eqb_spec bits 0) as [->|Hne]; [done|].
  rewrite Hp. change (0 <? 0)%N with false. cbn iota.
  apply N.neq_0_lt_0 in Hmod as Hx. rewrite (proj2 (N.ltb_lt _ _) Hx).
  pose proof (N.mod_lt bits 8 ltac:(done)) as Hlt. pose proof (N.Div0.div_mod bits 8) as Hdiv.
  set (x := (bits mod 8)%N) in *.
  destruct (Hf (bits - x) (N.shiftr v x) w)%N as (Hok' & Hp' & Hs); [lia|done| |].
  { split; [done|]. replace (bits - x)%N with ((bits / 8) * 8)%N by lia. by apply N.Div0.mod_mul. }
  destruct (low_byte x v) as (Hb1 & Hb2 & Hb3); [lia|].
  split; [done|]. split; [by rewrite N.add_0_l|].
  unfold stream at 1. cbn [written buf pending].
  replace (msb (N.to_nat bits) v) with
    (msb (N.to_nat (bits - x)) (N.shiftr v x) ++ msb (N.to_nat x) v).
  2: { replace (N.to_nat bits) with (N.to_nat (bits - x) + N.to_nat x)%nat by lia.
    rewrite msb_app. by rewrite N2Nat.id. }
  rewrite app_assoc, <-Hs. f_equal; [|apply msb_ext; intros i Hi; apply Hb3; lia].
  destruct (no_pending _ Hok') as [b Hb']; [|by rewrite Hb', stream_full].
  rewrite Hp', Hp, N.add_0_l. replace (bits - x)%N with ((bits / 8) * 8)%N by lia.
  by apply N.Div0.mod_mul.
Qed.

Lemma lor_byte u c p :
  (0 < p < 8)%N → (u < 256)%N → (c < 2 ^ (8 - p))%N → (∀ i, (i < 8 - p)%N → N.testbit u i = false) →
  byte_bits [N.lor u (as_u8 c)] = msb (N.to_nat p) (N.shiftr u (8 - p)) ++ msb (N.to_nat (8 - p)) c.
Proof.
  intros Hp Hu Hc Hlow. unfold byte_bits. cbn [mbind list_bind]. rewrite app_nil_r.
  replace 8%nat with (N.to_nat p + N.to_nat (8 - p))%nat by lia. rewrite msb_app, N2Nat.id.
  f_equal; apply msb_ext; intros i Hi; rewrite ?N.shiftr_spec', N.lor_spec, as_u8_bit.
  - rewrite (testbit_small c (8 - p)) by (done || lia). destruct (_ <? _)%N; apply orb_false_r.
  - rewrite Hlow by lia. by destruct (N.ltb_spec i 8); [|lia].
Qed.

Lemma bits_bound x n : (∀ i, (n ≤ i)%N → N.testbit x i = false) → (x < 2 ^ n)%N.
Proof.
  intros Hx. enough (x mod 2 ^ n = x)%N as <-.
  { apply N.mod_lt. by apply N.pow_nonzero. }
  apply N.bits_inj. intros i. destruct (N.ltb_spec i n).
  - by apply N.mod_pow2_bits_low.
  - rewrite N.mod_pow2_bits_high by done. symmetry. by apply Hx.
Qed.

Lemma step_fits b u p bits v :
  writer_ok (BitWriter b u p) → (v < 2 ^ bits)%N → (bits + p < 8)%N →
  let w := BitWriter b (N.lor u (as_u8 (N.shiftl (as_u8 v) (8 - (bits + p))))) (p + bits) in
  writer_ok w ∧ stream w = stream (BitWriter b u p) ++ msb (N.to_nat bits) v.
Proof.
  unfold writer_ok, stream. cbn [written buf pending]. intros (Hlt & Hu & Hlow) Hv Hpart.
  assert (∀ i, N.testbit (N.lor u (as_u8 (N.shiftl (as_u8 v) (8 - (bits + p))))) i =
    if (i <? 8 - p)%N then (8 - (bits + p) <=? i)%N && N.testbit v (i - (8 - (bits + p)))
    else N.testbit u i) as Hbit.
  { intros i. rewrite N.lor_spec, as_u8_bit. destruct (N.ltb_spec i (8 - p)) as [Hi|Hi].
    - rewrite Hlow by done. destruct (N.ltb_spec i 8); [|lia].
      destruct (N.leb_spec (8 - (bits + p)) i); [|by apply N.shiftl_spec_low].
      rewrite N.shiftl_spec_high', as_u8_bit by done. by destruct (N.ltb_spec (i - (8 - (bits + p))) 8); [|lia].
    - destruct (N.ltb_spec i 8); [|apply orb_false_r].
      rewrite N.shiftl_spec_high', as_u8_bit by lia.
      rewrite (testbit_small v bits) by (done || lia). destruct (_ <? _)%N; apply orb_false_r. }
  set (u' := N.lor u _) in *. clearbody u'. split; [split_and!|].
  - lia.
  - apply (bits_bound _ 8). intros i Hi. rewrite Hbit. destruct (N.ltb_spec i (8 - p)); [lia|].
    by apply (testbit_small u 8).
  - intros i Hi. rewrite Hbit. destruct (N.ltb_spec i (8 - p)); [|lia].
    by destruct (N.leb_spec (8 - (bits + p)) i); [lia|].
  - rewrite <-app_assoc, N2Nat.inj_add, msb_app, N2Nat.id, N.shiftr_shiftr. do 2 f_equal.
    + replace (8 - (p + bits) + bits)%N with (8 - p)%N by lia. apply msb_ext. intros i Hi.
      rewrite !N.shiftr_spec', Hbit. by destruct (N.ltb_spec (i + (8 - p)) (8 - p)); [lia|].
    + apply msb_ext. intros i Hi. rewrite N.shiftr_spec', Hbit.
      destruct (N.ltb_spec (i + (8 - (p + bits))) (8 - p)); [|lia].
      destruct (N.leb_spec (8 - (bits + p)) (i + (8 - (p + bits)))); [|lia]. simpl. f_equal. lia.
Qed.

Lemma step_pending f :
  appends f (λ _ _ w, pending w = 0)%N → appends (write_bits_be_step f) (λ bits v _, v < 2 ^ bits)%N.
Proof.
  intros Hf bits v w Hb Hok Hv.
  destruct (decide (pending w = 0)%N) as [Hp|Hp].
  { apply step_aligned; [|done..]. intros bits' v' w' ? ? [? _]. by apply Hf. }
  unfold write_bits_be_step. rewrite mask_id by done.
  destruct Hok as (Hlt & Hu & Hlow). destruct w as [b u p]; cbn [written buf pending] in *.
  destruct (N.eqb_spec bits 0) as [->|Hne].
  { rewrite N.add_0_r, N.mod_small, app_nil_r by done. done. }
  apply N.neq_0_lt_0 in Hp. rewrite (proj2 (N.ltb_lt _ _) Hp).
  destruct (N.leb_spec 8 (bits + p)) as [Hfull|Hpart].
  - set (shift := (bits - (8 - p))%N).
    destruct (Hf shift v (BitWriter (b ++ [N.lor u (as_u8 (N.shiftr v shift))]) 0 0))
      as (Hok' & Hp' & Hs); [lia|apply writer_ok_empty|done|].
    split; [done|]. split.
    { rewrite Hp'. cbn [pending]. rewrite N.add_0_l. replace (p + bits)%N with (shift + 1 * 8)%N by lia.
      by rewrite N.Div0.mod_add. }
    rewrite Hs, stream_full, byte_bits_app, (lor_byte _ _ p); [|lia|done| |done].
    2: { apply shiftr_bound. by replace (8 - p + shift)%N with bits by lia. }
    replace (N.to_nat bits) with (N.to_nat (8 - p) + N.to_nat shift)%nat by lia.
    rewrite msb_app, N2Nat.id. unfold stream. cbn [written buf pending]. by rewrite <-!app_assoc.
  - destruct (step_fits b u p bits v) as [Hok' Hs]; [done..|].
    split; [done|]. split; [cbn [pending]; symmetry; apply N.mod_small; lia|done].
Qed.

(** Writing the [bits] bits of a value that fits in them appends exactly
    these bits, most significant first, to what is written, whatever the
    number of bits and however many bits are pending; the writer stays well
    formed. *)
Theorem write_bits_be_appends bits v w :
  (bits ≤ 64)%N → (v < 2 ^ bits)%N → writer_ok w →
  writer_ok (write_bits_be bits v w) ∧
  pending (write_bits_be bits v w) = ((pending w + bits) mod 8)%N ∧
  stream (write_bits_be bits v w) = stream w ++ msb (N.to_nat bits) v.
Proof.
  intros Hb Hv Hok. apply (step_pending (write_bits_loop 2)); [|done..].
  apply (step_aligned (write_bits_loop 1)). apply (step_whole (write_bits_loop 0)).
Qed.

Lemma write_bits_be_appends_witness :
  let w := write_bits_be 4 5 (BitWriter [] 0 0) in
  writer_ok (write_bits_be 9 300 w) ∧ pending (write_bits_be 9 300 w) = ((pending w + 9) mod 8)%N ∧
  stream (write_bits_be 9 300 w) = stream w ++ msb 9 300.
Proof.
  intros w. apply (write_bits_be_appends 9 300 w); [done|reflexivity|].
  apply (write_bits_be_appends 4 5); [done|reflexivity|apply writer_ok_empty].
Defined.

(** The mask keeps one bit too many: a value that does not fit writes into
    the bits before it, here the pending zero in front of [31:4]. *)
Example write_bits_be_overflow :
  finish_bytes (write_bits_be 4 31 (write_bits_be 4 0 (BitWriter [] 0 0))) = [31]%N.
Proof. reflexivity. Qed.
