(* ===== verification/Ast.v ===== *)
(** The syntax trees of the script language (tremor-script/src/ast.rs).

    Node ids, source positions, names kept for error messages and the
    documentation are left out.  [Box] and the wrapper [ImutExpr] around an
    [ImutExprInt] disappear, a [KnownKey] is its key, and the two copies the
    code has of [Match], [Comprehension] and their clauses, for expressions
    and for immutable ones, are instances of the same definitions here. *)
From S2P Require Import Prelude Value ScriptOps Bits.

(** ** What scripts call

    The intrinsic functions and the aggregate functions of the registries
    (registry.rs, std_lib/), the extractors (tilde.rs), the JSON encoding of a
    value and the context of an event are known to scripts only through
    these; a function returns a value or the message of an error.  The
    emission of an aggregate leaves it as it is. *)
Inductive extractor_result :=
  | MatchNull
  | Match (v : value)
  | NoMatch
  | ExtractErr (msg : string).

Definition is_match (r : extractor_result) : bool :=
  match r with Match _ | MatchNull => true | NoMatch | ExtractErr _ => false end.
Definition into_match (r : extractor_result) : option value :=
  match r with MatchNull => Some TRUE | Match v => Some v | NoMatch | ExtractErr _ => None end.

Class script_lib := {
  event_context : Type;
  default_context : event_context;
  intrinsic_fn : Type;
  intrinsic_invoke : intrinsic_fn → event_context → list value → io value;
  intrinsic_is_const : intrinsic_fn → bool;
  aggr_fn : Type;
  aggr_emit : aggr_fn → io value;
  extractor : Type;
  extract : extractor → bool → value → event_context → extractor_result;
  encode : value → string;
}.

(** ** Forms shared by expressions and immutable expressions

    [P] are the patterns, [I] the immutable expressions, [C] the paths and
    [E] the expressions in the clauses. *)
Inductive default_case (E : Type) :=
  | DefaultNone
  | DefaultNull
  | DefaultMany (exprs : list E) (last_expr : E)
  | DefaultOne (expr : E).
Arguments DefaultNone {E}.
Arguments DefaultNull {E}.
Arguments DefaultMany {E} _ _.
Arguments DefaultOne {E} _.

Record predicate_clause (P I E : Type) := PredicateClause {
  pattern_of : P;
  guard_of : option I;
  exprs_of : list E;
  last_expr_of : E;
}.
Arguments PredicateClause {P I E}.
Arguments pattern_of {P I E}.
Arguments guard_of {P I E}.
Arguments exprs_of {P I E}.
Arguments last_expr_of {P I E}.

(** The search tree is the sequence of its entries. *)
Inductive clause_group (P I C E : Type) :=
  | Simple (precondition : option C) (patterns : list (predicate_clause P I E))
  | SearchTree (precondition : option C) (tree : list (value * (list E * E)))
      (rest : list (predicate_clause P I E))
  | Combined (precondition : option C) (groups : list (clause_group P I C E))
  | Single (precondition : option C) (pattern : predicate_clause P I E).
Arguments Simple {P I C E}.
Arguments SearchTree {P I C E}.
Arguments Combined {P I C E}.
Arguments Single {P I C E}.

Definition precondition_of {P I C E} (cg : clause_group P I C E) : option C :=
  match cg with Simple p _ | SearchTree p _ _ | Combined p _ | Single p _ => p end.
Definition set_precondition {P I C E} (p : option C) (cg : clause_group P I C E) : clause_group P I C E :=
  match cg with
  | Simple _ ps => Simple p ps
  | SearchTree _ t r => SearchTree p t r
  | Combined _ gs => Combined p gs
  | Single _ c => Single p c
  end.

Record comprehension_case (I E : Type) := ComprehensionCase {
  case_guard : option I;
  case_exprs : list E;
  case_last_expr : E;
}.
Arguments ComprehensionCase {I E}.
Arguments case_guard {I E}.
Arguments case_exprs {I E}.
Arguments case_last_expr {I E}.

Section ast.
Context `{!script_lib}.

(** ** Expressions *)
Inductive imut_expr : Type :=
  | IRecord (base : gmap string value) (fields : list field)
  | IList (exprs : list imut_expr)
  | IBinary (kind : binop) (lhs rhs : imut_expr)
  | IUnary (kind : unop) (expr : imut_expr)
  | IPatch (target : imut_expr) (operations : list patch_operation)
  | IMatch (target : imut_expr) (patterns : list (clause_group pattern imut_expr path imut_expr))
      (default : default_case imut_expr)
  | IComprehension (key_id val_id : N) (target : imut_expr)
      (cases : list (comprehension_case imut_expr imut_expr))
  | IMerge (target expr : imut_expr)
  | IPath (p : path)
  | IString (s : string_lit)
  | ILocal (idx : N) (is_const : bool)
  | ILiteral (v : value)
  | IPresent (p : path)
  | IInvoke1 (i : invoke)
  | IInvoke2 (i : invoke)
  | IInvoke3 (i : invoke)
  | IInvoke (i : invoke)
  | IInvokeAggr (aggr_id : N)
  | IRecur (argc : N) (exprs : list imut_expr)
  | IBytes (parts : list bytes_part)

with field : Type := Field (name : string_lit) (val : imut_expr)

with string_lit : Type := StringLit (elements : list str_lit_element)

with str_lit_element : Type :=
  | SLit (s : string)
  | SExpr (e : imut_expr)

with bytes_part : Type :=
  | BytesPart (data : imut_expr) (data_type : bytes_data_type) (endianess : endian) (bits : N)

with patch_operation : Type :=
  | PInsert (ident : string_lit) (expr : imut_expr)
  | PUpsert (ident : string_lit) (expr : imut_expr)
  | PUpdate (ident : string_lit) (expr : imut_expr)
  | PErase (ident : string_lit)
  | PCopy (from to : string_lit)
  | PMove (from to : string_lit)
  | PMerge (ident : string_lit) (expr : imut_expr)
  | PMergeRecord (expr : imut_expr)
  | PDefault (ident : string_lit) (expr : imut_expr)
  | PDefaultRecord (expr : imut_expr)

with invoke : Type := Invoke (invocable : invocable) (args : list imut_expr)

with invocable : Type :=
  | Intrinsic (f : intrinsic_fn)
  | Tremor (f : custom_fn)

(** [args] is the number of the declared arguments. *)
with custom_fn : Type :=
  | CustomFn (body : list expr) (args : N) (locals : N) (is_const : bool) (inline : bool)

with path : Type :=
  | ConstPath (idx : N) (is_const : bool) (segments : list segment)
  | LocalPath (idx : N) (is_const : bool) (segments : list segment)
  | EventPath (segments : list segment)
  | StatePath (segments : list segment)
  | MetaPath (segments : list segment)
  | ExprPath (expr : imut_expr) (var : N) (segments : list segment)
  | ArgsPath (segments : list segment)
  | WindowPath (segments : list segment)
  | GroupPath (segments : list segment)

with segment : Type :=
  | SegId (key : string)
  | SegIdx (idx : N)
  | SegElement (expr : imut_expr)
  | SegRange (start end_ : imut_expr)

with pattern : Type :=
  | PatRecord (rp : record_pattern)
  | PatArray (exprs : list array_predicate_pattern)
  | PatExpr (expr : imut_expr)
  | PatAssign (idx : N) (p : pattern)
  | PatTuple (exprs : list array_predicate_pattern) (open : bool)
  | PatExtract (test : extractor)
  | PatDoNotCare
  | PatDefault

with record_pattern : Type := RecordPattern (fields : list predicate_pattern)

with predicate_pattern : Type :=
  | TildeEq (key : string) (test : extractor)
  | BinEq (key : string) (rhs : imut_expr) (kind : binop)
  | RecordPatternEq (key : string) (p : record_pattern)
  | ArrayPatternEq (key : string) (exprs : list array_predicate_pattern)
  | TuplePatternEq (key : string) (exprs : list array_predicate_pattern) (open : bool)
  | FieldPresent (key : string)
  | FieldAbsent (key : string)

with array_predicate_pattern : Type :=
  | AExpr (e : imut_expr)
  | ATilde (test : extractor)
  | ARecord (p : record_pattern)
  | AIgnore

with expr : Type :=
  | EMatch (target : imut_expr) (patterns : list (clause_group pattern imut_expr path expr))
      (default : default_case expr)
  | EIfElse (target : imut_expr) (if_clause : predicate_clause pattern imut_expr expr)
      (else_clause : default_case expr)
  | EAssign (p : path) (e : expr)
  | EAssignMoveLocal (p : path) (idx : N)
  | EComprehension (key_id val_id : N) (target : imut_expr)
      (cases : list (comprehension_case imut_expr expr))
  | EDrop
  | EEmit (e : imut_expr) (port : option imut_expr)
  | EImut (e : imut_expr).

Definition segments (p : path) : list segment :=
  match p with
  | ConstPath _ _ s | LocalPath _ _ s | EventPath s | StatePath s | MetaPath s | ExprPath _ _ s
  | ArgsPath s | WindowPath s | GroupPath s => s
  end.

Definition predicate_key (p : predicate_pattern) : string :=
  match p with
  | TildeEq k _ | BinEq k _ _ | RecordPatternEq k _ | ArrayPatternEq k _ | TuplePatternEq k _ _
  | FieldPresent k | FieldAbsent k => k
  end.

(** [ImutExprInt::is_lit] and [StringLit::is_lit] *)
Definition is_lit (e : imut_expr) : bool := match e with ILiteral _ => true | _ => false end.
Definition string_is_lit (s : string_lit) : bool :=
  match s with StringLit [SLit _] => true | _ => false end.

End ast.
