(* ===== verification/Extractors.v ===== *)
(** Extractors: tremor-script/src/tilde.rs.

    Most of them wrap a library; prefixes, suffixes, what a match answers
    with, the judgement of exclusivity and the parser of IPv4 networks are the
    code's own. *)
From Stdlib Require Import Ascii.
From stdpp Require Import pretty.
From S2P Require Import Prelude Value ValueOrd Text Influx ScriptOps Bits Ast.

(** The libraries, and the two wrappers of libraries for dates and grok
    patterns of the repository. *)
Class extractor_libs := {
  glob : Type;
  glob_new : string → option glob;
  glob_matches : glob → string → bool;
  regex : Type;
  captures : Type;
  regex_new : string → option regex;
  regex_is_match : regex → string → bool;
  regex_captures : regex → string → option captures;
  regex_captures_iter : regex → string → list captures;
  capture_names : regex → list string;
  captures_name : captures → string → option string;
  kv_pattern : Type;
  kv_compile : string → option kv_pattern;
  kv_eqb : kv_pattern → kv_pattern → bool;
  kv_run : kv_pattern → string → option value;
  base64_decode : string → option (list N);
  from_utf8 : list N → option string;
  parse_to_value : list N → option value;
  dissect_pattern : Type;
  dissect_compile : string → option dissect_pattern;
  dissect_run : dissect_pattern → string → option (gmap string value);
  grok_pattern : Type;
  grok_compile : string → option grok_pattern;
  grok_matches : grok_pattern → list N → option value;
  ip_addr : Type;
  ip_from_str : string → option ip_addr;
  ipv4_cidr : Type;
  ipv6_cidr : Type;
  from_prefix_and_bits : N * N * N * N → N → option ipv4_cidr;
  ipv6_from_str : string → option ipv6_cidr;
  v4_arrays : ipv4_cidr → list N * list N;
  v6_arrays : ipv6_cidr → list N * list N;
  combiner : Type;
  combiner_new : combiner;
  combiner_push : ipv4_cidr + ipv6_cidr → combiner → combiner;
  combiner_contains : combiner → ip_addr → bool;
  has_tz : string → bool;
  datetime_parse : string → string → bool → option N;

  regex_is_match_captures r s :
    regex_is_match r s = match regex_captures r s with Some _ => true | None => false end;
}.

Section extractors.
Context `{!extractor_libs, !numbers}.

(** ** Networks *)
Definition ip_cidr : Type := ipv4_cidr + ipv6_cidr.

Definition is_digit (c : N) : bool := (48 <=? c)%N && (c <=? 57)%N.
Definition is_hex_letter (c : N) : bool :=
  ((97 <=? c) && (c <=? 102) || (65 <=? c) && (c <=? 70))%N.

(** One or two digits; what follows them is not looked at. *)
Definition parse_network (address : N * N * N * N) (itr : list N) : option ip_cidr :=
  match itr with
  | c :: itr =>
    if is_digit c then
      network_length ← match itr with
                       | c' :: _ => if is_digit c' then Some ((c - 48) * 10 + c' - 48)%N else None
                       | [] => Some (c - 48)%N
                       end;
      if (32 <? network_length)%N then None else inl <$> from_prefix_and_bits address network_length
    else None
  | [] => None
  end.

(** How the digits of a part of an address end. *)
Inductive part_end :=
  | PartEnd (n : N)
  | PartDot (n : N) (rest : list N)
  | PartSlash (n : N) (rest : list N)
  | PartOverflow
  | PartOther (c : N)
  | PartNone.

Fixpoint parse_part (n : N) (itr : list N) : part_end :=
  match itr with
  | [] => PartEnd n
  | c :: itr =>
    if is_digit c then
      let n := (n * 10 + (c - 48))%N in
      if (n <? 256)%N then parse_part n itr else PartOverflow
    else if (c =? 47)%N then PartSlash n itr
    else if (c =? 46)%N then match itr with [] => PartNone | _ => PartDot n itr end
    else PartOther c
  end.

Definition parse_ipv6_fast (s : string) : option ip_cidr := inr <$> ipv6_from_str s.

Definition parse_ipv4_fast (ipstr : string) : option ip_cidr :=
  match parse_part 0 (as_bytes ipstr) with
  | PartOverflow => parse_ipv6_fast ipstr
  | PartOther c => if is_hex_letter c then parse_ipv6_fast ipstr else None
  | PartSlash a itr => parse_network (0, 0, 0, a)%N itr
  | PartEnd a => inl <$> from_prefix_and_bits (0, 0, 0, a)%N 32
  | PartNone => None
  | PartDot a itr =>
    match parse_part 0 itr with
    | PartSlash b itr => parse_network (a, 0, 0, b)%N itr
    | PartEnd b => inl <$> from_prefix_and_bits (a, 0, 0, b)%N 32
    | PartDot b itr =>
      match parse_part 0 itr with
      | PartSlash c itr => parse_network (a, b, 0, c)%N itr
      | PartEnd c => inl <$> from_prefix_and_bits (a, b, 0, c)%N 32
      | PartDot c itr =>
        match parse_part 0 itr with
        | PartSlash d itr => parse_network (a, b, c, d) itr
        | PartEnd d => inl <$> from_prefix_and_bits (a, b, c, d) 32
        | _ => None
        end
      | _ => None
      end
    | _ => None
    end
  end.

Definition cidr_value (c : ip_cidr) : value :=
  let '(prefix, mask) := match c with inl y => v4_arrays y | inr y => v6_arrays y end in
  VObject {["prefix"%string := VArray (from_u64 <$> prefix); "mask"%string := VArray (from_u64 <$> mask)]}.

(** ** [Extractor] *)
Record snot_combiner := SnotCombiner { rules : list string; combiner_ : combiner }.

Inductive Extractor :=
  | Prefix (pfx : string)
  | Suffix (sfx : string)
  | Glob (rule : string) (compiled : glob)
  | Re (rule : string) (compiled : regex)
  | Rerg (rule : string) (compiled : regex)
  | Base64
  | Kv (p : kv_pattern)
  | Json
  | Dissect (rule : string) (compiled : dissect_pattern)
  | Grok (rule : string) (compiled : grok_pattern)
  | Cidr (rules : list string) (range : option snot_combiner)
  | Influx
  | Datetime (format : string) (has_timezone : bool).

Definition cost (self : Extractor) : N :=
  match self with
  | Prefix _ | Suffix _ => 25
  | Base64 | Grok _ _ => 50
  | Glob _ _ => 100
  | Cidr _ _ | Datetime _ _ => 200
  | Kv _ | Json | Dissect _ _ => 500
  | Influx => 750
  | Re _ _ | Rerg _ _ => 1000
  end.

(** [PartialEq]; there is no case for [Rerg], and ranges are their rules. *)
Definition extractor_eqb (self other : Extractor) : bool :=
  match self, other with
  | Base64, Base64 | Json, Json | Influx, Influx => true
  | Re l _, Re r _ | Glob l _, Glob r _ | Dissect l _, Dissect r _ | Grok l _, Grok r _
  | Datetime l _, Datetime r _ | Prefix l, Prefix r | Suffix l, Suffix r => String.eqb l r
  | Kv l, Kv r => kv_eqb l r
  | Cidr _ l, Cidr _ r => bool_decide (rules <$> l = rules <$> r)
  | _, _ => false
  end.

(** *** Strings *)
Definition starts_with (pfx s : string) : bool := String.prefix pfx s.
Definition ends_with (sfx s : string) : bool := String.prefix (string_rev sfx) (string_rev s).
Definition is_wildcard (a : Ascii.ascii) : bool := Ascii.eqb a "*"%char || Ascii.eqb a "?"%char.
Definition contains_wildcard (s : string) : bool := existsb is_wildcard (String.list_ascii_of_string s).

(** [is_prefix] and [is_suffix], the regular expressions [^[^*?]+\*$] and
    [^\*[^*?]+$], with the text around the star; [$] is the end of the text. *)
Definition prefix_rule (rule_text : string) : option string :=
  match string_rev rule_text with
  | String a rest =>
    if Ascii.eqb a "*"%char && negb (String.eqb rest "") && negb (contains_wildcard rest)
    then Some (string_rev rest) else None
  | EmptyString => None
  end.
Definition suffix_rule (rule_text : string) : option string :=
  match rule_text with
  | String a rest =>
    if Ascii.eqb a "*"%char && negb (String.eqb rest "") && negb (contains_wildcard rest)
    then Some rest else None
  | EmptyString => None
  end.

(** The lower case of a name, as far as a comparison with ASCII names can tell:
    the Kelvin sign is the only other character with a letter of ASCII for its
    lower case. *)
Fixpoint to_lowercase (s : list N) : list N :=
  match s with
  | [] => []
  | c :: s' =>
    match s' with
    | c1 :: c2 :: s'' =>
      if bool_decide ([c; c1; c2] = [226; 132; 170]%N) then 107%N :: to_lowercase s''
      else (if (65 <=? c)%N && (c <=? 90)%N then c + 32 else c)%N :: to_lowercase s'
    | _ => (if (65 <=? c)%N && (c <=? 90)%N then c + 32 else c)%N :: to_lowercase s'
    end
  end.

(** [split(',')] *)
Fixpoint split_comma (s : list N) : list N * list (list N) :=
  match s with
  | [] => ([], [])
  | c :: s =>
    let '(part, parts) := split_comma s in
    if (c =? 44)%N then ([], part :: parts) else (c :: part, parts)
  end.

(** *** Building *)
Fixpoint push_rules (rs : list string) (c : combiner) : option combiner :=
  match rs with
  | [] => Some c
  | x :: rs => y ← parse_ipv4_fast x; push_rules rs (combiner_push y c)
  end.
Definition from_rules (rs : list string) : option snot_combiner :=
  SnotCombiner rs <$> push_rules rs combiner_new.

Definition new (id rule_text : string) : option Extractor :=
  let id := to_str (to_lowercase (as_bytes id)) in
  if String.eqb id "glob" then
    match prefix_rule rule_text, suffix_rule rule_text with
    | Some pfx, _ => Some (Prefix pfx)
    | None, Some sfx => Some (Suffix sfx)
    | None, None => Glob rule_text <$> glob_new rule_text
    end
  else if String.eqb id "re" then Re rule_text <$> regex_new rule_text
  else if String.eqb id "rerg" then Rerg rule_text <$> regex_new rule_text
  else if String.eqb id "base64" then Some Base64
  else if String.eqb id "kv" then Kv <$> kv_compile rule_text
  else if String.eqb id "json" then Some Json
  else if String.eqb id "dissect" then Dissect rule_text <$> dissect_compile rule_text
  else if String.eqb id "grok" then Grok rule_text <$> grok_compile rule_text
  else if String.eqb id "cidr" then
    if String.eqb rule_text "" then Some (Cidr [] None)
    else
      let '(part, parts) := split_comma (as_bytes rule_text) in
      let rules := (λ x, to_str (trim x)) <$> part :: parts in
      (λ c, Cidr rules (Some c)) <$> from_rules rules
  else if String.eqb id "influx" then Some Influx
  else if String.eqb id "datetime" then Some (Datetime rule_text (has_tz rule_text))
  else None.

(** [influx::decode], [None] is an error. *)
Definition influx_decode (s : string) (ingest_ns : N) : option (option value) :=
  match Influx.decode (as_bytes s) ingest_ns with inl _ => None | inr r => Some r end.

(** ** Exclusivity *)
Definition is_exclusive_to (self : Extractor) (v : value) : bool :=
  match as_str v with
  | None => true
  | Some s =>
    match self with
    | Prefix pfx => negb (starts_with pfx s)
    | Suffix sfx => negb (ends_with sfx s)
    | Glob _ compiled => negb (glob_matches compiled s)
    | Rerg _ compiled | Re _ compiled => negb (regex_is_match compiled s)
    | Base64 => bool_decide (base64_decode s = None)
    | Kv p => bool_decide (kv_run p s = None)
    | Json => bool_decide (parse_to_value (as_bytes s) = None)
    | Dissect _ compiled => bool_decide (dissect_run compiled s = None)
    | Grok _ compiled => bool_decide (grok_matches compiled (as_bytes s) = None)
    | Cidr _ _ => false
    | Influx => bool_decide (influx_decode s 0 = None)
    | Datetime format has_timezone => bool_decide (datetime_parse s format has_timezone = None)
    end
  end.

(** The last case of [PredicatePattern::is_exclusive_to], for the same field. *)
Definition prefix_or_suffix_exclusive (e1 e2 : Extractor) : bool :=
  match e1, e2 with
  | Prefix p1, Prefix p2 => negb (starts_with p2 p1 || starts_with p1 p2)
  | Suffix p1, Suffix p2 => negb (ends_with p2 p1 || ends_with p1 p2)
  | _, _ => false
  end.

(** ** Extraction *)
Definition bool_match (b : bool) : extractor_result := if b then MatchNull else NoMatch.
Definition map_match {A} (result_needed : bool) (f : A → value) (r : option A) : extractor_result :=
  match r with
  | Some a => if result_needed then Match (f a) else MatchNull
  | None => NoMatch
  end.

(** The captures of the names of a regular expression. *)
Definition named_captures (names : list string) (caps : captures) : gmap string value :=
  foldl (λ o n, match captures_name caps n with Some s => <[n := VString s]> o | None => o end) ∅ names.
Definition push_capture (c : captures) (results : gmap string value) (name : string) : gmap string value :=
  match captures_name c name with
  | Some cap =>
    match results !! name with
    | Some (VArray a) => <[name := VArray (a ++ [VString cap])]> results
    | Some _ => results
    | None => <[name := VArray [VString cap]]> results
    end
  | None => results
  end.
Definition repeated_captures (names : list string) (cs : list captures) : gmap string value :=
  foldl (λ results c, foldl (push_capture c) results names) ∅ cs.

Definition extract (self : Extractor) (result_needed : bool) (v : value) (ingest_ns : N) : extractor_result :=
  match as_str v with
  | None => NoMatch
  | Some s =>
    match self with
    | Prefix pfx => bool_match (starts_with pfx s)
    | Suffix sfx => bool_match (ends_with sfx s)
    | Glob _ glob => bool_match (glob_matches glob s)
    | Kv kv => map_match result_needed id (kv_run kv s)
    | Base64 =>
      match base64_decode s with
      | None => NoMatch
      | Some decoded =>
        if result_needed then
          match from_utf8 decoded with
          | Some s => Match (VString s)
          | None => ExtractErr "failed to decode"
          end
        else MatchNull
      end
    | Json => map_match result_needed id (parse_to_value (as_bytes s))
    | Cidr _ (Some range) =>
      match ip_from_str s with
      | Some input =>
        if combiner_contains (combiner_ range) input then
          if result_needed then map_match true cidr_value (parse_ipv4_fast s) else MatchNull
        else NoMatch
      | None => NoMatch
      end
    | Cidr _ None => map_match result_needed cidr_value (parse_ipv4_fast s)
    | Dissect _ pattern => map_match result_needed VObject (dissect_run pattern s)
    | Grok _ pattern => map_match result_needed id (grok_matches pattern (as_bytes s))
    | Influx => map_match result_needed id (mjoin (influx_decode s ingest_ns))
    | Datetime format has_timezone => map_match result_needed from_u64 (datetime_parse s format has_timezone)
    | Rerg _ re =>
      if result_needed then
        Match (VObject (repeated_captures (capture_names re) (regex_captures_iter re s)))
      else match regex_captures re s with Some _ => MatchNull | None => NoMatch end
    | Re _ compiled =>
      map_match result_needed (λ caps, VObject (named_captures (capture_names compiled) caps))
        (regex_captures compiled s)
    end
  end.

(** ** Networks are read back *)
Definition show_network (a b c d n : N) : string :=
  (pretty a +:+ "." +:+ pretty b +:+ "." +:+ pretty c +:+ "." +:+ pretty d +:+ "/" +:+ pretty n)%string.

Lemma below_forall (P : N → Prop) (k : nat) : Forall P (N.of_nat <$> seq 0 k) → ∀ n, (n < N.of_nat k)%N → P n.
Proof.
  intros Hp n Hn. rewrite Forall_forall in Hp. apply Hp, list_elem_of_fmap. exists (N.to_nat n). split; [lia|].
  apply elem_of_seq. lia.
Qed.

Local Ltac each_number := cbn [fmap list_fmap seq]; repeat constructor; vm_compute; try reflexivity.

Lemma pretty_cons n : (n < 256)%N → ∃ c l, as_bytes (pretty n) = c :: l.
Proof. revert n. apply (below_forall _ 256). each_number. all: by do 2 eexists. Qed.

Lemma parse_part_slash n rest : (n < 256)%N → parse_part 0 (as_bytes (pretty n) ++ 47%N :: rest) = PartSlash n rest.
Proof. revert n. apply (below_forall _ 256). each_number. Qed.

Lemma parse_part_dot n m rest : (n < 256)%N → (m < 256)%N →
  parse_part 0 (as_bytes (pretty n) ++ 46%N :: as_bytes (pretty m) ++ rest) =
  PartDot n (as_bytes (pretty m) ++ rest).
Proof.
  intros Hn Hm. destruct (pretty_cons m Hm) as (c & l & ->). cbn [app]. generalize (l ++ rest). clear l rest.
  intros rest. revert n Hn. apply (below_forall _ 256). each_number.
Qed.

Lemma parse_network_pretty address n : (n ≤ 32)%N →
  parse_network address (as_bytes (pretty n)) = inl <$> from_prefix_and_bits address n.
Proof.
  intros Hn. assert (n < N.of_nat 33)%N as Hn' by lia. clear Hn. revert n Hn'. apply below_forall. each_number.
Qed.

(** An IPv4 network written as an address and the length of its prefix is
    read back as this network. *)
Theorem network_roundtrip a b c d n :
  (a < 256 → b < 256 → c < 256 → d < 256 → n ≤ 32 →
   parse_ipv4_fast (show_network a b c d n) = inl <$> from_prefix_and_bits (a, b, c, d) n)%N.
Proof.
  intros Ha Hb Hc Hd Hn. unfold parse_ipv4_fast, show_network. rewrite !as_bytes_app. cbn [as_bytes app].
  do 3 (rewrite parse_part_dot by done). rewrite parse_part_slash by done. by apply parse_network_pretty.
Qed.

(** ** Exclusive extractors do not match *)
Lemma is_match_bool b : is_match (bool_match b) = b.
Proof. by destruct b. Qed.
Lemma is_match_map {A} (f : A → value) r : is_match (map_match false f r) = bool_decide (is_Some r).
Proof. by destruct r. Qed.

Lemma val_eq_str `{!value_trait} s v : val_eq (VString s) v = true → (∀ l, v ≠ VBytes l) → v = VString s.
Proof.
  intros He Hv. destruct v as [st|t|l|o|l]; [by destruct st| |by cbv in He..|by destruct (Hv l)].
  f_equal. symmetry. by apply String.eqb_eq.
Qed.

(** An extractor that is judged exclusive to a literal matches nothing that
    is equal to it, as long as no result is asked for. *)
Lemma is_exclusive_to_sound `{!value_trait} x v t ns :
  is_exclusive_to x v = true → (∀ l, v ≠ VBytes l) → val_eq t v = true → is_match (extract x false t ns) = false.
Proof.
  intros Hx Hv He. destruct t as [| s | | |]; try done. apply val_eq_str in He as ->; [|done].
  unfold is_exclusive_to in Hx. unfold extract. cbn [as_str] in *.
  destruct x as [p|p|r g|r re|r re| |p| |r d|r g|r range| |f tz]; try done.
  all: rewrite ?is_match_bool, ?is_match_map.
  all: try (by apply negb_true_iff in Hx).
  all: try (by apply bool_decide_eq_true in Hx as ->).
  - rewrite regex_is_match_captures in Hx. by destruct (regex_captures re s).
  - rewrite regex_is_match_captures in Hx. by destruct (regex_captures re s).
  - apply bool_decide_eq_true in Hx. unfold influx_decode in *.
    destruct (Influx.decode (as_bytes s) 0) as [e|] eqn:He; [|done]. by rewrite (Influx.decode_error _ _ ns _ He).
Qed.

(** Of two prefixes of the same string one is a prefix of the other. *)
Lemma prefix_chain p q s :
  starts_with p s = true → starts_with q s = true → starts_with p q || starts_with q p = true.
Proof.
  unfold starts_with. revert p q. induction s as [|a s IH]; intros [|b p] [|c q]; try done; cbn.
  destruct (ascii_dec b a) as [->|], (ascii_dec c a) as [->|]; try done.
  destruct (ascii_dec a a); [|done]. apply IH.
Qed.

Lemma prefix_or_suffix_sound x y t b ns :
  prefix_or_suffix_exclusive x y = true →
  is_match (extract x b t ns) = false ∨ is_match (extract y b t ns) = false.
Proof.
  intros Hxy. unfold extract. destruct (as_str t) as [s|]; [|by left].
  destruct x as [p|p| | | | | | | | | | |], y as [q|q| | | | | | | | | | |]; try done; cbn in Hxy; rewrite !is_match_bool.
  - destruct (starts_with p s) eqn:Hp; [right|by left]. apply not_true_iff_false. intros Hq.
    rewrite orb_comm, (prefix_chain p q s) in Hxy; done.
  - destruct (ends_with p s) eqn:Hp; [right|by left]. apply not_true_iff_false. intros Hq.
    pose proof (prefix_chain _ _ _ Hp Hq) as Hc. unfold starts_with in Hc. unfold ends_with in Hxy.
    by rewrite orb_comm, Hc in Hxy.
Qed.

(** ** What scripts call, with these extractors *)
Definition tilde_lib (L : script_lib) (ingest_ns : @event_context L → N) : script_lib :=
  {| event_context := @event_context L; default_context := @default_context L;
     intrinsic_fn := @intrinsic_fn L; intrinsic_invoke := @intrinsic_invoke L;
     intrinsic_is_const := @intrinsic_is_const L;
     aggr_fn := @aggr_fn L; aggr_emit := @aggr_emit L;
     extractor := Extractor;
     Ast.extract x b v ctx := extract x b v (ingest_ns ctx);
     encode := @encode L |}.
End extractors.

(** ** Concrete libraries, for evaluation

    Patterns match the text they are written as. *)
#[export] Program Instance literal_libs : extractor_libs :=
  {| glob := string; glob_new := Some; glob_matches := String.eqb;
     regex := string; captures := string; regex_new := Some; regex_is_match := String.eqb;
     regex_captures r s := if String.eqb r s then Some s else None;
     regex_captures_iter r s := if String.eqb r s then [s] else [];
     capture_names _ := ["all"%string]; captures_name c _ := Some c;
     kv_pattern := string; kv_compile := Some; kv_eqb := String.eqb; kv_run _ _ := None;
     base64_decode _ := None; from_utf8 l := Some (to_str l); parse_to_value _ := None;
     dissect_pattern := string; dissect_compile := Some; dissect_run _ _ := None;
     grok_pattern := string; grok_compile := Some; grok_matches _ _ := None;
     ip_addr := N; ip_from_str s := Some (N.of_nat (String.length s));
     ipv4_cidr := N * N * N * N * N; ipv6_cidr := string;
     from_prefix_and_bits address n := if (n <=? 32)%N then Some (address, n) else None;
     ipv6_from_str := Some; v4_arrays c := ([c.2], [c.2]); v6_arrays c := ([], as_bytes c);
     combiner := list (N * N * N * N * N + string); combiner_new := []; combiner_push := cons;
     combiner_contains _ _ := true;
     has_tz _ := false; datetime_parse _ _ _ := None |}.
Next Obligation. intros r s. cbn. by destruct (String.eqb r s). Qed.

Module ExtractorExample.
Definition made (r : option Extractor) : string :=
  match r with
  | Some (Prefix p) => "prefix " +:+ p
  | Some (Suffix p) => "suffix " +:+ p
  | Some (Glob r _) => "glob " +:+ r
  | Some (Kv _) => "kv"
  | Some (Cidr rules _) => String.concat ";" rules
  | Some _ => "other"
  | None => "none"
  end.

Example rule_made :
  made <$> [new "Glob" "snot*"; new "glob" "*badger"; new "glob" "*b*"; new "glob" "*";
            new "KV" "x"; new "cidr" " 10.0.0.0/8 , 10.1.2.3"; new "cidr" "x"; new "csv" ""]
  = ["prefix snot"; "suffix badger"; "glob *b*"; "glob *"; "kv"; "10.0.0.0/8;10.1.2.3"; "none"; "none"]%string.
Proof. by vm_compute. Qed.

(** Characters after the second digit of the length are not looked at, an
    address may be empty, and IPv6 networks are only found if the first of
    its characters that is no digit is a letter or its digits overflow. *)
Example network_forms :
  parse_ipv4_fast <$> ["10.0.0.0/245"; ""; "10.1"; "::1"; "1::2"; "fe80::1"; "10.0.0.0/33"; "256.0.0.1"]%string
  = [Some (inl (10, 0, 0, 0, 24)); Some (inl (0, 0, 0, 0, 32)); Some (inl (10, 0, 0, 1, 32)); None; None;
     Some (inr "fe80::1"%string); None; Some (inr "256.0.0.1"%string)]%N.
Proof. by vm_compute. Qed.

(** Repeated captures always match when a result is needed. *)
Example rerg_with_result :
  (λ b, extract (Rerg "a" "a"%string) b (VString "b") 0) <$> [false; true] = [NoMatch; Match (VObject ∅)].
Proof. by vm_compute. Qed.

Lemma network_roundtrip_witness :
  show_network 192 168 0 0 16 = "192.168.0.0/16"%string ∧
  parse_ipv4_fast (show_network 192 168 0 0 16) = Some (inl (192, 168, 0, 0, 16)%N).
Proof. split; [by vm_compute|]. by rewrite (network_roundtrip 192 168 0 0 16). Defined.
End ExtractorExample.
