(* ===== verification/Interp.v ===== *)
(** The interpreter of the script language: tremor-script/src/interpreter.rs,
    interpreter/imut_expr.rs, interpreter/expr.rs, registry/custom_fn.rs and
    the [run] functions of ast.rs.

    An immutable expression only changes local variables; it reads the event,
    the state and the metadata.  The code borrows local variables while it
    overwrites others through a transmuted reference; a borrowed value is a
    copy here.  The operations of the code are definitions over the functions
    that run the parts of an expression; the recursion ties them together, it
    is structural. *)
From S2P Require Import Prelude Value ValueOrd ScriptOps Bits Ast.

(** ** Computations

    A computation over a state that keeps its changes when it fails. *)
Definition run_m (S A : Type) : Type := S → S * sres A.
#[export] Instance run_ret {S} : MRet (run_m S) := λ A a s, (s, SOk a).
#[export] Instance run_bind {S} : MBind (run_m S) := λ A B f m s,
  match m s with (s, SOk a) => f a s | (s, SErr e) => (s, SErr e) end.
#[export] Instance run_fmap {S} : FMap (run_m S) := λ A B f m s,
  match m s with (s, SOk a) => (s, SOk (f a)) | (s, SErr e) => (s, SErr e) end.

Definition of_res {S A} (r : sres A) : run_m S A := λ s, (s, r).
Definition fail {S A} (e : serror) : run_m S A := of_res (SErr e).
Definition read {S} : run_m S S := λ s, (s, SOk s).
Definition write {S} (s : S) : run_m S () := λ _, (s, SOk ()).
(** What a computation returns, the error included. *)
Definition attempt {S A} (m : run_m S A) : run_m S (sres A) := λ s, let '(s, r) := m s in (s, SOk r).

Lemma run_bind_Ok {S A B} (m : run_m S A) (f : A → run_m S B) s s' a :
  m s = (s', SOk a) → (m ≫= f) s = f a s'.
Proof. unfold mbind, run_bind. by intros ->. Qed.
Lemma run_bind_Err {S A B} (m : run_m S A) (f : A → run_m S B) s s' e :
  m s = (s', SErr e) → (m ≫= f) s = (s', SErr e).
Proof. unfold mbind, run_bind. by intros ->. Qed.

(** Indexing with a [usize], and a range of a slice within its bounds. *)
Definition get_idx {A} (l : list A) (i : N) : option A :=
  if (i <? N.of_nat (length l))%N then l !! N.to_nat i else None.
Definition get_range {A} (l : list A) (a b : N) : option (list A) :=
  if (a <=? b)%N && (b <=? N.of_nat (length l))%N
  then Some (take (N.to_nat b - N.to_nat a) (drop (N.to_nat a) l)) else None.

Inductive aggr_type := Tick | EmitAggr.
#[export] Instance aggr_type_eq_dec : EqDecision aggr_type.
Proof. solve_decision. Defined.

Record exec_opts := ExecOpts { result_needed : bool; aggr : aggr_type }.
Definition without_result (o : exec_opts) : exec_opts := ExecOpts false (aggr o).
Definition with_result (o : exec_opts) : exec_opts := ExecOpts true (aggr o).

(** [Cow<Value>], and the borrowed [RECUR_REF], which is told from other
    values by its address. *)
Inductive cow := Borrowed (v : value) | Owned (v : value) | RecurRef.
Definition into_owned (c : cow) : value :=
  match c with Borrowed v | Owned v => v | RecurRef => VString "recur" end.

(** What operators return: truth values are borrowed constants. *)
Definition computed (v : value) : cow :=
  match v with VStatic (SBool _) => Borrowed v | v => Owned v end.

Abbreviation locals := (list (option value)).
Definition with_size (n : N) : locals := replicate (N.to_nat n) None.

Section interp.
Context `{!script_lib, !value_trait, !hash_order string}.

Record env := Env {
  context : event_context;
  consts : list value;
  args : value;
  group : value;
  window : value;
  aggrs : list aggr_fn;
  recursion_limit : N;
}.
Definition get_const (env : env) (idx : N) : sres value :=
  some_or (get_idx (consts env) idx) (Oops 0xdead0010).

(** What an immutable expression reads besides its environment. *)
Record inputs := Inputs { in_event : value; in_state : value; in_meta : value }.

Definition local_get (idx : N) : run_m locals (option value) :=
  local ← read; of_res (some_or (get_idx local idx) (Oops 0xdead000f)).

Definition set_local_shadow (idx : N) (v : value) : run_m locals value :=
  local ← read;
  if (idx <? N.of_nat (length local))%N
  then write (<[N.to_nat idx := Some v]> local);; mret v
  else fail (Oops 0xdead0006).

(** ** Paths *)

(** [KnownKey::lookup] *)
Definition key_lookup (key : string) (target : value) : option value :=
  as_object target ≫= (.!! key).

Definition value_to_index (val : value) (array : list value) : sres N :=
  match as_usize val with
  | Some n => SOk n
  | None =>
    if is_i64 val then SErr (BadArrayIndex val (N.of_nat (length array)))
    else SErr (NeedInt (type_of val))
  end.

Section parts.
Variable run : exec_opts → env → inputs → imut_expr → run_m locals cow.
Variables (opts : exec_opts) (env : env) (inp : inputs).
Local Abbreviation eval e := (into_owned <$> run opts env inp e).

Definition eval_to_string (e : imut_expr) : run_m locals string :=
  v ← eval e; of_res (some_or (as_str v) (NeedStr (type_of v))).

Definition eval_to_index (e : imut_expr) (array : list value) : run_m locals N :=
  v ← eval e; of_res (value_to_index v array).

(** The base of a path, or the local variable that has no value. *)
Definition path_base (p : path) : run_m locals (value + N) :=
  match p with
  | LocalPath idx _ _ =>
    l ← local_get idx;
    mret (match l with Some v => inl v | None => inr idx end)
  | ConstPath idx _ _ => inl <$> of_res (get_const env idx)
  | MetaPath _ => mret (inl (in_meta inp))
  | EventPath _ => mret (inl (in_event inp))
  | StatePath _ => mret (inl (in_state inp))
  | ExprPath e var _ =>
    c ← run opts env inp e;
    match c with
    | Owned o => inl <$> set_local_shadow var o
    | c => mret (inl (into_owned c))
    end
  | ArgsPath _ => mret (inl (args env))
  | GroupPath _ => mret (inl (group env))
  | WindowPath _ => mret (inl (window env))
  end.

(** The current value of a walk along a path, and the range of it that is
    selected. *)
Definition cursor : Type := value * option (list value).
Definition selected (c : cursor) (a : list value) : list value := default a c.2.

Definition resolve_segment (s : segment) (c : cursor) : run_m locals cursor :=
  let current := c.1 in
  match s with
  | SegId key =>
    match key_lookup key current with
    | Some v => mret (v, None)
    | None => if is_object current then fail (BadKey key) else fail (NeedObj (type_of current))
    end
  | SegIdx idx =>
    match current with
    | VArray a =>
      let range := selected c a in
      match get_idx range idx with
      | Some v => mret (v, None)
      | None => fail (ArrayOutOfBound idx idx (N.of_nat (length range)))
      end
    | _ => fail (NeedArr (type_of current))
    end
  | SegRange start end_ =>
    match current with
    | VArray a =>
      let array := selected c a in
      start ← eval_to_index start array;
      end_ ← eval_to_index end_ array;
      if (end_ <? start)%N then fail (DecreasingRange start end_)
      else if (N.of_nat (length array) <? end_)%N
      then fail (ArrayOutOfBound start end_ (N.of_nat (length array)))
      else mret (current, get_range array start end_)
    | _ => fail (NeedArr (type_of current))
    end
  | SegElement e =>
    key ← eval e;
    match current, key with
    | VObject o, VString id =>
      match o !! id with Some v => mret (v, None) | None => fail (BadKey id) end
    | VObject _, other => fail (NeedStr (type_of other))
    | VArray a, idx =>
      let array := selected c a in
      idx ← of_res (value_to_index idx array);
      match get_idx array idx with
      | Some v => mret (v, None)
      | None => fail (ArrayOutOfBound idx idx (N.of_nat (length array)))
      end
    | other, key =>
      if is_str key then fail (NeedObj (type_of other))
      else if is_usize key then fail (NeedArr (type_of other))
      else fail (Oops 0xdead0003)
    end
  end.

Fixpoint resolve_segments (segs : list segment) (c : cursor) : run_m locals cursor :=
  match segs with
  | [] => mret c
  | s :: segs => c ← resolve_segment s c; resolve_segments segs c
  end.

Definition resolve_value (p : path) (base : value) : run_m locals cow :=
  c ← resolve_segments (segments p) (base, None);
  mret (match c with (_, Some range) => Owned (VArray range) | (v, None) => Borrowed v end).

Definition resolve (p : path) : run_m locals cow :=
  base ← path_base p;
  match base with inl v => resolve_value p v | inr idx => fail (UnsetLocal idx) end.

(** ** Presence *)

(** [None] is where the code returns [FALSE]. *)
Definition present_segment (s : segment) (c : cursor) : run_m locals (option cursor) :=
  let current := c.1 in
  match s with
  | SegId key => mret ((λ v, (v, None)) <$> key_lookup key current)
  | SegIdx idx =>
    match current with
    | VArray a => mret ((λ v, (v, None)) <$> get_idx (selected c a) idx)
    | _ => mret None
    end
  | SegRange start end_ =>
    match current with
    | VArray a =>
      let array := selected c a in
      start ← eval_to_index start array;
      end_ ← eval_to_index end_ array;
      if (end_ <? start)%N then fail (DecreasingRange start end_)
      else if (N.of_nat (length array) <? end_)%N then mret None
      else mret (Some (current, get_range array start end_))
    | _ => mret None
    end
  | SegElement e =>
    key ← eval e;
    match current, key with
    | VObject o, VString id => mret ((λ v, (v, None)) <$> o !! id)
    | VArray a, idx =>
      let array := selected c a in
      idx ← of_res (value_to_index idx array);
      mret ((λ v, (v, None)) <$> get_idx array idx)
    | _, _ => mret None
    end
  end.

Fixpoint present_segments (segs : list segment) (c : cursor) : run_m locals bool :=
  match segs with
  | [] => mret true
  | s :: segs =>
    c ← present_segment s c;
    match c with Some c => present_segments segs c | None => mret false end
  end.

Definition present (p : path) : run_m locals cow :=
  base ← path_base p;
  match base with
  | inl v => b ← present_segments (segments p) (v, None); mret (Borrowed (static_bool b))
  | inr _ => mret (Borrowed FALSE)
  end.

(** ** Patterns *)
Definition test_guard (guard : option imut_expr) : run_m locals bool :=
  match guard with
  | None => mret true
  | Some g =>
    test ← eval g;
    of_res (some_or (as_bool test) (GuardNotBool test))
  end.
End parts.

Section patterns.
Variable run : exec_opts → env → inputs → imut_expr → run_m locals cow.
Variable match_rp : exec_opts → env → inputs → value → record_pattern → run_m locals (option value).
Variables (opts : exec_opts) (env : env) (inp : inputs).
Local Abbreviation eval e := (into_owned <$> run opts env inp e).

Definition extracts (test : extractor) (target : value) : option value :=
  into_match (extract test (result_needed opts) target (context env)).

(** What a pattern answers for one candidate. *)
Definition match_array_element (p : array_predicate_pattern) (candidate : value) : run_m locals (option value) :=
  match p with
  | AIgnore => mret (Some candidate)
  | AExpr e => r ← eval e; mret (if val_eq candidate r then Some r else None)
  | ATilde test => mret (extracts test candidate)
  | ARecord rp => match_rp opts env inp candidate rp
  end.

(** The candidates a pattern matches, with their indices; without the need of
    a result the first match ends the search. *)
Fixpoint match_candidates (p : array_predicate_pattern) (idx : N) (a : list value)
    (matched : bool) (acc : list value) : run_m locals (bool * list value) :=
  match a with
  | [] => mret (matched, acc)
  | candidate :: a =>
    r ← match_array_element p candidate;
    match r with
    | Some r =>
      if result_needed opts
      then match_candidates p (idx + 1) a true (acc ++ [VArray [from_u64 idx; r]])
      else mret (true, acc)
    | None => match_candidates p (idx + 1) a matched acc
    end
  end.

Fixpoint match_ap_loop (es : list array_predicate_pattern) (a acc : list value) :
    run_m locals (option value) :=
  match es with
  | [] => mret (Some (VArray acc))
  | e :: es =>
    r ← match e with
        | AIgnore => mret (negb (bool_decide (a = [])), acc)
        | e => match_candidates e 0 a false acc
        end;
    if (r : bool * list value).1 then match_ap_loop es a r.2 else mret None
  end.

Definition match_ap_expr (target : value) (es : list array_predicate_pattern) : run_m locals (option value) :=
  match target with
  | VArray a => match_ap_loop es a []
  | _ => mret None
  end.

Fixpoint match_tp_loop (es : list array_predicate_pattern) (a acc : list value) :
    run_m locals (option value) :=
  match es, a with
  | e :: es, candidate :: a =>
    r ← match_array_element e candidate;
    match r with
    | Some r => match_tp_loop es a (if result_needed opts then acc ++ [r] else acc)
    | None => mret None
    end
  | _, _ => mret (Some (VArray acc))
  end.

Definition match_tp_expr (target : value) (es : list array_predicate_pattern) (open : bool) :
    run_m locals (option value) :=
  match target with
  | VArray a =>
    if (open && (length a <? length es)%nat) || (negb open && negb (length a =? length es)%nat)
    then mret None
    else match_tp_loop es a []
  | _ => mret None
  end.

(** A field of a record pattern: [None] when it does not match, otherwise
    what it adds to the result. *)
Definition match_field (record : gmap string value) (pp : predicate_pattern) :
    run_m locals (option (option value)) :=
  let testee := record !! predicate_key pp in
  match pp with
  | FieldPresent _ => mret (Some <$> testee)
  | FieldAbsent _ => mret (match testee with Some _ => None | None => Some None end)
  | TildeEq _ test => mret (testee ≫= λ v, Some <$> extracts test v)
  | BinEq _ rhs kind =>
    match testee with
    | Some v =>
      rhs ← eval rhs;
      r ← of_res (exec_binary kind v rhs);
      mret (if default false (as_bool r) then Some None else None)
    | None => mret None
    end
  | RecordPatternEq _ p =>
    match testee with
    | Some v => if is_object v then fmap Some <$> match_rp opts env inp v p else mret None
    | None => mret None
    end
  | ArrayPatternEq _ es =>
    match testee with
    | Some v => if is_array v then fmap Some <$> match_ap_expr v es else mret None
    | None => mret None
    end
  | TuplePatternEq _ es open =>
    match testee with
    | Some v => if is_array v then fmap Some <$> match_tp_expr v es open else mret None
    | None => mret None
    end
  end.

Fixpoint match_fields (fields : list predicate_pattern) (record acc : gmap string value) :
    run_m locals (option value) :=
  match fields with
  | [] => mret (Some (VObject acc))
  | pp :: fields =>
    r ← match_field record pp;
    match r with
    | Some (Some v) =>
      match_fields fields record (if result_needed opts then <[predicate_key pp := v]> acc else acc)
    | Some None => match_fields fields record acc
    | None => mret None
    end
  end.

Definition match_rp_expr (target : value) (rp : record_pattern) : run_m locals (option value) :=
  match target, rp with
  | VObject record, RecordPattern fields => match_fields fields record ∅
  | _, _ => mret None
  end.
End patterns.

Section predicates.
Variable run : exec_opts → env → inputs → imut_expr → run_m locals cow.
Variable match_rp : exec_opts → env → inputs → value → record_pattern → run_m locals (option value).
Variables (opts : exec_opts) (env : env) (inp : inputs).

(** What a pattern other than an assignment answers: the value it matched,
    with the need of a result it is run with. *)
Definition match_pattern (o : exec_opts) (target : value) (p : pattern) : run_m locals (option value) :=
  match p with
  | PatExtract test => mret (extracts o env test target)
  | PatDoNotCare => mret (Some target)
  | PatTuple es open => match_tp_expr run match_rp o env inp target es open
  | PatRecord rp => match_rp o env inp target rp
  | PatArray es => match_ap_expr run match_rp o env inp target es
  | PatExpr e =>
    (* with the options of the match *)
    v ← into_owned <$> run opts env inp e;
    mret (if val_eq target v then Some v else None)
  | PatAssign _ _ => fail (Oops 0xdead0004)
  | PatDefault => fail (Oops 0xdead0005)
  end.

Definition test_predicate_expr (target : value) (p : pattern) (guard : option imut_expr) :
    run_m locals bool :=
  match p with
  | PatDefault => mret true
  | PatAssign idx p =>
    r ← match_pattern (with_result opts) target p;
    match r with
    | Some v => set_local_shadow idx v;; test_guard run opts env inp guard
    | None => mret false
    end
  | p =>
    r ← match_pattern (without_result opts) target p;
    match r with Some _ => test_guard run opts env inp guard | None => mret false end
  end.
End predicates.

(** ** Clause groups

    The loop over the groups of a match, which the code has twice. *)

(** The loops end with the first clause that is executed. *)
Section first_hit.
Context {S X R : Type} (f : X → run_m S (option R)).
Fixpoint first_hit (l : list X) : run_m S (option R) :=
  match l with
  | [] => mret None
  | x :: l => r ← f x; match r with Some r => mret (Some r) | None => first_hit l end
  end.
End first_hit.

Section groups.
Context {S P I C E R : Type}.
Variable resolve_precondition : C → value → run_m S (option value).
Variable test : value → P → option I → run_m S bool.
Variable execute : list E → E → run_m S R.

(** The [execute!] macro. *)
Definition run_clause (target : value) (c : predicate_clause P I E) : run_m S (option R) :=
  match c with
  | PredicateClause p g es e =>
    b ← test target p g;
    if (b : bool) then Some <$> execute es e else mret None
  end.

(** [BTreeMap::get], and what is executed for the entry. *)
Fixpoint run_tree (target : value) (tree : list (value * (list E * E))) : option (run_m S R) :=
  match tree with
  | [] => None
  | (k, (es, e)) :: tree =>
    match value_cmp target k with Eq => Some (execute es e) | _ => run_tree target tree end
  end.

(** A group inside of another one may not be combined itself; its
    precondition is not looked at. *)
Fixpoint run_group (nested : bool) (target : value) (cg : clause_group P I C E) : run_m S (option R) :=
  match cg with
  | Simple _ ps => first_hit (run_clause target) ps
  | SearchTree _ tree rest =>
    match run_tree target tree with
    | Some r => Some <$> r
    | None => first_hit (run_clause target) rest
    end
  | Combined _ cgs =>
    if nested then fail NestedCombined
    else first_hit (run_group true target) cgs
  | Single _ p => run_clause target p
  end.

(** A group whose precondition cannot be resolved is passed over. *)
Definition run_top_group (target : value) (cg : clause_group P I C E) : run_m S (option R) :=
  match precondition_of cg with
  | Some c =>
    t ← resolve_precondition c target;
    match t with Some t => run_group false t cg | None => mret None end
  | None => run_group false target cg
  end.

Definition run_default (null : R) (d : default_case E) : run_m S R :=
  match d with
  | DefaultNone => fail NoClauseHit
  | DefaultNull => mret null
  | DefaultMany es e => execute es e
  | DefaultOne e => execute [] e
  end.

Definition run_match (null : R) (target : value) (cgs : list (clause_group P I C E))
    (d : default_case E) : run_m S R :=
  r ← first_hit (run_top_group target) cgs;
  match r with Some r => mret r | None => run_default null d end.
End groups.

(** ** Immutable expressions *)

(** [PreEvaluatedPatchOperation]; a default is evaluated when it is needed. *)
Inductive pre_evaluated :=
  | EvInsert (key : string) (v : value)
  | EvUpdate (key : string) (v : value)
  | EvUpsert (key : string) (v : value)
  | EvErase (key : string)
  | EvCopy (from to : string)
  | EvMove (from to : string)
  | EvMerge (key : string) (mvalue : value)
  | EvMergeRecord (mvalue : value)
  | EvDefault (key : string) (dflt : run_m locals value)
  | EvDefaultRecord (dflt : run_m locals value).

Definition has_key (k : string) (obj : gmap string value) : bool :=
  match obj !! k with Some _ => true | None => false end.

(** An operation of the second pass, on the fields of the target. *)
Definition patch_object (op : pre_evaluated) (obj : gmap string value) : run_m locals value :=
  match op with
  | EvInsert k v => if has_key k obj then fail (PatchKeyExists k) else mret (VObject (<[k := v]> obj))
  | EvUpdate k v => if has_key k obj then mret (VObject (<[k := v]> obj)) else fail (PatchUpdateKeyMissing k)
  | EvUpsert k v => mret (VObject (<[k := v]> obj))
  | EvErase k => mret (VObject (delete k obj))
  | EvCopy from to =>
    if has_key to obj then fail (PatchKeyExists to)
    else mret (VObject (match obj !! from with Some old => <[to := old]> obj | None => obj end))
  | EvMove from to =>
    if has_key to obj then fail (PatchKeyExists to)
    else mret (VObject (match obj !! from with Some old => <[to := old]> (delete from obj) | None => obj end))
  | EvMerge k mvalue =>
    match obj !! k with
    | Some (VObject _ as v) => mret (VObject (<[k := merge_values mvalue v]> obj))
    | Some _ => fail (PatchMergeTypeConflict k)
    | None => mret (VObject (<[k := merge_values mvalue (VObject ∅)]> obj))
    end
  | EvMergeRecord mvalue => mret (merge_values mvalue (VObject obj))
  | EvDefault k dflt =>
    if has_key k obj then mret (VObject obj) else v ← dflt; mret (VObject (<[k := v]> obj))
  | EvDefaultRecord dflt =>
    v ← dflt;
    match v with
    | VObject d => mret (VObject (apply_default d obj))
    | v => fail (NeedObj (type_of v))
    end
  end.

Fixpoint patch_target (ops : list pre_evaluated) (target : value) : run_m locals value :=
  match ops with
  | [] => mret target
  | op :: ops =>
    match target with
    | VObject obj => target ← patch_object op obj; patch_target ops target
    | _ => fail (NeedObj (type_of target))
    end
  end.

Section imut.
Variable run : exec_opts → env → inputs → imut_expr → run_m locals cow.
Variable match_rp : exec_opts → env → inputs → value → record_pattern → run_m locals (option value).
Variable invoke_custom : env → custom_fn → list value → sres value.
Variables (opts : exec_opts) (env : env) (inp : inputs).
Local Abbreviation eval e := (into_owned <$> run opts env inp e).

Fixpoint string_elements (es : list str_lit_element) (out : string) : run_m locals string :=
  match es with
  | [] => mret out
  | SLit l :: es => string_elements es (String.append out l)
  | SExpr e :: es =>
    r ← eval e;
    string_elements es (String.append out (match r with VString s => s | r => encode r end))
  end.

(** [StringLit::run] *)
Definition string_run (s : string_lit) : run_m locals string :=
  match s with StringLit [SLit l] => mret l | StringLit es => string_elements es "" end.

Fixpoint record_fields (fs : list field) (object : gmap string value) : run_m locals (gmap string value) :=
  match fs with
  | [] => mret object
  | Field n e :: fs =>
    result ← eval e;
    name ← string_run n;
    record_fields fs (<[name := result]> object)
  end.

Fixpoint list_elements (es : list imut_expr) : run_m locals (list value) :=
  match es with
  | [] => mret []
  | e :: es => v ← eval e; vs ← list_elements es; mret (v :: vs)
  end.

Fixpoint bytes_parts (ps : list bytes_part) (w : bit_writer) : run_m locals bit_writer :=
  match ps with
  | [] => mret w
  | BytesPart data data_type endianess bits :: ps =>
    v ← eval data;
    w ← of_res (extend_bytes_from_value data_type endianess bits v w);
    bytes_parts ps w
  end.

(** The arguments of a recursion: the last writes are those of the first
    [argc] values. *)
Fixpoint write_args (i : N) (vs : list value) : run_m locals () :=
  match vs with
  | [] => mret ()
  | v :: vs => set_local_shadow i v;; write_args (i + 1) vs
  end.

Definition recur (argc : N) (exprs : list imut_expr) : run_m locals cow :=
  next ← list_elements exprs;
  write_args 0 (take (N.to_nat argc) next);;
  mret RecurRef.

(** The errors of functions become errors of the script. *)
Definition fn_result (r : io value) : sres value :=
  match r with IoOk v => SOk v | IoErr msg => SErr (FnError msg) end.

(** [Invocable::invoke] *)
Definition invoke_invocable (f : invocable) (argv : list value) : sres value :=
  match f with
  | Intrinsic f => fn_result (intrinsic_invoke f (context env) argv)
  | Tremor f => invoke_custom env f argv
  end.

Definition invoke1 (i : invoke) : run_m locals cow :=
  match i with
  | Invoke f (a :: _) => v ← eval a; Owned <$> of_res (invoke_invocable f [v])
  | _ => fail Unreachable
  end.
Definition invoke2 (i : invoke) : run_m locals cow :=
  match i with
  | Invoke f (a :: b :: _) =>
    v1 ← eval a; v2 ← eval b; Owned <$> of_res (invoke_invocable f [v1; v2])
  | _ => fail Unreachable
  end.
Definition invoke3 (i : invoke) : run_m locals cow :=
  match i with
  | Invoke f (a :: b :: c :: _) =>
    v1 ← eval a; v2 ← eval b; v3 ← eval c; Owned <$> of_res (invoke_invocable f [v1; v2; v3])
  | _ => fail Unreachable
  end.
Definition invoke_all (i : invoke) : run_m locals cow :=
  match i with
  | Invoke f args => argv ← list_elements args; Owned <$> of_res (invoke_invocable f argv)
  end.

Definition emit_aggr (aggr_id : N) : run_m locals cow :=
  if bool_decide (aggr opts ≠ EmitAggr) then fail (Oops 0xdead0011)
  else
    inv ← of_res (some_or (get_idx (aggrs env) aggr_id) (Oops 0xdead0012));
    Owned <$> of_res (fn_result (aggr_emit inv)).

(** *** Patching

    The first pass evaluates what the operations insert, the second changes
    the target. *)
Definition pre_evaluate (op : patch_operation) : run_m locals pre_evaluated :=
  match op with
  | PInsert ident e => k ← string_run ident; v ← eval e; mret (EvInsert k v)
  | PUpdate ident e => k ← string_run ident; v ← eval e; mret (EvUpdate k v)
  | PUpsert ident e => k ← string_run ident; v ← eval e; mret (EvUpsert k v)
  | PErase ident => k ← string_run ident; mret (EvErase k)
  | PCopy from to => f ← string_run from; t ← string_run to; mret (EvCopy f t)
  | PMove from to => f ← string_run from; t ← string_run to; mret (EvMove f t)
  | PMerge ident e => k ← string_run ident; v ← eval e; mret (EvMerge k v)
  | PMergeRecord e => v ← eval e; mret (EvMergeRecord v)
  | PDefault ident e => k ← string_run ident; mret (EvDefault k (eval e))
  | PDefaultRecord e => mret (EvDefaultRecord (eval e))
  end.

Fixpoint pre_evaluate_all (ops : list patch_operation) : run_m locals (list pre_evaluated) :=
  match ops with
  | [] => mret []
  | op :: ops => o ← pre_evaluate op; os ← pre_evaluate_all ops; mret (o :: os)
  end.

Definition patch (target : imut_expr) (ops : list patch_operation) : run_m locals cow :=
  v ← eval target;
  evaluated ← pre_evaluate_all ops;
  Owned <$> patch_target evaluated v.

Definition merge_expr (target e : imut_expr) : run_m locals cow :=
  v ← eval target;
  if is_object v then
    replacement ← eval e;
    if is_object replacement then mret (Owned (merge_values replacement v))
    else fail (NeedObj (type_of replacement))
  else fail (NeedObj (type_of v)).

(** *** Comprehensions *)
Definition comprehension_items (t : value) : list (value * value) :=
  match t with
  | VObject o => (λ kv : string * value, (VString kv.1, kv.2)) <$> hash_iter o
  | VArray l => imap (λ i v, (from_u64 (N.of_nat i), v)) l
  | _ => []
  end.

(** The first case whose guard holds. *)
Fixpoint comprehension_cases (cs : list (comprehension_case imut_expr imut_expr)) :
    run_m locals (option value) :=
  match cs with
  | [] => mret None
  | ComprehensionCase g _ e :: cs =>
    b ← test_guard run opts env inp g;
    if (b : bool) then Some <$> eval e else comprehension_cases cs
  end.

Fixpoint comprehension_loop (key_id val_id : N) (cs : list (comprehension_case imut_expr imut_expr))
    (items : list (value * value)) (value_vec : list value) : run_m locals (list value) :=
  match items with
  | [] => mret value_vec
  | (k, v) :: items =>
    set_local_shadow key_id k;;
    set_local_shadow val_id v;;
    r ← comprehension_cases cs;
    comprehension_loop key_id val_id cs items (value_vec ++ option_list r)
  end.

Definition comprehension (key_id val_id : N) (target : imut_expr)
    (cs : list (comprehension_case imut_expr imut_expr)) : run_m locals cow :=
  t ← eval target;
  vs ← comprehension_loop key_id val_id cs (comprehension_items t) [];
  mret (Owned (VArray vs)).

(** [ImutExprInt::match_expr]; the effectors of an immutable match are not
    run, only its last expression is. *)
Definition imut_match (target : imut_expr)
    (cgs : list (clause_group pattern imut_expr path imut_expr)) (d : default_case imut_expr) :
    run_m locals cow :=
  t ← eval target;
  run_match
    (λ p t, (λ r : sres cow, match r with SOk c => Some (into_owned c) | SErr _ => None end)
            <$> attempt (resolve_value run opts env inp p t))
    (test_predicate_expr run match_rp opts env inp)
    (λ _ e, run opts env inp e)
    (Borrowed const_null) t cgs d.

(** [ImutExprInt::run] *)
Definition imut_step (e : imut_expr) : run_m locals cow :=
  match e with
  | IString s => (λ s, Owned (VString s)) <$> string_run s
  | IRecur argc exprs => recur argc exprs
  | ILiteral v => mret (Borrowed v)
  | IPath p => resolve run opts env inp p
  | IPresent p => present run opts env inp p
  | IRecord base fields => (λ o, Owned (VObject o)) <$> record_fields fields base
  | IBytes parts =>
    (λ w, Owned (VBytes (finish_bytes w))) <$> bytes_parts parts (BitWriter [] 0 0)
  | IList exprs => (λ l, Owned (VArray l)) <$> list_elements exprs
  | IInvoke1 i => invoke1 i
  | IInvoke2 i => invoke2 i
  | IInvoke3 i => invoke3 i
  | IInvoke i => invoke_all i
  | IInvokeAggr id => emit_aggr id
  | IPatch target ops => patch target ops
  | IMerge target e => merge_expr target e
  | ILocal idx false =>
    l ← local_get idx;
    match l with Some v => mret (Borrowed v) | None => fail (UnsetLocal idx) end
  | ILocal idx true => Borrowed <$> of_res (get_const env idx)
  | IUnary kind e =>
    rhs ← eval e;
    of_res (some_or (computed <$> exec_unary kind rhs) (InvalidUnary kind (type_of rhs)))
  | IBinary kind lhs rhs =>
    lhs ← eval lhs; rhs ← eval rhs;
    computed <$> of_res (exec_binary kind lhs rhs)
  | IMatch target cgs d => imut_match target cgs d
  | IComprehension key_id val_id target cs => comprehension key_id val_id target cs
  end.
End imut.

(** ** Expressions *)

(** What an expression changes. *)
Record store := Store { s_event : value; s_state : value; s_meta : value; s_local : locals }.
Definition set_local (l : locals) (s : store) : store := Store (s_event s) (s_state s) (s_meta s) l.

Inductive cont :=
  | Cont (c : cow)
  | Emit (v : value) (port : option string)
  | Drop
  | EmitEvent (port : option string).

(** The [demit!] macro: what is not a value is returned at once. *)
Definition demit (m : run_m store cont) (k : cow → run_m store cont) : run_m store cont :=
  c ← m; match c with Cont r => k r | c => mret c end.

(** Running an immutable expression in a store. *)
Definition immutably {A} (m : inputs → run_m locals A) : run_m store A := λ s,
  let '(l, r) := m (Inputs (s_event s) (s_state s) (s_meta s)) (s_local s) in (set_local l s, r).

Section exprs.
Variable run : exec_opts → env → inputs → imut_expr → run_m locals cow.
Variable match_rp : exec_opts → env → inputs → value → record_pattern → run_m locals (option value).
Variable run_expr : exec_opts → env → expr → run_m store cont.
Variables (opts : exec_opts) (env : env).
Local Abbreviation eval e := (immutably (λ inp, into_owned <$> run opts env inp e)).

(** The effectors, then what is left to do. *)
Fixpoint run_effectors (last : run_m store cont) (effectors : list expr) : run_m store cont :=
  match effectors with
  | [] => last
  | e :: es => demit (run_expr (without_result opts) env e) (λ _, run_effectors last es)
  end.
Definition execute_effectors (effectors : list expr) (last_effector : expr) : run_m store cont :=
  run_effectors (run_expr opts env last_effector) effectors.

Definition expr_match (target : imut_expr)
    (cgs : list (clause_group pattern imut_expr path expr)) (d : default_case expr) :
    run_m store cont :=
  t ← eval target;
  run_match
    (λ p t, immutably (λ inp,
       (λ r : sres cow, match r with SOk c => Some (into_owned c) | SErr _ => None end)
       <$> attempt (resolve_value run opts env inp p t)))
    (λ t p g, immutably (λ inp, test_predicate_expr run match_rp opts env inp t p g))
    execute_effectors
    (Cont (Borrowed const_null)) t cgs d.

Definition if_expr (target : imut_expr) (c : predicate_clause pattern imut_expr expr)
    (d : default_case expr) : run_m store cont :=
  t ← eval target;
  match c with
  | PredicateClause p g es e =>
    b ← immutably (λ inp, test_predicate_expr run match_rp opts env inp t p g);
    if (b : bool) then execute_effectors es e
    else run_default execute_effectors (Cont (Borrowed const_null)) d
  end.

(** The first case whose guard holds. *)
Fixpoint expr_cases (cs : list (comprehension_case imut_expr expr)) : run_m store (option cont) :=
  match cs with
  | [] => mret None
  | ComprehensionCase g es e :: cs =>
    b ← immutably (λ inp, test_guard run opts env inp g);
    if (b : bool) then Some <$> execute_effectors es e else expr_cases cs
  end.

Fixpoint expr_comprehension_loop (key_id val_id : N) (cs : list (comprehension_case imut_expr expr))
    (items : list (value * value)) (value_vec : list value) : run_m store cont :=
  match items with
  | [] => mret (Cont (Owned (VArray value_vec)))
  | (k, v) :: items =>
    immutably (λ _, set_local_shadow key_id k);;
    immutably (λ _, set_local_shadow val_id v);;
    r ← expr_cases cs;
    match r with
    | None => expr_comprehension_loop key_id val_id cs items value_vec
    | Some (Cont c) =>
      expr_comprehension_loop key_id val_id cs items
        (if result_needed opts then value_vec ++ [into_owned c] else value_vec)
    | Some c => mret c
    end
  end.

Definition expr_comprehension (key_id val_id : N) (target : imut_expr)
    (cs : list (comprehension_case imut_expr expr)) : run_m store cont :=
  t ← eval target;
  expr_comprehension_loop key_id val_id cs (comprehension_items t) [].

(** *** Assignments *)

(** [lookup_or_insert_mut] of an empty object. *)
Definition enter_key (k : string) (v : value) : sres value :=
  match v with
  | VObject o => SOk (VObject (match o !! k with Some _ => o | None => <[k := VObject ∅]> o end))
  | _ => SErr (NeedObj (type_of v))
  end.

(** Changes the value the pointer [current] of the code points at, which was
    reached along the keys; the pointer would dangle where they do not lead
    to a value. *)
Fixpoint alter_path (keys : list string) (f : value → sres value) (v : value) : sres value :=
  match keys with
  | [] => f v
  | k :: keys =>
    match v with
    | VObject o =>
      match o !! k with
      | Some x => (λ x, VObject (<[k := x]> o)) <$> alter_path keys f x
      | None => SErr Dangling
      end
    | _ => SErr Dangling
    end
  end.

Definition assign_root (p : path) (s : store) : sres value :=
  match p with
  | ConstPath _ _ _ | ArgsPath _ | WindowPath _ | GroupPath _ | ExprPath _ _ _ => SErr AssignToConst
  | LocalPath idx _ _ =>
    o ← some_or (get_idx (s_local s) idx) (Oops 0xdead000f);
    some_or o (UnsetLocal idx)
  | MetaPath _ => SOk (s_meta s)
  | EventPath _ => SOk (s_event s)
  | StatePath _ => SOk (s_state s)
  end.

Definition set_assign_root (p : path) (v : value) (s : store) : store :=
  match p with
  | LocalPath idx _ _ => set_local (<[N.to_nat idx := Some v]> (s_local s)) s
  | MetaPath _ => Store (s_event s) (s_state s) v (s_local s)
  | EventPath _ => Store v (s_state s) (s_meta s) (s_local s)
  | StatePath _ => Store (s_event s) v (s_meta s) (s_local s)
  | _ => s
  end.

Definition alter_root (p : path) (keys : list string) (f : value → sres value) : run_m store () :=
  s ← read;
  root ← of_res (assign_root p s);
  root ← of_res (alter_path keys f root);
  write (set_assign_root p root s).

(** The walk over the segments; [keys] lead to the current value. *)
Fixpoint assign_walk (p : path) (segs : list segment) (keys : list string) (v : value) : run_m store () :=
  match segs with
  | [] => alter_root p keys (λ _, SOk v)
  | SegId key :: segs =>
    alter_root p keys (enter_key key);;
    assign_walk p segs (keys ++ [key]) v
  | SegElement e :: segs =>
    id ← immutably (λ inp, eval_to_string run opts env inp e);
    alter_root p keys (enter_key id);;
    assign_walk p segs (keys ++ [id]) v
  | (SegIdx _ | SegRange _ _) :: _ => fail AssignArray
  end.

(** The target has to be assignable before the walk starts. *)
Definition check_root (p : path) : run_m store value := s ← read; of_res (assign_root p s).

Definition assign_nested (p : path) (v : value) : run_m store cow :=
  check_root p;;
  assign_walk p (segments p) [] v;;
  if result_needed opts then immutably (λ inp, resolve run opts env inp p)
  else mret (Borrowed const_null).

Definition assign_direct (p : path) (v : value) : run_m store cow :=
  match p with
  | ConstPath _ _ _ | ArgsPath _ | WindowPath _ | GroupPath _ | ExprPath _ _ _ => fail AssignToConst
  | LocalPath idx _ _ =>
    s ← read;
    of_res (some_or (get_idx (s_local s) idx) (Oops 0xdead000f));;
    write (set_assign_root p v s);; mret (Borrowed v)
  | MetaPath _ => fail InvalidAssign
  | EventPath _ | StatePath _ =>
    s ← read; write (set_assign_root p v s);; mret (Borrowed v)
  end.

Definition assign (p : path) (v : value) : run_m store cow :=
  match segments p with [] => assign_direct p v | _ => assign_nested p v end.

(** Moves a local variable out. *)
Definition take_local (idx : N) : run_m store value :=
  s ← read;
  o ← of_res (some_or (get_idx (s_local s) idx) (Oops 0xdead000b));
  write (set_local (<[N.to_nat idx := None]> (s_local s)) s);;
  of_res (some_or o (Oops 0xdead000c)).

Definition emit_port (port : option imut_expr) : run_m store (option string) :=
  match port with
  | None => mret None
  | Some port => Some <$> immutably (λ inp, eval_to_string run opts env inp port)
  end.

(** [Expr::run] *)
Definition expr_step (e : expr) : run_m store cont :=
  match e with
  | EEmit (IPath (EventPath [])) port => EmitEvent <$> emit_port port
  | EEmit e port =>
    port ← emit_port port;
    v ← eval e;
    mret (Emit v port)
  | EDrop => mret Drop
  | EAssignMoveLocal p idx => v ← take_local idx; Cont <$> assign p v
  | EAssign p e =>
    demit (run_expr (with_result opts) env e) (λ c, Cont <$> assign p (into_owned c))
  | EMatch target cgs d => expr_match target cgs d
  | EIfElse target c d => if_expr target c d
  | EComprehension key_id val_id target cs => expr_comprehension key_id val_id target cs
  | EImut e =>
    if result_needed opts then
      r ← immutably (λ inp, run opts env inp e);
      mret (match r with RecurRef => Drop | r => Cont r end)
    else mret (Cont (Borrowed const_null))
  end.

(** ** Custom functions *)

(** The expressions of the body; only the last one has a result. *)
Fixpoint run_body (body : list expr) : run_m store (option cont) :=
  match body with
  | [] => mret None
  | [e] => Some <$> run_expr (ExecOpts true Tick) env e
  | e :: body => run_expr (ExecOpts false Tick) env e;; run_body body
  end.
End exprs.

Section custom.
Variable run_expr : exec_opts → env → expr → run_m store cont.

Definition fn_store (l : locals) : store := Store const_null const_null const_null l.

(** [n] runs of the body are left before the recursion limit is hit. *)
Fixpoint fn_loop (env : env) (body : list expr) (argc : nat) (n : nat) (l : locals) : sres value :=
  match n with
  | O => SErr RecursionLimit
  | S n =>
    match run_body run_expr env body (fn_store l) with
    | (_, SErr e) => SErr e
    | (_, SOk None) => SErr Diverges
    | (_, SOk (Some (Cont c))) => SOk (into_owned c)
    | (s, SOk (Some Drop)) =>
      fn_loop env body argc n (take argc (s_local s) ++ ((λ _, None) <$> drop argc (s_local s)))
    | (_, SOk (Some _)) => SErr (ScriptMsg "can't emit here")
    end
  end.

(** The counter is a [u32] that is compared after it was incremented. *)
Definition recur_bound (limit : N) : nat := N.to_nat (if (limit =? 0)%N then 4294967296 else limit).

(** The arguments are bound to the first local variables, those that do not
    fit are [args]. *)
Definition fn_locals (size : N) (argv : list value) : locals :=
  let n := N.to_nat size in
  (Some <$> take n argv) ++ replicate (n - length argv) None.

Definition custom_invoke (env : env) (f : custom_fn) (argv : list value) : sres value :=
  match f with
  | CustomFn body _ size _ _ =>
    let args_const := VArray (drop (N.to_nat size) argv) in
    let env' := Env (context env) (consts env) args_const (group env) (window env) []
                  (recursion_limit env) in
    fn_loop env' body (length argv) (recur_bound (recursion_limit env)) (fn_locals size argv)
  end.
End custom.

(** ** The interpreter *)
Fixpoint imut_run (opts : exec_opts) (en : env) (inp : inputs) (e : imut_expr) {struct e} :
    run_m locals cow :=
  imut_step imut_run rp_run fn_invoke opts en inp e
with rp_run (opts : exec_opts) (en : env) (inp : inputs) (target : value) (rp : record_pattern)
    {struct rp} : run_m locals (option value) :=
  match_rp_expr imut_run rp_run opts en inp target rp
with fn_invoke (en : env) (f : custom_fn) (argv : list value) {struct f} : sres value :=
  custom_invoke expr_run en f argv
with expr_run (opts : exec_opts) (en : env) (e : expr) {struct e} : run_m store cont :=
  expr_step imut_run rp_run expr_run opts en e.

Lemma imut_run_step opts en inp e :
  imut_run opts en inp e = imut_step imut_run rp_run fn_invoke opts en inp e.
Proof. by destruct e. Qed.
Lemma expr_run_step opts en e :
  expr_run opts en e = expr_step imut_run rp_run expr_run opts en e.
Proof. by destruct e. Qed.
Lemma rp_run_step opts en inp t rp :
  rp_run opts en inp t rp = match_rp_expr imut_run rp_run opts en inp t rp.
Proof. by destruct rp. Qed.
Lemma fn_invoke_step en f argv : fn_invoke en f argv = custom_invoke expr_run en f argv.
Proof. by destruct f. Qed.

(** ** Scripts *)
Record script := Script {
  sc_exprs : list expr;
  sc_consts : list value;
  sc_args : value;
  sc_group : value;
  sc_window : value;
  sc_aggregates : list aggr_fn;
  sc_locals : N;
}.

Inductive return_ :=
  | RetEmit (v : value) (port : option string)
  | RetDrop
  | RetEmitEvent (port : option string).

Definition script_env (sc : script) (ctx : event_context) (limit : N) : env :=
  Env ctx (sc_consts sc) (sc_args sc) (sc_group sc) (sc_window sc) (sc_aggregates sc) limit.

Definition return_of (c : cont) : return_ :=
  match c with
  | Cont c => RetEmit (into_owned c) None
  | Emit v port => RetEmit v port
  | Drop => RetDrop
  | EmitEvent port => RetEmitEvent port
  end.

Fixpoint script_loop (a : aggr_type) (en : env) (es : list expr) : run_m store return_ :=
  match es with
  | [] => fail Unreachable
  | [e] => return_of <$> expr_run (ExecOpts true a) en e
  | e :: es =>
    c ← expr_run (ExecOpts false a) en e;
    match c with Cont _ => script_loop a en es | c => mret (return_of c) end
  end.

(** [Script::run]; [limit] is the process-wide recursion limit. *)
Definition script_run (sc : script) (ctx : event_context) (limit : N) (a : aggr_type)
    (event state meta : value) : (value * value * value) * sres return_ :=
  let '(s, r) := script_loop a (script_env sc ctx limit) (sc_exprs sc)
                   (Store event state meta (with_size (sc_locals sc))) in
  ((s_event s, s_state s, s_meta s), r).

(** [Script::run_imut]: only the last expression is run. *)
Definition script_run_imut (sc : script) (ctx : event_context) (limit : N) (a : aggr_type)
    (event state meta : value) : sres return_ :=
  match last (sc_exprs sc) with
  | None => SOk RetDrop
  | Some (EImut e) =>
    (λ c, RetEmit (into_owned c) None) <$>
      (imut_run (ExecOpts true a) (script_env sc ctx limit) (Inputs event state meta) e
         (with_size (sc_locals sc))).2
  | Some _ => SErr (ScriptMsg "Not an imutable expression")
  end.
End interp.

(** ** A concrete library, for evaluation

    Its intrinsic functions and extractors are any functions. *)
Definition some_lib : script_lib :=
  {| event_context := (); default_context := ();
     intrinsic_fn := list value → io value;
     intrinsic_invoke f _ argv := f argv;
     intrinsic_is_const _ := false;
     aggr_fn := value;
     aggr_emit := IoOk;
     extractor := value → option value;
     extract f _ v _ := match f v with Some v => Match v | None => NoMatch end;
     encode _ := ""%string |}.
