(* ===== verification/ScriptTypes.v ===== *)
(** Well-formed scripts: what the analysis of a script (ast/raw.rs) promises
    to the interpreter.

Local variables, constants and aggregates are within their tables, calls
have the arguments their form reads, an assigning pattern holds neither an
assignment nor a default, combined groups are not nested, the bodies of
functions are not empty.  A well-formed script never raises one of the
errors the interpreter has for a broken syntax tree. *)
From S2P Require Import Prelude Value ValueOrd ScriptOps Bits Ast Interp.

(** The sizes of the tables a piece of syntax may refer to. *)
Record scope := Scope { n_locals : nat; n_consts : nat; n_aggrs : nat }.

Definition idx_ok (i : N) (n : nat) : bool := (i <? N.of_nat n)%N.
Definition all_opt {A} (f : A → bool) (o : option A) : bool :=
  match o with Some x => f x | None => true end.

(** ** Well-formed syntax

    [wf_imut d sc e]: in the scope [sc] the tree [e] is well formed and at
    most [d] levels high. *)
Section wf_groups.
Context {P I C E : Type} (wf_p : P → bool) (wf_i : I → bool) (wf_c : C → bool) (wf_e : E → bool).

Definition wf_clause (c : predicate_clause P I E) : bool :=
  match c with
  | PredicateClause p g es e => wf_p p && all_opt wf_i g && forallb wf_e es && wf_e e
  end.
Definition wf_default (d : default_case E) : bool :=
  match d with
  | DefaultNone | DefaultNull => true
  | DefaultMany es e => forallb wf_e es && wf_e e
  | DefaultOne e => wf_e e
  end.
Definition wf_tree (tree : list (value * (list E * E))) : bool :=
  forallb (λ kv : value * (list E * E), forallb wf_e kv.2.1 && wf_e kv.2.2) tree.
Fixpoint wf_group (nested : bool) (cg : clause_group P I C E) : bool :=
  match cg with
  | Simple c ps => all_opt wf_c c && forallb wf_clause ps
  | SearchTree c tree rest => all_opt wf_c c && wf_tree tree && forallb wf_clause rest
  | Combined c cgs => all_opt wf_c c && negb nested && forallb (wf_group true) cgs
  | Single c p => all_opt wf_c c && wf_clause p
  end.
Definition wf_case (c : comprehension_case I E) : bool :=
  match c with ComprehensionCase g es e => all_opt wf_i g && forallb wf_e es && wf_e e end.
End wf_groups.

Section wf.
Context `{!script_lib}.

Section parts.
Variables (sc : scope) (wf : imut_expr → bool) (wf_rp : record_pattern → bool) (wf_fn : custom_fn → bool).

Definition wf_segment (s : segment) : bool :=
  match s with
  | SegId _ | SegIdx _ => true
  | SegElement e => wf e
  | SegRange a b => wf a && wf b
  end.
Definition wf_path_base (p : path) : bool :=
  match p with
  | LocalPath idx _ _ => idx_ok idx (n_locals sc)
  | ConstPath idx _ _ => idx_ok idx (n_consts sc)
  | ExprPath e var _ => wf e && idx_ok var (n_locals sc)
  | _ => true
  end.
Definition wf_segments (p : path) : bool := forallb wf_segment (segments p).
Definition wf_path (p : path) : bool := wf_path_base p && wf_segments p.

Definition wf_element (p : array_predicate_pattern) : bool :=
  match p with AExpr e => wf e | ARecord rp => wf_rp rp | ATilde _ | AIgnore => true end.
Definition wf_field (p : predicate_pattern) : bool :=
  match p with
  | TildeEq _ _ | FieldPresent _ | FieldAbsent _ => true
  | BinEq _ e _ => wf e
  | RecordPatternEq _ rp => wf_rp rp
  | ArrayPatternEq _ es | TuplePatternEq _ es _ => forallb wf_element es
  end.
Definition wf_record (rp : record_pattern) : bool :=
  match rp with RecordPattern fs => forallb wf_field fs end.
Definition wf_simple_pattern (p : pattern) : bool :=
  match p with
  | PatRecord rp => wf_rp rp
  | PatArray es | PatTuple es _ => forallb wf_element es
  | PatExpr e => wf e
  | PatExtract _ | PatDoNotCare => true
  | PatAssign _ _ | PatDefault => false
  end.
Definition wf_pattern (p : pattern) : bool :=
  match p with
  | PatDefault => true
  | PatAssign idx p => idx_ok idx (n_locals sc) && wf_simple_pattern p
  | p => wf_simple_pattern p
  end.

Definition wf_str_element (e : str_lit_element) : bool :=
  match e with SLit _ => true | SExpr e => wf e end.
Definition wf_string (s : string_lit) : bool := match s with StringLit es => forallb wf_str_element es end.
Definition wf_record_field (f : field) : bool := match f with Field n e => wf_string n && wf e end.
Definition wf_part (p : bytes_part) : bool := match p with BytesPart e _ _ _ => wf e end.
Definition wf_operation (op : patch_operation) : bool :=
  match op with
  | PInsert i e | PUpsert i e | PUpdate i e | PMerge i e | PDefault i e => wf_string i && wf e
  | PErase i => wf_string i
  | PCopy f t | PMove f t => wf_string f && wf_string t
  | PMergeRecord e | PDefaultRecord e => wf e
  end.
Definition wf_invocable (f : invocable) : bool :=
  match f with Intrinsic _ => true | Tremor f => wf_fn f end.
Definition wf_invoke (arity : nat) (i : invoke) : bool :=
  match i with Invoke f args => wf_invocable f && (arity <=? length args)%nat && forallb wf args end.

Definition wf_imut_step (e : imut_expr) : bool :=
  match e with
  | IRecord _ fs => forallb wf_record_field fs
  | IList es => forallb wf es
  | IBinary _ l r => wf l && wf r
  | IUnary _ e => wf e
  | IPatch t ops => wf t && forallb wf_operation ops
  | IMatch t cgs d =>
    wf t && forallb (wf_group wf_pattern wf wf_segments wf false) cgs && wf_default wf d
  | IComprehension k v t cs =>
    idx_ok k (n_locals sc) && idx_ok v (n_locals sc) && wf t && forallb (wf_case wf wf) cs
  | IMerge t e => wf t && wf e
  | IPath p | IPresent p => wf_path p
  | IString s => wf_string s
  | ILocal idx is_const => idx_ok idx (if is_const then n_consts sc else n_locals sc)
  | ILiteral _ => true
  | IInvoke1 i => wf_invoke 1 i
  | IInvoke2 i => wf_invoke 2 i
  | IInvoke3 i => wf_invoke 3 i
  | IInvoke i => wf_invoke 0 i
  | IInvokeAggr id => idx_ok id (n_aggrs sc)
  | IRecur argc es => (min (N.to_nat argc) (length es) <=? n_locals sc)%nat && forallb wf es
  | IBytes ps => forallb wf_part ps
  end.

Variable wf_e : expr → bool.

Definition wf_expr_step (e : expr) : bool :=
  match e with
  | EMatch t cgs d =>
    wf t && forallb (wf_group wf_pattern wf wf_segments wf_e false) cgs && wf_default wf_e d
  | EIfElse t c d => wf t && wf_clause wf_pattern wf wf_e c && wf_default wf_e d
  | EAssign p e => wf_path p && wf_e e
  | EAssignMoveLocal p idx => wf_path p && idx_ok idx (n_locals sc)
  | EComprehension k v t cs =>
    idx_ok k (n_locals sc) && idx_ok v (n_locals sc) && wf t && forallb (wf_case wf wf_e) cs
  | EDrop => true
  | EEmit e port => wf e && all_opt wf port
  | EImut e => wf e
  end.
End parts.

(** The body of a function has its own local variables, and no aggregates. *)
Definition wf_fn_step (wf_e : scope → expr → bool) (sc : scope) (f : custom_fn) : bool :=
  match f with
  | CustomFn body _ size _ _ =>
    negb (bool_decide (length body = 0)) && forallb (wf_e (Scope (N.to_nat size) (n_consts sc) 0)) body
  end.

Fixpoint wf_imut (d : nat) (sc : scope) (e : imut_expr) {struct d} : bool :=
  match d with
  | O => false
  | S d => wf_imut_step sc (wf_imut d sc) (wf_rp d sc) (wf_fn d sc) e
  end
with wf_rp (d : nat) (sc : scope) (rp : record_pattern) {struct d} : bool :=
  match d with O => false | S d => wf_record (wf_imut d sc) (wf_rp d sc) rp end
with wf_fn (d : nat) (sc : scope) (f : custom_fn) {struct d} : bool :=
  match d with O => false | S d => wf_fn_step (wf_expr d) sc f end
with wf_expr (d : nat) (sc : scope) (e : expr) {struct d} : bool :=
  match d with O => false | S d => wf_expr_step sc (wf_imut d sc) (wf_rp d sc) (wf_expr d sc) e end.
End wf.

(** ** Internal errors

    The errors the interpreter raises for a syntax tree that breaks a promise
    of the analysis: all that carry a number of their own, but for two.
    0xdead_0003, for a segment of a path that is neither a key nor an index on a
    value that has neither, is raised for accepted scripts
    ([ScriptUpWf.FrontEnd.bad_segment_fails]).  0xdead_000c, for a variable that
    was moved out before, depends on the order in which variables are set and
    moved, which well-formedness does not follow.  Nor is the error for a
    segment that overwrites the variable it is about to change among them. *)
Definition internal (e : serror) : bool :=
  match e with
  | Oops code => negb (bool_decide (code = 0xdead0003)) && negb (bool_decide (code = 0xdead000c))
  | NestedCombined | Unreachable | Diverges => true
  | _ => false
  end%N.

(** Two computations that do the same on a state with [n] local variables,
    keep their number and raise no internal error. *)
Definition sound_on {S} (size : S → nat) (n : nat) {A} (m1 m2 : run_m S A) : Prop :=
  ∀ s, size s = n →
    m1 s = m2 s ∧ size (m1 s).1 = n ∧ ∀ e, (m1 s).2 = SErr e → internal e = false.
Abbreviation sound := (sound_on (@length (option value))).

Definition no_internal {A} (r : sres A) : Prop := ∀ e, r = SErr e → internal e = false.

Section sound.
Context {S : Type} (size : S → nat) (n : nat).

Lemma sound_of_res {A} (r : sres A) : no_internal r → sound_on size n (of_res r) (of_res r).
Proof. intros Hr l Hl. done. Qed.

Lemma sound_ret {A} (a : A) : sound_on size n (mret a) (mret a).
Proof. by intros l Hl. Qed.

Lemma sound_fail {A} e : internal e = false → sound_on size n (fail e : run_m S A) (fail e).
Proof. intros He. apply sound_of_res. by intros ? [= <-]. Qed.

Lemma sound_bind {A B} (m1 m2 : run_m S A) (f1 f2 : A → run_m S B) :
  sound_on size n m1 m2 → (∀ a, sound_on size n (f1 a) (f2 a)) → sound_on size n (m1 ≫= f1) (m2 ≫= f2).
Proof.
  intros Hm Hf l Hl. destruct (Hm l Hl) as (Heq & Hlen & He). unfold mbind, run_bind.
  rewrite <-Heq. destruct (m1 l) as [l' [a|e]]; [by apply Hf|]. simpl in *.
  split_and!; [done|done|]. intros e' [= <-]. by apply He.
Qed.

(** Where the value of the first computation is known to have a property, or
    to be related to that of the other one. *)
Definition sound_rel {A} (R : A → A → Prop) (m1 m2 : run_m S A) : Prop :=
  ∀ l, size l = n →
    (m1 l).1 = (m2 l).1 ∧ size (m1 l).1 = n ∧
    match (m1 l).2, (m2 l).2 with
    | SOk a, SOk b => R a b
    | SErr e, SErr e' => e = e' ∧ internal e = false
    | _, _ => False
    end.

Lemma sound_rel_bind {A B} (R : A → A → Prop) (m1 m2 : run_m S A) (f1 f2 : A → run_m S B) :
  sound_rel R m1 m2 → (∀ a b, R a b → sound_on size n (f1 a) (f2 b)) → sound_on size n (m1 ≫= f1) (m2 ≫= f2).
Proof.
  intros Hm Hf l Hl. destruct (Hm l Hl) as (Heq & Hlen & Hr). unfold mbind, run_bind.
  destruct (m1 l) as [l' [a|e]], (m2 l) as [l'' [b|e']]; simpl in *; subst; try done.
  - by apply Hf.
  - destruct Hr as [-> Hi]. split_and!; [done|done|]. by intros ? [= <-].
Qed.

Lemma sound_bind_rel {A B} (R : B → B → Prop) (m1 m2 : run_m S A) (f1 f2 : A → run_m S B) :
  sound_on size n m1 m2 → (∀ a, sound_rel R (f1 a) (f2 a)) → sound_rel R (m1 ≫= f1) (m2 ≫= f2).
Proof.
  intros Hm Hf l Hl. destruct (Hm l Hl) as (Heq & Hlen & He). unfold mbind, run_bind.
  rewrite <-Heq. destruct (m1 l) as [l' [a|e]]; simpl in *; [by apply Hf|]. eauto.
Qed.

Lemma sound_rel_ret {A} (R : A → A → Prop) a b : R a b → sound_rel R (mret a) (mret b).
Proof. by intros Hr l Hl. Qed.

Lemma sound_bind_post {A B} (P : A → Prop) (m1 m2 : run_m S A) (f1 f2 : A → run_m S B) :
  (∀ l a, (m1 l).2 = SOk a → P a) → sound_on size n m1 m2 → (∀ a, P a → sound_on size n (f1 a) (f2 a)) →
  sound_on size n (m1 ≫= f1) (m2 ≫= f2).
Proof.
  intros HP Hm Hf. apply (sound_rel_bind (λ a b, a = b ∧ P a)).
  - intros l Hl. destruct (Hm l Hl) as (Heq & Hlen & He). rewrite <-Heq. split_and!; [done..|].
    destruct (m1 l) as [l' [a|e]] eqn:Hm1; simpl in *; [|by eauto].
    split; [done|]. apply (HP l). by rewrite Hm1.
  - intros a b [<- Ha]. by apply Hf.
Qed.

Lemma sound_fmap {A B} (m1 m2 : run_m S A) (f : A → B) :
  sound_on size n m1 m2 → sound_on size n (f <$> m1) (f <$> m2).
Proof.
  intros Hm l Hl. destruct (Hm l Hl) as (Heq & Hlen & He). unfold fmap, run_fmap.
  rewrite <-Heq. destruct (m1 l) as [l' [a|e]]; simpl in *; [done|].
  split_and!; [done|done|]. intros e' [= <-]. by apply He.
Qed.

Lemma sound_attempt {A} (m1 m2 : run_m S A) :
  sound_on size n m1 m2 → sound_on size n (attempt m1) (attempt m2).
Proof.
  intros Hm l Hl. destruct (Hm l Hl) as (Heq & Hlen & He). unfold attempt. rewrite <-Heq.
  by destruct (m1 l).
Qed.
End sound.
#[export] Hint Resolve sound_ret sound_attempt : tremor.

Section locals.
Context (n : nat).
Lemma sound_local_get idx : idx_ok idx n = true → sound n (local_get idx) (local_get idx).
Proof.
  intros Hi l Hl. split; [done|]. unfold local_get, mbind, run_bind, read, of_res, get_idx. rewrite Hl.
  unfold idx_ok in Hi. rewrite Hi. split; [done|]. simpl. apply N.ltb_lt in Hi.
  destruct (lookup_lt_is_Some_2 l (N.to_nat idx)) as [x Hx]; [lia|]. by rewrite Hx.
Qed.

Lemma sound_set_local_shadow idx v :
  idx_ok idx n = true → sound n (set_local_shadow idx v) (set_local_shadow idx v).
Proof.
  intros Hi l Hl. split; [done|]. unfold set_local_shadow, mbind, run_bind, read, write. simpl.
  rewrite Hl. unfold idx_ok in Hi. rewrite Hi. simpl. split; [|done].
  by rewrite length_insert.
Qed.
End locals.

#[export] Hint Resolve sound_local_get sound_set_local_shadow : tremor.

Ltac no_internal_solve := intros ? [= <-]; done.

Section values.
Context `{!value_trait}.

Lemma some_or_internal {A} (o : option A) e : internal e = false → no_internal (some_or o e).
Proof. intros He. destruct o; intros ? [= <-]. done. Qed.

Lemma fn_result_internal r : no_internal (fn_result r).
Proof. destruct r; intros ? [= <-]. done. Qed.

Lemma value_to_index_internal v a : no_internal (value_to_index v a).
Proof. unfold value_to_index. destruct (as_usize v), (is_i64 v); intros ? [= <-]; done. Qed.

Lemma checked_shift_internal d f : no_internal (checked_shift d f).
Proof. unfold checked_shift. destruct (_ <? _)%Z; intros ? [= <-]; done. Qed.

Lemma exec_binary_numeric_internal op l r : no_internal (exec_binary_numeric op l r).
Proof.
  unfold exec_binary_numeric, exec_u64, exec_i64, exec_f64.
  repeat first [apply checked_shift_internal | no_internal_solve | case_match].
Qed.

Lemma exec_compare_internal op l r c : no_internal (exec_compare op l r c).
Proof. destruct op; intros ? [= <-]; done. Qed.

Lemma exec_binary_internal op l r : no_internal (exec_binary op l r).
Proof.
  destruct op, l as [[]| | | |], r as [[]| | | |]; simpl;
    first [apply exec_binary_numeric_internal | apply exec_compare_internal | no_internal_solve].
Qed.

Lemma extend_bytes_internal t e bits v w : no_internal (extend_bytes_from_value t e bits v w).
Proof. unfold extend_bytes_from_value. destruct t; case_match; intros ? [= <-]; done. Qed.
End values.

#[export] Hint Resolve fn_result_internal value_to_index_internal exec_binary_internal
  extend_bytes_internal : tremor.

(** Walks through two computations of the same shape; what is left are the
    parts that are run. *)
Ltac sound :=
  repeat match goal with
  | |- sound_on _ _ (_ ≫= _) (_ ≫= _) => apply sound_bind; [|intros ?]
  | |- sound_on _ _ (_ <$> _) (_ <$> _) => apply sound_fmap
  | |- sound_on _ _ (mret _) (mret _) => apply sound_ret
  | |- sound_on _ _ (fail _) (fail _) => by apply sound_fail
  | |- sound_on _ _ (of_res (some_or _ _)) _ => by apply sound_of_res, some_or_internal
  | |- sound_on _ _ (of_res _) _ => apply sound_of_res; solve [auto with tremor]
  | |- sound_on _ _ (if ?b then _ else _) (if ?b then _ else _) => destruct b
  | |- sound_on _ _ (match ?x with _ => _ end) (match ?x with _ => _ end) => destruct x
  | H : (_ && _)%bool = true |- _ => apply andb_true_iff in H as [? ?]
  | |- _ => solve [auto with tremor]
  end.

(** ** Clause groups *)
Section first_hit.
Context {S X R : Type} (size : S → nat) (n : nat) (f1 f2 : X → run_m S (option R)) (wf : X → bool).

Lemma first_hit_sound l :
  (∀ x, wf x = true → sound_on size n (f1 x) (f2 x)) → forallb wf l = true →
  sound_on size n (first_hit f1 l) (first_hit f2 l).
Proof. intros Hf. induction l as [|x l IH]; intros Hl; cbn [first_hit forallb] in *; sound. Qed.
End first_hit.

Section groups.
Context {S P I C E R : Type} (size : S → nat) (n : nat).
Context (wf_p : P → bool) (wf_i : I → bool) (wf_c : C → bool) (wf_e : E → bool).
Variables (pre1 pre2 : C → value → run_m S (option value)).
Variables (test1 test2 : value → P → option I → run_m S bool).
Variables (exec1 exec2 : list E → E → run_m S R).
Hypothesis Hpre : ∀ c v, wf_c c = true → sound_on size n (pre1 c v) (pre2 c v).
Hypothesis Htest : ∀ t p g,
  wf_p p = true → all_opt wf_i g = true → sound_on size n (test1 t p g) (test2 t p g).
Hypothesis Hexec : ∀ es e,
  forallb wf_e es = true → wf_e e = true → sound_on size n (exec1 es e) (exec2 es e).
Hint Resolve Hpre Htest Hexec : tremor.

Lemma run_clause_sound t c :
  wf_clause wf_p wf_i wf_e c = true → sound_on size n (run_clause test1 exec1 t c) (run_clause test2 exec2 t c).
Proof. intros Hc. destruct c; cbn [run_clause wf_clause] in *; sound. Qed.
Hint Resolve run_clause_sound : tremor.

Lemma run_tree_sound t tree :
  wf_tree wf_e tree = true →
  match run_tree exec1 t tree, run_tree exec2 t tree with
  | Some m1, Some m2 => sound_on size n m1 m2
  | None, None => True
  | _, _ => False
  end.
Proof.
  unfold wf_tree. induction tree as [|[k [es e]] tree IH]; intros Ht; cbn [run_tree forallb] in *; [done|].
  apply andb_true_iff in Ht as [[? ?]%andb_true_iff ?].
  destruct (value_cmp t k); [by apply Hexec|by apply IH..].
Qed.

Lemma run_flat_group_sound nested t cg :
  wf_group wf_p wf_i wf_c wf_e true cg = true →
  sound_on size n (run_group test1 exec1 nested t cg) (run_group test2 exec2 nested t cg).
Proof.
  intros Hcg. destruct cg as [c ps|c tree rest|c cgs|c cl]; cbn [run_group wf_group] in *; [sound| |sound|sound].
  - eapply first_hit_sound; [apply run_clause_sound|done].
  - apply andb_true_iff in Hcg as [[? Ht]%andb_true_iff ?]. pose proof (run_tree_sound t tree Ht) as Hr.
    destruct (run_tree exec1 t tree), (run_tree exec2 t tree); try done; [by sound|].
    eapply first_hit_sound; [apply run_clause_sound|done].
  - done.
Qed.

Lemma run_group_sound t cg :
  wf_group wf_p wf_i wf_c wf_e false cg = true →
  sound_on size n (run_group test1 exec1 false t cg) (run_group test2 exec2 false t cg).
Proof.
  intros Hcg. destruct cg as [c ps|c tree rest|c cgs|c cl];
    [by apply run_flat_group_sound|by apply run_flat_group_sound| |by apply run_flat_group_sound].
  cbn [run_group wf_group negb] in *. rewrite andb_true_r in Hcg. apply andb_true_iff in Hcg as [? ?].
  eapply first_hit_sound; [|done]. intros x Hx. by apply run_flat_group_sound.
Qed.

Lemma run_top_group_sound t cg :
  wf_group wf_p wf_i wf_c wf_e false cg = true →
  sound_on size n (run_top_group pre1 test1 exec1 t cg) (run_top_group pre2 test2 exec2 t cg).
Proof.
  intros Hcg. unfold run_top_group. pose proof (run_group_sound) as Hg.
  assert (all_opt wf_c (precondition_of cg) = true) as Hc.
  { destruct cg; cbn [wf_group precondition_of] in *; by repeat apply andb_true_iff in Hcg as [Hcg ?]. }
  destruct (precondition_of cg); cbn [all_opt] in *; sound.
Qed.

Lemma run_match_sound null t cgs d :
  forallb (wf_group wf_p wf_i wf_c wf_e false) cgs = true → wf_default wf_e d = true →
  sound_on size n (run_match pre1 test1 exec1 null t cgs d) (run_match pre2 test2 exec2 null t cgs d).
Proof.
  intros Hcgs Hd. unfold run_match. apply sound_bind.
  { eapply first_hit_sound; [|done]. intros x Hx. by apply run_top_group_sound. }
  intros [r|]; [sound|]. destruct d; cbn [run_default wf_default] in *; sound.
Qed.
End groups.

(** ** The parts of an expression *)
Section parts.
Context `{!script_lib, !value_trait, !hash_order string}.
Variable run : exec_opts → env → inputs → imut_expr → run_m locals cow.
Variable match_rp : exec_opts → env → inputs → value → record_pattern → run_m locals (option value).
Variable invoke_custom : env → custom_fn → list value → sres value.
Variables (sc : scope) (wf : imut_expr → bool) (wf_rp : record_pattern → bool) (wf_fn : custom_fn → bool).
Variables (en : env) (inp : inputs).
Local Abbreviation n := (n_locals sc).

(** Aggregates are only emitted. *)
Definition aggr_ok (o : exec_opts) : Prop := n_aggrs sc ≠ 0 → aggr o = EmitAggr.
Definition same_aggr (o1 o2 : exec_opts) : Prop := aggr o1 = aggr o2 ∧ aggr_ok o1.
Definition env_ok : Prop := length (consts en) = n_consts sc ∧ length (aggrs en) = n_aggrs sc.

Hypothesis Henv : env_ok.
Hypothesis Hrun : ∀ o1 o2 e, same_aggr o1 o2 → wf e = true → sound n (run o1 en inp e) (run o2 en inp e).
Hypothesis Hrp : ∀ o t rp, aggr_ok o → wf_rp rp = true → sound n (match_rp o en inp t rp) (match_rp o en inp t rp).
Hypothesis Hfn : ∀ f argv, wf_fn f = true → no_internal (invoke_custom en f argv).

Lemma get_const_internal idx : idx_ok idx (n_consts sc) = true → no_internal (get_const en idx).
Proof.
  intros Hi. unfold get_const, get_idx. destruct Henv as [-> _]. unfold idx_ok in Hi. rewrite Hi.
  apply N.ltb_lt in Hi. destruct (lookup_lt_is_Some_2 (consts en) (N.to_nat idx)) as [x Hx].
  { destruct Henv as [-> _]. lia. }
  rewrite Hx. intros ? [=].
Qed.

Section opts.
Variables (o1 o2 : exec_opts).
Hypothesis Ho : same_aggr o1 o2.
Hint Resolve Hrun Hrp Hfn Ho get_const_internal : tremor.
Hint Extern 1 (sound_on _ _ (run _ _ _ _) _) => apply Hrun : tremor.

Lemma eval_to_string_sound e :
  wf e = true → sound n (eval_to_string run o1 en inp e) (eval_to_string run o2 en inp e).
Proof. intros He. unfold eval_to_string. sound. Qed.

Lemma eval_to_index_sound e a :
  wf e = true → sound n (eval_to_index run o1 en inp e a) (eval_to_index run o2 en inp e a).
Proof. intros He. unfold eval_to_index. sound. Qed.
Hint Resolve eval_to_string_sound eval_to_index_sound : tremor.

Lemma path_base_sound p :
  wf_path_base sc wf p = true → sound n (path_base run o1 en inp p) (path_base run o2 en inp p).
Proof. intros Hp. destruct p; cbn [path_base wf_path_base] in *; sound. Qed.

Lemma resolve_segment_sound s c :
  wf_segment wf s = true → sound n (resolve_segment run o1 en inp s c) (resolve_segment run o2 en inp s c).
Proof. intros Hs. destruct s; cbn [resolve_segment wf_segment] in *; sound. Qed.

Lemma present_segment_sound s c :
  wf_segment wf s = true → sound n (present_segment run o1 en inp s c) (present_segment run o2 en inp s c).
Proof. intros Hs. destruct s; cbn [present_segment wf_segment] in *; sound. Qed.
Hint Resolve path_base_sound resolve_segment_sound present_segment_sound : tremor.

Lemma resolve_value_sound p v :
  wf_segments wf p = true → sound n (resolve_value run o1 en inp p v) (resolve_value run o2 en inp p v).
Proof.
  unfold wf_segments, resolve_value. intros Hs. apply sound_bind; [|intros ?; sound].
  revert Hs. generalize (v, None : option (list value)). induction (segments p) as [|s ss IH]; intros c Hs;
    cbn [resolve_segments forallb] in *; sound.
Qed.

Lemma present_segments_sound ss c :
  forallb (wf_segment wf) ss = true →
  sound n (present_segments run o1 en inp ss c) (present_segments run o2 en inp ss c).
Proof. revert c. induction ss as [|s ss IH]; intros c Hs; cbn [present_segments forallb] in *; sound. Qed.
Hint Resolve resolve_value_sound present_segments_sound : tremor.

Lemma resolve_sound p : wf_path sc wf p = true → sound n (resolve run o1 en inp p) (resolve run o2 en inp p).
Proof. unfold wf_path, resolve. intros Hp. sound. Qed.

Lemma present_sound p : wf_path sc wf p = true → sound n (present run o1 en inp p) (present run o2 en inp p).
Proof. unfold wf_path, present. intros Hp. sound. Qed.

Lemma test_guard_sound g :
  all_opt wf g = true → sound n (test_guard run o1 en inp g) (test_guard run o2 en inp g).
Proof. intros Hg. destruct g; cbn [test_guard all_opt] in *; sound. Qed.
Hint Resolve resolve_sound present_sound test_guard_sound : tremor.

(** *** Patterns

    The value of a pattern depends on whether a result is needed, so both
    sides run it with the same options. *)
Lemma same_options : same_aggr o1 o1.
Proof. by destruct Ho. Qed.
End opts.

Section patterns.
Variable o : exec_opts.
Hypothesis Ho : same_aggr o o.
Hint Resolve Hrun Hrp Hfn Ho : tremor.
Hint Extern 1 (sound_on _ _ (run _ _ _ _) _) => apply Hrun : tremor.
Hint Extern 1 (sound_on _ _ (match_rp _ _ _ _ _) _) => apply Hrp; [apply Ho|] : tremor.

Lemma match_array_element_sound p v :
  wf_element wf wf_rp p = true →
  sound n (match_array_element run match_rp o en inp p v) (match_array_element run match_rp o en inp p v).
Proof. intros Hp. destruct p; cbn [match_array_element wf_element] in *; sound. Qed.
Hint Resolve match_array_element_sound : tremor.

Lemma match_candidates_sound p i a b acc :
  wf_element wf wf_rp p = true →
  sound n (match_candidates run match_rp o en inp p i a b acc)
    (match_candidates run match_rp o en inp p i a b acc).
Proof. intros Hp. revert i b acc. induction a as [|x a IH]; intros i b acc; cbn [match_candidates]; sound. Qed.
Hint Resolve match_candidates_sound : tremor.

Lemma match_ap_sound t es :
  forallb (wf_element wf wf_rp) es = true →
  sound n (match_ap_expr run match_rp o en inp t es) (match_ap_expr run match_rp o en inp t es).
Proof.
  intros Hes. destruct t as [| |a| |]; cbn [match_ap_expr]; sound. generalize ([] : list value).
  induction es as [|e es IH]; intros acc; cbn [match_ap_loop forallb] in *; [by sound|].
  apply andb_true_iff in Hes as [? ?]. apply sound_bind; [destruct e; sound|intros []; sound].
Qed.

Lemma match_tp_sound t es open :
  forallb (wf_element wf wf_rp) es = true →
  sound n (match_tp_expr run match_rp o en inp t es open) (match_tp_expr run match_rp o en inp t es open).
Proof.
  intros Hes. destruct t as [| |a| |]; cbn [match_tp_expr]; sound. generalize ([] : list value). revert a.
  induction es as [|e es IH]; intros [|x a] acc; cbn [match_tp_loop forallb] in *; sound.
Qed.
Hint Resolve match_ap_sound match_tp_sound : tremor.

Lemma match_rp_expr_sound t rp :
  wf_record wf wf_rp rp = true →
  sound n (match_rp_expr run match_rp o en inp t rp) (match_rp_expr run match_rp o en inp t rp).
Proof.
  destruct rp as [fs]. intros Hfs. destruct t as [| | |r|]; cbn [match_rp_expr wf_record] in *; sound.
  generalize (∅ : gmap string value).
  induction fs as [|f fs IH]; intros acc; cbn [match_fields forallb] in *; [by sound|].
  apply andb_true_iff in Hfs as [? ?]. apply sound_bind; [|intros; sound].
  destruct f; cbn [match_field wf_field] in *; sound.
Qed.

End patterns.

Section predicates.
Variables (o1 o2 : exec_opts).
Hypothesis Ho : same_aggr o1 o2.
Hint Resolve Hrun Hrp Hfn Ho get_const_internal resolve_sound present_sound test_guard_sound
  match_ap_sound match_tp_sound : tremor.
Hint Extern 1 (sound_on _ _ (run _ _ _ _) _) => apply Hrun : tremor.

Lemma match_pattern_sound o t p :
  same_aggr o o → wf_simple_pattern wf wf_rp p = true →
  sound n (match_pattern run match_rp o1 en inp o t p) (match_pattern run match_rp o2 en inp o t p).
Proof.
  intros Ho' Hp. destruct p; cbn [match_pattern wf_simple_pattern] in *; try done; sound.
  apply Hrp; [apply Ho'|done].
Qed.

Lemma test_predicate_sound t p g :
  wf_pattern sc wf wf_rp p = true → all_opt wf g = true →
  sound n (test_predicate_expr run match_rp o1 en inp t p g) (test_predicate_expr run match_rp o2 en inp t p g).
Proof.
  assert (with_result o1 = with_result o2 ∧ without_result o1 = without_result o2) as [Hw Hwo].
  { unfold with_result, without_result. by destruct Ho as [-> _]. }
  assert (same_aggr (with_result o2) (with_result o2) ∧ same_aggr (without_result o2) (without_result o2))
    as [? ?].
  { destruct Ho as [Ha Ho']. unfold same_aggr, aggr_ok in *. simpl. by rewrite <-Ha. }
  intros Hp Hg. unfold test_predicate_expr. rewrite Hw, Hwo.
  destruct p; cbn [wf_pattern] in *; try apply andb_true_iff in Hp as [? ?];
    try (apply sound_bind; [by apply match_pattern_sound|intros; sound]). by sound.
Qed.

(** *** Immutable expressions *)
Hint Resolve test_predicate_sound same_options : tremor.

Lemma string_run_sound s :
  wf_string wf s = true → sound n (string_run run o1 en inp s) (string_run run o2 en inp s).
Proof.
  assert (∀ es out, forallb (wf_str_element wf) es = true →
    sound n (string_elements run o1 en inp es out) (string_elements run o2 en inp es out)) as Hes.
  { induction es as [|[l|e] es IH]; intros out Hes; cbn [string_elements forallb wf_str_element] in *; sound. }
  destruct s as [[|[l|e] [|]]]; intros Hs; unfold string_run, wf_string in *; sound; by apply Hes.
Qed.
Hint Resolve string_run_sound : tremor.

Lemma record_fields_sound fs obj :
  forallb (wf_record_field wf) fs = true →
  sound n (record_fields run o1 en inp fs obj) (record_fields run o2 en inp fs obj).
Proof.
  revert obj. induction fs as [|[nm e] fs IH]; intros obj Hfs;
    cbn [record_fields forallb wf_record_field] in *; sound.
Qed.

Lemma list_elements_sound es :
  forallb wf es = true → sound n (list_elements run o1 en inp es) (list_elements run o2 en inp es).
Proof. induction es as [|e es IH]; intros Hes; cbn [list_elements forallb] in *; sound. Qed.

Lemma bytes_parts_sound ps w :
  forallb (wf_part wf) ps = true → sound n (bytes_parts run o1 en inp ps w) (bytes_parts run o2 en inp ps w).
Proof. revert w. induction ps as [|[] ps IH]; intros w Hps; cbn [bytes_parts forallb wf_part] in *; sound. Qed.
Hint Resolve record_fields_sound list_elements_sound bytes_parts_sound : tremor.

Lemma invoke_invocable_internal f argv :
  wf_invocable wf_fn f = true → no_internal (invoke_invocable invoke_custom en f argv).
Proof. intros Hf. destruct f; simpl in *; auto with tremor. Qed.
Hint Resolve invoke_invocable_internal : tremor.

Lemma emit_aggr_sound id :
  idx_ok id (n_aggrs sc) = true → sound n (emit_aggr o1 en id) (emit_aggr o2 en id).
Proof.
  intros Hi. unfold emit_aggr. destruct Ho as [<- Ha]. rewrite bool_decide_false.
  2: { intros Hne. apply Hne, Ha. intros Hz. rewrite Hz in Hi. by destruct id. }
  apply sound_bind; [|intros; sound]. apply sound_of_res. unfold get_idx. destruct Henv as [_ ->].
  unfold idx_ok in Hi. rewrite Hi. apply N.ltb_lt in Hi.
  destruct (lookup_lt_is_Some_2 (aggrs en) (N.to_nat id)) as [x Hx]; [destruct Henv as [_ ->]; lia|].
  rewrite Hx. intros ? [=].
Qed.
Hint Resolve emit_aggr_sound : tremor.

Lemma length_list_elements o es l vs :
  (list_elements run o en inp es l).2 = SOk vs → length vs = length es.
Proof.
  revert l vs. induction es as [|e es IH]; intros l vs; [by intros [= <-]|].
  cbn [list_elements]. unfold mbind, run_bind, fmap, run_fmap.
  destruct (run o en inp e l) as [l1 [c|]]; [|done].
  destruct (list_elements run o en inp es l1) as [l2 [ws|]] eqn:Hws; [|done].
  intros [= <-]. simpl. f_equal. apply (IH l1). by rewrite Hws.
Qed.

Lemma write_args_sound i vs :
  (N.to_nat i + length vs <= n)%nat → sound n (write_args i vs) (write_args i vs).
Proof.
  revert i. induction vs as [|v vs IH]; intros i Hle; cbn [write_args length] in *; [by sound|].
  apply sound_bind; [|intros; apply IH; lia].
  apply sound_set_local_shadow. apply N.ltb_lt. lia.
Qed.

Lemma recur_sound argc es :
  (min (N.to_nat argc) (length es) <=? n)%nat = true → forallb wf es = true →
  sound n (recur run o1 en inp argc es) (recur run o2 en inp argc es).
Proof.
  intros Hle%Nat.leb_le Hes. unfold recur.
  apply (sound_bind_post _ _ (λ vs, length vs = length es)); [apply length_list_elements|sound|].
  intros vs Hvs. apply sound_bind; [|intros; sound]. apply write_args_sound.
  rewrite length_take. lia.
Qed.

(** The evaluated operations are the same but for the defaults, which are
    still to be run. *)
Inductive same_operation : pre_evaluated → pre_evaluated → Prop :=
  | same_default k d1 d2 : sound n d1 d2 → same_operation (EvDefault k d1) (EvDefault k d2)
  | same_default_record d1 d2 :
    sound n d1 d2 → same_operation (EvDefaultRecord d1) (EvDefaultRecord d2)
  | same_other op :
    match op with EvDefault _ _ | EvDefaultRecord _ => False | _ => True end → same_operation op op.

Lemma pre_evaluate_sound op :
  wf_operation wf op = true →
  sound_rel length n same_operation (pre_evaluate run o1 en inp op) (pre_evaluate run o2 en inp op).
Proof.
  intros Hop. destruct op; cbn [pre_evaluate wf_operation] in *;
    try apply andb_true_iff in Hop as [? ?];
    repeat (apply sound_bind_rel; [by sound|intros]); apply sound_rel_ret; constructor; solve [done|sound].
Qed.

Lemma pre_evaluate_all_sound ops :
  forallb (wf_operation wf) ops = true →
  sound_rel length n (Forall2 same_operation) (pre_evaluate_all run o1 en inp ops) (pre_evaluate_all run o2 en inp ops).
Proof.
  induction ops as [|op ops IH]; intros Hops; cbn [pre_evaluate_all forallb] in *.
  { apply sound_rel_ret. constructor. }
  apply andb_true_iff in Hops as [Hop Hops]. intros l Hl.
  destruct (pre_evaluate_sound op Hop l Hl) as (Heq & Hlen & Hr). unfold mbind, run_bind.
  destruct (pre_evaluate run o1 en inp op l) as [l1 [a|e]], (pre_evaluate run o2 en inp op l) as [l1' [b|e']];
    simpl in *; subst; try done.
  specialize (IH Hops l1' Hlen) as (Heq & Hlen' & Hrs).
  destruct (pre_evaluate_all run o1 en inp ops l1') as [l2 [as_|e]], (pre_evaluate_all run o2 en inp ops l1') as [l2' [bs|e']];
    simpl in *; subst; try done. split_and!; [done..|by constructor].
Qed.

Lemma patch_object_sound op1 op2 obj :
  same_operation op1 op2 → sound n (patch_object op1 obj) (patch_object op2 obj).
Proof. intros Hop. destruct Hop as [| |op Hop]; [| |destruct op]; cbn [patch_object] in *; try done; sound. Qed.

Lemma patch_sound t ops :
  wf t = true → forallb (wf_operation wf) ops = true →
  sound n (patch run o1 en inp t ops) (patch run o2 en inp t ops).
Proof.
  intros Ht Hops. unfold patch. apply sound_bind; [by sound|intros v].
  apply (sound_rel_bind _ _ (Forall2 same_operation)); [by apply pre_evaluate_all_sound|].
  intros es1 es2 Hes. apply sound_fmap. revert v.
  induction Hes as [|e1 e2 es1 es2 He Hes IH]; intros v; cbn [patch_target]; [by sound|].
  destruct v; [sound|sound|sound| |sound].
  apply sound_bind; [by apply patch_object_sound|done].
Qed.

Lemma merge_sound t e :
  wf t = true → wf e = true → sound n (merge_expr run o1 en inp t e) (merge_expr run o2 en inp t e).
Proof. intros Ht He. unfold merge_expr. sound. Qed.

Lemma comprehension_sound k v t cs :
  idx_ok k n = true → idx_ok v n = true → wf t = true → forallb (wf_case wf wf) cs = true →
  sound n (comprehension run o1 en inp k v t cs) (comprehension run o2 en inp k v t cs).
Proof.
  intros Hk Hv Ht Hcs. unfold comprehension. apply sound_bind; [by sound|intros tv].
  apply sound_bind; [|intros; sound]. generalize ([] : list value).
  induction (comprehension_items tv) as [|[kv vv] items IH]; intros acc; cbn [comprehension_loop]; [by sound|].
  sound. clear IH. induction cs as [|[g es e] cs IH]; cbn [comprehension_cases forallb wf_case] in *; sound.
Qed.

Lemma imut_match_sound t cgs d :
  wf t = true → forallb (wf_group (wf_pattern sc wf wf_rp) wf (wf_segments wf) wf false) cgs = true →
  wf_default wf d = true →
  sound n (imut_match run match_rp o1 en inp t cgs d) (imut_match run match_rp o2 en inp t cgs d).
Proof.
  intros Ht Hcgs Hd. unfold imut_match. apply sound_bind; [by sound|intros v].
  eapply run_match_sound; [| | |done|done].
  - intros p x Hp. apply sound_fmap, sound_attempt. by apply resolve_value_sound.
  - intros. by apply test_predicate_sound.
  - intros. by apply Hrun.
Qed.
Hint Resolve recur_sound patch_sound merge_sound comprehension_sound imut_match_sound : tremor.

Lemma imut_step_sound e :
  wf_imut_step sc wf wf_rp wf_fn e = true →
  sound n (imut_step run match_rp invoke_custom o1 en inp e) (imut_step run match_rp invoke_custom o2 en inp e).
Proof.
  intros He. destruct e; cbn [imut_step wf_imut_step] in *; try solve [sound].
  all: destruct i as [f args]; cbn [wf_invoke] in He;
    apply andb_true_iff in He as [[Hf Hlen]%andb_true_iff Hargs];
    unfold invoke1, invoke2, invoke3, invoke_all; try solve [sound].
  all: destruct args as [|a [|b [|c args]]]; try discriminate Hlen; cbn [forallb] in Hargs; sound.
Qed.
End predicates.
End parts.

(** ** Expressions *)
Definition store_size (s : store) : nat := length (s_local s).

Lemma immutably_sound n {A} (m1 m2 : inputs → run_m locals A) :
  (∀ inp, sound n (m1 inp) (m2 inp)) → sound_on store_size n (immutably m1) (immutably m2).
Proof.
  intros Hm s Hs. unfold immutably. set (inp := Inputs _ _ _).
  destruct (Hm inp (s_local s) Hs) as (Heq & Hlen & He). rewrite <-Heq.
  by destruct (m1 inp (s_local s)).
Qed.

Lemma demit_sound n m1 m2 k1 k2 :
  sound_on store_size n m1 m2 → (∀ c, sound_on store_size n (k1 c) (k2 c)) →
  sound_on store_size n (demit m1 k1) (demit m2 k2).
Proof. intros Hm Hk. unfold demit. sound. Qed.

Section exprs.
Context `{!script_lib, !value_trait, !hash_order string}.
Variable run : exec_opts → env → inputs → imut_expr → run_m locals cow.
Variable match_rp : exec_opts → env → inputs → value → record_pattern → run_m locals (option value).
Variable run_expr : exec_opts → env → expr → run_m store cont.
Variables (sc : scope) (wf : imut_expr → bool) (wf_rp : record_pattern → bool) (wf_e : expr → bool).
Variables (en : env) (o : exec_opts).
Local Abbreviation n := (n_locals sc).
Local Abbreviation ssound := (sound_on store_size n).

Hypothesis Henv : env_ok sc en.
Hypothesis Ho : aggr_ok sc o.
Hypothesis Hrun : ∀ inp o1 o2 e,
  same_aggr sc o1 o2 → wf e = true → sound n (run o1 en inp e) (run o2 en inp e).
Hypothesis Hrp : ∀ inp o t rp,
  aggr_ok sc o → wf_rp rp = true → sound n (match_rp o en inp t rp) (match_rp o en inp t rp).
Hypothesis Hexpr : ∀ o e, aggr_ok sc o → wf_e e = true → ssound (run_expr o en e) (run_expr o en e).

Lemma aggr_ok_result : aggr_ok sc (with_result o) ∧ aggr_ok sc (without_result o).
Proof. done. Qed.

Lemma eval_sound e :
  wf e = true → ssound (immutably (λ inp, into_owned <$> run o en inp e))
                       (immutably (λ inp, into_owned <$> run o en inp e)).
Proof. intros He. apply immutably_sound. intros inp. sound. by apply Hrun. Qed.

Lemma execute_effectors_sound es e :
  forallb wf_e es = true → wf_e e = true →
  ssound (execute_effectors run_expr o en es e) (execute_effectors run_expr o en es e).
Proof.
  intros Hes He. unfold execute_effectors. induction es as [|x es IH]; cbn [run_effectors forallb] in *.
  { by apply Hexpr. }
  apply andb_true_iff in Hes as [? ?]. apply demit_sound; [by apply Hexpr|]. intros _. by apply IH.
Qed.
Hint Resolve execute_effectors_sound eval_sound : tremor.

Lemma default_sound d :
  wf_default wf_e d = true →
  ssound (run_default (execute_effectors run_expr o en) (Cont (Borrowed const_null)) d)
    (run_default (execute_effectors run_expr o en) (Cont (Borrowed const_null)) d).
Proof. intros Hd. destruct d; cbn [run_default wf_default] in *; sound. Qed.

Lemma same_o : same_aggr sc o o.
Proof. done. Qed.
Hint Resolve default_sound same_o : tremor.

Lemma expr_test_sound t p g :
  wf_pattern sc wf wf_rp p = true → all_opt wf g = true →
  ssound (immutably (λ inp, test_predicate_expr run match_rp o en inp t p g))
    (immutably (λ inp, test_predicate_expr run match_rp o en inp t p g)).
Proof.
  intros Hp Hg. apply immutably_sound. intros inp. eapply test_predicate_sound; eauto with tremor.
Qed.

Lemma expr_match_sound t cgs d :
  wf t = true → forallb (wf_group (wf_pattern sc wf wf_rp) wf (wf_segments wf) wf_e false) cgs = true →
  wf_default wf_e d = true →
  ssound (expr_match run match_rp run_expr o en t cgs d) (expr_match run match_rp run_expr o en t cgs d).
Proof.
  intros Ht Hcgs Hd. unfold expr_match. apply sound_bind; [by auto with tremor|intros v].
  eapply run_match_sound; [| | |done|done].
  - intros p x Hp. apply immutably_sound. intros inp.
    apply sound_fmap, sound_attempt. eapply resolve_value_sound; eauto with tremor.
  - intros. by apply expr_test_sound.
  - intros. by apply execute_effectors_sound.
Qed.

Lemma if_expr_sound t c d :
  wf t = true → wf_clause (wf_pattern sc wf wf_rp) wf wf_e c = true → wf_default wf_e d = true →
  ssound (if_expr run match_rp run_expr o en t c d) (if_expr run match_rp run_expr o en t c d).
Proof.
  intros Ht Hc Hd. unfold if_expr. apply sound_bind; [by auto with tremor|intros v].
  destruct c as [p g es e]; cbn [wf_clause] in *. repeat apply andb_true_iff in Hc as [Hc ?].
  apply sound_bind; [by apply expr_test_sound|intros; sound].
Qed.

Lemma expr_comprehension_sound k v t cs :
  idx_ok k n = true → idx_ok v n = true → wf t = true → forallb (wf_case wf wf_e) cs = true →
  ssound (expr_comprehension run run_expr o en k v t cs) (expr_comprehension run run_expr o en k v t cs).
Proof.
  intros Hk Hv Ht Hcs. unfold expr_comprehension. apply sound_bind; [by auto with tremor|intros tv].
  generalize ([] : list value).
  induction (comprehension_items tv) as [|[kv vv] items IH]; intros acc; cbn [expr_comprehension_loop]; [by sound|].
  apply sound_bind; [apply immutably_sound; intros; sound|intros _].
  apply sound_bind; [apply immutably_sound; intros; sound|intros _].
  apply sound_bind; [|intros [[]|]; sound].
  clear IH. induction cs as [|[g es e] cs IH]; cbn [expr_cases forallb wf_case] in *; [by sound|].
  repeat apply andb_true_iff in Hcs as [Hcs ?]. repeat apply andb_true_iff in Hcs as [Hcs ?].
  apply sound_bind; [|intros; sound].
  apply immutably_sound. intros inp. eapply test_guard_sound; eauto with tremor.
Qed.

(** *** Assignments *)
Lemma alter_path_internal keys f v :
  (∀ x, no_internal (f x)) → no_internal (alter_path keys f v).
Proof.
  intros Hf. revert v. induction keys as [|k keys IH]; intros v; cbn [alter_path]; [done|].
  destruct v as [| | |obj|]; try no_internal_solve. destruct (obj !! k) as [x|]; [|no_internal_solve].
  specialize (IH x). destruct (alter_path keys f x); [intros ? [=]|]. intros ? [= <-]. by apply IH.
Qed.

Lemma assign_root_internal p s :
  wf_path_base sc wf p = true → store_size s = n → no_internal (assign_root p s).
Proof.
  intros Hp Hs. destruct p; cbn [assign_root wf_path_base] in *; try no_internal_solve.
  unfold get_idx. unfold store_size in Hs. rewrite Hs. unfold idx_ok in Hp. rewrite Hp.
  apply N.ltb_lt in Hp. destruct (lookup_lt_is_Some_2 (s_local s) (N.to_nat idx)) as [x Hx]; [lia|].
  rewrite Hx. simpl. by apply some_or_internal.
Qed.

Lemma set_assign_root_size p v s : store_size (set_assign_root p v s) = store_size s.
Proof. destruct p; try done. apply length_insert. Qed.

Lemma alter_root_sound p keys f :
  wf_path_base sc wf p = true → (∀ x, no_internal (f x)) → ssound (alter_root p keys f) (alter_root p keys f).
Proof.
  intros Hp Hf s Hs. split; [done|]. unfold alter_root, mbind, run_bind, read, of_res, write.
  pose proof (assign_root_internal p s Hp Hs) as Hroot. destruct (assign_root p s) as [root|e].
  2: { simpl. split; [done|]. intros ? [= <-]. by apply Hroot. }
  pose proof (alter_path_internal keys f root Hf) as Halter. destruct (alter_path keys f root) as [v|e]; simpl.
  - by rewrite set_assign_root_size.
  - split; [done|]. intros ? [= <-]. by apply Halter.
Qed.

Lemma enter_key_internal k v : no_internal (enter_key k v).
Proof. destruct v; no_internal_solve. Qed.

Lemma assign_walk_sound p ss keys v :
  wf_path_base sc wf p = true → forallb (wf_segment wf) ss = true →
  ssound (assign_walk run o en p ss keys v) (assign_walk run o en p ss keys v).
Proof.
  intros Hp. revert keys. induction ss as [|s ss IH]; intros keys Hss; cbn [assign_walk forallb] in *.
  { apply alter_root_sound; [done|]. intros x. no_internal_solve. }
  apply andb_true_iff in Hss as [Hseg Hss].
  destruct s as [k|i|e|a b]; cbn [wf_segment] in *; [|by sound| |by sound].
  - apply sound_bind; [|intros; by apply IH]. apply alter_root_sound; [done|]. apply enter_key_internal.
  - apply sound_bind; [|intros id; apply sound_bind; [|intros; by apply IH]].
    + apply immutably_sound. intros inp. eapply eval_to_string_sound; eauto with tremor.
    + apply alter_root_sound; [done|]. apply enter_key_internal.
Qed.

Lemma check_root_sound p : wf_path_base sc wf p = true → ssound (check_root p) (check_root p).
Proof.
  intros Hp s Hs. split; [done|]. unfold check_root, mbind, run_bind, read, of_res. simpl.
  split; [done|]. by apply assign_root_internal.
Qed.

Lemma local_slot i s (x : serror) :
  idx_ok i n = true → store_size s = n → ∃ v, some_or (get_idx (s_local s) i) x = SOk v.
Proof.
  unfold store_size, get_idx, idx_ok. intros Hi Hs. rewrite Hs, Hi. apply N.ltb_lt in Hi.
  destruct (lookup_lt_is_Some_2 (s_local s) (N.to_nat i)) as [v Hv]; [lia|]. rewrite Hv. by exists v.
Qed.

Lemma assign_direct_sound p v :
  wf_path_base sc wf p = true → ssound (assign_direct p v) (assign_direct p v).
Proof.
  intros Hp. destruct p; cbn [assign_direct wf_path_base] in *; try by sound.
  all: intros s Hs; split; [done|]; unfold mbind, run_bind, read, write, of_res.
  - destruct (local_slot idx s (Oops 0xdead000f) Hp Hs) as [x Hx]. rewrite Hx.
    split; [by rewrite <-Hs; apply (set_assign_root_size (LocalPath idx false []))|done].
  - done.
  - done.
Qed.

Lemma assign_sound p v :
  wf_path sc wf p = true → ssound (assign run o en p v) (assign run o en p v).
Proof.
  intros Hp. unfold assign. pose proof Hp as [Hbase Hss]%andb_true_iff. unfold wf_segments in Hss.
  destruct (segments p) as [|s ss] eqn:Hseg; [by apply assign_direct_sound|].
  unfold assign_nested. rewrite Hseg.
  apply sound_bind; [by apply check_root_sound|intros _].
  apply sound_bind; [by apply assign_walk_sound|intros _].
  destruct (result_needed o); [|by sound].
  apply immutably_sound. intros inp. eapply resolve_sound; eauto with tremor.
Qed.

Lemma take_local_sound i : idx_ok i n = true → ssound (take_local i) (take_local i).
Proof.
  intros Hi s Hs. split; [done|]. unfold take_local, mbind, run_bind, read, write, of_res.
  destruct (local_slot i s (Oops 0xdead000b) Hi Hs) as [x Hx]. rewrite Hx. simpl.
  split; [|by apply some_or_internal]. rewrite <-Hs. apply length_insert.
Qed.

Lemma emit_port_sound port :
  all_opt wf port = true → ssound (emit_port run o en port) (emit_port run o en port).
Proof.
  intros Hport. destruct port as [e|]; cbn [emit_port all_opt] in *; [|by sound].
  apply sound_fmap, immutably_sound. intros inp. eapply eval_to_string_sound; eauto with tremor.
Qed.
Hint Resolve assign_sound take_local_sound emit_port_sound expr_match_sound if_expr_sound
  expr_comprehension_sound : tremor.

Lemma emit_sound e port :
  wf e = true → all_opt wf port = true →
  ssound (expr_step run match_rp run_expr o en (EEmit e port))
    (expr_step run match_rp run_expr o en (EEmit e port)).
Proof.
  intros He Hport.
  assert (ssound (port ← emit_port run o en port;
    v ← immutably (λ inp, into_owned <$> run o en inp e); mret (Emit v port))
    (port ← emit_port run o en port;
    v ← immutably (λ inp, into_owned <$> run o en inp e); mret (Emit v port))) as Hgen by sound.
  assert (ssound (EmitEvent <$> emit_port run o en port) (EmitEvent <$> emit_port run o en port)) by sound.
  destruct e as [| | | | | | | |p| | | | | | | | | | |]; try done. destruct p as [| |[|]| | | | | |]; done.
Qed.

Lemma expr_step_sound e :
  wf_expr_step sc wf wf_rp wf_e e = true →
  ssound (expr_step run match_rp run_expr o en e) (expr_step run match_rp run_expr o en e).
Proof.
  intros He. destruct e as [t cgs d|t c d|p e|p i|k v t cs| |e port|e]; cbn [wf_expr_step] in *;
    [cbn [expr_step]; sound|cbn [expr_step]; sound| |cbn [expr_step]; sound|cbn [expr_step]; sound
    |cbn [expr_step]; sound| |].
  - cbn [expr_step]. apply andb_true_iff in He as [? ?]. apply demit_sound; [by apply Hexpr|intros; sound].
  - apply andb_true_iff in He as [? ?]. by apply emit_sound.
  - cbn [expr_step]. destruct (result_needed o); [|sound].
    apply sound_bind; [|intros; sound]. apply immutably_sound. intros inp. by apply Hrun.
Qed.
End exprs.

(** ** Functions *)
Section functions.
Context `{!script_lib, !value_trait, !hash_order string}.
Variable run_expr : exec_opts → env → expr → run_m store cont.
Variable wf_e : scope → expr → bool.
Hypothesis Hexpr : ∀ sc en o e,
  env_ok sc en → aggr_ok sc o → wf_e sc e = true →
  sound_on store_size (n_locals sc) (run_expr o en e) (run_expr o en e).

Lemma run_body_sound sc en body :
  env_ok sc en → n_aggrs sc = 0 → forallb (wf_e sc) body = true →
  sound_on store_size (n_locals sc) (run_body run_expr en body) (run_body run_expr en body).
Proof.
  intros Hen Ha Hb. assert (∀ o, aggr_ok sc o) as Ho by (by intros o []).
  induction body as [|e [|e' body] IH]; cbn [run_body forallb] in *; [by sound|..];
    apply andb_true_iff in Hb as [He Hb].
  - apply sound_fmap. by apply Hexpr.
  - apply sound_bind; [by apply Hexpr|intros _]. by apply IH.
Qed.

Lemma run_body_some en body s r :
  body ≠ [] → (run_body run_expr en body s).2 = SOk r → r ≠ None.
Proof.
  revert s. induction body as [|e [|e' body] IH]; intros s Hne; [done|..]; cbn [run_body];
    unfold fmap, mbind, run_fmap, run_bind; destruct (run_expr _ en e s) as [s' [c|]]; try done.
  - by intros [= <-].
  - intros Hr. by apply (IH s').
Qed.

Lemma fn_loop_internal sc en body argc k l :
  env_ok sc en → n_aggrs sc = 0 → body ≠ [] → forallb (wf_e sc) body = true → length l = n_locals sc →
  no_internal (fn_loop run_expr en body argc k l).
Proof.
  intros Hen Ha Hne Hb. revert l. induction k as [|k IH]; intros l Hl; cbn [fn_loop]; [no_internal_solve|].
  destruct (run_body_sound sc en body Hen Ha Hb (fn_store l) Hl) as (_ & Hlen & Hint).
  pose proof (run_body_some en body (fn_store l)) as Hsome.
  destruct (run_body run_expr en body (fn_store l)) as [s [[c|]|e]]; simpl in *.
  - destruct c as [c| | |]; try no_internal_solve.
    apply IH. rewrite length_app, length_take, length_fmap, length_drop. unfold store_size in Hlen. lia.
  - by destruct (Hsome None).
  - intros ? [= <-]. by apply Hint.
Qed.

Lemma length_fn_locals n argv : length (fn_locals n argv) = N.to_nat n.
Proof. unfold fn_locals. rewrite length_app, length_fmap, length_take, length_replicate. lia. Qed.

Lemma custom_invoke_internal sc en f argv :
  env_ok sc en → wf_fn_step wf_e sc f = true → no_internal (custom_invoke run_expr en f argv).
Proof.
  destruct f as [body na size ic il]. intros Hen Hf. unfold wf_fn_step in Hf.
  apply andb_true_iff in Hf as [Hne Hb]. unfold custom_invoke.
  eapply (fn_loop_internal (Scope (N.to_nat size) (n_consts sc) 0)); [|done| |done|].
  - split; [by destruct Hen|done].
  - intros ->. done.
  - apply length_fn_locals.
Qed.
End functions.

(** ** Scripts *)
Section soundness.
Context `{!script_lib, !value_trait, !hash_order string}.

Lemma interp_sound d :
  (∀ sc en inp o1 o2 e, env_ok sc en → same_aggr sc o1 o2 → wf_imut d sc e = true →
     sound (n_locals sc) (imut_run o1 en inp e) (imut_run o2 en inp e)) ∧
  (∀ sc en inp o t rp, env_ok sc en → aggr_ok sc o → wf_rp d sc rp = true →
     sound (n_locals sc) (rp_run o en inp t rp) (rp_run o en inp t rp)) ∧
  (∀ sc en f argv, env_ok sc en → wf_fn d sc f = true → no_internal (fn_invoke en f argv)) ∧
  (∀ sc en o e, env_ok sc en → aggr_ok sc o → wf_expr d sc e = true →
     sound_on store_size (n_locals sc) (expr_run o en e) (expr_run o en e)).
Proof.
  induction d as [|d (IHi & IHr & IHf & IHe)]; [done|]. split_and!.
  - intros sc en inp o1 o2 e Hen Ho He. rewrite !imut_run_step.
    eapply imut_step_sound; eauto.
  - intros sc en inp o t rp Hen Ho Hrp. rewrite rp_run_step.
    eapply match_rp_expr_sound; [| |done|done]; eauto.
  - intros sc en f argv Hen Hf. rewrite fn_invoke_step. eapply custom_invoke_internal; eauto.
  - intros sc en o e Hen Ho He. rewrite expr_run_step. eapply expr_step_sound; eauto.
Qed.

Definition script_scope (sc : script) : scope :=
  Scope (N.to_nat (sc_locals sc)) (length (sc_consts sc)) (length (sc_aggregates sc)).
Definition wf_script (d : nat) (sc : script) : bool :=
  negb (bool_decide (length (sc_exprs sc) = 0)) && forallb (wf_expr d (script_scope sc)) (sc_exprs sc).

Lemma script_loop_sound d sc a en es :
  env_ok sc en → aggr_ok sc (ExecOpts true a) → es ≠ [] → forallb (wf_expr d sc) es = true →
  sound_on store_size (n_locals sc) (script_loop a en es) (script_loop a en es).
Proof.
  intros Hen Ha Hne Hes. induction es as [|e [|e' es] IH]; cbn [script_loop forallb] in *; [done|..];
    apply andb_true_iff in Hes as [He Hes].
  - apply sound_fmap. by eapply interp_sound.
  - apply sound_bind; [by eapply interp_sound|]. intros c. destruct c; try by sound. by apply IH.
Qed.

(** A well-formed script never fails with an internal error: no index is
    out of its table, no argument is missing, no code the interpreter takes
    for unreachable is reached and no function loops for ever, whatever the
    event, the state, the metadata and the limit of recursions are. *)
Theorem wf_script_no_internal_error d sc ctx limit a event state meta :
  wf_script d sc = true → (sc_aggregates sc ≠ [] → a = EmitAggr) →
  ∀ e, (script_run sc ctx limit a event state meta).2 = SErr e → internal e = false.
Proof.
  intros [Hne Hes]%andb_true_iff Ha. unfold script_run.
  destruct (script_loop_sound d (script_scope sc) a (script_env sc ctx limit) (sc_exprs sc))
    with (s := Store event state meta (with_size (sc_locals sc))) as (_ & _ & Hint).
  - done.
  - intros Hz. apply Ha. intros Hnil. apply Hz. simpl. by rewrite Hnil.
  - by intros Hnil; rewrite Hnil in Hne.
  - done.
  - apply length_replicate.
  - by destruct (script_loop _ _ _ _).
Qed.

(** An immutable expression has the same value, the same error and the
    same effect on the local variables whether its result is asked for or
    not. *)
Theorem imut_result_needed d sc en inp a needed e l :
  wf_imut d sc e = true → env_ok sc en → (n_aggrs sc ≠ 0 → a = EmitAggr) → length l = n_locals sc →
  imut_run (ExecOpts needed a) en inp e l = imut_run (ExecOpts true a) en inp e l.
Proof.
  intros He Hen Ha Hl. by eapply (proj1 (interp_sound d) sc en inp (ExecOpts needed a) (ExecOpts true a) e).
Qed.
End soundness.

(** ** An example

    [fn fact(n, acc) of case (0, acc) => acc default => recur(n - 1, acc * n)]
    in its form after the analysis, called on a field of the event. *)
Module Factorial.
#[local] Existing Instance some_lib.
#[local] Existing Instance simd_value_trait.
#[local] Instance hash_order_some : hash_order string := some_order string.

Definition num (n : N) : imut_expr := ILiteral (from_u64 n).
Definition n : imut_expr := ILocal 0 false.
Definition acc : imut_expr := ILocal 1 false.
Definition fact : custom_fn :=
  CustomFn
    [EImut (IMatch n [Single None (PredicateClause (PatExpr (num 0)) None [] acc)]
       (DefaultOne (IRecur 2 [IBinary Sub n (num 1); IBinary Mul acc n])))]
    2 2 false false.
Definition call (e : imut_expr) : imut_expr := IInvoke2 (Invoke (Tremor fact) [e; num 1]).
Definition prog : script :=
  Script
    [EAssign (LocalPath 0 false []) (EImut (call (IPath (EventPath [SegId "n"%string]))));
     EEmit (IRecord ∅ [Field (StringLit [SLit "fact"%string]) (ILocal 0 false)]) None]
    [] const_null const_null const_null [] 1.

Definition input (n : N) : value := VObject {["n"%string := from_u64 n]}.
Definition run (limit n : N) : sres return_ :=
  (script_run prog tt limit Tick (input n) const_null value_object).2.

Example prog_5 : run 1024 5 = SOk (RetEmit (VObject {["fact"%string := from_u64 120]}) None).
Proof. reflexivity. Qed.
Example prog_limit : run 5 5 = SErr RecursionLimit.
Proof. reflexivity. Qed.

Lemma wf_script_no_internal_error_witness :
  wf_script 10 prog = true ∧
  ∀ e, (script_run prog tt 5 Tick (input 5) const_null value_object).2 = SErr e → internal e = false.
Proof. split; [reflexivity|]. apply (wf_script_no_internal_error 10); [reflexivity|by intros []]. Defined.

Lemma imut_result_needed_witness :
  let en := script_env prog tt 5 in
  let inp := Inputs (input 3) const_null value_object in
  imut_run (ExecOpts false Tick) en inp (call (num 3)) [None] =
  imut_run (ExecOpts true Tick) en inp (call (num 3)) [None].
Proof.
  intros en inp. apply (imut_result_needed 10 (Scope 1 0 0)); [reflexivity|done|by intros []|done].
Defined.
End Factorial.
