(* ===== verification/ScriptPaths.v ===== *)
(** Paths: presence against resolution, and assignments.

    [lookup_path] and [set_path] are the reference for paths made of keys. *)
From S2P Require Import Prelude Value ValueOrd ScriptOps Bits Ast Interp.

Section present.
Context `{!script_lib, !value_trait, !hash_order string}.

Section parts.
Variable run : exec_opts → env → inputs → imut_expr → run_m locals cow.
Variables (opts : exec_opts) (en : env) (inp : inputs).

(** What presence answers for a part of a path, against what its resolution
    does: the same effect, and [false] exactly for its errors. *)
Definition agrees {A B} (p : locals * sres A) (found : A → option B) (r : locals * sres B) : Prop :=
  match p with
  | (l, SOk a) =>
    match found a with Some b => r = (l, SOk b) | None => ∃ e, r = (l, SErr e) end
  | (l, SErr e) => r = (l, SErr e)
  end.

Lemma agrees_bind {X A B} (m : run_m locals X) (f : X → run_m locals A) (g : X → run_m locals B) found l :
  (∀ x l, agrees (f x l) found (g x l)) → agrees ((m ≫= f) l) found ((m ≫= g) l).
Proof. intros Hfg. unfold mbind, run_bind. destruct (m l) as [l' [x|e]]; [apply Hfg|done]. Qed.

Lemma agrees_fail {A B} (a : A) (found : A → option B) e l :
  found a = None → agrees ((mret a : run_m locals A) l) found ((fail e : run_m locals B) l).
Proof. intros Hf. cbn. rewrite Hf. by eexists. Qed.

Lemma agrees_same {A B} (found : A → option B) e l :
  agrees ((fail e : run_m locals A) l) found ((fail e : run_m locals B) l).
Proof. reflexivity. Qed.

Lemma agrees_some {A} (f : A → cursor) (o : option A) e l :
  agrees ((mret (f <$> o) : run_m locals (option cursor)) l) (λ x, x)
    ((match o with Some v => mret (f v) | None => fail e end : run_m locals cursor) l).
Proof. destruct o; [reflexivity|by eexists]. Qed.

Lemma present_segment_agrees s c l :
  agrees (present_segment run opts en inp s c l) (λ x, x) (resolve_segment run opts en inp s c l).
Proof.
  destruct c as [cur sub]. destruct s as [key|idx|e|a b]; cbn [present_segment resolve_segment fst].
  - destruct (key_lookup key cur); [reflexivity|].
    destruct (is_object cur); apply (agrees_fail None); reflexivity.
  - destruct cur; try (apply (agrees_fail None); reflexivity). apply (agrees_some (λ v, (v, None))).
  - apply agrees_bind. intros key l'.
    destruct cur as [|s|a|o|b], key as [|s'| | |]; cbn [is_str];
      try (destruct (is_usize _)); try (apply (agrees_fail None); reflexivity);
      try apply (agrees_some (λ v, (v, None)));
      apply agrees_bind; intros idx l''; apply (agrees_some (λ v, (v, None))).
  - destruct cur as [| |arr| |]; try (apply (agrees_fail None); reflexivity).
    apply agrees_bind. intros start l1. apply agrees_bind. intros end_ l2.
    destruct (end_ <? start)%N; [apply agrees_same|].
    destruct (_ <? end_)%N; [apply (agrees_fail None)|]; reflexivity.
Qed.

Lemma present_segments_agrees ss c l :
  agrees (present_segments run opts en inp ss c l) (λ b, if b then Some () else None)
    (((λ _, ()) <$> resolve_segments run opts en inp ss c) l).
Proof.
  revert c l. induction ss as [|s ss IH]; intros c l; cbn [present_segments resolve_segments]; [reflexivity|].
  pose proof (present_segment_agrees s c l) as Hs. unfold mbind, fmap, run_bind, run_fmap in *.
  destruct (present_segment run opts en inp s c l) as [l' [[c'|]|e]]; cbn [agrees] in Hs.
  - rewrite Hs. apply IH.
  - destruct Hs as [e ->]. by eexists.
  - by rewrite Hs.
Qed.
End parts.

(** [present] answers [true] exactly when the path can be resolved, with
    the same effect on the local variables, and [false] only when the
    resolution fails; where it fails itself, the resolution fails in the same
    way. *)
Theorem present_iff_resolve opts en inp p l :
  match imut_run opts en inp (IPresent p) l with
  | (l', SOk c) =>
    (c = Borrowed TRUE ∧ ∃ v, imut_run opts en inp (IPath p) l = (l', SOk v)) ∨
    (c = Borrowed FALSE ∧ ∃ e, imut_run opts en inp (IPath p) l = (l', SErr e))
  | (l', SErr e) => imut_run opts en inp (IPath p) l = (l', SErr e)
  end.
Proof.
  rewrite !imut_run_step. cbn [imut_step]. unfold present, resolve, resolve_value.
  unfold mbind, run_bind. destruct (path_base imut_run opts en inp p l) as [l1 [[v|i]|e]]; [| |done].
  2: { right. split; [done|]. by eexists. }
  pose proof (present_segments_agrees imut_run opts en inp (segments p) (v, None) l1) as Hs.
  unfold fmap, run_fmap in Hs.
  destruct (present_segments imut_run opts en inp (segments p) (v, None) l1) as [l2 [b|e]]; cbn [agrees] in Hs;
    destruct (resolve_segments imut_run opts en inp (segments p) (v, None) l1) as [l3 [c|e']].
  - destruct b; [|by destruct Hs as [? [=]]]. injection Hs as ->. left. split; [done|]. by eexists.
  - destruct b; [done|]. destruct Hs as [e Hs]. injection Hs as -> ->. right. split; [done|]. by eexists.
  - done.
  - by injection Hs as -> ->.
Qed.
End present.

(** ** Paths made of keys *)
Fixpoint lookup_path (keys : list string) (v : value) : option value :=
  match keys with
  | [] => Some v
  | k :: keys => match v with VObject o => o !! k ≫= lookup_path keys | _ => None end
  end.

(** Fields that are missing on the way are created as objects. *)
Fixpoint set_path (keys : list string) (x v : value) : option value :=
  match keys with
  | [] => Some x
  | k :: keys =>
    match v with
    | VObject o => (λ y, VObject (<[k := y]> o)) <$> set_path keys x (default (VObject ∅) (o !! k))
    | _ => None
    end
  end.

(** Neither leads to a part of what the other one leads to. *)
Definition diverge (p q : list string) : Prop :=
  ∃ c k k' p' q', p = c ++ k :: p' ∧ q = c ++ k' :: q' ∧ k ≠ k'.

Lemma lookup_set_path keys x v v' : set_path keys x v = Some v' → lookup_path keys v' = Some x.
Proof.
  revert v v'. induction keys as [|k keys IH]; intros v v'; simpl; [by intros [= ->]|].
  destruct v as [| | |o|]; try done. intros (y & Hy & ->)%fmap_Some. rewrite lookup_insert_eq. simpl. eauto.
Qed.

Lemma lookup_set_path_ne p q x v v' :
  set_path p x v = Some v' → diverge p q → lookup_path q v' = lookup_path q v.
Proof.
  intros Hs (c & k & k' & p' & q' & -> & -> & Hne). revert v v' Hs.
  induction c as [|a c IH]; intros v v'; simpl; (destruct v as [| | |o|]; try done);
    intros (y & Hy & ->)%fmap_Some.
  - by rewrite lookup_insert_ne.
  - rewrite lookup_insert_eq. simpl. rewrite (IH _ _ Hy). destruct (o !! a); [done|].
    simpl. by destruct c; simpl; rewrite lookup_empty.
Qed.

Lemma lookup_path_app p q v : lookup_path (p ++ q) v = lookup_path p v ≫= lookup_path q.
Proof.
  revert v. induction p as [|k p IH]; intros v; simpl; [done|].
  destruct v as [| | |o|]; try done. destruct (o !! k); [apply IH|done].
Qed.

(** The reference read along the current prefix of the walk. *)
Lemma set_path_app p q x v cur :
  lookup_path p v = Some cur → set_path (p ++ q) x v = set_path q x cur ≫= λ y, set_path p y v.
Proof.
  revert v. induction p as [|k p IH]; intros v; simpl.
  { intros [= ->]. by destruct (set_path q x cur). }
  destruct v as [| | |o|]; try done. intros (y & Hy & Hl)%bind_Some. rewrite Hy. simpl.
  rewrite (IH _ Hl). by destruct (set_path q x cur).
Qed.

Lemma set_path_Some p x v cur : lookup_path p v = Some cur → ∃ v', set_path p x v = Some v'.
Proof.
  revert v. induction p as [|k p IH]; intros v; simpl; [by eexists|].
  destruct v as [| | |o|]; try done. intros (y & Hy & Hl)%bind_Some. rewrite Hy. simpl.
  destruct (IH _ Hl) as [v' ->]. by eexists.
Qed.

Lemma set_path_new p x : ∃ v', set_path p x (VObject ∅) = Some v'.
Proof.
  induction p as [|k p [v' IH]]; simpl; [by eexists|]. rewrite lookup_empty. simpl. rewrite IH. by eexists.
Qed.

Lemma set_path_twice p x y v v' : set_path p y v = Some v' → set_path p x v' = set_path p x v.
Proof.
  revert v v'. induction p as [|k p IH]; intros v v'; simpl; [done|].
  destruct v as [| | |o|]; try done. intros (z & Hz & ->)%fmap_Some.
  rewrite lookup_insert_eq. simpl. rewrite (IH _ _ Hz).
  destruct (set_path p x _); [|done]. simpl. by rewrite insert_insert_eq.
Qed.

Lemma set_path_id p v cur : lookup_path p v = Some cur → set_path p cur v = Some v.
Proof.
  revert v. induction p as [|k p IH]; intros v; simpl; [by intros [= ->]|].
  destruct v as [| | |o|]; try done. intros (y & Hy & Hl)%bind_Some. rewrite Hy. simpl.
  rewrite (IH _ Hl). simpl. by rewrite insert_id.
Qed.

Lemma alter_path_lookup p f v cur :
  lookup_path p v = Some cur →
  alter_path p f v = x ← f cur; some_or (set_path p x v) Dangling.
Proof.
  revert v. induction p as [|k p IH]; intros v; simpl.
  { intros [= ->]. by destruct (f cur). }
  destruct v as [| | |o|]; try done. intros (y & Hy & Hl)%bind_Some. rewrite Hy, (IH _ Hl). simpl.
  destruct (f cur) as [x|]; simpl; [|done]. destruct (set_path_Some p x y cur Hl) as [v' ->]. done.
Qed.

(** ** Assignments *)
Section assign.
Context `{!script_lib, !value_trait, !hash_order string}.
Variables (opts : exec_opts) (en : env).

(** The paths that can be assigned to, with their base in a store. *)
Definition base_in (p : path) (s : store) (root : value) : Prop := assign_root p s = SOk root.

Lemma base_in_set p s root v : base_in p s root → base_in p (set_assign_root p v s) v.
Proof.
  unfold base_in. destruct p; try done. cbn [assign_root set_assign_root].
  unfold get_idx, set_local. cbn [s_local]. rewrite length_insert.
  destruct (idx <? N.of_nat (length (s_local s)))%N eqn:Hi; [|done]. apply N.ltb_lt in Hi.
  intros _. rewrite list_lookup_insert_eq by lia. done.
Qed.

Lemma set_assign_root_twice p v w s : set_assign_root p w (set_assign_root p v s) = set_assign_root p w s.
Proof. destruct p; try done. unfold set_assign_root, set_local. simpl. f_equal. apply list_insert_insert_eq. Qed.

Lemma set_assign_root_id p s root : base_in p s root → set_assign_root p root s = s.
Proof.
  destruct s as [ev st mt lo], p; unfold base_in; cbn [assign_root set_assign_root]; try done; try by intros [= ->].
  unfold get_idx, set_local. cbn [s_local s_event s_state s_meta].
  destruct (_ <? _)%N; [|done]. destruct (lo !! N.to_nat idx) as [[r|]|] eqn:Hr; try done.
  intros [= ->]. f_equal. by apply list_insert_id.
Qed.

Lemma alter_root_at p keys f s root cur :
  base_in p s root → lookup_path keys root = Some cur →
  alter_root p keys f s =
  match f cur with
  | SOk x => (set_assign_root p (default root (set_path keys x root)) s, SOk ())
  | SErr e => (s, SErr e)
  end.
Proof.
  intros Hb Hl. unfold alter_root, mbind, run_bind, read, of_res, write. rewrite Hb.
  rewrite (alter_path_lookup _ _ _ _ Hl). destruct (f cur) as [x|e]; [|done]. simpl.
  by destruct (set_path_Some keys x root cur Hl) as [v' ->].
Qed.

Lemma enter_key_set k o :
  enter_key k (VObject o) = SOk (VObject (<[k := default (VObject ∅) (o !! k)]> o)).
Proof. cbn [enter_key]. destruct (o !! k) eqn:Hk; simpl; [by rewrite insert_id|done]. Qed.

(** The walk along keys does what the reference does; where it fails, it
    fails before anything is inserted. *)
Lemma assign_walk_keys run p keys pre v s root cur :
  base_in p s root → lookup_path pre root = Some cur →
  match set_path keys v cur with
  | Some x =>
    assign_walk run opts en p (SegId <$> keys) pre v s =
    (set_assign_root p (default root (set_path pre x root)) s, SOk ())
  | None => ∃ t, assign_walk run opts en p (SegId <$> keys) pre v s = (s, SErr (NeedObj t))
  end.
Proof.
  revert pre s root cur. induction keys as [|k keys IH]; intros pre s root cur Hb Hl;
    cbn [set_path assign_walk fmap list_fmap].
  { by rewrite (alter_root_at _ _ _ _ _ _ Hb Hl). }
  pose proof (alter_root_at p pre (enter_key k) s root cur Hb Hl) as Hstep.
  destruct cur as [| | |o|]; try (by eexists; rewrite (run_bind_Err _ _ _ _ _ Hstep)).
  rewrite enter_key_set in Hstep. set (y := default (VObject ∅) (o !! k)) in *.
  destruct (set_path_Some pre (VObject (<[k:=y]> o)) root _ Hl) as [root1 Hroot1].
  rewrite Hroot1 in Hstep. change (default root (Some root1)) with root1 in Hstep.
  set (s1 := set_assign_root p root1 s) in *.
  assert (base_in p s1 root1) as Hb1 by by eapply base_in_set.
  assert (lookup_path (pre ++ [k]) root1 = Some y) as Hl1.
  { rewrite lookup_path_app, (lookup_set_path _ _ _ _ Hroot1). simpl. by rewrite lookup_insert_eq. }
  specialize (IH (pre ++ [k]) s1 root1 y Hb1 Hl1).
  destruct (set_path keys v y) as [x|] eqn:Hx; cbn [fmap option_fmap option_map];
    rewrite (run_bind_Ok _ _ _ _ _ Hstep).
  - assert (set_path (pre ++ [k]) x root1 = set_path pre (VObject (<[k:=x]> o)) root) as Hx'.
    { rewrite (set_path_app pre [k] x root1 _ (lookup_set_path _ _ _ _ Hroot1)). simpl.
      by rewrite (set_path_twice _ _ _ _ _ Hroot1), insert_insert_eq. }
    rewrite IH, Hx'. unfold s1. rewrite set_assign_root_twice.
    by destruct (set_path_Some pre (VObject (<[k:=x]> o)) root _ Hl) as [v' ->].
  - destruct IH as [t ->]. exists t. f_equal. unfold s1, y in *.
    destruct (o !! k) as [z|] eqn:Hk; [|by destruct (set_path_new keys v) as [? Hnew]; simpl in Hx; rewrite Hnew in Hx].
    cbn [default] in Hroot1. rewrite insert_id, (set_path_id _ _ _ Hl) in Hroot1 by done.
    injection Hroot1 as <-. by apply set_assign_root_id.
Qed.

Lemma resolve_keys run inp keys v x l :
  lookup_path keys v = Some x →
  resolve_segments run opts en inp (SegId <$> keys) (v, None) l = (l, SOk (x, None)).
Proof.
  revert v. induction keys as [|k keys IH]; intros v; cbn [lookup_path fmap list_fmap]; [by intros [= ->]|].
  destruct v as [| | |o|]; try done. intros (y & Hy & Hl)%bind_Some.
  cbn [resolve_segments].
  rewrite (run_bind_Ok _ _ _ l ((y, None) : cursor)); [by apply IH|].
  unfold resolve_segment, key_lookup. simpl. by rewrite Hy.
Qed.

Lemma resolve_assigned run p keys x s root :
  segments p = SegId <$> keys → base_in p s root → lookup_path keys root = Some x →
  immutably (λ inp, resolve run opts en inp p) s = (s, SOk (Borrowed x)).
Proof.
  intros Hp Hb Hl. unfold immutably, resolve, resolve_value. set (inp := Inputs _ _ _).
  assert (path_base run opts en inp p (s_local s) = (s_local s, SOk (inl root))) as Hbase.
  { destruct p; cbn [assign_root path_base] in *; unfold base_in in Hb; try done; try by injection Hb as <-.
    unfold local_get, mbind, run_bind, read, of_res. simpl.
    cbn [assign_root] in Hb. destruct (get_idx (s_local s) idx) as [[r|]|]; simplify_eq/=; done. }
  rewrite (run_bind_Ok _ _ _ _ _ Hbase), Hp.
  rewrite (run_bind_Ok _ _ _ _ _ (resolve_keys run inp keys root x (s_local s) Hl)). by destruct s.
Qed.

(** C21: An assignment to a path of keys: the value is written where the
    reference writes it, objects that are missing on the way are created, it
    is what the path resolves to afterwards and what is returned, and no
    path that leads elsewhere changes; where a key would go into something
    that is no object, the assignment fails and nothing is written. *)
Theorem assign_then_read p keys e c s s1 root :
  segments p = SegId <$> keys → keys ≠ [] →
  expr_run (with_result opts) en e s = (s1, SOk (Cont c)) → base_in p s1 root →
  match set_path keys (into_owned c) root with
  | Some root' =>
    expr_run opts en (EAssign p e) s =
      (set_assign_root p root' s1,
       SOk (Cont (Borrowed (if result_needed opts then into_owned c else const_null)))) ∧
    base_in p (set_assign_root p root' s1) root' ∧
    lookup_path keys root' = Some (into_owned c) ∧
    ∀ q, diverge keys q → lookup_path q root' = lookup_path q root
  | None => ∃ t, expr_run opts en (EAssign p e) s = (s1, SErr (NeedObj t))
  end.
Proof.
  intros Hp Hne Hrun Hb. set (v := into_owned c).
  pose proof (assign_walk_keys imut_run p keys [] v s1 root root Hb eq_refl) as Hwalk.
  assert (expr_run opts en (EAssign p e) s = (Cont <$> assign imut_run opts en p v) s1) as ->.
  { rewrite expr_run_step. cbn [expr_step]. unfold demit. by rewrite (run_bind_Ok _ _ _ _ _ Hrun). }
  unfold assign, assign_nested. rewrite Hp. destruct keys as [|k keys]; [done|].
  change (match SegId <$> k :: keys with [] => ?a | _ => ?b end) with b.
  assert (check_root p s1 = (s1, SOk root)) as Hcheck.
  { unfold check_root. rewrite (run_bind_Ok _ _ _ s1 s1); [|done]. unfold of_res. by rewrite Hb. }
  unfold fmap at 1, run_fmap at 1. rewrite (run_bind_Ok _ _ _ _ _ Hcheck).
  destruct (set_path (k :: keys) v root) as [root'|] eqn:Hset.
  - rewrite (run_bind_Ok _ _ _ _ _ Hwalk). cbn [set_path default].
    pose proof (lookup_set_path _ _ _ _ Hset) as Hl.
    pose proof (base_in_set p s1 root root' Hb) as Hb'. split_and!; [|done|done|].
    + destruct (result_needed opts); [|done].
      rewrite (resolve_assigned imut_run p (k :: keys) v (set_assign_root p root' s1) root'); [|done..].
      done.
    + intros q. by eapply lookup_set_path_ne.
  - destruct Hwalk as [t Hwalk]. exists t. unfold fmap at 1, run_fmap at 1.
    by rewrite (run_bind_Ok _ _ _ _ _ Hcheck), (run_bind_Err _ _ _ _ _ Hwalk).
Qed.
End assign.

Module AssignExample.
#[local] Existing Instance some_lib.
#[local] Existing Instance simd_value_trait.
#[local] Instance hash_order_some : hash_order string := some_order string.
Local Open Scope string_scope.

Definition en : env := Env tt [] const_null const_null const_null [] 5.
Definition event : value := VObject {["a" := VObject ∅; "c" := TRUE]}.
Definition st : store := Store event const_null const_null [].
Definition p : path := EventPath [SegId "a"; SegId "b"].
Definition e : expr := EImut (ILiteral (from_u64 7)).

Lemma assign_then_read_witness :
  expr_run (ExecOpts true Tick) en (EAssign p e) st =
    (Store (VObject {["a" := VObject {["b" := from_u64 7]}; "c" := TRUE]}) const_null const_null [],
     SOk (Cont (Borrowed (from_u64 7)))).
Proof.
  pose proof (assign_then_read (ExecOpts true Tick) en p ["a"; "b"] e (Borrowed (from_u64 7)) st st event
    eq_refl ltac:(done) eq_refl eq_refl) as Hw.
  simpl in Hw. destruct Hw as [Hw _]. exact Hw.
Defined.
End AssignExample.
