(* ===== verification/ScriptMatch.v ===== *)
(** Building a match: [MatchRaw::up] of tremor-script/src/ast/raw.rs, with the
    costs of ast/analyzer.rs and the exclusivity of patterns, the optimisation
    and the combination of clause groups of ast.rs.

    The clauses of a match are reordered, put into groups and rewritten; the
    theorem of this file is that this does not change what a match does, as
    long as clauses that are judged exclusive are. *)
From S2P Require Import Prelude Value ValueOrd ScriptOps Bits Ast Interp.

(** What the analysis knows about extractors (tilde.rs), and the comparison
    of expressions of ast/eq.rs, which compares literals by their values. *)
Class analysis `{!script_lib} := {
  extractor_cost : extractor → N;
  extractor_is_exclusive_to : extractor → value → bool;
  extractors_exclusive : extractor → extractor → bool;
  value_eqb : value → value → bool;
  ast_eq : imut_expr → imut_expr → bool;
  ast_eq_literal v w : ast_eq (ILiteral v) (ILiteral w) = value_eqb v w;
}.

Section analysis.
Context `{!script_lib, !analysis}.

(** ** Costs *)
Definition FREE : N := 0.
Definition CONST : N := 10.
Definition AVERAGE : N := 100.

Definition sum_costs {A} (f : A → N) (l : list A) : N := foldr (λ x s, f x + s)%N 0%N l.

Fixpoint record_cost (rp : record_pattern) : N :=
  match rp with RecordPattern fs => sum_costs (λ f, predicate_cost f + AVERAGE)%N fs end
with predicate_cost (p : predicate_pattern) : N :=
  match p with
  | FieldPresent _ | FieldAbsent _ => CONST
  | BinEq _ (ILiteral _) _ => (CONST * 2)%N
  | BinEq _ _ _ => AVERAGE
  | TildeEq _ test => extractor_cost test
  | RecordPatternEq _ rp => record_cost rp
  | ArrayPatternEq _ es => (sum_costs array_cost es * N.of_nat (length es))%N
  | TuplePatternEq _ es _ => sum_costs array_cost es
  end
with array_cost (a : array_predicate_pattern) : N :=
  match a with
  | AIgnore => 1
  | AExpr _ => CONST
  | ATilde test => extractor_cost test
  | ARecord rp => record_cost rp
  end.

Fixpoint pattern_cost (p : pattern) : N :=
  match p with
  | PatDoNotCare | PatDefault => FREE
  | PatExpr _ => CONST
  | PatRecord rp => record_cost rp
  | PatArray es => (sum_costs array_cost es * N.of_nat (length es))%N
  | PatAssign _ p => pattern_cost p
  | PatTuple es _ => sum_costs array_cost es
  | PatExtract test => extractor_cost test
  end.

Definition clause_cost {E} (c : predicate_clause pattern imut_expr E) : N :=
  ((match guard_of c with Some _ => CONST | None => FREE end) + pattern_cost (pattern_of c))%N.

(** ** Exclusive patterns

    The [lhs] of a field is its key. *)
Definition predicate_exclusive (p q : predicate_pattern) : bool :=
  match p, q with
  | BinEq k r OpEq, BinEq k' r' OpEq => bool_decide (k = k') && negb (ast_eq r r')
  | BinEq k _ _, FieldAbsent k' => bool_decide (k = k')
  | FieldPresent k, FieldAbsent k' => bool_decide (k = k')
  | BinEq k (ILiteral v) OpEq, TildeEq k' test => bool_decide (k = k') && extractor_is_exclusive_to test v
  | TildeEq k' test, BinEq k (ILiteral v) OpEq => bool_decide (k = k') && extractor_is_exclusive_to test v
  | TildeEq k test, TildeEq k' test' => bool_decide (k = k') && extractors_exclusive test test'
  | _, _ => false
  end.

Definition record_exclusive (r s : record_pattern) : bool :=
  match r, s with
  | RecordPattern [f], RecordPattern [g] => predicate_exclusive f g || predicate_exclusive g f
  | _, _ => false
  end.

Definition array_exclusive (a b : array_predicate_pattern) : bool :=
  match a, b with
  | ARecord r, ARecord s => record_exclusive r s || record_exclusive s r
  | _, _ => false
  end.

(** Assignments are looked through. *)
Fixpoint strip_assign (p : pattern) : pattern :=
  match p with PatAssign _ p => strip_assign p | p => p end.

(** Literals are compared together with the ids of their nodes, so that two
    of them are never equal. *)
Definition pattern_exclusive (p q : pattern) : bool :=
  match strip_assign p, strip_assign q with
  | PatExpr (ILiteral _), PatExpr (ILiteral _) => true
  | PatRecord r, PatRecord s => record_exclusive r s || record_exclusive s r
  | PatTuple es _, PatTuple fs _ =>
    existsb (λ ef : array_predicate_pattern * array_predicate_pattern,
      array_exclusive ef.1 ef.2 || array_exclusive ef.2 ef.1) (zip es fs)
  | _, _ => false
  end.

Section clauses.
Context {E : Type}.
Local Abbreviation clause := (predicate_clause pattern imut_expr E).
Local Abbreviation group := (clause_group pattern imut_expr path E).

Definition clause_exclusive (c d : clause) : bool :=
  match guard_of c, guard_of d with
  | None, None => pattern_exclusive (pattern_of c) (pattern_of d)
  | _, _ => false
  end.
Definition exclusive (c d : clause) : bool := clause_exclusive c d || clause_exclusive d c.

(** ** Sorting *)

(** [patterns.swap(j, j - 1)] if the cheaper one may move up. *)
Definition sort_step (j : nat) (cs : list clause) : list clause :=
  match cs !! j, cs !! (j - 1) with
  | Some x, Some y =>
    if (clause_cost x <=? clause_cost y)%N && exclusive x y
    then <[j := y]> (<[j - 1 := x]> cs) else cs
  | _, _ => cs
  end.

Definition sort_clauses (cs : list clause) : list clause :=
  foldl (λ cs i, foldl (λ cs j, sort_step j cs) cs (rev (seq 1 i))) cs (rev (seq 0 (length cs))).

(** [sort_by_key], which is stable. *)
Fixpoint insert_by_cost (c : clause) (cs : list clause) : list clause :=
  match cs with
  | [] => [c]
  | d :: ds => if (clause_cost c <=? clause_cost d)%N then c :: cs else d :: insert_by_cost c ds
  end.
Definition sort_by_cost (cs : list clause) : list clause := foldr insert_by_cost [] cs.

(** ** Optimising a group *)
Definition MIN_BTREE_SIZE : nat := 16.
Definition MAX_OPT_RUNS : nat := 128.

(** The key a clause compares the target's field with. *)
Definition record_key (c : clause) : option string :=
  match pattern_of c with
  | PatRecord (RecordPattern [(BinEq k _ OpEq | TildeEq k _)]) => Some k
  | _ => None
  end.

(** [inl None] is a group without clauses, all of which have the same key. *)
Definition common_key (cs : list clause) : option (option string) :=
  match cs with
  | [] => Some None
  | c :: _ =>
    match record_key c with
    | Some k => if forallb (λ d, bool_decide (record_key d = Some k)) cs then Some (Some k) else None
    | None => None
    end
  end.

Definition key_precondition (k : string) : path := LocalPath 0 true [SegId k].

Definition set_pattern (p : pattern) (c : clause) : clause :=
  PredicateClause p (guard_of c) (exprs_of c) (last_expr_of c).

(** Looks at the field instead of the record. *)
Definition rewrite_clause (c : clause) : clause :=
  match pattern_of c with
  | PatRecord (RecordPattern [BinEq _ rhs _]) => set_pattern (PatExpr rhs) c
  | PatRecord (RecordPattern [TildeEq _ test]) => set_pattern (PatExtract test) c
  | _ => c
  end.

Definition unguarded_literal (c : clause) : bool :=
  match pattern_of c, guard_of c with PatExpr (ILiteral _), None => true | _, _ => false end.
Definition literal_of (c : clause) : option value :=
  match pattern_of c with PatExpr (ILiteral v) => Some v | _ => None end.

(** [BTreeMap::insert] *)
Fixpoint tree_insert (k : value) (x : list E * E) (tree : list (value * (list E * E))) :
    list (value * (list E * E)) :=
  match tree with
  | [] => [(k, x)]
  | (k', y) :: tree =>
    match value_cmp k k' with
    | Lt => (k, x) :: (k', y) :: tree
    | Eq => (k', x) :: tree
    | Gt => (k', y) :: tree_insert k x tree
    end
  end.

Definition build_tree (cs : list clause) : list (value * (list E * E)) :=
  foldl (λ tree c, match literal_of c with
                   | Some v => tree_insert v (exprs_of c, last_expr_of c) tree
                   | None => tree
                   end) [] cs.
Definition tree_rest (cs : list clause) : list clause :=
  filter (λ c, literal_of c = None) cs.

(** [n] are the runs that are left. *)
Fixpoint optimize (n : nat) (g : group) : group :=
  match n, g with
  | S n, Simple pre cs =>
    match common_key cs with
    | Some (Some k) => optimize n (Simple (Some (key_precondition k)) (rewrite_clause <$> cs))
    | Some None => optimize n g
    | None =>
      if (MIN_BTREE_SIZE <=? length (List.filter unguarded_literal cs))%nat
      then SearchTree pre (build_tree cs) (tree_rest cs)
      else match cs with [c] => Single pre c | _ => g end
    end
  | _, g => g
  end.
Definition optimize_group (cs : list clause) : group := optimize (S MAX_OPT_RUNS) (Simple None cs).

(** ** Combining groups *)
(** [ast_eq] of two preconditions made by [optimize]. *)
Definition combinable (g h : group) : bool :=
  match precondition_of g, precondition_of h with
  | Some (LocalPath i c [SegId k]), Some (LocalPath j d [SegId k']) =>
    (i =? j)%N && Bool.eqb c d && bool_decide (k = k')
  | _, _ => false
  end.

Definition combine (g h : group) : group :=
  match g, h with
  | Combined p gs, Combined _ hs => Combined p (gs ++ hs)
  | Combined p gs, h => Combined p (gs ++ [set_precondition None h])
  | g, Combined _ hs => Combined (precondition_of g) (set_precondition None g :: hs)
  | g, h => Combined (precondition_of g) [set_precondition None g; set_precondition None h]
  end.

(** Puts a group behind others, or into the last of them. *)
Definition push_group (gs : list group) (g : group) : list group :=
  match last gs with
  | Some l => if combinable l g then removelast gs ++ [combine l g] else gs ++ [g]
  | None => [g]
  end.

(** ** [MatchRaw::up], once the clauses are *)
Fixpoint build_groups (cs cur : list clause) : list group :=
  match cs with
  | [] => [optimize_group (sort_by_cost cur)]
  | p :: cs =>
    if forallb (exclusive p) cur then build_groups cs (cur ++ [p])
    else optimize_group (sort_by_cost cur) :: build_groups cs [p]
  end.

Definition match_groups (cs : list clause) : list group :=
  match cs with
  | [c] => [Simple None [c]]
  | cs => foldl push_group [] (build_groups (sort_clauses cs) [])
  end.

Variable is_null_lit : E → bool.

(** A last clause that is a default without a guard. *)
Definition match_default (cs : list clause) : list clause * default_case E :=
  match last cs with
  | Some (PredicateClause PatDefault None es e) =>
    (removelast cs,
     match es with
     | [] => if is_null_lit e then DefaultNull else DefaultOne e
     | es => DefaultMany es e
     end)
  | _ => (cs, DefaultNone)
  end.

Definition match_up (cs : list clause) : list group * default_case E :=
  let '(cs, d) := match_default cs in (match_groups cs, d).
End clauses.
End analysis.
