(* ===== verification/ScriptMatchSpec.v ===== *)
(** Building a match does not change what it does: the groups [match_up] makes
    of clauses run like the clauses one after the other. *)
From S2P Require Import Prelude Value ValueOrd ScriptOps Bits Ast Interp ScriptMatch.

(** ** Lists whose elements are related in pairs *)
Section pairwise.
Context {A : Type} (P : A → A → Prop) (Hsym : ∀ x y, P x y → P y x).

Fixpoint pairwise (l : list A) : Prop :=
  match l with [] => True | x :: l => Forall (P x) l ∧ pairwise l end.

Lemma pairwise_perm l k : l ≡ₚ k → pairwise l → pairwise k.
Proof.
  induction 1 as [|x l k Hp IH|x y l|l1 l2 l3 H1 IH1 H2 IH2]; simpl; [done| | |by auto].
  - intros [Hx Hl]. split; [by rewrite <-Hp|auto].
  - intros [Hy [Hx Hl]]. apply Forall_cons in Hy as [Hyx Hy]. repeat constructor; auto.
Qed.

Lemma pairwise_app_r l k : pairwise (l ++ k) → pairwise k.
Proof. induction l as [|x l IH]; [done|]. intros [_ Hl]. by apply IH. Qed.

Lemma pairwise_middle l x y k : pairwise (l ++ x :: y :: k) → P x y.
Proof. intros [Hx _]%pairwise_app_r. by apply Forall_cons in Hx as [? _]. Qed.
End pairwise.

Lemma pairwise_impl {A} (P Q : A → A → Prop) l : (∀ x y, P x y → Q x y) → pairwise P l → pairwise Q l.
Proof.
  intros HPQ. induction l as [|x l IH]; simpl; [done|]. intros [Hx Hl].
  split; [eapply Forall_impl; eauto|auto].
Qed.

Lemma pairwise_fmap {A B} (P : A → A → Prop) (Q : B → B → Prop) (f : A → B) l :
  (∀ x y, x ∈ l → y ∈ l → P x y → Q (f x) (f y)) → pairwise P l → pairwise Q (f <$> l).
Proof.
  induction l as [|x l IH]; simpl; [done|]. intros HPQ [Hx Hl]. split.
  - rewrite Forall_fmap. rewrite Forall_forall in *. intros y Hy. apply HPQ; [left|by right|by apply Hx].
  - apply IH; [|done]. intros y z Hy Hz. apply HPQ; by right.
Qed.

Lemma length_filter_mono {A} (f g : A → bool) l :
  (∀ x, x ∈ l → f x = true → g x = true) → (length (List.filter f l) ≤ length (List.filter g l))%nat.
Proof.
  induction l as [|x l IH]; intros Hfg; [done|].
  assert (length (List.filter f l) ≤ length (List.filter g l))%nat by (apply IH; intros y Hy; apply Hfg; by right).
  simpl. destruct (f x) eqn:Hf; [rewrite (Hfg x ltac:(by left) Hf); simpl; lia|]. destruct (g x); simpl; lia.
Qed.
Lemma length_filter_perm {A} (f : A → bool) l k : l ≡ₚ k → length (List.filter f l) = length (List.filter f k).
Proof.
  induction 1 as [|x l k _ IH|x y l|l1 l2 l3 _ IH1 _ IH2]; simpl; [done| | |congruence].
  - destruct (f x); simpl; congruence.
  - by destruct (f x), (f y).
Qed.
Lemma length_filter_fmap {A B} (h : A → B) (f : B → bool) l :
  length (List.filter f (h <$> l)) = length (List.filter (λ x, f (h x)) l).
Proof. induction l as [|x l IH]; [done|]. cbn. destruct (f (h x)); cbn; by rewrite IH. Qed.

Section correct.
Context `{!script_lib, !value_trait, !analysis}.
Context {S R E : Type}.
Local Abbreviation clause := (predicate_clause pattern imut_expr E).
Local Abbreviation group := (clause_group pattern imut_expr path E).
Variable pre : path → value → run_m S (option value).
Variable test : value → pattern → option imut_expr → run_m S bool.
Variable exec : list E → E → run_m S R.

(** What building a match relies on of running it. *)
Hypothesis Hpre : ∀ k t s, pre (key_precondition k) t s = (s, SOk (key_lookup k t)).
Hypothesis Htest_literal : ∀ t v s, test t (PatExpr (ILiteral v)) None s = (s, SOk (val_eq t v)).
Hypothesis Htest_default : ∀ t g s, test t PatDefault g s = (s, SOk true).

(** ** Clauses *)
Definition test_clause (t : value) (c : clause) : run_m S bool := test t (pattern_of c) (guard_of c).

Definition misses (c : clause) (t : value) : Prop := ∀ s, test_clause t c s = (s, SOk false).
Definition hits (c : clause) (t : value) : Prop := ∀ s, ∃ s', test_clause t c s = (s', SOk true).

(** The pattern of a clause without a guard does not fail, its answer depends
    on the target only, and there are no effects where it does not match. *)
Definition decided (c : clause) : Prop := guard_of c = None → ∀ t, misses c t ∨ hits c t.
(** No target matches both. *)
Definition disjoint (c d : clause) : Prop := ∀ t, misses c t ∨ misses d t.
(** The judgement is right. *)
Definition judged (c d : clause) : Prop := exclusive c d = true → disjoint c d.

(** A clause on one field of a record may look at the field instead. *)
Definition rewritable (c : clause) : Prop :=
  ∀ k t s, record_key c = Some k →
    test_clause t c s =
    match key_lookup k t with Some x => test_clause x (rewrite_clause c) s | None => (s, SOk false) end.

(** The order on values, which search trees use, tells this value from others
    the way equality does. *)
Definition tree_safe (v : value) : Prop :=
  value_cmp v v = Eq ∧ ∀ t, val_eq t v = true ↔ value_cmp t v = Eq.

Local Abbreviation run_all t := (first_hit (run_clause test exec t)).

(** The reference: the first clause that matches. *)
Definition run_in_order (t : value) (cs : list clause) : run_m S R :=
  r ← run_all t cs; match r with Some r => mret r | None => fail NoClauseHit end.

(** ** Running clauses *)
Lemma run_clause_test t c s :
  run_clause test exec t c s =
  match test_clause t c s with
  | (s, SOk true) => (Some <$> exec (exprs_of c) (last_expr_of c)) s
  | (s, SOk false) => (s, SOk None)
  | (s, SErr e) => (s, SErr e)
  end.
Proof.
  destruct c as [p g es e]. unfold run_clause, test_clause, mbind, run_bind. cbn [pattern_of guard_of].
  by destruct (test t p g s) as [s' [[]|]].
Qed.

Lemma run_all_miss t c cs s : misses c t → run_all t (c :: cs) s = run_all t cs s.
Proof.
  intros Hm. cbn [first_hit]. unfold mbind, run_bind. by rewrite run_clause_test, (Hm s).
Qed.

Lemma run_all_hit t c cs ds s : hits c t → run_all t (c :: cs) s = run_all t (c :: ds) s.
Proof.
  intros Hh. cbn [first_hit]. unfold mbind, run_bind. rewrite run_clause_test.
  destruct (Hh s) as [s' ->]. unfold fmap, run_fmap. by destruct (exec _ _ s') as [? []].
Qed.

Lemma first_hit_app {X} (f : X → run_m S (option R)) l k s :
  first_hit f (l ++ k) s = (r ← first_hit f l; match r with Some r => mret (Some r) | None => first_hit f k end) s.
Proof.
  revert s. induction l as [|x l IH]; intros s; [done|]. cbn [first_hit app]. unfold mbind, run_bind in *.
  destruct (f x s) as [s' [[r|]|e]]; [done| |done]. apply IH.
Qed.

Lemma first_hit_app_ext {X} (f : X → run_m S (option R)) l k k' :
  (∀ s, first_hit f k s = first_hit f k' s) → ∀ s, first_hit f (l ++ k) s = first_hit f (l ++ k') s.
Proof.
  intros Hk s. rewrite !first_hit_app. unfold mbind, run_bind.
  destruct (first_hit f l s) as [s' [[r|]|e]]; [done|apply Hk|done].
Qed.

Lemma run_all_swap t c d cs s :
  decided c → decided d → guard_of c = None → guard_of d = None → disjoint c d →
  run_all t (c :: d :: cs) s = run_all t (d :: c :: cs) s.
Proof.
  intros Hc Hd Gc Gd Hdis.
  destruct (Hdis t) as [Hm|Hm].
  - rewrite run_all_miss by done. destruct (Hd Gd t) as [Hm'|Hh].
    + by rewrite !run_all_miss.
    + by apply run_all_hit.
  - rewrite (run_all_miss t d) by done. destruct (Hc Gc t) as [Hm'|Hh].
    + by rewrite !run_all_miss.
    + by apply run_all_hit.
Qed.

(** ** Reordering *)
Lemma exclusive_unguarded (c d : clause) : exclusive c d = true → guard_of c = None ∧ guard_of d = None.
Proof.
  unfold exclusive, clause_exclusive. by destruct (guard_of c), (guard_of d).
Qed.

Lemma exclusive_sym (c d : clause) : exclusive c d = true → exclusive d c = true.
Proof. unfold exclusive. by rewrite orb_comm. Qed.

Lemma judged_sym c d : judged c d → judged d c.
Proof. intros Hj He%exclusive_sym t. destruct (Hj He t); auto. Qed.

(** What is known of the clauses of a match, in any order. *)
Definition clauses_ok (cs : list clause) : Prop := Forall decided cs ∧ pairwise judged cs.

Lemma clauses_ok_perm cs ds : cs ≡ₚ ds → clauses_ok cs → clauses_ok ds.
Proof.
  intros Hp [Hd Hj]. split; [by rewrite <-Hp|]. eapply pairwise_perm; [apply judged_sym|done|done].
Qed.

Lemma clauses_ok_app cs ds : clauses_ok (cs ++ ds) → clauses_ok ds.
Proof. intros [[_ Hd]%Forall_app Hj]. split; [done|by eapply pairwise_app_r]. Qed.

(** Orders that are as good as each other. *)
Definition same_order (cs ds : list clause) : Prop :=
  cs ≡ₚ ds ∧ ∀ t s, run_all t cs s = run_all t ds s.

Lemma same_order_trans cs ds es : same_order cs ds → same_order ds es → same_order cs es.
Proof. intros [Hp Hr] [Hp' Hr']. split; [by rewrite Hp|]. intros t s. by rewrite Hr. Qed.

Lemma swap_ok l c d k :
  clauses_ok (l ++ c :: d :: k) → exclusive c d = true → same_order (l ++ c :: d :: k) (l ++ d :: c :: k).
Proof.
  intros Hok He. split; [by apply Permutation_app_head, Permutation_swap|].
  intros t. apply first_hit_app_ext. intros s. destruct (exclusive_unguarded c d He) as [Gc Gd].
  destruct Hok as [Hd Hj]. apply Forall_app in Hd as [_ Hd]. apply Forall_cons in Hd as [Hc [Hd _]%Forall_cons].
  apply run_all_swap; [done..|]. exact (pairwise_middle judged l c d k Hj He).
Qed.

Lemma sort_step_ok j cs : clauses_ok cs → same_order cs (sort_step j cs).
Proof.
  intros Hok. unfold sort_step.
  destruct (cs !! j) as [x|] eqn:Hx; [|done]. destruct (cs !! (j - 1)) as [y|] eqn:Hy; [|done].
  destruct (_ && _) eqn:Hcond; [|done]. apply andb_true_iff in Hcond as [_ He].
  destruct j as [|i].
  { simpl in Hy. rewrite Hx in Hy. injection Hy as ->. simpl. rewrite list_insert_insert_eq, list_insert_id by done. done. }
  replace (Datatypes.S i - 1) with i in * by lia.
  pose proof (lookup_lt_Some _ _ _ Hx) as Hlt.
  assert (∃ l k, cs = l ++ y :: x :: k ∧ length l = i) as (l & k & -> & <-).
  { exists (take i cs), (drop (Datatypes.S (Datatypes.S i)) cs). split; [|rewrite length_take; lia].
    rewrite <-(take_drop_middle cs i y Hy) at 1. do 2 f_equal. by apply drop_S. }
  replace (<[Datatypes.S (length l):=y]> (<[length l:=x]> (l ++ y :: x :: k))) with (l ++ x :: y :: k).
  - apply swap_ok; [done|by apply exclusive_sym].
  - rewrite (insert_app_r_alt l) by lia. rewrite Nat.sub_diag. simpl.
    rewrite insert_app_r_alt by lia. by replace (Datatypes.S (length l) - length l) with 1 by lia.
Qed.

Lemma foldl_same_order {X} (f : X → list clause → list clause) (js : list X) cs :
  (∀ j ds, clauses_ok ds → same_order ds (f j ds)) → clauses_ok cs →
  same_order cs (foldl (λ cs j, f j cs) cs js).
Proof.
  intros Hf. revert cs. induction js as [|j js IH]; intros cs Hok; simpl; [done|].
  pose proof (Hf j cs Hok) as Hstep. eapply same_order_trans; [done|].
  apply IH. by eapply clauses_ok_perm; [apply Hstep|].
Qed.

Lemma sort_clauses_ok cs : clauses_ok cs → same_order cs (sort_clauses cs).
Proof.
  intros Hok. unfold sort_clauses.
  apply (foldl_same_order (λ i cs, foldl (λ cs j, sort_step j cs) cs (rev (seq 1 i)))); [|done].
  intros i ds Hds. apply (foldl_same_order sort_step); [|done]. intros. by apply sort_step_ok.
Qed.

(** *** Groups of clauses that exclude each other *)
Definition exclusives (cs : list clause) : Prop := pairwise (λ c d, exclusive c d = true) cs.

(** Clauses without guards of which no two match the same target. *)
Definition independent (cs : list clause) : Prop :=
  Forall (λ c, guard_of c = None ∧ ∀ t, misses c t ∨ hits c t) cs ∧ pairwise disjoint cs.

Lemma disjoint_sym c d : disjoint c d → disjoint d c.
Proof. intros Hd t. destruct (Hd t); auto. Qed.

Lemma independent_perm cs ds : cs ≡ₚ ds → independent cs → independent ds.
Proof.
  intros Hp [Hd Hj]. split; [by rewrite <-Hp|]. eapply pairwise_perm; [apply disjoint_sym|done|done].
Qed.

Lemma exclusives_independent c d cs :
  clauses_ok (c :: d :: cs) → exclusives (c :: d :: cs) → independent (c :: d :: cs).
Proof.
  intros [Hd Hj] Hex. split.
  - assert (Forall (λ e, guard_of e = None) (c :: d :: cs)) as Hg.
    { destruct Hex as [Hc [_ _]]. apply Forall_cons in Hc as Hc'. destruct Hc' as [Hcd _].
      constructor; [by apply exclusive_unguarded in Hcd as [? _]|].
      eapply Forall_impl; [exact Hc|]. by intros e [_ ?]%exclusive_unguarded. }
    rewrite Forall_forall in Hg, Hd |- *. intros e He. split; [by apply Hg|]. apply Hd; [done|by apply Hg].
  - clear Hd. revert Hj Hex. generalize (c :: d :: cs). clear c d cs.
    induction l as [|x l IH]; simpl; [done|]. intros [Hx Hl] [Ex El]. split; [|auto].
    rewrite Forall_forall in *. intros y Hy. by apply Hx, Ex.
Qed.

Lemma run_all_perm cs ds t s : independent cs → cs ≡ₚ ds → run_all t cs s = run_all t ds s.
Proof.
  intros Hok Hp. revert s. induction Hp as [|x cs ds Hp IH|x y cs|cs ds es Hp1 IH1 Hp2 IH2].
  - done.
  - intros s. apply (first_hit_app_ext _ [x]). apply IH.
    destruct Hok as [[_ ?]%Forall_cons [_ ?]]. done.
  - intros s. destruct Hok as [[[Gy Hy] [[Gx Hx] _]%Forall_cons]%Forall_cons [[Hyx _]%Forall_cons _]].
    by apply run_all_swap; [intros _|intros _|..].
  - intros s. rewrite IH1 by done. apply IH2. by eapply independent_perm.
Qed.

Lemma insert_by_cost_perm (c : clause) cs : insert_by_cost c cs ≡ₚ c :: cs.
Proof.
  induction cs as [|d ds IH]; simpl; [done|]. destruct (_ <=? _)%N; [done|].
  rewrite IH. apply Permutation_swap.
Qed.

Lemma sort_by_cost_perm (cs : list clause) : sort_by_cost cs ≡ₚ cs.
Proof. induction cs as [|c cs IH]; simpl; [done|]. by rewrite insert_by_cost_perm, IH. Qed.

(** ** Optimising a group *)

(** The literals that may end up in a search tree. *)
Definition literals_ok (c : clause) : Prop :=
  ∀ v, literal_of c = Some v ∨ (is_Some (record_key c) ∧ literal_of (rewrite_clause c) = Some v) → tree_safe v.
(** Clauses that count for one, on the target or on a field. *)
Definition treeable (c : clause) : bool := 
  unguarded_literal c || bool_decide (is_Some (record_key c)) && unguarded_literal (rewrite_clause c).
(** There is a search tree only if there are enough of them. *)
Definition trees_ok (cs : list clause) : Prop :=
  (MIN_BTREE_SIZE ≤ length (List.filter treeable cs))%nat → Forall literals_ok cs.

(** [cs] is a single clause, or clauses that exclude each other. *)
Definition group_ok (cs : list clause) : Prop :=
  ((length cs <= 1)%nat ∨ independent cs) ∧
  Forall rewritable cs ∧
  trees_ok cs.

Lemma run_all_rewritten k x t cs :
  key_lookup k t = Some x → Forall rewritable cs → Forall (λ c, record_key c = Some k) cs →
  ∀ s, run_all t cs s = run_all x (rewrite_clause <$> cs) s.
Proof.
  intros Hx Hr Hk. induction cs as [|c cs IH]; intros s; [done|].
  apply Forall_cons in Hr as [Hc Hr]. apply Forall_cons in Hk as [Kc Hk].
  cbn [first_hit fmap list_fmap]. unfold mbind, run_bind.
  assert (run_clause test exec t c s = run_clause test exec x (rewrite_clause c) s) as ->.
  { rewrite !run_clause_test, (Hc k t s Kc), Hx. destruct c as [p g es e].
    unfold rewrite_clause, set_pattern. cbn [pattern_of exprs_of last_expr_of guard_of].
    by destruct p as [[[|[] [|]]]| | | | | | |]. }
  destruct (run_clause test exec x (rewrite_clause c) s) as [s' [[]|]]; [done| |done]. by apply IH.
Qed.

Lemma run_all_no_key k t cs :
  key_lookup k t = None → Forall rewritable cs → Forall (λ c, record_key c = Some k) cs →
  ∀ s, run_all t cs s = (s, SOk None).
Proof.
  intros Hx Hr Hk. induction cs as [|c cs IH]; intros s; [done|].
  apply Forall_cons in Hr as [Hc Hr]. apply Forall_cons in Hk as [Kc Hk].
  rewrite run_all_miss; [by apply IH|]. intros s'. by rewrite (Hc k t s' Kc), Hx.
Qed.

Lemma misses_rewritten k c x :
  rewritable c → record_key c = Some k →
  ∀ s, test_clause x (rewrite_clause c) s = test_clause (VObject {[k := x]}) c s.
Proof. intros Hr Hk s. rewrite (Hr k _ s Hk). unfold key_lookup. simpl. by rewrite lookup_singleton_eq. Qed.

Lemma independent_rewritten k cs :
  independent cs → Forall rewritable cs → Forall (λ c, record_key c = Some k) cs →
  independent (rewrite_clause <$> cs).
Proof.
  intros [Hd Hp] Hr Hk. rewrite Forall_forall in *. split.
  - rewrite Forall_fmap, Forall_forall. intros c Hc. destruct (Hd c Hc) as [Hg Hdec]. split.
    { unfold rewrite_clause. by repeat case_match. }
    intros x. pose proof (misses_rewritten k c x (Hr c Hc) (Hk c Hc)) as Heq.
    destruct (Hdec (VObject {[k := x]})) as [Hm|Hh]; [left|right]; intros s; rewrite Heq; auto.
  - apply (pairwise_fmap disjoint); [|done]. intros c d Hc Hd' Hcd x.
    pose proof (misses_rewritten k c x (Hr c Hc) (Hk c Hc)) as Heq.
    pose proof (misses_rewritten k d x (Hr d Hd') (Hk d Hd')) as Heq'.
    destruct (Hcd (VObject {[k := x]})); [left|right]; intros s; rewrite ?Heq, ?Heq'; auto.
Qed.
(** *** Search trees *)
Local Abbreviation hits_key t v := (value_cmp t v = Eq).

Definition hit_literal (t : value) (c : clause) : bool :=
  match literal_of c with
  | Some v => match value_cmp t v with Eq => true | _ => false end
  | None => false
  end.

Lemma literal_pattern (c : clause) v : literal_of c = Some v → pattern_of c = PatExpr (ILiteral v).
Proof. unfold literal_of. by repeat case_match; intros; simplify_eq. Qed.

Lemma literal_test c v t :
  literal_of c = Some v → guard_of c = None → tree_safe v →
  if hit_literal t c then hits c t else misses c t.
Proof.
  intros Hl Hg [_ Hsafe]. unfold hit_literal, hits, misses, test_clause. rewrite Hl, Hg.
  rewrite (literal_pattern c v Hl). specialize (Hsafe t).
  destruct (val_eq t v) eqn:Hv.
  - rewrite (proj1 Hsafe eq_refl). intros s. exists s. by rewrite Htest_literal, Hv.
  - destruct (value_cmp t v) eqn:Hc; [by specialize (proj2 Hsafe eq_refl)|..]; intros s; by rewrite Htest_literal, Hv.
Qed.

Definition literals_safe (cs : list clause) : Prop :=
  Forall (λ c, ∀ v, literal_of c = Some v → tree_safe v) cs.

(** A literal that is hit is the only clause that matches. *)
Lemma run_all_literal t cs s :
  independent cs → literals_safe cs →
  run_all t cs s =
  match List.find (hit_literal t) cs with
  | Some c => (Some <$> exec (exprs_of c) (last_expr_of c)) s
  | None => run_all t (tree_rest cs) s
  end.
Proof.
  revert s. induction cs as [|c cs IH]; intros s [Hd Hp] Hsafe; [done|].
  apply Forall_cons in Hd as [[Hg Hdec] Hd]. destruct Hp as [Hpc Hp].
  apply Forall_cons in Hsafe as [Hs Hsafe]. specialize (λ s, IH s (conj Hd Hp) Hsafe).
  cbn [List.find]. destruct (literal_of c) as [v|] eqn:Hl.
  - pose proof (literal_test c v t Hl Hg (Hs v eq_refl)) as Ht. destruct (hit_literal t c).
    + cbn [first_hit]. unfold mbind, run_bind. rewrite run_clause_test. destruct (Ht s) as [s' Hs'].
      (* the test of a literal has no effects *)
      pose proof Hs' as Hs''. unfold test_clause in Hs''. rewrite Hg, (literal_pattern c v Hl), Htest_literal in Hs''.
      injection Hs'' as <- _. rewrite Hs'. unfold fmap, run_fmap. by destruct (exec _ _ s) as [? []].
    + rewrite run_all_miss, IH by done. unfold tree_rest at 2. rewrite filter_cons_False by (by rewrite Hl). done.
  - unfold hit_literal at 1. rewrite Hl. destruct (List.find (hit_literal t) cs) as [d|] eqn:Hf.
    + apply List.find_some in Hf as [Hin Hhit]. apply list_elem_of_In in Hin.
      rewrite run_all_miss; [by rewrite IH|].
      rewrite Forall_forall in Hpc, Hd, Hsafe. destruct (Hpc d Hin t) as [Hm|Hm]; [done|].
      unfold hit_literal in Hhit. destruct (literal_of d) as [v|] eqn:Hld; [|done].
      pose proof (literal_test d v t Hld (proj1 (Hd d Hin)) (Hsafe d Hin v Hld)) as Ht.
      unfold hit_literal in Ht. rewrite Hld, Hhit in Ht. destruct (Ht s) as [s' Hs']. by rewrite (Hm s) in Hs'.
    + unfold tree_rest. rewrite filter_cons_True by done. apply (first_hit_app_ext _ [c]).
      intros s'. by rewrite IH.
Qed.

(** No value is equal to two keys of the tree. *)
Definition keys_apart (k : value) (tree : list (value * (list E * E))) : Prop :=
  Forall (λ kx : value * (list E * E), ∀ t, ¬ (hits_key t k ∧ hits_key t kx.1)) tree.

Lemma run_tree_insert t k (x : list E * E) tree :
  value_cmp k k = Eq → keys_apart k tree →
  run_tree exec t (tree_insert k x tree) =
  match value_cmp t k with Eq => Some (exec x.1 x.2) | _ => run_tree exec t tree end.
Proof.
  intros Hk. destruct x as [es e]. induction tree as [|[k' [es' e']] tree IH]; intros Ha; [done|].
  apply Forall_cons in Ha as [Hkk Ha]. specialize (IH Ha). cbn [tree_insert].
  destruct (value_cmp k k') eqn:Hc.
  - by destruct (Hkk k).
  - done.
  - cbn [run_tree]. rewrite IH. destruct (value_cmp t k') eqn:Ht; [|done..].
    destruct (value_cmp t k) eqn:Htk; [|done..]. by destruct (Hkk t).
Qed.

Lemma tree_insert_keys k (x : list E * E) tree kx : kx ∈ tree_insert k x tree → kx.1 = k ∨ ∃ y, (kx.1, y) ∈ tree.
Proof.
  induction tree as [|[k' y] tree IH]; cbn [tree_insert].
  - intros ->%list_elem_of_singleton. by left.
  - destruct (value_cmp k k').
    + intros [->|Hin]%elem_of_cons; right; [by exists y; left|]. exists kx.2. right. by destruct kx.
    + intros [->|Hin]%elem_of_cons; [by left|]. right. exists kx.2. by destruct kx.
    + intros [->|Hin]%elem_of_cons; [by right; exists y; left|].
      destruct (IH Hin) as [?|[z ?]]; [by left|]. right. exists z. by right.
Qed.

Definition add_to_tree (tree : list (value * (list E * E))) (c : clause) : list (value * (list E * E)) :=
  match literal_of c with
  | Some v => tree_insert v (exprs_of c, last_expr_of c) tree
  | None => tree
  end.

(** No value is equal to the literals of two clauses that are disjoint. *)
Lemma literals_apart (s : S) c d v w t :
  disjoint c d → guard_of c = None → guard_of d = None → literal_of c = Some v → literal_of d = Some w →
  tree_safe v → tree_safe w → ¬ (hits_key t v ∧ hits_key t w).
Proof.
  intros Hdis Gc Gd Hc Hd Hv Hw [Htv Htw].
  pose proof (literal_test c v t Hc Gc Hv) as Hhc. pose proof (literal_test d w t Hd Gd Hw) as Hhd.
  unfold hit_literal in Hhc, Hhd. rewrite Hc, Htv in Hhc. rewrite Hd, Htw in Hhd.
  destruct (Hhc s) as [s1 E1], (Hhd s) as [s2 E2].
  destruct (Hdis t) as [Hm|Hm]; [by rewrite (Hm s) in E1|by rewrite (Hm s) in E2].
Qed.

Lemma run_tree_build (s : S) t cs tree :
  literals_safe cs → pairwise disjoint cs → Forall (λ c, guard_of c = None) cs →
  (∀ c v, c ∈ cs → literal_of c = Some v → keys_apart v tree) →
  run_tree exec t (foldl add_to_tree tree cs) =
  match List.find (hit_literal t) cs with
  | Some c => Some (exec (exprs_of c) (last_expr_of c))
  | None => run_tree exec t tree
  end.
Proof.
  revert tree. induction cs as [|c cs IH]; intros tree Hsafe Hp Hg Ha; [done|].
  apply Forall_cons in Hsafe as [Hs Hsafe]. destruct Hp as [Hpc Hp]. apply Forall_cons in Hg as [Gc Hg].
  cbn [foldl List.find]. unfold add_to_tree at 2, hit_literal at 1.
  destruct (literal_of c) as [v|] eqn:Hl.
  2: { apply IH; [done..|]. intros d w Hd Hw. apply (Ha d); [by right|done]. }
  pose proof (Ha c v ltac:(by left) Hl) as Hav. destruct (Hs v eq_refl) as [Hrefl Heq].
  rewrite IH; [|done..|].
  - rewrite run_tree_insert by done. cbn [fst snd].
    destruct (value_cmp t v) eqn:Htv; [|done..].
    destruct (List.find (hit_literal t) cs) as [d|] eqn:Hf; [|done].
    apply List.find_some in Hf as [Hin Hhit]. apply list_elem_of_In in Hin.
    unfold hit_literal in Hhit. destruct (literal_of d) as [w|] eqn:Hw; [|done].
    rewrite Forall_forall in Hpc, Hg, Hsafe. exfalso.
    apply (literals_apart s c d v w t); auto; [by apply (Hsafe d)|]. by destruct (value_cmp t w).
  - intros d w Hd Hw. unfold keys_apart. rewrite Forall_forall. intros kx Hkx u [Hu Hu'].
    destruct (tree_insert_keys _ _ _ _ Hkx) as [Hk|[y Hy]].
    + rewrite Hk in Hu'. rewrite Forall_forall in Hpc, Hg, Hsafe.
      apply (literals_apart s c d v w u); auto. by apply (Hsafe d).
    + pose proof (Ha d w ltac:(by right) Hw) as Had. unfold keys_apart in Had. rewrite Forall_forall in Had.
      by apply (Had _ Hy u).
Qed.

Lemma run_search_tree t cs s p :
  independent cs → literals_safe cs →
  run_group test exec false t (SearchTree p (build_tree cs) (tree_rest cs) : group) s = run_all t cs s.
Proof.
  intros Hind Hsafe. rewrite run_all_literal by done. cbn [run_group].
  change (build_tree cs) with (foldl add_to_tree [] cs).
  rewrite (run_tree_build s); [|done|by destruct Hind| |].
  - by destruct (List.find (hit_literal t) cs).
  - destruct Hind as [Hd _]. eapply Forall_impl; [exact Hd|]. by intros c [? _].
  - intros. apply Forall_nil_2.
Qed.

(** *** [optimize] *)

(** Groups that are not combined; they run like their clauses, on the value
    their precondition selects. *)
Definition flat (g : group) : Prop := match g with Combined _ _ => False | _ => True end.

Definition runs_like (g : group) (cs : list clause) : Prop :=
  flat g ∧ ∀ t s, run_group test exec false t g s = run_all t cs s.

Lemma optimize_nil n p : optimize n (Simple p [] : group) = Simple p [].
Proof. by induction n. Qed.

Lemma optimize_keyed n p cs k :
  common_key cs = Some (Some k) →
  optimize (Datatypes.S n) (Simple p cs : group) =
  optimize n (Simple (Some (key_precondition k)) (rewrite_clause <$> cs)).
Proof. intros Hk. cbn [optimize]. by rewrite Hk. Qed.

Lemma optimize_plain n p cs :
  common_key cs = None → ((MIN_BTREE_SIZE ≤ length (List.filter unguarded_literal cs))%nat → literals_safe cs) →
  ((length cs <= 1)%nat ∨ independent cs) →
  ∃ g : group, optimize (Datatypes.S n) (Simple p cs) = g ∧ precondition_of g = p ∧ runs_like g cs.
Proof.
  intros Hk Hsafe Hind. cbn [optimize]. rewrite Hk. destruct (Nat.leb_spec MIN_BTREE_SIZE (length (List.filter unguarded_literal cs))) as [Hlen|Hlen].
  - eexists; split_and!; [done|done|split; [done|]]. intros t s. apply run_search_tree; [|by apply Hsafe].
    destruct Hind as [Hle|]; [|done]. pose proof (filter_length_le unguarded_literal cs). unfold MIN_BTREE_SIZE in Hlen. lia.
  - destruct cs as [|c [|d cs]]; eexists; (split_and!; [done|done|split; [done|]]); try done.
    intros t s. cbn [run_group first_hit].
    unfold mbind, run_bind. by destruct (run_clause test exec t c s) as [s' [[]|]].
Qed.

(** The precondition of an optimised group selects a field. *)
Definition precondition_ok (g : group) : Prop :=
  precondition_of g = None ∨ ∃ k, precondition_of g = Some (key_precondition k).

Lemma common_key_spec (cs : list clause) k :
  common_key cs = Some (Some k) → cs ≠ [] ∧ Forall (λ c, record_key c = Some k) cs.
Proof.
  destruct cs as [|c cs]; [done|]. cbn [common_key]. destruct (record_key c) as [k'|] eqn:Hc; [|done].
  destruct (forallb _ _) eqn:Hf; [|done]. intros [= ->]. split; [done|].
  rewrite Forall_forall. intros d Hd. rewrite forallb_forall in Hf.
  specialize (Hf d). rewrite bool_decide_eq_true in Hf. apply Hf. by apply list_elem_of_In.
Qed.

Lemma record_key_rewritten (c : clause) k : record_key c = Some k → record_key (rewrite_clause c) = None.
Proof.
  unfold record_key, rewrite_clause. destruct (pattern_of c) as [[[|f [|]]]| | | | | | |]; try done.
  all: destruct f; simpl; try done; intros; repeat case_match; done.
Qed.

Lemma literals_safe_of cs :
  group_ok cs →
  ((MIN_BTREE_SIZE ≤ length (List.filter unguarded_literal cs))%nat → literals_safe cs) ∧
  (∀ k, Forall (λ c, record_key c = Some k) cs →
    (MIN_BTREE_SIZE ≤ length (List.filter unguarded_literal (rewrite_clause <$> cs)))%nat →
    literals_safe (rewrite_clause <$> cs)).
Proof.
  intros (_ & _ & Hs). unfold literals_safe. split.
  - intros Hlen. assert (Forall literals_ok cs) as Hl.
    { apply Hs. etrans; [exact Hlen|]. apply length_filter_mono. intros c _ Hc. unfold treeable. by rewrite Hc. }
    rewrite Forall_forall in Hl. rewrite Forall_forall. intros c Hc v Hv. apply (Hl c Hc). by left.
  - intros k Hk Hlen. assert (Forall literals_ok cs) as Hl.
    { apply Hs. etrans; [exact Hlen|]. rewrite length_filter_fmap. apply length_filter_mono. intros c Hin Hc.
      rewrite Forall_forall in Hk. unfold treeable. rewrite Hc, (Hk c Hin), andb_true_r. apply orb_true_r. }
    clear Hs. rename Hl into Hs. rewrite Forall_forall in Hs.
    rewrite Forall_fmap, Forall_forall. rewrite Forall_forall in Hk.
    intros c Hc v Hv. apply (Hs c Hc). right. split; [|done]. exists k. by apply Hk.
Qed.

Lemma optimize_group_ok cs :
  group_ok cs →
  flat (optimize_group cs) ∧ precondition_ok (optimize_group cs) ∧
  ∀ t s, run_top_group pre test exec t (optimize_group cs) s = run_all t cs s.
Proof.
  intros Hok. pose proof (literals_safe_of cs Hok) as [Hs Hs']. destruct Hok as (Hind & Hr & _).
  unfold optimize_group. destruct (common_key cs) as [[k|]|] eqn:Hk.
  - apply common_key_spec in Hk as Hk'. destruct Hk' as [Hne Hkeys].
    rewrite (optimize_keyed _ _ _ _ Hk). change MAX_OPT_RUNS with (Datatypes.S 127).
    destruct (optimize_plain 127 (Some (key_precondition k)) (rewrite_clause <$> cs)) as (g & Hg & Hp & Hf & Hrun).
    + destruct cs as [|c cs]; [done|]. cbn [fmap list_fmap common_key].
      apply Forall_cons in Hkeys as [Hc _]. by rewrite (record_key_rewritten c k Hc).
    + by apply (Hs' k).
    + rewrite length_fmap. destruct Hind; [by left|right]. by eapply independent_rewritten.
    + rewrite Hg. split_and!; [done|right; by exists k|]. intros t s. unfold run_top_group. rewrite Hp.
      unfold mbind, run_bind. rewrite Hpre. destruct (key_lookup k t) as [x|] eqn:Hx.
      * rewrite Hrun. symmetry. by eapply run_all_rewritten.
      * symmetry. by eapply run_all_no_key.
  - destruct cs as [|c cs]; [|by cbn [common_key] in Hk; repeat case_match].
    rewrite optimize_nil. split_and!; [done|by left|done].
  - destruct (optimize_plain MAX_OPT_RUNS None cs Hk Hs Hind) as (g & Hg & Hp & Hf & Hrun). rewrite Hg.
    split_and!; [done|by left|]. intros t s. unfold run_top_group. by rewrite Hp.
Qed.

(** ** Combining groups *)
Local Abbreviation top t := (first_hit (run_top_group pre test exec t)).

Definition shaped (g : group) : Prop :=
  precondition_ok g ∧ match g with Combined _ gs => Forall flat gs | _ => True end.

Lemma flat_shaped g : flat g → precondition_ok g → shaped g.
Proof. intros Hf Hp. split; [done|]. by destruct g. Qed.

Lemma run_group_flat t (g : group) s : flat g → run_group test exec true t g s = run_group test exec false t g s.
Proof. by destruct g. Qed.

Lemma set_precondition_flat p (g : group) : flat g → flat (set_precondition p g).
Proof. by destruct g. Qed.

Lemma run_set_precondition b p t (g : group) s :
  run_group test exec b t (set_precondition p g) s = run_group test exec b t g s.
Proof. by destruct g. Qed.

Lemma run_nested_flat t (gs : list group) s :
  Forall flat gs → first_hit (run_group test exec true t) gs s = first_hit (run_group test exec false t) gs s.
Proof.
  intros Hf. revert s. induction Hf as [|g gs Hg Hgs IH]; intros s; [done|]. cbn [first_hit].
  unfold mbind, run_bind. rewrite run_group_flat by done.
  destruct (run_group test exec false t g s) as [s' [[]|]]; [done|apply IH|done].
Qed.

Lemma run_combine t (l g : group) s :
  shaped l → flat g →
  run_group test exec false t (combine l g) s =
  (r ← run_group test exec false t l; match r with Some r => mret (Some r) | None => run_group test exec false t g end) s.
Proof.
  intros [_ Hl] Hg.
  assert (∀ p, run_group test exec false t (Combined p [set_precondition None l; set_precondition None g]) s =
    (r ← run_group test exec true t (set_precondition None l);
     match r with Some r => mret (Some r) | None => run_group test exec true t (set_precondition None g) end) s) as Htwo.
  { intros p. cbn [run_group first_hit]. unfold mbind, run_bind.
    destruct (run_group test exec true t (set_precondition None l) s) as [s' [[]|]]; [done| |done].
    destruct (run_group test exec true t (set_precondition None g) s') as [s'' [[]|]]; done. }
  assert (flat l → run_group test exec false t (Combined (precondition_of l) [set_precondition None l; set_precondition None g]) s =
    (r ← run_group test exec false t l; match r with Some r => mret (Some r) | None => run_group test exec false t g end) s) as Hflat.
  { intros Hfl. rewrite Htwo. unfold mbind, run_bind. rewrite run_set_precondition, run_group_flat by done.
    destruct (run_group test exec false t l s) as [s' [[]|]]; [done| |done].
    by rewrite run_set_precondition, run_group_flat. }
  destruct l as [p cs|p tree rest|p gs|p c].
  1, 2, 4: by destruct g; (apply Hflat || done).
  assert (run_group test exec false t (Combined p (gs ++ [set_precondition None g])) s =
    (r ← run_group test exec false t (Combined p gs);
     match r with Some r => mret (Some r) | None => run_group test exec false t g end) s) as Hcomb.
  { cbn [run_group]. rewrite first_hit_app. unfold mbind, run_bind.
    destruct (first_hit (run_group test exec true t) gs s) as [s' [[]|]]; [done| |done].
    cbn [first_hit]. unfold mbind, run_bind. rewrite run_set_precondition, run_group_flat by done.
    by destruct (run_group test exec false t g s') as [s'' [[]|]]. }
  destruct g; try apply Hcomb. done.
Qed.

Lemma combinable_precondition (g h : group) :
  combinable g h = true → ∃ p, precondition_of g = Some p ∧ precondition_of h = Some p.
Proof.
  unfold combinable. intros Hc. repeat case_match; simplify_eq.
  apply andb_true_iff in Hc as [[Hi Hb]%andb_true_iff Hk].
  apply N.eqb_eq in Hi as ->. apply Bool.eqb_prop in Hb as ->. apply bool_decide_eq_true in Hk as ->. eauto.
Qed.

Lemma combine_precondition (l g : group) : precondition_of (combine l g) = precondition_of l.
Proof. by destruct l, g. Qed.

Lemma combine_shaped (l g : group) : shaped l → flat g → shaped (combine l g).
Proof.
  intros [Hp Hl] Hg. split; [red; by rewrite combine_precondition|].
  destruct l, g; try done; cbn [combine]; rewrite ?Forall_app; repeat constructor; done.
Qed.

Lemma run_top_combine t l g s :
  shaped l → flat g → combinable l g = true → run_top_group pre test exec t (combine l g) s = top t [l; g] s.
Proof.
  intros Hl Hg Hc. destruct (combinable_precondition l g Hc) as (p & Hpl & Hpg).
  destruct Hl as [[Hpo|[k Hpo]] Hsh]; rewrite Hpl in Hpo; simplify_eq.
  cbn [first_hit]. unfold run_top_group. rewrite combine_precondition, Hpl, Hpg.
  unfold mbind, run_bind. rewrite Hpre. destruct (key_lookup k t) as [x|] eqn:Hx.
  - rewrite run_combine; [|split; [right; by exists k|done]|done]. unfold mbind, run_bind.
    destruct (run_group test exec false x l s) as [s' [[]|]]; [done| |done].
    rewrite Hpre, Hx. by destruct (run_group test exec false x g s') as [s'' [[]|]].
  - cbn. by rewrite Hpre, Hx.
Qed.

Lemma push_group_ok t (gs : list group) (g : group) :
  Forall shaped gs → shaped g → flat g →
  Forall shaped (push_group gs g) ∧ ∀ s, top t (push_group gs g) s = top t (gs ++ [g]) s.
Proof.
  intros Hgs Hg Hf. unfold push_group. destruct (last gs) as [l|] eqn:Hl.
  2: { apply last_None in Hl as ->. split; [by apply Forall_singleton|done]. }
  apply last_Some in Hl as [gs' ->]. apply Forall_app in Hgs as [Hgs' Hsl%(proj1 (Forall_singleton _ _))].
  destruct (combinable l g) eqn:Hc.
  - rewrite removelast_last. split.
    + apply Forall_app. split; [done|]. apply Forall_singleton. by apply combine_shaped.
    + intros s. rewrite <-(app_assoc gs'). cbn [app]. apply first_hit_app_ext. clear s. intros s.
      rewrite <-run_top_combine by done. cbn [first_hit]. unfold mbind, run_bind.
      by destruct (run_top_group pre test exec t (combine l g) s) as [s' [[]|]].
  - split; [|done]. rewrite !Forall_app, !Forall_singleton. done.
Qed.

Lemma push_groups_ok t (hs gs : list group) :
  Forall shaped gs → Forall (λ g, shaped g ∧ flat g) hs →
  ∀ s, top t (foldl push_group gs hs) s = top t (gs ++ hs) s.
Proof.
  revert gs. induction hs as [|h hs IH]; intros gs Hgs Hhs s; [by rewrite app_nil_r|].
  apply Forall_cons in Hhs as [[Hsh Hf] Hhs]. cbn [foldl].
  destruct (push_group_ok t gs h Hgs Hsh Hf) as [Hs Hrun]. rewrite IH by done.
  change (gs ++ h :: hs) with (gs ++ [h] ++ hs). rewrite (app_assoc gs), !(first_hit_app _ _ hs).
  unfold mbind, run_bind. by rewrite Hrun.
Qed.

(** ** Grouping *)

(** What building a match needs to know of its clauses. *)
Record buildable (cs : list clause) : Prop := {
  build_ok : clauses_ok cs;
  build_rewritable : Forall rewritable cs;
  build_safe : trees_ok cs;
}.

Lemma trees_ok_perm cs ds : cs ≡ₚ ds → trees_ok cs → trees_ok ds.
Proof. intros Hp. unfold trees_ok. by rewrite (length_filter_perm _ cs ds Hp), Hp. Qed.

Lemma buildable_perm cs ds : cs ≡ₚ ds → buildable cs → buildable ds.
Proof.
  intros Hp [Hok Hr Hs]. split; [by eapply clauses_ok_perm|by rewrite <-Hp|by eapply trees_ok_perm].
Qed.

Lemma buildable_app cs ds : buildable (cs ++ ds) → buildable cs ∧ buildable ds.
Proof.
  assert (∀ cs ds, buildable (cs ++ ds) → buildable ds) as Hright.
  { intros cs' ds' [Hok Hr Hs]. apply Forall_app in Hr as [_ Hr].
    split; [by eapply clauses_ok_app|done|]. intros Hlen.
    assert (Forall literals_ok (cs' ++ ds')) as Hl; [|by apply Forall_app in Hl as [_ ?]].
    apply Hs. rewrite List.filter_app, length_app. lia. }
  intros Hb. split; [|by eapply Hright]. apply (Hright ds). eapply buildable_perm; [|done]. apply Permutation_app_comm.
Qed.

Lemma group_of_exclusives cs : buildable cs → exclusives cs → group_ok (sort_by_cost cs).
Proof.
  intros [Hok Hr Hs] Hex. split_and!.
  - destruct cs as [|c [|d cs]]; [left; simpl; lia..|]. right.
    eapply independent_perm; [symmetry; apply sort_by_cost_perm|]. by apply exclusives_independent.
  - by rewrite sort_by_cost_perm.
  - eapply trees_ok_perm; [symmetry; apply sort_by_cost_perm|done].
Qed.

Lemma run_all_sorted t cs s :
  buildable cs → exclusives cs → run_all t (sort_by_cost cs) s = run_all t cs s.
Proof.
  intros [Hok _ _] Hex. destruct cs as [|c [|d cs]]; [done..|]. symmetry. apply run_all_perm.
  - by apply exclusives_independent.
  - symmetry. apply sort_by_cost_perm.
Qed.

Lemma group_runs t cs s :
  buildable cs → exclusives cs → run_top_group pre test exec t (optimize_group (sort_by_cost cs)) s = run_all t cs s.
Proof.
  intros Hb Hex. destruct (optimize_group_ok _ (group_of_exclusives cs Hb Hex)) as (_ & _ & ->).
  by apply run_all_sorted.
Qed.

Lemma group_shaped cs :
  buildable cs → exclusives cs → shaped (optimize_group (sort_by_cost cs)) ∧ flat (optimize_group (sort_by_cost cs)).
Proof.
  intros Hb Hex. destruct (optimize_group_ok _ (group_of_exclusives cs Hb Hex)) as (Hf & Hp & _).
  split; [by apply flat_shaped|done].
Qed.

Lemma exclusives_snoc cs p : exclusives cs → forallb (exclusive p) cs = true → exclusives (cs ++ [p]).
Proof.
  intros Hcs Hp. eapply (pairwise_perm _ exclusive_sym); [apply Permutation_cons_append|].
  split; [|done]. rewrite Forall_forall. intros c Hc. rewrite forallb_forall in Hp. apply Hp. by apply list_elem_of_In.
Qed.

Lemma build_groups_ok t cs cur :
  buildable (cur ++ cs) → exclusives cur →
  Forall (λ g, shaped g ∧ flat g) (build_groups cs cur) ∧
  ∀ s, top t (build_groups cs cur) s = run_all t (cur ++ cs) s.
Proof.
  revert cur. induction cs as [|p cs IH]; intros cur Hb Hex; cbn [build_groups].
  - rewrite app_nil_r in *. split; [by apply Forall_singleton, group_shaped|].
    intros s. rewrite <-(group_runs t cur s) by done. cbn [first_hit]. unfold mbind, run_bind.
    by destruct (run_top_group pre test exec t (optimize_group (sort_by_cost cur)) s) as [s' [[]|]].
  - destruct (forallb (exclusive p) cur) eqn:Hp.
    + change (cur ++ p :: cs) with (cur ++ [p] ++ cs) in *. rewrite app_assoc in *.
      apply IH; [done|]. by apply exclusives_snoc.
    + apply buildable_app in Hb as Hb'. destruct Hb' as [Hcur Hcs].
      destruct (IH [p] Hcs) as [Hsh Hrun]; [done|]. split.
      * constructor; [by apply group_shaped|done].
      * intros s. rewrite first_hit_app. cbn [first_hit]. unfold mbind, run_bind.
        rewrite group_runs by done. destruct (run_all t cur s) as [s' [[]|]]; [done|apply Hrun|done].
Qed.

Lemma match_groups_ok t cs s :
  buildable cs → top t (match_groups cs) s = run_all t cs s.
Proof.
  intros Hb.
  assert (top t (foldl push_group [] (build_groups (sort_clauses cs) [])) s = run_all t cs s) as Hmany.
  { pose proof (sort_clauses_ok cs (build_ok cs Hb)) as [Hperm Hrun].
    destruct (build_groups_ok t (sort_clauses cs) []) as [Hsh Hg]; [by eapply buildable_perm|done|].
    by rewrite push_groups_ok, Hg, Hrun. }
  destruct cs as [|c [|d cs]]; [exact Hmany| |exact Hmany].
  cbn [match_groups first_hit run_top_group precondition_of run_group]. unfold mbind, run_bind.
  by destruct (run_clause test exec t c s) as [s' [[]|]].
Qed.

(** ** The whole match *)
Variable is_null_lit : E → bool.
Variable null : R.
Hypothesis Hnull : ∀ e s, is_null_lit e = true → exec [] e s = (s, SOk null).

Definition split_default (cs : list clause) : Prop :=
  ∃ es e, cs = (match_default is_null_lit cs).1 ++ [PredicateClause PatDefault None es e] ∧
    ∀ s, run_default exec null (match_default is_null_lit cs).2 s = exec es e s.

Lemma match_default_split cs :
  match_default is_null_lit cs = (cs, DefaultNone) ∨ split_default cs.
Proof.
  unfold split_default, match_default. destruct (last cs) as [[p g es e]|] eqn:Hl; [|by left].
  destruct p; try by left. destruct g; [by left|]. right. exists es, e.
  apply last_Some in Hl as [cs' ->]. cbn [fst snd]. rewrite removelast_last. split; [done|].
  intros s. destruct es as [|e' es]; [|done]. destruct (is_null_lit e) eqn:He; [|done].
  symmetry. by apply Hnull.
Qed.

Lemma match_up_in_order t cs s :
  buildable cs →
  run_match pre test exec null t (match_up is_null_lit cs).1 (match_up is_null_lit cs).2 s = run_in_order t cs s.
Proof.
  intros Hb. unfold match_up.
  destruct (match_default_split cs) as [Heq|(es & e & Hcs & Hrun)].
  - rewrite Heq. cbn [fst snd]. unfold run_match, run_in_order, mbind, run_bind. by rewrite match_groups_ok.
  - destruct (match_default is_null_lit cs) as [cs' d] eqn:Hd. cbn [fst snd] in *. subst cs.
    apply buildable_app in Hb as [Hb _]. unfold run_match, run_in_order, mbind, run_bind.
    rewrite match_groups_ok, first_hit_app by done. unfold mbind, run_bind.
    destruct (run_all t cs' s) as [s' [[]|]]; [done| |done]. rewrite Hrun.
    cbn [first_hit run_clause]. unfold mbind, run_bind. rewrite Htest_default. unfold fmap, run_fmap.
    by destruct (exec es e s') as [s'' []].
Qed.
End correct.
