(* ===== verification/ScriptMatchRun.v ===== *)
(** Matches on fields and literals, built and run: the interpreter does what
    building a match relies on. *)
From S2P Require Import Prelude Value Text Extractors ValueOrd ScriptOps Bits Ast Interp ScriptMatch ScriptMatchSpec.

(** ** Patterns that look at the target only *)
Section answers.
Context `{!script_lib, !value_trait}.

(** What is judged exclusive about extractors is. *)
Class sound_analysis `{!analysis} : Prop := {
  is_exclusive_sound x v t ctx :
    extractor_is_exclusive_to x v = true → (∀ b, v ≠ VBytes b) → val_eq t v = true →
    is_match (extract x false t ctx) = false;
  extractors_exclusive_sound x y t ctx :
    extractors_exclusive x y = true →
    is_match (extract x false t ctx) = false ∨ is_match (extract y false t ctx) = false;
}.

Variable ctx : event_context.

Definition answers (p : pattern) (t : value) : option bool :=
  match p with
  | PatExtract x => Some (is_match (extract x false t ctx))
  | PatRecord (RecordPattern [TildeEq k x]) =>
    Some (match key_lookup k t with Some y => is_match (extract x false y ctx) | None => false end)
  | PatExpr (ILiteral v) => Some (val_eq t v)
  | PatDoNotCare => Some true
  | PatRecord (RecordPattern [FieldPresent k]) => Some (bool_decide (is_Some (key_lookup k t)))
  | PatRecord (RecordPattern [FieldAbsent k]) => Some (is_object t && bool_decide (key_lookup k t = None))
  | PatRecord (RecordPattern [BinEq k (ILiteral v) OpEq]) =>
    Some (match key_lookup k t with Some x => val_eq x v | None => false end)
  | _ => None
  end.

Lemma exec_binary_eq x v : exec_binary OpEq x v = SOk (static_bool (val_eq x v)).
Proof. by destruct x as [[]| | | |], v as [[]| | | |]. Qed.

(** The literal a pattern compares the target with, or a field of it. *)
Definition compared_with (p : pattern) : option (option string * value) :=
  match p with
  | PatExpr (ILiteral v) => Some (None, v)
  | PatRecord (RecordPattern [BinEq k (ILiteral v) OpEq]) => Some (Some k, v)
  | _ => None
  end.

Definition extracted_with (p : pattern) : option string :=
  match p with PatRecord (RecordPattern [TildeEq k _]) => Some k | _ => None end.

(** No value is equal to both literals, and a field an extractor is used on is
    not compared with binary data. *)
Definition apart (p q : pattern) : Prop :=
  (∀ k v w, compared_with p = Some (k, v) → compared_with q = Some (k, w) →
    ∀ t, ¬ (val_eq t v = true ∧ val_eq t w = true)) ∧
  (∀ k v b, compared_with p = Some (Some k, v) → extracted_with q = Some k → v ≠ VBytes b) ∧
  (∀ k v b, compared_with q = Some (Some k, v) → extracted_with p = Some k → v ≠ VBytes b).

Lemma byte_list_cmp_Eq b c : list_cmp N.compare b c = Eq ↔ b = c.
Proof.
  split; [apply list_cmp_Eq; intros x y; apply N.compare_eq|]. intros <-.
  induction b as [|x b IH]; [done|]. cbn. by rewrite N.compare_refl.
Qed.

Lemma string_cmp_Eq s t : String.compare s t = Eq ↔ s = t.
Proof.
  split; [apply String.compare_eq_iff|]. intros <-. rewrite string_cmp_bytes. by apply byte_list_cmp_Eq.
Qed.

Lemma number_eqb_string v s : number_eqb v (VString s) = false.
Proof. unfold number_eqb. cbn. by destruct (as_u64 v), (as_i64 v), (cast_f64 v). Qed.

Lemma val_eq_string v s :
  val_eq v (VString s) =
  match v with VString t => String.eqb t s | VBytes b => bool_decide (b = as_bytes s) | _ => false end.
Proof. destruct v as [[]| | | |]; try done; apply number_eqb_string. Qed.

Lemma tree_safe_string s : tree_safe (VString s).
Proof.
  split; [by apply string_cmp_Eq|]. intros [st|t|l|o|b]; cbn [value_cmp].
  all: rewrite ?val_eq_string.
  - by split.
  - by rewrite String.eqb_eq, string_cmp_Eq.
  - by split.
  - by split.
  - by rewrite bool_decide_eq_true, byte_list_cmp_Eq.
Qed.
End answers.

Section exclusive.
Context `{!script_lib, !value_trait, !analysis, !sound_analysis}.
Variable ctx : event_context.
Local Abbreviation answers := (answers ctx).

Lemma apart_sym p q : apart p q → apart q p.
Proof. intros (Ha & Hb & Hc). split_and!; [|done..]. intros k v w Hv Hw t [H3 H4]. by apply (Ha k w v Hw Hv t). Qed.

Lemma strip_assign_default p : pattern_exclusive p PatDefault = true → False.
Proof. unfold pattern_exclusive. by destruct (strip_assign p) as [| | | | | | |]; repeat case_match. Qed.

Lemma answers_eq k e kind t b :
  answers (PatRecord (RecordPattern [BinEq k e kind])) t = Some b → ∃ v, e = ILiteral v ∧ kind = OpEq.
Proof. destruct e; try done. destruct kind; try done. by eexists. Qed.

Lemma predicates_exclusive f g t :
  predicate_exclusive f g = true →
  apart (PatRecord (RecordPattern [f])) (PatRecord (RecordPattern [g])) →
  is_Some (answers (PatRecord (RecordPattern [f])) t) → is_Some (answers (PatRecord (RecordPattern [g])) t) →
  answers (PatRecord (RecordPattern [f])) t = Some false ∨ answers (PatRecord (RecordPattern [g])) t = Some false.
Proof.
  intros He Ha [b Hb] [b' Hb'].
  destruct Ha as (Ha & Hx & Hy).
  destruct f as [k x|k e kind| | | |k|k], g as [k' x'|k' e' kind'| | | |k'|k']; try done.
  all: try (apply answers_eq in Hb as [v [-> ->]]); try (apply answers_eq in Hb' as [v' [-> ->]]); try done; cbn in He.
  - apply andb_true_iff in He as [Hk%bool_decide_eq_true He]. subst.
    cbn. destruct (key_lookup _ t) as [y|]; [|by left].
    destruct (extractors_exclusive_sound x x' y ctx He) as [-> | ->]; auto.
  - apply andb_true_iff in He as [Hk%bool_decide_eq_true He]. subst.
    cbn. destruct (key_lookup _ t) as [y|]; [|by left]. destruct (val_eq y v') eqn:Hv; [|by right].
    left. f_equal. apply (is_exclusive_sound x v'); [done| |done]. intros b0. by eapply Hy.
  - apply andb_true_iff in He as [Hk%bool_decide_eq_true He]. subst.
    cbn. destruct (key_lookup _ t) as [y|]; [|by left]. destruct (val_eq y v) eqn:Hv; [|by left].
    right. f_equal. apply (is_exclusive_sound x' v); [done| |done]. intros b0. by eapply Hx.
  - apply andb_true_iff in He as [->%bool_decide_eq_true _].
    cbn. destruct (key_lookup k' t) as [x|]; [|by left].
    destruct (val_eq x v) eqn:Hv; [|by left]. destruct (val_eq x v') eqn:Hv'; [|by right].
    by destruct (Ha (Some k') v v' eq_refl eq_refl x).
  - apply bool_decide_eq_true in He as <-.
    cbn. destruct (key_lookup k t) as [x|]; [right; by rewrite andb_false_r|by left].
  - apply bool_decide_eq_true in He as <-.
    cbn. destruct (key_lookup k t) as [x|]; [right; by rewrite andb_false_r|by left].
Qed.

Lemma answers_two f g l t : answers (PatRecord (RecordPattern (f :: g :: l))) t = None.
Proof. destruct f as [|? e kind| | | | |]; try done. by destruct e, kind. Qed.

Lemma answers_exclusive p q t :
  pattern_exclusive p q = true → apart p q → is_Some (answers p t) → is_Some (answers q t) →
  answers p t = Some false ∨ answers q t = Some false.
Proof.
  intros He Ha Hp Hq. unfold pattern_exclusive in He.
  destruct p as [[[|f [|]]]| |e| | | | |]; rewrite ?answers_two in Hp; try by destruct Hp.
  - destruct q as [[[|g [|]]]| |e'| | | | |]; rewrite ?answers_two in Hq; try by destruct Hq. all: try done.
    cbn [strip_assign record_exclusive] in He.
    assert (predicate_exclusive f g = true ∨ predicate_exclusive g f = true) as [H3|H3];
      [by destruct (predicate_exclusive f g), (predicate_exclusive g f); auto| |].
    + by apply predicates_exclusive.
    + apply or_comm. by apply predicates_exclusive; [|apply apart_sym|..].
  - destruct q as [[[|g [|]]]| |e'| | | | |]; rewrite ?answers_two in Hq; try by destruct Hq. all: try by destruct e.
    destruct e; try by destruct Hp. destruct e'; try by destruct Hq.
    cbn. destruct (val_eq t v) eqn:Hv; [|by left]. destruct (val_eq t v0) eqn:Hv0; [|by right].
    destruct Ha as [Ha _]. by destruct (Ha None v v0 eq_refl eq_refl t).
Qed.
End exclusive.

(** ** Building *)
Section build.
Context `{!script_lib, !value_trait, !analysis, !sound_analysis}.
Variable ctx : event_context.
Local Abbreviation answers := (answers ctx).
Context {S R E : Type}.
Local Abbreviation clause := (predicate_clause pattern imut_expr E).
Variable pre : path → value → run_m S (option value).
Variable test : value → pattern → option imut_expr → run_m S bool.
Variable exec : list E → E → run_m S R.
Variable guard_holds : option imut_expr → run_m S bool.

Hypothesis Hpre : ∀ k t s, pre (key_precondition k) t s = (s, SOk (key_lookup k t)).
Hypothesis Hguard_none : ∀ s, guard_holds None s = (s, SOk true).
Hypothesis Htest_default : ∀ t g s, test t PatDefault g s = (s, SOk true).
Hypothesis Htest_answers : ∀ p t b g s, answers p t = Some b →
  test t p g s = if b then guard_holds g s else (s, SOk false).
Hypothesis Htest_tilde : ∀ k x t g s,
  test t (PatRecord (RecordPattern [TildeEq k x])) g s =
  match key_lookup k t with Some y => test y (PatExtract x) g s | None => (s, SOk false) end.

(** A clause with a guard may have any pattern that is not optimised into
    another one, a clause without one has a pattern that answers. *)
Definition plain (c : clause) : Prop :=
  match guard_of c with
  | Some _ => ∀ k e, pattern_of c = PatRecord (RecordPattern [BinEq k e OpEq]) → ∃ v, e = ILiteral v
  | None => pattern_of c = PatDefault ∨ ∀ t, is_Some (answers (pattern_of c) t)
  end.

(** The clauses of which a search tree may be made, if there are enough. *)
Definition compares (c : clause) : bool :=
  match guard_of c, compared_with (pattern_of c) with None, Some _ => true | _, _ => false end.
Definition few_or_safe (cs : list clause) : Prop :=
  (MIN_BTREE_SIZE ≤ length (List.filter compares cs))%nat →
  ∀ c k v, c ∈ cs → compared_with (pattern_of c) = Some (k, v) → tree_safe v.

Lemma plain_decided c : plain c → decided test c.
Proof.
  unfold plain. intros Hc Hg. rewrite Hg in Hc. intros t. unfold misses, hits, test_clause. rewrite Hg.
  destruct Hc as [->|Ha]; [right; intros s; exists s; apply Htest_default|].
  destruct (Ha t) as [b Hb].
  destruct b; [right; intros s; exists s|left; intros s]; by rewrite (Htest_answers _ _ _ _ _ Hb), ?Hguard_none.
Qed.

Lemma answer_no (c : clause) t :
  guard_of c = None → answers (pattern_of c) t = Some false → misses test c t.
Proof. intros Hg Ha s. unfold test_clause. by rewrite Hg, (Htest_answers _ _ _ _ _ Ha). Qed.

Lemma plain_judged c d : plain c → plain d → apart (pattern_of c) (pattern_of d) → judged test c d.
Proof.
  unfold plain. intros Hc Hd Ha He t. destruct (exclusive_unguarded c d He) as [Gc Gd]. rewrite Gc in Hc. rewrite Gd in Hd.
  unfold exclusive, clause_exclusive in He. rewrite Gc, Gd in He. apply orb_true_iff in He.
  destruct Hc as [Hc|Hc]; [rewrite Hc in He; destruct He as [He|He]; [done|by destruct (strip_assign_default _ He)]|].
  destruct Hd as [Hd|Hd]; [rewrite Hd in He; destruct He as [He|He]; [by destruct (strip_assign_default _ He)|done]|].
  assert (answers (pattern_of c) t = Some false ∨ answers (pattern_of d) t = Some false) as [Hm|Hm].
  - destruct He as [He|He]; [by apply answers_exclusive|]. apply or_comm. apply answers_exclusive; [done..|by apply apart_sym|done|done].
  - left. by apply answer_no.
  - right. by apply answer_no.
Qed.

Lemma plain_rewritable c : plain c → rewritable test c.
Proof.
  unfold plain. intros Hc k t s Hk. unfold record_key in Hk. unfold test_clause, rewrite_clause, set_pattern.
  destruct (pattern_of c) as [[[|f [|]]]| | | | | | |]; try done; try by destruct f as [|? ? []| | | | |].
  destruct f as [k' x|k' rhs []| | | | |]; try done; simplify_eq.
  - cbn [pattern_of guard_of]. apply Htest_tilde.
  - assert (∃ v, rhs = ILiteral v) as [v ->].
    { destruct (guard_of c); [by eapply Hc|]. destruct Hc as [|Hc]; [done|].
      destruct (Hc t) as [b Hb]. destruct rhs; try done. by eexists. }
    cbn [pattern_of guard_of]. rewrite (Htest_answers _ t (match key_lookup k t with Some x => val_eq x v | None => false end)) by done.
    destruct (key_lookup k t) as [x|]; [|done]. by rewrite (Htest_answers _ x (val_eq x v)).
Qed.

Lemma treeable_compares (c : clause) : treeable c = true → compares c = true.
Proof.
  unfold treeable, compares, unguarded_literal, rewrite_clause, record_key.
  destruct c as [p [g|] es e]; cbn [pattern_of guard_of set_pattern].
  - destruct p as [[[|f [|]]]| |x| | | | |]; cbn; rewrite ?andb_false_r; try done; try by destruct x.
    all: destruct f as [|k [] []| | | | |]; cbn; done.
  - destruct p as [[[|f [|]]]| |x| | | | |]; try done; try by destruct x.
    all: destruct f as [|k [] []| | | | |]; cbn; done.
Qed.

Lemma plain_buildable cs :
  Forall plain cs → pairwise (λ c d, apart (pattern_of c) (pattern_of d)) cs → few_or_safe cs → buildable test cs.
Proof.
  intros Hp Ha Hfew. split.
  - split; [eapply Forall_impl; [exact Hp|apply plain_decided]|].
    clear Hfew. revert Hp Ha. induction cs as [|c cs IH]; [done|]. intros [Hc Hp]%Forall_cons [Hcs Ha]. split; [|auto].
    rewrite Forall_forall in *. intros d Hd. apply plain_judged; auto.
  - eapply Forall_impl; [exact Hp|apply plain_rewritable].
  - intros Hlen. rewrite Forall_forall. intros c Hc.
    assert (∀ k v, compared_with (pattern_of c) = Some (k, v) → tree_safe v) as Hs.
    { intros k v Hv. eapply (Hfew); [|exact Hc|exact Hv]. etrans; [exact Hlen|].
      apply length_filter_mono. intros d _. apply treeable_compares. }
    intros v Hv. destruct Hv as [Hv|[[k Hk] Hv]].
    + apply (Hs None). by rewrite (literal_pattern c v Hv).
    + revert Hk Hv. unfold record_key, rewrite_clause, literal_of.
      destruct (pattern_of c) as [[[|f [|]]]| | | | | | |] eqn:Hpat; try done; try by destruct f as [|? ? []| | | | |].
      destruct f as [|k' rhs []| | | | |]; try done. cbn. destruct rhs; try done. intros ??; simplify_eq.
      by apply (Hs (Some k)).
Qed.
End build.

(** ** The extractors of tilde.rs *)
Section tilde.
Context `{!extractor_libs, !numbers, !value_trait}.
Variables (L : script_lib) (ingest_ns : @event_context L → N).
#[local] Existing Instance tilde_lib.
Local Abbreviation lib := (tilde_lib L ingest_ns).
Variables (value_eqb : value → value → bool) (ast_eq : @imut_expr lib → @imut_expr lib → bool).
Hypothesis ast_eq_literal : ∀ v w, ast_eq (@ILiteral lib v) (@ILiteral lib w) = value_eqb v w.

Definition tilde_analysis : @analysis lib :=
  @Build_analysis lib cost is_exclusive_to prefix_or_suffix_exclusive value_eqb ast_eq ast_eq_literal.

Lemma tilde_sound : @sound_analysis lib _ tilde_analysis.
Proof.
  split.
  - intros x v t ctx. exact (is_exclusive_to_sound x v t (ingest_ns ctx)).
  - intros x y t ctx. exact (prefix_or_suffix_sound x y t false (ingest_ns ctx)).
Qed.
End tilde.

(** ** The interpreter *)
Section run.
Context `{!script_lib, !value_trait, !hash_order string, !analysis, !sound_analysis}.
Variables (opts : exec_opts) (en : env).
Local Abbreviation answers := (answers (context en)).
Local Abbreviation plain := (plain (context en)).

Definition imut_test (inp : inputs) : value → pattern → option imut_expr → run_m locals bool :=
  test_predicate_expr imut_run rp_run opts en inp.
Definition imut_guard (inp : inputs) : option imut_expr → run_m locals bool :=
  test_guard imut_run opts en inp.
Definition imut_precondition (inp : inputs) (p : path) (t : value) : run_m locals (option value) :=
  (λ r : sres cow, match r with SOk c => Some (into_owned c) | SErr _ => None end)
    <$> attempt (resolve_value imut_run opts en inp p t).
Definition imut_exec (inp : inputs) (_ : list imut_expr) (e : imut_expr) : run_m locals cow :=
  imut_run opts en inp e.

Lemma imut_precondition_key inp k t s :
  imut_precondition inp (key_precondition k) t s = (s, SOk (key_lookup k t)).
Proof.
  unfold imut_precondition, resolve_value, attempt, mbind, run_bind, fmap, run_fmap. cbn.
  destruct (key_lookup k t) as [x|]; [done|]. by destruct (is_object t).
Qed.

Lemma imut_test_literal inp v t g s :
  imut_test inp t (PatExpr (ILiteral v)) g s = if val_eq t v then imut_guard inp g s else (s, SOk false).
Proof.
  unfold imut_test, test_predicate_expr, match_pattern, mbind, run_bind, fmap, run_fmap.
  rewrite imut_run_step. cbn [imut_step]. unfold mret, run_ret. cbn [into_owned]. by destruct (val_eq t v).
Qed.

(** A record pattern with one field. *)
Lemma imut_test_field inp f t g s :
  imut_test inp t (PatRecord (RecordPattern [f])) g s =
  match t with
  | VObject o =>
    (r ← match_field imut_run rp_run (without_result opts) en inp o f;
     match r with Some _ => imut_guard inp g | None => mret false end) s
  | _ => (s, SOk false)
  end.
Proof.
  unfold imut_test, test_predicate_expr, match_pattern, mbind, run_bind.
  rewrite rp_run_step. unfold match_rp_expr. destruct t as [| | |o|]; [done..| |done].
  cbn [match_fields]. unfold mbind, run_bind.
  destruct (match_field _ _ _ _ _ _ _ _) as [s' [[[]|]|]]; done.
Qed.

Lemma extracts_is_match x t :
  is_Some (extracts (without_result opts) en x t) ↔ is_match (extract x false t (context en)) = true.
Proof. unfold extracts. cbn [result_needed without_result]. destruct (extract _ _ _ _); cbn; split; try done; by intros []. Qed.

Lemma imut_test_extract inp x t g s :
  imut_test inp t (PatExtract x) g s =
  if is_match (extract x false t (context en)) then imut_guard inp g s else (s, SOk false).
Proof.
  unfold imut_test, test_predicate_expr, match_pattern, mbind, run_bind, mret, run_ret.
  destruct (is_match _) eqn:He.
  - apply extracts_is_match in He as [v ->]. done.
  - destruct (extracts _ _ _ _) eqn:Hx; [|done]. apply mk_is_Some, extracts_is_match in Hx. congruence.
Qed.

Lemma imut_test_tilde inp k x t g s :
  imut_test inp t (PatRecord (RecordPattern [TildeEq k x])) g s =
  match key_lookup k t with Some y => imut_test inp y (PatExtract x) g s | None => (s, SOk false) end.
Proof.
  rewrite imut_test_field. unfold key_lookup. destruct t as [| | |o|]; [done..| |done].
  cbn. unfold mbind, run_bind. cbn. destruct (o !! k) as [y|]; [|done]. cbn.
  by destruct (extracts _ _ x y).
Qed.

Lemma imut_test_answers inp p t b g s :
  answers p t = Some b → imut_test inp t p g s = if b then imut_guard inp g s else (s, SOk false).
Proof.
  destruct p as [[[|f [|f' fs]]]| |e| | | | |]; try done; rewrite ?answers_two; try done.
  - intros Ha. assert (Hf := imut_test_field inp f t g s).
    destruct f as [k x|k e kind| | | |k|k]; try done.
    + intros. rewrite imut_test_tilde. injection Ha as <-. destruct (key_lookup k t) as [y|]; [|done].
      apply imut_test_extract.
    + rewrite Hf. clear Hf. destruct (answers_eq _ k e kind t b Ha) as [v [-> ->]]. injection Ha as <-. unfold key_lookup.
      destruct t as [| | |o|]; [done..| |done]. cbn [match_field predicate_key as_object mbind option_bind].
      unfold mbind, run_bind. destruct (o !! k) as [x|]; [|done]. unfold fmap, run_fmap.
      rewrite imut_run_step. cbn [imut_step]. unfold mret, run_ret, of_res. cbn [into_owned].
      rewrite exec_binary_eq. by destruct (val_eq x v).
    + rewrite Hf. clear Hf. injection Ha as <-. unfold key_lookup. destruct t as [| | |o|]; [done..| |done]. cbn.
      unfold mbind, run_bind. by destruct (o !! k) as [x|].
    + rewrite Hf. clear Hf. injection Ha as <-. unfold key_lookup. destruct t as [| | |o|]; [done..| |done]. cbn.
      unfold mbind, run_bind. by destruct (o !! k) as [x|].
  - destruct e; try done. intros [= <-]. apply imut_test_literal.
  - intros [= <-]. apply imut_test_extract.
  - by intros [= <-].
Qed.

Definition is_null_lit (e : imut_expr) : bool :=
  match e with ILiteral (VStatic SNull) => true | _ => false end.
Definition expr_is_null_lit (e : expr) : bool :=
  match e with EImut e => is_null_lit e | _ => false end.

(** A match with clauses of which each has a pattern that answers or a guard,
    and of which no two compare with values that can both be equal to one. *)
Definition plain_clauses {E} (cs : list (predicate_clause pattern imut_expr E)) : Prop :=
  Forall plain cs ∧ pairwise (λ c d, apart (pattern_of c) (pattern_of d)) cs ∧ few_or_safe cs.

Lemma imut_null_runs inp e s :
  is_null_lit e = true → imut_exec inp [] e s = (s, SOk (Borrowed const_null)).
Proof. destruct e; try done. by destruct v as [[]| | | |]. Qed.


(** *** Matches with effects *)
Definition expr_test (t : value) (p : pattern) (g : option imut_expr) : run_m store bool :=
  immutably (λ inp, imut_test inp t p g).

Lemma set_local_same st : set_local (s_local st) st = st.
Proof. by destruct st. Qed.

Lemma immutably_ret {A} (m : inputs → run_m locals A) (st : store) (r : sres A) :
  (∀ inp l, m inp l = (l, r)) → immutably m st = (st, r).
Proof. intros Hm. unfold immutably. by rewrite Hm, set_local_same. Qed.

Lemma expr_match_up_runs_in_order (cs : list (predicate_clause pattern imut_expr expr)) target st :
  plain_clauses cs →
  expr_run opts en (EMatch target (match_up expr_is_null_lit cs).1 (match_up expr_is_null_lit cs).2) st =
  (t ← immutably (λ inp, into_owned <$> imut_run opts en inp target);
   run_in_order expr_test (execute_effectors expr_run opts en) t cs) st.
Proof.
  intros (Hp & Ha & Hf). rewrite expr_run_step. cbn [expr_step]. unfold expr_match, mbind, run_bind.
  destruct (immutably _ st) as [st' [t|e]]; [|done].
  apply (match_up_in_order (λ p t, immutably (λ inp, imut_precondition inp p t))).
  - intros. apply immutably_ret. intros. apply imut_precondition_key.
  - intros t' v st''. apply immutably_ret. intros. rewrite imut_test_literal. by destruct (val_eq t' v).
  - intros. by apply immutably_ret.
  - intros [] st''; try done. destruct e; try done. destruct v as [[]| | | |]; try done. intros _.
    unfold execute_effectors. cbn [run_effectors]. rewrite expr_run_step. cbn [expr_step].
    destruct (result_needed opts); [|done]. unfold mbind, run_bind. cbn. by rewrite set_local_same.
  - apply (plain_buildable (context en) _ (λ g, immutably (λ inp, imut_guard inp g))); try done.
    + intros. by apply immutably_ret.
    + intros. by apply immutably_ret.
    + intros p t' b g s Hb. unfold expr_test, immutably. rewrite (imut_test_answers _ _ _ b) by done.
      destruct b; [done|]. by rewrite set_local_same.
    + intros k x t' g s. unfold expr_test, immutably. rewrite imut_test_tilde.
      destruct (key_lookup k t'); [done|]. by rewrite set_local_same.
Qed.
End run.

Module MatchExample.
#[local] Instance example_lib : script_lib := tilde_lib some_lib (λ _, 0%N).
#[local] Existing Instance simd_value_trait.
#[local] Instance hash_order_example : hash_order string := some_order string.
#[local] Instance example_analysis : analysis :=
  tilde_analysis some_lib (λ _, 0%N) val_eq
    (λ e f, match e, f with ILiteral v, ILiteral w => val_eq v w | _, _ => false end) (λ _ _, eq_refl).
#[local] Instance example_sound : sound_analysis := tilde_sound some_lib _ _ _ _.

Definition str (s : string) : imut_expr := ILiteral (VString s).
Definition case_ (p : pattern) (e : string) : predicate_clause pattern imut_expr imut_expr :=
  PredicateClause p None [] (str e).
Definition field_is (k v : string) : pattern := PatRecord (RecordPattern [BinEq k (str v) OpEq]).
Definition has_prefix (k p : string) : pattern := PatRecord (RecordPattern [TildeEq k (Prefix p : extractor)]).

Definition cases : list (predicate_clause pattern imut_expr imut_expr) :=
  [case_ (PatRecord (RecordPattern [FieldPresent "c"])) "c";
   case_ (field_is "a" "x") "ax"; case_ (field_is "a" "y") "ay"; case_ (field_is "b" "x") "bx";
   case_ (has_prefix "d" "snot") "snot"; case_ (has_prefix "d" "badger") "badger";
   case_ PatDefault "none"].

Definition built : imut_expr :=
  IMatch (IPath (EventPath [])) (match_up is_null_lit cases).1 (match_up is_null_lit cases).2.
Definition en : env := Env tt [] const_null const_null const_null [] 5.
Definition on (event : value) : inputs := Inputs event const_null value_object.
Definition run (event : value) : sres cow :=
  (imut_run (ExecOpts true Tick) en (on event) built []).2.

Example built_groups :
  match match_up is_null_lit cases with
  | ([Single None _; Simple (Some _) [_; _]; Single (Some _) _; Simple (Some _) [_; _]], DefaultOne _) => True
  | _ => False
  end.
Proof. vm_compute. exact I. Qed.

Example run_ay : run (VObject {["a" := VString "y"]}) = SOk (Borrowed (VString "ay")).
Proof. by vm_compute. Qed.

Lemma plain_field k v e : plain (context en) (case_ (field_is k v) e).
Proof.
  right. intros t. by eexists.
Qed.

Lemma apart_strings (k k' v v' : string) : k ≠ k' ∨ v ≠ v' → apart (field_is k v) (field_is k' v').
Proof.
  intros Hne. split_and!; [|by intros ??? [= <- <-]..].
  intros l w w' [= <- <-] [= <- <-] t. rewrite !val_eq_string. intros [Hv Hv'].
  destruct Hne as [|Hne]; [done|]. apply Hne. destruct t as [| | | |b]; try done.
  - apply String.eqb_eq in Hv, Hv'. congruence.
  - apply bool_decide_eq_true in Hv, Hv'. apply string_cmp_Eq. rewrite string_cmp_bytes.
    apply byte_list_cmp_Eq. congruence.
Qed.


(** Sixteen integers make a search tree, in which a float finds the integer it
    is truncated to. *)
Definition integer_cases : list (predicate_clause pattern imut_expr imut_expr) :=
  ((λ n, PredicateClause (PatExpr (ILiteral (from_u64 (N.of_nat n)))) None [] (str "integer")) <$> seq 0 16) ++
  [case_ PatDefault "none"].
Example integer_tree_misses :
  let '(groups, default) := match_up is_null_lit integer_cases in
  let target := VStatic (SF64 one_and_half) in
  (imut_run (ExecOpts true Tick) en (on const_null) (IMatch (ILiteral target) groups default) []).2
    = SOk (Borrowed (VString "integer")) ∧
  (run_in_order (imut_test (ExecOpts true Tick) en (on const_null)) (imut_exec (ExecOpts true Tick) en (on const_null))
    target integer_cases []).2 = SOk (Borrowed (VString "none")).
Proof. by vm_compute. Qed.

(** Two clauses with the same literal change places: the later one runs. *)
Example same_literal :
  let cs := [case_ (PatExpr (str "x")) "first"; case_ (PatExpr (str "x")) "second"] in
  (imut_run (ExecOpts true Tick) en (on const_null)
     (IMatch (str "x") (match_up is_null_lit cs).1 (match_up is_null_lit cs).2) []).2
  = SOk (Borrowed (VString "second")).
Proof. by vm_compute. Qed.
End MatchExample.
