(* ===== verification/ScriptFold.v ===== *)
(** Constant folding and inlining, done while a script is built: the
    [try_reduce] functions of tremor-script/src/ast.rs, and [can_inline] and
    [inline] of registry/custom_fn.rs. *)
From S2P Require Import Prelude Value ValueOrd ScriptOps Bits Ast Interp.

(** [consts] are the constants declared so far, [limit] is the recursion
    limit. *)
Section fold.
Context `{!script_lib, !value_trait, !hash_order string}.
Variables (consts : list value) (limit : N).

(** [None] is the error that the expression is not constant. *)
Definition try_into_value (e : imut_expr) : option value :=
  match e with ILiteral v => Some v | _ => None end.

Definition literal_name (n : string_lit) : option string :=
  match n with StringLit [SLit l] => Some l | _ => None end.

(** ** Reducing one expression *)
Definition literal_field (f : field) : option (string * value) :=
  match f with
  | Field n e => n ← literal_name n; v ← try_into_value e; Some (n, v)
  end.

(** The fields that are literals become the base; the base the record had is
    not looked at. *)
Definition record_reduce (base : gmap string value) (fields : list field) : imut_expr :=
  let base := foldl (λ o f, match literal_field f with Some (n, v) => <[n := v]> o | None => o end) ∅ fields in
  match filter (λ f, literal_field f = None) fields with
  | [] => ILiteral (VObject base)
  | fields => IRecord base fields
  end.

Definition list_reduce (exprs : list imut_expr) : imut_expr :=
  match mapM try_into_value exprs with
  | Some vs => ILiteral (VArray vs)
  | None => IList exprs
  end.

Definition string_reduce (s : string_lit) : imut_expr :=
  match s with
  | StringLit [SLit l] => ILiteral (VString l)
  | StringLit [] => ILiteral (VString "")
  | s => IString s
  end.

Definition binary_reduce (kind : binop) (lhs rhs : imut_expr) : sres imut_expr :=
  match lhs, rhs with
  | ILiteral l, ILiteral r => ILiteral <$> exec_binary kind l r
  | lhs, rhs => SOk (IBinary kind lhs rhs)
  end.

Definition unary_reduce (kind : unop) (e : imut_expr) : sres imut_expr :=
  match e with
  | ILiteral v => ILiteral <$> some_or (exec_unary kind v) (InvalidUnary kind (type_of v))
  | e => SOk (IUnary kind e)
  end.

Definition invocable_is_const (f : invocable) : bool :=
  match f with
  | Intrinsic f => intrinsic_is_const f
  | Tremor (CustomFn _ _ _ is_const _) => is_const
  end.

(** The environment constant functions are called in. *)
Definition fold_env : env := Env default_context [] const_null const_null const_null [] limit.

(** The kind of call for a number of arguments. *)
Definition call_of (i : invoke) : imut_expr :=
  match i with
  | Invoke _ [_] => IInvoke1 i
  | Invoke _ [_; _] => IInvoke2 i
  | Invoke _ [_; _; _] => IInvoke3 i
  | _ => IInvoke i
  end.

Definition invoke_reduce (i : invoke) : sres imut_expr :=
  match i with
  | Invoke f args =>
    match (if invocable_is_const f then mapM try_into_value args else None) with
    | Some vs => ILiteral <$> invoke_invocable fn_invoke fold_env f vs
    | None => SOk (call_of i)
    end
  end.

Section step.
Variable try_reduce : imut_expr → sres imut_expr.

Definition try_reduce_into_value (e : imut_expr) : option value :=
  match try_reduce e with SOk e => try_into_value e | SErr _ => None end.

(** *** Binary literals *)
Fixpoint reduce_parts (ps : list bytes_part) : sres (list bytes_part) :=
  match ps with
  | [] => SOk []
  | BytesPart data t e bits :: ps =>
    data ← try_reduce data;
    ps ← reduce_parts ps;
    SOk (BytesPart data t e bits :: ps)
  end.

Definition literal_part (p : bytes_part) : option (value * bytes_data_type * endian * N) :=
  match p with BytesPart (ILiteral v) t e bits => Some (v, t, e, bits) | _ => None end.

Fixpoint write_parts (ps : list (value * bytes_data_type * endian * N)) (w : bit_writer) : sres bit_writer :=
  match ps with
  | [] => SOk w
  | (v, t, e, bits) :: ps => w ← extend_bytes_from_value t e bits v w; write_parts ps w
  end.

Definition bytes_reduce (parts : list bytes_part) : sres imut_expr :=
  parts ← reduce_parts parts;
  match mapM literal_part parts with
  | Some ps => (λ w, ILiteral (VBytes (finish_bytes w))) <$> write_parts ps (BitWriter [] 0 0)
  | None => SOk (IBytes parts)
  end.

(** *** Paths

    [None] is a segment that is left to the run. *)
Definition reduce_segment (s : segment) (c : cursor) : sres (option cursor) :=
  let current := c.1 in
  match s with
  | SegId key =>
    match key_lookup key current with
    | Some v => SOk (Some (v, None))
    | None => SErr (if is_object current then BadKey key else NeedObj (type_of current))
    end
  | SegIdx idx =>
    match current with
    | VArray a =>
      let range := selected c a in
      match get_idx range idx with
      | Some v => SOk (Some (v, None))
      | None => SErr (ArrayOutOfBound idx idx (N.of_nat (length range)))
      end
    | _ => SErr (NeedArr (type_of current))
    end
  | SegRange start end_ =>
    match current with
    | VArray a =>
      let array := selected c a in
      match try_reduce_into_value start, try_reduce_into_value end_ with
      | Some start, Some end_ =>
        start ← some_or (as_usize start) (NeedInt (type_of current));
        end_ ← some_or (as_usize end_) (NeedInt (type_of current));
        if (end_ <? start)%N then SErr (DecreasingRange start end_)
        else if (N.of_nat (length array) <? end_)%N
        then SErr (ArrayOutOfBound start end_ (N.of_nat (length array)))
        else SOk (Some (current, get_range array start end_))
      | _, _ => SOk None
      end
    | _ => SErr (NeedArr (type_of current))
    end
  | SegElement _ => SOk None
  end.

Fixpoint reduce_segments (ss : list segment) (c : cursor) : sres (option cursor) :=
  match ss with
  | [] => SOk (Some c)
  | s :: ss =>
    c ← reduce_segment s c;
    match c with Some c => reduce_segments ss c | None => SOk None end
  end.

Definition path_reduce (p : path) : sres imut_expr :=
  match p with
  | ConstPath idx true [] => ILiteral <$> some_or (get_idx consts idx) Unreachable
  | ExprPath (ILiteral v) _ ss =>
    c ← reduce_segments ss (v, None);
    SOk match c with
        | Some (_, Some range) => ILiteral (VArray range)
        | Some (v, None) => ILiteral v
        | None => IPath p
        end
  | p => SOk (IPath p)
  end.

Definition reduce_step (e : imut_expr) : sres imut_expr :=
  match e with
  | IUnary kind e => unary_reduce kind e
  | IBytes parts => bytes_reduce parts
  | IBinary kind lhs rhs => binary_reduce kind lhs rhs
  | IList exprs => SOk (list_reduce exprs)
  | IRecord base fields => SOk (record_reduce base fields)
  | IPath p => path_reduce p
  | IString s => SOk (string_reduce s)
  | IInvoke1 i | IInvoke2 i | IInvoke3 i | IInvoke i => invoke_reduce i
  | e => SOk e
  end.
End step.

Fixpoint try_reduce (e : imut_expr) : sres imut_expr := reduce_step try_reduce e.

Lemma try_reduce_step e : try_reduce e = reduce_step try_reduce e.
Proof. by destruct e. Qed.
End fold.

(** ** Calls *)
Section call.
Context `{!script_lib, !value_trait, !hash_order string}.
Variables (opts : exec_opts) (en : env) (inp : inputs).

(** Whatever its kind, a call evaluates its arguments and invokes. *)
Lemma call_of_run f args s :
  imut_run opts en inp (call_of (Invoke f args)) s =
  (argv ← list_elements imut_run opts en inp args; Owned <$> of_res (invoke_invocable fn_invoke en f argv)) s.
Proof.
  destruct args as [|a [|b [|c [|d args]]]]; [done|..|done];
    cbn [call_of]; rewrite imut_run_step; cbn [imut_step invoke1 invoke2 invoke3 list_elements];
    unfold mbind, run_bind, fmap, run_fmap.
  - by destruct (imut_run opts en inp a s) as [s1 [?|?]].
  - destruct (imut_run opts en inp a s) as [s1 [?|?]]; [|done].
    by destruct (imut_run opts en inp b s1) as [s2 [?|?]].
  - destruct (imut_run opts en inp a s) as [s1 [?|?]]; [|done].
    destruct (imut_run opts en inp b s1) as [s2 [?|?]]; [|done].
    by destruct (imut_run opts en inp c s2) as [s3 [?|?]].
Qed.
End call.

(** ** Reducing does not change an expression *)
Section sound.
Context `{!script_lib, !value_trait, !hash_order string}.
Variables (consts : list value) (limit : N).
Variables (opts : exec_opts) (en : env) (inp : inputs).

(** The constants of the finished script extend those declared so far, and
    constant functions do not look at the event context. *)
Hypothesis Hconsts : ∀ idx v, get_idx consts idx = Some v → get_const en idx = SOk v.
Hypothesis Hintrinsic : ∀ f c c' argv,
  intrinsic_is_const f = true → intrinsic_invoke f c argv = intrinsic_invoke f c' argv.

Local Abbreviation run e := (imut_run opts en inp e).
Local Abbreviation reduce := (try_reduce consts limit).

(** The same local variables and the same value or error; a value may be
    borrowed in one of them and owned in the other. *)
Definition same_value (r1 r2 : locals * sres cow) : Prop :=
  r1.1 = r2.1 ∧
  match r1.2, r2.2 with
  | SOk c, SOk d => into_owned c = into_owned d ∧ (c = RecurRef ↔ d = RecurRef)
  | SErr x, SErr y => x = y
  | _, _ => False
  end.

(** What reducing an expression promises about running it. *)
Definition reduced_to (e : imut_expr) (r : sres imut_expr) : Prop :=
  match r with
  | SOk e' => ∀ s, same_value (run e s) (run e' s)
  | SErr _ => ∀ s, ∃ s' y, run e s = (s', SErr y)
  end.

Definition literals_first (fields : list field) : Prop :=
  ∃ lits rest, fields = lits ++ rest ∧ Forall (λ f, is_Some (literal_field f)) lits ∧
    Forall (λ f, literal_field f = None) rest.

Definition call_ok (i : invoke) (n : nat) : Prop :=
  match i with
  | Invoke f args => length args = n ∧ (∀ b n l i, f ≠ Tremor (CustomFn b n l true i))
  end.

(** What the builder makes of the source: a record without base whose literal
    fields come first, a call with the right number of arguments and a
    constant that exists. *)
Definition buildable_here (e : imut_expr) : Prop :=
  match e with
  | IRecord base fields => base = ∅ ∧ literals_first fields
  | IInvoke1 i => call_ok i 1
  | IInvoke2 i => call_ok i 2
  | IInvoke3 i => call_ok i 3
  | IInvoke (Invoke f args) => call_ok (Invoke f args) (length args) ∧ (length args = 0 ∨ 3 < length args)%nat
  | IPath (ConstPath idx true []) => is_Some (get_idx consts idx)
  | _ => True
  end.

Definition part_data (p : bytes_part) : imut_expr := match p with BytesPart d _ _ _ => d end.
Definition range_exprs (s : segment) : list imut_expr :=
  match s with SegRange a b => [a; b] | _ => [] end.

(** The expressions that are reduced with an expression. *)
Definition reduced_with (e : imut_expr) : list imut_expr :=
  match e with
  | IBytes parts => part_data <$> parts
  | IPath (ExprPath _ _ ss) => ss ≫= range_exprs
  | _ => []
  end.

Inductive foldable : imut_expr → Prop :=
  | foldable_intro e : buildable_here e → Forall foldable (reduced_with e) → foldable e.

Lemma foldable_induction (P : imut_expr → Prop) :
  (∀ e, buildable_here e → Forall P (reduced_with e) → P e) → ∀ e, foldable e → P e.
Proof.
  intros Hstep. fix IH 2. intros e [e' Hb Hf]. apply Hstep; [done|].
  induction Hf as [|x xs Hx Hxs IHf]; constructor; [exact (IH x Hx)|exact IHf].
Qed.

(** *** Small facts *)
Lemma run_literal v s : run (ILiteral v) s = (s, SOk (Borrowed v)).
Proof. done. Qed.

Lemma same_value_refl r : same_value r r.
Proof. split; [done|]. by destruct r as [? [[]|]]. Qed.

Lemma same_literal_value r s c v :
  r = (s, SOk c) → into_owned c = v → c ≠ RecurRef → same_value r (run (ILiteral v) s).
Proof. intros -> <- Hc. rewrite run_literal. by split; [|split]. Qed.

(** An expression that reduces to a literal has no effects. *)
Lemma reduced_to_literal e v :
  reduced_to e (SOk (ILiteral v)) → ∀ s, ∃ c, run e s = (s, SOk c) ∧ into_owned c = v ∧ c ≠ RecurRef.
Proof.
  intros Hr s. specialize (Hr s). rewrite run_literal in Hr. destruct (run e s) as [s' [c|x]]; [|by destruct Hr].
  destruct Hr as [Hs [Hv Hrec]]. cbn in *. subst s'. exists c. split_and!; [done|done|]. intros ->. by destruct Hrec as [H1 _]; discriminate H1.
Qed.

Lemma eval_to_literal e v s : reduced_to e (SOk (ILiteral v)) → ((into_owned <$> run e) : run_m locals value) s = (s, SOk v).
Proof.
  intros Hr. destruct (reduced_to_literal e v Hr s) as (c & Hc & <- & _). unfold fmap, run_fmap. by rewrite Hc.
Qed.

Lemma mapM_literals es vs s :
  mapM try_into_value es = Some vs → list_elements imut_run opts en inp es s = (s, SOk vs).
Proof.
  revert vs s. induction es as [|e es IH]; intros vs s Hm; [by injection Hm as <-|].
  cbn [mapM] in Hm. destruct e; try done. cbn in Hm. destruct (mapM try_into_value es) as [ws|]; [|done].
  injection Hm as <-. cbn [list_elements]. unfold mbind, run_bind, fmap, run_fmap. rewrite run_literal.
  by rewrite (IH ws s eq_refl).
Qed.

Lemma computed_owned w : into_owned (computed w) = w.
Proof. by destruct w as [[]| | | |]. Qed.
Lemma computed_value w : computed w ≠ RecurRef.
Proof. by destruct w as [[]| | | |]. Qed.

(** *** The forms *)
Lemma binary_reduced kind l r : reduced_to (IBinary kind l r) (binary_reduce kind l r).
Proof.
  unfold binary_reduce. destruct l; try (intros ?; apply same_value_refl).
  destruct r; try (intros ?; apply same_value_refl).
  assert (∀ s, run (IBinary kind (ILiteral v) (ILiteral v0)) s = (s, computed <$> exec_binary kind v v0)) as Hrun.
  { intros s. cbn. unfold mbind, run_bind, fmap, run_fmap, of_res. cbn. by destruct (exec_binary kind v v0). }
  unfold reduced_to. destruct (exec_binary kind v v0) as [w|x]; intros s.
  - eapply same_literal_value; [apply Hrun|apply computed_owned|apply computed_value].
  - eexists _, _. apply Hrun.
Qed.

Lemma unary_reduced kind e : reduced_to (IUnary kind e) (unary_reduce kind e).
Proof.
  unfold unary_reduce. destruct e; try (intros ?; apply same_value_refl).
  assert (∀ s, run (IUnary kind (ILiteral v)) s =
    (s, some_or (computed <$> exec_unary kind v) (InvalidUnary kind (type_of v)))) as Hrun.
  { intros s. rewrite imut_run_step. cbn [imut_step]. unfold mbind, run_bind, fmap, run_fmap, of_res.
    rewrite run_literal. cbn. by destruct (exec_unary kind v). }
  unfold reduced_to. destruct (exec_unary kind v) as [w|]; cbn in *; intros s.
  - eapply same_literal_value; [apply Hrun|apply computed_owned|apply computed_value].
  - eexists _, _. apply Hrun.
Qed.

Lemma list_reduced es : reduced_to (IList es) (SOk (list_reduce es)).
Proof.
  unfold list_reduce. destruct (mapM try_into_value es) as [vs|] eqn:Hm; intros s; [|apply same_value_refl].
  apply (same_literal_value _ s (Owned (VArray vs))); [|done..].
  rewrite imut_run_step. cbn [imut_step]. unfold fmap, run_fmap. by rewrite (mapM_literals es vs s Hm).
Qed.

Lemma string_reduced l : reduced_to (IString l) (SOk (string_reduce l)).
Proof.
  intros s. destruct l as [[|[l|e] [|]]]; try apply same_value_refl.
  - by apply (same_literal_value _ s (Owned (VString ""))).
  - by apply (same_literal_value _ s (Owned (VString l))).
Qed.

Definition add_literal (o : gmap string value) (f : field) : gmap string value :=
  match literal_field f with Some (n, v) => <[n := v]> o | None => o end.

Lemma run_literal_fields lits rest o s :
  Forall (λ f, is_Some (literal_field f)) lits →
  record_fields imut_run opts en inp (lits ++ rest) o s =
  record_fields imut_run opts en inp rest (foldl add_literal o lits) s.
Proof.
  intros Hl. revert o. induction Hl as [|[n e] lits [[k v] Hk] _ IH]; intros o; [done|].
  cbn [app foldl record_fields]. unfold add_literal at 2. rewrite Hk, <-IH.
  cbn [literal_field] in Hk. destruct n as [[|[l|] [|]]]; try done. destruct e; try done. by injection Hk as <- <-.
Qed.

Lemma record_reduced fields : literals_first fields → reduced_to (IRecord ∅ fields) (SOk (record_reduce ∅ fields)).
Proof.
  intros (lits & rest & -> & Hl & Hr) s. unfold record_reduce.
  assert (foldl (λ o f, match literal_field f with Some (n, v) => <[n := v]> o | None => o end) ∅ (lits ++ rest) =
          foldl add_literal ∅ lits) as ->.
  { change (foldl add_literal ∅ (lits ++ rest) = foldl add_literal ∅ lits). rewrite foldl_app.
    generalize (foldl add_literal ∅ lits). clear Hl. induction Hr as [|f rest Hf _ IH]; intros o; [done|].
    cbn [foldl]. unfold add_literal at 2. by rewrite Hf. }
  assert (filter (λ f, literal_field f = None) (lits ++ rest) = rest) as ->.
  { rewrite filter_app. replace (filter (λ f, literal_field f = None) lits) with ([] : list field).
    - clear Hl. induction Hr as [|f rest Hf _ IH]; [done|]. cbn [app]. rewrite filter_cons_True by done. by f_equal.
    - clear Hr. induction Hl as [|f lits [x Hf] _ IH]; [done|]. rewrite filter_cons_False; [done|]. by rewrite Hf. }
  assert (∀ base, run (IRecord base (lits ++ rest)) s =
    ((λ o, Owned (VObject o)) <$> record_fields imut_run opts en inp (lits ++ rest) base) s) as Hrun by done.
  destruct rest as [|f rest].
  - eapply (same_literal_value _ s (Owned (VObject _))); [|reflexivity|done]. rewrite Hrun. unfold fmap, run_fmap.
    by rewrite run_literal_fields.
  - rewrite Hrun. rewrite (imut_run_step opts en inp (IRecord _ _)). cbn [imut_step].
    unfold fmap, run_fmap. rewrite run_literal_fields by done. apply same_value_refl.
Qed.

Lemma invoke_const f vs :
  (∀ b n l i, f ≠ Tremor (CustomFn b n l true i)) → invocable_is_const f = true →
  invoke_invocable fn_invoke (fold_env limit) f vs = invoke_invocable fn_invoke en f vs.
Proof.
  intros Hf Hc. destruct f as [f|[b n l c i]].
  - cbn [invoke_invocable]. by rewrite (Hintrinsic f _ (context en)).
  - cbn in Hc. subst c. by destruct (Hf b n l i).
Qed.

Lemma invoke_reduced i n :
  call_ok i n → reduced_to (call_of i) (invoke_reduce limit i).
Proof.
  destruct i as [f args]. intros [_ Hf].
  unfold invoke_reduce. destruct (invocable_is_const f) eqn:Hc; [|intros s; apply same_value_refl].
  destruct (mapM try_into_value args) as [vs|] eqn:Hm; [|intros s; apply same_value_refl].
  assert (∀ s, run (call_of (Invoke f args)) s = (s, Owned <$> invoke_invocable fn_invoke (fold_env limit) f vs)) as Hr.
  { intros s. rewrite call_of_run, invoke_const by done. unfold mbind, run_bind. rewrite (mapM_literals args vs s Hm).
    unfold fmap, run_fmap, of_res. by destruct (invoke_invocable fn_invoke en f vs). }
  unfold reduced_to. destruct (invoke_invocable fn_invoke (fold_env limit) f vs) as [v|x]; intros s.
  - eapply same_literal_value; [apply Hr|done..].
  - eexists _, _. apply Hr.
Qed.

(** *** Binary literals *)
Lemma same_eval e e' :
  reduced_to e (SOk e') → ∀ s, ((into_owned <$> run e) : run_m locals value) s = (into_owned <$> run e') s.
Proof.
  intros Hr s. destruct (Hr s) as [Hs Hv]. unfold fmap, run_fmap.
  destruct (run e s) as [s1 [c|x]], (run e' s) as [s2 [d|y]]; cbn in *; subst; try done.
  by destruct Hv as [-> _].
Qed.

Lemma eval_error e x :
  reduced_to e (SErr x) → ∀ s, ∃ s' y, ((into_owned <$> run e) : run_m locals value) s = (s', SErr y).
Proof. intros Hr s. destruct (Hr s) as (s' & y & Hy). exists s', y. unfold fmap, run_fmap. by rewrite Hy. Qed.

Lemma parts_reduced ps :
  Forall (λ d, reduced_to d (reduce d)) (part_data <$> ps) →
  match reduce_parts reduce ps with
  | SOk ps' => ∀ w s, bytes_parts imut_run opts en inp ps w s = bytes_parts imut_run opts en inp ps' w s
  | SErr _ => ∀ w s, ∃ s' y, bytes_parts imut_run opts en inp ps w s = (s', SErr y)
  end.
Proof.
  induction ps as [|[d t e bits] ps IH]; [done|]. intros [Hd Hps]%Forall_cons. cbn [part_data] in Hd.
  specialize (IH Hps). cbn [reduce_parts bytes_parts]. unfold mbind at 1, sres_bind at 1.
  destruct (reduce d) as [d'|x].
  - unfold mbind at 1, sres_bind at 1. pose proof (same_eval d d' Hd) as He.
    destruct (reduce_parts reduce ps) as [ps'|y]; intros w s; unfold mbind, run_bind; rewrite He.
    + cbn [bytes_parts]. unfold mbind, run_bind.
      destruct ((into_owned <$> run d') s) as [s' [v|z]]; [|done]. unfold of_res.
      destruct (extend_bytes_from_value t e bits v w); [apply IH|done].
    + destruct ((into_owned <$> run d') s) as [s' [v|z]]; [|by eexists _, _]. unfold of_res.
      destruct (extend_bytes_from_value t e bits v w); [apply IH|by eexists _, _].
  - intros w s. unfold mbind, run_bind. destruct (eval_error d x Hd s) as (s' & y & ->). by eexists _, _.
Qed.

Lemma literal_parts_run ps qs w s :
  mapM literal_part ps = Some qs → bytes_parts imut_run opts en inp ps w s = (s, write_parts qs w).
Proof.
  revert qs w s. induction ps as [|[d t e bits] ps IH]; intros qs w s Hm; [by injection Hm as <-|].
  cbn [mapM] in Hm. destruct d; try done. cbn in Hm. destruct (mapM literal_part ps) as [rs|]; [|done].
  injection Hm as <-. cbn [bytes_parts write_parts]. unfold mbind, run_bind, sres_bind, fmap, run_fmap, of_res.
  rewrite run_literal. cbn [into_owned]. destruct (extend_bytes_from_value t e bits v w); [|done]. by apply IH.
Qed.

Lemma bytes_reduced ps :
  Forall (λ d, reduced_to d (reduce d)) (part_data <$> ps) → reduced_to (IBytes ps) (bytes_reduce reduce ps).
Proof.
  intros Hps%parts_reduced. unfold bytes_reduce.
  assert (∀ ps s, run (IBytes ps) s =
    ((λ w, Owned (VBytes (finish_bytes w))) <$> bytes_parts imut_run opts en inp ps (BitWriter [] 0 0)) s) as Hrun by done.
  unfold mbind, sres_bind. destruct (reduce_parts reduce ps) as [ps'|x].
  2: { intros s. destruct (Hps (BitWriter [] 0 0) s) as (s' & y & Hy). exists s', y. rewrite Hrun. unfold fmap, run_fmap. by rewrite Hy. }
  destruct (mapM literal_part ps') as [qs|] eqn:Hm.
  - pose proof (λ w s, eq_trans (Hps w s) (literal_parts_run ps' qs w s Hm)) as Hw.
    unfold reduced_to, fmap, sres_fmap. destruct (write_parts qs (BitWriter [] 0 0)) as [w|x] eqn:Hq; intros s.
    + apply (same_literal_value _ s (Owned (VBytes (finish_bytes w)))); [|done..].
      rewrite Hrun. unfold fmap, run_fmap. by rewrite Hw, Hq.
    + eexists _, _. rewrite Hrun. unfold fmap, run_fmap. by rewrite Hw, Hq.
  - intros s. rewrite !Hrun. unfold fmap, run_fmap. rewrite Hps. apply same_value_refl.
Qed.

(** *** Paths *)
Lemma into_value_reduced e v :
  reduced_to e (reduce e) → try_reduce_into_value reduce e = Some v → reduced_to e (SOk (ILiteral v)).
Proof.
  unfold try_reduce_into_value. intros Hr Hv. destruct (reduce e) as [e'|]; [|done].
  destruct e'; try done. by injection Hv as ->.
Qed.

Lemma index_reduced e v a s :
  reduced_to e (SOk (ILiteral v)) → eval_to_index imut_run opts en inp e a s = (s, value_to_index v a).
Proof. intros Hr. unfold eval_to_index, mbind, run_bind. by rewrite (eval_to_literal e v s Hr). Qed.

Lemma segment_reduced sg c :
  Forall (λ d, reduced_to d (reduce d)) (range_exprs sg) →
  match reduce_segment reduce sg c with
  | SOk (Some c') => ∀ s, resolve_segment imut_run opts en inp sg c s = (s, SOk c')
  | SOk None => True
  | SErr _ => ∀ s, ∃ s' y, resolve_segment imut_run opts en inp sg c s = (s', SErr y)
  end.
Proof.
  intros Hr. destruct sg as [key|idx|e|a b]; cbn [reduce_segment resolve_segment].
  - destruct (key_lookup key c.1) as [v|]; [done|]. destruct (is_object c.1); intros s; by eexists _, _.
  - destruct c.1; try (intros s'; by eexists _, _). destruct (get_idx (selected c l) idx); [done|]. intros s. by eexists _, _.
  - done.
  - cbn [range_exprs] in Hr. apply Forall_cons in Hr as [Ha [Hb _]%Forall_cons].
    destruct c.1 as [| |l| |]; try (intros s'; by eexists _, _).
    destruct (try_reduce_into_value reduce a) as [va|] eqn:Hva; [|done].
    destruct (try_reduce_into_value reduce b) as [vb|] eqn:Hvb; [|done].
    pose proof (λ arr s, index_reduced a va arr s (into_value_reduced a va Ha Hva)) as Hia.
    pose proof (λ arr s, index_reduced b vb arr s (into_value_reduced b vb Hb Hvb)) as Hib.
    unfold mbind, sres_bind, run_bind.
    destruct (as_usize va) as [na|] eqn:Hna; cbn [some_or].
    2: { intros s. rewrite Hia. unfold value_to_index. rewrite Hna. destruct (is_i64 va); by eexists _, _. }
    assert (∀ arr, value_to_index va arr = SOk na) as Hna' by (intros; unfold value_to_index; by rewrite Hna).
    destruct (as_usize vb) as [nb|] eqn:Hnb; cbn [some_or].
    2: { intros s. rewrite Hia, Hna', Hib. unfold value_to_index. rewrite Hnb. destruct (is_i64 vb); by eexists _, _. }
    assert (∀ arr, value_to_index vb arr = SOk nb) as Hnb' by (intros; unfold value_to_index; by rewrite Hnb).
    destruct (nb <? na)%N eqn:H1; [intros s; rewrite Hia, Hna', Hib, Hnb', H1; by eexists _, _|].
    cbn [selected]. destruct (N.of_nat (length (selected c l)) <? nb)%N eqn:H2; intros s; rewrite Hia, Hna', Hib, Hnb', H1, H2; [by eexists _, _|done].
Qed.

Lemma segments_reduced ss c :
  Forall (λ d, reduced_to d (reduce d)) (ss ≫= range_exprs) →
  match reduce_segments reduce ss c with
  | SOk (Some c') => ∀ s, resolve_segments imut_run opts en inp ss c s = (s, SOk c')
  | SOk None => True
  | SErr _ => ∀ s, ∃ s' y, resolve_segments imut_run opts en inp ss c s = (s', SErr y)
  end.
Proof.
  revert c. induction ss as [|sg ss IH]; intros c Hr; [done|].
  cbn [mbind list_bind] in Hr. apply Forall_app in Hr as [Hsg Hss]. pose proof (segment_reduced sg c Hsg) as Hg.
  cbn [reduce_segments resolve_segments]. unfold mbind, sres_bind.
  destruct (reduce_segment reduce sg c) as [[c'|]|x]; [|done|].
  - specialize (IH c' Hss). destruct (reduce_segments reduce ss c') as [[c''|]|y]; [|done|]; intros s;
      unfold run_bind; rewrite Hg; apply IH.
  - intros s. unfold run_bind. destruct (Hg s) as (s' & y & ->). by eexists _, _.
Qed.

Lemma path_reduced p :
  buildable_here (IPath p) → Forall (λ d, reduced_to d (reduce d)) (reduced_with (IPath p)) →
  reduced_to (IPath p) (path_reduce consts reduce p).
Proof.
  intros Hb Hr. destruct p as [idx [] [|sg ss]| | | | |e var ss| | |]; try (intros s; apply same_value_refl).
  - destruct Hb as [v Hv]. cbn [path_reduce]. rewrite Hv. intros s.
    apply (same_literal_value _ s (Borrowed v)); [|done..].
    rewrite imut_run_step. cbn [imut_step]. unfold resolve, path_base, resolve_value, mbind, run_bind, fmap, run_fmap, of_res.
    by rewrite (Hconsts idx v Hv).
  - destruct e; try (intros ?; apply same_value_refl). cbn [reduced_with] in Hr.
    pose proof (segments_reduced ss (v, None) Hr) as Hss. cbn [path_reduce].
    assert (∀ s, run (IPath (ExprPath (ILiteral v) var ss)) s =
      (c ← resolve_segments imut_run opts en inp ss (v, None);
       mret (match c with (_, Some range) => Owned (VArray range) | (v, None) => Borrowed v end)) s) as Hrun by done.
    unfold mbind, sres_bind. destruct (reduce_segments reduce ss (v, None)) as [[[x [r|]]|]|y]; intros s.
    + apply (same_literal_value _ s (Owned (VArray r))); [|done..]. rewrite Hrun. unfold mbind, run_bind. by rewrite Hss.
    + apply (same_literal_value _ s (Borrowed x)); [|done..]. rewrite Hrun. unfold mbind, run_bind. by rewrite Hss.
    + apply same_value_refl.
    + rewrite Hrun. unfold mbind, run_bind. destruct (Hss s) as (s' & z & ->). by eexists _, _.
Qed.

Lemma foldable_reduced e : foldable e → reduced_to e (reduce e).
Proof.
  revert e. apply foldable_induction. intros e Hb Hr. rewrite try_reduce_step.
  destruct e; try (intros ?; apply same_value_refl); cbn [reduce_step].
  - destruct Hb as [-> Hl]. by apply record_reduced.
  - apply list_reduced.
  - apply binary_reduced.
  - apply unary_reduced.
  - by apply path_reduced.
  - apply string_reduced.
  - destruct i as [f [|a [|b args]]]; try by destruct Hb. apply (invoke_reduced _ 1 Hb).
  - destruct i as [f [|a [|b [|c args]]]]; try by destruct Hb. apply (invoke_reduced _ 2 Hb).
  - destruct i as [f [|a [|b [|c [|d args]]]]]; try by destruct Hb. apply (invoke_reduced _ 3 Hb).
  - destruct i as [f args]. destruct Hb as [Hc Hlen].
    replace (IInvoke (Invoke f args)) with (call_of (Invoke f args)).
    + apply (invoke_reduced _ (length args) Hc).
    + destruct args as [|a [|b [|c [|d args]]]]; cbn in *; (done || lia).
  - by apply bytes_reduced.
Qed.

(** C22: Constant folding does not change what an expression does: the reduced
    expression has the same value or the same error as the expression, and
    leaves the same local variables; where reducing fails, so that the script
    is refused, running the expression always fails too.  Expressions are
    folded as the analysis makes them, before any folding: records have no base
    yet and their literal fields come first (a record that was folded before
    loses its base when it is folded again, [base_forgotten]), calls have the
    number of arguments of their kind and no constant function of the script,
    constants exist, and constant functions do not look at the event context. *)
Theorem try_reduce_sound e :
  foldable e →
  match try_reduce consts limit e with
  | SOk e' => ∀ s, same_value (imut_run opts en inp e s) (imut_run opts en inp e' s)
  | SErr _ => ∀ s, ∃ s' err, imut_run opts en inp e s = (s', SErr err)
  end.
Proof. apply foldable_reduced. Qed.
End sound.

(** ** Inlining *)
Section inline.
Context `{!script_lib, !value_trait, !hash_order string}.

(** The call that is the whole body of a function. *)
Definition body_call (body : list expr) : option invoke :=
  match body with
  | [EImut (IInvoke1 i | IInvoke2 i | IInvoke3 i | IInvoke i)] => Some i
  | _ => None
  end.

(** The first local variables, in order. *)
Fixpoint locals_from (idx : N) (args : list imut_expr) : bool :=
  match args with
  | [] => true
  | ILocal i _ :: args => (i =? idx)%N && locals_from (idx + 1) args
  | _ => false
  end.

Definition can_inline (f : custom_fn) : bool :=
  match f with
  | CustomFn body _ _ _ inline =>
    if negb (length body =? 1)%nat then false
    else if inline : bool then true
    else match body_call body with
         | Some (Invoke _ args) => locals_from 0 args
         | None => false
         end
  end.

Definition inline (f : custom_fn) (argv : list imut_expr) : sres imut_expr :=
  match f with
  | CustomFn body n _ _ _ =>
    if negb (length body =? 1)%nat then SErr (ScriptMsg "can't inline: too large body")
    else match body_call body with
         | Some (Invoke g gargs) =>
           if negb (N.of_nat (length gargs) =? n)%N then SErr (ScriptMsg "can't inline: different argc")
           else SOk (call_of (Invoke g argv))
         | None => SErr (ScriptMsg "can't inline: bad expression")
         end
  end.

(** A call, inlined if that is possible and reduced. *)
Definition build_call (consts : list value) (limit : N) (i : invoke) : sres imut_expr :=
  match i with
  | Invoke f argv =>
    e ← match f with
        | Tremor f' => if can_inline f' then inline f' argv else SOk (call_of i)
        | Intrinsic _ => SOk (call_of i)
        end;
    try_reduce consts limit e
  end.

(** *** An inlined call *)
Lemma call_of_call i : ∃ j, body_call [EImut (call_of i)] = Some j ∧ j = i.
Proof. exists i. split; [|done]. by destruct i as [f [|a [|b [|c [|d args]]]]]. Qed.

Lemma locals_run opts en inp gargs k vs (l : locals) :
  locals_from (N.of_nat k) gargs = true → Forall (λ a, ∀ i, a ≠ ILocal i true) gargs →
  length gargs = length vs → (∀ j v, vs !! j = Some v → l !! (k + j)%nat = Some (Some v)) →
  list_elements imut_run opts en inp gargs l = (l, SOk vs).
Proof.
  revert k vs. induction gargs as [|a gargs IH]; intros k [|v vs] Hl Hc Hlen Hlk; try done.
  cbn [locals_from] in Hl. destruct a; try done. apply andb_true_iff in Hl as [Hi Hl]. apply N.eqb_eq in Hi as ->.
  apply Forall_cons in Hc as [Hc Hcs]. destruct is_const; [by destruct (Hc (N.of_nat k))|].
  pose proof (Hlk 0 v eq_refl) as Hv. rewrite Nat.add_0_r in Hv.
  cbn [list_elements]. unfold mbind, run_bind, fmap, run_fmap.
  assert (imut_run opts en inp (ILocal (N.of_nat k) false) l = (l, SOk (Borrowed v))) as ->.
  { rewrite imut_run_step. cbn [imut_step]. unfold local_get, get_idx, mbind, run_bind, read, of_res.
    pose proof (lookup_lt_Some _ _ _ Hv). replace (N.of_nat k <? N.of_nat (length l))%N with true
      by (symmetry; apply N.ltb_lt; lia). by rewrite Nat2N.id, Hv. }
  replace (N.of_nat k + 1)%N with (N.of_nat (Datatypes.S k)) in Hl by lia.
  rewrite (IH (Datatypes.S k) vs Hl Hcs); [done|simpl in Hlen; lia|].
  intros j w Hw. rewrite <-(Hlk (Datatypes.S j) w Hw). f_equal. lia.
Qed.

Lemma fn_locals_lookup size vs j v :
  (length vs <= N.to_nat size)%nat → vs !! j = Some v → fn_locals size vs !! j = Some (Some v).
Proof.
  intros Hlen Hj. unfold fn_locals. rewrite take_ge by done. apply lookup_app_l_Some.
  by rewrite list_lookup_fmap, Hj.
Qed.

(** Functions that pass their arguments on. *)
Lemma forward_invoke en g gargs n size c i vs :
  locals_from 0 gargs = true → Forall (λ a, ∀ i, a ≠ ILocal i true) gargs →
  length gargs = length vs → (length vs <= N.to_nat size)%nat →
  fn_invoke en (CustomFn [EImut (call_of (Invoke g gargs))] n size c i) vs = invoke_invocable fn_invoke en g vs.
Proof.
  intros Hl Hc Hlen Hsize. rewrite fn_invoke_step. cbn [custom_invoke].
  set (en' := Env _ _ _ _ _ _ _).
  assert (invoke_invocable fn_invoke en' g vs = invoke_invocable fn_invoke en g vs) as Hinv.
  { destruct g as [f|g]; [done|]. cbn [invoke_invocable]. by rewrite !fn_invoke_step; destruct g. }
  assert (∃ k, recur_bound (recursion_limit en) = Datatypes.S k) as [k ->].
  { unfold recur_bound. destruct (N.eqb_spec (recursion_limit en) 0).
    - exists (Nat.pred (N.to_nat 4294967296)). lia.
    - exists (Nat.pred (N.to_nat (recursion_limit en))). lia. }
  cbn [fn_loop run_body]. rewrite expr_run_step. cbn [expr_step result_needed].
  unfold fmap, run_fmap, mbind, run_bind, immutably, fn_store. cbn [s_local s_event s_state s_meta].
  rewrite call_of_run. unfold mbind, run_bind.
  rewrite (locals_run _ _ _ gargs 0 vs) by (done || (intros; by apply fn_locals_lookup)).
  unfold fmap, run_fmap, of_res. rewrite Hinv. by destruct (invoke_invocable fn_invoke en g vs).
Qed.

Lemma length_list_run opts en inp es s s' vs :
  list_elements imut_run opts en inp es s = (s', SOk vs) → length vs = length es.
Proof.
  revert s vs. induction es as [|e es IH]; intros s vs; cbn [list_elements]; [by intros [= _ <-]|].
  unfold mbind, run_bind. destruct ((into_owned <$> imut_run opts en inp e) s) as [s1 [v|]]; [|done].
  destruct (list_elements imut_run opts en inp es s1) as [s2 [ws|]] eqn:Hes; [|done].
  intros [= -> <-]. simpl. f_equal. by eapply IH.
Qed.

(** C23: A call of a function whose body only passes the arguments on, in their
    order, may be replaced by the call in the body, if it has as many arguments
    as the function has parameters: it then has the same value, the same error
    and the same effects, whatever the recursion limit.  That the arguments are
    passed on is what the code checks of a function that is not marked to be
    inlined; it is asked for here of one that is, which the parser only does for
    intrinsic functions, whose body it makes so.  The number of
    arguments of a call is not checked when a script is built: with more of
    them, the inlined call passes on more than the function does
    ([inline_more_arguments]). *)
Theorem inline_sound opts en inp g gargs n size c marked argv e s :
  let f := CustomFn [EImut (call_of (Invoke g gargs))] n size c marked in
  can_inline f = true → (marked = true → locals_from 0 gargs = true) →
  Forall (λ a, ∀ i, a ≠ ILocal i true) gargs →
  N.of_nat (length argv) = n → (n <= size)%N →
  inline f argv = SOk e →
  imut_run opts en inp (call_of (Invoke (Tremor f) argv)) s = imut_run opts en inp e s.
Proof.
  intros f Hcan Hmarked Hc Hargs Hsize Hin. destruct (call_of_call (Invoke g gargs)) as (j & Hj & ->).
  assert (locals_from 0 gargs = true) as Hl.
  { destruct marked; [by apply Hmarked|]. unfold f, can_inline in Hcan. rewrite Hj in Hcan. exact Hcan. }
  unfold f in *. unfold inline in Hin. rewrite Hj in Hin.
  cbn [length Nat.eqb negb] in Hin.
  destruct (N.eqb_spec (N.of_nat (length gargs)) n) as [Hlen|]; cbn [negb] in Hin; [|done].
  assert (e = call_of (Invoke g argv)) as -> by congruence.
  rewrite !call_of_run. unfold mbind, run_bind.
  destruct (list_elements imut_run opts en inp argv s) as [s' [vs|x]] eqn:Hvs; [|done].
  apply length_list_run in Hvs. cbn [invoke_invocable].
  by rewrite forward_invoke by (done || lia).
Qed.
End inline.

Module FoldExample.
#[local] Existing Instance some_lib.
#[local] Existing Instance simd_value_trait.
#[local] Instance hash_order_example : hash_order string := some_order string.

Definition num (n : N) : imut_expr := ILiteral (from_u64 n).
Definition name (s : string) : string_lit := StringLit [SLit s].
Definition en : env := Env tt [] const_null const_null const_null [] 5.
Definition on (event : value) : inputs := Inputs event const_null value_object.
Definition run (event : value) (e : imut_expr) : sres value :=
  into_owned <$> (imut_run (ExecOpts true Tick) en (on event) e []).2.

(** [{"a": [1, 2, 3]}.a[1:2 + 1]] *)
Definition sliced : imut_expr :=
  IPath (ExprPath (ILiteral (VObject {["a" := VArray [from_u64 1; from_u64 2; from_u64 3]]})) 0
           [SegId "a"; SegRange (num 1) (IBinary Add (num 2) (num 1))]).

Example sliced_reduced : try_reduce [] 5 sliced = SOk (ILiteral (VArray [from_u64 2; from_u64 3])).
Proof. by vm_compute. Qed.

Lemma try_reduce_sound_witness :
  foldable [] sliced ∧
  match try_reduce [] 5 sliced with
  | SOk e' => ∀ s, same_value (imut_run (ExecOpts true Tick) en (on const_null) sliced s)
                              (imut_run (ExecOpts true Tick) en (on const_null) e' s)
  | SErr _ => ∀ s, ∃ s' err, imut_run (ExecOpts true Tick) en (on const_null) sliced s = (s', SErr err)
  end.
Proof.
  assert (foldable [] sliced) as Hf.
  { constructor; [done|]. repeat constructor. }
  split; [exact Hf|]. apply try_reduce_sound; [by intros []|done|exact Hf].
Defined.

(** [fn pair(x, y) with concat(x, y)], where [concat] makes a list. *)
Definition concat : invocable := Intrinsic (λ argv, IoOk (VArray argv)).
Definition pair_fn : custom_fn :=
  CustomFn [EImut (call_of (Invoke concat [ILocal 0 false; ILocal 1 false]))] 2 2 false false.

Lemma inline_sound_witness :
  can_inline pair_fn = true ∧
  ∀ event s,
    imut_run (ExecOpts true Tick) en (on event) (call_of (Invoke (Tremor pair_fn) [num 1; IPath (EventPath [])])) s =
    imut_run (ExecOpts true Tick) en (on event) (call_of (Invoke concat [num 1; IPath (EventPath [])])) s.
Proof.
  split; [reflexivity|]. intros event s.
  apply (inline_sound _ _ _ concat [ILocal 0 false; ILocal 1 false] 2 2 false false);
    [reflexivity|done| |reflexivity|done|reflexivity].
  repeat constructor; done.
Defined.

(** A call with an argument too many. *)
Example inline_more_arguments :
  let f := CustomFn [EImut (call_of (Invoke concat [ILocal 0 false]))] 1 1 false false in
  let call := Invoke (Tremor f) [num 1; num 2] in
  can_inline f = true ∧
  run const_null (call_of call) = SOk (VArray [from_u64 1]) ∧
  (e ← inline f [num 1; num 2]; run const_null e) = SOk (VArray [from_u64 1; from_u64 2]).
Proof. split_and!; by vm_compute. Qed.

(** A function that does not use its last argument can be inlined, but
    inlining it is an error. *)
Example unused_argument_refused :
  let f := CustomFn [EImut (IInvoke1 (Invoke concat [ILocal 0 false]))] 2 2 false false in
  can_inline f = true ∧
  build_call [] 5 (Invoke (Tremor f) [num 1; num 2]) = SErr (ScriptMsg "can't inline: different argc") ∧
  run const_null (call_of (Invoke (Tremor f) [num 1; num 2])) = SOk (VArray [from_u64 1]).
Proof. split_and!; by vm_compute. Qed.

(** A literal field moves in front of a field whose name is computed. *)
Example literal_field_moves :
  let e := IRecord ∅ [Field (StringLit [SExpr (IPath (EventPath []))]) (num 1); Field (name "a") (num 2)] in
  let event := VString "a" in
  run event e = SOk (VObject {["a" := from_u64 2]}) ∧
  (e' ← try_reduce [] 5 e; run event e') = SOk (VObject {["a" := from_u64 1]}).
Proof. split; by vm_compute. Qed.

(** Reducing a record a second time forgets the base it has. *)
Example base_forgotten :
  let e := IRecord ∅ [Field (name "a") (num 2); Field (name "b") (IPath (EventPath []))] in
  run const_null e = SOk (VObject {["a" := from_u64 2; "b" := const_null]}) ∧
  (e' ← try_reduce [] 5 e; e' ← try_reduce [] 5 e'; run const_null e') = SOk (VObject {["b" := const_null]}).
Proof. split; by vm_compute. Qed.
End FoldExample.
