(* ===== verification/ScriptGroup.v ===== *)
(** The groups of an event: [GroupBy::generate_groups] of
    tremor-script/src/interpreter.rs. *)
From S2P Require Import Prelude Value ValueOrd ScriptOps Bits Ast Interp.

Section group_by.
Context `{!script_lib, !value_trait, !hash_order string}.

(** [GroupByInt] *)
Inductive group_by :=
  | GroupExpr (e : imut_expr)
  | GroupSet (items : list group_by)
  | GroupEach (e : imut_expr).

Section run.
Variables (ctx : event_context) (limit : N) (event meta : value).

(** Expressions run without constants, without aggregates, without state and
    with an empty stack of local variables. *)
Definition group_run (e : imut_expr) : sres value :=
  into_owned <$>
    (imut_run (ExecOpts true EmitAggr) (Env ctx [] const_null const_null const_null [] limit)
       (Inputs event const_null meta) e (with_size 0)).2.

Definition add_expr (v : value) (groups : list (list value)) : list (list value) :=
  match groups with [] => [[v]] | _ => (λ g, g ++ [v]) <$> groups end.

(** Every group is continued with each element. *)
Definition add_each (each : list value) (groups : list (list value)) : list (list value) :=
  match groups with
  | [] => (λ e, [e]) <$> each
  | _ => groups ≫= λ g, (λ e, g ++ [e]) <$> each
  end.

(** The items of a set, one after the other. *)
Section items.
Context {A : Type} (f : group_by → A → sres A).
Fixpoint thread (items : list group_by) (a : A) : sres A :=
  match items with [] => SOk a | g :: items => a ← f g a; thread items a end.
End items.

Fixpoint add_groups (g : group_by) (groups : list (list value)) : sres (list (list value)) :=
  match g with
  | GroupExpr e => v ← group_run e; SOk (add_expr v groups)
  | GroupSet items => thread add_groups items groups
  | GroupEach e =>
    v ← group_run e;
    match v with
    | VArray each => SOk (add_each each groups)
    | v => SErr (NeedArr (type_of v))
    end
  end.

(** [GroupBy::generate_groups] *)
Definition generate_groups (g : group_by) : sres (list (list value)) := add_groups g [].

(** ** The product of the dimensions

    What the parts of a group by contribute, from left to right. *)
Fixpoint dimensions (g : group_by) (ds : list (list value)) : sres (list (list value)) :=
  match g with
  | GroupExpr e => v ← group_run e; SOk (ds ++ [[v]])
  | GroupSet items => thread dimensions items ds
  | GroupEach e =>
    v ← group_run e;
    match v with VArray each => SOk (ds ++ [each]) | v => SErr (NeedArr (type_of v)) end
  end.

(** One value of each dimension, the last one changing first. *)
Fixpoint product (ds : list (list value)) : list (list value) :=
  match ds with [] => [[]] | d :: ds => d ≫= λ v, (v ::.) <$> product ds end.

Definition extend (groups : list (list value)) (ds : list (list value)) : list (list value) :=
  groups ≫= λ g, app g <$> product ds.

(** A dimension without values, an [each] on an empty array, leaves no group,
    and no group is what grouping starts from: only the dimensions since the
    last empty one count. *)
Definition since_empty (ds : list (list value)) : list (list value) :=
  foldl (λ acc d, match d with [] => [] | _ => acc ++ [d] end) [] ds.

(** What has been made of the dimensions so far. *)
Definition groups_of (ds : list (list value)) : list (list value) :=
  match since_empty ds with [] => [] | ds => product ds end.

Lemma product_app ds es : product (ds ++ es) = extend (product ds) es.
Proof.
  unfold extend. induction ds as [|d ds IH]; cbn [app product].
  - cbn. rewrite app_nil_r. by rewrite list_fmap_id.
  - induction d as [|v d IHd]; [done|]. cbn. rewrite bind_app, IHd. f_equal. rewrite IH. clear.
    induction (product ds) as [|g gs IHg]; [done|]. cbn. rewrite fmap_app, IHg. f_equal.
    rewrite <-list_fmap_compose. done.
Qed.

Definition non_empty (d : list value) : Prop := d ≠ [].

Lemma product_non_empty ds : Forall non_empty ds → product ds ≠ [].
Proof.
  induction 1 as [|d ds Hd _ IH]; [done|]. cbn. destruct d as [|v d]; [done|].
  by destruct (product ds).
Qed.

Lemma extend_single groups d : extend groups [d] = groups ≫= λ g, (λ e, g ++ [e]) <$> d.
Proof.
  unfold extend. assert (product [d] = (λ v, [v]) <$> d) as ->.
  { cbn. induction d as [|v d IH]; [done|]. cbn. by rewrite IH. }
  induction groups as [|g gs IH]; [done|]. cbn. rewrite IH. f_equal. by rewrite <-list_fmap_compose.
Qed.

Lemma since_empty_snoc ds d :
  since_empty (ds ++ [d]) = match d with [] => [] | _ => since_empty ds ++ [d] end.
Proof. unfold since_empty. by rewrite foldl_app. Qed.
Lemma since_empty_non_empty ds : Forall non_empty (since_empty ds).
Proof.
  induction ds as [|d ds IH] using rev_ind; [constructor|]. rewrite since_empty_snoc.
  destruct d; [constructor|]. apply Forall_app. split; [done|by constructor].
Qed.
Lemma since_empty_id ds : Forall non_empty ds → since_empty ds = ds.
Proof.
  induction ds as [|d ds IH] using rev_ind; [done|]. intros [Hds Hd%(proj1 (Forall_singleton _ _))]%Forall_app.
  rewrite since_empty_snoc, IH by done. by destruct d.
Qed.

Lemma add_each_ok d ds : add_each d (groups_of ds) = groups_of (ds ++ [d]).
Proof.
  unfold groups_of. rewrite since_empty_snoc. pose proof (since_empty_non_empty ds) as Hds.
  destruct d as [|v d].
  { destruct (since_empty ds) as [|e es]; [done|]. unfold add_each. destruct (product (e :: es)) as [|g gs]; [done|].
    generalize (g :: gs). by induction l. }
  generalize (v :: d). clear v d. intros d. destruct (since_empty ds) as [|e es].
  - cbn. clear. induction d as [|v d IH]; [done|]. cbn. by rewrite IH.
  - change (match (e :: es) ++ [d] with [] => [] | ds => product ds end) with (product ((e :: es) ++ [d])).
    rewrite product_app, extend_single. unfold add_each.
    destruct (product (e :: es)) eqn:Hp; [by destruct (product_non_empty (e :: es) Hds)|done].
Qed.

Lemma add_expr_each v groups : add_expr v groups = add_each [v] groups.
Proof.
  destruct groups as [|g gs]; [done|]. unfold add_expr, add_each.
  generalize (g :: gs). induction l as [|h l IH]; [done|]. cbn. by rewrite IH.
Qed.

Section induction.
Variable P : group_by → Prop.
Hypothesis Hexpr : ∀ e, P (GroupExpr e).
Hypothesis Heach : ∀ e, P (GroupEach e).
Hypothesis Hset : ∀ items, Forall P items → P (GroupSet items).

Fixpoint group_by_nested (g : group_by) : P g :=
  match g with
  | GroupExpr e => Hexpr e
  | GroupEach e => Heach e
  | GroupSet items =>
    Hset items ((fix go (items : list group_by) : Forall P items :=
                   match items with
                   | [] => Forall_nil_2 P
                   | g :: items => Forall_cons_2 P g items (group_by_nested g) (go items)
                   end) items)
  end.
End induction.

(** Adding to groups that are a product adds to the product. *)
Definition adds (f : list (list value) → sres (list (list value)))
    (dims : list (list value) → sres (list (list value))) : Prop :=
  ∀ ds, match dims ds with
        | SOk ds' => (∃ more, ds' = ds ++ more) ∧ (∀ groups, ∃ groups', f groups = SOk groups') ∧
            f (groups_of ds) = SOk (groups_of ds')
        | SErr x => ∀ groups, f groups = SErr x
        end.

Lemma add_groups_ok g : adds (add_groups g) (dimensions g).
Proof.
  revert g. apply (group_by_nested (λ g, adds (add_groups g) (dimensions g))).
  - intros e ds. cbn. unfold mbind, sres_bind. destruct (group_run e) as [v|x]; [|done].
    split_and!; [by eexists|by eexists|]. by rewrite add_expr_each, add_each_ok.
  - intros e ds. cbn. unfold mbind, sres_bind. destruct (group_run e) as [[]|x]; try done.
    split_and!; [by eexists|by eexists|]. by rewrite add_each_ok.
  - intros items Hitems. cbn. induction Hitems as [|g items Hg _ IH]; intros ds.
    { cbn. split_and!; [by exists []; rewrite app_nil_r|by eexists|done]. }
    cbn. unfold mbind, sres_bind. specialize (Hg ds). destruct (dimensions g ds) as [d|x].
    2: { intros groups. by rewrite Hg. }
    destruct Hg as ([m ->] & Htot & Hok). specialize (IH (ds ++ m)).
    destruct (thread dimensions items (ds ++ m)) as [d|x].
    + destruct IH as ([m' ->] & Htot' & Hok'). split_and!.
      * exists (m ++ m'). by rewrite app_assoc.
      * intros groups. destruct (Htot groups) as [groups' ->]. apply Htot'.
      * by rewrite Hok.
    + intros groups. destruct (Htot groups) as [groups' ->]. apply IH.
Qed.

End run.
End group_by.

Module GroupExample.
#[local] Existing Instance some_lib.
#[local] Existing Instance simd_value_trait.
#[local] Instance hash_order_example : hash_order string := some_order string.

Definition lit (l : list N) : imut_expr := ILiteral (VArray (from_u64 <$> l)).
Definition nums (gs : list (list N)) : list (list value) := (λ g : list N, from_u64 <$> g) <$> gs.
Definition groups (g : group_by) : sres (list (list value)) := generate_groups tt 5 const_null value_object g.

(** The comment of the code has the first dimension change first. *)
Example two_dimensions :
  groups (GroupSet [GroupEach (lit [1; 2]%N); GroupEach (lit [7; 8]%N)]) =
  SOk (nums [[1; 7]; [1; 8]; [2; 7]; [2; 8]]%N).
Proof. by vm_compute. Qed.

(** An [each] without elements is no dimension with no values: what follows
    it starts anew. *)
Example empty_each :
  groups (GroupSet [GroupEach (lit []); GroupEach (lit [7; 8]%N)]) =
  SOk (nums [[7]; [8]]%N).
Proof. by vm_compute. Qed.

Example no_local_variables :
  groups (GroupExpr (IPath (ExprPath (IList [ILiteral const_null]) 0 [SegIdx 0]))) = SErr (Oops 0xdead0006).
Proof. by vm_compute. Qed.
End GroupExample.
