(* ===== verification/Token.v ===== *)
(** Characters, locations in a source and the tokens of the script language,
    with how they are printed (tremor-script/src/pos.rs, lexer.rs).

    A source is the list of its characters, numbers of Unicode code points;
    locations count bytes of its UTF-8 encoding, as the code does. *)
From Stdlib Require Import Ascii.
From S2P Require Import Prelude Value ValueOrd ScriptOps Text.

Definition ch (a : ascii) : N := N_of_ascii a.
Definition NL : N := 10.
Definition DQUOTE : N := 34.

(** A text of the code, in ASCII. *)
Definition txt (s : string) : list N := as_bytes s.

(** ** Libraries

    [unicode_xid] tells which characters make identifiers; of the printing of
    strings as JSON only the escapes matter: [escape_of c e] says that the
    characters [e] after a backslash stand for [c]. *)
Definition is_alpha (c : N) : bool := ((65 <=? c) && (c <=? 90) || (97 <=? c) && (c <=? 122))%N.
Definition is_dec_digit (c : N) : bool := ((48 <=? c) && (c <=? 57))%N.
Definition is_hex (c : N) : bool :=
  is_dec_digit c || ((65 <=? c) && (c <=? 70))%N || ((97 <=? c) && (c <=? 102))%N.
Definition hex_value (c : N) : N :=
  if is_dec_digit c then (c - 48)%N else if (c <=? 70)%N then (c - 55)%N else (c - 87)%N.

Definition hex_number (s : list N) : N := foldl (λ n c, 16 * n + hex_value c)%N 0%N s.

Definition short_escapes : list (N * N) :=
  [(DQUOTE, DQUOTE); (ch "\", ch "\"); (ch "/", ch "/"); (ch "b", 8%N); (ch "f", 12%N); (ch "n", 10%N);
   (ch "r", 13%N); (ch "t", 9%N)].
Definition escape_of (c : N) (e : list N) : Prop :=
  (∃ x, e = [x] ∧ (x, c) ∈ short_escapes) ∨
  (∃ ds, e = ch "u" :: ds ∧ length ds = 4 ∧ forallb is_hex ds = true ∧ hex_number ds = c).

(** What JSON wants escaped. *)
Definition json_plain (c : N) : bool := (32 <=? c)%N && negb (c =? DQUOTE)%N && negb (c =? ch "\")%N.

(** The syntax of the exponent of a float, as [f64::from_str] takes it. *)
Definition exponent_ok (s : list N) : Prop :=
  ∃ sign ds, s = sign ++ ds ∧ (sign = [] ∨ sign = [ch "+"] ∨ sign = [ch "-"]) ∧ ds ≠ [] ∧ forallb is_dec_digit ds = true.
Definition mantissa_char (c : N) : bool := is_dec_digit c || (c =? ch "-")%N || (c =? ch ".")%N.

Class lexer_libs := {
  xid_start : N → bool;
  xid_continue : N → bool;
  encode_char : N → list N;
  read_f64 : list N → option f64;

  xid_start_ascii c : (c < 128)%N → xid_start c = is_alpha c;
  xid_continue_ascii c : (c < 128)%N → xid_continue c = is_alpha c || is_dec_digit c || (c =? ch "_")%N;
  xid_start_continue c : xid_start c = true → xid_continue c = true;
  encode_plain c : json_plain c = true → encode_char c = [c];
  encode_escaped c : json_plain c = false → ∃ e, encode_char c = ch "\" :: e ∧ escape_of c e;
  read_f64_exponent a b f :
    read_f64 (a ++ ch "e" :: b) = Some f → forallb mantissa_char a = true → exponent_ok b;
}.

(** [char::is_whitespace] *)
Definition is_whitespace (c : N) : bool :=
  bool_decide (c ∈ [9; 10; 11; 12; 13; 32; 133; 160; 5760; 8232; 8233; 8239; 8287; 12288]%N) ||
  ((8192 <=? c) && (c <=? 8202))%N.

(** [char::len_utf8] *)
Definition len_utf8 (c : N) : N :=
  if (c <? 128)%N then 1 else if (c <? 2048)%N then 2 else if (c <? 65536)%N then 3 else 4.
Definition bytes_len (s : list N) : N := foldr (λ c n, len_utf8 c + n)%N 0%N s.

(** ** Locations *)
Record location := Location { unit_id : N; line : N; column : N; absolute : N }.

Definition set_cu (cu : N) (l : location) : location := Location cu (line l) (column l) (absolute l).
(** [Sub]: saturating. *)
Definition loc_sub (l r : location) : location :=
  Location (unit_id l) (line l - line r) (column l - column r) (absolute l - absolute r).
Definition start_of_line (l : location) : location := Location (unit_id l) (line l) 0 (absolute l).
Definition move_up_lines (n : N) (l : location) : location :=
  Location (unit_id l) (line l - n) (column l) (absolute l).
Definition shift (c : N) (l : location) : location :=
  if (c =? NL)%N then Location (unit_id l) (line l + 1) 1 (absolute l + len_utf8 c)
  else Location (unit_id l) (line l) (column l + 1) (absolute l + len_utf8 c).
Definition shift_str (s : list N) (l : location) : location := foldl (λ l c, shift c l) l s.

Record span := Span { span_start : location; span_end : location; pp_start : location; pp_end : location }.

(** ** Tokens *)
Inductive token :=
  | TWhitespace (s : list N) | TNewLine | TSingleLineComment (s : list N) | TModComment (s : list N)
  | TDocComment (s : list N) | TBad (s : list N) | TIdent (s : list N) (quoted : bool) | TDollar | TDot | TNil
  | TBoolLiteral (b : bool) | TIntLiteral (i : Z) | TFloatLiteral (f : f64) (s : list N)
  | TTestLiteral (indent : N) (ss : list (list N)) | THereDocStart | THereDocEnd | THereDocLiteral (s : list N)
  | TDQuote | TStringLiteral (s : list N)
  | TLet | TConst | TMatch | TCase | TOf | TWhen | TEnd | TPatch | TInsert | TUpsert | TUpdate | TErase | TMove
  | TCopy | TMerge | TDrop | TDefault | TEmit | TFor | TEvent | TState | TPresent | TAbsent | TFun | TIntrinsic
  | TModule | TDontCare | TRecur | TBSlash | TComma | TNot | TBitNot | TAnd | TOr | TXor | TBitAnd | TBitXor
  | TEq | TEqEq | TNotEq | TTildeEq | TTilde | TGte | TGt | TLte | TLt | TRBitShiftSigned | TRBitShiftUnsigned
  | TLBitShift | TAdd | TSub | TMul | TDiv | TMod | TColon | TColonColon | TEqArrow | TSemi | TLPatParen
  | TLParen | TRParen | TLBrace | TInterpol | TEscapedHash | TLPatBrace | TRBrace | TLBracket | TLPatBracket
  | TRBracket | TEndOfStream | TSelect | TFrom | TWhere | TWith | TGroup | TBy | THaving | TInto | TCreate
  | TTumbling | TSliding | TWindow | TStream | TOperator | TScript | TSet | TEach | TDefine | TArgs | TUse | TAs
  | TLineDirective (l : location) (file : list N) | TConfigDirective | TSubquery.

Record spanned := Spanned { span_of : span; value_of : token }.

(** [ident_to_token] *)
Definition keywords : list (string * token) :=
  [("intrinsic", TIntrinsic); ("mod", TModule); ("const", TConst); ("let", TLet); ("match", TMatch);
   ("end", TEnd); ("fn", TFun); ("null", TNil); ("case", TCase); ("of", TOf); ("when", TWhen);
   ("default", TDefault); ("patch", TPatch); ("insert", TInsert); ("upsert", TUpsert); ("update", TUpdate);
   ("erase", TErase); ("move", TMove); ("copy", TCopy); ("merge", TMerge); ("for", TFor); ("event", TEvent);
   ("state", TState); ("present", TPresent); ("absent", TAbsent); ("true", TBoolLiteral true);
   ("false", TBoolLiteral false); ("and", TAnd); ("or", TOr); ("xor", TXor); ("not", TNot); ("drop", TDrop);
   ("emit", TEmit); ("select", TSelect); ("from", TFrom); ("where", TWhere); ("with", TWith);
   ("group", TGroup); ("by", TBy); ("having", THaving); ("into", TInto); ("create", TCreate);
   ("tumbling", TTumbling); ("sliding", TSliding); ("window", TWindow); ("stream", TStream);
   ("operator", TOperator); ("script", TScript); ("set", TSet); ("each", TEach); ("define", TDefine);
   ("args", TArgs); ("use", TUse); ("as", TAs); ("recur", TRecur); ("query", TSubquery)]%string.

Fixpoint find_keyword (s : list N) (ks : list (string * token)) : option token :=
  match ks with
  | [] => None
  | (k, t) :: ks => if bool_decide (s = txt k) then Some t else find_keyword s ks
  end.
Definition ident_to_token (s : list N) : token := default (TIdent s false) (find_keyword s keywords).

(** [is_ignorable]: what the parser does not see. *)
Definition is_ignorable (t : token) : bool :=
  match t with TSingleLineComment _ | TWhitespace _ | TNewLine | TLineDirective _ _ => true | _ => false end.

(** ** Printing tokens *)
Section display.
Context `{!lexer_libs}.

(** [Value::from(s).encode()] without its quotes *)
Definition encode_str (s : list N) : list N := s ≫= encode_char.

(** [str::replace] of a character *)
Definition replace (c : N) (by_ s : list N) : list N := s ≫= λ d, if (d =? c)%N then by_ else [d].

Definition test_text (v : list N) : list N := replace (ch "|") (txt "\|") (replace (ch "\") (txt "\\") v).
Fixpoint test_lines (indent : N) (first : bool) (vs : list (list N)) : list N :=
  match vs with
  | [] => []
  | v :: vs =>
    (if first then [] else txt "\" ++ NL :: replicate (N.to_nat indent) (ch " ")) ++ test_text v ++
    test_lines indent false vs
  end.

Definition strip_newline (s : list N) : option (list N) :=
  match last s with Some c => if (c =? NL)%N then Some (removelast s) else None | None => None end.

Definition num (n : N) : list N := decimal n.

(** [fmt::Display for Token] *)
Definition display (t : token) : list N :=
  match t with
  | TWhitespace ws => ws
  | TNewLine => [NL]
  | TIdent name true => txt "`" ++ name ++ txt "`"
  | TIdent name false => name
  | TModComment s => txt "### " ++ s
  | TDocComment s => txt "## " ++ s
  | TSingleLineComment s => txt "# " ++ s
  | TIntLiteral i => write_i64 i
  | TFloatLiteral _ s => s
  | TDQuote => [DQUOTE]
  | TInterpol => txt "#{"
  | TEscapedHash => txt "\#"
  | TStringLiteral s => encode_str s
  | THereDocStart => [DQUOTE; DQUOTE; DQUOTE; NL]
  | THereDocEnd => [DQUOTE; DQUOTE; DQUOTE]
  | THereDocLiteral s =>
    match strip_newline s with Some s => encode_str s ++ [NL] | None => encode_str s end
  | TTestLiteral indent values =>
    txt "|" ++ match values with [v] => test_text v | vs => test_lines indent true vs end ++ txt "|"
  | TBoolLiteral true => txt "true" | TBoolLiteral false => txt "false"
  | TBad s => s
  | TLet => txt "let" | TConst => txt "const" | TMatch => txt "match" | TPatch => txt "patch"
  | TInsert => txt "insert" | TUpsert => txt "upsert" | TUpdate => txt "update" | TErase => txt "erase"
  | TMove => txt "move" | TCopy => txt "copy" | TMerge => txt "merge" | TFor => txt "for"
  | TEvent => txt "event" | TState => txt "state" | TPresent => txt "present" | TAbsent => txt "absent"
  | TDrop => txt "drop" | TEmit => txt "emit" | TFun => txt "fn" | TEnd => txt "end" | TNil => txt "null"
  | TCase => txt "case" | TOf => txt "of" | TWhen => txt "when" | TDefault => txt "default"
  | TIntrinsic => txt "intrinsic" | TModule => txt "mod" | TBSlash => txt "\" | TColon => txt ":"
  | TColonColon => txt "::" | TComma => txt "," | TDot => txt "." | TDollar => txt "$" | TNot => txt "not"
  | TBitNot => txt "!" | TDontCare => txt "_" | TEqArrow => txt "=>" | TSemi => txt ";"
  | TLPatParen => txt "%(" | TLParen => txt "(" | TRParen => txt ")" | TLPatBrace => txt "%{"
  | TLBrace => txt "{" | TRBrace => txt "}" | TLBracket => txt "[" | TLPatBracket => txt "%["
  | TRBracket => txt "]" | TAnd => txt "and" | TOr => txt "or" | TXor => txt "xor" | TBitAnd => txt "&"
  | TBitXor => txt "^" | TEq => txt "=" | TEqEq => txt "==" | TNotEq => txt "!=" | TTildeEq => txt "~="
  | TTilde => txt "~" | TGte => txt ">=" | TGt => txt ">" | TLte => txt "<=" | TLt => txt "<"
  | TRBitShiftSigned => txt ">>" | TRBitShiftUnsigned => txt ">>>" | TLBitShift => txt "<<"
  | TMul => txt "*" | TDiv => txt "/" | TAdd => txt "+" | TSub => txt "-" | TMod => txt "%"
  | TEndOfStream => [] | TSelect => txt "select" | TFrom => txt "from" | TWhere => txt "where"
  | TWith => txt "with" | TGroup => txt "group" | TBy => txt "by" | THaving => txt "having"
  | TInto => txt "into" | TCreate => txt "create" | TTumbling => txt "tumbling" | TSliding => txt "sliding"
  | TWindow => txt "window" | TStream => txt "stream" | TOperator => txt "operator" | TScript => txt "script"
  | TSet => txt "set" | TEach => txt "each" | TDefine => txt "define" | TArgs => txt "args" | TUse => txt "use"
  | TAs => txt "as" | TRecur => txt "recur" | TConfigDirective => txt "#!config " | TSubquery => txt "query"
  | TLineDirective l file =>
    txt "#!line " ++ num (absolute l) ++ txt " " ++ num (line l) ++ txt " " ++ num (column l) ++ txt " " ++
    num (unit_id l) ++ txt " " ++ file
  end.

Lemma display_keyword s t : (s, t) ∈ keywords → display t = txt s.
Proof.
  assert (Forall (λ k, display k.2 = txt k.1) keywords) as Hk by (repeat constructor).
  intros Hs. rewrite Forall_forall in Hk. exact (Hk _ Hs).
Qed.

Lemma display_ident s : display (ident_to_token s) = s.
Proof.
  unfold ident_to_token. destruct (find_keyword s keywords) as [t|] eqn:Hf; [|done]. simpl.
  assert (∀ ks, find_keyword s ks = Some t → ∃ k, (k, t) ∈ ks ∧ s = txt k) as Hfind.
  { intros ks. induction ks as [|[k t'] ks IH]; [done|]. simpl. case_bool_decide as Heq.
    - intros [= ->]. exists k. split; [constructor|done].
    - intros Hk. destruct (IH Hk) as (k' & Hin & ->). exists k'. split; [by constructor|done]. }
  destruct (Hfind _ Hf) as (k & Hk & ->). by apply display_keyword.
Qed.
End display.

(** ** A concrete library, for evaluation

    Identifiers are ASCII; of a float only the exponent is looked at. *)
Definition exponent_okb (s : list N) : bool :=
  let ds := match s with c :: ds => if (c =? ch "+")%N || (c =? ch "-")%N then ds else s | [] => [] end in
  negb (bool_decide (ds = [])) && forallb is_dec_digit ds.

Lemma exponent_okb_ok s : exponent_okb s = true → exponent_ok s.
Proof.
  unfold exponent_okb, exponent_ok. destruct s as [|c ds]; [done|]. intros Hs.
  destruct ((c =? ch "+")%N || (c =? ch "-")%N) eqn:Hc; apply andb_true_iff in Hs as [Hne Hd];
    apply negb_true_iff, bool_decide_eq_false in Hne.
  - exists [c], ds. split_and!; [done| |done..]. right.
    apply orb_true_iff in Hc as [->%N.eqb_eq| ->%N.eqb_eq]; auto.
  - exists [], (c :: ds). split_and!; auto.
Qed.

Fixpoint behind_e (s : list N) : option (list N) :=
  match s with [] => None | c :: s => if (c =? ch "e")%N then Some s else behind_e s end.
Lemma behind_e_app a b : forallb mantissa_char a = true → behind_e (a ++ ch "e" :: b) = Some b.
Proof.
  induction a as [|c a IH]; [done|]. cbn [forallb behind_e app]. intros [Hc Ha]%andb_true_iff.
  destruct (N.eqb_spec c (ch "e")) as [->|_]; [done|auto].
Qed.

Definition hex_digit (n : N) : N := if (n <? 10)%N then (48 + n)%N else (87 + n)%N.
Definition encode_ascii (c : N) : list N :=
  if json_plain c then [c]
  else if (c =? DQUOTE)%N then txt "\" ++ [DQUOTE]
  else if (c =? ch "\")%N then txt "\\"
  else txt "\u00" ++ [hex_digit (c / 16); hex_digit (c mod 16)]%N.

Lemma encode_ascii_escaped c : json_plain c = false → ∃ e, encode_ascii c = ch "\" :: e ∧ escape_of c e.
Proof.
  unfold encode_ascii. intros Hp. rewrite Hp.
  destruct (N.eqb_spec c DQUOTE) as [->|Hq].
  { exists [DQUOTE]. split; [done|]. left. exists DQUOTE. split; [done|]. by left. }
  destruct (N.eqb_spec c (ch "\")) as [->|Hb].
  { exists [ch "\"]. split; [done|]. left. exists (ch "\"). split; [done|]. right. by left. }
  assert (c < 32)%N as Hc.
  { unfold json_plain in Hp. apply N.eqb_neq in Hq, Hb. rewrite Hq, Hb in Hp. simpl in Hp.
    rewrite !andb_true_r in Hp. by apply N.leb_gt in Hp. }
  eexists. split; [reflexivity|]. right. eexists. split_and!; [reflexivity|done|..];
    (assert (c ∈ N.of_nat <$> seq 0 32) as Hin;
     [apply list_elem_of_fmap; exists (N.to_nat c); rewrite N2Nat.id; split; [done|]; apply elem_of_seq; lia|]);
    revert Hin; clear; revert c; apply Forall_forall; repeat constructor.
Qed.

#[export] Instance ascii_lexer_libs : lexer_libs.
Proof.
  refine {| xid_start := is_alpha;
     xid_continue c := is_alpha c || is_dec_digit c || (c =? ch "_")%N;
     encode_char := encode_ascii;
     read_f64 s := match behind_e s with
                   | Some b => if exponent_okb b then Some (SpecFloat.S754_zero false) else None
                   | None => Some (SpecFloat.S754_zero false)
                   end |}.
  - done.
  - done.
  - by intros c ->.
  - intros c Hc. unfold encode_ascii. by rewrite Hc.
  - apply encode_ascii_escaped.
  - intros a b f Hf Ha. rewrite behind_e_app in Hf by done.
    destruct (exponent_okb b) eqn:Hb; [by apply exponent_okb_ok|done].
Defined.
