(* ===== verification/Lexer.v ===== *)
(** The lexer of the script language (tremor-script/src/lexer.rs).

    Errors keep their kind, and the character they name; the ranges and the
    excerpts of the source in them are left out. *)
From Stdlib Require Import Ascii.
From S2P Require Import Prelude Value ValueOrd ScriptOps Text Token.

Inductive lex_error :=
  | UnexpectedEndOfStream
  | InvalidUtf8Sequence
  | UnexpectedEscapeCode (c : N)
  | UnterminatedIdentLiteral
  | UnterminatedStringLiteral
  | UnterminatedHereDoc
  | TailingHereDoc (c : N)
  | UnterminatedInterpolation
  | EmptyInterpolation
  | UnterminatedExtractor
  | UnexpectedCharacter (c : N)
  | InvalidHexLiteral
  | InvalidIntLiteral
  | InvalidFloatLiteral
  | ParseIntError
  | LexMsg (s : string)
  (** not an error of the code, which ends here: see [split_at] *)
  | LexPanic
  (** not an error of the code: a loop of the model has ended too early *)
  | LexFuel.

Inductive lres (A : Type) := LOk (a : A) | LErr (e : lex_error).
Arguments LOk {A} a.
Arguments LErr {A} e.

Record lexer := Lexer {
  input : list N;
  rest : list N;
  loc : location;
  file_offset : location;
  cu : N;
  stored_tokens : list spanned;
}.

Definition default_location : location := Location 0 0 0 0.
(** [Lexer::new], [CharLocations::new] *)
Definition new_lexer (src : list N) : lexer :=
  Lexer src src (Location 0 1 1 0) default_location 0 [].

Definition lex_m (A : Type) : Type := lexer → lexer * lres A.
#[global] Instance lex_ret : MRet lex_m := λ A a s, (s, LOk a).
#[global] Instance lex_bind : MBind lex_m := λ A B f m s,
  let '(s, r) := m s in match r with LOk a => f a s | LErr e => (s, LErr e) end.
Definition lex_fail {A} (e : lex_error) : lex_m A := λ s, (s, LErr e).
Definition asks {A} (f : lexer → A) : lex_m A := λ s, (s, LOk (f s)).
Definition or_fail {A} (o : option A) (e : lex_error) : lex_m A :=
  match o with Some a => mret a | None => lex_fail e end.

(** ** Moving over the source *)
Definition bump : lex_m (option (location * N)) := λ s,
  match rest s with
  | [] => (s, LOk None)
  | c :: r => (Lexer (input s) r (shift c (loc s)) (file_offset s) (cu s) (stored_tokens s), LOk (Some (loc s, c)))
  end.
Definition lookahead : lex_m (option (location * N)) := λ s,
  (s, LOk match rest s with [] => None | c :: _ => Some (loc s, c) end).

(** [str::get] of a range of bytes *)
Fixpoint drop_bytes (n : N) (s : list N) : option (list N) :=
  if (n =? 0)%N then Some s
  else match s with [] => None | c :: s => if (len_utf8 c <=? n)%N then drop_bytes (n - len_utf8 c) s else None end.
Fixpoint take_bytes (n : N) (s : list N) : option (list N) :=
  if (n =? 0)%N then Some []
  else match s with
       | [] => None
       | c :: s => if (len_utf8 c <=? n)%N then (cons c) <$> take_bytes (n - len_utf8 c) s else None
       end.
Definition slice (start end_ : location) : lex_m (option (list N)) := asks (λ s,
  if (absolute end_ <? absolute start)%N then None
  else drop_bytes (absolute start) (input s) ≫= take_bytes (absolute end_ - absolute start)).

Definition starts_with (start : location) (s : list N) : lex_m (option location) :=
  let end_ := shift_str s start in
  head ← slice start end_;
  if bool_decide (head = Some s) then
    foldr (λ _ m, bump ≫= λ _, m) (mret (Some end_)) (tail s)
  else mret None.

Definition ERROR : list N := txt "<ERROR>".

(** [take_until]: [e] is the last location that was looked at. *)
Fixpoint skip_until (terminate : N → bool) (e : location) (r : list N) (l : location) :
    list N * location * option location * location :=
  match r with
  | [] => ([], l, None, e)
  | c :: r' => if terminate c then (r, l, Some l, l) else skip_until terminate l r' (shift c l)
  end.
Definition take_until (start : location) (terminate : N → bool) : lex_m (location * list N) := λ s,
  let '(r, l, found, e) := skip_until terminate start (rest s) (loc s) in
  let s := Lexer (input s) r l (file_offset s) (cu s) (stored_tokens s) in
  let end_ := match found with Some e => e | None => shift 0 e end in
  (head ← slice start end_; mret (end_, default ERROR head)) s.
Definition take_while (start : location) (keep_going : N → bool) : lex_m (location * list N) :=
  take_until start (λ c, negb (keep_going c)).
Definition extract_number (start : location) (is_valid : N → bool) : lex_m (location * list N) :=
  r ← take_while start (λ c, is_valid c || (c =? ch "_")%N);
  mret (r.1, filter (λ c, c ≠ ch "_") r.2).

Definition spanned2 (start end_ : location) (t : token) : lex_m spanned := asks (λ s,
  let start := set_cu (cu s) start in
  let end_ := set_cu (cu s) end_ in
  Spanned (Span (loc_sub start (file_offset s)) (loc_sub end_ (file_offset s)) start end_) t).

(** ** Numbers of the standard library

    [from_str_radix] and [parse] of integers: digits behind an optional sign;
    nothing, or a sign alone, is an error, as is what does not fit. *)
Definition digits_value (radix : N) (is_digit : N → bool) (s : list N) : option N :=
  if bool_decide (s = []) then None
  else if forallb is_digit s then Some (foldl (λ n c, radix * n + hex_value c)%N 0%N s) else None.
Definition signed_value (radix : N) (is_digit : N → bool) (s : list N) : option Z :=
  match s with
  | c :: s' =>
    if (c =? ch "-")%N then (λ n, (- Z.of_N n)%Z) <$> digits_value radix is_digit s'
    else if (c =? ch "+")%N then Z.of_N <$> digits_value radix is_digit s'
    else Z.of_N <$> digits_value radix is_digit s
  | [] => None
  end.
Definition i64_ok (z : Z) : bool := ((-9223372036854775808 <=? z) && (z <=? 9223372036854775807))%Z.
Definition i64_from_str_radix (radix : N) (is_digit : N → bool) (s : list N) : option Z :=
  z ← signed_value radix is_digit s; if i64_ok z then Some z else None.
Definition usize_parse (s : list N) : option N :=
  z ← match s with
      | c :: s' => if (c =? ch "+")%N then digits_value 10 is_dec_digit s' else digits_value 10 is_dec_digit s
      | [] => None
      end;
  if (z <? w64)%N then Some z else None.

(** In the release profile the smallest number is its own negation. *)
Definition i64_neg (z : Z) : Z := if (z =? -9223372036854775808)%Z then z else (- z)%Z.
Definition i64_from_hex (hex : list N) (is_positive : bool) : option Z :=
  (λ r, if is_positive : bool then r else i64_neg r) <$> i64_from_str_radix 16 is_hex hex.

(** [char::from_u32] *)
Definition char_from_u32 (n : N) : option N :=
  if ((n <? 1114112) && negb ((55296 <=? n) && (n <? 57344)))%N then Some n else None.

(** ** Comments *)
Fixpoint split_on (c : N) (s : list N) : list (list N) :=
  match s with
  | [] => [[]]
  | d :: s =>
    if (d =? c)%N then [] :: split_on c s
    else match split_on c s with w :: ws => (d :: w) :: ws | [] => [[d]] end
  end.
Fixpoint drop_while (p : N → bool) (s : list N) : list N :=
  match s with [] => [] | c :: s' => if p c then drop_while p s' else s end.
Definition trim_chars (p : N → bool) (s : list N) : list N :=
  reverse (drop_while p (reverse (drop_while p s))).

Definition line_directive (start end_ : location) (directive : list N) : lex_m spanned :=
  match split_on (ch " ") (trim_chars is_whitespace directive) with
  | a :: l :: c :: u :: file :: _ =>
    u ← or_fail (usize_parse u) ParseIntError;
    l ← or_fail (usize_parse l) ParseIntError;
    c ← or_fail (usize_parse c) ParseIntError;
    a ← or_fail (usize_parse a) ParseIntError;
    let at_ := move_up_lines 1 (Location u l c a) in
    (λ s, (Lexer (input s) (rest s) (loc s) (set_cu u (start_of_line (loc_sub start at_))) u (stored_tokens s),
           LOk tt));;
    spanned2 start end_ (TLineDirective at_ file)
  | _ => lex_fail (LexMsg "failed to parse line directive!")
  end.

(** handle comments *)
Definition cx (start : location) : lex_m spanned :=
  config ← starts_with start (txt "#!config ");
  match config with
  | Some end_ => spanned2 start end_ TConfigDirective
  | None =>
    r ← take_until start (λ c, (c =? NL)%N);
    let '(end_, lexeme) := r in
    match strip (txt "###") lexeme, strip (txt "##") lexeme, strip (txt "#!line") lexeme with
    | Some l, _, _ => spanned2 start end_ (TModComment l)
    | None, Some l, _ => spanned2 start end_ (TDocComment l)
    | None, None, Some directive => line_directive start end_ directive
    | None, None, None =>
      spanned2 start end_ (TSingleLineComment (drop_while (λ c, (c =? ch "#")%N) lexeme))
    end
  end.

(** ** Symbols of more than one character

    [one_of start ts t]: a second character from [ts], or else [t]. *)
Fixpoint find_char (c : N) (ts : list (N * token)) : option token :=
  match ts with [] => None | (d, t) :: ts => if (c =? d)%N then Some t else find_char c ts end.

(** handle equals *)
Definition eq_ (start : location) : lex_m spanned :=
  c ← lookahead;
  match c with
  | Some (end_, c) =>
    match find_char c [(ch ">", TEqArrow); (ch "=", TEqEq)] with
    | Some t => bump;; spanned2 start (shift c end_) t
    | None => spanned2 start (shift (ch "=") start) TEq
    end
  | None => spanned2 start (shift (ch "=") start) TEq
  end.

(** handle colons *)
Definition cn (start : location) : lex_m spanned :=
  r ← take_while start (λ c, (c =? ch ":")%N);
  let '(end_, lexeme) := r in
  spanned2 start end_
    (if bool_decide (lexeme = txt "::") then TColonColon
     else if bool_decide (lexeme = txt ":") then TColon else TBad lexeme).

Definition gt (start : location) : lex_m spanned :=
  c ← lookahead;
  match c with
  | Some (end_, c) =>
    if (c =? ch ">")%N then
      bump;;
      d ← lookahead;
      match d with
      | Some (end2, d) =>
        if (d =? ch ">")%N then bump;; spanned2 start (shift d end2) TRBitShiftUnsigned
        else spanned2 start (shift c end_) TRBitShiftSigned
      | None => spanned2 start (shift c end_) TRBitShiftSigned
      end
    else if (c =? ch "=")%N then bump;; spanned2 start (shift c end_) TGte
    else spanned2 start end_ TGt
  | None => spanned2 start start (TBad (txt ">"))
  end.

Definition lt (start : location) : lex_m spanned :=
  c ← lookahead;
  match c with
  | Some (end_, c) =>
    match find_char c [(ch "<", TLBitShift); (ch "=", TLte)] with
    | Some t => bump;; spanned2 start (shift c end_) t
    | None => spanned2 start end_ TLt
    end
  | None => spanned2 start start (TBad (txt "<"))
  end.

(** [pb], [pe] and [tl]: pattern begin, pattern end and tilde *)
Definition symbol (start : location) (ts : list (N * token)) (t : token) : lex_m spanned :=
  c ← lookahead;
  match c with
  | None => lex_fail UnexpectedEndOfStream
  | Some (end_, c) =>
    match find_char c ts with
    | Some t => bump;; spanned2 start (shift c end_) t
    | None => spanned2 start end_ t
    end
  end.
Definition pb (start : location) : lex_m spanned :=
  symbol start [(ch "[", TLPatBracket); (ch "(", TLPatParen); (ch "{", TLPatBrace)] TMod.
Definition pe (start : location) : lex_m spanned := symbol start [(ch "=", TNotEq)] TBitNot.
Definition tl (start : location) : lex_m spanned := symbol start [(ch "=", TTildeEq)] TTilde.

(** ** Identifiers *)
Section lexer.
Context `{!lexer_libs}.

Definition is_ws (c : N) : bool := is_whitespace c && negb (c =? NL)%N.
Definition is_ident_start (c : N) : bool := xid_start c || (c =? ch "_")%N || (c =? ch "-")%N.
Definition is_ident_continue (c : N) : bool := xid_continue c || (c =? ch "_")%N || (c =? ch "-")%N.
Definition is_test_start (c : N) : bool := (c =? ch "|")%N.

Definition id (start : location) : lex_m spanned :=
  r ← take_while start is_ident_continue;
  spanned2 start r.1 (ident_to_token r.2).

(** handle quoted idents; [n] is the fuel *)
Fixpoint id2 (n : nat) (start : location) (string : list N) : lex_m spanned :=
  match n with
  | O => lex_fail LexFuel
  | S n =>
    c ← bump;
    match c with
    | None => lex_fail UnterminatedIdentLiteral
    | Some (e, c) =>
      if (c =? ch "`")%N then
        s ← slice (shift (ch "`") start) e;
        spanned2 start (shift (ch "`") e) (TIdent (default string s) true)
      else if (c =? NL)%N then lex_fail UnterminatedIdentLiteral
      else id2 n start (string ++ [c])
    end
  end.

(** ** Escapes *)
Fixpoint unicode_digits (n : nat) (end_ : location) (digits : list N) : lex_m (location * list N) :=
  match n with
  | O => mret (end_, digits)
  | S n =>
    c ← bump;
    match c with
    | None => lex_fail InvalidUtf8Sequence
    | Some (e, c) => if is_hex c then unicode_digits n e (digits ++ [c]) else lex_fail InvalidUtf8Sequence
    end
  end.

Fixpoint find_escape (c : N) (es : list (N * N)) : option N :=
  match es with [] => None | (d, x) :: es => if (c =? d)%N then Some x else find_escape c es end.
Definition escapes : list (N * N) :=
  [(ch "'", ch "'"); (DQUOTE, DQUOTE); (ch "\", ch "\"); (ch "#", ch "#"); (ch "/", ch "/"); (ch "b", 8%N);
   (ch "f", 12%N); (ch "n", 10%N); (ch "r", 13%N); (ch "t", 9%N)].

Definition escape_code : lex_m (location * N) :=
  c ← bump;
  match c with
  | None => lex_fail UnexpectedEndOfStream
  | Some (e, c) =>
    match find_escape c escapes with
    | Some x => mret (e, x)
    | None =>
      if (c =? ch "u")%N then
        r ← unicode_digits 4 e [];
        match char_from_u32 (hex_number r.2) with
        | Some x => mret (r.1, x)
        | None => lex_fail InvalidUtf8Sequence
        end
      else lex_fail (UnexpectedEscapeCode c)
    end
  end.

(** ** Strings and heredocs

    What the code keeps in mutable variables while it reads one of them. *)
Record string_state := StringState {
  has_escapes : bool;
  segment_start : location;
  end_of : location;
  tokens : list spanned;
  content : list N;
}.

Definition push (start end_ : location) (t : token) (st : string_state) : lex_m string_state :=
  t ← spanned2 start end_ t;
  mret (StringState (has_escapes st) (segment_start st) (end_of st) (tokens st ++ [t]) (content st)).

(** The content so far becomes a token: a slice of the source if it has no
    escapes. *)
Definition push_content (mk : list N → token) (end_inner : location) (st : string_state) : lex_m string_state :=
  if bool_decide (content st = []) then mret st
  else
    s ← slice (segment_start st) end_inner;
    let c := if has_escapes st then content st else default (content st) s in
    st ← push (segment_start st) end_inner (mk c) st;
    mret (StringState false (segment_start st) (end_of st) (tokens st) []).

(** [intercept_heredoc_error] *)
Definition intercept_heredoc_error (is_hd : bool) (e : lex_error) : lex_error :=
  match e with
  | UnterminatedHereDoc | TailingHereDoc _ => if is_hd then UnterminatedInterpolation else UnterminatedHereDoc
  | UnterminatedStringLiteral => if is_hd then UnterminatedStringLiteral else UnterminatedInterpolation
  | e => e
  end.

Section strings.
Variable next : lex_m (option spanned).

(** The tokens of an interpolation, until its brace is closed. *)
Fixpoint interpol_loop (n : nat) (is_hd : bool) (pcount : N) (first : bool) (st : string_state) :
    lex_m string_state :=
  match n with
  | O => lex_fail LexFuel
  | S n =>
    t ← (λ s, match next s with (s, LErr e) => (s, LErr (intercept_heredoc_error is_hd e)) | r => r end);
    match t with
    | None => lex_fail UnterminatedInterpolation
    | Some t =>
      let st' := StringState (has_escapes st) (segment_start st) (end_of st) (tokens st ++ [t]) (content st) in
      match value_of t with
      | TRBrace =>
        if (pcount =? 0)%N then
          if first then lex_fail EmptyInterpolation
          else mret (StringState (has_escapes st) (pp_end (span_of t)) (end_of st) (tokens st') (content st))
        else interpol_loop n is_hd (pcount - 1) false st'
      | TLBrace | TInterpol => interpol_loop n is_hd (pcount + 1) false st'
      | _ => interpol_loop n is_hd pcount false st'
      end
    end
  end.

Definition handle_interpol (n : nat) (is_hd : bool) (mk : list N → token) (end_inner : location)
    (st : string_state) : lex_m string_state :=
  bump;;
  let end_ := shift (ch "{") (end_of st) in
  st ← push_content mk end_inner st;
  st ← push end_inner end_ TInterpol (StringState (has_escapes st) end_inner end_ (tokens st) (content st));
  interpol_loop n is_hd 0 true st.

Definition handle_qs_hd_generic (n : nat) (is_hd : bool) (mk : list N → token) (lc : location * N)
    (st : string_state) : lex_m string_state :=
  let '(end_inner, c) := lc in
  if (c =? ch "\")%N then
    x ← escape_code;
    let '(e, x) := x in
    if (x =? ch "#")%N then
      st ← push_content mk end_inner st;
      st ← push end_inner e TEscapedHash st;
      let e := shift x e in
      mret (StringState (has_escapes st) e e (tokens st) (content st))
    else mret (StringState true (segment_start st) e (tokens st) (content st ++ [x]))
  else if (c =? ch "#")%N then
    d ← lookahead;
    match d with
    | Some (e, d) =>
      if (d =? ch "{")%N then
        handle_interpol n is_hd mk end_inner (StringState (has_escapes st) (segment_start st) e (tokens st) (content st))
      else mret (StringState (has_escapes st) (segment_start st) end_inner (tokens st) (content st ++ [ch "#"]))
    | None => mret (StringState (has_escapes st) (segment_start st) end_inner (tokens st) (content st ++ [ch "#"]))
    end
  else mret (StringState (has_escapes st) (segment_start st) (shift c end_inner) (tokens st) (content st ++ [c])).

(** Handle heredoc strings *)
Fixpoint hd (n : nat) (st : string_state) : lex_m (list spanned) :=
  match n with
  | O => lex_fail LexFuel
  | S n =>
    c ← bump;
    match c with
    | None => lex_fail UnterminatedHereDoc
    | Some (e, c) =>
      if (c =? DQUOTE)%N then
        st ← push (segment_start st) e (THereDocLiteral (content st)) st;
        d ← lookahead;
        match d with
        | Some (e2, d) =>
          if (d =? DQUOTE)%N then
            bump;;
            x ← lookahead;
            match x with
            | Some (e3, x) =>
              if (x =? DQUOTE)%N then
                bump;;
                st ← push e (shift DQUOTE e3) THereDocEnd st;
                mret (tokens st)
              else hd n (StringState (has_escapes st) e (shift DQUOTE e2) (tokens st) [DQUOTE; DQUOTE])
            | None => hd n (StringState (has_escapes st) e (shift DQUOTE e2) (tokens st) [DQUOTE; DQUOTE])
            end
          else hd n (StringState (has_escapes st) e (shift DQUOTE e) (tokens st) [DQUOTE])
        | None => hd n (StringState (has_escapes st) e (shift DQUOTE e) (tokens st) [DQUOTE])
        end
      else if (c =? NL)%N then
        st ← push (segment_start st) e (THereDocLiteral (content st ++ [NL])) st;
        let e := shift NL e in
        hd n (StringState (has_escapes st) e e (tokens st) [])
      else
        st ← handle_qs_hd_generic n true THereDocLiteral (e, c) st;
        hd n st
    end
  end.

(** Handle quote strings *)
Fixpoint qs (n : nat) (st : string_state) : lex_m (list spanned) :=
  match n with
  | O => lex_fail LexFuel
  | S n =>
    c ← bump;
    match c with
    | None => lex_fail UnterminatedExtractor
    | Some (e, c) =>
      if (c =? DQUOTE)%N then
        st ← push_content TStringLiteral e st;
        st ← push e (shift DQUOTE e) TDQuote st;
        mret (tokens st)
      else if (c =? NL)%N then lex_fail UnterminatedStringLiteral
      else
        st ← handle_qs_hd_generic n false TStringLiteral (e, c) st;
        qs n st
    end
  end.

(** handle quoted strings or heredoc strings *)
Definition qs_or_hd (n : nat) (start : location) : lex_m (list spanned) :=
  let end_ := shift DQUOTE start in
  q1 ← spanned2 start end_ TDQuote;
  c ← lookahead;
  match c with
  | None => lex_fail UnterminatedStringLiteral
  | Some (end2, c) =>
    if (c =? DQUOTE)%N then
      bump;;
      d ← lookahead;
      match d with
      | Some (end3, d) =>
        if (d =? DQUOTE)%N then
          bump;;
          x ← bump;
          match x with
          | None => lex_fail UnterminatedHereDoc
          | Some (newline_loc, x) =>
            if (x =? NL)%N then
              t ← spanned2 start (shift DQUOTE end3) THereDocStart;
              hd n (StringState false (shift NL newline_loc) end3 [t] [])
            else lex_fail (TailingHereDoc x)
          end
        else q2 ← spanned2 end2 (shift DQUOTE end2) TDQuote; mret [q1; q2]
      | None => q2 ← spanned2 end2 (shift DQUOTE end2) TDQuote; mret [q1; q2]
      end
    else qs n (StringState false end_ end_ [q1] [])
  end.
End strings.

(** ** Extractors *)
Definition test_escape_code : lex_m (option N) :=
  c ← bump;
  match c with
  | None => lex_fail UnexpectedEndOfStream
  | Some (_, c) =>
    if (c =? ch "\")%N then mret (Some (ch "\"))
    else if (c =? ch "|")%N then mret (Some (ch "|"))
    else if (c =? NL)%N then mret None
    else lex_fail (UnexpectedEscapeCode c)
  end.

(** The bytes of white space in front of the line that has the fewest. *)
Definition leading (s : list N) : N := (bytes_len s - bytes_len (drop_while is_whitespace s))%N.
Definition indentation (strings : list (list N)) : N :=
  default 0%N (foldl (λ (i : option N) s,
    if bool_decide (s = []) then i
    else match i with Some i => Some (N.min i (leading s)) | None => Some (leading s) end) None strings).
(** [str::split_at], which panics when it is to split inside of a character. *)
Definition split_at (n : N) (s : list N) : lex_m (list N) :=
  if bool_decide (s = []) then mret s
  else or_fail (drop_bytes n s) LexPanic.
Fixpoint dedent (n : N) (ss : list (list N)) : lex_m (list (list N)) :=
  match ss with
  | [] => mret []
  | s :: ss => s ← split_at n s; ss ← dedent n ss; mret (s :: ss)
  end.

(** handle test/extractor *)
Fixpoint pl (n : nat) (total_start : location) (string : list N) (strings : list (list N)) : lex_m spanned :=
  match n with
  | O => lex_fail LexFuel
  | S n =>
    c ← bump;
    match c with
    | None => lex_fail UnterminatedExtractor
    | Some (end_, c) =>
      if (c =? ch "\")%N then
        x ← test_escape_code;
        match x with
        | Some x => pl n total_start (string ++ [x]) strings
        | None => pl n total_start [] (strings ++ [string])
        end
      else if (c =? ch "|")%N then
        let strings := strings ++ [string] in
        let indent := indentation strings in
        ss ← dedent indent strings;
        spanned2 total_start (shift (ch "|") end_) (TTestLiteral indent ss)
      else if (c =? NL)%N then lex_fail UnterminatedExtractor
      else pl n total_start (string ++ [c]) strings
    end
  end.

(** ** Numbers *)
Definition float_token (start end_ : location) (float : list N) : lex_m spanned :=
  f ← or_fail (read_f64 float) InvalidFloatLiteral;
  spanned2 start end_ (TFloatLiteral f float).

Definition is_sign (c : N) : bool := (c =? ch "+")%N || (c =? ch "-")%N.

Definition nm_float (start : location) : lex_m spanned :=
  bump;;
  r ← extract_number start is_dec_digit;
  let '(end_, float) := r in
  c ← lookahead;
  match c with
  | Some (end2, c) =>
    if (c =? ch "e")%N then
      bump;;
      x ← bump;
      match x with
      | None => lex_fail InvalidFloatLiteral
      | Some (exp_location, _) =>
        d ← lookahead;
        es ← match d with
             | Some (l, d) =>
               if is_sign d then
                 bump;;
                 s ← slice exp_location l;
                 mret (default (exp_location, []) ((λ s, (l, s)) <$> s))
               else mret (exp_location, [])
             | None => mret (exp_location, [])
             end;
        e ← extract_number es.1 is_dec_digit;
        float_token start e.1 (float ++ ch "e" :: es.2 ++ e.2)
      end
    else if is_ident_start c then lex_fail (UnexpectedCharacter c)
    else float_token start end_ float
  | None => float_token start end_ float
  end.

Definition nm_hex (start : location) (int : list N) : lex_m spanned :=
  bump;;
  x ← bump;
  match x with
  | None => lex_fail UnexpectedEndOfStream
  | Some (int_start, _) =>
    r ← extract_number int_start is_hex;
    let '(end_, hex) := r in
    if bool_decide (int = txt "0") || bool_decide (int = txt "-0") then
      c ← lookahead;
      let val := match i64_from_hex hex (bool_decide (int = txt "0")) with
                 | Some v => spanned2 start end_ (TIntLiteral v)
                 | None => lex_fail InvalidHexLiteral
                 end in
      match c with
      | Some (_, c) => if is_ident_start c then lex_fail (UnexpectedCharacter c) else val
      | None => val
      end
    else lex_fail InvalidHexLiteral
  end.

(** handle numbers *)
Definition nm (start : location) : lex_m spanned :=
  r ← extract_number start is_dec_digit;
  let '(end_, int) := r in
  let val := match i64_from_str_radix 10 is_dec_digit int with
             | Some v => spanned2 start end_ (TIntLiteral v)
             | None => lex_fail InvalidIntLiteral
             end in
  c ← lookahead;
  match c with
  | Some (_, c) =>
    if (c =? ch ".")%N then nm_float start
    else if (c =? ch "x")%N then nm_hex start int
    else if is_ident_start c then lex_fail (UnexpectedCharacter c)
    else val
  | None => val
  end.

Definition ws (start : location) : lex_m spanned :=
  r ← take_while start is_ws;
  spanned2 start r.1 (TWhitespace r.2).

(** ** The next token *)
Definition simple_tokens : list (N * token) :=
  [(ch ",", TComma); (ch "$", TDollar); (ch ".", TDot); (ch "_", TDontCare); (ch ";", TSemi); (ch "+", TAdd);
   (ch "*", TMul); (ch "\", TBSlash); (ch "(", TLParen); (ch ")", TRParen); (ch "{", TLBrace);
   (ch "}", TRBrace); (ch "[", TLBracket); (ch "]", TRBracket); (ch "/", TDiv); (ch "^", TBitXor);
   (ch "&", TBitAnd)].

Definition minus (start : location) : lex_m spanned :=
  c ← lookahead;
  match c with
  | Some (_, c) => if is_dec_digit c then nm start else spanned2 start (shift (ch "-") start) TSub
  | None => spanned2 start (shift (ch "-") start) TSub
  end.

(** What is a token of its own, behind its first character. *)
Definition next_single (n : nat) (start : location) (c : N) : lex_m spanned :=
  match find_char c simple_tokens with
  | Some t => spanned2 start (shift c start) t
  | None =>
    if (c =? ch ":")%N then cn start
    else if (c =? ch "-")%N then minus start
    else if (c =? ch "#")%N then cx start
    else if (c =? ch "=")%N then eq_ start
    else if (c =? ch "<")%N then lt start
    else if (c =? ch ">")%N then gt start
    else if (c =? ch "%")%N then pb start
    else if (c =? ch "~")%N then tl start
    else if (c =? ch "`")%N then id2 n start []
    else if (c =? ch "!")%N then pe start
    else if (c =? NL)%N then spanned2 start start TNewLine
    else if is_ident_start c then id start
    else if is_test_start c then pl n start [] []
    else if is_dec_digit c then nm start
    else if is_whitespace c then ws start
    else spanned2 start start (TBad [c])
  end.

(** [Iterator::next] *)
Fixpoint next (n : nat) : lex_m (option spanned) := λ s,
  match n with
  | O => (s, LErr LexFuel)
  | S n =>
    match stored_tokens s with
    | t :: ts => (Lexer (input s) (rest s) (loc s) (file_offset s) (cu s) ts, LOk (Some t))
    | [] =>
      (c ← bump;
       match c with
       | None => mret None
       | Some (start, c) =>
         if (c =? DQUOTE)%N then
           ts ← qs_or_hd (next n) n start;
           (λ s, (Lexer (input s) (rest s) (loc s) (file_offset s) (cu s) (stored_tokens s ++ ts), LOk tt));;
           next n
         else t ← next_single n start c; mret (Some t)
       end) s
    end
  end.

(** ** The tokenizer *)
Record tokenizer := Tokenizer { eos : bool; pos : span; lexer_of : lexer }.

Definition new_tokenizer (src : list N) : tokenizer :=
  Tokenizer false (Span default_location default_location default_location default_location) (new_lexer src).

(** Enough for every source: see [next_total]. *)
Definition fuel_for (s : lexer) : nat := 2 * length (rest s) + length (stored_tokens s) + 2.

Definition tokenizer_next (t : tokenizer) : tokenizer * option (lres spanned) :=
  let '(s, r) := next (fuel_for (lexer_of t)) (lexer_of t) in
  match eos t, r with
  | false, LOk None => (Tokenizer true (pos t) s, Some (LOk (Spanned (pos t) TEndOfStream)))
  | true, _ => (Tokenizer true (pos t) s, None)
  | false, LErr e => (Tokenizer false (pos t) s, Some (LErr e))
  | false, LOk (Some x) => (Tokenizer false (span_of x) s, Some (LOk x))
  end.

(** [collect]: everything the tokenizer yields; it goes on after an error, but
    nothing is yielded when it panics nor after that, so that [LErr LexPanic]
    at the end of the list says that it did. [n] is fuel again. *)
Fixpoint collect (n : nat) (t : tokenizer) : list (lres spanned) :=
  match n with
  | O => [LErr LexFuel]
  | S n =>
    match tokenizer_next t with
    | (_, Some (LErr LexPanic)) => [LErr LexPanic]
    | (t, Some r) => r :: collect n t
    | (_, None) => []
    end
  end.
Definition tokenize (src : list N) : list (lres spanned) :=
  collect (2 * length src + 3) (new_tokenizer src).
End lexer.
