(* ===== verification/LexerTotal.v ===== *)
(** The lexer ends on every source: it never runs out of the fuel its loops
    are given, however strings and interpolations are nested. *)
From Stdlib Require Import Ascii.
From S2P Require Import Prelude Value ValueOrd ScriptOps Text Token Lexer.

(** ** What does not loop

    [plain m]: [m] only moves forward in the source. *)
Definition plain {A} (m : lex_m A) : Prop := ∀ s,
  length (rest (m s).1) ≤ length (rest s) ∧ stored_tokens (m s).1 = stored_tokens s ∧ (m s).2 ≠ LErr LexFuel.

Lemma plain_ret {A} (a : A) : plain (mret a).
Proof. by intros s. Qed.
Lemma plain_fail {A} e : e ≠ LexFuel → plain (lex_fail (A:=A) e).
Proof. intros He s. split_and!; [done..|]. simpl. congruence. Qed.
Lemma plain_asks {A} (f : lexer → A) : plain (asks f).
Proof. by intros s. Qed.
Lemma plain_bind {A B} (m : lex_m A) (f : A → lex_m B) : plain m → (∀ a, plain (f a)) → plain (m ≫= f).
Proof.
  intros Hm Hf s. unfold mbind, lex_bind. destruct (Hm s) as (Hr & Hs & Hne).
  destruct (m s) as [s1 [a|e]]; simpl in *.
  - destruct (Hf a s1) as (Hr1 & Hs1 & Hne1). split_and!; [lia|congruence|done].
  - split_and!; [done..|congruence].
Qed.
Lemma plain_or_fail {A} (o : option A) e : e ≠ LexFuel → plain (or_fail o e).
Proof. intros He. destruct o; [apply plain_ret|by apply plain_fail]. Qed.
Lemma plain_bump : plain bump.
Proof. intros s. unfold bump. destruct (rest s) eqn:Hr; simpl; rewrite ?Hr; split_and!; simpl; auto with lia. Qed.
Lemma plain_lookahead : plain lookahead.
Proof. by intros s. Qed.

Lemma skip_until_length p e r l : length (skip_until p e r l).1.1.1 ≤ length r.
Proof.
  revert e l. induction r as [|c r IH]; simpl; [done|]. intros e l. destruct (p c); simpl; [done|].
  etrans; [apply IH|]. lia.
Qed.
Lemma plain_take_until start p : plain (take_until start p).
Proof.
  intros s. unfold take_until. pose proof (skip_until_length p start (rest s) (loc s)) as Hl.
  destruct (skip_until _ _ _ _) as [[[r l] found] e]. simpl in *. done.
Qed.

#[local] Create HintDb plain.
#[local] Hint Resolve plain_ret plain_asks plain_bump plain_lookahead plain_take_until : plain.

(** Reads off a computation that it is plain. *)
Ltac plain_step :=
  first
    [ progress intros
    | match goal with
      | |- plain (_ ≫= _) => apply plain_bind
      | |- plain (mret _) => apply plain_ret
      | |- plain (lex_fail _) => apply plain_fail; discriminate
      | |- plain (or_fail _ _) => apply plain_or_fail; discriminate
      | |- plain (match ?x with _ => _ end) => destruct x
      | |- plain (let '_ := ?x in _) => destruct x
      end
    | solve [auto with plain] ].
Ltac plain := cbv zeta; repeat plain_step.

Lemma plain_slice a b : plain (slice a b).
Proof. apply plain_asks. Qed.
Lemma plain_spanned2 a b t : plain (spanned2 a b t).
Proof. apply plain_asks. Qed.
#[local] Hint Resolve plain_slice plain_spanned2 : plain.
Lemma plain_take_while a p : plain (take_while a p).
Proof. apply plain_take_until. Qed.
#[local] Hint Resolve plain_take_while : plain.
Lemma plain_extract_number a p : plain (extract_number a p).
Proof. unfold extract_number. plain. Qed.
#[local] Hint Resolve plain_extract_number : plain.

Lemma plain_starts_with a s : plain (starts_with a s).
Proof.
  unfold starts_with. cbv zeta. apply plain_bind; [auto with plain|]. intros o. case_bool_decide; [|auto with plain].
  induction (tail s) as [|c t IH]; simpl; plain.
Qed.
#[local] Hint Resolve plain_starts_with : plain.
Lemma plain_line_directive a b s : plain (line_directive a b s).
Proof.
  unfold line_directive. do 5 (plain_step; [by plain|]). plain; try by intros ?.
Qed.
#[local] Hint Resolve plain_line_directive : plain.
Lemma plain_cx a : plain (cx a).
Proof. unfold cx. plain. Qed.
Lemma plain_eq a : plain (eq_ a).
Proof. unfold eq_. plain. Qed.
Lemma plain_cn a : plain (cn a).
Proof. unfold cn. plain. Qed.
Lemma plain_gt a : plain (gt a).
Proof. unfold gt. plain. Qed.
Lemma plain_lt a : plain (lt a).
Proof. unfold lt. plain. Qed.
Lemma plain_symbol a ts t : plain (symbol a ts t).
Proof. unfold symbol. plain. Qed.
Lemma plain_dedent n ss : plain (dedent n ss).
Proof. induction ss as [|s ss IH]; simpl; [plain|]. unfold split_at. plain. Qed.
Lemma plain_unicode_digits n e ds : plain (unicode_digits n e ds).
Proof. revert e ds. induction n as [|n IH]; intros e ds; simpl; plain. Qed.
#[local] Hint Resolve plain_cx plain_eq plain_cn plain_gt plain_lt plain_symbol plain_dedent plain_unicode_digits : plain.
Lemma plain_escape_code : plain escape_code.
Proof. unfold escape_code. plain. Qed.
Lemma plain_test_escape_code : plain test_escape_code.
Proof. unfold test_escape_code. plain. Qed.
#[local] Hint Resolve plain_escape_code plain_test_escape_code : plain.

Section lexer.
Context `{!lexer_libs}.

Lemma plain_float_token a b f : plain (float_token a b f).
Proof. unfold float_token. plain. Qed.
#[local] Hint Resolve plain_float_token : plain.
Lemma plain_nm_float a : plain (nm_float a).
Proof. unfold nm_float. plain. Qed.
Lemma plain_nm_hex a i : plain (nm_hex a i).
Proof. unfold nm_hex. plain. Qed.
#[local] Hint Resolve plain_nm_float plain_nm_hex : plain.
Lemma plain_nm a : plain (nm a).
Proof. unfold nm. plain. Qed.
#[local] Hint Resolve plain_nm : plain.
Lemma plain_minus a : plain (minus a).
Proof. unfold minus. plain. Qed.
#[local] Hint Resolve plain_minus : plain.

(** ** What loops over the source

    [mu] goes down with every character that is read and every token that is
    taken: a character makes two tokens at most. *)
Definition mu (s : lexer) : nat := 2 * length (rest s) + length (stored_tokens s).

Definition wp {A} (m : lex_m A) (Q : A → lexer → Prop) (s : lexer) : Prop :=
  mu (m s).1 ≤ mu s ∧ match (m s).2 with LOk a => Q a (m s).1 | LErr e => e ≠ LexFuel end.

Lemma wp_bind {A B} (m : lex_m A) (f : A → lex_m B) Q s :
  wp m (λ a, wp (f a) Q) s → wp (m ≫= f) Q s.
Proof.
  unfold wp, mbind, lex_bind. destruct (m s) as [s1 [a|e]]; simpl; [|done]. intros (H1 & H2 & H3).
  split; [lia|done].
Qed.
Lemma wp_ret {A} (a : A) (Q : A → lexer → Prop) s : Q a s → wp (mret a) Q s.
Proof. by split. Qed.
Lemma wp_fail {A} e (Q : A → lexer → Prop) s : e ≠ LexFuel → wp (lex_fail e) Q s.
Proof. by split. Qed.
Lemma wp_plain {A} (m : lex_m A) (Q : A → lexer → Prop) s :
  plain m → (∀ a s', mu s' ≤ mu s → Q a s') → wp m Q s.
Proof.
  intros Hm HQ. destruct (Hm s) as (Hr & Hs & Hne). unfold wp.
  assert (mu (m s).1 ≤ mu s) as Hmu by (unfold mu; rewrite Hs; lia).
  split; [done|]. destruct (m s).2 as [a|e]; [by apply HQ|congruence].
Qed.
Lemma wp_mono {A} (m : lex_m A) (Q R : A → lexer → Prop) s :
  (∀ a s', Q a s' → R a s') → wp m Q s → wp m R s.
Proof. intros HQR [H1 H2]. split; [done|]. destruct (m s).2; auto. Qed.
Lemma wp_bump (Q : option (location * N) → lexer → Prop) s :
  (rest s = [] → Q None s) → (∀ x s', mu s' + 2 ≤ mu s → stored_tokens s' = stored_tokens s → Q (Some x) s') →
  wp bump Q s.
Proof.
  intros HN HS. unfold wp, bump. destruct (rest s) as [|c r] eqn:Hr; simpl.
  - split; [done|]. by apply HN.
  - split; [unfold mu; simpl; rewrite Hr; simpl; lia|]. apply HS; [|done]. unfold mu. simpl. rewrite Hr. simpl. lia.
Qed.

Lemma wp_lookahead (Q : option (location * N) → lexer → Prop) s :
  (rest s = [] → Q None s) → (∀ l c, rest s ≠ [] → Q (Some (l, c)) s) → wp lookahead Q s.
Proof. intros HN HS. split; [done|]. simpl. destruct (rest s) eqn:Hr; auto. Qed.

Lemma wp_id2 n start string Q s :
  mu s < n → (∀ a s', mu s' ≤ mu s → Q a s') → wp (id2 n start string) Q s.
Proof.
  revert start string s. induction n as [|n IH]; intros start string s Hn HQ; [lia|]. cbn [id2].
  apply wp_bind, wp_bump; [intros _; by apply wp_fail|]. intros [e c] s' Hs' _.
  repeat case_match; try by apply wp_fail.
  - apply wp_plain; [plain|]. intros. apply HQ. lia.
  - apply IH; [lia|]. intros. apply HQ. lia.
Qed.

Lemma wp_pl n start string strings Q s :
  mu s < n → (∀ a s', mu s' ≤ mu s → Q a s') → wp (pl n start string strings) Q s.
Proof.
  revert start string strings s. induction n as [|n IH]; intros start string strings s Hn HQ; [lia|]. cbn [pl].
  apply wp_bind, wp_bump; [intros _; by apply wp_fail|]. intros [e c] s' Hs' _.
  repeat case_match; try by apply wp_fail.
  - apply wp_bind, wp_plain; [plain|]. intros [x|] s2 Hs2; (apply IH; [lia|]); intros; apply HQ; lia.
  - apply wp_plain; [plain|]. intros. apply HQ. lia.
  - apply IH; [lia|]. intros. apply HQ. lia.
Qed.

Lemma wp_next_single n start c Q s :
  mu s < n → (∀ a s', mu s' ≤ mu s → Q a s') → wp (next_single n start c) Q s.
Proof.
  intros Hn HQ. unfold next_single. repeat case_match;
    first [by apply wp_id2|by apply wp_pl|apply wp_plain; [|exact HQ]; unfold pb, pe, tl, id, ws; plain].
Qed.

(** ** Strings *)
Definition weight (st : string_state) : nat :=
  length (tokens st) + (if bool_decide (content st = []) then 0 else 1).

Definition good_next (n : nat) (nxt : lex_m (option spanned)) : Prop := ∀ s, mu s < n →
  wp nxt (λ t s', match t with Some _ => mu s' < mu s | None => stored_tokens s = [] ∧ s' = s end) s ∧
  (∀ e, (nxt s).2 = LErr e → mu (nxt s).1 < mu s).

Section strings.
Variables (n : nat) (nxt : lex_m (option spanned)) (Hnext : good_next n nxt).

Lemma wp_push a b t st (Q : string_state → lexer → Prop) s :
  (∀ st' s', mu s' ≤ mu s → weight st' = S (weight st) → content st' = content st → Q st' s') → wp (push a b t st) Q s.
Proof.
  intros HQ. unfold push. apply wp_bind, wp_plain; [plain|]. intros x s' Hs'. apply wp_ret. apply HQ; [lia| |done].
  unfold weight. simpl. rewrite length_app. simpl. lia.
Qed.

Lemma wp_push_content mk e st (Q : string_state → lexer → Prop) s :
  (∀ st' s', mu s' ≤ mu s → weight st' = weight st → content st' = [] → Q st' s') → wp (push_content mk e st) Q s.
Proof.
  intros HQ. unfold push_content. case_bool_decide as Hc; [by apply wp_ret, HQ|].
  apply wp_bind, wp_plain; [plain|]. intros x s1 Hs1. cbv zeta. apply wp_bind, wp_push. intros st' s2 Hs2 Hw Hc'.
  apply wp_ret. apply HQ; [lia| |done]. unfold weight in *. simpl. rewrite Hc' in Hw.
  rewrite bool_decide_false in Hw by done. rewrite bool_decide_false by done. lia.
Qed.

Lemma intercept_fuel is_hd e : e ≠ LexFuel → intercept_heredoc_error is_hd e ≠ LexFuel.
Proof. by destruct e, is_hd. Qed.

Lemma wp_interpol m is_hd p first st Q s :
  mu s < n → mu s < m →
  (∀ st' s', mu s' ≤ mu s → mu s' + weight st' ≤ mu s + weight st → Q st' s') →
  wp (interpol_loop nxt m is_hd p first st) Q s.
Proof.
  revert p first st s. induction m as [|m IH]; intros p first st s Hn Hm HQ; [lia|]. cbn [interpol_loop].
  apply wp_bind. destruct (Hnext s Hn) as [[Hmu HN] _]. unfold wp.
  destruct (nxt s) as [s1 [[t|]|e]]; simpl in *.
  - split; [done|].
    assert (weight {| has_escapes := has_escapes st; segment_start := segment_start st; end_of := end_of st;
             tokens := tokens st ++ [t]; content := content st |} = S (weight st)) as Hw.
    { unfold weight. simpl. rewrite length_app. simpl. lia. }
    assert (∀ p', wp (interpol_loop nxt m is_hd p' false {| has_escapes := has_escapes st;
       segment_start := segment_start st; end_of := end_of st; tokens := tokens st ++ [t]; content := content st |}) Q s1) as Hrec.
    { intros p'. apply IH; [lia..|]. intros st' s' H1 H2. apply HQ; lia. }
    destruct (value_of t); try apply Hrec. case_match; [|apply Hrec]. destruct first; [by apply wp_fail|].
    apply wp_ret. apply HQ; [lia|]. unfold weight in *. simpl in *. lia.
  - done.
  - split; [done|]. by apply intercept_fuel.
Qed.

Lemma wp_generic m is_hd mk lc st (Q : string_state → lexer → Prop) s :
  mu s < n → mu s < m →
  (∀ st' s', mu s' ≤ mu s → mu s' + weight st' ≤ mu s + weight st + 1 → Q st' s') →
  wp (handle_qs_hd_generic nxt m is_hd mk lc st) Q s.
Proof.
  intros Hn Hm HQ. unfold handle_qs_hd_generic. destruct lc as [e c].
  assert (∀ a b c x, weight (StringState a b c (tokens st) (content st ++ [x])) ≤ weight st + 1) as Hw.
  { intros. unfold weight. simpl. repeat case_bool_decide; lia. }
  destruct (c =? ch "\")%N.
  - apply wp_bind, wp_plain; [plain|]. intros [e' x] s1 Hs1. destruct (x =? ch "#")%N.
    + apply wp_bind, wp_push_content. intros st1 s2 Hs2 Hw1 Hc1. apply wp_bind, wp_push. intros st2 s3 Hs3 Hw2 Hc2.
      cbv zeta. apply wp_ret. apply HQ; [lia|]. unfold weight in *. simpl in *. rewrite Hc2, Hc1 in *. simpl in *. lia.
    + apply wp_ret. apply HQ; [lia|]. specialize (Hw true (segment_start st) e' x). lia.
  - destruct (c =? ch "#")%N.
    + apply wp_bind, wp_plain; [plain|]. intros d s1 Hs1.
      assert (∀ a b e', wp (mret (StringState a b e' (tokens st) (content st ++ [ch "#"]))) Q s1) as Hret.
      { intros a b e'. apply wp_ret. apply HQ; [lia|]. specialize (Hw a b e' (ch "#")). lia. }
      destruct d as [[e' d]|]; [|apply Hret]. destruct (d =? ch "{")%N; [|apply Hret].
      unfold handle_interpol. apply wp_bind, wp_plain; [plain|]. intros _ s2 Hs2. cbv zeta.
      apply wp_bind, wp_push_content. intros st1 s3 Hs3 Hw1 Hc1. apply wp_bind, wp_push. intros st2 s4 Hs4 Hw2 Hc2.
      apply wp_interpol; [lia..|]. intros st' s' H1 H2. apply HQ; [lia|]. unfold weight in *. simpl in *. lia.
    + apply wp_ret. apply HQ; [lia|]. specialize (Hw (has_escapes st) (segment_start st) (shift c e) c). lia.
Qed.

Lemma wp_qs m st (Q : list spanned → lexer → Prop) s :
  mu s < n → mu s < m →
  (∀ ts s', mu s' ≤ mu s → 1 ≤ length ts → mu s' + length ts ≤ mu s + weight st → Q ts s') → wp (qs nxt m st) Q s.
Proof.
  revert st s. induction m as [|m IH]; intros st s Hn Hm HQ; [lia|]. cbn [qs].
  apply wp_bind, wp_bump; [intros _; by apply wp_fail|]. intros [e c] s1 Hs1 _.
  destruct (c =? DQUOTE)%N.
  - apply wp_bind, wp_push_content. intros st1 s2 Hs2 Hw1 Hc1. apply wp_bind, wp_push. intros st2 s3 Hs3 Hw2 Hc2.
    apply wp_ret. apply HQ; [lia|..]; unfold weight in *; rewrite Hc2, Hc1 in *; simpl in *; lia.
  - destruct (c =? NL)%N; [by apply wp_fail|]. apply wp_bind, wp_generic; [lia..|]. intros st1 s2 Hs2 Hw1.
    apply IH; [lia..|]. intros ts s' H1 Hne H2. apply HQ; lia.
Qed.

Lemma wp_hd m st (Q : list spanned → lexer → Prop) s :
  mu s < n → mu s < m →
  (∀ ts s', mu s' ≤ mu s → 1 ≤ length ts → mu s' + length ts ≤ mu s + weight st → Q ts s') → wp (hd nxt m st) Q s.
Proof.
  revert st s. induction m as [|m IH]; intros st s Hn Hm HQ; [lia|]. cbn [hd].
  apply wp_bind, wp_bump; [intros _; by apply wp_fail|]. intros [e c] s1 Hs1 _.
  assert (∀ ts c', length ts = S (length (tokens st)) → ∀ a b d s', mu s' ≤ mu s1 →
    wp (hd nxt m (StringState a b d ts c')) Q s') as Hrec.
  { intros ts c' Hts a b d s' Hs'. apply IH; [lia..|]. intros ts' s2 H1 Hne H2. apply HQ; [lia..|].
    unfold weight in *. simpl in *. repeat case_bool_decide; lia. }
  destruct (c =? DQUOTE)%N; [|destruct (c =? NL)%N].
  - unfold push at 1. apply wp_bind, wp_bind, wp_plain; [plain|]. intros t s2 Hs2. apply wp_ret.
    apply wp_bind, wp_plain; [plain|]. intros d s3 Hs3. simpl tokens. simpl has_escapes.
    assert (length (tokens st ++ [t]) = S (length (tokens st))) as Hlen by (rewrite length_app; simpl; lia).
    destruct d as [[e2 d]|]; [|apply Hrec; [done|lia]]. destruct (d =? DQUOTE)%N; [|apply Hrec; [done|lia]].
    apply wp_bind, wp_plain; [plain|]. intros _ s4 Hs4. apply wp_bind, wp_plain; [plain|]. intros x s5 Hs5.
    destruct x as [[e3 x]|]; [|apply Hrec; [done|lia]]. destruct (x =? DQUOTE)%N; [|apply Hrec; [done|lia]].
    apply wp_bind, wp_plain; [plain|]. intros _ s6 Hs6. unfold push. apply wp_bind, wp_bind, wp_plain; [plain|].
    intros t' s7 Hs7. apply wp_ret, wp_ret. apply HQ; [lia|..]; simpl; rewrite length_app; simpl; unfold weight; lia.
  - unfold push. apply wp_bind, wp_bind, wp_plain; [plain|]. intros t s2 Hs2. apply wp_ret. cbv zeta.
    apply Hrec; [simpl; rewrite length_app; simpl; lia|lia].
  - apply wp_bind, wp_generic; [lia..|]. intros st1 s2 Hs2 Hw1. apply IH; [lia..|].
    intros ts s' H1 Hne H2. apply HQ; lia.
Qed.

Lemma wp_qs_or_hd m start (Q : list spanned → lexer → Prop) s :
  mu s < n → mu s < m → (∀ ts s', mu s' ≤ mu s → 1 ≤ length ts → mu s' + length ts ≤ mu s + 1 → Q ts s') →
  wp (qs_or_hd nxt m start) Q s.
Proof.
  intros Hn Hm HQ. unfold qs_or_hd. cbv zeta. apply wp_bind, wp_plain; [plain|]. intros q1 s1 Hs1.
  apply wp_bind, wp_lookahead; [intros _; by apply wp_fail|]. intros end2 c Hr.
  destruct (c =? DQUOTE)%N; [|apply wp_qs; [lia..|]; intros ts s' H1 Hne H2; apply HQ; [lia..|];
    unfold weight in *; simpl in *; lia].
  apply wp_bind, wp_bump; [done|]. intros x s3 Hs3 _.
  assert (∀ s', mu s' ≤ mu s3 → wp (q2 ← spanned2 end2 (shift DQUOTE end2) TDQuote; mret [q1; q2]) Q s') as Htwo.
  { intros s' Hs'. apply wp_bind, wp_plain; [plain|]. intros q2 s4 Hs4. apply wp_ret. apply HQ; simpl; lia. }
  apply wp_bind, wp_plain; [plain|]. intros [[end3 d]|] s4 Hs4; [|apply Htwo; lia].
  destruct (d =? DQUOTE)%N; [|apply Htwo; lia].
  apply wp_bind, wp_plain; [plain|]. intros _ s5 Hs5. apply wp_bind, wp_bump; [intros _; by apply wp_fail|].
  intros [nl y] s6 Hs6 _. destruct (y =? NL)%N; [|by apply wp_fail].
  apply wp_bind, wp_plain; [plain|]. intros t s7 Hs7. apply wp_hd; [lia..|]. intros ts s' H1 Hne H2. apply HQ; [lia..|].
  unfold weight in *. simpl in *. lia.
Qed.
End strings.

Definition with_stored (ts : list spanned) (s : lexer) : lexer :=
  Lexer (input s) (rest s) (loc s) (file_offset s) (cu s) ts.

Lemma next_stored n s t ts : stored_tokens s = t :: ts → next (S n) s = (with_stored ts s, LOk (Some t)).
Proof. intros Hs. cbn [next]. by rewrite Hs. Qed.

(** What follows the first character of a token. *)
Definition next_from (n : nat) (start : location) (c : N) : lex_m (option spanned) :=
  if (c =? DQUOTE)%N then
    ts ← qs_or_hd (next n) n start;
    (λ s, (with_stored (stored_tokens s ++ ts) s, LOk tt));;
    next n
  else t ← next_single n start c; mret (Some t).

Lemma next_read n s c r :
  stored_tokens s = [] → rest s = c :: r →
  next (S n) s = next_from n (loc s) c (Lexer (input s) r (shift c (loc s)) (file_offset s) (cu s) []).
Proof. intros Hs Hr. cbn [next]. rewrite Hs. unfold mbind, lex_bind, bump. by rewrite Hr, Hs. Qed.
Lemma next_end n s : stored_tokens s = [] → rest s = [] → next (S n) s = (s, LOk None).
Proof. intros Hs Hr. cbn [next]. rewrite Hs. unfold mbind, lex_bind, bump. by rewrite Hr. Qed.

Lemma next_good n : good_next n (next n).
Proof.
  induction n as [|n IH]; intros s Hn; [lia|]. unfold wp. destruct (stored_tokens s) as [|t ts] eqn:Hst.
  2:{ rewrite (next_stored _ _ _ _ Hst).
      assert (mu (with_stored ts s) < mu s) as Hmu by (unfold mu; simpl; rewrite Hst; simpl; lia).
      split; [|done]. split; [by apply Nat.lt_le_incl|exact Hmu]. }
  destruct (rest s) as [|c r] eqn:Hr; [by rewrite next_end|].
  rewrite (next_read _ _ _ _ Hst Hr).
  set (s1 := {| input := input s; rest := r |}).
  assert (mu s1 + 2 = mu s) as Hs1 by (unfold mu, s1; simpl; rewrite Hr, Hst; simpl; lia).
  assert (wp (next_from n (loc s) c) (λ t s', match t with Some _ => mu s' < mu s | None => False end) s1) as [Hmu Hk].
  { unfold next_from. destruct (c =? DQUOTE)%N.
    - destruct (wp_qs_or_hd n (next n) IH n (loc s) (λ ts s', mu s' + length ts ≤ mu s1 + 1 ∧ 1 ≤ length ts) s1)
        as [Hq HQ]; [lia..|by auto|]. unfold wp, mbind, lex_bind. destruct (qs_or_hd _ _ _ s1) as [s2 [ts|e]]; [|done].
      simpl in HQ. destruct HQ as [HQ Hne]. simpl. set (s3 := with_stored (stored_tokens s2 ++ ts) s2).
      assert (mu s3 = mu s2 + length ts) as Hs3 by (unfold mu, s3; simpl; rewrite length_app; lia).
      destruct (IH s3 ltac:(lia)) as [[Hmu3 Hn3] Herr]. destruct (next n s3) as [s4 [[t|]|e]]; simpl in *.
      + split; lia.
      + destruct Hn3 as [Hn3 _]. apply app_eq_nil in Hn3 as [_ ->]. simpl in Hne. lia.
      + specialize (Herr e eq_refl). split; [lia|done].
    - apply wp_bind, wp_next_single; [lia|]. intros t s2 H2. apply wp_ret. lia. }
  split; [|intros; lia]. split; [lia|].
  destruct (next_from n (loc s) c s1).2 as [[t|]|e]; done.
Qed.

(** ** The tokenizer *)
Lemma fuel_for_mu s : fuel_for s = S (S (mu s)).
Proof. unfold fuel_for, mu. lia. Qed.

Lemma collect_eos n t : eos t = true → 0 < n → collect n t = [].
Proof.
  intros He Hn. destruct n as [|n]; [lia|]. simpl. unfold tokenizer_next. rewrite He. by destruct (next _ _).
Qed.

Lemma last_behind {A} (x : A) l : last l ≠ None → last (x :: l) = last l.
Proof. by destruct l. Qed.

Lemma collect_total n t :
  eos t = false → mu (lexer_of t) + 2 < n →
  (∀ r, r ∈ collect n t → r ≠ LErr LexFuel) ∧ length (collect n t) ≤ S (mu (lexer_of t)) ∧
  ((∃ p, last (collect n t) = Some (LOk (Spanned p TEndOfStream))) ∨ last (collect n t) = Some (LErr LexPanic)).
Proof.
  revert t. induction n as [|n IH]; intros t He Hn; [lia|]. cbn [collect]. unfold tokenizer_next. rewrite He.
  destruct (next_good (fuel_for (lexer_of t)) (lexer_of t)) as [[Hmu Hr] Herr]; [rewrite fuel_for_mu; lia|].
  destruct (next _ (lexer_of t)) as [s [[x|]|e]]; simpl in *.
  - destruct (IH (Tokenizer false (span_of x) s)) as (H1 & H2 & H3); [done|simpl; lia|]. split_and!.
    + intros r [->|Hin]%elem_of_cons; [done|auto].
    + simpl in *. lia.
    + by rewrite last_behind by by destruct H3 as [[p H3]|H3]; rewrite H3.
  - rewrite collect_eos by (done || lia). split_and!; [|simpl; lia|left; by eexists].
    by intros r ->%list_elem_of_singleton.
  - specialize (Herr e eq_refl). destruct (IH (Tokenizer false (pos t) s)) as (H1 & H2 & H3); [done|simpl; lia|].
    assert ((∀ r, r ∈ LErr e :: collect n (Tokenizer false (pos t) s) → r ≠ LErr LexFuel) ∧
      length (LErr e :: collect n (Tokenizer false (pos t) s)) ≤ S (mu (lexer_of t)) ∧
      ((∃ p, last (LErr e :: collect n (Tokenizer false (pos t) s)) = Some (LOk (Spanned p TEndOfStream))) ∨
       last (LErr e :: collect n (Tokenizer false (pos t) s)) = Some (LErr LexPanic))) as Hgo.
    { split_and!.
      + intros r [->|Hin]%elem_of_cons; [congruence|auto].
      + simpl in *. lia.
      + by rewrite last_behind by by destruct H3 as [[p H3]|H3]; rewrite H3. }
    destruct e; try exact Hgo. split_and!; [|simpl; lia|by right]. by intros r ->%list_elem_of_singleton.
Qed.

(** ** When it does not panic

    [steady m]: when all white space ahead is one byte wide, it stays so and
    [m] does not panic. *)
Definition narrow_char (c : N) : Prop := is_whitespace c = true → len_utf8 c = 1%N.
Definition narrow (s : list N) : Prop := Forall narrow_char s.
Definition steady {A} (m : lex_m A) : Prop := ∀ s, narrow (rest s) →
  narrow (rest (m s).1) ∧ (m s).2 ≠ LErr LexPanic.

Lemma steady_ret {A} (a : A) : steady (mret a).
Proof. by intros s. Qed.
Lemma steady_fail {A} e : e ≠ LexPanic → steady (lex_fail (A:=A) e).
Proof. intros He s Hs. split; [done|]. simpl. congruence. Qed.
Lemma steady_asks {A} (f : lexer → A) : steady (asks f).
Proof. by intros s. Qed.
Lemma steady_bind {A B} (m : lex_m A) (f : A → lex_m B) : steady m → (∀ a, steady (f a)) → steady (m ≫= f).
Proof.
  intros Hm Hf s Hs. unfold mbind, lex_bind. destruct (Hm s Hs) as (Hr & Hne).
  destruct (m s) as [s1 [a|e]]; simpl in *; [by apply Hf|]. split; [done|congruence].
Qed.
Lemma steady_or_fail {A} (o : option A) e : e ≠ LexPanic → steady (or_fail o e).
Proof. intros He. destruct o; [apply steady_ret|by apply steady_fail]. Qed.
Lemma steady_bump : steady bump.
Proof.
  intros s Hs. unfold bump. destruct (rest s) eqn:Hr; simpl; rewrite ?Hr; [done|]. by inversion Hs.
Qed.
Lemma steady_lookahead : steady lookahead.
Proof. by intros s. Qed.
Lemma steady_take_until start p : steady (take_until start p).
Proof.
  intros s Hs. unfold take_until.
  assert (∀ e r l, narrow r → narrow (skip_until p e r l).1.1.1) as Hk.
  { intros e r. revert e. induction r as [|c r IH]; intros e l Hr; simpl; [done|].
    destruct (p c); simpl; [done|]. apply IH. by inversion Hr. }
  specialize (Hk start (rest s) (loc s) Hs). destruct (skip_until _ _ _ _) as [[[r l] found] e]. simpl in *. done.
Qed.
Lemma steady_intercept {A} (m : lex_m A) is_hd :
  steady m → steady (λ s, match m s with (s, LErr e) => (s, LErr (intercept_heredoc_error is_hd e)) | r => r end).
Proof.
  intros Hm s Hs. destruct (Hm s Hs) as [Hr Hne]. destruct (m s) as [s1 [a|e]]; simpl in *; [done|].
  split; [done|]. destruct e, is_hd; done.
Qed.

#[local] Create HintDb steady.
#[local] Hint Resolve steady_ret steady_asks steady_bump steady_lookahead steady_take_until : steady.
Ltac steady_step :=
  first
    [ progress intros
    | match goal with
      | |- steady (_ ≫= _) => apply steady_bind
      | |- steady (mret _) => apply steady_ret
      | |- steady (lex_fail _) => apply steady_fail; discriminate
      | |- steady (or_fail _ _) => apply steady_or_fail; discriminate
      | |- steady (match ?x with _ => _ end) => destruct x
      | |- steady (let '_ := ?x in _) => destruct x
      end
    | solve [auto with steady] ].
Ltac steady := cbv zeta; repeat steady_step.

Lemma steady_starts_with a s : steady (starts_with a s).
Proof.
  unfold starts_with. cbv zeta. apply steady_bind; [apply steady_asks|]. intros o. case_bool_decide; [|steady].
  induction (tail s) as [|c t IH]; simpl; steady.
Qed.
#[local] Hint Resolve steady_starts_with : steady.
Lemma steady_slice a b : steady (slice a b).
Proof. apply steady_asks. Qed.
Lemma steady_spanned2 a b t : steady (spanned2 a b t).
Proof. apply steady_asks. Qed.
Lemma steady_take_while a p : steady (take_while a p).
Proof. apply steady_take_until. Qed.
#[local] Hint Resolve steady_slice steady_spanned2 steady_take_while : steady.
Lemma steady_extract_number a p : steady (extract_number a p).
Proof. unfold extract_number. steady. Qed.
Lemma steady_line_directive a b s : steady (line_directive a b s).
Proof. unfold line_directive. do 5 (steady_step; [by steady|]). steady; by intros ?. Qed.
Lemma steady_unicode_digits n e ds : steady (unicode_digits n e ds).
Proof. revert e ds. induction n as [|n IH]; intros e ds; simpl; steady. Qed.
#[local] Hint Resolve steady_extract_number steady_line_directive steady_unicode_digits : steady.
Lemma steady_escape_code : steady escape_code.
Proof. unfold escape_code. steady. Qed.
Lemma steady_test_escape_code : steady test_escape_code.
Proof. unfold test_escape_code. steady. Qed.
Lemma steady_nm_float a : steady (nm_float a).
Proof. unfold nm_float, float_token. steady. Qed.
#[local] Hint Resolve steady_escape_code steady_test_escape_code steady_nm_float : steady.
Lemma steady_nm a : steady (nm a).
Proof. unfold nm, nm_hex. steady. Qed.
#[local] Hint Resolve steady_nm : steady.
Lemma steady_id2 n start string : steady (id2 n start string).
Proof. revert string. induction n as [|n IH]; intros string; cbn [id2]; steady. Qed.
#[local] Hint Resolve steady_id2 : steady.

(** The lines of an extractor have at least the white space that is cut off. *)
Lemma drop_bytes_narrow s n : narrow s → (n ≤ leading s)%N → is_Some (drop_bytes n s).
Proof.
  unfold leading. revert n. induction s as [|c s IH]; intros n Hs Hn; simpl in *.
  { by assert (n = 0%N) as -> by lia; eexists. }
  inversion Hs as [|? ? Hc Hs']; subst. destruct (N.eqb_spec n 0) as [|H0]; [by eexists|].
  destruct (is_whitespace c) eqn:Hw.
  - rewrite (Hc Hw) in *. destruct (N.leb_spec 1 n) as [_|]; [|lia]. apply IH; [done|].
    simpl in Hn. lia.
  - simpl in Hn. lia.
Qed.
Lemma indentation_least ss s : s ∈ ss → s ≠ [] → (indentation ss ≤ leading s)%N.
Proof.
  unfold indentation. set (f := λ (i : option N) (s : list N), if bool_decide (s = []) then i
    else match i with Some i => Some (N.min i (leading s)) | None => Some (leading s) end).
  assert (∀ ss i, match i with Some i => ∃ k, foldl f (Some i) ss = Some k ∧ (k ≤ i)%N | None => True end) as Hle.
  { clear. induction ss as [|s ss IH]; intros [i|]; [by exists i|done| |done]. cbn [foldl]. unfold f at 2.
    case_bool_decide; [apply (IH (Some i))|]. destruct (IH (Some (N.min i (leading s)))) as (k & -> & Hk).
    exists k. split; [done|lia]. }
  intros Hin Hne. generalize (None : option N). induction Hin as [s ss|s x ss Hin IH]; intros i; cbn [foldl].
  - unfold f at 2. rewrite bool_decide_false by done. destruct i as [i|].
    + destruct (Hle ss (Some (N.min i (leading s)))) as (k & -> & Hk). simpl. lia.
    + destruct (Hle ss (Some (leading s))) as (k & -> & Hk). simpl. lia.
  - by apply IH.
Qed.
Lemma steady_dedent ss n :
  Forall narrow ss → Forall (λ s, s ≠ [] → (n ≤ leading s)%N) ss → steady (dedent n ss).
Proof.
  intros Hs Hn. induction Hs as [|s ss Hs Hss IH]; cbn [dedent]; [apply steady_ret|].
  apply Forall_cons in Hn as [Hn Hns]. apply steady_bind.
  - unfold split_at. case_bool_decide; [apply steady_ret|].
    destruct (drop_bytes_narrow s n Hs) as [r ->]; [by apply Hn|apply steady_ret].
  - intros a. apply steady_bind; [by apply IH|]. intros; apply steady_ret.
Qed.

Lemma steady_read {A} (f : option (location * N) → lex_m A) :
  steady (f None) → (∀ l c, narrow_char c → steady (f (Some (l, c)))) → steady (bump ≫= f).
Proof.
  intros HN HS s Hs. unfold mbind, lex_bind, bump. destruct (rest s) as [|c r] eqn:Hr.
  - apply HN. by rewrite Hr.
  - inversion Hs as [|? ? Hc Hr']; subst. by apply (HS (loc s) c Hc).
Qed.
Lemma steady_escape {A} (f : option N → lex_m A) :
  steady (f None) → (∀ x, (x < 128)%N → steady (f (Some x))) → steady (test_escape_code ≫= f).
Proof.
  intros HN HS s Hs. unfold mbind, lex_bind.
  assert (match (test_escape_code s).2 with LOk (Some x) => (x < 128)%N | _ => True end) as Hx.
  { unfold test_escape_code, mbind, lex_bind, bump. destruct (rest s) as [|c r]; [done|].
    destruct (c =? ch "\")%N; [done|]. destruct (c =? ch "|")%N; [done|]. by destruct (c =? NL)%N. }
  destruct (steady_test_escape_code s Hs) as [Hr Hne].
  destruct (test_escape_code s) as [s1 [[x|]|e]]; simpl in *; [by apply HS|by apply HN|].
  split; [done|congruence].
Qed.

Lemma steady_pl n start string strings : narrow string → Forall narrow strings → steady (pl n start string strings).
Proof.
  revert string strings. induction n as [|n IH]; intros string strings Hs Hss; cbn [pl]; [by apply steady_fail|].
  assert (∀ c, (c < 128)%N → narrow (string ++ [c])) as Hpush.
  { intros c Hc. apply Forall_app. split; [done|]. repeat constructor. intros _. unfold len_utf8.
    by rewrite (proj2 (N.ltb_lt _ _) Hc). }
  apply steady_read; [by apply steady_fail|]. intros l c Hc. cbv beta iota.
  destruct (c =? ch "\")%N; [|destruct (c =? ch "|")%N; [|destruct (c =? NL)%N; [by apply steady_fail|]]].
  - apply steady_escape; [|intros x Hx; apply IH; auto].
    apply IH; [constructor|]. apply Forall_app. split; [done|]. by constructor.
  - cbv zeta. apply steady_bind; [|intros; apply steady_spanned2].
    assert (Forall narrow (strings ++ [string])) as Hall by (apply Forall_app; split; [done|by constructor]).
    apply steady_dedent; [done|]. apply Forall_forall. intros x Hx Hne. by apply indentation_least.
  - apply IH; [|done]. apply Forall_app. split; [done|by constructor].
Qed.

Lemma steady_next_single n start c : steady (next_single n start c).
Proof.
  unfold next_single, cx, eq_, cn, gt, lt, pb, pe, tl, symbol, id, ws, minus.
  repeat case_match; try apply steady_pl; try (by constructor); steady.
Qed.
#[local] Hint Resolve steady_next_single : steady.

Section steady_strings.
Variables (nxt : lex_m (option spanned)) (Hnxt : steady nxt).
#[local] Hint Resolve Hnxt : steady.
Lemma steady_push a b t st : steady (push a b t st).
Proof. unfold push. steady. Qed.
#[local] Hint Resolve steady_push : steady.
Lemma steady_push_content mk e st : steady (push_content mk e st).
Proof. unfold push_content. steady. Qed.
#[local] Hint Resolve steady_push_content : steady.
Lemma steady_interpol m h p b st : steady (interpol_loop nxt m h p b st).
Proof.
  revert p b st. induction m as [|m IH]; intros p b st; cbn [interpol_loop]; [by apply steady_fail|].
  apply steady_bind; [by apply steady_intercept|]. steady.
Qed.
#[local] Hint Resolve steady_interpol : steady.
Lemma steady_generic m h mk lc st : steady (handle_qs_hd_generic nxt m h mk lc st).
Proof. unfold handle_qs_hd_generic, handle_interpol. steady. Qed.
#[local] Hint Resolve steady_generic : steady.
Lemma steady_qs m st : steady (qs nxt m st).
Proof. revert st. induction m as [|m IH]; intros st; cbn [qs]; steady. Qed.
Lemma steady_hd m st : steady (hd nxt m st).
Proof. revert st. induction m as [|m IH]; intros st; cbn [hd]; steady. Qed.
#[local] Hint Resolve steady_qs steady_hd : steady.
Lemma steady_qs_or_hd m start : steady (qs_or_hd nxt m start).
Proof. unfold qs_or_hd. steady. Qed.
End steady_strings.

Lemma steady_next n : steady (next n).
Proof.
  induction n as [|n IH]; intros s Hs; [done|]. destruct (stored_tokens s) as [|t ts] eqn:Hst.
  2: { by rewrite (next_stored _ _ _ _ Hst). }
  destruct (rest s) as [|c r] eqn:Hr; [rewrite next_end by done; split; [simpl; by rewrite Hr|done]|].
  rewrite (next_read _ _ _ _ Hst Hr). inversion Hs as [|? ? _ Hr']; subst.
  assert (steady (next_from n (loc s) c)) as Hn; [|by apply Hn].
  unfold next_from. destruct (c =? DQUOTE)%N; [|steady].
  apply steady_bind; [by apply steady_qs_or_hd|]. intros ts. apply steady_bind; [by intros ?|]. done.
Qed.

Lemma collect_steady n t :
  narrow (rest (lexer_of t)) → 0 < n → LErr LexPanic ∉ collect n t.
Proof.
  revert t. induction n as [|n IH]; intros t Ht Hn; [lia|]. cbn [collect]. unfold tokenizer_next.
  destruct (steady_next (fuel_for (lexer_of t)) (lexer_of t) Ht) as [Hr Hne].
  destruct (next _ (lexer_of t)) as [s r]. simpl in *.
  assert (∀ t', narrow (rest (lexer_of t')) → LErr LexPanic ∉ collect n t') as Hgo.
  { intros t' Ht'. destruct n as [|n]; [by intros [=]%list_elem_of_singleton|]. apply IH; [done|lia]. }
  destruct (eos t); [apply not_elem_of_nil|].
  destruct r as [[x|]|e].
  - intros [[=]|Hin]%elem_of_cons. by eapply Hgo, Hin.
  - intros [[=]|Hin]%elem_of_cons. by eapply Hgo, Hin.
  - assert (LErr LexPanic ∉ (LErr e : lres spanned) :: collect n (Tokenizer false (pos t) s)) as Hc.
    { intros [Heq|Hin]%elem_of_cons; [congruence|by eapply Hgo, Hin]. }
    by destruct e.
Qed.

(** C37: Every source is tokenized to its end, unless the lexer panics on the
    way.  Whatever its characters are, with all the errors in it, the tokenizer
    yields at most two tokens for a character, and no loop of the lexer, nor
    the recursion on the interpolations of a string, runs out of the fuel the
    model gives it; the last it yields is the end of the stream, or else it
    panics.  That it can do when it takes the indentation off the lines of an
    extractor and splits a line inside of a character ([mixed_indentation]); it
    does not if all white space of the source is one byte wide. *)
Theorem tokenize_total src :
  (∀ r, r ∈ tokenize src → r ≠ LErr LexFuel) ∧ length (tokenize src) ≤ 2 * length src + 1 ∧
  ((∃ p, last (tokenize src) = Some (LOk (Spanned p TEndOfStream))) ∨ last (tokenize src) = Some (LErr LexPanic)) ∧
  ((∀ c, c ∈ src → is_whitespace c = true → len_utf8 c = 1%N) → LErr LexPanic ∉ tokenize src).
Proof.
  unfold tokenize.
  destruct (collect_total (2 * length src + 3) (new_tokenizer src)) as (H1 & H2 & H3); [done|unfold mu; simpl; lia|].
  split_and!; [done| |done|].
  - unfold mu in H2. simpl in *. lia.
  - intros Hw. apply collect_steady; [|lia]. apply Forall_forall. exact Hw.
Qed.
End lexer.


(** ** More fuel

    [m ⊑ m']: where [m] does not run out of fuel, [m'] does the same. *)
Definition approx {A} (m m' : lex_m A) : Prop := ∀ s, (m s).2 ≠ LErr LexFuel → m' s = m s.
Infix "⊑ₗ" := approx (at level 70).

Lemma approx_refl {A} (m : lex_m A) : m ⊑ₗ m.
Proof. by intros s. Qed.
Lemma approx_fuel {A} (m : lex_m A) : lex_fail LexFuel ⊑ₗ m.
Proof. by intros s Hs. Qed.
Lemma approx_bind {A B} (m m' : lex_m A) (f f' : A → lex_m B) :
  m ⊑ₗ m' → (∀ a, f a ⊑ₗ f' a) → m ≫= f ⊑ₗ m' ≫= f'.
Proof.
  intros Hm Hf s. unfold mbind, lex_bind. specialize (Hm s). destruct (m s) as [s1 [a|e]]; simpl in *.
  - intros Hne. rewrite Hm by done. by apply Hf.
  - intros Hne. by rewrite Hm by congruence.
Qed.
Lemma approx_intercept {A} (m m' : lex_m A) is_hd :
  m ⊑ₗ m' →
  (λ s, match m s with (s, LErr e) => (s, LErr (intercept_heredoc_error is_hd e)) | r => r end) ⊑ₗ
  (λ s, match m' s with (s, LErr e) => (s, LErr (intercept_heredoc_error is_hd e)) | r => r end).
Proof.
  intros Hm s. specialize (Hm s). destruct (m s) as [s1 [a|e]]; simpl in *; intros Hne.
  - by rewrite Hm.
  - rewrite Hm; [done|]. intros [= ->]. by destruct is_hd.
Qed.

Ltac approx_step :=
  first
    [ apply approx_refl
    | apply approx_fuel
    | assumption
    | progress (intros; cbv beta)
    | match goal with
      | |- _ ≫= _ ⊑ₗ _ ≫= _ => apply approx_bind; [|intros ?]
      | |- (match ?x with _ => _ end) ⊑ₗ _ => destruct x
      | IH : ∀ _, _ |- _ => solve [apply IH; lia]
      end ].
Ltac approx := cbv zeta; repeat approx_step.

Section more_fuel.
Context `{!lexer_libs}.

Lemma id2_more n m a s : n ≤ m → id2 n a s ⊑ₗ id2 m a s.
Proof. revert m s. induction n as [|n IH]; intros [|m] s Hm; try lia; cbn [id2]; approx. Qed.
Lemma pl_more n m a s ss : n ≤ m → pl n a s ss ⊑ₗ pl m a s ss.
Proof. revert m s ss. induction n as [|n IH]; intros [|m] s ss Hm; try lia; cbn [pl]; approx. Qed.
Lemma next_single_more n m a c : n ≤ m → next_single n a c ⊑ₗ next_single m a c.
Proof. intros Hm. unfold next_single. repeat case_match; try apply approx_refl; [by apply id2_more|by apply pl_more]. Qed.

Section strings.
Variables (nxt nxt' : lex_m (option spanned)) (Hnxt : nxt ⊑ₗ nxt').

Lemma interpol_more n m h p b st : n ≤ m → interpol_loop nxt n h p b st ⊑ₗ interpol_loop nxt' m h p b st.
Proof.
  revert m p b st. induction n as [|n IH]; intros [|m] p b st Hm; try lia; cbn [interpol_loop]; [approx..|].
  apply approx_bind; [by apply approx_intercept|]. approx.
Qed.
Lemma generic_more n m h mk lc st :
  n ≤ m → handle_qs_hd_generic nxt n h mk lc st ⊑ₗ handle_qs_hd_generic nxt' m h mk lc st.
Proof.
  intros Hm. unfold handle_qs_hd_generic, handle_interpol. destruct lc as [e c]. cbv zeta.
  repeat (approx_step || (apply interpol_more; lia)).
Qed.
Lemma qs_more n m st : n ≤ m → qs nxt n st ⊑ₗ qs nxt' m st.
Proof.
  revert m st. induction n as [|n IH]; intros [|m] st Hm; try lia; cbn [qs]; cbv zeta;
    repeat (approx_step || (apply generic_more; lia)).
Qed.
Lemma hd_more n m st : n ≤ m → hd nxt n st ⊑ₗ hd nxt' m st.
Proof.
  revert m st. induction n as [|n IH]; intros [|m] st Hm; try lia; cbn [hd]; cbv zeta;
    repeat (approx_step || (apply generic_more; lia)).
Qed.
Lemma qs_or_hd_more n m a : n ≤ m → qs_or_hd nxt n a ⊑ₗ qs_or_hd nxt' m a.
Proof.
  intros Hm. unfold qs_or_hd. cbv zeta. repeat (approx_step || (apply qs_more; lia) || (apply hd_more; lia)).
Qed.
End strings.

Lemma lexer_next_more n m : n ≤ m → next n ⊑ₗ next m.
Proof.
  revert m. induction n as [|n IH]; intros [|m] Hm s; try lia; [done..|]. destruct (stored_tokens s) as [|t ts] eqn:Hs.
  2:{ intros _. by rewrite !(next_stored _ _ _ _ Hs). }
  destruct (rest s) as [|c r] eqn:Hr; [intros _; by rewrite !next_end|]. rewrite !(next_read _ _ _ _ Hs Hr).
  assert (next_from n (loc s) c ⊑ₗ next_from m (loc s) c) as Ha; [|by apply Ha].
  unfold next_from. assert (next n ⊑ₗ next m) as Hn by (apply IH; lia).
  repeat (approx_step || (apply qs_or_hd_more; [done|lia]) || (apply next_single_more; lia)).
Qed.

(** With any fuel that is enough the result is the one of the tokenizer. *)
Lemma next_enough n s : (next n s).2 ≠ LErr LexFuel → next (fuel_for s) s = next n s.
Proof.
  intros Hne. assert (next (max n (fuel_for s)) s = next n s) as <- by (apply lexer_next_more; [lia|done]).
  symmetry. apply lexer_next_more; [lia|].
  destruct (next_good (fuel_for s) s) as [[_ Hr] _]; [rewrite fuel_for_mu; lia|].
  by destruct (next (fuel_for s) s) as [s' [a|e]]; simpl in *; congruence.
Qed.
End more_fuel.
