(* ===== verification/LexerSpec.v ===== *)
(** What the lexer reads, without locations: a grammar of tokens, and that
    the lexer reads exactly the tokens of the grammar. *)
From Stdlib Require Import Ascii.
From S2P Require Import Prelude Value ValueOrd ScriptOps Text Token Lexer LexerTotal.

Fixpoint split_while (p : N → bool) (s : list N) : list N * list N :=
  match s with
  | [] => ([], [])
  | c :: s' => if p c then let '(w, r) := split_while p s' in (c :: w, r) else ([], s)
  end.

Definition without_separators (s : list N) : list N := filter (λ c, c ≠ ch "_") s.

Section grammar.
Context `{!lexer_libs}.

(** ** Tokens that are not strings

    [scan1 s]: the first token of [s] and what is left, or nothing. *)
Definition scan_float (f : list N) (r : list N) : option (token * list N) :=
  (λ x, (TFloatLiteral x f, r)) <$> read_f64 f.
Definition digit_or_separator (p : N → bool) (c : N) : bool := p c || (c =? ch "_")%N.

Definition scan_fraction (pre r : list N) : option (token * list N) :=
  let '(w, r) := split_while (digit_or_separator is_dec_digit) r in
  let float := without_separators (pre ++ w) in
  match r with
  | c :: r' =>
    if (c =? ch "e")%N then
      match r' with
      | [] => None
      | x :: r3 =>
        match r3 with
        | d :: r4 =>
          if is_sign d then
            let '(w, r) := split_while (digit_or_separator is_dec_digit) r4 in
            scan_float (float ++ ch "e" :: [x] ++ without_separators (d :: w)) r
          else
            let '(w, r) := split_while (digit_or_separator is_dec_digit) r3 in
            scan_float (float ++ ch "e" :: without_separators (x :: w)) r
        | [] => scan_float (float ++ ch "e" :: without_separators [x]) []
        end
      end
    else if is_ident_start c then None else scan_float float r
  | [] => scan_float float []
  end.

Definition scan_hex (int r : list N) : option (token * list N) :=
  match r with
  | [] => None
  | x :: r =>
    let '(w, r) := split_while (digit_or_separator is_hex) r in
    if bool_decide (int = txt "0") || bool_decide (int = txt "-0") then
      if match r with c :: _ => is_ident_start c | [] => false end then None
      else (λ v, (TIntLiteral v, r)) <$> i64_from_hex (without_separators (x :: w)) (bool_decide (int = txt "0"))
    else None
  end.

Definition scan_number (c : N) (cs : list N) : option (token * list N) :=
  let '(w, r) := split_while (digit_or_separator is_dec_digit) cs in
  let int := without_separators (c :: w) in
  let val := (λ v, (TIntLiteral v, r)) <$> i64_from_str_radix 10 is_dec_digit int in
  match r with
  | d :: r' =>
    if (d =? ch ".")%N then scan_fraction (c :: w ++ [d]) r'
    else if (d =? ch "x")%N then scan_hex int r'
    else if is_ident_start d then None
    else val
  | [] => val
  end.

(** The fields of a line directive, as [line_directive] takes them. *)
Definition directive_token (directive : list N) : option token :=
  match split_on (ch " ") (trim_chars is_whitespace directive) with
  | a :: l :: c :: u :: file :: _ =>
    u ← usize_parse u; l ← usize_parse l; c ← usize_parse c; a ← usize_parse a;
    Some (TLineDirective (move_up_lines 1 (Location u l c a)) file)
  | _ => None
  end.

Definition scan_comment (cs : list N) : option (token * list N) :=
  match strip (txt "!config ") cs with
  | Some r => Some (TConfigDirective, r)
  | None =>
    let '(w, r) := split_while (λ c, negb (c =? NL)%N) cs in
    let lexeme := ch "#" :: w in
    match strip (txt "###") lexeme, strip (txt "##") lexeme, strip (txt "#!line") lexeme with
    | Some l, _, _ => Some (TModComment l, r)
    | None, Some l, _ => Some (TDocComment l, r)
    | None, None, Some d => (λ t, (t, r)) <$> directive_token d
    | None, None, None => Some (TSingleLineComment (drop_while (λ c, (c =? ch "#")%N) lexeme), r)
    end
  end.

(** A second character, or else the first one alone. *)
Definition scan_second (ts : list (N * token)) (t : token) (end_ : option token) (cs : list N) :
    option (token * list N) :=
  match cs with
  | d :: r => Some match find_char d ts with Some t' => (t', r) | None => (t, cs) end
  | [] => (λ t, (t, [])) <$> end_
  end.

Definition scan_gt (cs : list N) : option (token * list N) :=
  match cs with
  | d :: r =>
    if (d =? ch ">")%N then
      match r with
      | x :: r' => if (x =? ch ">")%N then Some (TRBitShiftUnsigned, r') else Some (TRBitShiftSigned, r)
      | [] => Some (TRBitShiftSigned, r)
      end
    else if (d =? ch "=")%N then Some (TGte, r) else Some (TGt, cs)
  | [] => Some (TBad (txt ">"), [])
  end.

Definition scan_colons (cs : list N) : option (token * list N) :=
  let '(w, r) := split_while (λ c, (c =? ch ":")%N) cs in
  let lexeme := ch ":" :: w in
  Some (if bool_decide (lexeme = txt "::") then TColonColon
        else if bool_decide (lexeme = txt ":") then TColon else TBad lexeme, r).

Definition scan_quoted (cs : list N) : option (token * list N) :=
  let '(w, r) := split_while (λ c, negb (c =? ch "`")%N && negb (c =? NL)%N) cs in
  match r with c :: r => if (c =? ch "`")%N then Some (TIdent w true, r) else None | [] => None end.

Definition split_at_opt (n : N) (s : list N) : option (list N) :=
  if bool_decide (s = []) then Some s else drop_bytes n s.
Definition test_literal (strings : list (list N)) : option token :=
  TTestLiteral (indentation strings) <$> mapM (split_at_opt (indentation strings)) strings.
Fixpoint scan_test (string : list N) (strings : list (list N)) (cs : list N) : option (token * list N) :=
  match cs with
  | [] => None
  | c :: cs =>
    if (c =? ch "\")%N then
      match cs with
      | [] => None
      | d :: cs =>
        if (d =? ch "\")%N then scan_test (string ++ [d]) strings cs
        else if (d =? ch "|")%N then scan_test (string ++ [d]) strings cs
        else if (d =? NL)%N then scan_test [] (strings ++ [string]) cs
        else None
      end
    else if (c =? ch "|")%N then (λ t, (t, cs)) <$> test_literal (strings ++ [string])
    else if (c =? NL)%N then None
    else scan_test (string ++ [c]) strings cs
  end.

Definition scan_while (p : N → bool) (mk : list N → token) (c : N) (cs : list N) : option (token * list N) :=
  let '(w, r) := split_while p cs in Some (mk (c :: w), r).

Definition scan_minus (cs : list N) : option (token * list N) :=
  match cs with
  | d :: _ => if is_dec_digit d then scan_number (ch "-") cs else Some (TSub, cs)
  | [] => Some (TSub, [])
  end.

Definition scan1 (s : list N) : option (token * list N) :=
  match s with
  | [] => None
  | c :: cs =>
    if (c =? DQUOTE)%N then None
    else match find_char c simple_tokens with
    | Some t => Some (t, cs)
    | None =>
      if (c =? ch ":")%N then scan_colons cs
      else if (c =? ch "-")%N then scan_minus cs
      else if (c =? ch "#")%N then scan_comment cs
      else if (c =? ch "=")%N then scan_second [(ch ">", TEqArrow); (ch "=", TEqEq)] TEq (Some TEq) cs
      else if (c =? ch "<")%N then scan_second [(ch "<", TLBitShift); (ch "=", TLte)] TLt (Some (TBad (txt "<"))) cs
      else if (c =? ch ">")%N then scan_gt cs
      else if (c =? ch "%")%N then
        scan_second [(ch "[", TLPatBracket); (ch "(", TLPatParen); (ch "{", TLPatBrace)] TMod None cs
      else if (c =? ch "~")%N then scan_second [(ch "=", TTildeEq)] TTilde None cs
      else if (c =? ch "`")%N then scan_quoted cs
      else if (c =? ch "!")%N then scan_second [(ch "=", TNotEq)] TBitNot None cs
      else if (c =? NL)%N then Some (TNewLine, cs)
      else if is_ident_start c then scan_while is_ident_continue ident_to_token c cs
      else if is_test_start c then scan_test [] [] cs
      else if is_dec_digit c then scan_number c cs
      else if is_whitespace c then scan_while is_ws TWhitespace c cs
      else Some (TBad [c], cs)
    end
  end.
End grammar.

(** ** What has been read

    [read_from w start s]: the lexer has read [w] since [start]. *)
Definition read_from (w : list N) (start : location) (s : lexer) : Prop := ∃ p,
  input s = p ++ w ++ rest s ∧ absolute start = bytes_len p ∧ absolute (loc s) = bytes_len (p ++ w).

Definition advance (q : list N) (s : lexer) : lexer :=
  Lexer (input s) (drop (length q) (rest s)) (shift_str q (loc s)) (file_offset s) (cu s) (stored_tokens s).

Lemma bytes_len_app a b : bytes_len (a ++ b) = (bytes_len a + bytes_len b)%N.
Proof. induction a as [|c a IH]; simpl; [done|]. rewrite IH. lia. Qed.
Lemma len_utf8_pos c : (0 < len_utf8 c)%N.
Proof. unfold len_utf8. repeat case_match; lia. Qed.

Lemma drop_bytes_app a b : drop_bytes (bytes_len a) (a ++ b) = Some b.
Proof.
  induction a as [|c a IH]; simpl; [by destruct b|]. pose proof (len_utf8_pos c).
  destruct (N.eqb_spec (len_utf8 c + bytes_len a) 0) as [|_]; [lia|].
  destruct (N.leb_spec (len_utf8 c) (len_utf8 c + bytes_len a)) as [_|]; [|lia].
  by replace (len_utf8 c + bytes_len a - len_utf8 c)%N with (bytes_len a) by lia.
Qed.
Lemma take_bytes_app a b : take_bytes (bytes_len a) (a ++ b) = Some a.
Proof.
  induction a as [|c a IH]; simpl; [by destruct b|]. pose proof (len_utf8_pos c).
  destruct (N.eqb_spec (len_utf8 c + bytes_len a) 0) as [|_]; [lia|].
  destruct (N.leb_spec (len_utf8 c) (len_utf8 c + bytes_len a)) as [_|]; [|lia].
  replace (len_utf8 c + bytes_len a - len_utf8 c)%N with (bytes_len a) by lia. by rewrite IH.
Qed.

Lemma absolute_shift c l : absolute (shift c l) = (absolute l + len_utf8 c)%N.
Proof. unfold shift. by destruct (c =? NL)%N. Qed.
Lemma absolute_shift_str q l : absolute (shift_str q l) = (absolute l + bytes_len q)%N.
Proof.
  unfold shift_str. revert l. induction q as [|c q IH]; intros l; simpl; [lia|]. rewrite IH, absolute_shift. lia.
Qed.

Lemma shift_str_app a b l : shift_str (a ++ b) l = shift_str b (shift_str a l).
Proof. unfold shift_str. by rewrite foldl_app. Qed.
Lemma advance_app a b s : advance (a ++ b) s = advance b (advance a s).
Proof. unfold advance. simpl. by rewrite shift_str_app, drop_drop, length_app. Qed.
Lemma advance_nil s : advance [] s = s.
Proof. unfold advance. simpl. rewrite drop_0. by destruct s. Qed.
Lemma rest_advance q r s : rest s = q ++ r → rest (advance q s) = r.
Proof. intros Hr. simpl. by rewrite Hr, drop_app_length. Qed.

Lemma read_from_advance w q r start s :
  read_from w start s → rest s = q ++ r → read_from (w ++ q) start (advance q s).
Proof.
  intros (p & Hi & Hst & Hl) Hr. exists p. rewrite (rest_advance q r) by done. simpl. split_and!; [|done|].
  - by rewrite Hi, Hr, <-!app_assoc.
  - by rewrite absolute_shift_str, Hl, app_assoc, !bytes_len_app.
Qed.
Lemma read_from_here w start s : read_from w start s → read_from [] (loc s) s.
Proof.
  intros (p & Hi & Hst & Hl). exists (p ++ w). rewrite app_nil_r. split_and!; [|done..]. simpl. by rewrite Hi, <-app_assoc.
Qed.

Lemma slice_read w start s : read_from w start s → slice start (loc s) s = (s, LOk (Some w)).
Proof.
  intros (p & Hi & Hst & Hl). unfold slice, asks. rewrite Hi, Hst, Hl, bytes_len_app.
  destruct (N.ltb_spec (bytes_len p + bytes_len w) (bytes_len p)); [lia|]. rewrite drop_bytes_app. simpl.
  replace (bytes_len p + bytes_len w - bytes_len p)%N with (bytes_len w) by lia. by rewrite take_bytes_app.
Qed.

(** ** Running the parts *)
Lemma run_bind {A B} (m : lex_m A) (f : A → lex_m B) s s1 a : m s = (s1, LOk a) → (m ≫= f) s = f a s1.
Proof. intros Hm. unfold mbind, lex_bind. by rewrite Hm. Qed.
Lemma run_bump s c r : rest s = c :: r → bump s = (advance [c] s, LOk (Some (loc s, c))).
Proof. intros Hr. unfold bump, advance. by rewrite Hr. Qed.
Lemma run_lookahead s c r : rest s = c :: r → lookahead s = (s, LOk (Some (loc s, c))).
Proof. intros Hr. unfold lookahead. by rewrite Hr. Qed.
Lemma run_lookahead_end s : rest s = [] → lookahead s = (s, LOk None).
Proof. intros Hr. unfold lookahead. by rewrite Hr. Qed.

Lemma split_while_app p s : s = (split_while p s).1 ++ (split_while p s).2.
Proof.
  induction s as [|c s IH]; simpl; [done|]. destruct (p c); [|done]. destruct (split_while p s) as [w r]. simpl in *.
  by rewrite IH.
Qed.
Lemma split_while_all p s : Forall (λ c, p c = true) (split_while p s).1.
Proof.
  induction s as [|c s IH]; simpl; [done|]. destruct (p c) eqn:Hc; [|done].
  destruct (split_while p s) as [w r]. simpl in *. by constructor.
Qed.
Lemma split_while_stop p s : match (split_while p s).2 with c :: _ => p c = false | [] => True end.
Proof.
  induction s as [|c s IH]; simpl; [done|]. destruct (p c) eqn:Hc; [|done]. by destruct (split_while p s) as [w r].
Qed.
Lemma split_while_nonempty p s c : c ∈ s → p c = false → (split_while p s).2 ≠ [].
Proof.
  intros Hin Hc. induction Hin as [c s|c d s Hin IH]; simpl.
  - by rewrite Hc.
  - destruct (p d); [|done]. destruct (split_while p s) as [w r]. by apply IH.
Qed.
Lemma split_while_exact p w r :
  Forall (λ c, p c = true) w → match r with c :: _ => p c = false | [] => True end → split_while p (w ++ r) = (w, r).
Proof.
  induction 1 as [|c w Hc Hw IH]; simpl; intros Hr; [|by rewrite Hc, IH].
  destruct r as [|c r]; simpl; [done|]. by rewrite Hr.
Qed.

Lemma skip_until_spec p e r l :
  (split_while (λ c, negb (p c)) r).2 ≠ [] →
  let v := (split_while (λ c, negb (p c)) r).1 in
  skip_until p e r l =
    ((split_while (λ c, negb (p c)) r).2, shift_str v l, Some (shift_str v l), shift_str v l).
Proof.
  revert e l. induction r as [|c r IH]; intros e l; simpl; [done|]. destruct (p c); simpl; [done|].
  intros Hne. specialize (IH l (shift c l)). destruct (split_while _ r) as [w r']. simpl in *. by apply IH.
Qed.

Lemma run_take_until start p w s :
  read_from w start s → (split_while (λ c, negb (p c)) (rest s)).2 ≠ [] →
  let v := (split_while (λ c, negb (p c)) (rest s)).1 in
  take_until start p s = (advance v s, LOk (loc (advance v s), w ++ v)).
Proof.
  intros Hw Hne v. unfold take_until. rewrite skip_until_spec by done. fold v. cbv zeta.
  assert (rest s = v ++ (split_while (λ c, negb (p c)) (rest s)).2) as Hr by apply split_while_app.
  assert (Lexer (input s) (split_while (λ c, negb (p c)) (rest s)).2 (shift_str v (loc s)) (file_offset s) (cu s)
            (stored_tokens s) = advance v s) as Hadv.
  { unfold advance. f_equal. by rewrite Hr at 2; rewrite drop_app_length. }
  rewrite Hadv. rewrite (run_bind _ _ _ (advance v s) (Some (w ++ v))); [done|].
  apply slice_read. by eapply read_from_advance.
Qed.

(** ** Computations that read what the grammar says

    [reads m s o]: from [s] on [m] reads the token of [o], or fails if there is
    none.  A line directive moves the offset that only shows in spans. *)
Definition moved (q : list N) (s s' : lexer) : Prop :=
  input s' = input s ∧ rest s' = drop (length q) (rest s) ∧ loc s' = shift_str q (loc s) ∧
  stored_tokens s' = stored_tokens s.
Lemma moved_advance q s : moved q s (advance q s).
Proof. done. Qed.
Lemma moved_app a b s s' : moved b (advance a s) s' → moved (a ++ b) s s'.
Proof.
  intros (H1 & H2 & H3 & H4). unfold moved. rewrite shift_str_app, length_app, <-drop_drop. by split_and!.
Qed.
Lemma moved_rest q r s s' : moved q s s' → rest s = q ++ r → rest s' = r.
Proof. intros (_ & -> & _) ->. apply drop_app_length. Qed.
Lemma moved_read_from w q r start s s' :
  read_from w start s → moved q s s' → rest s = q ++ r → read_from (w ++ q) start s'.
Proof.
  intros Hw (H1 & H2 & H3 & _) Hr. destruct (read_from_advance w q r start s Hw Hr) as (p & Ha & Hb & Hc).
  exists p. rewrite H1, H2, H3. by split_and!.
Qed.

Definition reads (m : lex_m spanned) (s : lexer) (o : option (token * list N)) : Prop :=
  match o with
  | Some (t, r) => ∃ q s' x, rest s = q ++ r ∧ m s = (s', LOk x) ∧ moved q s s' ∧ value_of x = t
  | None => ∀ s' x, m s ≠ (s', LOk x)
  end.

Lemma reads_spanned a b t s : reads (spanned2 a b t) s (Some (t, rest s)).
Proof. exists [], s. eexists. by split_and!. Qed.
Lemma reads_fail e s : reads (lex_fail e) s None.
Proof. intros s' x [=]. Qed.
Lemma reads_run {A} (m : lex_m A) (f : A → lex_m spanned) s v r a o :
  rest s = v ++ r → m s = (advance v s, LOk a) → reads (f a) (advance v s) o → reads (m ≫= f) s o.
Proof.
  intros Hr Hm. destruct o as [[t r']|]; simpl; rewrite (run_bind m f s (advance v s) a Hm); [|done].
  intros (q & s' & x & Hq & Hf & Hmv & Hx). exists (v ++ q), s', x. split_and!; [|done|by apply moved_app|done].
  rewrite Hr in Hq. rewrite drop_app_length in Hq. by rewrite Hr, Hq, <-app_assoc.
Qed.
Lemma reads_bump (f : option (location * N) → lex_m spanned) s c r o :
  rest s = c :: r → reads (f (Some (loc s, c))) (advance [c] s) o → reads (bump ≫= f) s o.
Proof. intros Hr. apply (reads_run _ _ _ [c] r); [done|]. by apply (run_bump _ _ r). Qed.
Lemma reads_stay {A} (m : lex_m A) (f : A → lex_m spanned) s a o :
  m s = (s, LOk a) → reads (f a) s o → reads (m ≫= f) s o.
Proof.
  intros Hm Hf. apply (reads_run _ _ _ [] (rest s) a); [done|by rewrite advance_nil|by rewrite advance_nil].
Qed.
Lemma reads_lookahead (f : option (location * N) → lex_m spanned) s o :
  reads (f match rest s with c :: _ => Some (loc s, c) | [] => None end) s o → reads (lookahead ≫= f) s o.
Proof. apply reads_stay. unfold lookahead. by destruct (rest s). Qed.
Lemma reads_take_until start p w s (f : location * list N → lex_m spanned) o :
  read_from w start s → (split_while (λ c, negb (p c)) (rest s)).2 ≠ [] →
  (let v := (split_while (λ c, negb (p c)) (rest s)).1 in
   reads (f (loc (advance v s), w ++ v)) (advance v s) o) →
  reads (take_until start p ≫= f) s o.
Proof. intros Hw Hne Hf. eapply reads_run; [apply split_while_app|by apply run_take_until|exact Hf]. Qed.

Lemma split_while_ext p p' s : (∀ c, p c = p' c) → split_while p s = split_while p' s.
Proof. intros Hp. induction s as [|c s IH]; simpl; [done|]. by rewrite Hp, IH. Qed.

(** The same, by what is split off. *)
Lemma reads_take_while start p w s (f : location * list N → lex_m spanned) v r o :
  read_from w start s → NL ∈ rest s → p NL = false → split_while p (rest s) = (v, r) →
  reads (f (loc (advance v s), w ++ v)) (advance v s) o → reads (take_while start p ≫= f) s o.
Proof.
  intros Hw Hnl Hp Hv Hf. unfold take_while.
  assert (split_while (λ c, negb (negb (p c))) (rest s) = (v, r)) as Hv'.
  { rewrite <-Hv. apply split_while_ext. intros c. apply negb_involutive. }
  apply (reads_take_until _ _ w); [done| |by rewrite Hv'].
  apply (split_while_nonempty _ _ NL); [done|]. by rewrite Hp.
Qed.
Lemma reads_extract start p w s (f : location * list N → lex_m spanned) v r o :
  read_from w start s → NL ∈ rest s → p NL = false → split_while (digit_or_separator p) (rest s) = (v, r) →
  reads (f (loc (advance v s), without_separators (w ++ v))) (advance v s) o →
  reads (extract_number start p ≫= f) s o.
Proof.
  intros Hw Hnl Hp Hv Hf. unfold extract_number.
  assert (∀ st, ((r0 ← take_while start (λ c, p c || (c =? ch "_")%N);
     mret (r0.1, filter (λ c, c ≠ ch "_") r0.2)) ≫= f) st =
     (r0 ← take_while start (digit_or_separator p); f (r0.1, without_separators r0.2)) st) as Heq.
  { intros st. unfold mbind, lex_bind. by destruct (take_while _ _ st) as [s1 [[e l]|e]]. }
  enough (reads (r0 ← take_while start (digit_or_separator p); f (r0.1, without_separators r0.2)) s o) as Hr.
  { unfold reads in *. destruct o as [[t r']|]; [|intros s' x; rewrite Heq; apply Hr].
    destruct Hr as (q & s' & x & Hq & Hm & Hx). exists q, s', x. by rewrite Heq. }
  eapply reads_take_while; [done..| |exact Hv|exact Hf]. unfold digit_or_separator. by rewrite Hp.
Qed.

Lemma reads_extract_end start p s (f : location * list N → lex_m spanned) o :
  read_from [NL] start s → rest s = [] →
  reads (f (shift 0 start, [NL])) s o → reads (extract_number start p ≫= f) s o.
Proof.
  intros (pre & Hi & Hst & Hl) Hr Hf. eapply reads_stay; [|exact Hf].
  assert (slice start (shift 0 start) s = (s, LOk (Some [NL]))) as Hs.
  { unfold slice, asks. rewrite absolute_shift, Hst, Hi. change (len_utf8 0) with (bytes_len [NL]).
    destruct (N.ltb_spec (bytes_len pre + bytes_len [NL]) (bytes_len pre)); [lia|]. rewrite drop_bytes_app.
    cbn [mbind option_bind].
    replace (bytes_len pre + bytes_len [NL] - bytes_len pre)%N with (bytes_len [NL]) by lia. by rewrite take_bytes_app. }
  unfold extract_number, take_while, take_until.
  assert (∀ q, skip_until q start (rest s) (loc s) = ([], loc s, None, start)) as Hskip by by rewrite Hr.
  unfold mbind at 1, lex_bind at 1. rewrite Hskip.
  replace (Lexer (input s) [] (loc s) (file_offset s) (cu s) (stored_tokens s)) with s by (rewrite <-Hr; by destruct s).
  by rewrite (run_bind _ _ _ _ _ Hs).
Qed.

Lemma last_app_r {A} (a b : list A) x : last (a ++ b) = Some x → b ≠ [] → last b = Some x.
Proof. intros Hl Hb. rewrite last_app in Hl. destruct (last b) eqn:Hlb; [done|]. by apply last_None in Hlb. Qed.
Lemma last_elem {A} (l : list A) x : last l = Some x → x ∈ l.
Proof. intros [l' ->]%last_Some. set_solver. Qed.
Lemma last_cons_ne {A} (c x : A) l : last (c :: l) = Some x → c ≠ x → last l = Some x.
Proof. destruct l; [intros [=]; congruence|done]. Qed.

Lemma split_while_last p s v r :
  split_while p s = (v, r) → last s = Some NL → p NL = false → last r = Some NL.
Proof.
  intros Hs Hl Hp. pose proof (split_while_app p s) as Happ. rewrite Hs in Happ. simpl in Happ.
  rewrite Happ in Hl. apply last_app_r in Hl; [done|]. apply last_elem in Hl.
  pose proof (split_while_all p s) as Hall. rewrite Hs in Hall. simpl in Hall.
  intros ->. rewrite app_nil_r in Hl. rewrite Forall_forall in Hall. apply Hall in Hl. congruence.
Qed.

Lemma split_while_NL p s v r : split_while p s = (v, r) → NL ∈ s → p NL = false → NL ∈ r.
Proof.
  intros Hs Hin Hp. pose proof (split_while_app p s) as Happ. pose proof (split_while_all p s) as Hall.
  rewrite Hs in *. simpl in *. rewrite Happ in Hin. apply elem_of_app in Hin as [Hin|Hin]; [|done].
  rewrite Forall_forall in Hall. apply Hall in Hin. congruence.
Qed.
Lemma split_while_rest p s v r : split_while p s = (v, r) → s = v ++ r.
Proof. intros Hs. pose proof (split_while_app p s) as Happ. by rewrite Hs in Happ. Qed.

Lemma advance_rest p s v r : split_while p (rest s) = (v, r) → rest (advance v s) = r.
Proof. intros Hs. apply rest_advance, (split_while_rest p), Hs. Qed.

Section tokens.
Context `{!lexer_libs}.

Lemma ident_continue_NL : is_ident_continue NL = false.
Proof. unfold is_ident_continue. by rewrite xid_continue_ascii. Qed.
Lemma ident_start_NL : is_ident_start NL = false.
Proof. unfold is_ident_start. by rewrite xid_start_ascii. Qed.

Lemma reads_done v r a b t s : rest s = v ++ r → reads (spanned2 a b t) (advance v s) (Some (t, r)).
Proof. intros Hr. rewrite <-(rest_advance v r s Hr). apply reads_spanned. Qed.
Lemma reads_here r a b t s : rest s = r → reads (spanned2 a b t) s (Some (t, r)).
Proof. intros <-. apply reads_spanned. Qed.

Lemma reads_lt start s :
  reads (lt start) s (scan_second [(ch "<", TLBitShift); (ch "=", TLte)] TLt (Some (TBad (txt "<"))) (rest s)).
Proof.
  unfold lt. apply reads_lookahead. unfold scan_second. destruct (rest s) as [|d r] eqn:Hr; [by apply reads_here|].
  destruct (find_char d _) as [t'|]; [|by apply reads_here]. eapply reads_bump; [done|]. by apply reads_done.
Qed.
Lemma reads_symbol start ts t s : reads (symbol start ts t) s (scan_second ts t None (rest s)).
Proof.
  unfold symbol. apply reads_lookahead. unfold scan_second. destruct (rest s) as [|d r] eqn:Hr; [apply reads_fail|].
  destruct (find_char d ts) as [t'|]; [|by apply reads_here]. eapply reads_bump; [done|]. by apply reads_done.
Qed.
Lemma reads_eq start s : reads (eq_ start) s (scan_second [(ch ">", TEqArrow); (ch "=", TEqEq)] TEq (Some TEq) (rest s)).
Proof.
  unfold eq_. apply reads_lookahead. unfold scan_second. destruct (rest s) as [|d r] eqn:Hr; [by apply reads_here|].
  destruct (find_char d _) as [t'|]; [|by apply reads_here]. eapply reads_bump; [done|]. by apply reads_done.
Qed.
Lemma reads_gt start s : reads (gt start) s (scan_gt (rest s)).
Proof.
  unfold gt. apply reads_lookahead. unfold scan_gt. destruct (rest s) as [|d r] eqn:Hr; [by apply reads_here|].
  destruct (d =? ch ">")%N.
  - eapply reads_bump; [done|]. apply reads_lookahead. rewrite (rest_advance [d] r) by done.
    destruct r as [|x r]; [by apply reads_done|]. destruct (x =? ch ">")%N; [|by apply reads_done].
    eapply reads_bump; [by apply (rest_advance [d] (x :: r))|]. apply (reads_done [x]). by apply (rest_advance [d]).
  - destruct (d =? ch "=")%N; [|by apply reads_here]. eapply reads_bump; [done|]. by apply reads_done.
Qed.

Lemma reads_cn start s : read_from [ch ":"] start s → NL ∈ rest s → reads (cn start) s (scan_colons (rest s)).
Proof.
  intros Hw Hnl. unfold cn, scan_colons. destruct (split_while _ (rest s)) as [v r] eqn:Hv.
  eapply reads_take_while; [done..|exact Hv|]. apply reads_done. by eapply split_while_rest.
Qed.
Lemma reads_id start c s :
  read_from [c] start s → NL ∈ rest s → reads (id start) s (scan_while is_ident_continue ident_to_token c (rest s)).
Proof.
  intros Hw Hnl. unfold id, scan_while. destruct (split_while _ (rest s)) as [v r] eqn:Hv.
  eapply reads_take_while; [done..|apply ident_continue_NL|exact Hv|]. apply reads_done. by eapply split_while_rest.
Qed.
Lemma reads_ws start c s :
  read_from [c] start s → NL ∈ rest s → reads (ws start) s (scan_while is_ws TWhitespace c (rest s)).
Proof.
  intros Hw Hnl. unfold ws, scan_while. destruct (split_while _ (rest s)) as [v r] eqn:Hv.
  eapply reads_take_while; [done..|by unfold is_ws; rewrite andb_false_r|exact Hv|]. apply reads_done.
  by eapply split_while_rest.
Qed.

Lemma strip_spec p s r : strip p s = Some r ↔ s = p ++ r.
Proof.
  revert s. induction p as [|c p IH]; intros s; simpl; [split; congruence|].
  destruct s as [|d s]; [done|]. destruct (N.eqb_spec c d) as [->|Hne]; [rewrite IH|]; split; congruence.
Qed.

Lemma drop_take_bytes_prefix p w s :
  drop_bytes (bytes_len p) (p ++ s) ≫= take_bytes (bytes_len w) = Some w ↔ ∃ r, s = w ++ r.
Proof.
  rewrite drop_bytes_app. simpl. split; [|intros [r ->]; apply take_bytes_app].
  revert s. induction w as [|c w IH]; intros s; [by exists s|]. cbn [bytes_len foldr take_bytes].
  pose proof (len_utf8_pos c). fold (bytes_len w). destruct s as [|d s]; cbn [take_bytes].
  { destruct (N.eqb_spec (len_utf8 c + bytes_len w) 0); [lia|done]. }
  destruct (N.eqb_spec (len_utf8 c + bytes_len w) 0); [lia|].
  destruct (len_utf8 d <=? len_utf8 c + bytes_len w)%N; [|done].
  destruct (take_bytes _ s) as [w'|] eqn:Ht; [|done]. intros [= -> ->].
  replace (len_utf8 c + bytes_len w - len_utf8 c)%N with (bytes_len w) in Ht by lia.
  destruct (IH _ Ht) as [r ->]. by exists r.
Qed.

Lemma bump_all q s r :
  rest s = q ++ r → ∀ {A} (m : lex_m A), foldr (λ _ m, bump ≫= λ _, m) m q s = m (advance q s).
Proof.
  revert s. induction q as [|c q IH]; intros s Hr A m; simpl; [by rewrite advance_nil|].
  rewrite (run_bind _ _ _ _ _ (run_bump s c (q ++ r) Hr)).
  rewrite IH by by apply (rest_advance [c]). by rewrite <-advance_app.
Qed.

Lemma run_starts_with start c p s :
  read_from [c] start s →
  starts_with start (c :: p) s =
    match strip p (rest s) with
    | Some _ => (advance p s, LOk (Some (shift_str (c :: p) start)))
    | None => (s, LOk None)
    end.
Proof.
  intros (pre & Hi & Hst & Hl). unfold starts_with. cbv zeta.
  assert (slice start (shift_str (c :: p) start) s =
    (s, LOk (drop_bytes (bytes_len pre) (pre ++ c :: rest s) ≫= take_bytes (bytes_len (c :: p))))) as Hslice.
  { unfold slice, asks. rewrite absolute_shift_str, Hst, Hi.
    destruct (N.ltb_spec (bytes_len pre + bytes_len (c :: p)) (bytes_len pre)); [lia|].
    do 3 f_equal. f_equal. lia. }
  rewrite (run_bind _ _ _ _ _ Hslice). case_bool_decide as Hh.
  - apply drop_take_bytes_prefix in Hh as [r [= Hr]].
    assert (strip p (rest s) = Some r) as -> by by apply strip_spec. simpl tail. by rewrite (bump_all p s r Hr).
  - destruct (strip p (rest s)) as [r|] eqn:Hs; [|done]. exfalso. apply Hh, drop_take_bytes_prefix.
    apply strip_spec in Hs as ->. by exists r.
Qed.

Lemma reads_directive r a b d s :
  rest s = r → reads (line_directive a b d) s ((λ t, (t, r)) <$> directive_token d).
Proof.
  intros <-. unfold line_directive, directive_token. do 5 (case_match; try apply reads_fail).
  repeat match goal with |- context [usize_parse ?x] => destruct (usize_parse x); cbn [mbind option_bind or_fail];
    [apply (reads_stay _ _ _ _ _ eq_refl)|apply reads_fail] end.
  exists []. do 2 eexists. split_and!; [done..| |done]. by split_and!.
Qed.

Lemma reads_cx start s : read_from [ch "#"] start s → NL ∈ rest s → reads (cx start) s (scan_comment (rest s)).
Proof.
  intros Hw Hnl. unfold cx, scan_comment.
  pose proof (run_starts_with start (ch "#") (txt "!config ") s Hw) as Hst. change (ch "#" :: txt "!config ") with (txt "#!config ") in Hst.
  destruct (strip (txt "!config ") (rest s)) as [r|] eqn:Hs.
  - apply strip_spec in Hs. eapply reads_run; [exact Hs|exact Hst|]. by apply reads_done.
  - eapply reads_stay; [exact Hst|]. cbv beta iota.
    destruct (split_while _ (rest s)) as [v r] eqn:Hv.
    eapply (reads_take_until _ _ [ch "#"]); [done|..].
    { rewrite Hv. simpl. assert (NL ∈ r) as Hr by by eapply split_while_NL. by intros ->; apply not_elem_of_nil in Hr. }
    rewrite Hv. cbv beta iota zeta. simpl fst. change ([ch "#"] ++ v) with (ch "#" :: v).
    apply split_while_rest in Hv. repeat case_match; try (by apply reads_done).
    apply reads_directive. by apply rest_advance.
Qed.
Lemma read_from_shift c w start s : read_from (c :: w) start s → read_from w (shift c start) s.
Proof.
  intros (p & Hi & Hst & Hl). exists (p ++ [c]). split_and!.
  - by rewrite Hi, <-app_assoc.
  - rewrite absolute_shift, Hst, bytes_len_app. simpl. lia.
  - by rewrite Hl, <-app_assoc.
Qed.
Lemma slice_behind w q start s : read_from w start s → slice start (loc s) (advance q s) = (advance q s, LOk (Some w)).
Proof.
  intros Hw. pose proof (slice_read _ _ _ Hw) as Hs. unfold slice, asks in *. injection Hs as Hs. simpl. by rewrite Hs.
Qed.

Definition quoted_rest (string cs : list N) : option (token * list N) :=
  let '(w, r) := split_while (λ c, negb (c =? ch "`")%N && negb (c =? NL)%N) cs in
  match r with c :: r => if (c =? ch "`")%N then Some (TIdent (string ++ w) true, r) else None | [] => None end.

Lemma reads_id2 n start string s :
  length (rest s) < n → read_from (ch "`" :: string) start s →
  reads (id2 n start string) s (quoted_rest string (rest s)).
Proof.
  revert string s. induction n as [|n IH]; intros string s Hn Hw; [lia|]. cbn [id2]. unfold quoted_rest.
  destruct (rest s) as [|c r] eqn:Hr.
  { intros s' x. unfold mbind, lex_bind, bump. by rewrite Hr. }
  eapply reads_bump; [done|]. cbv beta iota. cbn [split_while].
  destruct (N.eqb_spec c (ch "`")) as [->|Hq].
  - cbn [negb andb]. rewrite N.eqb_refl. eapply reads_stay; [eapply slice_behind; by apply read_from_shift|].
    simpl default. rewrite app_nil_r. by apply reads_done.
  - simpl negb. destruct (N.eqb_spec c NL) as [->|Hnl]; [apply reads_fail|]. simpl andb.
    assert (rest (advance [c] s) = r) as Hr' by by apply (rest_advance [c]).
    specialize (IH (string ++ [c]) (advance [c] s)). rewrite Hr' in IH.
    assert (read_from (ch "`" :: string ++ [c]) start (advance [c] s)) as Hw'.
    { change (ch "`" :: string ++ [c]) with ((ch "`" :: string) ++ [c]). by apply (read_from_advance _ _ r). }
    specialize (IH ltac:(simpl in Hn; lia) Hw'). unfold quoted_rest in IH.
    destruct (split_while _ r) as [w r']. destruct r' as [|d r']; [done|].
    destruct (d =? ch "`")%N; [|done]. by rewrite <-app_assoc in IH.
Qed.

Lemma dedent_eq n ss s :
  dedent n ss s = (s, match mapM (split_at_opt n) ss with
                      | Some l => LOk l
                      | None => LErr LexPanic
                      end).
Proof.
  induction ss as [|x ss IH]; [done|].
  assert (split_at n x s = (s, match split_at_opt n x with Some y => LOk y | None => LErr LexPanic end)) as Hx.
  { unfold split_at, split_at_opt, or_fail. case_bool_decide; [done|]. by destruct (drop_bytes n x). }
  cbn [dedent]. unfold mbind at 1, lex_bind at 1. rewrite Hx. simpl. destruct (split_at_opt n x); [|done]. simpl.
  unfold mbind at 1, lex_bind at 1. rewrite IH. by destruct (mapM _ ss).
Qed.

Lemma reads_pl n start string strings s :
  length (rest s) < n → reads (pl n start string strings) s (scan_test string strings (rest s)).
Proof.
  revert string strings s. induction n as [n IHn] using lt_wf_ind. intros string strings s Hn.
  destruct n as [|n]; [lia|]. cbn [pl]. destruct (rest s) as [|c r] eqn:Hr.
  { intros s' x. unfold mbind, lex_bind, bump. by rewrite Hr. }
  eapply reads_bump; [done|]. cbv beta iota. cbn [scan_test].
  assert (rest (advance [c] s) = r) as Hr' by by apply (rest_advance [c]). simpl in Hn.
  destruct (c =? ch "\")%N; [|destruct (c =? ch "|")%N; [|destruct (c =? NL)%N; [apply reads_fail|]]].
  - unfold test_escape_code. destruct r as [|d r].
    { intros s' x. unfold mbind, lex_bind, bump. by rewrite Hr'. }
    assert (rest (advance [d] (advance [c] s)) = r) as Hr2 by by apply (rest_advance [d]). simpl in Hn.
    assert (∀ a ss ts, reads (pl n start a ss) (advance [d] (advance [c] s)) ts →
      ∀ o, (if (d =? ch "\")%N then Some (Some (ch "\")) else if (d =? ch "|")%N then Some (Some (ch "|"))
            else if (d =? NL)%N then Some None else None) = Some o →
      a = match o with Some x => string ++ [x] | None => [] end →
      ss = match o with Some _ => strings | None => strings ++ [string] end →
      reads (x ← (c0 ← bump; match c0 with
         | None => lex_fail UnexpectedEndOfStream
         | Some (_, c0) => if (c0 =? ch "\")%N then mret (Some (ch "\"))
             else if (c0 =? ch "|")%N then mret (Some (ch "|"))
             else if (c0 =? NL)%N then mret None else lex_fail (UnexpectedEscapeCode c0) end);
        match x with Some x0 => pl n start (string ++ [x0]) strings | None => pl n start [] (strings ++ [string]) end)
        (advance [c] s) ts) as Hgo.
    { intros a ss ts Hpl o Ho -> ->. eapply (reads_run _ _ _ [d] r o); [done| |].
      - rewrite (run_bind _ _ _ _ _ (run_bump _ _ _ Hr')). repeat case_match; by simplify_eq.
      - by destruct o. }
    assert (∀ a ss, reads (pl n start a ss) (advance [d] (advance [c] s)) (scan_test a ss r)) as Hpl.
    { intros a ss. rewrite <-Hr2. apply IHn; [lia|]. rewrite Hr2. lia. }
    destruct (d =? ch "\")%N eqn:E1; [apply N.eqb_eq in E1 as ->; by eapply Hgo; [apply Hpl|done..]|].
    destruct (d =? ch "|")%N eqn:E2; [apply N.eqb_eq in E2 as ->; by eapply Hgo; [apply Hpl|done..]|].
    destruct (d =? NL)%N eqn:E3; [apply N.eqb_eq in E3 as ->; by eapply Hgo; [apply Hpl|done..]|].
    intros s' x. unfold mbind, lex_bind, bump. rewrite Hr'. cbv beta iota. by rewrite E1, E2, E3.
  - cbv zeta. unfold test_literal. pose proof (dedent_eq (indentation (strings ++ [string])) (strings ++ [string]) (advance [c] s)) as Hd.
    destruct (mapM _ (strings ++ [string])) as [ss|]; cbv [fmap option_fmap option_map].
    + eapply reads_stay; [exact Hd|]. by apply reads_done.
    + intros s' x. unfold mbind, lex_bind. by rewrite Hd.
  - rewrite <-Hr'. apply IHn; [lia|]. rewrite Hr'. lia.
Qed.

Lemma reads_float start end_ f s : reads (float_token start end_ f) s (scan_float f (rest s)).
Proof.
  unfold float_token, scan_float, or_fail. destruct (read_f64 f); cbv [fmap option_fmap option_map]; [|intros s' x [=]].
  eapply reads_stay; [done|]. by apply reads_here.
Qed.

Lemma dec_NL : digit_or_separator is_dec_digit NL = false. Proof. done. Qed.

Lemma reads_nm_float start w s r :
  read_from w start s → rest s = ch "." :: r → last r = Some NL → reads (nm_float start) s (scan_fraction (w ++ [ch "."]) r).
Proof.
  intros Hw Hr Hnl. unfold nm_float, scan_fraction. eapply reads_bump; [done|].
  assert (rest (advance [ch "."] s) = r) as Hr' by by apply (rest_advance [ch "."]).
  destruct (split_while _ r) as [v r1] eqn:Hv.
  assert (last r1 = Some NL) as Hnl1 by by eapply split_while_last.
  eapply (reads_extract _ _ (w ++ [ch "."])); [by apply (read_from_advance _ _ r)| |done|by rewrite Hr'|].
  { rewrite Hr'. by apply last_elem. }
  set (s1 := advance v (advance [ch "."] s)). assert (rest s1 = r1) as Hr1.
  { unfold s1. eapply advance_rest. rewrite Hr'. exact Hv. }
  cbv beta iota. apply reads_lookahead. rewrite Hr1. destruct r1 as [|c r1]; [done|].
  destruct (N.eqb_spec c (ch "e")) as [->|_];
    [|destruct (is_ident_start c); [apply reads_fail|rewrite <-Hr1; apply reads_float]].
  eapply reads_bump; [done|]. assert (rest (advance [ch "e"] s1) = r1) as Hr2 by by apply (rest_advance [ch "e"]).
  apply last_cons_ne in Hnl1; [|done]. destruct r1 as [|x r3]; [done|].
  eapply reads_bump; [done|]. cbv beta iota. set (s2 := advance [ch "e"] s1) in *.
  assert (rest (advance [x] s2) = r3) as Hr3 by by apply (rest_advance [x]).
  assert (read_from [x] (loc s2) (advance [x] s2)) as Hx.
  { apply (read_from_advance [] [x] r3); [|done]. apply (read_from_here (((w ++ [ch "."]) ++ v) ++ [ch "e"]) start).
    apply (read_from_advance _ _ (x :: r3)); [|done]. unfold s1.
    apply (read_from_advance _ _ (ch "e" :: x :: r3)); [|by rewrite Hr'; eapply split_while_rest].
    by apply (read_from_advance _ _ r). }
  apply reads_lookahead. rewrite Hr3. destruct r3 as [|d r4].
  { injection Hnl1 as ->. apply (reads_stay _ _ _ (loc s2, [])); [done|]. cbv beta.
    eapply reads_extract_end; [done..|]. cbn [fst snd app]. change (without_separators [NL]) with [NL].
    pose proof (reads_float start (shift 0 (loc s2)) (without_separators ((w ++ [ch "."]) ++ v) ++ [ch "e"; NL]) (advance [NL] s2)) as Hf.
    by rewrite Hr3 in Hf. }
  assert (last (d :: r4) = Some NL) as Hnl2 by by apply (last_app_r [x]).
  destruct (is_sign d) eqn:Hd.
  - assert (d ≠ NL) as Hdn by by intros ->. apply last_cons_ne in Hnl2; [|done].
    set (s3 := advance [x] s2) in *. destruct (split_while _ r4) as [u r5] eqn:Hu.
    assert (rest (advance [d] s3) = r4) as Hr4 by by apply (rest_advance [d]).
    eapply (reads_run _ _ _ [d] r4 (loc s3, [x])); [done| |].
    { rewrite (run_bind _ _ _ _ _ (run_bump _ _ _ Hr3)).
      rewrite (run_bind _ _ _ (advance [d] s3) (Some [x])); [done|]. by apply slice_behind. }
    cbv beta. simpl fst. simpl snd.
    eapply (reads_extract _ _ [d]); [|by rewrite Hr4; apply last_elem|done|by rewrite Hr4|].
    { apply (read_from_advance [] [d] r4); [|done]. by eapply read_from_here. }
    replace r5 with (rest (advance u (advance [d] s3))); [apply reads_float|]. eapply advance_rest. by rewrite Hr4.
  - apply (reads_stay _ _ _ (loc s2, [])); [done|]. cbv beta. simpl fst. simpl snd.
    destruct (split_while _ (d :: r4)) as [u r5] eqn:Hu.
    eapply (reads_extract _ _ [x]); [done|by rewrite Hr3; apply last_elem|done|by rewrite Hr3|].
    replace r5 with (rest (advance u (advance [x] s2))); [apply reads_float|]. eapply advance_rest. by rewrite Hr3.
Qed.

Lemma reads_nm_hex start int s r :
  rest s = ch "x" :: r → last r = Some NL → (∃ w, read_from w start s) → reads (nm_hex start int) s (scan_hex int r).
Proof.
  intros Hr Hnl [w Hw]. unfold nm_hex, scan_hex. eapply reads_bump; [done|].
  set (s1 := advance [ch "x"] s). assert (rest s1 = r) as Hr1 by by apply (rest_advance [ch "x"]).
  destruct r as [|x r]; [done|]. eapply reads_bump; [done|]. cbv beta iota.
  assert (rest (advance [x] s1) = r) as Hr2 by by apply (rest_advance [x]).
  assert (read_from [x] (loc s1) (advance [x] s1)) as Hx.
  { apply (read_from_advance [] [x] r); [|done]. apply (read_from_here (w ++ [ch "x"]) start).
    by apply (read_from_advance _ _ (x :: r)). }
  assert (∀ a b s' r', rest s' = r' → reads
    (match i64_from_hex b (bool_decide (int = txt "0")) with
     | Some v => spanned2 start a (TIntLiteral v) | None => lex_fail InvalidHexLiteral end) s'
    ((λ v, (TIntLiteral v, r')) <$> i64_from_hex b (bool_decide (int = txt "0")))) as Hval.
  { intros a b s' r' <-. destruct (i64_from_hex _ _); [apply reads_spanned|apply reads_fail]. }
  destruct r as [|d r].
  { injection Hnl as ->. eapply reads_extract_end; [done..|]. cbv beta iota zeta. cbn [split_while].
    destruct (_ || _); [|apply reads_fail]. apply reads_lookahead. rewrite Hr2. by apply Hval. }
  assert (last (d :: r) = Some NL) as Hnl2 by by apply (last_app_r [x]).
  destruct (split_while _ (d :: r)) as [v r'] eqn:Hv.
  eapply (reads_extract _ _ [x]); [done|by rewrite Hr2; apply last_elem|done|by rewrite Hr2|]. cbv beta iota zeta.
  assert (rest (advance v (advance [x] s1)) = r') as Hr3 by (eapply advance_rest; by rewrite Hr2).
  destruct (_ || _); [|apply reads_fail]. apply reads_lookahead. rewrite Hr3.
  destruct r' as [|c r']; [by apply Hval|]. destruct (is_ident_start c); [apply reads_fail|by apply Hval].
Qed.

Lemma reads_nm start c s :
  read_from [c] start s → last (rest s) = Some NL → reads (nm start) s (scan_number c (rest s)).
Proof.
  intros Hw Hnl. unfold nm, scan_number. destruct (split_while _ (rest s)) as [v r] eqn:Hv.
  eapply (reads_extract _ _ [c]); [done|by apply last_elem|done|done|]. cbv beta iota zeta. change ([c] ++ v) with (c :: v).
  assert (last r = Some NL) as Hnl1 by by eapply split_while_last.
  assert (rest (advance v s) = r) as Hr by by eapply advance_rest.
  assert (read_from (c :: v) start (advance v s)) as Hw1.
  { apply (read_from_advance [c] v r); [done|]. by eapply split_while_rest. }
  apply reads_lookahead. rewrite Hr. destruct r as [|d r]; [done|].
  destruct (N.eqb_spec d (ch ".")) as [->|_]; [|destruct (N.eqb_spec d (ch "x")) as [->|_]].
  - change (c :: v ++ [ch "."]) with ((c :: v) ++ [ch "."]). apply reads_nm_float; [done..|]. by apply last_cons_ne in Hnl1.
  - apply reads_nm_hex; [done| |by eexists]. by apply last_cons_ne in Hnl1.
  - destruct (is_ident_start d); [apply reads_fail|].
    destruct (i64_from_str_radix _ _ _); [by apply reads_here|apply reads_fail].
Qed.

Lemma reads_minus start s :
  read_from [ch "-"] start s → last (rest s) = Some NL → reads (minus start) s (scan_minus (rest s)).
Proof.
  intros Hw Hnl. unfold minus, scan_minus. apply reads_lookahead. destruct (rest s) as [|d r] eqn:Hr; [done|].
  destruct (is_dec_digit d); [|by apply reads_here]. rewrite <-Hr. apply reads_nm; [done|by rewrite Hr].
Qed.

(** ** Every token that is not a string *)
Lemma quoted_rest_nil cs : quoted_rest [] cs = scan_quoted cs.
Proof. done. Qed.

Lemma reads_next_single n start c s :
  read_from [c] start s → last (c :: rest s) = Some NL → length (rest s) < n → c ≠ DQUOTE →
  reads (next_single n start c) s (scan1 (c :: rest s)).
Proof.
  intros Hw Hl Hn Hq. cbn [scan1]. destruct (N.eqb_spec c DQUOTE) as [|_]; [done|].
  assert (c = NL ∨ last (rest s) = Some NL) as Hl'.
  { destruct (decide (c = NL)) as [|Hne]; [by left|]. right. by apply last_cons_ne in Hl. }
  unfold next_single. destruct (find_char c simple_tokens) as [t|]; [by apply reads_here|].
  repeat match goal with
         | |- context [if (c =? ?x)%N then _ else _] =>
           destruct (N.eqb_spec c x) as [->|?];
           [try (destruct Hl' as [Hl'|Hl']; [discriminate Hl'|])|]
         end.
  - apply reads_cn; [done|by apply last_elem].
  - by apply reads_minus.
  - apply reads_cx; [done|by apply last_elem].
  - apply reads_eq.
  - apply reads_lt.
  - apply reads_gt.
  - apply reads_symbol.
  - apply reads_symbol.
  - rewrite <-quoted_rest_nil. by apply reads_id2.
  - apply reads_symbol.
  - by apply reads_here.
  - destruct Hl' as [|Hl']; [done|]. destruct (is_ident_start c) eqn:Hi; [apply reads_id; [done|by apply last_elem]|].
    destruct (is_test_start c); [by apply reads_pl|]. destruct (is_dec_digit c); [by apply reads_nm|].
    destruct (is_whitespace c); [|by apply reads_here]. apply reads_ws; [done|by apply last_elem].
Qed.

(** The first character of a token is also the first when it is printed,
    numbers aside. *)
Definition number_start (c : N) : bool := is_dec_digit c || (c =? ch "-")%N.
Definition printed_head (c : N) (t : token) : Prop := ∃ d w, display t = d :: w ∧
  (d = c ∨ (∃ i, t = TIntLiteral i) ∧ number_start c = true ∧ number_start d = true).

Lemma write_i64_head i : ∃ d w, write_i64 i = d :: w ∧ number_start d = true.
Proof.
  unfold write_i64. destruct (i <? 0)%Z; [by eexists _, _|].
  pose proof (decimal_nonempty (Z.to_N i)). pose proof (decimal_chars (Z.to_N i)) as Hc.
  destruct (decimal (Z.to_N i)) as [|d w]; [done|]. exists d, w. split; [done|].
  apply Forall_cons in Hc as [[H1 H2] _]. apply N.leb_le in H1, H2. unfold number_start, is_dec_digit. by rewrite H1, H2.
Qed.
Lemma int_head c i : number_start c = true → printed_head c (TIntLiteral i).
Proof. intros Hc. destruct (write_i64_head i) as (d & w & Hd & Hn). exists d, w. split; [done|]. right. eauto. Qed.

Lemma scan_float_head c f r t r' w : scan_float f r = Some (t, r') → f = c :: w → printed_head c t.
Proof.
  unfold scan_float. destruct (read_f64 f); [|done]. intros [= <- <-] ->. exists c, w. split; [done|]. by left.
Qed.

Lemma without_cons c w : c ≠ ch "_" → without_separators (c :: w) = c :: without_separators w.
Proof. intros Hc. unfold without_separators. by rewrite filter_cons_True. Qed.

Lemma scan_fraction_head c p r t r' :
  c ≠ ch "_" → scan_fraction (c :: p) r = Some (t, r') → printed_head c t.
Proof.
  intros Hc. unfold scan_fraction. destruct (split_while _ r) as [v r1]. cbn [app]. rewrite (without_cons c) by done.
  assert (∀ f r, scan_float (c :: f) r = Some (t, r') → printed_head c t) as Hf.
  { intros f r2 Hs. by eapply scan_float_head. }
  repeat case_match; intros Hs; simplify_eq; by eapply Hf.
Qed.

Lemma scan_hex_head c i r t r' : number_start c = true → scan_hex i r = Some (t, r') → printed_head c t.
Proof.
  intros Hc. unfold scan_hex. destruct r as [|x r]; [done|]. destruct (split_while _ r) as [v r1].
  destruct (_ || _); [|done]. destruct (match r1 with [] => _ | _ => _ end); [done|].
  destruct (i64_from_hex _ _) as [z|]; [|done]. intros [= <- <-]. by apply int_head.
Qed.

Lemma scan_number_head c cs t r : number_start c = true → scan_number c cs = Some (t, r) → printed_head c t.
Proof.
  intros Hc. assert (c ≠ ch "_") as Hu by by intros ->.
  unfold scan_number. destruct (split_while _ cs) as [v r1]. cbv zeta.
  assert (∀ o (r2 : list N), (λ z, (TIntLiteral z, r2)) <$> o = Some (t, r) → printed_head c t) as Hint.
  { intros [z|] r2; [|done]. intros [= <- _]. by apply int_head. }
  destruct r1 as [|d r1]; [by apply Hint|].
  destruct (d =? ch ".")%N; [by apply scan_fraction_head|]. destruct (d =? ch "x")%N; [by apply scan_hex_head|].
  destruct (is_ident_start d); [done|]. by apply Hint.
Qed.

Lemma same_head c w t : display t = c :: w → printed_head c t.
Proof. intros Hd. exists c, w. split; [done|by left]. Qed.

Lemma scan_second_head c ts t e cs t' r :
  Forall (λ x : token, ∃ w, display x = c :: w) (t :: ts.*2) →
  match e with Some x => ∃ w, display x = c :: w | None => True end →
  scan_second ts t e cs = Some (t', r) → printed_head c t'.
Proof.
  intros [Ht Hts]%Forall_cons He. unfold scan_second. destruct cs as [|d cs].
  - destruct e as [x|]; [|done]. intros [= <- _]. destruct He as [w Hw]. by eapply same_head.
  - destruct (find_char d ts) as [x|] eqn:Hf; intros [= <- _]; [|destruct Ht as [w Hw]; by eapply same_head].
    clear Ht He. induction ts as [|[a b] ts IH]; [done|]. apply Forall_cons in Hts as [Hb Hts]. simpl in Hf.
    destruct (d =? a)%N; [|by apply IH]. injection Hf as ->. destruct Hb as [w Hw]. by eapply same_head.
Qed.

Lemma find_char_elem c ts t : find_char c ts = Some t → (c, t) ∈ ts.
Proof.
  induction ts as [|[d x] ts IH]; [done|]. simpl. destruct (N.eqb_spec c d) as [->|_].
  - intros [= ->]. by left.
  - intros Hf. right. by apply IH.
Qed.

Lemma scan_test_display string strings cs t r : scan_test string strings cs = Some (t, r) → ∃ i l, t = TTestLiteral i l.
Proof.
  revert string strings. induction cs as [cs IH] using (induction_ltof1 _ (@length N)). intros string strings.
  destruct cs as [|c cs]; [done|]. cbn [scan_test].
  assert (∀ a b, scan_test a b cs = Some (t, r) → ∃ i l, t = TTestLiteral i l) as H1.
  { intros a b. apply IH. unfold ltof. simpl. lia. }
  destruct (c =? ch "\")%N; [|destruct (c =? ch "|")%N; [|destruct (c =? NL)%N; [done|apply H1]]].
  - destruct cs as [|d cs]; [done|].
    assert (∀ a b, scan_test a b cs = Some (t, r) → ∃ i l, t = TTestLiteral i l) as H2.
    { intros a b. apply IH. unfold ltof. simpl. lia. }
    repeat case_match; try done; apply H2.
  - unfold test_literal. destruct (mapM _ _) as [l|]; [|done]. intros [= <- _]. eauto.
Qed.

Lemma scan1_head c cs t r : scan1 (c :: cs) = Some (t, r) → printed_head c t.
Proof.
  cbn [scan1]. destruct (N.eqb_spec c DQUOTE) as [|_]; [done|].
  destruct (find_char c simple_tokens) as [x|] eqn:Hf.
  { intros [= <- _]. apply find_char_elem in Hf. apply (same_head _ []).
    assert (Forall (λ ct, display ct.2 = [ct.1]) simple_tokens) as Hall by repeat constructor.
    rewrite Forall_forall in Hall. by apply Hall in Hf. }
  repeat match goal with
         | |- context [if (c =? ?x)%N then _ else _] => destruct (N.eqb_spec c x) as [->|?]
         end.
  - unfold scan_colons. destruct (split_while _ cs) as [v r1]. intros [= <- _].
    repeat case_bool_decide; by eapply same_head.
  - unfold scan_minus. destruct cs as [|d cs]; [intros [= <- _]; by eapply same_head|].
    destruct (is_dec_digit d); [by apply scan_number_head|]. intros [= <- _]. by eapply same_head.
  - unfold scan_comment. destruct (strip _ cs); [intros [= <- _]; by eapply same_head|].
    destruct (split_while _ cs) as [v r1]. repeat case_match; intros; simplify_eq; try (by eapply same_head).
    destruct (directive_token _) as [x|] eqn:Hd; [|done]. simplify_eq/=. unfold directive_token in Hd.
    repeat (case_match; try done). by simplify_option_eq; eapply same_head.
  - apply scan_second_head; [|by eexists]. repeat constructor; by eexists.
  - apply scan_second_head; [|by eexists]. repeat constructor; by eexists.
  - unfold scan_gt. repeat case_match; intros; simplify_eq; by eapply same_head.
  - apply scan_second_head; [|done]. repeat constructor; by eexists.
  - apply scan_second_head; [|done]. repeat constructor; by eexists.
  - unfold scan_quoted. destruct (split_while _ cs) as [v r1]. repeat case_match; intros; simplify_eq; by eapply same_head.
  - apply scan_second_head; [|done]. repeat constructor; by eexists.
  - intros [= <- _]. by eapply same_head.
  - destruct (is_ident_start c).
    { unfold scan_while. destruct (split_while _ cs) as [v r1]. intros [= <- _]. eapply same_head, display_ident. }
    destruct (is_test_start c) eqn:Ht.
    { intros Hs. apply scan_test_display in Hs as (i & l & ->). apply N.eqb_eq in Ht as ->. by eapply same_head. }
    destruct (is_dec_digit c) eqn:Hd.
    { apply scan_number_head. unfold number_start. by rewrite Hd. }
    destruct (is_whitespace c); [|intros [= <- _]; by eapply same_head].
    unfold scan_while. destruct (split_while _ cs) as [v r1]. intros [= <- _]. by eapply same_head.
Qed.

Lemma scan1_brace c cs r : scan1 (c :: cs) = Some (TRBrace, r) → c = ch "}" ∧ r = cs.
Proof.
  intros Hs. destruct (scan1_head _ _ _ _ Hs) as (d & w & Hd & [->|([i Hi] & _)]); [|done].
  injection Hd as <- _. split; [done|]. by injection Hs.
Qed.
End tokens.

(** Strings, heredocs and interpolations: a grammar of what the lexer reads,
    and that it reads exactly the sequences of tokens of the grammar. *)

Section grammar.
Context `{!lexer_libs}.

(** An escape, behind its backslash. *)
Definition scan_escape (cs : list N) : option (N * list N) :=
  match cs with
  | [] => None
  | c :: r =>
    match find_escape c escapes with
    | Some x => Some (x, r)
    | None =>
      if (c =? ch "u")%N then
        match r with
        | h1 :: h2 :: h3 :: h4 :: r =>
          if forallb is_hex [h1; h2; h3; h4] then (λ x, (x, r)) <$> char_from_u32 (hex_number [h1; h2; h3; h4])
          else None
        | _ => None
        end
      else None
    end
  end.

(** The braces that are open behind some tokens, in an interpolation that has
    opened [d]; there is no number behind the brace that closes it. *)
Definition brace (d : N) (t : token) : option N :=
  match t with
  | TLBrace | TInterpol => Some (d + 1)%N
  | TRBrace => if (d =? 0)%N then None else Some (d - 1)%N
  | _ => Some d
  end.
Fixpoint braces (d : N) (ts : list token) : option N :=
  match ts with [] => Some d | t :: ts => brace d t ≫= λ d, braces d ts end.

(** A string is quoted or, with [h], a heredoc. *)
Definition quote (h : bool) : token := if h then THereDocStart else TDQuote.
Definition lit (h : bool) (s : list N) : token := if h then THereDocLiteral s else TStringLiteral s.
Definition literal (h : bool) (acc : list N) : list token := if bool_decide (acc = []) then [] else [lit h acc].

(** What a string goes on with behind the characters [acc]: its last tokens,
    or some tokens and the characters of the next one, or an interpolation. *)
Inductive piece :=
  | PEnd (ts : list token) (r : list N)
  | PMore (ts : list token) (acc cs : list N)
  | PInterpol (cs : list N).

Definition here_quotes (acc cs : list N) : piece :=
  match cs with
  | d :: cs2 =>
    if (d =? DQUOTE)%N then
      match cs2 with
      | e :: cs3 =>
        if (e =? DQUOTE)%N then PEnd [THereDocLiteral acc; THereDocEnd] cs3
        else PMore [THereDocLiteral acc] [DQUOTE; DQUOTE] cs2
      | [] => PMore [THereDocLiteral acc] [DQUOTE; DQUOTE] cs2
      end
    else PMore [THereDocLiteral acc] [DQUOTE] cs
  | [] => PMore [THereDocLiteral acc] [DQUOTE] cs
  end.

Definition opens_interpol (cs : list N) : option (list N) :=
  match cs with d :: cs => if (d =? ch "{")%N then Some cs else None | [] => None end.

(** A character that does not end a line or a string. *)
Definition piece_char (h : bool) (acc : list N) (c : N) (cs : list N) : option piece :=
  if (c =? ch "\")%N then
    match scan_escape cs with
    | Some (x, cs) =>
      Some (if (x =? ch "#")%N then PMore (literal h acc ++ [TEscapedHash]) [] cs else PMore [] (acc ++ [x]) cs)
    | None => None
    end
  else if (c =? ch "#")%N then
    match opens_interpol cs with Some cs => Some (PInterpol cs) | None => Some (PMore [] (acc ++ [c]) cs) end
  else Some (PMore [] (acc ++ [c]) cs).

Definition piece_at (h : bool) (acc cs : list N) : option piece :=
  match cs with
  | [] => None
  | c :: cs =>
    if (c =? DQUOTE)%N then Some (if h then here_quotes acc cs else PEnd (literal h acc ++ [TDQuote]) cs)
    else if (c =? NL)%N then if h then Some (PMore [THereDocLiteral (acc ++ [NL])] [] cs) else None
    else piece_char h acc c cs
  end.

(** What a source starts with: tokens, or the beginning of a string. *)
Inductive opening := OTokens (ts : list token) (r : list N) | OString (h : bool) (cs : list N).

Definition unit_at (cs : list N) : option opening :=
  match cs with
  | [] => None
  | c :: cs1 =>
    if (c =? DQUOTE)%N then
      match cs1 with
      | [] => None
      | d :: cs2 =>
        if (d =? DQUOTE)%N then
          match cs2 with
          | [] => Some (OTokens [TDQuote; TDQuote] cs2)
          | e :: cs3 =>
            if (e =? DQUOTE)%N then
              match cs3 with
              | [] => None
              | x :: cs4 => if (x =? NL)%N then Some (OString true cs4) else None
              end
            else Some (OTokens [TDQuote; TDQuote] cs2)
          end
        else Some (OString false cs1)
      end
    else (λ x, OTokens [x.1] x.2) <$> scan1 cs
  end.

(** [unit_ cs ts r]: the tokens [ts], and then [r], are read from [cs]: one
    token or a whole string.  [pieces h acc]: the rest of a string behind the
    characters [acc]; [inside d first]: the rest of an interpolation that has
    opened [d] braces, and is not empty unless it is [first]. *)
Inductive unit_ : list N → list token → list N → Prop :=
  | unit_tokens cs ts r : unit_at cs = Some (OTokens ts r) → unit_ cs ts r
  | unit_string cs h cs' ts r :
      unit_at cs = Some (OString h cs') → pieces h [] cs' ts r → unit_ cs (quote h :: ts) r
with pieces : bool → list N → list N → list token → list N → Prop :=
  | pieces_end h acc cs ts r : piece_at h acc cs = Some (PEnd ts r) → pieces h acc cs ts r
  | pieces_more h acc cs ts acc' cs' ts' r :
      piece_at h acc cs = Some (PMore ts acc' cs') → pieces h acc' cs' ts' r → pieces h acc cs (ts ++ ts') r
  | pieces_interpol h acc cs cs' its cs'' ts r :
      piece_at h acc cs = Some (PInterpol cs') → inside 0 true cs' its cs'' → pieces h [] cs'' ts r →
      pieces h acc cs (literal h acc ++ TInterpol :: its ++ ts) r
with inside : N → bool → list N → list token → list N → Prop :=
  | inside_more d first cs ts cs' d' out r :
      unit_ cs ts cs' → braces d ts = Some d' → inside d' false cs' out r → inside d first cs (ts ++ out) r
  | inside_close cs r : unit_ cs [TRBrace] r → inside 0 false cs [TRBrace] r.

Scheme unit_rec := Induction for unit_ Sort Prop
  with pieces_rec := Induction for pieces Sort Prop
  with inside_rec := Induction for inside Sort Prop.
Combined Scheme string_ind from unit_rec, pieces_rec, inside_rec.

(** The tokens of a source. *)
Inductive lexes : list N → list token → Prop :=
  | lexes_end : lexes [] []
  | lexes_unit cs ts r ts' : unit_ cs ts r → lexes r ts' → lexes cs (ts ++ ts').

(** ** Balanced braces *)
Lemma braces_app d a b : braces d (a ++ b) = braces d a ≫= λ d, braces d b.
Proof. revert d. induction a as [|t a IH]; intros d; simpl; [done|]. destruct (brace d t); simpl; auto. Qed.
Lemma braces_literal h d acc : braces d (literal h acc) = Some d.
Proof. unfold literal. case_bool_decide; [done|]. by destruct h. Qed.
Lemma brace_more d t d' k : brace d t = Some d' → brace (d + k) t = Some (d' + k)%N.
Proof.
  destruct t; simpl; try (intros [= <-]; f_equal; lia).
  destruct (N.eqb_spec d 0) as [|Hd]; [done|]. intros [= <-]. destruct (N.eqb_spec (d + k) 0); [lia|]. f_equal. lia.
Qed.
Lemma braces_more d ts d' k : braces d ts = Some d' → braces (d + k) ts = Some (d' + k)%N.
Proof.
  revert d. induction ts as [|t ts IH]; intros d; simpl; [by intros [= ->]|].
  destruct (brace d t) as [d1|] eqn:Ht; [|done]. intros Hd. erewrite brace_more by done. by apply IH.
Qed.

Lemma piece_braces h acc cs p : piece_at h acc cs = Some p →
  match p with PEnd ts _ | PMore ts _ _ => braces 0 ts = Some 0%N | PInterpol _ => True end.
Proof.
  unfold piece_at, piece_char, here_quotes.
  repeat (case_match; simplify_eq/=; try done); intros; simplify_eq; rewrite ?braces_app, ?braces_literal; done.
Qed.

Lemma unit_at_tokens cs ts r : unit_at cs = Some (OTokens ts r) →
  ts = [TDQuote; TDQuote] ∨ ∃ t, ts = [t] ∧ scan1 cs = Some (t, r).
Proof.
  destruct cs as [|c cs]; [done|]. cbn [unit_at]. destruct (c =? DQUOTE)%N.
  - destruct cs as [|d cs]; [done|]. destruct (d =? DQUOTE)%N; [|done]. destruct cs as [|e cs]; [intros [= <- _]; by left|].
    destruct (e =? DQUOTE)%N; [|intros [= <- _]; by left]. destruct cs as [|x cs]; [done|]. by destruct (x =? NL)%N.
  - destruct (scan1 (c :: cs)) as [[t r']|]; [|done]. intros [= <- <-]. right. eauto.
Qed.

Lemma balanced :
  (∀ cs ts r, unit_ cs ts r → (∃ t, ts = [t] ∧ scan1 cs = Some (t, r)) ∨ ∃ h tl, ts = quote h :: tl ∧ braces 0 tl = Some 0%N) ∧
  (∀ h acc cs ts r, pieces h acc cs ts r → braces 0 ts = Some 0%N) ∧
  (∀ d first cs out r, inside d first cs out r → braces (d + 1) out = Some 0%N).
Proof.
  apply string_ind.
  - intros cs ts r Hu. apply unit_at_tokens in Hu as [->|Ht]; [|by left]. right. by exists false, [TDQuote].
  - intros cs h cs' ts r Hu _ IH. right. eauto.
  - intros h acc cs ts r Hp. by apply piece_braces in Hp.
  - intros h acc cs ts acc' cs' ts' r Hp _ IH. apply piece_braces in Hp. by rewrite braces_app, Hp.
  - intros h acc cs cs' its cs'' ts r Hp _ IHi _ IH. rewrite braces_app, braces_literal. cbn [mbind option_bind braces brace].
    rewrite braces_app, IHi. by apply IH.
  - intros d first cs ts cs' d' out r _ _ Hb _ IH. rewrite braces_app. by erewrite braces_more by done.
  - by intros cs r _ _.
Qed.

(** Behind the first token of a string, the others keep the depth. *)
Lemma unit_shape cs t tl r : unit_ cs (t :: tl) r →
  (tl = [] ∧ scan1 cs = Some (t, r)) ∨ ((∀ d, brace d t = Some d) ∧ ∀ d, braces d tl = Some d).
Proof.
  intros Hu. apply balanced in Hu as [(t' & [= <- ->] & Hs)|(h & tl' & [= -> ->] & Hb)]; [by left|]. right.
  split; [by destruct h|]. intros d. by apply (braces_more 0 _ 0 d).
Qed.
Lemma unit_nonempty cs r : ¬ unit_ cs [] r.
Proof. intros Hu. by apply balanced in Hu as [(t & [=] & _)|(h & tl & [=] & _)]. Qed.
End grammar.
