(* ===== verification/LexerRun.v ===== *)
(** The lexer reads what the grammar of [LexerSpec] says: with spans and
    the state of a string put aside, the two are the same function. *)
From Stdlib Require Import Ascii.
From S2P Require Import Prelude Value ValueOrd ScriptOps Text Token Lexer LexerTotal LexerSpec.

(** What is left of a source ends with a line. *)
Definition ends (s : list N) : Prop := s = [] ∨ last s = Some NL.
Lemma ends_app a b : ends (a ++ b) → ends b.
Proof.
  intros [Hn|Hl]; [apply app_eq_nil in Hn as [_ ->]; by left|]. destruct b; [by left|].
  right. by apply last_app_r in Hl.
Qed.
Lemma ends_cons c cs : ends (c :: cs) → ends cs.
Proof. apply (ends_app [c]). Qed.

Definition good (s : lexer) : Prop := read_from [] (loc s) s ∧ ends (rest s) ∧ stored_tokens s = [].

Lemma good_moved q r s s' : good s → moved q s s' → rest s = q ++ r → good s'.
Proof.
  intros (Hr & He & Hs) Hm Hq. split_and!.
  - eapply (read_from_here ([] ++ q) (loc s)). by eapply moved_read_from.
  - rewrite (moved_rest _ _ _ _ Hm Hq). rewrite Hq in He. by eapply ends_app.
  - destruct Hm as (_ & _ & _ & ->). done.
Qed.
Lemma good_advance q r s : good s → rest s = q ++ r → good (advance q s).
Proof. intros Hg. by apply good_moved. Qed.

Lemma read_from_absolute l s : read_from [] (loc s) s → absolute l = absolute (loc s) → read_from [] l s.
Proof. intros (p & Hi & Ha & Hl) Heq. exists p. by rewrite Heq. Qed.

Lemma run_spanned2 a b t s : ∃ x, spanned2 a b t s = (s, LOk x) ∧ value_of x = t ∧ pp_end (span_of x) = set_cu (cu s) b.
Proof. eexists. split; [reflexivity|done]. Qed.
Lemma run_push a b t st s : ∃ x, value_of x = t ∧
  push a b t st s = (s, LOk (StringState (has_escapes st) (segment_start st) (end_of st) (tokens st ++ [x]) (content st))).
Proof. eexists. split; [|reflexivity]. done. Qed.

Definition values (ts : list spanned) : list token := value_of <$> ts.
Lemma values_app a b : values (a ++ b) = values a ++ values b.
Proof. apply fmap_app. Qed.

(** [runs m pre s R]: from [s] on, [m] ends with the tokens [pre] and those of
    the only pair in [R], or fails if there is none. *)
Definition runs (m : lex_m (list spanned)) (pre : list spanned) (s : lexer) (R : list token → list N → Prop) : Prop :=
  match m s with
  | (s', LOk ts) => good s' ∧ ∃ new, ts = pre ++ new ∧ ∀ vs r, R vs r ↔ vs = values new ∧ r = rest s'
  | (_, LErr _) => ∀ vs r, ¬ R vs r
  end.

Lemma runs_bind {A} (m : lex_m A) (f : A → lex_m (list spanned)) pre s s1 a R :
  m s = (s1, LOk a) → runs (f a) pre s1 R → runs (m ≫= f) pre s R.
Proof. intros Hm. unfold runs. by rewrite (run_bind m f s s1 a Hm). Qed.
Lemma runs_error {A} (m : lex_m A) (f : A → lex_m (list spanned)) pre s (R : list token → list N → Prop) s1 e :
  m s = (s1, LErr e) → (∀ vs r, ¬ R vs r) → runs (m ≫= f) pre s R.
Proof. intros Hm. unfold runs, mbind, lex_bind. by rewrite Hm. Qed.
Lemma runs_fail e pre s (R : list token → list N → Prop) : (∀ vs r, ¬ R vs r) → runs (lex_fail e) pre s R.
Proof. done. Qed.
Lemma runs_more m pre ex s (R R' : list token → list N → Prop) :
  runs m (pre ++ ex) s R' → (∀ vs r, R vs r ↔ ∃ vs', vs = values ex ++ vs' ∧ R' vs' r) → runs m pre s R.
Proof.
  unfold runs. intros Hm HR. destruct (m s) as [s' [ts|e]].
  - destruct Hm as (Hg & new & -> & Hnew). split; [done|]. exists (ex ++ new). split; [by rewrite app_assoc|].
    intros vs r. rewrite HR, values_app. split.
    + intros (vs' & -> & Hv). apply Hnew in Hv as [-> ->]. done.
    + intros [-> ->]. exists (values new). split; [done|]. by apply Hnew.
  - intros vs r Hv. apply HR in Hv as (vs' & _ & Hv). by apply Hm in Hv.
Qed.
Lemma runs_iff m pre s (R R' : list token → list N → Prop) :
  runs m pre s R' → (∀ vs r, R vs r ↔ R' vs r) → runs m pre s R.
Proof.
  intros Hm HR. apply (runs_more m pre [] s R R'); [by rewrite app_nil_r|]. intros vs r. rewrite HR. simpl.
  split; [eauto|]. by intros (vs' & -> & Hv).
Qed.
Lemma runs_done pre new s (R : list token → list N → Prop) :
  good s → (∀ vs r, R vs r ↔ vs = values new ∧ r = rest s) → runs (mret (pre ++ new)) pre s R.
Proof. intros Hg HR. split; [done|]. eauto. Qed.

Section strings.
Context `{!lexer_libs}.

(** ** The grammar, piece by piece *)
Lemma pieces_iff h acc cs ts r : pieces h acc cs ts r ↔
  match piece_at h acc cs with
  | None => False
  | Some (PEnd ts' r') => ts = ts' ∧ r = r'
  | Some (PMore t acc' cs') => ∃ ts', ts = t ++ ts' ∧ pieces h acc' cs' ts' r
  | Some (PInterpol cs') => ∃ its cs'' ts',
      ts = literal h acc ++ TInterpol :: its ++ ts' ∧ inside 0 true cs' its cs'' ∧ pieces h [] cs'' ts' r
  end.
Proof.
  split.
  - destruct 1 as [h acc cs ts r Hp|h acc cs ts acc' cs' ts' r Hp|h acc cs cs' its cs'' ts r Hp]; rewrite Hp; eauto 7.
  - destruct (piece_at h acc cs) as [[ts' r'|t acc' cs'|cs']|] eqn:Hp; [| | |done].
    + intros [-> ->]. by apply pieces_end.
    + intros (ts' & -> & Hts). by eapply pieces_more.
    + intros (its & cs'' & ts' & -> & Hi & Hts). by eapply pieces_interpol.
Qed.
Lemma unit_iff cs ts r : unit_ cs ts r ↔
  match unit_at cs with
  | None => False
  | Some (OTokens ts' r') => ts = ts' ∧ r = r'
  | Some (OString h cs') => ∃ ts', ts = quote h :: ts' ∧ pieces h [] cs' ts' r
  end.
Proof.
  split.
  - destruct 1 as [cs ts r Hu|cs h cs' ts r Hu Hp]; rewrite Hu; eauto.
  - destruct (unit_at cs) as [[ts' r'|h cs']|] eqn:Hu; [| |done].
    + intros [-> ->]. by apply unit_tokens.
    + intros (ts' & -> & Hts). by eapply unit_string.
Qed.
(** What an interpolation starts with decides how it goes on. *)
Lemma inside_iff d first cs us r1 out r :
  (∀ vs r, unit_ cs vs r ↔ vs = us ∧ r = r1) →
  inside d first cs out r ↔
    (∃ d' out', braces d us = Some d' ∧ out = us ++ out' ∧ inside d' false r1 out' r) ∨
    (us = [TRBrace] ∧ d = 0%N ∧ first = false ∧ out = us ∧ r = r1).
Proof.
  intros Hu. split.
  - inversion 1 as [? ? ? ts cs' d' out' ? Hus Hb Hin|? ? Hus]; subst.
    + apply Hu in Hus as [-> ->]. left. eauto.
    + apply Hu in Hus as [<- ->]. by right.
  - intros [(d' & out' & Hb & -> & Hin)|(-> & -> & -> & -> & ->)].
    + eapply inside_more; [by apply Hu|done..].
    + apply inside_close. by apply Hu.
Qed.
Lemma inside_none d first cs out r : (∀ vs r, ¬ unit_ cs vs r) → ¬ inside d first cs out r.
Proof. intros Hu. by inversion 1 as [? ? ? ts cs' d' out' ? Hus|? ? Hus]; subst; apply Hu in Hus. Qed.

(** ** Escapes *)
Lemma run_unicode_digits k e ds s :
  read_from [] (loc s) s →
  match unicode_digits k e ds s with
  | (s', LOk (e', ds')) => ∃ q, length q = k ∧ forallb is_hex q = true ∧ ds' = ds ++ q ∧ s' = advance q s ∧
      rest s = q ++ rest s' ∧ (absolute e + 1 = absolute (loc s) → absolute e' + 1 = absolute (loc s'))%N
  | (_, LErr _) => ∀ q r, rest s = q ++ r → length q = k → forallb is_hex q = false
  end.
Proof.
  revert e ds s. induction k as [|k IH]; intros e ds s Hs; cbn [unicode_digits].
  { exists []. rewrite app_nil_r, advance_nil. by split_and!. }
  destruct (rest s) as [|c r] eqn:Hr.
  { unfold mbind, lex_bind, bump. rewrite Hr. by intros [|? ?] ? ?. }
  rewrite (run_bind _ _ _ _ _ (run_bump s c r Hr)). cbv beta iota. destruct (is_hex c) eqn:Hc.
  - assert (rest (advance [c] s) = r) as Hr1 by by apply (rest_advance [c]).
    specialize (IH (loc s) (ds ++ [c]) (advance [c] s)). rewrite Hr1 in IH.
    assert (absolute (loc s) + 1 = absolute (loc (advance [c] s)))%N as Habs.
    { change (loc (advance [c] s)) with (shift c (loc s)). rewrite absolute_shift.
      assert (len_utf8 c = 1%N) as ->; [|done]. unfold len_utf8.
      destruct (N.ltb_spec c 128) as [|Hge]; [done|]. exfalso. revert Hc. unfold is_hex, is_dec_digit.
      repeat match goal with |- context [(?a <=? ?b)%N] => destruct (N.leb_spec a b); try lia end; done. }
    destruct (unicode_digits _ _ _ _) as [s' [[e' ds']|er]].
    + destruct IH as (q & Hl & Hh & -> & -> & Hq & Ha).
      { eapply (read_from_here ([] ++ [c]) (loc s)). by apply (read_from_advance [] [c] r). }
      exists (c :: q). rewrite <-app_assoc. cbn [app forallb length]. rewrite Hc. split_and!; [by f_equal|done|done| | |].
      * by rewrite <-(advance_app [c] q).
      * by f_equal.
      * intros _. by apply Ha.
    + intros [|c' q] r' Heq Hl; [done|]. injection Heq as <- Heq. simpl. rewrite Hc. eapply IH; [|done|by injection Hl].
      eapply (read_from_here ([] ++ [c]) (loc s)). by apply (read_from_advance [] [c] r).
  - intros [|c' q] r' Heq Hl; [done|]. injection Heq as <- _. simpl. by rewrite Hc.
Qed.

Lemma escapes_ascii c x : find_escape c escapes = Some x → (c < 128)%N.
Proof.
  unfold escapes. cbn [find_escape]. repeat (match goal with |- context [(c =? ?y)%N] => destruct (N.eqb_spec c y) as [->|_] end; [done|]).
  done.
Qed.

Lemma run_escape_code s :
  read_from [] (loc s) s →
  match scan_escape (rest s) with
  | Some (x, r) => ∃ q e, rest s = q ++ r ∧ escape_code s = (advance q s, LOk (e, x)) ∧
      (absolute e + 1 = absolute (loc (advance q s)))%N
  | None => ∃ s' e, escape_code s = (s', LErr e)
  end.
Proof.
  intros Hs. unfold escape_code. destruct (rest s) as [|c r] eqn:Hr.
  { unfold mbind, lex_bind, bump. rewrite Hr. simpl. eauto. }
  rewrite (run_bind _ _ _ _ _ (run_bump s c r Hr)). cbv beta iota. cbn [scan_escape].
  destruct (find_escape c escapes) as [x|] eqn:Hf.
  { exists [c], (loc s). split_and!; [done..|]. change (loc (advance [c] s)) with (shift c (loc s)). rewrite absolute_shift.
    apply escapes_ascii in Hf. unfold len_utf8. by destruct (N.ltb_spec c 128); [|lia]. }
  destruct (N.eqb_spec c (ch "u")) as [->|_]; [|do 2 eexists; done].
  assert (read_from [] (loc (advance [ch "u"] s)) (advance [ch "u"] s)) as Hs1.
  { eapply (read_from_here ([] ++ [ch "u"]) (loc s)). by apply (read_from_advance [] [_] r). }
  pose proof (run_unicode_digits 4 (loc s) [] (advance [ch "u"] s) Hs1) as Hd.
  assert (rest (advance [ch "u"] s) = r) as Hr1 by by apply (rest_advance [ch "u"]). rewrite Hr1 in Hd.
  destruct (unicode_digits _ _ _ _) as [s' [[e' ds']|er]] eqn:Hu.
  - destruct Hd as (q & Hl & Hh & -> & -> & Hq & Ha). rewrite (run_bind _ _ _ _ _ Hu). cbn [app fst snd].
    destruct q as [|h1 [|h2 [|h3 [|h4 [|]]]]]; try done. rewrite Hq. cbn [app]. rewrite Hh.
    destruct (char_from_u32 _) as [x|] eqn:Hx; cbv [fmap option_fmap option_map]; [|do 2 eexists; done].
    exists (ch "u" :: [h1; h2; h3; h4]), e'. split_and!; [done|by rewrite <-(advance_app [_] [_; _; _; _])|].
    change (ch "u" :: [h1; h2; h3; h4]) with ([ch "u"] ++ [h1; h2; h3; h4]). rewrite advance_app. apply Ha.
    change (loc (advance [ch "u"] s)) with (shift (ch "u") (loc s)). by rewrite absolute_shift.
  - assert (match (match r with
      | h1 :: h2 :: h3 :: h4 :: r => if forallb is_hex [h1; h2; h3; h4]
         then (λ x, (x, r)) <$> char_from_u32 (hex_number [h1; h2; h3; h4]) else None
      | _ => None end) with Some _ => False | None => True end) as Hnone.
    { destruct r as [|h1 [|h2 [|h3 [|h4 r]]]]; try done. by rewrite (Hd [h1; h2; h3; h4] r). }
    destruct (match r with [] => _ | _ => _ end) as [[x r']|]; [done|]. do 2 eexists. unfold mbind, lex_bind. by rewrite Hu.
Qed.
(** ** The state of a string *)
Definition holds (st : string_state) (s : lexer) : Prop :=
  has_escapes st = false → read_from (content st) (segment_start st) s.

(** The content becomes a token; [q] are the characters behind it. *)
Lemma run_push_content h q st s :
  holds st s → ∃ new, values new = literal h (content st) ∧
  push_content (lit h) (loc s) st (advance q s) =
    (advance q s, LOk (StringState (if bool_decide (content st = []) then has_escapes st else false) (segment_start st)
       (end_of st) (tokens st ++ new) [])).
Proof.
  intros Hh. unfold push_content, literal. case_bool_decide as Hc.
  { exists []. split; [done|]. rewrite app_nil_r. destruct st. simpl in *. by subst. }
  assert (∀ o, (if has_escapes st then content st else default (content st) o) = content st ∨
    has_escapes st = false ∧ o ≠ Some (content st)) as Hdef.
  { intros o. destruct (has_escapes st); [by left|]. destruct (decide (o = Some (content st))) as [->|]; [by left|by right]. }
  assert (∃ o, slice (segment_start st) (loc s) (advance q s) = (advance q s, LOk o) ∧
    (if has_escapes st then content st else default (content st) o) = content st) as (o & Hs & Ho).
  { destruct (has_escapes st) eqn:He; [by eexists|]. exists (Some (content st)). split; [|done].
    by apply slice_behind, Hh. }
  rewrite (run_bind _ _ _ _ _ Hs). cbv zeta. rewrite Ho.
  destruct (run_push (segment_start st) (loc s) (lit h (content st)) st (advance q s)) as (x & Hx & Hp).
  exists [x]. split; [by rewrite <-Hx|]. by rewrite (run_bind _ _ _ _ _ Hp).
Qed.

(** ** Interpolations *)
Definition next_spec (n : nat) : Prop := ∀ s, good s → mu s < n →
  match next n s with
  | (s', LOk (Some t)) => good (with_stored [] s') ∧
      (∀ vs r, unit_ (rest s) vs r ↔ vs = value_of t :: values (stored_tokens s') ∧ r = rest s') ∧
      (value_of t = TRBrace → absolute (pp_end (span_of t)) = absolute (loc s'))
  | (_, LOk None) => rest s = []
  | (_, LErr _) => ∀ vs r, ¬ unit_ (rest s) vs r
  end.

Lemma next_length n s s' t :
  good s → mu s < n → next n s = (s', LOk (Some t)) → 2 * length (rest s') + length (stored_tokens s') < mu s.
Proof.
  intros _ Hn Heq. destruct (next_good n s Hn) as [[_ Hr] _]. rewrite Heq in Hr. simpl in Hr. unfold mu in Hr at 1. lia.
Qed.

Definition append (st : string_state) (ts : list spanned) : string_state :=
  StringState (has_escapes st) (segment_start st) (end_of st) (tokens st ++ ts) (content st).
Lemma append_app st a b : append (append st a) b = append st (a ++ b).
Proof. unfold append. simpl. by rewrite app_assoc. Qed.

Lemma interpol_step nxt m h d first st s s1 t d' :
  nxt s = (s1, LOk (Some t)) → brace d (value_of t) = Some d' →
  interpol_loop nxt (S m) h d first st s = interpol_loop nxt m h d' false (append st [t]) s1.
Proof.
  intros Hn Hb. cbn [interpol_loop]. unfold mbind at 1, lex_bind at 1. rewrite Hn.
  destruct (value_of t); simpl in Hb; simplify_eq; try done. by destruct (d =? 0)%N; simplify_eq.
Qed.

(** The tokens that a string has left behind are taken one by one. *)
Lemma interpol_pending n m h d st s d' :
  braces d (values (stored_tokens s)) = Some d' →
  interpol_loop (next (S n)) (length (stored_tokens s) + m) h d false st s =
  interpol_loop (next (S n)) m h d' false (append st (stored_tokens s)) (with_stored [] s).
Proof.
  remember (stored_tokens s) as ts eqn:Hts. revert d st s Hts. induction ts as [|t ts IH]; intros d st s Hts.
  - intros [= ->]. assert (with_stored [] s = s) as -> by (unfold with_stored; rewrite Hts; by destruct s).
    unfold append. rewrite app_nil_r. by destruct st.
  - cbn [values fmap list_fmap braces]. destruct (brace d (value_of t)) as [d1|] eqn:Hb; [|done]. intros Hd.
    cbn [length Nat.add]. erewrite interpol_step; [|by apply next_stored|exact Hb].
    rewrite IH; [|done|done]. by rewrite append_app.
Qed.

Definition interpol_result (d : N) (first : bool) (st : string_state) (s : lexer) (o : lexer * lres string_state) : Prop :=
  match o with
  | (s', LOk st') => good s' ∧ length (rest s') ≤ length (rest s) ∧ content st' = content st ∧
      read_from [] (segment_start st') s' ∧
      ∃ new, tokens st' = tokens st ++ new ∧ ∀ vs r, inside d first (rest s) vs r ↔ vs = values new ∧ r = rest s'
  | (_, LErr _) => ∀ vs r, ¬ inside d first (rest s) vs r
  end.

Lemma interpol_runs n : next_spec (S n) → ∀ m h d first st s,
  good s → mu s < S n → mu s < m →
  interpol_result d first st s (interpol_loop (next (S n)) m h d first st s).
Proof.
  intros Hnext m. induction m as [m IH] using lt_wf_ind. intros h d first st s Hg Hn Hm.
  destruct m as [|m]; [lia|]. pose proof (Hnext s Hg Hn) as Hsp. pose proof (next_length (S n) s) as Hlen.
  destruct (next (S n) s) as [s1 [[t|]|e]] eqn:Hnx.
  - destruct Hsp as (Hg1 & Hu & Habs). specialize (Hlen s1 t Hg Hn eq_refl).
    assert (mu s = 2 * length (rest s)) as Hmu by (unfold mu; destruct Hg as (_ & _ & ->); simpl; lia).
    pose proof (proj2 (Hu _ _) (conj eq_refl eq_refl)) as Hunit. apply unit_shape in Hunit.
    destruct (decide (brace d (value_of t) = None)) as [Hclose|Hopen].
    + (* the brace that closes the interpolation *)
      assert (value_of t = TRBrace ∧ d = 0%N) as [Ht ->].
      { destruct (value_of t); try done. simpl in Hclose. by destruct (N.eqb_spec d 0). }
      assert (stored_tokens s1 = []) as Hst.
      { destruct Hunit as [[Hst _]|[Hb _]]; [by apply fmap_nil_inv in Hst|]. specialize (Hb 0%N). rewrite Ht in Hb. done. }
      assert (with_stored [] s1 = s1) as Hs1 by (unfold with_stored; rewrite <-Hst; by destruct s1).
      rewrite Hs1 in Hg1. rewrite Ht, Hst in Hu. change (values []) with (@nil token) in Hu.
      cbn [interpol_loop]. unfold mbind at 1, lex_bind at 1. rewrite Hnx, Ht. cbn [N.eqb].
      destruct first.
      * intros vs r Hi. apply (inside_iff _ _ _ _ _ _ _ Hu) in Hi as [(d' & out' & [=] & _)|(_ & _ & [=] & _)].
      * split_and!; [done|lia|done| |].
        { apply read_from_absolute; [by destruct Hg1|]. by apply Habs. }
        exists [t]. split; [done|]. intros vs r. rewrite (inside_iff _ _ _ _ _ _ _ Hu).
        change (values [t]) with [value_of t]. rewrite Ht. split.
        { intros [(d' & out' & [=] & _)|(_ & _ & _ & -> & ->)]. done. }
        intros [-> ->]. by right.
    + destruct (brace d (value_of t)) as [d1|] eqn:Hb; [clear Hopen|done].
      assert (braces d1 (values (stored_tokens s1)) = Some d1) as Hbs.
      { destruct Hunit as [[-> _]|[_ Hbs]]; [done|by apply Hbs]. }
      rewrite (interpol_step _ _ _ _ _ _ _ _ _ _ Hnx Hb).
      replace m with (length (stored_tokens s1) + (m - length (stored_tokens s1))) by lia.
      rewrite (interpol_pending _ _ _ _ _ _ _ Hbs).
      specialize (IH (m - length (stored_tokens s1)) ltac:(lia) h d1 false (append (append st [t]) (stored_tokens s1))
        (with_stored [] s1) Hg1). unfold mu in IH at 1 2. simpl in IH. specialize (IH ltac:(lia) ltac:(lia)).
      unfold interpol_result in *. destruct (interpol_loop _ _ _ _ _ _ _) as [s' [st'|e]].
      * destruct IH as (Hg' & Hl' & Hc' & Hseg & new & Hnew & Hin). simpl in *. split_and!; [done|lia|done..|].
        exists (t :: stored_tokens s1 ++ new). split; [by rewrite Hnew, <-!app_assoc|].
        intros vs r. rewrite (inside_iff _ _ _ _ _ _ _ Hu).
        change (values (t :: stored_tokens s1 ++ new)) with (value_of t :: values (stored_tokens s1 ++ new)).
        rewrite values_app. cbn [braces]. rewrite Hb. cbn [mbind option_bind]. rewrite Hbs. split.
        { intros [(d' & out' & [= <-] & -> & Hi)|(Heq & -> & _)].
          - by apply Hin in Hi as [-> ->].
          - injection Heq as Heq _. by rewrite Heq in Hb. }
        intros [-> ->]. left. do 2 eexists. split_and!; [done..|]. by apply Hin.
      * intros vs r Hi. apply (inside_iff _ _ _ _ _ _ _ Hu) in Hi. cbn [braces] in Hi. rewrite Hb in Hi.
        cbn [mbind option_bind] in Hi. rewrite Hbs in Hi. destruct Hi as [(d' & out' & [= <-] & -> & Hi)|(Heq & -> & _)].
        { by apply IH in Hi. }
        injection Heq as Heq _. by rewrite Heq in Hb.
  - cbn [interpol_loop]. unfold mbind at 1, lex_bind at 1. rewrite Hnx. intros vs r. apply inside_none.
    intros vs' r' Hu. apply unit_iff in Hu. by rewrite Hsp in Hu.
  - cbn [interpol_loop]. unfold mbind at 1, lex_bind at 1. rewrite Hnx. intros vs r. by apply inside_none.
Qed.

(** ** One step of a string *)
Lemma holds_char st s c r e :
  holds st s → rest s = c :: r →
  holds (StringState (has_escapes st) (segment_start st) e (tokens st) (content st ++ [c])) (advance [c] s).
Proof. intros Hh Hr He. cbn [has_escapes segment_start content] in *. apply (read_from_advance _ [c] r); [by apply Hh|done]. Qed.

Lemma piece_at_char h acc c cs : c ≠ DQUOTE → c ≠ NL → piece_at h acc (c :: cs) = piece_char h acc c cs.
Proof. intros Hq Hl. cbn [piece_at]. by rewrite (proj2 (N.eqb_neq _ _) Hq), (proj2 (N.eqb_neq _ _) Hl). Qed.

Section step.
Variables (n m : nat) (h : bool) (k : string_state → lex_m (list spanned)).
Hypothesis Hnext : next_spec (S n).
Variables (st : string_state) (s0 : lexer) (c : N) (r : list N).
Hypotheses (Hg : good s0) (Hh : holds st s0) (Hr : rest s0 = c :: r) (Hn : mu s0 < S n) (Hm : mu s0 < S m).
Hypothesis Hk : ∀ st' s', good s' → holds st' s' → length (rest s') ≤ length r →
  runs (k st') (tokens st') s' (pieces h (content st') (rest s')).
Let s1 := advance [c] s0.

Lemma rest_step : rest s1 = r.
Proof. by apply (rest_advance [c]). Qed.
Lemma good_step : good s1.
Proof. by apply (good_advance [c] r). Qed.

(** The character itself is read. *)
Lemma char_runs e : piece_char h (content st) c r = Some (PMore [] (content st ++ [c]) r) → c ≠ DQUOTE → c ≠ NL →
  runs (mret (StringState (has_escapes st) (segment_start st) e (tokens st) (content st ++ [c])) ≫= k) (tokens st) s1
    (pieces h (content st) (c :: r)).
Proof.
  intros Hp Hq Hl. eapply runs_bind; [done|]. eapply runs_iff; [apply (Hk (StringState _ _ _ _ _) s1)|].
  - apply good_step.
  - by eapply holds_char.
  - by rewrite rest_step.
  - intros vs r'. rewrite pieces_iff, piece_at_char, Hp, rest_step by done. simpl. split; [|eauto].
    by intros (ts' & -> & Hts).
Qed.

Lemma escape_runs : c = ch "\" →
  runs (handle_qs_hd_generic (next (S n)) m h (lit h) (loc s0, c) st ≫= k) (tokens st) s1 (pieces h (content st) (c :: r)).
Proof.
  intros Hc. assert (c ≠ DQUOTE ∧ c ≠ NL) as [Hq Hl] by by rewrite Hc.
  assert (∀ vs r', pieces h (content st) (c :: r) vs r' ↔ match scan_escape r with
    | None => False
    | Some (x, cs) => if (x =? ch "#")%N then ∃ ts', vs = (literal h (content st) ++ [TEscapedHash]) ++ ts' ∧ pieces h [] cs ts' r'
                      else pieces h (content st ++ [x]) cs vs r' end) as Hiff.
  { intros vs r'. rewrite pieces_iff, piece_at_char by done. unfold piece_char. rewrite Hc. cbn [N.eqb].
    change (ch "\" =? ch "\")%N with true. cbv iota. destruct (scan_escape r) as [[x cs]|]; [|done].
    destruct (x =? ch "#")%N; [done|]. split; [by intros (ts' & -> & Hts)|]. intros Hts. by exists vs. }
  pose proof (run_escape_code s1 (proj1 good_step)) as He. rewrite rest_step in He.
  unfold handle_qs_hd_generic. rewrite Hc at 1. change (ch "\" =? ch "\")%N with true. cbv iota.
  destruct (scan_escape r) as [[x cs]|] eqn:Hsc.
  2:{ destruct He as (s' & e & He). apply (runs_error _ _ _ _ _ s' e).
      - unfold mbind, lex_bind. by rewrite He.
      - by intros vs r' Hp%Hiff. }
  destruct He as (q & e & Hq2 & He & Habs). assert (good (advance q s1)) as Hg2.
  { eapply good_advance; [apply good_step|]. by rewrite rest_step. }
  assert (rest (advance q s1) = cs) as Hr2 by (apply rest_advance; by rewrite rest_step).
  assert (length cs ≤ length r) as Hlen by (rewrite Hq2, length_app; lia).
  destruct (x =? ch "#")%N eqn:Hx.
  - assert (advance q s1 = advance ([c] ++ q) s0) as Hadv by by rewrite advance_app.
    destruct (run_push_content h ([c] ++ q) st s0 Hh) as (new & Hnew & Hpc).
    match type of Hpc with _ = (_, LOk ?st2) => destruct (run_push (loc s0) e TEscapedHash st2 (advance ([c] ++ q) s0)) as (y & Hy & Hp) end.
    eapply (runs_bind _ _ _ _ (advance q s1)).
    { rewrite (run_bind _ _ _ _ _ He). cbv beta iota. rewrite Hx, Hadv, (run_bind _ _ _ _ _ Hpc), (run_bind _ _ _ _ _ Hp). reflexivity. }
    cbn [tokens content has_escapes]. rewrite <-app_assoc.
    eapply runs_more; [apply (Hk (StringState _ _ _ _ _))|]; cbn [tokens content]; [exact Hg2| |by rewrite Hr2|].
    + intros _. cbn [segment_start content]. apply read_from_absolute; [by destruct Hg2|].
      rewrite absolute_shift. apply N.eqb_eq in Hx as ->. by rewrite <-Habs.
    + intros vs r'. rewrite Hiff, Hr2, values_app, Hnew. change (values [y]) with [value_of y]. by rewrite Hy.
  - eapply (runs_bind _ _ _ _ (advance q s1)).
    { rewrite (run_bind _ _ _ _ _ He). cbv beta iota. rewrite Hx. reflexivity. }
    eapply runs_iff; [apply (Hk (StringState _ _ _ _ _))|]; cbn [tokens content]; [exact Hg2|by intros [=]|by rewrite Hr2|].
    intros vs r'. by rewrite Hiff, Hr2.
Qed.

Lemma hash_runs : c = ch "#" →
  runs (handle_qs_hd_generic (next (S n)) m h (lit h) (loc s0, c) st ≫= k) (tokens st) s1 (pieces h (content st) (c :: r)).
Proof.
  intros Hc. assert (c ≠ DQUOTE ∧ c ≠ NL) as [Hq Hl] by by rewrite Hc.
  unfold handle_qs_hd_generic. replace (c =? ch "\")%N with false by by rewrite Hc.
  replace (c =? ch "#")%N with true by by rewrite Hc. cbv iota. rewrite <-Hc.
  assert (lookahead s1 = (s1, LOk match r with [] => None | d :: _ => Some (loc s1, d) end)) as Hla.
  { unfold lookahead. by rewrite rest_step. }
  assert (∀ e, opens_interpol r = None → runs (mret (StringState (has_escapes st) (segment_start st) e (tokens st) (content st ++ [c])) ≫= k)
    (tokens st) s1 (pieces h (content st) (c :: r))) as Hchar.
  { intros e Ho. apply char_runs; [|done..]. unfold piece_char. by rewrite Hc, Ho. }
  assert (∀ (f : option (location * N) → lex_m string_state) o,
    f match r with [] => None | d :: _ => Some (loc s1, d) end s1 = o → (lookahead ≫= f) s1 = o) as Hlf.
  { intros f o <-. by rewrite (run_bind _ _ _ _ _ Hla). }
  pose proof rest_step as Hrs1. pose proof good_step as Hgs1. destruct r as [|d r2] eqn:Hr0.
  { eapply runs_bind; [apply Hlf; reflexivity|]. apply (Hchar (loc s0) eq_refl). }
  destruct (d =? ch "{")%N eqn:Hd.
  2:{ eapply runs_bind; [apply Hlf; rewrite Hd; reflexivity|]. apply (Hchar (loc s0)). cbn [opens_interpol]. by rewrite Hd. }
  apply N.eqb_eq in Hd as ->. clear Hchar.
  assert (∀ vs r', pieces h (content st) (c :: ch "{" :: r2) vs r' ↔ ∃ its cs'' ts',
      vs = literal h (content st) ++ TInterpol :: its ++ ts' ∧ inside 0 true r2 its cs'' ∧ pieces h [] cs'' ts' r') as Hiff.
  { intros vs r'. rewrite pieces_iff, piece_at_char by done. unfold piece_char. by rewrite Hc. }
  assert (bump s1 = (advance [ch "{"] s1, LOk (Some (loc s1, ch "{")))) as Hb by by apply (run_bump _ _ r2).
  assert (advance [ch "{"] s1 = advance ([c] ++ [ch "{"]) s0) as Hadv by by rewrite advance_app.
  assert (good (advance [ch "{"] s1)) as Hg2 by by by apply (good_advance [ch "{"] r2).
  assert (rest (advance [ch "{"] s1) = r2) as Hr2 by by apply (rest_advance [ch "{"]).
  set (sti := StringState (has_escapes st) (segment_start st) (loc s1) (tokens st) (content st)).
  destruct (run_push_content h ([c] ++ [ch "{"]) sti s0 Hh) as (new & Hnew & Hpc).
  match type of Hpc with _ = (_, LOk ?st2) =>
    destruct (run_push (loc s0) (shift (ch "{") (end_of sti)) TInterpol
      (StringState (has_escapes st2) (loc s0) (shift (ch "{") (end_of sti)) (tokens st2) (content st2)) (advance ([c] ++ [ch "{"]) s0)) as (y & Hy & Hp) end.
  cbn [has_escapes segment_start end_of tokens content] in Hp.
  match type of Hp with _ = (_, LOk ?st3) =>
    pose proof (interpol_runs n Hnext m h 0 true st3 (advance ([c] ++ [ch "{"]) s0)) as Hi;
    assert (∀ o, interpol_loop (next (S n)) m h 0 true st3 (advance ([c] ++ [ch "{"]) s0) = o →
      (lookahead ≫= λ d, match d with
       | Some (e, d) => if (d =? ch "{")%N then handle_interpol (next (S n)) m h (lit h) (loc s0)
            (StringState (has_escapes st) (segment_start st) e (tokens st) (content st))
          else mret (StringState (has_escapes st) (segment_start st) (loc s0) (tokens st) (content st ++ [c]))
       | None => mret (StringState (has_escapes st) (segment_start st) (loc s0) (tokens st) (content st ++ [c])) end) s1 = o) as Hrun
  end.
  { intros o <-. apply Hlf. change (ch "{" =? ch "{")%N with true. cbv iota.
    unfold handle_interpol. fold sti. rewrite (run_bind _ _ _ _ _ Hb). cbv zeta.
    rewrite Hadv, (run_bind _ _ _ _ _ Hpc). cbn [has_escapes segment_start end_of tokens content].
    by rewrite (run_bind _ _ _ _ _ Hp). }
  rewrite Hadv in Hg2, Hr2. assert (mu (advance ([c] ++ [ch "{"]) s0) < mu s0) as Hmu2.
  { unfold mu. rewrite Hr2, Hr. destruct Hg as (_ & _ & ->), Hg2 as (_ & _ & ->). cbn [length]. lia. }
  specialize (Hi Hg2 ltac:(lia) ltac:(lia)). unfold interpol_result in Hi.
  destruct (interpol_loop _ _ _ _ _ _ _) as [s' [st'|e]] eqn:Hil; specialize (Hrun _ eq_refl).
  - destruct Hi as (Hg' & Hl' & Hc' & Hseg & its & Hits & Hin). rewrite Hr2 in *. eapply runs_bind; [exact Hrun|].
    cbn [tokens content] in Hc', Hits.
    eapply (runs_more _ _ (new ++ [y] ++ its)); [|].
    { replace (tokens st ++ new ++ [y] ++ its) with (tokens st'); [|by rewrite Hits; rewrite <-!app_assoc].
      apply Hk; [done| |simpl; lia]. intros _. by rewrite Hc'. }
    intros vs r'. rewrite Hiff, Hc', !values_app, Hnew. change (values [y]) with [value_of y]. rewrite Hy. split.
    + intros (its' & cs'' & ts' & -> & Hins & Hts). apply Hin in Hins as [-> ->]. exists ts'. split; [|done].
      simpl. by rewrite <-!app_assoc.
    + intros (ts' & -> & Hts). exists (values its), (rest s'), ts'. split_and!; [|by apply Hin|done].
      simpl. by rewrite <-!app_assoc.
  - eapply runs_error; [exact Hrun|]. intros vs r' (its & cs'' & ts' & _ & Hins & _)%Hiff.
    rewrite Hr2 in Hi. by apply Hi in Hins.
Qed.

Lemma generic_runs : c ≠ DQUOTE → c ≠ NL →
  runs (handle_qs_hd_generic (next (S n)) m h (lit h) (loc s0, c) st ≫= k) (tokens st) s1 (pieces h (content st) (c :: r)).
Proof.
  intros Hq Hl. destruct (decide (c = ch "\")) as [|Hb]; [by apply escape_runs|].
  destruct (decide (c = ch "#")) as [|Hx]; [by apply hash_runs|].
  unfold handle_qs_hd_generic. rewrite (proj2 (N.eqb_neq _ _) Hb), (proj2 (N.eqb_neq _ _) Hx). apply char_runs; [|done..].
  unfold piece_char. by rewrite (proj2 (N.eqb_neq _ _) Hb), (proj2 (N.eqb_neq _ _) Hx).
Qed.
End step.

(** ** Whole strings *)
Lemma good_mu s : good s → mu s = 2 * length (rest s).
Proof. intros (_ & _ & Hs). unfold mu. rewrite Hs. simpl. lia. Qed.

Lemma none_error {A} (f : option (location * N) → lex_m A) e s :
  rest s = [] → f None = lex_fail e → (bump ≫= f) s = (s, LErr e).
Proof. intros Hr Hf. unfold mbind, lex_bind, bump. rewrite Hr. by rewrite Hf. Qed.

Section loops.
Variable n : nat.
Hypothesis Hnext : next_spec (S n).

Lemma qs_runs m st s :
  good s → holds st s → mu s < S n → mu s < m →
  runs (qs (next (S n)) m st) (tokens st) s (pieces false (content st) (rest s)).
Proof.
  revert st s. induction m as [|m IH]; intros st s Hg Hh Hn Hm; [lia|]. cbn [qs].
  destruct (rest s) as [|c r] eqn:Hr.
  { unfold runs. rewrite (none_error _ UnterminatedExtractor) by done. by intros vs r' Hp%pieces_iff. }
  eapply runs_bind; [exact (run_bump _ _ _ Hr)|]. cbv beta iota.
  assert (good (advance [c] s)) as Hg1 by by apply (good_advance [c] r).
  assert (rest (advance [c] s) = r) as Hr1 by by apply (rest_advance [c]).
  destruct (N.eqb_spec c DQUOTE) as [->|Hq]; [|destruct (N.eqb_spec c NL) as [->|Hl]].
  - destruct (run_push_content false [DQUOTE] st s Hh) as (new & Hnew & Hpc).
    eapply runs_bind; [exact Hpc|].
    match goal with |- runs (push ?a ?b ?t ?st2 ≫= _) _ _ _ => destruct (run_push a b t st2 (advance [DQUOTE] s)) as (y & Hy & Hp) end.
    eapply runs_bind; [exact Hp|]. cbn [tokens]. rewrite <-app_assoc. apply runs_done; [done|].
    intros vs r'. rewrite pieces_iff. cbn [piece_at N.eqb]. change (DQUOTE =? DQUOTE)%N with true. cbv iota.
    rewrite values_app, Hnew, Hr1. change (values [y]) with [value_of y]. by rewrite Hy.
  - apply runs_fail. by intros vs r' Hp%pieces_iff.
  - apply (generic_runs n m false (qs (next (S n)) m) Hnext st s c r Hg Hh Hr Hn Hm); [|done..].
    intros st' s' Hg' Hh' Hlen. rewrite good_mu in Hn, Hm by done. rewrite Hr in Hn, Hm.
    simpl in Hn, Hm. apply IH; [done..|rewrite good_mu by done; lia|rewrite good_mu by done; lia].
Qed.

Lemma holds_quotes e st ts c q r s :
  good s → rest s = q ++ r → c = q → holds (StringState (has_escapes st) (loc s) e ts c) (advance q s).
Proof. intros [Hg _] Hr -> _. by apply (read_from_advance [] q r). Qed.

Lemma hd_runs m st s :
  good s → holds st s → mu s < S n → mu s < m →
  runs (hd (next (S n)) m st) (tokens st) s (pieces true (content st) (rest s)).
Proof.
  revert st s. induction m as [|m IH]; intros st s Hg Hh Hn Hm; [lia|]. cbn [hd].
  destruct (rest s) as [|c r] eqn:Hr.
  { unfold runs. rewrite (none_error _ UnterminatedHereDoc) by done. by intros vs r' Hp%pieces_iff. }
  eapply runs_bind; [exact (run_bump _ _ _ Hr)|]. cbv beta iota.
  assert (good (advance [c] s)) as Hg1 by by apply (good_advance [c] r).
  assert (rest (advance [c] s) = r) as Hr1 by by apply (rest_advance [c]).
  pose proof Hn as Hn0. pose proof Hm as Hm0.
  rewrite good_mu in Hn, Hm by done. rewrite Hr in Hn, Hm. cbn [length] in Hn, Hm.
  (* a line, or what may end the heredoc, goes on with the characters [x] *)
  assert (∀ x seg e y t q r', value_of y = t → rest s = q ++ r' → c :: r = q ++ r' → 1 ≤ length q →
    holds (StringState (has_escapes st) seg e (tokens st ++ [y]) x) (advance q s) →
    (piece_at true (content st) (c :: r) = Some (PMore [t] x r')) →
    runs (hd (next (S n)) m (StringState (has_escapes st) seg e (tokens st ++ [y]) x)) (tokens st) (advance q s)
      (pieces true (content st) (c :: r))) as Hmore.
  { intros x seg e y t q r' Hy Hq Hcr Hlq Hh' Hp. assert (good (advance q s)) as Hg' by by apply (good_advance q r').
    assert (rest (advance q s) = r') as Hr' by by apply rest_advance.
    assert (S (length r) = length q + length r') as Hlen by (rewrite <-length_app, <-Hcr; done).
    eapply (runs_more _ _ [y]).
    - apply (IH (StringState (has_escapes st) seg e (tokens st ++ [y]) x)); [done..| |]; rewrite good_mu, Hr' by done; lia.
    - intros vs r2. rewrite pieces_iff, Hp, Hr'. change (values [y]) with [value_of y]. by rewrite Hy. }
  destruct (N.eqb_spec c DQUOTE) as [->|Hq]; [|destruct (N.eqb_spec c NL) as [->|Hl]].
  - match goal with |- runs (push ?a ?b ?t ?st2 ≫= _) _ _ _ => destruct (run_push a b t st2 (advance [DQUOTE] s)) as (y & Hy & Hp) end.
    eapply runs_bind; [exact Hp|]. cbn [tokens has_escapes].
    assert (∀ e, match r with d :: _ => d ≠ DQUOTE | [] => True end →
      runs (hd (next (S n)) m (StringState (has_escapes st) (loc s) e (tokens st ++ [y]) [DQUOTE])) (tokens st)
        (advance [DQUOTE] s) (pieces true (content st) (DQUOTE :: r))) as Hone.
    { intros e Hd. eapply Hmore; [exact Hy|exact Hr|done|simpl; lia|by apply (holds_quotes _ _ _ _ [DQUOTE] r)|].
      cbn [piece_at]. change (DQUOTE =? DQUOTE)%N with true. cbv iota. unfold here_quotes. destruct r as [|d r2]; [done|].
      by rewrite (proj2 (N.eqb_neq _ _) Hd). }
    assert (lookahead (advance [DQUOTE] s) = (advance [DQUOTE] s,
      LOk match r with [] => None | d :: _ => Some (loc (advance [DQUOTE] s), d) end)) as Hla by (unfold lookahead; by rewrite Hr1).
    eapply runs_bind; [exact Hla|]. destruct r as [|d r2]; [by apply Hone|].
    destruct (N.eqb_spec d DQUOTE) as [->|Hd]; [|by apply Hone].
    eapply runs_bind; [exact (run_bump _ _ _ Hr1)|]. rewrite <-(advance_app [DQUOTE] [DQUOTE] s).
    set (s2 := advance ([DQUOTE] ++ [DQUOTE]) s).
    assert (rest s2 = r2) as Hr2 by by apply (rest_advance [DQUOTE; DQUOTE]).
    assert (good s2) as Hg2 by by apply (good_advance [DQUOTE; DQUOTE] r2).
    assert (∀ e, match r2 with d :: _ => d ≠ DQUOTE | [] => True end →
      runs (hd (next (S n)) m (StringState (has_escapes st) (loc s) e (tokens st ++ [y]) [DQUOTE; DQUOTE])) (tokens st)
        s2 (pieces true (content st) (DQUOTE :: DQUOTE :: r2))) as Htwo.
    { intros e Hd. eapply Hmore; [exact Hy|exact Hr|done|simpl; lia|by apply (holds_quotes _ _ _ _ [DQUOTE; DQUOTE] r2)|].
      cbn [piece_at]. change (DQUOTE =? DQUOTE)%N with true. cbv iota. unfold here_quotes. cbn [N.eqb].
      change (DQUOTE =? DQUOTE)%N with true. cbv iota. destruct r2 as [|d r3]; [done|].
      by rewrite (proj2 (N.eqb_neq _ _) Hd). }
    assert (lookahead s2 = (s2, LOk match r2 with [] => None | d :: _ => Some (loc s2, d) end)) as Hla2
      by (unfold lookahead; by rewrite Hr2).
    eapply runs_bind; [exact Hla2|]. destruct r2 as [|d r3]; [by apply Htwo|].
    destruct (N.eqb_spec d DQUOTE) as [->|Hd]; [|by apply Htwo].
    eapply runs_bind; [exact (run_bump _ _ _ Hr2)|].
    match goal with |- runs (push ?a ?b ?t ?st2 ≫= _) _ ?s3 _ => destruct (run_push a b t st2 s3) as (z & Hz & Hpz) end.
    eapply runs_bind; [exact Hpz|]. cbn [tokens]. rewrite <-app_assoc. apply runs_done.
    + by apply (good_advance [DQUOTE] r3).
    + assert (rest (advance [DQUOTE] s2) = r3) as -> by by apply (rest_advance [DQUOTE]).
      intros vs r'. rewrite pieces_iff. cbn [piece_at here_quotes]. change (DQUOTE =? DQUOTE)%N with true. cbv iota.
      change (values ([y] ++ [z])) with [value_of y; value_of z]. by rewrite Hy, Hz.
  - match goal with |- runs (push ?a ?b ?t ?st2 ≫= _) _ _ _ => destruct (run_push a b t st2 (advance [NL] s)) as (y & Hy & Hp) end.
    eapply runs_bind; [exact Hp|]. cbn [tokens has_escapes]. cbv zeta.
    eapply Hmore; [exact Hy|exact Hr|done|simpl; lia| |done].
    intros _. cbn [content segment_start]. apply read_from_absolute; [by destruct Hg1|done].
  - apply (generic_runs n m true (hd (next (S n)) m) Hnext st s c r Hg Hh Hr Hn0 Hm0); [|done..]. intros st' s' Hg' Hh' Hlen.
    apply IH; [done..|rewrite good_mu by done; lia|rewrite good_mu by done; lia].
Qed.
End loops.

Lemma qs_or_hd_runs n s0 r :
  next_spec (S n) → good s0 → rest s0 = DQUOTE :: r → mu s0 < S (S n) →
  runs (qs_or_hd (next (S n)) (S n) (loc s0)) [] (advance [DQUOTE] s0) (unit_ (DQUOTE :: r)).
Proof.
  intros Hnext Hg Hr Hn. set (s1 := advance [DQUOTE] s0).
  assert (good s1) as Hg1 by by apply (good_advance [DQUOTE] r).
  assert (rest s1 = r) as Hr1 by by apply (rest_advance [DQUOTE]).
  rewrite good_mu, Hr in Hn by done. cbn [length] in Hn.
  unfold qs_or_hd. destruct (run_spanned2 (loc s0) (shift DQUOTE (loc s0)) TDQuote s1) as (q1 & Hq1 & Hv1 & _).
  cbv zeta. eapply runs_bind; [exact Hq1|].
  assert (∀ s, lookahead s = (s, LOk match rest s with [] => None | d :: _ => Some (loc s, d) end)) as Hla by done.
  eapply runs_bind; [apply Hla|]. rewrite Hr1. destruct r as [|c r1].
  { apply runs_fail. by intros vs r Hu%unit_iff. }
  destruct (N.eqb_spec c DQUOTE) as [->|Hc].
  2:{ eapply (runs_more _ _ [q1]).
      - apply (qs_runs n Hnext (S n) (StringState false (shift DQUOTE (loc s0)) (shift DQUOTE (loc s0)) [q1] [])); [done| |..].
        + intros _. cbn [segment_start content]. by destruct Hg1.
        + rewrite good_mu, Hr1 by done. lia.
        + rewrite good_mu, Hr1 by done. lia.
      - intros vs r. rewrite unit_iff. cbn [unit_at]. change (DQUOTE =? DQUOTE)%N with true. cbv iota.
        rewrite (proj2 (N.eqb_neq _ _) Hc). cbn [content]. rewrite Hr1. change (values [q1]) with [value_of q1]. by rewrite Hv1. }
  eapply runs_bind; [exact (run_bump _ _ _ Hr1)|]. set (s2 := advance [DQUOTE] s1).
  assert (good s2) as Hg2 by by apply (good_advance [DQUOTE] r1).
  assert (rest s2 = r1) as Hr2 by by apply (rest_advance [DQUOTE]).
  eapply runs_bind; [apply Hla|]. rewrite Hr2.
  assert (match r1 with d :: _ => d ≠ DQUOTE | [] => True end →
    runs (q2 ← spanned2 (loc s1) (shift DQUOTE (loc s1)) TDQuote; mret [q1; q2]) [] s2 (unit_ (DQUOTE :: DQUOTE :: r1))) as Htwo.
  { intros Hd. destruct (run_spanned2 (loc s1) (shift DQUOTE (loc s1)) TDQuote s2) as (q2 & Hq2 & Hv2 & _).
    eapply runs_bind; [exact Hq2|]. apply (runs_done [] [q1; q2]); [done|]. intros vs r. rewrite unit_iff, Hr2. cbn [unit_at].
    change (DQUOTE =? DQUOTE)%N with true. cbv iota. change (values [q1; q2]) with [value_of q1; value_of q2]. rewrite Hv1, Hv2.
    destruct r1 as [|d r2]; [done|]. by rewrite (proj2 (N.eqb_neq _ _) Hd). }
  destruct r1 as [|d r2]; [by apply Htwo|]. destruct (N.eqb_spec d DQUOTE) as [->|Hd]; [|by apply Htwo]. clear Htwo.
  eapply runs_bind; [exact (run_bump _ _ _ Hr2)|]. set (s3 := advance [DQUOTE] s2).
  assert (good s3) as Hg3 by by apply (good_advance [DQUOTE] r2).
  assert (rest s3 = r2) as Hr3 by by apply (rest_advance [DQUOTE]).
  destruct r2 as [|x r3].
  { unfold runs. rewrite (none_error _ UnterminatedHereDoc) by done. by intros vs r Hu%unit_iff. }
  eapply runs_bind; [exact (run_bump _ _ _ Hr3)|]. cbv beta iota.
  assert (∀ vs r, unit_ (DQUOTE :: DQUOTE :: DQUOTE :: x :: r3) vs r ↔
    if (x =? NL)%N then ∃ ts, vs = THereDocStart :: ts ∧ pieces true [] r3 ts r else False) as Hiff.
  { intros vs r. rewrite unit_iff. cbn [unit_at]. change (DQUOTE =? DQUOTE)%N with true. cbv iota. by destruct (x =? NL)%N. }
  destruct (N.eqb_spec x NL) as [->|Hx]; [|apply runs_fail; by intros vs r Hu%Hiff].
  match goal with |- runs (spanned2 ?a ?b ?t ≫= _) _ ?s _ => destruct (run_spanned2 a b t s) as (y & Hy & Hvy & _) end.
  eapply runs_bind; [exact Hy|]. assert (good (advance [NL] s3)) as Hg4 by by apply (good_advance [NL] r3).
  assert (rest (advance [NL] s3) = r3) as Hr4 by by apply (rest_advance [NL]).
  eapply (runs_more _ _ [y]).
  - apply (hd_runs n Hnext (S n) (StringState false _ _ [y] [])); [done| |..].
    + intros _. cbn [segment_start content]. apply read_from_absolute; [by destruct Hg4|done].
    + rewrite good_mu, Hr4 by done. cbn [length] in Hn. lia.
    + rewrite good_mu, Hr4 by done. cbn [length] in Hn. lia.
  - intros vs r. rewrite Hiff, Hr4. cbn [content]. change (values [y]) with [value_of y]. by rewrite Hvy.
Qed.

(** ** Tokens *)
Lemma with_no_stored s : stored_tokens s = [] → with_stored [] s = s.
Proof. intros Hs. unfold with_stored. rewrite <-Hs. by destruct s. Qed.

Lemma next_read_good n s c r :
  good s → rest s = c :: r → next (S n) s = next_from n (loc s) c (advance [c] s).
Proof.
  intros (_ & _ & Hs) Hr. rewrite (next_read n s c r Hs Hr). f_equal. unfold advance. by rewrite Hr, Hs.
Qed.

Lemma next_specified n : next_spec n.
Proof.
  induction n as [|n IH]; intros s Hg Hn; [lia|]. destruct (rest s) as [|c r] eqn:Hr.
  { assert (next (S n) s = (s, LOk None)) as ->; [|done]. apply next_end; [by destruct Hg as (_ & _ & ->)|done]. }
  rewrite (next_read_good n s c r Hg Hr). rewrite good_mu, Hr in Hn by done. cbn [length] in Hn.
  assert (good (advance [c] s)) as Hg1 by by apply (good_advance [c] r).
  assert (rest (advance [c] s) = r) as Hr1 by by apply (rest_advance [c]).
  unfold next_from. destruct (N.eqb_spec c DQUOTE) as [->|Hc].
  - destruct n as [|n]; [lia|].
    assert (mu s < S (S n)) as Hn' by (rewrite good_mu, Hr by done; simpl; lia).
    pose proof (qs_or_hd_runs n s r IH Hg Hr Hn') as Hruns. unfold runs in Hruns. unfold mbind, lex_bind.
    destruct (qs_or_hd _ _ _ _) as [s2 [ts|e]]; [|done]. destruct Hruns as (Hg2 & new & -> & Hu). cbn [app] in *.
    destruct Hg2 as (Hf2 & He2 & Hs2).
    destruct new as [|t new]; [by pose proof (proj2 (Hu _ _) (conj eq_refl eq_refl)) as []%unit_nonempty|].
    rewrite (next_stored n _ t new) by (simpl; by rewrite Hs2). split_and!.
    + split_and!; [|done..]. destruct Hf2 as (p & Hp). by exists p.
    + done.
    + intros Ht. exfalso. pose proof (proj2 (Hu _ _) (conj eq_refl eq_refl)) as Hun.
      apply unit_shape in Hun as [[_ Hsc]|[Hb _]]; [done|]. specialize (Hb 0%N). by rewrite Ht in Hb.
  - pose proof (reads_next_single n (loc s) c (advance [c] s)) as Hreads. rewrite Hr1 in Hreads.
    assert (last (c :: r) = Some NL) as Hlast.
    { destruct Hg as (_ & [Hn0|Hl] & _); [congruence|]. by rewrite Hr in Hl. }
    specialize (Hreads ltac:(apply (read_from_advance [] [c] r); [by destruct Hg|done]) Hlast ltac:(lia) Hc).
    assert (unit_at (c :: r) = (λ x, OTokens [x.1] x.2) <$> scan1 (c :: r)) as Hat.
    { cbn [unit_at]. by rewrite (proj2 (N.eqb_neq _ _) Hc). }
    destruct (scan1 (c :: r)) as [[t r2]|] eqn:Hsc.
    + destruct Hreads as (q & s' & x & Hq & Hrun & Hmv & Hx). rewrite (run_bind _ _ _ _ _ Hrun).
      assert (good s') as Hg' by (eapply good_moved; [exact Hg1|exact Hmv|exact Hq]).
      assert (stored_tokens s' = []) as Hs' by by destruct Hg' as (_ & _ & ->).
      assert (rest s' = r2) as Hr' by (eapply moved_rest; [exact Hmv|exact Hq]).
      cbn [mret lex_ret]. split_and!.
      * by rewrite with_no_stored.
      * intros vs r'. rewrite unit_iff, Hat, Hs', Hr', Hx. done.
      * intros Hb. rewrite Hx in Hb. rewrite Hb in Hsc. apply scan1_brace in Hsc as [-> ->].
        destruct (run_spanned2 (loc s) (shift (ch "}") (loc s)) TRBrace (advance [ch "}"] s)) as (y & Hy & _ & Hpp).
        assert (next_single n (loc s) (ch "}") (advance [ch "}"] s) = spanned2 (loc s) (shift (ch "}") (loc s)) TRBrace (advance [ch "}"] s))
          as Hns by done.
        rewrite Hns, Hy in Hrun. injection Hrun as <- <-. by rewrite Hpp.
    + unfold mbind, lex_bind. destruct (next_single _ _ _ _) as [s' [x|e]] eqn:Hrun; [by destruct (Hreads s' x Hrun)|].
      intros vs r' Hu%unit_iff. by rewrite Hat in Hu.
Qed.

(** ** Sources *)
Lemma lexes_nil ts : lexes [] ts ↔ ts = [].
Proof.
  split; [|intros ->; constructor]. inversion 1 as [|? us r ts' Hu]; subst; [done|]. by apply unit_iff in Hu.
Qed.
Lemma lexes_iff cs us r ts :
  cs ≠ [] → (∀ vs r', unit_ cs vs r' ↔ vs = us ∧ r' = r) → lexes cs ts ↔ ∃ ts', ts = us ++ ts' ∧ lexes r ts'.
Proof.
  intros Hcs Hu. split.
  - inversion 1 as [|? us' r' ts' Hus]; subst; [done|]. apply Hu in Hus as [-> ->]. eauto.
  - intros (ts' & -> & Hts). eapply lexes_unit; [by apply Hu|done].
Qed.

(** The tokenizer has yielded the tokens [ts] and the end of the stream. *)
Definition yields (out : list (lres spanned)) (ts : list token) : Prop :=
  ∃ xs, out = LOk <$> xs ∧ values xs = ts ++ [TEndOfStream].

Lemma yields_cons x out ts : out ≠ [] →
  yields (LOk x :: out) ts ↔ ∃ ts', ts = value_of x :: ts' ∧ yields out ts'.
Proof.
  intros Hx. split.
  - intros ([|y xs] & Heq & Hv); [done|]. injection Heq as <- ->.
    destruct ts as [|t ts]; injection Hv as Ht Hv; [by destruct xs|].
    subst t. exists ts. split; [done|]. by exists xs.
  - intros (ts' & -> & xs & -> & Hv). exists (x :: xs). split; [done|]. change (values (x :: xs)) with (value_of x :: values xs).
    by rewrite Hv.
Qed.
Lemma yields_error e out ts : ¬ yields (LErr e :: out) ts.
Proof. by intros ([|x xs] & Heq & _). Qed.

Lemma collect_nonempty n t : eos t = false → 0 < n → collect n t ≠ [].
Proof.
  intros He Hn. destruct n as [|n]; [lia|]. simpl. unfold tokenizer_next. rewrite He.
  destruct (next _ _) as [s [[x|]|e]]; [done..|]. by destruct e.
Qed.

Lemma collect_yields n t ts :
  eos t = false → good (with_stored [] (lexer_of t)) → mu (lexer_of t) + 2 < n →
  yields (collect n t) ts ↔ ∃ ts', ts = values (stored_tokens (lexer_of t)) ++ ts' ∧ lexes (rest (lexer_of t)) ts'.
Proof.
  revert t ts. induction n as [|n IH]; intros t ts He Hg Hn; [lia|]. cbn [collect]. unfold tokenizer_next. rewrite He.
  set (s := lexer_of t) in *. rewrite fuel_for_mu.
  assert (∀ s' x, good (with_stored [] s') → mu s' < mu s →
    yields (LOk x :: collect n (Tokenizer false (span_of x) s')) ts ↔
    ∃ ts', ts = value_of x :: values (stored_tokens s') ++ ts' ∧ lexes (rest s') ts') as Hstep.
  { intros s' x Hg' Hmu. rewrite yields_cons by (apply collect_nonempty; [done|lia]). split.
    - intros (ts' & -> & Hy). apply IH in Hy as (ts2 & -> & Hl); [|done..|simpl; lia]. eauto.
    - intros (ts' & -> & Hl). eexists. split; [reflexivity|]. apply IH; [done..|simpl; lia|]. eauto. }
  destruct (stored_tokens s) as [|x xs] eqn:Hst.
  2:{ rewrite (next_stored _ _ _ _ Hst). cbv beta iota. rewrite Hstep; [done|done|]. unfold mu. simpl. rewrite Hst. simpl. lia. }
  rewrite (with_no_stored s Hst) in Hg. pose proof (next_specified (S (S (mu s))) s Hg ltac:(lia)) as Hsp.
  pose proof (next_length (S (S (mu s))) s) as Hlen.
  destruct (decide (rest s = [])) as [Hr|Hr].
  { rewrite next_end by done. cbv beta iota. rewrite collect_eos by (done || lia). rewrite Hr. split.
    - intros ([|y [|]] & Heq & Hv); try done. injection Heq as <-. exists []. split; [|by apply lexes_nil].
      destruct ts as [|? ts]; [done|]. injection Hv as _ Hv. by destruct ts.
    - intros (ts' & -> & ->%lexes_nil). by exists [Spanned (pos t) TEndOfStream]. }
  destruct (next _ s) as [s' [[x|]|e]]; [|done|].
  - destruct Hsp as (Hg' & Hu & _). specialize (Hlen s' x Hg ltac:(lia) eq_refl). rewrite Hstep; [|done|unfold mu in *; lia].
    split.
    + intros (ts' & -> & Hl). exists (value_of x :: values (stored_tokens s') ++ ts'). split; [done|].
      rewrite (lexes_iff _ _ _ _ Hr Hu). by exists ts'.
    + intros (ts' & -> & Hl). rewrite (lexes_iff _ _ _ _ Hr Hu) in Hl. destruct Hl as (ts2 & -> & Hl). by exists ts2.
  - split; [by destruct e; intros Hy%yields_error|]. intros (ts' & _ & Hl). exfalso. inversion Hl as [Hn0|? us r ts2 Hun]; subst; [congruence|].
    by apply Hsp in Hun.
Qed.

(** C36: The lexer reads the sequences of tokens that the grammar derives from
    a source, and no others: a source that ends with a line has the tokens
    [ts] exactly if the tokenizer yields them, without an error, and then the
    end of the stream.  What has no derivation is an error.  So in particular
    strings, heredocs and the interpolations nested in them are cut in one
    way only, and spans, slices of the source and the state of a string have
    no influence on what is read. *)
Theorem tokenize_grammar src ts : ends src → yields (tokenize src) ts ↔ lexes src ts.
Proof.
  intros He. unfold tokenize. rewrite collect_yields; [|done| |unfold mu; simpl; lia].
  - simpl. split; [by intros (ts' & -> & Hl)|eauto].
  - split_and!; [|done..]. by exists [].
Qed.
End strings.

(** Two pieces of text around an interpolation with a record in it. *)
Lemma tokenize_grammar_witness :
  let src := DQUOTE :: txt "a#{ {" ++ [DQUOTE; DQUOTE] ++ txt ":1} }\n" ++ [DQUOTE; NL] in
  let ts := [TDQuote; TStringLiteral (txt "a"); TInterpol; TWhitespace (txt " "); TLBrace; TDQuote; TDQuote; TColon;
             TIntLiteral 1; TRBrace; TWhitespace (txt " "); TRBrace; TStringLiteral [10%N]; TDQuote; TNewLine] in
  ends src ∧ lexes src ts.
Proof.
  intros src ts. split; [by right|]. apply (tokenize_grammar src ts); [by right|].
  exists (omap (λ r, match r with LOk x => Some x | LErr _ => None end) (tokenize src)). split; vm_compute; reflexivity.
Defined.

(** ** Where the lexer does not do what it means to *)
Definition read (src : list N) : list (token + lex_error) :=
  (λ r, match r with LOk x => inl (value_of x) | LErr e => inr e end) <$> tokenize src.

Module LexerExample.
(** The number in front of a point that ends the source is cut to its first
    character: nothing is looked at behind the point. *)
Example point_at_end : ∃ f, read (txt "12.") = [inl (TFloatLiteral f (txt "1")); inl TEndOfStream].
Proof. eexists. vm_compute. reflexivity. Qed.

(** A comment that ends with a character of several bytes, and with the
    source, is lost: the end is taken to be one byte behind its start. *)
Example wide_character_at_end : read (txt "# " ++ [233%N]) = [inl (TSingleLineComment ERROR); inl TEndOfStream].
Proof. vm_compute. reflexivity. Qed.

(** The brace of a record pattern is not counted in an interpolation, but the
    one that closes it is. *)
Example record_pattern_in_string :
  read (DQUOTE :: txt "#{%{a}}" ++ [DQUOTE; NL]) =
    inl <$> [TDQuote; TInterpol; TLPatBrace; TIdent (txt "a") false; TRBrace; TStringLiteral (txt "}"); TDQuote; TNewLine;
             TEndOfStream].
Proof. vm_compute. reflexivity. Qed.

(** The sign of an exponent is looked for behind its first digit. *)
Example sign_in_exponent : read (txt "1.5e5-3" ++ [NL]) = [inr InvalidFloatLiteral; inl TNewLine; inl TEndOfStream].
Proof. vm_compute. reflexivity. Qed.

(** A minus starts an identifier, so none may follow a number. *)
Example minus_behind_number :
  read (txt "2-1" ++ [NL]) = [inr (UnexpectedCharacter (ch "-")); inl (TIntLiteral (-1)); inl TNewLine; inl TEndOfStream].
Proof. vm_compute. reflexivity. Qed.

(** A hexadecimal number may have a sign of its own, and the smallest integer
    has no hexadecimal form. *)
Example hexadecimal_sign : read (txt "0x-5" ++ [NL]) = inl <$> [TIntLiteral (-5); TNewLine; TEndOfStream].
Proof. vm_compute. reflexivity. Qed.
Example hexadecimal_minimum :
  read (txt "-0x8000000000000000" ++ [NL]) = [inr InvalidHexLiteral; inl TNewLine; inl TEndOfStream].
Proof. vm_compute. reflexivity. Qed.

(** The lines of an extractor are indented by different white space: the least
    number of bytes is one, and the first line starts with a space of three. *)
Example mixed_indentation :
  read ([ch "|"; 0x3000; ch "a"; ch "\"; NL]%N ++ txt " b|" ++ [NL]) = [inr LexPanic].
Proof. vm_compute. reflexivity. Qed.
End LexerExample.
