(* ===== verification/Preprocess.v ===== *)
(** The preprocessor of the script language, which puts the text of other
    files in the place of [use] (tremor-script/src/lexer.rs), and how modules
    are found (tremor-script/src/path.rs).

    Paths are texts, as on unix.  Errors keep their kind. *)
From Stdlib Require Import Ascii.
From S2P Require Import Prelude Value ValueOrd ScriptOps Text Token Lexer LexerTotal.

(** ** Paths of the standard library *)
Definition SLASH : N := 47.
Definition path := list N.

Definition is_absolute (p : path) : bool := match p with c :: _ => (c =? SLASH)%N | [] => false end.
Definition ends_with (c : N) (p : path) : bool := match last p with Some d => (d =? c)%N | None => false end.

(** [PathBuf::push] *)
Definition path_push (p q : path) : path :=
  if is_absolute q then q
  else if bool_decide (p = []) || ends_with SLASH p then p ++ q else p ++ SLASH :: q.

(** The components: is there a root, is the first one a dot, and the others. *)
Definition is_component (c : list N) : bool := negb (bool_decide (c = [])) && negb (bool_decide (c = txt ".")).
Definition components (p : path) : bool * bool * list (list N) :=
  let cs := split_on SLASH p in
  (is_absolute p, bool_decide (head cs = Some (txt ".")), filter is_component cs).

(** [Path::set_extension]: what follows the stem of the last component gives
    way; nothing happens without a last component that is a name. *)
Fixpoint strip_end (n : nat) (p : path) : path :=
  match n with
  | O => p
  | S n =>
    if ends_with SLASH p then strip_end n (removelast p)
    else if bool_decide (last (split_on SLASH p) = Some (txt ".")) then strip_end n (removelast p)
    else p
  end.
Fixpoint before_last (c : N) (s : list N) : option (list N) :=
  match s with
  | [] => None
  | d :: s => match before_last c s with
              | Some b => Some (d :: b)
              | None => if (d =? c)%N then Some [] else None
              end
  end.
Definition set_extension (ext : list N) (p : path) : path :=
  match last (components p).2 with
  | None => p
  | Some name =>
    if bool_decide (name = txt "..") then p
    else
      let p := strip_end (length p) p in
      match before_last (ch ".") name with
      | Some (c :: s) => take (length p - (length name - length (c :: s))) p ++ txt "." ++ ext
      | _ => p ++ txt "." ++ ext
      end
  end.

(** ** Files

    What the code sees of the file system while it runs.  It holds finitely
    many texts. *)
Class file_system := {
  is_file : path → bool;
  read_to_string : path → io (list N);
  texts : list (list N);
  texts_all p s : read_to_string p = IoOk s → s ∈ texts;
}.

(** ** Compilation units *)
Record include_stack := IncludeStack { elements : list path; cus : list path }.
Definition new_stack : include_stack := IncludeStack [] [].

Definition same_file (p q : path) : bool := bool_decide (components p = components q).
Definition contains (st : include_stack) (p : path) : bool := existsb (same_file p) (elements st).

Inductive pp_error :=
  | PLex (e : lex_error)
  | PEndOfStream
  | PUnrecognized (t : token) (alt : list string)
  | PCyclic (es : list path) (p : path)
  | PModuleNotFound (p : path)
  | PIo (msg : string)
  (** not an error of the code: the model's fuel has run out *)
  | PFuel.

Inductive pres (A : Type) := POk (a : A) | PErr (e : pp_error).
Arguments POk {A} a.
Arguments PErr {A} e.
#[global] Instance pres_ret : MRet pres := λ A, POk.
#[global] Instance pres_bind : MBind pres := λ A B f r, match r with POk a => f a | PErr e => PErr e end.

(** The stack is changed in place, on errors too. *)
Definition stack_m (A : Type) : Type := include_stack → include_stack * pres A.
#[global] Instance stack_ret : MRet stack_m := λ A a st, (st, POk a).
#[global] Instance stack_bind : MBind stack_m := λ A B f m st,
  let '(st, r) := m st in match r with POk a => f a st | PErr e => (st, PErr e) end.
Definition lift {A} (r : pres A) : stack_m A := λ st, (st, r).

(** [IncludeStack::push] *)
Definition push (p : path) : stack_m nat := λ st,
  if contains st p then (st, PErr (PCyclic (elements st) p))
  else (IncludeStack (elements st ++ [p]) (cus st ++ [p]), POk (length (cus st))).
(** [IncludeStack::pop] *)
Definition pop : stack_m unit := λ st, (IncludeStack (removelast (elements st)) (cus st), POk tt).

(** ** The tokens of a [use] *)
Definition items := list (lres spanned).

(** Collecting the tokens panics with the lexer. *)
Definition panics (ts : items) : bool := match last ts with Some (LErr LexPanic) => true | _ => false end.

Fixpoint skip_ws (ts : items) : pres (spanned * items) :=
  match ts with
  | [] => PErr PEndOfStream
  | LErr e :: _ => PErr (PLex e)
  | LOk t :: ts => match value_of t with TWhitespace _ => skip_ws ts | _ => POk (t, ts) end
  end.

Definition urt {A} (t : spanned) (alt : list string) : pres A := PErr (PUnrecognized (value_of t) alt).
Definition as_ident (t : spanned) : pres (list N) :=
  match value_of t with TIdent id _ => POk id | _ => urt t ["`<ident>`"%string] end.
Definition path_ends : list string := ["`as`"; "`::`"; "`;`"]%string.

(** The module path behind its first name, up to [as] or a semicolon; [n] is
    fuel for the names. *)
Fixpoint module_names (n : nat) (t : spanned) (ts : items) (rel : path) (alias : list N) :
    pres (spanned * items * path * list N) :=
  match n with
  | O => PErr PFuel
  | S n =>
    match value_of t with
    | TColonColon =>
      x ← skip_ws ts; let '(t, ts) := x in
      id ← as_ident t;
      x ← skip_ws ts; let '(t, ts) := x in
      match value_of t with
      | TSemi => POk (t, ts, path_push rel id, id)
      | TAs | TColonColon => module_names n t ts (path_push rel id) id
      | _ => urt t path_ends
      end
    | TAs | TSemi => POk (t, ts, rel, alias)
    | _ => urt t path_ends
    end
  end.

(** [use] up to the end of its line: the token that ends it, what follows,
    the path and the name of the module. *)
Definition parse_use (ts : items) : pres (spanned * items * path * list N) :=
  x ← skip_ws ts; let '(t, ts) := x in
  id ← as_ident t;
  x ← skip_ws ts; let '(t, ts) := x in
  x ← module_names (S (length ts)) t ts (path_push [] id) id; let '(t, ts, rel, alias) := x in
  x ← (match value_of t with
       | TAs =>
         x ← skip_ws ts; let '(t, ts) := x in
         alias ← as_ident t;
         (* ';' *)
         x ← skip_ws ts;
         (* Semi *)
         x ← skip_ws x.2;
         POk (x, alias)
       | _ => POk (t, ts, alias)
       end);
  let '(t, ts, alias) := x in
  x ← match value_of t with TSemi => skip_ws ts | _ => POk (t, ts) end;
  let '(t, ts) := x in
  match value_of t with
  | TNewLine => POk (t, ts, rel, alias)
  | _ => urt t ["`<newline>`"%string]
  end.

Section preprocessor.
Context `{!lexer_libs, !file_system}.

(** [ModulePath::resolve] *)
Fixpoint module_resolve (mounts : list path) (rel : path) : option path :=
  match mounts with
  | [] => None
  | mount :: mounts =>
    let target := path_push (path_push [] mount) rel in
    if is_file target then Some target else module_resolve mounts rel
  end.

(** [Preprocessor::resolve] *)
Definition resolve_ext (mounts : list path) (file : path) : option path :=
  match module_resolve mounts file with
  | Some path => if is_file path then Some path else None
  | None => None
  end.
Definition resolve (mounts : list path) (rel : path) : stack_m (nat * path) :=
  let file := set_extension (txt "tremor") rel in
  match resolve_ext mounts file with
  | Some path => cu ← push path; mret (cu, path)
  | None =>
    match resolve_ext mounts (set_extension (txt "trickle") file) with
    | Some path => cu ← push path; mret (cu, path)
    | None => lift (PErr (PModuleNotFound rel))
    end
  end.

Definition open_and_read (p : path) : pres (list N) :=
  match read_to_string p with IoOk s => POk s | IoErr msg => PErr (PIo msg) end.

(** The text of tokens, errors left out. *)
Definition text_of (ts : items) : list N :=
  ts ≫= λ r, match r with LOk t => display (value_of t) | LErr _ => [] end.

Definition line_of (a l c cu : N) (file : path) : list N :=
  txt "#!line " ++ num a ++ txt " " ++ num l ++ txt " " ++ num c ++ txt " " ++ num cu ++ txt " " ++ file ++ [NL].

(** What stands for a module in the text of the file that uses it. *)
Definition module_text (inner_cu : nat) (file : path) (alias y : list N) (end_ : location) (cu : nat) (name : path) : list N :=
  line_of 0 0 0 (N.of_nat inner_cu) file ++
  txt "mod " ++ alias ++ txt " with" ++ [NL] ++
  line_of 0 0 0 (N.of_nat inner_cu) file ++
  trim_chars is_whitespace y ++ [NL] ++
  txt "end;" ++ [NL] ++
  line_of (absolute end_) (line end_ + 1) 0 (N.of_nat cu) name.

Section loop.
Variable preprocess : path → list N → nat → stack_m items.
Variables (mounts : list path) (name : path) (cu : nat).

(** The tokens of the file, one after the other; [n] is fuel, [input] what
    has been written. *)
Fixpoint pp_loop (n : nat) (ts : items) (input : list N) : stack_m (list N) :=
  match n with
  | O => lift (PErr PFuel)
  | S n =>
    match ts with
    | [] => lift (PErr PEndOfStream)
    | LErr e :: _ => lift (PErr (PLex e))
    | LOk t :: ts =>
      match value_of t with
      | TUse =>
        x ← lift (parse_use ts); let '(t, ts, rel, alias) := x in
        x ← resolve mounts rel; let '(inner_cu, file) := x in
        s ← lift (open_and_read file);
        s ← preprocess file (s ++ txt " ") inner_cu;
        let input := input ++ module_text inner_cu file alias (text_of s) (span_end (span_of t)) cu name in
        pop;;
        pp_loop n ts input
      | TEndOfStream => mret input
      | v => pp_loop n ts (input ++ display v)
      end
    end
  end.
End loop.

(** [Preprocessor::preprocess]; [n] bounds how deep files include files. *)
Fixpoint preprocess (n : nat) (mounts : list path) (name : path) (input : list N) (cu : nat) : stack_m items :=
  match n with
  | O => lift (PErr PFuel)
  | S n =>
    let ts := tokenize input in
    input ← pp_loop (preprocess n mounts) mounts name cu (S (length ts)) ts [];
    let ts := tokenize input in
    if panics ts then lift (PErr (PLex LexPanic)) else mret ts
  end.
End preprocessor.
