(* ===== verification/PreprocessSpec.v ===== *)
(** The preprocessor ends, whatever files include each other, and keeps the
    include stack in order. *)
From Stdlib Require Import Ascii.
From S2P Require Import Prelude Value ValueOrd ScriptOps Text Token Lexer LexerTotal Preprocess.

(** ** What a [use] leaves *)
Definition leaves {A} (ts : items) (r : pres A) (rest : A → items) : Prop :=
  match r with POk a => ∃ q, ts = q ++ rest a | PErr e => e ≠ PFuel end.

Lemma leaves_bind {A B} ts (m : pres A) (f : A → pres B) ra rb :
  leaves ts m ra → (∀ a, m = POk a → leaves (ra a) (f a) rb) → leaves ts (m ≫= f) rb.
Proof.
  destruct m as [a|e]; [|done]. intros [q ->] Hf. specialize (Hf a eq_refl). simpl in *.
  destruct (f a) as [b|e]; [|done]. destruct Hf as [q' Hq]. exists (q ++ q'). simpl. by rewrite Hq, app_assoc.
Qed.
Lemma leaves_ok {A} ts (a : A) ra : ra a = ts → leaves ts (POk a) ra.
Proof. intros <-. by exists []. Qed.
Lemma leaves_urt {A} ts t alt (ra : A → items) : leaves ts (urt t alt) ra.
Proof. done. Qed.

Lemma skip_ws_leaves ts : leaves ts (skip_ws ts) snd.
Proof.
  induction ts as [|[t|e] ts IH]; [done| |done]. cbn [skip_ws].
  assert (leaves (LOk t :: ts) (POk (t, ts)) snd) as Ht by by exists [LOk t].
  destruct (value_of t); try exact Ht. destruct (skip_ws ts) as [x|e]; [|done]. destruct IH as [q ->]. by exists (LOk t :: q).
Qed.
Lemma skip_ws_shorter ts x : skip_ws ts = POk x → length x.2 < length ts.
Proof.
  induction ts as [|[t|e] ts IH]; [done| |done]. cbn [skip_ws].
  destruct (value_of t); try (intros [= <-]; simpl; lia). intros Hx%IH. simpl. lia.
Qed.
Lemma as_ident_leaves ts t : leaves ts (as_ident t) (λ _, ts).
Proof. unfold as_ident. destruct (value_of t); try apply leaves_urt. by apply leaves_ok. Qed.

Lemma module_names_leaves n t ts rel alias :
  length ts < n → leaves ts (module_names n t ts rel alias) (λ x, x.1.1.2).
Proof.
  revert t ts rel alias. induction n as [|n IH]; intros t ts rel alias Hn; [lia|]. cbn [module_names].
  destruct (value_of t); try apply leaves_urt; try by apply leaves_ok.
  eapply leaves_bind; [apply skip_ws_leaves|]. intros [t1 ts1] Hw1%skip_ws_shorter.
  eapply leaves_bind; [apply (as_ident_leaves ts1)|]. intros id _.
  eapply leaves_bind; [apply skip_ws_leaves|]. intros [t2 ts2] Hw2%skip_ws_shorter. simpl in Hw1, Hw2.
  destruct (value_of t2); try apply leaves_urt; try (by apply leaves_ok); apply IH; simpl; lia.
Qed.

Lemma parse_use_leaves ts : leaves ts (parse_use ts) (λ x, x.1.1.2).
Proof.
  unfold parse_use. eapply leaves_bind; [apply skip_ws_leaves|]. intros [t1 ts1] _.
  eapply leaves_bind; [apply (as_ident_leaves ts1)|]. intros id _.
  eapply leaves_bind; [apply skip_ws_leaves|]. intros [t2 ts2] _.
  eapply leaves_bind; [apply module_names_leaves; simpl; lia|]. intros [[[t3 ts3] rel] alias] _.
  apply (leaves_bind _ _ _ (λ x : spanned * items * list N, x.1.2)).
  - destruct (value_of t3); try by apply leaves_ok.
    eapply leaves_bind; [apply skip_ws_leaves|]. intros [t4 ts4] _.
    eapply leaves_bind; [apply (as_ident_leaves ts4)|]. intros id2 _.
    eapply leaves_bind; [apply skip_ws_leaves|]. intros x _.
    eapply leaves_bind; [apply skip_ws_leaves|]. intros y _. by apply leaves_ok.
  - intros [[t4 ts4] alias2] _. apply (leaves_bind _ _ _ snd).
    + destruct (value_of t4); try (by apply leaves_ok). apply skip_ws_leaves.
    + intros [t5 ts5] _. destruct (value_of t5); try apply leaves_urt. by apply leaves_ok.
Qed.

(** ** The files that may be included *)

(** The modules that the [use]s among some tokens name. *)
Fixpoint uses (ts : items) : list path :=
  match ts with
  | [] => []
  | r :: ts =>
    match r with
    | LOk t => match value_of t, parse_use ts with TUse, POk (_, _, rel, _) => [rel] | _, _ => [] end
    | LErr _ => []
    end ++ uses ts
  end.

Lemma uses_app a b : uses b ⊆ uses (a ++ b).
Proof. induction a as [|x a IH]; simpl; [done|]. intros p Hp. apply elem_of_app. right. by apply IH. Qed.

Section spec.
Context `{!lexer_libs, !file_system}.

Definition found (mounts : list path) (rel : path) : list path :=
  let file := set_extension (txt "tremor") rel in
  option_list (resolve_ext mounts file) ++ option_list (resolve_ext mounts (set_extension (txt "trickle") file)).

(** Every file a source may include, through whatever files. *)
Definition includable (mounts : list path) (input : list N) : list path :=
  ((input :: ((λ s, s ++ txt " ") <$> texts)) ≫= (uses ∘ tokenize)) ≫= found mounts.

Definition keys (ps : list path) : list (bool * bool * list (list N)) := components <$> ps.

Lemma contains_spec st p : contains st p = true ↔ components p ∈ keys (elements st).
Proof.
  unfold contains, keys. rewrite existsb_exists, list_elem_of_fmap. unfold same_file.
  split; intros (q & H1 & H2); exists q.
  - apply bool_decide_eq_true in H2. split; [done|]. by apply list_elem_of_In.
  - split; [by apply list_elem_of_In|]. by apply bool_decide_eq_true.
Qed.

Lemma resolve_ext_file mounts f p : resolve_ext mounts f = Some p → is_file p = true.
Proof.
  unfold resolve_ext. destruct (module_resolve mounts f) as [q|]; [|done].
  destruct (is_file q) eqn:Hq; [|done]. by intros [= <-].
Qed.

(** [resolve] pushes a file that is not on the stack. *)
Lemma resolve_spec mounts rel st :
  match resolve mounts rel st with
  | (st', POk (cu, file)) => cu = length (cus st) ∧ file ∈ found mounts rel ∧ is_file file = true ∧
      components file ∉ keys (elements st) ∧ st' = IncludeStack (elements st ++ [file]) (cus st ++ [file])
  | (st', PErr e) => st' = st ∧ e ≠ PFuel
  end.
Proof.
  assert (∀ file, file ∈ found mounts rel → is_file file = true → match (cu ← push file; mret (cu, file)) st with
    | (st', POk (cu, file)) => cu = length (cus st) ∧ file ∈ found mounts rel ∧ is_file file = true ∧
        components file ∉ keys (elements st) ∧ st' = IncludeStack (elements st ++ [file]) (cus st ++ [file])
    | (st', PErr e) => st' = st ∧ e ≠ PFuel end) as Hpush.
  { intros file Hin Hf. unfold mbind, stack_bind, push. destruct (contains st file) eqn:Hc; simpl; [done|].
    split_and!; try done. rewrite <-contains_spec. by rewrite Hc. }
  unfold resolve. destruct (resolve_ext mounts _) as [p|] eqn:H1.
  - apply Hpush; [|by eapply resolve_ext_file]. unfold found. rewrite H1. by left.
  - destruct (resolve_ext mounts (set_extension (txt "trickle") _)) as [p|] eqn:H2; [|done].
    apply Hpush; [|by eapply resolve_ext_file]. unfold found. rewrite H1, H2. by left.
Qed.

(** ** The invariant of the include stack

    [Below P st]: nothing on the stack is there twice, and what was added to
    the file [base] it began with comes from [P]. *)
Record below (base : list path) (P : list path) (st : include_stack) : Prop := {
  below_elements : ∃ added, elements st = base ++ added ∧ keys added ⊆ keys P;
  below_distinct : NoDup (keys (elements st));
}.

Lemma below_room base P st : below base P st → length (elements st) ≤ length base + length P.
Proof.
  intros [(added & He & Hin) Hnd]. rewrite He, length_app. unfold keys in Hnd. rewrite He, fmap_app in Hnd.
  apply NoDup_app in Hnd as (_ & _ & Hnd). apply NoDup_submseteq in Hin; [|done].
  apply submseteq_length in Hin. unfold keys in Hin. rewrite !length_fmap in Hin. lia.
Qed.
Lemma below_push base P st p cu :
  below base P st → p ∈ P → components p ∉ keys (elements st) → below base P (IncludeStack (elements st ++ [p]) cu).
Proof.
  intros [(added & He & Hin) Hnd] Hp Hnew. split; simpl.
  - exists (added ++ [p]). split; [by rewrite He, app_assoc|]. unfold keys. rewrite fmap_app. intros k [Hk|Hk]%elem_of_app.
    + by apply Hin.
    + apply list_elem_of_singleton in Hk as ->. by apply list_elem_of_fmap_2.
  - unfold keys. rewrite fmap_app. apply NoDup_app. split_and!; [done| |apply NoDup_singleton].
    intros k Hk ->%list_elem_of_singleton. done.
Qed.

(** What a run of the preprocessor does to the stack. *)
Definition stacked {A} (st st' : include_stack) (r : pres A) : Prop :=
  (∃ new, cus st' = cus st ++ new ∧ Forall (λ p, is_file p = true) new) ∧
  NoDup (keys (elements st')) ∧ (∀ a, r = POk a → elements st' = elements st).

Lemma stacked_refl {A} st (r : pres A) : NoDup (keys (elements st)) → stacked st st r.
Proof. intros Hnd. split_and!; [|done..]. exists []. by rewrite app_nil_r. Qed.

Section loop.
Variables (base P : list path) (mounts : list path).
Variable pp : path → list N → nat → stack_m items.
Variable room : nat.
Hypothesis Hpp : ∀ name input cu st,
  below base P st → length base + length P < length (elements st) + room →
  (∀ rel, rel ∈ uses (tokenize input) → found mounts rel ⊆ P) →
  let '(st', r) := pp name input cu st in r ≠ PErr PFuel ∧ stacked st st' r.
Hypothesis Htexts : ∀ s rel, s ∈ texts → rel ∈ uses (tokenize (s ++ txt " ")) → found mounts rel ⊆ P.

Lemma pp_loop_spec n name cu ts input st :
  below base P st → length base + length P < length (elements st) + S room → length ts < n →
  (∀ rel, rel ∈ uses ts → found mounts rel ⊆ P) →
  let '(st', r) := pp_loop pp mounts name cu n ts input st in r ≠ PErr PFuel ∧ stacked st st' r.
Proof.
  revert ts input st. induction n as [|n IH]; intros ts input st Hb Hroom Hn Huses; [lia|].
  assert (∀ A (r : pres A), stacked st st r) as Hsame by (intros; apply stacked_refl, Hb).
  cbn [pp_loop]. destruct ts as [|[t|e] ts]; [by split|idtac|by split].
  assert (∀ input, let '(st', r) := pp_loop pp mounts name cu n ts input st in r ≠ PErr PFuel ∧ stacked st st' r) as Hgo.
  { intros input'. apply IH; [done..|simpl in Hn; lia|]. intros rel Hrel. apply Huses. simpl. apply elem_of_app. by right. }
  destruct (value_of t) eqn:Ht; try apply Hgo; [by split|]. clear Hgo.
  pose proof (parse_use_leaves ts) as Hl. unfold mbind at 1, stack_bind at 1, lift at 1. cbv beta iota.
  destruct (parse_use ts) as [[[[t' ts'] rel] alias]|e] eqn:Hp; [|split; [by intros [= ->]|apply Hsame]].
  destruct Hl as [q Hq]. simpl in Hq. unfold mbind at 1, stack_bind at 1.
  pose proof (resolve_spec mounts rel st) as Hr. destruct (resolve mounts rel st) as [st1 [[icu file]|e]].
  2:{ destruct Hr as [-> He]. split; [congruence|apply Hsame]. }
  destruct Hr as (-> & Hfound & Hfile & Hnew & ->). set (st1 := IncludeStack _ _).
  assert (file ∈ P) as HP.
  { apply (Huses rel); [|done]. cbn [uses]. rewrite Ht, Hp. by left. }
  assert (below base P st1) as Hb1 by by apply below_push.
  assert (∀ A (r : pres A), (∀ a, r ≠ POk a) → stacked st st1 r) as Herr.
  { intros A r Hne. split_and!; [exists [file]; split; [done|by constructor]|apply Hb1|]. intros a Ha. by apply Hne in Ha. }
  unfold mbind at 1, stack_bind at 1, lift at 1, open_and_read. cbv beta iota.
  destruct (read_to_string file) as [s|msg] eqn:Hread; [|split; [done|by apply Herr]].
  unfold mbind at 1, stack_bind at 1. apply texts_all in Hread.
  assert (length (elements st1) = S (length (elements st))) as Hlen1 by (simpl; rewrite length_app; simpl; lia).
  specialize (Hpp file (s ++ txt " ") (length (cus st)) st1 Hb1 ltac:(lia) (λ rel, Htexts s rel Hread)).
  destruct (pp _ _ _ st1) as [st2 [out|e]].
  2:{ destruct Hpp as (Hne & (new & Hcu & Hfiles) & Hnd & _). split; [congruence|]. split_and!; [|done..].
      exists (file :: new). split; [|by constructor]. rewrite Hcu. simpl. by rewrite <-app_assoc. }
  destruct Hpp as (_ & (new & Hcu & Hfiles) & Hnd & Hel). specialize (Hel out eq_refl).
  unfold mbind at 1, stack_bind at 1, pop. cbv beta iota zeta.
  set (st3 := IncludeStack (removelast (elements st2)) (cus st2)).
  assert (elements st3 = elements st) as Hel3 by (simpl; rewrite Hel; simpl; by rewrite removelast_last).
  assert (below base P st3) as Hb3.
  { destruct Hb as [Hb' Hnd']. split; by rewrite Hel3. }
  match goal with |- let '(_, _) := pp_loop _ _ _ _ _ ?a ?i _ in _ =>
    assert (let '(st', r) := pp_loop pp mounts name cu n ts' i st3 in r ≠ PErr PFuel ∧ stacked st3 st' r) as Hrec end.
  { apply IH; [done|by rewrite Hel3| |].
    - rewrite Hq in Hn. simpl in Hn. rewrite length_app in Hn. lia.
    - intros rel' Hrel'. apply Huses. simpl. apply elem_of_app. right. rewrite Hq. by apply uses_app. }
  destruct (pp_loop _ _ _ _ n ts' _ st3) as [st' r]. destruct Hrec as (Hne & (new' & Hcu' & Hfiles') & Hnd3 & Hel').
  split; [done|]. split_and!; [|done|].
  - exists (file :: new ++ new'). split; [|by constructor; [|apply Forall_app]].
    rewrite Hcu'. simpl. rewrite Hcu. simpl. by rewrite <-!app_assoc.
  - intros a Ha. by rewrite (Hel' a Ha), Hel3.
Qed.
End loop.

Lemma preprocess_spec base P mounts n name input cu st :
  below base P st → length base + length P < length (elements st) + n →
  (∀ rel, rel ∈ uses (tokenize input) → found mounts rel ⊆ P) →
  (∀ s rel, s ∈ texts → rel ∈ uses (tokenize (s ++ txt " ")) → found mounts rel ⊆ P) →
  let '(st', r) := preprocess n mounts name input cu st in r ≠ PErr PFuel ∧ stacked st st' r.
Proof.
  intros Hb Hroom Huses Htexts. revert name input cu st Hb Hroom Huses.
  induction n as [|n IH]; intros name input cu st Hb Hroom Huses.
  { apply below_room in Hb. lia. }
  cbn [preprocess]. unfold mbind, stack_bind.
  pose proof (pp_loop_spec base P mounts (preprocess n mounts) n) as Hloop.
  specialize (Hloop (λ name input cu st Hb Hr Hu, IH name input cu st Hb Hr Hu) Htexts
    (S (length (tokenize input))) name cu (tokenize input) [] st Hb ltac:(lia) ltac:(lia) Huses).
  destruct (pp_loop _ _ _ _ _ _ _ st) as [st' [out|e]]; [|destruct Hloop as (Hne & Hc & Hnd & _)].
  - destruct Hloop as (_ & Hc & Hnd & Hel). cbv zeta. destruct (panics (tokenize out)).
    { split; [done|]. by split_and!. }
    split; [done|]. split_and!; [done..|]. intros _ _. by apply (Hel out).
  - split; [congruence|]. by split_and!.
Qed.

(** C31: The preprocessor ends: however the files of the file system use each
    other, in cycles too, a source is preprocessed with as much fuel as there
    are files it may include, because a file is never on the include stack
    twice.  Every compilation unit it records is a file that was found on the
    module path, those recorded before stay, and when it succeeds the stack is
    as it was. *)
Theorem preprocess_terminates mounts name input n cu st :
  length (includable mounts input) < n → NoDup (keys (elements st)) →
  let '(st', r) := preprocess n mounts name input cu st in r ≠ PErr PFuel ∧ stacked st st' r.
Proof.
  intros Hn Hnd. apply (preprocess_spec (elements st) (includable mounts input)); [|lia|..].
  - split; [|done]. exists []. split; [by rewrite app_nil_r|apply list_subseteq_nil].
  - intros rel Hrel p Hp. unfold includable. apply list_elem_of_bind. exists rel. split; [done|].
    apply list_elem_of_bind. exists input. split; [done|]. by left.
  - intros s rel Hs Hrel p Hp. unfold includable. apply list_elem_of_bind. exists rel. split; [done|].
    apply list_elem_of_bind. exists (s ++ txt " "). split; [done|]. right. apply list_elem_of_fmap. by exists s.
Qed.
End spec.

(** A file system with the files of a list. *)
Fixpoint file_text (fs : list (path * list N)) (p : path) : io (list N) :=
  match fs with
  | [] => IoErr "no such file"
  | (q, s) :: fs => if bool_decide (p = q) then IoOk s else file_text fs p
  end.
Definition files (fs : list (path * list N)) : file_system.
Proof.
  refine {| is_file p := bool_decide (p ∈ fs.*1); read_to_string := file_text fs; texts := fs.*2 |}.
  intros p s. induction fs as [|[q t] fs IH]; simpl; [done|]. case_bool_decide; [intros [= ->]; by left|].
  intros Hs. right. by apply IH.
Defined.

Module PreprocessExample.
Definition two_files : file_system := files
  [(txt "/lib/a.tremor", txt "use b;" ++ NL :: txt "const x = 1;");
   (txt "/lib/b.tremor", txt "use a;" ++ NL :: txt "const y = 2;");
   (txt "/lib/c/d.trickle", txt "  const z = 3;  ")].
#[local] Existing Instance two_files.

Definition run (n : nat) (src : list N) : include_stack * pres (list N) :=
  let '(st, r) := preprocess n [txt "/lib"] (txt "main") src 0 (IncludeStack [txt "main"] [txt "main"]) in
  (st, match r with POk ts => POk (text_of ts) | PErr e => PErr e end).

(** The text of a module stands between directives that give its lines and
    those behind it their numbers.  A directive that is read and printed again
    has moved up a line, so that those of a module that is itself included by
    a module are off by one. *)
Example module_included :
  run 3 (txt "use c::d as m;" ++ NL :: txt "m::z" ++ [NL]) =
    (IncludeStack [txt "main"] [txt "main"; txt "/lib/c/d.trickle"],
     POk (txt "#!line 0 0 0 1 /lib/c/d.trickle" ++ NL :: txt "mod m with" ++ NL ::
          txt "#!line 0 0 0 1 /lib/c/d.trickle" ++ NL :: txt "const z = 3;" ++ NL :: txt "end;" ++ NL ::
          txt "#!line 14 1 0 0 main" ++ NL :: txt "m::z" ++ [NL])).
Proof. vm_compute. reflexivity. Qed.

Example cycle_found :
  (run 9 (txt "use a;" ++ [NL])).2 =
    PErr (PCyclic [txt "main"; txt "/lib/a.tremor"; txt "/lib/b.tremor"] (txt "/lib/a.tremor")).
Proof. vm_compute. reflexivity. Qed.

(** Behind an alias, any token is taken for the semicolon. *)
Example alias_without_semicolon :
  (run 3 (txt "use c::d as m +" ++ [NL])).2 =
    POk (txt "#!line 0 0 0 1 /lib/c/d.trickle" ++ NL :: txt "mod m with" ++ NL ::
         txt "#!line 0 0 0 1 /lib/c/d.trickle" ++ NL :: txt "const z = 3;" ++ NL :: txt "end;" ++ NL ::
         txt "#!line 15 1 0 0 main" ++ [NL]).
Proof. vm_compute. reflexivity. Qed.
End PreprocessExample.


Lemma preprocess_terminates_witness :
  let fs := PreprocessExample.two_files in
  let st := IncludeStack [txt "main"] [txt "main"] in
  let src := txt "use a;" ++ [NL] in
  length (includable [txt "/lib"] src) < 5 ∧ NoDup (keys (elements st)) ∧
  (preprocess 5 [txt "/lib"] (txt "main") src 0 st).2 ≠ PErr PFuel.
Proof.
  intros fs st src. assert (length (includable [txt "/lib"] src) < 5) as Hn by (apply Nat.ltb_lt; vm_compute; reflexivity).
  assert (NoDup (keys (elements st))) as Hnd by apply NoDup_singleton. split_and!; [done..|].
  pose proof (preprocess_terminates [txt "/lib"] (txt "main") src 5 0 st Hn Hnd) as Ht.
  destruct (preprocess _ _ _ _ _ _) as [st' r]. apply Ht.
Defined.
