(* ===== verification/RawAst.v ===== *)
(** The raw syntax trees the parser makes of a script
    (tremor-script/src/ast/raw.rs).

    Source positions and documentation comments are left out; [Box] and the
    structures that only group the fields of one variant disappear.  As in
    [Ast] the two copies of clauses and comprehension cases, for expressions
    and for immutable ones, are instances of the same definitions. *)
From S2P Require Import Prelude Value ScriptOps Ast.

Record predicate_clause_raw (P I E : Type) := PredicateClauseRaw {
  raw_pattern : P;
  raw_guard : option I;
  raw_exprs : list E;
}.
Arguments PredicateClauseRaw {P I E}.
Arguments raw_pattern {P I E}.
Arguments raw_guard {P I E}.
Arguments raw_exprs {P I E}.

Record comprehension_case_raw (I E : Type) := ComprehensionCaseRaw {
  key_name : string;
  value_name : string;
  raw_case_guard : option I;
  raw_case_exprs : list E;
}.
Arguments ComprehensionCaseRaw {I E}.
Arguments key_name {I E}.
Arguments value_name {I E}.
Arguments raw_case_guard {I E}.
Arguments raw_case_exprs {I E}.

(** The name of an extractor and its source. *)
Record test_expr_raw := TestExprRaw { test_id : string; test_source : string }.

(** ** Immutable expressions

    The parser collects the elements of a string in reverse, and [up] reverses
    them before anything else: here they are in the order of the source. *)
Inductive imut_raw : Type :=
  | RRecord (fields : list field_raw)
  | RList (exprs : list imut_raw)
  | RPatch (target : imut_raw) (operations : list patch_operation_raw)
  | RMerge (target expr : imut_raw)
  | RMatch (target : imut_raw) (patterns : list (predicate_clause_raw pattern_raw imut_raw imut_raw))
  | RComprehension (target : imut_raw) (cases : list (comprehension_case_raw imut_raw imut_raw))
  | RPath (p : path_raw)
  | RBinary (kind : binop) (lhs rhs : imut_raw)
  | RUnary (kind : unop) (expr : imut_raw)
  | RLiteral (v : value)
  | RInvoke (module : list string) (func : string) (args : list imut_raw)
  | RPresent (p : path_raw)
  | RString (elements : list str_lit_element_raw)
  | RRecur (exprs : list imut_raw)
  | RBytes (parts : list bytes_part_raw)

with field_raw : Type := FieldRaw (name : list str_lit_element_raw) (val : imut_raw)

with str_lit_element_raw : Type :=
  | RLit (s : string)
  | RExpr (e : imut_raw)

with bytes_part_raw : Type :=
  | BytesPartRaw (data : imut_raw) (data_type : string) (bits : option Z)

with patch_operation_raw : Type :=
  | RInsert (ident : list str_lit_element_raw) (expr : imut_raw)
  | RUpsert (ident : list str_lit_element_raw) (expr : imut_raw)
  | RUpdate (ident : list str_lit_element_raw) (expr : imut_raw)
  | RErase (ident : list str_lit_element_raw)
  | RCopy (from to : list str_lit_element_raw)
  | RMove (from to : list str_lit_element_raw)
  | RMergeField (ident : list str_lit_element_raw) (expr : imut_raw)
  | RMergeRecord (expr : imut_raw)
  | RDefault (ident : list str_lit_element_raw) (expr : imut_raw)
  | RDefaultRecord (expr : imut_raw)

with path_raw : Type :=
  | RLocalPath (segments : list segment_raw)
  | REventPath (segments : list segment_raw)
  | RStatePath (segments : list segment_raw)
  | RMetaPath (segments : list segment_raw)
  | RConstPath (module : list string) (segments : list segment_raw)
  | RArgsPath (segments : list segment_raw)
  | RWindowPath (segments : list segment_raw)
  | RGroupPath (segments : list segment_raw)
  | RExprPath (expr : imut_raw) (segments : list segment_raw)

with segment_raw : Type :=
  | RElement (expr : imut_raw)
  | RRange (start end_ : imut_raw)

with pattern_raw : Type :=
  | RPatRecord (fields : list predicate_pattern_raw)
  | RPatArray (exprs : list array_predicate_pattern_raw)
  | RPatTuple (exprs : list array_predicate_pattern_raw) (open : bool)
  | RPatExpr (expr : imut_raw)
  | RPatAssign (id : string) (p : pattern_raw)
  | RPatExtract (test : test_expr_raw)
  | RPatDoNotCare
  | RPatDefault

with predicate_pattern_raw : Type :=
  | RTildeEq (lhs : string) (test : test_expr_raw)
  | RBinEq (lhs : string) (rhs : imut_raw) (kind : binop)
  | RRecordPatternEq (lhs : string) (fields : list predicate_pattern_raw)
  | RArrayPatternEq (lhs : string) (exprs : list array_predicate_pattern_raw)
  | RTuplePatternEq (lhs : string) (exprs : list array_predicate_pattern_raw) (open : bool)
  | RFieldPresent (lhs : string)
  | RFieldAbsent (lhs : string)

with array_predicate_pattern_raw : Type :=
  | RAExpr (e : imut_raw)
  | RATilde (test : test_expr_raw)
  | RARecord (fields : list predicate_pattern_raw)
  | RAIgnore.

(** ** Expressions, and what is defined next to them *)
Inductive expr_raw : Type :=
  | XConst (name : string) (expr : imut_raw)
  | XModule (name : string) (exprs : list expr_raw)
  | XMatch (target : imut_raw) (patterns : list (predicate_clause_raw pattern_raw imut_raw expr_raw))
  | XAssign (p : path_raw) (e : expr_raw)
  | XComprehension (target : imut_raw) (cases : list (comprehension_case_raw imut_raw expr_raw))
  | XDrop
  | XEmit (e : imut_raw) (port : option imut_raw)
  | XFnDecl (f : any_fn_raw)
  | XImut (e : imut_raw)

with any_fn_raw : Type :=
  | FnMatch (name : string) (args : list string)
      (cases : list (predicate_clause_raw pattern_raw imut_raw expr_raw)) (open inline : bool)
  | FnNormal (name : string) (args : list string) (body : list expr_raw) (open inline : bool).

(** [SegmentRaw::from_id], [from_str] and [from_usize] *)
Definition from_id (id : string) : segment_raw := RElement (RLiteral (VString id)).
Definition from_usize (i : N) : segment_raw := RElement (RLiteral (from_u64 i)).

Definition FN_RES_NAME : string := "__fn_assign_this_is_ugly".

(** ** Functions over cases

    A function that is written as cases matches the list of its arguments; a
    case first assigns the elements of its pattern to the arguments. *)
Definition local_of (a : string) : path_raw := RLocalPath [from_id a].

Fixpoint case_assigns (i : N) (args : list string) : list expr_raw :=
  match args with
  | [] => []
  | a :: args =>
    XAssign (local_of a) (XImut (RPath (RLocalPath [from_id FN_RES_NAME; from_usize i])))
      :: case_assigns (i + 1) args
  end.

Definition is_default_raw (p : pattern_raw) : bool :=
  match p with RPatDefault => true | _ => false end.

Definition case_clause (args : list string) (c : predicate_clause_raw pattern_raw imut_raw expr_raw) :
    predicate_clause_raw pattern_raw imut_raw expr_raw :=
  match c with
  | PredicateClauseRaw p g es =>
    if is_default_raw p then c else PredicateClauseRaw p g (case_assigns 0 args ++ es)
  end.

Definition match_body (args : list string)
    (cases : list (predicate_clause_raw pattern_raw imut_raw expr_raw)) : expr_raw :=
  XMatch (RList ((λ a, RPath (local_of a)) <$> args)) (case_clause args <$> cases).
