(* ===== verification/ScriptUp.v ===== *)
(** From the raw syntax of a script to the tree that is run: the [up]
    functions of tremor-script/src/ast/raw.rs and ast/upable.rs, and the
    state they share, the [Helper] of tremor-script/src/ast.rs.

Local variables, constants and functions get their numbers here,
expressions are folded, calls inlined and matches built.  Warnings,
documentation, source positions and the tables of a query are left out. *)
From stdpp Require Import pretty.
From S2P Require Import Prelude Value ValueOrd ScriptOps Bits Ast Interp ScriptMatch ScriptFold RawAst.

(** The registry of intrinsic functions and the one of aggregates, each by
    module and name, the numbers of arguments an aggregate takes, and how an
    extractor is built. *)
Class registries `{!script_lib} := {
  find_fn : string → string → option intrinsic_fn;
  find_aggr : string → string → option aggr_fn;
  aggr_valid_arity : aggr_fn → N → bool;
  new_extractor : string → string → option extractor;
}.

Inductive up_error :=
  | UpEval (e : serror)
  | UpNotConstant
  | UpDataType (t : string)
  | UpBits (bits : Z)
  | UpInvalidRecur
  | UpWrongArgc (expected got : N)
  | UpInvalidEmit
  | UpInvalidDrop
  | UpMissingEffector
  | UpUndefinedConst (name : list string)
  | UpOops (code : N)
  | UpTypeConflict (t : value_type)
  | UpMissingFunction (module : list string) (func : string)
  | UpAggrInAggr
  | UpBadArity (module func : string)
  | UpInvalidExtractor (id test : string)
  | UpDoubleConst (name : string)
  | UpDoubleFunction (name : string)
  | UpUnreachable.

Inductive ures (A : Type) := UOk (a : A) | UErr (e : up_error).
Arguments UOk {A} a.
Arguments UErr {A} e.

Section up.
Context `{!script_lib, !value_trait, !hash_order string, !analysis, !registries}.
Variable limit : N.

(** ** The helper *)
Record helper := Helper {
  can_emit : bool;
  is_in_aggr : bool;
  aggregates : list (aggr_fn * list imut_expr);
  shadowed_vars : list string;
  func_vec : list custom_fn;
  local_ids : gmap string N;
  functions : gmap (list string) N;
  const_names : gmap (list string) N;
  const_values : list value;
  module : list string;
  possible_leaf : bool;
  fn_argc : N;
  is_open : bool;
}.

Definition set_can_emit (x : bool) (h : helper) : helper :=
  Helper x (is_in_aggr h) (aggregates h) (shadowed_vars h) (func_vec h) (local_ids h) (functions h)
    (const_names h) (const_values h) (module h) (possible_leaf h) (fn_argc h) (is_open h).
Definition set_in_aggr (x : bool) (h : helper) : helper :=
  Helper (can_emit h) x (aggregates h) (shadowed_vars h) (func_vec h) (local_ids h) (functions h)
    (const_names h) (const_values h) (module h) (possible_leaf h) (fn_argc h) (is_open h).
Definition push_aggregate (x : aggr_fn * list imut_expr) (h : helper) : helper :=
  Helper (can_emit h) (is_in_aggr h) (aggregates h ++ [x]) (shadowed_vars h) (func_vec h) (local_ids h)
    (functions h) (const_names h) (const_values h) (module h) (possible_leaf h) (fn_argc h) (is_open h).
Definition set_shadowed (x : list string) (h : helper) : helper :=
  Helper (can_emit h) (is_in_aggr h) (aggregates h) x (func_vec h) (local_ids h) (functions h)
    (const_names h) (const_values h) (module h) (possible_leaf h) (fn_argc h) (is_open h).
Definition insert_local (id : string) (i : N) (h : helper) : helper :=
  Helper (can_emit h) (is_in_aggr h) (aggregates h) (shadowed_vars h) (func_vec h) (<[id := i]> (local_ids h))
    (functions h) (const_names h) (const_values h) (module h) (possible_leaf h) (fn_argc h) (is_open h).
Definition set_functions (fv : list custom_fn) (fs : gmap (list string) N) (h : helper) : helper :=
  Helper (can_emit h) (is_in_aggr h) (aggregates h) (shadowed_vars h) fv (local_ids h) fs
    (const_names h) (const_values h) (module h) (possible_leaf h) (fn_argc h) (is_open h).
Definition set_consts (ns : gmap (list string) N) (vs : list value) (h : helper) : helper :=
  Helper (can_emit h) (is_in_aggr h) (aggregates h) (shadowed_vars h) (func_vec h) (local_ids h)
    (functions h) ns vs (module h) (possible_leaf h) (fn_argc h) (is_open h).
Definition set_module (x : list string) (h : helper) : helper :=
  Helper (can_emit h) (is_in_aggr h) (aggregates h) (shadowed_vars h) (func_vec h) (local_ids h)
    (functions h) (const_names h) (const_values h) x (possible_leaf h) (fn_argc h) (is_open h).
Definition set_leaf (x : bool) (h : helper) : helper :=
  Helper (can_emit h) (is_in_aggr h) (aggregates h) (shadowed_vars h) (func_vec h) (local_ids h)
    (functions h) (const_names h) (const_values h) (module h) x (fn_argc h) (is_open h).
Definition enter_fn (argc : N) (open : bool) (h : helper) : helper :=
  Helper false (is_in_aggr h) (aggregates h) (shadowed_vars h) (func_vec h) (local_ids h)
    (functions h) (const_names h) (const_values h) (module h) (possible_leaf h) argc open.
(** [Helper::swap] *)
Definition swap (aggrs : list (aggr_fn * list imut_expr)) (ls : gmap string N) (h : helper) : helper :=
  Helper (can_emit h) (is_in_aggr h) aggrs (shadowed_vars h) (func_vec h) ls
    (functions h) (const_names h) (const_values h) (module h) (possible_leaf h) (fn_argc h) (is_open h).

(** ** The monad: the helper and the first error *)
Definition up_m (A : Type) : Type := helper → helper * ures A.
#[global] Instance up_ret : MRet up_m := λ A a h, (h, UOk a).
#[global] Instance up_bind : MBind up_m := λ A B f m h,
  let '(h, r) := m h in match r with UOk a => f a h | UErr e => (h, UErr e) end.
Definition up_fail {A} (e : up_error) : up_m A := λ h, (h, UErr e).
Definition gets {A} (f : helper → A) : up_m A := λ h, (h, UOk (f h)).
Definition modify (f : helper → helper) : up_m () := λ h, (f h, UOk ()).
Definition some_or_fail {A} (o : option A) (e : up_error) : up_m A :=
  match o with Some a => mret a | None => up_fail e end.

(** *** Variables

    Variables that patterns and comprehensions bind get names of their own,
    by how many of them there are. *)
Definition shadow_name (i : nat) : string := " __SHADOW " +:+ pretty i +:+ "__ ".

Fixpoint find_shadow (id : string) (i : nat) (vars : list string) (r : option string) : option string :=
  match vars with
  | [] => r
  | s :: vars => find_shadow id (S i) vars (if bool_decide (s = id) then Some (shadow_name i) else r)
  end.

Definition var_id (id : string) : up_m N := λ h,
  let id := default id (find_shadow id 0 (shadowed_vars h) None) in
  match local_ids h !! id with
  | Some i => (h, UOk i)
  | None => (insert_local id (N.of_nat (size (local_ids h))) h, UOk (N.of_nat (size (local_ids h))))
  end.

Definition reserve_shadow : up_m N :=
  n ← gets (λ h, length (shadowed_vars h)); var_id (shadow_name n).
Definition reserve_2_shadow : up_m (N * N) :=
  l ← gets (λ h, length (shadowed_vars h));
  i ← var_id (shadow_name l);
  j ← var_id (shadow_name (S l));
  mret (i, j).
Definition register_shadow_var (id : string) : up_m N :=
  r ← reserve_shadow;
  modify (λ h, set_shadowed (shadowed_vars h ++ [id]) h);;
  mret r.
Definition end_shadow_var : up_m () := modify (λ h, set_shadowed (removelast (shadowed_vars h)) h).

(** [Consts::insert]: the name is taken even if it was there. *)
Definition insert_const (name : string) (path : list string) (v : value) : up_m N := λ h,
  let idx := N.of_nat (length (const_values h)) in
  let names := <[path := idx]> (const_names h) in
  match const_names h !! path with
  | None => (set_consts names (const_values h ++ [v]) h, UOk idx)
  | Some _ => (set_consts names (const_values h) h, UErr (UpDoubleConst name))
  end.

Definition register_fun (name : string) (f : custom_fn) : up_m () := λ h,
  let i := N.of_nat (length (func_vec h)) in
  let mf := module h ++ [name] in
  let fs := <[mf := i]> (functions h) in
  match functions h !! mf with
  | None => (set_functions (func_vec h ++ [f]) fs h, UOk ())
  | Some _ => (set_functions (func_vec h) fs h, UErr (UpDoubleFunction name))
  end.

Definition reduce (e : imut_expr) : up_m imut_expr := λ h,
  (h, match try_reduce (const_values h) limit e with SOk e => UOk e | SErr x => UErr (UpEval x) end).
Definition into_value (e : imut_expr) : up_m value := some_or_fail (try_into_value e) UpNotConstant.

(** *** Sequences

    [Vec::up]: only the last element may be a leaf. *)
Section seq.
Context {A B : Type} (up : A → up_m B).

Fixpoint up_each (l : list A) : up_m (list B) :=
  match l with
  | [] => mret []
  | x :: l => y ← up x; ys ← up_each l; mret (y :: ys)
  end.

Fixpoint up_leaf (leaf : bool) (l : list A) : up_m (list B) :=
  match l with
  | [] => mret []
  | [x] => modify (set_leaf leaf);; y ← up x; mret [y]
  | x :: l => y ← up x; ys ← up_leaf leaf l; mret (y :: ys)
  end.

Definition up_vec (l : list A) : up_m (list B) :=
  match l with
  | [] => mret []
  | l => leaf ← gets possible_leaf; modify (set_leaf false);; up_leaf leaf l
  end.

Definition up_opt (o : option A) : up_m (option B) :=
  match o with Some x => y ← up x; mret (Some y) | None => mret None end.
End seq.

(** ** Moving the last use of a shadow variable

    [ClauseGroup::replace_last_shadow_use], on the last expressions. *)
Section replace.
Context {P I C E : Type} (f : E → E).

Definition replace_clause (c : predicate_clause P I E) : predicate_clause P I E :=
  match c with PredicateClause p g es e => PredicateClause p g es (f e) end.

Fixpoint replace_group (cg : clause_group P I C E) : clause_group P I C E :=
  match cg with
  | Simple c ps => Simple c (map replace_clause ps)
  | SearchTree c tree rest =>
    SearchTree c (map (λ kv : value * (list E * E), (kv.1, (kv.2.1, f kv.2.2))) tree) (map replace_clause rest)
  | Combined c gs => Combined c (map replace_group gs)
  | Single c p => Single c (replace_clause p)
  end.
End replace.

Fixpoint replace_last_imut (idx : N) (e : imut_expr) : imut_expr :=
  match e with
  | IMatch t cgs d => IMatch t (map (replace_group (replace_last_imut idx)) cgs) d
  | e => e
  end.

Fixpoint replace_last (idx : N) (e : expr) : expr :=
  match e with
  | EAssign p (EImut (ILocal i c)) => if (i =? idx)%N then EAssignMoveLocal p i else e
  | EMatch t cgs d => EMatch t (map (replace_group (replace_last idx)) cgs) d
  | e => e
  end.

(** On the last of the expressions of a clause. *)
Fixpoint on_last {A} (f : A → A) (l : list A) : list A :=
  match l with [] => [] | [x] => [f x] | x :: l => x :: on_last f l end.

Definition split_last {A} (l : list A) : option (list A * A) :=
  match last l with Some e => Some (removelast l, e) | None => None end.

(** ** Immutable expressions *)
Section parts.
Variable up_imut : imut_raw → up_m imut_expr.

(** *** Strings: literals next to each other are joined. *)
Definition to_strl_elem (v : value) : string :=
  match v with VString s => s | v => encode v end.

Definition push_element (es : list str_lit_element) (e : str_lit_element) : list str_lit_element :=
  match e, split_last es with
  | SLit s, Some (es', SLit l) => es' ++ [SLit (l +:+ s)]
  | e, _ => es ++ [e]
  end.

Fixpoint up_elements (es : list str_lit_element_raw) (new : list str_lit_element) :
    up_m (list str_lit_element) :=
  match es with
  | [] => mret new
  | RLit s :: es => up_elements es (push_element new (SLit s))
  | RExpr e :: es =>
    i ← up_imut e;
    i ← reduce i;
    up_elements es (push_element new match i with ILiteral v => SLit (to_strl_elem v) | i => SExpr i end)
  end.

Definition up_string (es : list str_lit_element_raw) : up_m string_lit :=
  es ← up_elements es []; mret (StringLit es).

Definition up_field (f : field_raw) : up_m field :=
  match f with
  | FieldRaw n v => n ← up_string n; v ← up_imut v; mret (Field n v)
  end.

(** *** Binary literals *)
Definition data_type_of (t : string) : option (bytes_data_type * endian) :=
  if bool_decide (t = "binary") then Some (Binary, Big)
  else if bool_decide (t ∈ ["" : string; "integer"; "big"; "unsigned"; "unsigned-integer"; "big-integer";
                           "big-unsigned-integer"]) then Some (UnsignedInteger, Big)
  else if bool_decide (t ∈ ["signed-integer"; "big-signed-integer"]) then Some (SignedInteger, Big)
  else if bool_decide (t ∈ ["little"; "little-integer"; "little-unsigned-integer"])
  then Some (UnsignedInteger, Little)
  else if bool_decide (t = "little-signed-integer") then Some (SignedInteger, Little)
  else None.

Definition up_part (p : bytes_part_raw) : up_m bytes_part :=
  match p with
  | BytesPartRaw data t bits =>
    te ← some_or_fail (data_type_of t) (UpDataType t);
    bits ← match bits with
           | Some b => if ((b <=? 0) || (64 <? b))%Z then up_fail (UpBits b) else mret (Z.to_N b)
           | None => mret match te.1 with Binary => 0%N | _ => 8%N end
           end;
    data ← up_imut data;
    mret (BytesPart data te.1 te.2 bits)
  end.

(** *** Patches *)
Definition up_operation (op : patch_operation_raw) : up_m patch_operation :=
  match op with
  | RInsert i e => i ← up_string i; e ← up_imut e; mret (PInsert i e)
  | RUpsert i e => i ← up_string i; e ← up_imut e; mret (PUpsert i e)
  | RUpdate i e => i ← up_string i; e ← up_imut e; mret (PUpdate i e)
  | RErase i => i ← up_string i; mret (PErase i)
  | RCopy f t => f ← up_string f; t ← up_string t; mret (PCopy f t)
  | RMove f t => f ← up_string f; t ← up_string t; mret (PMove f t)
  | RMergeField i e => i ← up_string i; e ← up_imut e; mret (PMerge i e)
  | RMergeRecord e => e ← up_imut e; mret (PMergeRecord e)
  | RDefault i e => i ← up_string i; e ← up_imut e; mret (PDefault i e)
  | RDefaultRecord e => e ← up_imut e; mret (PDefaultRecord e)
  end.

(** *** Paths *)
Definition up_segment (s : segment_raw) : up_m segment :=
  match s with
  | RElement e =>
    e ← up_imut e;
    match e with
    | ILiteral (VString id) => mret (SegId id)
    | ILiteral v => match as_usize v with Some i => mret (SegIdx i) | None => up_fail (UpTypeConflict (type_of v)) end
    | e => mret (SegElement e)
    end
  | RRange a b => a ← up_imut a; b ← up_imut b; mret (SegRange a b)
  end.

Definition up_path (p : path_raw) : up_m path :=
  match p with
  | RLocalPath ss =>
    ss ← up_vec up_segment ss;
    match ss with
    | SegId id :: ss =>
      const ← gets (λ h, const_names h !! (module h ++ [id]));
      match const with
      | Some idx => mret (ConstPath idx true ss)
      | None => idx ← var_id id; mret (LocalPath idx false ss)
      end
    | _ => up_fail (UpOops 0xdead0008)
    end
  | RConstPath m ss =>
    ss ← up_vec up_segment ss;
    match ss with
    | SegId id :: ss =>
      name ← gets (λ h, module h ++ m ++ [id]);
      const ← gets (λ h, const_names h !! name);
      match const with
      | Some idx => mret (ConstPath idx true ss)
      | None => up_fail (UpUndefinedConst name)
      end
    | _ => up_fail (UpOops 0xdead0007)
    end
  | RExprPath e ss =>
    var ← reserve_shadow;
    ss ← up_vec up_segment ss;
    e ← up_imut e;
    end_shadow_var;;
    mret (ExprPath e var ss)
  | REventPath ss => ss ← up_vec up_segment ss; mret (EventPath ss)
  | RStatePath ss => ss ← up_vec up_segment ss; mret (StatePath ss)
  | RMetaPath ss => ss ← up_vec up_segment ss; mret (MetaPath ss)
  | RArgsPath ss => ss ← up_vec up_segment ss; mret (ArgsPath ss)
  | RWindowPath ss => ss ← up_vec up_segment ss; mret (WindowPath ss)
  | RGroupPath ss => ss ← up_vec up_segment ss; mret (GroupPath ss)
  end.

(** A local variable without segments is not a path. *)
Definition local_or_path (p : path) : imut_expr :=
  match p with LocalPath idx c [] => ILocal idx c | p => IPath p end.

(** *** Patterns *)
Definition up_test (t : test_expr_raw) : up_m extractor :=
  match t with TestExprRaw id src => some_or_fail (new_extractor id src) (UpInvalidExtractor id src) end.

Section fields.
Variable up_field_pattern : predicate_pattern_raw → up_m predicate_pattern.

Definition up_record (fs : list predicate_pattern_raw) : up_m record_pattern :=
  fs ← up_vec up_field_pattern fs; mret (RecordPattern fs).

Definition up_array_element (p : array_predicate_pattern_raw) : up_m array_predicate_pattern :=
  match p with
  | RAExpr e => e ← up_imut e; mret (AExpr e)
  | RATilde t => t ← up_test t; mret (ATilde t)
  | RARecord fs => rp ← up_record fs; mret (ARecord rp)
  | RAIgnore => mret AIgnore
  end.
End fields.

Definition up_predicate_step (up_field_pattern : predicate_pattern_raw → up_m predicate_pattern)
    (p : predicate_pattern_raw) : up_m predicate_pattern :=
  match p with
  | RTildeEq k t => t ← up_test t; mret (TildeEq k t)
  | RBinEq k e kind => e ← up_imut e; mret (BinEq k e kind)
  | RRecordPatternEq k fs => rp ← up_record up_field_pattern fs; mret (RecordPatternEq k rp)
  | RArrayPatternEq k es => es ← up_vec (up_array_element up_field_pattern) es; mret (ArrayPatternEq k es)
  | RTuplePatternEq k es open =>
    es ← up_vec (up_array_element up_field_pattern) es; mret (TuplePatternEq k es open)
  | RFieldPresent k => mret (FieldPresent k)
  | RFieldAbsent k => mret (FieldAbsent k)
  end.

Variable up_predicate : predicate_pattern_raw → up_m predicate_pattern.

Fixpoint up_pattern (p : pattern_raw) : up_m pattern :=
  match p with
  | RPatRecord fs => rp ← up_record up_predicate fs; mret (PatRecord rp)
  | RPatArray es => es ← up_vec (up_array_element up_predicate) es; mret (PatArray es)
  | RPatTuple es open => es ← up_vec (up_array_element up_predicate) es; mret (PatTuple es open)
  | RPatExpr e => e ← up_imut e; mret (PatExpr e)
  | RPatAssign id p => idx ← register_shadow_var id; p ← up_pattern p; mret (PatAssign idx p)
  | RPatExtract t => t ← up_test t; mret (PatExtract t)
  | RPatDoNotCare => mret PatDoNotCare
  | RPatDefault => mret PatDefault
  end.

(** *** Clauses, matches and comprehensions, of expressions of either kind *)
Section clauses.
Context {R E : Type} (up_e : R → up_m E) (replace_last_e : N → E → E) (is_null_lit : E → bool).

Definition up_clause (c : predicate_clause_raw pattern_raw imut_raw R) :
    up_m (predicate_clause pattern imut_expr E) :=
  match c with
  | PredicateClauseRaw p g es =>
    leaf ← gets possible_leaf;
    modify (set_leaf false);;
    p ← up_pattern p;
    g ← up_opt up_imut g;
    modify (set_leaf leaf);;
    es ← up_vec up_e es;
    let is_assign := match p with PatAssign _ _ => true | _ => false end in
    (if is_assign : bool then end_shadow_var else mret ());;
    let es := match p with PatAssign idx _ => on_last (replace_last_e idx) es | _ => es end in
    es ← some_or_fail (split_last es) UpMissingEffector;
    mret (PredicateClause p g es.1 es.2)
  end.

(** The clauses come before the target. *)
Definition up_match (target : imut_raw) (cs : list (predicate_clause_raw pattern_raw imut_raw R)) :
    up_m (imut_expr * (list (clause_group pattern imut_expr path E) * default_case E)) :=
  cs ← up_each up_clause cs;
  t ← up_imut target;
  mret (t, match_up is_null_lit cs).

Definition up_case (c : comprehension_case_raw imut_raw R) : up_m (comprehension_case imut_expr E) :=
  match c with
  | ComprehensionCaseRaw k v g es =>
    key_idx ← register_shadow_var k;
    val_idx ← register_shadow_var v;
    g ← up_opt up_imut g;
    es ← up_vec up_e es;
    let es := on_last (replace_last_e val_idx) (on_last (replace_last_e key_idx) es) in
    end_shadow_var;;
    end_shadow_var;;
    es ← some_or_fail (split_last es) UpMissingEffector;
    mret (ComprehensionCase g es.1 es.2)
  end.

Definition up_comprehension (target : imut_raw) (cs : list (comprehension_case_raw imut_raw R)) :
    up_m (N * N * imut_expr * list (comprehension_case imut_expr E)) :=
  t ← up_imut target;
  ids ← reserve_2_shadow;
  cs ← up_vec up_case cs;
  mret (ids.1, ids.2, t, cs).
End clauses.

(** *** Calls *)
Definition is_aggregate (m : list string) (f : string) : bool :=
  match m with ["aggr"; m]%string => bool_decide (is_Some (find_aggr m f)) | _ => false end.

(** A function of the script is looked up from the module the call is in. *)
Definition up_invoke (m : list string) (f : string) (args : list imut_raw) : up_m invoke :=
  match m with
  | ["core"; m]%string =>
    fn ← some_or_fail (find_fn m f) (UpMissingFunction ["core"%string; m] f);
    args ← up_vec up_imut args;
    mret (Invoke (Intrinsic fn) args)
  | m =>
    fn ← gets (λ h, functions h !! (module h ++ m ++ [f]) ≫= λ i, func_vec h !! N.to_nat i);
    fn ← some_or_fail fn (UpMissingFunction m f);
    args ← up_vec up_imut args;
    mret (Invoke (Tremor fn) args)
  end.

Definition up_aggregate (m f : string) (args : list imut_raw) : up_m imut_expr :=
  in_aggr ← gets is_in_aggr;
  if in_aggr : bool then up_fail UpAggrInAggr
  else
    modify (set_in_aggr true);;
    inv ← some_or_fail (find_aggr m f) (UpMissingFunction [m] f);
    if negb (aggr_valid_arity inv (N.of_nat (length args))) then up_fail (UpBadArity m f)
    else
      aggr_id ← gets (λ h, N.of_nat (length (aggregates h)));
      args ← up_vec up_imut args;
      modify (push_aggregate (inv, args));;
      modify (set_in_aggr false);;
      mret (IInvokeAggr aggr_id).

Definition up_recur (es : list imut_raw) : up_m imut_expr :=
  leaf ← gets possible_leaf;
  modify (set_leaf false);;
  if negb leaf then up_fail UpInvalidRecur
  else
    argc ← gets fn_argc;
    open ← gets is_open;
    let n := N.of_nat (length es) in
    if (if open : bool then (argc <? n)%N else negb (argc =? n)%N) then up_fail (UpWrongArgc argc n)
    else
      es ← up_vec up_imut es;
      modify (set_leaf leaf);;
      mret (IRecur argc es).

Definition imut_is_null (e : imut_expr) : bool := match e with ILiteral v => is_null v | _ => false end.

(** [ImutExprRaw::up]; recursions and matches keep the leaf they may be. *)
Definition up_imut_step (r : imut_raw) : up_m imut_expr :=
  leaf ← gets possible_leaf;
  modify (set_leaf false);;
  e ← match r with
      | RRecur es => modify (set_leaf leaf);; up_recur es
      | RBinary kind l r => l ← up_imut l; r ← up_imut r; reduce (IBinary kind l r)
      | RUnary kind e => e ← up_imut e; reduce (IUnary kind e)
      | RString es => s ← up_string es; reduce (IString s)
      | RRecord fs => fs ← up_vec up_field fs; reduce (IRecord ∅ fs)
      | RList es => es ← up_vec up_imut es; reduce (IList es)
      | RPatch t ops => ops ← up_vec up_operation ops; t ← up_imut t; reduce (IPatch t ops)
      | RMerge t e => t ← up_imut t; e ← up_imut e; reduce (IMerge t e)
      | RPresent p => p ← up_path p; reduce (IPresent p)
      | RPath p => p ← up_path p; reduce (local_or_path p)
      | RLiteral v => reduce (ILiteral v)
      | RInvoke m f args =>
        if is_aggregate m f then up_aggregate (default ""%string (m !! 1%nat)) f args
        else
          i ← up_invoke m f args;
          h ← gets id;
          match build_call (const_values h) limit i with SOk e => mret e | SErr x => up_fail (UpEval x) end
      | RMatch t cs =>
        modify (set_leaf leaf);;
        m ← up_match up_imut replace_last_imut imut_is_null t cs;
        mret (IMatch m.1 m.2.1 m.2.2)
      | RComprehension t cs =>
        c ← up_comprehension up_imut replace_last_imut t cs;
        mret (IComprehension c.1.1.1 c.1.1.2 c.1.2 c.2)
      | RBytes ps => ps ← up_each up_part ps; reduce (IBytes ps)
      end;
  modify (set_leaf leaf);;
  mret e.
End parts.

Fixpoint up_imut (r : imut_raw) : up_m imut_expr := up_imut_step up_imut up_predicate r
with up_predicate (p : predicate_pattern_raw) : up_m predicate_pattern :=
  up_predicate_step up_imut up_predicate p.

Lemma up_imut_eq r : up_imut r = up_imut_step up_imut up_predicate r.
Proof. by destruct r. Qed.
Lemma up_predicate_eq p : up_predicate p = up_predicate_step up_imut up_predicate p.
Proof. by destruct p. Qed.

(** ** Expressions *)
Definition expr_is_null (e : expr) : bool := match e with EImut e => imut_is_null e | _ => false end.

(** A match of a single clause, in a single group, is a condition. *)
Definition match_or_if (t : imut_expr) (cgs : list (clause_group pattern imut_expr path expr))
    (d : default_case expr) : expr :=
  match cgs with [Simple None [c]] => EIfElse t c d | cgs => EMatch t cgs d end.

Fixpoint up_expr (r : expr_raw) : up_m expr :=
  match r with
  | XMatch t cs =>
    m ← up_match up_imut up_predicate up_expr replace_last expr_is_null t cs;
    mret (match_or_if m.1 m.2.1 m.2.2)
  | XAssign p e => p ← up_path up_imut p; e ← up_expr e; mret (EAssign p e)
  | XComprehension t cs =>
    c ← up_comprehension up_imut up_expr replace_last t cs;
    mret (EComprehension c.1.1.1 c.1.1.2 c.1.2 c.2)
  | XDrop =>
    emit ← gets can_emit;
    if emit : bool then mret EDrop else up_fail UpInvalidDrop
  | XEmit e port =>
    emit ← gets can_emit;
    if emit : bool then e ← up_imut e; port ← up_opt up_imut port; mret (EEmit e port)
    else up_fail UpInvalidEmit
  | XImut e => e ← up_imut e; mret (EImut e)
  | XConst _ _ | XModule _ _ | XFnDecl _ => up_fail UpUnreachable
  end.

(** ** Functions

    The arguments are the first local variables of a function. *)
Definition arg_locals (args : list string) : gmap string N :=
  (foldl (λ '(i, m) a, ((i + 1)%N, <[a := i]> m)) (0%N, ∅) args).2.

(** The declaration, that is its body and the number of local variables. *)
Definition up_fn (args : list string) (open : bool) (body : up_m (list expr)) : up_m (list expr * N) :=
  emit ← gets can_emit;
  modify (enter_fn (N.of_nat (length args)) open);;
  aggrs ← gets aggregates;
  ls ← gets local_ids;
  modify (swap [] (arg_locals args));;
  modify (set_leaf true);;
  body ← body;
  modify (set_leaf false);;
  size ← gets (λ h, N.of_nat (size (local_ids h)));
  modify (swap aggrs ls);;
  modify (set_can_emit emit);;
  mret (body, size).

(** [AnyFnRaw::up], and the function the declaration becomes. *)
Definition up_any_fn (f : any_fn_raw) : up_m (string * custom_fn) :=
  match f with
  | FnNormal name args body open inline =>
    b ← up_fn args open (up_vec up_expr body);
    mret (name, CustomFn b.1 (N.of_nat (length args)) b.2 false inline)
  | FnMatch name args cases open inline =>
    b ← up_fn args open (e ← up_expr (match_body args cases); mret [e]);
    mret (name, CustomFn b.1 (N.of_nat (length args)) b.2 false inline)
  end.

Definition define_fn (f : any_fn_raw) : up_m () := f ← up_any_fn f; register_fun f.1 f.2.

(** ** Modules and scripts *)
(** [ModuleRaw::define], on one of the expressions of a module. *)
Fixpoint define (r : expr_raw) : up_m () :=
  match r with
  | XModule name es =>
    modify (λ h, set_module (module h ++ [name]) h);;
    up_each define es;;
    modify (λ h, set_module (removelast (module h)) h)
  | XConst name e =>
    path ← gets (λ h, module h ++ [name]);
    e ← up_imut e;
    v ← into_value e;
    insert_const name path v;;
    mret ()
  | XFnDecl f => define_fn f
  | _ => up_fail UpUnreachable
  end.

(** An expression of the script itself; a constant that comes last is also
    the last expression. *)
Definition up_top (is_last : bool) (r : expr_raw) : up_m (list expr) :=
  match r with
  | XModule _ _ => define r;; mret []
  | XConst name e =>
    e ← up_imut e;
    e ← reduce e;
    v ← into_value e;
    idx ← insert_const name [name] v;
    mret (if is_last then [EImut (ILocal idx true)] else [])
  | XFnDecl f => define_fn f;; mret []
  | r => e ← up_expr r; mret [e]
  end.

Fixpoint up_tops (rs : list expr_raw) : up_m (list expr) :=
  match rs with
  | [] => mret []
  | r :: rs =>
    es ← up_top (bool_decide (rs = [])) r;
    es' ← up_tops rs;
    mret (es ++ es')
  end.

(** A script that ends in [event], or in nothing, emits the event. *)
Definition emit_event : expr := EEmit (IPath (EventPath [])) None.
Definition emit_last (es : list expr) : list expr :=
  match split_last es with
  | Some (es', EImut (IPath (EventPath []))) => es' ++ [emit_event]
  | Some _ => es
  | None => [emit_event]
  end.

Definition new_helper : helper :=
  Helper true false [] [] [] ∅ ∅ ∅ [] [] false 0 false.

(** [ScriptRaw::up_script] *)
Definition up_script (rs : list expr_raw) : up_m script :=
  es ← up_tops rs;
  h ← gets id;
  mret (Script (emit_last es) (const_values h) const_null const_null const_null (aggregates h).*1
          (N.of_nat (size (local_ids h)))).

(** What [Script::parse] does with the tree it has parsed. *)
Definition build_script (rs : list expr_raw) : ures script := (up_script rs new_helper).2.
End up.
