(* ===== verification/ScriptUpSpec.v ===== *)
(** Scripts that are accepted are well formed: the tree [up_script] makes of a
    raw one promises the interpreter what [ScriptTypes] asks for. *)
From S2P Require Import Prelude Value ValueOrd ScriptOps Bits Ast Interp ScriptTypes ScriptMatch ScriptMatchSpec ScriptFold RawAst ScriptUp.

Lemma forallb_mono {A} (f g : A → bool) l :
  (∀ x, f x = true → g x = true) → forallb f l = true → forallb g l = true.
Proof. intros Hfg. rewrite !forallb_forall. auto. Qed.
Lemma all_opt_mono {A} (f g : A → bool) o :
  (∀ x, f x = true → g x = true) → all_opt f o = true → all_opt g o = true.
Proof. destruct o; simpl; auto. Qed.
Lemma idx_ok_mono i m n : m ≤ n → idx_ok i m = true → idx_ok i n = true.
Proof. unfold idx_ok. rewrite !N.ltb_lt. lia. Qed.

Ltac split_wf := repeat match goal with
  | H : _ && _ = true |- _ => apply andb_true_iff in H as [? ?]
  | |- _ && _ = true => apply andb_true_iff; split
  end.

(** Goes down both syntax trees at once. *)
Ltac mono_step := match goal with
  | H : ?f ?x = true |- ?f ?x = true => exact H
  | H : forallb _ ?l = true |- forallb _ ?l = true => refine (forallb_mono _ _ l _ H); clear H; intros ? H
  | H : all_opt _ ?l = true |- all_opt _ ?l = true => refine (all_opt_mono _ _ l _ H); clear H; intros ? H
  | H : idx_ok ?i _ = true |- idx_ok ?i _ = true => refine (idx_ok_mono i _ _ _ H)
  end.

(** ** Well-formed in a scope, so in a larger one *)
Record larger (sc sc' : scope) : Prop := {
  larger_locals : n_locals sc ≤ n_locals sc';
  larger_consts : n_consts sc ≤ n_consts sc';
  larger_aggrs : n_aggrs sc ≤ n_aggrs sc';
}.
#[global] Instance larger_preorder : PreOrder larger.
Proof. split; [by intros []|]. intros [] [] [] [] []; constructor; simpl in *; lia. Qed.

Section groups.
Context {P I C E : Type} (p p' : P → bool) (i i' : I → bool) (c c' : C → bool) (e e' : E → bool).
Hypotheses (Hp : ∀ x, p x = true → p' x = true) (Hi : ∀ x, i x = true → i' x = true)
  (Hc : ∀ x, c x = true → c' x = true) (He : ∀ x, e x = true → e' x = true).

Lemma wf_clause_mono x : wf_clause p i e x = true → wf_clause p' i' e' x = true.
Proof. destruct x as [q g es l]. simpl. intros H. split_wf; eauto using forallb_mono, all_opt_mono. Qed.

Lemma wf_default_mono d : wf_default e d = true → wf_default e' d = true.
Proof. destruct d; simpl; intros H; split_wf; eauto using forallb_mono. Qed.

Lemma wf_tree_mono t : wf_tree e t = true → wf_tree e' t = true.
Proof. apply forallb_mono. intros [k [es l]]. simpl. intros H. split_wf; eauto using forallb_mono. Qed.

Lemma wf_group_mono n (g : clause_group P I C E) : wf_group p i c e n g = true → wf_group p' i' c' e' n g = true.
Proof.
  revert n g. fix IH 2. intros n [pre cs|pre t cs|pre gs|pre x]; simpl; intros H.
  - clear IH. split_wf; eauto using forallb_mono, all_opt_mono, wf_clause_mono.
  - clear IH. split_wf; eauto using forallb_mono, all_opt_mono, wf_clause_mono, wf_tree_mono.
  - apply andb_true_iff in H as [H Hgs]. apply andb_true_iff. split.
    { clear IH. split_wf; eauto using all_opt_mono. }
    clear H. revert gs Hgs. fix IHl 1. intros [|g gs]; simpl; [done|].
    intros [Hg Hgs]%andb_true_iff. apply andb_true_iff. split; [by apply IH|by apply IHl].
  - clear IH. split_wf; eauto using all_opt_mono, wf_clause_mono.
Qed.

Lemma wf_case_mono x : wf_case i e x = true → wf_case i' e' x = true.
Proof. destruct x as [g es l]. simpl. intros H. split_wf; eauto using forallb_mono, all_opt_mono. Qed.
End groups.

Section scopes.
Context `{!script_lib}.

Section parts.
Variables (sc sc' : scope) (Hsc : larger sc sc').
Variables (wf wf' : imut_expr → bool) (rp rp' : record_pattern → bool) (fn fn' : custom_fn → bool).
Hypotheses (Hwf : ∀ x, wf x = true → wf' x = true) (Hrp : ∀ x, rp x = true → rp' x = true)
  (Hfn : ∀ x, fn x = true → fn' x = true).

Lemma wf_segment_mono s : wf_segment wf s = true → wf_segment wf' s = true.
Proof. destruct s; simpl; intros Hw; split_wf; eauto. Qed.

Lemma idx_locals_mono i : idx_ok i (n_locals sc) = true → idx_ok i (n_locals sc') = true.
Proof. apply idx_ok_mono, Hsc. Qed.
Lemma idx_consts_mono i : idx_ok i (n_consts sc) = true → idx_ok i (n_consts sc') = true.
Proof. apply idx_ok_mono, Hsc. Qed.

Lemma wf_segments_mono p : wf_segments wf p = true → wf_segments wf' p = true.
Proof. apply forallb_mono, wf_segment_mono. Qed.

Lemma wf_path_mono p : wf_path sc wf p = true → wf_path sc' wf' p = true.
Proof.
  unfold wf_path. intros Hw. split_wf; [|by apply wf_segments_mono].
  destruct p; simpl in *; split_wf; eauto using idx_locals_mono, idx_consts_mono.
Qed.

Lemma wf_element_mono p : wf_element wf rp p = true → wf_element wf' rp' p = true.
Proof. destruct p; simpl; auto. Qed.
Lemma wf_field_mono p : wf_field wf rp p = true → wf_field wf' rp' p = true.
Proof. destruct p; simpl; eauto using forallb_mono, wf_element_mono. Qed.
Lemma wf_record_mono p : wf_record wf rp p = true → wf_record wf' rp' p = true.
Proof. destruct p. apply forallb_mono, wf_field_mono. Qed.
Lemma wf_simple_pattern_mono p : wf_simple_pattern wf rp p = true → wf_simple_pattern wf' rp' p = true.
Proof. destruct p; simpl; eauto using forallb_mono, wf_element_mono. Qed.
Lemma wf_pattern_mono p : wf_pattern sc wf rp p = true → wf_pattern sc' wf' rp' p = true.
Proof.
  destruct p as [| | |idx p| | | |]; try exact (wf_simple_pattern_mono _); [|done]. simpl.
  intros Hw. split_wf; eauto using idx_locals_mono, wf_simple_pattern_mono.
Qed.
Lemma wf_str_element_mono e : wf_str_element wf e = true → wf_str_element wf' e = true.
Proof. destruct e; simpl; auto. Qed.
Lemma wf_string_mono s : wf_string wf s = true → wf_string wf' s = true.
Proof. destruct s. apply forallb_mono, wf_str_element_mono. Qed.
Lemma wf_record_field_mono f : wf_record_field wf f = true → wf_record_field wf' f = true.
Proof. destruct f. simpl. intros Hw. split_wf; eauto using wf_string_mono. Qed.
Lemma wf_part_mono p : wf_part wf p = true → wf_part wf' p = true.
Proof. destruct p. simpl. auto. Qed.
Lemma wf_operation_mono o : wf_operation wf o = true → wf_operation wf' o = true.
Proof. destruct o; simpl; intros Hw; split_wf; eauto using wf_string_mono. Qed.
Lemma wf_invoke_mono n i : wf_invoke wf fn n i = true → wf_invoke wf' fn' n i = true.
Proof.
  destruct i as [f args]. simpl. intros Hw. split_wf; eauto using forallb_mono. destruct f; simpl in *; auto.
Qed.

Lemma wf_imut_step_mono e : wf_imut_step sc wf rp fn e = true → wf_imut_step sc' wf' rp' fn' e = true.
Proof.
  destruct Hsc as [Hl Hc Ha].
  pose proof wf_record_field_mono. pose proof wf_operation_mono. pose proof wf_path_mono.
  pose proof wf_string_mono. pose proof wf_invoke_mono. pose proof wf_part_mono.
  pose proof (wf_group_mono _ _ _ _ _ _ _ _ wf_pattern_mono Hwf wf_segments_mono Hwf).
  pose proof (wf_default_mono _ _ Hwf). pose proof (wf_case_mono _ _ _ _ Hwf Hwf).
  destruct e; simpl; intros Hw; split_wf; try mono_step; auto.
  - by destruct is_const.
  - match goal with Hm : (_ <=? _) = true |- _ => apply Nat.leb_le in Hm end. apply Nat.leb_le. lia.
Qed.

Variables (we we' : expr → bool) (Hwe : ∀ x, we x = true → we' x = true).

Lemma wf_expr_step_mono e : wf_expr_step sc wf rp we e = true → wf_expr_step sc' wf' rp' we' e = true.
Proof.
  destruct Hsc as [Hl Hc Ha].
  pose proof wf_path_mono. pose proof (wf_default_mono _ _ Hwe). pose proof (wf_case_mono _ _ _ _ Hwf Hwe).
  pose proof (wf_group_mono _ _ _ _ _ _ _ _ wf_pattern_mono Hwf wf_segments_mono Hwe).
  pose proof (wf_clause_mono _ _ _ _ _ _ wf_pattern_mono Hwf Hwe).
  destruct e; simpl; intros Hw; split_wf; try mono_step; auto.
Qed.
End parts.

(** Deeper, and in a larger scope. *)
Lemma wf_mono d : ∀ d' sc sc', d ≤ d' → larger sc sc' →
  (∀ e, wf_imut d sc e = true → wf_imut d' sc' e = true) ∧
  (∀ p, wf_rp d sc p = true → wf_rp d' sc' p = true) ∧
  (∀ f, wf_fn d sc f = true → wf_fn d' sc' f = true) ∧
  (∀ e, wf_expr d sc e = true → wf_expr d' sc' e = true).
Proof.
  induction d as [|d IH]; intros d' sc sc' Hd Hsc; [done|]. destruct d' as [|d']; [lia|].
  destruct (IH d' sc sc') as (Hi & Hr & Hf & He); [lia|done|]. split_and!; intros x.
  - by apply wf_imut_step_mono.
  - by apply wf_record_mono.
  - destruct x as [body n size c inl]. simpl. intros Hw. split_wf; [done|].
    eapply forallb_mono; [|done]. apply IH; [lia|]. destruct Hsc. by constructor.
  - by apply wf_expr_step_mono.
Qed.

Lemma wf_imut_mono d d' sc sc' e : d ≤ d' → larger sc sc' → wf_imut d sc e = true → wf_imut d' sc' e = true.
Proof. intros Hd Hsc. by apply wf_mono. Qed.
Lemma wf_expr_mono d d' sc sc' e : d ≤ d' → larger sc sc' → wf_expr d sc e = true → wf_expr d' sc' e = true.
Proof. intros Hd Hsc. by apply wf_mono. Qed.
Lemma wf_rp_mono d d' sc sc' p : d ≤ d' → larger sc sc' → wf_rp d sc p = true → wf_rp d' sc' p = true.
Proof. intros Hd Hsc. by apply wf_mono. Qed.
Lemma wf_fn_mono d d' sc sc' f : d ≤ d' → larger sc sc' → wf_fn d sc f = true → wf_fn d' sc' f = true.
Proof. intros Hd Hsc. by apply wf_mono. Qed.
End scopes.

(** ** Folding and inlining keep a tree well formed *)
Section folding.
Context `{!script_lib, !value_trait, !hash_order string}.
Variables (consts : list value) (limit : N).

Lemma wf_call_of d sc f args :
  wf_invocable (wf_fn d sc) f = true → forallb (wf_imut d sc) args = true →
  wf_imut (S d) sc (call_of (Invoke f args)) = true.
Proof.
  intros Hf Ha. destruct args as [|a [|b [|c [|e args]]]]; simpl in *; by rewrite Hf, ?Ha.
Qed.

Lemma invoke_reduce_wf d sc n i e :
  wf_invoke (wf_imut d sc) (wf_fn d sc) n i = true → invoke_reduce limit i = SOk e → wf_imut (S d) sc e = true.
Proof.
  destruct i as [f args]. cbn [wf_invoke]. intros Hw. split_wf. unfold invoke_reduce.
  destruct (if invocable_is_const f then _ else _).
  - destruct (invoke_invocable _ _ _ _); [|done]. by intros [= <-].
  - intros [= <-]. by apply wf_call_of.
Qed.

Lemma reduce_parts_wf d sc ps qs :
  (∀ e e', wf_imut d sc e = true → try_reduce consts limit e = SOk e' → wf_imut d sc e' = true) →
  forallb (wf_part (wf_imut d sc)) ps = true → reduce_parts (try_reduce consts limit) ps = SOk qs →
  forallb (wf_part (wf_imut d sc)) qs = true.
Proof.
  intros IH. revert qs. induction ps as [|[data t e bits] ps IHp]; simpl; intros qs; [by intros _ [= <-]|].
  intros [Hd Hps]%andb_true_iff Hr. destruct (try_reduce _ _ data) as [data'|x] eqn:Hdata; [|done]. simpl in Hr.
  destruct (reduce_parts _ ps) as [ps'|x]; [|done]. injection Hr as <-. simpl. rewrite (IH _ _ Hd Hdata). by apply IHp.
Qed.

Lemma try_reduce_wf d sc e e' :
  wf_imut d sc e = true → try_reduce consts limit e = SOk e' → wf_imut d sc e' = true.
Proof.
  revert e e'. induction d as [|d IH]; intros e e'; [done|]. intros Hwf.
  rewrite try_reduce_step. destruct e; simpl; try (by intros [= <-]).
  - intros [= <-]. unfold record_reduce. cbn [wf_imut wf_imut_step] in *.
    assert (forallb (wf_record_field (wf_imut d sc)) (filter (λ f, literal_field f = None) fields) = true) as Hf.
    { rewrite forallb_forall in *. intros f Hf%list_elem_of_In. apply list_elem_of_filter in Hf as [_ Hf].
      by apply Hwf, list_elem_of_In. }
    by destruct (filter _ fields).
  - intros [= <-]. unfold list_reduce. by destruct (mapM _ _).
  - destruct e1, e2; try (by intros [= <-]). simpl. destruct (exec_binary _ _ _); [|done]. by intros [= <-].
  - destruct e; try (by intros [= <-]). simpl. destruct (exec_unary _ _); [|done]. by intros [= <-].
  - unfold path_reduce. destruct p as [idx c ss| | | | |b v ss| | |]; try (by intros [= <-]).
    + destruct c, ss; try (by intros [= <-]). destruct (get_idx _ _); [|done]. by intros [= <-].
    + destruct b; try (by intros [= <-]). destruct (reduce_segments _ _ _) as [[[w [r|]]|]|]; [..|done];
        by intros [= <-].
  - destruct s as [[|[l|x] [|y es]]]; by intros [= <-].
  - by eapply invoke_reduce_wf.
  - by eapply invoke_reduce_wf.
  - by eapply invoke_reduce_wf.
  - by eapply invoke_reduce_wf.
  - unfold bytes_reduce. destruct (reduce_parts _ _) as [ps|] eqn:Hps; [|done]. simpl.
    destruct (mapM _ ps) as [qs|].
    + destruct (write_parts _ _); [|done]. by intros [= <-].
    + intros [= <-]. cbn [wf_imut wf_imut_step] in *. by eapply reduce_parts_wf.
Qed.

Lemma wf_fn_scope d sc sc' f : n_consts sc = n_consts sc' → wf_fn d sc f = wf_fn d sc' f.
Proof. intros Hn. destruct d as [|d]; [done|]. destruct f. simpl. by rewrite Hn. Qed.

Lemma wf_body_call d sc body i :
  forallb (wf_expr d sc) body = true → body_call body = Some i →
  ∃ d', d' ≤ d ∧ wf_invoke (wf_imut d' sc) (wf_fn d' sc) 0 i = true.
Proof.
  unfold body_call. destruct body as [|[] [|]]; try done; [|by destruct e].
  intros Hb. simpl in Hb. split_wf. destruct d as [|[|d]]; [done..|].
  intros Hi. exists d. split; [lia|]. destruct i as [f args].
  destruct e; try done; injection Hi as ->; cbn in *; by split_wf.
Qed.

Lemma build_call_wf d sc f args e :
  wf_invocable (wf_fn d sc) f = true → forallb (wf_imut d sc) args = true →
  build_call consts limit (Invoke f args) = SOk e → wf_imut (S d) sc e = true.
Proof.
  intros Hf Ha. unfold build_call. destruct (match f with Intrinsic _ => _ | _ => _ end) as [e'|] eqn:He'; [|done].
  cbn [mbind sres_bind]. apply try_reduce_wf. destruct f as [fn|fn]; [injection He' as <-; by apply wf_call_of|].
  destruct (can_inline fn); [|injection He' as <-; by apply wf_call_of].
  destruct fn as [body n size c inl]. simpl in He'. destruct (length body =? 1); [|done]. simpl in He'.
  destruct (body_call body) as [[g gargs]|] eqn:Hb; [|done].
  destruct (N.of_nat (length gargs) =? n)%N; [|done]. injection He' as <-.
  simpl in Hf. destruct d as [|d]; [done|]. cbn in Hf. apply andb_true_iff in Hf as [_ Hf].
  destruct (wf_body_call _ _ _ _ Hf Hb) as (d' & Hd & Hg). simpl in Hg. apply wf_call_of; [|done].
  split_wf. destruct g as [|g]; [done|]. cbn [wf_invocable] in *. rewrite (wf_fn_scope _ _ sc) in * by done.
  eapply wf_fn_mono; [|reflexivity|done]. lia.
Qed.
End folding.

(** ** Building a match keeps its clauses well formed *)
Section matches.
Context `{!script_lib, !value_trait, !analysis} {E : Type}.
Local Abbreviation clause := (predicate_clause pattern imut_expr E).
Local Abbreviation group := (clause_group pattern imut_expr path E).
Variables (d : nat) (sc : scope) (wf_e : E → bool).
Local Abbreviation wfp := (wf_pattern sc (wf_imut (S d) sc) (wf_rp (S d) sc)).
Local Abbreviation wfc := (wf_clause wfp (wf_imut (S d) sc) wf_e).
Local Abbreviation wfg := (wf_group wfp (wf_imut (S d) sc) (wf_segments (wf_imut (S d) sc)) wf_e).
Local Abbreviation all := (forallb wfc).

Lemma forallb_Forall {A} (f : A → bool) l : forallb f l = true ↔ Forall (λ x, f x = true) l.
Proof. induction l as [|x l IH]; simpl; [by split|]. by rewrite andb_true_iff, Forall_cons, IH. Qed.

Lemma rewrite_clause_wf (c : clause) : wfc c = true → wfc (rewrite_clause c) = true.
Proof.
  destruct c as [p g es e]. unfold rewrite_clause, set_pattern. simpl.
  destruct p as [rp| | | | | | |]; try done. destruct rp as [[|f fs]]; [done|]. destruct f, fs; try done.
  simpl. intros Hw. split_wf; try done. apply (wf_imut_mono d (S d) sc sc); [lia|reflexivity|done].
Qed.

Lemma sort_step_wf j (cs : list clause) : all cs = true → all (sort_step j cs) = true.
Proof.
  unfold sort_step. intros Hcs. destruct (cs !! j) as [x|] eqn:Hx; [|done].
  destruct (cs !! (j - 1)) as [y|] eqn:Hy; [|done]. destruct (_ && _); [|done].
  rewrite forallb_Forall in *. rewrite Forall_lookup in Hcs.
  apply Forall_insert; [apply Forall_insert; [by apply Forall_lookup|]|]; eauto.
Qed.

Lemma sort_clauses_wf (cs : list clause) : all cs = true → all (sort_clauses cs) = true.
Proof.
  unfold sort_clauses. generalize (rev (seq 0 (length cs))). intros ks. revert cs.
  induction ks as [|i ks IH]; intros cs Hcs; [done|]. simpl. apply IH. generalize (rev (seq 1 i)). intros js.
  revert cs Hcs. induction js as [|j js IHj]; intros cs Hcs; [done|]. simpl. by apply IHj, sort_step_wf.
Qed.

Lemma sort_by_cost_wf (cs : list clause) : all cs = true → all (sort_by_cost cs) = true.
Proof. rewrite !forallb_Forall. intros Hcs. by rewrite sort_by_cost_perm. Qed.

Lemma tree_insert_wf k (x : list E * E) tree :
  forallb wf_e x.1 && wf_e x.2 = true → wf_tree wf_e tree = true → wf_tree wf_e (tree_insert k x tree) = true.
Proof.
  intros Hx. induction tree as [|[k' y] tree IH]; simpl; [by rewrite Hx|]. intros [Hy Ht]%andb_true_iff.
  destruct (value_cmp k k'); simpl; rewrite ?Hx, ?Hy, ?Ht; [done..|]. by rewrite IH.
Qed.

Lemma build_tree_wf (cs : list clause) : all cs = true → wf_tree wf_e (build_tree cs) = true.
Proof.
  unfold build_tree. intros Hcs. assert (wf_tree wf_e [] = true) as Ht by done. revert Ht.
  generalize (@nil (value * (list E * E))). induction cs as [|c cs IH]; intros tree Ht; [done|].
  simpl in *. split_wf. apply IH; [done|]. destruct (literal_of c); [|done]. apply tree_insert_wf; [|done].
  destruct c. simpl in *. by split_wf.
Qed.

Lemma optimize_wf n pre (cs : list clause) :
  all_opt (wf_segments (wf_imut (S d) sc)) pre = true → all cs = true → wfg true (optimize n (Simple pre cs)) = true.
Proof.
  revert pre cs. induction n as [|n IH]; intros pre cs Hp Hcs; cbn [optimize].
  { cbn [wf_group]. by rewrite Hp, Hcs. }
  destruct (common_key cs) as [[k|]|].
  - apply IH; [done|]. rewrite forallb_Forall in *. apply Forall_fmap. eapply Forall_impl; [done|].
    intros c. apply rewrite_clause_wf.
  - by apply IH.
  - destruct (_ <=? _).
    + cbn [wf_group]. rewrite Hp, build_tree_wf by done. cbn [andb]. unfold tree_rest.
      rewrite forallb_Forall, Forall_forall in *. intros c [_ Hc]%list_elem_of_filter. by apply Hcs.
    + destruct cs as [|c [|]]; cbn [wf_group forallb] in *; rewrite ?Hp, ?Hcs; by split_wf.
Qed.

Lemma optimize_group_wf (cs : list clause) : all cs = true → wfg true (optimize_group (sort_by_cost cs)) = true.
Proof. intros Hcs. apply optimize_wf; [done|]. by apply sort_by_cost_wf. Qed.

Lemma build_groups_wf (cs cur : list clause) :
  all cs = true → all cur = true → forallb (wfg true) (build_groups cs cur) = true.
Proof.
  revert cur. induction cs as [|c cs IH]; intros cur Hcs Hcur; cbn [build_groups forallb] in *.
  - by rewrite optimize_group_wf.
  - apply andb_true_iff in Hcs as [Hc Hcs]. destruct (forallb (exclusive c) cur).
    + apply IH; [done|]. rewrite forallb_app. cbn [forallb]. by rewrite Hcur, Hc.
    + cbn [forallb]. rewrite optimize_group_wf by done. apply IH; [done|]. cbn [forallb]. by rewrite Hc.
Qed.

(** A group inside another is well formed outside, too. *)
Lemma wf_group_out (g : group) : wfg true g = true → wfg false g = true.
Proof. destruct g; cbn [wf_group]; intros Hw; split_wf; done. Qed.

Lemma set_precondition_wf n (g : group) : wfg n g = true → wfg n (set_precondition None g) = true.
Proof. destruct g; cbn [wf_group set_precondition all_opt]; intros Hw; split_wf; done. Qed.

Lemma precondition_wf n (g : group) :
  wfg n g = true → all_opt (wf_segments (wf_imut (S d) sc)) (precondition_of g) = true.
Proof. destruct g; cbn [wf_group precondition_of]; intros Hw; by split_wf. Qed.

(** A group that is not a combination can go into one. *)
Lemma wf_group_in (g : group) :
  wfg false g = true → match g with Combined _ _ => True | _ => wfg true (set_precondition None g) = true end.
Proof. destruct g as [p cs|p t cs|p gs|p c]; [| |done|]; intros Hw; by apply (set_precondition_wf true). Qed.

Lemma combine_wf (l g : group) : wfg false l = true → wfg true g = true → wfg false (combine l g) = true.
Proof.
  intros Hl Hg. pose proof (precondition_wf _ _ Hl) as Hp. pose proof (wf_group_in _ Hl) as Hin.
  pose proof (set_precondition_wf _ _ Hg) as Hg'.
  destruct g; [| |by cbn [wf_group] in Hg; split_wf|]; (destruct l;
    [| |cbn [combine wf_group] in *; split_wf; rewrite ?forallb_app; cbn [forallb]; split_wf; done|]);
    cbn [combine] in *; cbn [wf_group negb andb forallb]; by rewrite Hp, Hin, Hg'.
Qed.

Lemma push_group_wf (gs : list group) (g : group) :
  forallb (wfg false) gs = true → wfg true g = true → forallb (wfg false) (push_group gs g) = true.
Proof.
  intros Hgs Hg. unfold push_group. destruct (last gs) as [l|] eqn:Hl.
  - apply last_Some in Hl as [gs' ->]. rewrite forallb_app in Hgs. cbn [forallb] in Hgs. split_wf.
    rewrite removelast_last. destruct (combinable l g); rewrite !forallb_app; cbn [forallb].
    + rewrite (combine_wf l g) by done. by split_wf.
    + rewrite (wf_group_out g) by done. split_wf; done.
  - cbn [forallb]. by rewrite wf_group_out.
Qed.

Lemma match_groups_wf (cs : list clause) : all cs = true → forallb (wfg false) (match_groups cs) = true.
Proof.
  intros Hcs. unfold match_groups.
  assert (∀ hs gs, forallb (wfg false) gs = true → forallb (wfg true) hs = true →
    forallb (wfg false) (foldl push_group gs hs) = true) as Hfold.
  { induction hs as [|h hs IH]; intros gs Hgs Hhs; [done|]. cbn [foldl forallb] in *. split_wf.
    apply IH; [|done]. by apply push_group_wf. }
  assert (forallb (wfg true) (build_groups (sort_clauses cs) []) = true) as Hb.
  { apply build_groups_wf; [by apply sort_clauses_wf|done]. }
  destruct cs as [|c [|c' cs]]; [by apply Hfold| |by apply Hfold].
  cbn [forallb wf_group all_opt] in *. by split_wf.
Qed.

Lemma match_default_wf is_null_lit (cs : list clause) :
  all cs = true →
  all (match_default is_null_lit cs).1 = true ∧ wf_default wf_e (match_default is_null_lit cs).2 = true.
Proof.
  intros Hcs. unfold match_default. destruct (last cs) as [[p g es e]|] eqn:Hl; [|done].
  apply last_Some in Hl as [cs' ->]. destruct p, g; try done.
  rewrite forallb_app in Hcs. cbn [forallb wf_clause] in Hcs. split_wf. rewrite removelast_last.
  split; [done|]. destruct es; [by destruct (is_null_lit e)|]. cbn [wf_default snd]. by split_wf.
Qed.

Lemma match_up_wf is_null_lit (cs : list clause) :
  all cs = true →
  forallb (wfg false) (match_up is_null_lit cs).1 = true ∧ wf_default wf_e (match_up is_null_lit cs).2 = true.
Proof.
  intros Hcs. unfold match_up. destruct (match_default_wf is_null_lit cs Hcs) as [Hm Hd].
  destruct (match_default is_null_lit cs). simpl in *. split; [by apply match_groups_wf|done].
Qed.
End matches.

(** ** Moving variables keeps a tree well formed *)
Section moving.
Context `{!script_lib}.

Lemma replace_group_wf {P I C E} (p : P → bool) (i : I → bool) (c : C → bool) (e : E → bool) (f : E → E) n cg :
  (∀ x, e x = true → e (f x) = true) → wf_group p i c e n cg = true → wf_group p i c e n (replace_group f cg) = true.
Proof.
  intros Hf. assert (∀ x, wf_clause p i e x = true → wf_clause p i e (replace_clause f x) = true) as Hc.
  { intros [q g es l]. simpl. intros Hw. split_wf; auto. }
  assert (∀ l, forallb (wf_clause p i e) l = true → forallb (wf_clause p i e) (map (replace_clause f) l) = true) as Hcs.
  { induction l as [|x l IH]; simpl; [done|]. intros Hw. split_wf; auto. }
  revert n cg. fix IH 2. intros n [pre cs|pre t cs|pre gs|pre x]; simpl; intros Hw.
  - clear IH. split_wf; auto.
  - clear IH. split_wf; auto. rename t into tree.
    match goal with Ht : wf_tree e tree = true |- _ => clear -Ht Hf; revert Ht end.
    induction tree as [|[k [es l]] tree IH]; simpl; [done|]. intros Hw. split_wf; auto.
  - apply andb_true_iff in Hw as [Hw Hgs]. apply andb_true_iff. split; [done|].
    clear Hw. revert gs Hgs. fix IHl 1. intros [|g gs]; simpl; [done|].
    intros [Hg Hgs]%andb_true_iff. apply andb_true_iff. split; [by apply IH|by apply IHl].
  - clear IH. split_wf; auto.
Qed.

Lemma replace_groups_wf {P I C E} (p : P → bool) (i : I → bool) (c : C → bool) (e : E → bool) (f : E → E) n cgs :
  (∀ x, e x = true → e (f x) = true) → forallb (wf_group p i c e n) cgs = true →
  forallb (wf_group p i c e n) (map (replace_group f) cgs) = true.
Proof.
  intros Hf. induction cgs as [|g cgs IH]; simpl; [done|]. intros Hw. split_wf; auto using replace_group_wf.
Qed.

Lemma replace_last_imut_wf d sc idx e : wf_imut d sc e = true → wf_imut d sc (replace_last_imut idx e) = true.
Proof.
  revert e. induction d as [|d IH]; intros e; [done|]. destruct e; try done.
  cbn [wf_imut wf_imut_step replace_last_imut]. intros Hw. split_wf; auto using replace_groups_wf.
Qed.

Lemma replace_last_wf d sc idx e :
  idx_ok idx (n_locals sc) = true → wf_expr d sc e = true → wf_expr d sc (replace_last idx e) = true.
Proof.
  intros Hidx. revert e. induction d as [|d IH]; intros e; [done|]. destruct e; try done.
  - cbn [wf_expr wf_expr_step replace_last]. intros Hw. split_wf; auto using replace_groups_wf.
  - destruct e as [| | | | | | |[]]; try done. cbn [replace_last]. destruct (idx0 =? idx)%N eqn:He; [|done].
    apply N.eqb_eq in He as ->. cbn [wf_expr wf_expr_step]. intros Hw. split_wf; done.
Qed.

Lemma on_last_forallb {A} (f : A → A) (g : A → bool) l :
  (∀ x, g x = true → g (f x) = true) → forallb g l = true → forallb g (on_last f l) = true.
Proof.
  intros Hf. induction l as [|x l IH]; [done|]. intros Hl. apply andb_true_iff in Hl as [Hx Hl].
  destruct l as [|y l]; [simpl; by rewrite Hf|].
  change (g x && forallb g (on_last f (y :: l)) = true). rewrite Hx. by apply IH.
Qed.
End moving.

(** ** From some depth on *)
Definition ev (P : nat → Prop) : Prop := ∃ d, ∀ d', d ≤ d' → P d'.
Lemma ev_true (P : nat → Prop) : (∀ d, P d) → ev P.
Proof. intros HP. by exists 0. Qed.
Lemma ev_impl (P Q : nat → Prop) : (∀ d, P d → Q d) → ev P → ev Q.
Proof. intros HPQ [d Hd]. exists d. auto. Qed.
Lemma ev_and P Q : ev P → ev Q → ev (λ d, P d ∧ Q d).
Proof. intros [d Hd] [d' Hd']. exists (d + d'). intros k Hk. split; [apply Hd|apply Hd']; lia. Qed.
Lemma ev_pred (P : nat → Prop) : ev P → ev (λ d, ∃ d', d = S d' ∧ P d').
Proof. intros [d Hd]. exists (S d). intros [|k] Hk; [lia|]. exists k. split; [done|]. apply Hd. lia. Qed.
Lemma ev_succ (P : nat → Prop) : ev P → ev (λ d, P (S d)).
Proof. intros [d Hd]. exists d. intros k Hk. apply Hd. lia. Qed.
Lemma ev_forallb {A} (f : nat → A → bool) l :
  Forall (λ x, ev (λ d, f d x = true)) l → ev (λ d, forallb (f d) l = true).
Proof.
  induction 1 as [|x l Hx Hl IH]; [by apply ev_true|]. eapply ev_impl; [|exact (ev_and _ _ Hx IH)].
  intros d [H1 H2]. simpl. by rewrite H1.
Qed.
Lemma ev_opt {A} (f : nat → A → bool) o :
  match o with Some x => ev (λ d, f d x = true) | None => True end → ev (λ d, all_opt (f d) o = true).
Proof. destruct o; [done|]. intros _. by apply ev_true. Qed.
Lemma ev_imut `{!script_lib} d sc e : wf_imut d sc e = true → ev (λ d, wf_imut d sc e = true).
Proof. intros He. exists d. intros d' Hd. by eapply wf_imut_mono. Qed.
