(* ===== verification/ScriptUpWf.v ===== *)
(** What the front end accepts is well formed: a Hoare logic for the [up]
    functions, and the theorem that a script that was accepted never fails
    with an internal error. *)
From stdpp Require Import pretty.
From S2P Require Import Prelude Value ValueOrd ScriptOps Bits Ast Interp ScriptTypes ScriptMatch ScriptFold RawAst ScriptUp ScriptUpSpec.

Section logic.
Context `{!script_lib, !value_trait, !hash_order string, !analysis, !registries}.

(** ** The state of the analysis

    [L] is whether recursions are allowed here: the arguments of the function
    have a place then. *)
Record inv (L : bool) (h : helper) : Prop := {
  inv_consts : ∀ n i, const_names h !! n = Some i → idx_ok i (length (const_values h)) = true;
  inv_locals : ∀ s i, local_ids h !! s = Some i → idx_ok i (size (local_ids h)) = true;
  inv_fns : Forall (λ f, ∃ d, wf_fn d (Scope 0 (length (const_values h)) 0) f = true) (func_vec h);
  inv_aggrs : aggregates h = [];
  inv_leaf : possible_leaf h = true → L = true;
  inv_argc : L = true → N.to_nat (fn_argc h) ≤ size (local_ids h);
}.

Definition scope_of (h : helper) : scope := Scope (size (local_ids h)) (length (const_values h)) 0.

(** [F] is the scope in the end, when everything is declared; [b] and [b']
    are whether what is looked at may be a leaf, before and after. *)
Section triple.
Variable F : scope.

Definition ups (L b b' : bool) {A} (m : up_m A) (Q : A → Prop) : Prop := ∀ h h' a,
  inv L h → possible_leaf h = b → m h = (h', UOk a) →
  inv L h' ∧ possible_leaf h' = b' ∧ larger (scope_of h) (scope_of h') ∧ (larger (scope_of h') F → Q a).

Lemma ups_ret L b {A} (a : A) (Q : A → Prop) : Q a → ups L b b (mret a) Q.
Proof. intros HQ h h' ? Hi Hb [= <- <-]. by split_and!. Qed.

Lemma ups_fail L b b' {A} e (Q : A → Prop) : ups L b b' (up_fail e) Q.
Proof. by intros h h' a Hi Hb [=]. Qed.

Lemma ups_bind L b b1 b2 {A B} (m : up_m A) (f : A → up_m B) Q R :
  ups L b b1 m Q → (∀ a, ups L b1 b2 (f a) (λ c, Q a → R c)) → ups L b b2 (m ≫= f) R.
Proof.
  intros Hm Hf h h' c Hi Hb. unfold mbind, up_bind. destruct (m h) as [h1 [a|e]] eqn:Hmh; [|done].
  intros Hfh. destruct (Hm h h1 a Hi Hb Hmh) as (Hi1 & Hb1 & Hl1 & HQ).
  destruct (Hf a h1 h' c Hi1 Hb1 Hfh) as (Hi2 & Hb2 & Hl2 & HR). split_and!; [done..|by etrans|].
  intros HF. apply HR; [done|]. apply HQ. by etrans.
Qed.

Lemma ups_weaken L b b' {A} (m : up_m A) (Q R : A → Prop) :
  (∀ a, Q a → R a) → ups L b b' m Q → ups L b b' m R.
Proof.
  intros HQR Hm h h' a Hi Hb Hr. destruct (Hm h h' a Hi Hb Hr) as (Hi' & Hb' & Hl & HQ).
  split_and!; auto.
Qed.

Lemma ups_gets_leaf L b {A} (f : bool → up_m A) b' Q :
  ups L b b' (f b) Q → ups L b b' (gets possible_leaf ≫= f) Q.
Proof. intros Hf h h' a Hi Hb Hr. apply Hf; [done..|]. by rewrite <-Hb. Qed.

Lemma ups_gets L b {A} (f : helper → A) : ups L b b (gets f) (λ _, True).
Proof. intros h h' a Hi Hb [= <- <-]. by split_and!. Qed.

Lemma ups_set_leaf L b c {A} (m : up_m A) b' Q :
  (c = true → L = true) → ups L c b' m Q → ups L b b' (modify (set_leaf c) ≫= λ _, m) Q.
Proof.
  intros Hc Hm h h' a Hi Hb Hr. apply (Hm (set_leaf c h)) in Hr; [done| |done]. destruct Hi. by constructor.
Qed.

(** The leaf flag in front of what is looked at implies [L]. *)
Lemma ups_leaf L b b' {A} (m : up_m A) Q : ((b = true → L = true) → ups L b b' m Q) → ups L b b' m Q.
Proof. intros Hm h h' a Hi Hb. apply Hm; [|done..]. intros ->. by apply (inv_leaf _ _ Hi). Qed.

Lemma ups_some_or_fail L b {A} (o : option A) e (Q : A → Prop) :
  (∀ a, o = Some a → Q a) → ups L b b (some_or_fail o e) Q.
Proof. intros HQ. destruct o; [apply ups_ret; auto|apply ups_fail]. Qed.

(** *** Sequences *)
Section seq.
Context {A B : Type} (up : A → up_m B) (L : bool) (Q : B → Prop).

Lemma ups_each b l : (∀ x, x ∈ l → ups L b b (up x) Q) → ups L b b (up_each up l) (Forall Q).
Proof.
  induction l as [|x l IH]; intros Hl; [by apply ups_ret|]. simpl. eapply ups_bind; [apply Hl; left|].
  intros y. eapply ups_bind; [apply IH; intros z Hz; apply Hl; by right|]. intros ys. apply ups_ret. by constructor.
Qed.

Lemma ups_up_leaf b l : (b = true → L = true) → l ≠ [] → (∀ x c, x ∈ l → ups L c c (up x) Q) →
  ups L false b (up_leaf up b l) (Forall Q).
Proof.
  intros Hb. induction l as [|x [|x' l] IH]; intros Hne Hl; [done| |].
  - simpl. apply ups_set_leaf; [done|]. eapply ups_bind; [apply Hl; left|]. intros y. apply ups_ret. by constructor.
  - cbn [up_leaf]. eapply ups_bind; [apply Hl; left|]. intros y. eapply ups_bind.
    { apply IH; [done|]. intros z c Hz. apply Hl. by right. }
    intros ys. apply ups_ret. by constructor.
Qed.

Lemma ups_vec b l : (∀ x c, x ∈ l → ups L c c (up x) Q) → ups L b b (up_vec up l) (Forall Q).
Proof.
  intros Hl. apply ups_leaf. intros Hb. unfold up_vec. destruct l as [|x l]; [by apply ups_ret|].
  apply ups_gets_leaf, ups_set_leaf; [done|]. by apply ups_up_leaf.
Qed.

Lemma ups_opt b o : (∀ x, o = Some x → ups L b b (up x) Q) →
  ups L b b (up_opt up o) (λ o', match o' with Some y => Q y | None => True end).
Proof.
  intros Ho. destruct o as [x|]; [|by apply ups_ret]. simpl. eapply ups_bind; [by apply Ho|].
  intros y. by apply ups_ret.
Qed.
End seq.

(** *** Variables *)
Lemma ups_var_id L b id : ups L b b (var_id id) (λ i, idx_ok i (n_locals F) = true).
Proof.
  intros h h' i Hi Hb. unfold var_id. set (n := default id _). destruct (local_ids h !! n) as [j|] eqn:Hj.
  - intros [= <- <-]. split_and!; [done..|]. intros [Hl _ _]. eapply idx_ok_mono; [exact Hl|]. by apply (inv_locals _ _ Hi n).
  - intros [= <- <-]. assert (size (<[n := N.of_nat (size (local_ids h))]> (local_ids h)) = S (size (local_ids h))) as Hs.
    { by apply map_size_insert_None. }
    destruct Hi as [Hc Hl Hf Ha Hlf Hargc]. split_and!; [|done| |].
    + constructor; simpl; [done| |done..|].
      * intros s k. rewrite Hs. destruct (decide (s = n)) as [->|Hne].
        -- rewrite lookup_insert_eq. intros [= <-]. apply N.ltb_lt. lia.
        -- rewrite lookup_insert_ne by done. intros Hk. eapply idx_ok_mono; [|by apply (Hl s)]. lia.
      * rewrite Hs. intros HL. specialize (Hargc HL). lia.
    + constructor; simpl; rewrite ?Hs; lia.
    + intros [Hlo _ _]. simpl in Hlo. rewrite Hs in Hlo. apply N.ltb_lt. lia.
Qed.

Lemma ups_shadowed L b x : ups L b b (modify (λ h, set_shadowed (x h) h)) (λ _, True).
Proof. intros h h' [] Hi Hb [= <-]. split_and!; [|done|by constructor|done]. destruct Hi. by constructor. Qed.

Lemma ups_reserve_shadow L b : ups L b b reserve_shadow (λ i, idx_ok i (n_locals F) = true).
Proof.
  eapply ups_bind; [apply ups_gets|]. intros n. eapply ups_weaken; [|apply ups_var_id]. done.
Qed.
Lemma ups_reserve_2_shadow L b :
  ups L b b reserve_2_shadow (λ ij, idx_ok ij.1 (n_locals F) = true ∧ idx_ok ij.2 (n_locals F) = true).
Proof.
  eapply ups_bind; [apply ups_gets|]. intros n. eapply ups_bind; [apply ups_var_id|]. intros i.
  eapply ups_bind; [apply ups_var_id|]. intros j. by apply ups_ret.
Qed.
Lemma ups_register_shadow L b id : ups L b b (register_shadow_var id) (λ i, idx_ok i (n_locals F) = true).
Proof.
  eapply ups_bind; [apply ups_reserve_shadow|]. intros i. eapply ups_bind; [apply ups_shadowed|].
  intros ?. by apply ups_ret.
Qed.
Lemma ups_end_shadow L b : ups L b b end_shadow_var (λ _, True).
Proof. apply ups_shadowed. Qed.

Lemma ups_const L b name :
  ups L b b (gets (λ h, const_names h !! name h))
    (λ o, match o with Some i => idx_ok i (n_consts F) = true | None => True end).
Proof.
  intros h h' o Hi Hb [= <- <-]. split_and!; [done..|]. intros [_ Hc _].
  destruct (const_names h !! name h) as [i|] eqn:Hn; [|done]. eapply idx_ok_mono; [exact Hc|]. by apply (inv_consts _ _ Hi (name h)).
Qed.
End triple.
End logic.

(** ** Raw syntax without the two things the parser accepts and the analysis
    does not refuse, but the interpreter does not expect

    A pattern that is assigned to a variable is not an assignment itself, and
    the arguments of a function have different names; the body of a function
    is not empty, which the grammar sees to.  [tame d]: the tree is at most [d]
    levels high. *)
Section tame.
Section parts.
Variables (t : imut_raw → bool) (tp : predicate_pattern_raw → bool).

Definition t_element (e : str_lit_element_raw) : bool := match e with RLit _ => true | RExpr e => t e end.
Definition t_field (f : field_raw) : bool := match f with FieldRaw n e => forallb t_element n && t e end.
Definition t_part (p : bytes_part_raw) : bool := match p with BytesPartRaw e _ _ => t e end.
Definition t_operation (o : patch_operation_raw) : bool :=
  match o with
  | RInsert i e | RUpsert i e | RUpdate i e | RMergeField i e | RDefault i e => forallb t_element i && t e
  | RErase i => forallb t_element i
  | RCopy f g | RMove f g => forallb t_element f && forallb t_element g
  | RMergeRecord e | RDefaultRecord e => t e
  end.
Definition t_segment (s : segment_raw) : bool :=
  match s with RElement e => t e | RRange a b => t a && t b end.
Definition t_path (p : path_raw) : bool :=
  match p with
  | RExprPath e ss => t e && forallb t_segment ss
  | RLocalPath ss | REventPath ss | RStatePath ss | RMetaPath ss | RConstPath _ ss | RArgsPath ss
  | RWindowPath ss | RGroupPath ss => forallb t_segment ss
  end.
Definition t_array_element (p : array_predicate_pattern_raw) : bool :=
  match p with RAExpr e => t e | RARecord fs => forallb tp fs | RATilde _ | RAIgnore => true end.
Definition t_predicate (p : predicate_pattern_raw) : bool :=
  match p with
  | RBinEq _ e _ => t e
  | RRecordPatternEq _ fs => forallb tp fs
  | RArrayPatternEq _ es | RTuplePatternEq _ es _ => forallb t_array_element es
  | RTildeEq _ _ | RFieldPresent _ | RFieldAbsent _ => true
  end.
Definition t_plain (p : pattern_raw) : bool :=
  match p with
  | RPatRecord fs => forallb tp fs
  | RPatArray es | RPatTuple es _ => forallb t_array_element es
  | RPatExpr e => t e
  | RPatExtract _ | RPatDoNotCare => true
  | RPatAssign _ _ | RPatDefault => false
  end.
Definition t_pattern (p : pattern_raw) : bool :=
  match p with RPatDefault => true | RPatAssign _ p => t_plain p | p => t_plain p end.

Section clauses.
Context {R : Type} (te : R → bool).
Definition t_clause (c : predicate_clause_raw pattern_raw imut_raw R) : bool :=
  match c with PredicateClauseRaw p g es => t_pattern p && all_opt t g && forallb te es end.
Definition t_case (c : comprehension_case_raw imut_raw R) : bool :=
  match c with ComprehensionCaseRaw _ _ g es => all_opt t g && forallb te es end.
End clauses.

Definition t_imut (r : imut_raw) : bool :=
  match r with
  | RRecord fs => forallb t_field fs
  | RList es | RRecur es | RInvoke _ _ es => forallb t es
  | RPatch e ops => t e && forallb t_operation ops
  | RMerge a b | RBinary _ a b => t a && t b
  | RMatch e cs => t e && forallb (t_clause t) cs
  | RComprehension e cs => t e && forallb (t_case t) cs
  | RPath p | RPresent p => t_path p
  | RUnary _ e => t e
  | RLiteral _ => true
  | RString es => forallb t_element es
  | RBytes ps => forallb t_part ps
  end.
End parts.

Fixpoint tame_imut (d : nat) (r : imut_raw) : bool :=
  match d with O => false | S d => t_imut (tame_imut d) (tame_predicate d) r end
with tame_predicate (d : nat) (p : predicate_pattern_raw) : bool :=
  match d with O => false | S d => t_predicate (tame_imut d) (tame_predicate d) p end.

Fixpoint tame_expr (d : nat) (r : expr_raw) : bool :=
  match d with
  | O => false
  | S d =>
    match r with
    | XMatch e cs => tame_imut d e && forallb (t_clause (tame_imut d) (tame_predicate d) (tame_expr d)) cs
    | XAssign p e => t_path (tame_imut d) p && tame_expr d e
    | XComprehension e cs => tame_imut d e && forallb (t_case (tame_imut d) (tame_expr d)) cs
    | XDrop => true
    | XEmit e port => tame_imut d e && all_opt (tame_imut d) port
    | XImut e => tame_imut d e
    | XConst _ _ | XModule _ _ | XFnDecl _ => false
    end
  end.

Definition tame_fn (d : nat) (f : any_fn_raw) : bool :=
  match f with
  | FnNormal _ args body _ _ =>
    bool_decide (NoDup args) && negb (bool_decide (length body = 0)) && forallb (tame_expr d) body
  | FnMatch _ args cases _ _ => bool_decide (NoDup args) && tame_expr d (match_body args cases)
  end.

(** What may stand at the top of a script or of a module. *)
Fixpoint tame_top (d : nat) (r : expr_raw) : bool :=
  match d with
  | O => false
  | S d =>
    match r with
    | XModule _ es => forallb (tame_top d) es
    | XConst _ e => tame_imut d e
    | XFnDecl f => tame_fn d f
    | r => tame_expr (S d) r
    end
  end.
End tame.

Lemma forallb_elem {A} (f : A → bool) l x : forallb f l = true → x ∈ l → f x = true.
Proof. intros Hl Hx. rewrite forallb_forall in Hl. by apply Hl, list_elem_of_In. Qed.

(** ** Immutable expressions *)
Section imut.
Context `{!script_lib, !value_trait, !hash_order string, !analysis, !registries}.
Variables (limit : N) (F : scope).
Hypothesis no_aggregates : ∀ m f, find_aggr m f = None.

Definition wfI (e : imut_expr) : Prop := ev (λ d, wf_imut d F e = true).
Definition wfR (p : record_pattern) : Prop := ev (λ d, wf_rp d F p = true).
Local Abbreviation evf f := (ev (λ d, f (wf_imut d F) = true)).
Local Abbreviation evp f := (ev (λ d, f (wf_imut d F) (wf_rp d F) = true)).

Lemma wfI_step e :
  ev (λ d, wf_imut_step F (wf_imut d F) (wf_rp d F) (wf_fn d F) e = true) → wfI e.
Proof. intros He%ev_pred. eapply ev_impl; [|exact He]. by intros ? (d & -> & Hd). Qed.
Lemma wfR_step fs : evp (λ w r, forallb (wf_field w r) fs) → wfR (RecordPattern fs).
Proof. intros He%ev_pred. eapply ev_impl; [|exact He]. by intros ? (d & -> & Hd). Qed.
Lemma wfI_literal v : wfI (ILiteral v).
Proof. apply wfI_step. by apply ev_true. Qed.

Lemma ups_reduce L b e : ups F L b b (reduce limit e) (λ e', wfI e → wfI e').
Proof.
  intros h h' e' Hi Hb. unfold reduce. destruct (try_reduce _ _ e) as [x|] eqn:Hr; [|done]. intros [= <- <-].
  split_and!; [done..|]. intros _ He. eapply ev_impl; [|exact He]. intros d Hd. exact (try_reduce_wf _ _ _ _ _ _ Hd Hr).
Qed.

(** An expression that is folded once it is built. *)
Lemma ups_reduced L b (Q : imut_expr → Prop) e :
  (∀ e', (wfI e → wfI e') → Q e') → ups F L b b (reduce limit e) Q.
Proof. intros HQ. eapply ups_weaken; [|apply ups_reduce]. auto. Qed.

Lemma ups_test L b t : ups F L b b (up_test t) (λ _, True).
Proof. destruct t. by apply ups_some_or_fail. Qed.

Section parts.
Variables (up_i : imut_raw → up_m imut_expr) (t : imut_raw → bool).
Hypothesis Hup : ∀ r L b, t r = true → ups F L b b (up_i r) wfI.

(** *** Strings, fields, binary literals and patches *)
Definition wfE (e : str_lit_element) : Prop := evf (λ w, wf_str_element w e).

Lemma wfE_lit s : wfE (SLit s).
Proof. by apply ev_true. Qed.
Lemma push_element_wf es e : Forall wfE es → wfE e → Forall wfE (push_element es e).
Proof.
  intros Hes He. unfold push_element.
  assert (Forall wfE (es ++ [e])) as Happ by (apply Forall_app; auto).
  destruct e as [s|]; [|done]. unfold split_last. destruct (last es) as [[l|]|] eqn:Hl; try done.
  apply last_Some in Hl as [es' ->]. rewrite removelast_last. apply Forall_app in Hes as [Hes _].
  apply Forall_app. split; [done|]. repeat constructor. apply wfE_lit.
Qed.

Lemma ups_elements L b es new :
  forallb (t_element t) es = true →
  ups F L b b (up_elements limit up_i es new) (λ es', Forall wfE new → Forall wfE es').
Proof.
  revert new. induction es as [|[s|e] es IH]; intros new; cbn [up_elements forallb t_element]; [by intros _; apply ups_ret| |].
  - intros Hes. eapply ups_weaken; [|by apply IH].
    intros es' Hes' Hnew. apply Hes', push_element_wf; [done|apply wfE_lit].
  - intros [He Hes]%andb_true_iff. eapply ups_bind; [by apply Hup|]. intros i. eapply ups_bind; [apply ups_reduce|].
    intros i'. eapply ups_weaken; [|by apply IH]. intros es' Hes' Hi Hi' Hnew. apply Hes'.
    apply push_element_wf; [done|]. specialize (Hi Hi'). destruct i'; by first [apply wfE_lit|exact Hi].
Qed.

Lemma ups_string L b es :
  forallb (t_element t) es = true → ups F L b b (up_string limit up_i es) (λ s, evf (λ w, wf_string w s)).
Proof.
  intros Hes. eapply ups_bind; [by apply ups_elements|]. intros es'. apply ups_ret. intros Hw.
  apply ev_forallb. by apply Hw.
Qed.

Lemma ev_andb (f g h : nat → bool) :
  (∀ d, h d = f d && g d) → ev (λ d, g d = true) → ev (λ d, f d = true) → ev (λ d, h d = true).
Proof.
  intros Hh Hg Hf. eapply ev_impl; [|exact (ev_and _ _ Hf Hg)]. intros d [Hx Hy]. by rewrite Hh, Hx, Hy.
Qed.
Ltac up_bind := eapply ups_bind; [solve [eauto using ups_string]|]; intros ?.

Lemma ups_field L b f :
  t_field t f = true → ups F L b b (up_field limit up_i f) (λ f', evf (λ w, wf_record_field w f')).
Proof.
  destruct f as [n e]. simpl. intros [Hn He]%andb_true_iff. do 2 up_bind. apply ups_ret. by apply ev_andb.
Qed.

Lemma ups_part L b p : t_part t p = true → ups F L b b (up_part up_i p) (λ p', evf (λ w, wf_part w p')).
Proof.
  destruct p as [e ty bits]. simpl. intros He.
  eapply ups_bind; [by apply (ups_some_or_fail _ _ _ _ _ (λ _, True))|]. intros te.
  eapply (ups_bind _ _ _ _ _ _ _ (λ _, True)).
  { destruct bits as [z|]; [|by apply ups_ret]. destruct (_ || _); [apply ups_fail|by apply ups_ret]. }
  intros n. up_bind. apply ups_ret. auto.
Qed.

Lemma ups_operation L b o :
  t_operation t o = true → ups F L b b (up_operation limit up_i o) (λ o', evf (λ w, wf_operation w o')).
Proof.
  destruct o; simpl; intros Ht; split_wf; repeat up_bind; apply ups_ret; first [by apply ev_andb|done].
Qed.

(** *** Paths *)
Definition wfS (s : segment) : Prop := evf (λ w, wf_segment w s).
Definition wfP (p : path) : Prop := evf (λ w, wf_path F w p).

Lemma ups_segment L b s : t_segment t s = true → ups F L b b (up_segment up_i s) wfS.
Proof.
  destruct s; simpl; intros Ht; split_wf; repeat up_bind; [|apply ups_ret; by apply ev_andb].
  assert (∀ v, ups F L b b (match as_usize v with Some i => mret (SegIdx i) | None => up_fail (UpTypeConflict (type_of v)) end)
    (λ c, wfI (ILiteral v) → wfS c)) as Hv.
  { intros v. destruct (as_usize v); [|apply ups_fail]. apply ups_ret. intros _. by apply ev_true. }
  destruct a; try (apply ups_ret; done). destruct v; try apply Hv. apply ups_ret. intros _. by apply ev_true.
Qed.

Lemma ups_segments L b ss :
  forallb (t_segment t) ss = true → ups F L b b (up_vec (up_segment up_i) ss) (λ ss, Forall wfS ss).
Proof. intros Hss. apply ups_vec. intros s c Hs. apply ups_segment. by eapply forallb_elem. Qed.

Lemma wfP_of p : wf_path_base F (λ _, true) p = true → match p with ExprPath e _ _ => wfI e | _ => True end →
  Forall wfS (segments p) → wfP p.
Proof.
  intros Hb He Hs%ev_forallb. unfold wfP, wf_path.
  destruct p; try (eapply ev_impl; [|exact Hs]; intros d Hd; apply andb_true_iff; by split).
  eapply ev_impl; [|exact (ev_and _ _ He Hs)]. intros d [Hd Hd']. apply andb_true_iff. split; [|done].
  simpl in *. by rewrite Hd, Hb.
Qed.

(** Local variables are no constants. *)
Definition wfV (p : path) : Prop := wfP p ∧ match p with LocalPath _ c _ => c = false | _ => True end.

Lemma ups_path L b p : t_path t p = true → ups F L b b (up_path up_i p) wfV.
Proof.
  destruct p; simpl; intros Ht; split_wf.
  all: try (eapply ups_bind; [by apply ups_segments|]; intros ss; apply ups_ret; intros Hss; split; [by apply wfP_of|done]).
  - eapply ups_bind; [by apply ups_segments|]. intros [|[id| | |] ss]; try apply ups_fail.
    eapply ups_bind; [apply (ups_const F L b (λ h, module h ++ [id]))|]. intros [idx|].
    + apply ups_ret. intros Hi Hss. split; [|done]. apply wfP_of; [done..|]. by apply Forall_cons in Hss as [_ ?].
    + eapply ups_bind; [apply ups_var_id|]. intros idx. apply ups_ret. intros Hi _ Hss.
      split; [|done]. apply wfP_of; [done..|]. by apply Forall_cons in Hss as [_ ?].
  - eapply ups_bind; [by apply ups_segments|]. intros [|[id| | |] ss]; try apply ups_fail.
    eapply ups_bind; [apply ups_gets|]. intros name.
    eapply ups_bind; [apply (ups_const F L b (λ _, name))|]. intros [idx|]; [|apply ups_fail].
    apply ups_ret. intros Hi _ Hss. split; [|done]. apply wfP_of; [done..|]. by apply Forall_cons in Hss as [_ ?].
  - eapply ups_bind; [apply ups_reserve_shadow|]. intros var. eapply ups_bind; [by apply ups_segments|]. intros ss.
    up_bind. eapply ups_bind; [apply ups_end_shadow|]. intros ?. apply ups_ret. intros _ He Hss Hv. split; [by apply wfP_of|done].
Qed.

Lemma local_or_path_wf p : wfV p → wfI (local_or_path p).
Proof.
  intros [Hp Hv]. assert (wfI (IPath p)) as Hw by by apply wfI_step. destruct p as [|idx c ss| | | | | | |]; try done.
  destruct ss; [|done]. apply wfI_step. eapply ev_impl; [|exact Hp]. intros d. unfold wf_path. simpl. intros Hd.
  split_wf. by subst.
Qed.

(** *** Patterns *)
Variables (up_p : predicate_pattern_raw → up_m predicate_pattern) (tp : predicate_pattern_raw → bool).
Hypothesis Hup_p : ∀ p L b, tp p = true → ups F L b b (up_p p) (λ q, evp (λ w r, wf_field w r q)).

Lemma ups_record L b fs : forallb tp fs = true → ups F L b b (up_record up_p fs) wfR.
Proof.
  intros Hfs. eapply ups_bind.
  { apply (ups_vec _ _ _ (λ q, evp (λ w r, wf_field w r q))). intros x c Hx. apply Hup_p. by eapply forallb_elem. }
  intros fs'. apply ups_ret. intros Hw. apply wfR_step. by apply ev_forallb.
Qed.

Lemma ups_array_element L b p :
  t_array_element t tp p = true → ups F L b b (up_array_element up_i up_p p) (λ q, evp (λ w r, wf_element w r q)).
Proof.
  destruct p; simpl; intros Ht.
  - up_bind. by apply ups_ret.
  - eapply ups_bind; [apply ups_test|]. intros x. apply ups_ret. intros _. by apply ev_true.
  - eapply ups_bind; [by apply ups_record|]. intros rp. by apply ups_ret.
  - apply ups_ret. by apply ev_true.
Qed.

Lemma ups_array L b es :
  forallb (t_array_element t tp) es = true →
  ups F L b b (up_vec (up_array_element up_i up_p) es) (λ qs, evp (λ w r, forallb (wf_element w r) qs)).
Proof.
  intros Hes. eapply ups_weaken; [|apply (ups_vec _ _ _ (λ q, evp (λ w r, wf_element w r q)))].
  - intros qs Hqs. by apply ev_forallb.
  - intros x c Hx. apply ups_array_element. by eapply forallb_elem.
Qed.

Lemma ups_predicate_step L b p :
  t_predicate t tp p = true → ups F L b b (up_predicate_step up_i up_p p) (λ q, evp (λ w r, wf_field w r q)).
Proof.
  destruct p; simpl; intros Ht; try (apply ups_ret; by apply ev_true).
  - eapply ups_bind; [apply ups_test|]. intros x. apply ups_ret. intros _. by apply ev_true.
  - up_bind. by apply ups_ret.
  - eapply ups_bind; [by apply ups_record|]. intros rp. by apply ups_ret.
  - eapply ups_bind; [by apply ups_array|]. intros qs. by apply ups_ret.
  - eapply ups_bind; [by apply ups_array|]. intros qs. by apply ups_ret.
Qed.

Lemma ups_plain L b p :
  t_plain t tp p = true → ups F L b b (up_pattern up_i up_p p) (λ q, evp (λ w r, wf_simple_pattern w r q)).
Proof.
  destruct p; simpl; intros Ht; try done.
  - eapply ups_bind; [by apply ups_record|]. intros rp. by apply ups_ret.
  - eapply ups_bind; [by apply ups_array|]. intros qs. by apply ups_ret.
  - eapply ups_bind; [by apply ups_array|]. intros qs. by apply ups_ret.
  - up_bind. by apply ups_ret.
  - eapply ups_bind; [apply ups_test|]. intros x. apply ups_ret. intros _. by apply ev_true.
  - apply ups_ret. by apply ev_true.
Qed.

Lemma ups_pattern L b p :
  t_pattern t tp p = true →
  ups F L b b (up_pattern up_i up_p p) (λ q, evp (λ w r, wf_pattern F w r q) ∧
    match q with PatAssign idx _ => idx_ok idx (n_locals F) = true | _ => True end).
Proof.
  assert (∀ q, evp (λ w r, wf_simple_pattern w r q) → evp (λ w r, wf_pattern F w r q) ∧
    match q with PatAssign idx _ => idx_ok idx (n_locals F) = true | _ => True end) as Hs.
  { intros q [d Hq]. split; [exists d; intros d' Hd; specialize (Hq d' Hd)|specialize (Hq d ltac:(done))]; by destruct q. }
  destruct p; try (intros Ht; eapply ups_weaken; [exact Hs|by apply ups_plain]).
  - simpl. intros Ht. eapply ups_bind; [apply ups_register_shadow|]. intros idx.
    eapply ups_bind; [by apply ups_plain|]. intros q. apply ups_ret. intros Hq Hidx. split; [|done].
    eapply ev_impl; [|exact Hq]. intros d Hd. simpl. by rewrite Hidx.
  - intros _. apply ups_ret. split; [by apply ev_true|done].
Qed.

(** *** Clauses, matches and comprehensions *)
Section clauses.
Context {R E : Type} (up_e : R → up_m E) (te : R → bool) (wf_e : nat → E → bool) (rep : N → E → E)
  (is_null : E → bool).
Hypothesis Hup_e : ∀ r L b, te r = true → ups F L b b (up_e r) (λ e, ev (λ d, wf_e d e = true)).
Hypothesis Hrep : ∀ idx d e, idx_ok idx (n_locals F) = true → wf_e d e = true → wf_e d (rep idx e) = true.
Local Abbreviation wfC c :=
  (ev (λ d, wf_clause (wf_pattern F (wf_imut d F) (wf_rp d F)) (wf_imut d F) (wf_e d) c = true)).

Lemma ups_exprs L b es :
  forallb te es = true → ups F L b b (up_vec up_e es) (λ es', ev (λ d, forallb (wf_e d) es' = true)).
Proof.
  intros Hes. eapply ups_weaken; [|apply (ups_vec _ _ _ (λ e, ev (λ d, wf_e d e = true)))].
  - intros es' Hw. by apply ev_forallb.
  - intros x c Hx. apply Hup_e. by eapply forallb_elem.
Qed.

Lemma ups_guard L b g :
  all_opt t g = true → ups F L b b (up_opt up_i g) (λ g', ev (λ d, all_opt (wf_imut d F) g' = true)).
Proof.
  intros Hg. eapply ups_weaken; [|apply (ups_opt _ _ _ wfI)].
  - intros g' Hw. apply ev_opt. by destruct g'.
  - intros x ->. by apply Hup.
Qed.

Lemma split_last_wf (es : list E) es' e d :
  split_last es = Some (es', e) → forallb (wf_e d) es = true → forallb (wf_e d) es' = true ∧ wf_e d e = true.
Proof.
  unfold split_last. destruct (last es) as [x|] eqn:Hl; [|done]. apply last_Some in Hl as [l ->].
  rewrite removelast_last. intros [= <- <-]. rewrite forallb_app. simpl. intros Hw. by split_wf.
Qed.

(** The expressions of a clause, and the last of them. *)
Lemma ups_split_last L b es (R' : list E * E → Prop) :
  (∀ es' e, (ev (λ d, forallb (wf_e d) es = true) → ev (λ d, forallb (wf_e d) es' && wf_e d e = true)) →
    R' (es', e)) →
  ups F L b b (some_or_fail (split_last es) UpMissingEffector) R'.
Proof.
  intros HR. apply ups_some_or_fail. intros [es' e] Hs. apply HR. intros Hw. eapply ev_impl; [|exact Hw].
  intros d Hd. destruct (split_last_wf _ _ _ _ Hs Hd) as [-> ->]. done.
Qed.

Lemma ev_on_last idx es :
  idx_ok idx (n_locals F) = true → ev (λ d, forallb (wf_e d) es = true) →
  ev (λ d, forallb (wf_e d) (on_last (rep idx) es) = true).
Proof. intros Hidx Hes. eapply ev_impl; [|exact Hes]. intros d. apply on_last_forallb. auto. Qed.

Lemma ev_clause p g es e :
  evp (λ w r, wf_pattern F w r p) → ev (λ d, all_opt (wf_imut d F) g = true) →
  ev (λ d, forallb (wf_e d) es && wf_e d e = true) → wfC (PredicateClause p g es e).
Proof.
  intros Hp Hg He. eapply ev_impl; [|exact (ev_and _ _ Hp (ev_and _ _ Hg He))]. intros d (Hp' & Hg' & He').
  simpl. apply andb_true_iff in He' as [H1' H2']. by rewrite Hp', Hg', H1', H2'.
Qed.

Lemma ups_clause L b c :
  t_clause t tp te c = true → ups F L b b (up_clause up_i up_p up_e rep c) (λ c', wfC c').
Proof.
  destruct c as [p g es]. simpl. intros Ht. split_wf. apply ups_leaf. intros Hb.
  apply ups_gets_leaf, ups_set_leaf; [done|]. eapply ups_bind; [by apply ups_pattern|]. intros q.
  eapply ups_bind; [by apply ups_guard|]. intros g'. apply ups_set_leaf; [done|].
  eapply ups_bind; [by apply ups_exprs|]. intros es'. eapply (ups_bind _ _ _ _ _ _ _ (λ _, True)).
  { destruct q; simpl; first [apply ups_end_shadow|by apply ups_ret]. }
  intros ?. eapply ups_bind.
  { apply (ups_split_last _ _ _ (λ x,
      ev (λ d, forallb (wf_e d) match q with PatAssign idx _ => on_last (rep idx) es' | _ => es' end = true) →
      ev (λ d, forallb (wf_e d) x.1 && wf_e d x.2 = true))). auto. }
  intros [es1 e]. apply ups_ret. intros Hlast _ Hes Hg [Hp Hidx]. apply ev_clause; [done..|]. apply Hlast.
  destruct q; try done. by apply ev_on_last.
Qed.

Lemma ups_match L b e cs :
  t e = true → forallb (t_clause t tp te) cs = true →
  ups F L b b (up_match up_i up_p up_e rep is_null e cs) (λ m, wfI m.1 ∧
    ev (λ d, forallb (wf_group (wf_pattern F (wf_imut d F) (wf_rp d F)) (wf_imut d F) (wf_segments (wf_imut d F))
      (wf_e d) false) m.2.1 = true ∧ wf_default (wf_e d) m.2.2 = true)).
Proof.
  intros He Hcs. eapply ups_bind.
  { apply (ups_each _ _ _ (λ c', wfC c')). intros c Hc. apply ups_clause. by eapply forallb_elem. }
  intros cs'. eapply ups_bind; [by apply Hup|]. intros e'. apply ups_ret. intros He' Hcs'. split; [done|].
  apply ev_forallb, ev_succ, ev_pred in Hcs'. eapply ev_impl; [|exact Hcs'].
  intros ? (d & -> & Hd). by apply match_up_wf.
Qed.

Lemma ups_case L b c :
  t_case t te c = true →
  ups F L b b (up_case up_i up_e rep c) (λ c', ev (λ d, wf_case (wf_imut d F) (wf_e d) c' = true)).
Proof.
  destruct c as [k v g es]. simpl. intros Ht. split_wf.
  eapply ups_bind; [apply ups_register_shadow|]. intros ki. eapply ups_bind; [apply ups_register_shadow|]. intros vi.
  eapply ups_bind; [by apply ups_guard|]. intros g'. eapply ups_bind; [by apply ups_exprs|]. intros es'.
  eapply ups_bind; [apply ups_end_shadow|]. intros ?. eapply ups_bind; [apply ups_end_shadow|]. intros ?.
  eapply ups_bind.
  { apply (ups_split_last _ _ _ (λ x, ev (λ d, forallb (wf_e d) (on_last (rep vi) (on_last (rep ki) es')) = true) →
      ev (λ d, forallb (wf_e d) x.1 && wf_e d x.2 = true))). auto. }
  intros [es1 e]. apply ups_ret. intros Hlast _ _ Hes Hg Hvi Hki.
  assert (ev (λ d, forallb (wf_e d) es1 && wf_e d e = true)) as Hev.
  { apply Hlast, ev_on_last; [done|]. by apply ev_on_last. }
  eapply ev_impl; [|exact (ev_and _ _ Hg Hev)]. intros d [Hg' [He1 He2]%andb_true_iff]. simpl. by rewrite Hg', He1, He2.
Qed.

Lemma ups_comprehension L b e cs :
  t e = true → forallb (t_case t te) cs = true →
  ups F L b b (up_comprehension up_i up_e rep e cs) (λ c,
    (idx_ok c.1.1.1 (n_locals F) = true ∧ idx_ok c.1.1.2 (n_locals F) = true) ∧ wfI c.1.2 ∧
    ev (λ d, forallb (wf_case (wf_imut d F) (wf_e d)) c.2 = true)).
Proof.
  intros He Hcs. eapply ups_bind; [by apply Hup|]. intros e'. eapply ups_bind; [apply ups_reserve_2_shadow|].
  intros ids. eapply ups_bind.
  { apply (ups_vec _ _ _ (λ c', ev (λ d, wf_case (wf_imut d F) (wf_e d) c' = true))).
    intros x c Hx. apply ups_case. by eapply forallb_elem. }
  intros cs'. apply ups_ret. intros Hcs' Hids He'. split_and!; [apply Hids..|done|by apply ev_forallb].
Qed.
End clauses.

(** *** Calls and recursions *)
Lemma ups_fn_of L b name :
  ups F L b b (gets (λ h, functions h !! name h ≫= λ i, func_vec h !! N.to_nat i))
    (λ o, match o with Some f => ev (λ d, wf_fn d F f = true) | None => True end).
Proof.
  intros h h' o Hi Hb [= <- <-]. split_and!; [done..|]. intros [_ Hc _].
  destruct (functions h !! name h) as [i|]; [|done]. simpl. destruct (func_vec h !! N.to_nat i) as [f|] eqn:Hf; [|done].
  apply (Forall_lookup_1 _ _ _ _ (inv_fns _ _ Hi)) in Hf as [d Hd]. exists d. intros d' Hd'.
  eapply wf_fn_mono; [done| |exact Hd]. constructor; simpl in *; lia.
Qed.

Lemma ups_args L b es :
  forallb t es = true → ups F L b b (up_vec up_i es) (λ es', ev (λ d, forallb (wf_imut d F) es' = true)).
Proof.
  intros Hes. eapply ups_weaken; [|apply (ups_vec _ _ _ wfI)].
  - intros es' Hw. by apply ev_forallb.
  - intros x c Hx. apply Hup. by eapply forallb_elem.
Qed.

Lemma ups_invoke L b m f args :
  forallb t args = true →
  ups F L b b (up_invoke up_i m f args) (λ i, ev (λ d, match i with Invoke f args =>
    wf_invocable (wf_fn d F) f = true ∧ forallb (wf_imut d F) args = true end)).
Proof.
  intros Ha. assert (∀ m, ups F L b b
    (fn ← gets (λ h, functions h !! (module h ++ m ++ [f]) ≫= λ i, func_vec h !! N.to_nat i);
     fn ← some_or_fail fn (UpMissingFunction m f);
     args ← up_vec up_i args;
     mret (Invoke (Tremor fn) args)) (λ i, ev (λ d, match i with Invoke f args =>
    wf_invocable (wf_fn d F) f = true ∧ forallb (wf_imut d F) args = true end))) as Htremor.
  { intros m'. eapply ups_bind; [apply (ups_fn_of L b (λ h, module h ++ m' ++ [f]))|]. intros o.
    eapply ups_bind; [apply (ups_some_or_fail _ _ _ _ _ (λ f, o = Some f)); auto|]. intros fn.
    eapply ups_bind; [by apply ups_args|]. intros args'. apply ups_ret. intros Ha' -> Hfn. by apply ev_and. }
  assert (∀ m, ups F L b b
    (fn ← some_or_fail (find_fn m f) (UpMissingFunction ["core"%string; m] f);
     args ← up_vec up_i args; mret (Invoke (Intrinsic fn) args)) (λ i, ev (λ d, match i with Invoke f args =>
    wf_invocable (wf_fn d F) f = true ∧ forallb (wf_imut d F) args = true end))) as Hintrinsic.
  { intros m'. eapply ups_bind; [by apply (ups_some_or_fail _ _ _ _ _ (λ _, True))|]. intros fn.
    eapply ups_bind; [by apply ups_args|]. intros args'. apply ups_ret. intros Ha' _.
    eapply ev_impl; [|exact Ha']. intros d Hd. by split. }
  unfold up_invoke. repeat case_match; auto.
Qed.

Lemma ups_argc b : ups F true b b (gets fn_argc) (λ argc, N.to_nat argc ≤ n_locals F).
Proof.
  intros h h' a Hi Hb [= <- <-]. split_and!; [done..|]. intros [Hl _ _]. pose proof (inv_argc _ _ Hi eq_refl).
  simpl in Hl. lia.
Qed.

Lemma ups_recur L b es : forallb t es = true → ups F L b b (up_recur up_i es) wfI.
Proof.
  intros Hes. apply ups_leaf. intros HL. unfold up_recur. apply ups_gets_leaf, ups_set_leaf; [done|].
  destruct b; [|apply ups_fail]. rewrite (HL eq_refl). simpl. eapply ups_bind; [apply ups_argc|]. intros argc.
  eapply ups_bind; [apply ups_gets|]. intros open. destruct (if open then _ else _); [apply ups_fail|].
  eapply ups_bind; [by apply ups_args|]. intros es'. apply ups_set_leaf; [done|]. apply ups_ret.
  intros Hes' _ Hargc. apply wfI_step. eapply ev_impl; [|exact Hes']. intros d Hd. simpl. rewrite Hd.
  apply andb_true_iff. split; [|done]. apply Nat.leb_le. lia.
Qed.

Lemma ups_call L b m f args (Ha : forallb t args = true) :
  ups F L b b (i ← up_invoke up_i m f args; h ← gets id;
    match build_call (const_values h) limit i with SOk e => mret e | SErr x => up_fail (UpEval x) end) wfI.
Proof.
  eapply ups_bind; [by apply ups_invoke|]. intros [g args']. eapply ups_bind; [apply ups_gets|]. intros h.
  destruct (build_call _ _ _) as [e|] eqn:He; [|apply ups_fail]. apply ups_ret. intros _ Hi%ev_pred.
  eapply ev_impl; [|exact (ev_and _ _ Hi (ev_true (λ _, True) (λ _, I)))].
  intros ? [(d & -> & Hg & Hargs) _]. by eapply build_call_wf.
Qed.

(** *** An expression, from its parts *)
Lemma up_branch_ok L b r :
  t_imut t tp r = true → (b = true → L = true) → ups F L b b (up_imut_step limit up_i up_p r) wfI.
Proof.
  intros Ht HL. unfold up_imut_step. apply ups_gets_leaf, ups_set_leaf; [done|].
  assert (∀ (m : up_m imut_expr) c, ups F L false c m wfI →
    ups F L false b (m ≫= λ e, modify (set_leaf b);; mret e) wfI) as Hm.
  { intros m c Hmc. eapply ups_bind; [done|]. intros e. apply ups_set_leaf; [done|]. by apply ups_ret. }
  destruct r; simpl in Ht; split_wf.
  - eapply Hm, ups_bind; [apply (ups_vec _ _ _ (λ f, evf (λ w, wf_record_field w f)))|].
    { intros x c Hx. apply ups_field. by eapply forallb_elem. }
    intros fs. apply ups_reduced. intros e He Hfs. by apply He, wfI_step, ev_forallb.
  - eapply Hm, ups_bind; [by apply ups_args|]. intros es. apply ups_reduced. intros e He Hes. by apply He, wfI_step.
  - eapply Hm, ups_bind; [apply (ups_vec _ _ _ (λ o, evf (λ w, wf_operation w o)))|].
    { intros x c Hx. apply ups_operation. by eapply forallb_elem. }
    intros ops. up_bind. apply ups_reduced. intros e He Hb' Hops%ev_forallb. by apply He, wfI_step, ev_andb with (1 := λ _, eq_refl).
  - eapply Hm. do 2 up_bind. apply ups_reduced. intros e He Hb' Ha'. by apply He, wfI_step, ev_andb with (1 := λ _, eq_refl).
  - eapply Hm, ups_set_leaf; [done|]. eapply ups_bind.
    { apply (ups_match up_i t (λ d, wf_imut d F)); [done| |done..]. intros. by apply replace_last_imut_wf. }
    intros m. apply ups_ret. intros [Hte Hgs]. apply wfI_step. eapply ev_impl; [|exact (ev_and _ _ Hte Hgs)].
    intros d (H1' & H2' & H3'). simpl. by rewrite H1', H2', H3'.
  - eapply Hm, ups_bind.
    { apply (ups_comprehension up_i t (λ d, wf_imut d F)); [done| |done..]. intros. by apply replace_last_imut_wf. }
    intros c. apply ups_ret. intros ([Hk Hv] & Hte & Hcs). apply wfI_step. eapply ev_impl; [|exact (ev_and _ _ Hte Hcs)].
    intros d [H1' H2']. simpl. by rewrite Hk, Hv, H1', H2'.
  - eapply Hm, ups_bind; [by apply ups_path|]. intros p'. apply ups_reduced. intros e He Hp. by apply He, local_or_path_wf.
  - eapply Hm. do 2 up_bind. apply ups_reduced. intros e He Hb' Ha'. by apply He, wfI_step, ev_andb with (1 := λ _, eq_refl).
  - eapply Hm. up_bind. apply ups_reduced. intros e He Ha'. by apply He, wfI_step.
  - eapply Hm, ups_reduced. intros e He. apply He, wfI_literal.
  - eapply Hm. destruct (is_aggregate _ _) eqn:Ha; [|by apply ups_call].
    unfold is_aggregate in Ha. repeat case_match; try done. by rewrite no_aggregates in Ha.
  - eapply Hm, ups_bind; [by apply ups_path|]. intros p'. apply ups_reduced. intros e He [Hp _]. by apply He, wfI_step.
  - eapply Hm, ups_bind; [by apply ups_string|]. intros s'. apply ups_reduced. intros e He Hs. by apply He, wfI_step.
  - eapply Hm, ups_set_leaf; [done|]. by apply ups_recur.
  - eapply Hm, ups_bind; [apply (ups_each _ _ _ (λ p, evf (λ w, wf_part w p)))|].
    { intros x Hx. apply ups_part. by eapply forallb_elem. }
    intros ps. apply ups_reduced. intros e He Hps. by apply He, wfI_step, ev_forallb.
Qed.
End parts.

Lemma ups_imut d :
  (∀ r L b, tame_imut d r = true → ups F L b b (up_imut limit r) wfI) ∧
  (∀ p L b, tame_predicate d p = true → ups F L b b (up_predicate limit p) (λ q, evp (λ w r, wf_field w r q))).
Proof.
  induction d as [|d [IHi IHp]]; [done|]. split.
  - intros r L b Hr. rewrite up_imut_eq. apply ups_leaf. intros HL. by eapply up_branch_ok.
  - intros p L b Hp. rewrite up_predicate_eq. by eapply ups_predicate_step.
Qed.
End imut.

(** ** Expressions *)
Section exprs.
Context `{!script_lib, !value_trait, !hash_order string, !analysis, !registries}.
Variable limit : N.
Hypothesis no_aggregates : ∀ m f, find_aggr m f = None.

Section scope.
Variable F : scope.
Definition wfX (e : expr) : Prop := ev (λ d, wf_expr d F e = true).

Lemma wfX_step e : ev (λ d, wf_expr_step F (wf_imut d F) (wf_rp d F) (wf_expr d F) e = true) → wfX e.
Proof. intros He%ev_pred. eapply ev_impl; [|exact He]. by intros ? (d & -> & Hd). Qed.

Lemma match_or_if_wf t cgs de :
  wfI F t → ev (λ d, forallb (wf_group (wf_pattern F (wf_imut d F) (wf_rp d F)) (wf_imut d F)
    (wf_segments (wf_imut d F)) (wf_expr d F) false) cgs = true ∧ wf_default (wf_expr d F) de = true) →
  wfX (match_or_if t cgs de).
Proof.
  intros Ht Hm. apply wfX_step. eapply ev_impl; [|exact (ev_and _ _ Ht Hm)]. intros d (Ht' & Hg & Hd).
  assert (wf_expr_step F (wf_imut d F) (wf_rp d F) (wf_expr d F) (EMatch t cgs de) = true) as Hw.
  { simpl. by rewrite Ht', Hg, Hd. }
  unfold match_or_if. repeat case_match; try exact Hw. simplify_eq.
  simpl in *. split_wf; done.
Qed.

Lemma ups_expr d r L b : tame_expr d r = true → ups F L b b (up_expr limit r) wfX.
Proof.
  revert r L b. induction d as [|d IH]; intros r L b; [done|].
  destruct (ups_imut limit F no_aggregates d) as [Hi Hp].
  destruct r; cbn [tame_expr up_expr]; intros Ht; split_wf; try done.
  - eapply ups_bind.
    { apply (ups_match F _ _ Hi _ _ Hp (up_expr limit) (tame_expr d) (λ d, wf_expr d F)); [done| |done..].
      intros. by apply replace_last_wf. }
    intros m. apply ups_ret. intros [Ht' Hm]. by apply match_or_if_wf.
  - eapply ups_bind; [by eapply ups_path|]. intros p'. eapply ups_bind; [by apply IH|]. intros e'. apply ups_ret.
    intros He [Hp' _]. apply wfX_step. eapply ev_impl; [|exact (ev_and _ _ Hp' He)]. intros k [H1' H2'].
    simpl. by rewrite H1', H2'.
  - eapply ups_bind.
    { apply (ups_comprehension F _ _ Hi (up_expr limit) (tame_expr d) (λ d, wf_expr d F)); [done| |done..].
      intros. by apply replace_last_wf. }
    intros c. apply ups_ret. intros ([Hk Hv] & Ht' & Hcs). apply wfX_step.
    eapply ev_impl; [|exact (ev_and _ _ Ht' Hcs)]. intros k [H1' H2']. simpl. by rewrite Hk, Hv, H1', H2'.
  - eapply ups_bind; [apply ups_gets|]. intros []; [|apply ups_fail]. apply ups_ret. intros _. apply wfX_step.
    by apply ev_true.
  - eapply ups_bind; [apply ups_gets|]. intros []; [|apply ups_fail]. eapply ups_bind; [by apply Hi|]. intros e'.
    eapply ups_bind; [by eapply ups_guard|]. intros port'. apply ups_ret. intros Hport He _. apply wfX_step.
    eapply ev_impl; [|exact (ev_and _ _ He Hport)]. intros k [H1' H2']. simpl. by rewrite H1', H2'.
  - eapply ups_bind; [by apply Hi|]. intros e'. apply ups_ret. intros He. by apply wfX_step.
Qed.

Lemma ups_body d rs L b :
  forallb (tame_expr d) rs = true → ups F L b b (up_vec (up_expr limit) rs) (λ es, ev (λ d, forallb (wf_expr d F) es = true)).
Proof.
  intros Hrs. eapply ups_weaken; [|apply (ups_vec _ _ _ wfX)].
  - intros es Hes. by apply ev_forallb.
  - intros x c Hx. eapply ups_expr. by eapply forallb_elem.
Qed.
End scope.

(** ** Functions *)
Lemma arg_locals_spec args :
  NoDup args → size (arg_locals args) = length args ∧
  ∀ s i, arg_locals args !! s = Some i → (i < N.of_nat (length args))%N.
Proof.
  unfold arg_locals. intros Hnd.
  assert (∀ n (m : gmap string N), (∀ a, a ∈ args → m !! a = None) →
    let m' := (foldl (λ '(i, m) a, ((i + 1)%N, <[a := i]> m)) (n, m) args).2 in
    size m' = size m + length args ∧
    ∀ s i, m' !! s = Some i → m !! s = Some i ∨ (n ≤ i < n + N.of_nat (length args))%N) as Hgen.
  { induction Hnd as [|a args Ha Hnd IH]; intros n m Hm; simpl; [split; [lia|auto]|].
    destruct (IH (n + 1)%N (<[a := n]> m)) as [Hs Hl].
    { intros a' Ha'. rewrite lookup_insert_ne by (by intros ->). apply Hm. by right. }
    split; [rewrite Hs, map_size_insert_None by (apply Hm; left); lia|].
    intros s i Hi. destruct (Hl s i Hi) as [Hx|Hx]; [|right; lia].
    destruct (decide (s = a)) as [->|Hne]; [rewrite lookup_insert_eq in Hx; injection Hx as <-; right; lia|].
    rewrite lookup_insert_ne in Hx by done. by left. }
  destruct (Hgen 0%N ∅) as [Hs Hl]; [done|]. split; [by rewrite Hs, map_size_empty|].
  intros s i Hi. destruct (Hl s i Hi) as [Hx|Hx]; [done|lia].
Qed.

(** Outside of functions. *)
Definition outside (h h' : helper) : Prop :=
  inv false h' ∧ possible_leaf h' = false ∧ larger (scope_of h) (scope_of h').

Lemma up_fn_ok args open body h h' bd n (wf_bd : scope → list expr → Prop) :
  inv false h → possible_leaf h = false → NoDup args →
  (∀ F, ups F true true true body (wf_bd F)) →
  up_fn args open body h = (h', UOk (bd, n)) →
  outside h h' ∧ wf_bd (Scope (N.to_nat n) (length (const_values h')) 0) bd.
Proof.
  intros Hi Hb Hnd Hbody.
  set (h1 := set_leaf true (swap [] (arg_locals args) (enter_fn (N.of_nat (length args)) open h))).
  assert (up_fn args open body h = match body h1 with
    | (h2, UOk es) => (set_can_emit (can_emit h) (swap (aggregates h) (local_ids h) (set_leaf false h2)),
        UOk (es, N.of_nat (size (local_ids h2))))
    | (h2, UErr e) => (h2, UErr e)
    end) as ->.
  { unfold up_fn, mbind, up_bind, modify, gets. fold h1. by destruct (body h1) as [? []]. }
  destruct (body h1) as [h2 [es|e]] eqn:Hr; [|done]. intros [= <- <- <-].
  destruct (arg_locals_spec args Hnd) as [Hsize Hidx]. destruct Hi as [Hc Hl Hf Ha Hlf Hargc].
  assert (inv true h1) as Hi1.
  { constructor; simpl; try done.
    - intros s i Hs. apply N.ltb_lt. rewrite Hsize. eauto.
    - intros _. rewrite Hsize. lia. }
  destruct (Hbody (scope_of h2) h1 h2 es Hi1 eq_refl Hr) as (Hi2 & _ & [_ Hlc _] & Hw).
  destruct Hi2 as [Hc2 Hl2 Hf2 Ha2 Hlf2 Hargc2]. split; [split_and!|].
  - constructor; simpl; done.
  - done.
  - constructor; simpl in *; lia.
  - simpl. rewrite Nat2N.id. by apply Hw.
Qed.

Lemma up_leaf_length {A B} (up : A → up_m B) c l h h' ys : up_leaf up c l h = (h', UOk ys) → length ys = length l.
Proof.
  revert h ys. induction l as [|x [|x' l] IH]; intros h ys.
  - by intros [= _ <-].
  - cbn [up_leaf]. unfold mbind, up_bind, modify. destruct (up x (set_leaf c h)) as [h1 [y|]]; [|done].
    by intros [= _ <-].
  - change (up_leaf up c (x :: x' :: l) h) with ((y ← up x; ys ← up_leaf up c (x' :: l); mret (y :: ys)) h).
    unfold mbind, up_bind. destruct (up x h) as [h1 [y|]]; [|done].
    destruct (up_leaf up c (x' :: l) h1) as [h2 [zs|]] eqn:Hz; [|done]. intros [= <- <-]. simpl. f_equal. by eapply IH.
Qed.
Lemma up_vec_length {A B} (up : A → up_m B) l h h' ys : up_vec up l h = (h', UOk ys) → length ys = length l.
Proof. destruct l as [|x l]; [by intros [= _ <-]|]. apply up_leaf_length. Qed.

(** Declaring something keeps the promises made so far. *)
Lemma outside_trans h1 h2 h3 : outside h1 h2 → outside h2 h3 → outside h1 h3.
Proof. intros (_ & _ & Hl1) (Hi & Hb & Hl2). split_and!; [done..|by etrans]. Qed.

Lemma inv_fn_grows b h f d :
  inv b h → wf_fn d (Scope 0 (length (const_values h)) 0) f = true → ∀ fs, inv b (set_functions (func_vec h ++ [f]) fs h).
Proof.
  intros [] Hf fs. constructor; simpl; try done. apply Forall_app. split; [done|]. repeat constructor. by exists d.
Qed.

Lemma tame_fn_ok d f h h' name fn :
  tame_fn d f = true → inv false h → possible_leaf h = false → up_any_fn limit f h = (h', UOk (name, fn)) →
  outside h h' ∧ ∃ d', wf_fn d' (Scope 0 (length (const_values h')) 0) fn = true.
Proof.
  set (Q F (es : list expr) := es ≠ [] ∧ ev (λ d, forallb (wf_expr d F) es = true)).
  intros Ht Hi Hb. assert (∀ args open body inline, NoDup args → (∀ F, ups F true true true body (Q F)) →
    ∀ r, (b ← up_fn args open body; mret (name, CustomFn b.1 (N.of_nat (length args)) b.2 false inline)) h = (h', UOk r) →
    outside h h' ∧ ∃ d', wf_fn d' (Scope 0 (length (const_values h')) 0) r.2 = true) as Hfn.
  { intros args open body inline Hnd Hbody r. unfold mbind, up_bind.
    destruct (up_fn args open body h) as [h1 [[bd n]|e]] eqn:Hu; [|done]. intros [= <- <-].
    destruct (up_fn_ok args open body h h1 bd n Q Hi Hb Hnd Hbody Hu) as [Ho [Hne [d' Hd']]]. split; [done|].
    exists (S d'). simpl. rewrite (Hd' d') by done. by destruct bd. }
  destruct f as [nm args cases open inline|nm args body open inline]; simpl in Ht; split_wf; intros Hu;
    pose proof Hu as Hu'; cbn [up_any_fn] in Hu'.
  - assert (nm = name) as ->.
    { unfold mbind, up_bind in Hu'. destruct (up_fn _ _ _ _) as [? []]; [|done]. by injection Hu'. }
    apply (Hfn args open _ inline) in Hu; [done|by apply bool_decide_eq_true_1 in H3|]. intros F.
    eapply ups_bind; [by apply (ups_expr F d)|]. intros e. apply ups_ret. intros He. split; [done|].
    eapply ev_impl; [|exact He]. intros k Hk. simpl. by rewrite Hk.
  - assert (nm = name) as ->.
    { unfold mbind, up_bind in Hu'. destruct (up_fn _ _ _ _) as [? []]; [|done]. by injection Hu'. }
    apply (Hfn args open _ inline) in Hu; [done|by apply bool_decide_eq_true_1 in H3|]. intros F.
    intros h1 h2 es Hi1 Hb1 Hr. destruct (ups_body F d body true true) with (h := h1) (h' := h2) (a := es)
      as (? & ? & ? & Hw); [done..|]. split_and!; [done..|]. intros HF. split; [|by apply Hw].
    intros ->. apply up_vec_length in Hr. by destruct body.
Qed.

(** ** Modules and scripts *)
Definition outs {A} (m : up_m A) (Q : scope → A → Prop) : Prop := ∀ h h' a,
  inv false h → possible_leaf h = false → m h = (h', UOk a) → outside h h' ∧ ∀ F, larger (scope_of h') F → Q F a.

Lemma outs_of_ups {A} (m : up_m A) Q : (∀ F, ups F false false false m (Q F)) → outs m Q.
Proof.
  intros Hm h h' a Hi Hb Hr. split; [|by intros F; apply (Hm F h h' a)].
  destruct (Hm (scope_of h') h h' a Hi Hb Hr) as (? & ? & ? & _). done.
Qed.

Lemma outs_bind {A B} (m : up_m A) (f : A → up_m B) Q R :
  outs m Q → (∀ a, outs (f a) (λ F b, Q F a → R F b)) → outs (m ≫= f) R.
Proof.
  intros Hm Hf h h' c Hi Hb. unfold mbind, up_bind. destruct (m h) as [h1 [a|e]] eqn:Hmh; [|done].
  intros Hfh. destruct (Hm h h1 a Hi Hb Hmh) as [Ho HQ]. destruct Ho as (Hi1 & Hb1 & Hl1).
  destruct (Hf a h1 h' c Hi1 Hb1 Hfh) as [Ho' HR]. split; [by eapply outside_trans|].
  intros F HF. apply HR; [done|]. apply HQ. destruct Ho' as (_ & _ & Hl2). by etrans.
Qed.

Lemma outs_ret {A} (a : A) (Q : scope → A → Prop) : (∀ F, Q F a) → outs (mret a) Q.
Proof. intros HQ. apply outs_of_ups. intros F. by apply ups_ret. Qed.
Lemma outs_weaken {A} (m : up_m A) (Q R : scope → A → Prop) : (∀ F a, Q F a → R F a) → outs m Q → outs m R.
Proof. intros HQR Hm h h' a Hi Hb Hr. destruct (Hm h h' a Hi Hb Hr) as [Ho HQ]. split; auto. Qed.
Lemma outs_fail {A} e (Q : scope → A → Prop) : outs (up_fail e) Q.
Proof. by intros h h' a Hi Hb [=]. Qed.

Lemma outs_imut d e : tame_imut d e = true → outs (up_imut limit e) (λ F e', wfI F e').
Proof. intros He. apply outs_of_ups. intros F. by eapply ups_imut. Qed.

Lemma outs_into_value e : outs (into_value e) (λ _ _, True).
Proof. apply outs_of_ups. intros F. by apply ups_some_or_fail. Qed.

Lemma outs_module f : outs (modify (λ h, set_module (f h) h)) (λ _ _, True).
Proof.
  intros h h' [] Hi Hb [= <-]. split; [|done]. split_and!; [|done|by constructor]. destruct Hi. by constructor.
Qed.

Lemma outs_insert_const name path v : outs (insert_const name path v) (λ F i, idx_ok i (n_consts F) = true).
Proof.
  intros h h' i Hi Hb. unfold insert_const. destruct (const_names h !! path) eqn:Hn; [done|]. intros [= <- <-].
  destruct Hi as [Hc Hl Hf Ha Hlf Hargc]. split; [split_and!|].
  - constructor; simpl; rewrite ?length_app; simpl; try done.
    + intros n i. destruct (decide (n = path)) as [->|Hne].
      * rewrite lookup_insert_eq. intros [= <-]. apply N.ltb_lt. lia.
      * rewrite lookup_insert_ne by done. intros Hi. eapply idx_ok_mono; [|by eapply Hc]. lia.
    + eapply Forall_impl; [exact Hf|]. intros f [d Hd]. exists d.
      eapply wf_fn_mono; [done| |exact Hd]. constructor; simpl; lia.
  - done.
  - constructor; simpl; rewrite ?length_app; lia.
  - intros F [_ HF _]. simpl in HF. rewrite length_app in HF. simpl in HF. apply N.ltb_lt. lia.
Qed.

Lemma outs_define_fn d f : tame_fn d f = true → outs (define_fn limit f) (λ _ _, True).
Proof.
  intros Ht h h' [] Hi Hb. unfold define_fn, mbind, up_bind.
  destruct (up_any_fn limit f h) as [h1 [[name fn]|e]] eqn:Hu; [|done].
  destruct (tame_fn_ok _ _ _ _ _ _ Ht Hi Hb Hu) as [Ho [d' Hd']]. unfold register_fun.
  destruct (functions h1 !! _); [done|]. intros [= <-]. split; [|done]. eapply outside_trans; [exact Ho|].
  destruct Ho as (Hi1 & Hb1 & _). split_and!; [by eapply inv_fn_grows|done|by constructor].
Qed.

Lemma outs_define d r : tame_top d r = true → outs (define limit r) (λ _ _, True).
Proof.
  revert r. induction d as [|d IH]; intros r; [done|]. destruct r; cbn [tame_top define]; intros Ht; try apply outs_fail.
  - eapply outs_bind; [by apply outs_of_ups; intros F; apply ups_gets|]. intros path.
    eapply outs_bind; [by eapply outs_imut|]. intros e. eapply outs_bind; [apply outs_into_value|]. intros v.
    eapply outs_bind; [apply outs_insert_const|]. intros i. by apply outs_ret.
  - eapply outs_bind; [apply outs_module|]. intros ?. eapply (outs_bind _ _ (λ _ _, True)).
    2: { intros ?. eapply outs_weaken; [|apply outs_module]. done. }
    clear -IH Ht. induction exprs as [|e es IHes]; simpl in *; [by apply outs_ret|]. split_wf.
    eapply outs_bind; [by apply IH|]. intros ?. eapply outs_bind; [by apply IHes|]. intros ?. by apply outs_ret.
  - by eapply outs_define_fn.
Qed.

Lemma outs_top d b r :
  tame_top d r = true → outs (up_top limit b r) (λ F es, ev (λ d, forallb (wf_expr d F) es = true)).
Proof.
  intros Ht. assert (tame_expr d r = true →
    outs (e ← up_expr limit r; mret [e]) (λ F es, ev (λ d, forallb (wf_expr d F) es = true))) as He.
  { intros He. apply outs_of_ups. intros F. eapply ups_bind; [by eapply ups_expr|]. intros e. apply ups_ret.
    intros Hw. eapply ev_impl; [|exact Hw]. intros k Hk. simpl. by rewrite Hk. }
  destruct d as [|d]; [done|]. destruct r; try (apply He; exact Ht).
  - cbn [tame_top] in Ht. cbn [up_top]. eapply outs_bind; [by eapply outs_imut|]. intros e.
    eapply (outs_bind _ _ (λ F e, True)).
    { apply outs_of_ups. intros F. eapply ups_weaken; [|apply ups_reduce]. done. }
    intros e'. eapply outs_bind; [apply outs_into_value|]. intros v. eapply outs_bind; [apply outs_insert_const|].
    intros i. apply outs_ret. intros F Hidx _ _ _. destruct b; [|by apply ev_true].
    exists 2. intros [|[|k]] Hk; [lia..|]. simpl. by rewrite Hidx.
  - eapply outs_bind; [by apply (outs_define (S d))|]. intros ?. apply outs_ret. intros F _. by apply ev_true.
  - eapply outs_bind; [by apply (outs_define_fn d)|]. intros ?. apply outs_ret. intros F _. by apply ev_true.
Qed.

Lemma outs_tops d rs :
  forallb (tame_top d) rs = true → outs (up_tops limit rs) (λ F es, ev (λ d, forallb (wf_expr d F) es = true)).
Proof.
  induction rs as [|r rs IH]; simpl; intros Ht; [apply outs_ret; intros F; by apply ev_true|]. split_wf.
  eapply outs_bind; [by eapply outs_top|]. intros es. eapply outs_bind; [by apply IH|]. intros es'.
  apply outs_ret. intros F Hes' Hes. eapply ev_impl; [|exact (ev_and _ _ Hes Hes')]. intros k [H1' H2'].
  by rewrite forallb_app, H1', H2'.
Qed.

Lemma emit_last_wf d F es :
  forallb (wf_expr (S (S d)) F) es = true → emit_last es ≠ [] ∧ forallb (wf_expr (S (S d)) F) (emit_last es) = true.
Proof.
  intros Hes. unfold emit_last, split_last. destruct (last es) as [e|] eqn:Hl; [|done].
  apply last_Some in Hl as [es' ->]. rewrite removelast_last. rewrite forallb_app in Hes.
  assert (es' ++ [e] ≠ [] ∧ forallb (wf_expr (S (S d)) F) (es' ++ [e]) = true) as Hsame.
  { split; [by destruct es'|]. by rewrite forallb_app. }
  repeat case_match; try exact Hsame. split; [by destruct es'|]. rewrite forallb_app. apply andb_true_iff in Hes as [-> _].
  done.
Qed.

Lemma new_helper_inv : inv false new_helper.
Proof. by constructor. Qed.

(** What the front end accepts is well formed. *)
Lemma build_script_wf d rs sc :
  forallb (tame_top d) rs = true → build_script limit rs = UOk sc →
  sc_aggregates sc = [] ∧ ∃ d', wf_script d' sc = true.
Proof.
  intros Ht. unfold build_script, up_script, mbind, up_bind, gets.
  destruct (up_tops limit rs new_helper) as [h [es|e]] eqn:Hr; [|done]. intros [= <-]. simpl.
  destruct (outs_tops d rs Ht new_helper h es new_helper_inv eq_refl Hr) as [(Hi & _ & _) Hw].
  rewrite (inv_aggrs _ _ Hi). split; [done|]. destruct (Hw (scope_of h)) as [k Hk]; [reflexivity|].
  exists (S (S k)). unfold wf_script, script_scope. simpl sc_exprs. simpl sc_locals. simpl sc_consts. simpl sc_aggregates.
  rewrite Nat2N.id. destruct (emit_last_wf k (scope_of h) es) as [Hne Hes].
  { apply Hk. lia. }
  apply andb_true_iff. split; [by destruct (emit_last es)|exact Hes].
Qed.
End exprs.

(** Scripts from their raw syntax to their result: no accepted script fails
    with an internal error, and examples of what the analysis accepts. *)

Section run.
Context `{!script_lib, !value_trait, !hash_order string, !analysis, !registries}.
Hypothesis no_aggregates : ∀ m f, find_aggr m f = None.

(** C19: A script that is accepted does not fail with one of these internal
    errors when it is run: no local variable, constant or aggregate has an index
    outside its table (0xdead_000b, 000f, 0010, 0012), aggregates are only
    called where they may be (0011), no argument of a recursion is without a
    place (0006), no assigned pattern has an assignment or a default inside
    (0004, 0005), no code the interpreter takes for unreachable is reached and
    no function loops for ever, whatever the event, the state, the metadata and
    the two limits of recursions, at compile time and at run time, are.  Two
    internal errors of the interpreter are not covered: 0xdead_0003, which an
    accepted script can raise ([bad_segment_fails]), and 0xdead_000c.  The
    syntax has no function with two arguments of the same name and no
    assignment inside an assigned pattern; there are no aggregates, as the code
    parses a script with an empty registry of them. *)
Theorem accepted_script_no_internal_error d rs limit sc ctx limit' a event state meta :
  forallb (tame_top d) rs = true → build_script limit rs = UOk sc →
  ∀ e, (script_run sc ctx limit' a event state meta).2 = SErr e → internal e = false.
Proof.
  intros Ht Hb. edestruct build_script_wf as [Ha [d' Hw]]; [done..|].
  eapply wf_script_no_internal_error; [exact Hw|]. by rewrite Ha.
Qed.
End run.

(** ** Examples *)
Module FrontEnd.
#[local] Existing Instance some_lib.
#[local] Existing Instance simd_value_trait.
#[local] Instance hash_order_some : hash_order string := some_order string.
#[local] Instance some_analysis : analysis :=
  Build_analysis some_lib (λ _, 0%N) (λ _ _, false) (λ _ _, false) val_eq
    (λ e f, match e, f with ILiteral v, ILiteral w => val_eq v w | _, _ => false end) (λ _ _, eq_refl).
#[local] Instance no_registries : registries := {|
  find_fn _ _ := None; find_aggr _ _ := None; aggr_valid_arity _ _ := false; new_extractor _ _ := None |}.

Definition num (n : N) : imut_raw := RLiteral (from_u64 n).
Definition var (x : string) : imut_raw := RPath (local_of x).
Definition on_event (ks : list string) : imut_raw := RPath (REventPath (from_id <$> ks)).
Definition assign (x : string) (e : imut_raw) : expr_raw := XAssign (local_of x) (XImut e).
Definition case_ {E} (p : pattern_raw) (e : E) : predicate_clause_raw pattern_raw imut_raw E :=
  PredicateClauseRaw p None [e].
(** The parser makes the pattern of a case of a function an assignment. *)
Definition fn_pattern (ps : list array_predicate_pattern_raw) (open : bool) : pattern_raw :=
  RPatAssign FN_RES_NAME (RPatTuple ps open).
Definition run_raw (rs : list expr_raw) (event : value) : ures (sres return_) :=
  match build_script 1024 rs with
  | UOk sc => UOk (script_run sc tt 1024 Tick event const_null value_object).2
  | UErr e => UErr e
  end.

(** [fn fact(n, acc) of case (0, acc) => acc
      default => recur(n - 1, acc * n) end;
     fact(event.n, 1)] *)
Definition fact : expr_raw :=
  XFnDecl
    (FnMatch "fact" ["n"; "acc"]
       [case_ (fn_pattern [RAExpr (num 0); RAIgnore] false) (XImut (var "acc"));
        case_ RPatDefault (XImut (RRecur [RBinary Sub (var "n") (num 1); RBinary Mul (var "acc") (var "n")]))]
       false false).
Definition fact_prog : list expr_raw :=
  [fact; assign "f" (RInvoke [] "fact" [on_event ["n"]; num 1]); XImut (var "f")].
Definition input (n : N) : value := VObject {["n"%string := from_u64 n]}.
Example run_fact : run_raw fact_prog (input 5) = UOk (SOk (RetEmit (from_u64 120) None)).
Proof. vm_compute. reflexivity. Qed.

Lemma accepted_script_no_internal_error_witness :
  forallb (tame_top 10) fact_prog = true ∧
  match build_script 1024 fact_prog with
  | UOk sc => ∀ event e, (script_run sc tt 1024 Tick event const_null value_object).2 = SErr e → internal e = false
  | UErr _ => False
  end.
Proof.
  split; [by vm_compute|].
  destruct (build_script 1024 fact_prog) as [sc|x] eqn:Hb; [|by vm_compute in Hb].
  intros event. apply accepted_script_no_internal_error with 10 fact_prog 1024%N; [done|by vm_compute|exact Hb].
Defined.

(** *** What is accepted although it should not be

    [fn f(x, x) with x end]: the second argument of the name takes the place 1
    of a function with one local variable. *)
Definition double_argument : list expr_raw :=
  [XFnDecl (FnNormal "f" ["x"; "x"] [XImut (var "x")] false false);
   assign "r" (RInvoke [] "f" [on_event ["n"]; on_event ["n"]]); XImut (var "r")].
Example double_argument_fails :
  ∃ e, run_raw double_argument (input 1) = UOk (SErr e) ∧ internal e = true.
Proof. eexists. split; [vm_compute|]; reflexivity. Qed.

(** [let x = 1; x[event]], with the event [true]. *)
Definition bad_segment : list expr_raw :=
  [assign "x" (num 1); XImut (RPath (RLocalPath [from_id "x"; RElement (RPath (REventPath []))]))].
Example bad_segment_fails : run_raw bad_segment (VStatic (SBool true)) = UOk (SErr (Oops 0xdead0003)).
Proof. vm_compute. reflexivity. Qed.

(** [match event.n of case x = y = 1 => y default => 0 end] *)
Definition nested_assign : list expr_raw :=
  [XImut (RMatch (on_event ["n"])
     [case_ (RPatAssign "x" (RPatAssign "y" (RPatExpr (num 1)))) (var "y"); case_ RPatDefault (num 0)])].
Example nested_assign_fails :
  ∃ e, run_raw nested_assign (input 1) = UOk (SErr e) ∧ internal e = true.
Proof. eexists. split; [vm_compute|]; reflexivity. Qed.

(** [match event.n of case x = 1 => ..., x ...]: after a path on an
    expression that comes first, [x] is bound; after it, it is a new
    variable. *)
Definition after_expr_path (first last : imut_raw) : list expr_raw :=
  [XImut (RMatch (on_event ["n"])
     [PredicateClauseRaw (RPatAssign "x" (RPatExpr (num 1))) None
        [first; last]; case_ RPatDefault (num 0)])].
Definition record_path : imut_raw := RPath (RExprPath (RRecord [FieldRaw [RLit "a"] (on_event ["n"])]) [from_id "a"]).
Example bound_variable : run_raw (after_expr_path (num 2) (var "x")) (input 1) = UOk (SOk (RetEmit (from_u64 1) None)).
Proof. vm_compute. reflexivity. Qed.
Example unbound_variable : ∃ e, run_raw (after_expr_path record_path (var "x")) (input 1) = UOk (SErr e).
Proof. eexists. vm_compute. reflexivity. Qed.

(** [fn f(x, ...) with recur(...) end]: a recursion of an open function takes
    fewer arguments than the function has, and no more. *)
Definition open_recur (args : list imut_raw) : list expr_raw :=
  [XFnDecl (FnNormal "f" ["x"] [XImut (RRecur args)] true false); XImut (num 0)].
Example open_recur_more : run_raw (open_recur [num 1; num 2]) (input 1) = UErr (UpWrongArgc 1 2).
Proof. vm_compute. reflexivity. Qed.
Example open_recur_fewer : run_raw (open_recur []) (input 1) = UOk (SOk (RetEmit (from_u64 0) None)).
Proof. vm_compute. reflexivity. Qed.

(** [const x = 7; fn f(x) with x end; f(event.n)]: the constant wins. *)
Definition constant_argument : list expr_raw :=
  [XConst "x" (num 7); XFnDecl (FnNormal "f" ["x"] [XImut (var "x")] false false);
   assign "r" (RInvoke [] "f" [on_event ["n"]]); XImut (var "r")].
Example constant_wins : run_raw constant_argument (input 1) = UOk (SOk (RetEmit (from_u64 7) None)).
Proof. vm_compute. reflexivity. Qed.
End FrontEnd.
