(* ===== verification/AstInd.v ===== *)
(** Induction over immutable expressions.

    What holds of all immediate parts of an expression, through the lists,
    strings, paths, patterns and clauses in between, is spelled out for each
    kind of part; record patterns, which contain each other, are the second
    predicate.  The bodies of functions are not parts. *)
From S2P Require Import Prelude Value ScriptOps Bits Ast RawAst.

(** ** Parts in an option and in a list *)
Section lists.
Context {A : Type} (R : A → Prop).
Definition opt_all (o : option A) : Prop := match o with Some x => R x | None => True end.
Fixpoint each_all (l : list A) : Prop := match l with [] => True | x :: l => R x ∧ each_all l end.
Hypothesis H : ∀ x, R x.
Definition opt_intro (o : option A) : opt_all o := match o with Some x => H x | None => I end.
Fixpoint each_intro (l : list A) : each_all l :=
  match l with [] => I | x :: l => conj (H x) (each_intro l) end.
Lemma each_all_Forall l : each_all l ↔ Forall R l.
Proof. induction l as [|x l IH]; cbn; [done|]. by rewrite list.Forall_cons, IH. Qed.
End lists.
Arguments opt_intro {A R}.
Arguments each_intro {A R}.

Section all.
Context `{sl : !script_lib}.
Variables (P : imut_expr → Prop) (Q : record_pattern → Prop).

Definition elem_all (e : str_lit_element) : Prop := match e with SLit _ => True | SExpr e => P e end.
Definition str_all (s : string_lit) : Prop := match s with StringLit es => each_all elem_all es end.
Definition field_all (f : field) : Prop := match f with Field n e => str_all n ∧ P e end.
Definition op_all (op : patch_operation) : Prop :=
  match op with
  | PInsert i e | PDefault i e | PMerge i e | PUpdate i e | PUpsert i e => str_all i ∧ P e
  | PCopy f t | PMove f t => str_all f ∧ str_all t
  | PErase i => str_all i
  | PDefaultRecord e | PMergeRecord e => P e
  end.
Definition seg_all (s : segment) : Prop :=
  match s with SegElement e => P e | SegRange a b => P a ∧ P b | _ => True end.
Definition path_all (p : path) : Prop :=
  each_all seg_all (segments p) ∧ match p with ExprPath e _ _ => P e | _ => True end.
Definition ap_all (p : array_predicate_pattern) : Prop :=
  match p with AExpr e => P e | ARecord rp => Q rp | _ => True end.
Definition pp_all (p : predicate_pattern) : Prop :=
  match p with
  | BinEq _ rhs _ => P rhs
  | RecordPatternEq _ rp => Q rp
  | ArrayPatternEq _ es | TuplePatternEq _ es _ => each_all ap_all es
  | _ => True
  end.
Definition rp_all (rp : record_pattern) : Prop := match rp with RecordPattern fs => each_all pp_all fs end.
Fixpoint pat_all (p : pattern) : Prop :=
  match p with
  | PatRecord rp => Q rp
  | PatArray es | PatTuple es _ => each_all ap_all es
  | PatExpr e => P e
  | PatAssign _ p => pat_all p
  | _ => True
  end.
Definition clause_all (c : predicate_clause pattern imut_expr imut_expr) : Prop :=
  pat_all (pattern_of c) ∧ opt_all P (guard_of c) ∧ each_all P (exprs_of c) ∧ P (last_expr_of c).
Definition entry_all (kv : value * (list imut_expr * imut_expr)) : Prop := each_all P kv.2.1 ∧ P kv.2.2.
Fixpoint group_all (cg : clause_group pattern imut_expr path imut_expr) : Prop :=
  opt_all (λ p, each_all seg_all (segments p)) (precondition_of cg) ∧
  match cg with
  | Single _ c => clause_all c
  | Simple _ cs => each_all clause_all cs
  | SearchTree _ tree rest => each_all entry_all tree ∧ each_all clause_all rest
  | Combined _ gs => each_all group_all gs
  end.
Definition default_all (d : default_case imut_expr) : Prop :=
  match d with DefaultMany es e => each_all P es ∧ P e | DefaultOne e => P e | _ => True end.
Definition case_all (c : comprehension_case imut_expr imut_expr) : Prop :=
  opt_all P (case_guard c) ∧ each_all P (case_exprs c) ∧ P (case_last_expr c).
Definition call_all (i : invoke) : Prop := match i with Invoke _ args => each_all P args end.
Definition part_all (p : bytes_part) : Prop := match p with BytesPart data _ _ _ => P data end.
Definition sub_all (e : imut_expr) : Prop :=
  match e with
  | IRecord _ fs => each_all field_all fs
  | IList es | IRecur _ es => each_all P es
  | IBinary _ a b | IMerge a b => P a ∧ P b
  | IUnary _ a => P a
  | IPatch t ops => P t ∧ each_all op_all ops
  | IMatch t cgs d => P t ∧ each_all group_all cgs ∧ default_all d
  | IComprehension _ _ t cs => P t ∧ each_all case_all cs
  | IString s => str_all s
  | IPath p | IPresent p => path_all p
  | IInvoke i | IInvoke1 i | IInvoke2 i | IInvoke3 i => call_all i
  | IBytes ps => each_all part_all ps
  | ILocal _ _ | ILiteral _ | IInvokeAggr _ => True
  end.

(** ** All of it follows from all expressions and record patterns

    The terms are written so that a recursion can go through them. *)
Section intro.
Variables (HP : ∀ e, P e) (HQ : ∀ rp, Q rp).


Definition elem_intro (e : str_lit_element) : elem_all e := match e with SLit _ => I | SExpr e => HP e end.
Definition str_intro (s : string_lit) : str_all s := match s with StringLit es => each_intro elem_intro es end.
Definition field_intro (f : field) : field_all f := match f with Field n e => conj (str_intro n) (HP e) end.
Definition op_intro (op : patch_operation) : op_all op :=
  match op with
  | PInsert i e | PDefault i e | PMerge i e | PUpdate i e | PUpsert i e => conj (str_intro i) (HP e)
  | PCopy f t | PMove f t => conj (str_intro f) (str_intro t)
  | PErase i => str_intro i
  | PDefaultRecord e | PMergeRecord e => HP e
  end.
Definition seg_intro (s : segment) : seg_all s :=
  match s with SegElement e => HP e | SegRange a b => conj (HP a) (HP b) | _ => I end.
Definition path_intro (p : path) : path_all p :=
  match p with
  | ExprPath e v ss => conj (each_intro seg_intro ss) (HP e)
  | ConstPath _ _ ss | LocalPath _ _ ss | EventPath ss | StatePath ss | MetaPath ss
  | ArgsPath ss | WindowPath ss | GroupPath ss => conj (each_intro seg_intro ss) I
  end.
Definition segments_intro (p : path) : each_all seg_all (segments p) := proj1 (path_intro p).
Definition ap_intro (p : array_predicate_pattern) : ap_all p :=
  match p with AExpr e => HP e | ARecord rp => HQ rp | _ => I end.
Definition pp_intro (p : predicate_pattern) : pp_all p :=
  match p with
  | BinEq _ rhs _ => HP rhs
  | RecordPatternEq _ rp => HQ rp
  | ArrayPatternEq _ es | TuplePatternEq _ es _ => each_intro ap_intro es
  | _ => I
  end.
Definition rp_intro (rp : record_pattern) : rp_all rp := match rp with RecordPattern fs => each_intro pp_intro fs end.
Fixpoint pat_intro (p : pattern) : pat_all p :=
  match p with
  | PatRecord rp => HQ rp
  | PatArray es | PatTuple es _ => each_intro ap_intro es
  | PatExpr e => HP e
  | PatAssign _ p => pat_intro p
  | _ => I
  end.
Definition clause_intro (c : predicate_clause pattern imut_expr imut_expr) : clause_all c :=
  match c with
  | PredicateClause p g es e => conj (pat_intro p) (conj (opt_intro HP g) (conj (each_intro HP es) (HP e)))
  end.
Definition entry_intro (kv : value * (list imut_expr * imut_expr)) : entry_all kv :=
  match kv with (k, (es, e)) => conj (each_intro HP es) (HP e) end.
Fixpoint group_intro (cg : clause_group pattern imut_expr path imut_expr) : group_all cg :=
  match cg with
  | Single c p => conj (opt_intro segments_intro c) (clause_intro p)
  | Simple c ps => conj (opt_intro segments_intro c) (each_intro clause_intro ps)
  | SearchTree c tree rest =>
    conj (opt_intro segments_intro c) (conj (each_intro entry_intro tree) (each_intro clause_intro rest))
  | Combined c gs => conj (opt_intro segments_intro c) (each_intro group_intro gs)
  end.
Definition default_intro (d : default_case imut_expr) : default_all d :=
  match d with DefaultMany es e => conj (each_intro HP es) (HP e) | DefaultOne e => HP e | _ => I end.
Definition case_intro (c : comprehension_case imut_expr imut_expr) : case_all c :=
  match c with ComprehensionCase g es e => conj (opt_intro HP g) (conj (each_intro HP es) (HP e)) end.
Definition invoke_intro (i : invoke) : call_all i := match i with Invoke _ args => each_intro HP args end.
Definition part_intro (p : bytes_part) : part_all p := match p with BytesPart data _ _ _ => HP data end.
Definition sub_intro (e : imut_expr) : sub_all e :=
  match e with
  | IRecord _ fs => each_intro field_intro fs
  | IList es | IRecur _ es => each_intro HP es
  | IBinary _ a b | IMerge a b => conj (HP a) (HP b)
  | IUnary _ a => HP a
  | IPatch t ops => conj (HP t) (each_intro op_intro ops)
  | IMatch t cgs d => conj (HP t) (conj (each_intro group_intro cgs) (default_intro d))
  | IComprehension _ _ t cs => conj (HP t) (each_intro case_intro cs)
  | IString s => str_intro s
  | IPath p | IPresent p => path_intro p
  | IInvoke i | IInvoke1 i | IInvoke2 i | IInvoke3 i => invoke_intro i
  | IBytes ps => each_intro part_intro ps
  | ILocal _ _ | ILiteral _ | IInvokeAggr _ => I
  end.
End intro.

(** ** Induction

    The two principles are terms that compute like the recursion. *)
Section induction.
Variables (HP : ∀ e, sub_all e → P e) (HQ : ∀ rp, rp_all rp → Q rp).
Fixpoint imut_induction (e : imut_expr) : P e := HP e (sub_intro imut_induction rp_induction e)
with rp_induction (rp : record_pattern) : Q rp := HQ rp (rp_intro imut_induction rp_induction rp).
End induction.
End all.

(** ** Consequences for the parts *)
Section mp.
Context {A : Type} (P R : A → Prop).
Lemma each_all_mp l : each_all (λ x, P x → R x) l → each_all P l → each_all R l.
Proof. induction l; cbn; naive_solver. Qed.
Lemma opt_all_mp o : opt_all (λ x, P x → R x) o → opt_all P o → opt_all R o.
Proof. destruct o; cbn; auto. Qed.
End mp.
Lemma each_all_impl {A} (P R : A → Prop) l : (∀ x, P x → R x) → each_all P l → each_all R l.
Proof. intros H. apply each_all_mp. by apply each_intro. Qed.
Lemma each_all_mp3 {A} (I P R : A → Prop) l : (∀ x, I x → P x → R x) → each_all I l → each_all P l → each_all R l.
Proof. intros H Hi. apply each_all_mp. by apply (each_all_impl I). Qed.

Section sub_mp.
Context `{sl : !script_lib}.
Variables (P R : imut_expr → Prop) (P' R' : record_pattern → Prop).
Abbreviation I := (λ e, P e → R e).
Abbreviation I' := (λ rp, P' rp → R' rp).

Lemma str_all_mp s : str_all I s → str_all P s → str_all R s.
Proof. destruct s; cbn. apply each_all_mp3. intros []; cbn; auto. Qed.
Hint Resolve str_all_mp : core.
Lemma field_all_mp f : field_all I f → field_all P f → field_all R f.
Proof. destruct f; cbn. naive_solver. Qed.
Lemma op_all_mp op : op_all I op → op_all P op → op_all R op.
Proof. destruct op; cbn; naive_solver. Qed.
Lemma segs_all_mp ss : each_all (seg_all I) ss → each_all (seg_all P) ss → each_all (seg_all R) ss.
Proof. apply each_all_mp3. intros []; cbn; naive_solver. Qed.
Hint Resolve segs_all_mp : core.
Lemma path_all_mp p : path_all I p → path_all P p → path_all R p.
Proof. unfold path_all. destruct p; naive_solver. Qed.
Lemma aps_all_mp ps : each_all (ap_all I I') ps → each_all (ap_all P P') ps → each_all (ap_all R R') ps.
Proof. apply each_all_mp3. intros []; cbn; auto. Qed.
Hint Resolve aps_all_mp : core.
Lemma rp_all_mp rp : rp_all I I' rp → rp_all P P' rp → rp_all R R' rp.
Proof. destruct rp; cbn. apply each_all_mp3. intros []; cbn; auto. Qed.
Lemma pat_all_mp p : pat_all I I' p → pat_all P P' p → pat_all R R' p.
Proof. induction p; cbn; auto. Qed.
Lemma opt_mp o : opt_all I o → opt_all P o → opt_all R o.
Proof. apply opt_all_mp. Qed.
Lemma exprs_mp es : each_all I es → each_all P es → each_all R es.
Proof. apply each_all_mp. Qed.
Hint Resolve pat_all_mp opt_mp exprs_mp : core.
Lemma clause_all_mp c : clause_all I I' c → clause_all P P' c → clause_all R R' c.
Proof. unfold clause_all. naive_solver. Qed.
Lemma clauses_all_mp cs : each_all (clause_all I I') cs → each_all (clause_all P P') cs → each_all (clause_all R R') cs.
Proof. apply each_all_mp3, clause_all_mp. Qed.
Hint Resolve clause_all_mp clauses_all_mp : core.
Lemma entries_all_mp t : each_all (entry_all I) t → each_all (entry_all P) t → each_all (entry_all R) t.
Proof. apply each_all_mp3. unfold entry_all. naive_solver. Qed.
Lemma pre_all_mp (o : option path) :
  opt_all (λ p, each_all (seg_all I) (segments p)) o → opt_all (λ p, each_all (seg_all P) (segments p)) o →
  opt_all (λ p, each_all (seg_all R) (segments p)) o.
Proof. destruct o; cbn; auto. Qed.
Hint Resolve entries_all_mp pre_all_mp : core.
Fixpoint group_all_mp cg : group_all I I' cg → group_all P P' cg → group_all R R' cg.
Proof.
  destruct cg as [c ps|c tree rest|c gs|c p]; cbn; intros [Hc H] [Hc' H'];
    (split; [exact (pre_all_mp _ Hc Hc')|]); try (clear group_all_mp; naive_solver).
  clear c Hc Hc'. induction gs as [|g gs IH]; cbn in *; [done|].
  split; [apply group_all_mp; tauto|apply IH; tauto].
Qed.
Lemma default_all_mp d : default_all I d → default_all P d → default_all R d.
Proof. destruct d; cbn; naive_solver. Qed.
Lemma case_all_mp c : case_all I c → case_all P c → case_all R c.
Proof. unfold case_all. naive_solver. Qed.
Lemma call_all_mp i : call_all I i → call_all P i → call_all R i.
Proof. destruct i; cbn; auto. Qed.
Lemma part_all_mp p : part_all I p → part_all P p → part_all R p.
Proof. destruct p; cbn; auto. Qed.

Lemma sub_all_mp e : sub_all I I' e → sub_all P P' e → sub_all R R' e.
Proof.
  destruct e; cbn; eauto using path_all_mp, call_all_mp.
  all: try (intros [? ?] [? ?]; split; eauto; fail).
  - apply each_all_mp3, field_all_mp.
  - intros [H1 H2] [H3 H4]. split; [auto|]. revert H2 H4. apply each_all_mp3, op_all_mp.
  - intros (H1 & H2 & H3) (H4 & H5 & H6). split; [auto|]. split; [|by apply default_all_mp].
    revert H2 H5. apply each_all_mp3, group_all_mp.
  - intros [H1 H2] [H3 H4]. split; [auto|]. revert H2 H4. apply each_all_mp3, case_all_mp.
  - apply each_all_mp3, part_all_mp.
Qed.
End sub_mp.

(** ** The expressions of expression paths *)
Section bases.
Context `{sl : !script_lib}.
Variable B : imut_expr → Prop.
Definition base_of (e : imut_expr) : option imut_expr :=
  match e with IPath (ExprPath b _ _) | IPresent (ExprPath b _ _) => Some b | _ => None end.
Fixpoint bases_all (e : imut_expr) : Prop :=
  opt_all B (base_of e) ∧ sub_all bases_all bases_all_rp e
with bases_all_rp (rp : record_pattern) : Prop := rp_all bases_all bases_all_rp rp.
Lemma bases_all_unfold e : bases_all e = (opt_all B (base_of e) ∧ sub_all bases_all bases_all_rp e).
Proof. by destruct e. Qed.
Lemma bases_all_rp_unfold rp : bases_all_rp rp = rp_all bases_all bases_all_rp rp.
Proof. by destruct rp. Qed.
End bases.
Lemma bases_all_impl `{sl : !script_lib} (B B' : imut_expr → Prop) e : (∀ b, B b → B' b) → bases_all B e → bases_all B' e.
Proof.
  intros Hb. apply (imut_induction (λ e, bases_all B e → bases_all B' e) (λ rp, bases_all_rp B rp → bases_all_rp B' rp)).
  - intros e1 IH. rewrite !bases_all_unfold. intros [H1 H2]. split; [|by eapply sub_all_mp].
    destruct (base_of e1); cbn in *; auto.
  - intros rp IH. rewrite !bases_all_rp_unfold. by apply rp_all_mp.
Qed.

(** Induction over raw expressions, as [AstInd] for immutable expressions. *)

Section all.
Variables (P : imut_raw → Prop) (Q : predicate_pattern_raw → Prop).

Definition r_elem (e : str_lit_element_raw) : Prop := match e with RLit _ => True | RExpr e => P e end.
Abbreviation r_string := (each_all r_elem).
Definition r_field (f : field_raw) : Prop := match f with FieldRaw n e => r_string n ∧ P e end.
Definition r_part (p : bytes_part_raw) : Prop := match p with BytesPartRaw e _ _ => P e end.
Definition r_op (o : patch_operation_raw) : Prop :=
  match o with
  | RInsert i e | RUpsert i e | RUpdate i e | RMergeField i e | RDefault i e => r_string i ∧ P e
  | RErase i => r_string i
  | RCopy f t | RMove f t => r_string f ∧ r_string t
  | RMergeRecord e | RDefaultRecord e => P e
  end.
Definition r_segment (s : segment_raw) : Prop :=
  match s with RElement e => P e | RRange a b => P a ∧ P b end.
Definition r_path (p : path_raw) : Prop :=
  match p with
  | RLocalPath ss | REventPath ss | RStatePath ss | RMetaPath ss | RConstPath _ ss
  | RArgsPath ss | RWindowPath ss | RGroupPath ss => each_all r_segment ss
  | RExprPath e ss => P e ∧ each_all r_segment ss
  end.
Definition r_element (p : array_predicate_pattern_raw) : Prop :=
  match p with RAExpr e => P e | RARecord fs => each_all Q fs | _ => True end.
Definition r_predicate (p : predicate_pattern_raw) : Prop :=
  match p with
  | RBinEq _ e _ => P e
  | RRecordPatternEq _ fs => each_all Q fs
  | RArrayPatternEq _ es | RTuplePatternEq _ es _ => each_all r_element es
  | _ => True
  end.
Fixpoint r_pattern (p : pattern_raw) : Prop :=
  match p with
  | RPatRecord fs => each_all Q fs
  | RPatArray es | RPatTuple es _ => each_all r_element es
  | RPatExpr e => P e
  | RPatAssign _ p => r_pattern p
  | _ => True
  end.
Section clauses.
Context {R : Type} (PR : R → Prop).
Definition r_clause (c : predicate_clause_raw pattern_raw imut_raw R) : Prop :=
  r_pattern (raw_pattern c) ∧ opt_all P (raw_guard c) ∧ each_all PR (raw_exprs c).
Definition r_case (c : comprehension_case_raw imut_raw R) : Prop :=
  opt_all P (raw_case_guard c) ∧ each_all PR (raw_case_exprs c).
End clauses.
Definition r_sub (r : imut_raw) : Prop :=
  match r with
  | RRecord fs => each_all r_field fs
  | RList es | RInvoke _ _ es | RRecur es => each_all P es
  | RPatch t ops => P t ∧ each_all r_op ops
  | RMerge a b | RBinary _ a b => P a ∧ P b
  | RMatch t cs => P t ∧ each_all (r_clause P) cs
  | RComprehension t cs => P t ∧ each_all (r_case P) cs
  | RPath p | RPresent p => r_path p
  | RUnary _ e => P e
  | RString es => r_string es
  | RBytes ps => each_all r_part ps
  | RLiteral _ => True
  end.

(** ** All of it follows from all expressions and predicates *)
Section intro.
Variables (HP : ∀ e, P e) (HQ : ∀ p, Q p).
Definition r_elem_intro (e : str_lit_element_raw) : r_elem e := match e with RLit _ => I | RExpr e => HP e end.
Definition r_field_intro (f : field_raw) : r_field f :=
  match f with FieldRaw n e => conj (each_intro r_elem_intro n) (HP e) end.
Definition r_part_intro (p : bytes_part_raw) : r_part p := match p with BytesPartRaw e _ _ => HP e end.
Definition r_op_intro (o : patch_operation_raw) : r_op o :=
  match o with
  | RInsert i e | RUpsert i e | RUpdate i e | RMergeField i e | RDefault i e => conj (each_intro r_elem_intro i) (HP e)
  | RErase i => each_intro r_elem_intro i
  | RCopy f t | RMove f t => conj (each_intro r_elem_intro f) (each_intro r_elem_intro t)
  | RMergeRecord e | RDefaultRecord e => HP e
  end.
Definition r_segment_intro (s : segment_raw) : r_segment s :=
  match s with RElement e => HP e | RRange a b => conj (HP a) (HP b) end.
Definition r_path_intro (p : path_raw) : r_path p :=
  match p with
  | RLocalPath ss | REventPath ss | RStatePath ss | RMetaPath ss | RConstPath _ ss
  | RArgsPath ss | RWindowPath ss | RGroupPath ss => each_intro r_segment_intro ss
  | RExprPath e ss => conj (HP e) (each_intro r_segment_intro ss)
  end.
Definition r_element_intro (p : array_predicate_pattern_raw) : r_element p :=
  match p with RAExpr e => HP e | RARecord fs => each_intro HQ fs | _ => I end.
Definition r_predicate_intro (p : predicate_pattern_raw) : r_predicate p :=
  match p with
  | RBinEq _ e _ => HP e
  | RRecordPatternEq _ fs => each_intro HQ fs
  | RArrayPatternEq _ es | RTuplePatternEq _ es _ => each_intro r_element_intro es
  | _ => I
  end.
Fixpoint r_pattern_intro (p : pattern_raw) : r_pattern p :=
  match p with
  | RPatRecord fs => each_intro HQ fs
  | RPatArray es | RPatTuple es _ => each_intro r_element_intro es
  | RPatExpr e => HP e
  | RPatAssign _ p => r_pattern_intro p
  | _ => I
  end.
Definition r_clause_intro {R} {PR : R → Prop} (H : ∀ e, PR e) (c : predicate_clause_raw pattern_raw imut_raw R) : r_clause PR c :=
  match c with PredicateClauseRaw p g es => conj (r_pattern_intro p) (conj (opt_intro HP g) (each_intro H es)) end.
Definition r_case_intro {R} {PR : R → Prop} (H : ∀ e, PR e) (c : comprehension_case_raw imut_raw R) : r_case PR c :=
  match c with ComprehensionCaseRaw _ _ g es => conj (opt_intro HP g) (each_intro H es) end.
Definition r_sub_intro (r : imut_raw) : r_sub r :=
  match r with
  | RRecord fs => each_intro r_field_intro fs
  | RList es | RInvoke _ _ es | RRecur es => each_intro HP es
  | RPatch t ops => conj (HP t) (each_intro r_op_intro ops)
  | RMerge a b | RBinary _ a b => conj (HP a) (HP b)
  | RMatch t cs => conj (HP t) (each_intro (r_clause_intro HP) cs)
  | RComprehension t cs => conj (HP t) (each_intro (r_case_intro HP) cs)
  | RPath p | RPresent p => r_path_intro p
  | RUnary _ e => HP e
  | RString es => each_intro r_elem_intro es
  | RBytes ps => each_intro r_part_intro ps
  | RLiteral _ => I
  end.
End intro.

Section induction.
Variables (HP : ∀ r, r_sub r → P r) (HQ : ∀ p, r_predicate p → Q p).
Fixpoint imut_raw_induction (r : imut_raw) : P r := HP r (r_sub_intro imut_raw_induction predicate_raw_induction r)
with predicate_raw_induction (p : predicate_pattern_raw) : Q p :=
  HQ p (r_predicate_intro imut_raw_induction predicate_raw_induction p).
End induction.
End all.

(** ** Expressions: the expressions in them *)
Section exprs.
Variable P : expr_raw → Prop.
Definition x_clause (c : predicate_clause_raw pattern_raw imut_raw expr_raw) : Prop := each_all P (raw_exprs c).
Definition x_case (c : comprehension_case_raw imut_raw expr_raw) : Prop := each_all P (raw_case_exprs c).
Definition x_fn (f : any_fn_raw) : Prop :=
  match f with FnMatch _ _ cs _ _ => each_all x_clause cs | FnNormal _ _ body _ _ => each_all P body end.
Definition x_sub (r : expr_raw) : Prop :=
  match r with
  | XModule _ es => each_all P es
  | XMatch _ cs => each_all x_clause cs
  | XAssign _ e => P e
  | XComprehension _ cs => each_all x_case cs
  | XFnDecl f => x_fn f
  | _ => True
  end.
Section intro.
Variable HP : ∀ r, P r.
Definition x_clause_intro (c : predicate_clause_raw pattern_raw imut_raw expr_raw) : x_clause c :=
  match c with PredicateClauseRaw _ _ es => each_intro HP es end.
Definition x_case_intro (c : comprehension_case_raw imut_raw expr_raw) : x_case c :=
  match c with ComprehensionCaseRaw _ _ _ es => each_intro HP es end.
Definition x_fn_intro (f : any_fn_raw) : x_fn f :=
  match f with FnMatch _ _ cs _ _ => each_intro x_clause_intro cs | FnNormal _ _ body _ _ => each_intro HP body end.
Definition x_sub_intro (r : expr_raw) : x_sub r :=
  match r with
  | XModule _ es => each_intro HP es
  | XMatch _ cs => each_intro x_clause_intro cs
  | XAssign _ e => HP e
  | XComprehension _ cs => each_intro x_case_intro cs
  | XFnDecl f => x_fn_intro f
  | _ => I
  end.
End intro.
Section induction.
Variable HP : ∀ r, x_sub r → P r.
Fixpoint expr_raw_induction (r : expr_raw) : P r := HP r (x_sub_intro expr_raw_induction r).
End induction.
End exprs.
