(* ===== verification/Walkers.v ===== *)
(** Walking over immutable expressions: tremor-script/src/ast/walkers.rs and
    the visitors of ast/visitors.rs and ast/visitors/.

    A visitor changes an expression in place.  Of the hooks of the trait
    [ImutExprVisitor] these are the ones that a visitor overrides: an
    expression may be replaced, which ends the walk below it, an expression
    may be changed when it is left, and the base of a path may be replaced by
    an expression.  All others do nothing and let the walk go on. *)
From S2P Require Import Prelude Value ValueOrd ScriptOps Bits Ast Interp ScriptMatch ScriptFold RawAst ScriptUp.

(** ** Computations over the state of a visitor *)
Inductive wres (Er A : Type) := WOk (a : A) | WErr (e : Er).
Arguments WOk {Er A} a.
Arguments WErr {Er A} e.
Definition walk_m (St Er A : Type) : Type := St → St * wres Er A.
#[global] Instance walk_ret {St Er} : MRet (walk_m St Er) := λ A a s, (s, WOk a).
#[global] Instance walk_bind {St Er} : MBind (walk_m St Er) := λ A B f m s,
  let '(s, r) := m s in match r with WOk a => f a s | WErr e => (s, WErr e) end.

Section walk.
Context `{!script_lib} {St Er : Type}.
Abbreviation M := (walk_m St Er) (only parsing).

Record visitor := Visitor {
  (** a replacement, [VisitRes::Stop] *)
  visit_expr : imut_expr → M (option imut_expr);
  leave_expr : imut_expr → M imut_expr;
  (** the expression, and its shadow variable, for the base of the path *)
  visit_path : path → M (option (imut_expr * N));
}.
Variable v : visitor.

Section each.
Context {A : Type} (f : A → M A).
Fixpoint walk_each (l : list A) : M (list A) :=
  match l with
  | [] => mret []
  | x :: l => y ← f x; ys ← walk_each l; mret (y :: ys)
  end.
Definition walk_opt (o : option A) : M (option A) :=
  match o with Some x => y ← f x; mret (Some y) | None => mret None end.
End each.

(** ** The parts of an expression *)
Section parts.
Variable walk_expr : imut_expr → M imut_expr.
Variable walk_record_pattern : record_pattern → M record_pattern.

Definition walk_string_element (e : str_lit_element) : M str_lit_element :=
  match e with
  | SLit s => mret (SLit s)
  | SExpr e => e ← walk_expr e; mret (SExpr e)
  end.
Definition walk_string (s : string_lit) : M string_lit :=
  match s with StringLit es => es ← walk_each walk_string_element es; mret (StringLit es) end.
Definition walk_field (f : field) : M field :=
  match f with Field n e => n ← walk_string n; e ← walk_expr e; mret (Field n e) end.

Definition walk_patch_operation (op : patch_operation) : M patch_operation :=
  match op with
  | PInsert i e => i ← walk_string i; e ← walk_expr e; mret (PInsert i e)
  | PDefault i e => i ← walk_string i; e ← walk_expr e; mret (PDefault i e)
  | PMerge i e => i ← walk_string i; e ← walk_expr e; mret (PMerge i e)
  | PUpdate i e => i ← walk_string i; e ← walk_expr e; mret (PUpdate i e)
  | PUpsert i e => i ← walk_string i; e ← walk_expr e; mret (PUpsert i e)
  | PCopy f t => f ← walk_string f; t ← walk_string t; mret (PCopy f t)
  | PMove f t => f ← walk_string f; t ← walk_string t; mret (PMove f t)
  | PErase i => i ← walk_string i; mret (PErase i)
  | PDefaultRecord e => e ← walk_expr e; mret (PDefaultRecord e)
  | PMergeRecord e => e ← walk_expr e; mret (PMergeRecord e)
  end.

(** *** Paths *)
Definition walk_segment (s : segment) : M segment :=
  match s with
  | SegElement e => e ← walk_expr e; mret (SegElement e)
  | SegRange a b => a ← walk_expr a; b ← walk_expr b; mret (SegRange a b)
  | s => mret s
  end.
Definition set_segments (ss : list segment) (p : path) : path :=
  match p with
  | ConstPath i c _ => ConstPath i c ss
  | LocalPath i c _ => LocalPath i c ss
  | EventPath _ => EventPath ss
  | StatePath _ => StatePath ss
  | MetaPath _ => MetaPath ss
  | ExprPath e var _ => ExprPath e var ss
  | ArgsPath _ => ArgsPath ss
  | WindowPath _ => WindowPath ss
  | GroupPath _ => GroupPath ss
  end.
(** The expression of an expression path is visited, but not walked. *)
Definition visit_base (e : imut_expr) : M imut_expr := r ← visit_expr v e; mret (default e r).
Definition walk_path (p : path) : M path :=
  r ← visit_path v p;
  match r with
  | Some (e, var) =>
    e ← visit_base e; ss ← walk_each walk_segment (segments p); mret (ExprPath e var ss)
  | None =>
    match p with
    | ExprPath e var ss => e ← visit_base e; ss ← walk_each walk_segment ss; mret (ExprPath e var ss)
    | p => ss ← walk_each walk_segment (segments p); mret (set_segments ss p)
    end
  end.
Definition walk_precondition (p : path) : M path :=
  ss ← walk_each walk_segment (segments p); mret (set_segments ss p).

(** *** Patterns *)
Definition walk_array_predicate_pattern (p : array_predicate_pattern) : M array_predicate_pattern :=
  match p with
  | AExpr e => e ← walk_expr e; mret (AExpr e)
  | ARecord rp => rp ← walk_record_pattern rp; mret (ARecord rp)
  | p => mret p
  end.
Definition walk_predicate_pattern (p : predicate_pattern) : M predicate_pattern :=
  match p with
  | RecordPatternEq k rp => rp ← walk_record_pattern rp; mret (RecordPatternEq k rp)
  | BinEq k rhs kind => rhs ← walk_expr rhs; mret (BinEq k rhs kind)
  | ArrayPatternEq k es => es ← walk_each walk_array_predicate_pattern es; mret (ArrayPatternEq k es)
  | TuplePatternEq k es open => es ← walk_each walk_array_predicate_pattern es; mret (TuplePatternEq k es open)
  | p => mret p
  end.
Fixpoint walk_match_pattern (p : pattern) : M pattern :=
  match p with
  | PatRecord rp => rp ← walk_record_pattern rp; mret (PatRecord rp)
  | PatArray es => es ← walk_each walk_array_predicate_pattern es; mret (PatArray es)
  | PatExpr e => e ← walk_expr e; mret (PatExpr e)
  | PatAssign i p => p ← walk_match_pattern p; mret (PatAssign i p)
  | PatTuple es open => es ← walk_each walk_array_predicate_pattern es; mret (PatTuple es open)
  | p => mret p
  end.

(** *** Matches and comprehensions *)
Abbreviation clause := (predicate_clause pattern imut_expr imut_expr) (only parsing).
Abbreviation group := (clause_group pattern imut_expr path imut_expr) (only parsing).
Definition walk_predicate_clause (c : clause) : M clause :=
  match c with
  | PredicateClause p g es e =>
    p ← walk_match_pattern p; g ← walk_opt walk_expr g;
    es ← walk_each walk_expr es; e ← walk_expr e; mret (PredicateClause p g es e)
  end.
Definition walk_entry (kv : value * (list imut_expr * imut_expr)) : M (value * (list imut_expr * imut_expr)) :=
  let '(k, (es, e)) := kv in
  es ← walk_each walk_expr es; e ← walk_expr e; mret (k, (es, e)).
Fixpoint walk_clause_group (cg : group) : M group :=
  match cg with
  | Single c p => c ← walk_opt walk_precondition c; p ← walk_predicate_clause p; mret (Single c p)
  | Simple c ps => c ← walk_opt walk_precondition c; ps ← walk_each walk_predicate_clause ps; mret (Simple c ps)
  | SearchTree c tree rest =>
    c ← walk_opt walk_precondition c; tree ← walk_each walk_entry tree;
    rest ← walk_each walk_predicate_clause rest; mret (SearchTree c tree rest)
  | Combined c gs => c ← walk_opt walk_precondition c; gs ← walk_each walk_clause_group gs; mret (Combined c gs)
  end.
Definition walk_default_case (d : default_case imut_expr) : M (default_case imut_expr) :=
  match d with
  | DefaultMany es e => es ← walk_each walk_expr es; e ← walk_expr e; mret (DefaultMany es e)
  | DefaultOne e => e ← walk_expr e; mret (DefaultOne e)
  | d => mret d
  end.
Definition walk_case (c : comprehension_case imut_expr imut_expr) : M (comprehension_case imut_expr imut_expr) :=
  match c with
  | ComprehensionCase g es e =>
    g ← walk_opt walk_expr g; es ← walk_each walk_expr es; e ← walk_expr e; mret (ComprehensionCase g es e)
  end.

Definition walk_invoke (i : invoke) : M invoke :=
  match i with Invoke f args => args ← walk_each walk_expr args; mret (Invoke f args) end.
Definition walk_part (p : bytes_part) : M bytes_part :=
  match p with BytesPart data t en bits => data ← walk_expr data; mret (BytesPart data t en bits) end.

(** The parts of an expression in [walk_expr]. *)
Definition walk_children (e : imut_expr) : M imut_expr :=
  match e with
  | IRecord base fs => fs ← walk_each walk_field fs; mret (IRecord base fs)
  | IList es => es ← walk_each walk_expr es; mret (IList es)
  | IBinary k a b => a ← walk_expr a; b ← walk_expr b; mret (IBinary k a b)
  | IUnary k a => a ← walk_expr a; mret (IUnary k a)
  | IPatch t ops => ops ← walk_each walk_patch_operation ops; t ← walk_expr t; mret (IPatch t ops)
  | IMatch t cgs d =>
    t ← walk_expr t; cgs ← walk_each walk_clause_group cgs; d ← walk_default_case d; mret (IMatch t cgs d)
  | IComprehension k i t cs => cs ← walk_each walk_case cs; t ← walk_expr t; mret (IComprehension k i t cs)
  | IMerge t e => t ← walk_expr t; e ← walk_expr e; mret (IMerge t e)
  | IString s => s ← walk_string s; mret (IString s)
  | ILocal i c => mret (ILocal i c)
  | IPath p => p ← walk_path p; mret (IPath p)
  | IPresent p => p ← walk_path p; mret (IPresent p)
  | IInvoke i => i ← walk_invoke i; mret (IInvoke i)
  | IInvoke1 i => i ← walk_invoke i; mret (IInvoke1 i)
  | IInvoke2 i => i ← walk_invoke i; mret (IInvoke2 i)
  | IInvoke3 i => i ← walk_invoke i; mret (IInvoke3 i)
  | IInvokeAggr i => mret (IInvokeAggr i)
  | IRecur n es => es ← walk_each walk_expr es; mret (IRecur n es)
  | IBytes ps => ps ← walk_each walk_part ps; mret (IBytes ps)
  | ILiteral x => mret (ILiteral x)
  end.
Definition walk_expr_step (e : imut_expr) : M imut_expr :=
  r ← visit_expr v e;
  match r with
  | Some e => leave_expr v e
  | None => e ← walk_children e; leave_expr v e
  end.
Definition walk_rp_step (rp : record_pattern) : M record_pattern :=
  match rp with RecordPattern fs => fs ← walk_each walk_predicate_pattern fs; mret (RecordPattern fs) end.
End parts.

Fixpoint walk_expr (e : imut_expr) {struct e} : M imut_expr := walk_expr_step walk_expr walk_record_pattern e
with walk_record_pattern (rp : record_pattern) {struct rp} : M record_pattern :=
  walk_rp_step walk_expr walk_record_pattern rp.

Lemma walk_expr_unfold e : walk_expr e = walk_expr_step walk_expr walk_record_pattern e.
Proof. by destruct e. Qed.
Lemma walk_record_pattern_unfold rp : walk_record_pattern rp = walk_rp_step walk_expr walk_record_pattern rp.
Proof. by destruct rp. Qed.
End walk.
Arguments Visitor {_ St Er}.

(** ** The visitors *)
Section visitors.
Context `{!script_lib, !value_trait, !hash_order string, !analysis, !registries}.
Variable limit : N.

(** The helper as the state of a visitor, and back. *)
Definition of_up {A} (m : up_m A) : walk_m helper up_error A := λ h,
  let '(h, r) := m h in (h, match r with UOk a => WOk a | UErr e => WErr e end).
Definition to_up {A} (m : walk_m helper up_error A) : up_m A := λ h,
  let '(h, r) := m h in (h, match r with WOk a => UOk a | WErr e => UErr e end).

(** [ArgsRewriter]: a path into the arguments becomes a path into their
    value. *)
Definition args_visitor (args : value) : visitor := Visitor
  (λ _, mret None)
  (λ e, mret e)
  (λ p, match p with
        | ArgsPath _ =>
          var ← of_up reserve_shadow;
          of_up end_shadow_var ≫= λ _,
          mret (Some (ILiteral args, var))
        | _ => mret None
        end).
Definition rewrite_expr (args : value) (e : imut_expr) : up_m imut_expr := to_up (walk_expr (args_visitor args) e).

(** [ExprReducer] *)
Definition reduce_visitor : visitor := Visitor
  (λ _, mret None)
  (λ e, of_up (reduce limit e))
  (λ _, mret None).
Definition reduce_expr (e : imut_expr) : up_m imut_expr := to_up (walk_expr reduce_visitor e).

(** [TargetEventRef]: the state says if something was rewritten, the only
    error is a reference to the event. *)
Fixpoint find_group (e : imut_expr) (idx : N) (groups : list imut_expr) : option N :=
  match groups with
  | [] => None
  | g :: groups => if ast_eq e g then Some idx else find_group e (idx + 1) groups
  end.
Definition target_visitor (group_expressions : list imut_expr) : visitor := Visitor
  (λ e rewritten,
     match find_group e 0 group_expressions with
     | Some idx => (true, WOk (Some (IPath (GroupPath [SegIdx idx]))))
     | None => (rewritten, WOk None)
     end)
  (λ e, mret e)
  (λ p, match p with
        | EventPath _ | MetaPath _ => λ rewritten, (rewritten, WErr tt)
        | _ => mret None
        end).
Definition rewrite_target (group_expressions : list imut_expr) (target : imut_expr) : wres () (imut_expr * bool) :=
  match walk_expr (target_visitor group_expressions) target false with
  | (rewritten, WOk e) => WOk (e, rewritten)
  | (_, WErr e) => WErr e
  end.
End visitors.
