(* ===== verification/WalkSpec.v ===== *)
(** Walking keeps what an expression does.

    A visitor whose hooks replace expressions and bases of paths by ones that
    run alike gives an expression that runs like the one it was given.  The
    two expressions may be run with different arguments, which is what the
    rewriting of the arguments needs: it is the evaluation of the
    arguments ahead of time.  Nothing can be said about the expressions of
    expression paths, since these are not walked. *)
From S2P Require Import Prelude Value ValueOrd ScriptOps Bits Ast Interp ScriptMatch ScriptFold RawAst ScriptUp AstInd Walkers.

(** ** Computations that run alike *)
Section alike.
Context {S : Type}.

Definition alike {A B} (R : A → B → Prop) (m1 : run_m S A) (m2 : run_m S B) : Prop :=
  ∀ s, match m1 s, m2 s with
       | (s1, SOk a), (s2, SOk b) => s1 = s2 ∧ R a b
       | (s1, SErr x), (s2, SErr y) => s1 = s2 ∧ x = y
       | _, _ => False
       end.

Lemma alike_refl {A} (m : run_m S A) : alike eq m m.
Proof. intros s. by destruct (m s) as [? []]. Qed.
Lemma alike_ret {A B} (R : A → B → Prop) a b : R a b → alike R (mret a) (mret b).
Proof. by intros H s. Qed.
Lemma alike_bind {A B C D} (Q : A → B → Prop) (R : C → D → Prop) m1 m2 (f : A → run_m S C) (g : B → run_m S D) :
  alike Q m1 m2 → (∀ a b, Q a b → alike R (f a) (g b)) → alike R (m1 ≫= f) (m2 ≫= g).
Proof.
  intros Hm Hf s. specialize (Hm s). unfold mbind, run_bind.
  destruct (m1 s) as [s1 [a|x]], (m2 s) as [s2 [b|y]]; try done.
  destruct Hm as [-> ?]. by apply Hf.
Qed.
Lemma alike_bind_eq {A C D} (R : C → D → Prop) m1 m2 (f : A → run_m S C) (g : A → run_m S D) :
  alike eq m1 m2 → (∀ a, alike R (f a) (g a)) → alike R (m1 ≫= f) (m2 ≫= g).
Proof. intros Hm Hf. apply (alike_bind eq); [done|]. by intros a ? <-. Qed.
Lemma alike_fmap {A B} m1 m2 (f : A → B) : alike eq m1 m2 → alike eq (f <$> m1) (f <$> m2).
Proof.
  intros Hm s. specialize (Hm s). unfold fmap, run_fmap.
  destruct (m1 s) as [s1 [a|x]], (m2 s) as [s2 [b|y]]; try done; by destruct Hm as [-> ->].
Qed.
Lemma alike_attempt {A} (m1 m2 : run_m S A) : alike eq m1 m2 → alike eq (attempt m1) (attempt m2).
Proof.
  intros Hm s. specialize (Hm s). unfold attempt.
  destruct (m1 s) as [s1 [a|x]], (m2 s) as [s2 [b|y]]; try done; by destruct Hm as [-> ->].
Qed.
Lemma alike_eq {A} (m1 m2 : run_m S A) s : alike eq m1 m2 → m1 s = m2 s.
Proof.
  intros Hm. specialize (Hm s).
  destruct (m1 s) as [s1 [a|x]], (m2 s) as [s2 [b|y]]; try done; by destruct Hm as [-> ->].
Qed.

Lemma first_hit_alike {X Y R} (f : X → run_m S (option R)) (g : Y → run_m S (option R)) l l' :
  Forall2 (λ x y, alike eq (f x) (g y)) l l' → alike eq (first_hit f l) (first_hit g l').
Proof.
  induction 1 as [|x y l l' H _ IH]; cbn [first_hit]; [apply alike_refl|].
  apply alike_bind_eq; [done|]. intros [r|]; [apply alike_refl|done].
Qed.
End alike.
Create HintDb alike.
#[export] Hint Resolve alike_refl alike_fmap alike_attempt first_hit_alike : alike.

(** Follows the two computations as long as they are the same, and does the
    case analysis they do. *)
Ltac alike_step :=
  first
    [ solve [eauto 3 with alike]
    | apply alike_bind_eq; [|intros ?]
    | apply alike_fmap
    | match goal with
      | |- alike _ (match ?x with _ => _ end) (match ?x with _ => _ end) => destruct x
      end ].
Ltac alike := repeat alike_step.

(** ** Walks *)
Section yields.
Context {St Er : Type}.
Definition yields {A} (m : walk_m St Er A) (a : A) : Prop := ∃ s s', m s = (s', WOk a).
Lemma yields_ret {A} (a b : A) : yields (mret a) b → a = b.
Proof. by intros (s & s' & [= _ ->]). Qed.
Lemma yields_bind {A B} (m : walk_m St Er A) (f : A → walk_m St Er B) b :
  yields (m ≫= f) b → ∃ a, yields m a ∧ yields (f a) b.
Proof.
  intros (s & s' & H). unfold mbind, walk_bind in H. destruct (m s) as [s1 [a|e]] eqn:E; [|done].
  exists a. split; [by eexists _, _|by eexists _, _].
Qed.
End yields.
Ltac walk_inv :=
  repeat match goal with
  | H : yields (mret _) _ |- _ => apply yields_ret in H; subst
  | H : yields (_ ≫= _) _ |- _ => apply yields_bind in H as (? & ? & ?)
  end.

Section lists.
Context {St Er A : Type} (f : A → walk_m St Er A) (P : A → Prop) (R : A → A → Prop).
Hypothesis walked : ∀ x y, P x → yields (f x) y → R x y.
Lemma walk_each_all l l' : each_all P l → yields (walk_each f l) l' → Forall2 R l l'.
Proof.
  revert l'. induction l as [|x l IH]; intros l' HP H; cbn in *; walk_inv; constructor; [apply walked; by try apply HP|].
  apply IH; [by apply HP|done].
Qed.
Lemma walk_opt_all o o' : opt_all P o → yields (walk_opt f o) o' → option_Forall2 R o o'.
Proof. destruct o as [x|]; cbn; intros HP H; walk_inv; constructor. by apply walked. Qed.
End lists.

Definition set_args `{!script_lib} (a : value) (en : env) : env :=
  Env (context en) (consts en) a (group en) (window en) (aggrs en) (recursion_limit en).

(** ** Expressions that run alike

    The first one is run with [a] for the arguments. *)
Section congruence.
Context `{sl : !script_lib, vt : !value_trait, ho : !hash_order string}.
Variables (a : value) (en : env).
Abbreviation en1 := (set_args a en).

Definition sim (e e' : imut_expr) : Prop :=
  ∀ o inp, alike eq (imut_run o en1 inp e) (imut_run o en inp e').
Definition rp_sim (rp rp' : record_pattern) : Prop :=
  ∀ o inp t, alike eq (rp_run o en1 inp t rp) (rp_run o en inp t rp').

Inductive elem_sim : str_lit_element → str_lit_element → Prop :=
  | sim_lit s : elem_sim (SLit s) (SLit s)
  | sim_elem e e' : sim e e' → elem_sim (SExpr e) (SExpr e').
Inductive str_sim : string_lit → string_lit → Prop :=
  | sim_str es es' : Forall2 elem_sim es es' → str_sim (StringLit es) (StringLit es').
Inductive field_sim : field → field → Prop :=
  | sim_field n n' e e' : str_sim n n' → sim e e' → field_sim (Field n e) (Field n' e').
Inductive part_sim : bytes_part → bytes_part → Prop :=
  | sim_part d d' t en bits : sim d d' → part_sim (BytesPart d t en bits) (BytesPart d' t en bits).
Inductive call_sim : invoke → invoke → Prop :=
  | sim_call f es es' : Forall2 sim es es' → call_sim (Invoke f es) (Invoke f es').
Inductive op_sim : patch_operation → patch_operation → Prop :=
  | sim_insert i i' e e' : str_sim i i' → sim e e' → op_sim (PInsert i e) (PInsert i' e')
  | sim_upsert i i' e e' : str_sim i i' → sim e e' → op_sim (PUpsert i e) (PUpsert i' e')
  | sim_update i i' e e' : str_sim i i' → sim e e' → op_sim (PUpdate i e) (PUpdate i' e')
  | sim_erase i i' : str_sim i i' → op_sim (PErase i) (PErase i')
  | sim_copy f f' t t' : str_sim f f' → str_sim t t' → op_sim (PCopy f t) (PCopy f' t')
  | sim_move f f' t t' : str_sim f f' → str_sim t t' → op_sim (PMove f t) (PMove f' t')
  | sim_merge i i' e e' : str_sim i i' → sim e e' → op_sim (PMerge i e) (PMerge i' e')
  | sim_merge_record e e' : sim e e' → op_sim (PMergeRecord e) (PMergeRecord e')
  | sim_default i i' e e' : str_sim i i' → sim e e' → op_sim (PDefault i e) (PDefault i' e')
  | sim_default_record e e' : sim e e' → op_sim (PDefaultRecord e) (PDefaultRecord e').
Inductive seg_sim : segment → segment → Prop :=
  | sim_id k : seg_sim (SegId k) (SegId k)
  | sim_idx i : seg_sim (SegIdx i) (SegIdx i)
  | sim_element e e' : sim e e' → seg_sim (SegElement e) (SegElement e')
  | sim_range b b' e e' : sim b b' → sim e e' → seg_sim (SegRange b e) (SegRange b' e').
(** Paths with the same base. *)
Definition path_sim (p p' : path) : Prop :=
  Forall2 seg_sim (segments p) (segments p') ∧
  ∀ o inp, alike eq (path_base imut_run o en1 inp p) (path_base imut_run o en inp p').
Inductive ap_sim : array_predicate_pattern → array_predicate_pattern → Prop :=
  | sim_aexpr e e' : sim e e' → ap_sim (AExpr e) (AExpr e')
  | sim_atilde t : ap_sim (ATilde t) (ATilde t)
  | sim_arecord rp rp' : rp_sim rp rp' → ap_sim (ARecord rp) (ARecord rp')
  | sim_aignore : ap_sim AIgnore AIgnore.
Inductive pp_sim : predicate_pattern → predicate_pattern → Prop :=
  | sim_tilde k t : pp_sim (TildeEq k t) (TildeEq k t)
  | sim_bin k e e' b : sim e e' → pp_sim (BinEq k e b) (BinEq k e' b)
  | sim_record k rp rp' : rp_sim rp rp' → pp_sim (RecordPatternEq k rp) (RecordPatternEq k rp')
  | sim_array k es es' : Forall2 ap_sim es es' → pp_sim (ArrayPatternEq k es) (ArrayPatternEq k es')
  | sim_tuple k es es' open : Forall2 ap_sim es es' → pp_sim (TuplePatternEq k es open) (TuplePatternEq k es' open)
  | sim_present k : pp_sim (FieldPresent k) (FieldPresent k)
  | sim_absent k : pp_sim (FieldAbsent k) (FieldAbsent k).
Inductive pat_sim : pattern → pattern → Prop :=
  | sim_pat_record rp rp' : rp_sim rp rp' → pat_sim (PatRecord rp) (PatRecord rp')
  | sim_pat_array es es' : Forall2 ap_sim es es' → pat_sim (PatArray es) (PatArray es')
  | sim_pat_expr e e' : sim e e' → pat_sim (PatExpr e) (PatExpr e')
  | sim_pat_assign i p p' : pat_sim p p' → pat_sim (PatAssign i p) (PatAssign i p')
  | sim_pat_tuple es es' open : Forall2 ap_sim es es' → pat_sim (PatTuple es open) (PatTuple es' open)
  | sim_pat_extract t : pat_sim (PatExtract t) (PatExtract t)
  | sim_pat_ignore : pat_sim PatDoNotCare PatDoNotCare
  | sim_pat_default : pat_sim PatDefault PatDefault.
(** The effectors of a clause of an immutable match are not run. *)
Inductive clause_sim : predicate_clause pattern imut_expr imut_expr → predicate_clause pattern imut_expr imut_expr → Prop :=
  | sim_clause p p' g g' es es' e e' : pat_sim p p' → option_Forall2 sim g g' → sim e e' →
      clause_sim (PredicateClause p g es e) (PredicateClause p' g' es' e').
Inductive entry_sim : value * (list imut_expr * imut_expr) → value * (list imut_expr * imut_expr) → Prop :=
  | sim_entry k es es' e e' : sim e e' → entry_sim (k, (es, e)) (k, (es', e')).
Inductive default_sim : default_case imut_expr → default_case imut_expr → Prop :=
  | sim_none : default_sim DefaultNone DefaultNone
  | sim_null : default_sim DefaultNull DefaultNull
  | sim_many es es' e e' : sim e e' → default_sim (DefaultMany es e) (DefaultMany es' e')
  | sim_one e e' : sim e e' → default_sim (DefaultOne e) (DefaultOne e').
Inductive case_sim : comprehension_case imut_expr imut_expr → comprehension_case imut_expr imut_expr → Prop :=
  | sim_case g g' es es' e e' : option_Forall2 sim g g' → sim e e' →
      case_sim (ComprehensionCase g es e) (ComprehensionCase g' es' e').
Definition precondition_sim (p p' : path) : Prop := Forall2 seg_sim (segments p) (segments p').
Inductive group_sim : clause_group pattern imut_expr path imut_expr → clause_group pattern imut_expr path imut_expr → Prop :=
  | sim_simple c c' ps ps' : option_Forall2 precondition_sim c c' → Forall2 clause_sim ps ps' →
      group_sim (Simple c ps) (Simple c' ps')
  | sim_tree c c' tree tree' ps ps' : option_Forall2 precondition_sim c c' → Forall2 entry_sim tree tree' →
      Forall2 clause_sim ps ps' → group_sim (SearchTree c tree ps) (SearchTree c' tree' ps')
  | sim_combined c c' gs gs' : option_Forall2 precondition_sim c c' → Forall2 group_sim gs gs' →
      group_sim (Combined c gs) (Combined c' gs')
  | sim_single c c' p p' : option_Forall2 precondition_sim c c' → clause_sim p p' →
      group_sim (Single c p) (Single c' p').

Section runs.
Variables (o : exec_opts) (inp : inputs).

Lemma eval_sim e e' : sim e e' → alike eq (into_owned <$> imut_run o en1 inp e) (into_owned <$> imut_run o en inp e').
Proof. intros H. apply alike_fmap, H. Qed.
Hint Resolve eval_sim : alike.

Lemma list_elements_sim es es' : Forall2 sim es es' →
  alike eq (list_elements imut_run o en1 inp es) (list_elements imut_run o en inp es').
Proof. induction 1 as [|e e' es es' He Hes IH]; cbn; alike. Qed.
Hint Resolve list_elements_sim : alike.

Lemma string_elements_sim es es' : Forall2 elem_sim es es' → ∀ out,
  alike eq (string_elements imut_run o en1 inp es out) (string_elements imut_run o en inp es' out).
Proof. induction 1 as [|? ? es es' He Hes IH]; intros out; cbn; [alike|]. destruct He; alike. Qed.
Lemma string_run_sim l l' : str_sim l l' → alike eq (string_run imut_run o en1 inp l) (string_run imut_run o en inp l').
Proof.
  intros [es es' H]. pose proof (string_elements_sim _ _ H "") as Hs.
  destruct H as [|? ? ? ? [] []]; exact Hs.
Qed.
Hint Resolve string_run_sim : alike.

Lemma record_fields_sim fs fs' : Forall2 field_sim fs fs' → ∀ object,
  alike eq (record_fields imut_run o en1 inp fs object) (record_fields imut_run o en inp fs' object).
Proof. induction 1 as [|? ? fs fs' [] Hfs IH]; intros object; cbn; alike. Qed.
Lemma bytes_parts_sim ps ps' : Forall2 part_sim ps ps' → ∀ w,
  alike eq (bytes_parts imut_run o en1 inp ps w) (bytes_parts imut_run o en inp ps' w).
Proof. induction 1 as [|? ? ps ps' [] Hps IH]; intros w; cbn; alike. Qed.
Hint Resolve record_fields_sim bytes_parts_sim : alike.

(** *** Calls: functions have arguments of their own *)
Lemma fn_invoke_args f argv : fn_invoke en1 f argv = fn_invoke en f argv.
Proof. by rewrite !fn_invoke_step; destruct f. Qed.
Lemma invocable_args f argv : invoke_invocable fn_invoke en1 f argv = invoke_invocable fn_invoke en f argv.
Proof. destruct f; cbn; [done|apply fn_invoke_args]. Qed.
Lemma invoke_sim i i' : call_sim i i' →
  alike eq (invoke1 imut_run fn_invoke o en1 inp i) (invoke1 imut_run fn_invoke o en inp i') ∧
  alike eq (invoke2 imut_run fn_invoke o en1 inp i) (invoke2 imut_run fn_invoke o en inp i') ∧
  alike eq (invoke3 imut_run fn_invoke o en1 inp i) (invoke3 imut_run fn_invoke o en inp i') ∧
  alike eq (invoke_all imut_run fn_invoke o en1 inp i) (invoke_all imut_run fn_invoke o en inp i').
Proof.
  intros [f es es' Hs]. repeat split; unfold invoke1, invoke2, invoke3, invoke_all.
  4: { apply alike_bind_eq; [alike|]. intros argv. rewrite invocable_args. alike. }
  all: repeat (destruct Hs as [|? ? ? ? ? Hs]; [solve [alike]|]).
  all: repeat (apply alike_bind_eq; [by apply eval_sim|intros ?]); rewrite ?invocable_args; alike.
Qed.

(** *** Paths *)
Lemma index_sim e e' l : sim e e' →
  alike eq (eval_to_index imut_run o en1 inp e l) (eval_to_index imut_run o en inp e' l).
Proof. intros He. unfold eval_to_index. alike. Qed.
Hint Resolve index_sim : alike.
Lemma segment_sim sg sg' c : seg_sim sg sg' →
  alike eq (resolve_segment imut_run o en1 inp sg c) (resolve_segment imut_run o en inp sg' c) ∧
  alike eq (present_segment imut_run o en1 inp sg c) (present_segment imut_run o en inp sg' c).
Proof. intros []; cbn; split; alike. Qed.
Lemma segments_sim ss ss' : Forall2 seg_sim ss ss' → ∀ c,
  alike eq (resolve_segments imut_run o en1 inp ss c) (resolve_segments imut_run o en inp ss' c) ∧
  alike eq (present_segments imut_run o en1 inp ss c) (present_segments imut_run o en inp ss' c).
Proof.
  induction 1 as [|sg sg' ss ss' Hs _ IH]; intros c; cbn; [split; alike|].
  destruct (segment_sim _ _ c Hs) as [H1 H2].
  split; (apply alike_bind_eq; [assumption|]); [intros x; apply IH|intros [x|]; [apply IH|alike]].
Qed.
Lemma resolve_value_sim p p' v : Forall2 seg_sim (segments p) (segments p') →
  alike eq (resolve_value imut_run o en1 inp p v) (resolve_value imut_run o en inp p' v).
Proof. intros Hs. unfold resolve_value. apply alike_bind_eq; [by apply segments_sim|alike]. Qed.
Hint Resolve resolve_value_sim : alike.
Lemma path_runs_sim p p' : path_sim p p' →
  alike eq (resolve imut_run o en1 inp p) (resolve imut_run o en inp p') ∧
  alike eq (present imut_run o en1 inp p) (present imut_run o en inp p').
Proof.
  intros [Hs Hb]. split; (apply alike_bind_eq; [apply Hb|intros [v|i]]); try solve [alike].
  apply alike_bind_eq; [by apply segments_sim|alike].
Qed.

(** *** Patterns *)
Lemma guard_sim g g' : option_Forall2 sim g g' →
  alike eq (test_guard imut_run o en1 inp g) (test_guard imut_run o en inp g').
Proof. intros []; cbn; alike. Qed.
Hint Resolve guard_sim : alike.
Lemma rp_run_sim rp rp' t : rp_sim rp rp' → alike eq (rp_run o en1 inp t rp) (rp_run o en inp t rp').
Proof. intros H. apply H. Qed.
Hint Resolve rp_run_sim : alike.
Lemma array_element_sim p p' v : ap_sim p p' →
  alike eq (match_array_element imut_run rp_run o en1 inp p v) (match_array_element imut_run rp_run o en inp p' v).
Proof. intros []; cbn; alike. Qed.
Hint Resolve array_element_sim : alike.
Lemma candidates_sim p p' : ap_sim p p' → ∀ l i b acc,
  alike eq (match_candidates imut_run rp_run o en1 inp p i l b acc)
           (match_candidates imut_run rp_run o en inp p' i l b acc).
Proof. intros Hp. induction l as [|v l IH]; intros i b acc; cbn; alike. Qed.
Hint Resolve candidates_sim : alike.
Lemma match_ap_sim es es' t : Forall2 ap_sim es es' →
  alike eq (match_ap_expr imut_run rp_run o en1 inp t es) (match_ap_expr imut_run rp_run o en inp t es').
Proof.
  intros Hes. destruct t as [| |l| |]; cbn; try solve [alike]. generalize (@nil value) as acc.
  induction Hes as [|p p' es es' Hp _ IH]; intros acc; cbn; [alike|].
  apply alike_bind_eq; [|intros r; alike]. destruct Hp; try (apply candidates_sim; by constructor); alike.
Qed.
Lemma match_tp_sim es es' open t : Forall2 ap_sim es es' →
  alike eq (match_tp_expr imut_run rp_run o en1 inp t es open) (match_tp_expr imut_run rp_run o en inp t es' open).
Proof.
  intros Hes. destruct t as [| |l| |]; cbn; try solve [alike]. rewrite (Forall2_length _ _ _ Hes).
  destruct (_ || _); [alike|]. generalize (@nil value) as acc. revert l.
  induction Hes as [|p p' es es' Hp _ IH]; intros l acc; destruct l; cbn; alike.
Qed.
Hint Resolve match_ap_sim match_tp_sim : alike.
Lemma fields_sim fs fs' : Forall2 pp_sim fs fs' → ∀ r acc,
  alike eq (match_fields imut_run rp_run o en1 inp fs r acc) (match_fields imut_run rp_run o en inp fs' r acc).
Proof.
  induction 1 as [|p p' fs fs' Hp _ IH]; intros r acc; cbn [match_fields]; [alike|].
  assert (predicate_key p = predicate_key p') as -> by (by destruct Hp).
  apply alike_bind_eq; [destruct Hp; cbn; alike|intros x; alike].
Qed.
End runs.
#[local] Hint Resolve eval_sim list_elements_sim string_run_sim record_fields_sim bytes_parts_sim : alike.
#[local] Hint Resolve resolve_value_sim guard_sim rp_run_sim match_ap_sim match_tp_sim : alike.

Section steps.
Variables (o : exec_opts) (inp : inputs).

Lemma pattern_sim w t p p' : pat_sim p p' →
  alike eq (match_pattern imut_run rp_run o en1 inp w t p) (match_pattern imut_run rp_run o en inp w t p').
Proof. intros []; cbn; alike. Qed.
Hint Resolve pattern_sim : alike.
Lemma rp_step_sim fs fs' : Forall2 pp_sim fs fs' → rp_sim (RecordPattern fs) (RecordPattern fs').
Proof. intros Hfs w i t. rewrite !rp_run_step. destruct t; cbn; try solve [alike]. by apply fields_sim. Qed.

(** *** Matches *)
Lemma test_sim t p p' g g' : pat_sim p p' → option_Forall2 sim g g' →
  alike eq (test_predicate_expr imut_run rp_run o en1 inp t p g)
           (test_predicate_expr imut_run rp_run o en inp t p' g').
Proof.
  intros Hp Hg. pose proof (λ w, pattern_sim w t _ _ Hp) as Hm.
  destruct Hp; cbn [test_predicate_expr]; try solve [alike]; apply alike_bind_eq; try apply Hm; intros r; alike.
Qed.

Abbreviation run_clause1 := (run_clause (test_predicate_expr imut_run rp_run o en1 inp) (λ _ e, imut_run o en1 inp e)).
Abbreviation run_clause2 := (run_clause (test_predicate_expr imut_run rp_run o en inp) (λ _ e, imut_run o en inp e)).
Lemma clause_run_sim t c c' : clause_sim c c' → alike eq (run_clause1 t c) (run_clause2 t c').
Proof.
  intros [p p' g g' es es' e e' Hp Hg He]. cbn [run_clause]. apply alike_bind_eq; [by apply test_sim|].
  intros []; [apply alike_fmap, He|alike].
Qed.
Lemma clauses_sim t cs cs' : Forall2 clause_sim cs cs' →
  alike eq (first_hit (run_clause1 t) cs) (first_hit (run_clause2 t) cs').
Proof. intros H. apply first_hit_alike. eapply Forall2_impl; [exact H|]. intros. by apply clause_run_sim. Qed.
Lemma tree_sim t tree tree' : Forall2 entry_sim tree tree' →
  match run_tree (S := locals) (λ _ e, imut_run o en1 inp e) t tree,
        run_tree (S := locals) (λ _ e, imut_run o en inp e) t tree' with
  | Some m1, Some m2 => alike eq m1 m2
  | None, None => True
  | _, _ => False
  end.
Proof.
  induction 1 as [|? ? tree tree' [k es es' e e' He] _ IH]; cbn [run_tree]; [done|].
  destruct (value_cmp t k); [apply He|done|done].
Qed.

Abbreviation run_group1 := (run_group (test_predicate_expr imut_run rp_run o en1 inp) (λ _ e, imut_run o en1 inp e)).
Abbreviation run_group2 := (run_group (test_predicate_expr imut_run rp_run o en inp) (λ _ e, imut_run o en inp e)).
Lemma group_run_sim_part t nested g g' :
  (nested = false → ∀ x y, group_sim x y → alike eq (run_group1 true t x) (run_group2 true t y)) →
  group_sim g g' → alike eq (run_group1 nested t g) (run_group2 nested t g').
Proof.
  intros Hn [c c' ps ps' _ H|c c' tree tree' ps ps' _ Ht H|c c' gs gs' _ H|c c' p p' _ H]; cbn [run_group].
  - by apply clauses_sim.
  - pose proof (tree_sim t _ _ Ht) as Hr.
    destruct (run_tree _ t tree), (run_tree _ t tree'); try done; [by apply alike_fmap|by apply clauses_sim].
  - destruct nested; [alike|]. apply first_hit_alike. eapply Forall2_impl; [exact H|]. by apply Hn.
  - by apply clause_run_sim.
Qed.
Lemma group_run_sim t nested g g' : group_sim g g' → alike eq (run_group1 nested t g) (run_group2 nested t g').
Proof.
  apply group_run_sim_part. intros -> x y. by apply group_run_sim_part.
Qed.

Lemma default_run_sim d d' : default_sim d d' →
  alike eq (run_default (λ _ e, imut_run o en1 inp e) (Borrowed const_null) d)
           (run_default (λ _ e, imut_run o en inp e) (Borrowed const_null) d').
Proof. intros []; cbn [run_default]; try solve [alike]; auto. Qed.
Lemma match_sim t t' gs gs' d d' : sim t t' → Forall2 group_sim gs gs' → default_sim d d' →
  alike eq (imut_match imut_run rp_run o en1 inp t gs d) (imut_match imut_run rp_run o en inp t' gs' d').
Proof.
  intros Ht Hgs Hd. apply alike_bind_eq; [by apply eval_sim|]. intros v. apply alike_bind_eq.
  - apply first_hit_alike. eapply Forall2_impl; [exact Hgs|]. intros g g' Hg. unfold run_top_group.
    assert (option_Forall2 precondition_sim (precondition_of g) (precondition_of g')) as [c c' Hc|] by (by destruct Hg).
    + apply alike_bind_eq; [alike|]. intros [w|]; [by apply group_run_sim|alike].
    + by apply group_run_sim.
  - intros [r|]; [alike|by apply default_run_sim].
Qed.

(** *** Patches *)
Inductive ev_sim : pre_evaluated → pre_evaluated → Prop :=
  | ev_same x : ev_sim x x
  | ev_default k m m' : alike eq m m' → ev_sim (EvDefault k m) (EvDefault k m')
  | ev_default_record m m' : alike eq m m' → ev_sim (EvDefaultRecord m) (EvDefaultRecord m').
Lemma pre_evaluate_sim op op' : op_sim op op' →
  alike ev_sim (pre_evaluate imut_run o en1 inp op) (pre_evaluate imut_run o en inp op').
Proof.
  intros []; cbn [pre_evaluate]; repeat (apply alike_bind_eq; [alike|intros ?]); apply alike_ret; constructor; alike.
Qed.
Lemma pre_evaluate_all_sim ops ops' : Forall2 op_sim ops ops' →
  alike (Forall2 ev_sim) (pre_evaluate_all imut_run o en1 inp ops) (pre_evaluate_all imut_run o en inp ops').
Proof.
  induction 1 as [|op op' ops ops' Hop _ IH]; cbn [pre_evaluate_all]; [by apply alike_ret|].
  eapply alike_bind; [by apply pre_evaluate_sim|]. intros x y Hx.
  eapply alike_bind; [exact IH|]. intros xs ys Hxs. apply alike_ret. by constructor.
Qed.
Lemma patch_target_sim xs ys : Forall2 ev_sim xs ys → ∀ t, alike eq (patch_target xs t) (patch_target ys t).
Proof.
  induction 1 as [|x y xs ys Hx _ IH]; intros t; cbn [patch_target]; [alike|].
  destruct t; try solve [alike]. apply alike_bind_eq; [|intros v; apply IH].
  destruct Hx; [alike|cbn; alike|cbn; alike].
Qed.
Lemma patch_sim t t' ops ops' : sim t t' → Forall2 op_sim ops ops' →
  alike eq (patch imut_run o en1 inp t ops) (patch imut_run o en inp t' ops').
Proof.
  intros Ht Hops. apply alike_bind_eq; [by apply eval_sim|]. intros v.
  eapply alike_bind; [by apply pre_evaluate_all_sim|]. intros xs ys Hxs. by apply alike_fmap, patch_target_sim.
Qed.
Lemma merge_sim t t' e e' : sim t t' → sim e e' →
  alike eq (merge_expr imut_run o en1 inp t e) (merge_expr imut_run o en inp t' e').
Proof. intros Ht He. unfold merge_expr. alike. Qed.

(** *** Comprehensions *)
Lemma cases_sim cs cs' : Forall2 case_sim cs cs' →
  alike eq (comprehension_cases imut_run o en1 inp cs) (comprehension_cases imut_run o en inp cs').
Proof.
  induction 1 as [|? ? cs cs' [] _ IH]; cbn [comprehension_cases]; [alike|].
  apply alike_bind_eq; [by apply guard_sim|]. intros []; [apply alike_fmap; alike|done].
Qed.
Lemma comprehension_sim i j t t' cs cs' : sim t t' → Forall2 case_sim cs cs' →
  alike eq (comprehension imut_run o en1 inp i j t cs) (comprehension imut_run o en inp i j t' cs').
Proof.
  intros Ht Hcs. apply alike_bind_eq; [by apply eval_sim|]. intros v. apply alike_bind_eq; [|alike].
  generalize (@nil value). induction (comprehension_items v) as [|[x y] items IH]; intros acc; cbn; [alike|].
  repeat (apply alike_bind_eq; [first [by apply cases_sim|alike]|intros ?]). apply IH.
Qed.
End steps.

(** *** One step of the interpreter *)
Lemma sim_step e e' :
  (∀ o inp, alike eq (imut_step imut_run rp_run fn_invoke o en1 inp e) (imut_step imut_run rp_run fn_invoke o en inp e')) →
  sim e e'.
Proof. intros Hs o inp. rewrite !imut_run_step. apply Hs. Qed.

(** ** The walk of a sound visitor *)
Section walk.
Context {St Er : Type}.
Variable v : visitor (St := St) (Er := Er).

Record sound_visitor : Prop := {
  visit_sound : ∀ e e', yields (visit_expr v e) (Some e') → sim e e';
  leave_sound : ∀ e0 e e', sim e0 e → yields (leave_expr v e) e' → sim e0 e';
  path_sound : ∀ p e var e' ss o inp, yields (visit_path v p) (Some (e, var)) → yields (visit_base v e) e' →
    alike eq (path_base imut_run o en1 inp p) (path_base imut_run o en inp (ExprPath e' var ss));
  args_kept : ∀ ss, yields (visit_path v (ArgsPath ss)) None → a = args en;
}.
Hypothesis Hv : sound_visitor.
Definition base_sound (b : imut_expr) : Prop := ∀ b', yields (visit_base v b) b' → sim b b'.

Definition walked (e : imut_expr) : Prop := ∀ e', yields (walk_expr v e) e' → sim e e'.
Definition walked_rp (rp : record_pattern) : Prop := ∀ rp', yields (walk_record_pattern v rp) rp' → rp_sim rp rp'.
Abbreviation W := (walk_expr v).
Abbreviation WR := (walk_record_pattern v).

Lemma walk_exprs es es' : each_all walked es → yields (walk_each W es) es' → Forall2 sim es es'.
Proof. apply walk_each_all. intros e e' He. apply He. Qed.
Lemma walk_guard g g' : opt_all walked g → yields (walk_opt W g) g' → option_Forall2 sim g g'.
Proof. apply walk_opt_all. intros e e' He. apply He. Qed.
Lemma walk_string_sim s s' : str_all walked s → yields (walk_string W s) s' → str_sim s s'.
Proof.
  destruct s as [es]. cbn. intros Hes Hw. walk_inv. constructor. eapply walk_each_all; [|exact Hes|done].
  intros [l|e] e1 He Hx; cbn in *; walk_inv; constructor. by apply He.
Qed.
Hint Resolve walk_exprs walk_guard walk_string_sim : core.
Lemma walk_field_sim f f' : field_all walked f → yields (walk_field W f) f' → field_sim f f'.
Proof. destruct f as [n e]. cbn. intros [Hn He] Hw. walk_inv. constructor; auto. Qed.
Lemma walk_part_sim p p' : part_all walked p → yields (walk_part W p) p' → part_sim p p'.
Proof. destruct p. cbn. intros Hd Hw. walk_inv. constructor. auto. Qed.
Lemma walk_call_sim i i' : call_all walked i → yields (walk_invoke W i) i' → call_sim i i'.
Proof. destruct i. cbn. intros Hd Hw. walk_inv. constructor. auto. Qed.
Lemma walk_op_sim op op' : op_all walked op → yields (walk_patch_operation W op) op' → op_sim op op'.
Proof. destruct op; cbn; intros Ha Hw; walk_inv; constructor; (apply walk_string_sim || idtac); try tauto; by apply Ha. Qed.
Lemma walk_segments_sim ss ss' : each_all (seg_all walked) ss → yields (walk_each (walk_segment W) ss) ss' → Forall2 seg_sim ss ss'.
Proof.
  apply walk_each_all. intros [k|i|e|b e] s'; cbn; intros Ha Hw; walk_inv; constructor; by apply Ha.
Qed.
Lemma walk_path_sim p p' : path_all walked p → (∀ b var ss, p = ExprPath b var ss → base_sound b) →
  yields (walk_path v W p) p' → path_sim p p'.
Proof.
  intros [Hss _] Hb Hw. apply yields_bind in Hw as ([[e var]|] & Hp & Hw); walk_inv.
  - split; [by apply walk_segments_sim|]. intros o inp. by eapply (path_sound Hv).
  - destruct p as [i c ss|i c ss|ss|ss|ss|b var ss|ss|ss|ss]; walk_inv;
      (split; [by apply walk_segments_sim|intros o inp; cbn; alike]).
    + by apply (Hb _ _ _ eq_refl).
    + rewrite <-(args_kept Hv _ Hp). alike.
Qed.
Lemma walk_precondition_sim c c' : opt_all (λ p, each_all (seg_all walked) (segments p)) c →
  yields (walk_opt (walk_precondition W) c) c' → option_Forall2 precondition_sim c c'.
Proof.
  apply walk_opt_all. intros p p' Hss Hw. apply yields_bind in Hw as (ss & Hw & <-%yields_ret).
  pose proof (walk_segments_sim _ _ Hss Hw). by destruct p.
Qed.
Hint Resolve walk_precondition_sim : core.

Lemma walk_aps_sim ps ps' : each_all (ap_all walked walked_rp) ps →
  yields (walk_each (walk_array_predicate_pattern W WR) ps) ps' → Forall2 ap_sim ps ps'.
Proof. apply walk_each_all. intros [e|t|rp|] p'; cbn; intros Ha Hw; walk_inv; constructor; by apply Ha. Qed.
Hint Resolve walk_aps_sim : core.
Lemma walk_pp_sim p p' : pp_all walked walked_rp p → yields (walk_predicate_pattern W WR p) p' → pp_sim p p'.
Proof. destruct p; cbn; intros Ha Hw; walk_inv; constructor; auto. Qed.
Lemma walk_rp_sim rp : rp_all walked walked_rp rp → walked_rp rp.
Proof.
  intros Ha rp'. rewrite walk_record_pattern_unfold. destruct rp as [fs]. cbn. intros Hw. walk_inv.
  apply rp_step_sim. eapply walk_each_all; [|exact Ha|done]. apply walk_pp_sim.
Qed.
Lemma walk_pattern_sim p : ∀ p', pat_all walked walked_rp p → yields (walk_match_pattern W WR p) p' → pat_sim p p'.
Proof. induction p; intros p'; cbn; intros Ha Hw; walk_inv; constructor; auto. Qed.
Hint Resolve walk_pattern_sim : core.
Lemma walk_clause_sim c c' : clause_all walked walked_rp c → yields (walk_predicate_clause W WR c) c' → clause_sim c c'.
Proof. destruct c. intros (Hp & Hg & _ & He) Hw. cbn in *. walk_inv. constructor; auto. Qed.
Lemma walk_clauses_sim cs cs' : each_all (clause_all walked walked_rp) cs →
  yields (walk_each (walk_predicate_clause W WR) cs) cs' → Forall2 clause_sim cs cs'.
Proof. apply walk_each_all, walk_clause_sim. Qed.
Lemma walk_tree_sim t t' : each_all (entry_all walked) t → yields (walk_each (walk_entry W) t) t' → Forall2 entry_sim t t'.
Proof. apply walk_each_all. intros [k [es e]] y [_ He] Hw. cbn in *. walk_inv. constructor; auto. Qed.
Hint Resolve walk_clause_sim walk_clauses_sim walk_tree_sim : core.
Fixpoint walk_group_sim g g' : group_all walked walked_rp g → yields (walk_clause_group W WR g) g' → group_sim g g'.
Proof.
  destruct g as [c ps|c tree rest|c gs|c p]; cbn; intros [Hc Ha] Hw; walk_inv; constructor;
    try (clear walk_group_sim; naive_solver).
  match goal with H : yields (walk_each _ gs) ?l |- _ => revert l H end. clear Hc.
  induction gs as [|g gs IH]; cbn in *; intros gs' Hw; walk_inv; constructor; [|apply IH; [by apply Ha|done]].
  apply walk_group_sim; [by apply Ha|done].
Qed.
Lemma walk_default_sim d d' : default_all walked d → yields (walk_default_case W d) d' → default_sim d d'.
Proof. destruct d; cbn; intros Ha Hw; walk_inv; constructor; by apply Ha. Qed.
Lemma walk_cases_sim cs cs' : each_all (case_all walked) cs → yields (walk_each (walk_case W) cs) cs' → Forall2 case_sim cs cs'.
Proof. apply walk_each_all. intros [g es e] y (Hg & _ & He) Hw. cbn in *. walk_inv. constructor; auto. Qed.
Hint Resolve walk_default_sim walk_cases_sim walk_call_sim : core.

Lemma walk_children_sim e e' : sub_all walked walked_rp e → opt_all base_sound (base_of e) →
  yields (walk_children v W WR e) e' → sim e e'.
Proof.
  intros Hs Hb Hw. destruct e; cbn in Hs, Hw; walk_inv; apply sim_step; intros o inp; cbn [imut_step];
    destruct_and?; try solve [alike].
  - apply alike_fmap, record_fields_sim. eapply walk_each_all; [|exact Hs|done]. apply walk_field_sim.
  - apply patch_sim; [auto|]. eapply walk_each_all; [|done|done]. apply walk_op_sim.
  - apply match_sim; [auto| |eauto]. eapply walk_each_all; [|done|done]. apply walk_group_sim.
  - apply comprehension_sim; eauto.
  - apply path_runs_sim, walk_path_sim; [done| |done]. by intros b var ss ->.
  - apply path_runs_sim, walk_path_sim; [done| |done]. by intros b var ss ->.
  - apply invoke_sim. eauto.
  - apply invoke_sim. eauto.
  - apply invoke_sim. eauto.
  - apply invoke_sim. eauto.
  - apply alike_fmap, bytes_parts_sim. eapply walk_each_all; [|exact Hs|done]. apply walk_part_sim.
Qed.

(** A sound visitor gives an expression that runs alike. *)
Lemma walk_expr_sound e : bases_all base_sound e → walked e.
Proof.
  apply (imut_induction (λ e, bases_all base_sound e → walked e) (λ rp, bases_all_rp base_sound rp → walked_rp rp)).
  - intros e1 IH. rewrite bases_all_unfold. intros [Hb Hs] e'. rewrite walk_expr_unfold. intros Hw.
    apply yields_bind in Hw as ([e2|] & Hr & Hw).
    + eapply (leave_sound Hv); [|done]. by eapply (visit_sound Hv).
    + apply yields_bind in Hw as (e2 & Hc & Hw). eapply (leave_sound Hv); [|done].
      apply walk_children_sim; [|done|done]. by eapply sub_all_mp.
  - intros rp IH. rewrite bases_all_rp_unfold. intros Hs. apply walk_rp_sim. by eapply rp_all_mp.
Qed.
End walk.
End congruence.

(** Properties of computations that carry over from the hooks of a visitor to
    its walk. *)

(** ** What all hooks of a visitor do, a walk does

    A property of computations that holds of those that return and is kept by
    sequences. *)
Class walk_closed {St Er} (T : ∀ A, walk_m St Er A → Prop) : Prop := {
  closed_ret A (x : A) : T A (mret x);
  closed_bind A B (m : walk_m St Er A) (f : A → walk_m St Er B) : T A m → (∀ x, T B (f x)) → T B (m ≫= f);
}.

Section walk_closed.
Context `{sl : !script_lib} {St Er : Type} (holds_ : ∀ A, walk_m St Er A → Prop) `{tc : !walk_closed holds_}.
Abbreviation holds := (holds_ _).
Lemma holds_ret {A} (x : A) : holds (mret x).
Proof. apply closed_ret. Qed.
Lemma holds_bind {A B} (m : walk_m St Er A) (f : A → walk_m St Er B) : holds m → (∀ x, holds (f x)) → holds (m ≫= f).
Proof. apply closed_bind. Qed.
Lemma holds_each {A} (f : A → walk_m St Er A) l : each_all (λ x, holds (f x)) l → holds (walk_each f l).
Proof.
  induction l as [|x l IH]; cbn; [intros _; apply holds_ret|]. intros [Hx Hl].
  apply holds_bind; [done|]. intros y. apply holds_bind; [auto|]. intros ys. apply holds_ret.
Qed.
Lemma holds_opt {A} (f : A → walk_m St Er A) o : opt_all (λ x, holds (f x)) o → holds (walk_opt f o).
Proof. destruct o; cbn; intros H; [|apply holds_ret]. apply holds_bind; [done|]. intros y. apply holds_ret. Qed.
Ltac holds := repeat first [assumption | solve [auto] | apply holds_ret | apply holds_bind; [|intros ?]].

Variable v : visitor (St := St) (Er := Er).
Record visitor_holds : Prop := {
  visit_holds : ∀ e, holds (visit_expr v e);
  leave_holds : ∀ e, holds (leave_expr v e);
  path_holds : ∀ p, holds (visit_path v p);
}.
Hypothesis Hv : visitor_holds.
Abbreviation W := (walk_expr v).
Abbreviation WR := (walk_record_pattern v).
Abbreviation T := (λ e, holds (W e)).
Abbreviation T' := (λ rp, holds (WR rp)).

Lemma holds_parts {A} (P : A → Prop) (f : A → walk_m St Er A) l :
  (∀ x, P x → holds (f x)) → each_all P l → holds (walk_each f l).
Proof. intros H Hl. by apply holds_each, (each_all_impl P). Qed.
Lemma holds_exprs es : each_all T es → holds (walk_each W es).
Proof. apply holds_each. Qed.
Lemma holds_guard g : opt_all T g → holds (walk_opt W g).
Proof. apply holds_opt. Qed.
Lemma holds_string s : str_all T s → holds (walk_string W s).
Proof.
  destruct s as [es]. cbn. intros Hes. holds. revert Hes. apply holds_parts. intros [l|e]; cbn; intros He; holds.
Qed.
Hint Resolve holds_exprs holds_guard holds_string : core.
Lemma holds_field f : field_all T f → holds (walk_field W f).
Proof. destruct f. intros []. cbn. holds. Qed.
Lemma holds_op op : op_all T op → holds (walk_patch_operation W op).
Proof. destruct op; cbn; intros H; destruct_and?; holds. Qed.
Lemma holds_segments ss : each_all (seg_all T) ss → holds (walk_each (walk_segment W) ss).
Proof. apply holds_parts. intros []; cbn; intros H; destruct_and?; holds. Qed.
Hint Resolve holds_segments : core.
Lemma holds_base e : holds (visit_base v e).
Proof. unfold visit_base. pose proof (visit_holds Hv). holds. Qed.
Hint Resolve holds_base : core.
Lemma holds_path p : path_all T p → holds (walk_path v W p).
Proof.
  intros [Hss _]. apply holds_bind; [apply (path_holds Hv)|]. intros [[e var]|]; [holds|].
  destruct p; cbn in Hss; holds.
Qed.
Lemma holds_precondition c : opt_all (λ p, each_all (seg_all T) (segments p)) c → holds (walk_opt (walk_precondition W) c).
Proof. intros H. apply holds_opt. destruct c; cbn in *; unfold walk_precondition; holds. Qed.
Hint Resolve holds_precondition : core.
Lemma holds_aps ps : each_all (ap_all T T') ps → holds (walk_each (walk_array_predicate_pattern W WR) ps).
Proof. apply holds_parts. intros []; cbn; intros H; holds. Qed.
Hint Resolve holds_aps : core.
Lemma holds_rp rp : rp_all T T' rp → T' rp.
Proof.
  cbv beta. intros H. rewrite walk_record_pattern_unfold. destruct rp. cbn in *. holds. revert H. apply holds_parts.
  intros []; cbn; intros H; holds.
Qed.
Lemma holds_pattern p : pat_all T T' p → holds (walk_match_pattern W WR p).
Proof. induction p; cbn; intros H; holds. Qed.
Hint Resolve holds_pattern : core.
Lemma holds_clause c : clause_all T T' c → holds (walk_predicate_clause W WR c).
Proof. destruct c. intros (H1 & H2 & H3 & H4). cbn in *. holds. Qed.
Hint Resolve holds_clause : core.
Lemma holds_clauses cs : each_all (clause_all T T') cs → holds (walk_each (walk_predicate_clause W WR) cs).
Proof. apply holds_parts, holds_clause. Qed.
Lemma holds_tree t : each_all (entry_all T) t → holds (walk_each (walk_entry W) t).
Proof. apply holds_parts. intros [k [es e]] []. cbn in *. holds. Qed.
Hint Resolve holds_clauses holds_tree : core.
Fixpoint holds_group g : group_all T T' g → holds (walk_clause_group W WR g).
Proof.
  destruct g as [c ps|c tree rest|c gs|c p]; cbn; intros [Hc Ha];
    try (clear holds_group; destruct_and?; holds; fail).
  apply holds_bind; [auto|]. intros c'. apply holds_bind; [|intros ?; apply holds_ret].
  clear Hc. induction gs as [|g gs IH]; cbn in *; [apply holds_ret|].
  apply holds_bind; [apply holds_group; tauto|]. intros y. apply holds_bind; [apply IH; tauto|]. intros ?. apply holds_ret.
Qed.
Lemma holds_default d : default_all T d → holds (walk_default_case W d).
Proof. destruct d; cbn; intros H; destruct_and?; holds. Qed.
Lemma holds_case c : case_all T c → holds (walk_case W c).
Proof. destruct c. intros (H1 & H2 & H3). cbn in *. holds. Qed.
Lemma holds_call i : call_all T i → holds (walk_invoke W i).
Proof. destruct i. cbn. intros H. holds. Qed.
Lemma holds_part p : part_all T p → holds (walk_part W p).
Proof. destruct p. cbn. intros H. holds. Qed.
Hint Resolve holds_default holds_call holds_path : core.
Lemma holds_children e : sub_all T T' e → holds (walk_children v W WR e).
Proof.
  destruct e; cbn; intros H; destruct_and?; holds.
  - revert H. apply holds_parts, holds_field.
  - eapply holds_parts; [|done]. apply holds_op.
  - eapply holds_parts; [|done]. apply holds_group.
  - eapply holds_parts; [|done]. apply holds_case.
  - revert H. apply holds_parts, holds_part.
Qed.
Lemma walk_expr_holds e : holds (walk_expr v e).
Proof.
  apply (imut_induction T T'); [|apply holds_rp]. cbv beta. intros e1 H. rewrite walk_expr_unfold.
  apply holds_bind; [apply (visit_holds Hv)|]. intros [e2|]; [apply (leave_holds Hv)|].
  apply holds_bind; [by apply holds_children|]. intros e2. apply (leave_holds Hv).
Qed.
End walk_closed.

(** Rewriting arguments is evaluating them ahead of time.

    [ArgsRewriter] puts the value of the arguments of a subquery into its
    expressions.  It always succeeds, and what it returns does in any
    environment what the expression does where the arguments are that value. *)

(** ** The arguments *)
Section args.
Context `{sl : !script_lib, vt : !value_trait, ho : !hash_order string, an : !analysis, re : !registries}.
Variable a : value.

Definition total (A : Type) (m : walk_m helper up_error A) : Prop := ∀ h, ∃ h' x, m h = (h', WOk x).
Instance total_closed : walk_closed total.
Proof.
  split; [intros A x h; by eexists _, _|]. intros A B m f Hm Hf h.
  destruct (Hm h) as (h1 & x & E). destruct (Hf x h1) as (h2 & y & E'). exists h2, y.
  unfold mbind, walk_bind. by rewrite E.
Qed.
Lemma args_total : visitor_holds total (args_visitor a).
Proof.
  split; [intros e; apply closed_ret|intros e; apply closed_ret|].
  intros p. destruct p; try apply closed_ret. cbn.
  apply closed_bind.
  - intros h. unfold of_up, reserve_shadow, gets, var_id, mbind, up_bind. destruct (local_ids h !! _); by eexists _, _.
  - intros var. apply closed_bind; [intros h; by eexists _, _|]. intros ?. apply closed_ret.
Qed.
Lemma args_sound en : sound_visitor a en (args_visitor a).
Proof.
  split.
  - intros e e' H. by apply yields_ret in H.
  - intros e0 e e' He H. apply yields_ret in H. by subst.
  - intros p e var e' ss o inp Hp He. destruct p; try by apply yields_ret in Hp.
    apply yields_bind in Hp as (? & _ & (? & _ & [= <- <-]%yields_ret)%yields_bind).
    apply yields_bind in He as (? & <-%yields_ret & <-%yields_ret). cbn. by intros s.
  - intros ss Hp. apply yields_bind in Hp as (? & _ & (? & _ & H%yields_ret)%yields_bind). done.
Qed.

(** What is done is the same whatever the arguments are. *)
Definition ignores_args (e : imut_expr) : Prop :=
  ∀ b en o inp s, imut_run o (set_args b en) inp e s = imut_run o en inp e s.

(** C18: Rewriting the arguments of a subquery, or of a script, never fails, and the
    expression it gives does in every environment exactly what the expression
    does where the arguments have the given value: it has the same result or
    error and changes the same local variables.  The expressions of
    expression paths, which are not rewritten, may not depend on the
    arguments. *)
Theorem rewrite_expr_evaluates_args e h :
  bases_all ignores_args e →
  ∃ h' e', rewrite_expr a e h = (h', UOk e') ∧
    ∀ opts en inp s, imut_run opts en inp e' s = imut_run opts (set_args a en) inp e s.
Proof.
  intros Hb. destruct (walk_expr_holds total _ args_total e h) as (h' & e' & E).
  exists h', e'. unfold rewrite_expr, to_up. rewrite E. split; [done|]. intros opts en inp s. symmetry.
  apply alike_eq. apply (walk_expr_sound _ _ _ (args_sound en)); [|by eexists _, _].
  revert Hb. apply bases_all_impl. intros b Hb' b' Hw.
  apply yields_bind in Hw as (? & <-%yields_ret & <-%yields_ret). intros o i s'. rewrite Hb'. apply alike_refl.
Qed.
End args.

(** ** Examples *)
Module ArgsExample.
#[local] Existing Instance some_lib.
#[local] Existing Instance simd_value_trait.
#[local] Instance hash_order_some : hash_order string := some_order string.
#[local] Instance no_analysis : analysis :=
  Build_analysis some_lib (λ _, 0%N) (λ _ _, false) (λ _ _, false) val_eq
    (λ e f, match e, f with ILiteral v, ILiteral w => val_eq v w | _, _ => false end) (λ _ _, eq_refl).
#[local] Instance no_registries : registries := {|
  find_fn _ _ := None; find_aggr _ _ := None; aggr_valid_arity _ _ := false; new_extractor _ _ := None |}.

Definition x : string_lit := StringLit [SLit "x"].
Definition arg : imut_expr := IPath (ArgsPath [SegId "x"]).
(** [{"x": event}.x] *)
Definition event_x : imut_expr := IPath (ExprPath (IRecord ∅ [Field x (IPath (EventPath []))]) 0 [SegId "x"]).
(** [args.x + {"x": event}.x] *)
Definition sum : imut_expr := IBinary Add arg event_x.
Definition five : value := VObject {["x"%string := from_u64 5]}.

Lemma rewrite_expr_evaluates_args_witness :
  bases_all ignores_args sum ∧
  ∃ h' e', rewrite_expr five sum new_helper = (h', UOk e') ∧
    ∀ opts en inp s, imut_run opts en inp e' s = imut_run opts (set_args five en) inp sum s.
Proof.
  assert (bases_all ignores_args sum) as Hb.
  { cbn. repeat split. all: intros b en o inp s; reflexivity. }
  split; [exact Hb|]. apply (rewrite_expr_evaluates_args five sum new_helper). exact Hb.
Defined.

(** The expression of an expression path is not walked: [{"x": args.x}.x]
    stays as it is. *)
Example expression_path_kept :
  let e := IPath (ExprPath (IRecord ∅ [Field x arg]) 0 [SegId "x"]) in
  rewrite_expr five e new_helper = (new_helper, UOk e).
Proof. reflexivity. Qed.
End ArgsExample.
