(* ===== verification/QueryAst.v ===== *)
(** Queries as they leave the front end: tremor-script/src/ast/query.rs and
    ast/node_id.rs.  Source positions, the metadata of nodes and documentation
    are left out. *)
From S2P Require Import Prelude EventIds Value Event Window Interp OpsBasic ScriptOps Bits Ast.

Local Open Scope string_scope.

(** ** Names *)
Module NodeId.
Record t := mk { id : string; module : list string }.

Definition qualified (module : list string) (name : string) : string :=
  match module with [] => name | _ => String.concat "::" module +:+ "::" +:+ name end.
Definition fqn (self : t) : string := qualified (module self) (id self).
Definition target_fqn (target : string) (self : t) : string := qualified (module self) target.
End NodeId.

Section ast.
Context `{!script_lang, !Ast.script_lib}.

Abbreviation params := (gmap string value) (only parsing).

(** ** Declarations *)
Record OperatorKind := mk_kind { ok_module : string; ok_operation : string }.
Record OperatorDecl := mk_op_decl {
  od_node_id : NodeId.t;
  od_kind : OperatorKind;
  od_params : option params;
}.
Record ScriptDecl := mk_script_decl {
  sd_node_id : NodeId.t;
  sd_params : option params;
  sd_script : Interp.script;
}.
Inductive WindowKind := Sliding | Tumbling.
Record QueryWindow := mk_query_window {
  wd_node_id : NodeId.t;
  wd_kind : WindowKind;
  wd_params : params;
  wd_script : option Window.script;
}.
Record SubqueryDecl := mk_subquery_decl {
  qd_node_id : NodeId.t;
  qd_params : option params;
  qd_from : list string;
  qd_into : list string;
}.

(** ** Statements *)
Record OperatorStmt := mk_op_stmt {
  os_node_id : NodeId.t;
  os_target : string;
  os_params : option params;
}.
Record ScriptStmt := mk_script_stmt {
  ss_node_id : NodeId.t;
  ss_target : string;
  ss_params : option params;
}.
Record SubqueryStmt := mk_subquery_stmt {
  sq_module : list string;
  sq_id : string;
  port_stream_map : gmap string string;
}.
Record WindowDefn := mk_window_defn { wf_module : list string; wf_id : string }.
Definition fqwn (w : WindowDefn) : string := NodeId.qualified (wf_module w) (wf_id w).

(** A select: a stream or node and a port on both sides. *)
Record SelectStmt := mk_select_stmt {
  sel_from : string * string;
  sel_into : string * string;
  sel_stmt : select_stmt;
  sel_windows : list WindowDefn;
}.
Definition set_from (x : string) (s : SelectStmt) : SelectStmt :=
  mk_select_stmt (x, (sel_from s).2) (sel_into s) (sel_stmt s) (sel_windows s).
Definition set_into (x : string) (s : SelectStmt) : SelectStmt :=
  mk_select_stmt (sel_from s) (x, (sel_into s).2) (sel_stmt s) (sel_windows s).

Inductive Stmt :=
  | SWindowDecl (d : QueryWindow)
  | SStream (id : string)
  | SOperatorDecl (d : OperatorDecl)
  | SScriptDecl (d : ScriptDecl)
  | SOperator (s : OperatorStmt)
  | SScript (s : ScriptStmt)
  | SSubqueryDecl (d : SubqueryDecl)
  | SSubqueryStmt (s : SubqueryStmt)
  | SSelect (s : SelectStmt).

Record Query := mk_query {
  q_config : params;
  q_stmts : list Stmt;
  q_windows : gmap string QueryWindow;
  q_scripts : gmap string ScriptDecl;
  q_operators : gmap string OperatorDecl;
}.
End ast.

(** The script operator: tremor-pipeline/src/op/trickle/script.rs, with
    [ScriptDecl] of tremor-script/src/srs.rs. *)

(** The context a script sees ([EventContext::new]), and the text of an error
    with the source of the script it points into. *)
Class script_runtime `{!script_lib} := {
  new_context : u64 → option EventOriginUri.t → Ast.event_context;
  recursion_limit_ : N;
  format_error : serror → string;
}.

Module ScriptOp.
Section script_op.
Context `{!script_lang, !script_lib, !value_trait, !hash_order string, !script_runtime}.

Record t := mk { id : string; script : ScriptDecl }.

Definition set_args (args : value) (d : ScriptDecl) : ScriptDecl :=
  let s := sd_script d in
  mk_script_decl (sd_node_id d) (sd_params d)
    (Interp.Script (sc_exprs s) (sc_consts s) args (sc_group s) (sc_window s) (sc_aggregates s) (sc_locals s)).

(** The parameters become fields of [args], one after the other. *)
Definition insert_params (params : option (gmap string value)) (args : value) : value :=
  match params with
  | None => args
  | Some p => foldl (λ args kv, value_try_insert args kv.1 kv.2) args (hash_iter p)
  end.

(** [ScriptDecl::try_new_from_stmt] *)
Definition try_new_from_stmt (decl : Stmt) : result ScriptDecl :=
  match decl with
  | SScriptDecl script => Ok (set_args (insert_params (sd_params script) value_object) script)
  | _ => Err (EMsg "Trying to turn a non script into a script operator")
  end.
(** [ScriptDecl::apply_stmt] *)
Definition apply_stmt (stmt : Stmt) (self : ScriptDecl) : result ScriptDecl :=
  match stmt with
  | SScript instance => Ok (set_args (insert_params (ss_params instance) (sc_args (sd_script self))) self)
  | _ => Err (EMsg "Trying to turn something into script create that isn't a script create")
  end.

Definition with_stmt (id : string) (decl instance : Stmt) : result t :=
  script ← try_new_from_stmt decl;
  script ← apply_stmt instance script;
  Ok (mk id script).

(** The event a failed script leaves. *)
Definition error_value (e : serror) (event : value) : value :=
  VObject {["error"%string := VString (format_error e); "event"%string := event]}.

Definition on_event (_ : N) (_ : string) (state : value) (event : Event.t) (self : t) :
    t * value * result EventAndInsights.t :=
  let context := new_context (Event.ingest_ns event) (Event.origin_uri event) in
  let '((v, state, m), r) :=
    script_run (sd_script (script self)) context recursion_limit_ EmitAggr
      (Event.payload_value event) state (Event.payload_meta event) in
  let answer v port := Ok (EventAndInsights.from_events [(port, Event.set_data (ValueAndMeta.mk v m) event)]) in
  (self, state,
    match r with
    | SOk (RetEmitEvent port) => answer v (default OUT port)
    | SOk (RetEmit value port) => answer value (default OUT port)
    | SOk RetDrop => Ok EventAndInsights.default
    | SErr Panic => Err (EPanic "the script panics")
    | SErr e => answer (error_value e v) ERR
    end).

#[global] Instance operator : Operator t := {
  on_event := on_event;
  handles_signal := default_handles_signal;
  on_signal := default_on_signal;
  handles_contraflow := default_handles_contraflow;
  on_contraflow := default_on_contraflow;
  op_metrics := default_metrics;
  skippable := default_skippable;
}.
End script_op.
End ScriptOp.

#[export] Instance script_op_data `{!script_lang, !script_lib, !value_trait, !hash_order string, !script_runtime} :
  data_operator (λ _ : ScriptOp.t, True).
Proof.
  split.
  - intros o uid port st e o' st' r _ Hk. simpl. unfold ScriptOp.on_event.
    destruct (script_run _ _ _ _ _ _ _) as [[[v s] m] x].
    destruct x as [[]|[]]; intros; simplify_eq; solve [one_event|no_events|by split_and!].
  - intros; simpl in *; unfold default_on_signal in *; simplify_eq. no_events.
  - done.
Qed.
