(* ===== verification/Operators.v ===== *)
(** Operators by their names: [factory] and [operator] of
    tremor-pipeline/src/lib.rs, the wrapper of
    op/trickle/operator.rs, and [supported_operators] of query.rs. *)
From S2P Require Import Prelude Window Select Ast Interp SimpleSelect QueryAst.
From S2P Require Import EventIds Value Event OpsBasic Batch RoundRobin Backpressure Wal Graph Grouper.

(** ** Dispatch

    A handler of one operator as one of a type of operators that has it as a
    case. *)
Section lift.
Context {O B : Type} (inj : O → B).
Definition lift_event (r : O * value * result EventAndInsights.t) : B * value * result EventAndInsights.t :=
  let '(o, state, r) := r in (inj o, state, r).
Definition lift_signal (r : O * value * Event.t * result EventAndInsights.t) :
    B * value * Event.t * result EventAndInsights.t :=
  let '(o, state, signal, r) := r in (inj o, state, signal, r).
Definition lift_insight (r : O * Event.t) : B * Event.t := let '(o, insight) := r in (inj o, insight).
End lift.

(** ** Configurations

    A YAML value made of the parameters of a definition, and what the derived
    deserialisers make of it. *)
Class operator_configs := {
  yaml : Type;
  yaml_of_params : gmap string value → yaml;
  history_config : yaml → io (string * string);
  batch_config : yaml → io Batch.config;
  round_robin_config : yaml → io (list string);
  backpressure_config : yaml → io Backpressure.config;
  percentile_config : yaml → io Percentile.config;
  wal_config : yaml → io Wal.config;
}.

Record NodeConfig `{!operator_configs} := mk_node_config {
  nc_id : string;
  nc_kind : NodeKind;
  nc_op_type : string;
  nc_config : option yaml;
}.

Section library.
Context {Store W C : Type} `{!sled Store, !event_json, !time_window W, !lru_cache W C, !json_writer}.
Context `{!value_trait, !hash_order string, !operator_configs}.
(** [sled::open] of the directory of the configuration, or a temporary one. *)
Context (open_store : Wal.config → io Store).

(** ** The operators of the library *)
Inductive lib_op :=
  | OPassthrough (o : Passthrough.t)
  | OHistory (o : History.t)
  | OGrouper (o : Grouper.t (C := C))
  | OBatch (o : Batch.t)
  | OCounter (o : Counter.t)
  | OBackpressure (o : Backpressure.t)
  | ORoundRobin (o : RoundRobin.t)
  | OWal (o : Wal.t Store)
  | OPercentile (o : Percentile.t).

#[global] Instance lib_operator : Operator lib_op := {
  on_event uid port state event op :=
    match op with
    | OPassthrough o => lift_event OPassthrough (on_event uid port state event o)
    | OHistory o => lift_event OHistory (on_event uid port state event o)
    | OGrouper o => lift_event OGrouper (on_event uid port state event o)
    | OBatch o => lift_event OBatch (on_event uid port state event o)
    | OCounter o => lift_event OCounter (on_event uid port state event o)
    | OBackpressure o => lift_event OBackpressure (on_event uid port state event o)
    | ORoundRobin o => lift_event ORoundRobin (on_event uid port state event o)
    | OWal o => lift_event OWal (on_event uid port state event o)
    | OPercentile o => lift_event OPercentile (on_event uid port state event o)
    end;
  handles_signal op :=
    match op with
    | OPassthrough o => handles_signal o | OHistory o => handles_signal o | OGrouper o => handles_signal o
    | OBatch o => handles_signal o | OCounter o => handles_signal o | OBackpressure o => handles_signal o
    | ORoundRobin o => handles_signal o | OWal o => handles_signal o | OPercentile o => handles_signal o
    end;
  on_signal uid state signal op :=
    match op with
    | OPassthrough o => lift_signal OPassthrough (on_signal uid state signal o)
    | OHistory o => lift_signal OHistory (on_signal uid state signal o)
    | OGrouper o => lift_signal OGrouper (on_signal uid state signal o)
    | OBatch o => lift_signal OBatch (on_signal uid state signal o)
    | OCounter o => lift_signal OCounter (on_signal uid state signal o)
    | OBackpressure o => lift_signal OBackpressure (on_signal uid state signal o)
    | ORoundRobin o => lift_signal ORoundRobin (on_signal uid state signal o)
    | OWal o => lift_signal OWal (on_signal uid state signal o)
    | OPercentile o => lift_signal OPercentile (on_signal uid state signal o)
    end;
  handles_contraflow op :=
    match op with
    | OPassthrough o => handles_contraflow o | OHistory o => handles_contraflow o
    | OGrouper o => handles_contraflow o | OBatch o => handles_contraflow o
    | OCounter o => handles_contraflow o | OBackpressure o => handles_contraflow o
    | ORoundRobin o => handles_contraflow o | OWal o => handles_contraflow o
    | OPercentile o => handles_contraflow o
    end;
  on_contraflow uid insight op :=
    match op with
    | OPassthrough o => lift_insight OPassthrough (on_contraflow uid insight o)
    | OHistory o => lift_insight OHistory (on_contraflow uid insight o)
    | OGrouper o => lift_insight OGrouper (on_contraflow uid insight o)
    | OBatch o => lift_insight OBatch (on_contraflow uid insight o)
    | OCounter o => lift_insight OCounter (on_contraflow uid insight o)
    | OBackpressure o => lift_insight OBackpressure (on_contraflow uid insight o)
    | ORoundRobin o => lift_insight ORoundRobin (on_contraflow uid insight o)
    | OWal o => lift_insight OWal (on_contraflow uid insight o)
    | OPercentile o => lift_insight OPercentile (on_contraflow uid insight o)
    end;
  op_metrics tags timestamp op :=
    match op with
    | OPassthrough o => op_metrics tags timestamp o | OHistory o => op_metrics tags timestamp o
    | OGrouper o => op_metrics tags timestamp o | OBatch o => op_metrics tags timestamp o
    | OCounter o => op_metrics tags timestamp o | OBackpressure o => op_metrics tags timestamp o
    | ORoundRobin o => op_metrics tags timestamp o | OWal o => op_metrics tags timestamp o
    | OPercentile o => op_metrics tags timestamp o
    end;
  skippable op :=
    match op with
    | OPassthrough o => skippable o | OHistory o => skippable o | OGrouper o => skippable o
    | OBatch o => skippable o | OCounter o => skippable o | OBackpressure o => skippable o
    | ORoundRobin o => skippable o | OWal o => skippable o | OPercentile o => skippable o
    end;
}.

(** [if let Some(map) = &node.config] and [Config::new]. *)
Definition with_config {A} (node : NodeConfig) (read : yaml → io A) (make : A → result lib_op) : result lib_op :=
  match nc_config node with
  | Some map => config ← from_io (read map); make config
  | None => Err (EMissingOpConfig (nc_id node))
  end.

Definition make_backpressure (node : NodeConfig) : result lib_op :=
  with_config node backpressure_config (λ c, Ok (OBackpressure (Backpressure.from_config c))).

(** [factory] and [from_node] *)
Definition operator (uid : u64) (node : NodeConfig) : result lib_op :=
  let name_parts := Select.split_path (nc_op_type node) in
  let is_ l := bool_decide (name_parts = l) in
  if is_ ["passthrough"] then Ok (OPassthrough Passthrough.mk)
  else if is_ ["debug"; "history"] then
    with_config node history_config (λ c, Ok (OHistory (History.mk c.1 c.2 (nc_id node))))
  else if is_ ["grouper"; "bucket"] then
    OGrouper <$> Grouper.from_node (nc_id node) (bool_decide (is_Some (nc_config node)))
  else if is_ ["generic"; "batch"] then
    with_config node batch_config (λ c, Ok (OBatch (Batch.from_config uid (nc_id node) c)))
  else if is_ ["generic"; "backpressure"] then make_backpressure node
  else if is_ ["generic"; "counter"] then Ok (OCounter Counter.mk)
  else if is_ ["qos"; "backpressure"] then make_backpressure node
  else if is_ ["qos"; "roundrobin"] then
    with_config node round_robin_config (λ c, ORoundRobin <$> RoundRobin.from_node (nc_id node) (Some c))
  else if is_ ["qos"; "wal"] then
    with_config node wal_config (λ c,
      match Wal.max_elements c, Wal.max_bytes c with
      | None, None => Err (EBadOpConfig
          "WAL operator needs at least one of `max_elements` or `max_bytes` config entries.")
      | _, _ => s ← from_io (open_store c); OWal <$> Wal.new (nc_id node) c s
      end)
  else if is_ ["qos"; "percentile"] then
    with_config node percentile_config (λ c, Ok (OPercentile (Percentile.from_config c)))
  else
    match name_parts with
    | [namespace; name] => Err (EUnknownOp namespace name)
    | _ => Err (EUnknownNamespace (nc_op_type node))
    end%string.

(** ** The operators of a query *)
Context `{!script_lang, !event_target, !script_lib, !script_runtime}.

Inductive boxed :=
  | BLib (o : lib_op)
  | BTrickle (id : string) (o : lib_op)
  | BSelect (o : Select.t)
  | BSimple (o : SimpleSelect.t)
  | BScript (o : ScriptOp.t).

#[global] Instance boxed_operator : Operator boxed := {
  on_event uid port state event op :=
    match op with
    | BLib o => lift_event BLib (on_event uid port state event o)
    | BTrickle id o => lift_event (BTrickle id) (on_event uid port state event o)
    | BSelect o => lift_event BSelect (on_event uid port state event o)
    | BSimple o => lift_event BSimple (on_event uid port state event o)
    | BScript o => lift_event BScript (on_event uid port state event o)
    end;
  handles_signal op :=
    match op with
    | BLib o => handles_signal o | BTrickle _ o => handles_signal o | BSelect o => handles_signal o
    | BSimple o => handles_signal o | BScript o => handles_signal o
    end;
  on_signal uid state signal op :=
    match op with
    | BLib o => lift_signal BLib (on_signal uid state signal o)
    | BTrickle id o => lift_signal (BTrickle id) (on_signal uid state signal o)
    | BSelect o => lift_signal BSelect (on_signal uid state signal o)
    | BSimple o => lift_signal BSimple (on_signal uid state signal o)
    | BScript o => lift_signal BScript (on_signal uid state signal o)
    end;
  handles_contraflow op :=
    match op with
    | BLib o => handles_contraflow o | BTrickle _ o => handles_contraflow o
    | BSelect o => handles_contraflow o | BSimple o => handles_contraflow o
    | BScript o => handles_contraflow o
    end;
  on_contraflow uid insight op :=
    match op with
    | BLib o => lift_insight BLib (on_contraflow uid insight o)
    | BTrickle id o => lift_insight (BTrickle id) (on_contraflow uid insight o)
    | BSelect o => lift_insight BSelect (on_contraflow uid insight o)
    | BSimple o => lift_insight BSimple (on_contraflow uid insight o)
    | BScript o => lift_insight BScript (on_contraflow uid insight o)
    end;
  op_metrics tags timestamp op :=
    match op with
    | BLib o => op_metrics tags timestamp o | BTrickle _ o => op_metrics tags timestamp o
    | BSelect o => op_metrics tags timestamp o | BSimple o => op_metrics tags timestamp o
    | BScript o => op_metrics tags timestamp o
    end;
  skippable op :=
    match op with
    | BLib o => skippable o | BTrickle _ o => skippable o | BSelect o => skippable o
    | BSimple o => skippable o | BScript o => skippable o
    end;
}.

(** [TrickleOperator::with_stmt] with [mk_node_config]. *)
Definition trickle_node_config (id op_type : string) (config : option (gmap string value)) : NodeConfig :=
  mk_node_config _ id KOperator op_type (yaml_of_params <$> config).
Definition trickle_with_stmt (operator_uid : u64) (id : string) (decl : Stmt) : result boxed :=
  match decl with
  | SOperatorDecl op =>
    let config := trickle_node_config (NodeId.id (od_node_id op))
      (ok_module (od_kind op) +:+ "::" +:+ ok_operation (od_kind op)) (od_params op) in
    BTrickle id <$> operator operator_uid config
  | _ => Err (EMsg "Error detected in trickle: Trying to turn a non operator into a operator")
  end.

Definition NEEDS_STMT : error := EMissingOpConfig "trickle operators require a statement".

(** The windows of a select, in the order it names them. *)
Definition select_windows (known : gmap string Impl) (ws : list WindowDefn) : result (list (string * Impl)) :=
  foldr (λ w r,
    match known !! fqwn w with
    | Some imp => l ← r; Ok ((wf_id w, imp) :: l)
    | None => Err (EBadOpConfig ("Unknown window: " +:+ fqwn w))
    end) (Ok []) ws.

(** [select] of query.rs *)
Definition select (operator_uid : u64) (config : NodeConfig) (node : option Stmt)
    (windows : option (gmap string Impl)) : result boxed :=
  match node with
  | None => Err NEEDS_STMT
  | Some (SSelect s) =>
    match complexity (sel_stmt s) (sel_windows s) with
    | SelPassthrough => Ok (BLib (OPassthrough Passthrough.mk))
    | SelSimple => Ok (BSimple (SimpleSelect.mk (nc_id config) (sel_stmt s)))
    | SelNormal =>
      match windows with
      | None => Err (EMissingOpConfig "select operators require a window mapping")
      | Some windows =>
        ws ← select_windows windows (sel_windows s);
        Ok (BSelect (Select.with_stmt operator_uid ws (sel_stmt s)))
      end
    end
  | Some _ => Err (EMsg "Error detected in trickle: Trying to turn a non select into a select operator")
  end.

Definition trickle_operator (operator_uid : u64) (config : NodeConfig) (node : option Stmt) : result boxed :=
  match node with
  | None => Err NEEDS_STMT
  | Some node => trickle_with_stmt operator_uid (nc_id config) node
  end.

Definition trickle_script (config : NodeConfig) (defn node : option Stmt) : result boxed :=
  match node with
  | None => Err NEEDS_STMT
  | Some node =>
    match defn with
    | None => Err (EMsg "Script definition missing")
    | Some defn => BScript <$> ScriptOp.with_stmt (nc_id config) defn node
    end
  end.

(** [supported_operators] *)
Definition supported_operators (config : NodeConfig) (uid : u64) (defn node : option Stmt)
    (windows : option (gmap string Impl)) : result (OperatorNode boxed) :=
  let name_parts := Select.split_path (nc_op_type config) in
  op ← (if bool_decide (name_parts = ["trickle"; "select"]) then select uid config node windows
        else if bool_decide (name_parts = ["trickle"; "operator"]) then trickle_operator uid config node
        else if bool_decide (name_parts = ["trickle"; "script"]) then trickle_script config defn node
        else BLib <$> operator uid config)%string;
  Ok (mk_node (nc_id config) (nc_kind config) (nc_op_type config) op uid).
End library.
