(* ===== verification/Query.v ===== *)
(** From queries to pipelines: tremor-pipeline/src/query.rs.

    [to_pipe] builds a node for every statement that runs, connects them and
    turns the result into an executable graph.  The directed graph and the
    test for cycles are those of the crate petgraph. *)
From stdpp Require Import pretty.
From S2P Require Import Prelude Window Select Ast Interp SimpleSelect QueryAst.
From S2P Require Import EventIds Value Event Graph Optimize Wal Grouper Operators.

(** [is_cyclic_directed] on the number of nodes and the edges: whether a node
    can be reached from itself. *)
Class petgraph := {
  is_cyclic_directed : nat → list (nat * nat) → bool;
  is_cyclic_spec n es :
    is_cyclic_directed n es = true ↔ ∃ x, tc (λ a b, (a, b) ∈ es) x x;
}.

Definition BUILTIN_NODES : list (string * NodeKind) :=
  [(IN, KInput); (OUT, KOutput OUT); (ERR, KOutput ERR); (METRICS, KOutput METRICS)].
(** [make_builtin_node_name_checker] *)
Definition has_builtin_node_name (name : string) : bool := bool_decide (name ∈ BUILTIN_NODES.*1).

Section query.
Context {Store W C : Type} `{!sled Store, !event_json, !time_window W, !lru_cache W C, !json_writer}.
Context `{!value_trait, !hash_order string, !hash_order (nat * string), !operator_configs}.
Context `{!script_lang, !event_target, !script_lib, !script_runtime, !petgraph}.
Context (open_store : Wal.config → io Store).

Abbreviation op := (boxed (Store := Store) (C := C)).

(** [window_decl_to_impl] *)
Definition window_decl_to_impl (d : QueryWindow) : result Impl :=
  match wd_kind d with
  | Sliding => Err (EMsg "Sliding windows are not yet implemented")
  | Tumbling =>
    let script := match wd_script d with Some _ => Some (mk_decl (wd_script d)) | None => None end in
    let max_groups := default DEFAULT_MAX_GROUPS (wd_params d !! "max_groups" ≫= as_usize) in
    match wd_params d !! "interval" ≫= as_u64, wd_params d !! "size" ≫= as_u64 with
    | Some interval, None => Ok (TumblingTimeBased (time_from_stmt interval max_groups script))
    | None, Some size => Ok (TumblingCountBased (number_from_stmt size max_groups script))
    | Some _, Some _ =>
      Err (EMsg "Bad window configuration, only one of `size` or `interval` is allowed.")
    | None, None =>
      Err (EMsg "Bad window configuration, either `size` or `interval` is required.")
    end
  end%string.

(** The windows every select can use. *)
Fixpoint window_impls (ws : list (string * QueryWindow)) (ww : gmap string Impl) : result (gmap string Impl) :=
  match ws with
  | [] => Ok ww
  | (name, decl) :: ws => imp ← window_decl_to_impl decl; window_impls ws (<[name := imp]> ww)
  end.

(** ** The variables of [to_pipe] *)
Record builder := mk_builder {
  idgen : u64;
  cfgs : list NodeConfig;
  ops : gmap nat (OperatorNode op);
  nodes : gmap string nat;
  b_inputs : gmap string nat;
  links : list ((string * string) * (string * string));
  subqueries : gmap string SubqueryStmt;
  select_num : N;
}.

Definition build (A : Type) : Type := builder → builder * result A.
#[export] Instance build_ret : MRet build := λ A a b, (b, Ok a).
#[export] Instance build_bind : MBind build := λ A B f m b,
  match m b with (b, Ok a) => f a b | (b, Err e) => (b, Err e) end.

Definition throw {A} (e : error) : build A := λ b, (b, Err e).
Definition lift {A} (r : result A) : build A := λ b, (b, r).
Definition gets {A} (f : builder → A) : build A := λ b, (b, Ok (f b)).
Definition modify (f : builder → builder) : build unit := λ b, (f b, Ok tt).

Definition set_idgen (x : u64) b := mk_builder x (cfgs b) (ops b) (nodes b) (b_inputs b) (links b) (subqueries b) (select_num b).
Definition add_cfg (c : NodeConfig) b :=
  mk_builder (idgen b) (cfgs b ++ [c]) (ops b) (nodes b) (b_inputs b) (links b) (subqueries b) (select_num b).
Definition insert_op (i : nat) (o : OperatorNode op) b :=
  mk_builder (idgen b) (cfgs b) (<[i := o]> (ops b)) (nodes b) (b_inputs b) (links b) (subqueries b) (select_num b).
Definition insert_node (name : string) (i : nat) b :=
  mk_builder (idgen b) (cfgs b) (ops b) (<[name := i]> (nodes b)) (b_inputs b) (links b) (subqueries b) (select_num b).
Definition insert_input (name : string) (i : nat) b :=
  mk_builder (idgen b) (cfgs b) (ops b) (nodes b) (<[name := i]> (b_inputs b)) (links b) (subqueries b) (select_num b).
Definition push_link (from to : string * string) b :=
  mk_builder (idgen b) (cfgs b) (ops b) (nodes b) (b_inputs b) (links b ++ [(from, to)]) (subqueries b) (select_num b).
Definition insert_subquery (s : SubqueryStmt) b :=
  mk_builder (idgen b) (cfgs b) (ops b) (nodes b) (b_inputs b) (links b) (<[sq_id s := s]> (subqueries b)) (select_num b).
Definition next_select b :=
  mk_builder (idgen b) (cfgs b) (ops b) (nodes b) (b_inputs b) (links b) (subqueries b) (select_num b + 1).

(** [idgen.next_id()] *)
Definition next_id : build u64 := λ b, let id := u64_add (idgen b) 1 in (set_idgen id b, Ok id).

(** A node of the graph with its operator, under a name. *)
Definition place (name : string) (kind : NodeKind) (op_type : string) (defn node : option Stmt)
    (windows : option (gmap string Impl)) : build nat :=
  id ← gets (λ b, length (cfgs b));
  let cfg := mk_node_config _ name kind op_type None in
  _ ← modify (add_cfg cfg);
  uid ← next_id;
  o ← lift (supported_operators open_store cfg uid defn node windows);
  _ ← modify (insert_op id o);
  _ ← modify (insert_node name id);
  mret id.

Definition place_input (name : string) : build unit :=
  id ← place name KInput "passthrough" None None None;
  modify (insert_input name id).

Fixpoint place_builtin (l : list (string * NodeKind)) : build unit :=
  match l with
  | [] => mret tt
  | (name, kind) :: l =>
    _ ← match kind with
        | KInput => place_input name
        | _ => _ ← place name kind "passthrough" None None None; mret tt
        end;
    place_builtin l
  end.

(** ** Statements *)

(** One side of a select: the port of a subquery becomes its stream. *)
Definition rewrite_port (io : string * string) : build string :=
  subqueries ← gets subqueries;
  match subqueries !! io.1 with
  | None => mret io.1
  | Some s =>
    match port_stream_map s !! io.2 with
    | Some internal_stream => mret internal_stream
    | None => throw (ESubqueryUnknownPort io.1 io.2)
    end
  end.

(** Ports of the pipeline other than its own ones become nodes. *)
Definition resolve_from (from : string * string) : build (string * string) :=
  if bool_decide (from.1 = IN) && negb (bool_decide (from.2 = OUT)) then
    let name := "in/" +:+ from.2 in
    known ← gets (λ b, bool_decide (is_Some (nodes b !! name)));
    _ ← (if (known : bool) then mret tt else place_input name);
    mret (name, from.2)
  else mret from.
Definition resolve_into (into : string * string) : build (string * string) :=
  if bool_decide (into.1 = OUT) && negb (bool_decide (into.2 = IN)) then
    let name := "out/" +:+ into.2 in
    known ← gets (λ b, bool_decide (is_Some (nodes b !! name)));
    _ ← (if (known : bool) then mret tt
         else _ ← place name (KOutput into.2) "passthrough" None None None; mret tt);
    mret (name, into.2)
  else mret into.

Definition select_stmt_ (windows : list (string * QueryWindow)) (select : SelectStmt) : build unit :=
  from ← rewrite_port (sel_from select);
  into ← rewrite_port (sel_into select);
  let from := (from, (sel_from select).2) in
  let into := (into, (sel_into select).2) in
  known ← gets (λ b, bool_decide (is_Some (nodes b !! from.1)));
  if negb known then throw (EQueryStreamNotDefined from.1)
  else
    num ← gets select_num;
    let name := "select_" +:+ pretty num in
    _ ← modify next_select;
    from ← resolve_from from;
    into ← resolve_into into;
    _ ← modify (push_link from (name, IN));
    _ ← modify (push_link (name, OUT) into);
    ww ← lift (window_impls windows ∅);
    _ ← place name KSelect "trickle::select" None (Some (SSelect select)) (Some ww);
    mret tt.

(** The name of a new operator or script. *)
Definition check_name (name : string) : build unit :=
  known ← gets (λ b, bool_decide (is_Some (nodes b !! name)));
  if (known : bool) then
    throw (if has_builtin_node_name name then EQueryNodeReservedName name else EQueryNodeDuplicateName name)
  else mret tt.

(** The parameters of an instance replace those of its definition. *)
Definition instance_decl (o : OperatorStmt) (decl : OperatorDecl) : OperatorDecl :=
  match os_params o with
  | None => decl
  | Some params =>
    mk_op_decl (od_node_id decl) (od_kind decl)
      (Some (match od_params decl with Some decl_params => params ∪ decl_params | None => params end))
  end.

Definition stmt_step (q : Query) (stmt : Stmt) : build unit :=
  match stmt with
  | SSelect select => select_stmt_ (hash_iter (q_windows q)) select
  | SStream name =>
    known ← gets (λ b, bool_decide (is_Some (nodes b !! name)));
    if (known : bool) then throw (EDoubleStream name)
    else
      id ← place name KOperator "passthrough" None (Some stmt) (Some ∅);
      modify (insert_input name id)
  | SWindowDecl _ | SScriptDecl _ | SOperatorDecl _ | SSubqueryDecl _ => mret tt
  | SSubqueryStmt s =>
    known ← gets (λ b, bool_decide (is_Some (subqueries b !! sq_id s)));
    if (known : bool) then throw (EDoubleSubqueryStmt (sq_id s)) else modify (insert_subquery s)
  | SOperator o =>
    let name := NodeId.id (os_node_id o) in
    _ ← check_name name;
    match q_operators q !! NodeId.target_fqn (os_target o) (os_node_id o) with
    | None => throw (EMsg "operator not found")
    | Some decl =>
      _ ← place name KOperator "trickle::operator" None (Some (SOperatorDecl (instance_decl o decl))) None;
      mret tt
    end
  | SScript o =>
    let name := NodeId.id (ss_node_id o) in
    _ ← check_name name;
    match q_scripts q !! NodeId.target_fqn (ss_target o) (ss_node_id o) with
    | None => throw (EMsg "script not found")
    | Some decl =>
      _ ← place name KScript "trickle::script" (Some (SScriptDecl decl)) (Some stmt) None;
      mret tt
    end
  end.

Fixpoint stmts_loop (q : Query) (stmts : list Stmt) : build unit :=
  match stmts with
  | [] => mret tt
  | stmt :: stmts => _ ← stmt_step q stmt; stmts_loop q stmts
  end.

(** Names of subqueries must not be those of nodes. *)
Fixpoint check_subqueries (ids : list (string * SubqueryStmt)) : build unit :=
  match ids with
  | [] => mret tt
  | (id, _) :: ids => _ ← check_name id; check_subqueries ids
  end.

(** ** Edges *)
Abbreviation port_map_ := (gmap (nat * string) (list (nat * string))).

Fixpoint link_edges (nodes : gmap string nat) (ls : list ((string * string) * (string * string)))
    (ports : port_map_) (edges : list (nat * nat)) : result (port_map_ * list (nat * nat)) :=
  match ls with
  | [] => Ok (ports, edges)
  | (from, to) :: ls =>
    from_idx ← ok_or (nodes !! from.1) (EQueryStreamNotDefined from.1);
    to_idx ← ok_or (nodes !! to.1) (EQueryStreamNotDefined to.1);
    let conns := default [] (ports !! (from_idx, from.2)) in
    link_edges nodes ls (<[(from_idx, from.2) := conns ++ [(to_idx, to.2)]]> ports)
      (edges ++ [(from_idx, to_idx)])
  end.

(** ** The executable graph *)

(** The loop over the nodes: their operators, in order. *)
Fixpoint collect_ops (ops : gmap nat (OperatorNode op)) (indices : list nat) : result (list (OperatorNode op)) :=
  match indices with
  | [] => Ok []
  | nx :: indices =>
    o ← ok_or (ops !! nx) (EMsg "Invalid pipeline can't find node");
    rest ← collect_ops (delete nx ops) indices;
    Ok (o :: rest)
  end.

Definition positions (f : op → bool) (graph : list (OperatorNode op)) : list nat :=
  imap pair graph ≫= λ io, if f (node_op io.2) then [io.1] else [].

(** [i2pos]: nodes are numbered as they were added. *)
Definition i2pos (n i : nat) : option nat := if decide (i < n)%nat then Some i else None.

(** The connections and inputs by position. *)
Fixpoint position_ports (n : nat) (ports : list ((nat * string) * list (nat * string))) (acc : port_map_) :
    result port_map_ :=
  match ports with
  | [] => Ok acc
  | ((i1, s1), connections) :: ports =>
    let connections := omap (λ c, (λ i, (i, c.2)) <$> i2pos n c.1) connections in
    k ← ok_or (i2pos n i1) (EMsg "Invalid graph");
    position_ports n ports (<[(k, s1) := connections]> acc)
  end.
Fixpoint position_inputs (n : nat) (ins : list (string * nat)) (acc : gmap string nat) : result (gmap string nat) :=
  match ins with
  | [] => Ok acc
  | (k, idx) :: ins => v ← ok_or (i2pos n idx) (EMsg "Invalid graph"); position_inputs n ins (<[k := v]> acc)
  end.

Definition config_str (q : Query) (k : string) : option string := q_config q !! k ≫= as_str.

(** Everything but [optimize]. *)
Definition assemble (q : Query) (b : builder) : result (ExecutableGraph op) :=
  pe ← link_edges (nodes b) (links b) ∅ [];
  let '(ports, edges) := pe in
  let n := length (cfgs b) in
  if is_cyclic_directed n edges then Err ECyclicGraph
  else
    graph ← collect_ops (ops b) (seq 0 n);
    let contraflow := reverse (positions handles_contraflow graph) in
    let signalflow := positions handles_signal graph in
    ports ← position_ports n (hash_iter ports) ∅;
    inputs ← position_inputs n (hash_iter (b_inputs b)) ∅;
    metrics_idx ← ok_or (nodes b !! METRICS ≫= i2pos n) (EMsg "metrics node missing");
    Ok (mk_graph (default "<generated>"%string (config_str q "id")) graph
          (replicate (length graph) const_null) inputs [] signalflow contraflow ports
          (replicate (length graph) NodeMetrics.default) metrics_idx 0
          ((λ i, u64_mul i 1000000000) <$> (q_config q !! "metrics_interval_s"%string ≫= as_u64)) []).

Definition build_nodes (q : Query) : build unit :=
  _ ← place_builtin BUILTIN_NODES;
  _ ← stmts_loop q (q_stmts q);
  subqueries ← gets subqueries;
  check_subqueries (hash_iter subqueries).

Definition new_builder (idgen : u64) : builder := mk_builder idgen [] ∅ ∅ ∅ [] ∅ 0.

(** [Query::to_pipe] *)
Definition to_pipe (q : Query) (idgen_ : u64) : u64 * result (ExecutableGraph op) :=
  match build_nodes q (new_builder idgen_) with
  | (b, Err e) => (idgen b, Err e)
  | (b, Ok _) => (idgen b, g ← assemble q b; Ok (optimize g).1)
  end.
End query.
