(* ===== verification/QuerySpec.v ===== *)
(** What a query becomes: the pipelines built by [to_pipe] are well formed and
    acyclic, so that every event and signal is processed to completion. *)
From S2P Require Import Prelude Window Select Ast Interp SimpleSelect QueryAst.
From S2P Require Import EventIds Value Event OpsBasic Batch RoundRobin Backpressure Graph GraphSpec Optimize Wal.
From S2P Require Import Grouper Operators Query.

(** ** Graphs without cycles have a rank *)
Fixpoint reach (es : list (nat * nat)) (a x : nat) : bool :=
  match es with
  | [] => bool_decide (a = x)
  | (u, v) :: es => reach es a x || reach es a u && reach es v x
  end.

Abbreviation edge es := (λ a b : nat, (a, b) ∈ es).

Lemma edge_mono e es a b : rtc (edge es) a b → rtc (edge (e :: es)) a b.
Proof. apply rtc_subrel. intros x y Hxy. by right. Qed.

Lemma tc_mono e es a b : tc (edge es) a b → tc (edge (e :: es)) a b.
Proof.
  induction 1 as [x y Hxy|x y z Hxy _ IH]; [by apply tc_once; right|]. apply tc_l with y; [by right|done].
Qed.

Lemma reach_trans es a b c : reach es a b → reach es b c → reach es a c.
Proof.
  revert a b c. induction es as [|[u v] es IH]; intros a b c; simpl.
  - by intros ->%bool_decide_unpack ->%bool_decide_unpack; apply bool_decide_pack.
  - rewrite !orb_True, !andb_True. intros [Hab|[Hau Hvb]] [Hbc|[Hbu Hvc]].
    + left. by eapply IH.
    + right. split; [by eapply IH|done].
    + right. split; [done|by eapply IH].
    + by right.
Qed.

Lemma reach_refl es a : reach es a a.
Proof. induction es as [|[u v] es IH]; simpl; [by apply bool_decide_pack|]. apply orb_True. by left. Qed.

Lemma reach_rtc es a x : reach es a x ↔ rtc (edge es) a x.
Proof.
  split.
  - revert a x. induction es as [|[u v] es IH]; intros a x; simpl.
    + by intros ->%bool_decide_unpack.
    + rewrite orb_True, andb_True. intros [H|[Hau Hvx]]; [by apply edge_mono, IH|].
      trans u; [by apply edge_mono, IH|]. apply rtc_l with v; [by left|]. by apply edge_mono, IH.
  - induction 1 as [a|a b x Hab _ IH]; [apply reach_refl|]. eapply reach_trans; [|exact IH]. clear IH x.
    induction es as [|[u v] es IH]; [by apply elem_of_nil in Hab|]. simpl. rewrite orb_True, andb_True.
    apply elem_of_cons in Hab as [[= -> ->]|Hab]; [right; split; apply reach_refl|left; by apply IH].
Qed.

(** A test for cycles: an edge whose end leads back to its start. *)
Definition cyclic (es : list (nat * nat)) : bool := existsb (λ e, reach es e.2 e.1) es.

Lemma cyclic_spec es : cyclic es = true ↔ ∃ x, tc (edge es) x x.
Proof.
  unfold cyclic. rewrite existsb_exists. split.
  - intros ([u v] & Hin & Hr). apply list_elem_of_In in Hin. exists u. apply tc_rtc_r with v; [by apply tc_once|].
    apply reach_rtc. by apply Is_true_true.
  - intros [x Hx]. inversion Hx as [? y Hxy|? y ? Hxy Hyx]; subst.
    + exists (x, x). split; [by apply list_elem_of_In|]. apply Is_true_true, reach_refl.
    + exists (x, y). split; [by apply list_elem_of_In|]. apply Is_true_true, reach_rtc. by apply tc_rtc.
Qed.

Definition edge_petgraph : petgraph.
Proof. refine {| is_cyclic_directed _ es := cyclic es |}. intros _ es. apply cyclic_spec. Defined.

(** What the end of a new edge cannot reach moves up. *)
Lemma acyclic_rank (es : list (nat * nat)) :
  (∀ x, ¬ tc (edge es) x x) → ∃ rank : nat → nat, ∀ a b, (a, b) ∈ es → (rank b < rank a)%nat.
Proof.
  induction es as [|[u v] es IH]; intros Hac.
  { exists (λ _, 0%nat). intros a b []%elem_of_nil. }
  destruct IH as [rank Hrank].
  { intros x Hx. by apply (Hac x), tc_mono. }
  exists (λ x, if reach es v x then rank x else rank x + rank v + 1)%nat.
  assert (reach es v u = false) as Hvu.
  { apply not_true_iff_false. intros H. apply (Hac u). apply tc_rtc_r with v; [by apply tc_once; left|].
    apply edge_mono, reach_rtc. by apply Is_true_true. }
  intros a b [[= -> ->]|Hab]%elem_of_cons.
  - rewrite Hvu. pose proof (reach_refl es v) as Hr. apply Is_true_true in Hr. rewrite Hr. lia.
  - pose proof (Hrank a b Hab) as Hlt. destruct (reach es v a) eqn:Ha.
    + assert (reach es v b = true) as ->; [|done]. apply Is_true_true.
      apply reach_trans with a; [by apply Is_true_true|]. apply reach_rtc. by apply rtc_once.
    + destruct (reach es v b); lia.
Qed.

(** ** The operators of a query keep the graph going *)
Section lift.
Context {O B : Type} `{!Operator O} (I : O → Prop) `{!data_operator I} (J : B → Prop) (inj : O → B).
Context (Hinj : ∀ o, I o → J (inj o)).

Lemma lift_event_data o uid port st e b st' r :
  I o → Event.kind e = None → lift_event inj (Event.on_event uid port st e o) = (b, st', r) →
  J b ∧ r ≠ Err EUndefined ∧ ∀ ei, r = Ok ei → Forall (λ pe, Event.kind pe.2 = None) (EventAndInsights.events ei).
Proof.
  intros Ho Hk Hev. destruct (Event.on_event uid port st e o) as [[o' s] x] eqn:Hrun.
  injection Hev as <- <- <-. destruct (on_event_data o uid port st e o' s x Ho Hk Hrun) as (? & ? & ?). auto.
Qed.

Lemma lift_signal_data o uid st sg b st' sg' r :
  I o → lift_signal inj (Event.on_signal uid st sg o) = (b, st', sg', r) →
  J b ∧ r ≠ Err EUndefined ∧ ∀ ei, r = Ok ei → Forall (λ pe, Event.kind pe.2 = None) (EventAndInsights.events ei).
Proof.
  intros Ho Hev. destruct (Event.on_signal uid st sg o) as [[[o' s] g] x] eqn:Hrun.
  injection Hev as <- <- <- <-. destruct (on_signal_data o uid st sg o' s g x Ho Hrun) as (? & ? & ?). auto.
Qed.

Lemma lift_insight_data o uid ins b ins' :
  I o → lift_insight inj (Event.on_contraflow uid ins o) = (b, ins') → J b.
Proof.
  intros Ho Hev. destruct (Event.on_contraflow uid ins o) as [o' i] eqn:Hrun. injection Hev as <- <-.
  apply Hinj. by eapply on_contraflow_data.
Qed.
End lift.

Section query.
Context {Store W C : Type} `{!sled Store, !event_json, !event_json_data, !time_window W, !lru_cache W C, !json_writer}.
Context `{!value_trait, !hash_order string, !hash_order (nat * string), !operator_configs}.
Context `{!script_lang, !event_target, !script_lib, !script_runtime, !petgraph}.
Context (open_store : Wal.config → io Store).
(** A store that is opened again holds what was written to it: data events. *)
Context (Hstore : ∀ c s, open_store c = IoOk s → holds_data s).

Abbreviation op := (boxed (Store := Store) (C := C)).

Definition lib_ok (o : lib_op (Store := Store) (C := C)) : Prop := match o with OWal w => wal_data w | _ => True end.
Definition boxed_ok (o : op) : Prop :=
  match o with BLib o | BTrickle _ o => lib_ok o | BSelect s => bounded s | _ => True end.

#[export] Instance lib_data : data_operator lib_ok.
Proof.
  split.
  - intros [o|o|o|o|o|o|o|o|o] uid port st e b st' r Ho Hk Hev; cbn [Event.on_event Event.on_signal Event.on_contraflow lib_operator] in Hev;
      match type of Hev with lift_event ?inj _ = _ =>
        by eapply (lift_event_data _ lib_ok inj); [|exact Ho || exact I|exact Hk|exact Hev] end.
  - intros [o|o|o|o|o|o|o|o|o] uid st sg b st' sg' r Ho Hev; cbn [Event.on_event Event.on_signal Event.on_contraflow lib_operator] in Hev;
      match type of Hev with lift_signal ?inj _ = _ =>
        by eapply (lift_signal_data _ lib_ok inj); [|exact Ho || exact I|exact Hev] end.
  - intros [o|o|o|o|o|o|o|o|o] uid ins b ins' Ho Hev; cbn [Event.on_event Event.on_signal Event.on_contraflow lib_operator] in Hev;
      match type of Hev with lift_insight ?inj _ = _ =>
        by eapply (lift_insight_data _ lib_ok inj); [|exact Ho || exact I|exact Hev] end.
Qed.

#[export] Instance boxed_data : data_operator boxed_ok.
Proof.
  split.
  - intros [o|id o|o|o|o] uid port st e b st' r Ho Hk Hev; cbn [Event.on_event Event.on_signal Event.on_contraflow boxed_operator] in Hev;
      match type of Hev with lift_event ?inj _ = _ =>
        by eapply (lift_event_data _ boxed_ok inj); [|exact Ho || exact I|exact Hk|exact Hev] end.
  - intros [o|id o|o|o|o] uid st sg b st' sg' r Ho Hev; cbn [Event.on_event Event.on_signal Event.on_contraflow boxed_operator] in Hev;
      match type of Hev with lift_signal ?inj _ = _ =>
        by eapply (lift_signal_data _ boxed_ok inj); [|exact Ho || exact I|exact Hev] end.
  - intros [o|id o|o|o|o] uid ins b ins' Ho Hev; cbn [Event.on_event Event.on_signal Event.on_contraflow boxed_operator] in Hev;
      match type of Hev with lift_insight ?inj _ = _ =>
        by eapply (lift_insight_data _ boxed_ok inj); [|exact Ho || exact I|exact Hev] end.
Qed.
Lemma bind_result_Ok {A B} (m : result A) (f : A → result B) b : (m ≫= f) = Ok b → ∃ a, m = Ok a ∧ f a = Ok b.
Proof. destruct m as [a|e]; [|done]. intros Hf. by exists a. Qed.
Lemma fmap_result_Ok {A B} (m : result A) (f : A → B) b : f <$> m = Ok b → ∃ a, m = Ok a ∧ f a = b.
Proof. destruct m as [a|e]; [|done]. intros [= <-]. by exists a. Qed.

Lemma with_config_ok {A} node (read : yaml → io A) make o :
  (∀ c, make c = Ok o → lib_ok o) → with_config node read make = Ok o → lib_ok o.
Proof.
  intros Hm. unfold with_config. destruct (nc_config node) as [y|]; [|done].
  intros (c & _ & Hc)%bind_result_Ok. by eapply Hm.
Qed.

Lemma operator_lib_ok uid node o : operator open_store uid node = Ok o → lib_ok o.
Proof.
  unfold operator, make_backpressure.
  repeat (case_bool_decide; [first [by intros [= <-] | by intros (? & _ & <-)%fmap_result_Ok
    | apply with_config_ok; intros c; simpl;
      first [by intros [= <-] | by intros (? & _ & <-)%fmap_result_Ok | idtac]]|]).
  2: { by repeat case_match. }
  destruct (Wal.max_elements c), (Wal.max_bytes c); try done;
    intros (st & Hs & (w & Hw & <-)%fmap_result_Ok)%bind_result_Ok; simpl;
    (destruct (open_store c) as [st'|] eqn:Hopen; [injection Hs as ->|done]);
    unfold Wal.new in Hw; apply bind_result_Ok in Hw as (? & _ & [= <-]); by apply (Hstore c st).
Qed.

Lemma with_stmt_bounded uid ws stmt : bounded (Select.with_stmt uid ws stmt).
Proof. unfold bounded. simpl. rewrite map_size_empty. lia. Qed.

Lemma supported_ok cfg uid defn node windows nd :
  supported_operators open_store cfg uid defn node windows = Ok nd →
  boxed_ok (node_op nd) ∧ node_uid nd = uid ∧ node_id nd = nc_id cfg ∧ node_kind nd = nc_kind cfg.
Proof.
  unfold supported_operators. intros (o & Ho & [= <-])%bind_result_Ok. simpl. split; [|done]. revert Ho.
  assert (∀ l : result lib_op, (∀ o, l = Ok o → lib_ok o) → BLib <$> l = Ok o → boxed_ok o) as Hlib.
  { intros l Hl (o' & Ho' & <-)%fmap_result_Ok. by apply Hl. }
  case_bool_decide; [|case_bool_decide; [|case_bool_decide; [|apply Hlib, operator_lib_ok]]].
  - unfold select. repeat case_match; try done; try (by intros [= <-]).
    intros (ws & _ & [= <-])%bind_result_Ok. apply with_stmt_bounded.
  - unfold trickle_operator, trickle_with_stmt. repeat case_match; try done.
    intros (o' & Ho' & <-)%fmap_result_Ok. by eapply operator_lib_ok.
  - unfold trickle_script. repeat case_match; try done. by intros (o' & _ & <-)%fmap_result_Ok.
Qed.
(** The name stands for the last node that is called so. *)
Definition last_named (ids : list string) (name : string) (i : nat) : Prop :=
  ids !! i = Some name ∧ ∀ j, ids !! j = Some name → (j ≤ i)%nat.
Lemma last_named_snoc ids new name i :
  last_named (ids ++ [new]) name i ↔ (if decide (name = new) then i = length ids else last_named ids name i).
Proof.
  unfold last_named.
  assert (∀ j, (ids ++ [new]) !! j = Some name ↔ ids !! j = Some name ∨ j = length ids ∧ name = new) as Hj.
  { intros j. destruct (decide (j < length ids)%nat) as [Hlt|Hge].
    - rewrite lookup_app_l by done. split; [by left|]. intros [?|[-> _]]; [done|lia].
    - rewrite lookup_app_r, (lookup_ge_None_2 ids) by lia. rewrite list_lookup_singleton_Some. split.
      + intros [? ->]. right. split; [lia|done].
      + intros [[=]|[-> ->]]. split; [lia|done]. }
  setoid_rewrite Hj. case_decide as Hnew.
  - split; [|intros ->; split; [by right|]].
    + intros [[Hi| [-> _]] Hlast]; [|done]. apply lookup_lt_Some in Hi.
      specialize (Hlast (length ids) (or_intror (conj eq_refl Hnew))). lia.
    + intros j [Hi%lookup_lt_Some|[-> _]]; lia.
  - split; intros [Hi Hlast]; split; [by destruct Hi as [?|[_ ?]]|by intros j ?; apply Hlast; left|by left|].
    intros j [?|[_ ?]]; [by apply Hlast|done].
Qed.

(** ** The builder

    Nodes are numbered from [n0] on and have their operator, under the name
    and uid of the node; a name stands for the last node of that name. *)
Context (n0 : N) (Hn0 : u64_ok n0).
Implicit Types b : builder (Store := Store) (C := C).
Record builder_ok (b : builder (Store := Store) (C := C)) : Prop := {
  bo_ops : ∀ i, is_Some (ops b !! i) ↔ (i < length (cfgs b))%nat;
  bo_ok : ∀ i o, ops b !! i = Some o →
    boxed_ok (node_op o) ∧ node_uid o = u64_add n0 (N.of_nat (S i)) ∧
    ∃ c, cfgs b !! i = Some c ∧ node_id o = nc_id c ∧ node_kind o = nc_kind c;
  bo_nodes : ∀ k i, nodes b !! k = Some i ↔ last_named (nc_id <$> cfgs b) k i;
  bo_inputs : ∀ k i, b_inputs b !! k = Some i → nc_id <$> cfgs b !! i = Some k;
  bo_idgen : idgen b = u64_add n0 (N.of_nat (length (cfgs b)));
}.

Definition stays {A} (m : build A) : Prop := ∀ b b' a, builder_ok b → m b = (b', Ok a) → builder_ok b'.

Lemma stays_ret {A} (a : A) : stays (λ b, (b, Ok a)).
Proof. by intros b b' a' Hb [= <- _]. Qed.
Lemma stays_err {A} (e : error) : stays (A := A) (λ b, (b, Err e)).
Proof. by intros b b' a' Hb [=]. Qed.
Lemma stays_gets {A} (f : builder → A) : stays (gets f).
Proof. by intros b b' a' Hb [= <- _]. Qed.
Lemma stays_lift {A} (r : result A) : stays (lift r).
Proof. by intros b b' a' Hb [= <- _]. Qed.
Lemma stays_bind {A B} (m : build A) (f : A → build B) :
  stays m → (∀ a, stays (f a)) → stays (build_bind _ _ f m).
Proof.
  intros Hm Hf b b' a Hb. unfold build_bind. destruct (m b) as [b1 [x|e]] eqn:Hrun; [|done].
  apply Hf. by eapply Hm.
Qed.
Lemma stays_modify f : (∀ b, builder_ok b → builder_ok (f b)) → stays (modify f).
Proof. intros Hf b b' a Hb [= <- _]. by apply Hf. Qed.

Lemma push_link_ok from to b : builder_ok b → builder_ok (push_link from to b).
Proof. by intros []. Qed.
Lemma next_select_ok b : builder_ok b → builder_ok (next_select b).
Proof. by intros []. Qed.
Lemma insert_subquery_ok s b : builder_ok b → builder_ok (insert_subquery s b).
Proof. by intros []. Qed.

(** A placed node is the next one. *)
Lemma place_ok name kind ty defn node windows b b' id :
  builder_ok b → place open_store name kind ty defn node windows b = (b', Ok id) →
  builder_ok b' ∧ id = length (cfgs b) ∧ nodes b' = <[name := id]> (nodes b) ∧
  b_inputs b' = b_inputs b ∧ cfgs b' = cfgs b ++ [mk_node_config _ name kind ty None].
Proof.
  intros [Hops Hbo Hno Hin Hid]. unfold place, mbind, build_bind, gets, modify, next_id, lift, mret, build_ret.
  cbn -[supported_operators].
  destruct (supported_operators _ _ _ _ _ _) as [o|e] eqn:Ho; [|done].
  apply supported_ok in Ho as (Hok & Huid & Hname & Hkind).
  assert (∀ i, is_Some (cfgs b !! i) → (i < length (cfgs b))%nat) as Hlt.
  { intros i Hi. by apply lookup_lt_is_Some. }
  assert (u64_add (idgen b) 1 = u64_add n0 (N.of_nat (S (length (cfgs b))))) as Hnext.
  { rewrite Hid. unfold u64_add. rewrite N.Div0.add_mod_idemp_l. f_equal. lia. }
  assert (∀ k i, nc_id <$> cfgs b !! i = Some k →
    nc_id <$> (cfgs b ++ [mk_node_config _ name kind ty None]) !! i = Some k) as Hkeep.
  { intros k i Hk. destruct (cfgs b !! i) as [c|] eqn:Hc; [|done]. by rewrite (lookup_app_l_Some _ _ _ _ Hc). }
  intros [= <- <-]. simpl. split_and!; try done. split; simpl.
  - intros i. rewrite length_app. simpl. destruct (decide (i = length (cfgs b))) as [->|Hne].
    + rewrite lookup_insert_eq. split; [lia|by eexists].
    + rewrite lookup_insert_ne, Hops by done. lia.
  - intros i o'. destruct (decide (i = length (cfgs b))) as [->|Hne].
    + rewrite lookup_insert_eq. intros [= <-]. split_and!; [done|by rewrite Huid|].
      rewrite lookup_app_r, Nat.sub_diag by done. by eexists.
    + rewrite lookup_insert_ne by done. intros Ho'. destruct (Hbo i o' Ho') as (? & ? & c & Hc & ?).
      split_and!; [done..|]. exists c. by rewrite (lookup_app_l_Some _ _ _ _ Hc).
  - intros k i. rewrite fmap_app. change (nc_id <$> [mk_node_config _ name kind ty None]) with [name].
    rewrite last_named_snoc, length_fmap. case_decide as Hne; [subst k|].
    + rewrite lookup_insert_eq. by split; [intros [= <-]|intros ->].
    + rewrite lookup_insert_ne by done. apply Hno.
  - intros k i Hi%Hin. by apply Hkeep.
  - by rewrite length_app, Hnext, Nat.add_comm.
Qed.

Lemma stays_place name kind ty defn node windows : stays (place open_store name kind ty defn node windows).
Proof. intros b b' a Hb Hp. by eapply place_ok. Qed.

Lemma stays_place_input name kind ty defn node windows :
  stays (id ← place open_store name kind ty defn node windows; modify (insert_input name id)).
Proof.
  intros b b' a Hb. unfold mbind, build_bind.
  destruct (place _ _ _ _ _ _ _ b) as [b1 [id|e]] eqn:Hp; [|done].
  apply place_ok in Hp as ([Hops Hbo Hno Hin Hid] & -> & Hnodes & _); [|done]. intros [= <- _]. split; simpl; [done..| |done].
  intros k i. destruct (decide (k = name)) as [->|Hne].
  - rewrite lookup_insert_eq. intros [= <-]. rewrite <-list_lookup_fmap. apply Hno. by rewrite Hnodes, lookup_insert_eq.
  - rewrite lookup_insert_ne by done. apply Hin.
Qed.

Create HintDb build.
#[local] Hint Resolve stays_ret stays_err stays_gets stays_lift stays_place stays_place_input : build.
#[local] Hint Resolve push_link_ok next_select_ok insert_subquery_ok : build.

(** Through a sequence of operations. *)
Ltac stays :=
  repeat match goal with
    | |- stays (mbind _ (place _ _ _ _ _ _ _)) => apply stays_place_input
    | |- stays (mbind _ _) => apply stays_bind; [|intros ?]
    | |- stays (let _ := _ in _) => intros ?
    | |- stays (if ?b then _ else _) => destruct b
    | |- stays (match ?x with _ => _ end) => destruct x
    | |- stays (modify _) => apply stays_modify; intros ? ?
    | |- stays (place_input _ _) => apply stays_place_input
    | |- _ => solve [eauto with build]
    end.

Lemma stays_builtin l : stays (place_builtin open_store l).
Proof. induction l as [|[name kind] l IH]; cbn [place_builtin]; stays. Qed.

Lemma stays_stmt q stmt : stays (stmt_step open_store q stmt).
Proof.
  destruct stmt; cbn [stmt_step]; unfold select_stmt_, check_name, rewrite_port, resolve_from, resolve_into, throw; cbv zeta; stays.
Qed.
Lemma build_nodes_ok q b : build_nodes open_store q (new_builder n0) = (b, Ok tt) → builder_ok b.
Proof.
  assert (stays (build_nodes open_store q)) as Hs.
  { unfold build_nodes. apply stays_bind; [apply stays_builtin|intros _]. apply stays_bind.
    - generalize (q_stmts q). induction l as [|stmt l IH]; cbn [stmts_loop]; [apply stays_ret|].
      apply stays_bind; [apply stays_stmt|done].
    - intros _. apply stays_bind; [apply stays_gets|]. intros subs. generalize (hash_iter subs).
      induction l as [|[id s] l IH]; cbn [check_subqueries]; [apply stays_ret|].
      apply stays_bind; [|done]. unfold check_name, throw. stays. }
  intros Hb. eapply Hs; [|exact Hb]. split; simpl; intros *; rewrite ?lookup_empty; try done.
  - split; [by intros []|lia].
  - split; [done|]. by intros [? _].
  - unfold u64_add. rewrite N.add_0_r. symmetry. by apply N.mod_small.
Qed.

(** Every connection is an edge between nodes. *)
Definition edges_ok (n : nat) (ports : gmap (nat * string) (list (nat * string))) (edges : list (nat * nat)) : Prop :=
  ∀ i p conns to, ports !! (i, p) = Some conns → to ∈ conns → (i, to.1) ∈ edges ∧ (i < n)%nat ∧ (to.1 < n)%nat.

Lemma link_edges_ok n nodes ls ports edges ports' edges' :
  (∀ k i, nodes !! k = Some i → (i < n)%nat) → edges_ok n ports edges →
  link_edges nodes ls ports edges = Ok (ports', edges') → edges_ok n ports' edges'.
Proof.
  intros Hn. revert ports edges. induction ls as [|[from to] ls IH]; intros ports edges Hok; cbn [link_edges].
  { by intros [= <- <-]. }
  destruct (nodes !! from.1) as [fi|] eqn:Hf; [|done]. destruct (nodes !! to.1) as [ti|] eqn:Ht; [|done].
  cbn [ok_or]. rewrite !bind_Ok. apply IH. intros i p conns t Hl Hin. rewrite elem_of_app.
  destruct (decide ((i, p) = (fi, from.2))) as [[= -> ->]|Hne].
  - rewrite lookup_insert_eq in Hl. injection Hl as <-.
    apply elem_of_app in Hin as [Hin|Hin%list_elem_of_singleton].
    + destruct (ports !! (fi, from.2)) as [old|] eqn:Ho; [|by apply elem_of_nil in Hin].
      destruct (Hok _ _ _ _ Ho Hin) as (? & ? & ?). auto.
    + subst t. simpl. split_and!; [right; by apply list_elem_of_singleton|by eapply Hn|by eapply Hn].
  - rewrite lookup_insert_ne in Hl by done. destruct (Hok _ _ _ _ Hl Hin) as (? & ? & ?). auto.
Qed.

Lemma collect_ops_ok m k n l :
  collect_ops (Store := Store) (C := C) m (seq k n) = Ok l →
  length l = n ∧ ∀ j, (j < n)%nat → l !! j = m !! (k + j)%nat.
Proof.
  revert m k l. induction n as [|n IH]; intros m k l; cbn [collect_ops seq]; [by intros [= <-]; split; [|lia]|].
  destruct (m !! k) as [o|] eqn:Hi; [|done]. cbn [ok_or]. rewrite bind_Ok.
  intros (rest & Hrest & [= <-])%bind_result_Ok. apply IH in Hrest as [Hl Hok]. split; [simpl; by rewrite Hl|].
  intros [|j] Hj; simpl; [by rewrite Nat.add_0_r|].
  rewrite Hok by lia. rewrite lookup_delete_ne by lia. f_equal. lia.
Qed.

Lemma positions_lt f (l : list (OperatorNode op)) : Forall (λ i, i < length l)%nat (positions f l).
Proof.
  apply Forall_forall. intros i ([j o] & Hi & Hj)%list_elem_of_bind.
  apply list_elem_of_lookup in Hj as [k Hk]. rewrite list_lookup_imap in Hk.
  destruct (l !! k) as [o'|] eqn:Hl; [|done]. injection Hk as <- <-.
  simpl in Hi. destruct (f (node_op o')); [|by apply elem_of_nil in Hi]. apply list_elem_of_singleton in Hi as ->.
  by apply lookup_lt_Some in Hl.
Qed.

Lemma position_inputs_lt n l acc res k i :
  (∀ k i, acc !! k = Some i → (i < n)%nat) →
  position_inputs n l acc = Ok res → res !! k = Some i → (i < n)%nat.
Proof.
  revert acc. induction l as [|[k' idx] l IH]; intros acc Hacc; cbn [position_inputs]; [by intros [= <-]; apply Hacc|].
  unfold i2pos at 1. case_decide; [|done]. cbn [ok_or]. rewrite bind_Ok. apply IH.
  intros j x. destruct (decide (j = k')) as [->|Hne]; [rewrite lookup_insert_eq; by intros [= <-]|].
  rewrite lookup_insert_ne by done. apply Hacc.
Qed.

(** ** Connections

    What the statements connect: the two sides of a select, by the names of
    nodes and ports. *)
Definition stream_of (subs : gmap string SubqueryStmt) (io : string * string) : string :=
  match subs !! io.1 with Some s => default io.1 (port_stream_map s !! io.2) | None => io.1 end.
Definition source_of (subs : gmap string SubqueryStmt) (io : string * string) : string * string :=
  let x := stream_of subs io in
  (if bool_decide (x = IN) && negb (bool_decide (io.2 = OUT)) then "in/"%string +:+ io.2 else x, io.2).
Definition target_of (subs : gmap string SubqueryStmt) (io : string * string) : string * string :=
  let x := stream_of subs io in
  (if bool_decide (x = OUT) && negb (bool_decide (io.2 = IN)) then "out/"%string +:+ io.2 else x, io.2).
Definition select_name (num : N) : string := "select_"%string +:+ pretty.pretty num.

Fixpoint query_links (stmts : list Stmt) (subs : gmap string SubqueryStmt) (num : N) :
    list ((string * string) * (string * string)) :=
  match stmts with
  | [] => []
  | SSelect s :: stmts =>
    (source_of subs (sel_from s), (select_name num, IN)) ::
    ((select_name num, OUT), target_of subs (sel_into s)) :: query_links stmts subs (num + 1)
  | SSubqueryStmt s :: stmts => query_links stmts (<[sq_id s := s]> subs) num
  | _ :: stmts => query_links stmts subs num
  end.

Definition same_links (b b' : builder (Store := Store) (C := C)) : Prop :=
  links b' = links b ∧ subqueries b' = subqueries b ∧ select_num b' = select_num b.
#[local] Instance same_links_preorder : PreOrder same_links.
Proof.
  split; [done|]. intros a b c (Ha & Hb & Hc) (Hd & He & Hf). unfold same_links. by rewrite Hd, He, Hf.
Qed.

Lemma place_links name kind ty defn node windows b b' id :
  place open_store name kind ty defn node windows b = (b', Ok id) → same_links b b'.
Proof.
  unfold place, mbind, build_bind, gets, modify, next_id, lift, mret, build_ret. cbn -[supported_operators].
  destruct (supported_operators _ _ _ _ _ _) as [o|e]; [|done]. by intros [= <- <-].
Qed.

Lemma place_input_links name kind ty defn node windows b b' :
  (id ← place open_store name kind ty defn node windows; modify (insert_input name id)) b = (b', Ok tt) →
  same_links b b'.
Proof.
  unfold mbind, build_bind. destruct (place _ _ _ _ _ _ _ b) as [b1 [id|e]] eqn:Hp; [|done].
  apply place_links in Hp. intros [= <-]. etrans; [exact Hp|by split_and!].
Qed.

Lemma place_unit_links name kind ty defn node windows b b' :
  (_ ← place open_store name kind ty defn node windows; mret tt) b = (b', Ok tt) → same_links b b'.
Proof.
  unfold mbind, build_bind. destruct (place _ _ _ _ _ _ _ b) as [b1 [id|e]] eqn:Hp; [|done].
  apply place_links in Hp. by intros [= <-].
Qed.

Lemma rewrite_port_ok io b b' x : rewrite_port io b = (b', Ok x) → b' = b ∧ x = stream_of (subqueries b) io.
Proof.
  unfold rewrite_port, stream_of, mbind, build_bind, gets. cbn.
  destruct (subqueries b !! io.1) as [s|]; [|by intros [= <- <-]].
  destruct (port_stream_map s !! io.2); by intros [= <- <-].
Qed.

Lemma resolve_from_ok x port b b' y :
  resolve_from open_store (x, port) b = (b', Ok y) →
  same_links b b' ∧ y = (if bool_decide (x = IN) && negb (bool_decide (port = OUT)) then "in/"%string +:+ port else x, port).
Proof.
  unfold resolve_from. cbn [fst snd]. destruct (bool_decide (x = IN) && _); [|by intros [= <- <-]].
  unfold mbind at 1, build_bind, gets. cbn [fst snd].
  destruct (bool_decide _).
  - by intros [= <- <-].
  - unfold mbind at 1, build_bind.
    destruct (place_input open_store _ b) as [b1 [[]|e]] eqn:Hp; [|done]. intros [= <- <-].
    by apply place_input_links in Hp.
Qed.

Lemma resolve_into_ok x port b b' y :
  resolve_into open_store (x, port) b = (b', Ok y) →
  same_links b b' ∧ y = (if bool_decide (x = OUT) && negb (bool_decide (port = IN)) then "out/"%string +:+ port else x, port).
Proof.
  unfold resolve_into. cbn [fst snd]. destruct (bool_decide (x = OUT) && _); [|by intros [= <- <-]].
  unfold mbind at 1, build_bind, gets. cbn [fst snd].
  destruct (bool_decide _).
  - by intros [= <- <-].
  - unfold mbind at 1, build_bind.
    match goal with |- context [match ?m b with _ => _ end] => destruct (m b) as [b1 [[]|e]] eqn:Hp end; [|done].
    intros [= <- <-]. by apply place_unit_links in Hp.
Qed.

Lemma check_name_ok name b b' : check_name name b = (b', Ok tt) → b' = b.
Proof. unfold check_name, mbind, build_bind, gets. cbn. by destruct (bool_decide _); intros [= <-]. Qed.

Lemma stmt_links q stmt stmts b b' :
  stmt_step open_store q stmt b = (b', Ok tt) →
  links b ++ query_links (stmt :: stmts) (subqueries b) (select_num b) =
  links b' ++ query_links stmts (subqueries b') (select_num b').
Proof.
  assert (∀ b', same_links b b' →
    links b ++ query_links stmts (subqueries b) (select_num b) =
    links b' ++ query_links stmts (subqueries b') (select_num b')) as Hsame.
  { by intros b1 (-> & -> & ->). }
  destruct stmt as [d|name|d|d|o|o|d|s|s]; cbn [stmt_step query_links]; try (by intros [= <-]).
  - unfold mbind at 1, build_bind, gets. cbn [fst snd]. destruct (bool_decide _); [done|].
    intros Hp. by apply place_input_links, Hsame in Hp.
  - unfold mbind at 1, build_bind. destruct (check_name _ b) as [b1 [[]|e]] eqn:Hc; [|done].
    apply check_name_ok in Hc as ->. destruct (q_operators q !! _); [|done].
    intros Hp. by apply place_unit_links, Hsame in Hp.
  - unfold mbind at 1, build_bind. destruct (check_name _ b) as [b1 [[]|e]] eqn:Hc; [|done].
    apply check_name_ok in Hc as ->. destruct (q_scripts q !! _); [|done].
    intros Hp. by apply place_unit_links, Hsame in Hp.
  - unfold mbind at 1, build_bind, gets. cbn [fst snd]. destruct (bool_decide _); [done|]. by intros [= <-].
  - unfold select_stmt_, source_of, target_of. unfold mbind at 1, build_bind.
    destruct (rewrite_port (sel_from s) b) as [b1 [x|e]] eqn:Hx; [|done]. apply rewrite_port_ok in Hx as [-> ->].
    unfold mbind at 1, build_bind.
    destruct (rewrite_port (sel_into s) b) as [b1 [x|e]] eqn:Hx; [|done]. apply rewrite_port_ok in Hx as [-> ->].
    cbv zeta. unfold mbind at 1, build_bind. cbn [gets fst snd]. destruct (bool_decide _); cbn [negb]; [|done].
    unfold mbind at 1, build_bind. cbn [gets]. unfold mbind at 1, build_bind. cbn [modify].
    unfold mbind at 1, build_bind.
    destruct (resolve_from open_store _ (next_select b)) as [b1 [from|e]] eqn:Hf; [|done].
    apply resolve_from_ok in Hf as [(Hl1 & Hs1 & Hn1) ->].
    unfold mbind at 1, build_bind. destruct (resolve_into open_store _ b1) as [b2 [into|e]] eqn:Hi; [|done].
    apply resolve_into_ok in Hi as [(Hl2 & Hs2 & Hn2) ->].
    unfold mbind at 1, build_bind. cbn [modify]. unfold mbind at 1, build_bind. cbn [modify].
    unfold mbind at 1, build_bind. unfold lift. destruct (window_impls _ ∅) as [ww|e]; [|done].
    intros (Hl3 & -> & ->)%place_unit_links. rewrite Hl3. cbn [links push_link subqueries select_num].
    rewrite Hl2, Hl1, Hs2, Hs1, Hn2, Hn1. cbn [links next_select subqueries select_num].
    by rewrite <-!app_assoc.
Qed.
Lemma build_links q b :
  build_nodes open_store q (new_builder n0) = (b, Ok tt) → links b = query_links (q_stmts q) ∅ 0.
Proof.
  assert (∀ l b b', place_builtin open_store l b = (b', Ok tt) → same_links b b') as Hbuiltin.
  { induction l as [|[name kind] l IH]; intros b1 b2; cbn [place_builtin]; [by intros [= <-]|].
    unfold mbind at 1, build_bind.
    match goal with |- context [match ?m b1 with _ => _ end] => destruct (m b1) as [b3 [[]|e]] eqn:Hp end; [|done].
    intros Hl. etrans; [|by apply IH]. destruct kind; [by apply place_input_links in Hp|..];
      by apply place_unit_links in Hp. }
  assert (∀ stmts b b', stmts_loop open_store q stmts b = (b', Ok tt) →
    links b ++ query_links stmts (subqueries b) (select_num b) = links b') as Hloop.
  { induction stmts as [|stmt stmts IH]; intros b1 b2; cbn [stmts_loop]; [intros [= <-]; by rewrite app_nil_r|].
    unfold mbind at 1, build_bind. destruct (stmt_step open_store q stmt b1) as [b3 [[]|e]] eqn:Hs; [|done].
    intros Hl. rewrite (stmt_links _ _ stmts _ _ Hs). by apply IH. }
  assert (∀ l b b', check_subqueries l b = (b', Ok tt) → b' = b) as Hcheck.
  { induction l as [|[id s] l IH]; intros b1 b2; cbn [check_subqueries]; [by intros [= <-]|].
    unfold mbind at 1, build_bind. destruct (check_name id b1) as [b3 [[]|e]] eqn:Hs; [|done].
    apply check_name_ok in Hs as ->. apply IH. }
  unfold build_nodes, mbind at 1, build_bind.
  destruct (place_builtin _ _ _) as [b1 [[]|e]] eqn:Hb; [|done]. apply Hbuiltin in Hb as (Hl & Hs & Hn).
  unfold mbind at 1, build_bind. destruct (stmts_loop _ _ _ b1) as [b2 [[]|e]] eqn:Hst; [|done].
  apply Hloop in Hst. unfold mbind at 1, build_bind, gets.
  intros ->%Hcheck. rewrite <-Hst, Hl, Hs, Hn. done.
Qed.

(** A connection between ports of nodes. *)
Definition connected (ports : gmap (nat * string) (list (nat * string))) (i : nat) (p : string) (to : nat * string) : Prop :=
  ∃ conns, ports !! (i, p) = Some conns ∧ to ∈ conns.
Definition linked (nodes : gmap string nat) (ls : list ((string * string) * (string * string)))
    (i : nat) (p : string) (to : nat * string) : Prop :=
  ∃ from into, ((from, p), (into, to.2)) ∈ ls ∧ nodes !! from = Some i ∧ nodes !! into = Some to.1.

Lemma link_edges_exact nodes ls ports edges ports' edges' i p to :
  link_edges nodes ls ports edges = Ok (ports', edges') →
  connected ports' i p to ↔ connected ports i p to ∨ linked nodes ls i p to.
Proof.
  revert ports edges. induction ls as [|[[from fp] [into tp]] ls IH]; intros ports edges; cbn [link_edges].
  { intros [= <- <-]. split; [by left|]. intros [Hx|(f & t & Hin & _)]; [done|by apply elem_of_nil in Hin]. }
  cbn [fst snd]. destruct (nodes !! from) as [fi|] eqn:Hf; [|done]. destruct (nodes !! into) as [ti|] eqn:Ht; [|done].
  cbn [ok_or]. rewrite !bind_Ok. intros Hl. rewrite (IH _ _ Hl).
  assert (∀ conns, connected (<[(fi, fp) := conns ++ [(ti, tp)]]> ports) i p to ↔
    ((i, p) = (fi, fp) ∧ (to ∈ conns ∨ to = (ti, tp))) ∨ ((i, p) ≠ (fi, fp) ∧ connected ports i p to)) as Hconn.
  { intros conns. unfold connected. destruct (decide ((i, p) = (fi, fp))) as [[= -> ->]|Hne].
    - rewrite lookup_insert_eq. split.
      + intros (c & [= <-] & [Hin|Hin%list_elem_of_singleton]%elem_of_app); left; auto.
      + intros [[_ Hto]|[? _]]; [|done]. exists (conns ++ [(ti, tp)]). split; [done|]. apply elem_of_app.
        destruct Hto as [?| ->]; [by left|right; by left].
    - rewrite lookup_insert_ne by done. split; [by right|]. by intros [[? _]|[_ ?]]. }
  rewrite Hconn. clear Hconn Hl IH. unfold linked. split.
  - intros [[[[= -> ->] Hto]|[Hne Hc]]|(f & t & Hin & Hft)].
    + destruct Hto as [Hto| ->].
      * left. unfold connected. destruct (ports !! (fi, fp)) as [c|] eqn:Hc; [by exists c|by apply elem_of_nil in Hto].
      * right. exists from, into. split; [by left|done].
    + by left.
    + right. exists f, t. split; [by right|done].
  - intros [Hc|(f & t & Hin & Hfi & Hti)].
    + left. destruct (decide ((i, p) = (fi, fp))) as [[= -> ->]|Hne]; [|by right].
      left. split; [done|]. left. destruct Hc as (c & -> & Hto). done.
    + apply elem_of_cons in Hin as [Heq|Hin]; [|by right; exists f, t].
      destruct to as [tj tq]. cbn [fst snd] in *. left. left. simplify_eq. split; [done|]. by right.
Qed.

Lemma link_edges_names nodes ls ports edges res from into :
  link_edges nodes ls ports edges = Ok res → (from, into) ∈ ls →
  is_Some (nodes !! from.1) ∧ is_Some (nodes !! into.1).
Proof.
  revert ports edges. induction ls as [|[f t] ls IH]; intros ports edges; cbn [link_edges]; [by intros _ ?%elem_of_nil|].
  destruct (nodes !! f.1) eqn:Hf; [|done]. destruct (nodes !! t.1) eqn:Ht; [|done]. cbn [ok_or]. rewrite !bind_Ok.
  intros Hl [[= -> ->]|Hin]%elem_of_cons; [by rewrite Hf, Ht|by eapply IH].
Qed.

Lemma position_ports_exact n l acc res :
  NoDup l.*1 → (∀ k c to, (k, c) ∈ l → to ∈ c → (to.1 < n)%nat) →
  position_ports n l acc = Ok res → ∀ k, res !! k = from_option Some (acc !! k) ((list_to_map l : gmap (nat * string) (list (nat * string))) !! k).
Proof.
  revert acc. induction l as [|[[i s] c] l IH]; intros acc Hnd Hr; cbn [position_ports]; [by intros [= <-]|].
  unfold i2pos at 2. case_decide; [|done]. cbn [ok_or]. rewrite bind_Ok. inversion_clear Hnd as [|? ? Hnot Hnd'].
  assert (omap (λ c, (λ i, (i, c.2)) <$> i2pos n c.1) c = c) as ->.
  { assert (∀ to, to ∈ c → (to.1 < n)%nat) as Hc by (intros to; apply (Hr (i, s)); by left).
    clear -Hc. induction c as [|[j q] c IH]; [done|]. cbn. unfold i2pos at 1.
    rewrite decide_True by (apply (Hc (j, q)); by left). cbn. f_equal. apply IH. intros to Hto. apply Hc. by right. }
  intros Hp k. rewrite (IH _ Hnd' (λ k c to Hin, Hr k c to (list_elem_of_further _ _ _ Hin)) Hp k). cbn [list_to_map foldr fst snd].
  destruct (decide (k = (i, s))) as [->|Hne].
  - rewrite (not_elem_of_list_to_map_1 l (i, s)) by done. simpl. by rewrite !lookup_insert_eq.
  - change (list_to_map (((i, s), c) :: l)) with (<[(i, s) := c]> (list_to_map l : gmap (nat * string) (list (nat * string)))).
    by rewrite !lookup_insert_ne.
Qed.
Lemma assemble_ok q b g :
  builder_ok b → assemble q b = Ok g →
  graph_ok boxed_ok (length (cfgs b)) g ∧ (∃ rank, acyclic rank g) ∧
  (∀ i, g_graph g !! i = ops b !! i) ∧
  (∀ i p to, connected (g_port_indexes g) i p to ↔ linked (nodes b) (links b) i p to) ∧
  ∀ from into, (from, into) ∈ links b → is_Some (nodes b !! from.1) ∧ is_Some (nodes b !! into.1).
Proof.
  intros Hb (pe & Hpe & Hrest)%bind_result_Ok. destruct pe as [ports edges].
  pose proof Hb as [Hops Hbo Hno Hin _].
  assert (∀ k i, nc_id <$> cfgs b !! i = Some k → (i < length (cfgs b))%nat) as Hlt.
  { intros k i Hk. apply lookup_lt_is_Some. destruct (cfgs b !! i); [by eexists|done]. }
  assert (∀ from into, (from, into) ∈ links b → is_Some (nodes b !! from.1) ∧ is_Some (nodes b !! into.1)) as Hnames.
  { intros from into. by apply (link_edges_names _ _ _ _ _ _ _ Hpe). }
  assert (∀ i p to, connected ports i p to ↔ linked (nodes b) (links b) i p to) as Hconn.
  { intros i p to. rewrite (link_edges_exact _ _ _ _ _ _ i p to Hpe). split; [|by right].
    intros [(c & Hc & _)|Hl]; [by rewrite lookup_empty in Hc|done]. }
  apply (link_edges_ok (length (cfgs b))) in Hpe; [|intros k i [Hi _]%Hno; rewrite list_lookup_fmap in Hi; eauto|by intros ? ? ? ?; rewrite lookup_empty].
  cbv zeta in Hrest. set (n := length (cfgs b)) in *.
  destruct (is_cyclic_directed n edges) eqn:Hc; [done|].
  destruct (acyclic_rank edges) as [rank Hrank].
  { intros x Hx. apply not_true_iff_false in Hc. apply Hc, is_cyclic_spec. by exists x. }
  apply bind_result_Ok in Hrest as (graph & Hg & Hrest). apply collect_ops_ok in Hg as [Hlen Hall].
  apply bind_result_Ok in Hrest as (ports' & Hports & Hrest).
  apply bind_result_Ok in Hrest as (ins & Hins & Hrest).
  apply bind_result_Ok in Hrest as (midx & Hm & [= <-]).
  assert (∀ k, ports' !! k = ports !! k) as Hsame.
  { intros k. pose proof (hash_iter_perm _ ports) as Hperm.
    assert (NoDup (hash_iter ports).*1) as Hnd by (rewrite Hperm; apply NoDup_fst_map_to_list).
    rewrite (position_ports_exact _ _ _ _ Hnd) with (2 := Hports).
    - rewrite (list_to_map_proper (M := gmap (nat * string)) _ _ Hnd Hperm), list_to_map_to_list, lookup_empty.
      by destruct (ports !! k).
    - intros [i p] c to Hit Hto. rewrite Hperm in Hit. apply elem_of_map_to_list in Hit.
      by destruct (Hpe _ _ _ _ Hit Hto) as (_ & _ & ?). }
  assert (∀ i p conns to, ports' !! (i, p) = Some conns → to ∈ conns → (i, to.1) ∈ edges ∧ (to.1 < n)%nat) as Hp.
  { intros i p conns to Hl Hto. rewrite Hsame in Hl. by destruct (Hpe _ _ _ _ Hl Hto) as (? & ? & ?). }
  assert (∀ i, graph !! i = ops b !! i) as Hlook.
  { intros i. destruct (decide (i < n)%nat) as [Hi|Hi]; [by apply Hall|].
    rewrite lookup_ge_None_2 by lia. symmetry. apply eq_None_not_Some. by rewrite Hops. }
  split_and!; [|exists rank; intros i p conns to Hl Hto; by apply Hrank, (Hp i p conns)|done| |done].
  2: { intros i p to. rewrite <-Hconn. unfold connected. cbn [g_port_indexes]. by rewrite Hsame. }
  split; simpl; rewrite ?length_replicate; try done.
  - intros [i p] conns to Hl Hto. by apply (Hp i p conns).
  - rewrite <-Hlen. apply positions_lt.
  - rewrite <-Hlen. apply Forall_reverse, positions_lt.
  - intros k i. eapply position_inputs_lt; [|exact Hins]. intros ? ?. by rewrite lookup_empty.
  - destruct (nodes b !! METRICS) as [i|]; [|done]. unfold i2pos in Hm. simpl in Hm. case_decide; [|done].
    by injection Hm as <-.
  - apply Forall_lookup. intros i o. rewrite Hlook. by intros (? & ? & ?)%Hbo.
Qed.

(** The operators have the ids of their configurations. *)
Lemma builder_ids b (g : ExecutableGraph op) :
  builder_ok b → (∀ i, g_graph g !! i = ops b !! i) → node_id <$> g_graph g = nc_id <$> cfgs b.
Proof.
  intros [Hops Hbo _ _ _] Hg. apply list_eq. intros i. rewrite !list_lookup_fmap, Hg.
  destruct (ops b !! i) as [o|] eqn:Ho.
  - destruct (Hbo i o Ho) as (_ & _ & c & -> & Hc & _). simpl. by rewrite Hc.
  - rewrite (lookup_ge_None_2 (cfgs b)); [done|]. apply Nat.nlt_ge. intros Hlt%Hops. rewrite Ho in Hlt. by destruct Hlt.
Qed.
End query.
