(* ===== verification/QueryRun.v ===== *)
(** Queries in action: the graph [to_pipe] hands out connects what the
    statements of the query connect, and a pipeline task runs it. *)
From Stdlib Require Import Ascii.
From S2P Require Import Prelude Window Select Ast Interp SimpleSelect QueryAst.
From S2P Require Import EventIds Value Event OpsBasic Batch RoundRobin Backpressure Graph GraphSpec Optimize Wal.
From S2P Require Import Url Repository Network Pipeline PipelineSpec Grouper Operators Query QuerySpec.

Section query.
Context {Store W C : Type} `{!sled Store, !event_json, !event_json_data, !time_window W, !lru_cache W C, !json_writer}.
Context `{!value_trait, !hash_order string, !hash_order (nat * string), !operator_configs}.
Context `{!script_lang, !event_target, !script_lib, !script_runtime, !petgraph}.
Context (open_store : Wal.config → io Store).
Context (Hstore : ∀ c s, open_store c = IoOk s → holds_data s).

(** What [to_pipe] answers: the optimised form of a graph that is as the
    statements say. *)
Lemma to_pipe_ok q uid uid' g :
  u64_ok uid → to_pipe (C := C) open_store q uid = (uid', Ok g) →
  ∃ b g0 rank, builder_ok uid b ∧ links b = query_links (q_stmts q) ∅ 0 ∧
    graph_ok boxed_ok (length (cfgs b)) g0 ∧ acyclic rank g0 ∧ (∀ i, g_graph g0 !! i = ops b !! i) ∧
    (∀ i p to, connected (g_port_indexes g0) i p to ↔ linked (nodes b) (links b) i p to) ∧
    (∀ from into, (from, into) ∈ links b → is_Some (nodes b !! from.1) ∧ is_Some (nodes b !! into.1)) ∧
    g = (optimize g0).1.
Proof.
  intros Huid. unfold to_pipe. destruct (build_nodes open_store q (new_builder uid)) as [b [[]|e]] eqn:Hb; [|done].
  intros [= _ Hg]. apply bind_result_Ok in Hg as (g0 & Hg0 & [= <-]).
  pose proof (build_links _ _ _ _ Hb) as Hlinks. apply build_nodes_ok in Hb; [|done..].
  destruct (assemble_ok uid q b g0 Hb Hg0) as (Hok & [rank Hac] & Hgraph & Hconn & Hnames).
  by exists b, g0, rank.
Qed.
End query.

(** ** Which operators panic

    Those that run scripts, and the grouper. *)
Section calm.
Context `{!value_trait}.
#[local] Ltac by_cases Hp :=
  cbn in Hp; repeat (case_match || cbn in Hp); try congruence; simplify_eq.
Lemma counter_calm (o : Counter.t) msg : ¬ raised_by o (EPanic msg).
Proof.
  intros (uid & st & ev & [(port & Hp)|Hp]); [|done]. cbn in Hp. unfold Counter.on_event in Hp.
  destruct (is_null st); [done|]. by destruct (as_u64 st).
Qed.
Lemma history_calm (o : History.t) msg : ¬ raised_by o (EPanic msg).
Proof. intros (uid & st & ev & [(port & Hp)|Hp]); cbn in Hp; unfold History.on_event in Hp; by_cases Hp. Qed.
Lemma batch_calm (o : Batch.t) msg : ¬ raised_by o (EPanic msg).
Proof. intros (uid & st & ev & [(port & Hp)|Hp]); cbn in Hp; unfold Batch.on_event, Batch.on_signal in Hp; by_cases Hp. Qed.
Lemma backpressure_calm (o : Backpressure.t) msg : ¬ raised_by o (EPanic msg).
Proof. intros (uid & st & ev & [(port & Hp)|Hp]); cbn in Hp; unfold Backpressure.on_event, Backpressure.on_signal in Hp; by_cases Hp. Qed.
Lemma round_robin_calm (o : RoundRobin.t) msg : ¬ raised_by o (EPanic msg).
Proof. intros (uid & st & ev & [(port & Hp)|Hp]); cbn in Hp; unfold RoundRobin.on_event, RoundRobin.on_signal in Hp; by_cases Hp. Qed.
Lemma percentile_calm (o : Percentile.t) msg : ¬ raised_by o (EPanic msg).
Proof. intros (uid & st & ev & [(port & Hp)|Hp]); cbn in Hp; unfold Percentile.on_event in Hp; by_cases Hp. Qed.
Context {Store W C : Type} `{!sled Store, !event_json, !time_window W, !lru_cache W C, !json_writer}.
Context `{!hash_order string, !operator_configs, !script_lang, !event_target, !script_lib, !script_runtime}.
Lemma gc_calm (self : Wal.t Store) msg : (Wal.gc self).2 ≠ Err (EPanic msg).
Proof.
  unfold Wal.gc. destruct (Wal.confirmed self) as [c|]; [|done].
  generalize 0%N. generalize (tree_range_to EVENTS (Idx.raw c) (Wal.store self)). intros items. revert self.
  induction items as [|[[idx b]|m] items IH]; intros self i; cbn; [done| |done].
  destruct (tree_remove _ _ _) as [s [|]]; [apply IH|done].
Qed.
Lemma read_calm (self : Wal.t Store) msg : (Wal.read_events self).2 ≠ Err (EPanic msg).
Proof.
  unfold Wal.read_events.
  assert (∀ items n evs (self : Wal.t Store), (Wal.read_loop items n evs self).2 ≠ Err (EPanic msg)) as Hl.
  { clear self. induction items as [|[[idx b]|m] items IH]; intros n evs self; cbn [Wal.read_loop]; [done| |].
    all: destruct (_ <? n)%N; [done|]; try done. destruct (from_slice b); [apply IH|done]. }
  specialize (Hl (tree_range_from EVENTS (Idx.raw (Wal.read self)) (Wal.store self)) 0%N [] self).
  destruct (Wal.read_loop _ _ _ _) as [s [evs|e]]; [|done].
  pose proof (gc_calm s msg) as Hg. destruct (Wal.gc s) as [s' [n|e]]; [done|]. cbn in *. congruence.
Qed.
Lemma store_calm uid ev (self : Wal.t Store) msg : (Wal.store_event uid ev self).2 ≠ Err (EPanic msg).
Proof.
  unfold Wal.store_event. repeat (case_match; try done).
Qed.
Lemma wal_calm (o : Wal.t Store) msg : ¬ raised_by o (EPanic msg).
Proof.
  intros (uid & st & ev & [(port & Hp)|Hp]); cbn in Hp.
  - unfold Wal.on_event in Hp. pose proof (store_calm uid ev o msg) as Hs.
    destruct (Wal.store_event uid ev o) as [s [[]|e]]; [|cbn in *; congruence].
    pose proof (read_calm s msg) as Hr. destruct (Wal.broken s); [done|].
    destruct (Wal.read_events s) as [s' [l|e]]; cbn in *; congruence.
  - unfold Wal.on_signal, Wal.limit_reached in Hp.
    destruct (size_on_disk _); cbn [from_io] in Hp; [rewrite bind_Ok in Hp|done].
    match type of Hp with context [Wal.broken ?s] => remember s as s' end.
    pose proof (read_calm s' msg) as Hr. destruct (Wal.broken s'); [done|].
    destruct (Wal.read_events s') as [s'' [l|e]]; cbn [snd] in *; congruence.
Qed.

Lemma raised_lift {O B} `{!Operator O, !Operator B} (inj : O → B) o e :
  (∀ uid port st ev, on_event uid port st ev (inj o) = lift_event inj (on_event uid port st ev o)) →
  (∀ uid st sg, on_signal uid st sg (inj o) = lift_signal inj (on_signal uid st sg o)) →
  raised_by (inj o) e → raised_by o e.
Proof.
  intros He Hs (uid & st & ev & [(port & Hx)|Hx]); exists uid, st, ev.
  - left. exists port. rewrite He in Hx. by destruct (on_event uid port st ev o) as [[??]?].
  - right. rewrite Hs in Hx. by destruct (on_signal uid st ev o) as [[[??]?]?].
Qed.

Definition is_grouper (o : lib_op (Store := Store) (C := C)) : bool := match o with OGrouper _ => true | _ => false end.
Lemma lib_calm (o : lib_op (Store := Store) (C := C)) msg : raised_by o (EPanic msg) → is_grouper o = true.
Proof.
  intros Hx. destruct o as [o|o|o|o|o|o|o|o|o]; try done; exfalso.
  - apply (raised_lift OPassthrough) in Hx; [|done..]. by apply (passthrough_calm msg); exists o.
  - apply (raised_lift OHistory) in Hx; [|done..]. by apply history_calm in Hx.
  - apply (raised_lift OBatch) in Hx; [|done..]. by apply batch_calm in Hx.
  - apply (raised_lift OCounter) in Hx; [|done..]. by apply counter_calm in Hx.
  - apply (raised_lift OBackpressure) in Hx; [|done..]. by apply backpressure_calm in Hx.
  - apply (raised_lift ORoundRobin) in Hx; [|done..]. by apply round_robin_calm in Hx.
  - apply (raised_lift OWal) in Hx; [|done..]. by apply wal_calm in Hx.
  - apply (raised_lift OPercentile) in Hx; [|done..]. by apply percentile_calm in Hx.
Qed.

Definition may_panic (b : boxed (Store := Store) (C := C)) : bool :=
  match b with
  | BLib o | BTrickle _ o => is_grouper o
  | BSelect _ | BSimple _ | BScript _ => true
  end.
Lemma boxed_calm (b : boxed (Store := Store) (C := C)) msg : raised_by b (EPanic msg) → may_panic b = true.
Proof.
  intros Hx. destruct b as [o|id o| | |]; try done; simpl; apply (lib_calm o msg);
    [apply (raised_lift BLib o)|apply (raised_lift (BTrickle id) o)]; done.
Qed.
End calm.

(** C1: a query that is accepted makes a pipeline that runs: its graph has no
    cycle and every index in it is in bounds, so that a task started with it
    handles whatever events, signals, insights and connections arrive, each in
    finitely many steps, and no error ends it.  The one thing that does, as
    long as anyone can send, is a panic while an event or a signal is handled,
    and only operators that run scripts and the bucket grouper can panic. *)
Theorem query_pipelines_run {Store W C} `{!sled Store, !event_json, !event_json_data, !time_window W,
      !lru_cache W C, !json_writer, !value_trait, !hash_order string, !hash_order (nat * string),
      !hash_order TremorUrl.t, !operator_configs, !script_lang, !event_target, !script_lib,
      !script_runtime, !petgraph, !network}
    {SM SC SF} `{channel SM MgmtMsg, channel SC CfMsg, channel SF PipelineMsg}
    (open_store : Wal.config → io Store) (q : Query) (uid uid' : N) (g : ExecutableGraph (boxed (C := C)))
    (id : TremorUrl.t) (addr : Addr.t) (rounds : list arrivals) (s : rx (SM := SM) (SC := SC) (SF := SF))
    (tr : list packet)
    (Hstore : ∀ c st, open_store c = IoOk st → holds_data st)
    (Huid : u64_ok uid) (Hpipe : to_pipe open_store q uid = (uid', Ok g)) (Hopen : all_closed s = false) :
  ∃ r n rank, (∃ fuel0, ∀ fuel, (fuel0 ≤ fuel)%nat →
      pipeline_task fuel id addr rounds (init_task id g) s tr [] = Some r) ∧
    graph_ok boxed_ok n g ∧ acyclic rank g ∧
    match run_result r with
    | None => graph_ok boxed_ok n (pipeline (run_task r)) ∧ acyclic rank (pipeline (run_task r))
    | Some x => ∃ msg b m t1 fuel,
        x = Err (EPanic msg) ∧ raised_by b (EPanic msg) ∧ may_panic (C := C) b = true ∧
        last (run_handled r) = Some m ∧ graph_ok boxed_ok n (pipeline t1) ∧ panicked fuel m t1 (run_task r) msg
    end.
Proof.
  destruct (to_pipe_ok open_store Hstore q uid uid' g Huid Hpipe)
    as (b & g0 & rank & _ & _ & Hok & Hac & _ & _ & _ & ->).
  destruct (optimize_closes boxed_ok _ rank g0 Hok Hac) as (ins & ports & -> & Hok' & Hac' & _).
  destruct (pipeline_task_runs boxed_ok (length (cfgs b)) rank id addr rounds
    (init_task id (rewired g0 ins ports)) s tr []) as (fuel0 & r & new & Hr & Hon & Hnew & _); [|done|done|].
  { destruct Hok'. by constructor. }
  exists r, (length (cfgs b)), rank. split_and!; [by exists fuel0|by destruct Hok'; constructor|done|].
  unfold runs_on in Hon. simpl in Hnew. rewrite Hnew. destruct (run_result r) as [x|].
  - destruct Hon as (msg & m & t1 & fuel & -> & Hl & [Hok1 _] & Hp).
    destruct (panicked_raises _ _ _ _ _ Hp) as [o Ho]. exists msg, o, m, t1, fuel.
    split_and!; try done. by eapply boxed_calm.
  - destruct Hon as [Hk Hst]. split; [done|].
    by apply (static_acyclic rank (pipeline (init_task id (rewired g0 ins ports)))).
Qed.

(** The ids of the nodes, as the graph of the operators has them. *)
Definition node_ids {Op : Type} (g : ExecutableGraph Op) : list string := node_id <$> g_graph g.

(** C2: the graph of a query connects exactly what its statements connect: the
    k-th select statement has the node [select_k] get the events of the port it
    selects from, and what that node emits goes to where the statement says,
    ports of subqueries standing for their streams and other ports of the
    pipeline for nodes of their own. Every name in a statement is the name of a
    node, the last one placed under it, and the i-th node has the i-th uid
    after the one the query starts from, modulo 2^64. In the pipeline,
    connections through nodes that pass events on unchanged are replaced by
    direct ones. *)
Theorem query_connections {Store W C} `{!sled Store, !event_json, !event_json_data, !time_window W,
      !lru_cache W C, !json_writer, !value_trait, !hash_order string, !hash_order (nat * string),
      !operator_configs, !script_lang, !event_target, !script_lib, !script_runtime, !petgraph}
    (open_store : Wal.config → io Store) (q : Query) (uid uid' : N) (g : ExecutableGraph (boxed (C := C)))
    (Hstore : ∀ c st, open_store c = IoOk st → holds_data st)
    (Huid : u64_ok uid) (Hpipe : to_pipe open_store q uid = (uid', Ok g)) :
  ∃ g0,
    (∀ from into, (from, into) ∈ query_links (q_stmts q) ∅ 0 →
      ∃ i j, last_named (node_ids g) from.1 i ∧ last_named (node_ids g) into.1 j ∧
        connected (g_port_indexes g0) i from.2 (j, into.2)) ∧
    (∀ i p to, connected (g_port_indexes g0) i p to →
      ∃ from into, ((from, p), (into, to.2)) ∈ query_links (q_stmts q) ∅ 0 ∧
        last_named (node_ids g) from i ∧ last_named (node_ids g) into to.1) ∧
    (∀ i nd, g_graph g !! i = Some nd → node_uid nd = u64_add uid (N.of_nat (S i))) ∧
    g_graph g0 = g_graph g ∧
    ∀ i p to, connected (g_port_indexes g) i p to ↔ leads (skipped g0) (g_port_indexes g0) (i, p) to.
Proof.
  destruct (to_pipe_ok open_store Hstore q uid uid' g Huid Hpipe)
    as (b & g0 & rank & Hb & Hlinks & Hok & Hac & Hgraph & Hconn & Hnames & Hg).
  destruct (optimize_closes boxed_ok _ rank g0 Hok Hac) as (ins & ports & Hopt & _ & _ & Hleads & _).
  rewrite Hopt in Hg. simpl in Hg. subst g. exists g0. rewrite <-Hlinks.
  assert (node_ids (rewired g0 ins ports) = nc_id <$> cfgs b) as -> by exact (builder_ids _ b g0 Hb Hgraph).
  pose proof (bo_nodes _ _ Hb) as Hno. split_and!.
  - intros [from p] [into p'] Hl. destruct (Hnames _ _ Hl) as [[i Hi] [j Hj]]. exists i, j.
    split_and!; [by apply Hno..|]. apply Hconn. by exists from, into.
  - intros i p to (from & into & Hl & Hi & Hj)%Hconn. exists from, into. split_and!; [done|by apply Hno..].
  - intros i nd. rewrite Hgraph. by intros (_ & ? & _)%(bo_ok _ _ Hb).
  - done.
  - intros i p to. apply (Hleads (i, p) to).
Qed.

(** ** Queries to look at *)
Definition no_configs (backpressure : io Backpressure.config) : operator_configs := {|
  yaml := gmap string value;
  yaml_of_params p := p;
  history_config _ := IoErr "no history"%string;
  batch_config _ := IoErr "no batch"%string;
  round_robin_config _ := IoErr "no round robin"%string;
  backpressure_config _ := backpressure;
  percentile_config _ := IoErr "no percentile"%string;
  wal_config _ := IoErr "no log"%string;
|}.

Definition some_runtime : @script_runtime some_lib.
Proof. refine (@Build_script_runtime some_lib (λ _ _, tt) 1024%N (λ _, ""%string)). Defined.

Lemma id_json_data : @event_json_data id_json.
Proof.
  intros e b e' _ [= <-]. cbn. rewrite decode_encode. by intros [= <-].
Qed.

Module QueryExample.
#[global] Instance store : sled MemDb.t := mem_sled.
#[global] Instance json : event_json := id_json.
#[global] Instance json_data : event_json_data := id_json_data.
#[global] Instance windows : time_window (N * N * N * N) := restarting_window.
#[global] Instance cache : lru_cache (N * N * N * N) (N * list (string * (N * N * N * N))) := lru_list.
#[global] Instance writer : json_writer := {| encode_json _ := ""%string |}.
#[global] Instance values : value_trait := simd_value_trait.
#[global] Instance strings : hash_order string := some_order string.
#[global] Instance ports : hash_order (nat * string) := some_order (nat * string).
#[global] Instance urls : hash_order TremorUrl.t := some_order TremorUrl.t.
#[global] Instance configs : operator_configs :=
  no_configs (IoOk (Backpressure.mk_config Percentile.one [10%N] Backpressure.Discard)).
#[global] Instance lang : script_lang := reading_script.
#[global] Instance targets : event_target := reading_target.
#[global] Instance lib : script_lib := some_lib.
#[global] Instance runtime : script_runtime := some_runtime.
#[global] Instance graphs : petgraph := edge_petgraph.

Definition open_none (_ : Wal.config) : io MemDb.t := IoErr "no log"%string.
Abbreviation boxed_ := (boxed (Store := MemDb.t) (C := N * list (string * (N * N * N * N)))).

(** [select event from .. into ..] and one that computes something. *)
Definition sel (from into : string * string) : Stmt :=
  SSelect (mk_select_stmt from into (mk_stmt (None : @Window.expr lang) None None None []) []).
Definition compute (from into : string * string) : Stmt :=
  SSelect (mk_select_stmt from into (mk_stmt (Some (λ _ e _, e) : @Window.expr lang) None None None []) []).
Definition query (stmts : list Stmt) (operators : gmap string OperatorDecl) : Query :=
  mk_query ∅ stmts ∅ ∅ operators.
Definition pipe (q : Query) : result (ExecutableGraph boxed_) := (to_pipe open_none q 0).2.

Definition shape (g : ExecutableGraph boxed_) : list string * list ((nat * string) * list (nat * string)) * list nat :=
  (node_id <$> g_graph g, map_to_list (g_port_indexes g), g_contraflow g).

(** A stream between two selects is bypassed. *)
Definition through_stream : Query :=
  query [SStream "a"; compute (IN, OUT) ("a", IN); compute ("a", OUT) (OUT, "x")]%string ∅.
Example stream_bypassed :
  shape <$> pipe through_stream =
  Ok (["in"; "out"; "err"; "metrics"; "a"; "select_0"; "out/x"; "select_1"],
      [((4, OUT), [(7, IN)]); ((0, OUT), [(5, IN)]); ((5, OUT), [(7, IN)]); ((7, OUT), [(6, "x")])], [])%string.
Proof. vm_compute. reflexivity. Qed.

(** A stream may be called like the node of a select, which then takes its
    place: the select is connected to itself. *)
Example stream_named_select :
  pipe (query [SStream "select_0"; compute (IN, OUT) ("select_0", IN)]%string ∅) = Err ECyclicGraph.
Proof. vm_compute. reflexivity. Qed.

(** Insights visit the operators against the order they were created in, not
    against the flow of events: here events flow from a to b, and an insight
    from the output reaches a first; one that b makes itself never reaches a. *)
Definition bp : OperatorDecl := mk_op_decl (NodeId.mk "bp" []) (mk_kind "qos" "backpressure") (Some ∅).
Definition create (name : string) : Stmt := SOperator (mk_op_stmt (NodeId.mk name []) "bp" None).
Example contraflow_by_creation :
  shape <$> pipe (query [create "b"; create "a"; sel (IN, OUT) ("a", IN); sel ("a", OUT) ("b", IN);
                         sel ("b", OUT) (OUT, IN)] {["bp" := bp]})%string =
  Ok (["in"; "out"; "err"; "metrics"; "b"; "a"; "select_0"; "select_1"; "select_2"],
      [((6, OUT), [(5, IN)]); ((4, OUT), [(1, IN)]); ((8, OUT), [(1, IN)]); ((0, OUT), [(5, IN)]);
       ((5, OUT), [(4, IN)]); ((7, OUT), [(4, IN)])], [5; 4])%string.
Proof. vm_compute. reflexivity. Qed.

(** A port of a subquery is selected from its stream under the name of the
    port: a stream only emits on [out], so that events only pass because the
    stream is bypassed. *)
Definition from_subquery : Query :=
  query [SSubqueryStmt (mk_subquery_stmt [] "sub" {["err" := "sub_err"]}); SStream "sub_err";
         compute (IN, OUT) ("sub_err", IN); sel ("sub", ERR) (OUT, IN)]%string ∅.
Example subquery_port_links :
  query_links (q_stmts from_subquery) ∅ 0 =
  [((IN, OUT), ("select_0", IN)); (("select_0", OUT), ("sub_err", IN));
   (("sub_err", ERR), ("select_1", IN)); (("select_1", OUT), (OUT, IN))]%string.
Proof. vm_compute. reflexivity. Qed.

Definition empty_graph : ExecutableGraph boxed_ := mk_graph "" [] [] ∅ [] [] [] ∅ [] 0 0 None [].
Definition pipe_of (q : Query) : ExecutableGraph boxed_ := match pipe q with Ok g => g | Err _ => empty_graph end.
Definition is_ok {A} (r : result A) : bool := match r with Ok _ => true | Err _ => false end.

Lemma pipe_ok q : is_ok (pipe q) = true → to_pipe open_none q 0 = ((to_pipe open_none q 0).1, Ok (pipe_of q)).
Proof. unfold pipe_of, pipe. by destruct (to_pipe open_none q 0) as [n [g|e]]. Qed.
End QueryExample.

Lemma query_pipelines_run_witness :
  let _ := open_network in
  let s := Merge (Mapped (Queue [] false))
    (Merge (Mapped (Queue [Insight Event.default] false)) (Mapped (Queue [MsgEvent Event.default "in"] false))) in
  ∃ r n rank, (∃ fuel0, ∀ fuel, (fuel0 ≤ fuel)%nat →
      pipeline_task fuel (sample_url "01" None) sample_addr [([], [], []); ([], [], [])]
        (init_task (sample_url "01" None) (QueryExample.pipe_of QueryExample.through_stream)) s [] [] = Some r) ∧
    graph_ok boxed_ok n (QueryExample.pipe_of QueryExample.through_stream) ∧
    acyclic rank (QueryExample.pipe_of QueryExample.through_stream) ∧
    (run_result r = None → graph_ok boxed_ok n (pipeline (run_task r))) ∧
    (∀ x, run_result r = Some x → ∃ msg, x = Err (EPanic msg)).
Proof.
  intros Hn s.
  destruct (query_pipelines_run QueryExample.open_none QueryExample.through_stream 0 _ _ (sample_url "01" None)
    sample_addr [([], [], []); ([], [], [])] s []
    (λ c st (H : IoErr _ = IoOk st), ltac:(discriminate H)) ltac:(vm_compute; reflexivity)
    (QueryExample.pipe_ok QueryExample.through_stream ltac:(vm_compute; reflexivity)) eq_refl)
    as (r & n & rank & Hrun & Hok & Hac & Hres).
  exists r, n, rank. split; [exact Hrun|]. split; [exact Hok|]. split; [exact Hac|].
  destruct (run_result r) as [x|].
  - split; [discriminate|]. intros y [= <-]. destruct Hres as (msg & ? & ? & ? & ? & -> & _). by exists msg.
  - split; [intros _; apply Hres|discriminate].
Defined.

Lemma query_connections_witness :
  ∃ g0 : ExecutableGraph QueryExample.boxed_,
    (∀ from into, (from, into) ∈ query_links (q_stmts QueryExample.through_stream) ∅ 0 →
      ∃ i j, last_named (node_ids (QueryExample.pipe_of QueryExample.through_stream)) from.1 i ∧
        last_named (node_ids (QueryExample.pipe_of QueryExample.through_stream)) into.1 j ∧
        connected (g_port_indexes g0) i from.2 (j, into.2)) ∧
    g_graph g0 = g_graph (QueryExample.pipe_of QueryExample.through_stream).
Proof.
  destruct (query_connections QueryExample.open_none QueryExample.through_stream 0 _ _
    (λ c st (H : IoErr _ = IoOk st), ltac:(discriminate H)) ltac:(vm_compute; reflexivity)
    (QueryExample.pipe_ok QueryExample.through_stream ltac:(vm_compute; reflexivity)))
    as (g0 & Hconn & _ & _ & Hg & _).
  exists g0. split; [exact Hconn|exact Hg].
Defined.
