(* ===== verification/Lang.v ===== *)
(** The script language the select operator and its windows run.

    The class [script_lang] is what they use of expressions; here it is
    filled with the interpreter of tremor-script, as the elaborated queries
    need it.  An expression of a select carries the constants and the number
    of local variables of its statement (ast/query.rs, [SelectStmt]); an
    aggregate function carries its state and its arguments ([InvokeAggrFn]). *)
From S2P Require Import Prelude Value ValueOrd Event EventIds ScriptOps Bits Ast Interp ScriptGroup Window SimpleSelect QueryAst.

(** What aggregate functions do besides emitting, the context of an event
    with the number of its groups, the message of a guard that is not a truth
    value and the serialisation of groups are not part of the interpreter. *)
Class select_runtime `{!script_lib} := {
  aggr_fn_init : aggr_fn → aggr_fn;
  aggr_fn_accumulate : list value → aggr_fn → aggr_fn * io unit;
  aggr_fn_merge : aggr_fn → aggr_fn → aggr_fn * io unit;
  with_cardinality : usize → Ast.event_context → Ast.event_context;
  guard_report : imut_expr → value → string;
  serialize_sorted : value → io string;
}.

Section lang.
Context `{sl : !script_lib, vt : !value_trait, ho : !hash_order string, sr : !script_runtime, se : !select_runtime}.

Record select_expr := SelectExpr { se_consts : list value; se_locals : N; se_expr : imut_expr }.
Record select_aggr := SelectAggr { sa_fn : aggr_fn; sa_args : list select_expr }.

Definition to_call {A} (r : sres A) : call_result A :=
  match r with
  | SOk a => CallOk a
  | SErr Panic => CallPanic "the script panics"
  | SErr e => CallErr (format_error e)
  end.
Definition script_context (ec : Window.event_context) : Ast.event_context :=
  with_cardinality (Window.cardinality ec) (new_context (at_ ec) (ctx_origin_uri ec)).

(** The options of a select: the result is needed and aggregates emit. *)
Definition select_opts : exec_opts := ExecOpts true EmitAggr.
Definition run_select_expr (e : select_expr) (ec : Window.event_context) (consts : run_consts)
    (aggrs : list select_aggr) (event state meta : value) : call_result value :=
  let en := Env (script_context ec) (se_consts e) (Window.args consts) (Window.group consts) (window_ consts)
              (sa_fn <$> aggrs) recursion_limit_ in
  to_call (into_owned <$> (imut_run select_opts en (Inputs event state meta) (se_expr e) (with_size (se_locals e))).2).

Definition run_window_script (s : Interp.script) (ec : Window.event_context) (event meta : value) : call_result script_return :=
  to_call ((λ r, match r with RetEmit v _ => REmit v | RetEmitEvent _ => REmitEvent | RetDrop => RDrop end) <$>
           script_run_imut s (script_context ec) recursion_limit_ EmitAggr event const_null meta).

Definition on_fn (f : aggr_fn → aggr_fn * io unit) (a : select_aggr) : select_aggr * io unit :=
  let '(g, r) := f (sa_fn a) in (SelectAggr g (sa_args a), r).

#[global] Instance interp_lang : script_lang := {|
  Window.script := Interp.script;
  Window.expr := select_expr;
  Window.aggr := select_aggr;
  Window.group_by := ScriptGroup.group_by;
  run_imut := run_window_script;
  run_expr := run_select_expr;
  aggr_args := sa_args;
  aggr_init a := SelectAggr (aggr_fn_init (sa_fn a)) (sa_args a);
  aggr_accumulate argv := on_fn (aggr_fn_accumulate argv);
  aggr_merge a b := on_fn (λ f, aggr_fn_merge f (sa_fn b)) a;
  Window.generate_groups g ec event meta :=
    to_call (ScriptGroup.generate_groups (script_context ec) recursion_limit_ event meta g);
  sorted_serialize := serialize_sorted;
  guard_not_bool e v := guard_report (se_expr e) v;
|}.

(** [ast_eq] with the path [event]. *)
Definition is_event_path (e : select_expr) : bool :=
  match se_expr e with IPath (EventPath []) => true | _ => false end.
#[global] Instance interp_target : event_target.
Proof.
  refine {| is_event := (is_event_path : Window.expr → bool) |}.
  intros [cs n e] ec consts aggrs event state meta. cbn. unfold is_event_path, run_select_expr. cbn.
  destruct e as [| | | | | | | |[| |[|]| | | | | |]| | | | | | | | | | |]; done.
Defined.
End lang.
