(* ===== verification/QueryUp.v ===== *)
(** From the raw syntax of a query to the query that becomes a pipeline:
    tremor-script/src/ast/query/raw.rs, with [Helper] of tremor-script/src/ast.rs
    and [ArgsRewriter::rewrite_group_by] and [GroupByExprExtractor] of
    ast/visitors/.

    A statement that creates a subquery is replaced by the statements of its
    declaration, under names of their own; these may create further
    subqueries, so that inlining needs fuel. *)
From S2P Require Import Prelude Value ValueOrd EventIds Event Window SimpleSelect QueryAst Lang ScriptOps Bits Ast Interp ScriptMatch ScriptFold ScriptGroup RawAst ScriptUp Walkers.

(** [Params] *)
Inductive params_raw :=
  | ParamsRaw (l : list (string * imut_raw))
  | ParamsProcessed (m : gmap string value).

(** [GroupByRaw] *)
Inductive group_by_raw :=
  | RGroupExpr (e : imut_raw)
  | RGroupSet (items : list group_by_raw)
  | RGroupEach (e : imut_raw).

Record select_raw := SelectRaw {
  r_from : string * option string;
  r_into : string * option string;
  r_target : imut_raw;
  r_where : option imut_raw;
  r_having : option imut_raw;
  r_group_by : option group_by_raw;
  r_windows : option (list WindowDefn);
}.

(** [OperatorDeclRaw], [ScriptDeclRaw], [WindowDeclRaw] *)
Record operator_decl_raw := OperatorDeclRaw {
  od_id : string;
  od_kind_raw : OperatorKind;
  od_params_raw : option params_raw;
}.
Record script_decl_raw := ScriptDeclRaw {
  sd_id : string;
  sd_params_raw : option params_raw;
  sd_script_raw : list expr_raw;
}.
Record window_decl_raw := WindowDeclRaw {
  wd_id : string;
  wd_kind_raw : WindowKind;
  wd_params_raw : params_raw;
  wd_script_raw : option (list expr_raw);
}.

(** [OperatorStmtRaw], [ScriptStmtRaw] and [SubqueryStmtRaw] are alike: what
    is created, from which declaration, and with which parameters. *)
Record create_raw := CreateRaw {
  cr_module : list string;
  cr_id : string;
  cr_target : string;
  cr_params : option params_raw;
}.

(** [StmtRaw]; a declaration of a subquery has the names of its ports, where
    they are written. *)
Inductive stmt_raw :=
  | QWindowDecl (d : window_decl_raw)
  | QOperatorDecl (d : operator_decl_raw)
  | QScriptDecl (d : script_decl_raw)
  | QSubqueryDecl (id : string) (params : option params_raw) (subquery : list stmt_raw)
      (from into : option (list string))
  | QSubqueryStmt (s : create_raw)
  | QStream (id : string)
  | QOperator (s : create_raw)
  | QScript (s : create_raw)
  | QSelect (s : select_raw)
  | QModuleStmt (name : string) (stmts : list stmt_raw)
  | QExpr (e : expr_raw).

Record query_raw := QueryRaw {
  r_config : list (string * imut_raw);
  r_stmts : list stmt_raw;
}.

(** Changes to a statement before it is elaborated. *)
Definition with_params (f : option params_raw) (c : create_raw) : create_raw :=
  CreateRaw (cr_module c) (cr_id c) (cr_target c) f.
Definition rename (id : string) (c : create_raw) : create_raw :=
  CreateRaw (cr_module c) id (cr_target c) (cr_params c).
Definition in_module (m : string) (c : create_raw) : create_raw :=
  CreateRaw (m :: cr_module c) (cr_id c) (cr_target c) (cr_params c).

(** ** Errors *)
Inductive query_error :=
  | QUp (e : up_error)
  | QNoLocals
  | QNoConsts
  | QEventRef
  | QStreamIsPort (stream : string)
  | QDoubleQuery (name : string)
  | QNotFound (name : string)
  | QUnknownParameter
  | QProcessedParams
  | QBadModule
  | QBadExpr
  | QBadSubquery
  | QBadStmt
  | QOutOfFuel.

Inductive qres (A : Type) := QOk (a : A) | QErr (e : query_error).
Arguments QOk {A} a.
Arguments QErr {A} e.

(** [SubqueryStmtRaw::mangle_id] *)
Definition mangle_id (self id : string) : string := "__SUBQ__" +:+ self +:+ "_" +:+ id.

Section up.
Context `{sl : !script_lib, vt : !value_trait, ho : !hash_order string, an : !analysis, re : !registries}.
Context `{sr : !script_runtime, se : !select_runtime}.
Variable limit : N.

(** ** The helper, with the tables of a query

    A declared subquery is kept with its raw statements. *)
Record qhelper := QHelper {
  q_helper : helper;
  h_windows : gmap string QueryWindow;
  h_scripts : gmap string ScriptDecl;
  h_operators : gmap string OperatorDecl;
  subquery_defns : gmap string (SubqueryDecl * list stmt_raw);
}.
Definition set_q_helper (x : helper) (h : qhelper) : qhelper :=
  QHelper x (h_windows h) (h_scripts h) (h_operators h) (subquery_defns h).
Definition insert_window (n : string) (d : QueryWindow) (h : qhelper) : qhelper :=
  QHelper (q_helper h) (<[n := d]> (h_windows h)) (h_scripts h) (h_operators h) (subquery_defns h).
Definition insert_script (n : string) (d : ScriptDecl) (h : qhelper) : qhelper :=
  QHelper (q_helper h) (h_windows h) (<[n := d]> (h_scripts h)) (h_operators h) (subquery_defns h).
Definition insert_operator (n : string) (d : OperatorDecl) (h : qhelper) : qhelper :=
  QHelper (q_helper h) (h_windows h) (h_scripts h) (<[n := d]> (h_operators h)) (subquery_defns h).
Definition insert_subquery_defn (n : string) (d : SubqueryDecl * list stmt_raw) (h : qhelper) : qhelper :=
  QHelper (q_helper h) (h_windows h) (h_scripts h) (h_operators h) (<[n := d]> (subquery_defns h)).

Definition q_m (A : Type) : Type := qhelper → qhelper * qres A.
#[global] Instance q_ret : MRet q_m := λ A a h, (h, QOk a).
#[global] Instance q_bind : MBind q_m := λ A B f m h,
  let '(h, r) := m h in match r with QOk a => f a h | QErr e => (h, QErr e) end.
Definition q_fail {A} (e : query_error) : q_m A := λ h, (h, QErr e).
Definition q_gets {A} (f : qhelper → A) : q_m A := λ h, (h, QOk (f h)).
Definition q_modify (f : qhelper → qhelper) : q_m () := λ h, (f h, QOk ()).
(** What does not look at the tables. *)
Definition in_helper {A} (m : up_m A) : q_m A := λ h,
  let '(x, r) := m (q_helper h) in
  (set_q_helper x h, match r with UOk a => QOk a | UErr e => QErr (QUp e) end).

Section seq.
Context {A B : Type} (f : A → q_m B).
Fixpoint q_each (l : list A) : q_m (list B) :=
  match l with
  | [] => mret []
  | x :: l => y ← f x; ys ← q_each l; mret (y :: ys)
  end.
Definition q_opt (o : option A) : q_m (option B) :=
  match o with Some x => y ← f x; mret (Some y) | None => mret None end.
End seq.

Definition push_module (m : string) : q_m () :=
  q_modify (λ h, set_q_helper (set_module (module (q_helper h) ++ [m]) (q_helper h)) h).
Definition pop_module : q_m () :=
  q_modify (λ h, set_q_helper (set_module (removelast (module (q_helper h))) (q_helper h)) h).
Definition current_module : q_m (list string) := q_gets (λ h, module (q_helper h)).

(** ** Parameters *)

(** The pairs in their order, a later one of the same name counts. *)
Definition collect (l : list (string * value)) : gmap string value :=
  foldl (λ m kv, <[kv.1 := kv.2]> m) ∅ l.

(** [Params::up] *)
Definition up_params (p : params_raw) : q_m (gmap string value) :=
  match p with
  | ParamsRaw l =>
    l ← q_each (λ ne : string * imut_raw, v ← in_helper (e ← up_imut limit ne.2; into_value e); mret (ne.1, v)) l;
    mret (collect l)
  | ParamsProcessed m => mret m
  end.

(** ** Declarations *)

(** [OperatorDeclRaw::up] *)
Definition up_operator_decl (d : operator_decl_raw) : q_m OperatorDecl :=
  m ← current_module;
  params ← q_opt up_params (od_params_raw d);
  let decl := mk_op_decl (NodeId.mk (od_id d) m) (od_kind_raw d) params in
  q_modify (insert_operator (NodeId.fqn (od_node_id decl)) decl);;
  mret decl.

(** [ScriptDeclRaw::up]: the name of a script is a module for what the script
    defines. *)
Definition up_script_decl (d : script_decl_raw) : q_m ScriptDecl :=
  push_module (sd_id d);;
  script ← in_helper (up_script limit (sd_script_raw d));
  m ← current_module;
  params ← q_opt up_params (sd_params_raw d);
  let decl := mk_script_decl (NodeId.mk (sd_id d) m) params script in
  pop_module;;
  m ← current_module;
  q_modify (insert_script (NodeId.qualified m (sd_id d)) decl);;
  mret decl.

(** [WindowDeclRaw::up] *)
Definition up_window_decl (d : window_decl_raw) : q_m QueryWindow :=
  script ← q_opt (λ s, in_helper (up_script limit s)) (wd_script_raw d);
  m ← current_module;
  params ← up_params (wd_params_raw d);
  let decl := mk_query_window (NodeId.mk (wd_id d) m) (wd_kind_raw d) params script in
  q_modify (insert_window (NodeId.fqn (wd_node_id decl)) decl);;
  mret decl.

Definition dflt_in_ports : list string := ["in"%string].
Definition dflt_out_ports : list string := ["out"; "err"]%string.

(** The first stream that has the name of a port. *)
Fixpoint port_stream (ports : list string) (stmts : list stmt_raw) : option string :=
  match stmts with
  | [] => None
  | QStream id :: stmts => if bool_decide (id ∈ ports) then Some id else port_stream ports stmts
  | _ :: stmts => port_stream ports stmts
  end.

(** [SubqueryDeclRaw::up] *)
Definition up_subquery_decl (id : string) (params : option params_raw) (subquery : list stmt_raw)
    (from into : option (list string)) : q_m SubqueryDecl :=
  let from := default dflt_in_ports from in
  let into := default dflt_out_ports into in
  match port_stream (from ++ into) subquery with
  | Some s => q_fail (QStreamIsPort s)
  | None =>
    m ← current_module;
    params ← q_opt up_params params;
    let decl := mk_subquery_decl (NodeId.mk id m) params from into in
    let name := NodeId.fqn (qd_node_id decl) in
    known ← q_gets (λ h, subquery_defns h !! name);
    match known with
    | Some _ => q_fail (QDoubleQuery name)
    | None =>
      q_modify (insert_subquery_defn name (decl, subquery));;
      mret decl
    end
  end.

(** ** Selects *)

(** [Helper::has_locals] *)
Definition has_locals (h : helper) : bool :=
  existsb (λ kv : string * N, negb (String.prefix " __SHADOW " kv.1)) (map_to_list (local_ids h)).

Fixpoint up_group_by (g : group_by_raw) : up_m group_by :=
  match g with
  | RGroupExpr e => e ← up_imut limit e; mret (GroupExpr e)
  | RGroupEach e => e ← up_imut limit e; mret (GroupEach e)
  | RGroupSet items => items ← up_vec up_group_by items; mret (GroupSet items)
  end.

(** [GroupByExprExtractor] *)
Fixpoint group_expressions (g : group_by) : list imut_expr :=
  match g with
  | GroupExpr e | GroupEach e => [e]
  | GroupSet items => flat_map group_expressions items
  end.

(** [Select], and [SelectStmt] *)
Record select_up := SelectUp {
  su_from : string * string;
  su_into : string * string;
  su_target : imut_expr;
  su_where : option imut_expr;
  su_having : option imut_expr;
  su_group_by : option group_by;
  su_windows : list WindowDefn;
}.
Record select_stmt_up := SelectStmtUp {
  st_stmt : select_up;
  st_aggregates : list (aggr_fn * list imut_expr);
  st_consts : list value;
  st_locals : N;
}.

(** Expressions may not have local variables of their own. *)
Definition no_locals (b : bool) : q_m () :=
  h ← q_gets q_helper;
  if has_locals h && b then q_fail QNoLocals else mret ().

(** References to the event outside of aggregate functions are refused when
    there are windows, unless they are groups. *)
Definition check_target (windows : list WindowDefn) (group_by : option group_by) (target : imut_expr) :
    q_m imut_expr :=
  match windows with
  | [] => mret target
  | _ =>
    match rewrite_target (match group_by with Some g => group_expressions g | None => [] end) target with
    | WOk (e, _) => mret e
    | WErr _ => q_fail QEventRef
    end
  end.

(** [SelectRaw::up] *)
Definition up_select (s : select_raw) : q_m select_up :=
  const_count ← q_gets (λ h, length (const_values (q_helper h)));
  target ← in_helper (up_imut limit (r_target s));
  no_locals true;;
  having ← in_helper (up_opt (up_imut limit) (r_having s));
  no_locals (bool_decide (is_Some having));;
  consts ← q_gets (λ h, length (const_values (q_helper h)));
  (if bool_decide (const_count ≠ consts) then q_fail QNoConsts else mret ());;
  where_ ← in_helper (up_opt (up_imut limit) (r_where s));
  no_locals (bool_decide (is_Some where_));;
  group_by ← in_helper (up_opt up_group_by (r_group_by s));
  no_locals (bool_decide (is_Some group_by));;
  let windows := default [] (r_windows s) in
  target ← check_target windows group_by target;
  mret (SelectUp ((r_from s).1, default "out"%string (r_from s).2) ((r_into s).1, default "in"%string (r_into s).2)
          target where_ having group_by windows).

(** [StmtRaw::up] of a select: aggregates and local variables of its own. *)
Definition up_select_stmt (s : select_raw) : q_m select_stmt_up :=
  aggrs ← q_gets (λ h, aggregates (q_helper h));
  ls ← q_gets (λ h, local_ids (q_helper h));
  q_modify (λ h, set_q_helper (swap [] ∅ (q_helper h)) h);;
  stmt ← up_select s;
  h ← q_gets q_helper;
  q_modify (λ h, set_q_helper (swap aggrs ls (q_helper h)) h);;
  mret (SelectStmtUp stmt (aggregates h) (const_values h) (N.of_nat (size (local_ids h)))).

(** The statement the pipeline is built from. *)
Definition pack_select (s : select_stmt_up) : SelectStmt :=
  let expr e := SelectExpr (st_consts s) (st_locals s) e in
  let u := st_stmt s in
  mk_select_stmt (su_from u) (su_into u)
    (mk_stmt (expr (su_target u) : Window.expr) (expr <$> su_where u) (su_group_by u : option Window.group_by)
       (expr <$> su_having u)
       ((λ a, SelectAggr a.1 (expr <$> a.2)) <$> st_aggregates s))
    (su_windows u).

(** ** Statements *)

(** [OperatorStmtRaw::up] and [ScriptStmtRaw::up] *)
Definition up_operator (c : create_raw) : q_m OperatorStmt :=
  params ← q_opt up_params (cr_params c);
  mret (mk_op_stmt (NodeId.mk (cr_id c) (cr_module c)) (cr_target c) params).
Definition up_script_stmt (c : create_raw) : q_m ScriptStmt :=
  params ← q_opt up_params (cr_params c);
  mret (mk_script_stmt (NodeId.mk (cr_id c) (cr_module c)) (cr_target c) params).

(** [StmtRaw::up] *)
Definition up_stmt (s : stmt_raw) : q_m Stmt :=
  match s with
  | QSelect s => s ← up_select_stmt s; mret (SSelect (pack_select s))
  | QStream id => mret (SStream id)
  | QOperatorDecl d => d ← up_operator_decl d; mret (SOperatorDecl d)
  | QOperator c => c ← up_operator c; mret (SOperator c)
  | QScriptDecl d => d ← up_script_decl d; mret (SScriptDecl d)
  | QScript c => c ← up_script_stmt c; mret (SScript c)
  | QSubqueryDecl id params subquery from into =>
    d ← up_subquery_decl id params subquery from into; mret (SSubqueryDecl d)
  | QWindowDecl d => d ← up_window_decl d; mret (SWindowDecl d)
  | QModuleStmt _ _ => q_fail QBadModule
  | QSubqueryStmt _ => q_fail QBadSubquery
  | QExpr _ => q_fail QBadExpr
  end.

(** ** Modules *)

(** [ModuleStmtRaw::define], on one of the statements of the module [name];
    an expression is defined through a module of the same name. *)
Fixpoint define_in (name : string) (s : stmt_raw) : q_m () :=
  match s with
  | QModuleStmt n stmts => push_module n;; q_each (define_in n) stmts;; pop_module
  | QExpr e => pop_module;; in_helper (define limit (XModule name [e]));; push_module name
  | QWindowDecl d => up_window_decl d;; mret ()
  | QScriptDecl d => up_script_decl d;; mret ()
  | QOperatorDecl d => up_operator_decl d;; mret ()
  | QSubqueryDecl id params subquery from into => up_subquery_decl id params subquery from into;; mret ()
  | _ => q_fail QBadStmt
  end.
Definition define_module (name : string) (stmts : list stmt_raw) : q_m () :=
  push_module name;; q_each (define_in name) stmts;; pop_module.

(** ** Subqueries *)

(** [get_args_map]: the parameters of the statement and, for the others, of
    the declaration; without parameters in the declaration those of the
    statement do not count. *)
Definition get_args_map (decl_params stmt_params : option (gmap string value)) : q_m (gmap string value) :=
  match decl_params with
  | None => mret ∅
  | Some decl =>
    match stmt_params with
    | None => mret decl
    | Some stmt =>
      if bool_decide (dom stmt ⊆ dom decl) then mret (stmt ∪ decl) else q_fail QUnknownParameter
    end
  end.

(** [inline_params]: the expressions may refer to the arguments of the
    subquery. *)
Definition inline_param (sq_args : value) (ne : string * imut_raw) : q_m (string * value) :=
  v ← in_helper (
    e ← up_imut limit ne.2;
    e ← rewrite_expr sq_args e;
    e ← reduce_expr limit e;
    into_value e);
  mret (ne.1, v).
Definition inline_params (sq_args : value) (p : params_raw) : q_m params_raw :=
  match p with
  | ParamsProcessed _ => q_fail QProcessedParams
  | ParamsRaw l => l ← q_each (inline_param sq_args) l; mret (ParamsProcessed (collect l))
  end.

(** [ArgsRewriter::rewrite_group_by] *)
Fixpoint rewrite_group_by (sq_args : value) (g : group_by) : up_m group_by :=
  match g with
  | GroupExpr e => e ← rewrite_expr sq_args e; mret (GroupExpr e)
  | GroupEach e => e ← rewrite_expr sq_args e; mret (GroupEach e)
  | GroupSet items => items ← up_each (rewrite_group_by sq_args) items; mret (GroupSet items)
  end.

(** The arguments of the aggregate functions are not rewritten. *)
Definition rewrite_select (sq_args : value) (s : select_stmt_up) : up_m select_stmt_up :=
  let u := st_stmt s in
  target ← rewrite_expr sq_args (su_target u);
  where_ ← up_opt (rewrite_expr sq_args) (su_where u);
  having ← up_opt (rewrite_expr sq_args) (su_having u);
  group_by ← up_opt (rewrite_group_by sq_args) (su_group_by u);
  mret (SelectStmtUp (SelectUp (su_from u) (su_into u) target where_ having group_by (su_windows u))
          (st_aggregates s) (st_consts s) (st_locals s)).

Definition mangle_select (self : string) (subq_module : string) (s : select_raw) : select_raw :=
  SelectRaw (mangle_id self (r_from s).1, (r_from s).2) (mangle_id self (r_into s).1, (r_into s).2)
    (r_target s) (r_where s) (r_having s) (r_group_by s)
    (map (λ w, mk_window_defn (subq_module :: wf_module w) (wf_id w)) <$> r_windows s).

Definition push_node_module (m : string) (i : NodeId.t) : NodeId.t := NodeId.mk (NodeId.id i) (m :: NodeId.module i).

Section inline_stmt.
(** The inlining of a statement that creates a subquery inside of one. *)
Variable inline : create_raw → q_m (list Stmt * SubqueryStmt).
Variables (self subq_module : string) (sq_args : value) (ports : list string).

(** The loop of [SubqueryStmtRaw::inline]: the statements one of the
    subquery becomes, and the stream of a port. *)
Definition inline_stmt (s : stmt_raw) : q_m (list Stmt * option (string * string)) :=
  match s with
  | QModuleStmt name stmts => define_module name stmts;; mret ([], None)
  | QSubqueryStmt c =>
    params ← q_opt (inline_params sq_args) (cr_params c);
    r ← inline (in_module subq_module (with_params params (rename (mangle_id self (cr_id c)) c)));
    mret (r.1 ++ [SSubqueryStmt r.2], None)
  | QOperator c =>
    params ← q_opt (inline_params sq_args) (cr_params c);
    o ← up_operator (with_params params (rename (mangle_id self (cr_id c)) c));
    mret ([SOperator (mk_op_stmt (push_node_module subq_module (os_node_id o)) (os_target o) (os_params o))], None)
  | QScript c =>
    params ← q_opt (inline_params sq_args) (cr_params c);
    o ← up_script_stmt (with_params params (rename (mangle_id self (cr_id c)) c));
    mret ([SScript (mk_script_stmt (push_node_module subq_module (ss_node_id o)) (ss_target o) (ss_params o))], None)
  | QStream id =>
    mret ([SStream (mangle_id self id)], if bool_decide (id ∈ ports) then Some (id, mangle_id self id) else None)
  | QSelect s =>
    s ← up_select_stmt (mangle_select self subq_module s);
    s ← in_helper (rewrite_select sq_args s);
    mret ([SSelect (pack_select s)], None)
  | QScriptDecl d =>
    params ← q_opt (inline_params sq_args) (sd_params_raw d);
    s ← up_stmt (QScriptDecl (ScriptDeclRaw (sd_id d) params (sd_script_raw d)));
    mret ([s], None)
  | QOperatorDecl d =>
    params ← q_opt (inline_params sq_args) (od_params_raw d);
    s ← up_stmt (QOperatorDecl (OperatorDeclRaw (od_id d) (od_kind_raw d) params));
    mret ([s], None)
  | QSubqueryDecl id params subquery from into =>
    params ← q_opt (inline_params sq_args) params;
    s ← up_stmt (QSubqueryDecl id params subquery from into);
    mret ([s], None)
  | QWindowDecl d =>
    params ← inline_params sq_args (wd_params_raw d);
    s ← up_stmt (QWindowDecl (WindowDeclRaw (wd_id d) (wd_kind_raw d) params (wd_script_raw d)));
    mret ([s], None)
  | QExpr e => s ← up_stmt (QExpr e); mret ([s], None)
  end.
End inline_stmt.

(** [SubqueryStmtRaw::inline]: the statements it pushes, and its own one. *)
Fixpoint inline (fuel : nat) (self : create_raw) : q_m (list Stmt * SubqueryStmt) :=
  match fuel with
  | O => q_fail QOutOfFuel
  | S fuel =>
    let name := NodeId.qualified (cr_module self) (cr_target self) in
    defn ← q_gets (λ h, subquery_defns h !! name);
    match defn with
    | None => q_fail (QNotFound name)
    | Some (decl, raw_stmts) =>
      let ports := qd_from decl ++ qd_into decl in
      let subq_module := mangle_id (cr_id self) (cr_id self) in
      push_module subq_module;;
      stmt_params ← q_opt up_params (cr_params self);
      sq_args ← get_args_map (qd_params decl) stmt_params;
      l ← q_each (inline_stmt (inline fuel) (cr_id self) subq_module (VObject sq_args) ports)
            ((QStream <$> ports) ++ raw_stmts);
      pop_module;;
      m ← current_module;
      mret (mjoin l.*1, mk_subquery_stmt m (cr_id self) (list_to_map (omap snd (reverse l))))
    end
  end.

(** ** Queries *)

(** The statement of a subquery comes before the statements it is inlined
    as. *)
Definition up_top_stmt (fuel : nat) (s : stmt_raw) : q_m (list Stmt) :=
  match s with
  | QModuleStmt name stmts => define_module name stmts;; mret []
  | QSubqueryStmt c => r ← inline fuel c; mret (SSubqueryStmt r.2 :: r.1)
  | s => s ← up_stmt s; mret [s]
  end.

(** [QueryRaw::up_script] *)
Definition up_query (fuel : nat) (q : query_raw) : q_m Query :=
  stmts ← q_each (up_top_stmt fuel) (r_stmts q);
  config ← up_params (ParamsRaw (r_config q));
  h ← q_gets (λ h, h);
  mret (mk_query config (mjoin stmts) (h_windows h) (h_scripts h) (h_operators h)).

Definition new_qhelper : qhelper := QHelper new_helper ∅ ∅ ∅ ∅.
Definition build_query (fuel : nat) (q : query_raw) : qres Query := (up_query fuel q new_qhelper).2.
End up.
