(* ===== verification/QueryUpSpec.v ===== *)
(** What inlining a subquery gives: its streams, the streams of its ports and
    the names of its statements. *)
From Stdlib Require Import Ascii.
From S2P Require Import Prelude Value ValueOrd EventIds Event Window SimpleSelect QueryAst Lang ScriptOps Bits Ast Interp ScriptMatch ScriptFold ScriptGroup RawAst ScriptUp Walkers AstInd WalkSpec QueryUp.

Section spec.
Context `{sl : !script_lib, vt : !value_trait, ho : !hash_order string, an : !analysis, re : !registries}.
Context `{sr : !script_runtime, se : !select_runtime}.
Variable limit : N.

(** ** The monad *)
Definition q_yields {A} (m : q_m A) (a : A) : Prop := ∃ h h', m h = (h', QOk a).
Lemma q_yields_ret {A} (a b : A) : q_yields (mret a) b → a = b.
Proof. by intros (h & h' & [= _ ->]). Qed.
Lemma q_yields_fail {A} e (b : A) : q_yields (q_fail e) b → False.
Proof. by intros (h & h' & [=]). Qed.
Lemma q_bind_Ok {A B} (m : q_m A) (f : A → q_m B) h h' b :
  (m ≫= f) h = (h', QOk b) → ∃ h1 a, m h = (h1, QOk a) ∧ f a h1 = (h', QOk b).
Proof. unfold mbind, q_bind. destruct (m h) as [h1 [a|e]]; [|done]. intros H. by exists h1, a. Qed.
Lemma q_yields_bind {A B} (m : q_m A) (f : A → q_m B) b :
  q_yields (m ≫= f) b → ∃ a, q_yields m a ∧ q_yields (f a) b.
Proof.
  intros (h & h' & (h1 & a & H1 & H2)%q_bind_Ok). exists a. split; [by exists h, h1|by exists h1, h'].
Qed.
Lemma q_yields_helper {A} (m : up_m A) a : q_yields (in_helper m) a → ∃ h h', m h = (h', UOk a).
Proof.
  intros (h & h' & H). unfold in_helper in H. destruct (m (q_helper h)) as [x [b|e]] eqn:E; [|done].
  injection H as _ ->. by exists (q_helper h), x.
Qed.
Lemma up_bind_Ok {A B} (m : up_m A) (f : A → up_m B) h h' b :
  (m ≫= f) h = (h', UOk b) → ∃ h1 a, m h = (h1, UOk a) ∧ f a h1 = (h', UOk b).
Proof. unfold mbind, up_bind. destruct (m h) as [h1 [a|e]]; [|done]. intros H. by exists h1, a. Qed.
Lemma q_yields_each {A B} (f : A → q_m B) l l' :
  q_yields (q_each f l) l' → Forall2 (λ x y, q_yields (f x) y) l l'.
Proof.
  revert l'. induction l as [|x l IH]; intros l'; cbn.
  - intros <-%q_yields_ret. constructor.
  - intros (y & Hy & (ys & Hys & <-%q_yields_ret)%q_yields_bind)%q_yields_bind. constructor; auto.
Qed.
End spec.
Ltac q_inv :=
  repeat match goal with
  | H : q_yields (mret _) _ |- _ => apply q_yields_ret in H; simplify_eq/=
  | H : q_yields (q_fail _) _ |- _ => by apply q_yields_fail in H
  | H : q_yields (_ ≫= _) _ |- _ => apply q_yields_bind in H as (? & ? & ?)
  end.

Section inline.
Context `{sl : !script_lib, vt : !value_trait, ho : !hash_order string, an : !analysis, re : !registries}.
Context `{sr : !script_runtime, se : !select_runtime}.
Variable limit : N.

(** ** Names *)

(** The names of nodes a statement introduces or refers to; declarations are
    found by their module. *)
Definition node_names (s : Stmt) : list string :=
  match s with
  | SStream id => [id]
  | SOperator s => [NodeId.id (os_node_id s)]
  | SScript s => [NodeId.id (ss_node_id s)]
  | SSubqueryStmt s => [sq_id s]
  | SSelect s => [(sel_from s).1; (sel_into s).1]
  | SWindowDecl _ | SOperatorDecl _ | SScriptDecl _ | SSubqueryDecl _ => []
  end.
Definition internal (name : string) : Prop := ∃ self id, name = mangle_id self id.
Definition internal_stmt (s : Stmt) : Prop := Forall internal (node_names s).

Lemma up_operator_id c o : q_yields (up_operator limit c) o → NodeId.id (os_node_id o) = cr_id c.
Proof. intros H. unfold up_operator in H. by q_inv. Qed.
Lemma up_script_id c o : q_yields (up_script_stmt limit c) o → NodeId.id (ss_node_id o) = cr_id c.
Proof. intros H. unfold up_script_stmt in H. by q_inv. Qed.
Lemma up_select_names s u : q_yields (up_select_stmt limit s) u →
  (su_from (st_stmt u)).1 = (r_from s).1 ∧ (su_into (st_stmt u)).1 = (r_into s).1.
Proof. intros H. unfold up_select_stmt, up_select in H. by q_inv. Qed.
Lemma rewrite_select_names args s u : q_yields (in_helper (rewrite_select args s)) u →
  su_from (st_stmt u) = su_from (st_stmt s) ∧ su_into (st_stmt u) = su_into (st_stmt s).
Proof.
  intros (h & h' & H)%q_yields_helper. unfold rewrite_select in H.
  repeat apply up_bind_Ok in H as (? & ? & _ & H). by injection H as _ <-.
Qed.

Section stmt.
Variables (inl : create_raw → q_m (list Stmt * SubqueryStmt)) (self subq_module : string) (args : value) (ports : list string).
Hypothesis Hinl : ∀ c r, q_yields (inl c) r → Forall internal_stmt r.1 ∧ sq_id r.2 = cr_id c.

Lemma inline_stmt_internal s r : q_yields (inline_stmt limit inl self subq_module args ports s) r →
  Forall internal_stmt r.1 ∧ ∀ p st, r.2 = Some (p, st) → st = mangle_id self p ∧ p ∈ ports.
Proof using Hinl.
  assert (∀ st, internal_stmt st → Forall internal_stmt [st] ∧ ∀ p x, (None : option (string * string)) = Some (p, x) → x = mangle_id self p ∧ p ∈ ports) as Hone.
  { intros st Hst. split; [by constructor|done]. }
  destruct s; cbn [inline_stmt]; intros H; q_inv; try apply Hone; try by constructor.
  - match goal with Hr : q_yields (inl _) _ |- _ => apply Hinl in Hr as [Hs Hi] end.
    split; [|done]. apply Forall_app. split; [done|]. constructor; [|done]. constructor; [|done].
    rewrite Hi. by eexists _, _.
  - split; [constructor; [|done]; constructor; [by eexists _, _|done]|].
    intros p st. case_bool_decide; [|done]. by intros [= <- <-].
  - constructor; [|done]. cbn. match goal with Hr : q_yields (up_operator _ _) _ |- _ => rewrite (up_operator_id _ _ Hr) end. by eexists _, _.
  - constructor; [|done]. cbn. match goal with Hr : q_yields (up_script_stmt _ _) _ |- _ => rewrite (up_script_id _ _ Hr) end. by eexists _, _.
  - match goal with Hr : q_yields (in_helper _) _, Hs : q_yields (up_select_stmt _ _) _ |- _ =>
      apply rewrite_select_names in Hr as [Hf Hi]; apply up_select_names in Hs as [Hf' Hi'] end.
    unfold internal_stmt. cbn. rewrite Hf, Hi, Hf', Hi'. cbn. repeat constructor; by eexists _, _.
Qed.
End stmt.

Lemma inline_internal fuel c r : q_yields (inline limit fuel c) r → Forall internal_stmt r.1 ∧ sq_id r.2 = cr_id c.
Proof.
  revert c r. induction fuel as [|fuel IH]; intros c r; cbn [inline]; intros H; q_inv.
  match goal with H : q_yields (match ?o with _ => _ end) _ |- _ => destruct o as [[decl raw]|] end; q_inv.
  split; [|done]. match goal with H : q_yields (q_each _ _) ?l |- _ => apply q_yields_each in H as Hl; clear H end.
  cbn. apply Forall_join, Forall_fmap.
  eapply Forall2_Forall_r; [exact Hl|]. apply Forall_true. intros st y Hy. cbn.
  eapply inline_stmt_internal; [|exact Hy]. exact IH.
Qed.

(** C16: A subquery that is created is inlined: every port its declaration names has
    a stream of its own among the statements that are inlined, and is mapped
    to it; no other name is a port; and all nodes the inlined statements
    introduce or refer to have names of the internal form, made of a prefix and
    the name in the subquery. (A user may write an identifier of that form
    too, so this alone does not keep them apart from nodes of the query.) *)
Theorem inline_ports fuel c h h' stmts sq :
  inline limit fuel c h = (h', QOk (stmts, sq)) →
  ∃ decl raw, subquery_defns h !! NodeId.qualified (cr_module c) (cr_target c) = Some (decl, raw) ∧
    sq_id sq = cr_id c ∧
    (∀ port, port ∈ qd_from decl ++ qd_into decl →
       port_stream_map sq !! port = Some (mangle_id (cr_id c) port) ∧ SStream (mangle_id (cr_id c) port) ∈ stmts) ∧
    (∀ port, port ∉ qd_from decl ++ qd_into decl → port_stream_map sq !! port = None) ∧
    Forall internal_stmt stmts.
Proof.
  intros H. pose proof (inline_internal fuel c (stmts, sq) (ex_intro _ _ (ex_intro _ _ H))) as [Hint Hid].
  destruct fuel as [|fuel]; [done|]. cbn [inline] in H.
  apply q_bind_Ok in H as (h1 & o & [= <- <-] & H).
  destruct (subquery_defns h !! _) as [[decl raw]|] eqn:Hd; [|done]. exists decl, raw. split; [done|].
  split; [done|].
  apply q_bind_Ok in H as (? & ? & _ & H). apply q_bind_Ok in H as (? & ? & _ & H).
  apply q_bind_Ok in H as (? & ? & _ & H). apply q_bind_Ok in H as (? & l & Hl & H).
  apply q_bind_Ok in H as (? & ? & _ & H). apply q_bind_Ok in H as (? & ? & _ & H).
  injection H as _ <- <-. cbn [port_stream_map].
  pose proof (q_yields_each _ _ _ (ex_intro _ _ (ex_intro _ _ Hl))) as Hs. clear Hl. rename Hs into Hl.
  set (ports := qd_from decl ++ qd_into decl) in *.
  assert (∀ p st, (p, st) ∈ omap snd (reverse l) → st = mangle_id (cr_id c) p ∧ p ∈ ports) as Hsnd.
  { intros p st (r & Hr & Hp)%list_elem_of_omap. rewrite elem_of_reverse in Hr.
    apply list_elem_of_lookup in Hr as [i Hi]. eapply Forall2_lookup_r in Hl as (s & _ & Hy); [|exact Hi].
    eapply (inline_stmt_internal _ _ _ _ _ (inline_internal fuel)); done. }
  split; [|split; [|done]].
  - intros p Hp.
    assert (([SStream (mangle_id (cr_id c) p)], Some (p, mangle_id (cr_id c) p)) ∈ l) as Hel.
    { assert (QStream p ∈ (QStream <$> ports) ++ raw) as [i Hi]%list_elem_of_lookup by set_solver.
      eapply Forall2_lookup_l in Hl as (y & Hy & Hq); [|exact Hi]. cbn [inline_stmt] in Hq. q_inv.
      rewrite bool_decide_eq_true_2 in Hy by done. by apply list_elem_of_lookup_2 in Hy. }
    split.
    + apply elem_of_list_to_map'; [by intros st _ [-> _]%Hsnd|].
      apply list_elem_of_omap. exists ([SStream (mangle_id (cr_id c) p)], Some (p, mangle_id (cr_id c) p)). by rewrite elem_of_reverse.
    + apply list_elem_of_join. exists [SStream (mangle_id (cr_id c) p)]. split; [by left|]. by apply (list_elem_of_fmap_2 fst) in Hel.
  - intros p Hp. apply not_elem_of_list_to_map. intros ([p' st] & -> & [_ Hin]%Hsnd)%list_elem_of_fmap. done.
Qed.
End inline.

(** Inlining ends.

    Elaborating expressions and scripts leaves the current module as it is, so
    that what an inlined subquery declares is found under the internal names
    of the modules it is inlined into, the outermost one first; what it
    creates is looked for under the innermost one.  Where no name of the query
    begins with an underscore, as internal names do, these are the same only
    for the subqueries of a subquery that the query itself creates. *)

(** ** Computations that keep the module *)
Section keeps.
Context `{sl : !script_lib, vt : !value_trait, ho : !hash_order string, an : !analysis, re : !registries}.
Variable limit : N.

Definition keeps {A} (m : up_m A) : Prop := ∀ h h' a, m h = (h', UOk a) → module h' = module h.

Lemma keeps_ret {A} (a : A) : keeps (mret a).
Proof. by intros h h' b [= <- _]. Qed.
Lemma keeps_fail {A} e : keeps (up_fail e : up_m A).
Proof. by intros h h' b [=]. Qed.
Lemma keeps_bind {A B} (m : up_m A) (f : A → up_m B) : keeps m → (∀ a, keeps (f a)) → keeps (m ≫= f).
Proof.
  intros Hm Hf h h' b (h1 & a & H1 & H2)%up_bind_Ok. rewrite (Hf a h1 h' b H2). by eapply Hm.
Qed.
Lemma keeps_gets {A} (f : helper → A) : keeps (gets f).
Proof. by intros h h' b [= <- _]. Qed.
Lemma keeps_modify f : (∀ h, module (f h) = module h) → keeps (modify f).
Proof. intros H h h' b [= <- _]. apply H. Qed.
Lemma keeps_some_or_fail {A} (o : option A) e : keeps (some_or_fail o e).
Proof. destruct o; [apply keeps_ret|apply keeps_fail]. Qed.
Lemma keeps_var_id id : keeps (var_id id).
Proof. intros h h' b. unfold var_id. destruct (_ !! _); by intros [= <- _]. Qed.
Lemma keeps_insert_const n p v : keeps (insert_const n p v).
Proof. intros h h' b. unfold insert_const. destruct (_ !! _); by intros [= <- _]. Qed.
Lemma keeps_register_fun n f : keeps (register_fun n f).
Proof. intros h h' b. unfold register_fun. destruct (_ !! _); by intros [= <- _]. Qed.
Lemma keeps_reduce e : keeps (reduce limit e).
Proof. by intros h h' b [= <- _]. Qed.
End keeps.
Create HintDb keeps.
#[export] Hint Resolve keeps_ret keeps_fail keeps_gets keeps_some_or_fail keeps_var_id keeps_insert_const keeps_register_fun keeps_reduce : keeps.
#[export] Hint Extern 1 (keeps (modify _)) => (apply keeps_modify; reflexivity) : keeps.
Ltac keeps_step :=
  first
    [ assumption
    | solve [eauto 2 with keeps]
    | apply keeps_bind; [|intros ?]
    | match goal with |- keeps (match ?x with _ => _ end) => destruct x end ].
Ltac keeps := repeat keeps_step.

Section parts.
Context `{sl : !script_lib, vt : !value_trait, ho : !hash_order string, an : !analysis, re : !registries}.
Variable limit : N.

Lemma keeps_reserve : keeps reserve_shadow.
Proof. unfold reserve_shadow. keeps. Qed.
Lemma keeps_reserve_2 : keeps reserve_2_shadow.
Proof. unfold reserve_2_shadow. keeps. Qed.
Hint Resolve keeps_reserve keeps_reserve_2 : keeps.
Lemma keeps_register id : keeps (register_shadow_var id).
Proof. unfold register_shadow_var. keeps. Qed.
Lemma keeps_end : keeps end_shadow_var.
Proof. unfold end_shadow_var. keeps. Qed.
Hint Resolve keeps_register keeps_end : keeps.
Lemma keeps_test t : keeps (up_test t).
Proof. destruct t. cbn. keeps. Qed.
Lemma keeps_into_value e : keeps (into_value e).
Proof. unfold into_value. keeps. Qed.
Hint Resolve keeps_test keeps_into_value : keeps.

Section seq.
Context {A B : Type} (f : A → up_m B).
Lemma keeps_each l : each_all (λ x, keeps (f x)) l → keeps (up_each f l).
Proof. induction l as [|x l IH]; cbn; intros Hl; [keeps|]. destruct Hl as [Hx Hl]. pose proof (IH Hl). keeps. Qed.
Lemma keeps_leaf b l : each_all (λ x, keeps (f x)) l → keeps (up_leaf f b l).
Proof.
  induction l as [|x l IH]; cbn; intros Hl; [keeps|]. destruct Hl as [Hx Hl]. pose proof (IH Hl).
  destruct l; keeps.
Qed.
Lemma keeps_vec l : each_all (λ x, keeps (f x)) l → keeps (up_vec f l).
Proof. intros Hl. unfold up_vec. destruct l as [|x l]; [keeps|]. apply keeps_bind; [keeps|]. intros b. pose proof (keeps_leaf b _ Hl). keeps. Qed.
Lemma keeps_opt o : opt_all (λ x, keeps (f x)) o → keeps (up_opt f o).
Proof. destruct o; cbn; intros Ho; keeps. Qed.
End seq.
Hint Resolve keeps_each keeps_vec keeps_opt : keeps.

Section imut.
Abbreviation up_i := (up_imut limit).
Abbreviation up_p := (up_predicate limit).
Abbreviation K := (λ r, keeps (up_i r)).
Abbreviation KP := (λ p, keeps (up_p p)).

Lemma keeps_elements es : ∀ new, each_all (r_elem K) es → keeps (up_elements limit up_i es new).
Proof. induction es as [|[s|e] es IH]; intros new; cbn; intros He; destruct_and?; keeps. Qed.
Lemma keeps_string es : each_all (r_elem K) es → keeps (up_string limit up_i es).
Proof. intros H. unfold up_string. pose proof (keeps_elements es [] H). keeps. Qed.
Hint Resolve keeps_string : keeps.
Lemma keeps_each_of {A B} (R : A → Prop) (f : A → up_m B) l :
  (∀ x, R x → keeps (f x)) → each_all R l → keeps (up_each f l).
Proof. intros H Hl. by apply keeps_each, (each_all_impl R). Qed.
Lemma keeps_vec_of {A B} (R : A → Prop) (f : A → up_m B) l :
  (∀ x, R x → keeps (f x)) → each_all R l → keeps (up_vec f l).
Proof. intros H Hl. by apply keeps_vec, (each_all_impl R). Qed.

Lemma keeps_field f : r_field K f → keeps (up_field limit up_i f).
Proof. destruct f. intros []. cbn. keeps. Qed.
Lemma keeps_part p : r_part K p → keeps (up_part up_i p).
Proof. destruct p. cbn. intros. keeps. Qed.
Lemma keeps_op o : r_op K o → keeps (up_operation limit up_i o).
Proof. destruct o; cbn; intros H; destruct_and?; keeps. Qed.
Lemma keeps_segment s : r_segment K s → keeps (up_segment up_i s).
Proof. destruct s; cbn; intros H; destruct_and?; keeps. Qed.
Lemma keeps_segments ss : each_all (r_segment K) ss → keeps (up_vec (up_segment up_i) ss).
Proof. apply keeps_vec_of, keeps_segment. Qed.
Hint Resolve keeps_segments : keeps.
Lemma keeps_path p : r_path K p → keeps (up_path up_i p).
Proof. destruct p; cbn [up_path r_path]; intros H; destruct_and?; keeps. Qed.
Lemma keeps_fields fs : each_all KP fs → keeps (up_record up_p fs).
Proof. intros H. unfold up_record. keeps. Qed.
Hint Resolve keeps_path keeps_fields : keeps.
Lemma keeps_element p : r_element K KP p → keeps (up_array_element up_i up_p p).
Proof. destruct p; cbn; intros H; keeps. Qed.
Lemma keeps_elements_ es : each_all (r_element K KP) es → keeps (up_vec (up_array_element up_i up_p) es).
Proof. apply keeps_vec_of, keeps_element. Qed.
Hint Resolve keeps_elements_ : keeps.
Lemma keeps_predicate_step p : r_predicate K KP p → keeps (up_predicate_step up_i up_p p).
Proof. destruct p; cbn; intros H; keeps. Qed.
Lemma keeps_pattern p : r_pattern K KP p → keeps (up_pattern up_i up_p p).
Proof. induction p; cbn; intros H; keeps. Qed.
Hint Resolve keeps_pattern : keeps.

Section clauses.
Context {R E : Type} (up_e : R → up_m E) (repl : N → E → E) (is_null : E → bool).
Abbreviation KE := (λ e, keeps (up_e e)).
Lemma keeps_clause c : r_clause K KP KE c → keeps (up_clause up_i up_p up_e repl c).
Proof.
  destruct c. intros (Hp & Hg & He). cbn in *. pose proof (keeps_opt _ _ Hg). pose proof (keeps_vec _ _ He). keeps.
Qed.
Lemma keeps_match t cs : keeps (up_i t) → each_all (r_clause K KP KE) cs → keeps (up_match up_i up_p up_e repl is_null t cs).
Proof. intros Ht Hcs. pose proof (keeps_each_of _ _ _ keeps_clause Hcs). unfold up_match. keeps. Qed.
Lemma keeps_case c : r_case K KE c → keeps (up_case up_i up_e repl c).
Proof.
  destruct c. intros (Hg & He). cbn in *. pose proof (keeps_opt _ _ Hg). pose proof (keeps_vec _ _ He). keeps.
Qed.
Lemma keeps_comprehension t cs : keeps (up_i t) → each_all (r_case K KE) cs → keeps (up_comprehension up_i up_e repl t cs).
Proof. intros Ht Hcs. pose proof (keeps_vec_of _ _ _ keeps_case Hcs). unfold up_comprehension. keeps. Qed.
End clauses.
Hint Resolve keeps_match keeps_comprehension : keeps.

Lemma keeps_invoke m f args : each_all K args → keeps (up_invoke up_i m f args).
Proof. intros H. pose proof (keeps_vec _ _ H). unfold up_invoke. keeps. Qed.
Lemma keeps_aggregate m f args : each_all K args → keeps (up_aggregate up_i m f args).
Proof. intros H. pose proof (keeps_vec _ _ H). unfold up_aggregate. keeps. Qed.
Lemma keeps_recur es : each_all K es → keeps (up_recur up_i es).
Proof. intros H. pose proof (keeps_vec _ _ H). unfold up_recur. keeps. Qed.
Hint Resolve keeps_invoke keeps_aggregate keeps_recur : keeps.

Lemma keeps_imut_of e : r_sub K KP e → keeps (up_i e).
Proof.
  intros H. rewrite up_imut_eq. unfold up_imut_step.
  apply keeps_bind; [keeps|]. intros leaf. apply keeps_bind; [keeps|]. intros ?. apply keeps_bind; [|intros ?; keeps].
  destruct e; cbn [r_sub] in H; destruct_and?; try solve [keeps].
  - apply keeps_bind; [|intros ?; keeps]. by eapply keeps_vec_of; [apply keeps_field|].
  - apply keeps_bind; [|intros ?; keeps]. by eapply keeps_vec_of; [apply keeps_op|].
  - apply keeps_bind; [|intros ?; keeps]. by eapply keeps_each_of; [apply keeps_part|].
Qed.
Lemma keeps_predicate_of p : r_predicate K KP p → keeps (up_p p).
Proof. intros H. rewrite up_predicate_eq. by apply keeps_predicate_step. Qed.
Lemma keeps_imut r : keeps (up_i r).
Proof. apply (imut_raw_induction K KP); [apply keeps_imut_of|apply keeps_predicate_of]. Qed.
Lemma keeps_predicate p : keeps (up_p p).
Proof. apply (predicate_raw_induction K KP); [apply keeps_imut_of|apply keeps_predicate_of]. Qed.
Hint Resolve keeps_imut keeps_predicate : keeps.

(** ** Expressions, functions and scripts *)
Abbreviation KX := (λ r, keeps (up_expr limit r)).
Lemma keeps_x_match t cs : each_all (x_clause KX) cs → keeps (up_match up_i up_p (up_expr limit) replace_last expr_is_null t cs).
Proof.
  intros H. apply keeps_match; [apply keeps_imut|]. revert H. apply each_all_impl. intros [p g es] He.
  split; [apply r_pattern_intro; [apply keeps_imut|apply keeps_predicate]|].
  split; [apply opt_intro, keeps_imut|exact He].
Qed.
Lemma keeps_x_comprehension t cs : each_all (x_case KX) cs → keeps (up_comprehension up_i (up_expr limit) replace_last t cs).
Proof.
  intros H. apply keeps_comprehension; [apply keeps_imut|]. revert H. apply each_all_impl. intros [k w g es] He.
  split; [apply opt_intro, keeps_imut|exact He].
Qed.
Lemma keeps_path_ p : keeps (up_path up_i p).
Proof. apply keeps_path, r_path_intro, keeps_imut. Qed.
Lemma keeps_port port : keeps (up_opt up_i port).
Proof. apply keeps_opt, opt_intro, keeps_imut. Qed.
Hint Resolve keeps_path_ keeps_port keeps_x_match keeps_x_comprehension : keeps.
Lemma keeps_expr r : keeps (up_expr limit r).
Proof. apply (expr_raw_induction KX). clear r. intros r H. cbv beta in *. destruct r; cbn [up_expr x_sub] in *; keeps. Qed.
Hint Resolve keeps_expr : keeps.
Lemma keeps_body es : keeps (up_vec (up_expr limit) es).
Proof. apply keeps_vec, each_intro, keeps_expr. Qed.
Hint Resolve keeps_body : keeps.
Lemma keeps_fn args open body : keeps body → keeps (up_fn args open body).
Proof. intros Hb. unfold up_fn. keeps. Qed.
Lemma keeps_define_fn f : keeps (define_fn limit f).
Proof.
  unfold define_fn, up_any_fn. apply keeps_bind; [|intros ?; keeps].
  destruct f; (apply keeps_bind; [apply keeps_fn; keeps|intros ?; keeps]).
Qed.
Hint Resolve keeps_define_fn : keeps.

(** A module that is defined is left again. *)
Lemma module_each (l : list expr_raw) h h' r : each_all (λ r, keeps (define limit r)) l →
  up_each (define limit) l h = (h', UOk r) → module h' = module h.
Proof. intros H. by apply keeps_each. Qed.
Lemma keeps_define r : keeps (define limit r).
Proof.
  apply (expr_raw_induction (λ r, keeps (define limit r))). clear r. intros r H. cbv beta in *.
  destruct r; cbn [define x_sub] in *; try solve [keeps].
  intros h h' a Ha. apply up_bind_Ok in Ha as (h1 & ? & [= <- _] & Ha).
  apply up_bind_Ok in Ha as (h2 & ? & He & [= <- _]). apply module_each in He; [|done].
  cbn. rewrite He. cbn. by rewrite removelast_last.
Qed.
Hint Resolve keeps_define : keeps.
Lemma keeps_top b r : keeps (up_top limit b r).
Proof. destruct r; cbn [up_top]; keeps. Qed.
Hint Resolve keeps_top : keeps.
Lemma keeps_tops rs : keeps (up_tops limit rs).
Proof. induction rs; cbn [up_tops]; keeps. Qed.
Lemma keeps_script rs : keeps (up_script limit rs).
Proof. unfold up_script. pose proof (keeps_tops rs). keeps. Qed.
End imut.
End parts.

(** ** Visitors *)
Section walks.
Context `{sl : !script_lib, vt : !value_trait, ho : !hash_order string, an : !analysis, re : !registries}.
Variable limit : N.

Definition walk_keeps (A : Type) (m : walk_m helper up_error A) : Prop :=
  ∀ h h' a, m h = (h', WOk a) → module h' = module h.
Instance walk_keeps_closed : walk_closed walk_keeps.
Proof.
  split; [by intros A x h h' b [= <- _]|]. intros A B m f Hm Hf h h' b. unfold mbind, walk_bind.
  destruct (m h) as [h1 [a|e]] eqn:E; [|done]. intros H. rewrite (Hf a h1 h' b H). by eapply Hm.
Qed.
Lemma of_up_keeps {A} (m : up_m A) : keeps m → walk_keeps A (of_up m).
Proof.
  intros H h h' a. unfold of_up. destruct (m h) as [h1 [b|e]] eqn:E; [|done]. intros [= <- _]. by eapply H.
Qed.
Lemma to_up_keeps {A} (m : walk_m helper up_error A) : walk_keeps A m → keeps (to_up m).
Proof.
  intros H h h' a. unfold to_up. destruct (m h) as [h1 [b|e]] eqn:E; [|done]. intros [= <- _]. by eapply H.
Qed.
Lemma keeps_rewrite args e : keeps (rewrite_expr args e).
Proof.
  apply to_up_keeps, walk_expr_holds; [apply _|]. split; [intros ?; apply closed_ret..|].
  intros p. destruct p; try apply closed_ret. apply closed_bind; [apply of_up_keeps, keeps_reserve|]. intros var.
  apply closed_bind; [apply of_up_keeps, keeps_end|]. intros ?. apply closed_ret.
Qed.
Lemma keeps_reduce_expr e : keeps (reduce_expr limit e).
Proof.
  apply to_up_keeps, walk_expr_holds; [apply _|]. split; [intros ?; apply closed_ret| |intros ?; apply closed_ret].
  intros x. apply of_up_keeps, keeps_reduce.
Qed.
Lemma keeps_group_by args : ∀ g, keeps (rewrite_group_by args g).
Proof.
  fix IH 1. intros [e|items|e]; cbn [rewrite_group_by].
  - pose proof (keeps_rewrite args e). keeps.
  - apply keeps_bind; [|intros ?; keeps]. induction items as [|g items IHi]; cbn; [keeps|].
    apply keeps_bind; [apply IH|]. intros ?. apply keeps_bind; [exact IHi|]. intros ?. keeps.
  - pose proof (keeps_rewrite args e). keeps.
Qed.
Lemma keeps_rewrite_select args s : keeps (rewrite_select args s).
Proof.
  unfold rewrite_select. apply keeps_bind; [apply keeps_rewrite|]. intros ?.
  do 2 (apply keeps_bind; [apply keeps_opt, opt_intro, keeps_rewrite|]; intros ?).
  apply keeps_bind; [apply keeps_opt, opt_intro, keeps_group_by|]. intros ?. keeps.
Qed.
Lemma keeps_up_group_by : ∀ g, keeps (up_group_by limit g).
Proof.
  fix IH 1. intros [e|items|e]; cbn [up_group_by].
  - pose proof (keeps_imut limit e). keeps.
  - apply keeps_bind; [|intros ?; keeps]. apply keeps_vec, each_intro. exact IH.
  - pose proof (keeps_imut limit e). keeps.
Qed.
End walks.

(** ** Names *)
Definition plain_name (n : string) : bool :=
  match n with String c _ => negb (c =? "_")%char | EmptyString => false end.

(** Modules, scripts, subqueries and what is made of them have plain names. *)
Fixpoint plain_stmt (s : stmt_raw) : bool :=
  match s with
  | QModuleStmt name stmts => plain_name name && forallb plain_stmt stmts
  | QSubqueryDecl id _ subquery _ _ => plain_name id && forallb plain_stmt subquery
  | QSubqueryStmt c => plain_name (cr_id c)
  | QScriptDecl d => plain_name (sd_id d)
  | _ => true
  end.

(** Names that are internal to something internal. *)
Definition nested_prefix : string := "__SUBQ___".
Definition opens_plain (s : string) : Prop := ∀ t, String.prefix nested_prefix (s +:+ t) = false.

Lemma prefix_cons c d s t :
  String.prefix (String c s) (String d t) = if ascii_dec c d then String.prefix s t else false.
Proof. reflexivity. Qed.
Lemma app_cons c s t : String c s +:+ t = String c (s +:+ t).
Proof. reflexivity. Qed.
Lemma prefix_app (a s t : string) : String.prefix (a +:+ s) (a +:+ t) = String.prefix s t.
Proof. induction a as [|c a IH]; [done|]. rewrite !app_cons, prefix_cons. destruct (ascii_dec c c); [apply IH|done]. Qed.
Lemma string_app_assoc (s t u : string) : (s +:+ t) +:+ u = s +:+ (t +:+ u).
Proof. induction s as [|c s IH]; [done|]. by rewrite !app_cons, IH. Qed.
Lemma nested_prefix_app : nested_prefix = "__SUBQ__"%string +:+ "_"%string.
Proof. reflexivity. Qed.

Lemma plain_opens s : plain_name s = true → opens_plain s.
Proof.
  destruct s as [|c s]; [done|]. intros Hc%negb_true_iff%Ascii.eqb_neq t.
  unfold nested_prefix. rewrite app_cons, prefix_cons. destruct (ascii_dec "_" c); [by subst|done].
Qed.
Lemma mangle_opens self id : plain_name self = true → opens_plain (mangle_id self id).
Proof.
  destruct self as [|c s]; [done|]. intros Hc%negb_true_iff%Ascii.eqb_neq t.
  unfold mangle_id. rewrite string_app_assoc, nested_prefix_app, prefix_app, string_app_assoc, app_cons, prefix_cons.
  destruct (ascii_dec "_" c); [by subst|done].
Qed.
Lemma mangle_nested self x y t : String.prefix nested_prefix (mangle_id (mangle_id self x) y +:+ t) = true.
Proof.
  unfold mangle_id. by rewrite !string_app_assoc, nested_prefix_app, prefix_app.
Qed.

(** The name of a declaration begins with the outermost module. *)
Lemma qualified_opens m ms id : ∃ t, NodeId.qualified (m :: ms) id = m +:+ t.
Proof.
  unfold NodeId.qualified. destruct ms as [|m' ms]; cbn [String.concat]; [by eexists|].
  eexists. rewrite !string_app_assoc. reflexivity.
Qed.

(** ** The state of the inlining *)
Section sat.
Context `{sl : !script_lib, vt : !value_trait, ho : !hash_order string, an : !analysis, re : !registries}.
Context `{sr : !script_runtime, se : !select_runtime}.
Variable limit : N.

Abbreviation modules h := (module (q_helper h)).
Definition good_module (m : list string) : Prop := match m with [] => True | m :: _ => opens_plain m end.
(** No declaration has a name that is internal to something internal. *)
Record clean (h : qhelper) : Prop := {
  clean_module : good_module (modules h);
  clean_defns : ∀ k d, subquery_defns h !! k = Some d →
    String.prefix nested_prefix k = false ∧ forallb plain_stmt d.2 = true;
}.

Definition sat {A} (m : q_m A) (h : qhelper) (Q : A → qhelper → Prop) : Prop :=
  match m h with (h', QOk a) => Q a h' | (_, QErr e) => e ≠ QOutOfFuel end.
Lemma sat_bind {A B} (m : q_m A) (f : A → q_m B) h Q : sat m h (λ a h', sat (f a) h' Q) → sat (m ≫= f) h Q.
Proof. unfold sat, mbind, q_bind. by destruct (m h) as [h' [a|e]]. Qed.
Lemma sat_mono {A} (m : q_m A) h (Q Q' : A → qhelper → Prop) : sat m h Q → (∀ a h', Q a h' → Q' a h') → sat m h Q'.
Proof. unfold sat. destruct (m h) as [h' [a|e]]; auto. Qed.

(** Steps that leave the module as they find it, where it is one of those
    [P] allows. *)
Definition rests (P : list string → Prop) {A} (m : q_m A) : Prop :=
  ∀ h, clean h → P (modules h) → sat m h (λ _ h', clean h' ∧ modules h' = modules h).

Lemma rests_ret P {A} (a : A) : rests P (mret a).
Proof. intros h Hc _. by split. Qed.
Lemma rests_fail P {A} e : e ≠ QOutOfFuel → rests P (q_fail e : q_m A).
Proof. by intros He h _ _. Qed.
Lemma rests_gets P {A} (f : qhelper → A) : rests P (q_gets f).
Proof. intros h Hc _. by split. Qed.
Lemma rests_bind P {A B} (m : q_m A) (f : A → q_m B) : rests P m → (∀ a, rests P (f a)) → rests P (m ≫= f).
Proof.
  intros Hm Hf h Hc Hi. apply sat_bind. eapply sat_mono; [by apply Hm|]. intros a h1 [Hc1 E1].
  eapply sat_mono; [apply Hf; [done|by rewrite E1]|]. intros b h2 [Hc2 E2]. split; [done|by rewrite E2].
Qed.
Lemma rests_modify P f : (∀ h, modules (f h) = modules h ∧ subquery_defns (f h) = subquery_defns h) → rests P (q_modify f).
Proof.
  intros Hf h [Hm Hd] _. destruct (Hf h) as [Em Ed]. split; [|done]. split; [by rewrite Em|by rewrite Ed].
Qed.
Lemma rests_helper P {A} (m : up_m A) : keeps m → rests P (in_helper m).
Proof.
  intros Hk h [Hm Hd] _. unfold sat, in_helper. destruct (m (q_helper h)) as [x [a|e]] eqn:E; [|done].
  apply Hk in E. cbn. rewrite E. split; [|done]. split; cbn; [by rewrite E|done].
Qed.
Lemma rests_each P {A B} (f : A → q_m B) l : (∀ x, x ∈ l → rests P (f x)) → rests P (q_each f l).
Proof.
  induction l as [|x l IH]; intros Hf; cbn; [apply rests_ret|].
  apply rests_bind; [apply Hf; by left|]. intros y. apply rests_bind; [apply IH; intros z Hz; apply Hf; by right|].
  intros ys. apply rests_ret.
Qed.
Lemma rests_opt P {A B} (f : A → q_m B) o : (∀ x, rests P (f x)) → rests P (q_opt f o).
Proof. intros Hf. destruct o; cbn; [|apply rests_ret]. apply rests_bind; [apply Hf|]. intros y. apply rests_ret. Qed.
Lemma rests_weaken (P P' : list string → Prop) {A} (m : q_m A) : (∀ ms, P ms → P' ms) → rests P' m → rests P m.
Proof. intros Hp H h Hc Hi. by apply H, Hp. Qed.

(** Steps that leave the innermost module, and a module that is entered. *)
Definition exits (P : list string → Prop) {A} (m : q_m A) : Prop :=
  ∀ h, clean h → P (modules h) → sat m h (λ _ h', clean h' ∧ modules h' = removelast (modules h)).
Lemma exits_bind P {A B} (m : q_m A) (f : A → q_m B) : rests P m → (∀ a, exits P (f a)) → exits P (m ≫= f).
Proof.
  intros Hm Hf h Hc Hi. apply sat_bind. eapply sat_mono; [by apply Hm|]. intros a h1 [Hc1 E1].
  eapply sat_mono; [apply Hf; [done|by rewrite E1]|]. intros b h2 [Hc2 E2]. split; [done|by rewrite E2, E1].
Qed.
Lemma exits_pop P {A} (m : q_m A) : rests (λ _, True) m → exits P (pop_module;; m).
Proof.
  intros Hm h [Hg Hd] _. apply sat_bind. cbn. apply Hm; [|done]. split; [|exact Hd].
  cbn. by destruct (modules h) as [|m0 [|m1 ms]].
Qed.
Lemma exits_pop_last P : exits P pop_module.
Proof.
  intros h [Hg Hd] _. split; [|done]. split; [|exact Hd]. cbn. by destruct (modules h) as [|m0 [|m1 ms]].
Qed.
Lemma rests_push P {A} n (m : q_m A) : (P [] → opens_plain n) → exits (λ ms, last ms = Some n) m → rests P (push_module n;; m).
Proof.
  intros Hn Hm h [Hg Hd] Hi. apply sat_bind. cbn.
  set (h1 := set_q_helper (set_module (modules h ++ [n]) (q_helper h)) h).
  assert (clean h1) as Hc1.
  { split; [|done]. cbn. destruct (modules h) as [|m0 ms]; [|exact Hg].
    exact (Hn Hi). }
  eapply sat_mono; [apply Hm; [exact Hc1|by apply last_snoc]|].
  intros a h2 [Hc2 E2]. split; [done|]. rewrite E2. cbn. apply removelast_last.
Qed.

(** ** Parameters and declarations *)
Lemma rests_params P p : rests P (up_params limit p).
Proof.
  destruct p as [l|m]; [|apply rests_ret]. apply rests_bind; [|intros ?; apply rests_ret].
  apply rests_each. intros [n e] _. apply rests_bind; [|intros ?; apply rests_ret].
  apply rests_helper, keeps_bind; [apply keeps_imut|intros ?; apply keeps_into_value].
Qed.
Lemma rests_params_opt P p : rests P (q_opt (up_params limit) p).
Proof. apply rests_opt, rests_params. Qed.
Lemma rests_inline_params P args p : rests P (inline_params limit args p).
Proof.
  destruct p as [l|m]; [|by apply rests_fail]. apply rests_bind; [|intros ?; apply rests_ret].
  apply rests_each. intros [n e] _. apply rests_bind; [|intros ?; apply rests_ret].
  apply rests_helper. repeat (apply keeps_bind; [|intros ?]); eauto using keeps_imut, keeps_rewrite, keeps_reduce_expr, keeps_into_value.
Qed.
Lemma rests_inline_params_opt P args p : rests P (q_opt (inline_params limit args) p).
Proof. apply rests_opt. intros. apply rests_inline_params. Qed.
End sat.
Create HintDb rests.
#[export] Hint Resolve rests_ret rests_gets rests_params rests_params_opt rests_inline_params rests_inline_params_opt : rests.
#[export] Hint Extern 1 (rests _ (q_fail _)) => (apply rests_fail; done) : rests.
#[export] Hint Extern 1 (rests _ (q_modify _)) => (apply rests_modify; done) : rests.
#[export] Hint Extern 1 (rests _ current_module) => apply rests_gets : rests.
Ltac rests :=
  repeat first
    [ assumption
    | solve [eauto 2 with rests]
    | apply rests_bind; [|intros ?]
    | match goal with |- rests _ (match ?x with _ => _ end) => destruct x end ].

Section steps.
Context `{sl : !script_lib, vt : !value_trait, ho : !hash_order string, an : !analysis, re : !registries}.
Context `{sr : !script_runtime, se : !select_runtime}.
Variable limit : N.

Lemma rests_operator_decl P d : rests P (up_operator_decl limit d).
Proof. unfold up_operator_decl. rests. Qed.
Lemma rests_window_decl P d : rests P (up_window_decl limit d).
Proof.
  unfold up_window_decl. apply rests_bind; [|intros ?; rests]. apply rests_opt. intros s.
  apply rests_helper, keeps_script.
Qed.
Lemma rests_script_decl P d : (P [] → opens_plain (sd_id d)) → rests P (up_script_decl limit d).
Proof.
  intros Hn. unfold up_script_decl. apply rests_push; [done|].
  apply exits_bind; [apply rests_helper, keeps_script|]. intros s.
  apply exits_bind; [rests|]. intros m. apply exits_bind; [rests|]. intros p. apply exits_pop. rests.
Qed.

Lemma app_nil (s : string) : s +:+ "" = s.
Proof. induction s as [|c s IH]; [done|]. by rewrite app_cons, IH. Qed.
Lemma declared_name m id : good_module m → plain_name id = true → String.prefix nested_prefix (NodeId.qualified m id) = false.
Proof.
  intros Hm Hid. destruct m as [|m ms].
  - cbn. rewrite <-(app_nil id). by apply plain_opens.
  - destruct (qualified_opens m ms id) as [t ->]. apply Hm.
Qed.
Lemma rests_subquery_decl P id params sq from into :
  plain_name id = true → forallb plain_stmt sq = true → rests P (up_subquery_decl limit id params sq from into).
Proof.
  intros Hid Hsq. unfold up_subquery_decl. destruct (port_stream _ sq); [by apply rests_fail|].
  intros h Hc Hi. apply sat_bind. cbn.
  set (m := module (q_helper h)). apply sat_bind. eapply sat_mono; [by apply (rests_params_opt limit P)|].
  intros ps h1 [Hc1 E1]. cbn zeta. apply sat_bind. cbn.
  destruct (subquery_defns h1 !! _) eqn:Hk; [done|]. apply sat_bind. cbn.
  split; [|exact E1]. split; [apply Hc1|]. cbn. intros k d. rewrite lookup_insert_Some.
  intros [[<- <-]|[_ Hd]]; [|by eapply clean_defns]. split; [|exact Hsq].
  apply declared_name; [apply Hc|done].
Qed.

(** ** Modules *)

Lemma rests_define_in : ∀ s name, plain_stmt s = true → rests (λ ms, last ms = Some name) (define_in limit name s).
Proof.
  fix IH 1. intros s name. destruct s; cbn [plain_stmt define_in]; intros Hs; try by apply rests_fail.
  - apply rests_bind; [apply rests_window_decl|]. intros ?. rests.
  - apply rests_bind; [apply rests_operator_decl|]. intros ?. rests.
  - apply rests_bind; [apply rests_script_decl; intros; by apply plain_opens|]. intros ?. rests.
  - apply andb_true_iff in Hs as [Hi Hs]. apply rests_bind; [by apply rests_subquery_decl|]. intros ?. rests.
  - apply andb_true_iff in Hs as [Hn Hs]. apply rests_push; [intros; by apply plain_opens|].
    apply exits_bind; [|intros ?; apply exits_pop_last]. clear Hn.
    induction stmts as [|s ss IHs]; cbn in *; [apply rests_ret|]. apply andb_true_iff in Hs as [H1 H2].
    apply rests_bind; [by apply IH|]. intros ?. apply rests_bind; [by apply IHs|]. intros ?. apply rests_ret.
  - intros h Hc Hl. apply sat_bind. eapply sat_mono; [by apply (exits_pop_last (λ _, True))|]. intros _ h1 [Hc1 E1].
    apply sat_bind. eapply sat_mono; [apply (rests_helper (λ _, True) _ (keeps_define limit (XModule name [e]))); done|].
    intros _ h2 [Hc2 E2]. cbn.
    assert (module (q_helper h2) ++ [name] = module (q_helper h)) as E3.
    { rewrite E2, E1. destruct (module (q_helper h)) as [|m ms] using rev_ind; [done|].
      rewrite last_snoc in Hl. injection Hl as ->. by rewrite removelast_last. }
    unfold sat. cbn. rewrite E3. split; [|done]. split; [apply Hc|apply Hc2].
Qed.
Lemma rests_module P n stmts :
  plain_name n = true → forallb plain_stmt stmts = true → rests P (define_module limit n stmts).
Proof.
  intros Hn Hs. apply rests_push; [intros; by apply plain_opens|]. apply exits_bind; [|intros ?; apply exits_pop_last].
  apply rests_each. intros s Hin. apply rests_define_in. eapply forallb_forall; [exact Hs|]. by apply list_elem_of_In.
Qed.

(** ** Selects and statements *)
Lemma rests_no_locals P b : rests P (no_locals b).
Proof. unfold no_locals. apply rests_bind; [apply rests_gets|]. intros h. rests. Qed.
Lemma rests_check_target P ws g t : rests P (check_target ws g t).
Proof. unfold check_target. rests. Qed.
Lemma rests_imut P r : rests P (in_helper (up_imut limit r)).
Proof. apply rests_helper, keeps_imut. Qed.
Lemma rests_imut_opt P o : rests P (in_helper (up_opt (up_imut limit) o)).
Proof. apply rests_helper, keeps_opt, opt_intro, keeps_imut. Qed.
Lemma rests_group_by P o : rests P (in_helper (up_opt (up_group_by limit) o)).
Proof. apply rests_helper, keeps_opt, opt_intro, keeps_up_group_by. Qed.
Hint Resolve rests_no_locals rests_check_target rests_imut rests_imut_opt rests_group_by : rests.
Lemma rests_select P s : rests P (up_select limit s).
Proof. unfold up_select. rests. Qed.
Hint Resolve rests_select : rests.
Lemma rests_select_stmt P s : rests P (up_select_stmt limit s).
Proof. unfold up_select_stmt. rests. Qed.
Lemma rests_operator P c : rests P (up_operator limit c).
Proof. unfold up_operator. rests. Qed.
Lemma rests_script_stmt P c : rests P (up_script_stmt limit c).
Proof. unfold up_script_stmt. rests. Qed.
Hint Resolve rests_select_stmt rests_operator rests_script_stmt rests_operator_decl rests_window_decl : rests.
Lemma rests_stmt P s : plain_stmt s = true → rests P (up_stmt limit s).
Proof.
  destruct s; cbn [plain_stmt up_stmt]; intros Hs; try solve [rests].
  - apply rests_bind; [apply rests_script_decl; intros; by apply plain_opens|]. intros ?. rests.
  - apply andb_true_iff in Hs as [Hi Hs]. apply rests_bind; [by apply rests_subquery_decl|]. intros ?. rests.
Qed.

Section inline_stmt.
Variables (inl : create_raw → q_m (list Stmt * SubqueryStmt)) (self m : string) (args : value) (ports : list string).
Variable P : list string → Prop.
Hypothesis Hinl : ∀ params c, plain_name (cr_id c) = true →
  rests P (inl (in_module m (with_params params (rename (mangle_id self (cr_id c)) c)))).
Lemma rests_inline_stmt s : plain_stmt s = true → rests P (inline_stmt limit inl self m args ports s).
Proof.
  destruct s; cbn [plain_stmt inline_stmt]; intros Hs; try solve [rests].
  - apply rests_bind; [rests|]. intros p. apply rests_bind; [by apply rests_stmt|]. intros ?. rests.
  - apply rests_bind; [rests|]. intros p. apply rests_bind; [by apply rests_stmt|]. intros ?. rests.
  - apply rests_bind; [rests|]. intros u. apply rests_bind; [|intros ?; rests].
    apply rests_helper, keeps_rewrite_select.
  - apply andb_true_iff in Hs as [Hn Hs]. apply rests_bind; [by apply rests_module|]. intros ?. rests.
  - apply rests_bind; [by apply rests_stmt|]. intros ?. rests.
Qed.
End inline_stmt.

(** ** Inlining, by how deep it is *)
Lemma rests_inline_step P fuel c :
  (P [] → opens_plain (mangle_id (cr_id c) (cr_id c))) →
  (∀ params c', plain_name (cr_id c') = true →
     rests (λ ms, last ms = Some (mangle_id (cr_id c) (cr_id c)))
       (inline limit fuel (in_module (mangle_id (cr_id c) (cr_id c)) (with_params params (rename (mangle_id (cr_id c) (cr_id c')) c'))))) →
  rests P (inline limit (S fuel) c).
Proof.
  intros Hn Hin h Hc Hp. cbn [inline]. apply sat_bind. cbn.
  destruct (subquery_defns h !! _) as [[decl raw]|] eqn:Hd; [|done].
  destruct (clean_defns h Hc _ _ Hd) as [_ Hraw]. cbn in Hraw.
  revert h Hc Hp Hd. intros h Hc Hp _. revert h Hc Hp. apply rests_push; [exact Hn|].
  apply exits_bind; [rests|]. intros ps. apply exits_bind; [unfold get_args_map; rests|]. intros args.
  apply exits_bind; [|intros l; apply exits_pop; rests].
  apply rests_each. intros s Hs. apply rests_inline_stmt; [exact Hin|].
  apply elem_of_app in Hs as [Hs|Hs].
  - by apply list_elem_of_fmap in Hs as (p & -> & _).
  - eapply forallb_forall; [exact Hraw|]. by apply list_elem_of_In.
Qed.
(** Nothing is found under the name of a nested subquery. *)
Lemma rests_inline_deep P fuel c x y z ms :
  cr_module c = mangle_id (mangle_id x y) z :: ms → rests P (inline limit (S fuel) c).
Proof.
  intros Hm h Hc Hp. cbn [inline]. apply sat_bind. cbn.
  destruct (subquery_defns h !! _) as [[decl raw]|] eqn:Hd; [|done].
  destruct (clean_defns h Hc _ _ Hd) as [Hk _]. rewrite Hm in Hk.
  destruct (qualified_opens (mangle_id (mangle_id x y) z) ms (cr_target c)) as [t Ht].
  by rewrite Ht, mangle_nested in Hk.
Qed.
Lemma rests_inline_nested P fuel c x y :
  (P [] → False) → cr_id c = mangle_id x y → rests P (inline limit (S (S fuel)) c).
Proof.
  intros Hp Hid. apply rests_inline_step; [by intros ?%Hp|]. intros ps c' Hc'. rewrite Hid.
  by eapply rests_inline_deep.
Qed.
Lemma rests_inline P fuel c : plain_name (cr_id c) = true → rests P (inline limit (S (S (S fuel))) c).
Proof.
  intros Hid. apply rests_inline_step; [intros _; by apply mangle_opens|]. intros ps c' Hc'.
  by eapply rests_inline_nested.
Qed.
End steps.

(** ** More fuel changes nothing *)
Section fuel.
Context `{sl : !script_lib, vt : !value_trait, ho : !hash_order string, an : !analysis, re : !registries}.
Context `{sr : !script_runtime, se : !select_runtime}.
Variable limit : N.

Definition less {A} (m1 m2 : q_m A) : Prop := ∀ h, (m1 h).2 = QErr QOutOfFuel ∨ m1 h = m2 h.
Lemma less_refl {A} (m : q_m A) : less m m.
Proof. intros h. by right. Qed.
Lemma less_bind {A B} (m1 m2 : q_m A) (f1 f2 : A → q_m B) :
  less m1 m2 → (∀ a, less (f1 a) (f2 a)) → less (m1 ≫= f1) (m2 ≫= f2).
Proof.
  intros Hm Hf h. unfold mbind, q_bind. destruct (Hm h) as [E| ->].
  - left. destruct (m1 h) as [h1 r]. cbn in E. by subst.
  - destruct (m2 h) as [h1 [a|e]]; [apply Hf|by right].
Qed.
Lemma less_each {A B} (f1 f2 : A → q_m B) l : (∀ x, less (f1 x) (f2 x)) → less (q_each f1 l) (q_each f2 l).
Proof.
  intros Hf. induction l as [|x l IH]; cbn; [apply less_refl|].
  apply less_bind; [apply Hf|]. intros y. apply less_bind; [exact IH|]. intros ys. apply less_refl.
Qed.
Lemma less_inline_stmt i1 i2 self m args ports s :
  (∀ c, less (i1 c) (i2 c)) → less (inline_stmt limit i1 self m args ports s) (inline_stmt limit i2 self m args ports s).
Proof.
  intros Hi. destruct s; try apply less_refl. cbn [inline_stmt].
  apply less_bind; [apply less_refl|]. intros ps. apply less_bind; [apply Hi|]. intros r. apply less_refl.
Qed.
Lemma less_inline n : ∀ c, less (inline limit n c) (inline limit (S n) c).
Proof.
  induction n as [|n IH]; intros c; [by left|].
  change (less (inline limit (S n) c) (inline limit (S (S n)) c)). cbn [inline].
  apply less_bind; [apply less_refl|]. intros [[decl raw]|]; [|apply less_refl].
  apply less_bind; [apply less_refl|]. intros _. apply less_bind; [apply less_refl|]. intros ps.
  apply less_bind; [apply less_refl|]. intros args. apply less_bind; [|intros l; apply less_refl].
  apply less_each. intros s. apply less_inline_stmt. exact IH.
Qed.
Lemma less_query n q : less (up_query limit n q) (up_query limit (S n) q).
Proof.
  apply less_bind; [|intros ?; apply less_refl]. apply less_each. intros s. destruct s; try apply less_refl.
  apply less_bind; [apply less_inline|]. intros r. apply less_refl.
Qed.

Lemma new_helper_clean : clean new_qhelper.
Proof. split; [done|]. intros k d. cbn. by rewrite lookup_empty. Qed.

(** C17: Elaborating a query ends: where no module, script or subquery has a name that
    begins with an underscore, as internal names do, subqueries are inlined
    into each other at most three deep, so that three units of fuel are always
    enough, and more change nothing. *)
Theorem build_query_terminates q fuel :
  forallb plain_stmt (r_stmts q) = true →
  build_query limit 3 q ≠ QErr QOutOfFuel ∧ build_query limit (3 + fuel) q = build_query limit 3 q.
Proof.
  intros Hq. set (P := λ _ : list string, True).
  assert (∀ n, build_query limit (3 + n) q ≠ QErr QOutOfFuel) as Hn.
  { intros n. assert (rests P (up_query limit (3 + n) q)) as Hs.
    { apply rests_bind.
      - apply rests_each. intros s Hs. assert (plain_stmt s = true) as Hp.
        { eapply forallb_forall; [exact Hq|]. by apply list_elem_of_In. }
        destruct s; cbn [up_top_stmt]; try (apply rests_bind; [by apply rests_stmt|intros ?; apply rests_ret]).
        + apply rests_bind; [by apply rests_inline|intros ?; apply rests_ret].
        + apply andb_true_iff in Hp as [H1 H2].
          apply rests_bind; [by apply rests_module|intros ?; apply rests_ret].
      - intros stmts. apply rests_bind; [apply rests_params|]. intros config.
        apply rests_bind; [apply rests_gets|]. intros h. apply rests_ret. }
    specialize (Hs _ new_helper_clean I). unfold sat in Hs. unfold build_query.
    destruct (up_query limit (3 + n) q new_qhelper) as [h [r|e]]; [done|]. cbn. congruence. }
  split; [exact (Hn 0)|]. induction fuel as [|n IH]; [done|]. rewrite <-IH.
  destruct (less_query (3 + n) q new_qhelper) as [E|E]; [by destruct (Hn n)|].
  replace (3 + S n) with (S (3 + n)) by lia. exact (f_equal snd (eq_sym E)).
Qed.
End fuel.
