(* ===== verification/QueryUpRun.v ===== *)
(** Queries from their raw syntax to the events that leave their pipeline:
    witnesses, examples, and what inlining does not do. *)
From S2P Require Import Prelude Window Select SimpleSelect QueryAst Lang QueryUp.
From S2P Require Import EventIds Value ValueOrd Event OpsBasic Backpressure Graph Optimize Wal Url Repository Grouper Operators Query QueryRun.
From S2P Require Import ScriptOps Bits Ast Interp ScriptMatch ScriptFold ScriptGroup RawAst ScriptUp Walkers QueryUp QueryUpSpec.

Module QueryUpExample.
#[local] Existing Instance QueryExample.store.
#[local] Existing Instance QueryExample.json.
#[local] Existing Instance QueryExample.windows.
#[local] Existing Instance QueryExample.cache.
#[local] Existing Instance QueryExample.writer.
#[local] Existing Instance QueryExample.ports.
#[local] Existing Instance QueryExample.urls.
#[local] Existing Instance QueryExample.configs.
#[local] Existing Instance QueryExample.graphs.
#[local] Remove Hints QueryExample.lang QueryExample.targets : typeclass_instances.

(** Aggregate functions are values, [sum] is a constant. *)
#[local] Instance no_analysis : analysis :=
  Build_analysis some_lib (λ _, 0%N) (λ _ _, false) (λ _ _, false) val_eq
    (λ e f, match e, f with ILiteral v, ILiteral w => val_eq v w | _, _ => false end) (λ _ _, eq_refl).
#[local] Instance sum_registry : registries := {|
  find_fn _ _ := None;
  find_aggr m f := if bool_decide (m = "stats" ∧ f = "sum")%string then Some (from_u64 0 : @aggr_fn some_lib) else None;
  aggr_valid_arity _ n := (n =? 1)%N;
  new_extractor _ _ := None |}.
#[local] Instance still_runtime : select_runtime :=
  @Build_select_runtime some_lib (λ f, f) (λ _ f, (f, IoOk tt)) (λ f _, (f, IoOk tt)) (λ _ c, c)
    (λ _ _, ""%string) (λ _, IoOk ""%string).
Local Open Scope string_scope.

(** ** Building queries *)
Definition event : imut_raw := RPath (REventPath []).
Definition arg (x : string) : imut_raw := RPath (RArgsPath [from_id x]).
Definition select_ (e : imut_raw) (from into : string) : stmt_raw :=
  QSelect (SelectRaw (from, None) (into, None) e None None None None).
Definition query_ (id : string) (params : option params_raw) (l : list stmt_raw) : stmt_raw :=
  QSubqueryDecl id params l None None.
Definition create_ (id target : string) (params : option params_raw) : stmt_raw :=
  QSubqueryStmt (CreateRaw [] id target params).
Definition num (n : N) : imut_raw := RLiteral (from_u64 n).
Definition build (l : list stmt_raw) : qres QueryAst.Query := build_query 1024 3 (QueryRaw [] l).

Definition describe (s : QueryAst.Stmt) : list string :=
  match s with
  | SStream x => ["stream " +:+ x]
  | SSelect s => ["select from " +:+ (sel_from s).1 +:+ " into " +:+ (sel_into s).1]
  | SSubqueryStmt s => ["query " +:+ sq_id s]
  | SSubqueryDecl d => ["define " +:+ NodeId.fqn (qd_node_id d)]
  | SOperator s => ["operator " +:+ NodeId.target_fqn (os_target s) (os_node_id s)]
  | SOperatorDecl d => ["define " +:+ NodeId.fqn (od_node_id d)]
  | _ => []
  end.
Definition refused (l : list stmt_raw) : option query_error :=
  match build l with QOk _ => None | QErr e => Some e end.
Definition shape (l : list stmt_raw) : qres (list string) :=
  match build l with QOk q => QOk (q_stmts q ≫= describe) | QErr e => QErr e end.

(** [define query adder with n = 1 query select event + args.n from in into out end] *)
Definition adder : stmt_raw :=
  query_ "adder" (Some (ParamsRaw [("n", num 1)])) [select_ (RBinary Add event (arg "n")) "in" "out"].
Definition use (id : string) : list stmt_raw := [select_ event "in" id; select_ event id "out"].
Definition adds (n : N) : list stmt_raw :=
  [adder; create_ "plus" "adder" (Some (ParamsRaw [("n", num n)]))] ++ use "plus".

Example adder_inlined :
  shape (adds 41) =
  QOk ["define adder"; "query plus"; "stream __SUBQ__plus_in"; "stream __SUBQ__plus_out"; "stream __SUBQ__plus_err";
       "select from __SUBQ__plus_in into __SUBQ__plus_out"; "select from in into plus"; "select from plus into out"].
Proof. vm_compute. reflexivity. Qed.

(** *** The pipeline of a query, and what leaves it for an event *)
Abbreviation graph := (ExecutableGraph (boxed (Store := MemDb.t) (C := N * list (string * (N * N * N * N))))).
Definition pipeline_of (l : list stmt_raw) : result graph :=
  match build l with
  | QOk q => (to_pipe QueryExample.open_none q 0).2
  | QErr _ => Err (EMsg "the query is not accepted")
  end.
Definition not_built (l : list stmt_raw) : option error :=
  match pipeline_of l with Ok _ => None | Err e => Some e end.
Definition answers (l : list stmt_raw) (v : value) : result (list (string * value)) :=
  match pipeline_of l with
  | Ok g =>
    match enqueue 100 "in" (Event.set_data (ValueAndMeta.from_value v) Event.default) g [] with
    | Some (_, rs, Ok _) => Ok ((λ r, (r.1, Event.payload_value r.2)) <$> rs)
    | Some (_, _, Err e) => Err e
    | None => Err EUndefined
    end
  | Err e => Err e
  end.

(** The argument given for the subquery is added to the event. *)
Example adder_adds : answers (adds 41) (from_u64 1) = Ok [("out", from_u64 42)].
Proof. vm_compute. reflexivity. Qed.
Example adder_default :
  answers ([adder; create_ "plus" "adder" None] ++ use "plus") (from_u64 1) = Ok [("out", from_u64 2)].
Proof. vm_compute. reflexivity. Qed.

(** A subquery of a subquery has the arguments it is given. *)
Definition nested : list stmt_raw :=
  [query_ "twice" (Some (ParamsRaw [("m", num 5)]))
     ([adder; create_ "plus" "adder" (Some (ParamsRaw [("n", RBinary Mul (arg "m") (num 2))]))] ++ use "plus");
   create_ "t" "twice" None] ++ use "t".
Example nested_adds : answers nested (from_u64 1) = Ok [("out", from_u64 11)].
Proof. vm_compute. reflexivity. Qed.

(** ** The theorems at these queries *)
Definition declared : qhelper := (q_each (up_top_stmt 1024 3) [adder] new_qhelper).1.
Definition plus : create_raw := CreateRaw [] "plus" "adder" None.
Definition inlined : list QueryAst.Stmt * SubqueryStmt :=
  match (inline 1024 3 plus declared).2 with QOk r => r | QErr _ => ([], mk_subquery_stmt [] "" ∅) end.
Definition is_QOk {A} (r : qres A) : bool := match r with QOk _ => true | QErr _ => false end.

Lemma inline_ports_witness :
  is_QOk (inline 1024 3 plus declared).2 = true ∧
  ∃ decl raw, subquery_defns declared !! "adder" = Some (decl, raw) ∧ sq_id inlined.2 = "plus" ∧
    (∀ port, port ∈ (qd_from decl ++ qd_into decl)%list →
       port_stream_map inlined.2 !! port = Some (mangle_id "plus" port) ∧ SStream (mangle_id "plus" port) ∈ inlined.1) ∧
    (∀ port, port ∉ (qd_from decl ++ qd_into decl)%list → port_stream_map inlined.2 !! port = None) ∧
    Forall internal_stmt inlined.1.
Proof.
  assert (is_QOk (inline 1024 3 plus declared).2 = true) as Hok by (vm_compute; reflexivity).
  split; [exact Hok|].
  destruct (inline_ports 1024 3 plus declared (inline 1024 3 plus declared).1 inlined.1 inlined.2)
    as (decl & raw & Hd & H).
  - unfold inlined. by destruct (inline 1024 3 plus declared) as [h' [[stmts sq]|e]].
  - exists decl, raw. split; [exact Hd|exact H].
Defined.

Lemma build_query_terminates_witness :
  forallb plain_stmt nested = true ∧
  build_query 1024 3 (QueryRaw [] nested) ≠ QErr QOutOfFuel ∧
  build_query 1024 10 (QueryRaw [] nested) = build_query 1024 3 (QueryRaw [] nested).
Proof.
  assert (forallb plain_stmt nested = true) as Hp by reflexivity. split; [exact Hp|].
  apply (build_query_terminates 1024 (QueryRaw [] nested) 7 Hp).
Defined.

(** ** What inlining does not do *)

(** A subquery that is declared in a subquery of a subquery is not found. *)
Definition inside (name : string) (l : list stmt_raw) : stmt_raw := query_ name None (l ++ use "q").
Definition pass : stmt_raw := query_ "third" None [select_ event "in" "out"].
Definition second : stmt_raw := inside "second" [pass; create_ "q" "third" None].
Definition first : stmt_raw := inside "first" [second; create_ "q" "second" None].
Example two_deep : refused ([second; create_ "q" "second" None] ++ use "q") = None.
Proof. vm_compute. reflexivity. Qed.
Example three_deep :
  refused ([first; create_ "q" "first" None] ++ use "q") =
  Some (QNotFound "__SUBQ____SUBQ__q_q___SUBQ__q_q::third").
Proof. vm_compute. reflexivity. Qed.

(** Nor is an operator of such a subquery. *)
Definition counting : stmt_raw :=
  query_ "counting" None
    [QOperatorDecl (OperatorDeclRaw "counter" (mk_kind "generic" "counter") None);
     QOperator (CreateRaw [] "c" "counter" None); select_ event "in" "c"; select_ event "c" "out"].
Example operator_found :
  not_built ([counting; create_ "q" "counting" None] ++ use "q") = None.
Proof. vm_compute. reflexivity. Qed.
Example operator_not_found :
  not_built ([inside "outer" [counting; create_ "q" "counting" None]; create_ "q" "outer" None] ++ use "q") =
  Some (EMsg "operator not found").
Proof. vm_compute. reflexivity. Qed.

(** The stream [b_c] of the subquery [a] and the stream [c] of the subquery
    [a_b] have the same name. *)
Definition with_stream (name stream : string) : stmt_raw := query_ name None [QStream stream; select_ event "in" "out"].
Example names_collide :
  not_built [with_stream "x" "b_c"; with_stream "y" "c"; create_ "a" "x" None; create_ "a_b" "y" None] =
  Some (EDoubleStream "__SUBQ__a_b_c").
Proof. vm_compute. reflexivity. Qed.

(** The arguments of aggregate functions still refer to [args]. *)
Definition summing : stmt_raw :=
  query_ "summing" (Some (ParamsRaw [("n", num 1)]))
    [select_ (RInvoke ["aggr"; "stats"] "sum" [arg "n"]) "in" "out"].
Definition select_aggrs (s : QueryAst.Stmt) : list imut_expr :=
  match s with
  | SSelect s => Window.aggregates (sel_stmt s) ≫= λ a : select_aggr, se_expr <$> sa_args a
  | _ => []
  end.
Example aggregate_arguments_kept :
  match build ([summing; create_ "s" "summing" None] ++ use "s") with
  | QOk q => q_stmts q ≫= select_aggrs
  | QErr _ => []
  end = [IPath (ArgsPath [SegId "n"])].
Proof. vm_compute. reflexivity. Qed.

(** Parameters for a subquery that declares none are accepted, and lost. *)
Example undeclared_parameters :
  refused [pass; create_ "q" "third" (Some (ParamsRaw [("x", num 1)]))] = None ∧
  refused [adder; create_ "q" "adder" (Some (ParamsRaw [("x", num 1)]))] = Some QUnknownParameter.
Proof. split; vm_compute; reflexivity. Qed.

(** Two scripts of a query cannot have a constant of the same name. *)
Definition script_with_const (name : string) : stmt_raw :=
  QScriptDecl (ScriptDeclRaw name None [XConst "x" (num 1); XImut event]).
Example constants_shared :
  refused [script_with_const "a"] = None ∧
  refused [script_with_const "a"; script_with_const "b"] = Some (QUp (UpDoubleConst "x")).
Proof. split; vm_compute; reflexivity. Qed.

(** A record with a constant field and one that is computed from the arguments
    loses the constant field: it is reduced twice. *)
Definition record_param : imut_raw := RRecord [FieldRaw [RLit "a"] (num 1); FieldRaw [RLit "b"] (arg "m")].
Definition showing : stmt_raw := query_ "showing" (Some (ParamsRaw [("n", num 1)])) [select_ (arg "n") "in" "out"].
Definition passing : stmt_raw :=
  query_ "passing" (Some (ParamsRaw [("m", num 2)]))
    ([showing; create_ "q" "showing" (Some (ParamsRaw [("n", record_param)]))] ++ use "q").
Example constant_field_lost :
  answers ([passing; create_ "p" "passing" None] ++ use "p") const_null = Ok [("out", VObject {["b" := from_u64 2]})].
Proof. vm_compute. reflexivity. Qed.
End QueryUpExample.
